(* ===== verification/_CoqProject ===== *)
-Q . S2P
Prelude.v
Naming.v
GoStrings.v
FieldMeta.v
Notification.v
Errors.v
BaseEntity.v
Aggregate.v
AggregateProps.v
AggregateRootProps.v
AggregateClaims.v
Rules.v
Entity.v
EntityProps.v
EntityClaims.v
Resilience.v
HttpClient.v
ResilienceClaims.v
Criteria.v
CriteriaSql.v
Dialects.v
CriteriaProps.v
CriteriaMeaning.v
CriteriaAlias.v
CriteriaClaims.v
Translation.v
Pipeline.v
Queries.v
Handlers.v
QueriesClaims.v
QuerySchema.v
GrammarClaims.v
FieldClaims.v
PipelineClaims.v
HandlerClaims.v
WriteSchema.v
WriteSql.v
Engines.v
WriteSqlProps.v
EngineProps.v
Persister.v
PersisterVerbs.v
EngineClaims.v
PersisterProps.v
PersisterClaims.v
WriteClaims.v
CommandClaims.v
Mongo.v
Projection.v
ProjectionProps.v
ProjectionOwn.v
Consult.v
ProjectionClaims.v
Sync.v
SyncProps.v
SyncRuns.v
SyncClaims.v
Rebuild.v
RebuildRuns.v
RebuildParity.v
RebuildClaims.v
ViewGraph.v
ViewGraphClaims.v
Reconcile.v
ReconcileClaims.v
Cache.v
CacheClaims.v
HttpCache.v
HttpCacheClaims.v
DirectWrite.v
DirectUpsert.v
DirectClaims.v
Hydrate.v
HydrateProps.v
Composer.v
ComposerProps.v
ComposerRoles.v
ComposerWhole.v
ComposerClaims.v
PayloadClaims.v
