(* ===== verification/Prelude.v ===== *)
(** * omnicore: a verification development of its core

    omnicore is a Go framework for services built as domain, commands and queries.
    A request enters through HTTP, GraphQL or gRPC ([web/]), is dispatched by the
    pipeline ([application/pipeline]) to a handler ([application/handlers]), which
    loads or builds an entity ([domain/]), applies a change and asks for a sealed
    write ([GetInsertable], [GetUpdatable], ...).  The entity validates itself, its
    value objects and its children and reports by notifications; a sealed value is
    what the persister ([infra/db/command/write]) turns into one transaction of
    statements, hooks, an audit row and an outbox row.  The sync engine
    ([infra/db/query]) consumes the outbox and projects each event to documents of a
    read store.  Reads of the relational side go through the criteria DSL and its compiler ([infra/db/criteria], [infra/db/core]).  Calls to
    other services leave through [infra/httpclient], on the resilience kernel of
    [infra/resilience].

    ** How the code is modelled

    Definitions carry the Go names.  A pure function is a function; a method that
    mutates its receiver takes and returns the record that models the receiver.  A
    call that can fail or panic has type [Outcome] ([Ret], [Fail], [Panic]); code
    that threads a mutable entity through such calls is written in the state monad
    [GoM], with [gdefer] for a deferred call.  Go ints are [Z], wrapped by [wrap64]
    where they can overflow; Go strings are byte strings; maps are [gmap]s; a nil
    pointer is [None].  Shared mutable objects are one record reached by references
    ([Notification.CtxRef] for scoped views of one context; the base entity that
    an aggregate root and an entity embed).

    Code that is not under [src/] is a parameter: the uuid parser, the random
    source, the clock, the transport, [connect.NewErrorDetail], the LIKE operator
    of an engine, the JSON encoder, the document store ([Mongo.Mongo] where documents are
    written, [Composer.Store] where they are found), and the database itself, a
    [Persister.Backend] that answers each statement from a state of its own where it is
    written and the query function of [Hydrate.Engine] where it is read.  The persister records
    what it sends in a trace, so a theorem about statements is one about every
    database.  Code a service plugs in is a parameter too, or a syntax of what it
    may call: [Rules.RuleBody], [Entity.CmdBody] and [Persister.HookBody] are the
    bodies of [BuildRules], of an apply function and of a write hook as trees of
    the calls they make, with arbitrary continuations, so a theorem about every
    body is a theorem about every service.  Iteration over a Go map is a parameter
    that gives an order ([ed_iter]).

    ** Files

    - [Prelude] (this file): outcomes, the state monad, 64-bit ints, list updates,
      the hint database [omnicore].
    - [Naming]: [domain/wire_names.go] and the path half of [domain/notification.go].
    - [GoStrings]: the functions of Go's [strings] the sources use.
    - [FieldMeta]: [domain/field_label.go], [domain/field_ref.go]; reflected types
      are the inductive [GoType].
    - [Notification]: [domain/notification.go], [notification_core.go],
      [notification_semantic.go].
    - [Errors]: the domain errors of [domain/errors.go] and the sentinels the
      handlers and the persister answer with.
    - [BaseEntity]: [domain/id.go], [mode.go], [managed.go], [event.go] and the
      receiver of [domain/entity_base.go].
    - [Aggregate]: [domain/aggregate_root.go], [aggregate_status.go],
      [aggregate_item.go], over the interface [AVOOps]/[AVOLaws] that
      [domain/aggregate_vo.go] states of a child.  [AggregateProps] and
      [AggregateRootProps] carry its lemmas, [AggregateClaims] its theorems.
    - [Rules]: [domain/rules.go], the value-object pass of [entity_base.go] and
      [domain/value_object.go]; the host of a rule pass is the class
      [RuleHost]/[RuleHostLaws].
    - [Entity]: the lifecycle of [domain/entity_base.go], [domain/clone.go] and
      [domain/entity.go], an instance of [RuleHost] over [Aggregate].
      [EntityProps] carries its lemmas, [EntityClaims] its theorems.
    - [Resilience], [HttpClient], [ResilienceClaims]: [infra/resilience] and the
      retry and breaker middlewares of [infra/httpclient].
    - [Criteria], [CriteriaSql], [Dialects]: the DSL of [infra/db/criteria], its
      compiler [infra/db/core/criteria_sql.go] over the dialect seam, and the
      Postgres and MySQL dialects.  The compiler writes tokens, so that words,
      identifiers and placeholders stay apart; [sqlText] is the string.
      [CriteriaProps] (good fragments, the class [DialectLaws]), [CriteriaMeaning]
      (what a walk binds, checks and depends on), [CriteriaAlias] and
      [CriteriaClaims] carry the lemmas and theorems.
    - [Translation], [Pipeline], [PipelineClaims]: [application/translation],
      [application/pipeline], [application/notifications] and the HTTP and gRPC
      envelopes of [web/].
    - [Queries], [QueriesClaims]: [application/queries]: projections, the
      restriction of fields, the context hash of a cursor, pages.
    - [QuerySchema], [GrammarClaims]: the query grammar of [web/queryschema], the
      decoding of a query string in [web/handle_query.go] and of a cursor.
    - [Handlers], [HandlerClaims]: the nine command handlers of
      [application/handlers] over [application/persistence]'s seams.
    - [FieldClaims]: theorems on names, paths and field references.
    - [WriteSchema], [WriteSql]: the write side of [infra/db/core/table_schema.go]
      and the statement builders of [infra/db/command/write] (insert, update,
      archive, delete, child and shared-base statements, stamp plans and guards).
      [WriteSqlProps] shows each builder well-formed.
    - [Persister], [PersisterVerbs]: the engine of [infra/db/command/write]: the
      transaction, hooks, audit and outbox rows, payloads; then the five verbs with
      children, siblings, cascades and the shared base.  [PersisterProps] carries
      the reasoning on runs and traces, [PersisterClaims] and [WriteClaims] the
      theorems.
    - [Engines]: the Oracle, SQL Server and SQLite dialects, their upserts and the
      driver-error classifiers of all five engines.  [EngineProps] discharges the
      dialect laws for them, so that every theorem on statements holds on the five;
      [EngineClaims] has the theorems.
    - [CommandClaims]: the handlers run on the persister.
    - [Mongo]: the document store of the read side: values, documents, the
      aggregation expressions the projection renders, and the server as the class
      [Mongo] with the documented behaviour the code relies on as [MongoLaws];
      [Mongo.Reference] is an evaluator that satisfies them.
    - [Projection], [Consult]: [infra/db/query/payload_decode.go],
      [payload_project.go] and [consult_guard.go]: from an outbox event or a
      composed document to an update pipeline.  [ProjectionProps] and
      [ProjectionOwn] carry the lemmas, [ProjectionClaims] the theorems.
    - [Sync]: [infra/db/query/sync.go] and [projection_state.go] as programs
      [SyncM] over the calls they make.  [SyncProps] runs a pool of programs on a
      store, call by call and with faults; [SyncRuns] reasons on the traces of one
      program under arbitrary answers; [SyncClaims] has the theorems.
    - [Rebuild]: the blue-green rebuild of a view ([infra/db/query/resolver.go],
      [slots.go], [view_registry.go], [drift.go], [verify.go], [rebuild.go]) as
      programs [RebM] over their calls.  [RebuildRuns] runs them in a world that other
      processes change between two calls, [RebuildParity] shows what the verification
      of a slot did before it ended well, [RebuildClaims] has the theorems.
    - [ViewGraph], [ViewGraphClaims]: the walks of [view.go] over the
      views that embed views: the cycle guard and the order of a rebuild.
    - [Reconcile], [ReconcileClaims]: the parity sweep of [reconcile.go].
    - [DirectWrite], [DirectUpsert], [DirectClaims]: writes over one table with no
      aggregate, [direct_write.go], on the persister's builders and backend.
    - [Cache], [CacheClaims]: the in-process store of
      [infra/cache/memory.go] and the port [Cache]/[CacheLaws] its clients rely on;
      [HttpCache], [HttpCacheClaims]: the response cache of
      [infra/httpclient] over any store of that port.
    - [Hydrate], [HydrateProps]: [infra/db/hydrate], the reads of an aggregate as a
      document, one by one and by the batch.  [Composer]: [infra/db/query/composer.go],
      [composer_batch.go], [embed_fields.go], the document of a view.  An array of
      documents is a reference into a heap, since the groups of a batched lookup are
      shared by documents and rewritten in place.  [ComposerProps]
      and [ComposerRoles] carry the lemmas of each step, [ComposerWhole] the specification of a document and the two paths against it, [ComposerClaims] the
      theorem.
    - [PayloadClaims]: the identity block between the write and the read side.

    ** What the theorems show

    Entities: a sealed write is a valid one, for every entity type, rule body and
    apply function; no notification is lost; the mode and id gates always report; a
    halted pass blocks the write; the rules window closes on every way out; the old
    state is the birth state; what an update may be sealed as.

    Aggregates: the identity contract over every sequence of operations in which no
    change takes over the identity of a removed child; a full
    replace refines its reference result and its write plan; the insert, update
    and delete lists partition a collection; every guarded operation is all or
    nothing; undeclared children are rejected.

    Handlers: they write only valid entities, keep the persisted state they loaded
    and never write after a failed load or a refused rule.

    Writes: every verb refines an atomic specification (all of its statements
    commit, or the database is as before); a committed write leaves one outbox row, about
    the row it wrote;
    every statement issued has as many arguments as placeholders and names columns
    of the schema, on each of the five engines, whose upserts bind in order and whose
    duplicate-key errors cannot be made to name another constraint; an update carries the revision guard and a stale one is answered
    as a conflict; the operations a payload announces are those of the statements.
    [CommandClaims] puts the layers together: a command is at most one transaction, the
    engine's write of the value its verb sealed from a valid entity.

    Resilience: the breaker's invariant over every sequence of events, its trip
    point, its single probe and its recovery; bounds and curve of the backoff with
    64-bit overflow; the retry loop terminates within its attempts and an open
    breaker ends it without touching the upstream.

    Criteria: placeholders and arguments correspond at every depth; the archive
    gate is a conjunct whatever the predicate; the text is made of safe pieces and
    does not depend on the values; accepted subqueries passed every check; aliases
    of nested scopes never collide; text searches are literal.

    Queries: a restricted field is hidden from the projection and from filters and
    restrictions accumulate; a cursor is bound to the query that made it.  A request
    is accepted exactly when it stays within what the DTOs of its endpoint declare;
    its filter is the conjunction of its terms; a stored field is rendered exactly
    when it was asked for; a refusal names what the request carried; a spelled
    request is read back.

    Pipeline and transports: the status of every outcome of a handler; HTTP and
    gRPC agree; the gRPC error carries the REST envelope; interpolation is one
    pass; names, paths and references resolve canonically.

    Projection: redeliveries of an aggregate's events converge to the document each
    event once leaves; a shared base follows its last writer whatever the order and
    the roles; a fan-out stays within the base; a child array refines its rows; a
    composed document obeys the revision guard.  Sync: a deleted document stays gone
    under every interleaving of stale writers and deleters on a faulty store, if its id
    had one life; every event is reported once, as done only when it was projected or its
    park was answered, a refused park included; an event's own
    documents are always attempted; the base revision is recorded before a fan-out
    searches.  The identity block of an event survives the wire.  Rebuilds: readers
    are only moved to a slot after a verification that read or repaired every row and
    removed every orphan, whatever others do; a rebuild that starts from a current pointer
    keeps off the slot that serves reads; the fence makes every process see an announced rebuild; the boot
    refuses exactly the cyclic embed graphs, and sources are rebuilt before the views
    that embed them.  Reconciliation: a sweep ends, and one that repaired what it
    found has attended to every row that lived through it.  Composition: the document of one
    root and those of a batch are what the view declares of their rows.  Direct writes: one statement behind the
    archive gate, one row or nothing, and an upsert that means its slots.  Caches: the in-process store is a list
    kept most recent first, answers the last value set and keeps the keys in use; a
    response served from a store that began empty is a fresh upstream answer, with ASCII
    headers, to a request with the same key, and a key that the call does not choose holds
    what its parts say and nothing else, for names without the separator.

    Some theorems show where the code departs from what it says, on concrete runs:
    [add_can_duplicate_an_identity], [change_can_misfile_a_child],
    [archive_request_survives_a_check], [events_of_an_apply_are_dropped],
    [backoff_overflow_drops_to_zero], [stale_success_admits_second_probe],
    [huge_retry_after_is_not_waited], [empty_id_probe_binds_empty_text],
    [smallest_int_has_no_digits], [last_restriction_reexposes_the_first],
    [restriction_misses_nested_paths], [inserted_child_loses_its_stamp],
    [removed_child_is_announced_with_a_zero_stamp],
    [archive_payload_omits_stamps],
    [base_child_archive_goes_back], [second_life_zombie_survives],
    [rebirth_depends_on_the_column_name], [empty_list_filter_is_dropped],
    [selecting_a_parent_loses_a_source], [unknown_operator_boots],
    [refused_park_is_reported_done], [separator_in_a_name_collides],
    [stale_pointer_drops_the_serving_slot], [aborted_rebuild_is_recorded_done],
    [one_lease_is_not_enough], [base_urls_share_an_entry],
    [escaped_paths_share_an_entry], [no_store_is_a_miss],
    [stamped_key_is_reassigned], [unarchive_without_a_column_panics].

    ** Bounds and fuel

    [itoa_digits], [hexDigits], [HttpClient.retryLoop], [Rebuild.chunks],
    [Hydrate.inChunks], the walks of [ViewGraph] and [Reconcile.sweep] run on fuel.  The
    20-byte buffer of [itoa] is the code's own, and [itoa_read] shows it is enough
    for every int; 16 digits hold a 64-bit hash; [retryLoop] starts with the
    remaining attempts as fuel, and [retry_is_bounded] shows it returns; a list is cut
    with its length as fuel ([chunks_concat]); a graph is walked with the number of its
    names, and its theorems show the walk returns; a sweep gets one page for each key
    and one more ([reconciliation_ends]); the keys of a lookup are cut with their number
    as fuel ([Hydrate.inChunks]).  All other recursion is structural.

    ** Not modelled

    Error texts, log lines, spans and the time a call takes.  A rule body that
    empties the notification context, a hook that runs a counted statement, a publisher
    that panics, driver messages of other forms than the ones [duplicateError] lists.  The
    source under a composition does not change while it reads.  The programs of [Sync], [Rebuild]
    and [Reconcile] call the composer as they call the stores, and their theorems hold for
    any answer of it.  The deep copy of [cloneEntity] (a JSON round
    trip), which is a parameter.  The replay of a request body between attempts.
    Data races: the breaker and the translator hold a mutex over each operation, so
    an operation is one step.  The diff of an audit event, built by reflection over
    the entity, is a parameter of the persister.  Layers built on this core that
    are the plan of what comes next, in this order: the view
    readers of [infra/db/query], the aggregate
    loader of [infra/db/command/read], the configuration merge of [infra/httpclient].  Driver code, migrations,
    message transports, authentication, GraphQL, OpenAPI, exports and bootstrap
    are I/O or wiring over external services. *)

From stdpp Require Import base gmap strings list fin_maps.
From Stdlib Require Import ZArith Lia.

(** ** Go results and control flow *)

(** What a Go call that may fail or unwind gives back: a value, an [error]
    result, or a panic with its message. *)
Inductive Outcome (E A : Type) : Type :=
| Ret (a : A)
| Fail (e : E)
| Panic (msg : string).

Arguments Ret {E A} a.
Arguments Fail {E A} e.
Arguments Panic {E A} msg.

Definition obind {E A B} (c : Outcome E A) (k : A -> Outcome E B) : Outcome E B :=
  match c with
  | Ret a => k a
  | Fail e => Fail e
  | Panic m => Panic m
  end.

Declare Scope go_scope.
Delimit Scope go_scope with go.
Notation "'let*' x ':=' c 'in' k" := (obind c (fun x => k))
  (at level 10, x binder, c at level 100, k at level 200) : go_scope.

(** Code that mutates a state and may fail or unwind: the state survives in all
    three cases, as a Go object does. *)
Definition GoM (St E A : Type) : Type := St -> St * Outcome E A.

Definition gret {St E A} (a : A) : GoM St E A := fun s => (s, Ret a).
Definition gfail {St E A} (e : E) : GoM St E A := fun s => (s, Fail e).
Definition gpanic {St E A} (m : string) : GoM St E A := fun s => (s, Panic m).
Definition gget {St E} : GoM St E St := fun s => (s, Ret s).
Definition gmodify {St E} (f : St -> St) : GoM St E unit := fun s => (f s, Ret tt).

Definition gbind {St E A B} (c : GoM St E A) (k : A -> GoM St E B) : GoM St E B :=
  fun s =>
    match c s with
    | (s', Ret a) => k a s'
    | (s', Fail e) => (s', Fail e)
    | (s', Panic m) => (s', Panic m)
    end.

(** [defer]: [f] runs on the state whatever the outcome. *)
Definition gdefer {St E A} (f : St -> St) (c : GoM St E A) : GoM St E A :=
  fun s => let '(s', r) := c s in (f s', r).

Notation "x <- c ;; k" := (gbind c (fun x => k))
  (at level 90, c at next level, right associativity) : go_scope.
Notation "c ;;; k" := (gbind c (fun _ => k))
  (at level 90, right associativity) : go_scope.

(** ** Machine integers *)

(** Two's complement reduction to Go's [int64] (and [int] on 64-bit targets). *)
Definition wrap64 (z : Z) : Z := (z + 2 ^ 63) `mod` 2 ^ 64 - 2 ^ 63.

Definition int64_min : Z := (- 2 ^ 63)%Z.
Definition int64_max : Z := (2 ^ 63 - 1)%Z.

Definition is_int64 (z : Z) : Prop := (int64_min <= z <= int64_max)%Z.

(** ** Strings *)

(** Go's [strings.Join]. *)
Fixpoint joinStr (sep : string) (parts : list string) : string :=
  match parts with
  | [] => ""
  | [p] => p
  | p :: rest => (p +:+ sep +:+ joinStr sep rest)%string
  end.

(** ** Lists *)

(** The recurring Go loop [for i, x := range l { if p(x) { l[i] = f(x); return } }]:
    rewrite the first element that satisfies [p]; [None] when the loop falls
    through. *)
Fixpoint update_first {A} (p : A -> bool) (f : A -> A) (l : list A) : option (list A) :=
  match l with
  | [] => None
  | x :: rest => if p x then Some (f x :: rest) else cons x <$> update_first p f rest
  end.

(** The first index from [i] on whose element satisfies [p]. *)
Fixpoint find_index_from {A} (i : nat) (p : A -> bool) (l : list A) : option nat :=
  match l with
  | [] => None
  | x :: rest => if p x then Some i else find_index_from (S i) p rest
  end.

(** ** Lemmas on machine integers *)

Lemma wrap64_range z : is_int64 (wrap64 z).
Proof.
  unfold is_int64, wrap64, int64_min, int64_max.
  pose proof (Z.mod_pos_bound (z + 2 ^ 63) (2 ^ 64)). lia.
Qed.

Lemma wrap64_id z : is_int64 z -> wrap64 z = z.
Proof.
  unfold is_int64, wrap64, int64_min, int64_max. intros H.
  rewrite Z.mod_small; lia.
Qed.

(** ** Lemmas on stateful code *)

Lemma gbind_Ret {St E A B} (c : GoM St E A) (k : A -> GoM St E B) s s' b :
  gbind c k s = (s', Ret b) <-> exists a s1, c s = (s1, Ret a) /\ k a s1 = (s', Ret b).
Proof. unfold gbind. destruct (c s) as [s1 [a|e|m]]; naive_solver. Qed.

(** Code that relates the states before and after it by [R], however it ends. *)
Definition gmono {St E A} (R : relation St) (c : GoM St E A) : Prop :=
  forall s, R s (c s).1.

Section Gmono.
Context {St E : Type} (R : relation St) `{!PreOrder R}.

Lemma gmono_ret {A} (a : A) : gmono (E := E) R (gret a).
Proof. intros s. simpl. reflexivity. Qed.

Lemma gmono_fail {A} (e : E) : gmono (A := A) R (gfail e).
Proof. intros s. simpl. reflexivity. Qed.

Lemma gmono_panic {A} m : gmono (E := E) (A := A) R (gpanic m).
Proof. intros s. simpl. reflexivity. Qed.

Lemma gmono_get : gmono (E := E) R gget.
Proof. intros s. simpl. reflexivity. Qed.

Lemma gmono_modify f : (forall s, R s (f s)) -> gmono (E := E) R (gmodify f).
Proof. intros Hf s. apply Hf. Qed.

Lemma gmono_bind {A B} (c : GoM St E A) (k : A -> GoM St E B) :
  gmono R c -> (forall a, gmono R (k a)) -> gmono R (gbind c k).
Proof.
  intros Hc Hk s. unfold gbind. specialize (Hc s). destruct (c s) as [s1 [a|e|m]]; simpl in *; [|done|done].
  etrans; [exact Hc|apply Hk].
Qed.

Lemma gmono_defer {A} f (c : GoM St E A) : gmono R c -> (forall s, R s (f s)) -> gmono R (gdefer f c).
Proof.
  intros Hc Hf s. unfold gdefer. specialize (Hc s). destruct (c s) as [s1 r]. simpl in *.
  etrans; [exact Hc|apply Hf].
Qed.

End Gmono.

(** ** Lemmas on strings *)

Lemma string_app_cons c (a b : string) : (String.String c a +:+ b) = String.String c (a +:+ b).
Proof. reflexivity. Qed.

Lemma string_app_nil_l (a : string) : (String.EmptyString +:+ a) = a.
Proof. reflexivity. Qed.

Lemma string_app_assoc (a b c : string) : ((a +:+ b) +:+ c) = (a +:+ (b +:+ c)).
Proof.
  induction a as [|x a IH]; [reflexivity|]. by rewrite !string_app_cons, IH.
Qed.

Lemma string_app_nil_r (a : string) : (a +:+ String.EmptyString) = a.
Proof. induction a as [|x a IH]; [reflexivity|]. by rewrite string_app_cons, IH. Qed.

(** ** Lemmas on the first-match loop *)

Section UpdateFirst.
Context {A : Type} (p : A -> bool) (f : A -> A).

Lemma update_first_None l :
  update_first p f l = None <-> Forall (fun x => p x = false) l.
Proof.
  induction l as [|x l IH]; simpl.
  - split; auto.
  - destruct (p x) eqn:E.
    + split; [done | intros H; inversion H; congruence].
    + rewrite fmap_None, IH, Forall_cons. naive_solver.
Qed.

Lemma update_first_Some l l' :
  update_first p f l = Some l' <->
  exists l1 x l2, l = l1 ++ x :: l2 /\ Forall (fun y => p y = false) l1 /\
                  p x = true /\ l' = l1 ++ f x :: l2.
Proof.
  revert l'. induction l as [|x l IH]; intros l'; simpl.
  - split; [done | intros ([] & ? & ? & ? & _); simplify_eq].
  - destruct (p x) eqn:E.
    + split.
      * intros [= <-]. exists [], x, l. auto.
      * intros ([|y l1] & x' & l2 & Heq & Hall & Hp & ->); simplify_eq/=; auto.
        inversion Hall; congruence.
    + split.
      * intros (t & Ht & ->)%fmap_Some.
        apply IH in Ht as (l1 & y & l2 & -> & ? & ? & ->).
        exists (x :: l1), y, l2. repeat split; auto.
      * intros ([|y l1] & x' & l2 & Heq & Hall & Hp & ->); simplify_eq/=; [congruence|].
        apply Forall_cons in Hall as [_ Hall].
        apply fmap_Some. exists (l1 ++ f x' :: l2). split; [|done].
        apply IH. eauto 10.
Qed.

Lemma update_first_length l l' :
  update_first p f l = Some l' -> length l' = length l.
Proof.
  intros (l1 & x & l2 & -> & _ & _ & ->)%update_first_Some.
  by rewrite !length_app.
Qed.

End UpdateFirst.

Lemma find_index_from_Some {A} (p : A -> bool) l i n :
  find_index_from i p l = Some n <->
  exists x, i <= n /\ l !! (n - i) = Some x /\ p x = true /\
            forall m y, m < n - i -> l !! m = Some y -> p y = false.
Proof.
  revert i n. induction l as [|x l IH]; intros i n; simpl.
  - split; [done | intros (? & _ & H & _); done].
  - destruct (p x) eqn:E.
    + split.
      * intros [= ->]. exists x. rewrite Nat.sub_diag. simpl. repeat split; auto; lia.
      * intros (y & Hle & Hy & Hp & Hall).
        destruct (n - i) as [|m] eqn:Em; simpl in *; [f_equal; lia|].
        specialize (Hall 0 x). simpl in Hall. rewrite Hall in E; try done; lia.
    + rewrite IH. split.
      * intros (y & Hle & Hy & Hp & Hall). exists y.
        replace (n - i) with (S (n - S i)) by lia. simpl. repeat split; auto; [lia|].
        intros [|m] z Hm Hz; simpl in *; [congruence|]. apply (Hall m z); [lia|done].
      * intros (y & Hle & Hy & Hp & Hall).
        destruct (n - i) as [|m] eqn:Em; simpl in *; [congruence|].
        exists y. replace (n - S i) with m by lia. repeat split; auto; [lia|].
        intros j z Hj Hz. apply (Hall (S j) z); [lia|done].
Qed.

Lemma list_alter_mid {A} (f : A -> A) (l1 : list A) x l2 :
  alter f (length l1) (l1 ++ x :: l2) = l1 ++ f x :: l2.
Proof. induction l1 as [|y l1 IH]; [done|]. simpl. f_equal. apply IH. Qed.

(** ** Automation *)

Create HintDb omnicore.
Create Rewrite HintDb omnicore.
#[export] Hint Resolve wrap64_range : omnicore.
#[export] Hint Rewrite wrap64_id using (unfold is_int64, int64_min, int64_max in *; lia) : omnicore.

(** Case analysis on the boolean tests and the matches of an executable
    definition, closing the branches that contradict the context. *)
Ltac go_cases :=
  repeat (case_match || case_bool_decide); simplify_eq/=; try done.

(** One goal per element of a closed list [H] ranges over. *)
Ltac enum_elem H :=
  match type of H with
  | ?x ∈ ?l =>
      let l' := eval vm_compute in l in
      replace l with l' in H by (vm_compute; reflexivity);
      repeat (apply elem_of_cons in H as [->|H]);
      try (by apply not_elem_of_nil in H)
  end.
