(* ===== verification/Naming.v ===== *)
(** * Wire names

    The casing and path rendering every notification goes through:
    [domain/wire_names.go] ([toLowerCamel], [WireFieldPath]) and the rendering
    half of [domain/notification.go] ([PathSegment], [renderPath], [itoa]).

    Go strings are byte strings.  The code works on runes, but it only ever
    inspects and rewrites the ASCII range 'A'..'Z', whose bytes never occur
    inside a multi-byte UTF-8 sequence, so on the valid UTF-8 a Go identifier is
    made of the byte-level definitions below are the rune-level ones. *)

From S2P Require Import Prelude.
From stdpp Require Import base gmap strings list fin_maps.
From Stdlib Require Import Ascii ZArith Lia.

Open Scope string_scope.
Open Scope list_scope.

(** ** Casing ([domain/wire_names.go]) *)

Definition isUpperRune (r : ascii) : bool :=
  (65 <=? nat_of_ascii r)%nat && (nat_of_ascii r <=? 90)%nat.

Definition toLowerRune (r : ascii) : ascii :=
  if isUpperRune r then ascii_of_nat (nat_of_ascii r + 32) else r.

(** Length of the leading uppercase run. *)
Fixpoint upperRun (s : string) : nat :=
  match s with
  | "" => 0
  | String c rest => if isUpperRune c then S (upperRun rest) else 0
  end.

(** Lowercase the first [n] runes and leave the rest. *)
Fixpoint lowerFirst (n : nat) (s : string) : string :=
  match n, s with
  | S n, String c rest => String (toLowerRune c) (lowerFirst n rest)
  | _, _ => s
  end.

Definition toLowerCamel (s : string) : string :=
  match s with
  | "" => s
  | String c _ =>
      if negb (isUpperRune c) then s
      else
        let run := upperRun s in
        if (run =? 1)%nat then lowerFirst 1 s
        else if (run =? String.length s)%nat then lowerFirst (String.length s) s
        else lowerFirst (run - 1) s
  end.

(** Go's [strings.Split(s, ".")]: the pieces between the dots, one piece for a
    string without any. *)
Fixpoint splitDot (s : string) : list string :=
  match s with
  | "" => [""]
  | String c rest =>
      if (nat_of_ascii c =? 46)%nat then "" :: splitDot rest
      else match splitDot rest with
           | [] => [String c ""]
           | p :: ps => String c p :: ps
           end
  end.

Fixpoint hasDot (s : string) : bool :=
  match s with
  | "" => false
  | String c rest => (nat_of_ascii c =? 46)%nat || hasDot rest
  end.

Definition WireFieldPath (goPath : string) : string :=
  if negb (hasDot goPath) then toLowerCamel goPath
  else joinStr "." (toLowerCamel <$> splitDot goPath).

(** ** Paths ([domain/notification.go]) *)

(** [Index] is a Go [*int]; [None] is the nil pointer. *)
Record PathSegment := mkPathSegment {
  ps_Name : string;
  ps_Wire : string;
  ps_Index : option Z
}.

Definition IndexSegment (i : Z) : PathSegment := mkPathSegment "" "" (Some i).
Definition NameSegment (name : string) : PathSegment := mkPathSegment name "" None.

#[export] Instance PathSegment_eq_dec : EqDecision PathSegment.
Proof. solve_decision. Defined.

Definition digit (d : Z) : ascii := ascii_of_nat (48 + Z.to_nat d).

(** The digit loop of [itoa]: [fuel] is the 20-byte buffer.  [None] would be the
    index-out-of-range panic of a full buffer. *)
Fixpoint itoa_digits (fuel : nat) (i : Z) (acc : string) : option string :=
  if (i <=? 0)%Z then Some acc
  else match fuel with
       | O => None
       | S fuel => itoa_digits fuel (Z.quot i 10) (String (digit (Z.rem i 10)) acc)
       end.

Definition itoa (i : Z) : string :=
  if (i =? 0)%Z then "0"
  else
    let neg := (i <? 0)%Z in
    let i := if neg then wrap64 (- i) else i in
    match itoa_digits 20 i "" with
    | None => ""
    | Some ds => if neg then String "-" ds else ds
    end.

(** The loop of [renderPath]; [wroteAny] is its flag. *)
Fixpoint renderSegs (wroteAny : bool) (path : list PathSegment) : string :=
  match path with
  | [] => ""
  | seg :: rest =>
      match ps_Index seg with
      | Some i => "[" +:+ itoa i +:+ "]" +:+ renderSegs true rest
      | None =>
          if String.eqb (ps_Name seg) "" && String.eqb (ps_Wire seg) "" then
            renderSegs wroteAny rest
          else
            (if wroteAny then "." else "") +:+
            (if negb (String.eqb (ps_Wire seg) "") then ps_Wire seg
             else toLowerCamel (ps_Name seg)) +:+
            renderSegs true rest
      end
  end.

Definition renderPath (path : list PathSegment) : string :=
  match path with
  | [] => ""
  | _ => renderSegs false path
  end.

(** Whether a segment contributes to the rendered path. *)
Definition segVisible (seg : PathSegment) : bool :=
  match ps_Index seg with
  | Some _ => true
  | None => negb (String.eqb (ps_Name seg) "" && String.eqb (ps_Wire seg) "")
  end.

(** The token a visible name segment renders to. *)
Definition segToken (seg : PathSegment) : string :=
  if negb (String.eqb (ps_Wire seg) "") then ps_Wire seg else toLowerCamel (ps_Name seg).

(** ** A reader of decimal integers, the inverse of [itoa] *)

Definition digitValue (c : ascii) : option Z :=
  let n := nat_of_ascii c in
  if (48 <=? n)%nat && (n <=? 57)%nat then Some (Z.of_nat n - 48)%Z else None.

Fixpoint readDigits (acc : Z) (s : string) : option Z :=
  match s with
  | "" => Some acc
  | String c rest => d ← digitValue c; readDigits (acc * 10 + d)%Z rest
  end.

Definition readInt (s : string) : option Z :=
  match s with
  | "" => None
  | String "-" "" => None
  | String "-" ds => Z.opp <$> readDigits 0 ds
  | _ => readDigits 0 s
  end.

(** ** Lemmas on casing *)

Lemma toLowerRune_not_upper c : isUpperRune (toLowerRune c) = false.
Proof.
  unfold toLowerRune. destruct (isUpperRune c) eqn:E; [|done].
  unfold isUpperRune in *. apply andb_true_iff in E as [H1 H2].
  apply Nat.leb_le in H1, H2. rewrite nat_ascii_embedding by lia.
  apply andb_false_iff. right. apply Nat.leb_gt. lia.
Qed.

Lemma toLowerRune_id c : isUpperRune c = false -> toLowerRune c = c.
Proof. intros H. unfold toLowerRune. by rewrite H. Qed.

Lemma toLowerRune_dot c :
  (nat_of_ascii (toLowerRune c) =? 46)%nat = (nat_of_ascii c =? 46)%nat.
Proof.
  unfold toLowerRune. destruct (isUpperRune c) eqn:E; [|done].
  unfold isUpperRune in E. apply andb_true_iff in E as [H1 H2].
  apply Nat.leb_le in H1, H2. rewrite nat_ascii_embedding by lia.
  transitivity false; [|symmetry]; apply Nat.eqb_neq; lia.
Qed.

Lemma lowerFirst_length n s : String.length (lowerFirst n s) = String.length s.
Proof. revert s. induction n as [|n IH]; intros [|c s]; simpl; auto. Qed.

Lemma lowerFirst_hasDot n s : hasDot (lowerFirst n s) = hasDot s.
Proof.
  revert s. induction n as [|n IH]; intros [|c s]; simpl; auto.
  by rewrite toLowerRune_dot, IH.
Qed.

(** The three branches of [toLowerCamel] are one operation: lowercase a prefix,
    at least one rune long when the string starts uppercase. *)
Lemma toLowerCamel_shape s :
  exists n, toLowerCamel s = lowerFirst n s /\
            (forall c r, s = String c r -> isUpperRune c = true -> 1 <= n).
Proof.
  destruct s as [|c s]; [exists 0; naive_solver|].
  unfold toLowerCamel. destruct (isUpperRune c) eqn:E; simpl negb; cbv iota.
  - assert (Hrun : 1 <= upperRun (String c s)) by (simpl; rewrite E; lia).
    destruct (upperRun (String c s) =? 1)%nat eqn:E1; [exists 1; naive_solver|].
    apply Nat.eqb_neq in E1.
    destruct (upperRun (String c s) =? String.length (String c s))%nat.
    + eexists; split; [reflexivity|]. simpl. intros; lia.
    + eexists; split; [reflexivity|]. intros; lia.
  - exists 0. split; [done|]. intros ? ? [= <- <-]. congruence.
Qed.

Lemma toLowerCamel_head s c r :
  toLowerCamel s = String c r -> isUpperRune c = false.
Proof.
  destruct s as [|c' s]; [done|].
  destruct (isUpperRune c') eqn:E.
  - destruct (toLowerCamel_shape (String c' s)) as (n & -> & Hn).
    specialize (Hn c' s eq_refl E). destruct n; [lia|]. simpl.
    intros [= <- _]. apply toLowerRune_not_upper.
  - unfold toLowerCamel. rewrite E. simpl. by intros [= -> _].
Qed.

Lemma toLowerCamel_fixed c r : isUpperRune c = false -> toLowerCamel (String c r) = String c r.
Proof. intros H. unfold toLowerCamel. by rewrite H. Qed.

Lemma toLowerCamel_idem s : toLowerCamel (toLowerCamel s) = toLowerCamel s.
Proof.
  destruct (toLowerCamel s) as [|c r] eqn:E; [done|].
  apply toLowerCamel_fixed. by apply toLowerCamel_head in E.
Qed.

Lemma toLowerCamel_length s : String.length (toLowerCamel s) = String.length s.
Proof. destruct (toLowerCamel_shape s) as (n & -> & _). apply lowerFirst_length. Qed.

Lemma toLowerCamel_hasDot s : hasDot (toLowerCamel s) = hasDot s.
Proof. destruct (toLowerCamel_shape s) as (n & -> & _). apply lowerFirst_hasDot. Qed.

Lemma toLowerCamel_empty s : toLowerCamel s = "" <-> s = "".
Proof.
  split; [|by intros ->]. intros H.
  assert (HL := toLowerCamel_length s). rewrite H in HL. by destruct s.
Qed.

(** ** Lemmas on dotted paths *)

Lemma splitDot_nonempty s : splitDot s <> [].
Proof. destruct s as [|c s]; simpl; [done|]. repeat case_match; done. Qed.

Lemma splitDot_nodots s : Forall (fun p => hasDot p = false) (splitDot s).
Proof.
  induction s as [|c s IH]; simpl; [by repeat constructor|].
  destruct (nat_of_ascii c =? 46)%nat eqn:E; [by constructor|].
  destruct (splitDot s) as [|p ps]; [repeat constructor; simpl; by rewrite E|].
  apply Forall_cons in IH as [Hp Hps]. constructor; [|done]. simpl. by rewrite E, Hp.
Qed.

Lemma splitDot_nodot s : hasDot s = false -> splitDot s = [s].
Proof.
  induction s as [|c s IH]; simpl; [done|].
  intros [E H]%orb_false_iff. by rewrite E, (IH H).
Qed.

Lemma splitDot_app_dot p s :
  hasDot p = false -> splitDot (p +:+ "." +:+ s) = p :: splitDot s.
Proof.
  induction p as [|c p IH]; simpl; [done|].
  intros [E H]%orb_false_iff. by rewrite E, (IH H).
Qed.

Lemma splitDot_joinStr l :
  l <> [] -> Forall (fun p => hasDot p = false) l -> splitDot (joinStr "." l) = l.
Proof.
  induction l as [|p l IH]; intros Hne Hall; [done|].
  apply Forall_cons in Hall as [Hp Hl].
  destruct l as [|q l]; simpl; [by apply splitDot_nodot|].
  rewrite splitDot_app_dot by done. f_equal. by apply IH.
Qed.

Lemma hasDot_joinStr_false l :
  l <> [] -> Forall (fun p => hasDot p = false) l ->
  hasDot (joinStr "." l) = false -> exists p, l = [p].
Proof.
  intros Hne Hall H. pose proof (splitDot_joinStr l Hne Hall) as Hs.
  rewrite (splitDot_nodot _ H) in Hs. eauto.
Qed.

Lemma WireFieldPath_idem s : WireFieldPath (WireFieldPath s) = WireFieldPath s.
Proof.
  unfold WireFieldPath at 2 3. destruct (hasDot s) eqn:E; simpl.
  - set (l := toLowerCamel <$> splitDot s).
    assert (Hne : l <> []).
    { unfold l. intros H%fmap_nil_inv. by apply splitDot_nonempty in H. }
    assert (Hall : Forall (fun p => hasDot p = false) l).
    { unfold l. apply Forall_fmap. eapply Forall_impl; [apply splitDot_nodots|].
      intros p Hp. simpl. by rewrite toLowerCamel_hasDot. }
    assert (Hmap : toLowerCamel <$> l = l).
    { unfold l. rewrite <- list_fmap_compose. apply list_fmap_ext.
      intros. apply toLowerCamel_idem. }
    unfold WireFieldPath. destruct (hasDot (joinStr "." l)) eqn:Ej; simpl.
    + by rewrite splitDot_joinStr, Hmap.
    + destruct (hasDot_joinStr_false l Hne Hall Ej) as (p & Hp).
      rewrite Hp in *. simpl in *. congruence.
  - unfold WireFieldPath. rewrite toLowerCamel_hasDot, E. simpl. apply toLowerCamel_idem.
Qed.

(** ** Lemmas on rendering *)

Lemma renderSegs_app w p q :
  renderSegs w (p ++ q) = renderSegs w p +:+ renderSegs (w || existsb segVisible p) q.
Proof.
  revert w. induction p as [|seg p IH]; intros w; simpl; [by rewrite orb_false_r|].
  unfold segVisible at 1. destruct (ps_Index seg).
  - rewrite IH. simpl. rewrite orb_true_r. by rewrite !string_app_assoc.
  - destruct (String.eqb (ps_Name seg) "" && String.eqb (ps_Wire seg) "") eqn:E; simpl.
    + apply IH.
    + rewrite IH. simpl. rewrite orb_true_r. by rewrite !string_app_assoc.
Qed.

Lemma renderPath_segs p : renderPath p = renderSegs false p.
Proof. by destruct p. Qed.

(** A leaf emitted under a visible prefix renders as the prefix, a dot, and the
    leaf's own rendering. *)
Lemma renderPath_scoped prefix leaf :
  existsb segVisible prefix = true ->
  ps_Index leaf = None -> segVisible leaf = true ->
  renderPath (prefix ++ [leaf]) = renderPath prefix +:+ "." +:+ renderPath [leaf].
Proof.
  intros Hp Hi Hv. rewrite !renderPath_segs, renderSegs_app, Hp. simpl.
  unfold segVisible in Hv. rewrite Hi in *. apply negb_true_iff in Hv. by rewrite Hv.
Qed.

(** ** Lemmas on [itoa] *)

Lemma digitValue_digit d : (0 <= d <= 9)%Z -> digitValue (digit d) = Some d.
Proof.
  intros H. unfold digitValue, digit. rewrite nat_ascii_embedding by lia.
  destruct (48 <=? 48 + Z.to_nat d)%nat eqn:E1; [|apply Nat.leb_gt in E1; lia].
  destruct (48 + Z.to_nat d <=? 57)%nat eqn:E2; [|apply Nat.leb_gt in E2; lia].
  simpl. f_equal. lia.
Qed.

Lemma digit_not_minus d : (0 <= d <= 9)%Z -> digit d <> "-"%char.
Proof.
  intros H Heq. apply (f_equal nat_of_ascii) in Heq. unfold digit in Heq.
  change (nat_of_ascii "-") with 45%nat in Heq. rewrite nat_ascii_embedding in Heq by lia. lia.
Qed.

(** The digit loop terminates inside its buffer, produces at least one digit,
    and what it writes in front of [acc] reads back as [i]. *)
Lemma itoa_digits_spec fuel i acc :
  (0 < i < 10 ^ Z.of_nat fuel)%Z ->
  exists d rest, itoa_digits fuel i acc = Some (String (digit d) rest) /\ (0 <= d <= 9)%Z /\
    forall z, readDigits z (String (digit d) rest) =
              readDigits (z * 10 ^ Z.of_nat (String.length (String (digit d) rest) - String.length acc) + i)%Z acc
    /\ String.length acc < String.length (String (digit d) rest).
Proof.
  revert i acc. induction fuel as [|fuel IH]; intros i acc H; [simpl in H; lia|].
  simpl itoa_digits. destruct (i <=? 0)%Z eqn:E; [apply Z.leb_le in E; lia|].
  pose proof (Z.quot_rem' i 10) as Hqr. pose proof (Z.rem_bound_pos i 10) as Hr.
  rewrite Nat2Z.inj_succ, Z.pow_succ_r in H by lia.
  destruct (decide (Z.quot i 10 = 0)%Z) as [Hz|Hz].
  - rewrite Hz. exists (Z.rem i 10), acc. split; [by destruct fuel|].
    split; [lia|]. intros z. cbn [readDigits String.length].
    rewrite digitValue_digit by lia. simpl mbind. split; [|lia].
    f_equal. replace (S (String.length acc) - String.length acc) with 1 by lia.
    simpl. lia.
  - destruct (IH (Z.quot i 10) (String (digit (Z.rem i 10)) acc)) as (d & rest & Heq & Hd & Hread).
    { assert (0 <= Z.quot i 10)%Z by (apply Z.quot_pos; lia). split; [lia|].
      apply Z.quot_lt_upper_bound; lia. }
    exists d, rest. split; [done|]. split; [done|]. intros z.
    destruct (Hread z) as [-> Hlen]. cbn [readDigits String.length] in *.
    rewrite digitValue_digit by lia. simpl mbind. split; [|lia].
    f_equal.
    replace (S (String.length rest) - String.length acc)
      with (S (S (String.length rest) - S (String.length acc))) by lia.
    rewrite Nat2Z.inj_succ, Z.pow_succ_r by lia. rewrite Nat.sub_succ. rewrite Hqr at 3. ring.
Qed.

Lemma readInt_minus d s : readInt (String "-" (String d s)) = Z.opp <$> readDigits 0 (String d s).
Proof. done. Qed.

Lemma readInt_digits d rest :
  (0 <= d <= 9)%Z -> readInt (String (digit d) rest) = readDigits 0 (String (digit d) rest).
Proof.
  intros Hd. pose proof (digit_not_minus d Hd). unfold readInt.
  destruct (digit d) as [[] [] [] [] [] [] [] []]; try done.
Qed.

Lemma itoa_digits_read i :
  (0 < i <= int64_max)%Z ->
  exists d rest, itoa_digits 20 i "" = Some (String (digit d) rest) /\ (0 <= d <= 9)%Z /\
    readDigits 0 (String (digit d) rest) = Some i.
Proof.
  intros H. destruct (itoa_digits_spec 20 i "") as (d & rest & Heq & Hd & Hread).
  { unfold int64_max in H. simpl Z.of_nat. lia. }
  exists d, rest. split; [done|]. split; [done|]. destruct (Hread 0%Z) as [-> _]. done.
Qed.

Lemma itoa_read i : (int64_min < i <= int64_max)%Z -> readInt (itoa i) = Some i.
Proof.
  intros H. unfold itoa. destruct (i =? 0)%Z eqn:E0; [apply Z.eqb_eq in E0; by subst|].
  apply Z.eqb_neq in E0. destruct (i <? 0)%Z eqn:En.
  - apply Z.ltb_lt in En. rewrite wrap64_id by (unfold is_int64, int64_min, int64_max in *; lia).
    destruct (itoa_digits_read (- i)) as (d & rest & -> & Hd & Hread);
      [unfold int64_min, int64_max in *; lia|].
    rewrite readInt_minus, Hread. simpl. f_equal. lia.
  - apply Z.ltb_ge in En. destruct (itoa_digits_read i) as (d & rest & -> & Hd & Hread); [lia|].
    by rewrite readInt_digits.
Qed.

#[export] Hint Rewrite toLowerCamel_idem toLowerCamel_length toLowerCamel_hasDot
  WireFieldPath_idem : omnicore.
