(* ===== verification/GoStrings.v ===== *)
(** * Go's strings package

    The functions of [strings] the sources use, on byte strings: [Index],
    [LastIndex] and [Cut] as the text around an occurrence, [Split] at a byte,
    [Trim], [TrimSpace] and the ASCII case maps; [strconv.Atoi] and [sort.Strings]. *)

From S2P Require Import Prelude Naming.
From stdpp Require Import base gmap strings list fin_maps sorting.
From Stdlib Require Import Ascii ZArith Lia.

Open Scope string_scope.
Open Scope list_scope.

(** Every byte of a text. *)
Fixpoint allRunes (p : ascii -> bool) (s : string) : bool :=
  match s with
  | EmptyString => true
  | String c rest => p c && allRunes p rest
  end.

(** ** Searching a text *)

Definition isByte (code : nat) (c : ascii) : bool := (nat_of_ascii c =? code)%nat.

Fixpoint dropN (n : nat) (s : string) : string :=
  match n, s with
  | O, _ => s
  | S n', String _ rest => dropN n' rest
  | S _, EmptyString => EmptyString
  end.

(** The text after the first occurrence of [m]. *)
Fixpoint afterFirst (m s : string) : option string :=
  if String.prefix m s then Some (dropN (String.length m) s)
  else match s with
       | EmptyString => None
       | String _ rest => afterFirst m rest
       end.

(** The text after the last occurrence of [m]. *)
Fixpoint afterLast (m s : string) : option string :=
  match (match s with EmptyString => None | String _ rest => afterLast m rest end) with
  | Some t => Some t
  | None => if String.prefix m s then Some (dropN (String.length m) s) else None
  end.

(** The text before the first byte [code], [None] without one. *)
Fixpoint beforeByte (code : nat) (s : string) : option string :=
  match s with
  | EmptyString => None
  | String c rest => if isByte code c then Some EmptyString else String c <$> beforeByte code rest
  end.

Definition before (code : nat) (s : string) : string := default s (beforeByte code s).

(** The text before the last occurrence of [m], [None] without one. *)
Fixpoint beforeLast (m s : string) : option string :=
  match s with
  | EmptyString => if String.prefix m s then Some EmptyString else None
  | String c rest =>
      match beforeLast m rest with
      | Some t => Some (String c t)
      | None => if String.prefix m s then Some EmptyString else None
      end
  end.

Fixpoint mapBytes (f : ascii -> ascii) (s : string) : string :=
  match s with
  | EmptyString => EmptyString
  | String c rest => String (f c) (mapBytes f rest)
  end.

(** [strings.TrimLeft] over the bytes that satisfy [p]. *)
Fixpoint trimLeft (p : ascii -> bool) (s : string) : string :=
  match s with
  | String c rest => if p c then trimLeft p rest else s
  | EmptyString => s
  end.

Fixpoint trimRight (p : ascii -> bool) (s : string) : string :=
  match s with
  | EmptyString => EmptyString
  | String c rest =>
      match trimRight p rest with
      | EmptyString => if p c then EmptyString else String c EmptyString
      | t => String c t
      end
  end.

Definition trim (p : ascii -> bool) (s : string) : string := trimRight p (trimLeft p s).

(** The white space of one byte. *)
Definition isSpace (c : ascii) : bool :=
  let n := nat_of_ascii c in ((n =? 32) || ((9 <=? n) && (n <=? 13)))%nat.

(** The UTF-8 white space of two and of three bytes: U+0085 and U+00A0; U+1680,
    U+2000 to U+200A, U+2028, U+2029, U+202F, U+205F and U+3000. *)
Definition isSpace2 (c1 c2 : ascii) : bool :=
  isByte 194 c1 && (isByte 133 c2 || isByte 160 c2).

Definition isSpace3 (c1 c2 c3 : ascii) : bool :=
  let n := nat_of_ascii c3 in
  (isByte 225 c1 && isByte 154 c2 && isByte 128 c3) ||
  (isByte 226 c1 && isByte 128 c2 && (((128 <=? n) && (n <=? 138)) || (n =? 168) || (n =? 169) || (n =? 175))%nat) ||
  (isByte 226 c1 && isByte 129 c2 && isByte 159 c3) ||
  (isByte 227 c1 && isByte 128 c2 && isByte 128 c3).

(** [strings.TrimSpace]: a suffix that is all white space goes. *)
Fixpoint trimSpaceLeft (s : string) : string :=
  match s with
  | String c1 r1 =>
      if isSpace c1 then trimSpaceLeft r1
      else match r1 with
           | String c2 r2 =>
               if isSpace2 c1 c2 then trimSpaceLeft r2
               else match r2 with
                    | String c3 r3 => if isSpace3 c1 c2 c3 then trimSpaceLeft r3 else s
                    | EmptyString => s
                    end
           | EmptyString => s
           end
  | EmptyString => s
  end.

Fixpoint trimSpaceRight (s : string) : string :=
  match s with
  | EmptyString => EmptyString
  | String c rest => if String.eqb (trimSpaceLeft s) "" then EmptyString else String c (trimSpaceRight rest)
  end.

Definition trimSpace (s : string) : string := trimSpaceRight (trimSpaceLeft s).

(** [strings.Split] at a byte. *)
Fixpoint splitByte (b : ascii) (s : string) : list string :=
  match s with
  | EmptyString => [EmptyString]
  | String c rest =>
      if Ascii.eqb c b then EmptyString :: splitByte b rest
      else match splitByte b rest with
           | part :: parts => String c part :: parts
           | [] => [String c EmptyString]
           end
  end.

(** The comma-separated entries of a text, trimmed, the empty ones dropped. *)
Definition splitList (s : string) : list string :=
  List.filter (fun p => negb (String.eqb p "")) (trimSpace <$> splitByte "," s).

(** ** Numbers *)

(** [strconv.Atoi]: an optional sign and decimal digits, within int64. *)
Fixpoint atoiDigits (s : string) (acc : Z) : option Z :=
  match s with
  | EmptyString => Some acc
  | String c rest =>
      let n := Z.of_nat (nat_of_ascii c) in
      if (48 <=? n)%Z && (n <=? 57)%Z then atoiDigits rest (acc * 10 + (n - 48))%Z else None
  end.

Definition atoi (s : string) : option Z :=
  let '(neg, digits) :=
    match s with
    | String "-"%char rest => (true, rest)
    | String "+"%char rest => (false, rest)
    | _ => (false, s)
    end in
  match digits with
  | EmptyString => None
  | _ =>
      n ← atoiDigits digits 0;
      let v := if neg : bool then (- n)%Z else n in
      if (int64_min <=? v)%Z && (v <=? int64_max)%Z then Some v else None
  end.

(** [sort.Strings]: byte order. *)
Fixpoint insertString (x : string) (l : list string) : list string :=
  match l with [] => [x] | y :: rest => if String.leb x y then x :: l else y :: insertString x rest end.

Fixpoint sortStrings (l : list string) : list string :=
  match l with [] => [] | x :: rest => insertString x (sortStrings rest) end.

(** ** Lemmas *)

Lemma allRunes_cons p c s : allRunes p (String c s) = (p c && allRunes p s)%bool.
Proof. done. Qed.

Lemma prefix_refl m t : String.prefix m (m +:+ t) = true.
Proof.
  induction m as [|c m IH]; [by destruct t|]. rewrite string_app_cons. cbn [String.prefix].
  destruct (ascii_dec c c); [exact IH|done].
Qed.

Lemma dropN_length m t : dropN (String.length m) (m +:+ t) = t.
Proof. by induction m as [|c m IH]. Qed.

(** The last occurrence in a text is the last one of any tail that has one. *)
Lemma afterLast_app m p s t : afterLast m s = Some t -> afterLast m (p +:+ s) = Some t.
Proof. intros Hs. induction p as [|c p IH]; [exact Hs|]. rewrite string_app_cons. cbn [afterLast]. by rewrite IH. Qed.

Lemma allRunes_app p s t : allRunes p (s +:+ t) = allRunes p s && allRunes p t.
Proof. induction s as [|c s IH]; [done|]. rewrite string_app_cons, !allRunes_cons. by rewrite IH, andb_assoc. Qed.

Lemma allRunes_concat p s t : allRunes p s = true -> allRunes p t = true -> allRunes p (s +:+ t) = true.
Proof. intros Hs Ht. by rewrite allRunes_app, Hs, Ht. Qed.

(** A text without the byte [b]. *)
Definition lacks (b : ascii) (s : string) : Prop := allRunes (fun c => negb (Ascii.eqb c b)) s = true.

Lemma lacks_cons b c s : lacks b (String c s) <-> c <> b /\ lacks b s.
Proof.
  unfold lacks. rewrite allRunes_cons, andb_true_iff, negb_true_iff. by rewrite Ascii.eqb_neq.
Qed.

Lemma lacks_app b s t : lacks b s -> lacks b t -> lacks b (s +:+ t).
Proof. apply allRunes_concat. Qed.

Lemma beforeByte_lacks b name rest :
  lacks b name -> beforeByte (nat_of_ascii b) (name +:+ String b rest) = Some name.
Proof.
  induction name as [|c name IH]; intros Hn.
  - rewrite string_app_nil_l. cbn [beforeByte]. unfold isByte. by rewrite Nat.eqb_refl.
  - apply lacks_cons in Hn as [Hc Hn]. rewrite string_app_cons. cbn [beforeByte]. rewrite (IH Hn). unfold isByte.
    destruct (Nat.eqb_spec (nat_of_ascii c) (nat_of_ascii b)) as [E|]; [|done].
    apply (f_equal ascii_of_nat) in E. by rewrite !ascii_nat_embedding in E.
Qed.

Lemma afterLast_lacks b m s : lacks b s -> afterLast (String b m) s = None.
Proof.
  induction s as [|c s IH]; intros Hs; [done|]. apply lacks_cons in Hs as [Hc Hs].
  cbn [afterLast String.prefix]. rewrite IH by done. by destruct (ascii_dec b c).
Qed.

(** A marker with a byte that [t] lacks does not begin inside [t] when a byte that
    the marker does not have before follows. *)
Lemma prefix_stuck u b v t q rest :
  lacks b t -> lacks q u -> q <> b -> String.prefix (u +:+ String b v) (t +:+ String q rest) = false.
Proof.
  intros Ht Hu Hq. revert t Ht. induction u as [|x u IH]; intros [|c t] Ht;
    rewrite ?string_app_nil_l, ?string_app_cons; cbn [String.prefix].
  - by destruct (ascii_dec b q).
  - apply lacks_cons in Ht as [Hc _]. by destruct (ascii_dec b c).
  - apply lacks_cons in Hu as [Hx _]. by destruct (ascii_dec x q).
  - apply lacks_cons in Hu as [_ Hu]. apply lacks_cons in Ht as [_ Ht]. destruct (ascii_dec x c); [by apply IH|done].
Qed.

Lemma afterFirst_stuck u b v t q rest :
  lacks b t -> lacks q u -> q <> b ->
  afterFirst (u +:+ String b v) (t +:+ String q rest) = afterFirst (u +:+ String b v) (String q rest).
Proof.
  intros Ht Hu Hq. induction t as [|c t IH]; [done|]. pose proof (prefix_stuck u b v _ q rest Ht Hu Hq) as Hp.
  rewrite string_app_cons in *. cbn [afterFirst]. rewrite Hp. apply IH. by apply lacks_cons in Ht as [_ Ht].
Qed.

Lemma afterLast_stuck u b v t q rest :
  lacks b t -> lacks q u -> q <> b -> afterLast (u +:+ String b v) (String q rest) = None ->
  afterLast (u +:+ String b v) (t +:+ String q rest) = None.
Proof.
  intros Ht Hu Hq Hn. induction t as [|c t IH]; [done|]. pose proof (prefix_stuck u b v _ q rest Ht Hu Hq) as Hp.
  rewrite string_app_cons in *. cbn [afterLast]. rewrite Hp, IH; [done|]. by apply lacks_cons in Ht as [_ Ht].
Qed.

Lemma afterFirst_byte b t rest : lacks b t -> afterFirst (String b "") (t +:+ String b rest) = Some rest.
Proof.
  induction t as [|c t IH]; intros Ht.
  - rewrite string_app_nil_l. cbn. destruct (ascii_dec b b); [by destruct rest|done].
  - apply lacks_cons in Ht as [Hc Ht]. rewrite string_app_cons. cbn [afterFirst String.prefix].
    destruct (ascii_dec b c); [done|]. by apply IH.
Qed.

Lemma afterLast_byte b p t : lacks b t -> afterLast (String b "") (p +:+ String b t) = Some t.
Proof.
  intros Ht. apply afterLast_app. cbn [afterLast]. rewrite afterLast_lacks by done.
  cbn. destruct (ascii_dec b b); [by destruct t|done].
Qed.

Lemma beforeLast_app m p s : beforeLast m s = Some "" -> beforeLast m (p +:+ s) = Some p.
Proof. intros Hs. induction p as [|c p IH]; [done|]. rewrite string_app_cons. cbn [beforeLast]. by rewrite IH. Qed.

(** Nothing to trim. *)
Lemma trim_clean p s : allRunes (fun c => negb (p c)) s = true -> trim p s = s.
Proof.
  intros Hs. unfold trim. assert (trimLeft p s = s) as ->.
  { destruct s as [|c s]; [done|]. rewrite allRunes_cons in Hs. apply andb_true_iff in Hs as [Hc%negb_true_iff _].
    cbn [trimLeft]. by rewrite Hc. }
  induction s as [|c s IH]; [done|]. rewrite allRunes_cons in Hs. apply andb_true_iff in Hs as [Hc%negb_true_iff Hs].
  cbn [trimRight]. rewrite IH, Hc by done. by destruct s.
Qed.

(** A byte that begins no white space. *)
Definition solid (c : ascii) : bool := negb (isSpace c) && (nat_of_ascii c <? 128)%nat.

Lemma solid_spaces c1 c2 c3 : solid c1 = true -> isSpace c1 = false /\ isSpace2 c1 c2 = false /\ isSpace3 c1 c2 c3 = false.
Proof.
  unfold solid, isSpace2, isSpace3, isByte. intros H. apply andb_true_iff in H as [Hs%negb_true_iff Hn%Nat.ltb_lt].
  assert (forall k, 128 <= k -> (nat_of_ascii c1 =? k)%nat = false) as He by (intros k Hk; apply Nat.eqb_neq; lia).
  rewrite !He by lia. by rewrite !andb_false_l.
Qed.

Lemma trimSpaceLeft_solid c s : solid c = true -> trimSpaceLeft (String c s) = String c s.
Proof.
  intros Hc. cbn [trimSpaceLeft]. destruct s as [|c2 [|c3 s]].
  - by destruct (solid_spaces c "a" "a" Hc) as (-> & _).
  - by destruct (solid_spaces c c2 "a" Hc) as (-> & -> & _).
  - by destruct (solid_spaces c c2 c3 Hc) as (-> & -> & ->).
Qed.

(** Nothing to trim. *)
Lemma trimSpace_solid s : allRunes solid s = true -> trimSpace s = s.
Proof.
  intros Hs. unfold trimSpace. assert (trimSpaceLeft s = s) as ->.
  { destruct s as [|c s]; [done|]. apply andb_true_iff in Hs as [Hc _]. by apply trimSpaceLeft_solid. }
  induction s as [|c s IH]; [done|]. apply andb_true_iff in Hs as [Hc Hs].
  cbn [trimSpaceRight]. rewrite trimSpaceLeft_solid by done. cbn [String.eqb]. by rewrite IH.
Qed.

Section ReadInt.
Open Scope Z_scope.

(** Reading a rendered int. *)

Lemma atoiDigits_read s : forall acc, atoiDigits s acc = readDigits acc s.
Proof.
  induction s as [|c s IH]; intros acc; [done|]. cbn [atoiDigits readDigits]. unfold digitValue.
  destruct (Nat.leb_spec 48 (nat_of_ascii c)), (Nat.leb_spec (nat_of_ascii c) 57);
    destruct (Z.leb_spec 48 (Z.of_nat (nat_of_ascii c))), (Z.leb_spec (Z.of_nat (nat_of_ascii c)) 57);
    try lia; cbn; done.
Qed.

Lemma atoi_itoa n : 0 <= n <= int64_max -> atoi (itoa n) = Some n.
Proof.
  intros Hn. unfold itoa. destruct (Z.eqb_spec n 0) as [->|Hne]; [done|].
  rewrite (proj2 (Z.ltb_ge n 0)) by lia.
  destruct (itoa_digits_read n) as (d & rest & -> & Hd & Hread); [lia|].
  assert (Hrange : (int64_min <=? n) && (n <=? int64_max) = true).
  { apply andb_true_iff. rewrite !Z.leb_le. unfold int64_min, int64_max in *. lia. }
  pose proof (digit_not_minus d Hd) as Hminus.
  assert (Hplus : digit d <> "+"%char).
  { intros E. apply (f_equal nat_of_ascii) in E. unfold digit in E. change (nat_of_ascii "+") with 43%nat in E.
    rewrite nat_ascii_embedding in E by lia. lia. }
  assert (Hatoi : forall c s, c <> "-"%char -> c <> "+"%char ->
    atoi (String c s) = (n ← atoiDigits (String c s) 0; if (int64_min <=? n) && (n <=? int64_max) then Some n else None)).
  { clear. intros c s H1 H2. unfold atoi. destruct c as [[] [] [] [] [] [] [] []]; done. }
  rewrite Hatoi, atoiDigits_read, Hread by done. cbn. by rewrite Hrange.
Qed.

End ReadInt.

(** ** Order, lengths and separators *)

Lemma ascii_lt_trans a b c : Ascii.compare a b = Lt -> Ascii.compare b c = Lt -> Ascii.compare a c = Lt.
Proof. unfold Ascii.compare. rewrite !N.compare_lt_iff. lia. Qed.

Lemma compare_lt_trans a b c : String.compare a b = Lt -> String.compare b c = Lt -> String.compare a c = Lt.
Proof.
  revert b c. induction a as [|x a IH]; intros [|y b] [|z c]; simpl; try done.
  destruct (Ascii.compare x y) eqn:E1; [|intros _|done]; destruct (Ascii.compare y z) eqn:E2; try done.
  - apply Ascii.compare_eq_iff in E1 as ->. rewrite E2. apply IH.
  - apply Ascii.compare_eq_iff in E1 as ->. by rewrite E2.
  - apply Ascii.compare_eq_iff in E2 as ->. by rewrite E1.
  - by rewrite (ascii_lt_trans x y z).
Qed.

Lemma leb_trans a b c : String.leb a b = true -> String.leb b c = true -> String.leb a c = true.
Proof.
  unfold String.leb. destruct (String.compare a b) eqn:E1; [| |done]; destruct (String.compare b c) eqn:E2; try done.
  - apply String.compare_eq_iff in E1 as ->. by rewrite E2.
  - apply String.compare_eq_iff in E1 as ->. by rewrite E2.
  - apply String.compare_eq_iff in E2 as ->. by rewrite E1.
  - by rewrite (compare_lt_trans a b c).
Qed.

Lemma app_code x y s t : String.length x = String.length y -> x +:+ s = y +:+ t -> x = y /\ s = t.
Proof.
  revert y. induction x as [|c x IH]; intros [|c' y] Hl; try done.
  rewrite !string_app_cons. intros E. simplify_eq. destruct (IH y) as [-> ->]; auto.
Qed.

Lemma splitByte_lacks b t : lacks b t -> splitByte b t = [t].
Proof.
  induction t as [|c t IH]; intros Ht; [done|]. apply lacks_cons in Ht as [Hc Ht]. cbn [splitByte].
  apply Ascii.eqb_neq in Hc. by rewrite Hc, IH.
Qed.

Lemma splitByte_app b t rest : lacks b t -> splitByte b (t +:+ String b rest) = t :: splitByte b rest.
Proof.
  induction t as [|c t IH]; intros Ht.
  - rewrite string_app_nil_l. cbn [splitByte]. by rewrite Ascii.eqb_refl.
  - apply lacks_cons in Ht as [Hc Ht]. rewrite string_app_cons. cbn [splitByte]. apply Ascii.eqb_neq in Hc. by rewrite Hc, IH.
Qed.

Lemma splitByte_join b l : l <> [] -> Forall (lacks b) l -> splitByte b (joinStr (String b "") l) = l.
Proof.
  intros Hne Hall. induction Hall as [|t l Ht _ IH]; [done|]. destruct l as [|t' l]; [by apply splitByte_lacks|].
  cbn [joinStr] in *. change (String b "" +:+ ?x) with (String b x). by rewrite splitByte_app, IH.
Qed.

(** The text before the first, and after the last, occurrence of a byte. *)
Lemma lacks_first b x y s t : lacks b x -> lacks b y -> x +:+ String b s = y +:+ String b t -> x = y /\ s = t.
Proof.
  intros Hx Hy E. assert (Hxy : x = y).
  { pose proof (beforeByte_lacks b x s Hx) as H1. pose proof (beforeByte_lacks b y t Hy) as H2. congruence. }
  subst y. split; [done|]. apply app_code in E as [_ E]; congruence.
Qed.

Lemma string_app_length s t : String.length (s +:+ t) = (String.length s + String.length t)%nat.
Proof. induction s as [|c s IH]; [done|]. rewrite string_app_cons. cbn. by rewrite IH. Qed.

Lemma app_length_r x y s t : String.length s = String.length t -> x +:+ s = y +:+ t -> x = y /\ s = t.
Proof.
  intros Hl E. apply app_code; [|done]. apply (f_equal String.length) in E. rewrite !string_app_length in E. lia.
Qed.

Lemma lacks_last b x y s t : lacks b s -> lacks b t -> x +:+ String b s = y +:+ String b t -> x = y /\ s = t.
Proof.
  intros Hs Ht E. assert (Hst : s = t).
  { pose proof (afterLast_byte b x s Hs) as H1. pose proof (afterLast_byte b y t Ht) as H2. congruence. }
  subst t. split; [|done]. by apply app_length_r in E as [? _].
Qed.

(** ** Sorting *)

Lemma insertString_perm x l : insertString x l ≡ₚ x :: l.
Proof. induction l as [|y l IH]; [done|]. cbn. destruct (String.leb x y); [done|]. rewrite IH. apply Permutation_swap. Qed.

Lemma sortStrings_perm l : sortStrings l ≡ₚ l.
Proof. induction l as [|x l IH]; [done|]. cbn. by rewrite insertString_perm, IH. Qed.

Lemma insertString_sorted x l : StronglySorted String.leb l -> StronglySorted String.leb (insertString x l).
Proof.
  induction l as [|y l IH]; intros Hs; [by repeat constructor|]. cbn. inversion_clear Hs as [|?? Hl Hy].
  destruct (String.leb x y) eqn:Hxy.
  - constructor; [by constructor|]. constructor; [by apply Is_true_true|]. eapply Forall_impl; [exact Hy|]. intros z Hz%Is_true_true. apply Is_true_true. by eapply leb_trans.
  - constructor; [by apply IH|]. rewrite insertString_perm. constructor; [|done]. apply Is_true_true. by destruct (String.leb_total x y) as [|]; [congruence|].
Qed.

Lemma sortStrings_sorted l : StronglySorted String.leb (sortStrings l).
Proof. induction l as [|x l IH]; [constructor|]. by apply insertString_sorted. Qed.

Lemma sortStrings_eq l1 l2 : sortStrings l1 = sortStrings l2 <-> l1 ≡ₚ l2.
Proof.
  split.
  - intros E. by rewrite <- (sortStrings_perm l1), E, sortStrings_perm.
  - intros Hp. apply (StronglySorted_unique String.leb); [apply sortStrings_sorted..|by rewrite !sortStrings_perm].
Qed.
