(* ===== verification/FieldMeta.v ===== *)
(** * Struct fields, their tags and their addresses

    [domain/field_label.go] (the label plan: which catalog key and wire token a
    field declares) and [domain/field_ref.go] (the field atlas: which field a
    pointer [&e.Field] addresses).

    Both files read [reflect.Type] values.  A [GoType] is what they read of one:
    its kind, its identity, and for a struct its size, its fields with their
    offsets and tags, and whether the type is a value object. *)

From S2P Require Import Prelude Naming.
From stdpp Require Import base gmap strings list fin_maps.
From Stdlib Require Import Ascii ZArith Lia.

Open Scope string_scope.
Open Scope list_scope.

(** ** Reflected types *)

(** The part of [reflect.StructField] that is not its type. *)
Record FieldHead := mkFieldHead {
  f_Name : string;
  f_Exported : bool;
  f_Anonymous : bool;
  f_Offset : Z;
  f_labelKeyTag : string;
  f_notifyAsTag : string
}.

(** [st_IsVO] is whether a zero value of the struct satisfies
    [ValueObjectValidator]; [st_HasValue] whether it has a [Value()] method.
    [TOther] is every kind the code does not look into. *)
Inductive GoType :=
| TStruct (name : string) (size : Z) (isVO hasValue : bool) (fields : list (FieldHead * GoType))
| TPointer (elem : GoType)
| TOther (name : string).

(** Identity of a reflected type. *)
Fixpoint typeId (t : GoType) : string :=
  match t with
  | TStruct name _ _ _ _ => name
  | TPointer e => "*" +:+ typeId e
  | TOther name => name
  end.

Definition kindIsStruct (t : GoType) : bool :=
  match t with TStruct _ _ _ _ _ => true | _ => false end.

(** ** The label plan *)

Record fieldMeta := mkFieldMeta { fm_label : string; fm_wire : string }.

Definition emptyMeta : fieldMeta := mkFieldMeta "" "".

(** [cleanTag], and its copies [notifyAsTagOf] and [labelKeyOf]: a "-" tag is no
    declaration. *)
Definition cleanTag (tag : string) : string := if String.eqb tag "-" then "" else tag.

Definition notifyAsTagOf (f : FieldHead) : string := cleanTag (f_notifyAsTag f).
Definition labelKeyOf (f : FieldHead) : string := cleanTag (f_labelKeyTag f).

(** [compositeValueObjectType], as a test: below its pointers the type is a
    struct that is a raw value object without a [Value()]. *)
Fixpoint compositeValueObjectType (ft : GoType) : bool :=
  match ft with
  | TPointer e => compositeValueObjectType e
  | TStruct _ _ isVO hasValue _ => isVO && negb hasValue
  | TOther _ => false
  end.

(** The [merge] closure of [buildLabelPlan]. *)
Definition mergeMeta (name : string) (meta : fieldMeta) (out : gmap string fieldMeta) : gmap string fieldMeta :=
  let cur := default emptyMeta (out !! name) in
  <[name := mkFieldMeta
      (if String.eqb (fm_label meta) "" then fm_label cur else fm_label meta)
      (if String.eqb (fm_wire meta) "" then fm_wire cur else fm_wire meta)]> out.

(** [buildLabelPlan].  The two inner loops insert what is not there yet, which is
    the left-biased union.  On a pointer it is the plan of the pointed-to struct:
    the unwrapping [compositeValueObjectType] returns the type from. *)
Fixpoint buildLabelPlan (t : GoType) : gmap string fieldMeta :=
  match t with
  | TStruct _ _ _ _ fields =>
      (fix walk (fs : list (FieldHead * GoType)) (out : gmap string fieldMeta) :=
         match fs with
         | [] => out
         | (f, ft) :: rest =>
             if negb (f_Exported f) then walk rest out
             else if f_Anonymous f && kindIsStruct ft then walk rest (out ∪ buildLabelPlan ft)
             else
               let out := mergeMeta (f_Name f) (mkFieldMeta (labelKeyOf f) (notifyAsTagOf f)) out in
               if compositeValueObjectType ft then walk rest (out ∪ buildLabelPlan ft)
               else walk rest out
         end) fields ∅
  | TPointer e => buildLabelPlan e
  | TOther _ => ∅
  end.

(** One iteration of that loop, for the proofs. *)
Definition planStep (out : gmap string fieldMeta) (x : FieldHead * GoType) : gmap string fieldMeta :=
  let '(f, ft) := x in
  if negb (f_Exported f) then out
  else if f_Anonymous f && kindIsStruct ft then out ∪ buildLabelPlan ft
  else
    let out := mergeMeta (f_Name f) (mkFieldMeta (labelKeyOf f) (notifyAsTagOf f)) out in
    if compositeValueObjectType ft then out ∪ buildLabelPlan ft else out.

(** The lookup the two resolvers share; a nil type is [None]. *)
Definition resolveMeta (t : option GoType) (fieldName : string) : fieldMeta :=
  match t with
  | None => emptyMeta
  | Some t =>
      if String.eqb fieldName "" then emptyMeta
      else
        let t := match t with TPointer e => e | _ => t end in
        if kindIsStruct t then default emptyMeta (buildLabelPlan t !! fieldName) else emptyMeta
  end.

Definition resolveLabelKey (t : option GoType) (fieldName : string) : string :=
  fm_label (resolveMeta t fieldName).

Definition resolveNotifyAs (t : option GoType) (fieldName : string) : string :=
  fm_wire (resolveMeta t fieldName).

(** ** The field atlas *)

Record fieldNode := mkFieldNode { fn_segs : list PathSegment; fn_leaf : FieldHead }.

(** [atlasKey]: an offset and a type identity. *)
Abbreviation atlasKey := (Z * string)%type.

Record fieldAtlas := mkFieldAtlas {
  at_size : Z;
  at_nodes : gmap atlasKey fieldNode;
  at_ambiguous : gset atlasKey
}.

Definition register (off : Z) (t : GoType) (node : fieldNode) (a : fieldAtlas) : fieldAtlas :=
  let key := (off, typeId t) in
  match at_nodes a !! key with
  | Some _ => mkFieldAtlas (at_size a) (at_nodes a) ({[key]} ∪ at_ambiguous a)
  | None => mkFieldAtlas (at_size a) (<[key := node]> (at_nodes a)) (at_ambiguous a)
  end.

Fixpoint walk (t : GoType) (baseOff : Z) (prefix : list PathSegment) (a : fieldAtlas) : fieldAtlas :=
  match t with
  | TStruct _ _ _ _ fields =>
      (fix loop (fs : list (FieldHead * GoType)) (a : fieldAtlas) :=
         match fs with
         | [] => a
         | (f, ft) :: rest =>
             if negb (f_Exported f) && negb (f_Anonymous f) then loop rest a
             else
               let off := (baseOff + f_Offset f)%Z in
               let segs := if f_Anonymous f then prefix
                           else prefix ++ [mkPathSegment (f_Name f) (notifyAsTagOf f) None] in
               let a := if f_Anonymous f then a else register off ft (mkFieldNode segs f) a in
               loop rest (if kindIsStruct ft then walk ft off segs a else a)
         end) fields a
  | _ => a
  end.

Definition typeSize (t : GoType) : Z :=
  match t with TStruct _ size _ _ _ => size | _ => 0 end.

Definition atlasFor (t : GoType) : fieldAtlas :=
  walk t 0 [] (mkFieldAtlas (typeSize t) ∅ ∅).

Definition locate (a : fieldAtlas) (off : Z) (ty : string) : Outcome Empty_set (option fieldNode) :=
  if bool_decide ((off, ty) ∈ at_ambiguous a) then
    Panic "domain: field reference is ambiguous"
  else Ret (at_nodes a !! (off, ty)).

(** What [AddNotification] may be handed as its [field any]: anything that is not
    a non-nil pointer, or a pointer with its address and its element's type. *)
Inductive FieldRef :=
| RefNotPointer
| RefTo (addr : Z) (elemType : string).

(** The binding [bindFieldBase] records: the instance's address and its atlas. *)
Record FieldBase := mkFieldBase { fb_ptr : Z; fb_atlas : fieldAtlas }.

Definition bindFieldBase (addr : Z) (t : GoType) : FieldBase := mkFieldBase addr (atlasFor t).

Definition resolveFieldRef (base : option FieldBase) (field : FieldRef) : Outcome Empty_set fieldNode :=
  match base with
  | None => Panic "domain: this Rules is not bound to an entity instance"
  | Some b =>
      match field with
      | RefNotPointer => Panic "domain: AddNotification takes a pointer to the entity's own field"
      | RefTo p ty =>
          if (p <? fb_ptr b)%Z || (fb_ptr b + at_size (fb_atlas b) <=? p)%Z then
            Panic "domain: the reference points outside the instance this Rules validates"
          else
            match locate (fb_atlas b) (p - fb_ptr b) ty with
            | Ret (Some node) => Ret node
            | Ret None => Panic "domain: offset matches no exported field"
            | Fail e => Fail e
            | Panic m => Panic m
            end
      end
  end.

(** ** The addressable fields of a type, as a list

    The reference the atlas is checked against: every registered field with its
    key, in walking order, duplicates kept. *)
Fixpoint addressable (t : GoType) (baseOff : Z) (prefix : list PathSegment) : list (atlasKey * fieldNode) :=
  match t with
  | TStruct _ _ _ _ fields =>
      (fix loop (fs : list (FieldHead * GoType)) :=
         match fs with
         | [] => []
         | (f, ft) :: rest =>
             if negb (f_Exported f) && negb (f_Anonymous f) then loop rest
             else
               let off := (baseOff + f_Offset f)%Z in
               let segs := if f_Anonymous f then prefix
                           else prefix ++ [mkPathSegment (f_Name f) (notifyAsTagOf f) None] in
               (if f_Anonymous f then [] else [((off, typeId ft), mkFieldNode segs f)]) ++
               (if kindIsStruct ft then addressable ft off segs else []) ++ loop rest
         end) fields
  | _ => []
  end.

Definition registerAll (a : fieldAtlas) (l : list (atlasKey * fieldNode)) : fieldAtlas :=
  foldl (fun a kn =>
    match at_nodes a !! kn.1 with
    | Some _ => mkFieldAtlas (at_size a) (at_nodes a) ({[kn.1]} ∪ at_ambiguous a)
    | None => mkFieldAtlas (at_size a) (<[kn.1 := kn.2]> (at_nodes a)) (at_ambiguous a)
    end) a l.

(** How many of [l]'s entries carry key [k]. *)
Definition keyCount (k : atlasKey) (l : list (atlasKey * fieldNode)) : nat :=
  length (filter (fun kn => kn.1 = k) l).

(** ** Lemmas on the label plan *)

Lemma buildLabelPlan_struct n sz v h fields :
  buildLabelPlan (TStruct n sz v h fields) = foldl planStep ∅ fields.
Proof.
  simpl. generalize (∅ : gmap string fieldMeta) as out.
  induction fields as [|[f ft] fs IH]; intros out; simpl; [done|].
  destruct (f_Exported f); simpl; [|apply IH].
  destruct (f_Anonymous f && kindIsStruct ft); [apply IH|].
  destruct (compositeValueObjectType ft); apply IH.
Qed.

(** Fields that the loop reads as fields of the type itself. *)
Definition isDirect (x : FieldHead * GoType) : bool :=
  f_Exported x.1 && negb (f_Anonymous x.1 && kindIsStruct x.2).

Lemma planStep_skip out x : f_Exported x.1 = false -> planStep out x = out.
Proof. destruct x as [f ft]. simpl. by intros ->. Qed.

(** A later iteration keeps an entry whose name it does not declare directly. *)
Lemma planStep_keep out x name m :
  out !! name = Some m -> (isDirect x = true -> f_Name x.1 <> name) ->
  planStep out x !! name = Some m.
Proof.
  destruct x as [f ft]. unfold isDirect. simpl. intros Hm Hd.
  destruct (f_Exported f); simpl; [|done].
  destruct (f_Anonymous f && kindIsStruct ft) eqn:E; simpl in *.
  - rewrite lookup_union_l'; eauto.
  - specialize (Hd eq_refl). unfold mergeMeta.
    assert (Hk : forall m', <[f_Name f := m']> out !! name = Some m)
      by (intros; by rewrite lookup_insert_ne).
    destruct (compositeValueObjectType ft); [|apply Hk].
    rewrite lookup_union_l'; eauto. 
Qed.

Lemma foldl_planStep_keep fs out name m :
  out !! name = Some m ->
  Forall (fun x => isDirect x = true -> f_Name x.1 <> name) fs ->
  foldl planStep out fs !! name = Some m.
Proof.
  revert out. induction fs as [|x fs IH]; intros out Hm Hall; simpl; [done|].
  apply Forall_cons in Hall as [Hx Hfs]. apply IH; [|done]. by apply planStep_keep.
Qed.

(** A direct field's own declaration is what the plan holds for each half it
    declares, whatever an embed or a composite's parts put there. *)
Lemma planStep_direct out f ft :
  isDirect (f, ft) = true ->
  exists m, planStep out (f, ft) !! f_Name f = Some m /\
    (labelKeyOf f <> "" -> fm_label m = labelKeyOf f) /\
    (notifyAsTagOf f <> "" -> fm_wire m = notifyAsTagOf f).
Proof.
  unfold isDirect. simpl. intros [He Ha]%andb_true_iff. apply negb_true_iff in Ha.
  rewrite He, Ha. simpl. unfold mergeMeta. simpl. eexists. split.
  { destruct (compositeValueObjectType ft).
    - rewrite lookup_union_l'; rewrite lookup_insert_eq; [reflexivity|eauto].
    - by rewrite lookup_insert_eq. }
  simpl. split; intros H; by rewrite (proj2 (String.eqb_neq _ _) H).
Qed.

Lemma label_plan_direct n sz v h fs1 f ft fs2 :
  isDirect (f, ft) = true ->
  Forall (fun x => isDirect x = true -> f_Name x.1 <> f_Name f) fs2 ->
  exists m, buildLabelPlan (TStruct n sz v h (fs1 ++ (f, ft) :: fs2)) !! f_Name f = Some m /\
    (labelKeyOf f <> "" -> fm_label m = labelKeyOf f) /\
    (notifyAsTagOf f <> "" -> fm_wire m = notifyAsTagOf f).
Proof.
  intros Hd Hall. rewrite buildLabelPlan_struct, foldl_app. simpl foldl.
  destruct (planStep_direct (foldl planStep ∅ fs1) f ft Hd) as (m & Hm & Hl & Hw).
  exists m. split; [|done]. by apply foldl_planStep_keep.
Qed.

(** ** Lemmas on the atlas *)

Lemma registerAll_app a l1 l2 : registerAll a (l1 ++ l2) = registerAll (registerAll a l1) l2.
Proof. apply foldl_app. Qed.

(** Structural induction on the types nested in a struct's fields. *)
Fixpoint GoType_nested_ind (P : GoType -> Prop)
  (HS : forall n sz v h fs, Forall (fun x => P x.2) fs -> P (TStruct n sz v h fs))
  (HP : forall t, P t -> P (TPointer t)) (HO : forall n, P (TOther n)) (t : GoType) : P t :=
  match t with
  | TStruct n sz v h fs =>
      HS n sz v h fs
        ((fix go l : Forall (fun x : FieldHead * GoType => P x.2) l :=
            match l with
            | [] => Forall_nil_2 _
            | x :: l => Forall_cons_2 _ _ _ (GoType_nested_ind P HS HP HO x.2) (go l)
            end) fs)
  | TPointer e => HP e (GoType_nested_ind P HS HP HO e)
  | TOther n => HO n
  end.

Lemma walk_registerAll t off prefix a :
  walk t off prefix a = registerAll a (addressable t off prefix).
Proof.
  revert off prefix a. induction t as [n sz v h fs IH|t IH|n] using GoType_nested_ind;
    intros off prefix a; [|done|done].
  simpl. revert a. induction fs as [|[f ft] fs IHfs]; intros a; [done|].
  apply Forall_cons in IH as [Hft Hfs]. specialize (IHfs Hfs). simpl in Hft.
  destruct (negb (f_Exported f) && negb (f_Anonymous f)); [apply IHfs|].
  rewrite IHfs, !registerAll_app. f_equal.
  destruct (f_Anonymous f), (kindIsStruct ft); simpl; try rewrite Hft; done.
Qed.

Lemma registerAll_size l a : at_size (registerAll a l) = at_size a.
Proof.
  revert a. induction l as [|kn l IH]; intros a; [done|]. simpl. rewrite IH.
  by destruct (at_nodes a !! kn.1).
Qed.

(** Register is idempotent on the first entry of a key: what a lookup gives is
    the first node registered under it, and a key is marked as soon as a second
    one comes. *)
Lemma registerAll_lookup l a k :
  at_nodes (registerAll a l) !! k =
    match at_nodes a !! k with
    | Some n => Some n
    | None => snd <$> head (filter (fun kn => kn.1 = k) l)
    end.
Proof.
  revert a. induction l as [|[k' n'] l IH]; intros a; simpl.
  { by destruct (at_nodes a !! k). }
  rewrite IH. rewrite filter_cons. simpl. destruct (at_nodes a !! k') eqn:E; simpl.
  - case_decide; [subst; rewrite E; done | done].
  - case_decide; simplify_eq.
    + by rewrite lookup_insert_eq, E.
    + by rewrite lookup_insert_ne.
Qed.

Lemma registerAll_ambiguous l a k :
  k ∈ at_ambiguous (registerAll a l) <->
  k ∈ at_ambiguous a \/
  1 < (if at_nodes a !! k then 1 else 0) + keyCount k l \/
  (is_Some (at_nodes a !! k) /\ 0 < keyCount k l).
Proof.
  revert a. induction l as [|[k' n'] l IH]; intros a; simpl.
  - unfold keyCount. simpl. destruct (at_nodes a !! k); simpl; naive_solver lia.
  - rewrite IH. unfold keyCount. rewrite filter_cons. simpl.
    destruct (at_nodes a !! k') eqn:E; simpl.
    + case_decide; simplify_eq; simpl.
      * rewrite E. split; [|set_solver]. intros _. right. right. split; [eauto|lia].
      * set_solver.
    + case_decide; simplify_eq; simpl.
      * rewrite lookup_insert_eq, E. split.
        -- intros [?|[?|[_ ?]]]; [by left|right; left; lia|right; left; lia].
        -- intros [?|[?|[[? ?] _]]]; [by left|right; left; lia|done].
      * by rewrite lookup_insert_ne.
Qed.

Lemma atlasFor_ambiguous t k :
  k ∈ at_ambiguous (atlasFor t) <-> 1 < keyCount k (addressable t 0 []).
Proof.
  unfold atlasFor. rewrite walk_registerAll, registerAll_ambiguous. simpl.
  rewrite lookup_empty. split.
  - intros [?|[?|[[? ?] _]]]; [set_solver|lia|done].
  - intros ?. right. left. lia.
Qed.

Lemma atlasFor_lookup t k :
  at_nodes (atlasFor t) !! k = snd <$> head (filter (fun kn => kn.1 = k) (addressable t 0 [])).
Proof. unfold atlasFor. rewrite walk_registerAll, registerAll_lookup. simpl. by rewrite lookup_empty. Qed.

Lemma atlasFor_size t : at_size (atlasFor t) = typeSize t.
Proof. unfold atlasFor. by rewrite walk_registerAll, registerAll_size. Qed.

(** A lookup that does not panic has exactly one candidate. *)
Lemma atlas_unique t k n :
  k ∉ at_ambiguous (atlasFor t) -> at_nodes (atlasFor t) !! k = Some n ->
  filter (fun kn => kn.1 = k) (addressable t 0 []) = [(k, n)].
Proof.
  rewrite atlasFor_ambiguous, atlasFor_lookup. unfold keyCount.
  destruct (filter (fun kn => kn.1 = k) (addressable t 0 [])) as [|[k' n'] [|? ?]] eqn:E;
    simpl; intros Ha Hl; simplify_eq; try lia.
  assert (H : (k', n) ∈ filter (fun kn => kn.1 = k) (addressable t 0 [])) by (rewrite E; set_solver).
  apply list_elem_of_filter in H as [Hk _]. simpl in Hk. by subst.
Qed.
