(* ===== verification/Notification.v ===== *)
(** * Notifications and notification contexts

    [domain/notification_semantic.go], [domain/notification_core.go] and
    [domain/notification.go]: the semantic classes, the kernel's notification
    types, the message, and the context that accumulates messages.

    In Go a context is a pointer into a two-level tree: a root owns the messages,
    a scoped view carries a prefix and forwards to its parent.  Here the messages
    live in a root record that the operations thread, and a [CtxRef] is the chain
    of views leading to it. *)

From S2P Require Import Prelude Naming FieldMeta.
From stdpp Require Import base gmap strings list fin_maps.
From Stdlib Require Import Ascii ZArith Lia.

Open Scope string_scope.
Open Scope list_scope.

(** ** Semantics ([domain/notification_semantic.go]) *)

Inductive NotificationSemantic :=
| SemanticValidation
| SemanticNotFound
| SemanticConflict
| SemanticForbidden
| SemanticUnauthorized
| SemanticUnavailable
| SemanticSchema
| SemanticInternal
| SemanticMethodNotAllowed
| SemanticPayloadTooLarge
| SemanticGatewayTimeout
| SemanticStateConflict
| SemanticRequestTimeout
| SemanticGone
| SemanticPreconditionFailed
| SemanticUnsupportedMediaType
| SemanticTooManyRequests
| SemanticNotImplemented
| SemanticBadGateway
| SemanticPaymentRequired
| SemanticNotAcceptable
| SemanticRangeNotSatisfiable
| SemanticLocked
| SemanticPreconditionRequired
| SemanticUnavailableForLegalReasons
| SemanticInsufficientStorage
| SemanticRequestHeaderFieldsTooLarge.

#[export] Instance NotificationSemantic_eq_dec : EqDecision NotificationSemantic.
Proof. solve_decision. Defined.

Definition semanticString (s : NotificationSemantic) : string :=
  match s with
  | SemanticNotFound => "NotFound"
  | SemanticConflict => "Conflict"
  | SemanticForbidden => "Forbidden"
  | SemanticUnauthorized => "Unauthorized"
  | SemanticUnavailable => "Unavailable"
  | SemanticSchema => "Schema"
  | SemanticInternal => "Internal"
  | SemanticMethodNotAllowed => "MethodNotAllowed"
  | SemanticPayloadTooLarge => "PayloadTooLarge"
  | SemanticGatewayTimeout => "GatewayTimeout"
  | SemanticStateConflict => "StateConflict"
  | SemanticRequestTimeout => "RequestTimeout"
  | SemanticGone => "Gone"
  | SemanticPreconditionFailed => "PreconditionFailed"
  | SemanticUnsupportedMediaType => "UnsupportedMediaType"
  | SemanticTooManyRequests => "TooManyRequests"
  | SemanticNotImplemented => "NotImplemented"
  | SemanticBadGateway => "BadGateway"
  | SemanticPaymentRequired => "PaymentRequired"
  | SemanticNotAcceptable => "NotAcceptable"
  | SemanticRangeNotSatisfiable => "RangeNotSatisfiable"
  | SemanticLocked => "Locked"
  | SemanticPreconditionRequired => "PreconditionRequired"
  | SemanticUnavailableForLegalReasons => "UnavailableForLegalReasons"
  | SemanticInsufficientStorage => "InsufficientStorage"
  | SemanticRequestHeaderFieldsTooLarge => "RequestHeaderFieldsTooLarge"
  | SemanticValidation => "Validation"
  end.

(** ** Notification types ([domain/notification_core.go]) *)

(** [NOther] is a notification type declared outside the kernel: its Go type name
    and what its [Semantic()] answers. *)
Inductive Notification :=
| RequiredFieldNotification (semanticOverride : option NotificationSemantic)
| SchemaViolationNotification
| LimitExceededNotification
| UnableToInsertWithIDNotification
| UnableToUpdateWithoutIDNotification
| UnableToDeleteWithoutIDNotification
| InsertNotAllowedNotification
| UpdateNotAllowedNotification
| DeleteNotAllowedNotification
| ArchiveNotAllowedNotification
| UnarchiveNotAllowedNotification
| ServiceIsRequiredNotification
| EntityAlreadyAddedNotification
| EntityDoesNotExistNotification
| EntityIsNotActiveNotification
| NaturalIDImmutableNotification
| InvalidAggregateChildNotification
| RepositoryFunctionNotImplementedNotification
| InvalidIDUUIDNotification
| MalformedIDNotification
| UnknownIDAddressNotification
| InvalidFilterValueNotification
| InvalidEventTypeNotification
| RecordNotFoundNotification
| ConcurrentModificationNotification
| NOther (key : string) (sem : NotificationSemantic).

#[export] Instance Notification_eq_dec : EqDecision Notification.
Proof. solve_decision. Defined.

(** The [Semantic()] methods: the overrides of the kernel, and
    [SemanticValidation] by promotion for the rest. *)
Definition Semantic (n : Notification) : NotificationSemantic :=
  match n with
  | RequiredFieldNotification o => default SemanticValidation o
  | SchemaViolationNotification => SemanticSchema
  | LimitExceededNotification => SemanticSchema
  | RecordNotFoundNotification => SemanticNotFound
  | MalformedIDNotification => SemanticSchema
  | UnknownIDAddressNotification => SemanticNotFound
  | InvalidFilterValueNotification => SemanticSchema
  | EntityIsNotActiveNotification => SemanticStateConflict
  | ConcurrentModificationNotification => SemanticStateConflict
  | EntityAlreadyAddedNotification => SemanticConflict
  | InsertNotAllowedNotification => SemanticForbidden
  | UpdateNotAllowedNotification => SemanticForbidden
  | DeleteNotAllowedNotification => SemanticForbidden
  | ArchiveNotAllowedNotification => SemanticForbidden
  | UnarchiveNotAllowedNotification => SemanticForbidden
  | NOther _ s => s
  | _ => SemanticValidation
  end.

Definition WithSemantic (s : NotificationSemantic) : Notification :=
  RequiredFieldNotification (Some s).

(** The unqualified Go type name. *)
Definition NotificationKey (n : Notification) : string :=
  match n with
  | RequiredFieldNotification _ => "RequiredFieldNotification"
  | SchemaViolationNotification => "SchemaViolationNotification"
  | LimitExceededNotification => "LimitExceededNotification"
  | UnableToInsertWithIDNotification => "UnableToInsertWithIDNotification"
  | UnableToUpdateWithoutIDNotification => "UnableToUpdateWithoutIDNotification"
  | UnableToDeleteWithoutIDNotification => "UnableToDeleteWithoutIDNotification"
  | InsertNotAllowedNotification => "InsertNotAllowedNotification"
  | UpdateNotAllowedNotification => "UpdateNotAllowedNotification"
  | DeleteNotAllowedNotification => "DeleteNotAllowedNotification"
  | ArchiveNotAllowedNotification => "ArchiveNotAllowedNotification"
  | UnarchiveNotAllowedNotification => "UnarchiveNotAllowedNotification"
  | ServiceIsRequiredNotification => "ServiceIsRequiredNotification"
  | EntityAlreadyAddedNotification => "EntityAlreadyAddedNotification"
  | EntityDoesNotExistNotification => "EntityDoesNotExistNotification"
  | EntityIsNotActiveNotification => "EntityIsNotActiveNotification"
  | NaturalIDImmutableNotification => "NaturalIDImmutableNotification"
  | InvalidAggregateChildNotification => "InvalidAggregateChildNotification"
  | RepositoryFunctionNotImplementedNotification => "RepositoryFunctionNotImplementedNotification"
  | InvalidIDUUIDNotification => "InvalidIDUUIDNotification"
  | MalformedIDNotification => "MalformedIDNotification"
  | UnknownIDAddressNotification => "UnknownIDAddressNotification"
  | InvalidFilterValueNotification => "InvalidFilterValueNotification"
  | InvalidEventTypeNotification => "InvalidEventTypeNotification"
  | RecordNotFoundNotification => "RecordNotFoundNotification"
  | ConcurrentModificationNotification => "ConcurrentModificationNotification"
  | NOther key _ => key
  end.

(** ** Messages ([domain/notification.go]) *)

(** [Err] and [Vars] are carried, never inspected by the code modelled here. *)
Record NotificationMessage := mkMessage {
  m_Path : list PathSegment;
  m_Override : string;
  m_FieldValue : string;
  m_FuncName : string;
  m_Err : option string;
  m_Notification : Notification;
  m_Vars : gmap string string;
  m_LabelKey : string
}.

(** The struct literal with only a path and a notification set. *)
Definition message (path : list PathSegment) (n : Notification) : NotificationMessage :=
  mkMessage path "" "" "" None n ∅ "".

Definition setPath (p : list PathSegment) (m : NotificationMessage) : NotificationMessage :=
  mkMessage p (m_Override m) (m_FieldValue m) (m_FuncName m) (m_Err m) (m_Notification m)
    (m_Vars m) (m_LabelKey m).

Definition setOverride (o : string) (m : NotificationMessage) : NotificationMessage :=
  mkMessage (m_Path m) o (m_FieldValue m) (m_FuncName m) (m_Err m) (m_Notification m)
    (m_Vars m) (m_LabelKey m).

Definition setLabelKey (l : string) (m : NotificationMessage) : NotificationMessage :=
  mkMessage (m_Path m) (m_Override m) (m_FieldValue m) (m_FuncName m) (m_Err m)
    (m_Notification m) (m_Vars m) l.

Definition setFuncName (f : string) (m : NotificationMessage) : NotificationMessage :=
  mkMessage (m_Path m) (m_Override m) (m_FieldValue m) f (m_Err m) (m_Notification m)
    (m_Vars m) (m_LabelKey m).

Definition setFieldValue (v : string) (m : NotificationMessage) : NotificationMessage :=
  mkMessage (m_Path m) (m_Override m) v (m_FuncName m) (m_Err m) (m_Notification m)
    (m_Vars m) (m_LabelKey m).

Definition setErr (e : string) (m : NotificationMessage) : NotificationMessage :=
  mkMessage (m_Path m) (m_Override m) (m_FieldValue m) (m_FuncName m) (Some e)
    (m_Notification m) (m_Vars m) (m_LabelKey m).

Definition ResolveFieldName (m : NotificationMessage) : string :=
  if negb (String.eqb (m_Override m) "") then m_Override m else renderPath (m_Path m).

(** ** Contexts *)

(** The root of a context chain. *)
Record NotificationContext := mkContext {
  nc_context : string;
  nc_messages : list NotificationMessage;
  nc_contextVars : option (gmap string string);
  nc_entityType : option GoType
}.

(** A reference to a context: the root itself, or a scoped view with its prefix,
    its entity type and its parent. *)
Inductive CtxRef :=
| CRoot
| CScoped (prefix : list PathSegment) (entityType : option GoType) (parent : CtxRef).

Definition NewNotificationContext (name : string) : NotificationContext :=
  mkContext name [] None None.

Definition setMessages (ms : list NotificationMessage) (c : NotificationContext) : NotificationContext :=
  mkContext (nc_context c) ms (nc_contextVars c) (nc_entityType c).

Definition ctxPrefix (r : CtxRef) : list PathSegment :=
  match r with CRoot => [] | CScoped p _ _ => p end.

(** [c.entityType] of the referenced node. *)
Definition ctxEntityType (r : CtxRef) (c : NotificationContext) : option GoType :=
  match r with CRoot => nc_entityType c | CScoped _ t _ => t end.

Definition Messages (c : NotificationContext) : list NotificationMessage := nc_messages c.

Definition HasErrors (c : NotificationContext) : bool :=
  match nc_messages c with [] => false | _ => true end.

Definition Clear (c : NotificationContext) : NotificationContext := setMessages [] c.

(** The prefixing step of [AddNotificationMessage]. *)
Definition prefixPath (prefix : list PathSegment) (m : NotificationMessage) : NotificationMessage :=
  match prefix, m_Path m with
  | _ :: _, _ :: _ => setPath (prefix ++ m_Path m) m
  | _, _ => m
  end.

Fixpoint AddNotificationMessage (r : CtxRef) (msg : NotificationMessage) (c : NotificationContext) : NotificationContext :=
  let msg := prefixPath (ctxPrefix r) msg in
  match r with
  | CScoped _ _ parent => AddNotificationMessage parent msg c
  | CRoot => setMessages (nc_messages c ++ [msg]) c
  end.

(** [AddNotificationNamed]; [value] is the rendered optional value. *)
Definition AddNotificationNamed (r : CtxRef) (name : string) (n : Notification)
  (value : option string) (c : NotificationContext) : NotificationContext :=
  let '(label, wire) :=
    match ctxEntityType r c with
    | Some t => (resolveLabelKey (Some t) name, resolveNotifyAs (Some t) name)
    | None => ("", "")
    end in
  AddNotificationMessage r
    (mkMessage [mkPathSegment name wire None] "" (default "" value) "" None n ∅ label) c.

Definition ChangeFieldName (oldName newName : string) (c : NotificationContext) : NotificationContext :=
  setMessages
    ((fun m => if String.eqb (ResolveFieldName m) oldName then setOverride newName m else m)
       <$> nc_messages c) c.

(** The inner loop of [applyGoFieldAlias]: from the end, skip the index segments
    and rewrite the first name segment when it carries the Go name.  [segs] is
    the path reversed. *)
Fixpoint aliasLeafRev (goName wireName : string) (segs : list PathSegment) : list PathSegment :=
  match segs with
  | [] => []
  | s :: rest =>
      match ps_Index s with
      | Some _ => s :: aliasLeafRev goName wireName rest
      | None =>
          (if String.eqb (ps_Name s) goName then mkPathSegment (ps_Name s) wireName None else s) :: rest
      end
  end.

Definition aliasPath (goName wireName : string) (path : list PathSegment) : list PathSegment :=
  reverse (aliasLeafRev goName wireName (reverse path)).

Definition applyGoFieldAlias (goName wireName : string) (c : NotificationContext) : NotificationContext :=
  setMessages ((fun m => setPath (aliasPath goName wireName (m_Path m)) m) <$> nc_messages c) c.

(** [Scoped] with at least one segment; with none it returns its receiver. *)
Definition Scoped (r : CtxRef) (segments : list PathSegment) : CtxRef :=
  match segments with
  | [] => r
  | _ => CScoped (ctxPrefix r ++ segments) None CRoot
  end.

(** [scopedForType], on the callers' non-empty segment lists. *)
Definition scopedForType (r : CtxRef) (t : GoType) (seg : PathSegment) (segments : list PathSegment) : CtxRef :=
  match Scoped r (seg :: segments) with
  | CScoped p _ parent => CScoped p (Some t) parent
  | CRoot => CRoot
  end.

(** One message of [resolvePendingLabels]. *)
Definition resolvePending (t : GoType) (m : NotificationMessage) : NotificationMessage :=
  match m_Path m with
  | [seg] =>
      if String.eqb (ps_Name seg) "" then m
      else
        let m := if String.eqb (m_LabelKey m) "" then setLabelKey (resolveLabelKey (Some t) (ps_Name seg)) m else m in
        if String.eqb (ps_Wire seg) "" then
          setPath [mkPathSegment (ps_Name seg) (resolveNotifyAs (Some t) (ps_Name seg)) (ps_Index seg)] m
        else m
  | _ => m
  end.

Definition resolvePendingLabels (c : NotificationContext) : NotificationContext :=
  match nc_entityType c with
  | None => c
  | Some t => setMessages (resolvePending t <$> nc_messages c) c
  end.

Definition SetVars (vars : gmap string string) (c : NotificationContext) : NotificationContext :=
  mkContext (nc_context c) (nc_messages c) (if decide (vars = ∅) then None else Some vars) (nc_entityType c).

Definition ContextVars (c : NotificationContext) : option (gmap string string) := nc_contextVars c.

(** [Copy]: a fresh root, renamed when a non-empty name is given. *)
Definition Copy (newContext : option string) (c : NotificationContext) : NotificationContext :=
  let name := match newContext with
              | Some n => if String.eqb n "" then nc_context c else n
              | None => nc_context c
              end in
  mkContext name (nc_messages c) None None.

(** ** Lemmas *)

(** A reference is well formed when it is one the API can build: the root, or a
    view hanging off the root with a non-empty prefix. *)
Definition wfRef (r : CtxRef) : Prop :=
  match r with
  | CRoot => True
  | CScoped p _ parent => p <> [] /\ parent = CRoot
  end.

Lemma Scoped_wf r segs : wfRef r -> wfRef (Scoped r segs).
Proof.
  destruct segs as [|s segs]; simpl; [done|]. intros _. split; [|done].
  intros H%app_eq_nil. naive_solver.
Qed.

Lemma scopedForType_eq r t seg segs :
  scopedForType r t seg segs = CScoped (ctxPrefix r ++ seg :: segs) (Some t) CRoot.
Proof. done. Qed.

Lemma AddNotificationMessage_spec r msg c :
  wfRef r ->
  AddNotificationMessage r msg c = setMessages (nc_messages c ++ [prefixPath (ctxPrefix r) msg]) c.
Proof. destruct r as [|p t parent]; [done|]. by intros [Hp ->]. Qed.

(** In general an emission appends exactly one message to the root. *)
Lemma AddNotificationMessage_app r msg c :
  exists m, AddNotificationMessage r msg c = setMessages (nc_messages c ++ [m]) c /\
            m_Notification m = m_Notification msg.
Proof.
  revert msg. induction r as [|p t r IH]; intros msg; simpl.
  - eexists. split; [done|]. by destruct (m_Path msg).
  - destruct (IH (prefixPath p msg)) as (m & -> & Hm). exists m. split; [done|].
    rewrite Hm. unfold prefixPath. by repeat case_match.
Qed.

Lemma AddNotificationMessage_HasErrors r msg c : HasErrors (AddNotificationMessage r msg c) = true.
Proof.
  destruct (AddNotificationMessage_app r msg c) as (m & -> & _).
  unfold HasErrors. simpl. by destruct (nc_messages c).
Qed.

Lemma AddNotificationMessage_prefix r msg c :
  nc_messages c `prefix_of` nc_messages (AddNotificationMessage r msg c).
Proof. destruct (AddNotificationMessage_app r msg c) as (m & -> & _). simpl. by eexists. Qed.

Lemma HasErrors_prefix c c' :
  nc_messages c `prefix_of` nc_messages c' -> HasErrors c = true -> HasErrors c' = true.
Proof.
  intros [k Hk]. unfold HasErrors. destruct (nc_messages c); [done|]. rewrite Hk. by simpl.
Qed.

(** Field aliases rewrite distinct Go names independently, so the iteration order
    of the Go map is immaterial. *)
Lemma aliasLeafRev_comm g1 w1 g2 w2 segs :
  g1 <> g2 ->
  aliasLeafRev g1 w1 (aliasLeafRev g2 w2 segs) = aliasLeafRev g2 w2 (aliasLeafRev g1 w1 segs).
Proof.
  intros Hne. induction segs as [|[n w i] segs IH]; simpl; [done|].
  destruct i; simpl; [by rewrite IH|].
  destruct (String.eqb_spec n g2), (String.eqb_spec n g1); simpl; subst; try done;
    rewrite ?String.eqb_refl; try done.
  - by rewrite (proj2 (String.eqb_neq _ _)) by done.
  - by rewrite (proj2 (String.eqb_neq _ _)) by done.
  - by rewrite !(proj2 (String.eqb_neq _ _)) by done.
Qed.

Lemma aliasPath_comm g1 w1 g2 w2 path :
  g1 <> g2 -> aliasPath g1 w1 (aliasPath g2 w2 path) = aliasPath g2 w2 (aliasPath g1 w1 path).
Proof. intros H. unfold aliasPath. rewrite !reverse_involutive. f_equal. by apply aliasLeafRev_comm. Qed.

Lemma applyGoFieldAlias_comm g1 w1 g2 w2 c :
  g1 <> g2 ->
  applyGoFieldAlias g1 w1 (applyGoFieldAlias g2 w2 c) = applyGoFieldAlias g2 w2 (applyGoFieldAlias g1 w1 c).
Proof.
  intros H. unfold applyGoFieldAlias. simpl. unfold setMessages. simpl. f_equal.
  rewrite <- !list_fmap_compose. apply list_fmap_ext. intros _ m _. simpl.
  unfold setPath. simpl. f_equal. by apply aliasPath_comm.
Qed.

Lemma applyGoFieldAlias_HasErrors g w c : HasErrors (applyGoFieldAlias g w c) = HasErrors c.
Proof. unfold HasErrors. simpl. by destruct (nc_messages c). Qed.

(** An alias keeps the prefix of a scoped message: only the last name segment is
    rewritten. *)
Lemma aliasPath_leaf g w prefix n w0 :
  aliasPath g w (prefix ++ [mkPathSegment n w0 None]) =
  prefix ++ [mkPathSegment n (if String.eqb n g then w else w0) None].
Proof.
  unfold aliasPath. rewrite reverse_app. simpl.
  destruct (String.eqb n g); by rewrite reverse_cons, reverse_involutive.
Qed.

#[export] Hint Resolve AddNotificationMessage_HasErrors AddNotificationMessage_prefix
  Scoped_wf : omnicore.
