(* ===== verification/Errors.v ===== *)
(** * Errors

    Go error chains as the framework inspects them, and the constructors of
    [domain/exception.go]. *)

From S2P Require Import Prelude Naming FieldMeta Notification.
From stdpp Require Import base gmap strings list fin_maps.
From Stdlib Require Import Ascii ZArith Lia.

Open Scope string_scope.
Open Scope list_scope.

(** An error chain: [context.DeadlineExceeded], a notification carrier with its
    contexts, another leaf, a wrapper with one cause, a join. *)
Inductive GoErr :=
| EDeadlineExceeded
| ECarrier (contexts : list (option NotificationContext))
| ELeaf (text : string)
| EWrap (text : string) (cause : GoErr)
| EJoin (causes : list GoErr).

(** [errors.Is(err, context.DeadlineExceeded)]. *)
Fixpoint isDeadline (e : GoErr) : bool :=
  match e with
  | EDeadlineExceeded => true
  | ECarrier _ | ELeaf _ => false
  | EWrap _ cause => isDeadline cause
  | EJoin causes => existsb isDeadline causes
  end.

(** [errors.As(err, &carrier)]: the first carrier in pre-order. *)
Fixpoint asCarrier (e : GoErr) : option (list (option NotificationContext)) :=
  match e with
  | ECarrier contexts => Some contexts
  | EDeadlineExceeded | ELeaf _ => None
  | EWrap _ cause => asCarrier cause
  | EJoin causes =>
      (fix first (l : list GoErr) :=
         match l with
         | [] => None
         | c :: rest => match asCarrier c with Some x => Some x | None => first rest end
         end) causes
  end.

(** ** [DomainError] *)

Definition NewDomainError (contexts : list (option NotificationContext)) : GoErr := ECarrier contexts.

Definition NewDomainErrorWith (contextName : string) (msg : NotificationMessage) : GoErr :=
  NewDomainError [Some (AddNotificationMessage CRoot msg (NewNotificationContext contextName))].

Definition SingleNotificationError (contextName fieldName : string) (n : Notification) : GoErr :=
  NewDomainErrorWith contextName (setOverride fieldName (message [] n)).

Definition NotFoundError (contextName fieldName fieldValue : string) : GoErr :=
  NewDomainErrorWith contextName
    (setFieldValue fieldValue (setOverride fieldName (message [] RecordNotFoundNotification))).

Definition FieldErrorWithCause (contextName fieldName cause : string) (n : Notification) : GoErr :=
  NewDomainErrorWith contextName (setErr cause (setOverride fieldName (message [] n))).
