(* ===== verification/BaseEntity.v ===== *)
(** * Identity, modes and the embedded base entity

    [domain/id.go], [domain/mode.go], [domain/managed.go], [domain/event.go] and
    the carrier half of [domain/entity_base.go]: the [BaseEntity] every entity
    embeds, with the operations its methods are.

    [V] is the type of aggregate value objects, [S] of domain services and [O] of
    old-state snapshots: code and data of the service built on the framework. *)

From S2P Require Import Prelude Naming FieldMeta Notification.
From stdpp Require Import base gmap strings list fin_maps.
From Stdlib Require Import Ascii ZArith Lia.

Open Scope string_scope.
Open Scope list_scope.

(** ** Identity ([domain/id.go]) *)

Record ID := NewID { id_value : string }.

#[export] Instance ID_eq_dec : EqDecision ID.
Proof. solve_decision. Defined.

Definition id_IsEmpty (i : ID) : bool := String.eqb (id_value i) "".

(** [ID.IsValid]; [parse] is [uuid.Parse] of github.com/google/uuid, [None] on
    success and the error text otherwise. *)
Definition id_IsValid (parse : string -> option string) (i : ID) (fieldName : string)
  (r : CtxRef) (c : NotificationContext) : bool * NotificationContext :=
  match parse (id_value i) with
  | Some err =>
      (false, AddNotificationMessage r
         (setErr err (setFieldValue (id_value i) (message [NameSegment fieldName] InvalidIDUUIDNotification))) c)
  | None => (true, c)
  end.

(** ** Modes ([domain/mode.go]) *)

Inductive EntityMode :=
| ModeUnknown
| ModeDisplay
| ModeInsert
| ModeUpdate
| ModeDelete
| ModeArchive
| ModeUnarchive.

#[export] Instance EntityMode_eq_dec : EqDecision EntityMode.
Proof. solve_decision. Defined.

Definition modeString (m : EntityMode) : string :=
  match m with
  | ModeDisplay => "DISPLAY"
  | ModeInsert => "INSERT"
  | ModeUpdate => "UPDATE"
  | ModeDelete => "DELETE"
  | ModeArchive => "ARCHIVE"
  | ModeUnarchive => "UNARCHIVE"
  | ModeUnknown => "UNKNOWN"
  end.

Definition modeIsValid (m : EntityMode) : bool :=
  match m with ModeUnknown => false | _ => true end.

(** ** The managed carrier ([domain/managed.go]) *)

Inductive StampOp := StampFill | StampToNull | StampToEmpty.

Record StampRequest := mkStamp { sr_Field : string; sr_Op : StampOp }.

(** Instants are [Z] (nanoseconds); a Go pointer is an option. *)
Record Managed := mkManaged {
  mg_id : option ID;
  mg_revision : Z;
  mg_createdAt : option Z;
  mg_updatedAt : option Z;
  mg_archivedAt : option Z;
  mg_stamps : list StampRequest
}.

Definition emptyManaged : Managed := mkManaged None 0 None None None [].

Definition stampAs (goField : string) (op : StampOp) (m : Managed) : Managed :=
  let stamps :=
    match update_first (fun s => String.eqb (sr_Field s) goField)
                       (fun s => mkStamp (sr_Field s) op) (mg_stamps m) with
    | Some l => l
    | None => mg_stamps m ++ [mkStamp goField op]
    end in
  mkManaged (mg_id m) (mg_revision m) (mg_createdAt m) (mg_updatedAt m) (mg_archivedAt m) stamps.

Definition Stamp (goField : string) : Managed -> Managed := stampAs goField StampFill.
Definition StampNull (goField : string) : Managed -> Managed := stampAs goField StampToNull.
Definition StampEmpty (goField : string) : Managed -> Managed := stampAs goField StampToEmpty.

Definition managed_GetID (m : Managed) : ID := default (NewID "") (mg_id m).

Definition SetID (i : ID) (m : Managed) : Managed :=
  mkManaged (Some i) (mg_revision m) (mg_createdAt m) (mg_updatedAt m) (mg_archivedAt m) (mg_stamps m).

Definition ClearID (m : Managed) : Managed :=
  mkManaged None (mg_revision m) (mg_createdAt m) (mg_updatedAt m) (mg_archivedAt m) (mg_stamps m).

Definition SetManagedColumns (revision : Z) (createdAt updatedAt archivedAt : option Z) (m : Managed) : Managed :=
  mkManaged (mg_id m) revision createdAt updatedAt archivedAt (mg_stamps m).

Definition StampFields (reqs : list StampRequest) : list string := sr_Field <$> reqs.

(** ** Events ([domain/event.go]) *)

Inductive EventType := EventUnknown | EventLog | EventDebug | EventError | EventWarning.

Record DomainEvent := mkEvent { ev_Type : EventType; ev_Class : string; ev_Msg : string }.

(** ** The base entity ([domain/entity_base.go]) *)

Section BaseEntity.
Context {V S O : Type}.

Record BaseEntity := mkBase {
  be_managed : Managed;
  be_mode : EntityMode;
  be_service : option S;
  be_notifCtx : option NotificationContext;
  be_contexts : list NotificationContext;
  be_events : list DomainEvent;
  be_avos : list (string * V);
  be_old : option O;
  be_aliases : gmap string string;
  be_className : string;
  be_requestedMode : EntityMode;
  be_rulesWindow : bool
}.

(** The zero value of the embedded struct. *)
Definition newBase : BaseEntity :=
  mkBase emptyManaged ModeUnknown None None [] [] [] None ∅ "" ModeUnknown false.

Definition be_setManaged (x : Managed) (b : BaseEntity) : BaseEntity :=
  mkBase x (be_mode b) (be_service b) (be_notifCtx b) (be_contexts b) (be_events b) (be_avos b)
    (be_old b) (be_aliases b) (be_className b) (be_requestedMode b) (be_rulesWindow b).

Definition setMode (x : EntityMode) (b : BaseEntity) : BaseEntity :=
  mkBase (be_managed b) x (be_service b) (be_notifCtx b) (be_contexts b) (be_events b) (be_avos b)
    (be_old b) (be_aliases b) (be_className b) (be_requestedMode b) (be_rulesWindow b).

Definition setService (x : option S) (b : BaseEntity) : BaseEntity :=
  mkBase (be_managed b) (be_mode b) x (be_notifCtx b) (be_contexts b) (be_events b) (be_avos b)
    (be_old b) (be_aliases b) (be_className b) (be_requestedMode b) (be_rulesWindow b).

Definition be_setCtx (x : NotificationContext) (b : BaseEntity) : BaseEntity :=
  mkBase (be_managed b) (be_mode b) (be_service b) (Some x) (be_contexts b) (be_events b) (be_avos b)
    (be_old b) (be_aliases b) (be_className b) (be_requestedMode b) (be_rulesWindow b).

Definition AddNotificationContext (x : NotificationContext) (b : BaseEntity) : BaseEntity :=
  mkBase (be_managed b) (be_mode b) (be_service b) (be_notifCtx b) (be_contexts b ++ [x]) (be_events b)
    (be_avos b) (be_old b) (be_aliases b) (be_className b) (be_requestedMode b) (be_rulesWindow b).

Definition RegisterEvent (x : DomainEvent) (b : BaseEntity) : BaseEntity :=
  mkBase (be_managed b) (be_mode b) (be_service b) (be_notifCtx b) (be_contexts b) (be_events b ++ [x])
    (be_avos b) (be_old b) (be_aliases b) (be_className b) (be_requestedMode b) (be_rulesWindow b).

Definition ValidateAggregateValueObject (name : string) (avo : V) (b : BaseEntity) : BaseEntity :=
  mkBase (be_managed b) (be_mode b) (be_service b) (be_notifCtx b) (be_contexts b) (be_events b)
    (be_avos b ++ [(name, avo)]) (be_old b) (be_aliases b) (be_className b) (be_requestedMode b)
    (be_rulesWindow b).

Definition ValidateAggregateValueObjects (name : string) (avos : list V) (b : BaseEntity) : BaseEntity :=
  foldl (fun b avo => ValidateAggregateValueObject name avo b) b avos.

Definition setOldEntity (x : option O) (b : BaseEntity) : BaseEntity :=
  mkBase (be_managed b) (be_mode b) (be_service b) (be_notifCtx b) (be_contexts b) (be_events b) (be_avos b)
    x (be_aliases b) (be_className b) (be_requestedMode b) (be_rulesWindow b).

Definition AddFieldNameAlias (goFieldName wireName : string) (b : BaseEntity) : BaseEntity :=
  mkBase (be_managed b) (be_mode b) (be_service b) (be_notifCtx b) (be_contexts b) (be_events b) (be_avos b)
    (be_old b) (<[goFieldName := wireName]> (be_aliases b)) (be_className b) (be_requestedMode b)
    (be_rulesWindow b).

Definition be_setClassName (x : string) (b : BaseEntity) : BaseEntity :=
  mkBase (be_managed b) (be_mode b) (be_service b) (be_notifCtx b) (be_contexts b) (be_events b) (be_avos b)
    (be_old b) (be_aliases b) x (be_requestedMode b) (be_rulesWindow b).

Definition be_setRequestedMode (x : EntityMode) (b : BaseEntity) : BaseEntity :=
  mkBase (be_managed b) (be_mode b) (be_service b) (be_notifCtx b) (be_contexts b) (be_events b) (be_avos b)
    (be_old b) (be_aliases b) (be_className b) x (be_rulesWindow b).

Definition be_setRulesWindow (x : bool) (b : BaseEntity) : BaseEntity :=
  mkBase (be_managed b) (be_mode b) (be_service b) (be_notifCtx b) (be_contexts b) (be_events b) (be_avos b)
    (be_old b) (be_aliases b) (be_className b) (be_requestedMode b) x.

Definition openRulesWindow : BaseEntity -> BaseEntity := be_setRulesWindow true.
Definition closeRulesWindow : BaseEntity -> BaseEntity := be_setRulesWindow false.

(** [ensureContext]: allocate the context on first use, together with the display
    mode.  The nil and the empty alias map are the same map here. *)
Definition ensureContext (b : BaseEntity) : BaseEntity :=
  match be_notifCtx b with
  | Some _ => b
  | None => setMode ModeDisplay (be_setCtx (NewNotificationContext "") b)
  end.

(** The context [b.NotificationContext()] returns. *)
Definition contextOf (b : BaseEntity) : NotificationContext :=
  default (NewNotificationContext "") (be_notifCtx b).

(** Run an operation on the context through [ensureContext]. *)
Definition onContext (f : NotificationContext -> NotificationContext) (b : BaseEntity) : BaseEntity :=
  let b := ensureContext b in be_setCtx (f (contextOf b)) b.

Definition be_AddNotificationMessage (msg : NotificationMessage) : BaseEntity -> BaseEntity :=
  onContext (AddNotificationMessage CRoot msg).

Definition be_AddNotificationNamed (name : string) (n : Notification) (value : option string) :
  BaseEntity -> BaseEntity :=
  onContext (AddNotificationNamed CRoot name n value).

(** [initWithName]: name the context once; the guard is the class name. *)
Definition initWithName (name : string) (entityType : GoType) (b : BaseEntity) : BaseEntity :=
  let b := ensureContext b in
  if negb (String.eqb (be_className b) "") then b
  else
    let c := contextOf b in
    be_setCtx
      (resolvePendingLabels
         (mkContext name (nc_messages c) (nc_contextVars c) (Some entityType)))
      (be_setClassName name b).

(** [CompleteAsArchive]; [None] is its panic. *)
Definition CompleteAsArchive (b : BaseEntity) : option BaseEntity :=
  if negb (be_rulesWindow b) || negb (bool_decide (be_mode b = ModeUpdate)) then None
  else Some (be_setRequestedMode ModeArchive b).

Definition takeRequestedMode (b : BaseEntity) : EntityMode * BaseEntity :=
  (be_requestedMode b, be_setRequestedMode ModeUnknown b).

(** [resetEntity] keeps the notification context, the snapshot, the aliases and
    the requested mode. *)
Definition resetEntity (b : BaseEntity) : BaseEntity :=
  mkBase (be_managed b) ModeDisplay None (be_notifCtx b) [] [] [] (be_old b) (be_aliases b)
    (be_className b) (be_requestedMode b) (be_rulesWindow b).

(** ** Lemmas *)

Lemma contextOf_ensure b : contextOf (ensureContext b) = contextOf b.
Proof. unfold ensureContext, contextOf. by destruct (be_notifCtx b) eqn:E; simpl; rewrite ?E. Qed.

Lemma contextOf_onContext f b : contextOf (onContext f b) = f (contextOf b).
Proof. unfold onContext. simpl. by rewrite <- (contextOf_ensure b). Qed.

Lemma contextOf_setCtx c b : contextOf (be_setCtx c b) = c.
Proof. done. Qed.

Lemma onContext_old f b : be_old (onContext f b) = be_old b.
Proof. unfold onContext, ensureContext. by destruct (be_notifCtx b). Qed.

Lemma onContext_requested f b : be_requestedMode (onContext f b) = be_requestedMode b.
Proof. unfold onContext, ensureContext. by destruct (be_notifCtx b). Qed.

Lemma onContext_managed f b : be_managed (onContext f b) = be_managed b.
Proof. unfold onContext, ensureContext. by destruct (be_notifCtx b). Qed.

Lemma onContext_window f b : be_rulesWindow (onContext f b) = be_rulesWindow b.
Proof. unfold onContext, ensureContext. by destruct (be_notifCtx b). Qed.

Lemma onContext_events f b : be_events (onContext f b) = be_events b.
Proof. unfold onContext, ensureContext. by destruct (be_notifCtx b). Qed.

Lemma resolvePendingLabels_length c :
  length (nc_messages (resolvePendingLabels c)) = length (nc_messages c).
Proof. unfold resolvePendingLabels. destruct (nc_entityType c); simpl; by rewrite ?length_fmap. Qed.

Lemma HasErrors_length c c' :
  length (nc_messages c) = length (nc_messages c') -> HasErrors c = HasErrors c'.
Proof. unfold HasErrors. by destruct (nc_messages c), (nc_messages c'). Qed.

(** Naming the context keeps every message emitted before it. *)
Lemma initWithName_messages name t b :
  length (nc_messages (contextOf (initWithName name t b))) = length (nc_messages (contextOf b)).
Proof.
  unfold initWithName. destruct (negb _); [by rewrite contextOf_ensure|].
  rewrite contextOf_setCtx, resolvePendingLabels_length. simpl. by rewrite contextOf_ensure.
Qed.

Lemma stampAs_lookup goField op m :
  exists r, r ∈ mg_stamps (stampAs goField op m) /\ sr_Field r = goField /\ sr_Op r = op.
Proof.
  unfold stampAs. simpl.
  destruct (update_first _ _ _) as [l|] eqn:E.
  - apply update_first_Some in E as (l1 & x & l2 & Hl & _ & Hx & ->).
    apply String.eqb_eq in Hx. subst. exists (mkStamp (sr_Field x) op). set_solver.
  - exists (mkStamp goField op). set_solver.
Qed.

(** A field is requested at most once, whatever the sequence of stamp verbs. *)
Lemma stampAs_nodup goField op m :
  NoDup (StampFields (mg_stamps m)) -> NoDup (StampFields (mg_stamps (stampAs goField op m))).
Proof.
  intros H. unfold stampAs. simpl. destruct (update_first _ _ _) as [l|] eqn:E.
  - apply update_first_Some in E as (l1 & x & l2 & Hl & _ & _ & ->).
    rewrite Hl in H. unfold StampFields in *. by rewrite !fmap_app in *.
  - apply update_first_None in E. unfold StampFields in *. rewrite fmap_app.
    apply NoDup_app. split; [done|]. split; [|apply NoDup_singleton].
    intros x Hx Hx'. simpl in Hx'. apply list_elem_of_singleton in Hx' as ->.
    apply list_elem_of_fmap in Hx as (s & Hs & Hin).
    rewrite Forall_forall in E. apply E in Hin. apply String.eqb_neq in Hin. congruence.
Qed.

(** The order of the requested fields is stable: a repeated request changes the
    verb in place. *)
Lemma stampAs_fields goField op m :
  StampFields (mg_stamps (stampAs goField op m)) =
  if bool_decide (goField ∈ StampFields (mg_stamps m)) then StampFields (mg_stamps m)
  else StampFields (mg_stamps m) ++ [goField].
Proof.
  unfold stampAs. simpl. destruct (update_first _ _ _) as [l|] eqn:E.
  - apply update_first_Some in E as (l1 & x & l2 & Hl & _ & Hx & ->).
    apply String.eqb_eq in Hx. rewrite Hl. unfold StampFields. rewrite !fmap_app. simpl.
    rewrite bool_decide_eq_true_2; [done|]. rewrite Hx. set_solver.
  - apply update_first_None in E. rewrite bool_decide_eq_false_2.
    + unfold StampFields. by rewrite fmap_app.
    + intros (s & Hs & Hin)%list_elem_of_fmap. rewrite Forall_forall in E.
      apply E in Hin. apply String.eqb_neq in Hin. congruence.
Qed.

End BaseEntity.

Arguments BaseEntity : clear implicits.
