(* ===== verification/Aggregate.v ===== *)
(** * Aggregate roots and their child collections

    [domain/aggregate_status.go], [domain/aggregate_item.go] and
    [domain/aggregate_root.go]: the tracked entries, their status machine, the
    persistence operation a pair of statuses resolves to, and the primitives that
    mutate a root's collections. *)

From S2P Require Import Prelude Naming FieldMeta Notification BaseEntity.
From stdpp Require Import base gmap strings list fin_maps.
From Stdlib Require Import Ascii ZArith Lia.

Open Scope string_scope.
Open Scope list_scope.

(** ** Statuses and operations ([domain/aggregate_status.go]) *)

Inductive AggregateItemStatus :=
| StatusUnknown
| StatusConstructor
| StatusAdded
| StatusChanged
| StatusRemoved.

#[export] Instance AggregateItemStatus_eq_dec : EqDecision AggregateItemStatus.
Proof. solve_decision. Defined.

Definition statusString (s : AggregateItemStatus) : string :=
  match s with
  | StatusConstructor => "CONSTRUCTOR"
  | StatusAdded => "ADDED"
  | StatusChanged => "CHANGED"
  | StatusRemoved => "REMOVED"
  | StatusUnknown => "UNKNOWN"
  end.

Definition statusIsValid (s : AggregateItemStatus) : bool :=
  match s with StatusUnknown => false | _ => true end.

Inductive AggregateItemOp := OpNoop | OpInsert | OpUpdate | OpDelete.

#[export] Instance AggregateItemOp_eq_dec : EqDecision AggregateItemOp.
Proof. solve_decision. Defined.

Definition OperationOf (original current : AggregateItemStatus) : AggregateItemOp :=
  if negb (bool_decide (original = StatusConstructor)) then
    if negb (bool_decide (current = StatusRemoved)) then OpInsert else OpNoop
  else
    match current with
    | StatusAdded | StatusChanged => OpUpdate
    | StatusRemoved => OpDelete
    | _ => OpNoop
    end.

(** ** The child contract ([domain/aggregate_vo.go])

    What the framework asks of an aggregate value object.  [avo_withID] is
    [withItemID]: the copy with its id set, [None] for an item that is not a
    struct. *)
Class AVOOps (V : Type) := {
  avo_className : V -> string;
  avo_collection : V -> string;
  avo_GetID : V -> ID;
  avo_withID : ID -> V -> option V;
  avo_same : V -> V -> bool
}.

(** The documented contract of [IsSameBusinessIdentity] and of the embedded
    [Managed] carrier: sameness is an equivalence between values of one type, and
    setting the id changes the id only. *)
Class AVOLaws (V : Type) `{AVOOps V} := {
  avo_same_refl v : avo_same v v = true;
  avo_same_sym v w : avo_same v w = true -> avo_same w v = true;
  avo_same_trans u v w : avo_same u v = true -> avo_same v w = true -> avo_same u w = true;
  avo_same_class v w : avo_same v w = true -> avo_className v = avo_className w;
  avo_withID_same i v v' : avo_withID i v = Some v' -> avo_same v v' = true;
  avo_withID_id i v v' : avo_withID i v = Some v' -> avo_GetID v' = i
}.

Section Aggregate.
Context {V S O : Type} `{AVOOps V}.

(** ** State *)

Record aggregateItemEntry := mkEntry {
  e_item : V;
  e_originalStatus : AggregateItemStatus;
  e_currentStatus : AggregateItemStatus
}.

(** [aggregates] is a Go map, nil until [ensureAggregates]. *)
Record AggregateRoot := mkAggregateRoot {
  ar_base : BaseEntity V S O;
  ar_aggregates : option (gmap string (list aggregateItemEntry))
}.

Definition ar_onBase (f : BaseEntity V S O -> BaseEntity V S O) (ar : AggregateRoot) : AggregateRoot :=
  mkAggregateRoot (f (ar_base ar)) (ar_aggregates ar).

Definition ar_notify (msg : NotificationMessage) : AggregateRoot -> AggregateRoot :=
  ar_onBase (be_AddNotificationMessage msg).

Definition ensureAggregates (ar : AggregateRoot) : AggregateRoot :=
  mkAggregateRoot (ar_base ar) (Some (default ∅ (ar_aggregates ar))).

(** Reading a key of the map: nil when absent, and on a nil map. *)
Definition ar_list (key : string) (ar : AggregateRoot) : list aggregateItemEntry :=
  default [] (default ∅ (ar_aggregates ar) !! key).

Definition ar_setList (key : string) (l : list aggregateItemEntry) (ar : AggregateRoot) : AggregateRoot :=
  mkAggregateRoot (ar_base ar) (Some (<[key := l]> (default ∅ (ar_aggregates ar)))).

(** [childFieldPath]: the declared collection name as a single path segment. *)
Definition childFieldPath (item : V) : list PathSegment := [NameSegment (avo_collection item)].

Definition isAggregateItemValid (item : option V) (ar : AggregateRoot) : option V * AggregateRoot :=
  match item with
  | None => (None, ar_notify (message [] EntityDoesNotExistNotification) ar)
  | Some v => (Some v, ar)
  end.

(** ** Load ([AggregateConstructor]) *)

Definition constructorOne (ar : AggregateRoot) (item : option V) : AggregateRoot :=
  match isAggregateItemValid item ar with
  | (None, ar) => ar
  | (Some v, ar) =>
      let key := avo_className v in
      ar_setList key (ar_list key ar ++ [mkEntry v StatusConstructor StatusConstructor]) ar
  end.

Definition AggregateConstructor (items : list (option V)) (ar : AggregateRoot) : AggregateRoot :=
  foldl constructorOne (ensureAggregates ar) items.

(** ** Add *)

(** The item an entry is re-activated with: the re-sent value under the tracked
    id, when there is one. *)
Definition reactivated (tracked item : V) : V :=
  if negb (id_IsEmpty (avo_GetID tracked)) then
    match avo_withID (avo_GetID tracked) item with
    | Some stamped => stamped
    | None => item
    end
  else item.

(** What the loop of [addAggregateItem] comes to on one collection. *)
Inductive AddScan :=
| AddDuplicate
| AddReactivated (l : list aggregateItemEntry)
| AddFellThrough.

Fixpoint addScan (item : V) (l : list aggregateItemEntry) : AddScan :=
  match l with
  | [] => AddFellThrough
  | entry :: rest =>
      let next := match addScan item rest with
                  | AddReactivated l => AddReactivated (entry :: l)
                  | r => r
                  end in
      if negb (avo_same (e_item entry) item) then next
      else
        match e_currentStatus entry with
        | StatusAdded | StatusConstructor => AddDuplicate
        | StatusRemoved | StatusChanged =>
            AddReactivated (mkEntry (reactivated (e_item entry) item) (e_originalStatus entry) StatusAdded :: rest)
        | StatusUnknown => next
        end
  end.

Definition addAggregateItem (item : option V) (ar : AggregateRoot) : AggregateRoot :=
  match isAggregateItemValid item ar with
  | (None, ar) => ar
  | (Some v, ar) =>
      let ar := ensureAggregates ar in
      let key := avo_className v in
      let list := ar_list key ar in
      match addScan v list with
      | AddDuplicate => ar_notify (message (childFieldPath v) EntityAlreadyAddedNotification) ar
      | AddReactivated l => ar_setList key l ar
      | AddFellThrough => ar_setList key (list ++ [mkEntry v StatusAdded StatusAdded]) ar
      end
  end.

(** ** Change *)

(** The single pass of [changeAggregateItem]: the entry addressed by [original],
    and the first active entry other than it that holds the replacement's
    identity. *)
Fixpoint changeScan (original replacement : V) (i : nat) (l : list aggregateItemEntry)
  (target collision : option nat) : option nat * option nat :=
  match l with
  | [] => (target, collision)
  | entry :: rest =>
      if bool_decide (target = None) && avo_same (e_item entry) original then
        changeScan original replacement (Datatypes.S i) rest (Some i) collision
      else if bool_decide (collision = None) &&
              negb (bool_decide (e_currentStatus entry = StatusRemoved)) &&
              avo_same (e_item entry) replacement then
        changeScan original replacement (Datatypes.S i) rest target (Some i)
      else changeScan original replacement (Datatypes.S i) rest target collision
  end.

(** [list[target].item = replacement; list[target].currentStatus = StatusChanged] *)
Definition changeEntry (replacement : V) (e : aggregateItemEntry) : aggregateItemEntry :=
  mkEntry replacement (e_originalStatus e) StatusChanged.

Definition changeAggregateItem (original replacement : option V) (ar : AggregateRoot) : AggregateRoot :=
  match isAggregateItemValid original ar with
  | (None, ar) => ar
  | (Some o, ar) =>
      match isAggregateItemValid replacement ar with
      | (None, ar) => ar
      | (Some r, ar) =>
          let ar := ensureAggregates ar in
          let key := avo_className o in
          let list := ar_list key ar in
          match changeScan o r 0 list None None with
          | (None, _) => ar_notify (message (childFieldPath o) EntityDoesNotExistNotification) ar
          | (Some _, Some _) => ar_notify (message (childFieldPath o) EntityAlreadyAddedNotification) ar
          | (Some target, None) => ar_setList key (alter (changeEntry r) target list) ar
          end
      end
  end.

(** ** Remove and clear *)

Definition setRemoved (e : aggregateItemEntry) : aggregateItemEntry :=
  mkEntry (e_item e) (e_originalStatus e) StatusRemoved.

Definition removeAggregateItem (item : option V) (ar : AggregateRoot) : AggregateRoot :=
  match item with
  | None => ar_notify (message [] EntityDoesNotExistNotification) ar
  | Some v =>
      let ar := ensureAggregates ar in
      let key := avo_className v in
      match update_first
              (fun e => avo_same (e_item e) v && negb (bool_decide (e_currentStatus e = StatusRemoved)))
              setRemoved (ar_list key ar) with
      | Some l => ar_setList key l ar
      | None => ar_notify (message (childFieldPath v) EntityDoesNotExistNotification) ar
      end
  end.

Definition ClearAggregateItemsOfType (typeName : string) (ar : AggregateRoot) : AggregateRoot :=
  match ar_aggregates ar with
  | None => ar
  | Some _ => ar_setList typeName (setRemoved <$> ar_list typeName ar) ar
  end.

(** ** Write-backs *)

Definition setItem (v : V) (e : aggregateItemEntry) : aggregateItemEntry :=
  mkEntry v (e_originalStatus e) (e_currentStatus e).

(** [ApplyToAggregateItem] with its [mutate] as the copy it yields, and
    [AssignAggregateItemID] as its id instance. *)
Definition ApplyToAggregateItem (item : option V) (mutate : V -> option V) (ar : AggregateRoot) : bool * AggregateRoot :=
  match item, ar_aggregates ar with
  | Some v, Some _ =>
      match mutate v with
      | None => (false, ar)
      | Some next =>
          let key := avo_className v in
          match update_first (fun e => avo_same (e_item e) v) (setItem next) (ar_list key ar) with
          | Some l => (true, ar_setList key l ar)
          | None => (false, ar)
          end
      end
  | _, _ => (false, ar)
  end.

Definition AssignAggregateItemID (item : option V) (id : ID) : AggregateRoot -> bool * AggregateRoot :=
  ApplyToAggregateItem item (avo_withID id).

(** ** Readers *)

Definition AllAggregateItems (ar : AggregateRoot) : gmap string (list aggregateItemEntry) :=
  default ∅ (ar_aggregates ar).

(** [GetAggregateItemsOf[T]]: the entries under [T]'s name that are a [T]. *)
Definition GetAggregateItemsOf (typeName : string) (ar : AggregateRoot) : list aggregateItemEntry :=
  filter (fun e => avo_className (e_item e) = typeName) (ar_list typeName ar).

(** [filterByOp] and [filterAggregateByOp] share one loop. *)
Definition filterByOp (items : list aggregateItemEntry) (op : AggregateItemOp) : list V :=
  e_item <$> filter (fun e => OperationOf (e_originalStatus e) (e_currentStatus e) = op) items.

Definition FilterByStatus (items : list aggregateItemEntry) (s : AggregateItemStatus) : list V :=
  e_item <$> filter (fun e => e_currentStatus e = s) items.

Definition GetCurrentItems (items : list aggregateItemEntry) : list V :=
  e_item <$> filter (fun e => e_currentStatus e <> StatusRemoved) items.

Definition GetAddedItemsOf (t : string) (ar : AggregateRoot) : list V := filterByOp (GetAggregateItemsOf t ar) OpInsert.
Definition GetChangedItemsOf (t : string) (ar : AggregateRoot) : list V := filterByOp (GetAggregateItemsOf t ar) OpUpdate.
Definition GetRemovedItemsOf (t : string) (ar : AggregateRoot) : list V := filterByOp (GetAggregateItemsOf t ar) OpDelete.
Definition GetCurrentItemsOf (t : string) (ar : AggregateRoot) : list V := GetCurrentItems (GetAggregateItemsOf t ar).

(** ** The guarded primitives

    [rootName] and [rootType] are what [ensureRootInit] reads off the concrete
    root, [children] is its [AggregateChildren()]. *)

Definition allowedChildTypeNames (children : list V) : gset string := list_to_set (avo_className <$> children).

Definition isAllowedChild (children : list V) (item : option V) : bool :=
  match item with
  | None => false
  | Some v => bool_decide (avo_className v ∈ allowedChildTypeNames children)
  end.

Definition rejectChild (item : option V) (ar : AggregateRoot) : AggregateRoot :=
  match item with
  | None => ar_notify (message [] InvalidAggregateChildNotification) ar
  | Some v =>
      ar_notify (setFieldValue (avo_className v) (message (childFieldPath v) InvalidAggregateChildNotification)) ar
  end.

Section Guarded.
Context (rootName : string) (rootType : GoType) (children : list V).

Definition ensureRootInit : AggregateRoot -> AggregateRoot := ar_onBase (initWithName rootName rootType).

Definition AddAggregateChild (item : option V) (ar : AggregateRoot) : AggregateRoot :=
  let ar := ensureRootInit ar in
  if negb (isAllowedChild children item) then rejectChild item ar
  else addAggregateItem item ar.

Definition ChangeAggregateChild (original replacement : option V) (ar : AggregateRoot) : AggregateRoot :=
  let ar := ensureRootInit ar in
  if negb (isAllowedChild children original) then rejectChild original ar
  else if negb (isAllowedChild children replacement) then rejectChild replacement ar
  else changeAggregateItem original replacement ar.

Definition RemoveAggregateChild (item : option V) (ar : AggregateRoot) : AggregateRoot :=
  let ar := ensureRootInit ar in
  if negb (isAllowedChild children item) then rejectChild item ar
  else removeAggregateItem item ar.

Definition ReplaceAggregateChildrenOf (typeName : string) (items : list (option V)) (ar : AggregateRoot) : AggregateRoot :=
  let ar := ensureRootInit ar in
  let ar := ClearAggregateItemsOfType typeName ar in
  foldl (fun ar it => AddAggregateChild it ar) ar items.

End Guarded.

End Aggregate.

Arguments aggregateItemEntry : clear implicits.
Arguments AggregateRoot : clear implicits.
