(* ===== verification/AggregateProps.v ===== *)
(** * Properties of aggregate collections

    The contract "at most one active child per business identity", the
    full-replace semantics of a PUT, the classification of entries into
    persistence operations, and the boundary guard, over the definitions of
    [Aggregate.v]. *)

From S2P Require Import Prelude Naming FieldMeta Notification BaseEntity Aggregate.
From stdpp Require Import base gmap strings list fin_maps.
From Stdlib Require Import Ascii ZArith Lia.

Open Scope string_scope.
Open Scope list_scope.

Section Props.
Context {V S O : Type} `{AVOLaws V}.

Implicit Types (l : list (aggregateItemEntry V)) (e : aggregateItemEntry V) (v w item : V)
  (ar : AggregateRoot V S O).

(** ** Identity invariants of one collection *)

Definition active e : Prop := e_currentStatus e <> StatusRemoved.

(** At most one entry of [P] per business identity. *)
Definition uniqueOn (P : aggregateItemEntry V -> Prop) l : Prop :=
  forall i j ei ej, l !! i = Some ei -> l !! j = Some ej -> P ei -> P ej ->
    avo_same (e_item ei) (e_item ej) = true -> i = j.

(** At most one active entry per business identity: the framework's contract. *)
Definition uniqueActive l : Prop := uniqueOn active l.

(** At most one entry, removed ones included. *)
Definition uniqueAll l : Prop := uniqueOn (fun _ => True) l.

(** Statuses the primitives can produce. *)
Definition entryOk e : Prop :=
  (e_originalStatus e = StatusConstructor \/ e_originalStatus e = StatusAdded) /\
  e_currentStatus e <> StatusUnknown /\
  (e_originalStatus e = StatusAdded -> e_currentStatus e <> StatusConstructor).

(** ** Rewriting one entry of a list *)

Lemma uniqueOn_update P l1 x y l2 :
  uniqueOn P (l1 ++ x :: l2) ->
  (P y -> forall z, z ∈ l1 \/ z ∈ l2 -> P z -> avo_same (e_item z) (e_item y) = false) ->
  uniqueOn P (l1 ++ y :: l2).
Proof.
  intros Hu Hy i j ei ej Hi Hj Ai Aj Hs.
  assert (Hcase : forall k ek, (l1 ++ y :: l2) !! k = Some ek ->
            (k = length l1 /\ ek = y) \/
            (k <> length l1 /\ (l1 ++ x :: l2) !! k = Some ek /\ (ek ∈ l1 \/ ek ∈ l2))).
  { intros k ek. rewrite !lookup_app.
    destruct (l1 !! k) eqn:E.
    - intros [= ->]. right. split; [apply lookup_lt_Some in E; lia|].
      split; [done|]. left. by eapply list_elem_of_lookup_2.
    - destruct (k - length l1) as [|m] eqn:Em; simpl.
      + intros [= ->]. left. apply lookup_ge_None in E. split; [lia|done].
      + intros Hm. right. apply lookup_ge_None in E. split; [lia|]. split; [done|].
        right. by eapply list_elem_of_lookup_2. }
  destruct (Hcase i ei Hi) as [[-> ->]|(Hni & Hi' & Hin)];
  destruct (Hcase j ej Hj) as [[-> ->]|(Hnj & Hj' & Hjn)]; [done| | |].
  - exfalso. apply avo_same_sym in Hs. rewrite (Hy Ai ej Hjn Aj) in Hs. done.
  - exfalso. rewrite (Hy Aj ei Hin Ai) in Hs. done.
  - by eapply (Hu i j ei ej).
Qed.

Lemma uniqueOn_other P l1 x l2 z :
  uniqueOn P (l1 ++ x :: l2) -> P x -> z ∈ l1 \/ z ∈ l2 -> P z ->
  avo_same (e_item z) (e_item x) = false.
Proof.
  intros Hu Ax Hz Az. destruct (avo_same (e_item z) (e_item x)) eqn:E; [|done]. exfalso.
  assert (Hx : (l1 ++ x :: l2) !! length l1 = Some x).
  { rewrite lookup_app_r by lia. by rewrite Nat.sub_diag. }
  destruct Hz as [Hz|Hz]; apply list_elem_of_lookup in Hz as [k Hk].
  - assert (Hk' : (l1 ++ x :: l2) !! k = Some z) by (apply lookup_app_l_Some; done).
    pose proof (Hu _ _ _ _ Hk' Hx Az Ax E). apply lookup_lt_Some in Hk. lia.
  - assert (Hk' : (l1 ++ x :: l2) !! (length l1 + Datatypes.S k) = Some z).
    { rewrite lookup_app_r by lia. by replace (length l1 + Datatypes.S k - length l1) with (Datatypes.S k) by lia. }
    pose proof (Hu _ _ _ _ Hk' Hx Az Ax E). lia.
Qed.

Lemma uniqueOn_snoc P l x :
  uniqueOn P l -> (forall z, z ∈ l -> avo_same (e_item z) (e_item x) = false) -> uniqueOn P (l ++ [x]).
Proof.
  intros Hu Hx i j ei ej Hi Hj Ai Aj Hsame. apply lookup_app_Some in Hi, Hj.
  destruct Hi as [Hi|[Hli Hi]], Hj as [Hj|[Hlj Hj]].
  - by eapply (Hu i j).
  - apply list_lookup_singleton_Some in Hj as [Hj <-].
    by rewrite (Hx ei) in Hsame by (by eapply list_elem_of_lookup_2).
  - apply list_lookup_singleton_Some in Hi as [Hi <-]. apply avo_same_sym in Hsame.
    by rewrite (Hx ej) in Hsame by (by eapply list_elem_of_lookup_2).
  - apply list_lookup_singleton_Some in Hi as [Hi _], Hj as [Hj _]. lia.
Qed.

(** A rewriting of the entries that keeps the items and leaves none of [P] more. *)
Lemma uniqueOn_fewer (P Q : aggregateItemEntry V -> Prop) l l' :
  uniqueOn P l ->
  Forall2 (fun e e' => e_item e' = e_item e /\ (Q e' -> P e)) l l' ->
  uniqueOn Q l'.
Proof.
  intros Hu HF i j ei ej Hi Hj Ai Aj Hs.
  destruct (Forall2_lookup_r _ _ _ _ _ HF Hi) as (xi & Hxi & Ei & Ai').
  destruct (Forall2_lookup_r _ _ _ _ _ HF Hj) as (xj & Hxj & Ej & Aj').
  rewrite Ei, Ej in Hs. by eapply (Hu i j xi xj); auto.
Qed.

Lemma uniqueOn_tail P e l : uniqueOn P (e :: l) -> uniqueOn P l.
Proof.
  intros Hu i j ei ej Hi Hj Pi Pj Hs.
  by apply (inj Datatypes.S), (Hu (Datatypes.S i) (Datatypes.S j) ei ej).
Qed.

Lemma uniqueAll_active l : uniqueAll l -> uniqueActive l.
Proof. intros Hu i j ei ej Hi Hj _ _. by eapply (Hu i j ei ej). Qed.

(** ** The add loop *)

(** The re-activated item keeps the re-sent item's identity and the tracked id. *)
Lemma reactivated_same tracked item : avo_same item (reactivated tracked item) = true.
Proof.
  unfold reactivated. destruct (negb _); [|apply avo_same_refl].
  destruct (avo_withID _ _) eqn:E; [|apply avo_same_refl]. by eapply avo_withID_same.
Qed.

Lemma addScan_duplicate item l :
  addScan item l = AddDuplicate ->
  exists e, e ∈ l /\ active e /\ avo_same (e_item e) item = true.
Proof.
  induction l as [|e l IH]; simpl; [done|].
  assert (Hnext : forall r, match addScan item l with AddReactivated l' => AddReactivated (e :: l') | r => r end = r ->
            r = AddDuplicate -> exists e0, e0 ∈ e :: l /\ active e0 /\ avo_same (e_item e0) item = true).
  { intros r Hr ->. destruct (addScan item l) eqn:E; try done.
    destruct (IH eq_refl) as (e0 & ? & ?). exists e0. set_solver. }
  destruct (avo_same (e_item e) item) eqn:Es; simpl; [|intros Hr; by eapply Hnext].
  destruct (e_currentStatus e) eqn:Ec; try done; try (intros Hr; by eapply Hnext);
    intros _; exists e; (split; [set_solver|]); split; [|done| |done]; unfold active; by rewrite Ec.
Qed.

(** A re-activation rewrites the first matching entry, which was removed or
    changed. *)
Lemma addScan_reactivated item l l' :
  addScan item l = AddReactivated l' ->
  exists l1 e l2, l = l1 ++ e :: l2 /\
    l' = l1 ++ mkEntry (reactivated (e_item e) item) (e_originalStatus e) StatusAdded :: l2 /\
    avo_same (e_item e) item = true /\
    (e_currentStatus e = StatusRemoved \/ e_currentStatus e = StatusChanged) /\
    Forall (fun x => avo_same (e_item x) item = false \/ e_currentStatus x = StatusUnknown) l1.
Proof.
  revert l'. induction l as [|e l IH]; intros l'; simpl; [done|].
  assert (Hnext : (avo_same (e_item e) item = false \/ e_currentStatus e = StatusUnknown) ->
      match addScan item l with AddReactivated l' => AddReactivated (e :: l') | r => r end = AddReactivated l' ->
      exists l1 x l2, e :: l = l1 ++ x :: l2 /\
        l' = l1 ++ mkEntry (reactivated (e_item x) item) (e_originalStatus x) StatusAdded :: l2 /\
        avo_same (e_item x) item = true /\
        (e_currentStatus x = StatusRemoved \/ e_currentStatus x = StatusChanged) /\
        Forall (fun x => avo_same (e_item x) item = false \/ e_currentStatus x = StatusUnknown) l1).
  { intros He Hr. destruct (addScan item l) as [|l0|] eqn:E; simplify_eq.
    destruct (IH l0 eq_refl) as (l1 & x & l2 & -> & -> & ? & ? & ?).
    exists (e :: l1), x, l2. repeat split; auto. }
  destruct (avo_same (e_item e) item) eqn:Es; simpl; [|intros; by apply Hnext; auto].
  destruct (e_currentStatus e) eqn:Ec; try done; try (intros; apply Hnext; by auto);
    intros [= <-]; exists [], e, l; rewrite Ec; auto 10.
Qed.

Lemma addScan_fell item l :
  addScan item l = AddFellThrough ->
  Forall (fun x => avo_same (e_item x) item = false \/ e_currentStatus x = StatusUnknown) l.
Proof.
  induction l as [|e l IH]; simpl; [done|].
  destruct (avo_same (e_item e) item) eqn:Es; simpl.
  - destruct (e_currentStatus e) eqn:Ec; try done.
    destruct (addScan item l); try done. constructor; auto.
  - destruct (addScan item l); try done. constructor; auto.
Qed.

Lemma entryOk_known l x item :
  Forall entryOk l -> x ∈ l -> (avo_same (e_item x) item = false \/ e_currentStatus x = StatusUnknown) ->
  avo_same (e_item x) item = false.
Proof.
  intros Hok Hx [?|Hu]; [done|]. rewrite Forall_forall in Hok.
  destruct (Hok x Hx) as (_ & Hn & _). congruence.
Qed.

(** ** One collection as a state machine *)

(** A change is safe when no removed entry other than the one it addresses holds
    the replacement's identity. *)
Definition changeSafe (original replacement : V) l : Prop :=
  forall e, e ∈ l -> e_currentStatus e = StatusRemoved ->
    avo_same (e_item e) replacement = true -> avo_same (e_item e) original = true.

(** The effect of each primitive on the collection it addresses; rejected calls
    leave it as it is and are not steps. *)
Inductive step : list (aggregateItemEntry V) -> list (aggregateItemEntry V) -> Prop :=
| step_append item l :
    addScan item l = AddFellThrough ->
    step l (l ++ [mkEntry item StatusAdded StatusAdded])
| step_reactivate item l l' :
    addScan item l = AddReactivated l' ->
    step l l'
| step_change original replacement target l :
    changeScan original replacement 0 l None None = (Some target, None) ->
    changeSafe original replacement l ->
    step l (alter (changeEntry replacement) target l)
| step_remove item l l' :
    update_first (fun e => avo_same (e_item e) item && negb (bool_decide (e_currentStatus e = StatusRemoved)))
      setRemoved l = Some l' ->
    step l l'
| step_clear l : step l (setRemoved <$> l)
| step_writeback item next l l' :
    avo_same item next = true ->
    update_first (fun e => avo_same (e_item e) item) (setItem next) l = Some l' ->
    step l l'.

(** *** The change scan *)

Lemma changeScan_target_keep o r i l t c : t <> None -> (changeScan o r i l t c).1 = t.
Proof.
  revert i c. induction l as [|e l IH]; intros i c Ht; simpl; [done|].
  rewrite bool_decide_eq_false_2 by done. simpl. case_match; by apply IH.
Qed.

Lemma changeScan_target o r i l c :
  (changeScan o r i l None c).1 = find_index_from i (fun e => avo_same (e_item e) o) l.
Proof.
  revert i c. induction l as [|e l IH]; intros i c; simpl; [done|].
  destruct (avo_same (e_item e) o); simpl.
  - by apply changeScan_target_keep.
  - case_match; apply IH.
Qed.

(** Without a collision no active entry but the target holds the replacement's
    identity. *)
Lemma changeScan_collision o r i l t c t' :
  changeScan o r i l t c = (t', None) ->
  c = None /\
  forall k e, l !! k = Some e -> t' <> Some (i + k) -> active e -> avo_same (e_item e) r = false.
Proof.
  revert i t c. induction l as [|e l IH]; intros i t c; simpl.
  - intros [= -> ->]. split; [done|]. intros k e Hk. done.
  - intros Hs.
    destruct (bool_decide (t = None) && avo_same (e_item e) o) eqn:Et.
    + destruct (IH _ _ _ Hs) as [Hc Hall]. split; [done|].
      intros [|k] x Hk Hne Ha; simpl in *; [|apply (Hall k x); [done|by rewrite Nat.add_succ_r in Hne|done]].
      exfalso. apply Hne. pose proof (changeScan_target_keep o r (Datatypes.S i) l (Some i) c) as Hf.
      rewrite Hs in Hf. simpl in Hf. rewrite Hf by done. f_equal. lia.
    + destruct (bool_decide (c = None) && negb (bool_decide (e_currentStatus e = StatusRemoved)) && avo_same (e_item e) r) eqn:Ec.
      * by destruct (IH _ _ _ Hs) as [Hc _].
      * destruct (IH _ _ _ Hs) as [Hc Hall]. split; [done|].
        intros [|k] x Hk Hne Ha; simpl in *; [|apply (Hall k x); [done|by rewrite Nat.add_succ_r in Hne|done]].
        simplify_eq. rewrite bool_decide_eq_true_2 in Ec by done.
        rewrite bool_decide_eq_false_2 in Ec by done. done.
Qed.

Lemma changeScan_hit o r l t :
  changeScan o r 0 l None None = (Some t, None) ->
  exists l1 e l2, l = l1 ++ e :: l2 /\ t = length l1 /\ avo_same (e_item e) o = true /\
    alter (changeEntry r) t l = l1 ++ changeEntry r e :: l2 /\
    forall z, z ∈ l1 \/ z ∈ l2 -> active z -> avo_same (e_item z) r = false.
Proof.
  intros Hs. pose proof (changeScan_target o r 0 l None) as Ht. rewrite Hs in Ht. simpl in Ht.
  symmetry in Ht. apply find_index_from_Some in Ht as (e & _ & He & Hp & _).
  rewrite Nat.sub_0_r in He. apply list_elem_of_split_length in He as (l1 & l2 & -> & ->).
  exists l1, e, l2. split; [done|]. split; [done|]. split; [done|]. split.
  { apply list_alter_mid. }
  destruct (changeScan_collision _ _ _ _ _ _ _ Hs) as [_ Hall].
  intros z [Hz|Hz] Az; apply list_elem_of_lookup in Hz as [k Hk].
  - apply (Hall k z); [by apply lookup_app_l_Some| |done].
    apply lookup_lt_Some in Hk. intros [= ?]. lia.
  - apply (Hall (length l1 + Datatypes.S k) z); [| |done].
    + rewrite lookup_app_r by lia.
      by replace (length l1 + Datatypes.S k - length l1) with (Datatypes.S k) by lia.
    + intros [= ?]. lia.
Qed.

(** *** Every step keeps the invariants *)

Lemma step_entryOk l l' : step l l' -> Forall entryOk l -> Forall entryOk l'.
Proof.
  intros Hst Hok. destruct Hst as [item l Hs|item l l' Hs|o r t l Hs _|item l l' Hs|l|item next l l' _ Hs].
  - apply Forall_app. split; [done|]. repeat constructor; simpl; auto; congruence.
  - apply addScan_reactivated in Hs as (l1 & e & l2 & -> & -> & _ & _ & _).
    apply Forall_app in Hok as [H1 [He H2]%Forall_cons]. apply Forall_app. split; [done|].
    constructor; [|done]. destruct He as (? & _ & _). split; [done|]. simpl. split; congruence.
  - apply changeScan_hit in Hs as (l1 & e & l2 & -> & _ & _ & -> & _).
    apply Forall_app in Hok as [H1 [He H2]%Forall_cons]. apply Forall_app. split; [done|].
    constructor; [|done]. destruct He as (? & _ & _). split; [done|]. simpl. split; congruence.
  - apply update_first_Some in Hs as (l1 & e & l2 & -> & _ & _ & ->).
    apply Forall_app in Hok as [H1 [He H2]%Forall_cons]. apply Forall_app. split; [done|].
    constructor; [|done]. destruct He as (? & _ & _). split; [done|]. simpl. split; congruence.
  - apply Forall_fmap. eapply Forall_impl; [exact Hok|]. intros e (? & _ & _).
    split; [done|]. simpl. split; congruence.
  - apply update_first_Some in Hs as (l1 & e & l2 & -> & _ & _ & ->).
    apply Forall_app in Hok as [H1 [He H2]%Forall_cons]. apply Forall_app. by split; [|constructor].
Qed.

(** The three rewriting steps, for any [P] the rewriting does not widen. *)
Lemma append_unique P item l :
  addScan item l = AddFellThrough -> Forall entryOk l -> uniqueOn P l ->
  uniqueOn P (l ++ [mkEntry item StatusAdded StatusAdded]).
Proof.
  intros Hs%addScan_fell Hok Hu. rewrite Forall_forall in Hs.
  apply uniqueOn_snoc; [done|]. intros z Hz. simpl.
  by apply (entryOk_known l z item Hok Hz), Hs.
Qed.

Lemma rewrite_unique P l1 e e' l2 :
  avo_same (e_item e) (e_item e') = true -> (P e' -> P e) ->
  uniqueOn P (l1 ++ e :: l2) -> uniqueOn P (l1 ++ e' :: l2).
Proof.
  intros Hs HP Hu. apply (uniqueOn_update _ _ e); [done|]. intros Ha z Hz Az.
  destruct (avo_same (e_item z) (e_item e')) eqn:E; [|done]. exfalso.
  assert (Hze : avo_same (e_item z) (e_item e) = true).
  { eapply avo_same_trans; [exact E|]. by apply avo_same_sym. }
  by rewrite (uniqueOn_other P l1 e l2 z) in Hze by auto.
Qed.

Lemma step_uniqueAll l l' :
  step l l' -> Forall entryOk l -> uniqueAll l -> uniqueAll l'.
Proof.
  intros Hst Hok Hu. destruct Hst as [item l Hs|item l l' Hs|o r t l Hs Hsafe|item l l' Hs|l|item next l l' Hnext Hs].
  - by apply append_unique.
  - apply addScan_reactivated in Hs as (l1 & e & l2 & -> & -> & Hsame & _ & _).
    apply (rewrite_unique _ l1 e); [|done|done].
    eapply avo_same_trans; [exact Hsame|apply reactivated_same].
  - apply changeScan_hit in Hs as (l1 & e & l2 & -> & _ & He & -> & Hall).
    apply (uniqueOn_update _ _ e); [done|]. intros _ z Hz _. simpl.
    destruct (avo_same (e_item z) r) eqn:E; [|done]. exfalso.
    destruct (decide (e_currentStatus z = StatusRemoved)) as [Hr|Ha]; [|by rewrite (Hall z Hz Ha) in E].
    assert (Hzo : avo_same (e_item z) (e_item e) = true).
    { eapply avo_same_trans; [|by apply avo_same_sym]. apply Hsafe; set_solver. }
    by rewrite (uniqueOn_other _ l1 e l2 z Hu I Hz I) in Hzo.
  - apply update_first_Some in Hs as (l1 & e & l2 & -> & _ & _ & ->).
    apply (rewrite_unique _ l1 e); [apply avo_same_refl|done|done].
  - eapply uniqueOn_fewer; [exact Hu|]. apply Forall2_fmap_r, Forall_Forall2_diag.
    by apply Forall_true.
  - apply update_first_Some in Hs as (l1 & e & l2 & -> & _ & Hsame & ->).
    apply (rewrite_unique _ l1 e); [|done|done]. by eapply avo_same_trans.
Qed.

(** The collection invariant. *)
Definition collectionOk l : Prop := Forall entryOk l /\ uniqueAll l.

Lemma rtc_step_collectionOk l l' : rtc step l l' -> collectionOk l -> collectionOk l'.
Proof.
  induction 1 as [l|l l1 l2 Hst _ IH]; [done|]. intros [Hok Hu]. apply IH. split.
  - by eapply step_entryOk.
  - by eapply step_uniqueAll.
Qed.

End Props.
