(* ===== verification/AggregateRootProps.v ===== *)
(** * The aggregate root as a whole

    Sequences of the operations a root exposes, from the load on: the identity
    contract, the meaning of a full replace, the boundary guard and the
    persistence plan the collections resolve to. *)

From S2P Require Import Prelude Naming FieldMeta Notification BaseEntity Aggregate AggregateProps.
From stdpp Require Import base gmap strings list fin_maps.
From Stdlib Require Import Ascii ZArith Lia.

Open Scope string_scope.
Open Scope list_scope.

Section Root.
Context {V S O : Type} `{AVOLaws V}.
Context (rootName : string) (rootType : GoType) (children : list V).

Implicit Types (l : list (aggregateItemEntry V)) (e : aggregateItemEntry V) (v w : V)
  (ar : AggregateRoot V S O).

(** ** Reading a collection back *)

Lemma ar_list_setList k k' l ar :
  ar_list k (ar_setList k' l ar) = if decide (k = k') then l else ar_list k ar.
Proof.
  unfold ar_list, ar_setList. simpl. case_decide; subst.
  - by rewrite lookup_insert_eq.
  - by rewrite lookup_insert_ne.
Qed.

Lemma ar_list_onBase k f ar : ar_list k (ar_onBase f ar) = ar_list k ar.
Proof. done. Qed.

Lemma ar_list_notify k m ar : ar_list k (ar_notify m ar) = ar_list k ar.
Proof. done. Qed.

Lemma ar_list_ensure k ar : ar_list k (ensureAggregates ar) = ar_list k ar.
Proof. done. Qed.

Lemma ar_list_init k ar : ar_list k (ensureRootInit rootName rootType ar) = ar_list k ar.
Proof. done. Qed.

Lemma ar_list_reject k item ar : ar_list k (rejectChild item ar) = ar_list k ar.
Proof. by destruct item. Qed.

Hint Rewrite ar_list_setList ar_list_onBase ar_list_notify ar_list_ensure ar_list_init ar_list_reject : omnicore.

Ltac ar_simpl := autorewrite with omnicore; simpl.

(** ** The load *)

Lemma constructor_list k ar items :
  ar_list k (AggregateConstructor (Some <$> items) ar) =
  ar_list k ar ++
  ((fun v => mkEntry v StatusConstructor StatusConstructor) <$> filter (fun v => avo_className v = k) items).
Proof.
  unfold AggregateConstructor. rewrite <- (ar_list_ensure k ar).
  generalize (ensureAggregates ar) as a. clear ar.
  induction items as [|v items IH]; intros a; simpl; [by rewrite app_nil_r|].
  rewrite IH. unfold constructorOne. simpl. rewrite ar_list_setList, filter_cons.
  destruct (decide (avo_className v = k)) as [<-|Hne].
  - rewrite decide_True by done. simpl. by rewrite <- app_assoc.
  - by rewrite decide_False by done.
Qed.

(** Values of pairwise different business identity. *)
Definition distinct (items : list V) : Prop :=
  forall i j a b, items !! i = Some a -> items !! j = Some b -> avo_same a b = true -> i = j.

Lemma distinct_cons_inv v items : distinct (v :: items) -> distinct items.
Proof. intros Hd i j a b Hi Hj Hs. by apply (inj Datatypes.S), (Hd (Datatypes.S i) (Datatypes.S j) a b). Qed.

Lemma distinct_head v items w : distinct (v :: items) -> w ∈ items -> avo_same v w = false.
Proof.
  intros Hd [j Hj]%list_elem_of_lookup. destruct (avo_same v w) eqn:E; [|done].
  specialize (Hd 0 (Datatypes.S j) v w eq_refl Hj E). done.
Qed.

Lemma distinct_filter (P : V -> Prop) `{!forall v, Decision (P v)} items :
  distinct items -> distinct (filter P items).
Proof.
  induction items as [|v items IH]; intros Hd; [done|]. rewrite filter_cons.
  pose proof (IH (distinct_cons_inv _ _ Hd)) as Hf. case_decide; [|done].
  intros [|i] [|j] a b Hi Hj Hs; simplify_eq/=; [done| | |].
  - apply list_elem_of_lookup_2, list_elem_of_filter in Hj as [_ Hj].
    by rewrite (distinct_head _ _ _ Hd Hj) in Hs.
  - apply list_elem_of_lookup_2, list_elem_of_filter in Hi as [_ Hi]. apply avo_same_sym in Hs.
    by rewrite (distinct_head _ _ _ Hd Hi) in Hs.
  - f_equal. by apply (Hf i j a b).
Qed.

Lemma loaded_collectionOk items :
  distinct items ->
  collectionOk ((fun v => mkEntry v StatusConstructor StatusConstructor) <$> items).
Proof.
  intros Hd. split.
  - apply Forall_fmap, Forall_true. intros v. unfold entryOk. simpl. naive_solver.
  - intros i j ei ej Hi Hj _ _ Hs. rewrite list_lookup_fmap in Hi, Hj.
    apply fmap_Some in Hi as (a & Hi & ->), Hj as (b & Hj & ->). by apply (Hd i j a b).
Qed.

(** ** Operations as data *)

(** What the code around a root may do to it between load and write. *)
Inductive AggOp :=
| OAdd (item : option V)
| OChange (original replacement : option V)
| ORemove (item : option V)
| OClear (typeName : string)
| OReplace (typeName : string) (items : list (option V))
| OAssignID (item : option V) (id : ID).

Definition exec (op : AggOp) ar : AggregateRoot V S O :=
  match op with
  | OAdd item => AddAggregateChild rootName rootType children item ar
  | OChange o r => ChangeAggregateChild rootName rootType children o r ar
  | ORemove item => RemoveAggregateChild rootName rootType children item ar
  | OClear t => ClearAggregateItemsOfType t ar
  | OReplace t items => ReplaceAggregateChildrenOf rootName rootType children t items ar
  | OAssignID item id => (AssignAggregateItemID item id ar).2
  end.

Definition run ar (ops : list AggOp) : AggregateRoot V S O := foldl (fun ar op => exec op ar) ar ops.

(** The one side condition: a change does not take the identity of another,
    removed entry. *)
Definition safeOp (op : AggOp) ar : Prop :=
  match op with
  | OChange (Some o) (Some r) => changeSafe o r (ar_list (avo_className o) ar)
  | _ => True
  end.

Fixpoint safeRun ar (ops : list AggOp) : Prop :=
  match ops with
  | [] => True
  | op :: rest => safeOp op ar /\ safeRun (exec op ar) rest
  end.

(** *** Each operation moves each collection along [step] *)

Lemma add_steps k item ar :
  rtc step (ar_list k ar) (ar_list k (addAggregateItem item ar)).
Proof.
  destruct item as [v|]; [|done]. unfold addAggregateItem. simpl.
  change (ar_list (avo_className v) (ensureAggregates ar)) with (ar_list (avo_className v) ar).
  destruct (addScan v (ar_list (avo_className v) ar)) as [|l|] eqn:E; ar_simpl; [done| |];
    case_decide; subst; try done; apply rtc_once.
  - by eapply step_reactivate.
  - by apply step_append.
Qed.

Lemma AddAggregateChild_steps k item ar :
  rtc step (ar_list k ar) (ar_list k (AddAggregateChild rootName rootType children item ar)).
Proof.
  unfold AddAggregateChild. destruct (negb _); ar_simpl; [done|].
  rewrite <- (ar_list_init k ar). apply add_steps.
Qed.

Lemma ChangeAggregateChild_steps k o r ar :
  safeOp (OChange o r) ar ->
  rtc step (ar_list k ar) (ar_list k (ChangeAggregateChild rootName rootType children o r ar)).
Proof.
  intros Hsafe. unfold ChangeAggregateChild.
  destruct (negb _); ar_simpl; [done|]. destruct (negb _); ar_simpl; [done|].
  destruct o as [o|], r as [r|]; try done. unfold changeAggregateItem. simpl. ar_simpl.
  destruct (changeScan o r 0 (ar_list (avo_className o) ar) None None) as [[t|] [c|]] eqn:E; ar_simpl; try done.
  case_decide; [subst k|done]. apply rtc_once. by apply (step_change o r).
Qed.

Lemma RemoveAggregateChild_steps k item ar :
  rtc step (ar_list k ar) (ar_list k (RemoveAggregateChild rootName rootType children item ar)).
Proof.
  unfold RemoveAggregateChild. destruct (negb _); ar_simpl; [done|].
  destruct item as [v|]; [|done]. unfold removeAggregateItem. ar_simpl.
  destruct (update_first _ _ _) as [l|] eqn:E; ar_simpl; [|done].
  case_decide; [subst k|done]. apply rtc_once. by eapply step_remove.
Qed.

Lemma Clear_steps k t ar : rtc step (ar_list k ar) (ar_list k (ClearAggregateItemsOfType t ar)).
Proof.
  unfold ClearAggregateItemsOfType. destruct (ar_aggregates ar); [|done]. ar_simpl.
  case_decide; [subst k|done]. apply rtc_once, step_clear.
Qed.

Lemma Assign_steps k item id ar : rtc step (ar_list k ar) (ar_list k (AssignAggregateItemID item id ar).2).
Proof.
  unfold AssignAggregateItemID, ApplyToAggregateItem.
  destruct item as [v|]; [|done]. destruct (ar_aggregates ar); [|done].
  destruct (avo_withID id v) as [next|] eqn:En; [|done].
  destruct (update_first _ _ _) as [l|] eqn:E; [|done]. simpl. ar_simpl.
  case_decide; [subst k|done]. apply rtc_once. eapply (step_writeback v next); [|done].
  by eapply avo_withID_same.
Qed.

Lemma exec_steps k op ar : safeOp op ar -> rtc step (ar_list k ar) (ar_list k (exec op ar)).
Proof.
  intros Hsafe. destruct op as [item|o r|item|t|t items|item id]; simpl.
  - apply AddAggregateChild_steps.
  - by apply ChangeAggregateChild_steps.
  - apply RemoveAggregateChild_steps.
  - apply Clear_steps.
  - unfold ReplaceAggregateChildrenOf.
    etransitivity; [apply (Clear_steps k t (ensureRootInit rootName rootType ar))|].
    generalize (ClearAggregateItemsOfType t (ensureRootInit rootName rootType ar)) as a.
    induction items as [|it items IH]; intros a; simpl; [done|].
    etransitivity; [apply AddAggregateChild_steps|by apply IH].
  - apply Assign_steps.
Qed.

Lemma run_collectionOk k ops ar :
  safeRun ar ops -> collectionOk (ar_list k ar) -> collectionOk (ar_list k (run ar ops)).
Proof.
  revert ar. induction ops as [|op ops IH]; intros ar; simpl; [done|].
  intros [Hop Hops] Hok. apply IH; [done|]. eapply rtc_step_collectionOk; [|exact Hok].
  by apply exec_steps.
Qed.

Lemma load_collectionOk k base items :
  distinct items ->
  collectionOk (ar_list k (AggregateConstructor (Some <$> items) (mkAggregateRoot base None) : AggregateRoot V S O)).
Proof.
  intros Hd. rewrite constructor_list. unfold ar_list at 1. simpl. rewrite lookup_empty. simpl.
  by apply loaded_collectionOk, distinct_filter.
Qed.

(** ** Notifications a root collected *)

Definition rootMessages ar : list NotificationMessage := nc_messages (contextOf (ar_base ar)).

Lemma rootMessages_init ar :
  length (rootMessages (ensureRootInit rootName rootType ar)) = length (rootMessages ar).
Proof. apply initWithName_messages. Qed.

Lemma rootMessages_notify m ar : rootMessages (ar_notify m ar) = rootMessages ar ++ [m].
Proof. unfold rootMessages, ar_notify, ar_onBase, be_AddNotificationMessage. cbn [ar_base]. by rewrite contextOf_onContext. Qed.

Lemma AddAggregateChild_eq v ar :
  avo_className v ∈ allowedChildTypeNames children ->
  AddAggregateChild rootName rootType children (Some v) ar =
  let ar0 := ensureAggregates (ensureRootInit rootName rootType ar) in
  match addScan v (ar_list (avo_className v) ar) with
  | AddDuplicate => ar_notify (message (childFieldPath v) EntityAlreadyAddedNotification) ar0
  | AddReactivated l => ar_setList (avo_className v) l ar0
  | AddFellThrough =>
      ar_setList (avo_className v) (ar_list (avo_className v) ar ++ [mkEntry v StatusAdded StatusAdded]) ar0
  end.
Proof. intros Hc. unfold AddAggregateChild. simpl. by rewrite bool_decide_eq_true_2. Qed.

(** An allowed child is added without a notification unless the scan refuses it. *)
Lemma AddAggregateChild_list v ar :
  avo_className v ∈ allowedChildTypeNames children ->
  match addScan v (ar_list (avo_className v) ar) with
  | AddDuplicate => True
  | AddReactivated l =>
      forall k, ar_list k (AddAggregateChild rootName rootType children (Some v) ar) =
        if decide (k = avo_className v) then l else ar_list k ar
  | AddFellThrough =>
      forall k, ar_list k (AddAggregateChild rootName rootType children (Some v) ar) =
        if decide (k = avo_className v) then ar_list k ar ++ [mkEntry v StatusAdded StatusAdded]
        else ar_list k ar
  end /\
  (addScan v (ar_list (avo_className v) ar) <> AddDuplicate ->
   length (rootMessages (AddAggregateChild rootName rootType children (Some v) ar)) = length (rootMessages ar)).
Proof.
  intros Hc. rewrite (AddAggregateChild_eq v ar Hc).
  destruct (addScan v (ar_list (avo_className v) ar)) as [|l|] eqn:E; (split; [|intros Hd]);
    try done; try (by rewrite <- (rootMessages_init ar)).
  - intros k. by ar_simpl.
  - intros k. ar_simpl. case_decide; by subst.
Qed.

(** A guarded operation notifies once and touches nothing, or touches one
    collection and notifies nothing. *)
Lemma guarded_outcome op ar :
  (exists i, op = OAdd i \/ op = ORemove i \/ exists r, op = OChange i r) ->
  let ar' := exec op ar in
  (length (rootMessages ar') = Datatypes.S (length (rootMessages ar)) /\ forall k, ar_list k ar' = ar_list k ar) \/
  (length (rootMessages ar') = length (rootMessages ar) /\
   exists t, forall k, k <> t -> ar_list k ar' = ar_list k ar).
Proof.
  assert (Hnote : forall m (a : AggregateRoot V S O), length (rootMessages a) = length (rootMessages ar) ->
            length (rootMessages (ar_notify m a)) = Datatypes.S (length (rootMessages ar))).
  { intros m a Ha. rewrite rootMessages_notify, length_app, Ha. simpl. lia. }
  pose proof (rootMessages_init ar) as Hi.
  assert (Hset : forall t l, exists t', forall k, k <> t' ->
            ar_list k (ar_setList t l (ensureRootInit rootName rootType ar)) = ar_list k ar).
  { intros t l. exists t. intros k Hk. by rewrite ar_list_setList, decide_False. }
  intros [i [->|[->|[r ->]]]]; simpl.
  - unfold AddAggregateChild. destruct (negb _); [left|]; [destruct i; (split; [by apply Hnote|done])|].
    destruct i as [v|]; [|left; split; [by apply Hnote|done]]. unfold addAggregateItem. simpl.
    destruct (addScan _ _); [left; split; [by apply Hnote|done]| |]; right; (split; [done|apply Hset]).
  - unfold RemoveAggregateChild. destruct (negb _); [left; destruct i; (split; [by apply Hnote|done])|].
    destruct i as [v|]; [|left; split; [by apply Hnote|done]]. unfold removeAggregateItem.
    destruct (update_first _ _ _); [right; (split; [done|apply Hset])|left; split; [by apply Hnote|done]].
  - unfold ChangeAggregateChild. destruct (negb _); [left; destruct i; (split; [by apply Hnote|done])|].
    destruct (negb _); [left; destruct r; (split; [by apply Hnote|done])|].
    destruct i as [o|]; [|left; split; [by apply Hnote|done]].
    destruct r as [r|]; [|left; split; [by apply Hnote|done]]. unfold changeAggregateItem. simpl.
    destruct (changeScan _ _ _ _ _ _) as [[t|] [c|]];
      (right; (split; [done|apply Hset])) || (left; split; [by apply Hnote|done]).
Qed.

(** ** The full replace *)

(** What one tracked entry becomes under a replace by [items]: re-activated with
    the re-sent value of its identity, or removed. *)
Definition replaceEntry (items : list V) e : aggregateItemEntry V :=
  match List.find (avo_same (e_item e)) items with
  | Some v => mkEntry (reactivated (e_item e) v) (e_originalStatus e) StatusAdded
  | None => setRemoved e
  end.

Definition isNew (old : list (aggregateItemEntry V)) (v : V) : bool :=
  forallb (fun e => negb (avo_same (e_item e) v)) old.

Lemma isNew_false old v :
  isNew old v = false ->
  exists l1 e l2, old = l1 ++ e :: l2 /\ Forall (fun x => avo_same (e_item x) v = false) l1 /\
    avo_same (e_item e) v = true.
Proof.
  unfold isNew. induction old as [|x old IH]; simpl; [done|].
  destruct (avo_same (e_item x) v) eqn:E; simpl.
  - intros _. exists [], x, old. auto.
  - intros Hn. destruct (IH Hn) as (l1 & e & l2 & -> & ? & ?). exists (x :: l1), e, l2. auto.
Qed.

(** The collection after a replace, in one equation: the old entries, each in its
    place, then the items no old entry stands for. *)
Definition replaced (items : list V) (old : list (aggregateItemEntry V)) : list (aggregateItemEntry V) :=
  (replaceEntry items <$> old) ++
  ((fun v => mkEntry v StatusAdded StatusAdded) <$> List.filter (isNew old) items).

Lemma replaceEntry_same items e : avo_same (e_item e) (e_item (replaceEntry items e)) = true.
Proof.
  unfold replaceEntry. destruct (List.find _ items) as [v|] eqn:E; simpl; [|apply avo_same_refl].
  apply find_some in E as [_ E]. eapply avo_same_trans; [exact E|apply reactivated_same].
Qed.

Lemma replaceEntry_other items e v :
  avo_same (e_item e) v = false -> replaceEntry (items ++ [v]) e = replaceEntry items e.
Proof.
  intros Hv. unfold replaceEntry. induction items as [|w items IH]; simpl; [by rewrite Hv|].
  by destruct (avo_same (e_item e) w).
Qed.

Lemma replaceEntry_hit items e v :
  avo_same (e_item e) v = true -> (forall w, w ∈ items -> avo_same w v = false) ->
  replaceEntry items e = setRemoved e /\
  replaceEntry (items ++ [v]) e = mkEntry (reactivated (e_item e) v) (e_originalStatus e) StatusAdded.
Proof.
  intros Hv Hfresh. unfold replaceEntry.
  assert (Hnone : List.find (avo_same (e_item e)) items = None).
  { destruct (List.find _ items) as [w|] eqn:E; [|done]. apply find_some in E as [Hin Hw].
    apply list_elem_of_In in Hin. apply avo_same_sym in Hw.
    pose proof (avo_same_trans _ _ _ Hw Hv). by rewrite (Hfresh w Hin) in *. }
  split; [by rewrite Hnone|].
  induction items as [|w items IH]; simpl in *; [by rewrite Hv|].
  destruct (avo_same (e_item e) w); [done|]. apply IH; [|done]. intros; apply Hfresh. set_solver.
Qed.

(** The scan over the part of the collection that stands for the old entries. *)
Lemma addScan_old_other items old v tail :
  Forall (fun e => avo_same (e_item e) v = false) old ->
  addScan v ((replaceEntry items <$> old) ++ tail) =
  match addScan v tail with
  | AddReactivated l => AddReactivated ((replaceEntry items <$> old) ++ l)
  | r => r
  end.
Proof.
  induction 1 as [|e old He _ IH]; csimpl; [by destruct (addScan v tail)|].
  assert (Hne : avo_same (e_item (replaceEntry items e)) v = false).
  { destruct (avo_same (e_item (replaceEntry items e)) v) eqn:E; [|done].
    by rewrite (avo_same_trans _ _ _ (replaceEntry_same items e) E) in He. }
  rewrite Hne. csimpl. rewrite IH. by destruct (addScan v tail).
Qed.

Lemma addScan_fresh v (news : list V) :
  (forall w, w ∈ news -> avo_same w v = false) ->
  addScan v ((fun w => mkEntry w StatusAdded StatusAdded) <$> news) = AddFellThrough.
Proof.
  induction news as [|w news IH]; intros Hf; csimpl; [done|].
  rewrite Hf by set_solver. csimpl. rewrite IH; [done|]. set_solver.
Qed.

(** One add on top of a partial replace is the replace by one item more. *)
Lemma addScan_replaced done old v :
  uniqueAll old -> (forall w, w ∈ done -> avo_same w v = false) ->
  addScan v (replaced done old) =
  if isNew old v then AddFellThrough else AddReactivated (replaced (done ++ [v]) old).
Proof.
  intros Hu Hfresh. unfold replaced.
  assert (Hnews : forall w, w ∈ List.filter (isNew old) done -> avo_same w v = false).
  { intros w [Hw _]%list_elem_of_In%filter_In. apply Hfresh. by apply list_elem_of_In. }
  destruct (isNew old v) eqn:Enew.
  - rewrite addScan_old_other; [by rewrite addScan_fresh|].
    apply Forall_forall. intros e He. unfold isNew in Enew. rewrite forallb_forall in Enew.
    apply negb_true_iff, Enew. by apply list_elem_of_In.
  - destruct (isNew_false old v Enew) as (l1 & e & l2 & -> & Hl1 & He).
    destruct (replaceEntry_hit done e v He Hfresh) as [Hold Hnew].
    rewrite List.filter_app. simpl. rewrite Enew, app_nil_r.
    rewrite !fmap_app, !fmap_cons, <- !app_assoc. simpl.
    rewrite addScan_old_other by done. simpl. rewrite Hold, Hnew. simpl. rewrite He. simpl.
    do 2 f_equal.
    + apply list_fmap_ext. intros i x Hx. symmetry. apply replaceEntry_other.
      rewrite Forall_forall in Hl1. apply Hl1. by eapply list_elem_of_lookup_2.
    + do 2 f_equal. apply list_fmap_ext. intros i x Hx. symmetry. apply replaceEntry_other.
      destruct (avo_same (e_item x) v) eqn:E; [|done]. apply list_elem_of_lookup_2 in Hx.
      pose proof (avo_same_trans _ _ _ E (avo_same_sym _ _ He)) as Hs.
      by rewrite (uniqueOn_other _ l1 e l2 x Hu I (or_intror Hx) I) in Hs.
Qed.

Lemma replaced_snoc_new done old v :
  isNew old v = true -> replaced (done ++ [v]) old = replaced done old ++ [mkEntry v StatusAdded StatusAdded].
Proof.
  intros Hn. unfold replaced. rewrite List.filter_app. simpl. rewrite Hn, fmap_app, app_assoc. simpl.
  do 2 f_equal. apply list_fmap_ext. intros i e He. apply replaceEntry_other.
  unfold isNew in Hn. rewrite forallb_forall in Hn. apply negb_true_iff, Hn.
  apply list_elem_of_In. by eapply list_elem_of_lookup_2.
Qed.

Lemma replaced_nil old : replaced [] old = setRemoved <$> old.
Proof. unfold replaced. simpl. by rewrite app_nil_r. Qed.

Lemma distinct_snoc_inv items v :
  distinct (items ++ [v]) -> distinct items /\ (forall w, w ∈ items -> avo_same w v = false).
Proof.
  intros Hd. split.
  - intros i j a b Hi Hj. apply (Hd i j); by apply lookup_app_l_Some.
  - intros w [i Hi]%list_elem_of_lookup. destruct (avo_same w v) eqn:E; [|done].
    assert (Hv : (items ++ [v]) !! length items = Some v) by by rewrite lookup_app_r, Nat.sub_diag.
    pose proof (Hd i _ w v (lookup_app_l_Some _ _ _ _ Hi) Hv E). apply lookup_lt_Some in Hi. lia.
Qed.

(** Adding the items one by one to the cleared collection gives [replaced]. *)
Lemma foldl_add_replaced t items old ar :
  t ∈ allowedChildTypeNames children -> Forall (fun v => avo_className v = t) items ->
  uniqueAll old -> distinct items -> ar_list t ar = setRemoved <$> old ->
  let ar' := foldl (fun ar it => AddAggregateChild rootName rootType children it ar) ar (Some <$> items) in
  ar_list t ar' = replaced items old /\ (forall k, k <> t -> ar_list k ar' = ar_list k ar) /\
  length (rootMessages ar') = length (rootMessages ar).
Proof.
  intros Hc Ht Hu Hd Hl. induction items as [|v items IH] using rev_ind.
  - simpl. by rewrite replaced_nil.
  - apply Forall_app in Ht as [Ht Hv]. apply Forall_singleton in Hv as <-.
    destruct (distinct_snoc_inv _ _ Hd) as [Hd' Hf]. specialize (IH Ht Hd') as (IHl & IHk & IHm).
    simpl. rewrite fmap_app, foldl_app. simpl.
    set (a := foldl _ ar (Some <$> items)) in *.
    destruct (AddAggregateChild_list v a Hc) as [Hlist Hmsg].
    rewrite IHl, addScan_replaced in Hlist, Hmsg by done.
    destruct (isNew old v) eqn:En; rewrite Hmsg by done; (split; [|split]); try done;
      try (intros k Hk; rewrite Hlist, decide_False by done; by apply IHk).
    + rewrite Hlist, decide_True by done. by rewrite replaced_snoc_new, IHl.
    + by rewrite Hlist, decide_True.
Qed.

Lemma ClearAggregateItemsOfType_list t k ar :
  ar_list k (ClearAggregateItemsOfType t ar) =
  if decide (k = t) then setRemoved <$> ar_list t ar else ar_list k ar.
Proof.
  unfold ClearAggregateItemsOfType. destruct (ar_aggregates ar) eqn:E; [by ar_simpl|].
  case_decide; [|done]. unfold ar_list. by rewrite E.
Qed.

Lemma rootMessages_clear t ar : rootMessages (ClearAggregateItemsOfType t ar) = rootMessages ar.
Proof. unfold ClearAggregateItemsOfType. by destruct (ar_aggregates ar). Qed.

Lemma Replace_spec t items ar :
  t ∈ allowedChildTypeNames children -> Forall (fun v => avo_className v = t) items ->
  uniqueAll (ar_list t ar) -> distinct items ->
  let ar' := ReplaceAggregateChildrenOf rootName rootType children t (Some <$> items) ar in
  ar_list t ar' = replaced items (ar_list t ar) /\
  (forall k, k <> t -> ar_list k ar' = ar_list k ar) /\
  length (rootMessages ar') = length (rootMessages ar).
Proof.
  intros Hc Ht Hu Hd ar'. unfold ar', ReplaceAggregateChildrenOf.
  set (c := ClearAggregateItemsOfType t _).
  assert (Hcl : forall k, ar_list k c = if decide (k = t) then setRemoved <$> ar_list t ar else ar_list k ar)
    by (intros k; unfold c; by rewrite ClearAggregateItemsOfType_list).
  destruct (foldl_add_replaced t items (ar_list t ar) c Hc Ht Hu Hd) as (Hl & Hk & Hm).
  { by rewrite Hcl, decide_True. }
  split; [done|]. split.
  - intros k Hne. by rewrite Hk, Hcl, decide_False.
  - rewrite Hm. unfold c. by rewrite rootMessages_clear, rootMessages_init.
Qed.

(** *** What a replace leaves *)

Lemma replaced_statuses items old e :
  e ∈ replaced items old -> e_currentStatus e = StatusAdded \/ e_currentStatus e = StatusRemoved.
Proof.
  unfold replaced. rewrite elem_of_app, !list_elem_of_fmap. intros [(x & -> & _)|(v & -> & _)]; [|by left].
  unfold replaceEntry. destruct (List.find _ items); simpl; auto.
Qed.

(** As many current children as items sent. *)
Lemma replaced_current_length items old :
  uniqueAll old -> distinct items -> length (GetCurrentItems (replaced items old)) = length items.
Proof.
  intros Hu. unfold GetCurrentItems. induction items as [|v items IH] using rev_ind; intros Hd.
  - rewrite replaced_nil, length_fmap. simpl. induction old as [|e old IHold]; [done|]. csimpl.
    rewrite filter_cons_False by (simpl; congruence). apply IHold.
    by eapply (uniqueOn_tail _ e).
  - destruct (distinct_snoc_inv _ _ Hd) as [Hd' Hf]. specialize (IH Hd'). rewrite length_fmap in IH.
    pose proof (addScan_replaced items old v Hu Hf) as Hscan.
    rewrite length_fmap, length_app, <- IH. simpl. destruct (isNew old v) eqn:En.
    + by rewrite replaced_snoc_new, filter_app, length_app by done.
    + apply addScan_reactivated in Hscan as (l1 & e & l2 & Hl & -> & _ & Hst & _).
      assert (Hr : e_currentStatus e = StatusRemoved).
      { destruct (replaced_statuses items old e); [rewrite Hl; set_solver| |done]. naive_solver congruence. }
      rewrite Hl, !filter_app, !length_app.
      rewrite (filter_cons_False _ e l2) by (rewrite Hr; naive_solver).
      rewrite filter_cons_True by (simpl; congruence). simpl. lia.
Qed.

Lemma replaced_hit items old e v :
  uniqueAll old -> distinct items -> e ∈ old -> v ∈ items -> avo_same (e_item e) v = true ->
  mkEntry (reactivated (e_item e) v) (e_originalStatus e) StatusAdded ∈ replaced items old.
Proof.
  intros Hu Hd He Hv Hs. unfold replaced. apply elem_of_app. left.
  apply list_elem_of_fmap. exists e. split; [|done]. unfold replaceEntry.
  destruct (List.find (avo_same (e_item e)) items) as [w|] eqn:E.
  - apply find_some in E as [Hw Hsw]. apply list_elem_of_In in Hw.
    apply list_elem_of_lookup in Hv as [i Hi], Hw as [j Hj].
    assert (avo_same v w = true) by (eapply avo_same_trans; [by apply avo_same_sym|done]).
    assert (i = j) as -> by (by apply (Hd i j v w)). by simplify_eq.
  - exfalso. apply list_elem_of_In in Hv. by rewrite (find_none _ _ E v Hv) in Hs.
Qed.

Lemma replaced_miss items old e :
  e ∈ old -> (forall v, v ∈ items -> avo_same (e_item e) v = false) ->
  setRemoved e ∈ replaced items old.
Proof.
  intros He Hn. unfold replaced. apply elem_of_app. left. apply list_elem_of_fmap.
  exists e. split; [|done]. unfold replaceEntry. destruct (List.find _ items) as [w|] eqn:E; [|done].
  apply find_some in E as [Hw%list_elem_of_In Hs]. by rewrite Hn in Hs.
Qed.

Lemma replaced_new items old v :
  v ∈ items -> isNew old v = true -> mkEntry v StatusAdded StatusAdded ∈ replaced items old.
Proof.
  intros Hv Hn. unfold replaced. apply elem_of_app. right. apply list_elem_of_fmap.
  exists v. split; [done|]. apply list_elem_of_In, filter_In. by rewrite <- list_elem_of_In.
Qed.

(** Everything under a type's key is of that type. *)
Definition homogeneous (t : string) l : Prop := Forall (fun e => avo_className (e_item e) = t) l.

Lemma replaced_homogeneous t items old :
  homogeneous t old -> Forall (fun v => avo_className v = t) items -> homogeneous t (replaced items old).
Proof.
  intros Ho Hi. unfold homogeneous, replaced. apply Forall_app. split; apply Forall_fmap.
  - eapply Forall_impl; [exact Ho|]. intros e <-. simpl. symmetry.
    apply avo_same_class, replaceEntry_same.
  - apply Forall_forall. intros v [Hv _]%list_elem_of_In%filter_In. rewrite Forall_forall in Hi.
    apply Hi. by apply list_elem_of_In.
Qed.

Lemma homogeneous_items t ar :
  homogeneous t (ar_list t ar) -> GetAggregateItemsOf t ar = ar_list t ar.
Proof.
  intros Hh. unfold GetAggregateItemsOf. unfold homogeneous in Hh.
  induction Hh as [|e l He _ IH]; [done|]. by rewrite filter_cons_True, IH.
Qed.

Lemma filterByOp_elem l op v :
  v ∈ filterByOp l op <-> exists e, e ∈ l /\ e_item e = v /\ OperationOf (e_originalStatus e) (e_currentStatus e) = op.
Proof.
  unfold filterByOp. rewrite list_elem_of_fmap. setoid_rewrite list_elem_of_filter. naive_solver.
Qed.

(** The id a re-sent child is written under is the tracked one. *)
Lemma reactivated_id tracked v stamped :
  id_IsEmpty (avo_GetID tracked) = false -> avo_withID (avo_GetID tracked) v = Some stamped ->
  avo_GetID (reactivated tracked v) = avo_GetID tracked.
Proof. intros He Hw. unfold reactivated. rewrite He, Hw. simpl. by eapply avo_withID_id. Qed.

End Root.
