(* ===== verification/AggregateClaims.v ===== *)
(** * What aggregate roots guarantee

    The main theorems on aggregate roots, with a small child model they are
    instantiated at: addresses identified by street, phones by number. *)

From S2P Require Import Prelude Naming FieldMeta Notification BaseEntity Aggregate AggregateProps AggregateRootProps.
From stdpp Require Import base gmap strings list fin_maps.
From Stdlib Require Import Ascii ZArith Lia.

Open Scope string_scope.
Open Scope list_scope.

(** ** Sample children *)

Module Sample.

Inductive Child :=
| Address (street label : string) (id : ID)
| Phone (number : string) (id : ID).

Definition className (c : Child) : string :=
  match c with Address _ _ _ => "Address" | Phone _ _ => "Phone" end.

Definition same (a b : Child) : bool :=
  match a, b with
  | Address s _ _, Address s' _ _ => String.eqb s s'
  | Phone n _, Phone n' _ => String.eqb n n'
  | _, _ => false
  end.

#[export] Instance childOps : AVOOps Child := {
  avo_className := className;
  avo_collection c := match c with Address _ _ _ => "Addresses" | Phone _ _ => "Phones" end;
  avo_GetID c := match c with Address _ _ i => i | Phone _ i => i end;
  avo_withID i c := Some match c with Address s l _ => Address s l i | Phone n _ => Phone n i end;
  avo_same := same
}.

#[export] Instance childLaws : AVOLaws Child.
Proof.
  split; simpl.
  - intros []; simpl; apply String.eqb_refl.
  - intros [] []; simpl; try done; rewrite !String.eqb_eq; congruence.
  - intros [] [] []; simpl; try done; rewrite !String.eqb_eq; congruence.
  - by intros [] [].
  - intros i [] v' [= <-]; simpl; apply String.eqb_refl.
  - by intros i [] v' [= <-].
Qed.

(** A declared boundary, a fresh root and three addresses. *)
Definition boundary : list Child := [Address "" "" (NewID ""); Phone "" (NewID "")].
Definition rootT : GoType := TStruct "Customer" 0 false false [].
Definition fresh : AggregateRoot Child unit unit := mkAggregateRoot newBase None.
Definition home : Child := Address "Elm 1" "home" (NewID "a1").
Definition work : Child := Address "Oak 2" "work" (NewID "a2").
Definition home' : Child := Address "Elm 1" "renamed" (NewID "").
Definition pine : Child := Address "Pine 3" "new work" (NewID "a2").
Definition cell : Child := Phone "555" (NewID "").

Definition customer : AggregateRoot Child unit unit := AggregateConstructor (Some <$> [home; work]) fresh.

Lemma distinct_two (a b : Child) : same a b = false -> distinct [a; b].
Proof.
  intros Hab [|[|i]] [|[|j]] x y Hx Hy Hs; simplify_eq/=; try done.
  - by rewrite Hab in Hs.
  - pose proof (avo_same_sym (V := Child) _ _ Hs) as Hs'. simpl in Hs'. by rewrite Hab in Hs'.
Qed.

End Sample.

Section Claims.
Context {V S O : Type} `{AVOLaws V}.
Context (rootName : string) (rootType : GoType) (children : list V).

Implicit Types (l : list (aggregateItemEntry V)) (ar : AggregateRoot V S O) (items : list V).

(** ** The identity contract *)

(** C11: load a root with distinct children and run any sequence of adds, changes,
    removals, clears, full replaces and id write-backs: in every collection at
    most one child that is not removed holds a given business identity, and every
    tracked entry has a status pair the primitives define.  The one side
    condition on the sequence is that a change does not take over the identity of
    another, removed child ([safeRun]); it is needed, [add_can_duplicate_an_identity] is a
    run without it. *)
Theorem aggregate_identity_contract base items ops key :
  let ar0 : AggregateRoot V S O := AggregateConstructor (Some <$> items) (mkAggregateRoot base None) in
  distinct items ->
  safeRun rootName rootType children ar0 ops ->
  let l := ar_list key (run rootName rootType children ar0 ops) in
  uniqueActive l /\ Forall entryOk l.
Proof.
  intros ar0 Hd Hsafe l. destruct (run_collectionOk rootName rootType children key ops ar0 Hsafe) as [Hok Hu].
  - by apply load_collectionOk.
  - split; [by apply uniqueAll_active|done].
Qed.

(** ** The full replace *)

(** A full replace of a declared type by children of distinct identities
    emits no notification, leaves every other collection alone, and leaves in
    its own exactly the reference result: each tracked entry re-activated in
    place with the re-sent value of its identity or marked removed, then the
    children nothing was tracked for. *)
Theorem replace_is_full_replace t items ar :
  t ∈ allowedChildTypeNames children -> Forall (fun v => avo_className v = t) items ->
  uniqueAll (ar_list t ar) -> distinct items ->
  let ar' := ReplaceAggregateChildrenOf rootName rootType children t (Some <$> items) ar in
  ar_list t ar' = replaced items (ar_list t ar) /\
  (forall k, k <> t -> ar_list k ar' = ar_list k ar) /\
  length (rootMessages ar') = length (rootMessages ar).
Proof. apply Replace_spec. Qed.

(** What a full replace makes the write do.  A persisted child that was not
    re-sent is deleted; a re-sent one is updated under the id it is persisted
    with; a child nothing was tracked for is inserted; and the children current
    afterwards are as many as were sent. *)
Theorem replace_write_plan t items ar :
  t ∈ allowedChildTypeNames children -> Forall (fun v => avo_className v = t) items ->
  uniqueAll (ar_list t ar) -> homogeneous t (ar_list t ar) -> distinct items ->
  let ar' := ReplaceAggregateChildrenOf rootName rootType children t (Some <$> items) ar in
  (forall e, e ∈ ar_list t ar -> e_originalStatus e = StatusConstructor ->
     ((forall v, v ∈ items -> avo_same (e_item e) v = false) -> e_item e ∈ GetRemovedItemsOf t ar') /\
     (forall v stamped, v ∈ items -> avo_same (e_item e) v = true ->
        id_IsEmpty (avo_GetID (e_item e)) = false -> avo_withID (avo_GetID (e_item e)) v = Some stamped ->
        exists c, c ∈ GetChangedItemsOf t ar' /\ avo_same v c = true /\ avo_GetID c = avo_GetID (e_item e))) /\
  (forall v, v ∈ items -> isNew (ar_list t ar) v = true -> v ∈ GetAddedItemsOf t ar') /\
  length (GetCurrentItemsOf t ar') = length items.
Proof.
  intros Hc Ht Hu Hh Hd ar'. destruct (Replace_spec rootName rootType children t items ar Hc Ht Hu Hd) as (Hl & _ & _).
  unfold GetRemovedItemsOf, GetChangedItemsOf, GetAddedItemsOf, GetCurrentItemsOf.
  assert (Hg : GetAggregateItemsOf t ar' = replaced items (ar_list t ar)).
  { rewrite homogeneous_items by (unfold ar'; rewrite Hl; by apply replaced_homogeneous). apply Hl. }
  rewrite Hg. setoid_rewrite filterByOp_elem. split; [|split].
  - intros e He Ho. split.
    + intros Hn. exists (setRemoved e). split; [by apply replaced_miss|]. simpl. by rewrite Ho.
    + intros v stamped Hv Hs Hid Hw. exists (reactivated (e_item e) v). split.
      * eexists. split; [by eapply replaced_hit|]. simpl. by rewrite Ho.
      * split; [apply reactivated_same|by eapply reactivated_id].
  - intros v Hv Hn. eexists. split; [by eapply replaced_new|]. done.
  - by apply replaced_current_length.
Qed.

(** ** The persistence plan *)

(** The plan a collection resolves to is a partition.  The current children
    are exactly the inserted ones, the updated ones and the untouched ones; the
    loaded ones are exactly the untouched, the updated and the deleted ones; a
    child added and removed again is in neither. *)
Theorem persistence_plan_partition l :
  Forall entryOk l ->
  GetCurrentItems l ≡ₚ filterByOp l OpInsert ++ filterByOp l OpUpdate ++ FilterByStatus l StatusConstructor /\
  e_item <$> filter (fun e => e_originalStatus e = StatusConstructor) l ≡ₚ
    FilterByStatus l StatusConstructor ++ filterByOp l OpUpdate ++ filterByOp l OpDelete.
Proof.
  unfold GetCurrentItems, filterByOp, FilterByStatus.
  induction 1 as [|e l (Ho & Hn & Hac) _ [IH1 IH2]]; [done|].
  rewrite !filter_cons. destruct (e_originalStatus e) eqn:Eo, (e_currentStatus e) eqn:Ec;
    try (destruct Ho; congruence); try congruence; try (specialize (Hac eq_refl); congruence);
    repeat (rewrite decide_True by done || rewrite decide_False by done); csimpl;
    rewrite ?IH1, ?IH2; split; try done; solve_Permutation.
Qed.

(** ** The boundary guard *)

(** A child whose type the root does not declare never reaches a collection:
    add, change (on either side) and remove leave the collections as they are and
    record exactly one notification, [InvalidAggregateChild]. *)
Theorem boundary_guard item other ar :
  isAllowedChild children item = false ->
  let rejected ar' := ar_aggregates ar' = ar_aggregates ar /\
    exists before m, rootMessages ar' = before ++ [m] /\ length before = length (rootMessages ar) /\
      m_Notification m = InvalidAggregateChildNotification in
  rejected (AddAggregateChild rootName rootType children item ar) /\
  rejected (RemoveAggregateChild rootName rootType children item ar) /\
  rejected (ChangeAggregateChild rootName rootType children item other ar) /\
  rejected (ChangeAggregateChild rootName rootType children other item ar).
Proof.
  intros Hn rejected.
  assert (Hrej : forall it, rejected (rejectChild it (ensureRootInit rootName rootType ar))).
  { intros it. unfold rejected, rejectChild. destruct it; rewrite rootMessages_notify; split; try done;
      do 2 eexists; (split; [reflexivity|]); by rewrite rootMessages_init. }
  unfold AddAggregateChild, RemoveAggregateChild, ChangeAggregateChild. rewrite Hn. simpl.
  destruct (isAllowedChild children other); simpl; auto.
Qed.

(** Every guarded operation is all or nothing: either it records exactly one
    notification and leaves every collection as it was, or it records none and
    touches at most the collection of the addressed child's type. *)
Theorem aggregate_all_or_nothing op ar :
  (exists i, op = OAdd i \/ op = ORemove i \/ exists r, op = OChange i r) ->
  let ar' := exec rootName rootType children op ar in
  (length (rootMessages ar') = Datatypes.S (length (rootMessages ar)) /\ forall k, ar_list k ar' = ar_list k ar) \/
  (length (rootMessages ar') = length (rootMessages ar) /\
   exists t, forall k, k <> t -> ar_list k ar' = ar_list k ar).
Proof. apply guarded_outcome. Qed.

(** After a child was written, the id the database minted is stamped on the
    tracked child and nothing else moves: the call reports success, the first
    entry of the child's identity carries the id and keeps its statuses, and the
    other entries, of its collection and of the others, are the ones they were. *)
Theorem assigned_id_is_written_back v id stamped ar m :
  ar_aggregates ar = Some m -> avo_withID id v = Some stamped ->
  isNew (ar_list (avo_className v) ar) v = false ->
  exists l1 e l2 ar', AssignAggregateItemID (Some v) id ar = (true, ar') /\
    ar_list (avo_className v) ar = l1 ++ e :: l2 /\ avo_same (e_item e) v = true /\
    ar_list (avo_className v) ar' = l1 ++ mkEntry stamped (e_originalStatus e) (e_currentStatus e) :: l2 /\
    avo_GetID stamped = id /\
    (forall k, k <> avo_className v -> ar_list k ar' = ar_list k ar) /\ ar_base ar' = ar_base ar.
Proof.
  intros Hm Hw Hn. unfold AssignAggregateItemID, ApplyToAggregateItem. rewrite Hm, Hw.
  destruct (isNew_false _ _ Hn) as (l1 & e & l2 & Hl & Hl1 & He).
  assert (Hu : update_first (fun e => avo_same (e_item e) v) (setItem stamped) (ar_list (avo_className v) ar) =
            Some (l1 ++ setItem stamped e :: l2)).
  { apply update_first_Some. exists l1, e, l2. by rewrite Hl. }
  rewrite Hu. exists l1, e, l2. eexists. split; [reflexivity|]. rewrite ar_list_setList, decide_True by done.
  repeat split; [done|done|by eapply avo_withID_id|].
  intros k Hk. by rewrite ar_list_setList, decide_False.
Qed.

End Claims.

(** ** Instances *)

Section Instances.
Import Sample.

(** A session on a loaded customer: a phone added, an address removed and sent
    again, another one changed. *)
Definition session : list AggOp :=
  [OAdd (Some cell); ORemove (Some home); OAdd (Some home'); OChange (Some work) (Some pine)].

Lemma session_safe : safeRun "Customer" rootT boundary customer session.
Proof.
  unfold session. cbn [safeRun safeOp]. split_and!; try exact I. intros e He Hr Hs.
  enum_elem He; vm_compute in Hr; congruence.
Qed.

Lemma aggregate_identity_contract_witness :
  let l := ar_list "Address" (run "Customer" rootT boundary customer session) in
  length l = 2 /\ uniqueActive l /\ Forall entryOk l.
Proof.
  split; [vm_compute; reflexivity|].
  exact (aggregate_identity_contract "Customer" rootT boundary newBase [home; work] session "Address"
           (distinct_two home work eq_refl) session_safe).
Defined.

Lemma customer_unique : uniqueAll (ar_list "Address" customer).
Proof. apply (load_collectionOk "Address" (newBase : BaseEntity Child unit unit) [home; work]). by apply distinct_two. Qed.

Lemma declared : "Address" ∈ allowedChildTypeNames boundary.
Proof. unfold allowedChildTypeNames. simpl. set_solver. Qed.

Lemma replace_is_full_replace_witness :
  let ar' := ReplaceAggregateChildrenOf "Customer" rootT boundary "Address" (Some <$> [home'; pine]) customer in
  ar_list "Address" ar' =
    [mkEntry (Address "Elm 1" "renamed" (NewID "a1")) StatusConstructor StatusAdded;
     mkEntry work StatusConstructor StatusRemoved; mkEntry pine StatusAdded StatusAdded] /\
  length (rootMessages ar') = 0.
Proof.
  destruct (replace_is_full_replace "Customer" rootT boundary "Address" [home'; pine] customer) as (Hl & _ & Hm).
  - apply declared.
  - by repeat constructor.
  - apply customer_unique.
  - by apply distinct_two.
  - split; [rewrite Hl|rewrite Hm]; vm_compute; reflexivity.
Defined.

Lemma replace_write_plan_witness :
  let ar' := ReplaceAggregateChildrenOf "Customer" rootT boundary "Address" (Some <$> [home'; pine]) customer in
  work ∈ GetRemovedItemsOf "Address" ar' /\ pine ∈ GetAddedItemsOf "Address" ar' /\
  length (GetCurrentItemsOf "Address" ar') = 2.
Proof.
  destruct (replace_write_plan "Customer" rootT boundary "Address" [home'; pine] customer) as (He & Hn & Hlen).
  - apply declared.
  - by repeat constructor.
  - apply customer_unique.
  - by repeat constructor.
  - by apply distinct_two.
  - split; [|split; [by apply Hn; [set_solver|]|done]].
    apply (He (mkEntry work StatusConstructor StatusConstructor)); [set_solver|done|].
    intros v Hv. by enum_elem Hv.
Defined.

Lemma persistence_plan_partition_witness :
  let l := [mkEntry home StatusConstructor StatusConstructor; mkEntry work StatusConstructor StatusRemoved;
            mkEntry cell StatusAdded StatusRemoved; mkEntry pine StatusAdded StatusChanged] in
  GetCurrentItems l ≡ₚ filterByOp l OpInsert ++ filterByOp l OpUpdate ++ FilterByStatus l StatusConstructor /\
  filterByOp l OpInsert = [pine] /\ filterByOp l OpDelete = [work].
Proof.
  split; [|split; reflexivity]. apply (persistence_plan_partition (V := Child)).
  repeat constructor; simpl; auto; congruence.
Defined.

Lemma boundary_guard_witness :
  ar_aggregates (AddAggregateChild "Customer" rootT [cell] (Some home) customer) = ar_aggregates customer.
Proof.
  destruct (boundary_guard "Customer" rootT [cell] (Some home) None customer) as ([Ha _] & _);
    [vm_compute; reflexivity|exact Ha].
Defined.

Lemma aggregate_all_or_nothing_witness :
  let ar' := exec "Customer" rootT boundary (OAdd (Some home')) customer in
  length (rootMessages ar') = 1 /\ ar_list "Address" ar' = ar_list "Address" customer.
Proof.
  destruct (aggregate_all_or_nothing "Customer" rootT boundary (OAdd (Some home')) customer) as [[Hm Hl]|[Hm _]].
  - eauto.
  - split; [rewrite Hm|]; [reflexivity|apply Hl].
  - exfalso. vm_compute in Hm. discriminate.
Defined.

Lemma assigned_id_is_written_back_witness :
  exists ar', AssignAggregateItemID (Some cell) (NewID "p9")
    (AddAggregateChild "Customer" rootT boundary (Some cell) customer) = (true, ar').
Proof.
  edestruct (assigned_id_is_written_back (V := Child) (S := unit) (O := unit) cell (NewID "p9") (Phone "555" (NewID "p9"))
    (AddAggregateChild "Customer" rootT boundary (Some cell) customer)) as (l1 & e & l2 & ar' & Ha & _).
  - vm_compute. reflexivity.
  - reflexivity.
  - vm_compute. reflexivity.
  - by exists ar'.
Defined.

(** ** Where the contract does not hold *)

(** The side condition of the contract is needed.  On a loaded customer with
    two addresses, remove the first, change the second into the first's identity
    and add that identity again: the add re-activates the removed entry although
    another current child holds the identity, no notification is recorded, and
    two current children share one business identity. *)
Theorem add_can_duplicate_an_identity :
  let ar := run "Customer" rootT boundary customer
              [ORemove (Some home); OChange (Some work) (Some home'); OAdd (Some home)] in
  rootMessages ar = [] /\ GetCurrentItemsOf "Address" ar = [home; home'] /\ avo_same home home' = true.
Proof. vm_compute. auto. Qed.

(** A change files the replacement under the original's type name without
    comparing the two types: a phone can sit among the addresses, where no reader
    of either type finds it. *)
Theorem change_can_misfile_a_child :
  let ar := run "Customer" rootT boundary customer [OChange (Some work) (Some cell)] in
  rootMessages ar = [] /\ GetCurrentItemsOf "Address" ar = [home] /\ GetCurrentItemsOf "Phone" ar = [] /\
  cell ∈ (e_item <$> ar_list "Address" ar).
Proof. vm_compute. split_and!; try reflexivity. apply list_elem_of_further, list_elem_of_here. Qed.

End Instances.
