(* ===== verification/Rules.v ===== *)
(** * The rules DSL

    [domain/rules.go], the validator half of [domain/value_object.go], and the
    rule-running half of [domain/entity_base.go].

    The body of a [BuildRules] method is code of the service, so it is a term of
    [RuleBody]: a tree of calls on the API the framework hands it, with arbitrary
    reads of the state in between.  What the framework does with a body is
    [runBody]; every theorem about a validation pass is then about every body. *)

From S2P Require Import Prelude Naming FieldMeta Notification BaseEntity.
From stdpp Require Import base gmap strings list fin_maps.
From Stdlib Require Import Ascii ZArith Lia.

Open Scope string_scope.
Open Scope list_scope.

(** ** Value objects ([domain/value_object.go]) *)

(** What [validatorFor] can find behind a value: its own [IsValid], here as the
    messages it emits for a field name; an enum with its current value, its
    [Values()] (absent when the type declares none) and its unknown
    notification; or neither. *)
Inductive VOKind :=
| RawVO (emits : string -> list NotificationMessage)
| EnumVO (self : string) (values : option (list string)) (unknown : Notification)
| NotVO.

Definition isVO (v : VOKind) : bool := match v with NotVO => false | _ => true end.

(** [IsValid] of the validator: a raw object runs its own, an enum is checked for
    membership ([enumMembershipValidator.IsValid]); [None] is the panic of an enum
    without [Values()]. *)
Definition voIsValid (v : VOKind) (fieldName : string) (r : CtxRef) (c : NotificationContext) :
  option NotificationContext :=
  match v with
  | RawVO emits => Some (foldl (fun c m => AddNotificationMessage r m c) c (emits fieldName))
  | EnumVO self values unknown =>
      match values with
      | None => None
      | Some members =>
          if existsb (String.eqb self) members then Some c
          else Some (AddNotificationNamed r fieldName unknown None c)
      end
  | NotVO => Some c
  end.

(** A struct field as [validateValueObjectFields] sees it; [vf_value] is [None]
    for a nil pointer. *)
Record VOField := mkVOField {
  vf_Name : string;
  vf_Anonymous : bool;
  vf_Exported : bool;
  vf_value : option VOKind
}.

(** One validator call of the pass, with the dedup set it threads. *)
Definition voStep (ignored : list string) (r : CtxRef) (name : string) (v : VOKind)
  (st : gset string * NotificationContext) : option (gset string * NotificationContext) :=
  let '(seen, c) := st in
  if bool_decide (name ∈ ignored) || bool_decide (name ∈ seen) || negb (isVO v) then Some (seen, c)
  else (fun c => ({[name]} ∪ seen, c)) <$> voIsValid v name r c.

(** The field loop, then the forced entries. *)
Fixpoint voFields (ignored : list string) (r : CtxRef) (fields : list VOField)
  (st : gset string * NotificationContext) : option (gset string * NotificationContext) :=
  match fields with
  | [] => Some st
  | f :: rest =>
      if vf_Anonymous f || negb (vf_Exported f) then voFields ignored r rest st
      else
        match vf_value f with
        | None => voFields ignored r rest st
        | Some v => voStep ignored r (vf_Name f) v st ≫= voFields ignored r rest
        end
  end.

Fixpoint voForced (ignored : list string) (r : CtxRef) (forced : list (string * VOKind))
  (st : gset string * NotificationContext) : option (gset string * NotificationContext) :=
  match forced with
  | [] => Some st
  | (name, v) :: rest => voStep ignored r name v st ≫= voForced ignored r rest
  end.

Definition validateValueObjectFields (fields : list VOField) (r : CtxRef) (ignored : list string)
  (forced : list (string * VOKind)) (c : NotificationContext) : option NotificationContext :=
  snd <$> (voFields ignored r fields (∅, c) ≫= voForced ignored r forced).

(** ** Rule bodies *)

(** The [If...] methods of [Rules]. *)
Inductive Gate :=
| IfInsert | IfUpdate | IfDelete | IfArchive | IfUnarchive | IfInsertOrUpdate | IfDisplay.

Definition gateFires (g : Gate) (m : EntityMode) : bool :=
  match g with
  | IfInsert => bool_decide (m = ModeInsert)
  | IfUpdate => bool_decide (m = ModeUpdate)
  | IfDelete => bool_decide (m = ModeDelete)
  | IfArchive => bool_decide (m = ModeArchive)
  | IfUnarchive => bool_decide (m = ModeUnarchive)
  | IfInsertOrUpdate => bool_decide (m = ModeInsert) || bool_decide (m = ModeUpdate)
  | IfDisplay => bool_decide (m = ModeDisplay)
  end.

(** The fields of [Rules] that do not change during a pass. *)
Record Rules := mkRules {
  r_mode : EntityMode;
  r_ctx : CtxRef;
  r_entityType : GoType;
  r_base : option FieldBase
}.

(** [NewRules] followed by [bindFieldBase] on an instance at [addr]. *)
Definition NewRulesBound (mode : EntityMode) (ctx : CtxRef) (entityType : GoType) (addr : Z) : Rules :=
  mkRules mode ctx entityType
    (Some (bindFieldBase addr (match entityType with TPointer e => e | t => t end))).

(** What a body runs against: a state with a notification context in it and the
    commands the state's own API offers ([None] is a panic). *)
Class RuleHost (St Cmd : Type) := {
  h_ctx : St -> NotificationContext;
  h_onCtx : (NotificationContext -> NotificationContext) -> St -> St;
  h_exec : Cmd -> St -> option St
}.

(** The notifications a context holds, in order of emission. *)
Definition notifs (c : NotificationContext) : list Notification := m_Notification <$> nc_messages c.

(** No notification is taken back, and none overtakes another. *)
Definition ctxGrows (c c' : NotificationContext) : Prop := notifs c `prefix_of` notifs c'.

Section Rules.
Context {St Cmd : Type} `{RuleHost St Cmd}.

Inductive RuleBody :=
| RDone
| RPanic (msg : string)
| RAddNotification (field : FieldRef) (n : Notification) (vars : gmap string string) (value : option string)
    (next : RuleBody)
| RAddNotificationNamed (name : string) (n : Notification) (value : option string) (next : RuleBody)
| RAddNotificationMessage (msg : NotificationMessage) (next : RuleBody)
| RIgnoreValueObject (name : string) (next : RuleBody)
| RValidateValueObject (name : string) (vo : VOKind) (next : RuleBody)
| RStopIfInvalid (next : RuleBody)
| RIf (g : Gate) (body next : RuleBody)
| RRead (k : St -> RuleBody)
| RCall (cmd : Cmd) (next : RuleBody).

(** The mutable half of a pass: the host, the two value-object lists of this
    [Rules], and [rulesPass.halted]. *)
Record RulesState := mkRulesState {
  rs_host : St;
  rs_ignored : list string;
  rs_forced : list (string * VOKind);
  rs_halted : bool
}.

Definition rs_onHost (f : St -> St) (s : RulesState) : RulesState :=
  mkRulesState (f (rs_host s)) (rs_ignored s) (rs_forced s) (rs_halted s).

(** How a body ends: it returns, unwinds with [stopRulesSignal], or panics. *)
Inductive BodyEnd := EndDone | EndStop | EndPanic (msg : string).

(** [r.AddNotification] and [r.AddNotificationWithVars] share one shape; [value]
    is the rendered field when it is exposed. *)
Definition fieldMessage (node : fieldNode) (n : Notification) (vars : gmap string string) (value : option string) :
  NotificationMessage :=
  mkMessage (fn_segs node) "" (default "" value) "" None n vars (labelKeyOf (fn_leaf node)).

Definition namedMessage (t : GoType) (name : string) (n : Notification) (value : option string) : NotificationMessage :=
  mkMessage [mkPathSegment name (resolveNotifyAs (Some t) name) None] "" (default "" value) "" None n ∅
    (resolveLabelKey (Some t) name).

Definition emit (r : Rules) (m : NotificationMessage) (s : RulesState) : RulesState :=
  rs_onHost (h_onCtx (AddNotificationMessage (r_ctx r) m)) s.

Fixpoint runBody (r : Rules) (b : RuleBody) (s : RulesState) : RulesState * BodyEnd :=
  match b with
  | RDone => (s, EndDone)
  | RPanic msg => (s, EndPanic msg)
  | RAddNotification field n vars value next =>
      match resolveFieldRef (r_base r) field with
      | Ret node => runBody r next (emit r (fieldMessage node n vars value) s)
      | Fail e => match e with end
      | Panic m => (s, EndPanic m)
      end
  | RAddNotificationNamed name n value next => runBody r next (emit r (namedMessage (r_entityType r) name n value) s)
  | RAddNotificationMessage msg next => runBody r next (emit r msg s)
  | RIgnoreValueObject name next =>
      runBody r next (mkRulesState (rs_host s) (rs_ignored s ++ [name]) (rs_forced s) (rs_halted s))
  | RValidateValueObject name vo next =>
      if isVO vo then
        runBody r next (mkRulesState (rs_host s) (rs_ignored s) (rs_forced s ++ [(name, vo)]) (rs_halted s))
      else (s, EndPanic "ValidateValueObject: neither a ValueObject nor an EnumValueObject")
  | RStopIfInvalid next =>
      if negb (HasErrors (h_ctx (rs_host s))) then runBody r next s
      else (mkRulesState (rs_host s) (rs_ignored s) (rs_forced s) true, EndStop)
  | RIf g body next =>
      if gateFires g (r_mode r) then
        match runBody r body s with
        | (s, EndDone) => runBody r next s
        | x => x
        end
      else runBody r next s
  | RRead k => runBody r (k (rs_host s)) s
  | RCall cmd next =>
      match h_exec cmd (rs_host s) with
      | Some h => runBody r next (mkRulesState h (rs_ignored s) (rs_forced s) (rs_halted s))
      | None => (s, EndPanic "misuse")
      end
  end.

(** [buildRules]: run a body on a fresh [Rules] of the pass and absorb the stop
    signal; a panic goes on. *)
Definition buildRules (r : Rules) (b : RuleBody) (halted : bool) (h : St) : RulesState * option string :=
  let '(s, e) := runBody r b (mkRulesState h [] [] halted) in
  match e with
  | EndPanic m => (s, Some m)
  | EndDone | EndStop => (s, None)
  end.

End Rules.

Arguments RuleBody : clear implicits.
Arguments RulesState : clear implicits.

(** What a host promises to a pass: its context sits behind a lens, and its own
    commands never take a message back. *)
Class RuleHostLaws (St Cmd : Type) `{RuleHost St Cmd} := {
  h_ctx_onCtx f s : h_ctx (h_onCtx f s) = f (h_ctx s);
  h_exec_grows c s s' : h_exec c s = Some s' -> ctxGrows (h_ctx s) (h_ctx s')
}.

(** ** Lemmas *)

#[export] Instance ctxGrows_preorder : PreOrder ctxGrows.
Proof. split; [intros c; unfold ctxGrows; reflexivity|]. intros c1 c2 c3. unfold ctxGrows. by etrans. Qed.

Lemma AddNotificationMessage_notifs r m c :
  notifs (AddNotificationMessage r m c) = notifs c ++ [m_Notification m].
Proof.
  assert (Hp : forall p m, m_Notification (prefixPath p m) = m_Notification m).
  { intros p m'. unfold prefixPath. by destruct p, (m_Path m'). }
  revert m. induction r as [|p t r IH]; intros m; simpl.
  - unfold notifs. simpl. by rewrite fmap_app.
  - by rewrite IH, Hp.
Qed.

Lemma AddNotificationMessage_grows r m c : ctxGrows c (AddNotificationMessage r m c).
Proof. unfold ctxGrows. rewrite AddNotificationMessage_notifs. by eexists. Qed.

Lemma AddNotificationNamed_grows r name n v c : ctxGrows c (AddNotificationNamed r name n v c).
Proof. unfold AddNotificationNamed. case_match. apply AddNotificationMessage_grows. Qed.

Lemma HasErrors_notifs c : HasErrors c = true <-> notifs c <> [].
Proof. unfold HasErrors, notifs. by destruct (nc_messages c). Qed.

Lemma ctxGrows_errors c c' : ctxGrows c c' -> notifs c' = [] -> notifs c = [].
Proof. unfold ctxGrows. intros Hp Hn. rewrite Hn in Hp. by apply prefix_nil_inv in Hp. Qed.

#[export] Hint Resolve AddNotificationMessage_grows AddNotificationNamed_grows : omnicore.

Section RunLemmas.
Context {St Cmd : Type} `{RuleHostLaws St Cmd}.

(** A body only ever adds notifications, and it halts the pass exactly when it
    unwinds with the stop signal, which takes a notification. *)
Lemma runBody_spec r b (s : RulesState St) :
  let s' := (runBody r b s).1 in
  ctxGrows (h_ctx (rs_host s)) (h_ctx (rs_host s')) /\
  match (runBody r b s).2 with
  | EndStop => rs_halted s' = true /\ HasErrors (h_ctx (rs_host s')) = true
  | _ => rs_halted s' = rs_halted s
  end.
Proof.
  assert (Hemit : forall m (s : RulesState St), ctxGrows (h_ctx (rs_host s)) (h_ctx (rs_host (emit r m s)))).
  { intros m s0. unfold emit. simpl. rewrite h_ctx_onCtx. apply AddNotificationMessage_grows. }
  revert s. induction b as [|m|f n vs v b IH|n nt v b IH|m b IH|n b IH|n vo b IH|b IH|g b1 IH1 b2 IH2|k IH|c b IH];
    intros s; simpl; try (split; [reflexivity|done]).
  - destruct (resolveFieldRef (r_base r) f) as [node|[]|m]; [|split; [reflexivity|done]].
    destruct (IH (emit r (fieldMessage node n vs v) s)) as [Hc He]. split; [etrans; [apply Hemit|exact Hc]|done].
  - destruct (IH (emit r (namedMessage (r_entityType r) n nt v) s)) as [Hc He]. split; [etrans; [apply Hemit|exact Hc]|done].
  - destruct (IH (emit r m s)) as [Hc He]. split; [etrans; [apply Hemit|exact Hc]|done].
  - apply (IH (mkRulesState (rs_host s) _ _ _)).
  - destruct (isVO vo); [|split; [reflexivity|done]]. apply (IH (mkRulesState (rs_host s) _ _ _)).
  - destruct (HasErrors _) eqn:E; simpl; [|apply IH]. split; [reflexivity|done].
  - destruct (gateFires g (r_mode r)); [|apply IH2].
    destruct (IH1 s) as [Hc He]. destruct (runBody r b1 s) as [s1 [| |m]]; simpl in *; try done.
    destruct (IH2 s1) as [Hc2 He2]. split; [by etrans|]. by rewrite He in He2.
  - apply IH.
  - destruct (h_exec c (rs_host s)) as [h|] eqn:E; [|split; [reflexivity|done]].
    destruct (IH (mkRulesState h (rs_ignored s) (rs_forced s) (rs_halted s))) as [Hc He].
    split; [|done]. apply h_exec_grows in E. by etrans.
Qed.

Lemma buildRules_spec r b h (s : RulesState St) p :
  buildRules r b false h = (s, p) ->
  ctxGrows (h_ctx h) (h_ctx (rs_host s)) /\ (rs_halted s = true -> HasErrors (h_ctx (rs_host s)) = true).
Proof.
  unfold buildRules. pose proof (runBody_spec r b (mkRulesState h [] [] false)) as [Hc He].
  destruct (runBody r b _) as [s' [| |m]]; intros [= <- <-]; simpl in *; split; try done;
    try (intros Hh; rewrite Hh in He; discriminate). by destruct He.
Qed.

(** Whatever every host command and every write to the context keeps, a body
    keeps. *)
Lemma runBody_rel (R : relation St) `{!PreOrder R} r b s :
  (forall cr m h, R h (h_onCtx (AddNotificationMessage cr m) h)) -> (forall c h h', h_exec c h = Some h' -> R h h') ->
  R (rs_host s) (rs_host (runBody r b s).1).
Proof.
  intros Hctx Hexec. revert s.
  induction b as [|m|f n vs v b IH|n nt v b IH|m b IH|n b IH|n vo b IH|b IH|g b1 IH1 b2 IH2|k IH|c b IH];
    intros s; simpl; try reflexivity.
  - destruct (resolveFieldRef (r_base r) f) as [node|[]|m]; [|reflexivity].
    etrans; [|apply IH]. apply Hctx.
  - etrans; [|apply IH]. apply Hctx.
  - etrans; [|apply IH]. apply Hctx.
  - apply (IH (mkRulesState (rs_host s) _ _ _)).
  - destruct (isVO vo); [|reflexivity]. apply (IH (mkRulesState (rs_host s) _ _ _)).
  - case_match; [apply IH|reflexivity].
  - destruct (gateFires g (r_mode r)); [|apply IH2].
    specialize (IH1 s). destruct (runBody r b1 s) as [s1 [| |m]]; simpl in *; try done.
    etrans; [exact IH1|apply IH2].
  - apply IH.
  - destruct (h_exec c (rs_host s)) as [h|] eqn:E; [|reflexivity].
    etrans; [by eapply Hexec|]. apply (IH (mkRulesState h _ _ _)).
Qed.

Lemma buildRules_rel (R : relation St) `{!PreOrder R} r b halted h s p :
  (forall cr m h, R h (h_onCtx (AddNotificationMessage cr m) h)) -> (forall c h h', h_exec c h = Some h' -> R h h') ->
  buildRules r b halted h = (s, p) -> R h (rs_host s).
Proof.
  intros Hctx Hexec. unfold buildRules.
  pose proof (runBody_rel R r b (mkRulesState h [] [] halted) Hctx Hexec) as HR.
  destruct (runBody r b _) as [s' [| |m]]; by intros [= <- <-].
Qed.

End RunLemmas.

(** The value-object pass only adds notifications. *)
Lemma voIsValid_grows v name r c c' : voIsValid v name r c = Some c' -> ctxGrows c c'.
Proof.
  destruct v as [emits|self [members|] unknown|]; simpl; [| |done|by intros [= ->]].
  - intros [= <-]. generalize (emits name) as ms. intros ms. revert c.
    induction ms as [|m ms IH]; intros c; simpl; [reflexivity|].
    etrans; [apply AddNotificationMessage_grows|apply IH].
  - case_match; intros [= <-]; [reflexivity|]. apply AddNotificationNamed_grows.
Qed.

Lemma voStep_grows ignored r name v st st' : voStep ignored r name v st = Some st' -> ctxGrows st.2 st'.2.
Proof.
  destruct st as [seen c]. unfold voStep. case_match; [by intros [= <-]|].
  intros (c' & Hc & ->)%fmap_Some. simpl. by eapply voIsValid_grows.
Qed.

Lemma validateValueObjectFields_grows fields r ignored forced c c' :
  validateValueObjectFields fields r ignored forced c = Some c' -> ctxGrows c c'.
Proof.
  unfold validateValueObjectFields. intros (st & (st1 & H1 & H2)%bind_Some & ->)%fmap_Some.
  assert (HF : forall fs st st', voFields ignored r fs st = Some st' -> ctxGrows st.2 st'.2).
  { clear. induction fs as [|f fs IH]; intros st st'; simpl; [by intros [= ->]|].
    case_match; [apply IH|]. case_match; [|apply IH].
    intros (st1 & Hs & Hr)%bind_Some. apply voStep_grows in Hs. apply IH in Hr. by etrans. }
  assert (HV : forall fs st st', voForced ignored r fs st = Some st' -> ctxGrows st.2 st'.2).
  { clear. induction fs as [|[n v] fs IH]; intros st st'; simpl; [by intros [= ->]|].
    intros (st1 & Hs & Hr)%bind_Some. apply voStep_grows in Hs. apply IH in Hr. by etrans. }
  apply HF in H1. apply HV in H2. simpl in *. by etrans.
Qed.
