(* ===== verification/Entity.v ===== *)
(** * Entities: the validation pass and the five verbs

    The verb half of [domain/entity_base.go], with [domain/entity.go] (the sealed
    values) and [domain/clone.go] (the old-state snapshot).  An entity is its
    embedded aggregate root (a plain entity simply has no child types) and its
    own data; its concrete type, with the methods the framework calls, is an
    [EntityDef]. *)

From S2P Require Import Prelude Naming FieldMeta Notification Errors BaseEntity Aggregate Rules.
From stdpp Require Import base gmap strings list fin_maps.
From Stdlib Require Import Ascii ZArith Lia.

Open Scope string_scope.
Open Scope list_scope.
Open Scope go_scope.

(** [DomainError], or the error a command's apply function returned. *)
Inductive GetError :=
| DomainError (contexts : list NotificationContext)
| ApplyError (err : GoErr).

Section Entity.
Context {V S D : Type} `{AVOOps V}.

(** ** State *)

Abbreviation AggregateMap := (gmap string (list (aggregateItemEntry V))).

(** The ghost [captureOld] stores: the exported fields of the clone, and its copy
    of the collections. *)
Record OldState := mkOld { old_data : D; old_aggregates : option AggregateMap }.

Record EntityState := mkEntity { en_ar : AggregateRoot V S OldState; en_data : D }.

Abbreviation Base := (BaseEntity V S OldState).

Definition en_base (e : EntityState) : Base := ar_base (en_ar e).

Definition en_onAr (f : AggregateRoot V S OldState -> AggregateRoot V S OldState) (e : EntityState) : EntityState :=
  mkEntity (f (en_ar e)) (en_data e).

Definition en_onBase (f : Base -> Base) : EntityState -> EntityState := en_onAr (ar_onBase f).

Definition en_context (e : EntityState) : NotificationContext := contextOf (en_base e).

Definition en_onContext (f : NotificationContext -> NotificationContext) : EntityState -> EntityState :=
  en_onBase (onContext f).

Definition en_GetID (e : EntityState) : option ID := mg_id (be_managed (en_base e)).

(** The calls domain code makes on its own entity. *)
Inductive EntityCmd :=
| CSetData (f : D -> D)
| CSetID (i : ID)
| CClearID
| CStamp (goField : string) (op : StampOp)
| CAddNotificationMessage (msg : NotificationMessage)
| CAddNotificationNamed (name : string) (n : Notification) (value : option string)
| CAddNotificationContext (ctx : NotificationContext)
| CValidateAggregateValueObject (name : string) (avo : V)
| CRegisterEvent (ev : DomainEvent)
| CAddFieldNameAlias (goFieldName wireName : string)
| CChangeFieldName (oldName newName : string)
| CCompleteAsArchive
| CAddAggregateChild (item : option V)
| CChangeAggregateChild (original replacement : option V)
| CRemoveAggregateChild (item : option V)
| CReplaceAggregateChildrenOf (typeName : string) (items : list (option V)).

(** The body of a command's [ApplyTo], and of any other code that holds the
    entity outside its rules. *)
Inductive CmdBody :=
| CReturn (err : option GoErr)
| CBodyPanic (msg : string)
| CRead (k : EntityState -> CmdBody)
| CDo (cmd : EntityCmd) (next : CmdBody).

(** The child's side of a pass: the context it emits to and the addressable copy
    its pointer receiver may mutate, discarded afterwards. *)
Abbreviation ChildHost := (NotificationContext * V)%type.

#[export] Instance childRuleHost : RuleHost ChildHost (V -> V) := {
  h_ctx := fst;
  h_onCtx f s := (f s.1, s.2);
  h_exec f s := Some (s.1, f s.2)
}.

(** ** The concrete type *)

(** [ed_type] is the type of the entity pointer, [ed_addr] the instance's
    address; [ed_children] is [AggregateChildren()] of an
    [AggregateRootProvider], [None] for a plain entity; [ed_childRules] is [None]
    for a child type without [BuildRules].  [ed_iter] is the order a [range] over
    a map takes, [ed_parse] is [uuid.Parse], [ed_clone] the JSON round trip of the
    exported fields. *)
Record EntityDef := mkEntityDef {
  ed_className : string;
  ed_type : GoType;
  ed_addr : Z;
  ed_Modes : D -> list EntityMode;
  ed_RequiresService : bool;
  ed_BuildRules : string -> option S -> RuleBody EntityState EntityCmd;
  ed_fields : D -> list VOField;
  ed_children : option (list V);
  ed_childType : V -> GoType;
  ed_childAddr : Z;
  ed_childRules : V -> string -> option S -> option (RuleBody ChildHost (V -> V));
  ed_childFields : V -> list VOField;
  ed_iter : AggregateMap -> list (string * list (aggregateItemEntry V));
  ed_parse : string -> option string;
  ed_clone : D -> option D
}.

End Entity.

Arguments OldState : clear implicits.
Arguments EntityState : clear implicits.
Arguments EntityCmd : clear implicits.
Arguments CmdBody : clear implicits.
Arguments EntityDef : clear implicits.

Section Verbs.
Context {V S D : Type} `{AVOOps V} (d : EntityDef V S D).

Abbreviation EM A := (GoM (EntityState V S D) GetError A).
Abbreviation CM A := (GoM NotificationContext GetError A).

(** ** Domain code at work *)

(** One call; [None] is the panic of [CompleteAsArchive].  A plain entity has no
    child primitives to call. *)
Definition execCmd (c : EntityCmd V D) (e : EntityState V S D) : option (EntityState V S D) :=
  let rootName := ed_className d in
  let rootType := ed_type d in
  let children := default [] (ed_children d) in
  match c with
  | CSetData f => Some (mkEntity (en_ar e) (f (en_data e)))
  | CSetID i => Some (en_onBase (fun b => be_setManaged (SetID i (be_managed b)) b) e)
  | CClearID => Some (en_onBase (fun b => be_setManaged (ClearID (be_managed b)) b) e)
  | CStamp f op => Some (en_onBase (fun b => be_setManaged (stampAs f op (be_managed b)) b) e)
  | CAddNotificationMessage msg => Some (en_onBase (be_AddNotificationMessage msg) e)
  | CAddNotificationNamed name n v => Some (en_onBase (be_AddNotificationNamed name n v) e)
  | CAddNotificationContext ctx => Some (en_onBase (AddNotificationContext ctx) e)
  | CValidateAggregateValueObject name avo => Some (en_onBase (ValidateAggregateValueObject name avo) e)
  | CRegisterEvent ev => Some (en_onBase (RegisterEvent ev) e)
  | CAddFieldNameAlias g w => Some (en_onBase (AddFieldNameAlias g w) e)
  | CChangeFieldName o n => Some (en_onContext (ChangeFieldName o n) e)
  | CCompleteAsArchive => (fun b => en_onBase (fun _ => b) e) <$> CompleteAsArchive (en_base e)
  | CAddAggregateChild item => Some (en_onAr (AddAggregateChild rootName rootType children item) e)
  | CChangeAggregateChild o r => Some (en_onAr (ChangeAggregateChild rootName rootType children o r) e)
  | CRemoveAggregateChild item => Some (en_onAr (RemoveAggregateChild rootName rootType children item) e)
  | CReplaceAggregateChildrenOf t items =>
      Some (en_onAr (ReplaceAggregateChildrenOf rootName rootType children t items) e)
  end.

Fixpoint runCmds (b : CmdBody V S D) : EM unit :=
  match b with
  | CReturn None => gret tt
  | CReturn (Some err) => gfail (ApplyError err)
  | CBodyPanic m => gpanic m
  | CRead k => e <- gget;; runCmds (k e)
  | CDo cmd next =>
      e <- gget;;
      match execCmd cmd e with
      | None => gpanic "domain.CompleteAsArchive"
      | Some e' => gmodify (fun _ => e');;; runCmds next
      end
  end.

#[export] Instance entityRuleHost : RuleHost (EntityState V S D) (EntityCmd V D) := {
  h_ctx := en_context;
  h_onCtx := en_onContext;
  h_exec := execCmd
}.

(** ** Aliases and the closing check *)

(** [applyFieldAliases]: one pass per alias; the passes of different fields
    commute, so the map's iteration order does not matter. *)
Definition applyFieldAliases (e : EntityState V S D) : EntityState V S D :=
  if decide (be_aliases (en_base e) = ∅) then e
  else en_onContext (fun c => map_fold applyGoFieldAlias c (be_aliases (en_base e))) e.

(** [collectContexts] on the aliased entity. *)
Definition contextsOf (e : EntityState V S D) : list NotificationContext :=
  (if HasErrors (en_context e) then [en_context e] else []) ++
  filter (fun c => HasErrors c = true) (be_contexts (en_base e)).

Definition collectContexts : EM (list NotificationContext) :=
  gmodify applyFieldAliases;;;
  e <- gget;; gret (contextsOf e).

Definition checkAllNotifications : EM unit :=
  contexts <- collectContexts;;
  match contexts with
  | [] => gret tt
  | _ => gfail (DomainError contexts)
  end.

Definition notify (msg : NotificationMessage) : EM unit :=
  gmodify (en_onContext (AddNotificationMessage CRoot msg)).

Definition checkService (actionName : string) : EM unit :=
  e <- gget;;
  match be_service (en_base e) with
  | None =>
      if ed_RequiresService d then
        notify (setFuncName actionName (message [NameSegment "service"] ServiceIsRequiredNotification));;;
        checkAllNotifications
      else gret tt
  | Some _ => gret tt
  end.

Definition modeAllowed (m : EntityMode) (e : EntityState V S D) : bool :=
  existsb (fun allowed => bool_decide (allowed = m)) (ed_Modes d (en_data e)).

(** ** Running rules *)

(** [buildRulesInWindow]: the window is open for the body and closed again
    whatever the body does.  Yields the pass's halt state and the two
    value-object lists of the root's [Rules]. *)
Definition buildRulesInWindow (mode : EntityMode) (actionName : string) : EM (bool * list string * list (string * VOKind)) :=
  gmodify (en_onBase openRulesWindow);;;
  gdefer (en_onBase closeRulesWindow)
    (fun e =>
       let r := NewRulesBound mode CRoot (ed_type d) (ed_addr d) in
       match buildRules r (ed_BuildRules d actionName (be_service (en_base e))) false e with
       | (s, None) => (rs_host s, Ret (rs_halted s, rs_ignored s, rs_forced s))
       | (s, Some m) => (rs_host s, Panic m)
       end).

(** One child: its rules on a copy, then its value objects unless the pass was
    halted.  Yields the halt state. *)
Definition validateChild (mode : EntityMode) (actionName : string) (svc : option S) (scoped : CtxRef) (v : V) : CM bool :=
  fun c =>
    match ed_childRules d v actionName svc with
    | None => (c, Panic "domain: aggregate value object declares no BuildRules")
    | Some body =>
        let r := NewRulesBound mode scoped (ed_childType d v) (ed_childAddr d) in
        match buildRules r body false (c, v) with
        | (s, Some m) => ((rs_host s).1, Panic m)
        | (s, None) =>
            if rs_halted s then ((rs_host s).1, Ret true)
            else
              match validateValueObjectFields (ed_childFields d v) scoped (rs_ignored s) (rs_forced s) (rs_host s).1 with
              | Some c' => (c', Ret false)
              | None => ((rs_host s).1, Panic "enum value object must declare Values()")
              end
        end
    end.

Definition childCollectionSegment (v : V) : string := toLowerCamel (avo_collection v).

(** The children of one type, the removed ones skipped and not counted. *)
Fixpoint validateItems (mode : EntityMode) (actionName : string) (svc : option S) (collection : string) (idx : Z)
  (items : list (aggregateItemEntry V)) : CM bool :=
  match items with
  | [] => gret false
  | it :: rest =>
      if bool_decide (e_currentStatus it = StatusRemoved) then validateItems mode actionName svc collection idx rest
      else
        halted <- validateChild mode actionName svc
                    (scopedForType CRoot (ed_childType d (e_item it)) (NameSegment collection) [IndexSegment idx])
                    (e_item it);;
        if halted then gret true
        else validateItems mode actionName svc collection (idx + 1) rest
  end.

Fixpoint validateTypes (mode : EntityMode) (actionName : string) (svc : option S)
  (types : list (string * list (aggregateItemEntry V))) : CM bool :=
  match types with
  | [] => gret false
  | (_, items) :: rest =>
      match items with
      | [] => validateTypes mode actionName svc rest
      | first :: _ =>
          halted <- validateItems mode actionName svc (childCollectionSegment (e_item first)) 0 items;;
          if halted then gret true else validateTypes mode actionName svc rest
      end
  end.

(** The value objects registered by hand, for type names the root does not map. *)
Fixpoint validateExtra (mode : EntityMode) (actionName : string) (svc : option S) (mapped : gset string)
  (entries : list (string * V)) : CM bool :=
  match entries with
  | [] => gret false
  | (name, avo) :: rest =>
      if bool_decide (name ∈ mapped) then validateExtra mode actionName svc mapped rest
      else
        halted <- validateChild mode actionName svc
                    (scopedForType CRoot (ed_childType d avo) (NameSegment name) []) avo;;
        if halted then gret true else validateExtra mode actionName svc mapped rest
  end.

Definition runAggregateValidations (mode : EntityMode) (actionName : string) (e : EntityState V S D) : CM bool :=
  let svc := be_service (en_base e) in
  let all : gmap string (list (aggregateItemEntry V)) :=
    match ed_children d with Some _ => AllAggregateItems (en_ar e) | None => ∅ end in
  halted <- validateTypes mode actionName svc (ed_iter d all);;
  if halted then gret true
  else validateExtra mode actionName svc (dom all) (be_avos (en_base e)).

(** Code that only touches the entity's context, run on the entity. *)
Definition inContext {A} (c : CM A) : EM A :=
  fun e =>
    let '(c', r) := c (en_context e) in (en_onContext (fun _ => c') e, r).

Definition runAutomaticValidations (mode : EntityMode) (actionName : string)
  (rules : bool * list string * list (string * VOKind)) : EM unit :=
  let '(halted, ignored, forced) := rules in
  if halted then gret tt
  else
    e <- gget;;
    inContext
      (fun c =>
         match validateValueObjectFields (ed_fields d (en_data e)) CRoot ignored forced c with
         | Some c' => (c', Ret tt)
         | None => (c, Panic "enum value object must declare Values()")
         end);;;
    inContext (runAggregateValidations mode actionName e);;;
    gret tt.

(** ** The structural gates *)

(** The mode gate of each [validateFor...]. *)
Definition modeGate (mode : EntityMode) (token verb actionName : string) (n : Notification) : EM unit :=
  e <- gget;;
  if modeAllowed mode e then gret tt
  else notify (setFuncName (verb +:+ "." +:+ actionName +:+ "()") (message [NameSegment token] n)).

(** Insert wants no id yet. *)
Definition noIDGate (actionName : string) : EM unit :=
  e <- gget;;
  match en_GetID e with
  | None => gret tt
  | Some i =>
      notify (setFieldValue (id_value i) (setFuncName ("Insert." +:+ actionName +:+ "()")
                (message [NameSegment "id"] UnableToInsertWithIDNotification)))
  end.

(** The other verbs want a valid one. *)
Definition idGate (verb actionName : string) (n : Notification) : EM unit :=
  e <- gget;;
  match en_GetID e with
  | None => notify (setFuncName (verb +:+ "." +:+ actionName +:+ "()") (message [NameSegment "id"] n))
  | Some i => gmodify (en_onContext (fun c => (id_IsValid (ed_parse d) i "id" CRoot c).2))
  end.

(** The frame the five functions share: mark the mode, check the service, run the
    rules in their window, the two gates, the automatic validations, the closing
    check. *)
Definition validateFrame (mode : EntityMode) (actionName : string) (gates : EM unit) : EM unit :=
  gmodify (en_onBase (setMode mode));;;
  checkService actionName;;;
  rules <- buildRulesInWindow mode actionName;;
  gates;;;
  runAutomaticValidations mode actionName rules;;;
  checkAllNotifications.

Definition validateForInsert (actionName : string) : EM unit :=
  validateFrame ModeInsert actionName
    (modeGate ModeInsert "insertable" "Insert" actionName InsertNotAllowedNotification;;; noIDGate actionName).

Definition validateForUpdate (actionName : string) : EM unit :=
  validateFrame ModeUpdate actionName
    (modeGate ModeUpdate "updatable" "Update" actionName UpdateNotAllowedNotification;;;
     idGate "Update" actionName UnableToUpdateWithoutIDNotification).

Definition validateForDelete (actionName : string) : EM unit :=
  validateFrame ModeDelete actionName
    (modeGate ModeDelete "deletable" "Delete" actionName DeleteNotAllowedNotification;;;
     idGate "Delete" actionName UnableToDeleteWithoutIDNotification).

Definition validateForArchive (actionName : string) : EM unit :=
  validateFrame ModeArchive actionName
    (modeGate ModeArchive "archivable" "Archive" actionName ArchiveNotAllowedNotification;;;
     idGate "Archive" actionName UnableToDeleteWithoutIDNotification).

Definition validateForUnarchive (actionName : string) : EM unit :=
  validateFrame ModeUnarchive actionName
    (modeGate ModeUnarchive "unarchivable" "Unarchive" actionName UnarchiveNotAllowedNotification;;;
     idGate "Unarchive" actionName UnableToDeleteWithoutIDNotification).

(** ** Snapshots ([domain/clone.go]) *)

Definition captureOld (e : EntityState V S D) : EntityState V S D :=
  match ed_clone d (en_data e) with
  | None => e
  | Some data =>
      let aggregates := match ed_children d with Some _ => ar_aggregates (en_ar e) | None => None end in
      en_onBase (setOldEntity (Some (mkOld data aggregates))) e
  end.

Definition captureOldIfAbsent (e : EntityState V S D) : EntityState V S D :=
  match be_old (en_base e) with
  | Some _ => e
  | None => captureOld e
  end.

Definition ensureInit : EntityState V S D -> EntityState V S D :=
  en_onBase (initWithName (ed_className d) (ed_type d)).

Definition CaptureOld (e : EntityState V S D) : EntityState V S D := captureOldIfAbsent (ensureInit e).

(** ** Sealed values ([domain/entity.go])

    The [source] of a sealed value is the entity the computation threads; the
    builder's fields travel in [Metadata]. *)

Record Metadata := mkMetadata {
  md_entityName : string;
  md_actionName : string;
  md_dateTime : Z;
  md_events : list DomainEvent;
  md_aggregate : bool
}.

Record Insertable := mkInsertable { ins_meta : Metadata; ins_id : option ID }.

Record Updatable := mkUpdatable {
  upd_meta : Metadata; upd_id : ID; upd_partial : bool; upd_entityMode : EntityMode
}.

Record Deletable := mkDeletable { del_meta : Metadata; del_id : ID }.
Record Archivable := mkArchivable { arc_meta : Metadata; arc_id : ID }.
Record Unarchivable := mkUnarchivable { una_meta : Metadata; una_id : ID }.

Definition isAggregate : bool := match ed_children d with Some _ => true | None => false end.

(** [newBuilder ... withAggregate ... buildMetadata]; [now] is [time.Now().UTC()]. *)
Definition buildMetadata (actionName : string) (now : Z) (e : EntityState V S D) : Metadata :=
  mkMetadata (ed_className d) actionName now (be_events (en_base e)) isAggregate.

(** [*e.GetID()] *)
Definition derefID : EM ID :=
  e <- gget;;
  match en_GetID e with Some i => gret i | None => gpanic "nil pointer dereference" end.

(** ** The verbs *)

Section WithService.
Context (service : option S) (actionName : string) (now : Z).

Definition resetFor : EM unit :=
  gmodify (en_onBase resetEntity);;;
  gmodify (en_onBase (setService service)).

Definition getInsertable : EM Insertable :=
  gmodify ensureInit;;;
  resetFor;;;
  validateForInsert actionName;;;
  e <- gget;; gret (mkInsertable (buildMetadata actionName now e) (en_GetID e)).

(** What an update is sealed as: the transition the domain requested, taken off
    the entity, or a plain update. *)
Definition sealMode : EM EntityMode :=
  e <- gget;;
  let '(requested, b) := takeRequestedMode (en_base e) in
  gmodify (en_onBase (fun _ => b));;;
  if bool_decide (requested = ModeUnknown) then gret ModeUpdate
  else if modeAllowed requested e then gret requested
  else gpanic "domain.CompleteAsArchive: the entity does not declare the mode in Modes()".

(** [apply] is [None] for a nil function. *)
Definition getUpdatable (apply : option (CmdBody V S D)) (partial : bool) : EM Updatable :=
  gmodify ensureInit;;;
  gmodify captureOldIfAbsent;;;
  match apply with Some body => runCmds body | None => gret tt end;;;
  resetFor;;;
  validateForUpdate actionName;;;
  entityMode <- sealMode;;
  i <- derefID;;
  e <- gget;; gret (mkUpdatable (buildMetadata actionName now e) i partial entityMode).

Definition getDeletable : EM Deletable :=
  gmodify ensureInit;;;
  gmodify captureOldIfAbsent;;;
  resetFor;;;
  validateForDelete actionName;;;
  i <- derefID;;
  e <- gget;; gret (mkDeletable (buildMetadata actionName now e) i).

Definition getArchivable : EM Archivable :=
  gmodify ensureInit;;;
  gmodify captureOldIfAbsent;;;
  resetFor;;;
  validateForArchive actionName;;;
  i <- derefID;;
  e <- gget;; gret (mkArchivable (buildMetadata actionName now e) i).

Definition getUnarchivable : EM Unarchivable :=
  gmodify ensureInit;;;
  gmodify captureOldIfAbsent;;;
  resetFor;;;
  validateForUnarchive actionName;;;
  i <- derefID;;
  e <- gget;; gret (mkUnarchivable (buildMetadata actionName now e) i).

(** An error a caller discards; a panic goes on. *)
Definition ignoreError (c : EM unit) : EM unit :=
  fun e => match c e with (e', Fail _) => (e', Ret tt) | x => x end.

End WithService.

(** [IsValid]: a fresh check, from a cleared context. *)
Definition IsValid (mode : EntityMode) (service : option S) : EM (bool * list NotificationContext) :=
  gmodify ensureInit;;;
  gmodify (en_onContext Clear);;;
  resetFor service;;;
  ignoreError
    match mode with
    | ModeInsert => validateForInsert "isValid"
    | ModeUpdate => validateForUpdate "isValid"
    | ModeDelete => validateForDelete "isValid"
    | ModeArchive => validateForArchive "isValid"
    | ModeUnarchive => validateForUnarchive "isValid"
    | ModeUnknown | ModeDisplay => gret tt
    end;;;
  contexts <- collectContexts;;
  gret (bool_decide (contexts = []), contexts).

End Verbs.
