(* ===== verification/EntityProps.v ===== *)
(** * Lemmas on the validation pass

    Two relations between the states before and after a piece of the pass carry
    the theorems: [grows], no notification is taken back, and [sameCore], only
    the notification context was touched. *)

From S2P Require Import Prelude Naming FieldMeta Notification Errors BaseEntity Aggregate AggregateProps AggregateRootProps Rules Entity.
From stdpp Require Import base gmap strings list fin_maps.
From Stdlib Require Import Ascii ZArith Lia.

Open Scope string_scope.
Open Scope list_scope.

Section Props.
Context {V S D : Type} `{AVOLaws V} (d : EntityDef V S D).

Implicit Types (e : EntityState V S D).

(** The notifications of the entity's own context. *)
Definition enNotifs e : list Notification := notifs (en_context e).

Definition grows e e' : Prop := ctxGrows (en_context e) (en_context e').

#[export] Instance grows_preorder : PreOrder grows.
Proof. split; [intros e; unfold grows; reflexivity|]. intros e1 e2 e3; unfold grows; by etrans. Qed.

Record sameCore e e' : Prop := mkSameCore {
  sc_data : en_data e' = en_data e;
  sc_managed : be_managed (en_base e') = be_managed (en_base e);
  sc_service : be_service (en_base e') = be_service (en_base e);
  sc_old : be_old (en_base e') = be_old (en_base e);
  sc_requested : be_requestedMode (en_base e') = be_requestedMode (en_base e);
  sc_window : be_rulesWindow (en_base e') = be_rulesWindow (en_base e);
  sc_events : be_events (en_base e') = be_events (en_base e);
  sc_contexts : be_contexts (en_base e') = be_contexts (en_base e);
  sc_aggregates : ar_aggregates (en_ar e') = ar_aggregates (en_ar e)
}.

#[export] Instance sameCore_preorder : PreOrder sameCore.
Proof.
  split; [by intros e|]. intros e1 e2 e3 H1 H2. destruct H1, H2. split; by etrans.
Qed.

Lemma en_context_onContext f e : en_context (en_onContext f e) = f (en_context e).
Proof. unfold en_context, en_onContext, en_base, en_onBase, en_onAr, ar_onBase. simpl. apply contextOf_onContext. Qed.

Lemma onContext_sameCore f e : sameCore e (en_onContext f e).
Proof.
  unfold en_onContext, en_onBase, en_onAr, ar_onBase. split; simpl; try done;
    unfold onContext, ensureContext; destruct (be_notifCtx (ar_base (en_ar e))) eqn:E; by unfold en_base; simpl.
Qed.

Lemma onContext_grows f e : (forall c, ctxGrows c (f c)) -> grows e (en_onContext f e).
Proof. intros Hf. unfold grows. rewrite en_context_onContext. apply Hf. Qed.

(** *** What domain code can and cannot do to its entity *)

(** It takes no notification back; the service, the snapshot and the window are
    out of its reach; and the requested mode only ever becomes [ModeArchive]. *)
Record keptB (b b' : BaseEntity V S (OldState V D)) : Prop := mkKeptB {
  kp_notifs : ctxGrows (contextOf b) (contextOf b');
  kp_service : be_service b' = be_service b;
  kp_old : be_old b' = be_old b;
  kp_window : be_rulesWindow b' = be_rulesWindow b;
  kp_requested : be_requestedMode b' = be_requestedMode b \/ be_requestedMode b' = ModeArchive
}.

#[export] Instance keptB_preorder : PreOrder keptB.
Proof.
  split; [intros b; split; auto; reflexivity|]. intros b1 b2 b3 [] []. split; try congruence.
  - by etrans.
  - naive_solver congruence.
Qed.

Definition kept e e' : Prop := keptB (en_base e) (en_base e').

#[export] Instance kept_preorder : PreOrder kept.
Proof. split; [intros e; unfold kept; reflexivity|]. intros e1 e2 e3; unfold kept; by etrans. Qed.

Lemma onContext_keptB f b : (forall c, ctxGrows c (f c)) -> keptB b (onContext f b).
Proof.
  intros Hf. split; [rewrite contextOf_onContext; apply Hf|..];
    unfold onContext, ensureContext; destruct (be_notifCtx b) eqn:E; simpl; auto.
Qed.

Lemma notify_keptB m b : keptB b (be_AddNotificationMessage m b).
Proof. apply onContext_keptB. auto with omnicore. Qed.

Lemma resolvePendingLabels_notifs c : notifs (resolvePendingLabels c) = notifs c.
Proof.
  unfold resolvePendingLabels, notifs. destruct (nc_entityType c) as [t|]; simpl; [|done].
  rewrite <- list_fmap_compose. apply list_fmap_ext. intros i m _. simpl. unfold resolvePending.
  destruct (m_Path m) as [|seg [|]]; try done. repeat case_match; done.
Qed.

Lemma initWithName_keptB name t b : keptB b (initWithName name t b).
Proof.
  split; [|unfold initWithName, ensureContext; destruct (be_notifCtx b) eqn:E; case_match; simpl; auto..].
  unfold initWithName. case_match; [by rewrite contextOf_ensure|].
  rewrite contextOf_setCtx. unfold ctxGrows. rewrite resolvePendingLabels_notifs. unfold notifs. simpl.
  by rewrite contextOf_ensure.
Qed.

Lemma add_keptB rn rt ch item (ar : AggregateRoot V S (OldState V D)) :
  keptB (ar_base ar) (ar_base (AddAggregateChild rn rt ch item ar)).
Proof.
  unfold AddAggregateChild. etrans; [apply (initWithName_keptB rn rt)|].
  destruct (negb _); [destruct item; apply notify_keptB|].
  destruct item as [v|]; [|apply notify_keptB]. unfold addAggregateItem. simpl.
  destruct (addScan _ _); [apply notify_keptB|reflexivity|reflexivity].
Qed.

Lemma change_keptB rn rt ch o r (ar : AggregateRoot V S (OldState V D)) :
  keptB (ar_base ar) (ar_base (ChangeAggregateChild rn rt ch o r ar)).
Proof.
  unfold ChangeAggregateChild. etrans; [apply (initWithName_keptB rn rt)|].
  destruct (negb _); [destruct o; apply notify_keptB|].
  destruct (negb _); [destruct r; apply notify_keptB|].
  destruct o as [o|]; [|apply notify_keptB]. destruct r as [r|]; [|apply notify_keptB].
  unfold changeAggregateItem. simpl.
  destruct (changeScan _ _ _ _ _ _) as [[t|] [c|]]; try apply notify_keptB; reflexivity.
Qed.

Lemma remove_keptB rn rt ch item (ar : AggregateRoot V S (OldState V D)) :
  keptB (ar_base ar) (ar_base (RemoveAggregateChild rn rt ch item ar)).
Proof.
  unfold RemoveAggregateChild. etrans; [apply (initWithName_keptB rn rt)|].
  destruct (negb _); [destruct item; apply notify_keptB|].
  destruct item as [v|]; [|apply notify_keptB]. unfold removeAggregateItem.
  destruct (update_first _ _ _); [reflexivity|apply notify_keptB].
Qed.

Lemma replace_keptB rn rt ch t items (ar : AggregateRoot V S (OldState V D)) :
  keptB (ar_base ar) (ar_base (ReplaceAggregateChildrenOf rn rt ch t items ar)).
Proof.
  unfold ReplaceAggregateChildrenOf. etrans; [apply (initWithName_keptB rn rt)|].
  assert (Hc : forall a : AggregateRoot V S (OldState V D), ar_base (ClearAggregateItemsOfType t a) = ar_base a)
    by (intros a; unfold ClearAggregateItemsOfType; by destruct (ar_aggregates a)).
  change (initWithName rn rt (ar_base ar)) with (ar_base (ensureRootInit rn rt ar)). rewrite <- Hc.
  generalize (ClearAggregateItemsOfType t (ensureRootInit rn rt ar)) as a.
  induction items as [|it items IH]; intros a; simpl; [reflexivity|]. etrans; [apply add_keptB|apply IH].
Qed.

Lemma ChangeFieldName_grows o n c : ctxGrows c (ChangeFieldName o n c).
Proof.
  unfold ctxGrows, notifs, ChangeFieldName. simpl. rewrite <- list_fmap_compose.
  erewrite (list_fmap_ext (m_Notification ∘ _)); [reflexivity|]. intros i m _. simpl. by case_match.
Qed.

Lemma execCmd_kept c e e' : execCmd d c e = Some e' -> kept e e'.
Proof.
  unfold kept. destruct c; simpl; intros Hc; simplify_eq; try (split; simpl; auto; reflexivity).
  - apply notify_keptB.
  - apply onContext_keptB. auto with omnicore.
  - apply onContext_keptB. apply ChangeFieldName_grows.
  - unfold CompleteAsArchive in Hc. case_match; simplify_eq/=. split; simpl; auto; reflexivity.
  - apply add_keptB.
  - apply change_keptB.
  - apply remove_keptB.
  - apply replace_keptB.
Qed.

#[export] Instance entityRuleHostLaws : RuleHostLaws (EntityState V S D) (EntityCmd V D) (H := entityRuleHost d).
Proof. split; [apply en_context_onContext|]. intros c e e' Hc. by apply execCmd_kept in Hc as []. Qed.

#[export] Instance childRuleHostLaws : RuleHostLaws (NotificationContext * V) (V -> V).
Proof. split; [done|]. intros c s s' [= <-]. reflexivity. Qed.

(** *** Children and automatic validations *)

Lemma validateChild_grows mode a svc scoped v : gmono ctxGrows (validateChild d mode a svc scoped v).
Proof.
  intros c. unfold validateChild. destruct (ed_childRules d v a svc) as [body|]; [|reflexivity].
  destruct (buildRules _ body false (c, v)) as [s [m|]] eqn:E; apply buildRules_spec in E as [Hc _];
    simpl in *; [done|].
  destruct (rs_halted s); [done|].
  destruct (validateValueObjectFields _ _ _ _ _) as [c'|] eqn:Ev; [|done].
  apply validateValueObjectFields_grows in Ev. simpl. by etrans.
Qed.

Lemma validateItems_grows mode a svc coll idx items : gmono ctxGrows (validateItems d mode a svc coll idx items).
Proof.
  revert idx. induction items as [|it items IH]; intros idx; simpl; [apply gmono_ret, _|].
  case_match; [apply IH|]. apply gmono_bind; [apply _|apply validateChild_grows|].
  intros []; [apply gmono_ret, _|apply IH].
Qed.

Lemma validateTypes_grows mode a svc types : gmono ctxGrows (validateTypes d mode a svc types).
Proof.
  induction types as [|[t items] types IH]; simpl; [apply gmono_ret, _|].
  destruct items as [|first items]; [done|]. apply gmono_bind; [apply _|apply validateItems_grows|].
  intros []; [apply gmono_ret, _|done].
Qed.

Lemma validateExtra_grows mode a svc mapped entries : gmono ctxGrows (validateExtra d mode a svc mapped entries).
Proof.
  induction entries as [|[n v] entries IH]; simpl; [apply gmono_ret, _|]. case_match; [done|].
  apply gmono_bind; [apply _|apply validateChild_grows|]. intros []; [apply gmono_ret, _|done].
Qed.

Lemma runAggregateValidations_grows mode a e : gmono ctxGrows (runAggregateValidations d mode a e).
Proof.
  unfold runAggregateValidations. apply gmono_bind; [apply _|apply validateTypes_grows|].
  intros []; [apply gmono_ret, _|apply validateExtra_grows].
Qed.

(** Both relations at once: what the framework's own steps are. *)
Definition framed e e' : Prop := grows e e' /\ sameCore e e'.

#[export] Instance framed_preorder : PreOrder framed.
Proof.
  split; [intros e; split; reflexivity|]. intros e1 e2 e3 [] []. split; by etrans.
Qed.

Lemma inContext_framed {A} (c : GoM NotificationContext GetError A) :
  gmono ctxGrows c -> gmono framed (inContext (V := V) (S := S) (D := D) c).
Proof.
  intros Hc e. unfold inContext. specialize (Hc (en_context e)).
  destruct (c (en_context e)) as [c' r]. simpl in *. split; [|apply onContext_sameCore].
  unfold grows. by rewrite en_context_onContext.
Qed.

Lemma runAutomaticValidations_framed mode a rules : gmono framed (runAutomaticValidations d mode a rules).
Proof.
  destruct rules as [[halted ignored] forced]. simpl. destruct halted; [apply gmono_ret, _|].
  apply gmono_bind; [apply _|apply gmono_get, _|]. intros e. apply gmono_bind; [apply _| |].
  - apply inContext_framed. intros c.
    destruct (validateValueObjectFields _ _ _ _ c) eqn:Ev; [|reflexivity].
    by apply validateValueObjectFields_grows in Ev.
  - intros _. apply gmono_bind; [apply _|apply inContext_framed, runAggregateValidations_grows|].
    intros _. apply gmono_ret, _.
Qed.

Lemma notify_framed m : gmono framed (notify (V := V) (S := S) (D := D) m).
Proof.
  apply gmono_modify. intros e. split; [|apply onContext_sameCore]. apply onContext_grows.
  auto with omnicore.
Qed.

Lemma modeGate_framed mode token verb a n : gmono framed (modeGate d mode token verb a n).
Proof.
  apply gmono_bind; [apply _|apply gmono_get, _|]. intros e. case_match; [apply gmono_ret, _|apply notify_framed].
Qed.

Lemma noIDGate_framed a : gmono framed (noIDGate (V := V) (S := S) (D := D) a).
Proof.
  apply gmono_bind; [apply _|apply gmono_get, _|]. intros e. case_match; [apply notify_framed|apply gmono_ret, _].
Qed.

Lemma idGate_framed verb a n : gmono framed (idGate d verb a n).
Proof.
  apply gmono_bind; [apply _|apply gmono_get, _|]. intros e. case_match; [|apply notify_framed].
  apply gmono_modify. intros e'. split; [|apply onContext_sameCore]. apply onContext_grows.
  intros c. unfold id_IsValid. case_match; cbn [snd]; [|reflexivity]. auto with omnicore.
Qed.

(** *** Aliases and the closing check *)

Lemma applyGoFieldAlias_notifs g w c : notifs (applyGoFieldAlias g w c) = notifs c.
Proof. unfold notifs, applyGoFieldAlias. simpl. by rewrite <- list_fmap_compose. Qed.

Lemma applyFieldAliases_notifs e : enNotifs (applyFieldAliases e) = enNotifs e.
Proof.
  unfold applyFieldAliases. case_decide; [done|]. unfold enNotifs. rewrite en_context_onContext.
  apply (map_fold_weak_ind (fun c _ => notifs c = notifs (en_context e))); [done|].
  intros g w m c _ IH. by rewrite applyGoFieldAlias_notifs.
Qed.

Lemma applyFieldAliases_framed e : framed e (applyFieldAliases e).
Proof.
  split.
  - unfold grows, ctxGrows. change (enNotifs e `prefix_of` enNotifs (applyFieldAliases e)).
    by rewrite applyFieldAliases_notifs.
  - unfold applyFieldAliases. case_decide; [reflexivity|apply onContext_sameCore].
Qed.

Lemma checkAllNotifications_framed : gmono framed (checkAllNotifications (V := V) (S := S) (D := D)).
Proof.
  apply gmono_bind; [apply _| |intros []; [apply gmono_ret, _|apply gmono_fail, _]].
  apply gmono_bind; [apply _| |intros []; apply gmono_bind; [apply _|apply gmono_get, _|intros; apply gmono_ret, _]].
  apply gmono_modify. intros e. apply applyFieldAliases_framed.
Qed.

Lemma contextsOf_nil e :
  contextsOf e = [] <-> enNotifs e = [] /\ Forall (fun c => HasErrors c = false) (be_contexts (en_base e)).
Proof.
  unfold contextsOf, enNotifs. rewrite app_nil. assert (Hh : forall c, HasErrors c = false <-> notifs c = []).
  { intros c. unfold HasErrors, notifs. by destruct (nc_messages c). }
  split; intros [H1 H2]; split.
  - apply Hh. by destruct (HasErrors (en_context e)).
  - induction (be_contexts (en_base e)) as [|c cs IH]; [done|]. rewrite filter_cons in H2.
    case_decide as E; [done|]. constructor; [by destruct (HasErrors c)|auto].
  - apply Hh in H1. by rewrite H1.
  - induction H2 as [|c cs Hc _ IH]; [done|]. by rewrite filter_cons_False by congruence.
Qed.

(** The closing check passes exactly on an entity without a notification, on its
    own context and on the ones it was handed. *)
Lemma checkAllNotifications_Ret e e' :
  checkAllNotifications e = (e', Ret tt) ->
  framed e e' /\ enNotifs e' = [] /\ Forall (fun c => HasErrors c = false) (be_contexts (en_base e')).
Proof.
  intros Hc. pose proof (checkAllNotifications_framed e) as Hf. rewrite Hc in Hf. simpl in Hf.
  split; [done|]. unfold checkAllNotifications, collectContexts, gbind, gmodify, gget, gret, gfail in Hc.
  apply contextsOf_nil. by destruct (contextsOf (applyFieldAliases e)) eqn:E; simplify_eq.
Qed.

(** Notifications in place before a check survive into its error. *)
Lemma grows_nil e e' : grows e e' -> enNotifs e' = [] -> enNotifs e = [].
Proof. apply ctxGrows_errors. Qed.

Lemma checkService_framed a : gmono framed (checkService d a).
Proof.
  apply gmono_bind; [apply _|apply gmono_get, _|]. intros e. case_match; [apply gmono_ret, _|].
  case_match; [|apply gmono_ret, _].
  apply gmono_bind; [apply _|apply notify_framed|intros; apply checkAllNotifications_framed].
Qed.

Lemma notify_notifs m e : enNotifs ((notify m e).1) = enNotifs e ++ [m_Notification m].
Proof. unfold enNotifs, notify, gmodify. cbn [fst]. by rewrite en_context_onContext, AddNotificationMessage_notifs. Qed.

Lemma checkService_Ret a e e' :
  checkService d a e = (e', Ret tt) ->
  framed e e' /\ (ed_RequiresService d = true -> be_service (en_base e) <> None).
Proof.
  intros Hc. pose proof (checkService_framed a e) as Hf. rewrite Hc in Hf. split; [done|].
  intros Hreq Hnone. unfold checkService in Hc. apply gbind_Ret in Hc as (e0 & e1 & He & Hc). unfold gget in He. injection He as <- <-.
  rewrite Hnone, Hreq in Hc. apply gbind_Ret in Hc as ([] & e2 & Hn & Hc).
  pose proof (notify_notifs (setFuncName a (message [NameSegment "service"] ServiceIsRequiredNotification)) e) as Hm.
  rewrite Hn in Hm. simpl in Hm.
  apply checkAllNotifications_Ret in Hc as ([Hg _] & Hnil & _).
  apply (grows_nil _ _ Hg) in Hnil. rewrite Hnil in Hm. by destruct (enNotifs e).
Qed.

(** The window is open for the body only. *)
Lemma buildRulesInWindow_spec mode a e e' r :
  buildRulesInWindow d mode a e = (e', r) ->
  grows e e' /\ be_rulesWindow (en_base e') = false /\
  be_service (en_base e') = be_service (en_base e) /\ be_old (en_base e') = be_old (en_base e) /\
  (be_requestedMode (en_base e') = be_requestedMode (en_base e) \/ be_requestedMode (en_base e') = ModeArchive) /\
  (forall i f, r = Ret (true, i, f) -> enNotifs e' <> []).
Proof.
  unfold buildRulesInWindow, gbind, gmodify, gdefer.
  set (eo := en_onBase openRulesWindow e).
  destruct (buildRules _ _ false eo) as [s p] eqn:E.
  assert (Hk : kept eo (rs_host s)).
  { eapply (buildRules_rel kept); [| |exact E].
    - intros cr m h. apply onContext_keptB. auto with omnicore.
    - intros c h h'. apply execCmd_kept. }
  apply (buildRules_spec (St := EntityState V S D)) in E as [_ Hh]. destruct Hk as [Hn Hs Ho _ Hr].
  intros Heq. assert (e' = en_onBase closeRulesWindow (rs_host s)) as -> by (by destruct p; simplify_eq).
  split; [done|]. split; [done|]. split; [done|]. split; [done|]. split; [done|].
  intros i f ->. destruct p as [m|]; simplify_eq. change (enNotifs (rs_host s) <> []).
  apply HasErrors_notifs, Hh. done.
Qed.

(** Rules and automatic validations return or panic; they have no error result. *)
Definition noError {St A} (c : GoM St GetError A) : Prop := forall s s' err, c s <> (s', Fail err).

Lemma noError_bind {St A B} (c : GoM St GetError A) (k : A -> GoM St GetError B) :
  noError c -> (forall a, noError (k a)) -> noError (gbind c k).
Proof.
  intros Hc Hk s s' err. unfold gbind. destruct (c s) as [s1 [a|e|m]] eqn:E; [apply Hk| |done].
  by apply Hc in E.
Qed.

Lemma buildRulesInWindow_no_error mode a e e' err : buildRulesInWindow d mode a e = (e', Fail err) -> False.
Proof.
  unfold buildRulesInWindow, gbind, gmodify, gdefer. by destruct (buildRules _ _ false _) as [s [m|]].
Qed.

Lemma validateChild_noError mode a svc scoped v : noError (validateChild d mode a svc scoped v).
Proof. intros c c' err. unfold validateChild. repeat (case_match; try done). Qed.

Lemma validateItems_noError mode a svc coll idx items : noError (validateItems d mode a svc coll idx items).
Proof.
  revert idx. induction items as [|it items IH]; intros idx; simpl; [done|]. case_match; [apply IH|].
  apply noError_bind; [apply validateChild_noError|]. intros []; [done|apply IH].
Qed.

Lemma validateTypes_noError mode a svc types : noError (validateTypes d mode a svc types).
Proof.
  induction types as [|[t items] types IH]; simpl; [done|]. destruct items; [done|].
  apply noError_bind; [apply validateItems_noError|]. by intros [].
Qed.

Lemma validateExtra_noError mode a svc mapped entries : noError (validateExtra d mode a svc mapped entries).
Proof.
  induction entries as [|[n v] entries IH]; simpl; [done|]. case_match; [done|].
  apply noError_bind; [apply validateChild_noError|]. by intros [].
Qed.

Lemma inContext_noError {A} (c : GoM NotificationContext GetError A) :
  noError c -> noError (inContext (V := V) (S := S) (D := D) c).
Proof.
  intros Hc e e' err. unfold inContext. destruct (c (en_context e)) as [c' r] eqn:E. intros [= _ ->]. by apply Hc in E.
Qed.

Lemma runAutomaticValidations_no_error mode a rules e e' err :
  runAutomaticValidations d mode a rules e = (e', Fail err) -> False.
Proof.
  cut (noError (runAutomaticValidations d mode a rules)); [intros Hn Hc; by apply Hn in Hc|].
  destruct rules as [[[] i] f]; simpl; [done|]. apply noError_bind; [done|]. intros e0.
  apply noError_bind; [apply inContext_noError; intros c c' er; by case_match|]. intros _.
  apply noError_bind; [|done]. apply inContext_noError. unfold runAggregateValidations.
  apply noError_bind; [apply validateTypes_noError|]. intros []; [done|apply validateExtra_noError].
Qed.

(** *** The frame *)

Record frameFacts (mode : EntityMode) (a : string) (gates : GoM (EntityState V S D) GetError unit) e e' : Prop := {
  ff_before : enNotifs e = [];
  ff_after : enNotifs e' = [];
  ff_contexts : Forall (fun c => HasErrors c = false) (be_contexts (en_base e'));
  ff_service : be_service (en_base e') = be_service (en_base e);
  ff_required : ed_RequiresService d = true -> be_service (en_base e) <> None;
  ff_old : be_old (en_base e') = be_old (en_base e);
  ff_window : be_rulesWindow (en_base e') = false;
  ff_requested : be_requestedMode (en_base e') = be_requestedMode (en_base e) \/
                 be_requestedMode (en_base e') = ModeArchive;
  ff_gates : exists e1 e2, gates e1 = (e2, Ret tt) /\ enNotifs e1 = [] /\ enNotifs e2 = [] /\
               sameCore e1 e' /\
               exists e0 i f, buildRulesInWindow d mode a e0 = (e1, Ret (false, i, f))
}.

(** What a pass that lets the write through has checked. *)
Lemma validateFrame_Ret mode a gates e e' :
  gmono framed gates -> validateFrame d mode a gates e = (e', Ret tt) -> frameFacts mode a gates e e'.
Proof.
  intros Hgates Hv. unfold validateFrame in Hv.
  apply gbind_Ret in Hv as ([] & ea & Hm & Hv). unfold gmodify in Hm. simplify_eq.
  apply gbind_Ret in Hv as ([] & eb & Hs & Hv). apply checkService_Ret in Hs as [[Hg1 Hc1] Hreq].
  apply gbind_Ret in Hv as ([[halted i] f] & ec & Hb & Hv).
  pose proof (buildRulesInWindow_spec _ _ _ _ _ Hb) as (Hg2 & Hw & Hsv & Hold & Hrq & Hhalt).
  apply gbind_Ret in Hv as ([] & ed & Hgt & Hv). pose proof (Hgates ec) as [Hg3 Hc3]. rewrite Hgt in Hg3, Hc3.
  apply gbind_Ret in Hv as ([] & ef & Ha & Hv).
  pose proof (runAutomaticValidations_framed mode a (halted, i, f) ed) as [Hg4 Hc4]. rewrite Ha in Hg4, Hc4.
  apply checkAllNotifications_Ret in Hv as ([Hg5 Hc5] & Hnil & Hctx). simpl in *.
  assert (Hnc : enNotifs ec = []) by (eapply grows_nil; [|exact Hnil]; etrans; [exact Hg3|]; by etrans).
  assert (Hcore : sameCore ec e') by (etrans; [exact Hc3|]; by etrans).
  destruct Hcore, Hc1. constructor; try done.
  - apply (grows_nil _ ec); [|done]. unfold grows in *. etrans; [|exact Hg2]. exact Hg1.
  - rewrite sc_service0, Hsv. exact sc_service1.
  - rewrite sc_old0, Hold. exact sc_old1.
  - rewrite sc_window0. exact Hw.
  - rewrite sc_requested0. destruct Hrq as [->| ->]; [left|by right]. exact sc_requested1.
  - exists ec, ed. split; [done|]. split; [done|]. split.
    { eapply grows_nil; [|exact Hnil]. by etrans. }
    split; [etrans; [exact Hc3|]; by etrans|]. destruct halted; [by destruct (Hhalt i f)|]. eauto.
Qed.

(** The gates passed. *)
Lemma modeGate_Ret mode token verb a n e e' :
  modeGate d mode token verb a n e = (e', Ret tt) -> enNotifs e' = [] -> modeAllowed d mode e = true /\ e' = e.
Proof.
  intros Hg Hn. unfold modeGate in Hg. apply gbind_Ret in Hg as (e0 & e1 & He & Hg). unfold gget in He. injection He as <- <-.
  destruct (modeAllowed d mode e) eqn:E; [by unfold gret in Hg; simplify_eq|].
  pose proof (notify_notifs (setFuncName (verb +:+ "." +:+ a +:+ "()") (message [NameSegment token] n)) e) as Hm.
  rewrite Hg in Hm. simpl in Hm. rewrite Hn in Hm. by destruct (enNotifs e).
Qed.

Lemma noIDGate_Ret a e e' :
  noIDGate a e = (e', Ret tt) -> enNotifs e' = [] -> en_GetID e = None.
Proof.
  intros Hg Hn. unfold noIDGate in Hg. apply gbind_Ret in Hg as (e0 & e1 & He & Hg). unfold gget in He. injection He as <- <-.
  destruct (en_GetID e) as [i|] eqn:E; [|done].
  match type of Hg with notify ?m _ = _ => pose proof (notify_notifs m e) as Hm end.
  rewrite Hg in Hm. simpl in Hm. rewrite Hn in Hm. by destruct (enNotifs e).
Qed.

Lemma idGate_Ret verb a n e e' :
  idGate d verb a n e = (e', Ret tt) -> enNotifs e' = [] ->
  exists i, en_GetID e = Some i /\ ed_parse d (id_value i) = None.
Proof.
  intros Hg Hn. unfold idGate in Hg. apply gbind_Ret in Hg as (e0 & e1 & He & Hg). unfold gget in He. injection He as <- <-.
  destruct (en_GetID e) as [i|] eqn:E.
  - exists i. split; [done|]. unfold gmodify in Hg. simplify_eq. revert Hn.
    unfold enNotifs. rewrite en_context_onContext. unfold id_IsValid.
    destruct (ed_parse d (id_value i)); [|done]. cbn [snd]. rewrite AddNotificationMessage_notifs.
    by destruct (notifs _).
  - match type of Hg with notify ?m _ = _ => pose proof (notify_notifs m e) as Hm end.
    rewrite Hg in Hm. simpl in Hm. rewrite Hn in Hm. by destruct (enNotifs e).
Qed.

(** *** The way into a pass *)

Lemma ensureInit_kept e : kept e (ensureInit d e).
Proof. apply initWithName_keptB. Qed.

Lemma captureOldIfAbsent_context e : en_context (captureOldIfAbsent d e) = en_context e.
Proof. unfold captureOldIfAbsent, captureOld. by repeat case_match. Qed.

(** The entity as its rules see it first. *)
Definition atFrame (svc : option S) e : EntityState V S D :=
  en_onBase (setService svc) (en_onBase resetEntity (ensureInit d e)).

Lemma atFrame_notifs svc e : enNotifs e `prefix_of` enNotifs (atFrame svc e).
Proof. apply ensureInit_kept. Qed.

Lemma atFrame_nil svc e : enNotifs (atFrame svc e) = [] -> enNotifs e = [].
Proof. apply (ctxGrows_errors (en_context e)), atFrame_notifs. Qed.

Lemma runCmds_kept b : gmono kept (runCmds d b).
Proof.
  induction b as [[m|]|m|k IH|c b IH]; simpl.
  - apply gmono_fail, _.
  - apply gmono_ret, _.
  - apply gmono_panic, _.
  - apply gmono_bind; [apply _|apply gmono_get, _|done].
  - intros e. unfold gbind, gget. destruct (execCmd d c e) as [e'|] eqn:E; [|simpl; reflexivity].
    apply execCmd_kept in E. etrans; [exact E|]. exact (IH e').
Qed.

(** *** Closing check and gates when something was reported *)

Lemma checkAllNotifications_some e :
  enNotifs e <> [] ->
  exists e' ctxs c, checkAllNotifications e = (e', Fail (DomainError ctxs)) /\ c ∈ ctxs /\ notifs c = enNotifs e.
Proof.
  intros Hn. unfold checkAllNotifications, collectContexts, gbind, gmodify, gget, gret, gfail.
  set (e1 := applyFieldAliases e).
  assert (H1 : enNotifs e1 = enNotifs e) by apply applyFieldAliases_notifs.
  assert (Hh : HasErrors (en_context e1) = true).
  { apply HasErrors_notifs. change (enNotifs e1 <> []). by rewrite H1. }
  unfold contextsOf. rewrite Hh. simpl. do 3 eexists. split; [reflexivity|]. split; [apply list_elem_of_here|]. exact H1.
Qed.

(** Gates never stop the pass. *)
Lemma modeGate_total mode token verb a n e : exists e', modeGate d mode token verb a n e = (e', Ret tt).
Proof. unfold modeGate, gbind, gget. destruct (modeAllowed d mode e); eexists; reflexivity. Qed.

Lemma noIDGate_total a e : exists e', noIDGate a e = (e' : EntityState V S D, Ret tt).
Proof. unfold noIDGate, gbind, gget. destruct (en_GetID e); eexists; reflexivity. Qed.

Lemma idGate_total verb a n e : exists e', idGate d verb a n e = (e', Ret tt).
Proof. unfold idGate, gbind, gget. destruct (en_GetID e); eexists; reflexivity. Qed.

Lemma gates_total {A} (g1 g2 : GoM (EntityState V S D) GetError A) (a : A) :
  (forall e, exists e', g1 e = (e', Ret a)) -> (forall e, exists e', g2 e = (e', Ret a)) ->
  forall e, exists e', (gbind g1 (fun _ => g2)) e = (e', Ret a).
Proof. intros H1 H2 e. unfold gbind. destruct (H1 e) as [e1 ->]. destruct (H2 e1) as [e2 ->]. eauto. Qed.

(** An outcome other than success, reporting [ns] in front. *)
Definition reports (ns : list Notification) {A} (r : Outcome GetError A) : Prop :=
  (exists m, r = Panic m) \/
  exists ctxs c, r = Fail (DomainError ctxs) /\ c ∈ ctxs /\ ns `prefix_of` notifs c.

(** The service check goes on with the entity as it is, or ends the pass. *)
Lemma checkService_cases a e :
  checkService d a e = (e, Ret tt) \/
  ((ed_RequiresService d = true /\ be_service (en_base e) = None) /\
   exists e1, grows e e1 /\ enNotifs e1 <> [] /\ checkService d a e = checkAllNotifications e1).
Proof.
  unfold checkService, gbind, gget. destruct (be_service (en_base e)) eqn:Es; [by left|].
  destruct (ed_RequiresService d) eqn:Er; [|by left]. right. split; [done|].
  match goal with |- context [notify ?m e] =>
    pose proof (notify_framed m e) as [Hg _]; pose proof (notify_notifs m e) as Hm;
    unfold notify, gmodify in *; simpl fst in *
  end.
  eexists. split; [exact Hg|]. split; [|reflexivity]. intros Hnil. rewrite Hnil in Hm. by destruct (enNotifs e).
Qed.

Lemma check_reports e x y (q : Outcome GetError unit) :
  enNotifs x <> [] -> grows e x -> checkAllNotifications x = (y, q) -> reports (enNotifs e) q.
Proof.
  intros Hn Hx Hc. right. destruct (checkAllNotifications_some x Hn) as (x' & ctxs & c & Hc' & Hin & Hc'').
  rewrite Hc in Hc'. simplify_eq. exists ctxs, c. by rewrite Hc''.
Qed.

(** A notification anywhere in the pass keeps the write from being sealed, and
    comes back to the caller. *)
Lemma validateFrame_reports mode a gates e r e' :
  gmono framed gates -> (forall e, exists e1, gates e = (e1, Ret tt)) ->
  validateFrame d mode a gates e = (e', r) -> enNotifs e <> [] -> reports (enNotifs e) r.
Proof.
  intros Hgates Htot Hv Hn. unfold validateFrame, gbind at 1, gmodify in Hv.
  set (e0 := en_onBase (setMode mode) e) in Hv. change (enNotifs e) with (enNotifs e0) in *.
  assert (Hne : forall x, grows e0 x -> enNotifs x <> []).
  { intros x Hx Hnil. by apply (grows_nil _ _ Hx) in Hnil. }
  unfold gbind at 1 in Hv.
  destruct (checkService_cases a e0) as [Hs|(_ & e1 & Hg1 & Hn1 & Hs)]; rewrite Hs in Hv; clear Hs.
  2:{ destruct (checkAllNotifications e1) as [y q] eqn:Ec.
      pose proof (check_reports e0 e1 y q Hn1 Hg1 Ec) as Hr.
      destruct Hr as [[m ->]|(ctxs & c & -> & Hc)]; simplify_eq; [left; eauto|right; eauto]. }
  unfold gbind at 1 in Hv. destruct (buildRulesInWindow d mode a e0) as [e2 [rules|err|m]] eqn:Eb;
    [|by apply buildRulesInWindow_no_error in Eb|simplify_eq; left; eauto].
  apply buildRulesInWindow_spec in Eb as (Hg2 & _).
  unfold gbind at 1 in Hv. destruct (Htot e2) as [e3 Hg]. pose proof (Hgates e2) as [Hg3 _]. rewrite Hg in Hv, Hg3.
  unfold gbind in Hv. pose proof (runAutomaticValidations_framed mode a rules e3) as [Hg4 _].
  destruct (runAutomaticValidations d mode a rules e3) as [e4 [[]|err|m]] eqn:Ea; simpl in *.
  - eapply check_reports; [|etrans; [exact Hg2|etrans; [exact Hg3|exact Hg4]]|exact Hv].
    apply Hne. etrans; [exact Hg2|]. by etrans.
  - by apply runAutomaticValidations_no_error in Ea.
  - simplify_eq. left. eauto.
Qed.

(** A gate that reports [n] on every entity: whatever the rules did, [n] comes
    back to the caller. *)
Lemma validateFrame_gate mode a gates n e r e' :
  gmono framed gates -> (forall x, exists y, gates x = (y, Ret tt) /\ n ∈ enNotifs y) ->
  (ed_RequiresService d = true -> be_service (en_base e) <> None) ->
  validateFrame d mode a gates e = (e', r) ->
  (exists m, r = Panic m) \/ exists ctxs c, r = Fail (DomainError ctxs) /\ c ∈ ctxs /\ n ∈ notifs c.
Proof.
  intros Hgates Htot Hsvc Hv. unfold validateFrame, gbind at 1, gmodify in Hv.
  set (e0 := en_onBase (setMode mode) e) in Hv. unfold gbind at 1 in Hv.
  destruct (checkService_cases a e0) as [Hs|([Hreq Hnone] & _)]; [|by apply Hsvc in Hreq].
  rewrite Hs in Hv. unfold gbind at 1 in Hv.
  destruct (buildRulesInWindow d mode a e0) as [e2 [rules|err|m]] eqn:Eb;
    [|by apply buildRulesInWindow_no_error in Eb|simplify_eq; left; eauto].
  unfold gbind at 1 in Hv. destruct (Htot e2) as (e3 & Hg & Hn). rewrite Hg in Hv.
  unfold gbind in Hv. pose proof (runAutomaticValidations_framed mode a rules e3) as [Hg4 _].
  destruct (runAutomaticValidations d mode a rules e3) as [e4 [[]|err|m]] eqn:Ea; simpl in *;
    [|by apply runAutomaticValidations_no_error in Ea|simplify_eq; left; eauto].
  destruct (check_reports e3 e4 e' r) as [?|(ctxs & c & -> & Hc & Hp)]; [|done|done|by left|].
  - intros Hnil. apply (grows_nil _ _ Hg4) in Hnil. rewrite Hnil in Hn. by apply not_elem_of_nil in Hn.
  - right. exists ctxs, c. repeat split; [done|]. destruct Hp as [k ->]. apply elem_of_app. by left.
Qed.

(** A mode gate for a mode the entity never declares. *)
Lemma modeGate_reports mode token verb a n e :
  (forall dt, mode ∉ ed_Modes d dt) ->
  exists e', modeGate d mode token verb a n e = (e', Ret tt) /\ n ∈ enNotifs e'.
Proof.
  intros Hm. unfold modeGate, gbind, gget.
  assert (Hf : modeAllowed d mode e = false).
  { unfold modeAllowed. apply not_true_is_false. intros (m & Hin & Hb)%existsb_exists.
    apply bool_decide_eq_true in Hb as ->. by apply (Hm (en_data e)), list_elem_of_In. }
  rewrite Hf. eexists. split; [reflexivity|].
  pose proof (notify_notifs (setFuncName (verb +:+ "." +:+ a +:+ "()") (message [NameSegment token] n)) e) as Hn.
  unfold notify, gmodify in Hn. cbn [fst] in Hn. rewrite Hn. set_solver.
Qed.

Lemma gates_report n (g1 g2 : GoM (EntityState V S D) GetError unit) :
  (forall e, exists e', g1 e = (e', Ret tt) /\ n ∈ enNotifs e') ->
  gmono framed g2 -> (forall e, exists e', g2 e = (e', Ret tt)) ->
  forall e, exists e', gbind g1 (fun _ => g2) e = (e', Ret tt) /\ n ∈ enNotifs e'.
Proof.
  intros H1 Hf H2 e. unfold gbind. destruct (H1 e) as (e1 & -> & Hn).
  pose proof (Hf e1) as [[k Hk] _]. destruct (H2 e1) as [e2 He2]. rewrite He2 in *. exists e2. split; [done|].
  unfold enNotifs in *. simpl in Hk. rewrite Hk. apply elem_of_app. by left.
Qed.

(** *** The window *)

Definition closes e e' : Prop := be_rulesWindow (en_base e) = false -> be_rulesWindow (en_base e') = false.

#[export] Instance closes_preorder : PreOrder closes.
Proof. split; [intros e; unfold closes; auto|]. intros e1 e2 e3. unfold closes. auto. Qed.

Lemma framed_closes {A} (c : GoM (EntityState V S D) GetError A) : gmono framed c -> gmono closes c.
Proof. intros Hc e Hw. destruct (Hc e) as [_ [ ]]. congruence. Qed.

Lemma kept_closes {A} (c : GoM (EntityState V S D) GetError A) : gmono kept c -> gmono closes c.
Proof. intros Hc e Hw. destruct (Hc e) as []. congruence. Qed.

Lemma modify_closes f :
  (forall e, be_rulesWindow (en_base (f e)) = be_rulesWindow (en_base e)) ->
  gmono (E := GetError) closes (gmodify f).
Proof. intros Hf e. unfold closes. simpl. by rewrite Hf. Qed.

Lemma buildRulesInWindow_closes mode a : gmono closes (buildRulesInWindow d mode a).
Proof.
  intros e _. destruct (buildRulesInWindow d mode a e) as [e' r] eqn:E.
  by apply buildRulesInWindow_spec in E as (_ & Hw & _).
Qed.

Lemma validateFrame_closes mode a gates : gmono framed gates -> gmono closes (validateFrame d mode a gates).
Proof.
  intros Hg. unfold validateFrame.
  apply gmono_bind; [apply _|by apply modify_closes|intros _].
  apply gmono_bind; [apply _|apply framed_closes, checkService_framed|intros _].
  apply gmono_bind; [apply _|apply buildRulesInWindow_closes|intros rules].
  apply gmono_bind; [apply _|by apply framed_closes|intros _].
  apply gmono_bind; [apply _|apply framed_closes, runAutomaticValidations_framed|intros _].
  apply framed_closes, checkAllNotifications_framed.
Qed.

Lemma gates_framed (g1 g2 : GoM (EntityState V S D) GetError unit) :
  gmono framed g1 -> gmono framed g2 -> gmono framed (gbind g1 (fun _ => g2)).
Proof. intros H1 H2. apply gmono_bind; [apply _|done|done]. Qed.

End Props.

#[export] Hint Resolve modeGate_framed noIDGate_framed idGate_framed gates_framed : omnicore.
#[export] Hint Resolve modeGate_total noIDGate_total idGate_total gates_total : omnicore.
