(* ===== verification/EntityClaims.v ===== *)
(** * What the verbs guarantee

    The theorems on [GetInsertable], [GetUpdatable], [GetDeletable],
    [GetArchivable] and [GetUnarchivable], for every concrete entity type and
    every body of rules. *)

From S2P Require Import Prelude Naming FieldMeta Notification Errors BaseEntity Aggregate AggregateProps AggregateRootProps AggregateClaims Rules Entity EntityProps.
From stdpp Require Import base gmap strings list fin_maps.
From Stdlib Require Import Ascii ZArith Lia.

Open Scope string_scope.
Open Scope list_scope.

(** The verbs as data, with the arguments each takes beside service and action. *)
Inductive Verb (V S D : Type) :=
| VInsert
| VUpdate (apply : option (CmdBody V S D)) (partial : bool)
| VDelete
| VArchive
| VUnarchive.

Arguments VInsert {V S D}.
Arguments VUpdate {V S D} apply partial.
Arguments VDelete {V S D}.
Arguments VArchive {V S D}.
Arguments VUnarchive {V S D}.

Section Claims.
Context {V S D : Type} `{AVOLaws V} (d : EntityDef V S D).
Context (svc : option S) (a : string) (now : Z).

Implicit Types (e : EntityState V S D).

Definition verbMode (v : Verb V S D) : EntityMode :=
  match v with
  | VInsert => ModeInsert
  | VUpdate _ _ => ModeUpdate
  | VDelete => ModeDelete
  | VArchive => ModeArchive
  | VUnarchive => ModeUnarchive
  end.

(** A verb run for its effect and its outcome, whatever it seals. *)
Definition runVerb (v : Verb V S D) : GoM (EntityState V S D) GetError unit :=
  let drop {A} (c : GoM (EntityState V S D) GetError A) := gbind c (fun _ => gret tt) in
  match v with
  | VInsert => drop (getInsertable d svc a now)
  | VUpdate ap p => drop (getUpdatable d svc a now ap p)
  | VDelete => drop (getDeletable d svc a now)
  | VArchive => drop (getArchivable d svc a now)
  | VUnarchive => drop (getUnarchivable d svc a now)
  end.

Definition notAllowed (v : Verb V S D) : Notification :=
  match v with
  | VInsert => InsertNotAllowedNotification
  | VUpdate _ _ => UpdateNotAllowedNotification
  | VDelete => DeleteNotAllowedNotification
  | VArchive => ArchiveNotAllowedNotification
  | VUnarchive => UnarchiveNotAllowedNotification
  end.

(** What the entity must look like for the verb's id rule. *)
Definition idRule (v : Verb V S D) e : Prop :=
  match v with
  | VInsert => en_GetID e = None
  | _ => exists i, en_GetID e = Some i /\ ed_parse d (id_value i) = None
  end.

(** ** Reaching the frame *)

(** The prologue of every verb: nothing that was reported is lost on the way. *)
Definition prologue (v : Verb V S D) : GoM (EntityState V S D) GetError unit :=
  gbind (gmodify (ensureInit d)) (fun _ =>
  match v with
  | VInsert => resetFor svc
  | VUpdate ap _ =>
      gbind (gmodify (captureOldIfAbsent d)) (fun _ =>
      gbind (match ap with Some body => runCmds d body | None => gret tt end) (fun _ => resetFor svc))
  | _ => gbind (gmodify (captureOldIfAbsent d)) (fun _ => resetFor svc)
  end).

Definition validateOf (v : Verb V S D) : GoM (EntityState V S D) GetError unit :=
  match v with
  | VInsert => validateForInsert d a
  | VUpdate _ _ => validateForUpdate d a
  | VDelete => validateForDelete d a
  | VArchive => validateForArchive d a
  | VUnarchive => validateForUnarchive d a
  end.

(** What a verb does after its validation. *)
Definition sealOf (v : Verb V S D) : GoM (EntityState V S D) GetError unit :=
  match v with
  | VInsert => gbind gget (fun _ => gret tt)
  | VUpdate _ _ => gbind (sealMode d) (fun _ => gbind derefID (fun _ => gbind gget (fun _ => gret tt)))
  | _ => gbind derefID (fun _ => gbind gget (fun _ => gret tt))
  end.

Lemma gbind_assoc {St E A B C} (c : GoM St E A) (k : A -> GoM St E B) (l : B -> GoM St E C) s :
  gbind (gbind c k) l s = gbind c (fun x => gbind (k x) l) s.
Proof. unfold gbind. by destruct (c s) as [s1 [x|e|m]]. Qed.

Lemma runVerb_eq v e :
  runVerb v e = gbind (prologue v) (fun _ => gbind (validateOf v) (fun _ => sealOf v)) e.
Proof.
  destruct v as [|ap p| | |]; unfold runVerb, prologue, validateOf, sealOf,
    getInsertable, getUpdatable, getDeletable, getArchivable, getUnarchivable, resetFor, gbind, gmodify, gget, gret.
  - by destruct (validateForInsert d a _) as [e1 [[]|?|?]].
  - set (c := match ap with Some body => runCmds d body | None => _ end).
    destruct (c _) as [e1 [[]|?|?]]; try done.
    destruct (validateForUpdate d a _) as [e2 [[]|?|?]]; try done.
    destruct (sealMode d e2) as [e3 [m|?|?]]; try done. by destruct (derefID e3) as [e4 [i|?|?]].
  - destruct (validateForDelete d a _) as [e1 [[]|?|?]]; try done. by destruct (derefID e1) as [e2 [i|?|?]].
  - destruct (validateForArchive d a _) as [e1 [[]|?|?]]; try done. by destruct (derefID e1) as [e2 [i|?|?]].
  - destruct (validateForUnarchive d a _) as [e1 [[]|?|?]]; try done. by destruct (derefID e1) as [e2 [i|?|?]].
Qed.

Lemma resetFor_grows : gmono grows (resetFor (V := V) (D := D) svc).
Proof.
  apply gmono_bind; [apply _| |intros _]; apply gmono_modify; intros e;
    change (ctxGrows (en_context e) (en_context e)); reflexivity.
Qed.

Lemma prologue_grows v : gmono grows (prologue v).
Proof.
  assert (Hcap : gmono (E := GetError) grows (gmodify (captureOldIfAbsent d))).
  { apply gmono_modify. intros e. unfold grows. by rewrite captureOldIfAbsent_context. }
  apply gmono_bind; [apply _|apply gmono_modify; intros e; apply ensureInit_kept|intros _].
  destruct v as [|ap p| | |]; [apply resetFor_grows|..];
    (apply gmono_bind; [apply _|done|intros _]); try apply resetFor_grows.
  apply gmono_bind; [apply _| |intros _; apply resetFor_grows].
  destruct ap as [body|]; [|apply gmono_ret, _]. intros e. apply (runCmds_kept d body e).
Qed.

Lemma prologue_Ret v e e' :
  prologue v e = (e', Ret tt) ->
  grows e e' /\ be_service (en_base e') = svc.
Proof.
  intros Hp. split; [pose proof (prologue_grows v e) as Hg; by rewrite Hp in Hg|].
  assert (Hr : forall e1, resetFor svc e1 = (e', Ret tt) -> be_service (en_base e') = svc)
    by (intros e1; unfold resetFor, gbind, gmodify; by intros [= <-]).
  unfold prologue in Hp. apply gbind_Ret in Hp as ([] & e1 & _ & Hp).
  destruct v as [|ap p| | |]; [by eapply Hr|..]; apply gbind_Ret in Hp as ([] & e2 & _ & Hp);
    try by eapply Hr. apply gbind_Ret in Hp as ([] & e3 & _ & Hp). by eapply Hr.
Qed.

(** The prologue fails only with the error its apply function returned. *)
Lemma prologue_not_Ret v e e' r :
  prologue v e = (e', r) -> r <> Ret tt -> (exists m, r = Panic m) \/ (exists m, r = Fail (ApplyError m)).
Proof.
  unfold prologue, resetFor, gbind, gmodify.
  destruct v as [|[body|] p| | |]; try (by intros [= <- <-]).
  set (x := captureOldIfAbsent d (ensureInit d e)). intros Hp Hr.
  assert (Hb : forall b y z q, runCmds d b y = (z, q) -> q <> Ret tt ->
             (exists m, q = Panic m) \/ (exists m, q = Fail (ApplyError m))).
  { clear. induction b as [[m|]|m|k IH|c b IH]; intros y z q; simpl.
    - intros [= <- <-] _. right. eauto.
    - by intros [= <- <-].
    - intros [= <- <-] _. left. eauto.
    - unfold gbind, gget. apply IH.
    - unfold gbind, gget. destruct (execCmd d c y); [apply IH|]. intros [= <- <-] _. left. eauto. }
  destruct (runCmds d body x) as [z [[]|err|m]] eqn:E; simplify_eq; eapply Hb; eauto.
Qed.

(** *** Validation, verb by verb *)

Definition gatesOf (v : Verb V S D) : GoM (EntityState V S D) GetError unit :=
  match v with
  | VInsert => gbind (modeGate d ModeInsert "insertable" "Insert" a InsertNotAllowedNotification) (fun _ => noIDGate a)
  | VUpdate _ _ =>
      gbind (modeGate d ModeUpdate "updatable" "Update" a UpdateNotAllowedNotification)
        (fun _ => idGate d "Update" a UnableToUpdateWithoutIDNotification)
  | VDelete =>
      gbind (modeGate d ModeDelete "deletable" "Delete" a DeleteNotAllowedNotification)
        (fun _ => idGate d "Delete" a UnableToDeleteWithoutIDNotification)
  | VArchive =>
      gbind (modeGate d ModeArchive "archivable" "Archive" a ArchiveNotAllowedNotification)
        (fun _ => idGate d "Archive" a UnableToDeleteWithoutIDNotification)
  | VUnarchive =>
      gbind (modeGate d ModeUnarchive "unarchivable" "Unarchive" a UnarchiveNotAllowedNotification)
        (fun _ => idGate d "Unarchive" a UnableToDeleteWithoutIDNotification)
  end.

Lemma validateOf_eq v : validateOf v = validateFrame d (verbMode v) a (gatesOf v).
Proof. by destruct v. Qed.

Lemma gatesOf_framed v : gmono framed (gatesOf v).
Proof. destruct v; simpl; auto with omnicore. Qed.

Lemma gatesOf_total v e : exists e', gatesOf v e = (e', Ret tt).
Proof. destruct v; simpl; auto with omnicore. Qed.

Lemma gatesOf_report v :
  (forall dt, verbMode v ∉ ed_Modes d dt) ->
  forall e, exists e', gatesOf v e = (e', Ret tt) /\ notAllowed v ∈ enNotifs e'.
Proof.
  intros Hm. destruct v; apply gates_report; auto with omnicore; intros e; by apply modeGate_reports.
Qed.

Lemma twoGates (g1 g2 : GoM (EntityState V S D) GetError unit) e e' :
  gmono framed g2 -> gbind g1 (fun _ => g2) e = (e', Ret tt) -> enNotifs e' = [] ->
  exists e1, g1 e = (e1, Ret tt) /\ enNotifs e1 = [] /\ g2 e1 = (e', Ret tt).
Proof.
  intros Hf Hg Hn. apply gbind_Ret in Hg as ([] & e1 & H1 & H2). exists e1. split; [done|]. split; [|done].
  pose proof (Hf e1) as [Hgr _]. rewrite H2 in Hgr. by eapply grows_nil.
Qed.

Lemma gatesOf_Ret v e e' :
  gatesOf v e = (e', Ret tt) -> enNotifs e' = [] -> modeAllowed d (verbMode v) e = true /\ idRule v e.
Proof.
  intros Hg Hn. destruct v; simpl in *;
    apply twoGates in Hg as (e1 & H1 & Hn1 & H2); [|by auto with omnicore|done| |by auto with omnicore|done| |
      by auto with omnicore|done| |by auto with omnicore|done| |by auto with omnicore|done];
    apply modeGate_Ret in H1 as [Hm ->]; try done; (split; [done|]);
    first [by eapply noIDGate_Ret | by eapply idGate_Ret].
Qed.

Lemma idRule_sameCore v e e' : sameCore e e' -> idRule v e -> idRule v e'.
Proof. intros Hs Hi. unfold idRule, en_GetID in *. by rewrite (sc_managed _ _ Hs). Qed.

Lemma derefID_state e y q : derefID e = (y, q) -> y = e.
Proof. unfold derefID, gbind, gget. case_match; by intros [= <- _]. Qed.

(** Sealing takes the request off the entity and nothing else. *)
Lemma sealMode_state e y q :
  sealMode d e = (y, q) -> y = en_onBase (fun _ => be_setRequestedMode ModeUnknown (en_base e)) e.
Proof. unfold sealMode, gbind, gget, gmodify, takeRequestedMode. repeat case_match; by intros [= <- _]. Qed.

Lemma sealOf_Ret v e e' :
  sealOf v e = (e', Ret tt) ->
  en_context e' = en_context e /\ be_contexts (en_base e') = be_contexts (en_base e) /\
  en_data e' = en_data e /\ be_managed (en_base e') = be_managed (en_base e) /\
  be_rulesWindow (en_base e') = be_rulesWindow (en_base e).
Proof.
  destruct v; unfold sealOf; intros Hs; apply gbind_Ret in Hs as (x & e1 & H1 & Hs).
  - unfold gget, gret in *. by simplify_eq.
  - apply sealMode_state in H1 as ->. apply gbind_Ret in Hs as (i & e2 & H2 & Hs).
    apply derefID_state in H2 as ->. unfold gbind, gget, gret in Hs. by simplify_eq.
  - apply derefID_state in H1 as ->. unfold gbind, gget, gret in Hs. by simplify_eq.
  - apply derefID_state in H1 as ->. unfold gbind, gget, gret in Hs. by simplify_eq.
  - apply derefID_state in H1 as ->. unfold gbind, gget, gret in Hs. by simplify_eq.
Qed.

(** What the two gates of an insert add. *)
Lemma insertGates_notifs e :
  exists e' gates,
    gbind (modeGate d ModeInsert "insertable" "Insert" a InsertNotAllowedNotification) (fun _ => noIDGate a) e = (e', Ret tt) /\
    enNotifs e' = enNotifs e ++ gates /\
    Forall (fun n => n = InsertNotAllowedNotification \/ n = UnableToInsertWithIDNotification) gates.
Proof.
  assert (H1 : exists e1 g1, modeGate d ModeInsert "insertable" "Insert" a InsertNotAllowedNotification e = (e1, Ret tt) /\
            enNotifs e1 = enNotifs e ++ g1 /\ Forall (fun n => n = InsertNotAllowedNotification) g1).
  { unfold modeGate, gbind, gget. destruct (modeAllowed d ModeInsert e).
    - exists e, []. by rewrite app_nil_r.
    - do 2 eexists. split; [reflexivity|]. split; [apply notify_notifs|by repeat constructor]. }
  destruct H1 as (e1 & g1 & H1 & Hn1 & Hf1).
  assert (H2 : exists e2 g2, noIDGate a e1 = (e2, Ret tt) /\
            enNotifs e2 = enNotifs e1 ++ g2 /\ Forall (fun n => n = UnableToInsertWithIDNotification) g2).
  { unfold noIDGate, gbind, gget. destruct (en_GetID e1).
    - do 2 eexists. split; [reflexivity|]. split; [apply notify_notifs|by repeat constructor].
    - exists e1, []. by rewrite app_nil_r. }
  destruct H2 as (e2 & g2 & H2 & Hn2 & Hf2). exists e2, (g1 ++ g2). unfold gbind at 1. rewrite H1, H2.
  split; [done|]. split; [by rewrite Hn2, Hn1, app_assoc|].
  apply Forall_app. split; eapply Forall_impl; eauto.
Qed.

(** ** Theorems *)

(** What an entity a verb has sealed looks like. *)
Definition validFor (v : Verb V S D) e : Prop :=
  enNotifs e = [] /\
  Forall (fun c => HasErrors c = false) (be_contexts (en_base e)) /\
  verbMode v ∈ ed_Modes d (en_data e) /\ idRule v e /\
  (ed_RequiresService d = true -> svc <> None) /\
  be_rulesWindow (en_base e) = false.

Lemma sealed_valid v e e' : runVerb v e = (e', Ret tt) -> enNotifs e = [] /\ validFor v e'.
Proof.
  rewrite runVerb_eq. intros Hv. apply gbind_Ret in Hv as ([] & e1 & Hp & Hv).
  apply gbind_Ret in Hv as ([] & e2 & Hval & Hs). apply prologue_Ret in Hp as [Hg Hsvc].
  rewrite validateOf_eq in Hval. apply validateFrame_Ret in Hval as [Fb Fa Fc _ Fr _ Fw _ (e3 & e4 & Hgt & _ & Hn4 & Hcore & _)];
    [|apply gatesOf_framed].
  apply sealOf_Ret in Hs as (Hc & Hcs & Hd & Hm & Hw).
  apply gatesOf_Ret in Hgt as [Hmode Hid]; [|done].
  unfold validFor. split_and!.
  - by eapply grows_nil.
  - unfold enNotifs. by rewrite Hc.
  - by rewrite Hcs.
  - rewrite Hd, (sc_data _ _ Hcore). apply existsb_exists in Hmode as (m & Hin & Hb).
    apply bool_decide_eq_true in Hb as <-. by apply list_elem_of_In.
  - apply (idRule_sameCore v _ _ Hcore) in Hid. unfold idRule, en_GetID in *. by rewrite Hm.
  - rewrite <- Hsvc. done.
  - by rewrite Hw.
Qed.


(** C1: a write is sealed only if nothing at all was reported.  For every entity
    type, every rule body and each of the five verbs: when the verb returns a
    sealed value, the entity carried no notification before, carries none now, on
    its own context or on one it was handed; it declares the verb's mode; its id
    is absent on insert and present and well formed otherwise; a required service
    was supplied; and the rules window is closed. *)
Theorem sealed_means_valid v e e' :
  runVerb v e = (e', Ret tt) ->
  enNotifs e = [] /\ enNotifs e' = [] /\
  Forall (fun c => HasErrors c = false) (be_contexts (en_base e')) /\
  verbMode v ∈ ed_Modes d (en_data e') /\ idRule v e' /\
  (ed_RequiresService d = true -> svc <> None) /\
  be_rulesWindow (en_base e') = false.
Proof. intros Hv. by apply sealed_valid in Hv. Qed.

Lemma Ret_or_not {E} (r : Outcome E unit) : r = Ret tt \/ r <> Ret tt.
Proof. destruct r as [[]| |]; auto. Qed.

(** An outcome of the validation that is not a success is the verb's outcome. *)
Lemma runVerb_validation v e e1 e2 r :
  prologue v e = (e1, Ret tt) -> validateOf v e1 = (e2, r) -> r <> Ret tt -> runVerb v e = (e2, r).
Proof. rewrite runVerb_eq. unfold gbind. intros -> ->. by destruct r as [[]| |]. Qed.

(** No notification is lost.  Whatever was reported on the entity before the
    verb ran (by a constructor, a domain method or a child primitive) keeps the
    write from being sealed, and is what the caller gets back: in order, at the
    head of a context of the error.  The only other ways out are a panic of
    domain code and the error the apply function itself returned. *)
Theorem earlier_notifications_reach_the_caller v e e' r :
  runVerb v e = (e', r) -> enNotifs e <> [] ->
  (exists m, r = Panic m) \/ (exists m, r = Fail (ApplyError m)) \/
  exists ctxs c, r = Fail (DomainError ctxs) /\ c ∈ ctxs /\ enNotifs e `prefix_of` notifs c.
Proof.
  intros Hr Hn. pose proof (prologue_grows v e) as Hg.
  destruct (prologue v e) as [e1 rp] eqn:Hp. simpl in Hg.
  destruct (Ret_or_not rp) as [->|Hne].
  - assert (Hn1 : enNotifs e1 <> []) by (intros Hnil; by apply (grows_nil _ _ Hg) in Hnil).
    destruct (validateOf v e1) as [e2 rv] eqn:Hv. pose proof Hv as Hv'. rewrite validateOf_eq in Hv'.
    apply validateFrame_reports in Hv'; [|apply gatesOf_framed|apply gatesOf_total|done].
    assert (rv <> Ret tt) by (by destruct Hv' as [[? ->]|(? & ? & -> & _)]).
    rewrite (runVerb_validation v e e1 e2 rv) in Hr by done. simplify_eq.
    destruct Hv' as [?|(ctxs & c & ? & ? & Hpre)]; [by left|]. right. right. exists ctxs, c.
    split_and!; [done|done|]. by etrans.
  - rewrite runVerb_eq in Hr. unfold gbind in Hr. rewrite Hp in Hr.
    destruct (prologue_not_Ret v e e1 rp Hp Hne) as [[m ->]|[m ->]]; simplify_eq; eauto.
Qed.

(** The mode gate sits outside the rules and always reports.  When the entity
    type declares the verb's mode for no state, then whatever the rules do, stop
    the pass included, the verb fails with the verb's own "not allowed"
    notification among the reported ones (unless domain code panics or the apply
    function fails first). *)
Theorem undeclared_mode_is_always_reported v e e' r :
  (forall dt, verbMode v ∉ ed_Modes d dt) ->
  (ed_RequiresService d = true -> svc <> None) ->
  runVerb v e = (e', r) ->
  (exists m, r = Panic m) \/ (exists m, r = Fail (ApplyError m)) \/
  exists ctxs c, r = Fail (DomainError ctxs) /\ c ∈ ctxs /\ notAllowed v ∈ notifs c.
Proof.
  intros Hm Hreq Hr. destruct (prologue v e) as [e1 rp] eqn:Hp.
  destruct (Ret_or_not rp) as [->|Hne].
  - pose proof (prologue_Ret v e e1 Hp) as [_ Hsvc].
    destruct (validateOf v e1) as [e2 rv] eqn:Hv. pose proof Hv as Hv'. rewrite validateOf_eq in Hv'.
    apply (validateFrame_gate d (verbMode v) a (gatesOf v) (notAllowed v)) in Hv';
      [|apply gatesOf_framed|by apply gatesOf_report|by rewrite Hsvc].
    assert (rv <> Ret tt) by (by destruct Hv' as [[? ->]|(? & ? & -> & _)]).
    rewrite (runVerb_validation v e e1 e2 rv) in Hr by done. simplify_eq. tauto.
  - rewrite runVerb_eq in Hr. unfold gbind in Hr. rewrite Hp in Hr.
    destruct (prologue_not_Ret v e e1 rp Hp Hne) as [[m ->]|[m ->]]; simplify_eq; eauto.
Qed.

(** ** Stopping a pass *)

(** The entity as the rules of an insert see it first. *)
Definition atInsertRules e : EntityState V S D :=
  en_onBase openRulesWindow (en_onBase (setMode ModeInsert) (atFrame d svc e)).

(** A stop cannot turn an invalid write into a valid one.  When the rules of
    an insert end with the pass halted, the insert returns an error (it neither
    succeeds nor panics), and the error carries every notification emitted up to
    the stop, followed only by what the two structural gates add: no value object
    and no child was validated any more. *)
Theorem stop_blocks_the_write e s :
  (ed_RequiresService d = true -> svc <> None) ->
  buildRules (H := entityRuleHost d) (NewRulesBound ModeInsert CRoot (ed_type d) (ed_addr d))
    (ed_BuildRules d a svc) false (atInsertRules e) = (s, None) ->
  rs_halted s = true ->
  exists e' ctxs c gates, getInsertable d svc a now e = (e', Fail (DomainError ctxs)) /\ c ∈ ctxs /\
    notifs c = enNotifs (rs_host s) ++ gates /\
    Forall (fun n => n = InsertNotAllowedNotification \/ n = UnableToInsertWithIDNotification) gates.
Proof.
  intros Hreq Hb Hh. pose proof (buildRules_spec (St := EntityState V S D) _ _ _ _ _ Hb) as [_ Herr].
  specialize (Herr Hh). unfold getInsertable, resetFor, gbind at 1 2 3, gmodify.
  change (en_onBase (setService svc) (en_onBase resetEntity (ensureInit d e))) with (atFrame d svc e).
  unfold gbind at 1. unfold validateForInsert, validateFrame. unfold gbind at 1, gmodify.
  set (e0 := en_onBase (setMode ModeInsert) (atFrame d svc e)).
  unfold gbind at 1. destruct (checkService_cases d a e0) as [Hs|([Hr Hnone] & _)]; [|by apply Hreq in Hr].
  rewrite Hs. unfold gbind at 1. unfold buildRulesInWindow, gbind at 1, gmodify, gdefer.
  change (be_service (en_base (en_onBase openRulesWindow e0))) with svc.
  change (en_onBase openRulesWindow e0) with (atInsertRules e). rewrite Hb.
  set (e1 := en_onBase closeRulesWindow (rs_host s)).
  unfold gbind at 1. destruct (insertGates_notifs e1) as (e2 & gates & Hg & Hn & Hf). rewrite Hg, Hh.
  unfold gbind at 1, runAutomaticValidations, gret.
  destruct (checkAllNotifications_some e2) as (e3 & ctxs & c & Hc & Hin & Hcn).
  { rewrite Hn. change (enNotifs e1) with (enNotifs (rs_host s)). apply HasErrors_notifs in Herr.
    change (enNotifs (rs_host s) <> []) in Herr. by destruct (enNotifs (rs_host s)). }
  rewrite Hc. exists e3, ctxs, c, gates. split; [done|]. split; [done|]. split; [|done]. by rewrite Hcn, Hn.
Qed.

(** ** Whatever every part of a verb keeps, the verb keeps *)

Section Relation.
Context (R : relation (EntityState V S D)) `{!PreOrder R}.
Hypothesis R_kept : forall x y, kept x y -> R x y.
Hypothesis R_framed : forall x y, framed x y -> R x y.
Hypothesis R_reset : forall x, R x (en_onBase resetEntity x).
Hypothesis R_service : forall x, R x (en_onBase (setService svc) x).
Hypothesis R_mode : forall m x, R x (en_onBase (setMode m) x).
Hypothesis R_capture : forall x, R x (captureOldIfAbsent d x).
Hypothesis R_taken : forall x, R x (en_onBase (fun _ => be_setRequestedMode ModeUnknown (en_base x)) x).
Hypothesis R_rules : forall mode x, R x (buildRulesInWindow d mode a x).1.

Lemma gmono_kept {A} (c : GoM (EntityState V S D) GetError A) : gmono kept c -> gmono R c.
Proof. intros Hc x. apply R_kept, Hc. Qed.

Lemma gmono_framed {A} (c : GoM (EntityState V S D) GetError A) : gmono framed c -> gmono R c.
Proof. intros Hc x. apply R_framed, Hc. Qed.

Lemma prologue_rel v : gmono R (prologue v).
Proof.
  assert (Hre : gmono R (resetFor (V := V) (D := D) svc))
    by (apply gmono_bind; [done|by apply gmono_modify|intros _; by apply gmono_modify]).
  assert (Hcap : gmono (E := GetError) R (gmodify (captureOldIfAbsent d))) by by apply gmono_modify.
  apply gmono_bind; [done|apply gmono_modify; intros x; apply R_kept, ensureInit_kept|intros _].
  destruct v as [|ap p| | |]; [done|..]; (apply gmono_bind; [done|done|intros _; try done]).
  apply gmono_bind; [done| |done]. destruct ap as [body|]; [apply gmono_kept, runCmds_kept|by apply gmono_ret].
Qed.

(** What a verb on a loaded entity does once the old state is captured. *)
Definition afterCapture (v : Verb V S D) : GoM (EntityState V S D) GetError unit :=
  match v with
  | VUpdate (Some body) _ => gbind (runCmds d body) (fun _ => resetFor svc)
  | _ => resetFor svc
  end.

Lemma afterCapture_rel v : gmono R (afterCapture v).
Proof.
  assert (Hre : gmono R (resetFor (V := V) (D := D) svc))
    by (apply gmono_bind; [done|by apply gmono_modify|intros _; by apply gmono_modify]).
  destruct v as [|[body|] p| | |]; [done| |done..]. apply gmono_bind; [done|apply gmono_kept, runCmds_kept|done].
Qed.

Lemma prologue_captures v e : verbMode v <> ModeInsert -> prologue v e = afterCapture v (CaptureOld d e).
Proof. by destruct v as [|[body|] p| | |]. Qed.

Lemma validateOf_rel v : gmono R (validateOf v).
Proof.
  rewrite validateOf_eq. unfold validateFrame.
  apply gmono_bind; [done|by apply gmono_modify|intros _].
  apply gmono_bind; [done|apply gmono_framed, checkService_framed|intros _].
  apply gmono_bind; [done|intros x; apply R_rules|intros rules].
  apply gmono_bind; [done|apply gmono_framed, gatesOf_framed|intros _].
  apply gmono_bind; [done|apply gmono_framed, runAutomaticValidations_framed|intros _].
  apply gmono_framed, checkAllNotifications_framed.
Qed.

Lemma sealOf_rel v : gmono R (sealOf v).
Proof.
  assert (Hdr : gmono R (derefID (V := V) (S := S) (D := D))).
  { intros x. destruct (derefID x) as [y q] eqn:E. apply derefID_state in E as ->. simpl. reflexivity. }
  assert (Hend : gmono (E := GetError) R (gbind gget (fun _ : EntityState V S D => gret tt))).
  { apply gmono_bind; [done|by apply gmono_get|intros; by apply gmono_ret]. }
  destruct v; simpl; [done|..]; (apply gmono_bind; [done| |intros _]); try done.
  - intros x. destruct (sealMode d x) as [y q] eqn:E. apply sealMode_state in E as ->. apply R_taken.
  - by apply gmono_bind.
Qed.

Lemma runVerb_rel v e : R e (runVerb v e).1.
Proof.
  rewrite runVerb_eq. revert e. apply gmono_bind; [done|apply prologue_rel|intros _].
  apply gmono_bind; [done|apply validateOf_rel|intros _; apply sealOf_rel].
Qed.

Lemma runVerb_rel_captured v e : verbMode v <> ModeInsert -> R (CaptureOld d e) (runVerb v e).1.
Proof.
  intros Hv. rewrite runVerb_eq. unfold gbind at 1. rewrite prologue_captures by done.
  change (R (CaptureOld d e)
    (gbind (afterCapture v) (fun _ => gbind (validateOf v) (fun _ => sealOf v)) (CaptureOld d e)).1).
  generalize (CaptureOld d e). apply gmono_bind; [done|apply afterCapture_rel|intros _].
  apply gmono_bind; [done|apply validateOf_rel|intros _; apply sealOf_rel].
Qed.

End Relation.

(** ** The rules window *)

(** The rules window never stays open.  However a verb ends (sealed, error,
    or a panic inside a rule) an entity whose window was closed has it closed
    again; and with the window closed, or in any mode but an update's, asking to
    finish the write as an archive panics. *)
Theorem rules_window_always_closes v e :
  be_rulesWindow (en_base e) = false ->
  be_rulesWindow (en_base (runVerb v e).1) = false /\
  execCmd d CCompleteAsArchive (runVerb v e).1 = None.
Proof.
  intros Hw. assert (Hc : be_rulesWindow (en_base (runVerb v e).1) = false).
  { revert Hw. apply (runVerb_rel closes); try (unfold closes; intros; assumption).
    - intros x y Hk Hx. by rewrite (kp_window _ _ Hk).
    - intros x y [_ Hk] Hx. by rewrite (sc_window _ _ Hk).
    - intros x. unfold closes, captureOldIfAbsent, captureOld. by repeat case_match.
    - intros mode x. apply buildRulesInWindow_closes. }
  split; [done|]. simpl. unfold CompleteAsArchive. by rewrite Hc.
Qed.

(** ** Updates *)

(** The modes an update can end in. *)
Definition requestable (m : EntityMode) : Prop := m = ModeUnknown \/ m = ModeArchive.

Lemma prologue_requested v e e' :
  prologue v e = (e', Ret tt) -> requestable (be_requestedMode (en_base e)) ->
  requestable (be_requestedMode (en_base e')).
Proof.
  intros Hp Hr. assert (Hk : forall x y : EntityState V S D, kept x y -> requestable (be_requestedMode (en_base x)) ->
            requestable (be_requestedMode (en_base y)))
    by (intros x y [_ _ _ _ [->| ->]]; [done|by right]).
  assert (Hrs : forall x : EntityState V S D, resetFor svc x = (e', Ret tt) -> be_requestedMode (en_base e') = be_requestedMode (en_base x))
    by (intros x; unfold resetFor, gbind, gmodify; by intros [= <-]).
  assert (Hcp : forall x, be_requestedMode (en_base (captureOldIfAbsent d x)) = be_requestedMode (en_base x))
    by (intros x; unfold captureOldIfAbsent, captureOld; by repeat case_match).
  apply (Hk _ _ (ensureInit_kept d e)) in Hr.
  unfold prologue in Hp. apply gbind_Ret in Hp as ([] & e1 & H1 & Hp). unfold gmodify in H1. injection H1 as <-.
  destruct v as [|ap p| | |]; [by rewrite (Hrs _ Hp)|..]; apply gbind_Ret in Hp as ([] & e2 & H2 & Hp);
    unfold gmodify in H2; injection H2 as <-; rewrite <- Hcp in Hr; try by rewrite (Hrs _ Hp).
  apply gbind_Ret in Hp as ([] & e3 & H3 & Hp). rewrite (Hrs _ Hp). eapply Hk; [|exact Hr].
  destruct ap as [body|]; [|unfold gret in H3; simplify_eq; reflexivity].
  pose proof (runCmds_kept d body (captureOldIfAbsent d (ensureInit d e))) as Hb. by rewrite H3 in Hb.
Qed.

(** What an update is sealed as.  The sealed mode is the update itself or the
    archive a rule asked for, the latter only for an entity that declares the
    archive mode; the request does not outlive the seal; and the sealed id is the
    entity's. *)
Theorem updatable_is_update_or_archive apply partial e e' u :
  requestable (be_requestedMode (en_base e)) ->
  getUpdatable d svc a now apply partial e = (e', Ret u) ->
  (upd_entityMode u = ModeUpdate \/
   upd_entityMode u = ModeArchive /\ ModeArchive ∈ ed_Modes d (en_data e')) /\
  be_requestedMode (en_base e') = ModeUnknown /\ en_GetID e' = Some (upd_id u) /\ upd_partial u = partial.
Proof.
  intros Hreq Hu.
  assert (Hp : gbind (prologue (VUpdate apply partial)) (fun _ => gbind (validateForUpdate d a) (fun _ =>
            gbind (sealMode d) (fun m => gbind derefID (fun i => gbind gget (fun x =>
              gret (mkUpdatable (buildMetadata d a now x) i partial m)))))) e = (e', Ret u)).
  { rewrite <- Hu. unfold getUpdatable, prologue, resetFor, gbind, gmodify.
    set (c := match apply with Some body => runCmds d body | None => _ end).
    by destruct (c _) as [e1 [[]|?|?]]. }
  apply gbind_Ret in Hp as ([] & e1 & H1 & Hp). apply gbind_Ret in Hp as ([] & e2 & H2 & Hp).
  apply gbind_Ret in Hp as (m & e3 & H3 & Hp). apply gbind_Ret in Hp as (i & e4 & H4 & Hp).
  unfold gbind, gget, gret in Hp. simplify_eq/=. apply prologue_requested in H1; [|done].
  apply (validateFrame_Ret d ModeUpdate a (gatesOf (VUpdate apply partial))) in H2 as [_ _ _ _ _ _ _ Fq _];
    [|apply gatesOf_framed].
  pose proof (sealMode_state _ _ _ H3) as ->. pose proof (derefID_state _ _ _ H4) as ->.
  split; [|split; [done|]; split; [|done]].
  - unfold sealMode, gbind, gget, gmodify, takeRequestedMode in H3.
    destruct (bool_decide (be_requestedMode (en_base e2) = ModeUnknown)) eqn:Eb.
    { left. unfold gret in H3. by simplify_eq. }
    apply bool_decide_eq_false in Eb. right.
    assert (Ha : be_requestedMode (en_base e2) = ModeArchive) by (destruct Fq as [Fq|Fq]; [rewrite Fq in *|]; by destruct H1).
    rewrite Ha in H3. destruct (modeAllowed d ModeArchive e2) eqn:Em; unfold gret, gpanic in H3; simplify_eq.
    split; [done|]. apply existsb_exists in Em as (m & Hin & Hb). apply bool_decide_eq_true in Hb as ->.
    by apply list_elem_of_In.
  - unfold derefID, gbind, gget in H4. destruct (en_GetID _); by unfold gret in H4; simplify_eq.
Qed.

(** ** Snapshots *)

Definition keepsOld (o : OldState V D) e e' : Prop :=
  be_old (en_base e) = Some o -> be_old (en_base e') = Some o.

#[local] Instance keepsOld_preorder o : PreOrder (keepsOld o).
Proof. split; [intros x; unfold keepsOld; auto|intros x y z; unfold keepsOld; auto]. Qed.

Ltac keeps_old :=
  first
  [ unfold keepsOld; intros; assumption
  | intros x y Hk Hx; by rewrite (kp_old _ _ Hk)
  | intros x y [_ Hk] Hx; by rewrite (sc_old _ _ Hk)
  | intros x Hx; unfold captureOldIfAbsent; by rewrite Hx
  | intros mode x Hx; destruct (buildRulesInWindow d mode a x) as [y q] eqn:E;
    apply buildRulesInWindow_spec in E as (_ & _ & _ & Ho & _); simpl; by rewrite Ho
  | apply _ ].

Lemma runVerb_keepsOld v o e : keepsOld o e (runVerb v e).1.
Proof. apply (runVerb_rel (keepsOld o)); keeps_old. Qed.

Lemma runVerb_captures v o e : verbMode v <> ModeInsert -> keepsOld o (CaptureOld d e) (runVerb v e).1.
Proof. intros Hv. apply (runVerb_rel_captured (keepsOld o)); first [keeps_old|done]. Qed.

(** The old state is the state the entity was born with.  A snapshot taken
    before a verb survives it untouched, however the verb ends and whatever apply
    function and rules do. *)
Theorem old_state_is_birth_state v e o :
  be_old (en_base e) = Some o -> be_old (en_base (runVerb v e).1) = Some o.
Proof. apply runVerb_keepsOld. Qed.

End Claims.

(** ** Instances *)

Module OrderSample.
Import Sample.

(** An order with a quantity: a zero quantity finishes an update as an archive, a
    negative one is rejected and stops the pass. *)
Definition rules : RuleBody (EntityState Child unit Z) (EntityCmd Child Z) :=
  RIf IfUpdate
    (RRead (fun e => if (en_data e =? 0)%Z then RCall CCompleteAsArchive RDone else RDone))
    (RRead (fun e =>
       if (en_data e <? 0)%Z
       then RAddNotificationNamed "Quantity" (RequiredFieldNotification None) None (RStopIfInvalid RDone)
       else RStopIfInvalid RDone)).

Definition orderDef (modes : list EntityMode) : EntityDef Child unit Z := {|
  ed_className := "Order";
  ed_type := TPointer (TStruct "Order" 8 false false []);
  ed_addr := 4096;
  ed_Modes := fun _ => modes;
  ed_RequiresService := false;
  ed_BuildRules := fun _ _ => rules;
  ed_fields := fun _ => [];
  ed_children := Some boundary;
  ed_childType := fun v => TStruct (className v) 8 false false [];
  ed_childAddr := 8192;
  ed_childRules := fun _ _ _ => Some RDone;
  ed_childFields := fun _ => [];
  ed_iter := map_to_list;
  ed_parse := fun s => if String.eqb s "" then Some "invalid UUID length: 0" else None;
  ed_clone := Some
|}.

Definition order : EntityDef Child unit Z := orderDef [ModeInsert; ModeUpdate; ModeDelete; ModeArchive; ModeUnarchive].
Definition readOnly : EntityDef Child unit Z := orderDef [].

(** A new order, and one loaded under an id. *)
Definition newOrder (qty : Z) : EntityState Child unit Z := mkEntity (mkAggregateRoot newBase None) qty.
Definition loadedOrder (qty : Z) : EntityState Child unit Z :=
  en_onBase (be_setManaged (SetID (NewID "o1") emptyManaged)) (newOrder qty).

(** An order a domain method already complained about. *)
Definition complained : EntityState Child unit Z :=
  en_onBase (be_AddNotificationMessage (message [NameSegment "Total"] SchemaViolationNotification)) (newOrder 5).

End OrderSample.

Section Instances.
Import Sample OrderSample.

Lemma sealed_means_valid_witness :
  enNotifs ((runVerb order None "GetInsertable" 0 VInsert (newOrder 5)).1) = [].
Proof.
  destruct (sealed_means_valid order None "GetInsertable" 0 VInsert (newOrder 5)
              (runVerb order None "GetInsertable" 0 VInsert (newOrder 5)).1) as (_ & Hn & _).
  - vm_compute. reflexivity.
  - exact Hn.
Defined.

Lemma earlier_notifications_reach_the_caller_witness :
  exists ctxs c, (runVerb order None "GetInsertable" 0 VInsert complained).2 = Fail (DomainError ctxs) /\ c ∈ ctxs /\
    [SchemaViolationNotification] `prefix_of` notifs c.
Proof.
  destruct (earlier_notifications_reach_the_caller order None "GetInsertable" 0 VInsert complained
              (runVerb order None "GetInsertable" 0 VInsert complained).1
              (runVerb order None "GetInsertable" 0 VInsert complained).2) as [[m Hm]|[[m Hm]|Hr]].
  - apply surjective_pairing.
  - vm_compute. discriminate.
  - exfalso. vm_compute in Hm. discriminate.
  - exfalso. vm_compute in Hm. discriminate.
  - exact Hr.
Defined.

Lemma undeclared_mode_is_always_reported_witness :
  exists ctxs c, (runVerb readOnly None "GetInsertable" 0 VInsert (newOrder (-1))).2 = Fail (DomainError ctxs) /\ c ∈ ctxs /\
    InsertNotAllowedNotification ∈ notifs c.
Proof.
  destruct (undeclared_mode_is_always_reported readOnly None "GetInsertable" 0 VInsert (newOrder (-1))
              (runVerb readOnly None "GetInsertable" 0 VInsert (newOrder (-1))).1
              (runVerb readOnly None "GetInsertable" 0 VInsert (newOrder (-1))).2) as [[m Hm]|[[m Hm]|Hr]].
  - intros dt. apply not_elem_of_nil.
  - discriminate.
  - apply surjective_pairing.
  - exfalso. vm_compute in Hm. discriminate.
  - exfalso. vm_compute in Hm. discriminate.
  - exact Hr.
Defined.

Lemma stop_blocks_the_write_witness :
  exists e' ctxs, getInsertable order None "GetInsertable" 0 (newOrder (-1)) = (e', Fail (DomainError ctxs)).
Proof.
  edestruct (stop_blocks_the_write order None "GetInsertable" 0 (newOrder (-1))) as (e' & ctxs & c & g & Hr & _).
  - discriminate.
  - vm_compute. reflexivity.
  - reflexivity.
  - by exists e', ctxs.
Defined.

Lemma rules_window_always_closes_witness :
  execCmd order CCompleteAsArchive (runVerb order None "GetUpdatable" 0 (VUpdate None false) (loadedOrder 0)).1 = None.
Proof.
  destruct (rules_window_always_closes order None "GetUpdatable" 0 (VUpdate None false) (loadedOrder 0)) as [_ Hc];
    [reflexivity|exact Hc].
Defined.

Lemma updatable_is_update_or_archive_witness :
  exists e' u, getUpdatable order None "GetUpdatable" 0 None false (loadedOrder 0) = (e', Ret u) /\
    upd_entityMode u = ModeArchive /\ be_requestedMode (en_base e') = ModeUnknown.
Proof.
  destruct (getUpdatable order None "GetUpdatable" 0 None false (loadedOrder 0)) as [e' [u|err|m]] eqn:E;
    [|vm_compute in E; discriminate|vm_compute in E; discriminate].
  exists e', u. split; [reflexivity|].
  destruct (updatable_is_update_or_archive order None "GetUpdatable" 0 None false (loadedOrder 0) e' u) as (_ & Hr & _).
  - left. reflexivity.
  - exact E.
  - split; [|exact Hr]. vm_compute in E. injection E as _ <-. reflexivity.
Defined.

Lemma old_state_is_birth_state_witness :
  be_old (en_base (runVerb order None "GetUpdatable" 0
    (VUpdate (Some (CDo (CSetData (fun _ => 7%Z)) (CReturn None))) false) (CaptureOld order (loadedOrder 3))).1) =
  Some (mkOld 3%Z None).
Proof. apply (old_state_is_birth_state order). vm_compute. reflexivity. Defined.

(** ** What does not hold *)

(** A request to finish as an archive can outlive the check that made it.  A
    loaded order with a zero quantity is first checked with [IsValid] in update
    mode: its rules ask for an archive, and nothing takes the request off.  The
    update that follows sets the quantity to seven, its rules ask for nothing, and
    it is sealed as an archive all the same. *)
Theorem archive_request_survives_a_check :
  let checked := IsValid order ModeUpdate None (loadedOrder 0) in
  checked.2 = Ret (true, []) /\
  exists e' u, getUpdatable order None "GetUpdatable" 0
      (Some (CDo (CSetData (fun _ => 7%Z)) (CReturn None))) false checked.1 = (e', Ret u) /\
    upd_entityMode u = ModeArchive /\ en_data e' = 7%Z.
Proof.
  split; [vm_compute; reflexivity|].
  do 2 eexists. split; [vm_compute; reflexivity|]. split; vm_compute; reflexivity.
Qed.

(** A domain event registered by a root method that an update's apply function
    calls is dropped: the entity is reset between the apply function and the
    validation, so the sealed update carries no event. *)
Theorem events_of_an_apply_are_dropped :
  let resetPassword := CDo (CRegisterEvent (mkEvent EventWarning "Order" "reset")) (CReturn None) in
  exists e' u, getUpdatable order None "GetUpdatable" 0 (Some resetPassword) false (loadedOrder 3) = (e', Ret u) /\
    md_events (upd_meta u) = [] /\ be_events (en_base e') = [].
Proof. do 2 eexists. split; [vm_compute; reflexivity|]. split; vm_compute; reflexivity. Qed.

End Instances.
