(* ===== verification/Resilience.v ===== *)
(** * Backoff curves and the circuit breaker

    [infra/resilience/backoff.go] at the width of [time.Duration], and the state
    machine of [infra/resilience/breaker.go] with the clock as an input. *)

From S2P Require Import Prelude.
From stdpp Require Import base gmap strings list fin_maps.
From Stdlib Require Import ZArith Lia.

Open Scope string_scope.
Open Scope list_scope.
Open Scope Z_scope.

(** ** Backoff ([infra/resilience/backoff.go]) *)

Inductive BackoffStrategy :=
| BackoffConstant
| BackoffLinear
| BackoffExponential
| BackoffExponentialJitter
| BackoffOther.

(** Durations are int64 nanoseconds. *)
Record BackoffPolicy := mkBackoffPolicy {
  bp_Strategy : BackoffStrategy;
  bp_InitialDelay : Z;
  bp_MaxDelay : Z
}.

(** [Jitter]; [rnd] is [rand.Rand.Int63n]. *)
Definition Jitter (rnd : Z -> Z) (maxNS : Z) : Z := if maxNS <=? 0 then 0 else rnd maxNS.

(** [Backoff]: the product and the shift wrap at 64 bits, and a shift by 64 or
    more leaves nothing. *)
Definition Backoff (rnd : Z -> Z) (policy : BackoffPolicy) (attempt : Z) : Z :=
  if bp_InitialDelay policy <=? 0 then 0
  else
    let attempt := if attempt <? 1 then 1 else attempt in
    let shifted := wrap64 (Z.shiftl (bp_InitialDelay policy) (attempt - 1)) in
    let d :=
      match bp_Strategy policy with
      | BackoffConstant => bp_InitialDelay policy
      | BackoffLinear => wrap64 (bp_InitialDelay policy * attempt)
      | BackoffExponential => shifted
      | BackoffExponentialJitter =>
          let ceiling := if bp_MaxDelay policy <? shifted then bp_MaxDelay policy else shifted in
          Jitter rnd ceiling
      | BackoffOther => bp_InitialDelay policy
      end in
    let d := if bp_MaxDelay policy <? d then bp_MaxDelay policy else d in
    if d <? 0 then bp_MaxDelay policy else d.

(** The documented contract of [Int63n]. *)
Definition Int63n_spec (rnd : Z -> Z) : Prop := forall n, 0 < n -> 0 <= rnd n < n.

(** ** The breaker ([infra/resilience/breaker.go]) *)

Inductive BreakerState := BreakerClosed | BreakerOpen | BreakerHalfOpen.

#[export] Instance BreakerState_eq_dec : EqDecision BreakerState.
Proof. solve_decision. Defined.

Definition breakerStateString (k : BreakerState) : string :=
  match k with
  | BreakerOpen => "open"
  | BreakerHalfOpen => "half-open"
  | BreakerClosed => "closed"
  end.

Record BreakerPolicy := mkBreakerPolicy {
  pol_Enabled : bool;
  pol_FailureThreshold : Z;
  pol_SuccessThreshold : Z;
  pol_OpenFor : Z
}.

Record Breaker := mkBreaker {
  bk_policy : BreakerPolicy;
  bk_state : BreakerState;
  bk_failureCount : Z;
  bk_successCount : Z;
  bk_openedAt : Z;
  bk_probeInFlight : bool
}.

Definition NewBreaker (policy : BreakerPolicy) : Breaker :=
  mkBreaker policy BreakerClosed 0 0 0 false.

(** [Allow]; [now] is the instant [time.Since] reads. *)
Definition Allow (now : Z) (b : Breaker) : (bool * string) * Breaker :=
  if negb (pol_Enabled (bk_policy b)) then ((true, "closed"), b)
  else
    match bk_state b with
    | BreakerClosed => ((true, "closed"), b)
    | BreakerOpen =>
        if pol_OpenFor (bk_policy b) <=? now - bk_openedAt b then
          ((true, "half-open"), mkBreaker (bk_policy b) BreakerHalfOpen 0 0 (bk_openedAt b) true)
        else ((false, "open"), b)
    | BreakerHalfOpen =>
        if bk_probeInFlight b then ((false, "open"), b)
        else
          ((true, "half-open"),
           mkBreaker (bk_policy b) BreakerHalfOpen (bk_failureCount b) (bk_successCount b) (bk_openedAt b) true)
    end.

Definition RecordSuccess (b : Breaker) : Breaker :=
  if negb (pol_Enabled (bk_policy b)) then b
  else
    match bk_state b with
    | BreakerHalfOpen =>
        let successCount := wrap64 (bk_successCount b + 1) in
        if pol_SuccessThreshold (bk_policy b) <=? successCount then
          mkBreaker (bk_policy b) BreakerClosed 0 0 (bk_openedAt b) false
        else mkBreaker (bk_policy b) BreakerHalfOpen (bk_failureCount b) successCount (bk_openedAt b) false
    | BreakerClosed =>
        mkBreaker (bk_policy b) BreakerClosed 0 (bk_successCount b) (bk_openedAt b) (bk_probeInFlight b)
    | BreakerOpen => b
    end.

(** [RecordFailure]; [now] is the [time.Now()] it stamps. *)
Definition RecordFailure (now : Z) (b : Breaker) : Breaker :=
  if negb (pol_Enabled (bk_policy b)) then b
  else
    match bk_state b with
    | BreakerClosed =>
        let failureCount := wrap64 (bk_failureCount b + 1) in
        if pol_FailureThreshold (bk_policy b) <=? failureCount then
          mkBreaker (bk_policy b) BreakerOpen 0 0 now (bk_probeInFlight b)
        else
          mkBreaker (bk_policy b) BreakerClosed failureCount (bk_successCount b) (bk_openedAt b) (bk_probeInFlight b)
    | BreakerHalfOpen => mkBreaker (bk_policy b) BreakerOpen 0 0 now false
    | BreakerOpen => b
    end.

Definition SnapshotState (b : Breaker) : string :=
  if negb (pol_Enabled (bk_policy b)) then "closed" else breakerStateString (bk_state b).

(** *** Traces

    The mutex serializes the calls, so a run of concurrent callers is a sequence
    of them. *)
Inductive BreakerEvent := EvAllow (now : Z) | EvSuccess | EvFailure (now : Z).

Definition breakerStep (b : Breaker) (ev : BreakerEvent) : Breaker :=
  match ev with
  | EvAllow now => (Allow now b).2
  | EvSuccess => RecordSuccess b
  | EvFailure now => RecordFailure now b
  end.

Definition breakerRun (b : Breaker) (evs : list BreakerEvent) : Breaker := foldl breakerStep b evs.

(** A policy as the configuration resolves it: positive thresholds. *)
Definition policyOk (p : BreakerPolicy) : Prop :=
  0 < pol_FailureThreshold p <= int64_max /\ 0 < pol_SuccessThreshold p <= int64_max.

Record breakerOk (b : Breaker) : Prop := mkBreakerOk {
  bo_policy : policyOk (bk_policy b);
  bo_closed : bk_state b = BreakerClosed ->
    0 <= bk_failureCount b < pol_FailureThreshold (bk_policy b) /\ bk_successCount b = 0 /\ bk_probeInFlight b = false;
  bo_open : bk_state b = BreakerOpen ->
    bk_failureCount b = 0 /\ bk_successCount b = 0 /\ bk_probeInFlight b = false;
  bo_half : bk_state b = BreakerHalfOpen ->
    0 <= bk_successCount b < pol_SuccessThreshold (bk_policy b) /\ bk_failureCount b = 0
}.

(** ** Lemmas *)

Lemma NewBreaker_ok p : policyOk p -> breakerOk (NewBreaker p).
Proof. intros [Hf Hs]. split; simpl; try done. intros _. lia. Qed.

Lemma breakerStep_policy b ev : bk_policy (breakerStep b ev) = bk_policy b.
Proof.
  destruct ev; simpl; unfold Allow, RecordSuccess, RecordFailure; by repeat case_match.
Qed.

(** Counters stay far from the width of an int. *)
Lemma wrap_succ n m : 0 <= n < m -> m <= int64_max -> wrap64 (n + 1) = n + 1.
Proof. intros Hn Hm. apply wrap64_id. unfold is_int64, int64_min, int64_max in *. lia. Qed.

Lemma breakerStep_ok b ev : breakerOk b -> breakerOk (breakerStep b ev).
Proof.
  intros [Hp Hc Ho Hh]. pose proof Hp as [[Hf1 Hf2] [Hs1 Hs2]].
  destruct ev as [now| |now]; simpl; unfold Allow, RecordSuccess, RecordFailure;
    (destruct (pol_Enabled (bk_policy b)); simpl; [|by split]);
    destruct (bk_state b) eqn:E;
    try specialize (Hc eq_refl); try specialize (Ho eq_refl); try specialize (Hh eq_refl);
    try case_match; simpl; try (split; simpl; rewrite ?E; by auto); try (split; simpl; done || naive_solver lia).
  - rewrite (wrap_succ _ (pol_SuccessThreshold (bk_policy b))) in * by lia. split; simpl; try done.
    intros _. apply Z.leb_gt in H. lia.
  - rewrite (wrap_succ _ (pol_FailureThreshold (bk_policy b))) in * by lia. split; simpl; try done.
    intros _. apply Z.leb_gt in H. naive_solver lia.
Qed.

Lemma breakerRun_ok b evs : breakerOk b -> breakerOk (breakerRun b evs).
Proof.
  revert b. induction evs as [|ev evs IH]; intros b Hb; simpl; [done|]. by apply IH, breakerStep_ok.
Qed.

(** Consecutive failures on a closed breaker. *)
Lemma failures_count p n nows b :
  policyOk p -> bk_policy b = p -> pol_Enabled p = true -> bk_state b = BreakerClosed ->
  bk_failureCount b = n -> 0 <= n ->
  n + Z.of_nat (length nows) < pol_FailureThreshold p ->
  let b' := breakerRun b (EvFailure <$> nows) in
  bk_state b' = BreakerClosed /\ bk_failureCount b' = n + Z.of_nat (length nows) /\ bk_policy b' = p.
Proof.
  intros [Hf _] Hp He. revert b n Hp. induction nows as [|t nows IH]; intros b n Hp Hst Hn Hn0 Hlt; csimpl in *.
  - split_and!; [done|lia|done].
  - set (b1 := RecordFailure t b).
    assert (Hb1 : bk_state b1 = BreakerClosed /\ bk_failureCount b1 = n + 1 /\ bk_policy b1 = p).
    { unfold b1, RecordFailure. rewrite Hp, He, Hst. simpl. rewrite Hn, (wrap_succ n (pol_FailureThreshold p)) by lia.
      destruct (Z.leb_spec (pol_FailureThreshold p) (n + 1)); [lia|done]. }
    destruct Hb1 as (H1 & H2 & H3). destruct (IH b1 (n + 1) H3 H1 H2) as (? & ? & ?); [lia|lia|].
    split_and!; [done|lia|done].
Qed.

(** A probe in flight keeps every other caller out. *)
Lemma probe_excludes b nows :
  pol_Enabled (bk_policy b) = true -> bk_state b = BreakerHalfOpen -> bk_probeInFlight b = true ->
  breakerRun b (EvAllow <$> nows) = b.
Proof.
  intros He Hs Hp. induction nows as [|t nows IH]; csimpl; [done|].
  assert (Hb : (Allow t b).2 = b) by (unfold Allow; by rewrite He, Hs, Hp).
  by rewrite Hb.
Qed.

(** *** The curve *)

(** The two caps at the end of [Backoff]. *)
Lemma clamp_bounds m d :
  0 <= m -> 0 <= (if (if m <? d then m else d) <? 0 then m else (if m <? d then m else d)) <= m.
Proof. intros Hm. destruct (Z.ltb_spec m d); [destruct (Z.ltb_spec m 0)|destruct (Z.ltb_spec d 0)]; lia. Qed.

Lemma clamp_min m d :
  0 <= m -> 0 <= d -> (if (if m <? d then m else d) <? 0 then m else (if m <? d then m else d)) = Z.min d m.
Proof. intros Hm Hd. destruct (Z.ltb_spec m d); [destruct (Z.ltb_spec m 0)|destruct (Z.ltb_spec d 0)]; lia. Qed.

Lemma shift_small i a :
  0 < i -> 1 <= a -> i * 2 ^ (a - 1) <= int64_max -> wrap64 (Z.shiftl i (a - 1)) = i * 2 ^ (a - 1).
Proof.
  intros Hi Ha Hm. rewrite Z.shiftl_mul_pow2 by lia. apply wrap64_id.
  unfold is_int64, int64_min. assert (0 < 2 ^ (a - 1)) by (apply Z.pow_pos_nonneg; lia). nia.
Qed.
