(* ===== verification/HttpClient.v ===== *)
(** * Retry and circuit breaker of the HTTP client

    [infra/httpclient/retry.go] and [infra/httpclient/breaker_middleware.go] over
    the state machines of [Resilience.v].  The world [W] is the upstream with the
    clock and the request's context: what a call, a sleep and a look at the clock
    do to it is a parameter. *)

From S2P Require Import Prelude GoStrings Resilience.
From stdpp Require Import base gmap strings list fin_maps.
From Stdlib Require Import Ascii ZArith Lia.

Open Scope string_scope.
Open Scope list_scope.
Open Scope Z_scope.

(** ** Outcomes *)

(** An error as the code can tell it apart, with [errors.Is] and [errors.As]. *)
Record HttpErr := mkHttpErr {
  er_canceled : bool;
  er_circuitOpen : bool;
  er_tokenAcquire : bool;
  er_deadline : bool;
  er_urlTimeout : bool;
  er_dns : bool;
  er_opError : bool;
  er_netError : option bool  (* a net.Error in the chain, and its Timeout() *)
}.

Definition ErrCircuitOpen : HttpErr := mkHttpErr false true false false false false false None.

Record HttpResp := mkHttpResp { rp_StatusCode : Z; rp_RetryAfter : string }.

(** The pair [(resp, err)]. *)
Abbreviation RoundTrip := (option HttpResp * option HttpErr)%type.

Record RetryPolicy := mkRetryPolicy {
  rt_maxAttempts : Z;
  rt_backoff : BackoffStrategy;
  rt_initialDelay : Z;
  rt_maxDelay : Z;
  rt_retryOnStatus : gset Z;
  rt_retryOnNetwork : bool;
  rt_retryOnTimeout : bool;
  rt_retryOnDNS : bool;
  rt_respectRetryAfter : bool
}.

Definition disabled (p : RetryPolicy) : bool := rt_maxAttempts p <=? 1.

(** ** Classification *)

Definition isTimeout (e : HttpErr) : bool := er_urlTimeout e || default false (er_netError e).
Definition isDNSError (e : HttpErr) : bool := er_dns e.
Definition isNetworkError (e : HttpErr) : bool :=
  isDNSError e || er_opError e || bool_decide (is_Some (er_netError e)).

Definition shouldRetry (o : RoundTrip) (p : RetryPolicy) : bool :=
  match o.2 with
  | Some e =>
      if er_canceled e then false
      else if er_circuitOpen e then false
      else if er_tokenAcquire e then false
      else if rt_retryOnTimeout p && (er_deadline e || isTimeout e) then true
      else if rt_retryOnDNS p && isDNSError e then true
      else if rt_retryOnNetwork p && isNetworkError e then true
      else false
  | None =>
      match o.1 with
      | None => false
      | Some resp => bool_decide (rp_StatusCode resp ∈ rt_retryOnStatus p)
      end
  end.

(** ** Waiting *)

Definition Second : Z := 1000000000.

Section Client.
Context {W : Type}.

(** The parameters: [Int63n], [http.ParseTime] with [time.Until] at the current
    instant, the clock, and a sleep that answers whether it completed. *)
Context (rnd : Z -> Z) (untilDate : W -> string -> option Z) (clock : W -> Z) (sleepCtx : Z -> W -> bool * W).

Definition parseRetryAfter (w : W) (v : string) : option Z :=
  if String.eqb v "" then None
  else
    match atoi v with
    | Some n => if n <? 0 then None else Some (wrap64 (n * Second))
    | None =>
        match untilDate w v with
        | Some d => if d <? 0 then None else Some d
        | None => None
        end
    end.

Definition computeBackoff (p : RetryPolicy) (attempt : Z) : Z :=
  Backoff rnd (mkBackoffPolicy (rt_backoff p) (rt_initialDelay p) (rt_maxDelay p)) attempt.

Definition computeWait (p : RetryPolicy) (attempt : Z) (w : W) (resp : option HttpResp) : Z :=
  match (if rt_respectRetryAfter p then resp ≫= (fun r => parseRetryAfter w (rp_RetryAfter r)) else None) with
  | Some d => if rt_maxDelay p <? d then rt_maxDelay p else d
  | None => computeBackoff p attempt
  end.

(** ** The retry middleware *)

(** The half of the observation these middlewares write. *)
Record Observation := mkObs { ob_Attempt : Z; ob_BreakerState : string }.

Definition setAttempt (n : Z) (o : Observation) : Observation := mkObs n (ob_BreakerState o).
Definition setBreakerState (s : string) (o : Observation) : Observation := mkObs (ob_Attempt o) s.

(** A round tripper of the chain, on its own state [X] around the world. *)
Definition roundTripper (X : Type) : Type := Observation * X -> RoundTrip * (Observation * X).

(** The loop from [attempt] on, [k] attempts left to make; the sleeps of the loop
    act on the world inside [X]. *)
Fixpoint retryLoop {X} (p : RetryPolicy) (world : X -> W) (setWorld : W -> X -> X) (next : roundTripper X)
  (k : nat) (attempt : Z) (s : Observation * X) : RoundTrip * (Observation * X) :=
  match k with
  | O => ((None, None), s)
  | S k =>
      let s := (setAttempt attempt s.1, s.2) in
      let '(o, s) := next s in
      if negb (shouldRetry o p) then (o, s)
      else if bool_decide (attempt = rt_maxAttempts p) then (o, s)
      else
        let '(completed, w) := sleepCtx (computeWait p attempt (world s.2) o.1) (world s.2) in
        let s := (s.1, setWorld w s.2) in
        if negb completed then (o, s) else retryLoop p world setWorld next k (attempt + 1) s
  end.

Definition retryMiddleware {X} (p : RetryPolicy) (streaming : bool) (world : X -> W) (setWorld : W -> X -> X)
  (next : roundTripper X) : roundTripper X :=
  fun s =>
    if streaming || disabled p then next (setAttempt 1 s.1, s.2)
    else retryLoop p world setWorld next (Z.to_nat (rt_maxAttempts p)) 1 s.

(** ** The breaker middleware *)

Definition breakerMiddleware (next : roundTripper W) : roundTripper (Breaker * W) :=
  fun '(obs, (b, w)) =>
    if negb (pol_Enabled (bk_policy b)) then
      let '(o, (obs, w)) := next (setBreakerState "closed" obs, w) in (o, (obs, (b, w)))
    else
      let '((ok, label), b) := Allow (clock w) b in
      let obs := setBreakerState label obs in
      if negb ok then ((None, Some ErrCircuitOpen), (obs, (b, w)))
      else
        let '(o, (obs, w)) := next (obs, w) in
        let b :=
          match o.2 with
          | Some _ => RecordFailure (clock w) b
          | None =>
              match o.1 with
              | Some resp => if 500 <=? rp_StatusCode resp then RecordFailure (clock w) b else RecordSuccess b
              | None => RecordSuccess b
              end
          end in
        (o, (setBreakerState (SnapshotState b) obs, (b, w))).

(** The two as the chain stacks them: the breaker inside the retry. *)
Definition retryOverBreaker (p : RetryPolicy) (streaming : bool) (next : roundTripper W) : roundTripper (Breaker * W) :=
  retryMiddleware p streaming snd (fun w x => (x.1, w)) (breakerMiddleware next).

End Client.
