(* ===== verification/ResilienceClaims.v ===== *)
(** * What the resilience core guarantees

    Bounds and shape of the backoff curves, the breaker's state machine, and the
    retry loop over it. *)

From S2P Require Import Prelude Resilience HttpClient.
From stdpp Require Import base gmap strings list fin_maps.
From Stdlib Require Import Ascii ZArith Lia.

Open Scope string_scope.
Open Scope list_scope.
Open Scope Z_scope.

(** ** Backoff *)

(** Every wait is bounded: for any strategy, any attempt number and any
    64-bit initial delay, overflow of the product or the shift included, the wait
    lies between zero and the policy's maximum. *)
Theorem backoff_is_bounded rnd p attempt :
  0 <= bp_MaxDelay p -> 0 <= Backoff rnd p attempt <= bp_MaxDelay p.
Proof.
  intros Hm. unfold Backoff. destruct (Z.leb_spec (bp_InitialDelay p) 0); [lia|].
  cbv zeta. by apply clamp_bounds.
Qed.

Lemma backoff_is_bounded_witness :
  0 <= Backoff (fun _ => 0) (mkBackoffPolicy BackoffExponential 100000000 5000000000) 40 <= 5000000000.
Proof. apply (backoff_is_bounded (fun _ => 0) (mkBackoffPolicy BackoffExponential 100000000 5000000000) 40). simpl. lia. Defined.

(** As long as the curve does not leave 64 bits it is the documented one,
    capped at the maximum: constant, linear in the attempt, doubling with it, or
    uniform below the doubled value. *)
Theorem backoff_curve rnd s i m a :
  Int63n_spec rnd -> 0 < i -> 0 <= m -> 1 <= a -> i * a <= int64_max -> i * 2 ^ (a - 1) <= int64_max ->
  let d := Backoff rnd (mkBackoffPolicy s i m) a in
  match s with
  | BackoffConstant | BackoffOther => d = Z.min i m
  | BackoffLinear => d = Z.min (i * a) m
  | BackoffExponential => d = Z.min (i * 2 ^ (a - 1)) m
  | BackoffExponentialJitter => 0 <= d /\ (d = 0 \/ d < Z.min (i * 2 ^ (a - 1)) m)
  end.
Proof.
  intros Hr Hi Hm Ha Hla Hex. unfold Backoff. simpl.
  destruct (Z.leb_spec i 0); [lia|]. destruct (Z.ltb_spec a 1); [lia|].
  rewrite shift_small by lia. assert (0 < 2 ^ (a - 1)) by (apply Z.pow_pos_nonneg; lia).
  pose proof (fun d => clamp_min m d Hm) as Hcap. destruct s; try (rewrite Hcap; nia).
  - rewrite wrap64_id by (unfold is_int64, int64_min; nia). rewrite Hcap; nia.
  - set (c := if m <? i * 2 ^ (a - 1) then m else i * 2 ^ (a - 1)).
    assert (Hc : c = Z.min (i * 2 ^ (a - 1)) m) by (unfold c; destruct (Z.ltb_spec m (i * 2 ^ (a - 1))); lia).
    assert (Hj : 0 <= Jitter rnd c /\ (Jitter rnd c = 0 \/ Jitter rnd c < c)).
    { unfold Jitter. destruct (Z.leb_spec c 0); [lia|]. specialize (Hr c). lia. }
    rewrite Hcap by lia. rewrite <- Hc. lia.
Qed.

Lemma backoff_curve_witness :
  Backoff (fun n => n - 1) (mkBackoffPolicy BackoffExponential 100000000 5000000000) 4 = 800000000.
Proof.
  refine (eq_trans (backoff_curve (fun n => n - 1) BackoffExponential 100000000 5000000000 4 _ _ _ _ _ _) _).
  - intros n Hn. lia.
  - lia.
  - lia.
  - lia.
  - vm_compute. discriminate.
  - vm_compute. discriminate.
  - reflexivity.
Defined.

(** An overflowing shift does not fall back to the maximum.  With an initial
    delay of 100 ms and a maximum of 5 s, attempt 57 shifts every bit out of the
    64-bit duration and the exponential curve waits not at all. *)
Theorem backoff_overflow_drops_to_zero :
  Backoff (fun _ => 0) (mkBackoffPolicy BackoffExponential 100000000 5000000000) 56 = 5000000000 /\
  Backoff (fun _ => 0) (mkBackoffPolicy BackoffExponential 100000000 5000000000) 57 = 0.
Proof. split; reflexivity. Qed.

(** ** The breaker *)

Definition samplePolicy : BreakerPolicy := mkBreakerPolicy true 3 2 1000.

Lemma samplePolicy_ok : policyOk samplePolicy.
Proof. unfold policyOk. simpl. unfold int64_max. lia. Qed.

(** C36: through any sequence of calls the breaker keeps its invariant: a closed
    one is below the failure threshold with no probe out, an open one has its
    counters cleared, a half-open one is below the success threshold; the counters
    never come near the width of an int. *)
Theorem breaker_invariant p evs : policyOk p -> breakerOk (breakerRun (NewBreaker p) evs).
Proof. intros Hp. by apply breakerRun_ok, NewBreaker_ok. Qed.

Lemma breaker_invariant_witness :
  breakerOk (breakerRun (NewBreaker samplePolicy) [EvFailure 1; EvFailure 2; EvFailure 3; EvAllow 2000; EvSuccess]).
Proof. apply (breaker_invariant samplePolicy). apply samplePolicy_ok. Defined.

(** A closed breaker trips on exactly the threshold-th consecutive failure.
    From a closed breaker whose last outcome was a success, any smaller number of
    failures leaves it closed and admitting; one more opens it at that instant,
    and from then on every call is refused until the open interval is over, when
    the next one is admitted as the probe. *)
Theorem breaker_trips_at_threshold b nows t :
  breakerOk b -> pol_Enabled (bk_policy b) = true -> bk_state b = BreakerClosed ->
  Z.of_nat (length nows) = pol_FailureThreshold (bk_policy b) - 1 ->
  let b1 := breakerRun (RecordSuccess b) (EvFailure <$> nows) in
  let b2 := RecordFailure t b1 in
  (forall now, Allow now b1 = ((true, "closed"), b1)) /\
  bk_state b2 = BreakerOpen /\ bk_openedAt b2 = t /\
  (forall now, now - t < pol_OpenFor (bk_policy b) -> Allow now b2 = ((false, "open"), b2)) /\
  (forall now, pol_OpenFor (bk_policy b) <= now - t ->
     (Allow now b2).1 = (true, "half-open") /\ bk_state (Allow now b2).2 = BreakerHalfOpen /\
     bk_probeInFlight (Allow now b2).2 = true).
Proof.
  intros [Hp _ _ _] He Hs Hlen b1 b2. set (p := bk_policy b) in *.
  assert (H0 : bk_state (RecordSuccess b) = BreakerClosed /\ bk_failureCount (RecordSuccess b) = 0 /\
            bk_policy (RecordSuccess b) = p) by (unfold RecordSuccess; fold p; by rewrite He, Hs).
  destruct H0 as (Hs0 & Hf0 & Hp0). pose proof Hp as [[Hf Hfm] _].
  destruct (failures_count p 0 nows (RecordSuccess b) Hp Hp0 He Hs0 Hf0) as (H1 & H2 & H3); [lia|lia|].
  fold b1 in H1, H2, H3.
  assert (Hb2 : b2 = mkBreaker p BreakerOpen 0 0 t (bk_probeInFlight b1)).
  { unfold b2, RecordFailure. rewrite H3, He, H1, H2. simpl.
    rewrite (wrap_succ (0 + Z.of_nat (length nows)) (pol_FailureThreshold p)) by lia.
    destruct (Z.leb_spec (pol_FailureThreshold p) (0 + Z.of_nat (length nows) + 1)); [done|lia]. }
  split_and!.
  - intros now. unfold Allow. by rewrite H3, He, H1.
  - by rewrite Hb2.
  - by rewrite Hb2.
  - intros now Hn. rewrite Hb2. unfold Allow. simpl. rewrite He. simpl.
    by destruct (Z.leb_spec (pol_OpenFor p) (now - t)); [lia|].
  - intros now Hn. rewrite Hb2. unfold Allow. simpl. rewrite He. simpl.
    by destruct (Z.leb_spec (pol_OpenFor p) (now - t)); [|lia].
Qed.

Lemma breaker_trips_at_threshold_witness :
  let b2 := RecordFailure 30 (breakerRun (RecordSuccess (NewBreaker samplePolicy)) (EvFailure <$> [10; 20])) in
  bk_state b2 = BreakerOpen /\ Allow 500 b2 = ((false, "open"), b2).
Proof.
  destruct (breaker_trips_at_threshold (NewBreaker samplePolicy) [10; 20] 30) as (_ & Hs & _ & Hr & _).
  - apply NewBreaker_ok, samplePolicy_ok.
  - reflexivity.
  - reflexivity.
  - reflexivity.
  - split; [exact Hs|]. apply Hr. reflexivity.
Defined.

(** At most one probe at a time.  When a half-open breaker admits a call, every
    further call, however many and whenever, is refused until an outcome is
    recorded; a failing outcome reopens it at that instant and a success frees the
    next probe or closes it. *)
Theorem half_open_admits_one_probe b now b1 label nows :
  breakerOk b -> pol_Enabled (bk_policy b) = true -> bk_state b <> BreakerClosed ->
  Allow now b = ((true, label), b1) ->
  let b2 := breakerRun b1 (EvAllow <$> nows) in
  (forall t, Allow t b2 = ((false, "open"), b2)) /\
  (forall t, bk_state (RecordFailure t b2) = BreakerOpen /\ bk_openedAt (RecordFailure t b2) = t) /\
  bk_probeInFlight (RecordSuccess b2) = false.
Proof.
  intros _ He Hs Ha b2.
  assert (Hb1 : bk_state b1 = BreakerHalfOpen /\ bk_probeInFlight b1 = true /\ bk_policy b1 = bk_policy b).
  { unfold Allow in Ha. rewrite He in Ha. simpl in Ha. destruct (bk_state b); [done| |];
      case_match; by simplify_eq/=. }
  destruct Hb1 as (H1 & H2 & H3).
  assert (Hb2 : b2 = b1) by (apply probe_excludes; [by rewrite H3|done|done]). rewrite Hb2.
  split_and!.
  - intros t. unfold Allow. by rewrite H3, He, H1, H2.
  - intros t. unfold RecordFailure. by rewrite H3, He, H1.
  - unfold RecordSuccess. rewrite H3, He, H1. simpl. by case_match.
Qed.

Definition openedBreaker : Breaker := mkBreaker samplePolicy BreakerOpen 0 0 0 false.

Lemma half_open_admits_one_probe_witness :
  let b1 := (Allow 1000 openedBreaker).2 in
  Allow 1001 (breakerRun b1 (EvAllow <$> [1000; 1001])) = ((false, "open"), breakerRun b1 (EvAllow <$> [1000; 1001])).
Proof.
  destruct (half_open_admits_one_probe openedBreaker 1000 (Allow 1000 openedBreaker).2 "half-open" [1000; 1001])
    as (Hr & _).
  - split; [apply samplePolicy_ok|discriminate|done|discriminate].
  - reflexivity.
  - discriminate.
  - reflexivity.
  - apply Hr.
Defined.

(** The outcome of a call admitted before the breaker opened counts as a
    probe's.  A slow call is admitted while the breaker is closed, three others
    fail and open it, the interval passes and a probe is admitted; the slow call's
    success then frees the probe slot although the probe is still out, and a second
    probe is admitted beside it. *)
Theorem stale_success_admits_second_probe :
  let b0 := (Allow 0 (NewBreaker samplePolicy)).2 in
  let b1 := breakerRun b0 [EvFailure 1; EvFailure 2; EvFailure 3] in
  let probe := Allow 2000 b1 in
  probe.1 = (true, "half-open") /\ (Allow 2001 probe.2).1 = (false, "open") /\
  (Allow 2002 (RecordSuccess probe.2)).1 = (true, "half-open").
Proof. vm_compute. auto. Qed.

(** *** Recovery *)

(** A call that is admitted and succeeds. *)
Definition healthyCall (b : Breaker) (now : Z) : Breaker := breakerRun b [EvAllow now; EvSuccess].

(** The successes still missing until the breaker is closed. *)
Definition missing (b : Breaker) : Z :=
  match bk_state b with
  | BreakerClosed => 0
  | BreakerOpen => pol_SuccessThreshold (bk_policy b)
  | BreakerHalfOpen => pol_SuccessThreshold (bk_policy b) - bk_successCount b
  end.

Lemma healthyCall_progress b now :
  breakerOk b -> pol_Enabled (bk_policy b) = true -> bk_probeInFlight b = false -> pol_OpenFor (bk_policy b) <= now - bk_openedAt b ->
  let b' := healthyCall b now in
  (Allow now b).1.1 = true /\ bk_probeInFlight b' = false /\ bk_openedAt b' = bk_openedAt b /\ bk_policy b' = bk_policy b /\
  missing b' = Z.max 0 (missing b - 1).
Proof.
  intros [[_ Hs] Hc Ho Hh] He Hp Hn. unfold missing, healthyCall. simpl. unfold Allow. rewrite He. simpl. destruct (bk_state b) eqn:Es; simpl.
  - unfold RecordSuccess. rewrite He, Es. simpl. done.
  - destruct (Z.leb_spec (pol_OpenFor (bk_policy b)) (now - bk_openedAt b)); [|lia]. unfold RecordSuccess. simpl. rewrite He. simpl.
    rewrite wrap64_id by (unfold is_int64, int64_min, int64_max; lia).
    destruct (Z.leb_spec (pol_SuccessThreshold (bk_policy b)) (0 + 1)); simpl; split_and!; try done; lia.
  - rewrite Hp. unfold RecordSuccess. simpl. rewrite He. simpl. destruct (Hh eq_refl) as [[Hs0 Hs1] _].
    rewrite (wrap_succ _ (pol_SuccessThreshold (bk_policy b))) by lia.
    destruct (Z.leb_spec (pol_SuccessThreshold (bk_policy b)) (bk_successCount b + 1)); simpl; split_and!; try done; lia.
Qed.

(** C37: a breaker recovers.  Whatever happened before, once no probe is outstanding and
    the upstream answers: every call made after the open interval is admitted, and after
    as many successful calls as the success threshold, or more, the breaker is closed. *)
Theorem breaker_recovers b nows :
  breakerOk b -> pol_Enabled (bk_policy b) = true -> bk_probeInFlight b = false ->
  Forall (fun now => pol_OpenFor (bk_policy b) <= now - bk_openedAt b) nows ->
  pol_SuccessThreshold (bk_policy b) <= Z.of_nat (length nows) ->
  bk_state (foldl healthyCall b nows) = BreakerClosed /\
  forall before now after, nows = before ++ now :: after -> (Allow now (foldl healthyCall b before)).1.1 = true.
Proof.
  intros Hb He Hp Hn Hlen. assert (Hm : missing b <= Z.of_nat (length nows)).
  { destruct Hb as [[_ Hs] _ _ Hh]. unfold missing. destruct (bk_state b); [lia|lia|]. destruct (Hh eq_refl). lia. }
  clear Hlen. revert b Hb He Hp Hn Hm. induction nows as [|now nows IH]; intros b Hb He Hp Hn Hm; simpl in *.
  - split; [|by intros [] ? ?]. destruct Hb as [[_ Hs] _ _ Hh]. unfold missing in Hm. destruct (bk_state b); [done|lia|].
    destruct (Hh eq_refl). lia.
  - apply Forall_cons in Hn as [Hn0 Hn]. destruct (healthyCall_progress b now Hb He Hp Hn0) as (Ha & H1 & H2 & H3 & H4).
    destruct (IH (healthyCall b now)) as [Hc Hall].
    + by apply breakerRun_ok.
    + by rewrite H3.
    + done.
    + by rewrite H2, H3.
    + rewrite H4. lia.
    + split; [done|]. intros [|x before] n after [= <- ->]; [done|]. by eapply Hall.
Qed.

Lemma breaker_recovers_witness : bk_state (foldl healthyCall openedBreaker [1000; 1500]) = BreakerClosed.
Proof.
  destruct (breaker_recovers openedBreaker [1000; 1500]) as [Hc _].
  - split; [apply samplePolicy_ok|discriminate|done|discriminate].
  - reflexivity.
  - reflexivity.
  - repeat constructor; simpl; lia.
  - simpl. lia.
  - exact Hc.
Defined.

(** ** The retry loop *)

Section Retry.
Context {W X : Type} (rnd : Z -> Z) (untilDate : W -> string -> option Z) (sleepCtx : Z -> W -> bool * W).
Context (p : RetryPolicy) (world : X -> W) (setWorld : W -> X -> X) (next : roundTripper X).

(** The next round tripper with a log of the outcomes it gave. *)
Definition logged : roundTripper (list RoundTrip * X) :=
  fun '(obs, (log, x)) => let '(o, (obs', x')) := next (obs, x) in (o, (obs', (log ++ [o], x'))).

Definition setLogged (w : W) (s : list RoundTrip * X) : list RoundTrip * X := (s.1, setWorld w s.2).

Definition loop := retryLoop rnd untilDate sleepCtx p (world ∘ snd) setLogged logged.

(** From attempt [a] with [k] attempts left, the loop makes between one and [k]
    calls; all but the last one were worth a retry; it returns the last outcome;
    and unless a sleep was cut short it stopped because that outcome was final or
    the attempts were used up. *)
Lemma retryLoop_log k a s :
  (0 < k)%nat -> a + Z.of_nat k - 1 = rt_maxAttempts p ->
  exists outs o, (loop k a s).1 = o /\ (loop k a s).2.2.1 = s.2.1 ++ outs ++ [o] /\
    Forall (fun r => shouldRetry r p = true) outs /\ (length outs < k)%nat /\
    ((forall d w, (sleepCtx d w).1 = true) -> shouldRetry o p = false \/ Datatypes.S (length outs) = k).
Proof.
  unfold loop. revert a s. induction k as [|k IH]; intros a s Hk Ha; [lia|]. destruct s as [obs [log x]].
  simpl. destruct (next (setAttempt a obs, x)) as [o [obs' x']]. simpl.
  assert (Hstop : (shouldRetry o p = false \/ k = 0%nat \/ exists d w, (sleepCtx d w).1 = false) ->
            exists outs o', o = o' /\ log ++ [o] = log ++ outs ++ [o'] /\
              Forall (fun r => shouldRetry r p = true) outs /\ (length outs < Datatypes.S k)%nat /\
              ((forall d w, (sleepCtx d w).1 = true) -> shouldRetry o' p = false \/ Datatypes.S (length outs) = Datatypes.S k)).
  { intros Hwhy. exists [], o. simpl. split_and!; [done|done|done|lia|]. intros Hsl.
    destruct Hwhy as [?|[->|(d & w & Hd)]]; [by left|by right|by rewrite Hsl in Hd]. }
  destruct (shouldRetry o p) eqn:Er; simpl; [|apply Hstop; auto].
  case_bool_decide as Hmax; [apply Hstop; right; left; lia|].
  destruct (sleepCtx _ _) as [[] w'] eqn:Es; simpl; [|apply Hstop; right; right; do 2 eexists; by rewrite Es].
  destruct (IH (a + 1) (obs', setLogged w' (log ++ [o], x'))) as (outs & o' & H1 & H2 & H3 & H4 & H5); [lia|lia|].
  exists (o :: outs), o'. split_and!; [done| |by constructor|simpl; lia|].
  - rewrite H2. simpl. by rewrite <- app_assoc.
  - intros Hsl. destruct (H5 Hsl) as [?|?]; [by left|right; simpl; lia].
Qed.

(** The retry middleware always returns, after at least one and at most
    [maxAttempts] calls (one, for a streaming upload or a disabled policy).  Every
    call but the last had an outcome worth a retry, the caller gets the last
    outcome, and when no sleep is cut short by the caller's context the loop only
    gives up on an outcome that is final or when the attempts are used up. *)
Theorem retry_is_bounded streaming s :
  exists outs o,
    let r := retryMiddleware rnd untilDate sleepCtx p streaming (world ∘ snd) setLogged logged s in
    r.1 = o /\ r.2.2.1 = s.2.1 ++ outs ++ [o] /\
    Forall (fun x => shouldRetry x p = true) outs /\
    Z.of_nat (length outs) < Z.max 1 (if streaming then 1 else rt_maxAttempts p) /\
    ((forall d w, (sleepCtx d w).1 = true) -> streaming = false -> 1 < rt_maxAttempts p ->
     shouldRetry o p = false \/ Z.of_nat (length outs) + 1 = rt_maxAttempts p).
Proof.
  unfold retryMiddleware, disabled. destruct (streaming || (rt_maxAttempts p <=? 1)) eqn:E.
  - destruct s as [obs [log x]]. simpl. destruct (next (setAttempt 1 obs, x)) as [o [obs' x']]. simpl.
    exists [], o. split_and!; [done|done|done|simpl; lia|]. intros _ -> Hm. simpl in E.
    apply Z.leb_le in E. lia.
  - apply orb_false_iff in E as [-> E]. apply Z.leb_gt in E.
    destruct (retryLoop_log (Z.to_nat (rt_maxAttempts p)) 1 s) as (outs & o & H1 & H2 & H3 & H4 & H5); [lia|lia|].
    exists outs, o. split_and!; [done|done|done|lia|]. intros Hsl _ _. destruct (H5 Hsl); [by left|right; lia].
Qed.

End Retry.

(** An open breaker shields the upstream and ends the retry.  While the open
    interval lasts, a call through the retry middleware makes a single attempt
    that the breaker refuses: the upstream is not called, no time is spent
    waiting, and breaker and world are as they were. *)
Theorem open_breaker_shields_upstream {W} rnd untilDate (clock : W -> Z) sleepCtx p streaming (next : roundTripper W) obs b w :
  pol_Enabled (bk_policy b) = true -> bk_state b = BreakerOpen ->
  clock w - bk_openedAt b < pol_OpenFor (bk_policy b) ->
  retryOverBreaker rnd untilDate clock sleepCtx p streaming next (obs, (b, w)) =
  ((None, Some ErrCircuitOpen), (mkObs 1 "open", (b, w))).
Proof.
  intros He Hs Ht. assert (Hb : forall o, breakerMiddleware clock next (o, (b, w)) =
    ((None, Some ErrCircuitOpen), (setBreakerState "open" o, (b, w)))).
  { intros o. unfold breakerMiddleware, Allow. rewrite He, Hs. simpl.
    by destruct (Z.leb_spec (pol_OpenFor (bk_policy b)) (clock w - bk_openedAt b)); [lia|]. }
  unfold retryOverBreaker, retryMiddleware, disabled.
  destruct (streaming || (rt_maxAttempts p <=? 1)) eqn:E; [cbn [fst snd]; by rewrite Hb|].
  apply orb_false_iff in E as [_ E]. apply Z.leb_gt in E.
  destruct (Z.to_nat (rt_maxAttempts p)) as [|k] eqn:Ek; [lia|]. cbn [retryLoop fst snd]. by rewrite Hb.
Qed.

Definition sampleRetry : RetryPolicy :=
  mkRetryPolicy 3 BackoffConstant 100 1000 {[502; 503]} true true true true.

Lemma open_breaker_shields_upstream_witness :
  retryOverBreaker (W := Z) (fun _ => 0) (fun _ _ => None) (fun now => now) (fun d w => (true, w + d)) sampleRetry false
    (fun '(obs, w) => ((Some (mkHttpResp 200 ""), None), (obs, w + 1))) (mkObs 0 "", (openedBreaker, 500)) =
  ((None, Some ErrCircuitOpen), (mkObs 1 "open", (openedBreaker, 500))).
Proof. apply (open_breaker_shields_upstream (W := Z)); reflexivity. Defined.

(** No wait between attempts exceeds the policy's maximum, whatever the
    upstream asks for in a [Retry-After] header, in seconds or as a date. *)
Theorem waits_are_capped {W} rnd untilDate p attempt (w : W) resp :
  0 <= rt_maxDelay p -> computeWait rnd untilDate p attempt w resp <= rt_maxDelay p.
Proof.
  intros Hm. unfold computeWait. destruct (if rt_respectRetryAfter p then _ else None) as [d|].
  - destruct (Z.ltb_spec (rt_maxDelay p) d); lia.
  - unfold computeBackoff, Backoff. simpl. destruct (Z.leb_spec (rt_initialDelay p) 0); [lia|]. cbv zeta.
    by apply clamp_bounds.
Qed.

Lemma waits_are_capped_witness :
  computeWait (fun _ => 0) (fun (_ : unit) _ => None) sampleRetry 1 tt (Some (mkHttpResp 503 "3600")) <= 1000.
Proof. apply (waits_are_capped (fun _ => 0) (fun (_ : unit) _ => None) sampleRetry). simpl. lia. Defined.

(** A [Retry-After] whose nanoseconds do not fit 64 bits wraps to a negative
    duration, which passes under the cap: the retry waits not at all, while a
    header of one hour waits for the whole maximum. *)
Theorem huge_retry_after_is_not_waited :
  computeWait (fun _ => 0) (fun (_ : unit) _ => None) sampleRetry 1 tt (Some (mkHttpResp 503 "3600")) = 1000 /\
  computeWait (fun _ => 0) (fun (_ : unit) _ => None) sampleRetry 1 tt (Some (mkHttpResp 503 "9223372037")) < 0.
Proof. split; vm_compute; reflexivity. Qed.
