(* ===== verification/Criteria.v ===== *)
(** * The criteria DSL and the table schema it resolves against

    [infra/db/criteria/expr.go], [infra/db/criteria/builder.go], the resolution
    surface of [infra/db/core/table_schema.go] and [infra/db/core/identifier.go]. *)

From S2P Require Import Prelude Naming GoStrings BaseEntity.
From stdpp Require Import base gmap strings list fin_maps.
From Stdlib Require Import Ascii ZArith Lia.

Open Scope string_scope.
Open Scope list_scope.

(** ** Identifiers ([infra/db/core/identifier.go]) *)

Definition identRune (c : ascii) : bool :=
  let n := nat_of_ascii c in
  ((97 <=? n) && (n <=? 122) || (65 <=? n) && (n <=? 90) || (48 <=? n) && (n <=? 57) || (n =? 95))%nat%bool.

Definition SafeIdentifier (name : string) : bool :=
  negb (String.eqb name "") && allRunes identRune name.

(** ** Table schemas ([infra/db/core/table_schema.go]) *)

Inductive IDKind := IDNone | IDValue | IDPointer.

#[export] Instance IDKind_eq_dec : EqDecision IDKind.
Proof. solve_decision. Defined.

(** A mapped field; [sf_pointer] is whether its Go type is a pointer, [None] when
    the field resolves to no struct position. *)
Record schemaField := mkSchemaField { sf_column : string; sf_idKind : IDKind; sf_pointer : option bool }.

(** A sibling or a shared base, as far as resolution reads it. *)
Record Satellite := mkSatellite {
  st_table : string; st_idGo : string; st_idColumn : string; st_byGo : gmap string schemaField
}.

Record TableSchema := mkTableSchema {
  ts_table : string;
  ts_typed : bool;
  ts_direct : bool;
  ts_idGo : string;
  ts_idColumn : string;
  ts_parentIDColumn : string;
  ts_byGo : gmap string schemaField;
  ts_archivedAt : string;
  ts_createdAt : string;
  ts_updatedAt : string;
  ts_siblings : list Satellite;
  ts_sharedBase : option (Satellite * string)
}.

Inductive FieldOwner := OwnerAnchor | OwnerSibling | OwnerSharedBase | OwnerJoin.

(** [rf_table] is the table of the schema the column belongs to, [None] for a
    field resolved without one. *)
Record ResolvedField := mkResolved {
  rf_Column : string; rf_table : option string; rf_Owner : FieldOwner; rf_Qualifier : string
}.

Abbreviation FieldResolver := (string -> option ResolvedField).

Definition columnIn (idGo idColumn : string) (byGo : gmap string schemaField) (goName : string) : option string :=
  if String.eqb goName idGo then Some idColumn else sf_column <$> byGo !! goName.

Definition ColumnOf (s : TableSchema) : string -> option string := columnIn (ts_idGo s) (ts_idColumn s) (ts_byGo s).

Definition satColumnOf (s : Satellite) : string -> option string := columnIn (st_idGo s) (st_idColumn s) (st_byGo s).

Definition nonEmpty (s : string) : option string := if String.eqb s "" then None else Some s.

(** The first sibling that has the field. *)
Fixpoint findSibling (goName : string) (l : list Satellite) : option ResolvedField :=
  match l with
  | [] => None
  | sib :: rest =>
      match satColumnOf sib goName with
      | Some c => Some (mkResolved c (Some (st_table sib)) OwnerSibling "")
      | None => findSibling goName rest
      end
  end.

Definition Resolve (s : TableSchema) (goName : string) : option ResolvedField :=
  let self c := mkResolved c (Some (ts_table s)) OwnerAnchor "" in
  let managed :=
    if String.eqb goName "CreatedAt" then nonEmpty (ts_createdAt s)
    else if String.eqb goName "UpdatedAt" then nonEmpty (ts_updatedAt s)
    else if String.eqb goName "ArchivedAt" then nonEmpty (ts_archivedAt s)
    else None in
  let parentID :=
    if String.eqb goName "ParentID" then
      match nonEmpty (ts_parentIDColumn s) with
      | Some c => Some c
      | None => ts_sharedBase s ≫= (fun link => nonEmpty link.2)
      end
    else None in
  match ColumnOf s goName with
  | Some c => Some (self c)
  | None =>
      match managed with
      | Some c => Some (self c)
      | None =>
          match parentID with
          | Some c => Some (self c)
          | None =>
              match findSibling goName (ts_siblings s) with
              | Some rf => Some rf
              | None =>
                  link ← ts_sharedBase s;
                  c ← satColumnOf link.1 goName;
                  Some (mkResolved c (Some (st_table link.1)) OwnerSharedBase "")
              end
          end
      end
  end.

Definition IDKindOf (s : TableSchema) (goField : string) : IDKind :=
  if String.eqb goField "ID" then IDValue else default IDNone (sf_idKind <$> ts_byGo s !! goField).

Definition ArchivedAtColumn (s : TableSchema) : option string := nonEmpty (ts_archivedAt s).

(** [fieldIsNullable]: [None] when it could not be determined. *)
Definition fieldIsNullable (s : TableSchema) (goField : string) : option bool :=
  if negb (ts_typed s) then None
  else if String.eqb goField (ts_idGo s) then Some (bool_decide (IDKindOf s goField = IDPointer))
  else f ← ts_byGo s !! goField; sf_pointer f.

(** ** Expressions ([infra/db/criteria/expr.go]) *)

(** [OpOther] is an operator outside the declared set. *)
Inductive Operator :=
| OpEq | OpNe | OpIn | OpNin | OpGt | OpGte | OpLt | OpLte | OpLike | OpILike | OpIsNull | OpNotNull
| OpOther (name : string).

#[export] Instance Operator_eq_dec : EqDecision Operator.
Proof. solve_decision. Defined.

Inductive LogicalOp := LogicalAnd | LogicalOr.
Inductive AggFunc := AggNone | AggCount | AggMax | AggMin | AggSum | AggAvg.
Inductive Quantifier := QuantNone | QuantAny | QuantAll.
Inductive Scope := ScopeActive | ScopeIncludeArchived | ScopeOnlyArchived.

#[export] Instance AggFunc_eq_dec : EqDecision AggFunc.
Proof. solve_decision. Defined.

Record OrderField := mkOrder { of_Field : string; of_Desc : bool }.

(** A probe value as the translator and the dialects tell it apart, after
    [UnwrapVO]: nil (or a nil pointer of another type), a bare string or string
    pointer, an id, a uuid, an instant (whether it is the zero one, and its text), an
    outer reference, or anything else. *)
Inductive Value :=
| VNil
| VString (s : string)
| VStringPtr (s : option string)
| VID (i : option ID)
| VUUID (u : string)
| VTime (zero : bool) (text : string)
| VTimePtr (t : option (bool * string))
| VOuter (field : string)
| VOther (repr : string).

(** The source of a subquery: a schema this backend reads, or something else. *)
Inductive Source := SrcSchema (s : TableSchema) | SrcForeign.

(** A subquery over predicates [E]. *)
Record SubQueryOf (E : Type) := mkSub {
  sq_Src : option Source;
  sq_Func : AggFunc;
  sq_Field : string;
  sq_Predicate : option E;
  sq_Order : list OrderField;
  sq_LimitN : Z;
  sq_Scope : Scope;
  sq_Quant : Quantifier;
  sq_selects : nat
}.

Arguments mkSub {E}.
Arguments sq_Src {E}.
Arguments sq_Func {E}.
Arguments sq_Field {E}.
Arguments sq_Predicate {E}.
Arguments sq_Order {E}.
Arguments sq_LimitN {E}.
Arguments sq_Scope {E}.
Arguments sq_Quant {E}.
Arguments sq_selects {E}.

Inductive Expr :=
| Comparison (field : string) (op : Operator) (values : list Value)
| Logical (op : LogicalOp) (operands : list Expr)
| Negation (inner : option Expr)
| SubqueryComparison (field : string) (op : Operator) (sub : option (SubQueryOf Expr))
| Existence (negated : bool) (sub : option (SubQueryOf Expr)).

Abbreviation SubQuery := (SubQueryOf Expr).

(** ** Builders ([infra/db/criteria/builder.go]) *)

Module Build.

Definition Eq (f : string) (v : Value) : Expr := Comparison f OpEq [v].
Definition Ne (f : string) (v : Value) : Expr := Comparison f OpNe [v].
Definition Gt (f : string) (v : Value) : Expr := Comparison f OpGt [v].
Definition Gte (f : string) (v : Value) : Expr := Comparison f OpGte [v].
Definition Lt (f : string) (v : Value) : Expr := Comparison f OpLt [v].
Definition Lte (f : string) (v : Value) : Expr := Comparison f OpLte [v].
Definition In (f : string) (vs : list Value) : Expr := Comparison f OpIn vs.
Definition Nin (f : string) (vs : list Value) : Expr := Comparison f OpNin vs.
Definition Like (f pattern : string) : Expr := Comparison f OpLike [VString pattern].
Definition ILike (f pattern : string) : Expr := Comparison f OpILike [VString pattern].
Definition IsNull (f : string) : Expr := Comparison f OpIsNull [].
Definition NotNull (f : string) : Expr := Comparison f OpNotNull [].

Definition And (operands : list Expr) : Expr := Logical LogicalAnd operands.
Definition Or (operands : list Expr) : Expr := Logical LogicalOr operands.
Definition Not (inner : Expr) : Expr := Negation (Some inner).

Definition Between (f : string) (lo hi : Value) : Expr := And [Gte f lo; Lte f hi].

(** [EscapeLike]: the replacer puts a backslash before each metacharacter. *)
Fixpoint EscapeLike (s : string) : string :=
  match s with
  | EmptyString => EmptyString
  | String c rest =>
      if (Ascii.eqb c "\" || Ascii.eqb c "%" || Ascii.eqb c "_")%char%bool
      then String "\" (String c (EscapeLike rest))
      else String c (EscapeLike rest)
  end.

Definition Contains (f s : string) : Expr := ILike f ("%" +:+ EscapeLike s +:+ "%").
Definition StartsWith (f s : string) : Expr := ILike f (EscapeLike s +:+ "%").
Definition EndsWith (f s : string) : Expr := ILike f ("%" +:+ EscapeLike s).

Definition Sub (src : option Source) : SubQuery :=
  mkSub src AggNone "" None [] 0 ScopeActive QuantNone 0.

Definition subAgg (fn : AggFunc) (goField : string) (s : SubQuery) : SubQuery :=
  mkSub (sq_Src s) fn goField (sq_Predicate s) (sq_Order s) (sq_LimitN s) (sq_Scope s) (sq_Quant s) (S (sq_selects s)).

Definition Select (goField : string) : SubQuery -> SubQuery := subAgg AggNone goField.
Definition SelectCount : SubQuery -> SubQuery := subAgg AggCount "".
Definition SelectMax (goField : string) : SubQuery -> SubQuery := subAgg AggMax goField.
Definition SelectMin (goField : string) : SubQuery -> SubQuery := subAgg AggMin goField.
Definition SelectSum (goField : string) : SubQuery -> SubQuery := subAgg AggSum goField.
Definition SelectAvg (goField : string) : SubQuery -> SubQuery := subAgg AggAvg goField.

Definition subWhere (e : Expr) (s : SubQuery) : SubQuery :=
  mkSub (sq_Src s) (sq_Func s) (sq_Field s) (Some e) (sq_Order s) (sq_LimitN s) (sq_Scope s) (sq_Quant s) (sq_selects s).

Definition subOrderBy (goField : string) (desc : bool) (s : SubQuery) : SubQuery :=
  mkSub (sq_Src s) (sq_Func s) (sq_Field s) (sq_Predicate s) (sq_Order s ++ [mkOrder goField desc]) (sq_LimitN s)
    (sq_Scope s) (sq_Quant s) (sq_selects s).

Definition subLimit (n : Z) (s : SubQuery) : SubQuery :=
  mkSub (sq_Src s) (sq_Func s) (sq_Field s) (sq_Predicate s) (sq_Order s) n (sq_Scope s) (sq_Quant s) (sq_selects s).

Definition subScope (sc : Scope) (s : SubQuery) : SubQuery :=
  mkSub (sq_Src s) (sq_Func s) (sq_Field s) (sq_Predicate s) (sq_Order s) (sq_LimitN s) sc (sq_Quant s) (sq_selects s).

Definition subQuant (q : Quantifier) (s : SubQuery) : SubQuery :=
  mkSub (sq_Src s) (sq_Func s) (sq_Field s) (sq_Predicate s) (sq_Order s) (sq_LimitN s) (sq_Scope s) q (sq_selects s).

Definition InSub (f : string) (q : SubQuery) : Expr := SubqueryComparison f OpIn (Some q).
Definition NinSub (f : string) (q : SubQuery) : Expr := SubqueryComparison f OpNin (Some q).
Definition EqSub (f : string) (q : SubQuery) : Expr := SubqueryComparison f OpEq (Some q).
Definition GtSub (f : string) (q : SubQuery) : Expr := SubqueryComparison f OpGt (Some q).
Definition Exists (q : SubQuery) : Expr := Existence false (Some q).
Definition NotExists (q : SubQuery) : Expr := Existence true (Some q).

End Build.

(** ** Structural induction on expressions *)

Section ExprInd.
Context (P : Expr -> Prop).
Hypothesis HC : forall f op vs, P (Comparison f op vs).
Hypothesis HL : forall op es, Forall P es -> P (Logical op es).
Hypothesis HN : forall inner, (forall e, inner = Some e -> P e) -> P (Negation inner).
Hypothesis HS : forall f op sub, (forall q e, sub = Some q -> sq_Predicate q = Some e -> P e) -> P (SubqueryComparison f op sub).
Hypothesis HE : forall n sub, (forall q e, sub = Some q -> sq_Predicate q = Some e -> P e) -> P (Existence n sub).

Fixpoint Expr_nested_ind (e : Expr) : P e.
Proof.
  destruct e as [f op vs|op es|[inner|]|f op [[src fn fld pred ord lim sc qu sel]|]|n [[src fn fld pred ord lim sc qu sel]|]].
  - apply HC.
  - apply HL. induction es as [|e es IH]; constructor; [apply Expr_nested_ind|exact IH].
  - apply HN. intros e [= <-]. apply Expr_nested_ind.
  - apply HN. intros e [=].
  - apply HS. intros q e [= <-]. simpl. destruct pred as [p|]; intros [= <-]. apply Expr_nested_ind.
  - apply HS. intros q e [=].
  - apply HE. intros q e [= <-]. simpl. destruct pred as [p|]; intros [= <-]. apply Expr_nested_ind.
  - apply HE. intros q e [=].
Defined.

End ExprInd.
