(* ===== verification/CriteriaSql.v ===== *)
(** * The SQL translator of criteria

    [infra/db/core/criteria_sql.go] over an abstract dialect
    ([infra/db/core/dialect.go]).

    The builder the visitor writes to is a list of tokens instead of a byte
    buffer, so that identifiers, placeholders and the words of the statement stay
    told apart; [sqlText] is the string the code has.  Go errors are [CritErr]
    values without their texts; the panic of [QuoteIdent] is a [Panic]. *)

From S2P Require Import Prelude Naming BaseEntity Criteria.
From stdpp Require Import base gmap strings list fin_maps.
From Stdlib Require Import Ascii ZArith Lia.

Open Scope string_scope.
Open Scope list_scope.
Open Scope go_scope.

(** ** Tokens *)

Inductive Tok :=
| TKw (text : string)
| TOpen
| TClose
| TAnd
| TOr
| TIdent (quoted : string)
| TDot
| TPlace (n : nat)
| TNum (n : Z).

(** ** The dialect seam ([infra/db/core/dialect.go]) *)

(** [Arg] is what the driver binds.  [None] of [d_QuoteIdent] and of [d_ApplyLimit]
    is a panic: an identifier off the allowlist, a statement that is no SELECT. *)
Record Dialect (Arg : Type) := mkDialect {
  d_Placeholder : nat -> string;
  d_QuoteIdent : string -> option string;
  d_EncodeArg : Value -> Arg;
  d_DecodeID : string -> string;
  d_ILikeClause : list Tok -> list Tok -> list Tok;
  d_LikeClause : list Tok -> list Tok -> list Tok;
  d_NowExpr : string;
  d_UTCNowExpr : string;
  d_ApplyLimit : list Tok -> Z -> option (list Tok);
  d_ApplyLimitOffset : list Tok -> Z -> Z -> list Tok;
  d_AllowsSubqueryOnWriteTarget : bool
}.

Arguments d_Placeholder {Arg}.
Arguments d_QuoteIdent {Arg}.
Arguments d_EncodeArg {Arg}.
Arguments d_DecodeID {Arg}.
Arguments d_ILikeClause {Arg}.
Arguments d_LikeClause {Arg}.
Arguments d_NowExpr {Arg}.
Arguments d_UTCNowExpr {Arg}.
Arguments d_ApplyLimit {Arg}.
Arguments d_ApplyLimitOffset {Arg}.
Arguments d_AllowsSubqueryOnWriteTarget {Arg}.

Definition limited {E Arg} (d : Dialect Arg) (sql : list Tok) (n : Z) : Outcome E (list Tok) :=
  match d_ApplyLimit d sql n with
  | Some t => Ret t
  | None => Panic "ApplyLimit requires a complete SELECT statement"
  end.

Definition tokText {Arg} (d : Dialect Arg) (t : Tok) : string :=
  match t with
  | TKw s => s
  | TOpen => "("
  | TClose => ")"
  | TAnd => " AND "
  | TOr => " OR "
  | TIdent q => q
  | TDot => "."
  | TPlace n => d_Placeholder d n
  | TNum n => itoa n
  end.

Definition sqlText {Arg} (d : Dialect Arg) (ts : list Tok) : string :=
  foldr (fun t acc => tokText d t +:+ acc) "" ts.

(** ** Errors *)

Inductive CritErr :=
| EUnknownField (field : string)
| ESubField (field table : string)
| ETakesNoValues (field : string)
| ERequiresOneValue (field : string)
| EUnsupportedOperator
| ENoOperands
| ENegatesNothing
| EOperatorTakesNoSubquery
| ENinOnNullable (field table : string)
| ENoSub
| ESubNil
| ESubForeign
| ENotDirect (table : string)
| EReadsWriteTarget (table : string)
| EExistsProjects
| ENoProjection
| EManyProjections
| ESubOrder (field : string)
| ELimitWithoutOrder
| EOuterOutside (field : string)
| EOuterUnknown (field : string)
| EInvalidFilterValue (field value : string).

(** ** Qualification *)

(** [IDQualifier] arrives already quoted. *)
Record ColQual := mkColQual { cq_Owner : bool; cq_IDCol : string; cq_IDQualifier : string }.

Definition noQual : ColQual := mkColQual false "" "".

(** ** Scopes *)

(** The fields of [sqlVisitor] that do not change while it walks.  Of the
    enclosing scope an inner one reads its resolver and its qualifier. *)
Record VScope := mkScope {
  vs_resolve : FieldResolver;
  vs_idKind : option (string -> IDKind);
  vs_qual : ColQual;
  vs_base : nat;
  vs_parent : option (FieldResolver * string);
  vs_selfQual : string;
  vs_depth : nat;
  vs_writeTarget : string;
  vs_srcSchema : option TableSchema
}.

(** *** Aliases *)

Definition fnvOffset : Z := 14695981039346656037%Z.
Definition fnvPrime : Z := 1099511628211%Z.

(** FNV-1a, 64 bits. *)
Fixpoint fnv64a (s : string) (h : Z) : Z :=
  match s with
  | EmptyString => h
  | String c rest => fnv64a rest ((Z.lxor h (Z.of_nat (nat_of_ascii c)) * fnvPrime) `mod` 2 ^ 64)%Z
  end.

Definition hexDigit (n : Z) : string := String (ascii_of_nat (Z.to_nat (if (n <? 10)%Z then 48 + n else 87 + n))) "".

Fixpoint hexDigits (fuel : nat) (n : Z) : string :=
  match fuel with
  | O => ""
  | S k => if (n <? 16)%Z then hexDigit n else hexDigits k (n / 16) +:+ hexDigit (n mod 16)
  end.

Definition subAliasBudget : nat := 48.

Definition subAlias (table : string) (depth : nat) : string :=
  let name := table +:+ "_sq" +:+ itoa (Z.of_nat depth) in
  if (String.length name <=? subAliasBudget)%nat then name
  else "sq" +:+ itoa (Z.of_nat depth) +:+ "_" +:+ hexDigits 16 (fnv64a table fnvOffset).

Section Translate.
Context {Arg : Type} (d : Dialect Arg).

(** [isUUID] is [domain.ID.IsUUID], a call of github.com/google/uuid. *)
Context (isUUID : string -> bool).

Abbreviation Res A := (Outcome CritErr A).

Definition quote (name : string) : Res (list Tok) :=
  match d_QuoteIdent d name with
  | Some q => Ret [TIdent q]
  | None => Panic "infra: invalid SQL identifier"
  end.

Definition QualifyCol (rf : ResolvedField) (q : ColQual) : Res (list Tok) :=
  let* col := quote (rf_Column rf) in
  if negb (String.eqb (rf_Qualifier rf) "") then
    let* t := quote (rf_Qualifier rf) in Ret (t ++ TDot :: col)
  else
    match (if cq_Owner q then rf_table rf else None) with
    | Some table => let* t := quote table in Ret (t ++ TDot :: col)
    | None =>
        if negb (String.eqb (cq_IDQualifier q) "") && String.eqb (rf_Column rf) (cq_IDCol q)
        then Ret (TIdent (cq_IDQualifier q) :: TDot :: col)
        else Ret col
    end.

(** *** Probes *)

Definition malformedIDProbe (v : Value) : option string :=
  match v with
  | VString t | VStringPtr (Some t) => if negb (String.eqb t "") && negb (isUUID t) then Some t else None
  | _ => None
  end.

Definition liftIDProbe (v : Value) : Value :=
  match v with
  | VString s => VID (Some (NewID s))
  | VStringPtr None => VID None
  | VStringPtr (Some s) => VID (Some (NewID s))
  | _ => v
  end.

(** [place]: check and lift a probe on an identity field, bind it, and yield its
    placeholder. *)
Definition place (sc : VScope) (goField : string) (v : Value) (args : list Arg) : Res (list Tok * list Arg) :=
  let isId := match vs_idKind sc with
              | Some k => match k goField with IDValue | IDPointer => true | IDNone => false end
              | None => false
              end in
  match (if isId then malformedIDProbe v else None) with
  | Some bad => Fail (EInvalidFilterValue goField bad)
  | None =>
      let v := if isId then liftIDProbe v else v in
      let args := args ++ [d_EncodeArg d v] in
      Ret ([TPlace (vs_base sc + length args)], args)
  end.

(** *** Columns *)

Definition column (sc : VScope) (goField : string) : Res (list Tok) :=
  match vs_resolve sc goField with
  | None =>
      match vs_srcSchema sc with
      | Some s => Fail (ESubField goField (ts_table s))
      | None => Fail (EUnknownField goField)
      end
  | Some rf =>
      if negb (String.eqb (vs_selfQual sc) "") then
        let* col := quote (rf_Column rf) in Ret (TIdent (vs_selfQual sc) :: TDot :: col)
      else QualifyCol rf (vs_qual sc)
  end.

Definition columnForInner (selfQual : string) (rf : ResolvedField) : Res (list Tok) :=
  if negb (String.eqb selfQual "") then
    let* col := quote (rf_Column rf) in Ret (TIdent selfQual :: TDot :: col)
  else QualifyCol rf (mkColQual true "" "").

Definition outerColumn (sc : VScope) (field : string) : Res (list Tok) :=
  match vs_parent sc with
  | None => Fail (EOuterOutside field)
  | Some (resolve, selfQual) =>
      match resolve field with
      | None => Fail (EOuterUnknown field)
      | Some rf => columnForInner selfQual rf
      end
  end.

Definition operand (sc : VScope) (goField : string) (v : Value) (args : list Arg) : Res (list Tok * list Arg) :=
  match v with
  | VOuter ref => let* col := outerColumn sc ref in Ret (col, args)
  | _ => place sc goField v args
  end.

(** The operands of an [IN] list, joined with commas. *)
Fixpoint operands (sc : VScope) (goField : string) (vs : list Value) (args : list Arg) : Res (list Tok * list Arg) :=
  match vs with
  | [] => Ret ([], args)
  | v :: rest =>
      let* x := operand sc goField v args in
      let* y := operands sc goField rest x.2 in
      Ret (x.1 ++ (match rest with [] => [] | _ => [TKw ", "] end) ++ y.1, y.2)
  end.

Definition binaryOp (op : Operator) : option string :=
  match op with
  | OpEq => Some "="
  | OpNe => Some "<>"
  | OpGt => Some ">"
  | OpGte => Some ">="
  | OpLt => Some "<"
  | OpLte => Some "<="
  | _ => None
  end.

Definition subqueryOp (op : Operator) : option string :=
  match op with
  | OpIn => Some "IN"
  | OpNin => Some "NOT IN"
  | _ => binaryOp op
  end.

Definition VisitComparison (sc : VScope) (field : string) (op : Operator) (values : list Value)
  (args : list Arg) : Res (list Tok * list Arg) :=
  let* col := column sc field in
  match op with
  | OpIsNull =>
      match values with [] => Ret (col ++ [TKw " IS NULL"], args) | _ => Fail (ETakesNoValues field) end
  | OpNotNull =>
      match values with [] => Ret (col ++ [TKw " IS NOT NULL"], args) | _ => Fail (ETakesNoValues field) end
  | OpIn | OpNin =>
      let nin := bool_decide (op = OpNin) in
      match values with
      | [] => Ret ([TKw (if nin then "1=1" else "1=0")], args)
      | _ =>
          let* x := operands sc field values args in
          Ret (col ++ TKw (if nin then " NOT IN " else " IN ") :: TOpen :: x.1 ++ [TClose], x.2)
      end
  | _ =>
      match values with
      | [v] =>
          let* x := operand sc field v args in
          match op with
          | OpILike => Ret (d_ILikeClause d col x.1, x.2)
          | OpLike => Ret (d_LikeClause d col x.1, x.2)
          | _ =>
              match binaryOp op with
              | None => Fail EUnsupportedOperator
              | Some o => Ret (col ++ TKw " " :: TKw o :: TKw " " :: x.1, x.2)
              end
          end
      | _ => Fail (ERequiresOneValue field)
      end
  end.

(** *** Clauses shared with the statement builders *)

(** [BuildWhereClause]; an empty fragment is absent. *)
Definition BuildWhereClause (where_ gate : list Tok) : list Tok :=
  match where_, gate with
  | [], [] => []
  | w, [] => TKw "WHERE " :: w
  | [], g => TKw "WHERE " :: g
  | w, g => TKw "WHERE " :: w ++ TAnd :: g
  end.

(** The archive gate; [qualifier] is quoted, or empty. *)
Definition ScopeGate (s : Scope) (schema : TableSchema) (qualifier : string) : Res (list Tok) :=
  match ArchivedAtColumn schema with
  | None => Ret []
  | Some col =>
      let* q := quote col in
      let qcol := if negb (String.eqb qualifier "") then TIdent qualifier :: TDot :: q else q in
      match s with
      | ScopeOnlyArchived => Ret (qcol ++ [TKw " IS NOT NULL"])
      | ScopeIncludeArchived => Ret []
      | ScopeActive => Ret (qcol ++ [TKw " IS NULL"])
      end
  end.

(** Terms of an [ORDER BY], joined; [onErr] is the caller's error for a field. *)
Fixpoint orderTerms (col : string -> Res (list Tok)) (order : list OrderField) : Res (list Tok) :=
  match order with
  | [] => Ret []
  | o :: rest =>
      let* c := col (of_Field o) in
      let* r := orderTerms col rest in
      Ret (c ++ TKw (if of_Desc o then " DESC" else " ASC") :: (match rest with [] => [] | _ => [TKw ", "] end) ++ r)
  end.

Definition CompileOrderQualified (order : list OrderField) (resolve : FieldResolver) (q : ColQual) : Res (list Tok) :=
  match order with
  | [] => Ret []
  | _ =>
      let* ts := orderTerms (fun f => match resolve f with
                                      | None => Fail (EUnknownField f)
                                      | Some rf => QualifyCol rf q
                                      end) order in
      Ret (TKw "ORDER BY " :: ts)
  end.

Definition subOrder (sc : VScope) (order : list OrderField) : Res (list Tok) :=
  match order with
  | [] => Ret []
  | _ =>
      let* ts := orderTerms (fun f => match column sc f with
                                      | Fail _ => Fail (ESubOrder f)
                                      | r => r
                                      end) order in
      Ret (TKw "ORDER BY " :: ts)
  end.

Definition aggText (f : AggFunc) : string :=
  match f with
  | AggNone => ""
  | AggCount => "COUNT"
  | AggMax => "MAX"
  | AggMin => "MIN"
  | AggSum => "SUM"
  | AggAvg => "AVG"
  end.

Definition subItem {E} (sc : VScope) (sq : SubQueryOf E) (schema : TableSchema) (existence : bool) : Res (list Tok) :=
  if existence then
    match sq_selects sq with O => Ret [TKw "1"] | _ => Fail EExistsProjects end
  else
    match sq_selects sq with
    | O => Fail ENoProjection
    | 1 =>
        if bool_decide (sq_Func sq = AggCount) then Ret [TKw "COUNT(*)"]
        else
          match Resolve schema (sq_Field sq) with
          | None => Fail (ESubField (sq_Field sq) (ts_table schema))
          | Some rf =>
              let* alias := quote (subAlias (ts_table schema) (S (vs_depth sc))) in
              let* c := quote (rf_Column rf) in
              let col := alias ++ TDot :: c in
              if bool_decide (sq_Func sq = AggNone) then Ret col
              else Ret (TKw (aggText (sq_Func sq)) :: TOpen :: col ++ [TClose])
          end
    | _ => Fail EManyProjections
    end.

Definition refuseNotInOnNullable {E} (sub : option (SubQueryOf E)) : Res unit :=
  match sub with
  | Some sq =>
      match sq_Src sq with
      | Some (SrcSchema schema) =>
          if String.eqb (sq_Field sq) "" then Ret tt
          else
            match fieldIsNullable schema (sq_Field sq) with
            | Some true => Fail (ENinOnNullable (sq_Field sq) (ts_table schema))
            | _ => Ret tt
            end
      | _ => Ret tt
      end
  | None => Ret tt
  end.

(** The scope of a subquery's own predicate and order. *)
Definition innerScope (sc : VScope) (schema : TableSchema) (alias : string) (bound : nat) : VScope :=
  mkScope (Resolve schema) (Some (IDKindOf schema)) noQual (vs_base sc + bound) (Some (vs_resolve sc, vs_selfQual sc))
    alias (S (vs_depth sc)) (vs_writeTarget sc) (Some schema).

(** [renderSub], with [visit] for the walk of its predicate in the inner scope. *)
Definition renderSub {E} (visit : VScope -> E -> list Arg -> Res (list Tok * list Arg))
  (sc : VScope) (sub : option (SubQueryOf E)) (existence : bool) (args : list Arg) : Res (list Tok * list Arg) :=
  match sub with
  | None => Fail ENoSub
  | Some sq =>
      match sq_Src sq with
      | None => Fail ESubNil
      | Some SrcForeign => Fail ESubForeign
      | Some (SrcSchema schema) =>
          if negb (ts_direct schema) then Fail (ENotDirect (ts_table schema))
          else if negb (String.eqb (vs_writeTarget sc) "") && negb (d_AllowsSubqueryOnWriteTarget d) &&
                  String.eqb (ts_table schema) (vs_writeTarget sc)
          then Fail (EReadsWriteTarget (ts_table schema))
          else
            let* item := subItem sc sq schema existence in
            match d_QuoteIdent d (subAlias (ts_table schema) (S (vs_depth sc))) with
            | None => Panic "infra: invalid SQL identifier"
            | Some alias =>
                let inner := innerScope sc schema alias (length args) in
                let* w := match sq_Predicate sq with
                          | Some p => visit inner p []
                          | None => Ret ([], [])
                          end in
                let* gate := ScopeGate (sq_Scope sq) schema alias in
                let* order := subOrder inner (sq_Order sq) in
                if ((0 <? sq_LimitN sq)%Z && bool_decide (order = []))%bool then Fail ELimitWithoutOrder
                else
                  let* table := quote (ts_table schema) in
                  let clause := BuildWhereClause w.1 gate in
                  let sql := TKw "SELECT " :: item ++ TKw " FROM " :: table ++ TKw " " :: TIdent alias ::
                             (match clause with [] => [] | _ => TKw " " :: clause end) ++
                             (match order with [] => [] | _ => TKw " " :: order end) in
                  let* sql := if (0 <? sq_LimitN sq)%Z then limited d sql (sq_LimitN sq) else Ret sql in
                  Ret (sql, args ++ w.2)
            end
      end
  end.

(** The operands of an AND/OR, joined. *)
Fixpoint joinOperands {E} (visit : E -> list Arg -> Res (list Tok * list Arg)) (joiner : Tok) (es : list E)
  (args : list Arg) : Res (list Tok * list Arg) :=
  match es with
  | [] => Ret ([], args)
  | e :: rest =>
      let* x := visit e args in
      let* y := joinOperands visit joiner rest x.2 in
      Ret (x.1 ++ (match rest with [] => [] | _ => [joiner] end) ++ y.1, y.2)
  end.

(** [Accept] on the visitor: the whole walk. *)
Fixpoint visit (sc : VScope) (e : Expr) (args : list Arg) {struct e} : Res (list Tok * list Arg) :=
  match e with
  | Comparison field op values => VisitComparison sc field op values args
  | Logical op es =>
      match es with
      | [] => Fail ENoOperands
      | _ =>
          let* x := joinOperands (visit sc) (match op with LogicalOr => TOr | LogicalAnd => TAnd end) es args in
          Ret (TOpen :: x.1 ++ [TClose], x.2)
      end
  | Negation inner =>
      match inner with
      | None => Fail ENegatesNothing
      | Some e => let* x := visit sc e args in Ret (TKw "NOT " :: TOpen :: x.1 ++ [TClose], x.2)
      end
  | SubqueryComparison field op sub =>
      let* col := column sc field in
      match subqueryOp op with
      | None => Fail EOperatorTakesNoSubquery
      | Some o =>
          let* _ := if bool_decide (op = OpNin) then refuseNotInOnNullable sub else Ret tt in
          let* x := renderSub visit sc sub false args in
          let quant := match sub with
                       | Some sq => match sq_Quant sq with
                                    | QuantAny => [TKw "ANY "]
                                    | QuantAll => [TKw "ALL "]
                                    | QuantNone => []
                                    end
                       | None => []
                       end in
          Ret (col ++ TKw " " :: TKw o :: TKw " " :: quant ++ TOpen :: x.1 ++ [TClose], x.2)
      end
  | Existence negated sub =>
      let* x := renderSub visit sc sub true args in
      Ret ((if negated then [TKw "NOT "] else []) ++ TKw "EXISTS " :: TOpen :: x.1 ++ [TClose], x.2)
  end.

(** ** Entry points *)

Definition CompileWhereQualifiedFrom (e : option Expr) (resolve : FieldResolver) (idKind : option (string -> IDKind))
  (qual : ColQual) (base : nat) : Res (list Tok * list Arg) :=
  match e with
  | None => Ret ([], [])
  | Some e => visit (mkScope resolve idKind qual base None "" 0 "" None) e []
  end.

Definition CompileWhereQualified (e : option Expr) (resolve : FieldResolver) (idKind : option (string -> IDKind))
  (qual : ColQual) : Res (list Tok * list Arg) :=
  CompileWhereQualifiedFrom e resolve idKind qual 0.

Definition CompileWhere (e : option Expr) (resolve : FieldResolver) (idKind : option (string -> IDKind)) :
  Res (list Tok * list Arg) :=
  CompileWhereQualified e resolve idKind noQual.

Definition CompileWhereForWrite (e : option Expr) (resolve : FieldResolver) (idKind : option (string -> IDKind))
  (base : nat) (targetTable : string) : Res (list Tok * list Arg) :=
  match e with
  | None => Ret ([], [])
  | Some e => visit (mkScope resolve idKind noQual base None "" 0 targetTable None) e []
  end.

Definition CompileOrder (order : list OrderField) (resolve : FieldResolver) : Res (list Tok) :=
  CompileOrderQualified order resolve noQual.

Definition ChildScopeFilter (s : Scope) (schema : TableSchema) (qualifier : string) : Res (list Tok) :=
  match ArchivedAtColumn schema, s with
  | Some col, ScopeActive =>
      let* q := quote col in
      let qcol := if negb (String.eqb qualifier "") then TIdent qualifier :: TDot :: q else q in
      Ret (TKw "AND " :: qcol ++ [TKw " IS NULL"])
  | _, _ => Ret []
  end.

End Translate.
