(* ===== verification/Dialects.v ===== *)
(** * The Postgres and MySQL dialects

    [infra/db/engine/postgres/dialect.go] and [infra/db/engine/mysql/dialect.go]:
    what they render of a criteria statement, and their upserts. *)

From S2P Require Import Prelude Naming BaseEntity Criteria CriteriaSql.
From stdpp Require Import base gmap strings list fin_maps.
From Stdlib Require Import Ascii ZArith Lia.

Open Scope string_scope.
Open Scope list_scope.

(** ** Bound arguments *)

(** What the driver is handed: SQL NULL, a binary NULL, text, a uuid, its 16 bytes, an instant, or
    a value the dialect passes through. *)
Inductive SqlArg :=
| ANull
| ANullBytes
| AText (s : string)
| AUuid (u : string)
| AUuidBytes (u : string)
| ATime (text : string)
| AOther (repr : string).

(** [normalizeArg] of the Postgres engine.  An outer reference is never bound. *)
Definition pgEncodeArg (v : Value) : SqlArg :=
  match v with
  | VNil => ANull
  | VString s => AText s
  | VStringPtr None => ANull
  | VStringPtr (Some s) => AText s
  | VID None => ANull
  | VID (Some i) => AText (id_value i)
  | VUUID u => AUuid u
  | VTime _ t => ATime t
  | VTimePtr None => ANull
  | VTimePtr (Some (_, t)) => ATime t
  | VOuter f => AOther f
  | VOther r => AOther r
  end.

(** [encodeMySQLTime]: the zero instant binds as its text. *)
Definition encodeMySQLTime (zero : bool) (text : string) : SqlArg := if zero then AText text else ATime text.

(** [mysqlDialect.EncodeArg]: an id that parses binds as its 16 bytes. *)
Definition mysqlEncodeArg (isUUID : string -> bool) (v : Value) : SqlArg :=
  match v with
  | VNil => ANull
  | VString s => AText s
  | VStringPtr None => ANull
  | VStringPtr (Some s) => AText s
  | VID None => ANull
  | VID (Some i) => if isUUID (id_value i) then AUuidBytes (id_value i) else AText (id_value i)
  | VUUID u => AUuidBytes u
  | VTime zero t => encodeMySQLTime zero t
  | VTimePtr None => ANull
  | VTimePtr (Some (zero, t)) => encodeMySQLTime zero t
  | VOuter f => AOther f
  | VOther r => AOther r
  end.

Definition applyLimitTail (sql : list Tok) (n : Z) : option (list Tok) := Some (sql ++ [TKw " LIMIT "; TNum n]).

Definition applyLimitOffsetTail (sql : list Tok) (limit offset : Z) : list Tok :=
  sql ++ [TKw " LIMIT "; TNum limit; TKw " OFFSET "; TNum offset].

Definition pgDialect : Dialect SqlArg := {|
  d_Placeholder n := "$" +:+ itoa (Z.of_nat n);
  d_QuoteIdent name := if SafeIdentifier name then Some name else None;
  d_EncodeArg := pgEncodeArg;
  d_DecodeID raw := raw;
  d_ILikeClause col ph := col ++ TKw " ILIKE " :: ph;
  d_LikeClause col ph := col ++ TKw " LIKE " :: ph;
  d_NowExpr := "NOW()";
  d_UTCNowExpr := "NOW() AT TIME ZONE 'UTC'";
  d_ApplyLimit := applyLimitTail;
  d_ApplyLimitOffset := applyLimitOffsetTail;
  d_AllowsSubqueryOnWriteTarget := true
|}.

(** [isUUID] and [uuidText] are uuid.Parse succeeding and the text uuid.FromBytes
    gives 16 bytes, both of github.com/google/uuid. *)
Definition mysqlDialect (isUUID : string -> bool) (uuidText : string -> string) : Dialect SqlArg := {|
  d_Placeholder _ := "?";
  d_QuoteIdent name := if SafeIdentifier name then Some ("`" +:+ name +:+ "`") else None;
  d_EncodeArg := mysqlEncodeArg isUUID;
  d_DecodeID raw := if (String.length raw =? 16)%nat then uuidText raw else raw;
  d_ILikeClause col ph := TKw "LOWER" :: TOpen :: col ++ TClose :: TKw " LIKE LOWER" :: TOpen :: ph ++ [TClose];
  d_LikeClause col ph := TKw "BINARY " :: col ++ TKw " LIKE " :: ph;
  d_NowExpr := "NOW()";
  d_UTCNowExpr := "UTC_TIMESTAMP(6)";
  d_ApplyLimit := applyLimitTail;
  d_ApplyLimitOffset := applyLimitOffsetTail;
  d_AllowsSubqueryOnWriteTarget := false
|}.

(** ** Upserts *)

Inductive UpsertSetMode := UpsertSetNew | UpsertSetExpr | UpsertSetBump | UpsertSetArg.

#[export] Instance UpsertSetMode_eq_dec : EqDecision UpsertSetMode.
Proof. solve_decision. Defined.

Record UpsertSet := mkUpsertSet { us_Col : string; us_Mode : UpsertSetMode; us_Expr : string }.

(** Quoted identifiers joined with commas; [None] is the quoter's panic. *)
Fixpoint identList (quote : string -> option string) (cols : list string) : option (list Tok) :=
  match cols with
  | [] => Some []
  | c :: rest =>
      q ← quote c;
      r ← identList quote rest;
      Some (TIdent q :: (match rest with [] => [] | _ => [TKw ", "] end) ++ r)
  end.

(** The placeholders from [n] on, one per column. *)
Fixpoint placeList (n : nat) (cols : list string) : list Tok :=
  match cols with
  | [] => []
  | _ :: rest => TPlace n :: (match rest with [] => [] | _ => [TKw ", "] end) ++ placeList (S n) rest
  end.

(** [writeInsertHead], shared in shape by both engines. *)
Definition insertHead (quote : string -> option string) (table : string) (cols : list string) : option (list Tok) :=
  t ← quote table;
  cs ← identList quote cols;
  Some (TKw "INSERT INTO " :: TIdent t :: TKw " " :: TOpen :: cs ++ TClose :: TKw " VALUES " :: TOpen ::
        placeList 1 cols ++ [TClose]).

(** The assignments of the update half: [proposed] is how the proposed row is
    named (EXCLUDED, new), [arg] the last placeholder used. *)
Fixpoint setList (quote : string -> option string) (proposed table : string) (arg : nat) (sets : list UpsertSet) :
  option (list Tok) :=
  match sets with
  | [] => Some []
  | s :: rest =>
      c ← quote (us_Col s);
      let arg' := if bool_decide (us_Mode s = UpsertSetArg) then S arg else arg in
      rhs ← match us_Mode s with
            | UpsertSetNew => Some [TKw proposed; TDot; TIdent c]
            | UpsertSetBump => t ← quote table; Some [TIdent t; TDot; TIdent c; TKw " + 1"]
            | UpsertSetArg => Some [TPlace arg']
            | UpsertSetExpr => Some [TKw (us_Expr s)]
            end;
      r ← setList quote proposed table arg' rest;
      Some (TIdent c :: TKw " = " :: rhs ++ (match rest with [] => [] | _ => [TKw ", "] end) ++ r)
  end.

Definition pgBuildUpsert (table : string) (cols conflictCols : list string) (sets : list UpsertSet) : option (list Tok) :=
  let quote := d_QuoteIdent pgDialect in
  head ← insertHead quote table cols;
  keys ← identList quote conflictCols;
  let b := head ++ TKw " ON CONFLICT " :: TOpen :: keys ++ [TClose] in
  match sets with
  | [] => Some (b ++ [TKw " DO NOTHING"])
  | _ => ss ← setList quote "EXCLUDED" table (length cols) sets; Some (b ++ TKw " DO UPDATE SET " :: ss)
  end.

(** A do-nothing upsert with no conflict column indexes out of range: [None]. *)
Definition mysqlBuildUpsert (table : string) (cols conflictCols : list string) (sets : list UpsertSet) : option (list Tok) :=
  let quote := d_QuoteIdent (mysqlDialect (fun _ => false) (fun raw => raw)) in
  head ← insertHead quote table cols;
  let b := head ++ [TKw " AS new ON DUPLICATE KEY UPDATE "] in
  match sets with
  | [] =>
      c ← conflictCols !! 0;
      k ← quote c;
      Some (b ++ [TIdent k; TKw " = new."; TIdent k])
  | _ => ss ← setList quote "new" table (length cols) sets; Some (b ++ ss)
  end.
