(* ===== verification/CriteriaProps.v ===== *)
(** * Lemmas on the SQL translator

    A successful walk yields a [good] fragment: it binds a contiguous run of
    placeholders, it is balanced with no OR outside parentheses, and it is made of
    the translator's own words, allowlisted identifiers and placeholders. *)

From S2P Require Import Prelude Naming BaseEntity Criteria CriteriaSql Dialects.
From stdpp Require Import base gmap strings list fin_maps.
From Stdlib Require Import Ascii ZArith Lia.

Open Scope string_scope.
Open Scope list_scope.
Open Scope go_scope.

(** ** Views of a fragment *)

Definition places (ts : list Tok) : list nat := omap (fun t => match t with TPlace n => Some n | _ => None end) ts.

(** Read a fragment from inside [k] parentheses: [None] when it closes one too
    many, or has an OR outside every parenthesis. *)
Fixpoint scan (k : nat) (ts : list Tok) : option nat :=
  match ts with
  | [] => Some k
  | t :: rest =>
      match t with
      | TOpen => scan (S k) rest
      | TClose => match k with O => None | S k => scan k rest end
      | TOr => match k with O => None | S _ => scan k rest end
      | _ => scan k rest
      end
  end.

Definition balanced (ts : list Tok) : Prop := forall k, scan k ts = Some k.

(** The words the translator, the statement builders of the write path and the
    dialects write. *)
Definition sqlWords : list string :=
  [" IS NULL"; " IS NOT NULL"; "1=1"; "1=0"; " NOT IN "; " IN "; ", "; " "; "="; "<>"; ">"; ">="; "<"; "<="; "IN"; "NOT IN";
   "NOT "; "EXISTS "; "ANY "; "ALL "; "SELECT "; " FROM "; "WHERE "; "ORDER BY "; " DESC"; " ASC"; "1"; "COUNT(*)";
   "MAX"; "MIN"; "SUM"; "AVG"; " LIMIT "; " ILIKE "; " LIKE "; "LOWER"; " LIKE LOWER"; "BINARY ";
   "INSERT INTO "; " VALUES "; "UPDATE "; " SET "; " WHERE "; "DELETE FROM "; " = "; " <> "; " + 1"; "NULL"; "0";
   "SELECT 1 FROM "; "SELECT CASE WHEN "; " THEN 1 ELSE 0 END FROM "; "NOW()"; "NOW() AT TIME ZONE 'UTC'"; "UTC_TIMESTAMP(6)";
   " ON CONFLICT "; " DO NOTHING"; " DO UPDATE SET "; "EXCLUDED"; "new"; " = new."; " AS new ON DUPLICATE KEY UPDATE ";
   "INSERT INTO outbox "; "id, aggregate_type, event_type, aggregate_id, payload, traceparent, created_at";
   "INSERT INTO audit_events ";
   "id, aggregate_id, entity_type, verb, action_name, kind, actor, actor_issuer, tenant_id, thread_id, occurred_at, payload, trace_id";
   "SAVEPOINT omnicore_sb_purge"; "ROLLBACK TO SAVEPOINT omnicore_sb_purge"; "RELEASE SAVEPOINT omnicore_sb_purge";
   " ESCAPE '\'"; " COLLATE Latin1_General_BIN ESCAPE '\'"; " FETCH FIRST "; " ROWS ONLY"; "SELECT TOP "; "TOP "; "1 FROM "; "CASE WHEN ";
   "SYSTIMESTAMP"; "SYS_EXTRACT_UTC(SYSTIMESTAMP)"; "CURRENT_TIMESTAMP"; "SYSUTCDATETIME()"; "strftime('%Y-%m-%d %H:%M:%f','now')";
   "SAVE TRANSACTION omnicore_sb_purge"; "ROLLBACK TRANSACTION omnicore_sb_purge"; "excluded"; "MERGE "; "MERGE INTO ";
   " WITH (HOLDLOCK) AS target USING "; " target USING "; " AS "; " FROM dual"; " source ON "; " AS source ON "; "target"; "source";
   " WHEN MATCHED THEN UPDATE SET "; " WHEN NOT MATCHED THEN INSERT "; ";"].

(** An identifier the dialect quoted. *)
Definition okIdent {Arg} (d : Dialect Arg) (q : string) : Prop :=
  exists name, SafeIdentifier name = true /\ d_QuoteIdent d name = Some q.

Definition okTok {Arg} (d : Dialect Arg) (t : Tok) : Prop :=
  match t with
  | TKw w => w ∈ sqlWords
  | TIdent q => okIdent d q
  | _ => True
  end.

(** What the translator relies on in a dialect: its clauses keep the placeholders
    in order, stay balanced and use their own words; its quoter accepts only
    allowlisted names. *)
Class DialectLaws {Arg} (d : Dialect Arg) := {
  dl_quote n q : d_QuoteIdent d n = Some q -> SafeIdentifier n = true;
  dl_ilike_places c p : places (d_ILikeClause d c p) = places c ++ places p;
  dl_like_places c p : places (d_LikeClause d c p) = places c ++ places p;
  dl_limit_places s n t : d_ApplyLimit d s n = Some t -> places t = places s;
  dl_ilike_balanced c p : balanced c -> balanced p -> balanced (d_ILikeClause d c p);
  dl_like_balanced c p : balanced c -> balanced p -> balanced (d_LikeClause d c p);
  dl_limit_balanced s n t : d_ApplyLimit d s n = Some t -> balanced s -> balanced t;
  dl_ilike_ok c p : Forall (okTok d) c -> Forall (okTok d) p -> Forall (okTok d) (d_ILikeClause d c p);
  dl_like_ok c p : Forall (okTok d) c -> Forall (okTok d) p -> Forall (okTok d) (d_LikeClause d c p);
  dl_limit_ok s n t : d_ApplyLimit d s n = Some t -> Forall (okTok d) s -> Forall (okTok d) t
}.

Lemma places_app a b : places (a ++ b) = places a ++ places b.
Proof. apply omap_app. Qed.

Lemma scan_app k a b : scan k (a ++ b) = scan k a ≫= (fun k' => scan k' b).
Proof.
  revert k. induction a as [|t a IH]; intros k; simpl; [done|].
  destruct t; try apply IH; destruct k; try done; apply IH.
Qed.

Lemma balanced_app a b : balanced a -> balanced b -> balanced (a ++ b).
Proof. intros Ha Hb k. rewrite scan_app, Ha. apply Hb. Qed.

(** Parentheses around a fragment that may have an OR at its own level. *)
Lemma balanced_group a : (forall k, scan (S k) a = Some (S k)) -> balanced (TOpen :: a ++ [TClose]).
Proof. intros Ha k. simpl. by rewrite scan_app, Ha. Qed.

Lemma balanced_under a k : balanced a -> scan (S k) a = Some (S k).
Proof. intros Ha. apply Ha. Qed.

(** A word is decided to be one of [sqlWords]. *)
Ltac sql_word :=
  lazymatch goal with
  | |- okTok _ (TKw ?w) => change (w ∈ sqlWords)
  | |- _ => idtac
  end; apply (bool_decide_unpack _); vm_compute; exact I.

#[export] Instance pgDialect_laws : DialectLaws pgDialect.
Proof.
  split; simpl.
  - intros n q. by destruct (SafeIdentifier n).
  - intros c p. by rewrite places_app.
  - intros c p. by rewrite places_app.
  - intros s n t [= <-]. rewrite places_app. simpl. by rewrite app_nil_r.
  - intros c p Hc Hp. apply balanced_app; [done|]. intros k. simpl. apply Hp.
  - intros c p Hc Hp. apply balanced_app; [done|]. intros k. simpl. apply Hp.
  - intros s n t [= <-] Hs. by apply balanced_app.
  - intros c p Hc Hp. apply Forall_app. split; [done|]. constructor; [sql_word|done].
  - intros c p Hc Hp. apply Forall_app. split; [done|]. constructor; [sql_word|done].
  - intros s n t [= <-] Hs. apply Forall_app. split; [done|]. constructor; [sql_word|by repeat constructor].
Qed.

#[export] Instance mysqlDialect_laws isUUID uuidText : DialectLaws (mysqlDialect isUUID uuidText).
Proof.
  split; simpl.
  - intros n q. by destruct (SafeIdentifier n).
  - intros c p. change (places (c ++ TClose :: TKw " LIKE LOWER" :: TOpen :: p ++ [TClose]) = places c ++ places p).
    rewrite places_app. f_equal. change (places (p ++ [TClose]) = places p). rewrite places_app. by rewrite app_nil_r.
  - intros c p. change (places (c ++ TKw " LIKE " :: p) = places c ++ places p). by rewrite places_app.
  - intros s n t [= <-]. rewrite places_app. simpl. by rewrite app_nil_r.
  - intros c p Hc Hp k. simpl. rewrite scan_app, Hc. simpl. by rewrite scan_app, Hp.
  - intros c p Hc Hp k. simpl. rewrite scan_app, Hc. simpl. apply Hp.
  - intros s n t [= <-] Hs. by apply balanced_app.
  - intros c p Hc Hp. constructor; [sql_word|]. constructor; [done|]. apply Forall_app. split; [done|].
    constructor; [done|]. constructor; [sql_word|]. constructor; [done|]. apply Forall_app. by split; [|repeat constructor].
  - intros c p Hc Hp. constructor; [sql_word|]. apply Forall_app. split; [done|]. constructor; [sql_word|done].
  - intros s n t [= <-] Hs. apply Forall_app. split; [done|]. constructor; [sql_word|by repeat constructor].
Qed.

(** Inversion of the result monad. *)
Lemma obind_Ret {E A B} (c : Outcome E A) (k : A -> Outcome E B) b :
  obind c k = Ret b <-> exists a, c = Ret a /\ k a = Ret b.
Proof. destruct c as [a| |]; simpl; split; [by exists a|by intros (? & [= <-] & ?)|done|by intros (? & [=] & ?)|done|by intros (? & [=] & ?)]. Qed.

Section Props.
Context {Arg : Type} (d : Dialect Arg) `{!DialectLaws d} (isUUID : string -> bool).

(** ** Good fragments *)

(** The fragment binds exactly the new arguments, in order. *)
Definition binds (base : nat) (args : list Arg) (ts : list Tok) (args' : list Arg) : Prop :=
  exists new, args' = args ++ new /\ places ts = seq (S (base + length args)) (length new).

Record good (base : nat) (args : list Arg) (ts : list Tok) (args' : list Arg) : Prop := mkGood {
  gd_binds : binds base args ts args';
  gd_balanced : balanced ts;
  gd_ok : Forall (okTok d) ts
}.

Lemma binds_nil base args ts : places ts = [] -> binds base args ts args.
Proof. intros Hp. exists []. by rewrite app_nil_r. Qed.

Lemma binds_app base a t1 b t2 c :
  binds base a t1 b -> binds base b t2 c -> binds base a (t1 ++ t2) c.
Proof.
  intros (n1 & -> & H1) (n2 & -> & H2). exists (n1 ++ n2). split; [by rewrite app_assoc|].
  rewrite places_app, H1, H2, !length_app, seq_app. do 2 f_equal. lia.
Qed.

Lemma good_app base a t1 b t2 c : good base a t1 b -> good base b t2 c -> good base a (t1 ++ t2) c.
Proof.
  intros [] []. split; [by eapply binds_app|by apply balanced_app|by apply Forall_app].
Qed.

(** Fragments that bind nothing. *)
Definition inert (ts : list Tok) : Prop := places ts = [] /\ balanced ts /\ Forall (okTok d) ts.

Lemma inert_good base args ts : inert ts -> good base args ts args.
Proof. intros (Hp & Hb & Ho). split; [by apply binds_nil|done|done]. Qed.

Lemma inert_nil : inert [].
Proof. repeat split. constructor. Qed.

Lemma inert_app a b : inert a -> inert b -> inert (a ++ b).
Proof.
  intros (P1 & B1 & O1) (P2 & B2 & O2). split; [by rewrite places_app, P1, P2|].
  split; [by apply balanced_app|by apply Forall_app].
Qed.

Lemma inert_word w : w ∈ sqlWords -> inert [TKw w].
Proof. intros Hw. split; [done|]. split; [done|]. by apply Forall_singleton. Qed.

Lemma inert_ident q : okIdent d q -> inert [TIdent q].
Proof. intros Hq. split; [done|]. split; [done|]. by apply Forall_singleton. Qed.

Lemma inert_dot : inert [TDot].
Proof. split; [done|]. split; [done|]. by apply Forall_singleton. Qed.

Lemma inert_and : inert [TAnd].
Proof. split; [done|]. split; [done|]. by apply Forall_singleton. Qed.

Lemma good_inert_l base args t1 t2 args' : inert t1 -> good base args t2 args' -> good base args (t1 ++ t2) args'.
Proof. intros H1 H2. by eapply good_app; [apply inert_good|]. Qed.

Lemma good_inert_r base args t1 t2 args' : good base args t1 args' -> inert t2 -> good base args (t1 ++ t2) args'.
Proof. intros H1 H2. by eapply good_app; [|apply inert_good]. Qed.

(** A fragment that is good once it is put in parentheses: it may have an OR of
    its own. *)
Record goodIn (base : nat) (args : list Arg) (ts : list Tok) (args' : list Arg) : Prop := mkGoodIn {
  gi_binds : binds base args ts args';
  gi_balanced k : scan (S k) ts = Some (S k);
  gi_ok : Forall (okTok d) ts
}.

Lemma good_goodIn base args ts args' : good base args ts args' -> goodIn base args ts args'.
Proof. intros []. by split. Qed.

Lemma goodIn_app base a t1 b t2 c : goodIn base a t1 b -> goodIn base b t2 c -> goodIn base a (t1 ++ t2) c.
Proof.
  intros [? S1 ?] [? S2 ?]. split; [by eapply binds_app| |by apply Forall_app].
  intros k. rewrite scan_app, S1. apply S2.
Qed.

Lemma good_group base args ts args' : goodIn base args ts args' -> good base args (TOpen :: ts ++ [TClose]) args'.
Proof.
  intros [Hb Hs Ho]. split.
  - destruct Hb as (new & -> & Hp). exists new. split; [done|].
    change (places (ts ++ [TClose]) = seq (S (base + length args)) (length new)). by rewrite places_app, app_nil_r.
  - by apply balanced_group.
  - constructor; [done|]. apply Forall_app. by split; [|repeat constructor].
Qed.

Lemma inert_group ts : inert ts -> inert (TOpen :: ts ++ [TClose]).
Proof.
  intros (P1 & B1 & O1). repeat split.
  - change (places (ts ++ [TClose]) = []). by rewrite places_app, P1.
  - apply balanced_group. intros k. apply B1.
  - constructor; [done|]. apply Forall_app. by split; [|repeat constructor].
Qed.

(** ** Columns and operands *)

Lemma quote_inert n ts : quote d n = Ret ts -> inert ts.
Proof.
  unfold quote. destruct (d_QuoteIdent d n) as [q|] eqn:E; intros [= <-].
  apply inert_ident. exists n. split; [by eapply dl_quote|done].
Qed.

Definition qualOk (q : ColQual) : Prop := cq_IDQualifier q = "" \/ okIdent d (cq_IDQualifier q).

Lemma inert_cons t ts : inert [t] -> inert ts -> inert (t :: ts).
Proof. intros H1 H2. by apply (inert_app [t]). Qed.

Lemma QualifyCol_inert rf q ts : qualOk q -> QualifyCol d rf q = Ret ts -> inert ts.
Proof.
  intros Hq. unfold QualifyCol. intros (col & Hc%quote_inert & H)%obind_Ret.
  destruct (negb (String.eqb (rf_Qualifier rf) "")).
  { apply obind_Ret in H as (t & Ht%quote_inert & [= <-]). apply inert_app; [done|]. by apply inert_cons; [apply inert_dot|]. }
  destruct (if cq_Owner q then rf_table rf else None) as [table|].
  { apply obind_Ret in H as (t & Ht%quote_inert & [= <-]). apply inert_app; [done|]. by apply inert_cons; [apply inert_dot|]. }
  destruct (negb (String.eqb (cq_IDQualifier q) "") && _) eqn:E; injection H as <-; [|done].
  apply andb_true_iff in E as [E _]. apply negb_true_iff, String.eqb_neq in E. destruct Hq as [?|Hq]; [done|].
  apply inert_cons; [by apply inert_ident|]. by apply inert_cons; [apply inert_dot|].
Qed.

Record scopeOk (sc : VScope) : Prop := mkScopeOk {
  so_qual : qualOk (vs_qual sc);
  so_self : vs_selfQual sc = "" \/ okIdent d (vs_selfQual sc);
  so_parent : match vs_parent sc with Some (_, q) => q = "" \/ okIdent d q | None => True end
}.

(** The scope an entry point starts from. *)
Lemma rootScope_ok resolve idKind qual base target :
  qualOk qual -> scopeOk (mkScope resolve idKind qual base None "" 0 target None).
Proof. intros Hq. split; [exact Hq|by left|done]. Qed.

Lemma aliased_inert q n ts :
  q <> "" -> q = "" \/ okIdent d q ->
  (let* col := quote d n in Ret (TIdent q :: TDot :: col)) = (Ret ts : Outcome CritErr (list Tok)) -> inert ts.
Proof.
  intros Hn [?|Hq]; [done|]. intros (col & Hc%quote_inert & [= <-])%obind_Ret.
  apply inert_cons; [by apply inert_ident|]. by apply inert_cons; [apply inert_dot|].
Qed.

Lemma column_inert sc f ts : scopeOk sc -> column d sc f = Ret ts -> inert ts.
Proof.
  intros [Hq Hs _]. unfold column. destruct (vs_resolve sc f) as [rf|]; [|by destruct (vs_srcSchema sc)].
  destruct (String.eqb_spec (vs_selfQual sc) "") as [E|E]; simpl; [by apply QualifyCol_inert|].
  by apply aliased_inert.
Qed.

Lemma outerColumn_inert sc f ts : scopeOk sc -> outerColumn d sc f = Ret ts -> inert ts.
Proof.
  intros [_ _ Hp]. unfold outerColumn. destruct (vs_parent sc) as [[resolve q]|]; [|done].
  destruct (resolve f) as [rf|]; [|done]. unfold columnForInner.
  destruct (String.eqb_spec q "") as [E|E]; simpl; [apply QualifyCol_inert; by left|by apply aliased_inert].
Qed.

Lemma place_good sc f v args ts args' :
  place d isUUID sc f v args = Ret (ts, args') -> good (vs_base sc) args ts args'.
Proof.
  unfold place. case_match; [done|]. intros [= <- <-]. split.
  - eexists. split; [done|]. simpl. rewrite length_app. simpl. do 2 f_equal. lia.
  - done.
  - by repeat constructor.
Qed.

Lemma operand_good sc f v args ts args' :
  scopeOk sc -> operand d isUUID sc f v args = Ret (ts, args') -> good (vs_base sc) args ts args'.
Proof.
  intros Hsc. destruct v; simpl; try apply place_good.
  intros (col & Hc & [= <- <-])%obind_Ret. apply inert_good. by eapply outerColumn_inert.
Qed.

Lemma good_cons base args t ts args' : inert [t] -> good base args ts args' -> good base args (t :: ts) args'.
Proof. apply (good_inert_l _ _ [t]). Qed.

Lemma good_word base args w ts args' : w ∈ sqlWords -> good base args ts args' -> good base args (TKw w :: ts) args'.
Proof. intros Hw. apply good_cons. by apply inert_word. Qed.

Lemma inert_cons_word w ts : w ∈ sqlWords -> inert ts -> inert (TKw w :: ts).
Proof. intros Hw. apply inert_cons. by apply inert_word. Qed.

Lemma operands_good sc f vs args ts args' :
  scopeOk sc -> operands d isUUID sc f vs args = Ret (ts, args') -> good (vs_base sc) args ts args'.
Proof.
  intros Hsc. revert args ts args'. induction vs as [|v vs IH]; intros args ts args'; simpl.
  { intros [= <- <-]. apply inert_good, inert_nil. }
  intros ([t1 a1] & H1%operand_good & ([t2 a2] & H2%IH & [= <- <-])%obind_Ret)%obind_Ret; [|done].
  cbn [fst snd] in *. eapply good_app; [done|]. apply good_inert_l; [|done].
  destruct vs; [apply inert_nil|apply inert_word; sql_word].
Qed.

Lemma binaryOp_word op w : binaryOp op = Some w -> w ∈ sqlWords.
Proof. destruct op; intros [= <-]; sql_word. Qed.

Lemma subqueryOp_word op w : subqueryOp op = Some w -> w ∈ sqlWords.
Proof. destruct op; intros [= <-]; sql_word. Qed.

(** The two pattern clauses over an inert column. *)
Lemma clause_good base args c p args' (clause : list Tok -> list Tok -> list Tok) :
  (forall c p, places (clause c p) = places c ++ places p) ->
  (forall c p, balanced c -> balanced p -> balanced (clause c p)) ->
  (forall c p, Forall (okTok d) c -> Forall (okTok d) p -> Forall (okTok d) (clause c p)) ->
  inert c -> good base args p args' -> good base args (clause c p) args'.
Proof.
  intros Hp Hb Ho (P1 & B1 & O1) [(new & -> & P2) B2 O2]. split; [|by apply Hb|by apply Ho].
  exists new. by rewrite Hp, P1.
Qed.

Lemma single_good sc f op v col args ts args' :
  scopeOk sc -> inert col ->
  (let* x := operand d isUUID sc f v args in
   match op with
   | OpILike => Ret (d_ILikeClause d col x.1, x.2)
   | OpLike => Ret (d_LikeClause d col x.1, x.2)
   | _ =>
       match binaryOp op with
       | None => Fail EUnsupportedOperator
       | Some o => Ret (col ++ TKw " " :: TKw o :: TKw " " :: x.1, x.2)
       end
   end) = Ret (ts, args') ->
  good (vs_base sc) args ts args'.
Proof.
  intros Hsc Hc ([t1 a1] & H1%operand_good & H)%obind_Ret; [|done]. cbn [fst snd] in *.
  assert (Hb : forall o, binaryOp op = Some o -> (col ++ TKw " " :: TKw o :: TKw " " :: t1, a1) = (ts, args') ->
               good (vs_base sc) args ts args').
  { intros o Ho [= <- <-]. apply good_inert_l; [done|]. apply good_word; [sql_word|].
    apply good_word; [by eapply binaryOp_word|]. apply good_word; [sql_word|done]. }
  destruct op; simpl in H; try done; try (injection H as <- <-; by eapply Hb).
  - injection H as <- <-. apply clause_good; [apply dl_like_places|apply dl_like_balanced|apply dl_like_ok|done|done].
  - injection H as <- <-. apply clause_good; [apply dl_ilike_places|apply dl_ilike_balanced|apply dl_ilike_ok|done|done].
Qed.

Lemma list_good sc f nin vs col args ts args' :
  scopeOk sc -> inert col ->
  (let* x := operands d isUUID sc f vs args in
   Ret (col ++ TKw (if nin : bool then " NOT IN " else " IN ") :: TOpen :: x.1 ++ [TClose], x.2)) = Ret (ts, args') ->
  good (vs_base sc) args ts args'.
Proof.
  intros Hsc Hc ([t1 a1] & H1%operands_good & [= <- <-])%obind_Ret; [|done]. cbn [fst snd] in *.
  apply good_inert_l; [done|]. apply good_word; [destruct nin; sql_word|]. by apply good_group, good_goodIn.
Qed.

Lemma VisitComparison_good sc f op vs args ts args' :
  scopeOk sc -> VisitComparison d isUUID sc f op vs args = Ret (ts, args') -> good (vs_base sc) args ts args'.
Proof.
  intros Hsc. unfold VisitComparison. intros (col & Hc%column_inert & H)%obind_Ret; [|done].
  assert (Hnull : forall w, w ∈ sqlWords -> (col ++ [TKw w], args) = (ts, args') -> good (vs_base sc) args ts args').
  { intros w Hw [= <- <-]. apply inert_good, inert_app; [done|]. by apply inert_word. }
  pose proof (fun v => single_good sc f op v col args ts args' Hsc Hc) as Hone.
  destruct op; try (destruct vs as [|v [|v' vs]]; try done; exact (Hone v H));
    try (destruct vs; [|done]; injection H as <- <-; eapply Hnull; [|reflexivity]; sql_word).
  - destruct vs as [|v vs]; [simpl in H; injection H as <- <-; apply inert_good, inert_word; sql_word|]. by eapply (list_good _ _ false).
  - destruct vs as [|v vs]; [simpl in H; injection H as <- <-; apply inert_good, inert_word; sql_word|]. by eapply (list_good _ _ true).
Qed.

(** ** Clauses *)

Lemma ScopeGate_inert s schema q ts :
  q = "" \/ okIdent d q -> ScopeGate d s schema q = Ret ts -> inert ts.
Proof.
  intros Hq. unfold ScopeGate. destruct (ArchivedAtColumn schema) as [c|]; [|intros [= <-]; apply inert_nil].
  intros (t & Ht%quote_inert & H)%obind_Ret.
  assert (Hc : inert (if negb (String.eqb q "") then TIdent q :: TDot :: t else t)).
  { destruct (String.eqb_spec q ""); simpl; [done|]. destruct Hq as [?|Hq]; [done|].
    apply inert_cons; [by apply inert_ident|]. by apply inert_cons; [apply inert_dot|]. }
  destruct s; injection H as <-; [|apply inert_nil|]; (apply inert_app; [done|apply inert_word; sql_word]).
Qed.

Lemma orderTerms_inert col order ts :
  (forall f c, col f = Ret c -> inert c) -> orderTerms col order = Ret ts -> inert ts.
Proof.
  intros Hcol. revert ts. induction order as [|o order IH]; intros ts; simpl; [intros [= <-]; apply inert_nil|].
  intros (c & Hc%Hcol & (r & Hr%IH & [= <-])%obind_Ret)%obind_Ret.
  apply inert_app; [done|]. apply inert_cons_word; [destruct (of_Desc o); sql_word|].
  apply inert_app; [|done]. destruct order; [apply inert_nil|apply inert_word; sql_word].
Qed.

Lemma subOrder_inert sc order ts : scopeOk sc -> subOrder d sc order = Ret ts -> inert ts.
Proof.
  intros Hsc. destruct order as [|o order]; [intros [= <-]; apply inert_nil|]. unfold subOrder.
  intros (c & Hc%orderTerms_inert & [= <-])%obind_Ret; [apply inert_cons_word; [sql_word|done]|].
  intros f t. destruct (column d sc f) as [x| |] eqn:E; try done. intros [= <-]. by eapply column_inert.
Qed.

Lemma CompileOrderQualified_inert order resolve q ts :
  qualOk q -> CompileOrderQualified d order resolve q = Ret ts -> inert ts.
Proof.
  intros Hq. destruct order as [|o order]; [intros [= <-]; apply inert_nil|]. unfold CompileOrderQualified.
  intros (c & Hc%orderTerms_inert & [= <-])%obind_Ret; [apply inert_cons_word; [sql_word|done]|].
  intros f t. destruct (resolve f); [|done]. by apply QualifyCol_inert.
Qed.

Lemma aggText_word f : f <> AggNone -> f <> AggCount -> aggText f ∈ sqlWords.
Proof. intros H1 H2. destruct f; try done; sql_word. Qed.

Lemma subItem_inert {E} sc (sq : SubQueryOf E) schema ex ts : subItem d sc sq schema ex = Ret ts -> inert ts.
Proof.
  unfold subItem. destruct ex.
  { destruct (sq_selects sq); intros [= <-]. apply inert_word. sql_word. }
  destruct (sq_selects sq) as [|[|n]]; [done| |done].
  case_bool_decide as Hcount; [intros [= <-]; apply inert_word; sql_word|].
  destruct (Resolve schema (sq_Field sq)) as [rf|]; [|done].
  intros (a & Ha%quote_inert & (c & Hc%quote_inert & H)%obind_Ret)%obind_Ret.
  assert (Hcol : inert (a ++ TDot :: c)) by (apply inert_app; [done|by apply inert_cons; [apply inert_dot|]]).
  case_bool_decide as Hnone; injection H as <-; [done|].
  apply inert_cons_word; [by apply aggText_word|by apply inert_group].
Qed.

(** The archive gate is conjoined, and the WHERE fragment cannot escape it. *)
Lemma BuildWhereClause_good base args w g args' :
  good base args w args' -> inert g -> good base args (BuildWhereClause w g) args'.
Proof.
  intros Hw Hg. destruct w as [|t w], g as [|u g]; unfold BuildWhereClause; try done.
  - apply good_word; [sql_word|]. by apply (good_inert_r _ _ []). 
  - by apply good_word; [sql_word|].
  - apply good_word; [sql_word|]. apply good_inert_r; [done|]. by apply inert_cons; [apply inert_and|].
Qed.

Lemma innerScope_ok sc schema alias n : scopeOk sc -> okIdent d alias -> scopeOk (innerScope sc schema alias n).
Proof. intros [Hq Hs Hp] Ha. split; simpl; [by left|by right|done]. Qed.

Lemma limit_good {E} base args ts args' n t :
  @limited E _ d ts n = Ret t -> good base args ts args' -> good base args t args'.
Proof.
  unfold limited. destruct (d_ApplyLimit d ts n) as [t'|] eqn:Hl; [|done]. intros [= ->].
  intros [(new & -> & P) B O]. split; [|by eapply dl_limit_balanced|by eapply dl_limit_ok].
  exists new. by rewrite (dl_limit_places _ _ _ Hl).
Qed.

(** What an inner statement binds continues the outer arguments. *)
Lemma good_continue base args ts new : good (base + length args) [] ts new -> good base args ts (args ++ new).
Proof.
  intros [(n & -> & P) B O]. split; [|done|done]. exists n. split; [done|]. rewrite P. simpl. do 2 f_equal. lia.
Qed.

(** The text of a subquery from its rendered parts. *)
Definition subText {E} (sq : SubQueryOf E) (item table : list Tok) (alias : string) (w gate order : list Tok) :
  Outcome CritErr (list Tok) :=
  let clause := BuildWhereClause w gate in
  let sql := TKw "SELECT " :: item ++ TKw " FROM " :: table ++ TKw " " :: TIdent alias ::
             (match clause with [] => [] | _ => TKw " " :: clause end) ++
             (match order with [] => [] | _ => TKw " " :: order end) in
  if (0 <? sq_LimitN sq)%Z then limited d sql (sq_LimitN sq) else Ret sql.

(** What a successful [renderSub] went through. *)
Inductive rendered {E} (visit : VScope -> E -> list Arg -> Outcome CritErr (list Tok * list Arg)) (sc : VScope)
  (sq : SubQueryOf E) (ex : bool) (args : list Arg) (ts : list Tok) (args' : list Arg) : Prop :=
| mkRendered schema item alias w wargs gate order table :
    sq_Src sq = Some (SrcSchema schema) ->
    ts_direct schema = true ->
    (negb (String.eqb (vs_writeTarget sc) "") && negb (d_AllowsSubqueryOnWriteTarget d) &&
     String.eqb (ts_table schema) (vs_writeTarget sc))%bool = false ->
    subItem d sc sq schema ex = Ret item ->
    d_QuoteIdent d (subAlias (ts_table schema) (S (vs_depth sc))) = Some alias ->
    match sq_Predicate sq with
    | Some p => visit (innerScope sc schema alias (length args)) p []
    | None => Ret ([], [])
    end = Ret (w, wargs) ->
    ScopeGate d (sq_Scope sq) schema alias = Ret gate ->
    subOrder d (innerScope sc schema alias (length args)) (sq_Order sq) = Ret order ->
    ((0 <? sq_LimitN sq)%Z && bool_decide (order = []))%bool = false ->
    quote d (ts_table schema) = Ret table ->
    subText sq item table alias w gate order = Ret ts ->
    args' = args ++ wargs ->
    rendered visit sc sq ex args ts args'.

Lemma renderSub_Ret {E} (visit : VScope -> E -> list Arg -> Outcome CritErr (list Tok * list Arg)) sc sub ex args ts args' :
  renderSub d visit sc sub ex args = Ret (ts, args') ->
  exists sq, sub = Some sq /\ rendered visit sc sq ex args ts args'.
Proof.
  unfold renderSub. destruct sub as [sq|]; [|done]. exists sq. split; [done|].
  destruct (sq_Src sq) as [[schema|]|] eqn:Esrc; [|done|done].
  destruct (ts_direct schema) eqn:Ed; simpl in *; [|done].
  destruct (_ && String.eqb _ _) eqn:Et; [done|].
  apply obind_Ret in H as (item & Hi & H). destruct (d_QuoteIdent d _) as [alias|] eqn:Ea; [|done].
  apply obind_Ret in H as ([w wa] & Hw & (gate & Hg & (order & Ho & H)%obind_Ret)%obind_Ret).
  destruct ((0 <? sq_LimitN sq)%Z && _) eqn:El; [done|]. apply obind_Ret in H as (table & Ht & (sql & Hl & [= <- <-])%obind_Ret).
  by eapply mkRendered.
Qed.

Lemma renderSub_good {E} (visit : VScope -> E -> list Arg -> Outcome CritErr (list Tok * list Arg))
    sc (sub : option (SubQueryOf E)) ex args ts args' :
  scopeOk sc ->
  (forall sq e sc' a t a', sub = Some sq -> sq_Predicate sq = Some e -> scopeOk sc' ->
     visit sc' e a = Ret (t, a') -> good (vs_base sc') a t a') ->
  renderSub d visit sc sub ex args = Ret (ts, args') -> good (vs_base sc) args ts args'.
Proof.
  intros Hsc Hv (sq & -> & [schema item alias w wa gate order table _ _ _ Hi%subItem_inert Ea Hw Hg Ho _ Ht%quote_inert Htext ->])%renderSub_Ret.
  assert (Hal : okIdent d alias) by (eexists; split; [by eapply dl_quote|done]).
  set (inner := innerScope sc schema alias (length args)) in *.
  assert (Hin : scopeOk inner) by by apply innerScope_ok.
  apply ScopeGate_inert in Hg; [|by right]. apply subOrder_inert in Ho; [|done].
  assert (Hwg : good (vs_base inner) [] w wa).
  { destruct (sq_Predicate sq) as [p|] eqn:Ep; [by eapply Hv|]. injection Hw as <- <-. apply inert_good, inert_nil. }
  apply good_continue. change (vs_base sc + length args)%nat with (vs_base inner). unfold subText in Htext.
  assert (Hcl := BuildWhereClause_good _ _ _ _ _ Hwg Hg).
  match goal with H : (if _ then limited d ?s _ else _) = _ |- _ => assert (Hs : good (vs_base inner) [] s wa) end;
    [clear Htext|destruct (0 <? sq_LimitN sq)%Z; [by eapply limit_good|by injection Htext as <-]].
  apply good_word; [sql_word|]. apply good_inert_l; [done|]. apply good_word; [sql_word|].
  apply good_inert_l; [done|]. apply good_word; [sql_word|]. apply good_cons; [by apply inert_ident|].
  apply good_inert_r.
  - destruct (BuildWhereClause w gate); [done|]. by apply good_word; [sql_word|].
  - destruct order; [done|]. by apply inert_cons_word; [sql_word|].
Qed.

Lemma goodIn_joiner base args j : j = TAnd \/ j = TOr -> goodIn base args [j] args.
Proof. intros Hj. split; [by apply binds_nil; destruct Hj as [-> | ->]|by destruct Hj as [-> | ->]|by destruct Hj as [-> | ->]; repeat constructor]. Qed.

Lemma joinOperands_good {E} (visit : E -> list Arg -> Outcome CritErr (list Tok * list Arg)) base j es args ts args' :
  j = TAnd \/ j = TOr ->
  Forall (fun e => forall a t a', visit e a = Ret (t, a') -> good base a t a') es ->
  joinOperands visit j es args = Ret (ts, args') -> goodIn base args ts args'.
Proof.
  intros Hj Hes. revert args ts args'. induction Hes as [|e es He _ IH]; intros args ts args'; simpl.
  { intros [= <- <-]. apply good_goodIn, inert_good, inert_nil. }
  intros ([t1 a1] & H1%He & ([t2 a2] & H2%IH & [= <- <-])%obind_Ret)%obind_Ret. cbn [fst snd] in *.
  eapply goodIn_app; [by apply good_goodIn|]. eapply goodIn_app; [|done].
  destruct es; [apply good_goodIn, inert_good, inert_nil|by apply goodIn_joiner].
Qed.

(** Every successful walk yields a good fragment. *)
Lemma visit_good e : forall sc args ts args',
  scopeOk sc -> visit d isUUID sc e args = Ret (ts, args') -> good (vs_base sc) args ts args'.
Proof.
  induction e as [f op vs|op es IH|inner IH|f op sub IH|neg sub IH] using Expr_nested_ind; intros sc args ts args' Hsc; simpl.
  - by apply VisitComparison_good.
  - destruct es as [|e es]; [done|].
    intros ([t1 a1] & H1 & [= <- <-])%obind_Ret.
    apply good_group. eapply joinOperands_good; [| |exact H1]; [by destruct op; [left|right]|].
    eapply Forall_impl; [exact IH|]. intros x Hx a t a'. by apply Hx.
  - destruct inner as [e|]; [|done]. intros ([t1 a1] & H1%IH & [= <- <-])%obind_Ret; [|done|done].
    apply good_word; [sql_word|]. by apply good_group, good_goodIn.
  - intros (col & Hc%column_inert & H)%obind_Ret; [|done]. destruct (subqueryOp op) as [o|] eqn:Eo; [|done].
    apply obind_Ret in H as ([] & _ & ([t1 a1] & H1 & [= <- <-])%obind_Ret). cbn [fst snd].
    apply renderSub_good in H1; [|done|naive_solver].
    apply good_inert_l; [done|]. apply good_word; [sql_word|]. apply good_word; [by eapply subqueryOp_word|].
    apply good_word; [sql_word|]. apply good_inert_l; [|by apply good_group, good_goodIn].
    destruct sub as [sq|]; [|apply inert_nil]. destruct (sq_Quant sq); [apply inert_nil|..]; apply inert_word; sql_word.
  - intros ([t1 a1] & H1 & [= <- <-])%obind_Ret. cbn [fst snd].
    apply renderSub_good in H1; [|done|naive_solver].
    apply good_inert_l; [destruct neg; [apply inert_word; sql_word|apply inert_nil]|].
    apply good_word; [sql_word|]. by apply good_group, good_goodIn.
Qed.

Lemma compiled_good e resolve idKind qual base ts args :
  qualOk qual -> CompileWhereQualifiedFrom d isUUID (Some e) resolve idKind qual base = Ret (ts, args) -> good base [] ts args.
Proof. intros Hq. apply (visit_good e (mkScope resolve idKind qual base None "" 0 "" None)). by apply rootScope_ok. Qed.

End Props.
