(* ===== verification/CriteriaMeaning.v ===== *)
(** * What a compiled criteria binds, reads and depends on

    Three views of a successful walk: the arguments are the probe values of the
    expression in reading order; every subquery at every depth passed the checks
    of [renderSub] and [VisitSubqueryComparison]; the text does not depend on the
    probe values. *)

From S2P Require Import Prelude Naming BaseEntity Criteria CriteriaSql Dialects CriteriaProps.
From stdpp Require Import base gmap strings list fin_maps.
From Stdlib Require Import Ascii ZArith Lia.

Open Scope string_scope.
Open Scope list_scope.
Open Scope go_scope.

(** ** Reference definitions *)

Definition isOuter (v : Value) : bool := match v with VOuter _ => true | _ => false end.

(** Whether a probe on a field is lifted to an id. *)
Definition onIdentity (idKind : option (string -> IDKind)) (f : string) : bool :=
  match idKind with
  | Some k => match k f with IDValue | IDPointer => true | IDNone => false end
  | None => false
  end.

(** The probes of a comparison, without the outer references. *)
Definition probes (idKind : option (string -> IDKind)) (f : string) (vs : list Value) : list Value :=
  (fun v => if onIdentity idKind f then liftIDProbe v else v) <$> filter (fun v => isOuter v = false) vs.

(** The schema of a subquery's source, when it is one. *)
Definition subSchema {E} (sq : SubQueryOf E) : option TableSchema :=
  match sq_Src sq with Some (SrcSchema s) => Some s | _ => None end.

(** The probes of an expression in reading order. *)
Fixpoint boundValues (idKind : option (string -> IDKind)) (e : Expr) : list Value :=
  let ofSub sub :=
    match sub with
    | Some sq =>
        match sq_Predicate sq with
        | Some p => boundValues (IDKindOf <$> subSchema sq) p
        | None => []
        end
    | None => []
    end in
  match e with
  | Comparison f _ vs => probes idKind f vs
  | Logical _ es => concat (map (boundValues idKind) es)
  | Negation inner => match inner with Some e => boundValues idKind e | None => [] end
  | SubqueryComparison _ _ sub => ofSub sub
  | Existence _ sub => ofSub sub
  end.

(** A property of every subquery of an expression, at any depth.  [P] is told how
    the subquery is used: the operator of its comparison, or an existence test. *)
Fixpoint allSubs (P : option Operator -> SubQuery -> Prop) (e : Expr) : Prop :=
  let ofSub u sub :=
    match sub with
    | Some sq => P u sq /\ match sq_Predicate sq with Some p => allSubs P p | None => True end
    | None => True
    end in
  match e with
  | Comparison _ _ _ => True
  | Logical _ es => foldr (fun e acc => allSubs P e /\ acc) True es
  | Negation inner => match inner with Some e => allSubs P e | None => True end
  | SubqueryComparison _ op sub => ofSub (Some op) sub
  | Existence _ sub => ofSub None sub
  end.

(** The same expression with other probe values. *)
Fixpoint mapValues (g : Value -> Value) (e : Expr) : Expr :=
  let ofSub sub :=
    match sub with
    | Some sq =>
        Some (mkSub (sq_Src sq) (sq_Func sq) (sq_Field sq)
                (match sq_Predicate sq with Some p => Some (mapValues g p) | None => None end)
                (sq_Order sq) (sq_LimitN sq) (sq_Scope sq) (sq_Quant sq) (sq_selects sq))
    | None => None
    end in
  match e with
  | Comparison f op vs => Comparison f op (map (fun v => if isOuter v then v else g v) vs)
  | Logical op es => Logical op (map (mapValues g) es)
  | Negation inner => Negation (match inner with Some e => Some (mapValues g e) | None => None end)
  | SubqueryComparison f op sub => SubqueryComparison f op (ofSub sub)
  | Existence neg sub => Existence neg (ofSub sub)
  end.

(** What the walk checks of one subquery. *)
Record subSound (mayReadTarget : bool) (target : string) (use : option Operator) (sq : SubQuery) : Prop := mkSubSound {
  ss_schema : exists s, sq_Src sq = Some (SrcSchema s) /\ ts_direct s = true /\
              (target <> "" -> mayReadTarget = false -> ts_table s <> target) /\
              (use = Some OpNin -> sq_Field sq <> "" -> fieldIsNullable s (sq_Field sq) <> Some true);
  ss_projection : sq_selects sq = match use with None => 0%nat | Some _ => 1%nat end;
  ss_limit : (0 < sq_LimitN sq)%Z -> sq_Order sq <> []
}.

Section Meaning.
Context {Arg : Type} (d : Dialect Arg) (isUUID : string -> bool).

(** ** Arguments in reading order *)

Lemma probes_cons k f v vs :
  probes k f (v :: vs) = (if isOuter v then [] else [if onIdentity k f then liftIDProbe v else v]) ++ probes k f vs.
Proof. unfold probes. rewrite filter_cons. destruct (isOuter v); by case_decide. Qed.

Lemma operand_args sc f v args ts args' :
  operand d isUUID sc f v args = Ret (ts, args') ->
  args' = args ++ (d_EncodeArg d <$> (if isOuter v then [] else [if onIdentity (vs_idKind sc) f then liftIDProbe v else v])).
Proof.
  assert (Hp : place d isUUID sc f v args = Ret (ts, args') ->
          args' = args ++ (d_EncodeArg d <$> [if onIdentity (vs_idKind sc) f then liftIDProbe v else v])).
  { unfold place. fold (onIdentity (vs_idKind sc) f). case_match; [done|]. by intros [= _ <-]. }
  destruct v; try exact Hp. simpl. intros (c & _ & [= _ <-])%obind_Ret. by rewrite app_nil_r.
Qed.

Lemma operands_args sc f vs args ts args' :
  operands d isUUID sc f vs args = Ret (ts, args') -> args' = args ++ (d_EncodeArg d <$> probes (vs_idKind sc) f vs).
Proof.
  revert args ts args'. induction vs as [|v vs IH]; intros args ts args'; simpl.
  { intros [= _ <-]. by rewrite app_nil_r. }
  intros ([t1 a1] & H1%operand_args & ([t2 a2] & H2%IH & [= _ <-])%obind_Ret)%obind_Ret. cbn [fst snd] in *.
  by rewrite probes_cons, fmap_app, H2, H1, app_assoc.
Qed.

Lemma VisitComparison_args sc f op vs args ts args' :
  VisitComparison d isUUID sc f op vs args = Ret (ts, args') -> args' = args ++ (d_EncodeArg d <$> probes (vs_idKind sc) f vs).
Proof.
  unfold VisitComparison. intros (col & _ & H)%obind_Ret.
  assert (Hnil : args = args ++ (d_EncodeArg d <$> probes (vs_idKind sc) f [])) by by rewrite app_nil_r.
  assert (Hone : forall v t a, operand d isUUID sc f v args = Ret (t, a) -> a = args ++ (d_EncodeArg d <$> probes (vs_idKind sc) f [v])).
  { intros v t a Ho%operand_args. by rewrite probes_cons, app_nil_r. }
  destruct op; try (destruct vs as [|v [|? ?]]; try done; apply obind_Ret in H as ([t1 a1] & H1%Hone & H); simpl in H;
    try done; by injection H as _ <-).
  - destruct vs as [|v vs]; simpl in H; [by injection H as _ <-|].
    apply obind_Ret in H as ([t1 a1] & H1 & [= _ <-]). by eapply operands_args.
  - destruct vs as [|v vs]; simpl in H; [by injection H as _ <-|].
    apply obind_Ret in H as ([t1 a1] & H1 & [= _ <-]). by eapply operands_args.
  - destruct vs; [by injection H as _ <-|done].
  - destruct vs; [by injection H as _ <-|done].
Qed.

(** The arguments a subquery adds are those of its predicate. *)
Lemma renderSub_args sc sub ex args ts args' :
  (forall sq p sc' a t a', sub = Some sq -> sq_Predicate sq = Some p -> visit d isUUID sc' p a = Ret (t, a') ->
     a' = a ++ (d_EncodeArg d <$> boundValues (vs_idKind sc') p)) ->
  renderSub d (visit d isUUID) sc sub ex args = Ret (ts, args') ->
  args' = args ++ (d_EncodeArg d <$>
    match sub with
    | Some sq => match sq_Predicate sq with Some p => boundValues (IDKindOf <$> subSchema sq) p | None => [] end
    | None => []
    end).
Proof.
  intros Hv (sq & -> & [schema item alias w wa gate order table Hsrc _ _ _ _ Hw _ _ _ _ _ ->])%renderSub_Ret.
  f_equal. unfold subSchema. rewrite Hsrc. destruct (sq_Predicate sq) as [p|] eqn:Ep; [|by injection Hw as <- <-].
  by apply (Hv sq p) in Hw.
Qed.

Lemma visit_args e : forall sc args ts args',
  visit d isUUID sc e args = Ret (ts, args') -> args' = args ++ (d_EncodeArg d <$> boundValues (vs_idKind sc) e).
Proof.
  induction e as [f op vs|op es IH|inner IH|f op sub IH|neg sub IH] using Expr_nested_ind; intros sc args ts args'; simpl.
  - apply VisitComparison_args.
  - destruct es as [|e es]; [done|]. intros ([t1 a1] & H & [= _ <-])%obind_Ret. cbn [snd]. revert args t1 a1 H.
    generalize (e :: es) IH. clear IH. intros l Hl. induction Hl as [|x l Hx _ IH]; intros args t1 a1; csimpl.
    { intros [= _ <-]. by rewrite app_nil_r. }
    intros ([t2 a2] & H1%Hx & ([t3 a3] & H2%IH & [= _ <-])%obind_Ret)%obind_Ret. cbn [fst snd] in *.
    by rewrite H2, H1, fmap_app, app_assoc.
  - destruct inner as [e|]; [|done]. intros ([t1 a1] & H1%IH & [= _ <-])%obind_Ret; done.
  - intros (col & _ & H)%obind_Ret. destruct (subqueryOp op); [|done].
    apply obind_Ret in H as ([] & _ & ([t1 a1] & H1%renderSub_args & [= _ <-])%obind_Ret); [done|naive_solver].
  - intros ([t1 a1] & H1%renderSub_args & [= _ <-])%obind_Ret; [done|naive_solver].
Qed.

(** ** Every subquery is checked *)

Lemma subItem_projection {E} sc (sq : SubQueryOf E) schema ex item :
  subItem d sc sq schema ex = Ret item -> sq_selects sq = (if ex then 0%nat else 1%nat).
Proof. unfold subItem. destruct ex, (sq_selects sq) as [|[|n]]; try done. Qed.

Lemma renderSub_sound sc (sub : option SubQuery) use args ts args' :
  (use = Some OpNin -> refuseNotInOnNullable sub = Ret tt :> Outcome CritErr unit) ->
  renderSub d (visit d isUUID) sc sub (bool_decide (use = None)) args = Ret (ts, args') ->
  exists sq, sub = Some sq /\ subSound (d_AllowsSubqueryOnWriteTarget d) (vs_writeTarget sc) use sq /\
    forall p, sq_Predicate sq = Some p -> exists sc' a t a', vs_writeTarget sc' = vs_writeTarget sc /\ visit d isUUID sc' p a = Ret (t, a').
Proof.
  intros Hnin (sq & -> & [schema item alias w wa gate order table Hsrc Hd Ht Hi _ Hw _ Ho Hl _ _ _])%renderSub_Ret.
  exists sq. split; [done|]. split; [split|].
  - exists schema. split_and!; [done|done| |].
    + intros Hne Hno Heq. rewrite Heq, Hno, String.eqb_refl in Ht. apply String.eqb_neq in Hne. by rewrite Hne in Ht.
    + intros Hu Hf. specialize (Hnin Hu). simpl in Hnin. rewrite Hsrc in Hnin.
      apply String.eqb_neq in Hf. rewrite Hf in Hnin. intros Hnull. by rewrite Hnull in Hnin.
  - apply subItem_projection in Hi. rewrite Hi. by destruct use.
  - intros Hpos%Z.ltb_lt Hnil. rewrite Hnil in Ho. injection Ho as <-. by rewrite Hpos in Hl.
  - intros p Hp. rewrite Hp in Hw. eexists _, [], w, wa. by split; [|exact Hw].
Qed.

Lemma visit_subs e : forall sc args ts args',
  visit d isUUID sc e args = Ret (ts, args') ->
  allSubs (subSound (d_AllowsSubqueryOnWriteTarget d) (vs_writeTarget sc)) e.
Proof.
  induction e as [f op vs|op es IH|inner IH|f op sub IH|neg sub IH] using Expr_nested_ind; intros sc args ts args'; simpl.
  - done.
  - destruct es as [|e es]; [done|]. intros ([t1 a1] & H & _)%obind_Ret. revert args t1 a1 H.
    generalize (e :: es) IH. clear IH. intros l Hl. induction Hl as [|x l Hx _ IH]; intros args t1 a1; [done|]; simpl.
    intros ([t2 a2] & H1%Hx & ([t3 a3] & H2%IH & _)%obind_Ret)%obind_Ret. done.
  - destruct inner as [e|]; [|done]. intros ([t1 a1] & H1%IH & _)%obind_Ret; done.
  - intros (col & _ & H)%obind_Ret. destruct (subqueryOp op); [|done].
    apply obind_Ret in H as ([] & Hn & ([t1 a1] & H1 & _)%obind_Ret).
    apply (renderSub_sound _ _ (Some op)) in H1 as (sq & -> & Hs & Hp); [|intros [= ->]; done].
    split; [done|]. destruct (sq_Predicate sq) as [p|] eqn:Ep; [|done].
    destruct (Hp p eq_refl) as (sc' & a & t & a' & <- & Hv). by eapply IH.
  - intros ([t1 a1] & H1 & _)%obind_Ret.
    apply (renderSub_sound _ _ None) in H1 as (sq & -> & Hs & Hp); [|done].
    split; [done|]. destruct (sq_Predicate sq) as [p|] eqn:Ep; [|done].
    destruct (Hp p eq_refl) as (sc' & a & t & a' & <- & Hv). by eapply IH.
Qed.

End Meaning.

(** ** The text does not depend on the probe values *)

Section NonInterference.
Context {Arg : Type} (d : Dialect Arg) (isUUID : string -> bool).
Context (g : Value -> Value) (Hg : forall v, isOuter v = false -> isOuter (g v) = false).

Abbreviation other := (fun v => if isOuter v then v else g v).

(** Two runs that, when both succeed, write the same text and bind as many
    arguments. *)
Definition sameText (r1 r2 : Outcome CritErr (list Tok * list Arg)) : Prop :=
  forall t1 b1 t2 b2, r1 = Ret (t1, b1) -> r2 = Ret (t2, b2) -> t1 = t2 /\ length b1 = length b2.

Lemma sameText_Ret t b1 b2 : length b1 = length b2 -> sameText (Ret (t, b1)) (Ret (t, b2)).
Proof. by intros H t1 c1 t2 c2 [= <- <-] [= <- <-]. Qed.

Lemma sameText_Fail x r : sameText (Fail x) r.
Proof. by intros t1 c1 t2 c2. Qed.

Lemma sameText_bind r1 r2 k1 k2 :
  sameText r1 r2 -> (forall t b1 b2, length b1 = length b2 -> sameText (k1 (t, b1)) (k2 (t, b2))) ->
  sameText (obind r1 k1) (obind r2 k2).
Proof.
  intros Hr Hk t1 c1 t2 c2 ([u1 v1] & E1 & E2)%obind_Ret ([u2 v2] & F1 & F2)%obind_Ret.
  destruct (Hr _ _ _ _ E1 F1) as [-> Hl]. by eapply Hk.
Qed.

Lemma sameText_pure {A} (c : Outcome CritErr A) k1 k2 :
  (forall x, sameText (k1 x) (k2 x)) -> sameText (obind c k1) (obind c k2).
Proof.
  intros Hk t1 c1 t2 c2 (x & E1 & E2)%obind_Ret (y & F1 & F2)%obind_Ret.
  rewrite E1 in F1. injection F1 as <-. by eapply Hk.
Qed.

Lemma operand_same sc f v a1 a2 :
  length a1 = length a2 -> sameText (operand d isUUID sc f v a1) (operand d isUUID sc f (other v) a2).
Proof.
  intros Hl.
  assert (Hp : forall v1 v2, sameText (place d isUUID sc f v1 a1) (place d isUUID sc f v2 a2)).
  { intros v1 v2 t1 b1 t2 b2. unfold place. fold (onIdentity (vs_idKind sc) f).
    destruct (if onIdentity _ _ then malformedIDProbe isUUID v1 else None); [done|].
    destruct (if onIdentity _ _ then malformedIDProbe isUUID v2 else None); [done|]. intros [= <- <-] [= <- <-].
    rewrite !length_app, Hl. done. }
  destruct (isOuter v) eqn:E.
  - destruct v; try done. apply sameText_pure. intros c. by apply sameText_Ret.
  - specialize (Hg v E). destruct v; try done; destruct (g _); try done; apply Hp.
Qed.

Lemma operands_same sc f vs a1 a2 :
  length a1 = length a2 -> sameText (operands d isUUID sc f vs a1) (operands d isUUID sc f (map other vs) a2).
Proof.
  revert a1 a2. induction vs as [|v vs IH]; intros a1 a2 Hl; [by apply sameText_Ret|]. simpl.
  eapply sameText_bind; [by apply operand_same|]. intros t b1 b2 Hb.
  eapply sameText_bind; [by apply IH|]. intros t' c1 c2 Hc. destruct vs; by apply sameText_Ret.
Qed.

Lemma VisitComparison_same sc f op vs a1 a2 :
  length a1 = length a2 ->
  sameText (VisitComparison d isUUID sc f op vs a1) (VisitComparison d isUUID sc f op (map other vs) a2).
Proof.
  intros Hl. apply sameText_pure. intros col.
  assert (Hone : forall v k1 k2, (forall t b1 b2, length b1 = length b2 -> sameText (k1 (t, b1)) (k2 (t, b2))) ->
    sameText (obind (operand d isUUID sc f v a1) k1) (obind (operand d isUUID sc f (other v) a2) k2)).
  { intros v k1 k2. apply sameText_bind. by apply operand_same. }
  destruct op; try (destruct vs as [|v [|? ?]]; try apply sameText_Fail; apply Hone; intros t b1 b2 Hb; simpl;
    first [apply sameText_Fail|by apply sameText_Ret]).
  - destruct vs as [|v vs]; [by apply sameText_Ret|].
    apply (sameText_bind _ _ _ _ (operands_same sc f (v :: vs) a1 a2 Hl)). intros t b1 b2 Hb. by apply sameText_Ret.
  - destruct vs as [|v vs]; [by apply sameText_Ret|].
    apply (sameText_bind _ _ _ _ (operands_same sc f (v :: vs) a1 a2 Hl)). intros t b1 b2 Hb. by apply sameText_Ret.
  - destruct vs; [by apply sameText_Ret|apply sameText_Fail].
  - destruct vs; [by apply sameText_Ret|apply sameText_Fail].
Qed.

(** The subquery of [mapValues]. *)
Definition mapSub (sq : SubQuery) : SubQuery :=
  mkSub (sq_Src sq) (sq_Func sq) (sq_Field sq)
    (match sq_Predicate sq with Some p => Some (mapValues g p) | None => None end)
    (sq_Order sq) (sq_LimitN sq) (sq_Scope sq) (sq_Quant sq) (sq_selects sq).

Lemma renderSub_same sc (sub : option SubQuery) ex a1 a2 :
  length a1 = length a2 ->
  (forall sq p sc' b1 b2, sub = Some sq -> sq_Predicate sq = Some p -> length b1 = length b2 ->
     sameText (visit d isUUID sc' p b1) (visit d isUUID sc' (mapValues g p) b2)) ->
  sameText (renderSub d (visit d isUUID) sc sub ex a1) (renderSub d (visit d isUUID) sc (option_map mapSub sub) ex a2).
Proof.
  intros Hl Hv t1 b1 t2 b2 (sq & -> & [s i1 al1 w1 v1 g1 o1 ta1 S1 _ _ I1 A1 W1 G1 O1 _ T1 X1 ->])%renderSub_Ret.
  intros (sq' & [= <-] & [s' i2 al2 w2 v2 g2 o2 ta2 S2 _ _ I2 A2 W2 G2 O2 _ T2 X2 ->])%renderSub_Ret.
  simpl in *. rewrite S1 in S2. injection S2 as <-. rewrite A1 in A2. injection A2 as <-.
  change (subItem d sc (mapSub sq) s ex) with (subItem d sc sq s ex) in I2. rewrite I1 in I2. injection I2 as <-.
  rewrite G1 in G2. injection G2 as <-. rewrite <- Hl, O1 in O2. injection O2 as <-. rewrite T1 in T2. injection T2 as <-.
  assert (w1 = w2 /\ length v1 = length v2) as [<- Hw].
  { destruct (sq_Predicate sq) as [p|] eqn:Ep; [|by injection W1 as <- <-; injection W2 as <- <-].
    rewrite <- Hl in W2. by apply (Hv sq p _ [] [] eq_refl Ep eq_refl _ _ _ _ W1 W2). }
  change (subText d (mapSub sq)) with (subText d sq) in X2. rewrite X1 in X2. injection X2 as <-.
  split; [done|]. by rewrite !length_app, Hl, Hw.
Qed.

Lemma refuse_same (sub : option SubQuery) : refuseNotInOnNullable (option_map mapSub sub) = refuseNotInOnNullable sub.
Proof. by destruct sub. Qed.

Lemma visit_same e : forall sc a1 a2,
  length a1 = length a2 -> sameText (visit d isUUID sc e a1) (visit d isUUID sc (mapValues g e) a2).
Proof.
  induction e as [f op vs|op es IH|inner IH|f op sub IH|neg sub IH] using Expr_nested_ind; intros sc a1 a2 Hl.
  - by apply VisitComparison_same.
  - destruct es as [|e es]; [apply sameText_Fail|]. change (mapValues g (Logical op (e :: es))) with (Logical op (map (mapValues g) (e :: es))).
    eapply (sameText_bind (joinOperands _ _ (e :: es) _) (joinOperands _ _ (map (mapValues g) (e :: es)) _));
      [|intros t b1 b2 Hb; by apply sameText_Ret].
    revert a1 a2 Hl. generalize (e :: es) IH. clear IH. intros l Hx. induction Hx as [|x l Hx _ IH]; intros a1 a2 Hl; simpl.
    { by apply sameText_Ret. }
    eapply sameText_bind; [by apply Hx|]. intros t b1 b2 Hb.
    eapply sameText_bind; [by apply IH|]. intros t' c1 c2 Hc. destruct l; by apply sameText_Ret.
  - destruct inner as [e|]; [|apply sameText_Fail]. simpl. eapply sameText_bind; [by apply IH|].
    intros t b1 b2 Hb. by apply sameText_Ret.
  - change (mapValues g (SubqueryComparison f op sub)) with (SubqueryComparison f op (option_map mapSub sub)).
    simpl. apply sameText_pure. intros col. destruct (subqueryOp op); [|apply sameText_Fail]. rewrite refuse_same.
    apply sameText_pure. intros _. eapply sameText_bind.
    { apply renderSub_same; [done|]. intros sq p sc' b1 b2 Hs Hp Hb. by eapply IH. }
    intros t b1 b2 Hb. destruct sub; by apply sameText_Ret.
  - change (mapValues g (Existence neg sub)) with (Existence neg (option_map mapSub sub)). simpl. eapply sameText_bind.
    { apply renderSub_same; [done|]. intros sq p sc' b1 b2 Hs Hp Hb. by eapply IH. }
    intros t b1 b2 Hb. by apply sameText_Ret.
Qed.

End NonInterference.
