(* ===== verification/CriteriaAlias.v ===== *)
(** * Subquery aliases

    [subAlias] names the table of a subquery so that an inner scope never captures
    a reference to an enclosing one. *)

From S2P Require Import Prelude Naming GoStrings BaseEntity Criteria CriteriaSql.
From stdpp Require Import base gmap strings list fin_maps.
From Stdlib Require Import Ascii ZArith Lia.

Open Scope string_scope.
Open Scope list_scope.

(** ** Runes *)

Definition hexRune (c : ascii) : bool :=
  let n := nat_of_ascii c in ((48 <=? n) && (n <=? 57) || (97 <=? n) && (n <=? 102))%nat%bool.

Definition digitRune (c : ascii) : bool :=
  let n := nat_of_ascii c in ((48 <=? n) && (n <=? 57))%nat%bool.

Definition underscore : ascii := "_".

Lemma allRunes_mono (p q : ascii -> bool) s :
  (forall c, p c = true -> q c = true) -> allRunes p s = true -> allRunes q s = true.
Proof. intros H. induction s as [|c s IH]; simpl; [done|]. intros [Hc Hs]%andb_true_iff. by rewrite (H _ Hc), IH. Qed.

Lemma length_string_app (a b : string) : String.length (a +:+ b) = (String.length a + String.length b)%nat.
Proof. induction a as [|c a IH]; [done|]. rewrite string_app_cons. simpl. by rewrite IH. Qed.

Lemma digitRune_hex c : digitRune c = true -> hexRune c = true.
Proof. unfold digitRune, hexRune. by intros ->. Qed.

Lemma hexRune_ident c : hexRune c = true -> identRune c = true.
Proof. unfold hexRune, identRune. rewrite !orb_true_iff, !andb_true_iff, !Nat.leb_le. lia. Qed.

Lemma hexRune_not_under c : hexRune c = true -> c <> underscore.
Proof. by intros H ->. Qed.

(** ** Decimal and hexadecimal digits *)

Lemma digit_rune d : (0 <= d <= 9)%Z -> digitRune (digit d) = true.
Proof.
  intros H. unfold digitRune, digit. rewrite nat_ascii_embedding by lia.
  rewrite andb_true_iff, !Nat.leb_le. lia.
Qed.

Lemma itoa_digits_runes fuel i acc s :
  (0 <= i)%Z -> allRunes digitRune acc = true -> itoa_digits fuel i acc = Some s ->
  allRunes digitRune s = true /\ (String.length s <= fuel + String.length acc)%nat.
Proof.
  revert i acc. induction fuel as [|fuel IH]; intros i acc Hi Ha; simpl; destruct (i <=? 0)%Z eqn:E; try done.
  - by intros [= <-].
  - intros [= <-]. split; [done|lia].
  - apply Z.leb_gt in E. intros H. apply IH in H as [H1 H2]; [|apply Z.quot_pos; lia|].
    + cbn [String.length] in H2. split; [done|lia].
    + cbn [allRunes]. rewrite Ha, digit_rune; [done|]. pose proof (Z.rem_bound_pos i 10). lia.
Qed.

Lemma itoa_runes z : (0 <= z)%Z -> allRunes digitRune (itoa z) = true /\ (String.length (itoa z) <= 20)%nat.
Proof.
  intros Hz. unfold itoa. destruct (z =? 0)%Z; [split; [done|simpl; lia]|].
  destruct (z <? 0)%Z eqn:E; [apply Z.ltb_lt in E; lia|].
  destruct (itoa_digits 20 z "") as [s|] eqn:Es; [|split; [done|simpl; lia]].
  apply itoa_digits_runes in Es as [H1 H2]; [|done|done]. split; [done|]. by simpl in H2.
Qed.

Lemma hexDigit_rune n : (0 <= n < 16)%Z -> allRunes hexRune (hexDigit n) = true.
Proof.
  intros H. unfold hexDigit. cbn [allRunes]. rewrite andb_true_r. unfold hexRune. cbn zeta.
  rewrite nat_ascii_embedding by (destruct (n <? 10)%Z; lia).
  rewrite orb_true_iff, !andb_true_iff, !Nat.leb_le. destruct (Z.ltb_spec n 10); lia.
Qed.

Lemma hexDigits_runes fuel n : (0 <= n)%Z ->
  allRunes hexRune (hexDigits fuel n) = true /\ (String.length (hexDigits fuel n) <= fuel)%nat.
Proof.
  revert n. induction fuel as [|fuel IH]; intros n Hn; simpl; [done|].
  destruct (n <? 16)%Z eqn:E; [split; [apply hexDigit_rune; lia|simpl; lia]|].
  destruct (IH (n / 16)%Z) as [H1 H2]; [by apply Z.div_pos|].
  rewrite allRunes_app, length_string_app, H1, hexDigit_rune by (apply Z.mod_pos_bound; lia). simpl. split; [done|lia].
Qed.

Lemma hexDigits_nonempty fuel n : hexDigits (S fuel) n <> "".
Proof.
  simpl. destruct (n <? 16)%Z; [done|]. destruct (hexDigits fuel (n / 16)); [done|]. by rewrite string_app_cons.
Qed.

Lemma fnv64a_nonneg s h : (0 <= h)%Z -> (0 <= fnv64a s h)%Z.
Proof. revert h. induction s as [|c s IH]; intros h Hh; simpl; [done|]. apply IH, Z.mod_pos_bound. lia. Qed.

(** ** Segments between underscores *)

Fixpoint hasUnder (s : string) : bool :=
  match s with
  | EmptyString => false
  | String c rest => Ascii.eqb c underscore || hasUnder rest
  end.

Fixpoint firstSeg (s : string) : string :=
  match s with
  | EmptyString => ""
  | String c rest => if Ascii.eqb c underscore then "" else String c (firstSeg rest)
  end.

Fixpoint lastSeg (s : string) : string :=
  match s with
  | EmptyString => ""
  | String c rest => if hasUnder rest then lastSeg rest else if Ascii.eqb c underscore then rest else String c rest
  end.

Lemma hasUnder_app a b : hasUnder (a +:+ b) = hasUnder a || hasUnder b.
Proof. induction a as [|c a IH]; [done|]. rewrite string_app_cons. simpl. by rewrite IH, orb_assoc. Qed.

Lemma firstSeg_app a b : hasUnder a = false -> firstSeg (a +:+ String underscore b) = a.
Proof.
  induction a as [|c a IH]; [done|]. rewrite string_app_cons. simpl. intros [Hc Ha]%orb_false_iff. by rewrite Hc, IH.
Qed.

Lemma lastSeg_app a b : hasUnder b = false -> lastSeg (a +:+ String underscore b) = b.
Proof.
  intros Hb. induction a as [|c a IH]; [rewrite string_app_nil_l; simpl; by rewrite Hb|].
  rewrite string_app_cons. simpl. by rewrite hasUnder_app, orb_true_r.
Qed.

Lemma hex_hasUnder s : allRunes hexRune s = true -> hasUnder s = false.
Proof.
  induction s as [|c s IH]; simpl; [done|]. intros [Hc Hs]%andb_true_iff.
  rewrite (IH Hs), orb_false_r. apply Ascii.eqb_neq. by apply hexRune_not_under.
Qed.

(** ** The alias *)

Definition hashOf (table : string) : string := hexDigits 16 (fnv64a table fnvOffset).

Lemma hashOf_runes table : allRunes hexRune (hashOf table) = true /\ (String.length (hashOf table) <= 16)%nat.
Proof. apply hexDigits_runes, fnv64a_nonneg. done. Qed.

Definition depthWord (depth : nat) : string := "sq" +:+ itoa (Z.of_nat depth).

Lemma depthWord_facts depth :
  hasUnder (depthWord depth) = false /\ allRunes identRune (depthWord depth) = true /\ (String.length (depthWord depth) <= 22)%nat.
Proof.
  unfold depthWord. destruct (itoa_runes (Z.of_nat depth)) as [H1 H2]; [lia|].
  assert (H3 : allRunes hexRune (itoa (Z.of_nat depth)) = true) by (eapply allRunes_mono; [exact digitRune_hex|done]).
  rewrite hasUnder_app, allRunes_app, length_string_app, (hex_hasUnder _ H3), (allRunes_mono _ _ _ hexRune_ident H3).
  simpl. split_and!; [done|done|lia].
Qed.

Lemma depthWord_inj d1 d2 :
  (Z.of_nat d1 <= int64_max)%Z -> (Z.of_nat d2 <= int64_max)%Z -> depthWord d1 = depthWord d2 -> d1 = d2.
Proof.
  intros H1 H2 H. apply (f_equal (fun s => match s with String _ (String _ r) => readInt r | _ => None end)) in H.
  change (readInt (itoa (Z.of_nat d1)) = readInt (itoa (Z.of_nat d2))) in H.
  rewrite !itoa_read in H by (unfold int64_min; lia). injection H as H. lia.
Qed.

(** An alias is the table with the depth as its last segment, or the depth as its
    first segment and a hash as its last. *)
Lemma subAlias_form table depth :
  (subAlias table depth = table +:+ String underscore (depthWord depth) /\
   (String.length (subAlias table depth) <= subAliasBudget)%nat) \/
  subAlias table depth = depthWord depth +:+ String underscore (hashOf table).
Proof.
  unfold subAlias. destruct (_ <=? subAliasBudget)%nat eqn:E.
  - left. split; [done|]. by apply Nat.leb_le.
  - right. unfold depthWord. by rewrite !string_app_assoc.
Qed.

Lemma subAlias_length table depth : (String.length (subAlias table depth) <= subAliasBudget)%nat.
Proof.
  destruct (subAlias_form table depth) as [[_ ?]| ->]; [done|]. rewrite length_string_app. cbn [String.length].
  destruct (depthWord_facts depth) as (_ & _ & H1), (hashOf_runes table) as [_ H2]. unfold subAliasBudget. lia.
Qed.

Lemma subAlias_safe table depth : SafeIdentifier table = true -> SafeIdentifier (subAlias table depth) = true.
Proof.
  unfold SafeIdentifier. intros [Hne Hall]%andb_true_iff. apply andb_true_iff.
  destruct (depthWord_facts depth) as (_ & H1 & _), (hashOf_runes table) as [H2 _].
  apply (allRunes_mono _ _ _ hexRune_ident) in H2.
  destruct (subAlias_form table depth) as [[-> _]| ->]; (split; [|rewrite allRunes_app; cbn [allRunes]; by rewrite ?Hall, ?H1, ?H2]).
  - by destruct table.
  - done.
Qed.

Lemma subAlias_depth t1 d1 t2 d2 :
  (Z.of_nat d1 <= int64_max)%Z -> (Z.of_nat d2 <= int64_max)%Z -> subAlias t1 d1 = subAlias t2 d2 -> d1 = d2.
Proof.
  intros B1 B2.
  destruct (depthWord_facts d1) as (U1 & _), (depthWord_facts d2) as (U2 & _).
  pose proof (hex_hasUnder _ (proj1 (hashOf_runes t1))) as V1. pose proof (hex_hasUnder _ (proj1 (hashOf_runes t2))) as V2.
  assert (Hmix : forall t d, depthWord d = hashOf t -> False).
  { intros t d H. pose proof (proj1 (hashOf_runes t)) as Hh. by rewrite <- H in Hh. }
  destruct (subAlias_form t1 d1) as [[-> _]| ->], (subAlias_form t2 d2) as [[-> _]| ->]; intros H.
  - apply (f_equal lastSeg) in H. rewrite !lastSeg_app in H by done. by apply depthWord_inj.
  - apply (f_equal lastSeg) in H. rewrite !lastSeg_app in H by done. by apply Hmix in H.
  - apply (f_equal lastSeg) in H. rewrite !lastSeg_app in H by done. symmetry in H. by apply Hmix in H.
  - apply (f_equal firstSeg) in H. rewrite !firstSeg_app in H by done. by apply depthWord_inj.
Qed.
