(* ===== verification/CriteriaClaims.v ===== *)
(** * Properties of the criteria compiler

    Binding order, the archive gate, injection safety, the checks on subqueries,
    aliases, literal LIKE patterns and upsert placeholders. *)

From S2P Require Import Prelude Naming BaseEntity Criteria CriteriaSql Dialects CriteriaProps CriteriaMeaning CriteriaAlias.
From stdpp Require Import base gmap strings list fin_maps.
From Stdlib Require Import Ascii ZArith Lia.

Open Scope string_scope.
Open Scope list_scope.
Open Scope go_scope.

(** ** Sample schemas *)

Module ShopSample.

Definition plain (c : string) : schemaField := mkSchemaField c IDNone (Some false).

Definition orders : TableSchema :=
  mkTableSchema "orders" true true "ID" "id" ""
    {[ "CustomerID" := mkSchemaField "customer_id" IDValue (Some false); "Status" := plain "status"; "Total" := plain "total" ]}
    "archived_at" "created_at" "updated_at" [] None.

Definition customers : TableSchema :=
  mkTableSchema "customers" true true "ID" "id" "" {[ "Name" := plain "name"; "Tier" := plain "tier" ]}
    "archived_at" "created_at" "updated_at" [] None.

(** 36 runes stand for a well-formed id. *)
Definition isUUID36 (s : string) : bool := (String.length s =? 36)%nat.

Definition aUUID : string := "00000000-0000-0000-0000-000000000001".

(** Open orders of gold customers, correlated, with an OR beside it. *)
Definition goldOrders : Expr :=
  Build.Or [
    Build.And [Build.Eq "Status" (VString "open");
               Build.InSub "CustomerID"
                 (Build.Select "ID" (Build.subWhere (Build.And [Build.Eq "Tier" (VString "gold"); Build.Eq "ID" (VOuter "CustomerID")])
                    (Build.Sub (Some (SrcSchema customers)))))];
    Build.Eq "CustomerID" (VString aUUID)].

Definition compiled (base : nat) :=
  CompileWhereQualifiedFrom pgDialect isUUID36 (Some goldOrders) (Resolve orders) (Some (IDKindOf orders)) noQual base.

Definition textOf (r : Outcome CritErr (list Tok * list SqlArg)) : list Tok := match r with Ret (ts, _) => ts | _ => [] end.
Definition argsOf (r : Outcome CritErr (list Tok * list SqlArg)) : list SqlArg := match r with Ret (_, a) => a | _ => [] end.

Example compiled_text :
  exists ts args, compiled 2 = Ret (ts, args) /\
    sqlText pgDialect ts =
      "((status = $3 AND customer_id IN (SELECT customers_sq1.id FROM customers customers_sq1 WHERE (customers_sq1.tier = $4 AND customers_sq1.id = orders.customer_id) AND customers_sq1.archived_at IS NULL)) OR customer_id = $5)" /\
    args = [AText "open"; AText "gold"; AText aUUID].
Proof. do 2 eexists. by split_and!; [vm_compute; reflexivity|vm_compute; reflexivity|]. Qed.

End ShopSample.

(** ** Binding *)

(** C12: whatever the expression, its nesting and its subqueries, a compiled WHERE
    binds the probe values of the expression in reading order, each encoded by the
    dialect (and lifted to an id on an identity field), and its text carries
    exactly the placeholders [base+1 .. base+n], in that order.  So the k-th
    placeholder always meets the k-th value. *)
Theorem where_binds_in_reading_order {Arg} (d : Dialect Arg) `{!DialectLaws d} isUUID e resolve idKind qual base ts args :
  qualOk d qual ->
  CompileWhereQualifiedFrom d isUUID (Some e) resolve idKind qual base = Ret (ts, args) ->
  args = d_EncodeArg d <$> boundValues idKind e /\ places ts = seq (S base) (length args).
Proof.
  intros Hq H. split; [by apply visit_args in H|].
  destruct (compiled_good d isUUID _ _ _ _ _ _ _ Hq H) as [(new & -> & Hp) _ _]. simpl in Hp. by rewrite Nat.add_0_r in Hp.
Qed.

Lemma where_binds_in_reading_order_witness :
  exists ts args, ShopSample.compiled 2 = Ret (ts, args) /\
    args = pgEncodeArg <$> boundValues (Some (IDKindOf ShopSample.orders)) ShopSample.goldOrders /\ places ts = [3; 4; 5].
Proof.
  do 2 eexists. split; [vm_compute; reflexivity|].
  eapply (where_binds_in_reading_order pgDialect ShopSample.isUUID36 ShopSample.goldOrders (Resolve ShopSample.orders)
            (Some (IDKindOf ShopSample.orders)) noQual 2); [by left|vm_compute; reflexivity].
Defined.

(** ** The archive gate *)

(** The conjuncts of a fragment outside every parenthesis. *)
Fixpoint conjuncts (k : nat) (cur : list Tok) (ts : list Tok) : list (list Tok) :=
  match ts with
  | [] => [rev cur]
  | t :: rest =>
      match t, k with
      | TAnd, O => rev cur :: conjuncts 0 [] rest
      | TOpen, _ => conjuncts (S k) (t :: cur) rest
      | TClose, _ => conjuncts (pred k) (t :: cur) rest
      | _, _ => conjuncts k (t :: cur) rest
      end
  end.

Lemma conjuncts_app k cur a b :
  scan k a = Some 0%nat -> conjuncts k cur (a ++ TAnd :: b) = conjuncts k cur a ++ conjuncts 0 [] b.
Proof.
  revert k cur. induction a as [|t a IH]; intros k cur H; simpl in *; [by injection H as ->|].
  destruct t; try (by apply IH).
  - destruct k; [done|]. by apply IH.
  - destruct k; [simpl; f_equal; by apply IH|by apply IH].
  - destruct k; [done|]. by apply IH.
Qed.

Lemma conjuncts_single k cur ts :
  Forall (fun t => match t with TAnd | TOpen | TClose => False | _ => True end) ts -> conjuncts k cur ts = [rev cur ++ ts].
Proof.
  intros H. revert cur. induction H as [|t ts Ht _ IH]; intros cur; simpl; [by rewrite app_nil_r|].
  destruct t; try done; rewrite IH; simpl; by rewrite <- app_assoc.
Qed.

Lemma ScopeGate_single {Arg} (d : Dialect Arg) s schema q g :
  ScopeGate d s schema q = Ret g -> g <> [] -> conjuncts 0 [] g = [g].
Proof.
  unfold ScopeGate. destruct (ArchivedAtColumn schema); [|by intros [= <-]].
  unfold quote. destruct (d_QuoteIdent d _); [|done]. simpl.
  destruct s, (String.eqb q ""); intros [= <-] Hne; done.
Qed.

(** C30: the archive gate cannot be bypassed by a predicate.  However the compiled
    predicate uses OR, every OR is inside its parentheses, so in
    [WHERE predicate AND gate] the gate is a conjunct of the whole clause. *)
Theorem archive_gate_cannot_be_bypassed {Arg} (d : Dialect Arg) `{!DialectLaws d} isUUID e resolve idKind qual base w args
    scope schema q gate :
  qualOk d qual -> q = "" \/ okIdent d q ->
  CompileWhereQualifiedFrom d isUUID (Some e) resolve idKind qual base = Ret (w, args) ->
  ScopeGate d scope schema q = Ret gate -> w <> [] -> gate <> [] ->
  exists body, BuildWhereClause w gate = TKw "WHERE " :: body /\
    conjuncts 0 [] body = conjuncts 0 [] w ++ [gate] /\ scan 0 body = Some 0%nat.
Proof.
  intros Hq Hq2 H Hg Hw Hne. destruct (compiled_good d isUUID _ _ _ _ _ _ _ Hq H) as [_ Hb _].
  exists (w ++ TAnd :: gate). split; [by destruct w, gate|]. split.
  - rewrite conjuncts_app by apply Hb. by rewrite (ScopeGate_single _ _ _ _ _ Hg Hne).
  - rewrite scan_app, Hb. simpl. by apply ScopeGate_inert in Hg as (_ & Hgb & _).
Qed.

Lemma archive_gate_cannot_be_bypassed_witness :
  let w := ShopSample.textOf (ShopSample.compiled 0) in
  let gate := [TIdent "archived_at"; TKw " IS NULL"] in
  exists body, BuildWhereClause w gate = TKw "WHERE " :: body /\ conjuncts 0 [] body = conjuncts 0 [] w ++ [gate] /\ scan 0 body = Some 0%nat.
Proof.
  intros w gate.
  refine (archive_gate_cannot_be_bypassed pgDialect ShopSample.isUUID36 ShopSample.goldOrders (Resolve ShopSample.orders)
    (Some (IDKindOf ShopSample.orders)) noQual 0 w (ShopSample.argsOf (ShopSample.compiled 0))
    ScopeActive ShopSample.orders "" gate _ _ _ _ _ _);
    [by left|by left|vm_compute; reflexivity|vm_compute; reflexivity|vm_compute; discriminate|vm_compute; discriminate].
Defined.

(** ** Injection safety *)

(** Every piece of a compiled WHERE is a fixed word of the translator, an
    identifier that passed the allowlist and the dialect's quoter, a placeholder,
    a parenthesis, a dot, AND/OR or a limit: no field name and no value of the
    caller is copied into the statement. *)
Theorem statement_has_only_safe_pieces {Arg} (d : Dialect Arg) `{!DialectLaws d} isUUID e resolve idKind qual base ts args :
  qualOk d qual ->
  CompileWhereQualifiedFrom d isUUID (Some e) resolve idKind qual base = Ret (ts, args) ->
  forall t, t ∈ ts ->
  match t with
  | TKw w => w ∈ sqlWords
  | TIdent quoted => exists name, SafeIdentifier name = true /\ d_QuoteIdent d name = Some quoted
  | _ => True
  end.
Proof.
  intros Hq H t Ht. destruct (compiled_good d isUUID _ _ _ _ _ _ _ Hq H) as [_ _ Hok].
  rewrite Forall_forall in Hok. specialize (Hok t Ht). by destruct t.
Qed.

Lemma statement_has_only_safe_pieces_witness :
  let ts := ShopSample.textOf (ShopSample.compiled 0) in
  TIdent "customers_sq1" ∈ ts /\ exists name, SafeIdentifier name = true /\ d_QuoteIdent pgDialect name = Some "customers_sq1".
Proof.
  intros ts. assert (Hin : TIdent "customers_sq1" ∈ ts) by (apply (list_elem_of_lookup_2 _ 14); vm_compute; reflexivity).
  split; [exact Hin|].
  refine (statement_has_only_safe_pieces pgDialect ShopSample.isUUID36 ShopSample.goldOrders (Resolve ShopSample.orders)
    (Some (IDKindOf ShopSample.orders)) noQual 0 ts (ShopSample.argsOf (ShopSample.compiled 0)) _ _ _ Hin);
    [by left|vm_compute; reflexivity].
Defined.

(** The text of a statement is independent of the probe values: replacing
    every value of an expression, at any depth, leaves a statement that compiles
    to the same text. *)
Theorem values_never_reach_the_text {Arg} (d : Dialect Arg) isUUID g e resolve idKind qual base t1 a1 t2 a2 :
  (forall v, isOuter v = false -> isOuter (g v) = false) ->
  CompileWhereQualifiedFrom d isUUID (Some e) resolve idKind qual base = Ret (t1, a1) ->
  CompileWhereQualifiedFrom d isUUID (Some (mapValues g e)) resolve idKind qual base = Ret (t2, a2) ->
  sqlText d t1 = sqlText d t2 /\ length a1 = length a2.
Proof. intros Hg H1 H2. destruct (visit_same d isUUID g Hg e _ [] [] eq_refl _ _ _ _ H1 H2) as [-> Hl]. done. Qed.

Lemma values_never_reach_the_text_witness :
  let evil := fun _ : Value => VID (Some (NewID "x' OR 1=1 --")) in
  exists t1 a1 t2 a2,
    ShopSample.compiled 0 = Ret (t1, a1) /\
    CompileWhereQualifiedFrom pgDialect ShopSample.isUUID36 (Some (mapValues evil ShopSample.goldOrders))
      (Resolve ShopSample.orders) (Some (IDKindOf ShopSample.orders)) noQual 0 = Ret (t2, a2) /\
    sqlText pgDialect t1 = sqlText pgDialect t2 /\ length a1 = length a2.
Proof.
  intros evil. do 4 eexists. split; [vm_compute; reflexivity|]. split; [vm_compute; reflexivity|].
  by apply (values_never_reach_the_text pgDialect ShopSample.isUUID36 evil ShopSample.goldOrders (Resolve ShopSample.orders)
    (Some (IDKindOf ShopSample.orders)) noQual 0); [|vm_compute; reflexivity|vm_compute; reflexivity].
Defined.

(** ** Subqueries *)

(** A WHERE compiled for a write accepts only sound subqueries, at every
    depth: each reads a schema mapped in direct mode; it never reads the table
    being written on an engine that refuses that; a [NOT IN] never projects a
    column known to be nullable; a comparison has exactly one projection and an
    existence test none; a limit comes with an order. *)
Theorem accepted_subqueries_are_sound {Arg} (d : Dialect Arg) isUUID e resolve idKind base target ts args :
  CompileWhereForWrite d isUUID (Some e) resolve idKind base target = Ret (ts, args) ->
  allSubs (subSound (d_AllowsSubqueryOnWriteTarget d) target) e.
Proof. apply (visit_subs d isUUID e). Qed.

Lemma accepted_subqueries_are_sound_witness :
  let e := Build.Exists (Build.subWhere (Build.Eq "Tier" (VString "gold")) (Build.Sub (Some (SrcSchema ShopSample.customers)))) in
  let my := mysqlDialect ShopSample.isUUID36 (fun raw => raw) in
  allSubs (subSound false "orders") e /\
  CompileWhereForWrite my ShopSample.isUUID36 (Some e) (Resolve ShopSample.orders) None 0 "customers" =
    Fail (EReadsWriteTarget "customers").
Proof.
  intros e my. split; [|vm_compute; reflexivity].
  refine (accepted_subqueries_are_sound my ShopSample.isUUID36 e (Resolve ShopSample.orders) None 0 "orders"
    (ShopSample.textOf (CompileWhereForWrite my ShopSample.isUUID36 (Some e) (Resolve ShopSample.orders) None 0 "orders"))
    (ShopSample.argsOf (CompileWhereForWrite my ShopSample.isUUID36 (Some e) (Resolve ShopSample.orders) None 0 "orders")) _).
  vm_compute. reflexivity.
Defined.

(** The alias of a subquery fits its length budget, is a safe identifier when
    its table is, and two subqueries at different depths never share one, whatever
    their tables: an inner scope cannot capture a reference to an enclosing scope. *)
Theorem subquery_aliases_do_not_capture t1 d1 t2 d2 :
  SafeIdentifier t1 = true -> (Z.of_nat d1 <= int64_max)%Z -> (Z.of_nat d2 <= int64_max)%Z -> d1 <> d2 ->
  SafeIdentifier (subAlias t1 d1) = true /\ (String.length (subAlias t1 d1) <= subAliasBudget)%nat /\
  subAlias t1 d1 <> subAlias t2 d2.
Proof.
  intros Hs H1 H2 Hne. split_and!; [by apply subAlias_safe|apply subAlias_length|].
  intros H. by apply Hne, (subAlias_depth t1 d1 t2 d2).
Qed.

Lemma subquery_aliases_do_not_capture_witness :
  SafeIdentifier (subAlias "orders" 1) = true /\ (String.length (subAlias "orders" 1) <= subAliasBudget)%nat /\
  subAlias "orders" 1 <> subAlias "a_table_whose_name_is_much_too_long_for_the_alias_budget" 2.
Proof. by apply subquery_aliases_do_not_capture. Defined.

(** A probe with an empty string on an identity field, which the code's comment
    calls a request for SQL NULL, is bound as an empty text on both engines, in a
    plain equality. *)
Theorem empty_id_probe_binds_empty_text :
  CompileWhere pgDialect ShopSample.isUUID36 (Some (Build.Eq "CustomerID" (VString ""))) (Resolve ShopSample.orders)
    (Some (IDKindOf ShopSample.orders)) =
    Ret ([TIdent "customer_id"; TKw " "; TKw "="; TKw " "; TPlace 1], [AText ""]) /\
  CompileWhere (mysqlDialect ShopSample.isUUID36 (fun raw => raw)) ShopSample.isUUID36
    (Some (Build.Eq "CustomerID" (VString ""))) (Resolve ShopSample.orders) (Some (IDKindOf ShopSample.orders)) =
    Ret ([TIdent "`customer_id`"; TKw " "; TKw "="; TKw " "; TPlace 1], [AText ""]).
Proof. split; vm_compute; reflexivity. Qed.

(** ** Literal patterns *)

(** What the engines document of LIKE and ILIKE with the default escape: [%]
    matches any run, a backslash makes the next rune literal, a rune that is not
    special matches itself up to the comparison [same] of the operator. *)
Class LikeLaws (same : ascii -> ascii -> bool) (like : string -> string -> bool) := {
  ll_end s : like "" s = true <-> s = "";
  ll_any p s : like (String "%" p) s = true <-> exists a b, s = a +:+ b /\ like p b = true;
  ll_escaped c p s : like (String "\" (String c p)) s = true <-> exists x r, s = String x r /\ same c x = true /\ like p r = true;
  ll_literal c p s : c <> "%"%char -> c <> "_"%char -> c <> "\"%char ->
    like (String c p) s = true <-> exists x r, s = String x r /\ same c x = true /\ like p r = true
}.

(** Rune by rune equal under [same]. *)
Fixpoint sameRunes (same : ascii -> ascii -> bool) (a b : string) : bool :=
  match a, b with
  | EmptyString, EmptyString => true
  | String c a, String x b => same c x && sameRunes same a b
  | _, _ => false
  end.

Section Like.
Context (same : ascii -> ascii -> bool) (like : string -> string -> bool) `{!LikeLaws same like}.

(** An escaped text matches itself and nothing else. *)
Lemma EscapeLike_literal t p s :
  like (Build.EscapeLike t +:+ p) s = true <-> exists m r, s = m +:+ r /\ sameRunes same t m = true /\ like p r = true.
Proof.
  revert s. induction t as [|c t IH]; intros s; cbn [Build.EscapeLike].
  { rewrite string_app_nil_l. split; [by exists "", s|]. intros (m & r & -> & Hm & Hr). by destruct m. }
  assert (Hstep : (exists x r, s = String x r /\ same c x = true /\ like (Build.EscapeLike t +:+ p) r = true) <->
                  (exists m r, s = m +:+ r /\ sameRunes same (String c t) m = true /\ like p r = true)).
  { split.
    - intros (x & r & -> & Hx & (m & r' & -> & Hm & Hr)%IH). exists (String x m), r'. simpl. by rewrite Hx.
    - intros (m & r & -> & Hm & Hr). destruct m as [|x m]; [done|]. simpl in Hm. apply andb_true_iff in Hm as [Hx Hm].
      exists x, (m +:+ r). split_and!; [done|done|]. apply IH. eauto. }
  rewrite <- Hstep.
  destruct (Ascii.eqb c "\" || Ascii.eqb c "%" || Ascii.eqb c "_")%char eqn:E.
  - rewrite !string_app_cons. apply ll_escaped.
  - apply orb_false_iff in E as [[E1 E2]%orb_false_iff E3]. rewrite string_app_cons.
    apply ll_literal; by apply Ascii.eqb_neq.
Qed.

Lemma like_percent s : like "%" s = true.
Proof. apply ll_any. exists s, "". split; [by rewrite string_app_nil_r|by apply ll_end]. Qed.

(** [Contains], [StartsWith] and [EndsWith] are literal searches: whatever
    metacharacters the searched text holds, the bound pattern matches exactly the
    values that contain it (start with it, end with it) up to the comparison of
    runes. *)
Theorem text_search_is_literal f t :
  exists pc ps pe,
    Build.Contains f t = Comparison f OpILike [VString pc] /\
    Build.StartsWith f t = Comparison f OpILike [VString ps] /\
    Build.EndsWith f t = Comparison f OpILike [VString pe] /\
    forall s,
      (like pc s = true <-> exists a m b, s = a +:+ m +:+ b /\ sameRunes same t m = true) /\
      (like ps s = true <-> exists m b, s = m +:+ b /\ sameRunes same t m = true) /\
      (like pe s = true <-> exists a m, s = a +:+ m /\ sameRunes same t m = true).
Proof.
  exists ("%" +:+ Build.EscapeLike t +:+ "%"), (Build.EscapeLike t +:+ "%"), ("%" +:+ Build.EscapeLike t).
  split_and!; [done..|]. intros s.
  assert (Hstart : forall s, like (Build.EscapeLike t +:+ "%") s = true <-> exists m b, s = m +:+ b /\ sameRunes same t m = true).
  { intros s'. rewrite EscapeLike_literal. split; [naive_solver|]. intros (m & b & -> & Hm). exists m, b.
    split_and!; [done|done|apply like_percent]. }
  assert (Hend : forall s, like (Build.EscapeLike t) s = true <-> sameRunes same t s = true).
  { intros s'. rewrite <- (string_app_nil_r (Build.EscapeLike t)), EscapeLike_literal. split.
    - intros (m & r & -> & Hm & ->%ll_end). by rewrite string_app_nil_r.
    - intros Hs. exists s', "". split_and!; [by rewrite string_app_nil_r|done|by apply ll_end]. }
  split_and!; [|apply Hstart|].
  - change ("%" +:+ Build.EscapeLike t +:+ "%") with (String "%" (Build.EscapeLike t +:+ "%")). rewrite ll_any. split.
    + intros (a & b & -> & (m & b' & -> & Hm)%Hstart). by exists a, m, b'.
    + intros (a & m & b & -> & Hm). exists a, (m +:+ b). split; [done|]. apply Hstart. eauto.
  - change ("%" +:+ Build.EscapeLike t) with (String "%" (Build.EscapeLike t)). rewrite ll_any. split.
    + intros (a & b & -> & Hm%Hend). eauto.
    + intros (a & m & -> & Hm). exists a, m. split; [done|]. by apply Hend.
Qed.

End Like.

(** A matcher that satisfies the laws. *)
Fixpoint likeMatch (p : string) : string -> bool :=
  match p with
  | EmptyString => fun s => match s with EmptyString => true | _ => false end
  | String c rest =>
      let one (m : string -> bool) (ok : ascii -> bool) s := match s with EmptyString => false | String x r => ok x && m r end in
      if Ascii.eqb c "%" then
        fix any s := likeMatch rest s || match s with EmptyString => false | String _ r => any r end
      else if Ascii.eqb c "_" then one (likeMatch rest) (fun _ => true)
      else if Ascii.eqb c "\" then
        match rest with
        | EmptyString => fun _ => false
        | String q rest' => one (likeMatch rest') (Ascii.eqb q)
        end
      else one (likeMatch rest) (Ascii.eqb c)
  end%bool.

Lemma likeMatch_any p s : likeMatch (String "%" p) s = true <-> exists a b, s = a +:+ b /\ likeMatch p b = true.
Proof.
  induction s as [|c s IH].
  - change (likeMatch p "" || false = true <-> exists a b, "" = a +:+ b /\ likeMatch p b = true). rewrite orb_false_r. split.
    + intros H. by exists "", "".
    + intros (a & b & H & Hb). by destruct a, b.
  - change (likeMatch p (String c s) || likeMatch (String "%" p) s = true <-> exists a b, String c s = a +:+ b /\ likeMatch p b = true).
    rewrite orb_true_iff, IH. split.
    + intros [H|(a & b & -> & Hb)]; [by exists "", (String c s)|by exists (String c a), b].
    + intros ([|x a] & b & H & Hb); [left; rewrite string_app_nil_l in H; by subst|].
      rewrite string_app_cons in H. injection H as -> ->. right. eauto.
Qed.

Lemma one_rune (m : string -> bool) (ok : ascii -> bool) s :
  (match s with EmptyString => false | String x r => ok x && m r end)%bool = true <->
  exists x r, s = String x r /\ ok x = true /\ m r = true.
Proof. destruct s as [|x r]; [naive_solver|]. rewrite andb_true_iff. naive_solver. Qed.

#[export] Instance likeMatch_laws : LikeLaws Ascii.eqb likeMatch.
Proof.
  split.
  - intros [|c s]; done.
  - apply likeMatch_any.
  - intros c p s. apply (one_rune (likeMatch p) (Ascii.eqb c)).
  - intros c p s H1 H2 H3. cbn [likeMatch].
    apply Ascii.eqb_neq in H1, H2, H3. rewrite H1, H2, H3. apply one_rune.
Qed.

Lemma text_search_is_literal_witness :
  exists p, Build.Contains "Name" "50%" = Comparison "Name" OpILike [VString p] /\
    likeMatch p "a 50% discount" = true /\ likeMatch p "a 500 discount" = false.
Proof.
  destruct (text_search_is_literal Ascii.eqb likeMatch "Name" "50%") as (pc & ps & pe & H & _ & _ & Hs).
  exists pc. split; [exact H|]. split; [apply Hs; by exists "a ", "50%", " discount"|]. injection H as <-. vm_compute. reflexivity.
Defined.

(** ** Upserts *)

Lemma places_identList quote cols ts : identList quote cols = Some ts -> places ts = [].
Proof.
  revert ts. induction cols as [|c cols IH]; intros ts; simpl; [by intros [= <-]|].
  destruct (quote c); [|done]. simpl. destruct (identList quote cols) as [r|]; [|done]. intros [= <-].
  specialize (IH r eq_refl). by destruct cols.
Qed.

Lemma places_placeList n cols : places (placeList n cols) = seq n (length cols).
Proof. revert n. induction cols as [|c [|c' cols] IH]; intros n; [done|done|]. simpl. f_equal. apply (IH (S n)). Qed.

Lemma places_insertHead quote table cols ts : insertHead quote table cols = Some ts -> places ts = seq 1 (length cols).
Proof.
  unfold insertHead. destruct (quote table); [|done]. simpl. destruct (identList quote cols) as [cs|] eqn:E; [|done]. intros [= <-].
  apply places_identList in E.
  change (places (cs ++ [TClose; TKw " VALUES "; TOpen] ++ placeList 1 cols ++ [TClose]) = seq 1 (length cols)).
  by rewrite !places_app, E, places_placeList, app_nil_r.
Qed.

(** The assignments that bind a value of their own. *)
Definition setArgs (sets : list UpsertSet) : nat := length (filter (fun s => us_Mode s = UpsertSetArg) sets).

Lemma places_setList quote proposed table n sets ts :
  setList quote proposed table n sets = Some ts -> places ts = seq (S n) (setArgs sets).
Proof.
  revert n ts. induction sets as [|s sets IH]; intros n ts; simpl; [by intros [= <-]|].
  destruct (quote (us_Col s)) as [c|]; [|done]. simpl.
  destruct (match us_Mode s with UpsertSetNew => _ | _ => _ end) as [rhs|] eqn:Er; [|done]. simpl.
  destruct (setList quote proposed table _ sets) as [r|] eqn:E; [|done]. intros [= <-]. apply IH in E.
  assert (Hsep : places (match sets with [] => [] | _ => [TKw ", "] end) = []) by by destruct sets.
  change (places (rhs ++ match sets with [] => [] | _ => [TKw ", "] end ++ r) = seq (S n) (setArgs (s :: sets))).
  rewrite !places_app, Hsep, E. unfold setArgs. rewrite filter_cons.
  destruct (us_Mode s) eqn:Em; simpl in Er.
  - injection Er as <-. done.
  - injection Er as <-. done.
  - destruct (quote table); [|done]. injection Er as <-. done.
  - injection Er as <-. done.
Qed.

(** An upsert of either engine binds one value per inserted column and then
    one per assignment that carries its own argument: its placeholders are
    exactly [1 .. columns + own arguments], in order. *)
Theorem upsert_placeholders table cols keys sets ts :
  pgBuildUpsert table cols keys sets = Some ts \/ mysqlBuildUpsert table cols keys sets = Some ts ->
  places ts = seq 1 (length cols + setArgs sets).
Proof.
  rewrite seq_app. change (1 + length cols)%nat with (S (length cols)). intros [H|H].
  - apply bind_Some in H as (h & Eh%places_insertHead & H). apply bind_Some in H as (k & Ek%places_identList & H).
    assert (Hb : places (h ++ TKw " ON CONFLICT " :: TOpen :: k ++ [TClose]) = seq 1 (length cols)).
    { rewrite places_app, Eh. change (seq 1 (length cols) ++ places (k ++ [TClose]) = seq 1 (length cols)).
      by rewrite places_app, Ek, app_nil_r. }
    destruct sets as [|s sets]; [injection H as <-; by rewrite places_app, Hb|].
    apply bind_Some in H as (ss & Es%places_setList & H). injection H as <-. rewrite places_app, Hb. by rewrite <- Es.
  - apply bind_Some in H as (h & Eh%places_insertHead & H).
    assert (Hb : places (h ++ [TKw " AS new ON DUPLICATE KEY UPDATE "]) = seq 1 (length cols)).
    { by rewrite places_app, Eh, app_nil_r. }
    destruct sets as [|s sets].
    + apply bind_Some in H as (c & _ & H). apply bind_Some in H as (q & _ & H). injection H as <-. by rewrite places_app, Hb.
    + apply bind_Some in H as (ss & Es%places_setList & H). injection H as <-. by rewrite places_app, Hb, <- Es.
Qed.

Lemma upsert_placeholders_witness :
  exists ts, pgBuildUpsert "orders" ["id"; "status"; "version"] ["id"]
      [mkUpsertSet "status" UpsertSetNew ""; mkUpsertSet "version" UpsertSetBump ""; mkUpsertSet "seen" UpsertSetArg ""] = Some ts /\
    sqlText pgDialect ts = "INSERT INTO orders (id, status, version) VALUES ($1, $2, $3) ON CONFLICT (id) DO UPDATE SET status = EXCLUDED.status, version = orders.version + 1, seen = $4" /\
    places ts = [1; 2; 3; 4].
Proof.
  eexists. split; [vm_compute; reflexivity|]. split; [vm_compute; reflexivity|].
  by apply (upsert_placeholders "orders" ["id"; "status"; "version"] ["id"]
    [mkUpsertSet "status" UpsertSetNew ""; mkUpsertSet "version" UpsertSetBump ""; mkUpsertSet "seen" UpsertSetArg ""]);
    left; vm_compute.
Defined.
