(* ===== verification/Translation.v ===== *)
(** * The translator

    [application/translation/translator.go]: catalog lookup and the interpolation
    of [{name}] placeholders.  Logging of misses is the list of missed names
    [interpolateMessage] hands to its callback; the warn-once log lines are not
    modelled. *)

From S2P Require Import Prelude Naming.
From stdpp Require Import base gmap strings list fin_maps.
From Stdlib Require Import Ascii ZArith Lia.

Open Scope string_scope.
Open Scope list_scope.

(** ** Catalogs *)

(** [configuration.Language], an int. *)
Abbreviation Language := Z.

Definition LangENG : Language := 2%Z.

Abbreviation Translator := (gmap Z (gmap string string)).

Definition newTranslator : Translator := ∅.

(** [Import] of one module: its language and its entries. *)
Definition importModule (t : Translator) (m : Language * gmap string string) : Translator :=
  <[m.1 := m.2 ∪ default ∅ (t !! m.1)]> t.

Definition Import (modules : list (Language * gmap string string)) (t : Translator) : Translator :=
  foldl importModule t modules.

(** [None] is the [NotFoundError]. *)
Definition Get (t : Translator) (lang : Language) (key : string) : option string :=
  m ← t !! lang; m !! key.

Definition GetOr (t : Translator) (lang : Language) (key fallback : string) : string :=
  default fallback (Get t lang key).

Definition Has (t : Translator) (lang : Language) (key : string) : bool :=
  match t !! lang with
  | Some m => bool_decide (is_Some (m !! key))
  | None => false
  end.

(** ** Interpolation *)

Definition openBrace : ascii := "{".
Definition closeBrace : ascii := "}".

Definition isPlaceholderHead (b : ascii) : bool :=
  let n := nat_of_ascii b in
  ((65 <=? n) && (n <=? 90) || (97 <=? n) && (n <=? 122) || (n =? 95))%nat%bool.

Definition isPlaceholderTail (b : ascii) : bool :=
  let n := nat_of_ascii b in
  (isPlaceholderHead b || (48 <=? n) && (n <=? 57))%nat%bool.

(** The loop over [k]: the longest run of tail bytes, and what follows. *)
Fixpoint spanTail (s : string) : string * string :=
  match s with
  | EmptyString => ("", "")
  | String c rest =>
      if isPlaceholderTail c then let r := spanTail rest in (String c r.1, r.2) else ("", s)
  end.

(** The placeholder name that starts at the byte after an opening brace, when the
    text there is one. *)
Definition placeholderAt (s : string) : option string :=
  match s with
  | EmptyString => None
  | String c rest =>
      if isPlaceholderHead c then
        let r := spanTail rest in
        match r.2 with
        | String d _ => if Ascii.eqb d closeBrace then Some (String c r.1) else None
        | EmptyString => None
        end
      else None
  end.

(** The scan; [skip] bytes are still inside the placeholder just replaced
    ([i = k + 1] of the source).  The second component lists the names passed to
    the [missing] callback. *)
Fixpoint interpolateFrom (vars : gmap string string) (skip : nat) (s : string) : string * list string :=
  match s with
  | EmptyString => ("", [])
  | String c rest =>
      match skip with
      | S skip => interpolateFrom vars skip rest
      | O =>
          if negb (Ascii.eqb c openBrace) then
            let r := interpolateFrom vars 0 rest in (String c r.1, r.2)
          else
            match placeholderAt rest with
            | None => let r := interpolateFrom vars 0 rest in (String c r.1, r.2)
            | Some name =>
                let r := interpolateFrom vars (S (String.length name)) rest in
                match vars !! name with
                | Some v => (v +:+ r.1, r.2)
                | None => (String c (name +:+ String closeBrace r.1), name :: r.2)
                end
            end
      end
  end.

Definition interpolateMessage (s : string) (vars : gmap string string) : string * list string := interpolateFrom vars 0 s.

Fixpoint hasBrace (s : string) : bool :=
  match s with
  | EmptyString => false
  | String c rest => Ascii.eqb c openBrace || hasBrace rest
  end.

Definition Interpolate (s : string) (vars : gmap string string) : string :=
  if decide (vars = ∅) then s else if negb (hasBrace s) then s else (interpolateMessage s vars).1.

Definition Render (t : Translator) (lang : Language) (key : string) (vars : gmap string string) : string :=
  let msg := default key (Get t lang key) in
  if decide (vars = ∅) then msg else if negb (hasBrace msg) then msg else (interpolateMessage msg vars).1.

(** ** Lemmas *)

Lemma Import_one t m lang key :
  Get (importModule t m) lang key =
  if decide (lang = m.1) then match m.2 !! key with Some v => Some v | None => Get t lang key end else Get t lang key.
Proof.
  unfold Get, importModule. destruct (decide (lang = m.1)) as [->|Hne].
  - rewrite lookup_insert_eq. simpl. rewrite lookup_union. destruct (t !! m.1) as [e|]; simpl.
    + destruct (m.2 !! key), (e !! key); done.
    + rewrite lookup_empty. by destruct (m.2 !! key).
  - by rewrite lookup_insert_ne by done.
Qed.

(** A template piece: literal text without an opening brace, or a placeholder. *)
Inductive Piece := Lit (text : string) | Hole (name : string).

Fixpoint allBytes (p : ascii -> bool) (s : string) : bool :=
  match s with EmptyString => true | String c rest => p c && allBytes p rest end.

Definition validName (name : string) : bool :=
  match name with
  | EmptyString => false
  | String c rest => isPlaceholderHead c && allBytes isPlaceholderTail rest
  end.

Definition pieceOk (p : Piece) : bool :=
  match p with Lit t => negb (hasBrace t) | Hole n => validName n end.

Definition holeText (name : string) : string := String openBrace (name +:+ String closeBrace "").

(** The template as written in a catalog. *)
Fixpoint printTemplate (ps : list Piece) : string :=
  match ps with
  | [] => ""
  | Lit t :: rest => t +:+ printTemplate rest
  | Hole n :: rest => holeText n +:+ printTemplate rest
  end.

(** The reference meaning: each piece on its own, values never read again. *)
Fixpoint fillTemplate (vars : gmap string string) (ps : list Piece) : string :=
  match ps with
  | [] => ""
  | Lit t :: rest => t +:+ fillTemplate vars rest
  | Hole n :: rest => default (holeText n) (vars !! n) +:+ fillTemplate vars rest
  end.

Definition missingHoles (vars : gmap string string) (ps : list Piece) : list string :=
  omap (fun p => match p with Hole n => if decide (vars !! n = None) then Some n else None | Lit _ => None end) ps.

Lemma spanTail_close name rest :
  allBytes isPlaceholderTail name = true -> spanTail (name +:+ String closeBrace rest) = (name, String closeBrace rest).
Proof.
  induction name as [|c name IH]; [done|]. rewrite string_app_cons. simpl. intros [Hc Hn]%andb_true_iff.
  by rewrite Hc, IH.
Qed.

Lemma placeholderAt_name name rest : validName name = true -> placeholderAt (name +:+ String closeBrace rest) = Some name.
Proof.
  destruct name as [|c name]; [done|]. rewrite string_app_cons. simpl. intros [Hc Hn]%andb_true_iff.
  rewrite Hc, spanTail_close by done. done.
Qed.

Lemma interpolate_skip vars a rest : interpolateFrom vars (String.length a) (a +:+ rest) = interpolateFrom vars 0 rest.
Proof. induction a as [|c a IH]; [done|]. rewrite string_app_cons. simpl. apply IH. Qed.

Lemma interpolate_lit vars t rest :
  hasBrace t = false ->
  interpolateFrom vars 0 (t +:+ rest) = (t +:+ (interpolateFrom vars 0 rest).1, (interpolateFrom vars 0 rest).2).
Proof.
  induction t as [|c t IH]; intros H.
  - rewrite !string_app_nil_l. by destruct (interpolateFrom vars 0 rest).
  - simpl in H. apply orb_false_iff in H as [Hc Ht]. rewrite string_app_cons. simpl. rewrite Hc, (IH Ht). simpl.
    by rewrite string_app_cons.
Qed.

Lemma interpolate_hole vars n rest :
  validName n = true ->
  interpolateFrom vars 0 (holeText n +:+ rest) =
  (default (holeText n) (vars !! n) +:+ (interpolateFrom vars 0 rest).1,
   (if decide (vars !! n = None) then [n] else []) ++ (interpolateFrom vars 0 rest).2).
Proof.
  intros Hn. unfold holeText.
  assert (E : (n +:+ String closeBrace "") +:+ rest = n +:+ String closeBrace rest) by by rewrite string_app_assoc.
  rewrite string_app_cons, E. simpl.
  rewrite (placeholderAt_name _ _ Hn).
  assert (Hskip : interpolateFrom vars (S (String.length n)) (n +:+ String closeBrace rest) = interpolateFrom vars 0 rest).
  { replace (S (String.length n)) with (String.length (n +:+ String closeBrace "")).
    - rewrite <- E. apply interpolate_skip.
    - clear. induction n as [|c n IH]; [done|]. rewrite string_app_cons. simpl. by rewrite IH. }
  rewrite Hskip. destruct (vars !! n) as [v|]; simpl; [done|].
  by rewrite string_app_cons, string_app_assoc.
Qed.

Lemma interpolate_template vars ps :
  forallb pieceOk ps = true ->
  interpolateMessage (printTemplate ps) vars = (fillTemplate vars ps, missingHoles vars ps).
Proof.
  unfold interpolateMessage. induction ps as [|p ps IH]; [done|]. simpl. intros [Hp Hps]%andb_true_iff. specialize (IH Hps).
  destruct p as [t|n]; simpl in Hp.
  - apply negb_true_iff in Hp. rewrite interpolate_lit, IH by done. done.
  - rewrite interpolate_hole, IH by done. simpl. by destruct (decide (vars !! n = None)).
Qed.

(** The fast paths of [Interpolate] and [Render] agree with the scan. *)
Lemma interpolate_nobrace s vars : hasBrace s = false -> (interpolateMessage s vars).1 = s.
Proof.
  intros H. pose proof (interpolate_lit vars s "" H) as E. rewrite string_app_nil_r in E.
  unfold interpolateMessage. rewrite E. simpl. apply string_app_nil_r.
Qed.

Lemma placeholderAt_prefix s n : placeholderAt s = Some n -> exists rest, s = n +:+ String closeBrace rest.
Proof.
  destruct s as [|c s]; [done|]. simpl. destruct (isPlaceholderHead c); [|done].
  assert (Hspan : forall s, s = (spanTail s).1 +:+ (spanTail s).2).
  { clear. induction s as [|c s IH]; [done|]. simpl. destruct (isPlaceholderTail c); [|done].
    simpl. rewrite string_app_cons. by rewrite <- IH. }
  destruct (spanTail s).2 as [|d r] eqn:E; [done|].
  destruct (Ascii.eqb_spec d closeBrace) as [->|]; [|done]. intros [= <-]. exists r. rewrite string_app_cons. f_equal.
  by rewrite (Hspan s) at 1; rewrite E.
Qed.

Lemma interpolate_novars s : (interpolateMessage s ∅).1 = s.
Proof.
  unfold interpolateMessage.
  assert (H : forall k s, (String.length s <= k)%nat -> (interpolateFrom ∅ 0 s).1 = s).
  { clear s. induction k as [|k IH]; intros s Hk; [by destruct s; [|simpl in Hk; lia]|].
    destruct s as [|c s]; [done|]. simpl in Hk.
    destruct (placeholderAt s) as [n|] eqn:E.
    - destruct (Ascii.eqb_spec c openBrace) as [->|Hc].
      + destruct (placeholderAt_prefix _ _ E) as [rest ->]. simpl. rewrite E, lookup_empty. simpl.
        assert (Hskip : interpolateFrom ∅ (S (String.length n)) (n +:+ String closeBrace rest) = interpolateFrom ∅ 0 rest).
        { clear. induction n as [|c n IHn]; [done|]. rewrite string_app_cons. apply IHn. }
        rewrite Hskip, IH; [done|].
        assert (HL : (String.length rest <= String.length (n +:+ String closeBrace rest))%nat).
        { clear. induction n as [|c n IHn]; [simpl; lia|]. rewrite string_app_cons. simpl. lia. }
        lia.
      + simpl. rewrite (proj2 (Ascii.eqb_neq _ _) Hc). simpl. f_equal. apply IH. lia.
    - simpl. rewrite E. destruct (negb _); simpl; (f_equal; apply IH; lia). }
  by eapply H.
Qed.
