(* ===== verification/Pipeline.v ===== *)
(** * The pipeline and its two transports

    [application/pipeline/pipeline.go] and [result.go], the conversion of
    notification contexts to DTOs ([application/notifications/convert.go]), the
    HTTP envelope ([web/from_result.go], [web/from_notifications.go],
    [web/response.go]) and the gRPC one ([web/grpc/semantic.go]).

    Spans and log lines are not modelled.  [varsOf] is the reflection walk of
    [domain.ExtractVarsFromTags] over a notification's fields. *)

From S2P Require Import Prelude Naming FieldMeta Notification Errors Translation.
From stdpp Require Import base gmap strings list fin_maps.
From Stdlib Require Import Ascii ZArith Lia.

Open Scope string_scope.
Open Scope list_scope.

(** ** DTOs ([application/notifications/dto.go]) *)

Record MessageDTO := mkMessageDTO {
  md_NotificationKey : string;
  md_FieldName : string;
  md_FieldLabel : string;
  md_FieldValue : string;
  md_FuncName : string;
  md_Message : string;
  md_Semantic : NotificationSemantic
}.

Record ContextDTO := mkContextDTO { cd_Context : string; cd_Messages : list MessageDTO }.

Section Convert.
Context (varsOf : Notification -> gmap string string).

(** [MessageVars]: the call site wins on a key both define. *)
Definition MessageVars (m : NotificationMessage) : gmap string string := m_Vars m ∪ varsOf (m_Notification m).

Definition toMessageDTO (t : Translator) (lang : Language) (m : NotificationMessage) : MessageDTO :=
  let key := NotificationKey (m_Notification m) in
  mkMessageDTO key (ResolveFieldName m)
    (if String.eqb (m_LabelKey m) "" then "" else Render t lang (m_LabelKey m) ∅)
    (m_FieldValue m) (m_FuncName m) (Render t lang key (MessageVars m)) (Semantic (m_Notification m)).

(** A nil context is skipped. *)
Definition ToContextDTOs (t : Translator) (lang : Language) (contexts : list (option NotificationContext)) : list ContextDTO :=
  omap (fun o => ctx ← o;
        Some (mkContextDTO (Render t lang (nc_context ctx) (default ∅ (ContextVars ctx)))
                (toMessageDTO t lang <$> Messages ctx))) contexts.

(** ** Results ([application/pipeline/result.go]) *)

(** The three states with what each carries; [PanicRecovered] is the error built
    from a recovered panic value. *)
Inductive ExceptionCause := FromError (e : GoErr) | PanicRecovered (value : string).

Inductive Result (T : Type) :=
| Success (v : T)
| Failure (notifications : list ContextDTO)
| Exception (err : ExceptionCause).

Arguments Success {T}.
Arguments Failure {T}.
Arguments Exception {T}.

Definition IsSuccess {T} (r : Result T) : bool := match r with Success _ => true | _ => false end.
Definition IsFailure {T} (r : Result T) : bool := match r with Failure _ => true | _ => false end.
Definition IsException {T} (r : Result T) : bool := match r with Exception _ => true | _ => false end.

Definition ValueOr {T} (r : Result T) (fallback : T) : T := match r with Success v => v | _ => fallback end.

Definition FirstSuccess {T} (results : list (Result T)) : option (Result T) := List.find IsSuccess results.

(** ** Run *)

Definition RequestTimeoutNotification : Notification := NOther "RequestTimeoutNotification" SemanticGatewayTimeout.
Definition ContextNotInitializedNotification : Notification := NOther "ContextNotInitializedNotification" SemanticValidation.

(** A message the framework raises itself: an override, a function name. *)
Definition frameworkMessage (field func : string) (n : Notification) : NotificationMessage :=
  setFuncName func (setOverride field (message [] n)).

Definition requestTimedOut {T} (t : Translator) (lang : Language) : Result T :=
  let nctx := AddNotificationMessage CRoot (frameworkMessage "request" "" RequestTimeoutNotification)
                (NewNotificationContext "Request") in
  Failure (ToContextDTOs t lang [Some nctx]).

Definition contextNotInitialized {T} (t : Translator) : Result T :=
  let nctx := AddNotificationMessage CRoot (frameworkMessage "context" "Run" ContextNotInitializedNotification)
                (NewNotificationContext "Pipeline") in
  Failure (ToContextDTOs t LangENG [Some nctx]).

(** [Run]; [ctx] is the language of the request's context, [None] a nil context.
    [fn] is only run under a context; its panic is recovered. *)
Definition Run {T} (t : Translator) (ctx : option Language) (fn : unit -> Outcome GoErr T) : Result T :=
  match ctx with
  | None => contextNotInitialized t
  | Some lang =>
      match fn tt with
      | Panic r => Exception (PanicRecovered r)
      | Ret v => Success v
      | Fail err =>
          if isDeadline err then requestTimedOut t lang
          else
            match asCarrier err with
            | Some contexts => Failure (ToContextDTOs t lang contexts)
            | None => Exception (FromError err)
            end
      end
  end.

(** [Dispatch] runs a handler on a request; [DispatchAll] runs each in turn. *)
Definition Dispatch {Req T} (t : Translator) (ctx : option Language) (req : Req)
  (h : option Language -> Req -> Outcome GoErr T) : Result T :=
  Run t ctx (fun _ => h ctx req).

Definition DispatchAll {Req T} (t : Translator) (ctx : option Language) (req : Req)
  (handlers : list (option Language -> Req -> Outcome GoErr T)) : list (Result T) :=
  Dispatch t ctx req <$> handlers.

End Convert.

Arguments Success {T}.
Arguments Failure {T}.
Arguments Exception {T}.

(** ** HTTP *)

Definition semanticToStatus : list (NotificationSemantic * Z) := [
  (SemanticValidation, 422%Z);
  (SemanticNotFound, 404%Z);
  (SemanticConflict, 409%Z);
  (SemanticForbidden, 403%Z);
  (SemanticUnauthorized, 401%Z);
  (SemanticUnavailable, 503%Z);
  (SemanticSchema, 400%Z);
  (SemanticInternal, 500%Z);
  (SemanticMethodNotAllowed, 405%Z);
  (SemanticPayloadTooLarge, 413%Z);
  (SemanticGatewayTimeout, 504%Z);
  (SemanticStateConflict, 409%Z);
  (SemanticRequestTimeout, 408%Z);
  (SemanticGone, 410%Z);
  (SemanticPreconditionFailed, 412%Z);
  (SemanticUnsupportedMediaType, 415%Z);
  (SemanticTooManyRequests, 429%Z);
  (SemanticNotImplemented, 501%Z);
  (SemanticBadGateway, 502%Z);
  (SemanticPaymentRequired, 402%Z);
  (SemanticNotAcceptable, 406%Z);
  (SemanticRangeNotSatisfiable, 416%Z);
  (SemanticLocked, 423%Z);
  (SemanticPreconditionRequired, 428%Z);
  (SemanticUnavailableForLegalReasons, 451%Z);
  (SemanticInsufficientStorage, 507%Z);
  (SemanticRequestHeaderFieldsTooLarge, 431%Z)].

(** A Go map read: the entry of the key, when there is one. *)
Fixpoint tableGet {K V} `{EqDecision K} (k : K) (l : list (K * V)) : option V :=
  match l with
  | [] => None
  | (k', v) :: rest => if decide (k = k') then Some v else tableGet k rest
  end.

(** The nested loops of [statusFromNotifications] and [codeFromNotifications]
    over a table. *)
Fixpoint firstInMessages {V} (table : list (NotificationSemantic * V)) (ms : list MessageDTO) : option V :=
  match ms with
  | [] => None
  | m :: rest =>
      if decide (md_Semantic m = SemanticValidation) then firstInMessages table rest
      else match tableGet (md_Semantic m) table with Some v => Some v | None => firstInMessages table rest end
  end.

Fixpoint firstInContexts {V} (table : list (NotificationSemantic * V)) (dtos : list ContextDTO) : option V :=
  match dtos with
  | [] => None
  | c :: rest =>
      match firstInMessages table (cd_Messages c) with Some v => Some v | None => firstInContexts table rest end
  end.

Definition statusFromNotifications (dtos : list ContextDTO) : Z := default 422%Z (firstInContexts semanticToStatus dtos).

Record ErrorMessage := mkErrorMessage {
  em_NotificationKey : string;
  em_Field : string;
  em_FieldLabel : string;
  em_Value : string;
  em_FuncName : string;
  em_Message : string;
  em_Semantic : string
}.

Record ErrorDTO := mkErrorDTO { ed_Context : string; ed_Messages : list ErrorMessage }.

Record Response (T : Type) := mkResponse {
  r_Success : bool; r_Status : Z; r_Description : string; r_Data : option T; r_Errors : list ErrorDTO
}.

Arguments mkResponse {T}.
Arguments r_Success {T}.
Arguments r_Status {T}.
Arguments r_Description {T}.
Arguments r_Data {T}.
Arguments r_Errors {T}.

Definition toErrorMessage (m : MessageDTO) : ErrorMessage :=
  mkErrorMessage (md_NotificationKey m) (md_FieldName m) (md_FieldLabel m) (md_FieldValue m) (md_FuncName m)
    (md_Message m) (semanticString (md_Semantic m)).

Section Http.
(** [net/http.StatusText]. *)
Context (StatusText : Z -> string).

Definition ResponseFromContextDTOs {T} (dtos : list ContextDTO) (status : Z) (description : string) : Response T :=
  mkResponse false status (if String.eqb description "" then StatusText status else description) None
    ((fun dto => mkErrorDTO (cd_Context dto) (toErrorMessage <$> cd_Messages dto)) <$> dtos).

(** [ResponseFromContexts], the rendering without a translator. *)
Definition ResponseFromContexts {T} (contexts : list (option NotificationContext)) (status : Z) (description : string) : Response T :=
  mkResponse false status (if String.eqb description "" then StatusText status else description) None
    (omap (fun o => ctx ← o;
       Some (mkErrorDTO (nc_context ctx)
         ((fun m => let key := NotificationKey (m_Notification m) in
            mkErrorMessage key (ResolveFieldName m) (m_LabelKey m) (m_FieldValue m) (m_FuncName m) key
              (semanticString (Semantic (m_Notification m)))) <$> Messages ctx))) contexts).

Definition InternalServerErrorNotification : Notification := NOther "InternalServerErrorNotification" SemanticInternal.

(** [RespondWithInternalServerError]; the translator is the registered one. *)
Definition internalServerError {T} (tr : option Translator) (lang : Language) : Response T :=
  let n := InternalServerErrorNotification in
  let msg := match tr with
             | Some t => GetOr t lang (NotificationKey n) "Internal server error."
             | None => "Internal server error."
             end in
  mkResponse false 500 (StatusText 500) None
    [mkErrorDTO "Server" [mkErrorMessage (NotificationKey n) "" "" "" "" msg (semanticString (Semantic n))]].

(** [RespondFromResult]: the response handed to the server. *)
Definition RespondFromResult {T} (tr : option Translator) (lang : Language) (r : Result T) (successStatus : Z) : Response T :=
  match r with
  | Success v => mkResponse true successStatus (StatusText successStatus) (Some v) []
  | Failure dtos => ResponseFromContextDTOs dtos (statusFromNotifications dtos) ""
  | Exception _ => internalServerError tr lang
  end.

End Http.

(** ** gRPC *)

Inductive Code :=
| CodeInvalidArgument | CodeNotFound | CodeAlreadyExists | CodeFailedPrecondition | CodePermissionDenied
| CodeUnauthenticated | CodeUnavailable | CodeInternal | CodeUnimplemented | CodeResourceExhausted
| CodeDeadlineExceeded | CodeOutOfRange | CodeAborted.

#[export] Instance Code_eq_dec : EqDecision Code.
Proof. solve_decision. Defined.

Definition semanticToCode : list (NotificationSemantic * Code) := [
  (SemanticValidation, CodeInvalidArgument);
  (SemanticSchema, CodeInvalidArgument);
  (SemanticNotFound, CodeNotFound);
  (SemanticConflict, CodeAlreadyExists);
  (SemanticStateConflict, CodeFailedPrecondition);
  (SemanticForbidden, CodePermissionDenied);
  (SemanticUnauthorized, CodeUnauthenticated);
  (SemanticUnavailable, CodeUnavailable);
  (SemanticInternal, CodeInternal);
  (SemanticMethodNotAllowed, CodeUnimplemented);
  (SemanticPayloadTooLarge, CodeResourceExhausted);
  (SemanticGatewayTimeout, CodeDeadlineExceeded);
  (SemanticRequestTimeout, CodeDeadlineExceeded);
  (SemanticGone, CodeNotFound);
  (SemanticPreconditionFailed, CodeFailedPrecondition);
  (SemanticUnsupportedMediaType, CodeInvalidArgument);
  (SemanticTooManyRequests, CodeResourceExhausted);
  (SemanticNotImplemented, CodeUnimplemented);
  (SemanticBadGateway, CodeUnavailable);
  (SemanticPaymentRequired, CodePermissionDenied);
  (SemanticNotAcceptable, CodeInvalidArgument);
  (SemanticRangeNotSatisfiable, CodeOutOfRange);
  (SemanticLocked, CodeAborted);
  (SemanticPreconditionRequired, CodeFailedPrecondition);
  (SemanticUnavailableForLegalReasons, CodePermissionDenied);
  (SemanticInsufficientStorage, CodeResourceExhausted);
  (SemanticRequestHeaderFieldsTooLarge, CodeResourceExhausted)].

Definition codeFromNotifications (dtos : list ContextDTO) : Code :=
  default CodeInvalidArgument (firstInContexts semanticToCode dtos).

(** The google.rpc details of an error. *)
Inductive Detail :=
| ErrorInfo (reason domain : string) (metadata : gmap string string)
| BadRequest (violations : list (string * string)).

Record ConnectError := mkConnectError { ce_Code : Code; ce_Message : string; ce_Details : list Detail }.

Definition errorInfoDomain : string := "omnicore".

(** An optional metadata slot. *)
Definition slot (k v : string) (m : gmap string string) : gmap string string :=
  if String.eqb v "" then m else <[k := v]> m.

Definition messageMetadata (context : string) (m : MessageDTO) : gmap string string :=
  slot "funcName" (md_FuncName m) (slot "value" (md_FieldValue m) (slot "fieldLabel" (md_FieldLabel m)
    (slot "field" (md_FieldName m) (slot "message" (md_Message m)
      {[ "context" := context; "semantic" := semanticString (md_Semantic m) ]})))).

Section Grpc.
(** Whether [connect.NewErrorDetail] can marshal a detail. *)
Context (marshals : Detail -> bool).

Definition addDetail (d : Detail) : list Detail := if marshals d then [d] else [].

Definition infoDetails (dtos : list ContextDTO) : list Detail :=
  concat ((fun ctx => concat ((fun m =>
    if String.eqb (md_NotificationKey m) "" then []
    else addDetail (ErrorInfo (md_NotificationKey m) errorInfoDomain (messageMetadata (cd_Context ctx) m)))
    <$> cd_Messages ctx)) <$> dtos).

Definition fieldViolations (dtos : list ContextDTO) : list (string * string) :=
  concat ((fun ctx => omap (fun m =>
    if String.eqb (md_FieldName m) "" then None else Some (md_FieldName m, md_Message m)) (cd_Messages ctx)) <$> dtos).

Definition ErrorFromNotifications (dtos : list ContextDTO) : ConnectError :=
  let msg := match dtos with
             | c :: _ => match cd_Messages c with m :: _ => md_Message m | [] => "request rejected" end
             | [] => "request rejected"
             end in
  let violations := fieldViolations dtos in
  mkConnectError (codeFromNotifications dtos) msg
    (infoDetails dtos ++ match violations with [] => [] | _ => addDetail (BadRequest violations) end).

End Grpc.

Definition errInternal : ConnectError := mkConnectError CodeInternal "internal server error" [].
