(* ===== verification/Queries.v ===== *)
(** * Queries: projections, criteria and the cursor's context

    [application/queries]: the field selection of a read ([projection.go]), the
    field-level restriction of a criteria ([view_reader.go]), the values a filter
    carries ([filters.go]) and the byte stream a cursor is bound to
    ([cursor.go]). *)

From S2P Require Import Prelude Naming FieldMeta Notification Errors.
From stdpp Require Import base gmap strings list fin_maps.
From Stdlib Require Import Ascii ZArith Lia DecimalString.

Open Scope string_scope.
Open Scope list_scope.

(** ** Projections *)

Inductive ProjectionMode := ProjectAll | ProjectOnly | ProjectExcept.

#[export] Instance ProjectionMode_eq_dec : EqDecision ProjectionMode.
Proof. solve_decision. Defined.

Record Projection := mkProjection { pj_Mode : ProjectionMode; pj_Paths : gmap string bool }.

Definition ProjectOnlyPaths (paths : list string) : Projection :=
  match paths with
  | [] => mkProjection ProjectAll ∅
  | _ => mkProjection ProjectOnly (foldl (fun m p => <[p := true]> m) ∅ paths)
  end.

(** [len(p.Paths) > 0] *)
Definition hasPaths (p : Projection) : bool := negb (bool_decide (pj_Paths p = ∅)).

Definition Narrows (p : Projection) : bool := negb (bool_decide (pj_Mode p = ProjectAll)) && hasPaths p.

Definition IsInclusion (p : Projection) : bool := bool_decide (pj_Mode p = ProjectOnly) && hasPaths p.

(** A missing key reads as [false]. *)
Definition Selects (p : Projection) (path : string) : bool := default false (pj_Paths p !! path).

Definition Keeps (p : Projection) (path : string) : bool :=
  if negb (Narrows p) then true
  else if bool_decide (pj_Mode p = ProjectOnly) then Selects p path
  else negb (Selects p path).

Definition Include (path : string) (p : Projection) : Projection :=
  match pj_Mode p with
  | ProjectExcept => p
  | _ => mkProjection ProjectOnly (<[path := true]> (pj_Paths p))
  end.

Definition Drop (path : string) (p : Projection) : Projection :=
  match pj_Mode p with
  | ProjectOnly =>
      let paths := delete path (pj_Paths p) in
      if bool_decide (paths = ∅) then mkProjection ProjectExcept {[path := true]}
      else mkProjection ProjectOnly paths
  | _ => mkProjection ProjectExcept (<[path := true]> (pj_Paths p))
  end.

(** ** Filter values *)

(** The values of a filter, as the switch of [canonicalizeFilterValue] tells them
    apart.  A floating-point number is its [%g] text; [FOther] is a value of a type
    the switch does not name, with its [%T] and [%v]. *)
Inductive FilterValue :=
| FNil
| FBool (b : bool)
| FString (s : string)
| FInt (n : Z)
| FUint (n : Z)
| FFloat (g : string)
| FObject (m : list (string * FilterValue))
| FList (l : list FilterValue)
| FStrings (l : list string)
| FMultiClause (clauses : list FilterValue)
| FClause (op : string) (values : list FilterValue)
| FTextMatch (value : string) (kind : Z) (caseInsensitive negate : bool)
| FTextMatchList (values : list string) (caseInsensitive negate : bool)
| FOther (typ text : string).

(** ** Criteria *)

Record OrderByField := mkOrderByField { ob_Field : string; ob_Desc : bool }.

#[export] Instance OrderByField_eq_dec : EqDecision OrderByField.
Proof. solve_decision. Defined.

Record ReadCriteria := mkCriteria {
  rc_Filter : gmap string FilterValue;
  rc_OrderBy : list OrderByField;
  rc_Projection : Projection;
  rc_Limit : Z;
  rc_After : string;
  rc_Before : string;
  rc_Backward : bool;
  rc_Search : string;
  rc_IncludeArchived : bool;
  rc_OnlyTotal : bool;
  rc_BypassMaxLimit : bool
}.

Definition referencesField (path : string) (c : ReadCriteria) : bool :=
  bool_decide (is_Some (rc_Filter c !! path)) ||
  (IsInclusion (rc_Projection c) && Selects (rc_Projection c) path) ||
  existsb (fun s => String.eqb (ob_Field s) path) (rc_OrderBy c).

Definition scrubField (path : string) (c : ReadCriteria) : ReadCriteria :=
  mkCriteria (delete path (rc_Filter c))
    (List.filter (fun s => negb (String.eqb (ob_Field s) path)) (rc_OrderBy c))
    (Drop path (rc_Projection c))
    (rc_Limit c) (rc_After c) (rc_Before c) (rc_Backward c) (rc_Search c) (rc_IncludeArchived c)
    (rc_OnlyTotal c) (rc_BypassMaxLimit c).

Definition FieldAccessForbiddenNotification : Notification :=
  NOther "FieldAccessForbiddenNotification" SemanticForbidden.

(** The restriction and the error it returns; an application error is a carrier
    like a domain one. *)
Definition Restrict (path : string) (c : ReadCriteria) : ReadCriteria * option GoErr :=
  (scrubField path c,
   if referencesField path c
   then Some (SingleNotificationError "Query" (WireFieldPath path) FieldAccessForbiddenNotification)
   else None).

(** Restrictions in turn, their errors aside. *)
Definition restrictAll (paths : list string) (c : ReadCriteria) : ReadCriteria :=
  foldl (fun c p => (Restrict p c).1) c paths.

(** ** The stream a cursor's hash is taken of ([cursor.go]) *)

(** [fmt]'s [%d] and [%t]. *)
Definition fmtD (n : Z) : string := NilEmpty.string_of_int (Z.to_int n).
Definition fmtT (b : bool) : string := if b then "true" else "false".

(** [len(s):s] *)
Definition lenPrefixed (s : string) : string := fmtD (Z.of_nat (String.length s)) +:+ ":" +:+ s.

(** [sort.Strings] on the keys: byte order. *)
Fixpoint insertKey {A} (k : string) (x : A) (l : list (string * A)) : list (string * A) :=
  match l with
  | [] => [(k, x)]
  | (k', x') :: rest =>
      if String.leb k k' then (k, x) :: l else (k', x') :: insertKey k x rest
  end.

Fixpoint sortByKey {A} (l : list (string * A)) : list (string * A) :=
  match l with
  | [] => []
  | (k, x) :: rest => insertKey k x (sortByKey rest)
  end.

(** Writes in sequence. *)
Definition writeAll (l : list string) : string := foldr String.append "" l.

(** The items written one by one, each followed by a comma. *)
Definition writeItems (l : list string) : string := writeAll ((fun s => s +:+ ",") <$> l).

(** [canonicalizeFilterMap], on the entries with their values already written. *)
Definition writeMap (entries : list (string * string)) : string :=
  "m:" +:+ fmtD (Z.of_nat (length entries)) +:+ "{" +:+
  writeItems ((fun e => lenPrefixed e.1 +:+ "=" +:+ e.2) <$> sortByKey entries) +:+ "}".

Fixpoint canonicalizeFilterValue (v : FilterValue) : string :=
  match v with
  | FNil => "n"
  | FBool b => "b:" +:+ fmtT b
  | FString s => "s:" +:+ lenPrefixed s
  | FInt n => "i:" +:+ fmtD n
  | FUint n => "u:" +:+ fmtD n
  | FFloat g => "f:" +:+ g
  | FObject m => writeMap ((fun e => (e.1, canonicalizeFilterValue e.2)) <$> m)
  | FList l => "a:" +:+ fmtD (Z.of_nat (length l)) +:+ "[" +:+ writeItems (canonicalizeFilterValue <$> l) +:+ "]"
  | FStrings l => "ss:" +:+ fmtD (Z.of_nat (length l)) +:+ "[" +:+ writeItems (lenPrefixed <$> l) +:+ "]"
  | FMultiClause l => "MC[" +:+ writeItems (canonicalizeFilterValue <$> l) +:+ "]"
  | FClause op l =>
      "CL:" +:+ op +:+ ":" +:+ fmtD (Z.of_nat (length l)) +:+ "[" +:+ writeItems (canonicalizeFilterValue <$> l) +:+ "]"
  | FTextMatch value kind ci neg =>
      "TM:" +:+ fmtD kind +:+ ":" +:+ fmtT ci +:+ ":" +:+ fmtT neg +:+ ":" +:+ lenPrefixed value
  | FTextMatchList values ci neg =>
      "TML:" +:+ fmtT ci +:+ ":" +:+ fmtT neg +:+ ":" +:+ fmtD (Z.of_nat (length values)) +:+ "[" +:+
      writeItems (lenPrefixed <$> values) +:+ "]"
  | FOther typ text => "?" +:+ typ +:+ ":" +:+ text
  end.

Definition canonicalizeFilterMap (m : gmap string FilterValue) : string :=
  canonicalizeFilterValue (FObject (map_to_list m)).

(** One ordering term. *)
Definition writeOrder (s : OrderByField) : string := ":" +:+ lenPrefixed (ob_Field s) +:+ ":" +:+ fmtT (ob_Desc s).

(** Everything [HashContext] writes to the hash. *)
Definition contextStream (filter : gmap string FilterValue) (orderBy : list OrderByField) (search : string)
  (includeArchived : bool) : string :=
  "ctx_v1|filter:" +:+ canonicalizeFilterMap filter +:+
  "|sort:" +:+ fmtD (Z.of_nat (length orderBy)) +:+ writeAll (writeOrder <$> orderBy) +:+
  "|search:" +:+ lenPrefixed search +:+
  "|archived:" +:+ fmtT includeArchived.

Section Hash.
(** The hex SHA-256 of a stream. *)
Context (sha256hex : string -> string).

Definition HashContext (filter : gmap string FilterValue) (orderBy : list OrderByField) (search : string)
  (includeArchived : bool) : string :=
  if Nat.eqb (size filter) 0 && Nat.eqb (length orderBy) 0 && String.eqb search "" && negb includeArchived then ""
  else sha256hex (contextStream filter orderBy search includeArchived).

End Hash.
