(* ===== verification/Handlers.v ===== *)
(** * The command and query handlers

    [application/handlers]: the orchestration of load, apply, seal, write and
    projection, with the persistence seams it goes through
    ([application/persistence/options.go], [scoped_reader.go],
    [scoped_service.go]).  A handler runs over a world [W] that the repository and
    the command may act on; from the load on, the entity it holds is threaded
    beside the world, because handler, sealed value and repository share one
    pointer.  [Ctx] is the request context, which the handlers only pass on; the
    in-transaction hooks are opaque values they only thread. *)

From S2P Require Import Prelude Naming FieldMeta Notification Errors BaseEntity Aggregate Rules Entity Queries.
From stdpp Require Import base gmap strings list fin_maps.
From Stdlib Require Import Ascii ZArith Lia.

Open Scope string_scope.
Open Scope list_scope.
Open Scope go_scope.

(** ** Write options ([application/persistence/options.go]) *)

Section Options.
Context {AB BC : Type}.

Record writeOptions := mkWriteOptions { wo_afterBegin : option AB; wo_beforeCommit : option BC }.

Definition WriteOption : Type := writeOptions -> writeOptions.

(** A nil hook is dropped. *)
Definition WithAfterBegin (fn : option AB) : WriteOption :=
  fun o => match fn with Some _ => mkWriteOptions fn (wo_beforeCommit o) | None => o end.

Definition WithBeforeCommit (fn : option BC) : WriteOption :=
  fun o => match fn with Some _ => mkWriteOptions (wo_afterBegin o) fn | None => o end.

(** A nil option is skipped. *)
Definition ResolveWriteOptions (opts : list (option WriteOption)) : option AB * option BC :=
  let o := foldl (fun o opt => match opt with Some f => f o | None => o end) (mkWriteOptions None None) opts in
  (wo_afterBegin o, wo_beforeCommit o).

End Options.

Arguments writeOptions : clear implicits.
Arguments WriteOption : clear implicits.

Section Seams.
Context (V S D AB BC Ctx W : Type).

Abbreviation Ent := (EntityState V S D).

(** ** The ports *)

(** [domain.Writer]; the write may mutate the entity (minted ids, revisions). *)
Record Writer := mkWriter {
  w_Insert : Insertable -> GoM (W * Ent) GoErr ID;
  w_Update : Updatable -> GoM (W * Ent) GoErr unit;
  w_Archive : Archivable -> GoM (W * Ent) GoErr unit;
  w_Unarchive : Unarchivable -> GoM (W * Ent) GoErr unit;
  w_Delete : Deletable -> GoM (W * Ent) GoErr unit
}.

(** [ScopedRepository], with the capabilities the framework probes for by type
    assertion; [r_type] is what [%T] prints. *)
Record ScopedRepository := mkRepository {
  r_type : string;
  r_FindByID : ID -> GoM W GoErr Ent;
  r_New : Ent;
  r_Scope : Ctx -> list (option (WriteOption AB BC)) -> Writer;
  r_ScopedReader : option (Ctx -> ID -> GoM W GoErr Ent);
  r_ScopedArchivedReader : option (Ctx -> ID -> GoM W GoErr Ent);
  r_FindArchivedByID : option (ID -> GoM W GoErr Ent);
  r_LoadForSharedBaseInsert : option (Ctx -> Ent -> GoM W GoErr (Ent * bool))
}.

(** A command; each handler uses the methods of its own interface
    ([application/pipeline/auto_command.go]).  The two hooks are [None] for a
    command that does not implement the provider. *)
Record Command (T : Type) := mkCommand {
  c_PathID : string;
  c_ToEntity : Ctx -> GoM W GoErr Ent;
  c_ApplyTo : Ctx -> CmdBody V S D;
  c_ApplyPartiallyTo : Ctx -> CmdBody V S D;
  c_FromEntity : Ctx -> GoM (W * Ent) GoErr T;
  c_AfterBegin : option AB;
  c_BeforeCommit : option BC
}.

(** The fields the handlers share. *)
Record CommandHandler := mkHandler { h_Repo : ScopedRepository; h_Service : option S }.

End Seams.

Arguments mkWriter {V S D W}.
Arguments w_Insert {V S D W}.
Arguments w_Update {V S D W}.
Arguments w_Archive {V S D W}.
Arguments w_Unarchive {V S D W}.
Arguments w_Delete {V S D W}.
Arguments mkRepository {V S D AB BC Ctx W}.
Arguments r_type {V S D AB BC Ctx W}.
Arguments r_FindByID {V S D AB BC Ctx W}.
Arguments r_New {V S D AB BC Ctx W}.
Arguments r_Scope {V S D AB BC Ctx W}.
Arguments r_ScopedReader {V S D AB BC Ctx W}.
Arguments r_ScopedArchivedReader {V S D AB BC Ctx W}.
Arguments r_FindArchivedByID {V S D AB BC Ctx W}.
Arguments r_LoadForSharedBaseInsert {V S D AB BC Ctx W}.
Arguments mkCommand {V S D AB BC Ctx W T}.
Arguments c_PathID {V S D AB BC Ctx W T}.
Arguments c_ToEntity {V S D AB BC Ctx W T}.
Arguments c_ApplyTo {V S D AB BC Ctx W T}.
Arguments c_ApplyPartiallyTo {V S D AB BC Ctx W T}.
Arguments c_FromEntity {V S D AB BC Ctx W T}.
Arguments c_AfterBegin {V S D AB BC Ctx W T}.
Arguments c_BeforeCommit {V S D AB BC Ctx W T}.
Arguments mkHandler {V S D AB BC Ctx W}.
Arguments h_Repo {V S D AB BC Ctx W}.
Arguments h_Service {V S D AB BC Ctx W}.

(** The error of a verb as the caller of the handler sees it. *)
Definition toGoErr (e : GetError) : GoErr :=
  match e with
  | DomainError contexts => NewDomainError (Some <$> contexts)
  | ApplyError err => err
  end.

Section Commands.
Context {V S D AB BC Ctx W T : Type} `{AVOOps V} (d : EntityDef V S D).
Context (scopedService : S -> option (Ctx -> option S)) (clock : W -> Z).

Abbreviation Ent := (EntityState V S D).
Abbreviation WM A := (GoM W GoErr A).
Abbreviation HM A := (GoM (W * Ent) GoErr A).

(** ** Running on the held entity *)

Definition onEntity {A} (c : GoM Ent GetError A) : HM A :=
  fun '(w, e) =>
    match c e with
    | (e', Ret a) => ((w, e'), Ret a)
    | (e', Fail err) => ((w, e'), Fail (toGoErr err))
    | (e', Panic m) => ((w, e'), Panic m)
    end.

(** A verb, with the clock it stamps the sealed value by. *)
Definition sealing {A} (verb : Z -> GoM Ent GetError A) : HM A :=
  fun s => onEntity (verb (clock s.1)) s.

Definition withEntity {A} (e : Ent) (c : HM A) : WM A :=
  fun w => let '((w', _), r) := c (w, e) in (w', r).

(** [entity.SetID(id)] *)
Definition setEntityID (i : ID) : HM unit :=
  gmodify (fun '(w, e) => (w, en_onBase (fun b => be_setManaged (SetID i (be_managed b)) b) e)).

(** ** Persistence seams *)

(** [captureLoaded] on the result of a load; a failed load is passed through. *)
Definition captureLoaded (load : WM Ent) : WM Ent :=
  loaded <- load;; gret (CaptureOld d loaded).

Definition LoadForWrite (repo : ScopedRepository V S D AB BC Ctx W) (ctx : Ctx) (i : ID) : WM Ent :=
  match r_ScopedReader repo with
  | Some reader => captureLoaded (reader ctx i)
  | None => captureLoaded (r_FindByID repo i)
  end.

(** [None]: the repository has neither capability. *)
Definition LoadArchivedForWrite (repo : ScopedRepository V S D AB BC Ctx W) (ctx : Ctx) (i : ID) : option (WM Ent) :=
  match r_ScopedArchivedReader repo with
  | Some reader => Some (captureLoaded (reader ctx i))
  | None =>
      match r_FindArchivedByID repo with
      | Some find => Some (captureLoaded (find i))
      | None => None
      end
  end.

(** [scopedService] is the type assertion on [ScopedServiceProvider]. *)
Definition ScopeService (svc : option S) (ctx : Ctx) : option S :=
  match svc with
  | None => None
  | Some s => match scopedService s with Some scope => scope ctx | None => Some s end
  end.

(** ** Shared pieces of the handlers *)

(** The panic carries the first line of the developer's message. *)
Definition RequirePathID (pathID handlerName : string) : WM unit :=
  if String.eqb pathID "" then
    gpanic ("[omnicore] FATAL: " +:+ handlerName +:+ " requires a non-empty path ID, but PathID() returned the empty string.")
  else gret tt.

Definition collectWriteOptions (cmd : Command V S D AB BC Ctx W T) : list (option (WriteOption AB BC)) :=
  match c_AfterBegin cmd with Some h => [Some (WithAfterBegin (Some h))] | None => [] end ++
  match c_BeforeCommit cmd with Some h => [Some (WithBeforeCommit (Some h))] | None => [] end.

(** ** The handlers *)

Section Handle.
Context (h : CommandHandler V S D AB BC Ctx W) (ctx : Ctx) (cmd : Command V S D AB BC Ctx W T).

(** [h.Repo.Scope(ctx, opts...)] and [persistence.ScopeService(h.Service, ctx)]. *)
Definition scoped : Writer V S D W := r_Scope (h_Repo h) ctx (collectWriteOptions cmd).
Definition service : option S := ScopeService (h_Service h) ctx.

Definition InsertCommandHandler_Handle : WM T :=
  match r_LoadForSharedBaseInsert (h_Repo h) with
  | Some _ =>
      gfail (ELeaf ("InsertCommandHandler: " +:+ r_type (h_Repo h) +:+
                    " has a SharedBase — use SharedBaseInsertCommandHandler"))
  | None =>
      entity <- c_ToEntity cmd ctx;;
      withEntity entity
        (insertable <- sealing (getInsertable d service "GetInsertable");;
         i <- w_Insert scoped insertable;;
         setEntityID i;;;
         c_FromEntity cmd ctx)
  end.

Definition SharedBaseInsertCommandHandler_Handle : WM T :=
  match r_LoadForSharedBaseInsert (h_Repo h) with
  | None =>
      gfail (ELeaf ("SharedBaseInsertCommandHandler: " +:+ r_type (h_Repo h) +:+
                    " has no SharedBase — use InsertCommandHandler for entities without a shared base"))
  | Some loader =>
      let apply := onEntity (runCmds d (c_ApplyTo cmd ctx)) in
      fresh <- withEntity (r_New (h_Repo h)) (apply;;; s <- gget;; gret s.2);;
      loaded <- loader ctx fresh;;
      let '(entity, existed) := loaded in
      withEntity entity
        (action <- (if existed : bool then apply;;; gret "GetUpsertable" else gret "GetInsertable");;
         insertable <- sealing (getInsertable d service action);;
         i <- w_Insert scoped insertable;;
         setEntityID i;;;
         c_FromEntity cmd ctx)
  end.

Definition UpdateCommandHandler_Handle : WM T :=
  RequirePathID (c_PathID cmd) "UpdateCommandHandler";;;
  current <- LoadForWrite (h_Repo h) ctx (NewID (c_PathID cmd));;
  withEntity current
    (updatable <- sealing (fun now => getUpdatable d service "GetUpdatable" now (Some (c_ApplyTo cmd ctx)) false);;
     w_Update scoped updatable;;;
     c_FromEntity cmd ctx).

Definition PartialUpdateCommandHandler_Handle : WM T :=
  RequirePathID (c_PathID cmd) "PartialUpdateCommandHandler";;;
  current <- r_FindByID (h_Repo h) (NewID (c_PathID cmd));;
  withEntity current
    (updatable <- sealing (fun now =>
                    getUpdatable d service "GetPartialUpdatable" now (Some (c_ApplyPartiallyTo cmd ctx)) true);;
     w_Update scoped updatable;;;
     c_FromEntity cmd ctx).

Definition DeleteCommandHandler_Handle : WM T :=
  RequirePathID (c_PathID cmd) "DeleteCommandHandler";;;
  current <- LoadForWrite (h_Repo h) ctx (NewID (c_PathID cmd));;
  withEntity current
    (onEntity (runCmds d (c_ApplyTo cmd ctx));;;
     deletable <- sealing (getDeletable d service "GetDeletable");;
     w_Delete scoped deletable;;;
     c_FromEntity cmd ctx).

Definition ArchiveCommandHandler_Handle : WM T :=
  RequirePathID (c_PathID cmd) "ArchiveCommandHandler";;;
  current <- LoadForWrite (h_Repo h) ctx (NewID (c_PathID cmd));;
  withEntity current
    (onEntity (runCmds d (c_ApplyTo cmd ctx));;;
     archivable <- sealing (getArchivable d service "GetArchivable");;
     w_Archive scoped archivable;;;
     c_FromEntity cmd ctx).

Definition UnarchiveCommandHandler_Handle : WM T :=
  RequirePathID (c_PathID cmd) "UnarchiveCommandHandler";;;
  match LoadArchivedForWrite (h_Repo h) ctx (NewID (c_PathID cmd)) with
  | None =>
      gfail (ELeaf ("UnarchiveCommandHandler: " +:+ r_type (h_Repo h) +:+
                    " cannot load an archived aggregate — implement " +:+
                    "persistence.ScopedArchivedReaderProvider[T] or domain.ArchivedFinder[T] " +:+
                    "(infra.BaseAggregateRepository provides both). Unarchiving from an empty " +:+
                    "sample would carry the entity's zero value into the write path"))
  | Some load =>
      sample <- load;;
      withEntity sample
        (onEntity (runCmds d (c_ApplyTo cmd ctx));;;
         unarchivable <- sealing (getUnarchivable d service "GetUnarchivable");;
         w_Unarchive scoped unarchivable;;;
         c_FromEntity cmd ctx)
  end.

End Handle.

(** The seven auto handlers as data. *)
Inductive HandlerKind :=
| HInsert | HSharedBaseInsert | HUpdate | HPartialUpdate | HDelete | HArchive | HUnarchive.

Definition Handle (k : HandlerKind) : CommandHandler V S D AB BC Ctx W -> Ctx -> Command V S D AB BC Ctx W T -> WM T :=
  match k with
  | HInsert => InsertCommandHandler_Handle
  | HSharedBaseInsert => SharedBaseInsertCommandHandler_Handle
  | HUpdate => UpdateCommandHandler_Handle
  | HPartialUpdate => PartialUpdateCommandHandler_Handle
  | HDelete => DeleteCommandHandler_Handle
  | HArchive => ArchiveCommandHandler_Handle
  | HUnarchive => UnarchiveCommandHandler_Handle
  end.

End Commands.

(** ** The query side *)

Section Queries.
Context {Ctx W Doc TResult : Type} (ResultFromDoc : Doc -> TResult).

Abbreviation WM A := (GoM W GoErr A).

(** [queries.Page] and its typed twin: the items and the envelope around them. *)
Record PageEnvelope := mkPageEnvelope {
  pe_HasNextPage : bool;
  pe_HasPreviousPage : bool;
  pe_StartCursor : string;
  pe_EndCursor : string;
  pe_TotalCount : Z;
  pe_OnlyTotal : bool;
  pe_ItemCursors : list string;
  pe_Projection : Projection
}.

Record Page (Item : Type) := mkPage { pg_Items : list Item; pg_Envelope : PageEnvelope }.

Record ViewReader := mkViewReader {
  vr_ReadByID : Ctx -> string -> string -> ReadCriteria -> WM (option Doc);
  vr_ReadPage : Ctx -> string -> ReadCriteria -> WM (Page Doc)
}.

Record Query := mkQuery {
  q_PathID : ID;
  q_ToCriteria : Ctx -> WM ReadCriteria;
  q_FromQueryResult : Ctx -> TResult -> WM TResult;
  q_ContextName : string
}.

Record QueryHandler := mkQueryHandler { qh_Reader : ViewReader; qh_View : string }.

Definition FindByIDQueryHandler_Handle (h : QueryHandler) (ctx : Ctx) (q : Query) : WM TResult :=
  RequirePathID (id_value (q_PathID q)) "FindByIDQueryHandler";;;
  crit <- q_ToCriteria q ctx;;
  found <- vr_ReadByID (qh_Reader h) ctx (qh_View h) (id_value (q_PathID q)) crit;;
  match found with
  | None =>
      let ctxName := if String.eqb (q_ContextName q) "" then qh_View h else q_ContextName q in
      gfail (NotFoundError ctxName "id" (id_value (q_PathID q)))
  | Some doc => q_FromQueryResult q ctx (ResultFromDoc doc)
  end.

Definition FromQueryResultFiller (ctx : Ctx) (q : Query) : TResult -> WM TResult := q_FromQueryResult q ctx.

Fixpoint fillItems (fill : TResult -> WM TResult) (docs : list Doc) : WM (list TResult) :=
  match docs with
  | [] => gret []
  | doc :: rest =>
      r <- fill (ResultFromDoc doc);;
      items <- fillItems fill rest;;
      gret (r :: items)
  end.

Definition PageOfFrom (page : Page Doc) (fill : TResult -> WM TResult) : WM (Page TResult) :=
  if pe_OnlyTotal (pg_Envelope _ page) then gret (mkPage _ [] (pg_Envelope _ page))
  else
    items <- fillItems fill (pg_Items _ page);;
    gret (mkPage _ items (pg_Envelope _ page)).

Definition FindByParamsQueryHandler_Handle (h : QueryHandler) (ctx : Ctx) (q : Query) : WM (Page TResult) :=
  crit <- q_ToCriteria q ctx;;
  page <- vr_ReadPage (qh_Reader h) ctx (qh_View h) crit;;
  PageOfFrom page (FromQueryResultFiller ctx q).

End Queries.
