(* ===== verification/QueriesClaims.v ===== *)
(** * Properties of projections, restrictions and the cursor's context *)

From S2P Require Import Prelude GoStrings Naming FieldMeta Notification Errors Queries.
From stdpp Require Import base gmap strings list fin_maps sorting.
From Stdlib Require Import Ascii ZArith Lia DecimalString DecimalZ.

Open Scope string_scope.
Open Scope list_scope.

(** ** Restrictions *)

Lemma Selects_Drop_other p q path : pj_Mode p <> ProjectOnly -> q <> path -> Selects (Drop path p) q = Selects p q.
Proof. intros Hm Hq. unfold Drop, Selects. destruct (pj_Mode p); [|done|]; simpl; by rewrite lookup_insert_ne. Qed.

(** The dropped path is not kept, whichever mode the projection was in. *)
Lemma Drop_hides p path : Keeps (Drop path p) path = false.
Proof.
  assert (Hi : forall m, hasPaths (mkProjection ProjectExcept (<[path := true]> m)) = true).
  { intros m. unfold hasPaths. simpl. by rewrite bool_decide_eq_false_2 by apply insert_non_empty. }
  unfold Drop. destruct (pj_Mode p) eqn:Em.
  - unfold Keeps, Narrows, Selects. rewrite Hi. simpl. by rewrite lookup_insert_eq.
  - case_bool_decide as E; unfold Keeps, Narrows, hasPaths, Selects; simpl.
    + rewrite bool_decide_eq_false_2 by apply map_non_empty_singleton. simpl. by rewrite lookup_singleton_eq.
    + rewrite bool_decide_eq_false_2 by done. simpl. by rewrite lookup_delete_eq.
  - unfold Keeps, Narrows, Selects. rewrite Hi. simpl. by rewrite lookup_insert_eq.
Qed.

Lemma Drop_not_selected p path : IsInclusion (Drop path p) && Selects (Drop path p) path = false.
Proof.
  unfold Drop. destruct (pj_Mode p); [done| |done]. case_bool_decide; [done|].
  unfold Selects. simpl. rewrite lookup_delete_eq. apply andb_false_r.
Qed.

(** What is left of an ordering without a path. *)
Lemma order_scrubbed path l :
  existsb (fun s => String.eqb (ob_Field s) path)
    (List.filter (fun s => negb (String.eqb (ob_Field s) path)) l) = false.
Proof.
  induction l as [|s l IH]; [done|]. simpl. destruct (String.eqb (ob_Field s) path) eqn:E; simpl; [done|].
  by rewrite E.
Qed.

(** A restricted field is gone from the read.  After [Restrict], whatever the
    criteria were, the field is neither kept by the projection, nor filtered or
    ordered on, nor referenced in any other way; every other filter and ordering
    term is as it was; and the call returns an error exactly when the request had
    named the field, a carrier of the forbidden notification under the field's wire
    path. *)
Theorem restrict_hides_the_field path c :
  let c' := (Restrict path c).1 in
  Keeps (rc_Projection c') path = false /\ referencesField path c' = false /\
  (forall q, q <> path -> rc_Filter c' !! q = rc_Filter c !! q) /\
  List.filter (fun s => negb (String.eqb (ob_Field s) path)) (rc_OrderBy c) = rc_OrderBy c' /\
  (Restrict path c).2 =
    (if referencesField path c
     then Some (SingleNotificationError "Query" (WireFieldPath path) FieldAccessForbiddenNotification) else None).
Proof.
  simpl. split_and!; [apply Drop_hides| |intros q Hq; by rewrite lookup_delete_ne|done|done].
  unfold referencesField, scrubField. simpl. rewrite Drop_not_selected, order_scrubbed, lookup_delete_eq.
  by rewrite bool_decide_eq_false_2 by (by intros [? ?]).
Qed.

(** *** Several restrictions *)

(** The state in which a list of paths stays hidden. *)
Definition hidden (p : Projection) (paths : list string) : Prop :=
  match pj_Mode p with
  | ProjectOnly => pj_Paths p <> ∅ /\ Forall (fun q => Selects p q = false) paths
  | ProjectExcept => Forall (fun q => Selects p q = true) paths
  | ProjectAll => paths = []
  end.

Lemma hidden_Keeps p paths q : hidden p paths -> q ∈ paths -> Keeps p q = false.
Proof.
  unfold hidden, Keeps, Narrows, hasPaths. intros Hh Hq. destruct (pj_Mode p) eqn:Em.
  - subst. by apply elem_of_nil in Hq.
  - destruct Hh as [Hne Hf]. rewrite (bool_decide_eq_false_2 (pj_Paths p = ∅)) by done. simpl. by apply (proj1 (Forall_forall _ _) Hf).
  - apply (proj1 (Forall_forall _ _)) with (x := q) in Hh; [|done]. rewrite (bool_decide_eq_false_2 (pj_Paths p = ∅)); [simpl; by rewrite Hh|].
    intros E. unfold Selects in Hh. by rewrite E, lookup_empty in Hh.
Qed.

(** A drop keeps what is hidden hidden, unless it takes the last path of an
    inclusion. *)
Lemma hidden_Drop p paths path :
  hidden p paths -> (pj_Mode p = ProjectOnly -> delete path (pj_Paths p) <> ∅) -> hidden (Drop path p) (path :: paths).
Proof.
  unfold hidden, Drop. intros Hh Hne. destruct (pj_Mode p) eqn:Em; simpl.
  - subst. constructor; [|constructor]. unfold Selects. simpl. by rewrite lookup_insert_eq.
  - rewrite bool_decide_eq_false_2 by auto. simpl. split; [auto|]. destruct Hh as [_ Hf]. unfold Selects in *.
    constructor; simpl; [by rewrite lookup_delete_eq|]. eapply Forall_impl; [exact Hf|]. intros q Hq. simpl in *.
    destruct (decide (q = path)) as [->|]; [by rewrite lookup_delete_eq|by rewrite lookup_delete_ne].
  - unfold Selects in *. constructor; simpl; [by rewrite lookup_insert_eq|]. eapply Forall_impl; [exact Hh|].
    intros q Hq. simpl in *. destruct (decide (q = path)) as [->|]; [by rewrite lookup_insert_eq|by rewrite lookup_insert_ne].
Qed.

(** The paths an inclusion keeps that a list of restrictions does not touch. *)
Definition survives (paths : list string) (p : Projection) : Prop :=
  pj_Mode p = ProjectOnly -> exists q, q ∉ paths /\ is_Some (pj_Paths p !! q).

Lemma survives_Drop path paths p : survives (path :: paths) p -> survives paths (Drop path p).
Proof.
  unfold survives, Drop. destruct (pj_Mode p) eqn:Em; simpl; try done. intros Hs.
  destruct (Hs eq_refl) as (q & Hq & Hi). apply not_elem_of_cons in Hq as [Hn Hq].
  rewrite bool_decide_eq_false_2; [|intros E; apply (f_equal (.!! q)) in E; rewrite lookup_delete_ne in E by done;
    rewrite E, lookup_empty in Hi; by destruct Hi]. simpl. intros _. exists q. by rewrite lookup_delete_ne.
Qed.

Lemma survives_cons path paths p :
  survives (path :: paths) p -> pj_Mode p = ProjectOnly -> delete path (pj_Paths p) <> ∅.
Proof.
  intros Hs Hm E. destruct (Hs Hm) as (q & [Hn _]%not_elem_of_cons & Hi).
  apply (f_equal (.!! q)) in E. rewrite lookup_delete_ne in E by done. rewrite E, lookup_empty in Hi. by destruct Hi.
Qed.

Lemma restrictAll_hidden paths c done :
  hidden (rc_Projection c) done -> survives paths (rc_Projection c) ->
  hidden (rc_Projection (restrictAll paths c)) (rev_append paths done).
Proof.
  unfold restrictAll. revert c done. induction paths as [|p paths IH]; intros c done Hh Hs; [exact Hh|]. simpl.
  apply IH; [|by apply survives_Drop]. simpl. apply hidden_Drop; [done|]. by apply survives_cons with paths.
Qed.

(** Restrictions accumulate.  After any sequence of restrictions every
    restricted field is hidden, provided the read was not an inclusion or the
    inclusion named a field that none of them takes. *)
Theorem restrictions_accumulate paths c q :
  (pj_Mode (rc_Projection c) = ProjectOnly -> exists q, q ∉ paths /\ is_Some (pj_Paths (rc_Projection c) !! q)) ->
  q ∈ paths -> Keeps (rc_Projection (restrictAll paths c)) q = false.
Proof.
  intros Hs Hq. destruct (decide (paths = [])) as [->|Hp]; [by apply elem_of_nil in Hq|].
  apply hidden_Keeps with (rev_append paths []); [|change (q ∈ reverse paths); by apply elem_of_reverse].
  destruct (pj_Mode (rc_Projection c)) eqn:Em.
  - apply restrictAll_hidden; [|by unfold survives; rewrite Em]. unfold hidden. by rewrite Em.
  - apply restrictAll_hidden; [|unfold survives; rewrite Em; exact Hs]. unfold hidden. rewrite Em. split; [|done].
    destruct (Hs eq_refl) as (x & _ & Hi). intros E. rewrite E, lookup_empty in Hi. by destruct Hi.
  - apply restrictAll_hidden; [|by unfold survives; rewrite Em]. unfold hidden. rewrite Em. done.
Qed.

(** *** What does not hold *)

(** A criteria that only selects. *)
Definition reading (p : Projection) : ReadCriteria := mkCriteria ∅ [] p 0 "" "" false "" false false false.

(** The proviso is needed: when restrictions take every field an inclusion named,
    the last one inverts the inclusion into an exclusion of its own field, and a
    field restricted before it is read again. *)
Theorem last_restriction_reexposes_the_first :
  let c := reading (ProjectOnlyPaths ["Salary"; "Bonus"]) in
  Keeps (rc_Projection (restrictAll ["Salary"] c)) "Salary" = false /\
  Keeps (rc_Projection (restrictAll ["Salary"; "Bonus"] c)) "Salary" = true.
Proof. split; vm_compute; reflexivity. Qed.

(** A restriction is on the exact path: a field selected below a restricted one is
    still read, and no error is returned. *)
Theorem restriction_misses_nested_paths :
  let c := reading (ProjectOnlyPaths ["Addresses.ZipCode"]) in
  (Restrict "Addresses" c).2 = None /\
  Keeps (rc_Projection (Restrict "Addresses" c).1) "Addresses.ZipCode" = true.
Proof. split; vm_compute; reflexivity. Qed.

Lemma restrictions_accumulate_witness :
  Keeps (rc_Projection (restrictAll ["Salary"; "Bonus"] (reading (ProjectOnlyPaths ["Salary"; "Bonus"; "Name"])))) "Salary" = false.
Proof.
  apply restrictions_accumulate.
  - intros _. exists "Name". split; [set_solver|]. vm_compute. eexists. reflexivity.
  - set_solver.
Defined.

(** ** The stream determines the listing context *)

(** *** Uniquely decodable pieces *)

Ltac strn := rewrite ?string_app_assoc, ?string_app_cons, ?string_app_nil_l in *.

(** A text that does not start with a digit. *)
Definition noDigit (s : string) : Prop :=
  match s with
  | EmptyString => True
  | String c _ => c ∉ ["0"; "1"; "2"; "3"; "4"; "5"; "6"; "7"; "8"; "9"]%char
  end.

Lemma uint_code d d' s t :
  noDigit s -> noDigit t -> NilEmpty.string_of_uint d +:+ s = NilEmpty.string_of_uint d' +:+ t -> d = d' /\ s = t.
Proof.
  revert d'. induction d as [|d IH|d IH|d IH|d IH|d IH|d IH|d IH|d IH|d IH|d IH]; intros d' Hs Ht;
    destruct d'; simpl; strn; intros E; simplify_eq; try done;
    try (exfalso; first [apply Hs; set_solver|apply Ht; set_solver]);
    edestruct IH as [-> ->]; eauto.
Qed.

Lemma uint_not_minus d s r : NilEmpty.string_of_uint d +:+ s = String "-" r -> d = Decimal.Nil.
Proof. destruct d; simpl; strn; try done. Qed.

Lemma to_int_digits n : Z.to_int n <> Decimal.Pos Decimal.Nil.
Proof. intros E. pose proof (of_to n) as H. rewrite E in H. simpl in H. subst. done. Qed.

Lemma fmtD_code n m s t : noDigit s -> noDigit t -> fmtD n +:+ s = fmtD m +:+ t -> n = m /\ s = t.
Proof.
  intros Hs Ht. unfold fmtD.
  destruct (Z.to_int n) as [d|d] eqn:En, (Z.to_int m) as [d'|d'] eqn:Em; simpl; strn; intros E.
  - apply uint_code in E as [-> ->]; [|done|done]. split; [apply to_int_inj; congruence|done].
  - apply uint_not_minus in E as ->. by apply to_int_digits in En.
  - symmetry in E. apply uint_not_minus in E as ->. by apply to_int_digits in Em.
  - simplify_eq. apply uint_code in E as [-> ->]; [|done|done]. split; [apply to_int_inj; congruence|done].
Qed.

Lemma fmtT_code b c s t : fmtT b +:+ s = fmtT c +:+ t -> b = c /\ s = t.
Proof. destruct b, c; simpl; strn; intros; by simplify_eq. Qed.

Lemma lenPrefixed_code x y s t : lenPrefixed x +:+ s = lenPrefixed y +:+ t -> x = y /\ s = t.
Proof.
  unfold lenPrefixed. strn. intros E. apply fmtD_code in E as [Hl E]; [|set_solver|set_solver].
  simplify_eq. by apply app_code.
Qed.

(** A text up to the first occurrence of a character. *)
Fixpoint free (c : ascii) (s : string) : bool :=
  match s with EmptyString => true | String c' s => negb (bool_decide (c' = c)) && free c s end.

Lemma free_code c x y s t : free c x -> free c y -> x +:+ String c s = y +:+ String c t -> x = y /\ s = t.
Proof.
  revert y. induction x as [|a x IH]; intros [|b y] Hx Hy; simpl in *; strn; intros E; simplify_eq; [done|..].
  - by rewrite bool_decide_eq_true_2 in Hy.
  - by rewrite bool_decide_eq_true_2 in Hx.
  - apply andb_True in Hx as [_ Hx]. apply andb_True in Hy as [_ Hy]. destruct (IH y) as [-> ->]; auto.
Qed.

(** A text that does not close a list or a map. *)
Definition opens (s : string) : Prop :=
  match s with EmptyString => False | String c _ => c <> "]"%char /\ c <> "}"%char end.

Lemma opens_app s t : opens s -> opens (s +:+ t).
Proof. by destruct s. Qed.

Lemma fmtD_opens n s : opens (fmtD n +:+ String ":" s).
Proof. unfold fmtD. destruct (Z.to_int n) as [[]|[]]; simpl; strn; done. Qed.

Lemma lenPrefixed_opens x : opens (lenPrefixed x).
Proof. unfold lenPrefixed. strn. apply fmtD_opens. Qed.

Lemma writeItems_cons x l : writeItems (x :: l) = x +:+ String "," (writeItems l).
Proof. unfold writeItems, writeAll. csimpl. by strn. Qed.

(** A sequence of items up to its closing character, given that the items
    themselves decode. *)
Lemma items_code {A} (f : A -> string) (R : A -> A -> Prop) (c : ascii) l1 l2 s t :
  c = "]"%char \/ c = "}"%char -> (forall x, opens (f x)) ->
  Forall (fun x => forall y s t, y ∈ l2 -> f x +:+ String "," s = f y +:+ String "," t -> R x y /\ s = t) l1 ->
  writeItems (f <$> l1) +:+ String c s = writeItems (f <$> l2) +:+ String c t -> Forall2 R l1 l2 /\ s = t.
Proof.
  intros Hc Ho. revert l2. induction l1 as [|x l1 IH]; intros [|y l2] Hf; csimpl; rewrite ?writeItems_cons.
  - change (writeItems []) with "". strn. intros E. by simplify_eq.
  - change (writeItems []) with "". strn. intros E. exfalso. specialize (Ho y). destruct (f y); [done|]. strn. simplify_eq.
    destruct Ho, Hc; naive_solver.
  - change (writeItems []) with "". strn. intros E. exfalso. specialize (Ho x). destruct (f x); [done|]. strn. simplify_eq.
    destruct Ho, Hc; naive_solver.
  - strn. intros E. apply Forall_cons in Hf as [Hx Hf]. apply Hx in E as [HR E]; [|by left].
    destruct (IH l2) as [HF ->]; [|done|by split; [constructor|]].
    eapply Forall_impl; [exact Hf|]. intros z Hz w s' t' Hw. apply Hz. by right.
Qed.

Lemma strings_code (c : ascii) l1 l2 s t :
  c = "]"%char \/ c = "}"%char ->
  writeItems (lenPrefixed <$> l1) +:+ String c s = writeItems (lenPrefixed <$> l2) +:+ String c t -> l1 = l2 /\ s = t.
Proof.
  intros Hc E. apply (items_code lenPrefixed eq) in E as [HF ->]; [|done|apply lenPrefixed_opens|].
  - split; [by apply list_eq_Forall2|done].
  - apply Forall_forall. intros x _ y s' t' _ E'. apply lenPrefixed_code in E' as [-> E']. by simplify_eq.
Qed.

(** *** Sorting *)

Lemma insertKey_fmap {A B} (f : A -> B) k x l :
  insertKey k (f x) ((fun e => (e.1, f e.2)) <$> l) = (fun e => (e.1, f e.2)) <$> insertKey k x l.
Proof. induction l as [|[k' y] l IH]; [done|]. csimpl. destruct (String.leb k k'); [done|]. csimpl. by rewrite IH. Qed.

Lemma sortByKey_fmap {A B} (f : A -> B) l :
  sortByKey ((fun e => (e.1, f e.2)) <$> l) = (fun e => (e.1, f e.2)) <$> sortByKey l.
Proof. induction l as [|[k x] l IH]; [done|]. csimpl. by rewrite IH, insertKey_fmap. Qed.

Lemma insertKey_perm {A} k (x : A) l : insertKey k x l ≡ₚ (k, x) :: l.
Proof.
  induction l as [|[k' y] l IH]; [done|]. simpl. destruct (String.leb k k'); [done|].
  rewrite IH. apply Permutation_swap.
Qed.

Lemma sortByKey_perm {A} (l : list (string * A)) : sortByKey l ≡ₚ l.
Proof. induction l as [|[k x] l IH]; [done|]. simpl. by rewrite insertKey_perm, IH. Qed.

Lemma insertKey_comm {A} k k' (x y : A) l :
  k <> k' -> insertKey k x (insertKey k' y l) = insertKey k' y (insertKey k x l).
Proof.
  intros Hk. assert (Ht : String.leb k k' = true /\ String.leb k' k = false \/ String.leb k k' = false /\ String.leb k' k = true).
  { destruct (String.leb k k') eqn:E1, (String.leb k' k) eqn:E2; auto.
    - exfalso. by apply Hk, String.leb_antisym.
    - destruct (String.leb_total k k'); congruence. }
  induction l as [|[j z] l IH]; simpl.
  - destruct Ht as [[-> ->]|[-> ->]]; done.
  - destruct (String.leb k' j) eqn:E1, (String.leb k j) eqn:E2; simpl.
    + destruct Ht as [[-> ->]|[-> ->]]; simpl; by rewrite ?E1, ?E2.
    + rewrite E1. destruct (String.leb k k') eqn:E; [by rewrite (leb_trans k k' j) in E2|]. by rewrite E2.
    + rewrite E2. destruct (String.leb k' k) eqn:E; [by rewrite (leb_trans k' k j) in E1|]. by rewrite E1.
    + by rewrite E1, E2, IH.
Qed.

(** The order in which a map is enumerated does not matter. *)
Lemma sortByKey_unique {A} (l1 l2 : list (string * A)) : l1 ≡ₚ l2 -> NoDup l1.*1 -> sortByKey l1 = sortByKey l2.
Proof.
  induction 1 as [|[k x] l1 l2 Hp IH|[k x] [k' y] l|l1 l2 l3 H1 IH1 H2 IH2]; csimpl; intros Hn.
  - done.
  - apply NoDup_cons in Hn as [_ Hn]. by rewrite IH.
  - apply insertKey_comm. apply NoDup_cons in Hn as [Hn _]. set_solver.
  - rewrite IH1 by done. apply IH2. by rewrite <- H1.
Qed.

(** *** Filter values *)

(** The values whose text is unambiguous: a float's text has no comma, an
    operator's no colon, and no value is of a type the switch does not name. *)
Fixpoint plain (v : FilterValue) : bool :=
  match v with
  | FFloat g => free "," g
  | FObject m => forallb (fun e => plain e.2) m
  | FList l | FMultiClause l => forallb plain l
  | FClause op l => free ":" op && forallb plain l
  | FOther _ _ => false
  | _ => true
  end.

(** A value with the entries of its maps in key order. *)
Fixpoint norm (v : FilterValue) : FilterValue :=
  match v with
  | FObject m => FObject (sortByKey ((fun e => (e.1, norm e.2)) <$> m))
  | FList l => FList (norm <$> l)
  | FMultiClause l => FMultiClause (norm <$> l)
  | FClause op l => FClause op (norm <$> l)
  | _ => v
  end.

Section ValueInd.
Context (P : FilterValue -> Prop).
Context (Hleaf : forall v, match v with FObject _ | FList _ | FMultiClause _ | FClause _ _ => False | _ => True end -> P v).
Context (Hmap : forall m, Forall (fun e => P e.2) m -> P (FObject m)).
Context (Hlist : forall l, Forall P l -> P (FList l)).
Context (Hmulti : forall l, Forall P l -> P (FMultiClause l)).
Context (Hclause : forall op l, Forall P l -> P (FClause op l)).

Fixpoint FilterValue_nested_ind (v : FilterValue) : P v.
Proof.
  assert (Hall : forall l, (forall x, P x) -> Forall P l) by (intros; by apply Forall_true).
  destruct v as [| | | | | |m|l| |l|op l| | |]; try (by apply Hleaf).
  - apply Hmap. induction m as [|e m IH]; constructor; [apply FilterValue_nested_ind|exact IH].
  - apply Hlist. induction l as [|e l IH]; constructor; [apply FilterValue_nested_ind|exact IH].
  - apply Hmulti. induction l as [|e l IH]; constructor; [apply FilterValue_nested_ind|exact IH].
  - apply Hclause. induction l as [|e l IH]; constructor; [apply FilterValue_nested_ind|exact IH].
Defined.

End ValueInd.

Lemma canonicalize_opens v : opens (canonicalizeFilterValue v).
Proof. destruct v; simpl; unfold writeMap; strn; done. Qed.

(** The value decodes before a comma. *)
Definition decodes (v : FilterValue) : Prop :=
  forall w s t, plain v -> plain w ->
  canonicalizeFilterValue v +:+ String "," s = canonicalizeFilterValue w +:+ String "," t -> norm v = norm w /\ s = t.

Lemma values_code l1 l2 s t :
  Forall decodes l1 -> forallb plain l1 -> forallb plain l2 ->
  writeItems (canonicalizeFilterValue <$> l1) +:+ String "]" s = writeItems (canonicalizeFilterValue <$> l2) +:+ String "]" t ->
  norm <$> l1 = norm <$> l2 /\ s = t.
Proof.
  intros Hd H1 H2 E. apply (items_code canonicalizeFilterValue (fun x y => norm x = norm y)) in E as [HF ->];
    [|by left|apply canonicalize_opens|].
  - split; [|done]. by apply list_eq_Forall2, Forall2_fmap.
  - apply forallb_True in H1, H2. apply Forall_forall. intros x Hx y s' t' Hy.
    apply (proj1 (Forall_forall _ _) Hd x Hx); [by apply (proj1 (Forall_forall _ _) H1)|by apply (proj1 (Forall_forall _ _) H2)].
Qed.

(** A map decodes whatever follows it. *)
Lemma map_code m1 m2 s t :
  Forall (fun e => decodes e.2) m1 -> forallb (fun e => plain e.2) m1 -> forallb (fun e => plain e.2) m2 ->
  canonicalizeFilterValue (FObject m1) +:+ s = canonicalizeFilterValue (FObject m2) +:+ t ->
  norm (FObject m1) = norm (FObject m2) /\ s = t.
Proof.
  intros Hd H1 H2. simpl. unfold writeMap. rewrite !sortByKey_fmap, !length_fmap, <- !list_fmap_compose.
  strn. intros E. simplify_eq. apply fmtD_code in E as [_ E]; [|set_solver|set_solver]. simplify_eq.
  set (f := (fun e : string * string => _) ∘ (fun e : string * FilterValue => _)) in E.
  apply (items_code f (fun x y => x.1 = y.1 /\ norm x.2 = norm y.2)) in E as [HF ->]; [|by right| |].
  - split; [|done]. f_equal. apply list_eq_Forall2, Forall2_fmap. eapply Forall2_impl; [exact HF|].
    intros x y [-> ->]. done.
  - intros x. unfold f. simpl. apply opens_app, lenPrefixed_opens.
  - apply forallb_True in H1, H2. apply Forall_forall. intros x Hx y s' t' Hy. unfold f. simpl. strn.
    rewrite sortByKey_perm in Hx, Hy. intros E2. apply lenPrefixed_code in E2 as [Hk E2]. simplify_eq.
    apply (proj1 (Forall_forall _ _) Hd x Hx) in E2 as [Hn ->];
      [done|by apply (proj1 (Forall_forall _ _) H1)|by apply (proj1 (Forall_forall _ _) H2)].
Qed.

Lemma canonicalize_decodes v : decodes v.
Proof.
  induction v as [v Hv|m IH|l IH|l IH|op l IH] using FilterValue_nested_ind; intros w s t Hp Hq.
  - destruct v as [|b|x|n|n|g| | |l| | |x k ci ng|l ci ng|]; try done; destruct w as [|b'|x'|n'|n'|g'| | |l'| | |x' k' ci' ng'|l' ci' ng'|];
      simpl in *; try done; unfold writeMap; strn; intros E; simplify_eq; try done.
    + apply fmtT_code in E as [-> E]. by simplify_eq.
    + apply lenPrefixed_code in E as [-> E]. by simplify_eq.
    + apply fmtD_code in E as [-> E]; [|set_solver..]. by simplify_eq.
    + apply fmtD_code in E as [-> E]; [|set_solver..]. by simplify_eq.
    + apply free_code in E as [-> E]; [|done..]. by simplify_eq.
    + apply fmtD_code in E as [_ E]; [|set_solver..]. simplify_eq.
      apply strings_code in E as [-> E]; [|by left]. by simplify_eq.
    + apply fmtD_code in E as [-> E]; [|set_solver..]. simplify_eq. apply fmtT_code in E as [-> E]. simplify_eq.
      apply fmtT_code in E as [-> E]. simplify_eq. apply lenPrefixed_code in E as [-> E]. by simplify_eq.
    + apply fmtT_code in E as [-> E]. simplify_eq. apply fmtT_code in E as [-> E]. simplify_eq.
      apply fmtD_code in E as [_ E]; [|set_solver..]. simplify_eq.
      apply strings_code in E as [-> E]; [|by left]. by simplify_eq.
  - destruct w as [| | | | | |m'| | | | | | |]; try (simpl; unfold writeMap; strn; by intros E; simplify_eq).
    intros E. apply map_code in E as [Hn E]; [|done..]. split; [exact Hn|by injection E].
  - destruct w as [| | | | | | |l'| | | | | |]; simpl; unfold writeMap; strn; intros E; simplify_eq.
    apply fmtD_code in E as [_ E]; [|set_solver..]. simplify_eq. apply values_code in E as [-> E]; [|done..]. by simplify_eq.
  - destruct w as [| | | | | | | | |l'| | | |]; simpl; unfold writeMap; strn; intros E; simplify_eq.
    apply values_code in E as [-> E]; [|done..]. by simplify_eq.
  - destruct w as [| | | | | | | | | |op' l'| | |]; simpl in *; unfold writeMap; strn; intros E; simplify_eq.
    apply andb_True in Hp as [Hp Hl], Hq as [Hq Hl']. apply free_code in E as [-> E]; [|done..].
    apply fmtD_code in E as [_ E]; [|set_solver..]. simplify_eq. apply values_code in E as [-> E]; [|done..]. by simplify_eq.
Qed.

Abbreviation keySorted := (Sorted (fun a b => String.leb a.1 b.1 = true)).

Lemma insertKey_head {A} k k' (x y : A) l : String.leb k' k = true -> HdRel (fun a b => String.leb a.1 b.1 = true) (k', y) l ->
  HdRel (fun a b => String.leb a.1 b.1 = true) (k', y) (insertKey k x l).
Proof.
  intros Hk Hl. destruct l as [|[j z] l]; simpl; [by constructor|]. destruct (String.leb k j); [by constructor|].
  inversion Hl. by constructor.
Qed.

Lemma sortByKey_sorted {A} (l : list (string * A)) : keySorted (sortByKey l).
Proof.
  induction l as [|[k x] l IH]; [constructor|]. simpl. induction IH as [|[j z] l' Hs IH Hd]; simpl; [by repeat constructor|].
  destruct (String.leb k j) eqn:E; [by repeat constructor|]. constructor; [done|]. apply insertKey_head; [|done].
  destruct (String.leb_total k j); congruence.
Qed.

Lemma sortByKey_id {A} (l : list (string * A)) : keySorted l -> sortByKey l = l.
Proof.
  induction 1 as [|[k x] l Hs IH Hd]; [done|]. simpl. rewrite IH. inversion Hd as [|[j z] l' Hl]; subst; simpl in *; [done|].
  by rewrite Hl.
Qed.

Lemma writeMap_sorted l l' : sortByKey l = sortByKey l' -> writeMap l = writeMap l'.
Proof.
  intros E. unfold writeMap. rewrite E. assert (Hl : length l = length l'); [|by rewrite Hl].
  by rewrite <- (Permutation_length (sortByKey_perm l)), E, (Permutation_length (sortByKey_perm l')).
Qed.

(** The stream depends on a value up to the order of map entries only. *)
Lemma canonicalize_norm v : canonicalizeFilterValue (norm v) = canonicalizeFilterValue v.
Proof.
  induction v as [v Hv|m IH|l IH|l IH|op l IH] using FilterValue_nested_ind; simpl;
    try (apply Forall_fmap_ext_1 in IH; rewrite ?length_fmap, <- list_fmap_compose; unfold compose; by rewrite IH).
  - by destruct v.
  - apply writeMap_sorted. rewrite sortByKey_fmap, (sortByKey_id (sortByKey _)) by apply sortByKey_sorted.
    rewrite <- sortByKey_fmap, <- list_fmap_compose. f_equal. apply Forall_fmap_ext_1. eapply Forall_impl; [exact IH|].
    intros [k x] Hx. simpl in *. by rewrite Hx.
Qed.

(** *** The listing context *)

Lemma orders_code o1 o2 s t :
  writeAll (writeOrder <$> o1) +:+ String "|" s = writeAll (writeOrder <$> o2) +:+ String "|" t -> o1 = o2 /\ s = t.
Proof.
  revert o2. induction o1 as [|[f1 d1] o1 IH]; intros [|[f2 d2] o2]; unfold writeAll, writeOrder; csimpl; strn; intros E; simplify_eq; [done|].
  apply lenPrefixed_code in E as [-> E]. simplify_eq. apply fmtT_code in E as [-> E].
  destruct (IH _ E) as [-> ->]. done.
Qed.

Definition plainFilter (f : gmap string FilterValue) : Prop := map_Forall (fun _ v => plain v = true) f.

Lemma plainFilter_entries f : plainFilter f -> forallb (fun e => plain e.2) (map_to_list f).
Proof.
  intros Hp. apply forallb_True, Forall_forall. intros [k v] Hin. apply elem_of_map_to_list in Hin. simpl.
  by rewrite (Hp k v Hin).
Qed.

Lemma normFilter_entries (f : gmap string FilterValue) : (fun e => (e.1, norm e.2)) <$> map_to_list f = map_to_list (norm <$> f).
Proof. rewrite map_to_list_fmap. apply Forall_fmap_ext_1, Forall_true. by intros []. Qed.

(** Equal entries in key order are equal filters. *)
Lemma normFilter_inj (f g : gmap string FilterValue) : norm (FObject (map_to_list f)) = norm (FObject (map_to_list g)) <-> norm <$> f = norm <$> g.
Proof.
  simpl. rewrite !normFilter_entries. split; [|by intros ->]. intros [= E].
  apply map_to_list_inj. by rewrite <- (sortByKey_perm (map_to_list (norm <$> f))), E, sortByKey_perm.
Qed.

Lemma orders_noDigit o s : noDigit (writeAll (writeOrder <$> o) +:+ String "|" s).
Proof. destruct o; unfold writeAll, writeOrder; csimpl; strn; set_solver. Qed.

Lemma contextStream_code f1 o1 s1 a1 f2 o2 s2 a2 :
  plainFilter f1 -> plainFilter f2 ->
  contextStream f1 o1 s1 a1 = contextStream f2 o2 s2 a2 <->
  norm <$> f1 = norm <$> f2 /\ o1 = o2 /\ s1 = s2 /\ a1 = a2.
Proof.
  intros H1 H2. unfold contextStream, canonicalizeFilterMap. split.
  - intros E. apply (app_code _ _ _ _ eq_refl) in E as [_ E]. apply map_code in E as [Hn E];
      [|apply Forall_forall; intros; apply canonicalize_decodes|by apply plainFilter_entries..].
    apply normFilter_inj in Hn. apply (app_code _ _ _ _ eq_refl) in E as [_ E]. strn.
    apply fmtD_code in E as [_ E]; [|apply orders_noDigit..].
    apply orders_code in E as [-> E]. injection E as E. apply lenPrefixed_code in E as [-> E]. injection E as E.
    split_and!; [done..|]. by destruct a1, a2.
  - intros (Hn & -> & -> & ->). apply normFilter_inj in Hn.
    by rewrite <- (canonicalize_norm (FObject (map_to_list f1))), Hn, canonicalize_norm.
Qed.

Section HashClaims.
Context (sha256hex : string -> string).

(** C26: the hash a cursor carries identifies its listing context.  For filters
    whose texts are unambiguous, two listing contexts that agree (filters equal up to
    the order of nested map entries, the same ordering, search and archive flag)
    have the same hash; and two contexts with the same hash agree, or exhibit two
    streams that collide under SHA-256. *)
Theorem cursor_hash_identifies_its_context f1 o1 s1 a1 f2 o2 s2 a2 :
  (forall x, sha256hex x <> "") -> plainFilter f1 -> plainFilter f2 ->
  (norm <$> f1 = norm <$> f2 /\ o1 = o2 /\ s1 = s2 /\ a1 = a2 ->
   HashContext sha256hex f1 o1 s1 a1 = HashContext sha256hex f2 o2 s2 a2) /\
  (HashContext sha256hex f1 o1 s1 a1 = HashContext sha256hex f2 o2 s2 a2 ->
   norm <$> f1 = norm <$> f2 /\ o1 = o2 /\ s1 = s2 /\ a1 = a2 \/
   exists x y, x <> y /\ sha256hex x = sha256hex y).
Proof.
  intros Hsha H1 H2. pose proof (contextStream_code f1 o1 s1 a1 f2 o2 s2 a2 H1 H2) as Hs.
  assert (Hdef : forall (f : gmap string FilterValue) (o : list OrderByField) s a,
    Nat.eqb (size f) 0 && Nat.eqb (length o) 0 && String.eqb s "" && negb a = true ->
    f = ∅ /\ o = [] /\ s = "" /\ a = false).
  { intros f o s a Hd. repeat (apply andb_prop in Hd as [Hd ?]). apply Nat.eqb_eq in Hd. apply map_size_empty_iff in Hd.
    destruct a; [done|]. split_and!; [done| |by apply String.eqb_eq|done]. by apply nil_length_inv, Nat.eqb_eq. }
  unfold HashContext. split.
  - intros (Hn & -> & -> & ->). assert (Hz : size f1 = size f2).
    { rewrite <- (map_size_fmap norm f1), <- (map_size_fmap norm f2). by rewrite Hn. }
    rewrite Hz. case_match; [done|]. f_equal. by apply Hs.
  - destruct (_ && _ && _ && _) eqn:E1 in |- *; destruct (_ && _ && _ && _) eqn:E2 in |- *; intros Hh.
    + apply Hdef in E1 as (-> & -> & -> & ->), E2 as (-> & -> & -> & ->). by left.
    + symmetry in Hh. by apply Hsha in Hh.
    + by apply Hsha in Hh.
    + destruct (decide (contextStream f1 o1 s1 a1 = contextStream f2 o2 s2 a2)) as [E|E]; [left; by apply Hs|].
      right. eauto.
Qed.

End HashClaims.

(** Two filters that differ in the order of a nested map, and an injective hash. *)
Definition sampleFilter (swap : bool) : gmap string FilterValue :=
  {["A" := FObject (if swap then [("y", FNil); ("x", FInt 1)] else [("x", FInt 1); ("y", FNil)])]}.

Lemma cursor_hash_identifies_its_context_witness :
  HashContext (String "h") (sampleFilter false) [] "q" false = HashContext (String "h") (sampleFilter true) [] "q" false /\
  HashContext (String "h") (sampleFilter false) [] "q" false <> HashContext (String "h") (sampleFilter false) [] "r" false.
Proof.
  assert (Hp : forall b, plainFilter (sampleFilter b))
    by (intros b k v; unfold sampleFilter; rewrite lookup_singleton_Some; intros [_ <-]; by destruct b).
  split.
  - destruct (cursor_hash_identifies_its_context (String "h") (sampleFilter false) [] "q" false (sampleFilter true) [] "q" false)
      as [Hs _]; [done|apply Hp|apply Hp|]. apply Hs. split_and!; reflexivity.
  - intros E. destruct (cursor_hash_identifies_its_context (String "h") (sampleFilter false) [] "q" false (sampleFilter false) [] "r" false)
      as [_ Hs]; [done|apply Hp|apply Hp|]. destruct (Hs E) as [(_ & _ & Hq & _)|(x & y & Hne & Hxy)]; [done|].
    by injection Hxy as Hxy.
Defined.
