(* ===== verification/QuerySchema.v ===== *)
(** * The query grammar of the read side

    [web/queryschema]: what a Request DTO declares of its query string
    ([request.go]), the reserved controls and their gate ([gate.go]), the filter
    operators and the coercion of their operands ([operators.go]), the projection a
    Response DTO admits ([projection.go]) and the assembly of a decoded request into
    the criteria of a read ([criteria.go]); then the decoding of a query string,
    [decodeQuery] of [web/handle_query.go], and the cursor of
    [application/queries/cursor.go].

    A reflected struct type is the inductive [DtoType].  The parsers of
    [time], [strconv] (floats) and [uuid] and the codecs of a cursor are
    parameters. *)

From S2P Require Import Prelude Naming GoStrings Notification Queries.
From stdpp Require Import base gmap strings list fin_maps sorting.
From Stdlib Require Import Ascii ZArith Lia.

Open Scope string_scope.
Open Scope go_scope.
Open Scope list_scope.

(** ** Reflected types *)

(** The kinds the code tells apart. *)
Inductive GoKind :=
| KindString | KindInt | KindUint | KindFloat | KindBool | KindStruct | KindSlice | KindPointer | KindMap | KindArray
| KindOther.

#[export] Instance GoKind_eq_dec : EqDecision GoKind.
Proof. solve_decision. Defined.

(** A struct field without its type; a tag read with [Lookup] is an option, one
    read with [Get] is empty when absent. *)
Record DtoField := mkDtoField {
  df_Name : string;
  df_Exported : bool;
  df_Anonymous : bool;
  df_query : string;
  df_filter : string;
  df_sort : option string;
  df_json : string;
  df_computed : option string
}.

(** [DTime] and [DID] are structs without exported fields, [DUUID] is an array,
    [DDuration] an int64; [DScalar] is any other type of its kind. *)
Inductive DtoType :=
| DPointer (elem : DtoType)
| DSlice (elem : DtoType)
| DStruct (fields : list (DtoField * DtoType))
| DTime
| DID
| DUUID
| DDuration
| DScalar (k : GoKind).

Definition kindOf (t : DtoType) : GoKind :=
  match t with
  | DPointer _ => KindPointer
  | DSlice _ => KindSlice
  | DStruct _ | DTime | DID => KindStruct
  | DUUID => KindArray
  | DDuration => KindInt
  | DScalar k => k
  end.

(** [if t.Kind() == reflect.Pointer { t = t.Elem() }] and the loop of it. *)
Definition elemOnce (t : DtoType) : DtoType :=
  match t with DPointer e => e | _ => t end.

Fixpoint derefType (t : DtoType) : DtoType :=
  match t with DPointer e => derefType e | _ => t end.

Definition joinPath (prefix segment : string) : string :=
  if String.eqb prefix "" then segment
  else if String.eqb segment "" then prefix
  else prefix +:+ "." +:+ segment.

(** A key of a Go map of flags; an absent one is false. *)
Definition flag (m : gmap string bool) (key : string) : bool := default false (m !! key).

(** ** Controls ([gate.go]) *)

Definition KeyFirst := "first".
Definition KeyLast := "last".
Definition KeyAfter := "after".
Definition KeyBefore := "before".
Definition KeyOrderBy := "orderBy".
Definition KeyFields := "fields".
Definition KeySearch := "search".
Definition KeyIncludeArchived := "includeArchived".
Definition KeyOnlyTotal := "onlyTotal".

Definition controlKeyList : list string :=
  [KeyFirst; KeyLast; KeyAfter; KeyBefore; KeyOrderBy; KeyFields; KeySearch; KeyIncludeArchived; KeyOnlyTotal].

Definition ControlKeys (key : string) : bool := existsb (String.eqb key) controlKeyList.

Definition ParseControlBool (val : string) : option bool :=
  if String.eqb val "true" then Some true
  else if String.eqb val "false" then Some false
  else None.

Record Controls := mkControls {
  ct_First : option Z;
  ct_Last : option Z;
  ct_After : bool;
  ct_Before : bool;
  ct_OrderBy : bool;
  ct_Fields : bool;
  ct_Search : bool;
  ct_IncludeArchived : bool;
  ct_OnlyTotal : option bool
}.

Inductive ViolationKind :=
| ViolationNotDeclared | ViolationDirection | ViolationNonPositiveSize | ViolationOnlyTotalConflict.

#[export] Instance ViolationKind_eq_dec : EqDecision ViolationKind.
Proof. solve_decision. Defined.

Record ControlViolation := mkControlViolation { cv_Kind : ViolationKind; cv_Key : string }.

Definition ControlViolationField (v : ControlViolation) : string :=
  if bool_decide (cv_Kind v = ViolationOnlyTotalConflict) then KeyOnlyTotal +:+ "[" +:+ cv_Key v +:+ "]"
  else cv_Key v.

Definition present {A} (o : option A) : bool := bool_decide (is_Some o).

(** The keys that are present among [l], as violations of a kind. *)
Definition violationsOf (kind : ViolationKind) (l : list (string * bool)) : list ControlViolation :=
  (fun p => mkControlViolation kind p.1) <$> List.filter snd l.

Definition undeclared (reserved : gmap string bool) (c : Controls) (natural : gmap string bool) : list ControlViolation :=
  violationsOf ViolationNotDeclared
    ((fun p => (p.1, p.2 && negb (flag natural p.1) && negb (flag reserved p.1))) <$>
      [(KeyFirst, present (ct_First c)); (KeyLast, present (ct_Last c)); (KeyAfter, ct_After c); (KeyBefore, ct_Before c);
       (KeyOrderBy, ct_OrderBy c); (KeyFields, ct_Fields c); (KeySearch, ct_Search c);
       (KeyIncludeArchived, ct_IncludeArchived c); (KeyOnlyTotal, present (ct_OnlyTotal c))]).

Definition nonPositive (size : option Z) : bool :=
  match size with Some n => Z.leb n 0 | None => false end.

Definition directional (c : Controls) : list ControlViolation :=
  violationsOf ViolationNonPositiveSize [(KeyFirst, nonPositive (ct_First c)); (KeyLast, nonPositive (ct_Last c))] ++
  (let forward := present (ct_First c) || ct_After c in
   let backward := present (ct_Last c) || ct_Before c in
   if forward && backward
   then [mkControlViolation ViolationDirection (if present (ct_Last c) then KeyLast else KeyBefore)] else []).

Definition onlyTotalConflicts (c : Controls) : list ControlViolation :=
  if default false (ct_OnlyTotal c)
  then violationsOf ViolationOnlyTotalConflict
         [(KeyFields, ct_Fields c); (KeyOrderBy, ct_OrderBy c); (KeyFirst, present (ct_First c));
          (KeyLast, present (ct_Last c)); (KeyAfter, ct_After c); (KeyBefore, ct_Before c)]
  else [].

Definition ValidateControls (reserved : gmap string bool) (c : Controls) (natural : gmap string bool) : list ControlViolation :=
  undeclared reserved c natural ++ directional c ++ onlyTotalConflicts c.

(** ** The Request DTO ([request.go]) *)

Inductive LeafKind := LeafFilter | LeafOrdering | LeafControl | LeafGroup.

#[export] Instance LeafKind_eq_dec : EqDecision LeafKind.
Proof. solve_decision. Defined.

Record SortSpec := mkSortSpec { so_GoPath : string; so_Asc : bool; so_Desc : bool }.

Definition Allows (s : SortSpec) (desc : bool) : bool := if desc then so_Desc s else so_Asc s.

(** Ops and Sort are nil when the tag is absent. *)
Record requestField := mkRequestField {
  rf_WirePath : string;
  rf_GoPath : string;
  rf_Field : DtoField;
  rf_Type : DtoType;
  rf_Ops : option (list string);
  rf_Sort : option (list string);
  rf_Group : bool;
  rf_TopLevel : bool
}.

Record RequestLeaf := mkRequestLeaf {
  rl_Kind : LeafKind;
  rl_WirePath : string;
  rl_GoPath : string;
  rl_Field : DtoField;
  rl_Ops : option (list string);
  rl_Sort : option SortSpec;
  rl_TopLevel : bool
}.

Definition TakesValue (l : RequestLeaf) : bool :=
  bool_decide (rl_Kind l = LeafFilter) || bool_decide (rl_Kind l = LeafControl).

Record FilterSpec := mkFilterSpec {
  fs_Ops : gmap string bool;
  fs_DocPath : string;
  fs_GoKind : GoKind;
  fs_GoType : option DtoType
}.

Record RequestSchema := mkRequestSchema {
  rs_Filters : gmap string FilterSpec;
  rs_Reserved : gmap string bool;
  rs_Sortable : gmap string SortSpec;
  rs_Leaves : list RequestLeaf
}.

Definition splitOps (tag : string) : list string := splitList tag.

Definition splitSort (f : DtoField) : option (list string) := splitList <$> df_sort f.

(** The loop of [sortSpecOf] from the directions seen so far. *)
Fixpoint sortDirs (spec : SortSpec) (dirs : list string) : option SortSpec :=
  match dirs with
  | [] => Some spec
  | d :: rest =>
      if String.eqb d "asc" then
        if so_Asc spec then None else sortDirs (mkSortSpec (so_GoPath spec) true (so_Desc spec)) rest
      else if String.eqb d "desc" then
        if so_Desc spec then None else sortDirs (mkSortSpec (so_GoPath spec) (so_Asc spec) true) rest
      else None
  end.

Definition sortSpecOf (goPath : string) (dirs : list string) : option SortSpec :=
  match dirs with
  | [] => None
  | _ => sortDirs (mkSortSpec goPath false false) dirs
  end.

(** The fields of one level in declaration order.  A group's type is dereferenced
    where it is found, as is the root's in [walkRequest]. *)
Fixpoint walkRequestLevel (t : DtoType) (wirePrefix docPrefix : string) (topLevel : bool) : list requestField :=
  match t with
  | DStruct fields =>
      (fix level (fields : list (DtoField * DtoType)) : list requestField :=
         match fields with
         | [] => []
         | (f, ty) :: rest =>
             let wirePath := joinPath wirePrefix (df_query f) in
             let goPath := joinPath docPrefix (df_Name f) in
             let leaf := fun ops group => mkRequestField wirePath goPath f ty ops (splitSort f) group topLevel in
             (if negb (df_Exported f) || String.eqb (df_query f) "" then []
              else if negb (String.eqb (df_filter f) "") then [leaf (Some (splitOps (df_filter f))) false]
              else if bool_decide (kindOf (elemOnce ty) = KindStruct) then
                leaf None true ::
                match ty with
                | DPointer e => walkRequestLevel e wirePath goPath false
                | _ => walkRequestLevel ty wirePath goPath false
                end
              else [leaf None false]) ++ level rest
         end) fields
  | _ => []
  end.

Definition walkRequest (t : DtoType) : list requestField := walkRequestLevel (elemOnce (elemOnce t)) "" "" true.

Definition sortableWirePaths (s : RequestSchema) : list string :=
  fst <$> sortByKey (map_to_list (rs_Sortable s)).

(** What makes the pair dead, with the diagnostic it is reported by. *)
Definition validateOrderingPair (s : RequestSchema) : string :=
  if flag (rs_Reserved s) KeyOrderBy && Nat.eqb (size (rs_Sortable s)) 0 then "the ordering switch without its vocabulary"
  else if negb (flag (rs_Reserved s) KeyOrderBy) && negb (Nat.eqb (size (rs_Sortable s)) 0)
  then "the ordering vocabulary without its switch: " +:+ joinStr ", " (sortableWirePaths s)
  else "".

Definition deadQueryTag (key : string) : string :=
  if ControlKeys key then "a reserved control inside an embed group" else "a query tag that opts nothing in".

(** The ordering half of a field: the vocabulary after it. *)
Definition declareSort (sortable : gmap string SortSpec) (leaf : requestField) : Outcome Empty_set (gmap string SortSpec) :=
  match rf_Sort leaf with
  | None => Ret sortable
  | Some dirs =>
      if rf_Group leaf then Panic "sort on an embed group"
      else if bool_decide (rf_Ops leaf = None) && ControlKeys (df_query (rf_Field leaf)) then Panic "sort on a reserved control"
      else match sortSpecOf (rf_GoPath leaf) dirs with
           | None => Panic "a sort entry must be asc or desc, listed at most once"
           | Some spec => Ret (<[rf_WirePath leaf := spec]> sortable)
           end
  end.

(** One field folded into the schema. *)
Definition declareLeaf (s : RequestSchema) (leaf : requestField) : Outcome Empty_set RequestSchema :=
  let key := df_query (rf_Field leaf) in
  let* sortable := declareSort (rs_Sortable s) leaf in
  let classified := fun kind => mkRequestLeaf kind (rf_WirePath leaf) (rf_GoPath leaf) (rf_Field leaf) (rf_Ops leaf)
                      (sortable !! rf_WirePath leaf) (rf_TopLevel leaf) in
  let add := fun filters reserved kind =>
    Ret (mkRequestSchema filters reserved sortable (rs_Leaves s ++ [classified kind])) in
  if rf_Group leaf then add (rs_Filters s) (rs_Reserved s) LeafGroup
  else match rf_Ops leaf with
       | Some ops =>
           let leafType := derefType (rf_Type leaf) in
           let spec := mkFilterSpec (foldl (fun m op => <[op := true]> m) ∅ ops) (rf_GoPath leaf) (kindOf leafType) (Some leafType) in
           add (<[rf_WirePath leaf := spec]> (rs_Filters s)) (rs_Reserved s) LeafFilter
       | None =>
           if bool_decide (is_Some (rf_Sort leaf)) then add (rs_Filters s) (rs_Reserved s) LeafOrdering
           else if rf_TopLevel leaf && ControlKeys key then add (rs_Filters s) (<[key := true]> (rs_Reserved s)) LeafControl
           else Panic (deadQueryTag key)
       end.

Fixpoint declareAll (s : RequestSchema) (leaves : list requestField) : Outcome Empty_set RequestSchema :=
  match leaves with
  | [] => Ret s
  | leaf :: rest => let* s' := declareLeaf s leaf in declareAll s' rest
  end.

Definition emptySchema : RequestSchema := mkRequestSchema ∅ ∅ ∅ [].

(** A DTO that declares something dead does not boot.  The memo of the code holds
    what this computes. *)
Definition ExtractRequestSchema (t : DtoType) : Outcome Empty_set RequestSchema :=
  let* s := declareAll emptySchema (walkRequest (elemOnce t)) in
  if String.eqb (validateOrderingPair s) "" then Ret s else Panic (validateOrderingPair s).

(** ** Operators ([operators.go]) *)

Definition OpEq := "eq".
Definition knownOps (op : string) : bool :=
  existsb (String.eqb op)
    ["eq"; "ne"; "in"; "nin"; "gte"; "lte"; "gt"; "lt"; "startswith"; "contains"; "ieq"; "ine"; "iin"; "inin";
     "istartswith"; "icontains"].

(** The wire path and the operator of a key, empty for none. *)
Definition ParseKeyAgainstSchema (key : string) (s : RequestSchema) : string * string :=
  if present (rs_Filters s !! key) then (key, "")
  else match beforeLast "." key, afterLast "." key with
       | Some wirePath, Some op =>
           if negb (knownOps op) then ("", "")
           else if present (rs_Filters s !! wirePath) then (wirePath, op) else ("", "")
       | _, _ => ("", "")
       end.

Definition OperatorTakesList (op : string) : bool := existsb (String.eqb op) ["in"; "nin"; "iin"; "inin"].

Record Violation := mkViolation {
  vi_Field : string;
  vi_Notification : option Notification;
  vi_Value : string;
  vi_Context : string
}.

Definition SchemaViolation (field : string) : Violation := mkViolation field None "" "".

Definition MalformedPathID (field value : string) : Violation :=
  mkViolation field (Some MalformedIDNotification) value "Request".

Definition UnknownPathIDAddress (field value : string) : Violation :=
  mkViolation field (Some UnknownIDAddressNotification) value "Request".

Definition ContextName (v : Violation) : string := if String.eqb (vi_Context v) "" then "Schema" else vi_Context v.

(** The notification a violation is rendered by. *)
Definition violationNotification (v : Violation) : Notification := default SchemaViolationNotification (vi_Notification v).

(** [strconv.ParseUint] in base 10. *)
Definition parseUint (s : string) : option Z :=
  match s with
  | EmptyString => None
  | _ => n ← atoiDigits s 0; if Z.ltb n (2 ^ 64) then Some n else None
  end.

(** Another clause for a field: the first stands alone, later ones are all kept. *)
Definition mergeClause (filter : gmap string FilterValue) (field : string) (clause : FilterValue) : gmap string FilterValue :=
  match filter !! field with
  | None => <[field := clause]> filter
  | Some (FMultiClause clauses) => <[field := FMultiClause (clauses ++ [clause])]> filter
  | Some existing => <[field := FMultiClause [existing; clause]]> filter
  end.

Definition TextPrefix : Z := 0.
Definition TextContains : Z := 1.
Definition TextExact : Z := 2.

Section Grammar.
(** [time.Parse] of RFC 3339 and the [%v] of its instant, [time.ParseDuration] in
    nanoseconds, [strconv.ParseFloat] and the [%g] of its number, and the uuid
    parser behind [domain.ID]. *)
Context (parseRFC3339 : string -> option string) (parseDuration : string -> option Z)
  (parseFloat : string -> option string) (isUUID : string -> bool).

Definition IsMalformedPathID (raw : string) : bool := negb (String.eqb raw "") && negb (isUUID raw).

(** The types a kind cannot name; [None] when the type is not one of them. *)
Definition coerceNamed (t : DtoType) (s : string) : option (option FilterValue) :=
  match t with
  | DTime => Some (FOther "time.Time" <$> parseRFC3339 s)
  | DDuration => Some (FInt <$> parseDuration s)
  | DID | DUUID =>
      Some (if String.eqb s "" then Some (FString s) else if isUUID s then Some (FString s) else None)
  | _ => None
  end.

(** The primitive shapes, and the passthrough. *)
Definition coerceKind (k : GoKind) (s : string) : option FilterValue :=
  match k with
  | KindString => Some (FString s)
  | KindInt => FInt <$> atoi s
  | KindUint => FUint <$> parseUint s
  | KindFloat => FFloat <$> parseFloat s
  | KindBool => FBool <$> ParseControlBool s
  | _ => Some (FString s)
  end.

(** The element of a list leaf, its pointers dereferenced. *)
Fixpoint coerceElem (t : DtoType) (s : string) : option FilterValue :=
  match t with
  | DPointer e => coerceElem e s
  | DSlice e => coerceElem e s
  | _ => default (coerceKind (kindOf t) s) (coerceNamed t s)
  end.

(** One operand as the type a leaf declares; [None] refuses it. *)
Definition coerceLeaf (s : string) (t : option DtoType) (k : GoKind) : option FilterValue :=
  match t with
  | Some (DSlice e) => coerceElem e s
  | Some t' => default (coerceKind k s) (coerceNamed t' s)
  | None => coerceKind k s
  end.

(** The operands of a list, or the first one that is refused. *)
Fixpoint coerceValues (values : list string) (spec : FilterSpec) : string + list FilterValue :=
  match values with
  | [] => inr []
  | v :: rest =>
      match coerceLeaf v (fs_GoType spec) (fs_GoKind spec) with
      | None => inl v
      | Some x => match coerceValues rest spec with inl bad => inl bad | inr items => inr (x :: items) end
      end
  end.

(** The clause of an operator: a refused operand, a clause, or none for an operator
    outside the vocabulary. *)
Definition clauseOf (spec : FilterSpec) (op : string) (value : string) (values : list string) : string + option FilterValue :=
  let scalar := fun wrap : FilterValue -> FilterValue =>
    match coerceLeaf value (fs_GoType spec) (fs_GoKind spec) with
    | None => inl value
    | Some x => inr (Some (wrap x))
    end in
  let compare := fun name => scalar (fun x => FClause name [x]) in
  let many := fun name =>
    match coerceValues values spec with
    | inl bad => inl bad
    | inr items => inr (Some (FClause name items))
    end in
  let text := fun kind ci neg => inr (Some (FTextMatch value kind ci neg)) in
  if String.eqb op "" || String.eqb op "eq" then scalar (fun x => x)
  else if String.eqb op "in" then many "in"
  else if String.eqb op "nin" then many "nin"
  else if String.eqb op "ne" then compare "ne"
  else if String.eqb op "gte" then compare "gte"
  else if String.eqb op "lte" then compare "lte"
  else if String.eqb op "gt" then compare "gt"
  else if String.eqb op "lt" then compare "lt"
  else if String.eqb op "startswith" then text TextPrefix false false
  else if String.eqb op "contains" then text TextContains false false
  else if String.eqb op "ieq" then text TextExact true false
  else if String.eqb op "ine" then text TextExact true true
  else if String.eqb op "istartswith" then text TextPrefix true false
  else if String.eqb op "icontains" then text TextContains true false
  else if String.eqb op "iin" then inr (Some (FTextMatchList values true false))
  else if String.eqb op "inin" then inr (Some (FTextMatchList values true true))
  else inr None.

(** The filter after one term, or the violation that stops it. *)
Definition ApplyFilterValues (filter : gmap string FilterValue) (spec : FilterSpec) (wireKey op : string)
  (values : list string) : Violation + gmap string FilterValue :=
  match values with
  | [] => inr filter
  | value :: _ =>
      match clauseOf spec op value values with
      | inl bad => inl (mkViolation wireKey (Some InvalidFilterValueNotification) bad "")
      | inr None => inr filter
      | inr (Some clause) => inr (mergeClause filter (fs_DocPath spec) clause)
      end
  end.

(** ** The Response DTO ([projection.go]) *)

Record ProjectionSchema := mkProjectionSchema {
  pr_Paths : gmap string string;
  pr_Computed : gmap string (list string)
}.

(** [None] for [json:"-"]. *)
Definition projectionWireName (f : DtoField) : option string :=
  if String.eqb (df_json f) "-" then None
  else let name := before 44 (df_json f) in
       Some (if String.eqb name "" then df_Name f else name).

Definition computedSources (f : DtoField) (docPrefix : string) : list string :=
  match df_computed f with
  | None => []
  | Some raw => joinPath docPrefix <$> splitList raw
  end.

(** A field's own entries. *)
Definition declarePath (s : ProjectionSchema) (f : DtoField) (wirePath docPath docPrefix : string) : ProjectionSchema :=
  let sources := computedSources f docPrefix in
  mkProjectionSchema (<[wirePath := docPath]> (pr_Paths s))
    (match sources with [] => pr_Computed s | _ => <[wirePath := sources]> (pr_Computed s) end).

(** [slice] is whether the type is that of a field, whose slice is entered too. *)
Fixpoint walkProjection (slice : bool) (t : DtoType) (wirePrefix docPrefix : string) (s : ProjectionSchema) : ProjectionSchema :=
  match t with
  | DPointer e => walkProjection slice e wirePrefix docPrefix s
  | DSlice e => if slice then walkProjection false e wirePrefix docPrefix s else s
  | DStruct fields =>
      (fix level (fields : list (DtoField * DtoType)) (s : ProjectionSchema) : ProjectionSchema :=
         match fields with
         | [] => s
         | (f, ty) :: rest =>
             level rest
               (if df_Anonymous f && bool_decide (kindOf (derefType ty) = KindStruct) then
                  walkProjection false ty wirePrefix docPrefix s
                else if negb (df_Exported f) then s
                else match projectionWireName f with
                     | None => s
                     | Some wireName =>
                         let wirePath := joinPath wirePrefix wireName in
                         let docPath := joinPath docPrefix (df_Name f) in
                         walkProjection true ty wirePath docPath (declarePath s f wirePath docPath docPrefix)
                     end)
         end) fields s
  | _ => s
  end.

Definition walkProjectionLevel : DtoType -> string -> string -> ProjectionSchema -> ProjectionSchema := walkProjection false.

Definition ExtractProjectionSchema (t : DtoType) : ProjectionSchema :=
  walkProjectionLevel (derefType t) "" "" (mkProjectionSchema ∅ ∅).

Definition orderByField (token : string) : string := KeyOrderBy +:+ "[" +:+ token +:+ "]".
Definition fieldsField (token : string) : string := KeyFields +:+ "[" +:+ token +:+ "]".

(** The paths and the wire names of a selection so far. *)
Fixpoint selectTokens (tokens : list string) (projSchema : option ProjectionSchema) (paths : gmap string bool)
  (wireSet : gset string) : string + (gmap string bool * gset string) :=
  match tokens with
  | [] => inr (paths, wireSet)
  | raw :: rest =>
      let t := trimSpace raw in
      if String.eqb t "" then selectTokens rest projSchema paths wireSet
      else match projSchema with
           | None => selectTokens rest projSchema (<[t := true]> paths) ({[t]} ∪ wireSet)
           | Some schema =>
               match pr_Paths schema !! t with
               | None => inl t
               | Some docPath =>
                   match pr_Computed schema !! t with
                   | Some sources =>
                       selectTokens rest projSchema (foldl (fun m src => <[src := true]> m) paths sources) ({[t]} ∪ wireSet)
                   | None => selectTokens rest projSchema (<[docPath := true]> paths) ({[t]} ∪ wireSet)
                   end
               end
           end
  end.

(** The refused token, or the projection and the wire names it was asked by.  A nil
    set of names is the empty one: no reader tells them apart. *)
Definition ParseProjection (tokens : list string) (projSchema : option ProjectionSchema) :
  string + (Projection * gset string) :=
  match tokens with
  | [] => inr (mkProjection ProjectAll ∅, ∅)
  | _ =>
      match selectTokens tokens projSchema ∅ ∅ with
      | inl bad => inl bad
      | inr (paths, wireSet) =>
          inr (if bool_decide (paths = ∅) then mkProjection ProjectAll ∅ else mkProjection ProjectOnly paths, wireSet)
      end
  end.

Definition SelectedComputedPaths (projSchema : ProjectionSchema) (wireSet : gset string) : list string :=
  sortStrings (omap (fun wirePath =>
    match pr_Computed projSchema !! wirePath with
    | None => None
    | Some _ => pr_Paths projSchema !! wirePath
    end) (elements wireSet)).

(** [entries] is the iteration of the paths: of two wire paths of one Go path the
    last one stays. *)
Definition wireByGo (entries : list (string * string)) : gmap string string :=
  foldl (fun m e => <[e.2 := e.1]> m) ∅ entries.

Definition isBlanked (entries : list (string * string)) (wireSet : gset string) (src : string) : bool :=
  match wireByGo entries !! src with
  | None => false
  | Some srcWire => negb (bool_decide (srcWire ∈ wireSet))
  end.

Definition UnrequestedComputedSources (entries : list (string * string)) (projSchema : ProjectionSchema)
  (wireSet : gset string) : list string :=
  let sources := mjoin ((fun wirePath => default [] (pr_Computed projSchema !! wirePath)) <$> elements wireSet) in
  sortStrings (elements (list_to_set (List.filter (isBlanked entries wireSet) sources) : gset string)).

(** ** Cursors ([application/queries/cursor.go]) *)

Context {Key : Type}.

(** [base64.URLEncoding.DecodeString] and [json.Unmarshal] into the version, the
    key tuple and the hash of a payload. *)
Context (decodeBase64 : string -> option string) (decodePayload : string -> option (Z * list Key * string)).

Record Cursor := mkCursor { cu_K : list Key; cu_H : string }.

Definition CursorSchemaVersion : Z := 1.

(** [None] is [ErrCursorInvalid]. *)
Definition DecodeCursor (s : string) : option Cursor :=
  if String.eqb s "" then None
  else
    data ← decodeBase64 s;
    payload ← decodePayload data;
    let '(v, k, h) := payload in
    if negb (Z.eqb v CursorSchemaVersion) then None
    else match k with [] => None | _ => Some (mkCursor k h) end.

(** ** From a decoded request to the criteria ([criteria.go]) *)

Record FilterTerm := mkFilterTerm { ft_Path : string; ft_Op : string; ft_Values : list string; ft_Raw : string }.

Record OrderTerm := mkOrderTerm { ot_Path : string; ot_Desc : bool; ot_Raw : string }.

Record Read := mkRead {
  rd_Controls : Controls;
  rd_Natural : gmap string bool;
  rd_Filters : list FilterTerm;
  rd_OrderBy : list OrderTerm;
  rd_Fields : list string;
  rd_Projection : Projection;
  rd_Search : string;
  rd_IncludeArchived : bool;
  rd_After : string;
  rd_Before : string
}.

Definition noControls : Controls := mkControls None None false false false false false false None.
Definition wholeDocument : Projection := mkProjection ProjectAll ∅.
Definition zeroRead : Read := mkRead noControls ∅ [] [] [] wholeDocument "" false "" "".

Definition ByIDRead (includeArchived isPresent : bool) : Read :=
  mkRead (mkControls None None false false false false false isPresent None) ∅ [] [] [] wholeDocument "" includeArchived "" "".

(** The terms resolved so far; [seen] is the paths they named. *)
Fixpoint orderingLoop (sortable : gmap string SortSpec) (seen : gset string) (terms : list OrderTerm) :
  Violation + list OrderByField :=
  match terms with
  | [] => inr []
  | t :: rest =>
      match sortable !! ot_Path t with
      | Some spec =>
          if negb (Allows spec (ot_Desc t)) || bool_decide (ot_Path t ∈ seen)
          then inl (SchemaViolation (orderByField (ot_Raw t)))
          else match orderingLoop sortable ({[ot_Path t]} ∪ seen) rest with
               | inl v => inl v
               | inr out => inr (mkOrderByField (so_GoPath spec) (ot_Desc t) :: out)
               end
      | None => inl (SchemaViolation (orderByField (ot_Raw t)))
      end
  end.

Definition resolveOrdering (sortable : gmap string SortSpec) (terms : list OrderTerm) : Violation + list OrderByField :=
  orderingLoop sortable ∅ terms.

(** The filter terms in turn. *)
Fixpoint applyFilters (s : RequestSchema) (filter : gmap string FilterValue) (terms : list FilterTerm) :
  Violation + gmap string FilterValue :=
  match terms with
  | [] => inr filter
  | term :: rest =>
      let op := if String.eqb (ft_Op term) "" then OpEq else ft_Op term in
      match rs_Filters s !! ft_Path term with
      | None => inl (SchemaViolation (ft_Raw term))
      | Some spec =>
          if negb (flag (fs_Ops spec) op) then inl (SchemaViolation (ft_Raw term))
          else match ApplyFilterValues filter spec (ft_Raw term) op (ft_Values term) with
               | inl v => inl v
               | inr filter' => applyFilters s filter' rest
               end
      end
  end.

Definition cursorFitsCriteria (cursor : string) (orderBy : list OrderByField) : bool :=
  match DecodeCursor cursor with
  | None => false
  | Some decoded => Z.eqb (Z.of_nat (length (cu_K decoded)) - 1) (Z.of_nat (length orderBy))
  end.

(** The fields of a request, against the Response it may select from. *)
Definition selectFields (proj : option ProjectionSchema) (i : Read) : Violation + (Projection * gset string) :=
  let given := if Narrows (rd_Projection i) then rd_Projection i else wholeDocument in
  match rd_Fields i with
  | [] => inr (given, ∅)
  | tokens =>
      match ParseProjection tokens proj with
      | inl bad => inl (SchemaViolation (fieldsField bad))
      | inr sel => inr sel
      end
  end.

(** The first cursor that does not fit. *)
Definition checkCursors (after before_ : string) (orderBy : list OrderByField) : option Violation :=
  if negb (String.eqb after "") && negb (cursorFitsCriteria after orderBy) then Some (SchemaViolation KeyAfter)
  else if negb (String.eqb before_ "") && negb (cursorFitsCriteria before_ orderBy) then Some (SchemaViolation KeyBefore)
  else None.

Definition BuildCriteria (s : RequestSchema) (proj : option ProjectionSchema) (i : Read) : Violation + (ReadCriteria * gset string) :=
  match applyFilters s ∅ (rd_Filters i) with
  | inl v => inl v
  | inr filter =>
      match (if flag (rs_Reserved s) KeyOrderBy then resolveOrdering (rs_Sortable s) (rd_OrderBy i) else inr []) with
      | inl v => inl v
      | inr orderBy =>
          match selectFields proj i with
          | inl v => inl v
          | inr (projection, selectedWire) =>
              match ValidateControls (rs_Reserved s) (rd_Controls i) (rd_Natural i) with
              | v :: _ => inl (mkViolation (ControlViolationField v) (Some SchemaViolationNotification) "" "")
              | [] =>
                  let c := rd_Controls i in
                  let limit := match ct_Last c with Some n => n | None => default 0%Z (ct_First c) end in
                  match checkCursors (rd_After i) (rd_Before i) orderBy with
                  | Some v => inl v
                  | None =>
                      inr (mkCriteria filter orderBy projection limit (rd_After i) (rd_Before i) (present (ct_Last c))
                             (rd_Search i) (rd_IncludeArchived i) (default false (ct_OnlyTotal c)) false, selectedWire)
                  end
              end
          end
      end
  end.

(** ** A query string ([web/handle_query.go]) *)

Definition decodeOrderTokens (val : string) : list OrderTerm :=
  (fun token =>
     match token with
     | String "-"%char path => mkOrderTerm path true token
     | _ => mkOrderTerm token false token
     end) <$> splitList val.

Definition setControls (c : Controls) (i : Read) : Read :=
  mkRead c (rd_Natural i) (rd_Filters i) (rd_OrderBy i) (rd_Fields i) (rd_Projection i) (rd_Search i) (rd_IncludeArchived i)
    (rd_After i) (rd_Before i).

(** A control key with its value; [None] refuses the key. *)
Definition decodeControl (key val : string) (i : Read) : option Read :=
  let c := rd_Controls i in
  if String.eqb key KeyFirst then
    n ← atoi val;
    Some (setControls (mkControls (Some n) (ct_Last c) (ct_After c) (ct_Before c) (ct_OrderBy c) (ct_Fields c) (ct_Search c)
      (ct_IncludeArchived c) (ct_OnlyTotal c)) i)
  else if String.eqb key KeyLast then
    n ← atoi val;
    Some (setControls (mkControls (ct_First c) (Some n) (ct_After c) (ct_Before c) (ct_OrderBy c) (ct_Fields c) (ct_Search c)
      (ct_IncludeArchived c) (ct_OnlyTotal c)) i)
  else if String.eqb key KeyAfter then
    Some (mkRead (mkControls (ct_First c) (ct_Last c) true (ct_Before c) (ct_OrderBy c) (ct_Fields c) (ct_Search c)
      (ct_IncludeArchived c) (ct_OnlyTotal c)) (rd_Natural i) (rd_Filters i) (rd_OrderBy i) (rd_Fields i) (rd_Projection i)
      (rd_Search i) (rd_IncludeArchived i) val (rd_Before i))
  else if String.eqb key KeyBefore then
    Some (mkRead (mkControls (ct_First c) (ct_Last c) (ct_After c) true (ct_OrderBy c) (ct_Fields c) (ct_Search c)
      (ct_IncludeArchived c) (ct_OnlyTotal c)) (rd_Natural i) (rd_Filters i) (rd_OrderBy i) (rd_Fields i) (rd_Projection i)
      (rd_Search i) (rd_IncludeArchived i) (rd_After i) val)
  else if String.eqb key KeyOrderBy then
    Some (mkRead (mkControls (ct_First c) (ct_Last c) (ct_After c) (ct_Before c) true (ct_Fields c) (ct_Search c)
      (ct_IncludeArchived c) (ct_OnlyTotal c)) (rd_Natural i) (rd_Filters i) (rd_OrderBy i ++ decodeOrderTokens val)
      (rd_Fields i) (rd_Projection i) (rd_Search i) (rd_IncludeArchived i) (rd_After i) (rd_Before i))
  else if String.eqb key KeyFields then
    Some (mkRead (mkControls (ct_First c) (ct_Last c) (ct_After c) (ct_Before c) (ct_OrderBy c) true (ct_Search c)
      (ct_IncludeArchived c) (ct_OnlyTotal c)) (rd_Natural i) (rd_Filters i) (rd_OrderBy i) (rd_Fields i ++ splitList val)
      (rd_Projection i) (rd_Search i) (rd_IncludeArchived i) (rd_After i) (rd_Before i))
  else if String.eqb key KeySearch then
    Some (mkRead (mkControls (ct_First c) (ct_Last c) (ct_After c) (ct_Before c) (ct_OrderBy c) (ct_Fields c) true
      (ct_IncludeArchived c) (ct_OnlyTotal c)) (rd_Natural i) (rd_Filters i) (rd_OrderBy i) (rd_Fields i) (rd_Projection i)
      val (rd_IncludeArchived i) (rd_After i) (rd_Before i))
  else if String.eqb key KeyIncludeArchived then
    archived ← ParseControlBool val;
    Some (mkRead (mkControls (ct_First c) (ct_Last c) (ct_After c) (ct_Before c) (ct_OrderBy c) (ct_Fields c) (ct_Search c)
      true (ct_OnlyTotal c)) (rd_Natural i) (rd_Filters i) (rd_OrderBy i) (rd_Fields i) (rd_Projection i) (rd_Search i)
      archived (rd_After i) (rd_Before i))
  else if String.eqb key KeyOnlyTotal then
    active ← ParseControlBool val;
    Some (setControls (mkControls (ct_First c) (ct_Last c) (ct_After c) (ct_Before c) (ct_OrderBy c) (ct_Fields c) (ct_Search c)
      (ct_IncludeArchived c) (Some active)) i)
  else Some i.

Definition addFilter (term : FilterTerm) (i : Read) : Read :=
  mkRead (rd_Controls i) (rd_Natural i) (rd_Filters i ++ [term]) (rd_OrderBy i) (rd_Fields i) (rd_Projection i) (rd_Search i)
    (rd_IncludeArchived i) (rd_After i) (rd_Before i).

(** One argument of the query string; [None] refuses its key. *)
Definition decodeArg (s : RequestSchema) (ignored : gmap string bool) (key val : string) (i : Read) : option Read :=
  if ControlKeys key && negb (present (rs_Filters s !! key)) then
    if flag ignored key then Some i else decodeControl key val i
  else
    let '(path, op) := ParseKeyAgainstSchema key s in
    if String.eqb path "" then None
    else Some (addFilter (mkFilterTerm path op (if OperatorTakesList op then splitList val else [val]) key) i).

(** The arguments in order, up to the first refused key. *)
Fixpoint decodeQuery (s : RequestSchema) (ignored : gmap string bool) (args : list (string * string)) (i : Read) : Violation + Read :=
  match args with
  | [] => inr i
  | (key, val) :: rest =>
      match decodeArg s ignored key val i with
      | None => inl (SchemaViolation key)
      | Some i' => decodeQuery s ignored rest i'
      end
  end.

Definition readCriteria (s : RequestSchema) (proj : option ProjectionSchema) (args : list (string * string)) :
  Violation + (ReadCriteria * gset string) :=
  match decodeQuery s ∅ args zeroRead with
  | inl v => inl v
  | inr i => BuildCriteria s proj i
  end.

(** The first key a by-id route does not know. *)
Definition validateByIDQuery (args : list (string * string)) : option string :=
  fst <$> List.find (fun a => negb (String.eqb a.1 KeyIncludeArchived)) args.

End Grammar.
