(* ===== verification/GrammarClaims.v ===== *)
(** * Theorems on the query grammar

    What a read request is accepted for, what its filter becomes, what a refusal
    names, which fields reach the wire, and that a spelled-out request is read back. *)

From S2P Require Import Prelude Naming GoStrings Notification Queries QueriesClaims QuerySchema.
From stdpp Require Import base gmap strings list fin_maps sorting.
From Stdlib Require Import Ascii ZArith Lia.

Open Scope string_scope.
Open Scope list_scope.

(** ** The gate of the controls *)

Definition controlsPresent (c : Controls) : list (string * bool) :=
  [(KeyFirst, present (ct_First c)); (KeyLast, present (ct_Last c)); (KeyAfter, ct_After c); (KeyBefore, ct_Before c);
   (KeyOrderBy, ct_OrderBy c); (KeyFields, ct_Fields c); (KeySearch, ct_Search c);
   (KeyIncludeArchived, ct_IncludeArchived c); (KeyOnlyTotal, present (ct_OnlyTotal c))].

(** The control [key] is on the wire. *)
Definition carries (c : Controls) (key : string) : bool :=
  existsb (fun p => String.eqb p.1 key && p.2) (controlsPresent c).

(** Every control is declared or natural to the surface, sizes are positive, the
    window has one direction, and a total alone has no window. *)
Record ControlsFit (s : RequestSchema) (i : Read) : Prop := {
  fit_declared : forall key, carries (rd_Controls i) key = true ->
    flag (rd_Natural i) key = true \/ flag (rs_Reserved s) key = true;
  fit_first : forall n, ct_First (rd_Controls i) = Some n -> (0 < n)%Z;
  fit_last : forall n, ct_Last (rd_Controls i) = Some n -> (0 < n)%Z;
  fit_direction : ~ ((carries (rd_Controls i) KeyFirst = true \/ carries (rd_Controls i) KeyAfter = true) /\
                     (carries (rd_Controls i) KeyLast = true \/ carries (rd_Controls i) KeyBefore = true));
  fit_total : ct_OnlyTotal (rd_Controls i) = Some true -> forall key,
    key ∈ [KeyFields; KeyOrderBy; KeyFirst; KeyLast; KeyAfter; KeyBefore] -> carries (rd_Controls i) key = false
}.

Lemma violationsOf_nil kind l : violationsOf kind l = [] <-> Forall (fun p => p.2 = false) l.
Proof.
  unfold violationsOf. induction l as [|[k b] l IH]; cbn; [split; [by constructor|done]|].
  rewrite Forall_cons. destruct b; cbn; [by split; [|intros [? _]]|]. rewrite IH. split; [done|by intros [_ ?]].
Qed.

Lemma undeclared_nil reserved c natural :
  undeclared reserved c natural = [] <->
  forall key, carries c key = true -> flag natural key = true \/ flag reserved key = true.
Proof.
  unfold undeclared, carries. fold (controlsPresent c). rewrite violationsOf_nil, Forall_fmap, Forall_forall.
  setoid_rewrite existsb_exists. split.
  - intros H key ([k b]&Hin&[Hk%String.eqb_eq Hb]%andb_true_iff). specialize (H (k, b) (proj2 (list_elem_of_In _ _) Hin)).
    cbn in *. subst k b. destruct (flag natural key), (flag reserved key); naive_solver.
  - intros H [k b] Hin%list_elem_of_In. cbn. destruct b; [|done].
    destruct (H k) as [-> | ->]; [exists (k, true); by rewrite String.eqb_refl|done|]. by destruct (flag natural k).
Qed.

Lemma carries_first c : carries c KeyFirst = present (ct_First c).
Proof. cbn. by rewrite orb_false_r. Qed.
Lemma carries_last c : carries c KeyLast = present (ct_Last c).
Proof. cbn. by rewrite orb_false_r. Qed.
Lemma carries_after c : carries c KeyAfter = ct_After c.
Proof. cbn. by rewrite orb_false_r. Qed.
Lemma carries_before c : carries c KeyBefore = ct_Before c.
Proof. cbn. by rewrite orb_false_r. Qed.
Lemma carries_fields c : carries c KeyFields = ct_Fields c.
Proof. cbn. by rewrite orb_false_r. Qed.
Lemma carries_orderBy c : carries c KeyOrderBy = ct_OrderBy c.
Proof. cbn. by rewrite orb_false_r. Qed.

Lemma nonPositive_false o : nonPositive o = false <-> forall n, o = Some n -> (0 < n)%Z.
Proof.
  destruct o as [n|]; cbn; [|by split]. rewrite Z.leb_gt. split; [by intros ? ? [= <-]|by auto].
Qed.

Lemma onlyTotal_nil c :
  onlyTotalConflicts c = [] <->
  (ct_OnlyTotal c = Some true -> forall key, key ∈ [KeyFields; KeyOrderBy; KeyFirst; KeyLast; KeyAfter; KeyBefore] -> carries c key = false).
Proof.
  unfold onlyTotalConflicts. destruct (ct_OnlyTotal c) as [[]|]; [|by split; [intros _ [=]|]..].
  change (default false (Some true)) with true. cbv iota.
  rewrite violationsOf_nil. rewrite <- !carries_first, <- carries_last, <- carries_after, <- carries_before, <- carries_fields, <- carries_orderBy.
  rewrite !Forall_cons. cbn [fst snd]. split.
  - intros (?&?&?&?&?&?&_) _ key Hk. by repeat (apply elem_of_cons in Hk as [->|Hk]; [done|]); apply elem_of_nil in Hk.
  - intros H. specialize (H eq_refl). by split_and!; try (apply H; set_solver).
Qed.

Lemma directional_nil c :
  directional c = [] <->
  (forall n, ct_First c = Some n -> (0 < n)%Z) /\ (forall n, ct_Last c = Some n -> (0 < n)%Z) /\
  ~ ((carries c KeyFirst = true \/ carries c KeyAfter = true) /\ (carries c KeyLast = true \/ carries c KeyBefore = true)).
Proof.
  unfold directional. cbv zeta. rewrite app_nil, violationsOf_nil, !Forall_cons. cbn [fst snd].
  rewrite !nonPositive_false, carries_first, carries_after, carries_last, carries_before, <- !orb_true_iff.
  destruct (_ || _), (_ || _); cbn [andb]; naive_solver.
Qed.

Lemma gate_ok s i : ValidateControls (rs_Reserved s) (rd_Controls i) (rd_Natural i) = [] <-> ControlsFit s i.
Proof.
  unfold ValidateControls. rewrite !app_nil, undeclared_nil, directional_nil, onlyTotal_nil.
  split; [intros (?&(?&?&?)&?); by constructor|by intros [? ? ? ? ?]].
Qed.

(** The gate only speaks of controls on the wire. *)
Lemma violationsOf_elem q kind l : q ∈ violationsOf kind l -> (cv_Key q, true) ∈ l.
Proof.
  unfold violationsOf. intros (e&->&He)%list_elem_of_fmap. apply list_elem_of_In, filter_In in He as [Hin Hb].
  destruct e as [k b]. cbn in *. subst. by apply list_elem_of_In.
Qed.

Lemma carries_present c key : (key, true) ∈ controlsPresent c -> carries c key = true.
Proof. intros H. apply existsb_exists. exists (key, true). split; [by apply list_elem_of_In|]. by rewrite String.eqb_refl. Qed.

Lemma gate_carries reserved c natural q : q ∈ ValidateControls reserved c natural -> carries c (cv_Key q) = true.
Proof.
  unfold ValidateControls. rewrite !elem_of_app. intros [H|[H|H]].
  - apply violationsOf_elem, list_elem_of_fmap in H as ([k b]&Hq&Hin). cbn in Hq. injection Hq as Hk Hb. rewrite Hk.
    destruct b; [|done]. by apply carries_present.
  - unfold directional in H. cbv zeta in H. apply elem_of_app in H as [H|H].
    + apply violationsOf_elem in H. rewrite !elem_of_cons, elem_of_nil in H. destruct H as [H|[H|[]]]; injection H as -> H.
      * rewrite carries_first. by destruct (ct_First c).
      * rewrite carries_last. by destruct (ct_Last c).
    + destruct (present (ct_Last c)) eqn:El, (ct_Before c) eqn:Eb, (_ || ct_After c); cbn in H;
        try (by apply elem_of_nil in H); apply list_elem_of_singleton in H as ->; cbn [cv_Key];
        rewrite ?carries_last, ?carries_before; done.
  - unfold onlyTotalConflicts in H. destruct (default false _); [|by apply elem_of_nil in H].
    apply violationsOf_elem in H. apply carries_present. revert H. unfold controlsPresent. rewrite !elem_of_cons, !elem_of_nil. tauto.
Qed.

Section Claims.
Context (parseRFC3339 : string -> option string) (parseDuration : string -> option Z)
  (parseFloat : string -> option string) (isUUID : string -> bool).
Context {Key : Type} (decodeBase64 : string -> option string) (decodePayload : string -> option (Z * list Key * string)).

Notation coerce spec v := (coerceLeaf parseRFC3339 parseDuration parseFloat isUUID v (fs_GoType spec) (fs_GoKind spec)).
Notation clause_of := (clauseOf parseRFC3339 parseDuration parseFloat isUUID).
Notation apply_filters := (applyFilters parseRFC3339 parseDuration parseFloat isUUID).
Notation decode_cursor := (DecodeCursor decodeBase64 decodePayload).
Notation build := (BuildCriteria parseRFC3339 parseDuration parseFloat isUUID decodeBase64 decodePayload).
Notation read_criteria := (readCriteria parseRFC3339 parseDuration parseFloat isUUID decodeBase64 decodePayload).

(** ** Filters *)

(** The operator of a term, equality when it names none. *)
Definition termOp (term : FilterTerm) : string := if String.eqb (ft_Op term) "" then OpEq else ft_Op term.

(** The clause a term puts on the Go path [p]. *)
Definition termClause (s : RequestSchema) (p : string) (term : FilterTerm) : option FilterValue :=
  spec ← rs_Filters s !! ft_Path term;
  if String.eqb (fs_DocPath spec) p then
    match ft_Values term with
    | [] => None
    | value :: _ => match clause_of spec (termOp term) value (ft_Values term) with inr c => c | inl _ => None end
    end
  else None.

(** The clauses of one path as the filter holds them. *)
Definition conjunction (clauses : list FilterValue) : option FilterValue :=
  match clauses with
  | [] => None
  | [c] => Some c
  | _ => Some (FMultiClause clauses)
  end.

Definition single (v : FilterValue) : Prop := match v with FMultiClause _ => False | _ => True end.

Lemma coerce_single v spec x : coerce spec v = Some x -> single x.
Proof using.
  assert (Hk : forall k s y, coerceKind parseFloat k s = Some y -> single y).
  { intros k s y. destruct k; cbn; intros H; try (apply fmap_Some in H as (?&?&->)); by simplify_eq. }
  assert (Hn : forall t s r y, coerceNamed parseRFC3339 parseDuration isUUID t s = Some r -> r = Some y -> single y).
  { intros t s r y Ht ->. destruct t; cbn in Ht; simplify_eq; try (apply fmap_Some in Ht as (?&?&->); done);
      repeat case_match; simplify_eq; done. }
  assert (Hd : forall t k s y, default (coerceKind parseFloat k s) (coerceNamed parseRFC3339 parseDuration isUUID t s) = Some y -> single y).
  { intros t k s y H. destruct (coerceNamed _ _ _ t s) eqn:E; [by eapply Hn|by eapply Hk]. }
  assert (He : forall t s y, coerceElem parseRFC3339 parseDuration parseFloat isUUID t s = Some y -> single y).
  { induction t; intros s y H; first [exact (IHt _ _ H)|exact (Hd _ _ _ _ H)]. }
  unfold coerceLeaf. destruct (fs_GoType spec) as [t|]; [destruct t|]; eauto.
Qed.

Lemma clause_single spec op v vs c : clause_of spec op v vs = inr (Some c) -> single c.
Proof using.
  unfold clauseOf. cbv zeta. destruct (coerce spec v) as [x|] eqn:E; [apply coerce_single in E|];
    repeat case_match; intros; simplify_eq; done.
Qed.

Lemma merge_conjunction f field c p (L : list FilterValue) :
  Forall single L -> single c -> f !! p = conjunction L ->
  mergeClause f field c !! p = conjunction (L ++ if String.eqb field p then [c] else []).
Proof using.
  intros HL Hc Hf. unfold mergeClause. destruct (String.eqb_spec field p) as [->|Hne].
  - rewrite Hf. destruct L as [|a [|b L]]; cbn [conjunction].
    + by rewrite lookup_insert_eq.
    + apply Forall_cons in HL as [Ha _]. destruct a; try done; by rewrite lookup_insert_eq.
    + by rewrite lookup_insert_eq.
  - rewrite app_nil_r, <- Hf. destruct (f !! field) as [[]|]; by rewrite lookup_insert_ne.
Qed.

Lemma applyFilters_conjunction s terms : forall f f' (L : string -> list FilterValue),
  (forall p, Forall single (L p) /\ f !! p = conjunction (L p)) -> apply_filters s f terms = inr f' ->
  forall p, f' !! p = conjunction (L p ++ omap (termClause s p) terms).
Proof using.
  induction terms as [|t terms IH]; intros f f' L HL Hf p; cbn in Hf.
  { simplify_eq. cbn. rewrite app_nil_r. apply HL. }
  destruct (rs_Filters s !! ft_Path t) as [spec|] eqn:Espec; [|done].
  destruct (negb _); [done|]. fold (termOp t) in Hf.
  destruct (ApplyFilterValues _ _ _ _ f spec _ _ _) as [v|f1] eqn:Ea; [done|].
  assert (Ht : forall q, termClause s q t = if String.eqb (fs_DocPath spec) q then
      match ft_Values t with [] => None | v :: _ => match clause_of spec (termOp t) v (ft_Values t) with inr c => c | inl _ => None end end
      else None) by (intros q; unfold termClause; by rewrite Espec).
  assert (H1 : forall q, Forall single (L q ++ option_list (termClause s q t)) /\ f1 !! q = conjunction (L q ++ option_list (termClause s q t))).
  { intros q. rewrite Ht. destruct (HL q) as [HLq Hq]. unfold ApplyFilterValues in Ea. destruct (ft_Values t) as [|v vs] eqn:Ev.
    { simplify_eq. destruct (String.eqb _ _); cbn; by rewrite app_nil_r. }
    destruct (clause_of spec (termOp t) v (v :: vs)) as [bad|[c|]] eqn:Ec; simplify_eq.
    - assert (Hc : single c) by by eapply clause_single.
      rewrite (merge_conjunction _ _ _ _ _ HLq Hc Hq). split; [|by destruct (String.eqb _ _)].
      apply Forall_app. split; [done|]. destruct (String.eqb _ _); cbn; by constructor.
    - destruct (String.eqb _ _); cbn; by rewrite app_nil_r. }
  rewrite (IH _ _ (fun q => L q ++ option_list (termClause s q t)) H1 Hf p). cbn [omap list_omap]. rewrite <- app_assoc.
  by destruct (termClause s p t).
Qed.

(** C28: The filter of accepted criteria is, on each Go path, the conjunction of the clauses of
    exactly the terms that name a leaf of that path, in the order of the request: no
    operator is lost to another one on the same field and no path has a clause nobody
    asked for. *)
Theorem filter_is_the_conjunction_of_its_terms s proj i crit wire p :
  build s proj i = inr (crit, wire) ->
  rc_Filter crit !! p = conjunction (omap (termClause s p) (rd_Filters i)).
Proof using.
  unfold BuildCriteria. intros H. destruct (apply_filters s ∅ (rd_Filters i)) as [v|f] eqn:Ef; [done|].
  assert (f = rc_Filter crit) as <- by (repeat case_match; by simplify_eq).
  by apply (applyFilters_conjunction s _ ∅ f (fun _ => [])).
Qed.

(** ** Acceptance *)

(** The operands an operator judges are of the type the leaf declares. *)
Definition operandsFit (spec : FilterSpec) (op : string) (values : list string) : Prop :=
  match values with
  | [] => True
  | value :: _ =>
      if existsb (String.eqb op) ["eq"; "ne"; "gte"; "lte"; "gt"; "lt"] then is_Some (coerce spec value)
      else if existsb (String.eqb op) ["in"; "nin"] then Forall (fun v => is_Some (coerce spec v)) values
      else True
  end.

Definition termFits (s : RequestSchema) (term : FilterTerm) : Prop :=
  exists spec, rs_Filters s !! ft_Path term = Some spec /\ flag (fs_Ops spec) (termOp term) = true /\
    operandsFit spec (termOp term) (ft_Values term).

Definition orderFits (s : RequestSchema) (term : OrderTerm) : Prop :=
  exists spec, rs_Sortable s !! ot_Path term = Some spec /\ Allows spec (ot_Desc term) = true.

(** The tokens of a selection, blank ones aside. *)
Definition asked (tokens : list string) : list string :=
  List.filter (fun t => negb (String.eqb t "")) (trimSpace <$> tokens).

(** The cursor is absent, or decodes to one key more than the ordering has terms. *)
Definition cursorFits (s : RequestSchema) (i : Read) (cursor : string) : Prop :=
  cursor = "" \/ exists c, decode_cursor cursor = Some c /\
    length (cu_K c) = S (if flag (rs_Reserved s) KeyOrderBy then length (rd_OrderBy i) else 0).

Record Acceptable (s : RequestSchema) (p : ProjectionSchema) (i : Read) : Prop := {
  ok_filters : Forall (termFits s) (rd_Filters i);
  ok_ordering : flag (rs_Reserved s) KeyOrderBy = true ->
    Forall (orderFits s) (rd_OrderBy i) /\ NoDup (ot_Path <$> rd_OrderBy i);
  ok_fields : Forall (fun t => is_Some (pr_Paths p !! t)) (asked (rd_Fields i));
  ok_controls : ControlsFit s i;
  ok_after : cursorFits s i (rd_After i);
  ok_before : cursorFits s i (rd_Before i)
}.

Definition succeeds {E A} (r : E + A) : Prop := exists x, r = inr x.

Lemma coerceValues_ok spec values :
  succeeds (coerceValues parseRFC3339 parseDuration parseFloat isUUID values spec) <-> Forall (fun v => is_Some (coerce spec v)) values.
Proof using.
  induction values as [|v values IH]; cbn [coerceValues]; [split; [done|by eexists]|]. rewrite Forall_cons, <- IH. unfold succeeds.
  destruct (coerce spec v) as [x|]; [|by split; [intros [? ?]|intros [[? ?] _]]].
  destruct (coerceValues _ _ _ _ values spec) as [bad|items].
  - by split; [intros [? ?]|intros [_ [? ?]]].
  - split; [intros _; split; by eexists|by eexists].
Qed.

Lemma clauseOf_ok spec op v vs : op <> "" -> succeeds (clause_of spec op v (v :: vs)) <-> operandsFit spec op (v :: vs).
Proof using.
  intros Hop. unfold clauseOf, operandsFit. cbv zeta.
  apply String.eqb_neq in Hop. rewrite Hop. cbn [existsb orb].
  assert (Hs : forall wrap, succeeds (match coerce spec v with None => inl v | Some x => inr (Some (wrap x : FilterValue)) end) <-> is_Some (coerce spec v)).
  { intros wrap. unfold succeeds. destruct (coerce spec v); split; intros [? ?]; by eauto. }
  assert (Hm : forall name, succeeds (match coerceValues parseRFC3339 parseDuration parseFloat isUUID (v :: vs) spec with
      inl bad => inl bad | inr items => inr (Some (FClause name items)) end) <-> Forall (fun v => is_Some (coerce spec v)) (v :: vs)).
  { intros name. rewrite <- coerceValues_ok. unfold succeeds. destruct (coerceValues _ _ _ _ (v :: vs) spec); split; intros [? ?]; by eauto. }
  repeat match goal with |- context [String.eqb op ?x] =>
    destruct (String.eqb_spec op x) as [->|]; [cbn [String.eqb Ascii.eqb Bool.eqb orb]; first [exact (Hs _)|exact (Hm _)|split; [done|intros _; eexists; reflexivity]]|] end;
    cbn [orb]; split; [done|intros _; eexists; reflexivity].
Qed.

Lemma termOp_nonempty t : termOp t <> "".
Proof using. unfold termOp. by destruct (String.eqb_spec (ft_Op t) ""). Qed.

Lemma applyFilterValues_ok f spec key op values :
  op <> "" -> succeeds (ApplyFilterValues parseRFC3339 parseDuration parseFloat isUUID f spec key op values) <-> operandsFit spec op values.
Proof using.
  intros Hop. destruct values as [|v vs]; [split; [done|by eexists]|]. rewrite <- clauseOf_ok by done. cbn [ApplyFilterValues]. unfold succeeds.
  destruct (clause_of spec op v (v :: vs)) as [bad|[c|]]; split; intros [? ?]; by eauto.
Qed.

Lemma applyFilters_ok s terms : forall f, succeeds (apply_filters s f terms) <-> Forall (termFits s) terms.
Proof using.
  induction terms as [|t terms IH]; intros f; cbn [applyFilters]; [split; [done|by eexists]|].
  fold (termOp t). rewrite Forall_cons. unfold termFits at 1.
  destruct (rs_Filters s !! ft_Path t) as [spec|] eqn:E; [|by split; [intros [? ?]|intros [(?&?&_) _]]].
  destruct (flag (fs_Ops spec) (termOp t)) eqn:Eop; cbn [negb]; [|split; [by intros [? ?]|intros [(?&?&?&_) _]; simplify_eq; congruence]].
  pose proof (applyFilterValues_ok f spec (ft_Raw t) (termOp t) (ft_Values t) (termOp_nonempty t)) as Ha. unfold succeeds in *.
  destruct (ApplyFilterValues _ _ _ _ f spec _ _ _) as [v|f'] eqn:Ef.
  - split; [by intros [? ?]|]. intros [(spec'&?&_&Hfit) _]; simplify_eq. by apply Ha in Hfit as [? ?].
  - rewrite IH. split; [|by intros [_ ?]]. intros Hr. split; [|done]. exists spec. split_and!; [done..|]. apply Ha. by eexists.
Qed.

Lemma orderingLoop_ok s terms : forall seen,
  succeeds (orderingLoop (rs_Sortable s) seen terms) <->
  Forall (orderFits s) terms /\ NoDup (ot_Path <$> terms) /\ Forall (fun t => ot_Path t ∉ seen) terms.
Proof using.
  induction terms as [|t terms IH]; intros seen; cbn [orderingLoop fmap list_fmap].
  { split; [intros _; split_and!; by constructor|by eexists]. }
  rewrite !Forall_cons, NoDup_cons. unfold orderFits at 1.
  destruct (rs_Sortable s !! ot_Path t) as [spec|] eqn:E; [|by split; [intros [? ?]|intros [[(?&?&_) _] _]]].
  destruct (Allows spec (ot_Desc t)) eqn:Ea; cbn [negb orb]; [|split; [by intros [? ?]|intros [[(?&?&?) _] _]; simplify_eq; congruence]].
  case_bool_decide as Hseen; [by split; [intros [? ?]|intros (_&_&?&_)]|].
  specialize (IH ({[ot_Path t]} ∪ seen)). unfold succeeds in *. destruct (orderingLoop _ _ terms) as [v|out].
  - split; [by intros [? ?]|]. intros ([_ H1]&[Hn H2]&_&H3).
    assert (Forall (fun t' => ot_Path t' ∉ ({[ot_Path t]} ∪ seen : gset string)) terms) as Hf.
    { apply Forall_forall. intros t' Ht'. rewrite Forall_forall in H3. specialize (H3 _ Ht').
      assert (ot_Path t' <> ot_Path t); [|set_solver]. intros Heq. apply Hn. rewrite <- Heq. by apply list_elem_of_fmap_2. }
    by destruct (proj2 IH (conj H1 (conj H2 Hf))) as [? ?].
  - destruct (proj1 IH (ex_intro _ out eq_refl)) as (H1&H2&H3). split; [intros _|by eexists]. rewrite Forall_forall in H3.
    split_and!; [by exists spec|done| |done|done|].
    + intros (t'&Heq&Ht')%list_elem_of_fmap. specialize (H3 _ Ht'). set_solver.
    + apply Forall_forall. intros t' Ht'. specialize (H3 _ Ht'). set_solver.
Qed.

Lemma orderingLoop_length sortable terms : forall seen out, orderingLoop sortable seen terms = inr out -> length out = length terms.
Proof using.
  induction terms as [|t terms IH]; intros seen out H; cbn [orderingLoop] in H; [by simplify_eq|].
  destruct (sortable !! ot_Path t); [|done]. destruct (_ || _); [done|].
  destruct (orderingLoop _ _ terms) eqn:E; [done|]. simplify_eq. cbn. f_equal. by eapply IH.
Qed.

Lemma selectTokens_ok p tokens : forall paths wire,
  succeeds (selectTokens tokens (Some p) paths wire) <-> Forall (fun t => is_Some (pr_Paths p !! t)) (asked tokens).
Proof using.
  induction tokens as [|raw tokens IH]; intros paths wire; cbn [selectTokens]; [split; [by constructor|by eexists]|].
  unfold asked. cbn [fmap list_fmap List.filter]. destruct (String.eqb (trimSpace raw) ""); cbn [negb]; [apply IH|].
  rewrite Forall_cons. destruct (pr_Paths p !! trimSpace raw) as [g|]; [|by split; [intros [? ?]|intros [[? ?] _]]].
  assert (Hd : forall P : Prop, (is_Some (Some g) /\ P) <-> P) by (intros P; split; [by intros [_ ?]|by eauto]). rewrite Hd.
  destruct (pr_Computed p !! trimSpace raw); apply IH.
Qed.

Lemma checkCursors_ok s i orderBy :
  length orderBy = (if flag (rs_Reserved s) KeyOrderBy then length (rd_OrderBy i) else 0) ->
  checkCursors decodeBase64 decodePayload (rd_After i) (rd_Before i) orderBy = None <->
  cursorFits s i (rd_After i) /\ cursorFits s i (rd_Before i).
Proof using.
  intros Hl. assert (Hf : forall cursor, negb (String.eqb cursor "") && negb (cursorFitsCriteria decodeBase64 decodePayload cursor orderBy) = false
    <-> cursorFits s i cursor).
  { intros cursor. unfold cursorFits, cursorFitsCriteria. rewrite <- Hl. destruct (String.eqb_spec cursor "") as [->|Hne]; [by split; [left|]|].
    cbn [negb andb]. rewrite negb_false_iff. destruct (decode_cursor cursor) as [c|].
    - rewrite Z.eqb_eq. split; [intros; right; exists c; split; [done|lia]|]. intros [?|(c'&[= <-]&?)]; [done|lia].
    - by split; [|intros [?|(?&?&_)]]. }
  unfold checkCursors. rewrite <- !Hf. destruct (negb _ && _), (negb _ && _); naive_solver.
Qed.

(** C27: A read request is accepted exactly when it stays within what the DTOs declare: every filter
    names a declared leaf with a declared operator and operands of the leaf's type, every
    ordering term a declared path in a declared direction, no path twice, every selected
    field one of the Response; the controls on the wire are declared, sizes positive, the
    window one way and absent from a total; a cursor decodes to one key per ordering term
    and the identity. *)
Theorem read_is_accepted_iff_declared s p i :
  succeeds (build s (Some p) i) <-> Acceptable s p i.
Proof using.
  unfold BuildCriteria. pose proof (applyFilters_ok s (rd_Filters i) ∅) as Hf.
  destruct (apply_filters s ∅ (rd_Filters i)) as [v|filter].
  { split; [by intros [? ?]|]. intros H. by apply ok_filters, Hf in H as [? ?]. }
  set (ord := if flag _ _ then _ else _).
  assert (Ho : succeeds ord <-> (flag (rs_Reserved s) KeyOrderBy = true -> Forall (orderFits s) (rd_OrderBy i) /\ NoDup (ot_Path <$> rd_OrderBy i))).
  { subst ord. destruct (flag _ _); [|by split; [|by eexists]]. unfold resolveOrdering. rewrite orderingLoop_ok. split; [naive_solver|].
    intros H. destruct (H eq_refl). split_and!; [done..|]. by apply Forall_true. }
  destruct ord as [v|orderBy] eqn:Eord.
  { split; [by intros [? ?]|]. intros H. by destruct (proj2 Ho (ok_ordering _ _ _ H)). }
  assert (Hl : length orderBy = if flag (rs_Reserved s) KeyOrderBy then length (rd_OrderBy i) else 0).
  { subst ord. destruct (flag _ _); [by eapply orderingLoop_length|by simplify_eq]. }
  assert (Hs : succeeds (selectFields (Some p) i) <-> Forall (fun t => is_Some (pr_Paths p !! t)) (asked (rd_Fields i))).
  { unfold selectFields, ParseProjection. destruct (rd_Fields i) as [|tok toks]; [by split; [constructor|by eexists]|].
    rewrite <- (selectTokens_ok p (tok :: toks) ∅ ∅). unfold succeeds.
    destruct (selectTokens (tok :: toks) (Some p) ∅ ∅) as [bad|[paths wire]]; split; intros [? ?]; by eauto. }
  destruct (selectFields (Some p) i) as [v|[projection wire]].
  { split; [by intros [? ?]|]. intros H. by apply ok_fields, Hs in H as [? ?]. }
  pose proof (gate_ok s i) as Hg. destruct (ValidateControls _ _ _) as [|v vs].
  2: { split; [by intros [? ?]|]. intros H. by apply ok_controls, Hg in H. }
  pose proof (checkCursors_ok s i orderBy Hl) as Hc. destruct (checkCursors _ _ _ _ _) as [v|].
  { split; [by intros [? ?]|]. intros H. by assert (Some v = None) by (apply Hc; split; [by eapply ok_after|by eapply ok_before]). }
  split; [|by eexists]. intros _. destruct (proj1 Hc eq_refl). constructor; [|by apply Ho; eexists| | |done|done].
  - apply Hf. by eexists.
  - apply Hs. by eexists.
  - by apply Hg.
Qed.

(** ** Refusals *)

(** The filter terms stop at the first one that does not fit, and name it. *)
Lemma applyFilters_refusal s v terms : forall f, apply_filters s f terms = inl v ->
  Semantic (violationNotification v) = SemanticSchema /\ exists t, t ∈ terms /\ vi_Field v = ft_Raw t.
Proof using.
  induction terms as [|t terms IH]; intros f H; cbn [applyFilters] in H; [done|].
  assert (Hh : Semantic (violationNotification v) = SemanticSchema -> vi_Field v = ft_Raw t ->
    Semantic (violationNotification v) = SemanticSchema /\ exists t', t' ∈ t :: terms /\ vi_Field v = ft_Raw t').
  { intros Hq Hf. split; [done|]. exists t. by split; [left|]. }
  destruct (rs_Filters s !! ft_Path t) as [spec|]; [|injection H as <-; by apply Hh].
  destruct (negb _); [injection H as <-; by apply Hh|].
  destruct (ApplyFilterValues _ _ _ _ f spec _ _ _) as [q|f'] eqn:E.
  - injection H as <-. unfold ApplyFilterValues in E. repeat case_match; simplify_eq; by apply Hh.
  - destruct (IH _ H) as [Hs (t'&Ht'&Hf)]. split; [done|]. exists t'. by split; [right|].
Qed.

Lemma orderingLoop_refusal sortable v terms : forall seen, orderingLoop sortable seen terms = inl v ->
  exists t, t ∈ terms /\ v = SchemaViolation (orderByField (ot_Raw t)).
Proof using.
  induction terms as [|t terms IH]; intros seen H; cbn [orderingLoop] in H; [done|].
  assert (Hh : v = SchemaViolation (orderByField (ot_Raw t)) ->
    exists t', t' ∈ t :: terms /\ v = SchemaViolation (orderByField (ot_Raw t'))).
  { intros ->. exists t. by split; [left|]. }
  destruct (sortable !! ot_Path t); [|injection H as <-; by apply Hh].
  destruct (_ || _); [injection H as <-; by apply Hh|].
  destruct (orderingLoop _ _ terms) eqn:E; simplify_eq. destruct (IH _ E) as (t'&?&?). exists t'. by split; [right|].
Qed.

Lemma selectTokens_refusal p bad tokens : forall paths wire, selectTokens tokens p paths wire = inl bad ->
  exists t, t ∈ tokens /\ bad = trimSpace t.
Proof using.
  induction tokens as [|raw tokens IH]; intros paths wire H; cbn [selectTokens] in H; [done|].
  assert (Hi : forall paths wire, selectTokens tokens p paths wire = inl bad -> exists t, t ∈ raw :: tokens /\ bad = trimSpace t).
  { intros ? ? (t&?&?)%IH. exists t. by split; [right|]. }
  destruct (String.eqb (trimSpace raw) ""); [by eapply Hi|]. destruct p as [p|]; [|by eapply Hi].
  destruct (pr_Paths p !! trimSpace raw); [|simplify_eq; exists raw; by split; [left|]].
  destruct (pr_Computed p !! trimSpace raw); by eapply Hi.
Qed.

(** What a refusal of the criteria may name. *)
Definition namesRead (i : Read) (field : string) : Prop :=
  (exists t, t ∈ rd_Filters i /\ field = ft_Raw t) \/
  (exists t, t ∈ rd_OrderBy i /\ field = orderByField (ot_Raw t)) \/
  (exists t, t ∈ rd_Fields i /\ field = fieldsField (trimSpace t)) \/
  (exists key, carries (rd_Controls i) key = true /\ (field = key \/ field = KeyOnlyTotal +:+ "[" +:+ key +:+ "]")) \/
  (field = KeyAfter /\ rd_After i <> "") \/ (field = KeyBefore /\ rd_Before i <> "").

Lemma build_refusal s p i v :
  build s p i = inl v -> Semantic (violationNotification v) = SemanticSchema /\ namesRead i (vi_Field v).
Proof using.
  unfold BuildCriteria, namesRead. intros H. destruct (apply_filters s ∅ (rd_Filters i)) as [q|filter] eqn:Ef.
  { simplify_eq. destruct (applyFilters_refusal _ _ _ _ Ef). by split; [|left]. }
  destruct (if flag _ _ then _ else _) as [q|orderBy] eqn:Eo.
  { simplify_eq. destruct (flag _ _); [|done]. apply orderingLoop_refusal in Eo as (t&?&->). split; [done|]. right; left. by exists t. }
  destruct (selectFields p i) as [q|[projection wire]] eqn:Es.
  { simplify_eq. unfold selectFields, ParseProjection in Es. destruct (rd_Fields i) as [|tok toks] eqn:Et; [done|].
    destruct (selectTokens (tok :: toks) p ∅ ∅) as [bad|[? ?]] eqn:E; simplify_eq.
    apply selectTokens_refusal in E as (t&?&->). split; [done|]. right; right; left. by exists t. }
  destruct (ValidateControls _ _ _) as [|q qs] eqn:Eg.
  - unfold checkCursors in H. destruct (String.eqb_spec (rd_After i) ""), (String.eqb_spec (rd_Before i) "");
      cbn [negb andb] in H; repeat case_match; simplify_eq; (split; [done|]); do 4 right; by eauto.
  - simplify_eq. split; [done|]. right; right; right; left. exists (cv_Key q). split.
    + eapply gate_carries. rewrite Eg. by left.
    + unfold ControlViolationField. cbn. case_bool_decide; by eauto.
Qed.

End Claims.

(** ** The fields a response carries *)

(** What a selected wire path reads. *)
Definition goPathsOf (p : ProjectionSchema) (w : string) : list string :=
  match pr_Computed p !! w with
  | Some sources => sources
  | None => option_list (pr_Paths p !! w)
  end.

Lemma none_or {A} (x : A) (P : Prop) : None = Some x \/ P <-> P.
Proof. split; [by intros [?|?]|by right]. Qed.

Lemma foldl_flags sources : forall (m : gmap string bool) g,
  foldl (fun m src => <[src := true]> m) m sources !! g = Some true <-> m !! g = Some true \/ g ∈ sources.
Proof.
  induction sources as [|x sources IH]; intros m g; cbn; [set_solver|]. rewrite IH, elem_of_cons.
  destruct (decide (x = g)) as [->|]; [rewrite lookup_insert_eq|rewrite lookup_insert_ne by done]; naive_solver.
Qed.

Lemma selectTokens_spec p tokens : forall paths wire paths' wire',
  selectTokens tokens (Some p) paths wire = inr (paths', wire') ->
  (forall g, paths' !! g = Some true <-> paths !! g = Some true \/ exists w, w ∈ asked tokens /\ g ∈ goPathsOf p w) /\
  (forall w, w ∈ wire' <-> w ∈ wire \/ w ∈ asked tokens).
Proof.
  induction tokens as [|raw tokens IH]; intros paths wire paths' wire' H; cbn [selectTokens] in H.
  { simplify_eq. cbn. set_solver. }
  unfold asked. cbn [fmap list_fmap List.filter]. destruct (String.eqb (trimSpace raw) ""); cbn [negb]; [by apply IH|].
  destruct (pr_Paths p !! trimSpace raw) as [g0|] eqn:Ep; [|done].
  assert (Hg : exists paths1, selectTokens tokens (Some p) paths1 ({[trimSpace raw]} ∪ wire) = inr (paths', wire') /\
    forall g, paths1 !! g = Some true <-> paths !! g = Some true \/ g ∈ goPathsOf p (trimSpace raw)).
  { unfold goPathsOf. rewrite Ep. destruct (pr_Computed p !! trimSpace raw) as [sources|]; eexists; (split; [exact H|]); intros g.
    - by rewrite foldl_flags.
    - cbn. rewrite list_elem_of_singleton. destruct (decide (g0 = g)) as [->|];
        [rewrite lookup_insert_eq|rewrite lookup_insert_ne by done]; naive_solver. }
  destruct Hg as (paths1&Hsel&Hp1). destruct (IH _ _ _ _ Hsel) as [H1 H2]. fold (asked tokens). split.
  - intros g. rewrite H1, Hp1. setoid_rewrite elem_of_cons. naive_solver.
  - intros w. rewrite H2, elem_of_cons. set_solver.
Qed.

Lemma wireByGo_lookup w g entries : forall m : gmap string string,
  (forall e, e ∈ entries -> e.2 = g -> e.1 = w) -> (w, g) ∈ entries \/ m !! g = Some w ->
  foldl (fun m e => <[e.2 := e.1]> m) m entries !! g = Some w.
Proof.
  induction entries as [|[w' g'] entries IH]; intros m Hu Hin; cbn.
  { destruct Hin as [Hin|]; [set_solver|done]. }
  apply IH; [intros e He; apply Hu; set_solver|]. destruct (decide (g' = g)) as [->|Hne].
  - right. rewrite lookup_insert_eq. f_equal. apply (Hu (w', g)); [set_solver|done].
  - rewrite lookup_insert_ne by done. destruct Hin as [Hin|]; [|by right]. apply elem_of_cons in Hin as [?|]; [by simplify_eq|by left].
Qed.

Lemma sortStrings_elem x l : x ∈ sortStrings l <-> x ∈ l.
Proof. by rewrite sortStrings_perm. Qed.

Lemma unrequested_spec entries p wire g :
  g ∈ UnrequestedComputedSources entries p wire <->
  isBlanked entries wire g = true /\ exists w sources, w ∈ wire /\ pr_Computed p !! w = Some sources /\ g ∈ sources.
Proof.
  unfold UnrequestedComputedSources. rewrite sortStrings_elem, elem_of_elements, elem_of_list_to_set, list_elem_of_In, filter_In, <- list_elem_of_In.
  rewrite list_elem_of_join. setoid_rewrite list_elem_of_fmap. setoid_rewrite elem_of_elements. split.
  - intros [(l&Hg&w&->&Hw) Hb]. split; [done|]. exists w. destruct (pr_Computed p !! w) as [sources|] eqn:E; [|set_solver].
    by exists sources.
  - intros [Hb (w&sources&Hw&E&Hg)]. split; [|done]. exists sources. split; [done|]. exists w. by rewrite E.
Qed.

(** With a selection that narrows, a stored field of the Response is read and left unblanked
    exactly when the request asked for it by its wire path: a field read only to feed a
    computed one never reaches the wire, and no field asked for is lost. *)
Theorem stored_field_is_rendered_iff_asked p entries tokens proj wire w g :
  (forall w1 w2 g', pr_Paths p !! w1 = Some g' -> pr_Paths p !! w2 = Some g' -> w1 = w2) ->
  entries ≡ₚ map_to_list (pr_Paths p) ->
  ParseProjection tokens (Some p) = inr (proj, wire) -> Narrows proj = true ->
  pr_Paths p !! w = Some g -> pr_Computed p !! w = None ->
  Keeps proj g = true /\ g ∉ UnrequestedComputedSources entries p wire <-> w ∈ asked tokens.
Proof.
  intros Hinj Hent Hp Hn Hw Hc.
  assert (Hkeep : forall g, Keeps proj g = true <-> exists w, w ∈ asked tokens /\ g ∈ goPathsOf p w).
  2: assert (Hwire : forall w, w ∈ wire <-> w ∈ asked tokens).
  1, 2: unfold ParseProjection in Hp; destruct tokens as [|tok toks]; [by simplify_eq|];
    destruct (selectTokens _ _ _ _) as [bad|[paths wire0]] eqn:E; [done|];
    destruct (selectTokens_spec _ _ _ _ _ _ E) as [H1 H2]; case_bool_decide; simplify_eq.
  { intros g0. unfold Keeps. rewrite Hn. cbn. unfold Selects. cbn.
    specialize (H1 g0). rewrite lookup_empty, none_or in H1. rewrite <- H1. by destruct (paths !! g0) as [[]|]. }
  { intros w0. rewrite H2. set_solver. }
  assert (Hblank : isBlanked entries wire g = negb (bool_decide (w ∈ asked tokens))).
  { unfold isBlanked, wireByGo. rewrite (wireByGo_lookup w g).
    - by rewrite (bool_decide_ext _ _ (Hwire w)).
    - intros [w' g'] He Heq. cbn in *. subst g'. rewrite Hent in He. apply elem_of_map_to_list in He. by eapply Hinj.
    - left. rewrite Hent. by apply elem_of_map_to_list. }
  rewrite Hkeep, unrequested_spec, Hblank. split.
  - intros [(w'&Ha&Hg) Hu]. destruct (bool_decide_reflect (w ∈ asked tokens)) as [|Hna]; [done|]. exfalso.
    unfold goPathsOf in Hg. destruct (pr_Computed p !! w') as [sources|] eqn:E.
    + apply Hu. split; [done|]. exists w', sources. by rewrite Hwire.
    + destruct (pr_Paths p !! w') as [g'|] eqn:Ew'; [|set_solver]. apply list_elem_of_singleton in Hg as ->.
      apply Hna. by rewrite (Hinj w w' g').
  - intros Ha. rewrite bool_decide_true by done. split; [|by intros [? _]]. exists w. unfold goPathsOf. rewrite Hc, Hw. set_solver.
Qed.

(** ** Decoding a query string *)

(** Everything a decoded request says comes from an argument of the query string. *)
Record FromArgs (args : list (string * string)) (i : Read) : Prop := {
  from_filters : forall t, t ∈ rd_Filters i -> ft_Raw t ∈ args.*1;
  from_order : forall t, t ∈ rd_OrderBy i -> exists val, (KeyOrderBy, val) ∈ args /\ ot_Raw t ∈ splitList val;
  from_fields : forall t, t ∈ rd_Fields i -> exists val, (KeyFields, val) ∈ args /\ t ∈ splitList val;
  from_controls : forall key, carries (rd_Controls i) key = true -> key ∈ args.*1;
  from_after : rd_After i <> "" -> KeyAfter ∈ args.*1;
  from_before : rd_Before i <> "" -> KeyBefore ∈ args.*1
}.


(** The controls on the wire, one by one. *)
Lemma carries_iff c key : carries c key = true <->
  (KeyFirst = key /\ present (ct_First c) = true) \/ (KeyLast = key /\ present (ct_Last c) = true) \/
  (KeyAfter = key /\ ct_After c = true) \/ (KeyBefore = key /\ ct_Before c = true) \/
  (KeyOrderBy = key /\ ct_OrderBy c = true) \/ (KeyFields = key /\ ct_Fields c = true) \/
  (KeySearch = key /\ ct_Search c = true) \/ (KeyIncludeArchived = key /\ ct_IncludeArchived c = true) \/
  (KeyOnlyTotal = key /\ present (ct_OnlyTotal c) = true).
Proof.
  unfold carries, controlsPresent. cbn [existsb fst snd]. by rewrite orb_false_r, !orb_true_iff, !andb_true_iff, !String.eqb_eq.
Qed.

Lemma carries_update key c' c :
  Forall2 (fun p' p => p'.1 = p.1 /\ (p'.2 = p.2 \/ key = p'.1)) (controlsPresent c') (controlsPresent c) ->
  forall k, carries c' k = true -> key = k \/ carries c k = true.
Proof.
  unfold carries. generalize (controlsPresent c'), (controlsPresent c). intros l' l Hl k.
  induction Hl as [|[k' b'] [k0 b] l' l [Hk Hb] _ IH]; cbn [existsb]; [done|]. cbn in Hk, Hb |- *. subst k0.
  rewrite !orb_true_iff, !andb_true_iff, String.eqb_eq. intros [[<- ->]|H]; [|destruct (IH H); by auto].
  destruct Hb as [<-|<-]; by auto.
Qed.

(** One control decoded: it is on the wire, and what it says comes from its value. *)
Lemma decodeControl_from args key val i i' :
  FromArgs args i -> (key, val) ∈ args -> decodeControl key val i = Some i' -> FromArgs args i'.
Proof.
  intros [H1 H2 H3 H4 H5 H6] Hin H. assert (Hkey : key ∈ args.*1) by (by apply (list_elem_of_fmap_2 fst) in Hin).
  assert (Hc : forall c', (forall k, carries c' k = true -> key = k \/ carries (rd_Controls i) k = true) ->
    forall k, carries c' k = true -> k ∈ args.*1).
  { intros c' Hc k Hk. destruct (Hc k Hk) as [<-|]; [done|by apply H4]. }
  assert (Ho : key = KeyOrderBy -> forall t, t ∈ rd_OrderBy i ++ decodeOrderTokens val ->
    exists v, (KeyOrderBy, v) ∈ args /\ ot_Raw t ∈ splitList v).
  { intros -> t [Ht|Ht]%elem_of_app; [by apply H2|]. exists val. split; [done|].
    unfold decodeOrderTokens in Ht. apply list_elem_of_fmap in Ht as (tok&->&Htok).
    destruct tok as [|[[] [] [] [] [] [] [] []] tok]; exact Htok. }
  assert (Hf : key = KeyFields -> forall t, t ∈ rd_Fields i ++ splitList val -> exists v, (KeyFields, v) ∈ args /\ t ∈ splitList v).
  { intros -> t [Ht|Ht]%elem_of_app; [by apply H3|]. by exists val. }
  unfold decodeControl in H. cbv zeta in H.
  repeat match type of H with (if String.eqb key ?k then _ else _) = _ =>
    destruct (String.eqb_spec key k) as [->|];
      [ first [injection H as <-|apply bind_Some in H as (?&_&H); injection H as <-];
        constructor; cbn [rd_Controls rd_Filters rd_OrderBy rd_Fields rd_After rd_Before setControls];
        first [ exact H1 | exact H2 | exact H3 | exact H5 | exact H6 | exact (Ho eq_refl) | exact (Hf eq_refl) | by intros _
              | apply Hc, carries_update; unfold controlsPresent;
                repeat (apply List.Forall2_cons; [split; [reflexivity|first [left; reflexivity|right; reflexivity]]|]); by constructor ]
      |] end.
  injection H as <-. by constructor.
Qed.

Lemma decodeQuery_from s ignored args rest : forall i i',
  (forall a, a ∈ rest -> a ∈ args) -> FromArgs args i -> decodeQuery s ignored rest i = inr i' -> FromArgs args i'.
Proof.
  induction rest as [|[key val] rest IH]; intros i i' Hs Hi H; cbn [decodeQuery] in H; [by simplify_eq|].
  destruct (decodeArg s ignored key val i) as [i1|] eqn:E; [|done].
  apply (IH i1 i'); [intros a Ha; apply Hs; by right| |done].
  assert (Hin : (key, val) ∈ args) by (apply Hs; by left). unfold decodeArg in E.
  destruct (ControlKeys key && _).
  - destruct (flag ignored key); [by simplify_eq|]. by eapply decodeControl_from.
  - destruct (ParseKeyAgainstSchema key s) as [path op]. destruct (String.eqb path ""); [done|]. simplify_eq.
    destruct Hi as [H1 H2 H3 H4 H5 H6]. constructor; try done. cbn. intros t [Ht|Ht]%elem_of_app; [by apply H1|].
    apply list_elem_of_singleton in Ht as ->. cbn. by apply (list_elem_of_fmap_2 fst) in Hin.
Qed.

Lemma zeroRead_from args : FromArgs args zeroRead.
Proof.
  constructor; cbn [zeroRead rd_Filters rd_OrderBy rd_Fields rd_After rd_Before rd_Controls]; try done; try (intros t Ht; by apply elem_of_nil in Ht).
  intros key Hk. apply carries_iff in Hk. naive_solver.
Qed.

Lemma decodeQuery_refusal s ignored args v : forall i, decodeQuery s ignored args i = inl v ->
  exists key, key ∈ args.*1 /\ v = SchemaViolation key.
Proof.
  induction args as [|[key val] args IH]; intros i H; cbn [decodeQuery] in H; [done|].
  destruct (decodeArg s ignored key val i) as [i1|].
  - destruct (IH _ H) as (k&?&?). exists k. split; [cbn; by right|done].
  - simplify_eq. exists key. split; [cbn; by left|done].
Qed.

(** The field a refusal is reported under, for an argument of the query string. *)
Definition spells (key val field : string) : Prop :=
  field = key \/ field = KeyOnlyTotal +:+ "[" +:+ key +:+ "]" \/
  (key = KeyOrderBy /\ exists tok, tok ∈ splitList val /\ field = orderByField tok) \/
  (key = KeyFields /\ exists tok, tok ∈ splitList val /\ field = fieldsField (trimSpace tok)).

(** A refused query string is answered as a schema violation, a 400, that names an argument
    the request carried: its key, the control it conflicts with, or the very token of the
    ordering or the selection that is not declared. *)
Theorem refusals_name_the_request parseRFC3339 parseDuration parseFloat isUUID {Key : Type} decodeBase64
    (decodePayload : string -> option (Z * list Key * string)) s p args v :
  readCriteria parseRFC3339 parseDuration parseFloat isUUID decodeBase64 decodePayload s p args = inl v ->
  Semantic (violationNotification v) = SemanticSchema /\
  exists key val, (key, val) ∈ args /\ spells key val (vi_Field v).
Proof.
  unfold readCriteria. intros H. assert (Hk : forall k, k ∈ args.*1 -> vi_Field v = k \/ vi_Field v = KeyOnlyTotal +:+ "[" +:+ k +:+ "]" ->
    exists key val, (key, val) ∈ args /\ spells key val (vi_Field v)).
  { intros k ([key val]&->&Hin)%list_elem_of_fmap Hf. exists key, val. split; [done|]. unfold spells. cbn in Hf. tauto. }
  destruct (decodeQuery s ∅ args zeroRead) as [q|i] eqn:E.
  { simplify_eq. apply decodeQuery_refusal in E as (key&Hkey&->). split; [done|]. apply (Hk key); [done|by left]. }
  apply build_refusal in H as [Hs Hn]. split; [done|].
  apply (decodeQuery_from _ _ args) in E as [H1 H2 H3 H4 H5 H6]; [|done|apply zeroRead_from].
  destruct Hn as [(t&Ht&Hf)|[(t&Ht&Hf)|[(t&Ht&Hf)|[(key&Hc&Hf)|[[Hf Hne]|[Hf Hne]]]]]].
  - apply (Hk (ft_Raw t)); [by apply H1|by left].
  - destruct (H2 t Ht) as (val&?&?). exists KeyOrderBy, val. split; [done|]. unfold spells. by eauto 8.
  - destruct (H3 t Ht) as (val&?&?). exists KeyFields, val. split; [done|]. unfold spells. by eauto 8.
  - apply (Hk key); [by apply H4|done].
  - apply (Hk KeyAfter); [by apply H5|by left].
  - apply (Hk KeyBefore); [by apply H6|by left].
Qed.

(** ** Spelling a request *)

(** A token of a list: not empty, nothing to trim, no comma. *)
Definition cleanToken (t : string) : Prop := t <> "" /\ trimSpace t = t /\ lacks "," t.

Lemma splitList_join tokens : Forall cleanToken tokens -> splitList (joinStr "," tokens) = tokens.
Proof.
  intros Hall. assert (Hs : tokens = [] \/ splitByte "," (joinStr "," tokens) = tokens).
  { destruct tokens as [|t tokens]; [by left|]. right. apply splitByte_join; [done|]. eapply Forall_impl; [exact Hall|]. by intros x (_&_&?). }
  unfold splitList. destruct Hs as [->| ->]; [done|]. induction Hall as [|t tokens (Hne&Ht&_) _ IH]; [done|].
  cbn [fmap list_fmap List.filter]. rewrite Ht. apply String.eqb_neq in Hne. rewrite Hne. cbn [negb]. by rewrite IH.
Qed.

(** The key of a filter and the token of an ordering term. *)
Definition termKey (path op : string) : string := if String.eqb op "" then path else path +:+ "." +:+ op.
Definition orderToken (path : string) (desc : bool) : string := if desc then String "-" path else path.

Definition whenOn (on : bool) (key val : string) : list (string * string) := if on then [(key, val)] else [].

(** A request as a query string. *)
Definition spellRead (i : Read) : list (string * string) :=
  let c := rd_Controls i in
  ((fun t => (ft_Raw t, joinStr "," (ft_Values t))) <$> rd_Filters i) ++
  whenOn (present (ct_First c)) KeyFirst (itoa (default 0%Z (ct_First c))) ++
  whenOn (present (ct_Last c)) KeyLast (itoa (default 0%Z (ct_Last c))) ++
  whenOn (ct_After c) KeyAfter (rd_After i) ++
  whenOn (ct_Before c) KeyBefore (rd_Before i) ++
  whenOn (ct_OrderBy c) KeyOrderBy (joinStr "," (ot_Raw <$> rd_OrderBy i)) ++
  whenOn (ct_Fields c) KeyFields (joinStr "," (rd_Fields i)) ++
  whenOn (ct_Search c) KeySearch (rd_Search i) ++
  whenOn (ct_IncludeArchived c) KeyIncludeArchived (fmtT (rd_IncludeArchived i)) ++
  whenOn (present (ct_OnlyTotal c)) KeyOnlyTotal (fmtT (default false (ct_OnlyTotal c))).

Definition startsWithMinus (t : string) : bool := String.prefix "-" t.

(** What the grammar can spell against a schema: filters of declared leaves whose
    key is not a leaf of its own, tokens without commas, sizes of 63 bits, and
    values only where the control is on. *)
Record Spellable (s : RequestSchema) (i : Read) : Prop := {
  sp_filters : Forall (fun t => ft_Path t <> "" /\ is_Some (rs_Filters s !! ft_Path t) /\ ft_Raw t = termKey (ft_Path t) (ft_Op t) /\
      (ft_Op t = "" \/ (knownOps (ft_Op t) = true /\ rs_Filters s !! ft_Raw t = None)) /\
      (if OperatorTakesList (ft_Op t) then Forall cleanToken (ft_Values t) else exists v, ft_Values t = [v])) (rd_Filters i);
  sp_order : Forall (fun t => ot_Raw t = orderToken (ot_Path t) (ot_Desc t) /\ cleanToken (ot_Raw t) /\
      (ot_Desc t = false -> startsWithMinus (ot_Path t) = false)) (rd_OrderBy i);
  sp_fields : Forall cleanToken (rd_Fields i);
  sp_controls : forall key, ControlKeys key = true -> rs_Filters s !! key = None;
  sp_first : forall n, ct_First (rd_Controls i) = Some n -> (0 <= n <= int64_max)%Z;
  sp_last : forall n, ct_Last (rd_Controls i) = Some n -> (0 <= n <= int64_max)%Z;
  sp_after : ct_After (rd_Controls i) = false -> rd_After i = "";
  sp_before : ct_Before (rd_Controls i) = false -> rd_Before i = "";
  sp_noOrder : ct_OrderBy (rd_Controls i) = false -> rd_OrderBy i = [];
  sp_noFields : ct_Fields (rd_Controls i) = false -> rd_Fields i = [];
  sp_search : ct_Search (rd_Controls i) = false -> rd_Search i = "";
  sp_archived : ct_IncludeArchived (rd_Controls i) = false -> rd_IncludeArchived i = false;
  sp_natural : rd_Natural i = ∅;
  sp_projection : rd_Projection i = wholeDocument
}.

Lemma decodeQuery_app s ignored a b i :
  decodeQuery s ignored (a ++ b) i = match decodeQuery s ignored a i with inl v => inl v | inr i' => decodeQuery s ignored b i' end.
Proof. revert i. induction a as [|[key val] a IH]; intros i; [done|]. cbn. by destruct (decodeArg s ignored key val i). Qed.

(** One control of a spelled request. *)
Lemma decode_on s key val i on :
  (forall key, ControlKeys key = true -> rs_Filters s !! key = None) -> ControlKeys key = true ->
  decodeQuery s ∅ (whenOn on key val) i =
    if on then match decodeControl key val i with Some i' => inr i' | None => inl (SchemaViolation key) end else inr i.
Proof.
  intros Hf Hk. destruct on; [|done]. cbn [whenOn decodeQuery]. unfold decodeArg. rewrite Hk, (Hf key Hk). cbn [negb present].
  change (bool_decide (is_Some (@None FilterSpec))) with false. cbn [andb negb]. unfold flag. rewrite lookup_empty. cbn [default].
  done.
Qed.

Lemma existsb_eqb key l : existsb (String.eqb key) l = true -> key ∈ l.
Proof. intros (k&Hin&->%String.eqb_eq)%existsb_exists. by apply list_elem_of_In. Qed.

Lemma all_lack b l key : Forall (lacks b) l -> existsb (String.eqb key) l = true -> lacks b key.
Proof. intros Hl Hk%existsb_eqb. rewrite Forall_forall in Hl. by apply Hl. Qed.

Lemma knownOps_lack op : knownOps op = true -> lacks "." op.
Proof. apply all_lack. repeat constructor. Qed.

Lemma ControlKeys_lack key : ControlKeys key = true -> lacks "." key.
Proof. apply all_lack. repeat constructor. Qed.

Lemma dotted_lacks path op : ~ lacks "." (path +:+ String "." op).
Proof.
  intros H. induction path as [|c path IH]; [rewrite string_app_nil_l in H|rewrite string_app_cons in H]; apply lacks_cons in H as [? H]; [done|].
  by apply IH.
Qed.

Lemma beforeLast_lacks b s : lacks b s -> beforeLast (String b "") s = None.
Proof.
  induction s as [|c s IH]; intros Hs; [done|]. apply lacks_cons in Hs as [Hc Hs]. cbn [beforeLast String.prefix].
  rewrite IH by done. by destruct (ascii_dec b c).
Qed.

(** The key of a declared leaf with an operator is read as that leaf and operator,
    unless it is the key of a leaf of its own. *)
Lemma parseKey_dotted s path op :
  is_Some (rs_Filters s !! path) -> knownOps op = true -> rs_Filters s !! (path +:+ String "." op) = None ->
  ParseKeyAgainstSchema (path +:+ String "." op) s = (path, op).
Proof.
  intros Hp Hop Hn. pose proof (knownOps_lack op Hop) as Hl. unfold ParseKeyAgainstSchema. rewrite Hn.
  change (present (@None FilterSpec)) with false. cbv iota.
  rewrite (beforeLast_app "." path (String "." op)), afterLast_byte, Hop by
    (try done; cbn [beforeLast String.prefix]; rewrite beforeLast_lacks by done; by destruct op).
  cbn [negb]. unfold present. by rewrite bool_decide_true.
Qed.

Lemma decode_filter s t i :
  ft_Path t <> "" -> is_Some (rs_Filters s !! ft_Path t) -> ft_Raw t = termKey (ft_Path t) (ft_Op t) ->
  (ft_Op t = "" \/ (knownOps (ft_Op t) = true /\ rs_Filters s !! ft_Raw t = None)) ->
  (if OperatorTakesList (ft_Op t) then Forall cleanToken (ft_Values t) else exists v, ft_Values t = [v]) ->
  decodeArg s ∅ (ft_Raw t) (joinStr "," (ft_Values t)) i = Some (addFilter t i).
Proof.
  destruct t as [path op values raw]. cbn [ft_Path ft_Op ft_Values ft_Raw]. intros Hne Hsome -> Hop Hv.
  assert (Hparse : ParseKeyAgainstSchema (termKey path op) s = (path, op) /\
    (ControlKeys (termKey path op) && negb (present (rs_Filters s !! termKey path op))) = false).
  { unfold termKey in *. destruct (String.eqb_spec op "") as [->|Hopne].
    - unfold ParseKeyAgainstSchema, present. rewrite (bool_decide_true _ Hsome). split; [done|]. apply andb_false_r.
    - destruct Hop as [?|[Hop Hn]]; [done|]. split; [by apply parseKey_dotted|].
      destruct (ControlKeys _) eqn:E; [|done]. exfalso. by apply ControlKeys_lack, dotted_lacks in E. }
  destruct Hparse as [Hparse Hctl]. unfold decodeArg. rewrite Hctl, Hparse. apply String.eqb_neq in Hne. rewrite Hne.
  do 3 f_equal. destruct (OperatorTakesList op); [by rewrite splitList_join|]. by destruct Hv as [v ->].
Qed.

Lemma decode_filters s terms : forall i,
  Forall (fun t => ft_Path t <> "" /\ is_Some (rs_Filters s !! ft_Path t) /\ ft_Raw t = termKey (ft_Path t) (ft_Op t) /\
      (ft_Op t = "" \/ (knownOps (ft_Op t) = true /\ rs_Filters s !! ft_Raw t = None)) /\
      (if OperatorTakesList (ft_Op t) then Forall cleanToken (ft_Values t) else exists v, ft_Values t = [v])) terms ->
  decodeQuery s ∅ ((fun t => (ft_Raw t, joinStr "," (ft_Values t))) <$> terms) i =
    inr (mkRead (rd_Controls i) (rd_Natural i) (rd_Filters i ++ terms) (rd_OrderBy i) (rd_Fields i) (rd_Projection i) (rd_Search i)
      (rd_IncludeArchived i) (rd_After i) (rd_Before i)).
Proof.
  induction terms as [|t terms IH]; intros i Hall; cbn [fmap list_fmap decodeQuery]; [rewrite app_nil_r; by destruct i|].
  apply Forall_cons in Hall as [(?&?&?&?&?) Hall]. rewrite decode_filter by done. rewrite IH by done.
  unfold addFilter. cbn. by rewrite <- app_assoc.
Qed.

Lemma decodeOrder_spell terms :
  Forall (fun t => ot_Raw t = orderToken (ot_Path t) (ot_Desc t) /\ cleanToken (ot_Raw t) /\
      (ot_Desc t = false -> startsWithMinus (ot_Path t) = false)) terms ->
  decodeOrderTokens (joinStr "," (ot_Raw <$> terms)) = terms.
Proof.
  intros Hall. unfold decodeOrderTokens. rewrite splitList_join.
  2: { apply Forall_fmap. eapply Forall_impl; [exact Hall|]. by intros t (_&?&_). }
  induction Hall as [|[path desc raw] terms (Hraw&_&Hm) _ IH]; [done|]. cbn in Hraw, Hm. subst raw.
  cbn [fmap list_fmap ot_Raw]. rewrite IH. f_equal. destruct desc; [done|]. cbn. specialize (Hm eq_refl).
  destruct path as [|[[] [] [] [] [] [] [] []] path]; try done. unfold startsWithMinus in Hm. cbn in Hm. by destruct path.
Qed.

Lemma parseBool_fmtT b : ParseControlBool (fmtT b) = Some b.
Proof. by destruct b. Qed.

(** The next control, after which the request is [i']. *)
Ltac step Hctl i' := rewrite decodeQuery_app, (Hctl _ _ _ _ i'); [|done|..].

Lemma atoi_size o : (forall n, o = Some n -> (0 <= n <= int64_max)%Z) -> present o = true -> atoi (itoa (default 0%Z o)) = Some (default 0%Z o).
Proof. intros H Ho. destruct o as [n|]; [|done]. apply atoi_itoa. by apply H. Qed.

(** C29: A request the grammar can spell is read back from its query string as it is: every filter
    with its path, operator and operands in order, the ordering, the selection and every
    control with its value. *)
Theorem spelled_requests_are_read_back s i :
  Spellable s i -> decodeQuery s ∅ (spellRead i) zeroRead = inr i.
Proof.
  intros [Hf Ho Hs Hc Hfirst Hlast Ha Hb Hno Hnf Hse Har Hn Hp].
  destruct i as [[cf cl ca cb co cs ch ci ct] natural filters order fields projection search archived after bef]. cbn in *. subst natural projection.
  unfold spellRead. cbn [rd_Controls rd_Filters rd_OrderBy rd_Fields rd_Search rd_IncludeArchived rd_After rd_Before
    ct_First ct_Last ct_After ct_Before ct_OrderBy ct_Fields ct_Search ct_IncludeArchived ct_OnlyTotal].
  rewrite decodeQuery_app, decode_filters by done.
  assert (Hctl : forall on key val i i', ControlKeys key = true -> (on = true -> decodeControl key val i = Some i') -> (on = false -> i = i') ->
    decodeQuery s ∅ (whenOn on key val) i = inr i').
  { intros on key val i i' Hk Hon Hoff. rewrite decode_on by done. destruct on; [by rewrite Hon|by rewrite Hoff]. }
  cbn [rd_Controls rd_Natural rd_Filters rd_OrderBy rd_Fields rd_Projection rd_Search rd_IncludeArchived rd_After rd_Before zeroRead].
  step Hctl (mkRead (mkControls cf None false false false false false false None) ∅ filters [] [] wholeDocument "" false "" "").
  2: { intros Hon. unfold decodeControl. cbn [String.eqb]. rewrite atoi_size by done. by destruct cf. }
  2: { by destruct cf. }
  step Hctl (mkRead (mkControls cf cl false false false false false false None) ∅ filters [] [] wholeDocument "" false "" "").
  2: { intros Hon. unfold decodeControl. cbn [String.eqb]. rewrite atoi_size by done. by destruct cl. }
  2: { by destruct cl. }
  step Hctl (mkRead (mkControls cf cl ca false false false false false None) ∅ filters [] [] wholeDocument "" false after "").
  2: { by intros ->. } 2: { intros ->. by rewrite Ha. }
  step Hctl (mkRead (mkControls cf cl ca cb false false false false None) ∅ filters [] [] wholeDocument "" false after bef).
  2: { by intros ->. } 2: { intros ->. by rewrite Hb. }
  step Hctl (mkRead (mkControls cf cl ca cb co false false false None) ∅ filters order [] wholeDocument "" false after bef).
  2: { intros ->. cbn -[decodeOrderTokens]. by rewrite decodeOrder_spell. } 2: { intros ->. by rewrite Hno. }
  step Hctl (mkRead (mkControls cf cl ca cb co cs false false None) ∅ filters order fields wholeDocument "" false after bef).
  2: { intros ->. cbn -[splitList]. by rewrite splitList_join. } 2: { intros ->. by rewrite Hnf. }
  step Hctl (mkRead (mkControls cf cl ca cb co cs ch false None) ∅ filters order fields wholeDocument search false after bef).
  2: { by intros ->. } 2: { intros ->. by rewrite Hse. }
  step Hctl (mkRead (mkControls cf cl ca cb co cs ch ci None) ∅ filters order fields wholeDocument search archived after bef).
  2: { intros ->. unfold decodeControl. cbn [String.eqb]. by rewrite parseBool_fmtT. } 2: { intros ->. by rewrite Har. }
  apply Hctl; [done|..].
  - intros Hon. unfold decodeControl. cbn [String.eqb]. rewrite parseBool_fmtT. by destruct ct.
  - by destruct ct.
Qed.

(** ** A sample endpoint *)

Module ShopGrammar.

Definition leafField (name query filter : string) (sort : option string) : DtoField :=
  mkDtoField name true false query filter sort "" None.

Definition wireField (name json : string) (computed : option string) : DtoField :=
  mkDtoField name true false "" "" None json computed.

Definition text : DtoType := DPointer (DScalar KindString).

Definition listOrders : DtoType := DStruct
  [ (leafField "Status" "status" "eq,in,ne" (Some "asc,desc"), text);
    (leafField "Amount" "amount" "gte,lte" None, DPointer (DScalar KindInt));
    (leafField "Address" "address" "" None, DPointer (DStruct [(leafField "City" "city" "eq" (Some "asc"), text)]));
    (leafField "OrderBy" "orderBy" "" None, text);
    (leafField "Fields" "fields" "" None, text);
    (leafField "First" "first" "" None, DPointer (DScalar KindInt)) ].

Definition order : DtoType := DStruct
  [ (wireField "ID" "id,omitempty" None, DPointer DID);
    (wireField "Status" "status,omitempty" None, text);
    (wireField "Amount" "amount,omitempty" None, DPointer (DScalar KindInt));
    (wireField "Display" "display,omitempty" (Some "Status, Amount"), text);
    (wireField "Address" "address,omitempty" None,
       DPointer (DStruct [(wireField "City" "city,omitempty" None, text); (wireField "Label" "label,omitempty" (Some "City"), text)])) ].

Definition schemaOf (t : DtoType) : RequestSchema :=
  match ExtractRequestSchema t with Ret s => s | _ => emptySchema end.

Definition orders : RequestSchema := schemaOf listOrders.
Definition response : ProjectionSchema := ExtractProjectionSchema order.

Definition noText : string -> option string := fun _ => None.
Notation read := (readCriteria noText (fun _ => None) noText (fun _ => true) noText
  (fun _ : string => None : option (Z * list string * string))).

Definition rangeRead : Read :=
  mkRead (mkControls (Some 10%Z) None false false true true false false None) ∅
    [mkFilterTerm "amount" "gte" ["5"] "amount.gte"; mkFilterTerm "amount" "lte" ["9"] "amount.lte";
     mkFilterTerm "status" "in" ["open"; "late"] "status.in"]
    [mkOrderTerm "status" true "-status"; mkOrderTerm "address.city" false "address.city"] ["display"; "amount"] wholeDocument "" false "" "".

Definition rangeArgs : list (string * string) :=
  [("amount.gte", "5"); ("amount.lte", "9"); ("status.in", "open,late"); ("first", "10"); ("orderBy", "-status,address.city");
   ("fields", "display,amount")].

Notation buildOrders := (BuildCriteria noText (fun _ => None) noText (fun _ => true) noText
  (fun _ : string => None : option (Z * list string * string)) orders (Some response)).

(** The criteria of an accepted request, and the selection of accepted tokens. *)
Definition noCriteria : ReadCriteria := mkCriteria ∅ [] wholeDocument 0 "" "" false "" false false false.
Definition accepted (r : Violation + (ReadCriteria * gset string)) : ReadCriteria * gset string :=
  match r with inr a => a | inl _ => (noCriteria, ∅) end.
Definition selected (tokens : list string) : Projection * gset string :=
  match ParseProjection tokens (Some response) with inr a => a | inl _ => (wholeDocument, ∅) end.

Lemma range_accepted : buildOrders rangeRead = inr ((accepted (buildOrders rangeRead)).1, (accepted (buildOrders rangeRead)).2).
Proof. vm_compute. reflexivity. Qed.

Lemma range_clauses :
  conjunction (omap (termClause noText (fun _ => None) noText (fun _ => true) orders "Amount") (rd_Filters rangeRead)) =
  Some (FMultiClause [FClause "gte" [FInt 5]; FClause "lte" [FInt 9]]).
Proof. vm_compute. reflexivity. Qed.

Lemma filter_is_the_conjunction_of_its_terms_witness :
  rc_Filter (accepted (buildOrders rangeRead)).1 !! "Amount" = Some (FMultiClause [FClause "gte" [FInt 5]; FClause "lte" [FInt 9]]).
Proof. exact (eq_trans (filter_is_the_conjunction_of_its_terms _ _ _ _ _ _ _ _ _ _ _ "Amount" range_accepted) range_clauses). Defined.

Lemma orders_filters path : is_Some (rs_Filters orders !! path) <-> path ∈ ["status"; "amount"; "address.city"].
Proof.
  rewrite <- elem_of_dom. assert (dom (rs_Filters orders) = {["status"; "amount"; "address.city"]}) as -> by (vm_compute; reflexivity).
  set_solver.
Qed.

#[local] Opaque orders.

Lemma range_spellable : Spellable orders rangeRead.
Proof.
  assert (Hno : forall key, key ∉ ["status"; "amount"; "address.city"] -> rs_Filters orders !! key = None).
  { intros key Hk. apply eq_None_not_Some. by rewrite orders_filters. }
  assert (Hf : forall path op values, path ∈ ["status"; "amount"; "address.city"] -> knownOps op = true ->
    termKey path op ∉ ["status"; "amount"; "address.city"] -> path <> "" ->
    (if OperatorTakesList op then Forall cleanToken values else exists v, values = [v]) ->
    path <> "" /\ is_Some (rs_Filters orders !! path) /\ termKey path op = termKey path op /\
      (op = "" \/ (knownOps op = true /\ rs_Filters orders !! termKey path op = None)) /\
      (if OperatorTakesList op then Forall cleanToken values else exists v, values = [v])).
  { intros path op values Hp Hop Hkey Hne Hv. split_and!; [done|by apply orders_filters|done| |done]. right. split; [done|by apply Hno]. }
  constructor; cbn [rangeRead rd_Filters rd_OrderBy rd_Fields rd_Controls ct_First ct_Last]; try done.
  - apply Forall_cons; split; [apply (Hf "amount" "gte" ["5"]); [apply (bool_decide_unpack _); exact I|done|apply (bool_decide_unpack _); exact I|done|by eexists]|].
    apply Forall_cons; split; [apply (Hf "amount" "lte" ["9"]); [apply (bool_decide_unpack _); exact I|done|apply (bool_decide_unpack _); exact I|done|by eexists]|].
    apply Forall_cons; split; [apply (Hf "status" "in" ["open"; "late"]); [apply (bool_decide_unpack _); exact I|done|apply (bool_decide_unpack _); exact I|done|]|done].
    repeat (apply Forall_cons; split; [by split_and!|]). done.
  - repeat (apply Forall_cons; split; [by repeat split|]). done.
  - repeat (apply Forall_cons; split; [by split_and!|]). done.
  - assert (Forall (fun key => key ∉ ["status"; "amount"; "address.city"]) controlKeyList) as Hk
      by (apply (bool_decide_unpack _); exact I).
    intros key Hkey%existsb_eqb. apply Hno. by apply (proj1 (Forall_forall _ _) Hk).
  - by intros n [= <-].
Qed.

#[local] Transparent orders.

Lemma spelled_requests_are_read_back_witness :
  spellRead rangeRead = rangeArgs /\ decodeQuery orders ∅ (spellRead rangeRead) zeroRead = inr rangeRead.
Proof. split; [vm_compute; reflexivity|]. exact (spelled_requests_are_read_back orders rangeRead range_spellable). Defined.

Definition refusedArgs : list (string * string) := [("status", "open"); ("orderBy", "status,-address.city")].

Lemma refused : read orders (Some response) refusedArgs = inl (SchemaViolation "orderBy[-address.city]").
Proof. vm_compute. reflexivity. Qed.

Lemma refusals_name_the_request_witness :
  exists key val, (key, val) ∈ refusedArgs /\ spells key val "orderBy[-address.city]".
Proof. exact (proj2 (refusals_name_the_request _ _ _ _ _ _ _ _ _ _ refused)). Defined.

Lemma response_injective w1 w2 g : pr_Paths response !! w1 = Some g -> pr_Paths response !! w2 = Some g -> w1 = w2.
Proof.
  intros H1%elem_of_map_to_list H2%elem_of_map_to_list.
  assert (Hl : exists l, map_to_list (pr_Paths response) = l) by by eexists. destruct Hl as [l Hl]. rewrite Hl in H1, H2.
  vm_compute in Hl. subst l. rewrite !elem_of_cons, elem_of_nil in H1, H2. naive_solver.
Qed.

Definition hidden (tokens : list string) : list string :=
  UnrequestedComputedSources (map_to_list (pr_Paths response)) response (selected tokens).2.

(** The source of a selected computed field is read and blanked, the other one was
    asked for. *)
Lemma sources_hidden : Keeps (selected ["display"; "amount"]).1 "Status" = true /\ hidden ["display"; "amount"] = ["Status"].
Proof. split; vm_compute; reflexivity. Qed.

Lemma stored_field_is_rendered_iff_asked_witness :
  Keeps (selected ["display"; "amount"]).1 "Amount" = true /\ "Amount" ∉ hidden ["display"; "amount"] <-> "amount" ∈ asked ["display"; "amount"].
Proof.
  apply (stored_field_is_rendered_iff_asked response (map_to_list (pr_Paths response)) ["display"; "amount"]
    (selected ["display"; "amount"]).1 (selected ["display"; "amount"]).2 "amount" "Amount" response_injective);
    [reflexivity|vm_compute; reflexivity..].
Defined.

(** An empty operand of a list operator is no operand: the filter is dropped and the
    read is of the whole collection, where an empty operand of a scalar operator is
    a predicate. *)
Theorem empty_list_filter_is_dropped :
  read orders (Some response) [("status.in", "")] = inr (noCriteria, ∅) /\
  exists crit, read orders (Some response) [("status", "")] = inr (crit, ∅) /\ rc_Filter crit = {["Status" := FString ""]}.
Proof.
  split; [vm_compute; reflexivity|]. exists (accepted (read orders (Some response) [("status", "")])).1. split; vm_compute; reflexivity.
Qed.

(** A source under a selected parent is blanked although the parent was asked for. *)
Theorem selecting_a_parent_loses_a_source :
  Keeps (selected ["address"; "address.label"]).1 "Address" = true /\ hidden ["address"; "address.label"] = ["Address.City"].
Proof. split; vm_compute; reflexivity. Qed.

(** An operator outside the vocabulary is taken by the schema and refused by the
    parser on every call. *)
Definition misspelled : DtoType := DStruct [(leafField "Name" "name" "eq,like" None, text)].

Theorem unknown_operator_boots :
  ExtractRequestSchema misspelled = Ret (schemaOf misspelled) /\
  (forall l, l ∈ rs_Leaves (schemaOf misspelled) -> TakesValue l = true /\ rl_Ops l = Some ["eq"; "like"]) /\
  read (schemaOf misspelled) (Some response) [("name.like", "x")] = inl (SchemaViolation "name.like").
Proof.
  split; [vm_compute; reflexivity|]. split; [|vm_compute; reflexivity]. intros l Hl.
  assert (Hs : rs_Leaves (schemaOf misspelled) = [mkRequestLeaf LeafFilter "name" "Name" (leafField "Name" "name" "eq,like" None) (Some ["eq"; "like"]) None true])
    by (vm_compute; reflexivity).
  rewrite Hs in Hl. by apply list_elem_of_singleton in Hl as ->.
Qed.

End ShopGrammar.
