(* ===== verification/FieldClaims.v ===== *)
(** * Properties of field names and field references

    What [domain/field_ref.go], [domain/notification.go] and
    [domain/wire_names.go] promise to the wire. *)

From S2P Require Import Prelude Naming FieldMeta Notification.
From stdpp Require Import base gmap strings list fin_maps.
From Stdlib Require Import Ascii ZArith Lia.

Open Scope string_scope.
Open Scope list_scope.

(** ** Field references *)

(** A field reference resolves exactly when it points inside the bound
    instance and one addressable field of the instance's type, nested structs and
    embedded structs included, has that offset and that type; the resolved node is
    that field's.  Every other reference panics: none is resolved to a wrong
    field. *)
Theorem field_reference_resolves_to_its_field t addr p ty node :
  resolveFieldRef (Some (bindFieldBase addr t)) (RefTo p ty) = Ret node <->
  (addr <= p < addr + typeSize t)%Z /\
  filter (fun kn => kn.1 = ((p - addr)%Z, ty)) (addressable t 0 []) = [(((p - addr)%Z, ty), node)].
Proof.
  unfold resolveFieldRef, bindFieldBase, locate. simpl. rewrite atlasFor_size.
  destruct (_ || _)%bool eqn:Eb.
  { split; [done|]. intros [Hr _]. apply orb_true_iff in Eb as [E%Z.ltb_lt|E%Z.leb_le]; lia. }
  apply orb_false_iff in Eb as [E1%Z.ltb_ge E2%Z.leb_gt]. case_bool_decide as Ha.
  - split; [done|]. intros [_ Hf]. rewrite atlasFor_ambiguous in Ha. unfold keyCount in Ha. rewrite Hf in Ha. simpl in Ha. lia.
  - split.
    + destruct (at_nodes (atlasFor t) !! _) as [n|] eqn:En; [|done]. intros [= <-]. split; [lia|]. by apply atlas_unique.
    + intros [_ Hf]. by rewrite atlasFor_lookup, Hf.
Qed.

(** ** Wire names *)

(** The wire spelling of a path is canonical: spelling it again changes
    nothing, and it has as many segments as the path. *)
Theorem wire_path_is_canonical s :
  WireFieldPath (WireFieldPath s) = WireFieldPath s /\ length (splitDot (WireFieldPath s)) = length (splitDot s).
Proof.
  split; [apply WireFieldPath_idem|]. unfold WireFieldPath. destruct (hasDot s) eqn:E; simpl.
  - rewrite splitDot_joinStr, length_fmap; [done| |].
    + intros H%fmap_nil_inv. by apply splitDot_nonempty in H.
    + apply Forall_fmap. eapply Forall_impl; [apply splitDot_nodots|]. intros p Hp. simpl. by rewrite toLowerCamel_hasDot.
  - by rewrite !splitDot_nodot by (rewrite ?toLowerCamel_hasDot; done).
Qed.

(** The decimal spelling of a collection index reads back as the index, for
    every int but the smallest one. *)
Theorem index_spelling_round_trips i :
  (int64_min < i <= int64_max)%Z -> readInt (itoa i) = Some i.
Proof. apply itoa_read. Qed.

Lemma index_spelling_round_trips_witness : readInt (itoa (-42)) = Some (-42)%Z.
Proof. apply index_spelling_round_trips. unfold int64_min, int64_max. lia. Defined.

(** The smallest int is spelled as a bare sign: negating it wraps to itself and
    the digit loop does not run. *)
Theorem smallest_int_has_no_digits : itoa int64_min = "-".
Proof. reflexivity. Qed.

(** ** Messages under a scope *)

Lemma renderPath_leaf name wire :
  name <> "" -> renderPath [mkPathSegment name wire None] = segToken (mkPathSegment name wire None).
Proof. intros H%String.eqb_neq. unfold renderPath. simpl. rewrite H. simpl. apply string_app_nil_r. Qed.

(** A notification emitted on a field through a scoped view of a context lands
    in the root context as its last message, and its field renders as the scope's
    path, a dot and the field's wire name (its notifyAs tag in the scope's type, or
    its lower-camel name); the messages before it are untouched. *)
Theorem scoped_notification_renders_under_its_path r name n v c :
  wfRef r -> existsb segVisible (ctxPrefix r) = true -> name <> "" ->
  exists m, nc_messages (AddNotificationNamed r name n v c) = nc_messages c ++ [m] /\
    ResolveFieldName m = renderPath (ctxPrefix r) +:+ "." +:+
      segToken (mkPathSegment name (match ctxEntityType r c with Some t => resolveNotifyAs (Some t) name | None => "" end) None) /\
    m_Notification m = n.
Proof.
  intros Hr Hp Hn. unfold AddNotificationNamed.
  set (wire := match ctxEntityType r c with Some t => resolveNotifyAs (Some t) name | None => "" end).
  set (lbl := match ctxEntityType r c with Some t => resolveLabelKey (Some t) name | None => "" end).
  replace (match ctxEntityType r c with Some t => (resolveLabelKey (Some t) name, resolveNotifyAs (Some t) name) | None => ("", "") end)
    with (lbl, wire) by (unfold lbl, wire; by destruct (ctxEntityType r c)).
  rewrite AddNotificationMessage_spec by done. eexists. split; [done|].
  assert (Hne : exists s p, ctxPrefix r = s :: p) by (destruct (ctxPrefix r); [done|eauto]).
  destruct Hne as (s & p & Hs). unfold prefixPath. rewrite Hs. cbn [m_Path setPath]. split; [|done].
  unfold ResolveFieldName. cbn [m_Override m_Path setPath negb String.eqb].
  rewrite <- Hs, renderPath_scoped; [|done|done|].
  - by rewrite renderPath_leaf.
  - unfold segVisible. simpl. apply String.eqb_neq in Hn. by rewrite Hn.
Qed.

Lemma scoped_notification_renders_under_its_path_witness :
  let r := Scoped CRoot [mkPathSegment "Items" "" None; mkPathSegment "" "" (Some 2%Z)] in
  exists m, nc_messages (AddNotificationNamed r "UnitPrice" (RequiredFieldNotification None) None (NewNotificationContext "Order")) = [m] /\
    ResolveFieldName m = "items[2].unitPrice" /\ m_Notification m = RequiredFieldNotification None.
Proof.
  intros r.
  destruct (scoped_notification_renders_under_its_path r "UnitPrice" (RequiredFieldNotification None) None (NewNotificationContext "Order"))
    as (m & H1 & H2 & H3); [done|done|done|].
  exists m. split; [exact H1|]. split; [rewrite H2; vm_compute; reflexivity|exact H3].
Defined.
