(* ===== verification/PipelineClaims.v ===== *)
(** * Properties of the pipeline, its transports and the translator *)

From S2P Require Import Prelude Naming FieldMeta Notification Errors Translation Pipeline.
From stdpp Require Import base gmap strings list fin_maps.
From Stdlib Require Import Ascii ZArith Lia.

Open Scope string_scope.
Open Scope list_scope.

(** ** The deciding notification *)

(** The semantics of the messages of an error, in order. *)
Definition semanticsOf (contexts : list (option NotificationContext)) : list NotificationSemantic :=
  concat ((fun o => match o with Some c => Semantic ∘ m_Notification <$> Messages c | None => [] end) <$> contexts).

Definition dtoSemantics (dtos : list ContextDTO) : list NotificationSemantic :=
  concat ((fun c => md_Semantic <$> cd_Messages c) <$> dtos).

(** The first that is not a validation; a validation when there is none. *)
Fixpoint deciding (l : list NotificationSemantic) : NotificationSemantic :=
  match l with
  | [] => SemanticValidation
  | s :: rest => if decide (s = SemanticValidation) then deciding rest else s
  end.

Definition statusOf (s : NotificationSemantic) : Z := default 0%Z (tableGet s semanticToStatus).

(** The table covers every semantic. *)
Lemma status_total s : tableGet s semanticToStatus = Some (statusOf s).
Proof. by destruct s. Qed.

Section Table.
Context {V : Type} (table : list (NotificationSemantic * V)) (f : NotificationSemantic -> V).
Hypothesis Htotal : forall s, tableGet s table = Some (f s).

Lemma firstInMessages_deciding ms rest :
  deciding ((md_Semantic <$> ms) ++ rest) =
    match firstInMessages table ms with Some _ => deciding (md_Semantic <$> ms) | None => deciding rest end /\
  (forall v, firstInMessages table ms = Some v -> v = f (deciding (md_Semantic <$> ms)) /\ deciding (md_Semantic <$> ms) <> SemanticValidation).
Proof.
  induction ms as [|m ms [IH1 IH2]]; [done|]. csimpl. destruct (decide (md_Semantic m = SemanticValidation)) as [E|E]; [done|].
  rewrite Htotal. split; [done|]. by intros v [= <-].
Qed.

Lemma firstInContexts_deciding dtos :
  default (f SemanticValidation) (firstInContexts table dtos) = f (deciding (dtoSemantics dtos)).
Proof.
  unfold dtoSemantics. induction dtos as [|c dtos IH]; [done|]. csimpl.
  destruct (firstInMessages_deciding (cd_Messages c) (concat ((fun c => md_Semantic <$> cd_Messages c) <$> dtos))) as [H1 H2].
  destruct (firstInMessages table (cd_Messages c)) as [v|]; rewrite H1; [|done]. simpl. by destruct (H2 v eq_refl) as [-> _].
Qed.

End Table.

Lemma ToContextDTOs_semantics varsOf t lang contexts :
  dtoSemantics (ToContextDTOs varsOf t lang contexts) = semanticsOf contexts.
Proof.
  unfold dtoSemantics, semanticsOf, ToContextDTOs. induction contexts as [|[c|] cs IH]; csimpl; [done| |done].
  rewrite IH. f_equal. rewrite <- list_fmap_compose. done.
Qed.

Lemma statusFromNotifications_deciding dtos : statusFromNotifications dtos = statusOf (deciding (dtoSemantics dtos)).
Proof. apply (firstInContexts_deciding semanticToStatus statusOf). apply status_total. Qed.

(** ** What a request answers *)

(** The status the contract promises for an error. *)
Definition errorStatus (e : GoErr) : Z :=
  if isDeadline e then 504%Z
  else match asCarrier e with Some contexts => statusOf (deciding (semanticsOf contexts)) | None => 500%Z end.

(** C38: the HTTP status of a request, whatever its handler does: the success status
    for a value; 500 for a panic; for an error, 504 when a deadline is anywhere in
    its chain, otherwise the status of the first notification of its carrier that
    is not a validation (422 when all are), otherwise 500.  Without a context the
    handler is not run and the answer is 422. *)
Theorem request_status varsOf StatusText tr lang t (ctx : option Language) {T} (fn : unit -> Outcome GoErr T) ok :
  r_Status (RespondFromResult StatusText tr lang (Run varsOf t ctx fn) ok) =
  match ctx with
  | None => 422%Z
  | Some _ =>
      match fn tt with
      | Ret _ => ok
      | Panic _ => 500%Z
      | Fail e => errorStatus e
      end
  end.
Proof.
  unfold Run, errorStatus. destruct ctx as [l|]; [|done].
  destruct (fn tt) as [v|e|m]; [done| |done]. destruct (isDeadline e); [done|].
  destruct (asCarrier e) as [contexts|]; [|done]. simpl.
  by rewrite statusFromNotifications_deciding, ToContextDTOs_semantics.
Qed.

(** ** The two transports *)

(** HTTP and gRPC classify a failure by the same notification: there is one
    semantic, the deciding one of the messages, that gives both the status and the
    code, and both tables have an entry for it. *)
Theorem transports_agree dtos :
  tableGet (deciding (dtoSemantics dtos)) semanticToStatus = Some (statusFromNotifications dtos) /\
  tableGet (deciding (dtoSemantics dtos)) semanticToCode = Some (codeFromNotifications dtos).
Proof.
  split; [by rewrite statusFromNotifications_deciding, status_total|].
  pose proof (firstInContexts_deciding semanticToCode (fun s => default CodeInternal (tableGet s semanticToCode))) as H.
  unfold codeFromNotifications. change CodeInvalidArgument with (default CodeInternal (tableGet SemanticValidation semanticToCode)).
  rewrite H; [|by intros []]. by destruct (deciding (dtoSemantics dtos)).
Qed.

(** The value of an optional slot. *)
Definition optSlot (v : string) : option string := if String.eqb v "" then None else Some v.

Lemma slot_same k v m : m !! k = None -> slot k v m !! k = optSlot v.
Proof. intros H. unfold slot, optSlot. destruct (String.eqb v ""); [done|]. apply lookup_insert_eq. Qed.

Lemma slot_other k k' v m : k <> k' -> slot k v m !! k' = m !! k'.
Proof. intros H. unfold slot. destruct (String.eqb v ""); [done|]. by apply lookup_insert_ne. Qed.

(** What an ErrorInfo says of a message. *)
Definition carries (context : string) (em : ErrorMessage) (meta : gmap string string) : Prop :=
  meta !! "context" = Some context /\ meta !! "semantic" = Some (em_Semantic em) /\
  meta !! "message" = optSlot (em_Message em) /\ meta !! "field" = optSlot (em_Field em) /\
  meta !! "fieldLabel" = optSlot (em_FieldLabel em) /\ meta !! "value" = optSlot (em_Value em) /\
  meta !! "funcName" = optSlot (em_FuncName em).

Lemma messageMetadata_carries context m : carries context (toErrorMessage m) (messageMetadata context m).
Proof.
  unfold carries, messageMetadata.
  split_and!; repeat first [rewrite slot_other by done | rewrite slot_same by (repeat rewrite slot_other by done; done)]; done.
Qed.

(** The gRPC error carries the whole REST envelope: for every message of every
    error of the REST response that has a notification key, the gRPC error has an
    ErrorInfo with that key as its reason and every slot of the message in its
    metadata, empty slots elided. *)
Theorem grpc_error_carries_the_rest_envelope StatusText marshals dtos status desc {T} :
  (forall d, marshals d = true) ->
  forall err em, err ∈ r_Errors (ResponseFromContextDTOs StatusText (T := T) dtos status desc) -> em ∈ ed_Messages err ->
  em_NotificationKey em <> "" ->
  exists meta, ErrorInfo (em_NotificationKey em) errorInfoDomain meta ∈ ce_Details (ErrorFromNotifications marshals dtos) /\
    carries (ed_Context err) em meta.
Proof.
  intros Hm err em (dto & -> & Hd)%list_elem_of_fmap (m & -> & Hin)%list_elem_of_fmap Hk. simpl in *.
  exists (messageMetadata (cd_Context dto) m). split; [|apply messageMetadata_carries].
  apply elem_of_app. left. unfold infoDetails. apply list_elem_of_In, in_concat.
  eexists. split; [apply list_elem_of_In, list_elem_of_fmap; by exists dto|]. apply in_concat.
  eexists. split; [apply list_elem_of_In, list_elem_of_fmap; by exists m|].
  apply String.eqb_neq in Hk. rewrite Hk. unfold addDetail. rewrite Hm. by left.
Qed.

Module FailureSample.

Definition msg : MessageDTO := mkMessageDTO "RequiredFieldNotification" "name" "Name" "" "" "Required." SemanticValidation.
Definition dtos : list ContextDTO := [mkContextDTO "Order" [msg]].

End FailureSample.

Lemma grpc_error_carries_the_rest_envelope_witness :
  exists meta, ErrorInfo "RequiredFieldNotification" errorInfoDomain meta ∈ ce_Details (ErrorFromNotifications (fun _ => true) FailureSample.dtos) /\
    carries "Order" (toErrorMessage FailureSample.msg) meta.
Proof.
  apply (grpc_error_carries_the_rest_envelope (fun _ => "") (fun _ => true) FailureSample.dtos 422 "" (T := unit)
    (fun _ => eq_refl) (mkErrorDTO "Order" [toErrorMessage FailureSample.msg]) (toErrorMessage FailureSample.msg));
    [by left|by left|done].
Defined.

(** ** Interpolation *)

(** Rendering a catalog text fills its placeholders in one pass: each
    placeholder that has a variable becomes its value, every other piece of the
    text stays as written, and a value is never scanned again, so a value that
    itself holds a placeholder is not expanded.  The fast paths change nothing. *)
Theorem render_fills_placeholders_once t lang key vars ps :
  default key (Get t lang key) = printTemplate ps -> forallb pieceOk ps = true ->
  Render t lang key vars = fillTemplate vars ps /\
  (interpolateMessage (printTemplate ps) vars).2 = missingHoles vars ps.
Proof.
  intros Hk Hps. pose proof (interpolate_template vars ps Hps) as H. split; [|by rewrite H].
  unfold Render. rewrite Hk. destruct (decide (vars = ∅)) as [->|].
  - pose proof (interpolate_novars (printTemplate ps)) as Hn. by rewrite H in Hn.
  - destruct (hasBrace (printTemplate ps)) eqn:E; simpl; [by rewrite H|].
    pose proof (interpolate_nobrace (printTemplate ps) vars E) as Hn. by rewrite H in Hn.
Qed.

Lemma render_fills_placeholders_once_witness :
  let t : Translator := {[ LangENG := {[ "K" := "Hi {name}, {x}!" ]} ]} in
  let vars : gmap string string := {[ "name" := "{x}" ]} in
  let ps := [Lit "Hi "; Hole "name"; Lit ", "; Hole "x"; Lit "!"] in
  Render t LangENG "K" vars = "Hi {x}, {x}!" /\ (interpolateMessage (printTemplate ps) vars).2 = ["x"].
Proof.
  intros t vars ps. destruct (render_fills_placeholders_once t LangENG "K" vars ps) as [H1 H2]; [done|done|].
  split; [rewrite H1; vm_compute; reflexivity|rewrite H2; vm_compute; reflexivity].
Defined.

(** Importing modules in order leaves, for each language and key, the entry of
    the last module that has it; keys no module has keep their entry. *)
Theorem last_import_wins modules t lang key :
  Get (Import modules t) lang key =
  match last (omap (fun m => if decide (lang = m.1) then m.2 !! key else None) modules) with
  | Some v => Some v
  | None => Get t lang key
  end.
Proof.
  revert t. induction modules as [|m ms IH]; intros t; [done|]. change (Import (m :: ms) t) with (Import ms (importModule t m)).
  rewrite IH, Import_one. csimpl. destruct (decide (lang = m.1)); [|done].
  destruct (m.2 !! key) as [v|]; [|done]. rewrite last_cons. by destruct (last _).
Qed.
