(* ===== verification/HandlerClaims.v ===== *)
(** * What the command handlers guarantee

    The theorems are about every repository, command, service and world.  To say
    what reaches the persistence layer, a repository is wrapped by one that writes
    down each write call with the entity as it was then ([loggedHandler]); the
    wrapper changes nothing else, which the theorems state together with what the
    log holds. *)

From S2P Require Import Prelude Naming FieldMeta Notification Errors BaseEntity Aggregate AggregateProps AggregateRootProps AggregateClaims Rules Entity EntityProps EntityClaims Translation Pipeline PipelineClaims Queries Handlers.
From stdpp Require Import base gmap strings list fin_maps.
From Stdlib Require Import Ascii ZArith Lia.

Open Scope string_scope.
Open Scope list_scope.

(** ** The write log *)

Inductive Sealed :=
| SInsert (x : Insertable)
| SUpdate (x : Updatable)
| SArchive (x : Archivable)
| SUnarchive (x : Unarchivable)
| SDelete (x : Deletable).

Definition sealedID (s : Sealed) : option ID :=
  match s with
  | SInsert x => ins_id x
  | SUpdate x => Some (upd_id x)
  | SArchive x => Some (arc_id x)
  | SUnarchive x => Some (una_id x)
  | SDelete x => Some (del_id x)
  end.

Section Log.
Context {V S D AB BC Ctx W T : Type}.

Abbreviation Ent := (EntityState V S D).

Record WriteCall := mkCall { wc_sealed : Sealed; wc_entity : Ent }.

Definition carry {A} (c : GoM W GoErr A) : GoM (W * list WriteCall) GoErr A :=
  fun s => ((((c s.1).1, s.2)), (c s.1).2).

Definition carryE {A} (c : GoM (W * Ent) GoErr A) : GoM ((W * list WriteCall) * Ent) GoErr A :=
  fun s => let r := c (s.1.1, s.2) in (((r.1.1, s.1.2), r.1.2), r.2).

(** The call, written down before it runs. *)
Definition logging {A} (x : Sealed) (c : GoM (W * Ent) GoErr A) : GoM ((W * list WriteCall) * Ent) GoErr A :=
  fun s => carryE c ((s.1.1, s.1.2 ++ [mkCall x s.2]), s.2).

Definition loggedWriter (wr : Writer V S D W) : Writer V S D (W * list WriteCall) := {|
  w_Insert x := logging (SInsert x) (w_Insert wr x);
  w_Update x := logging (SUpdate x) (w_Update wr x);
  w_Archive x := logging (SArchive x) (w_Archive wr x);
  w_Unarchive x := logging (SUnarchive x) (w_Unarchive wr x);
  w_Delete x := logging (SDelete x) (w_Delete wr x)
|}.

Definition loggedRepo (r : ScopedRepository V S D AB BC Ctx W) : ScopedRepository V S D AB BC Ctx (W * list WriteCall) := {|
  r_type := r_type r;
  r_FindByID i := carry (r_FindByID r i);
  r_New := r_New r;
  r_Scope ctx opts := loggedWriter (r_Scope r ctx opts);
  r_ScopedReader := (fun f ctx i => carry (f ctx i)) <$> r_ScopedReader r;
  r_ScopedArchivedReader := (fun f ctx i => carry (f ctx i)) <$> r_ScopedArchivedReader r;
  r_FindArchivedByID := (fun f i => carry (f i)) <$> r_FindArchivedByID r;
  r_LoadForSharedBaseInsert := (fun f ctx e => carry (f ctx e)) <$> r_LoadForSharedBaseInsert r
|}.

Definition loggedHandler (h : CommandHandler V S D AB BC Ctx W) : CommandHandler V S D AB BC Ctx (W * list WriteCall) :=
  mkHandler (loggedRepo (h_Repo h)) (h_Service h).

Definition loggedCmd (c : Command V S D AB BC Ctx W T) : Command V S D AB BC Ctx (W * list WriteCall) T := {|
  c_PathID := c_PathID c;
  c_ToEntity ctx := carry (c_ToEntity c ctx);
  c_ApplyTo := c_ApplyTo c;
  c_ApplyPartiallyTo := c_ApplyPartiallyTo c;
  c_FromEntity ctx := carryE (c_FromEntity c ctx);
  c_AfterBegin := c_AfterBegin c;
  c_BeforeCommit := c_BeforeCommit c
|}.

End Log.

Arguments WriteCall : clear implicits.

(** ** Runs and their logs *)

(** A state with a log, seen as the state and the log. *)
Section Runs.
Context {L U U' : Type} (join : U -> list L -> U').

Definition carried {A} (c : GoM U GoErr A) (c' : GoM U' GoErr A) : Prop :=
  forall u l, c' (join u l) = (join (c u).1 l, (c u).2).

(** From [u], [c'] does what [c] does and adds to the log nothing, and then has no
    result, or one call that satisfies [P]. *)
Definition logsAt {A} (P : L -> Prop) (c : GoM U GoErr A) (c' : GoM U' GoErr A) (u : U) : Prop :=
  forall l, exists l1, c' (join u l) = (join (c u).1 (l ++ l1), (c u).2) /\
    ((l1 = [] /\ forall a, (c u).2 <> Ret a) \/ exists x, l1 = [x] /\ P x).

Lemma carried_ret {A} (a : A) : carried (gret a) (gret a).
Proof. done. Qed.

Lemma carried_bind {A B} c c' (k : A -> GoM U GoErr B) k' :
  carried c c' -> (forall a, carried (k a) (k' a)) -> carried (gbind c k) (gbind c' k').
Proof.
  intros Hc Hk u l. unfold gbind. rewrite Hc. destruct (c u) as [u1 [a|e|m]]; simpl; [|done|done]. apply Hk.
Qed.

Lemma logsAt_stop {A} P (c : GoM U GoErr A) c' u :
  carried c c' -> (forall a, (c u).2 <> Ret a) -> logsAt P c c' u.
Proof. intros Hc Hr l. exists []. rewrite app_nil_r. split; [apply Hc|by left]. Qed.

Lemma logsAt_bind {A B} P c c' (k : A -> GoM U GoErr B) k' u :
  carried c c' -> (forall a u1, c u = (u1, Ret a) -> logsAt P (k a) (k' a) u1) -> logsAt P (gbind c k) (gbind c' k') u.
Proof.
  intros Hc Hk l. unfold gbind. rewrite Hc. destruct (c u) as [u1 [a|e|m]] eqn:E; simpl.
  - by apply (Hk a u1).
  - exists []. rewrite app_nil_r. split; [done|by left].
  - exists []. rewrite app_nil_r. split; [done|by left].
Qed.

End Runs.

Lemma carried_fail {L U U' A} (join : U -> list L -> U') e : carried (A := A) join (gfail e) (gfail e).
Proof. done. Qed.

#[export] Hint Resolve carried_ret carried_fail carried_bind : omnicore.

Section Carried.
Context {V S D AB BC Ctx W : Type}.

Abbreviation Ent := (EntityState V S D).
Abbreviation Calls := (list (WriteCall V S D)).

Definition joinW (w : W) (l : Calls) : W * Calls := (w, l).
Definition joinE (s : W * Ent) (l : Calls) : (W * Calls) * Ent := ((s.1, l), s.2).

Lemma carry_carried {A} (c : GoM W GoErr A) : carried joinW c (carry c).
Proof. done. Qed.

Lemma carryE_carried {A} (c : GoM (W * Ent) GoErr A) : carried joinE c (carryE c).
Proof. intros [w e] l. unfold carryE, joinE. simpl. by destruct (c (w, e)) as [[w' e'] r]. Qed.

Lemma onEntity_carried {A} (c : GoM Ent GetError A) : carried joinE (onEntity c) (onEntity c).
Proof. intros [w e] l. unfold joinE. simpl. by destruct (c e) as [e' [a|err|m]]. Qed.

Lemma sealing_carried {A} (clock : W -> Z) (verb : Z -> GoM Ent GetError A) :
  carried joinE (sealing clock verb) (sealing (fun s => clock s.1) verb).
Proof. intros [w e] l. unfold sealing, joinE. simpl. by destruct (verb (clock w) e) as [e' [a|err|m]]. Qed.

Lemma setEntityID_carried i : carried (A := unit) joinE (setEntityID i) (setEntityID i).
Proof. by intros [w e] l. Qed.

Lemma withEntity_carried {A} e (c : GoM (W * Ent) GoErr A) c' :
  carried joinE c c' -> carried joinW (withEntity e c) (withEntity e c').
Proof.
  intros Hc w l. unfold withEntity. specialize (Hc (w, e) l). unfold joinE in Hc. simpl in Hc. unfold joinW. rewrite Hc.
  by destruct (c (w, e)) as [[w' e'] r].
Qed.

Lemma withEntity_logs {A} P e (c : GoM (W * Ent) GoErr A) c' w :
  logsAt joinE P c c' (w, e) -> logsAt joinW P (withEntity e c) (withEntity e c') w.
Proof.
  intros Hc l. destruct (Hc l) as (l1 & H1 & H2). exists l1. unfold withEntity, joinW, joinE in *. simpl in H1. rewrite H1.
  by destruct (c (w, e)) as [[w' e'] r].
Qed.

(** The write itself: one call, with the entity it is made on. *)
Lemma logging_logs {A B} (P : WriteCall V S D -> Prop) x (c : GoM (W * Ent) GoErr A) (k : A -> GoM (W * Ent) GoErr B) k' w e :
  P (mkCall x e) -> (forall a, carried joinE (k a) (k' a)) ->
  logsAt joinE P (gbind c k) (gbind (logging x c) k') (w, e).
Proof.
  intros HP Hk l. exists [mkCall x e]. split; [|right; eauto].
  unfold gbind, logging, carryE, joinE. simpl. destruct (c (w, e)) as [[w' e'] [a|err|m]]; simpl; [|done|done].
  apply (Hk a (w', e')).
Qed.

End Carried.

#[export] Hint Resolve carry_carried carryE_carried onEntity_carried sealing_carried setEntityID_carried withEntity_carried : omnicore.

(** ** Sealing *)

Section Seals.
Context {V S D : Type} `{AVOLaws V} (d : EntityDef V S D) (svc : option S) (a : string) (now : Z).
Implicit Types (e : EntityState V S D).

Lemma derefID_Ret e e' i : derefID e = (e', Ret i) -> e' = e /\ en_GetID e = Some i.
Proof. unfold derefID, gbind, gget. destruct (en_GetID e); by intros [= <- <-]. Qed.

Lemma runVerb_of {A} (c : GoM (EntityState V S D) GetError A) e e' x :
  c e = (e', Ret x) -> gbind c (fun _ => gret tt) e = (e', Ret tt).
Proof. unfold gbind. by intros ->. Qed.

Lemma insert_sealed e e' x :
  getInsertable d svc a now e = (e', Ret x) -> runVerb d svc a now VInsert e = (e', Ret tt) /\ sealedID (SInsert x) = en_GetID e'.
Proof.
  intros Hv. split; [by eapply runVerb_of|]. unfold getInsertable in Hv.
  do 3 apply gbind_Ret in Hv as (? & ? & _ & Hv). unfold gbind, gget, gret in Hv. by simplify_eq.
Qed.

Ltac reads_id := repeat first
  [ match goal with Hv : gbind derefID _ _ = _ |- _ =>
      apply gbind_Ret in Hv as (? & ? & [-> ?]%derefID_Ret & Hv) end
  | match goal with Hv : gbind _ _ _ = _ |- _ => apply gbind_Ret in Hv as (? & ? & ? & Hv) end ];
  unfold gget, gret in *; by simplify_eq.

Lemma update_sealed ap p e e' x :
  getUpdatable d svc a now ap p e = (e', Ret x) ->
  runVerb d svc a now (VUpdate ap p) e = (e', Ret tt) /\ sealedID (SUpdate x) = en_GetID e' /\ upd_partial x = p.
Proof. intros Hv. split; [by eapply runVerb_of|]. unfold getUpdatable in Hv. split; reads_id. Qed.

Lemma delete_sealed e e' x :
  getDeletable d svc a now e = (e', Ret x) -> runVerb d svc a now VDelete e = (e', Ret tt) /\ sealedID (SDelete x) = en_GetID e'.
Proof. intros Hv. split; [by eapply runVerb_of|]. unfold getDeletable in Hv. reads_id. Qed.

Lemma archive_sealed e e' x :
  getArchivable d svc a now e = (e', Ret x) -> runVerb d svc a now VArchive e = (e', Ret tt) /\ sealedID (SArchive x) = en_GetID e'.
Proof. intros Hv. split; [by eapply runVerb_of|]. unfold getArchivable in Hv. reads_id. Qed.

Lemma unarchive_sealed e e' x :
  getUnarchivable d svc a now e = (e', Ret x) ->
  runVerb d svc a now VUnarchive e = (e', Ret tt) /\ sealedID (SUnarchive x) = en_GetID e'.
Proof. intros Hv. split; [by eapply runVerb_of|]. unfold getUnarchivable in Hv. reads_id. Qed.

End Seals.

(** ** The theorems *)

Section Theorems.
Context {V S D AB BC Ctx W T : Type} `{AVOLaws V} (d : EntityDef V S D).
Context (scopedService : S -> option (Ctx -> option S)) (clock : W -> Z).
Context (h : CommandHandler V S D AB BC Ctx W) (ctx : Ctx) (cmd : Command V S D AB BC Ctx W T).

Abbreviation Ent := (EntityState V S D).

(** The verb each handler runs, and what it must hand to the repository. *)
Definition verbOf (k : HandlerKind) : Verb V S D :=
  match k with
  | HInsert | HSharedBaseInsert => VInsert
  | HUpdate => VUpdate (Some (c_ApplyTo cmd ctx)) false
  | HPartialUpdate => VUpdate (Some (c_ApplyPartiallyTo cmd ctx)) true
  | HDelete => VDelete
  | HArchive => VArchive
  | HUnarchive => VUnarchive
  end.

Definition writesAs (k : HandlerKind) (x : Sealed) : Prop :=
  match k, x with
  | HInsert, SInsert _ | HSharedBaseInsert, SInsert _ => True
  | HUpdate, SUpdate u => upd_partial u = false
  | HPartialUpdate, SUpdate u => upd_partial u = true
  | HDelete, SDelete _ | HArchive, SArchive _ | HUnarchive, SUnarchive _ => True
  | _, _ => False
  end.

(** Where a handler gets the persisted entity from; [None] for the inserts. *)
Definition loadOf (k : HandlerKind) : option (GoM W GoErr Ent) :=
  let repo := h_Repo h in
  let i := NewID (c_PathID cmd) in
  match k with
  | HInsert | HSharedBaseInsert => None
  | HPartialUpdate => Some (r_FindByID repo i)
  | HUpdate | HDelete | HArchive =>
      Some match r_ScopedReader repo with Some reader => reader ctx i | None => r_FindByID repo i end
  | HUnarchive =>
      match r_ScopedArchivedReader repo with
      | Some reader => Some (reader ctx i)
      | None => (fun find => find i) <$> r_FindArchivedByID repo
      end
  end.

Definition oldKept (e0 e : Ent) : Prop :=
  forall o, be_old (en_base (CaptureOld d e0)) = Some o -> be_old (en_base e) = Some o.

Definition goodCall (k : HandlerKind) (w : W) (c : WriteCall V S D) : Prop :=
  writesAs k (wc_sealed c) /\
  validFor d (service scopedService h ctx) (verbOf k) (wc_entity c) /\
  sealedID (wc_sealed c) = en_GetID (wc_entity c) /\
  (forall load, loadOf k = Some load -> exists w1 e0, load w = (w1, Ret e0) /\ oldKept e0 (wc_entity c)).

Abbreviation run k := (Handle d scopedService clock k h ctx cmd).
Abbreviation logged k := (Handle d scopedService (fun s => clock s.1) k (loggedHandler h) ctx (loggedCmd cmd)).

(** *** The steps *)

Lemma RequirePathID_Ret s name (w w1 : W) : RequirePathID s name w = (w1, Ret tt) -> w1 = w.
Proof. unfold RequirePathID. case_match; by intros [= <-]. Qed.

Lemma RequirePathID_carried s name : carried (@joinW V S D W) (RequirePathID s name) (RequirePathID s name).
Proof. intros w l. unfold RequirePathID. by case_match. Qed.

Lemma sealing_Ret {A} (verb : Z -> GoM Ent GetError A) w e s x :
  sealing clock verb (w, e) = (s, Ret x) -> exists e', s = (w, e') /\ verb (clock w) e = (e', Ret x).
Proof. unfold sealing. simpl. destruct (verb (clock w) e) as [e' [?|?|?]]; intros [= <- <-]. eauto. Qed.

Lemma applied_old body (w : W) e s :
  onEntity (runCmds d body) (w, e) = (s, Ret tt) -> exists e', s = (w, e') /\ be_old (en_base e') = be_old (en_base e).
Proof.
  simpl. pose proof (runCmds_kept d body e) as Hk. destruct (runCmds d body e) as [e' [?|?|?]]; intros [= <- _].
  exists e'. split; [done|]. apply (kp_old _ _ Hk).
Qed.

Lemma captureLoaded_Ret (load : GoM W GoErr Ent) w w1 e :
  captureLoaded d load w = (w1, Ret e) -> exists e0, load w = (w1, Ret e0) /\ e = CaptureOld d e0.
Proof. intros Hl. apply gbind_Ret in Hl as (e0 & w2 & Hl & Hr). unfold gret in Hr. simplify_eq. eauto. Qed.

Lemma captureLoaded_carried (load : GoM W GoErr Ent) : carried (@joinW V S D W) (captureLoaded d load) (captureLoaded d (carry load)).
Proof. unfold captureLoaded. auto with omnicore. Qed.

Lemma LoadForWrite_carried i :
  carried (@joinW V S D W) (LoadForWrite d (h_Repo h) ctx i) (LoadForWrite d (loggedRepo (h_Repo h)) ctx i).
Proof. unfold LoadForWrite. simpl. destruct (r_ScopedReader (h_Repo h)); apply captureLoaded_carried. Qed.

(** A sealed entity that was loaded as [e1] makes a good call. *)
Lemma goodCall_intro k w a now e1 e2 x :
  runVerb d (service scopedService h ctx) a now (verbOf k) e1 = (e2, Ret tt) ->
  sealedID x = en_GetID e2 -> writesAs k x ->
  (forall load, loadOf k = Some load -> exists w1 e0, load w = (w1, Ret e0) /\ oldKept e0 e2) ->
  goodCall k w (mkCall x e2).
Proof. intros Hv Hid Hw Ho. apply sealed_valid in Hv as [_ Hv]. split_and!; done. Qed.

Lemma oldKept_verb e0 e1 e2 v a now svc :
  (be_old (en_base (CaptureOld d e0)) = be_old (en_base e1)) ->
  runVerb d svc a now v e1 = (e2, Ret tt) -> oldKept e0 e2.
Proof. intros E Hv o Ho. pose proof (runVerb_keepsOld d svc a now v o e1) as Hk. rewrite Hv in Hk. apply Hk. by rewrite <- E. Qed.

Tactic Notation "good_call" hyp(Hs) uconstr(lem) :=
  apply sealing_Ret in Hs as (e' & -> & Hs); apply lem in Hs;
  apply logging_logs; [|intros; auto with omnicore].

Lemma insert_logs w : logsAt joinW (goodCall HInsert w) (run HInsert) (logged HInsert) w.
Proof.
  simpl. unfold InsertCommandHandler_Handle. simpl. destruct (r_LoadForSharedBaseInsert (h_Repo h)); simpl.
  { by apply logsAt_stop. }
  apply logsAt_bind; [auto with omnicore|]. intros e w1 _. apply withEntity_logs.
  apply logsAt_bind; [auto with omnicore|]. intros x s Hs. good_call Hs insert_sealed.
  destruct Hs as [Hv Hid]. by eapply (goodCall_intro HInsert).
Qed.

Lemma update_logs w : logsAt joinW (goodCall HUpdate w) (run HUpdate) (logged HUpdate) w.
Proof.
  simpl. unfold UpdateCommandHandler_Handle.
  apply logsAt_bind; [apply RequirePathID_carried|]. intros [] w0 ->%RequirePathID_Ret.
  apply logsAt_bind; [apply LoadForWrite_carried|]. intros e w1 Hl. apply withEntity_logs.
  apply logsAt_bind; [auto with omnicore|]. intros x s Hs. good_call Hs update_sealed.
  destruct Hs as (Hv & Hid & Hp). eapply (goodCall_intro HUpdate); [done..|]. intros load [= <-].
  unfold LoadForWrite in Hl. destruct (r_ScopedReader (h_Repo h)); apply captureLoaded_Ret in Hl as (e0 & Hl & ->);
    exists w1, e0; (split; [done|]); by eapply oldKept_verb.
Qed.

Lemma partialUpdate_logs w : logsAt joinW (goodCall HPartialUpdate w) (run HPartialUpdate) (logged HPartialUpdate) w.
Proof.
  simpl. unfold PartialUpdateCommandHandler_Handle.
  apply logsAt_bind; [apply RequirePathID_carried|]. intros [] w0 ->%RequirePathID_Ret.
  apply logsAt_bind; [simpl; auto with omnicore|]. intros e w1 Hl. apply withEntity_logs.
  apply logsAt_bind; [auto with omnicore|]. intros x s Hs. good_call Hs update_sealed.
  destruct Hs as (Hv & Hid & Hp). eapply (goodCall_intro HPartialUpdate); [done..|]. intros load [= <-].
  exists w1, e. split; [done|]. intros o Ho. 
  pose proof (runVerb_captures d (service scopedService h ctx) "GetPartialUpdatable" (clock w1)
    (VUpdate (Some (c_ApplyPartiallyTo cmd ctx)) true) o e) as Hk. rewrite Hv in Hk. by apply Hk.
Qed.

(** The three bodyless verbs: apply, seal, write, under the same load. *)
Lemma bodyless_logs k w load load' {X} (verb : Z -> GoM Ent GetError X) (mk : X -> Sealed)
  (wr : X -> GoM (W * Ent) GoErr unit) (fin : unit -> GoM (W * Ent) GoErr T) fin' :
  loadOf k = Some load -> carried joinW (captureLoaded d load) load' ->
  (forall now e e' x, verb now e = (e', Ret x) ->
     (exists a, runVerb d (service scopedService h ctx) a now (verbOf k) e = (e', Ret tt)) /\ sealedID (mk x) = en_GetID e') ->
  (forall x, writesAs k (mk x)) -> (forall a, carried joinE (fin a) (fin' a)) ->
  logsAt joinW (goodCall k w)
    (gbind (captureLoaded d load) (fun current => withEntity current
       (gbind (onEntity (runCmds d (c_ApplyTo cmd ctx))) (fun _ =>
        gbind (sealing clock verb) (fun x => gbind (wr x) fin)))))
    (gbind load' (fun current => withEntity current
       (gbind (onEntity (runCmds d (c_ApplyTo cmd ctx))) (fun _ =>
        gbind (sealing (fun s => clock s.1) verb) (fun x => gbind (logging (mk x) (wr x)) fin')))))
    w.
Proof.
  intros Hload Hl' Hverb Hmk Hfin. apply logsAt_bind; [done|]. intros e w1 Hl. apply withEntity_logs.
  apply logsAt_bind; [auto with omnicore|]. intros [] s Ha. apply applied_old in Ha as (e1 & -> & Hold).
  apply logsAt_bind; [auto with omnicore|]. intros x s Hs. good_call Hs Hverb.
  destruct Hs as [[a Hv] Hid]. eapply goodCall_intro; [done|done|done|]. rewrite Hload. intros ? [= <-].
  apply captureLoaded_Ret in Hl as (e0 & Hl & ->). exists w1, e0. split; [done|]. by eapply oldKept_verb.
Qed.

Lemma LoadForWrite_eq i : LoadForWrite d (h_Repo h) ctx i =
  captureLoaded d match r_ScopedReader (h_Repo h) with Some reader => reader ctx i | None => r_FindByID (h_Repo h) i end.
Proof. unfold LoadForWrite. by destruct (r_ScopedReader (h_Repo h)). Qed.

Ltac by_id := apply logsAt_bind; [apply RequirePathID_carried|]; intros [] w0 ->%RequirePathID_Ret.

Lemma delete_logs w : logsAt joinW (goodCall HDelete w) (run HDelete) (logged HDelete) w.
Proof.
  simpl. unfold DeleteCommandHandler_Handle. by_id. pose proof (LoadForWrite_carried (NewID (c_PathID cmd))) as Hc.
  rewrite LoadForWrite_eq in *. eapply (bodyless_logs HDelete _ _ _ _ SDelete); [done|done| |done|intros; auto with omnicore].
  intros now e e' x Hx. apply delete_sealed in Hx as [Hv Hid]. eauto.
Qed.

Lemma archive_logs w : logsAt joinW (goodCall HArchive w) (run HArchive) (logged HArchive) w.
Proof.
  simpl. unfold ArchiveCommandHandler_Handle. by_id. pose proof (LoadForWrite_carried (NewID (c_PathID cmd))) as Hc.
  rewrite LoadForWrite_eq in *. eapply (bodyless_logs HArchive _ _ _ _ SArchive); [done|done| |done|intros; auto with omnicore].
  intros now e e' x Hx. apply archive_sealed in Hx as [Hv Hid]. eauto.
Qed.

Lemma unarchive_logs w : logsAt joinW (goodCall HUnarchive w) (run HUnarchive) (logged HUnarchive) w.
Proof.
  simpl. unfold UnarchiveCommandHandler_Handle, LoadArchivedForWrite. simpl. by_id.
  assert (Hu : forall now e e' x, getUnarchivable d (service scopedService h ctx) "GetUnarchivable" now e = (e', Ret x) ->
    (exists a, runVerb d (service scopedService h ctx) a now VUnarchive e = (e', Ret tt)) /\ sealedID (SUnarchive x) = en_GetID e').
  { intros now e e' x Hx. apply unarchive_sealed in Hx as [Hv Hid]. eauto. }
  destruct (r_ScopedArchivedReader (h_Repo h)) as [reader|] eqn:Er; simpl.
  - eapply (bodyless_logs HUnarchive _ _ _ _ SUnarchive); [by simpl; rewrite Er|apply captureLoaded_carried|done|done|intros; auto with omnicore].
  - destruct (r_FindArchivedByID (h_Repo h)) as [find|] eqn:Ef; simpl; [|by apply logsAt_stop].
    eapply (bodyless_logs HUnarchive _ _ _ _ SUnarchive); [by simpl; rewrite Er, Ef|apply captureLoaded_carried|done|done|intros; auto with omnicore].
Qed.

Lemma sharedBaseInsert_logs w : logsAt joinW (goodCall HSharedBaseInsert w) (run HSharedBaseInsert) (logged HSharedBaseInsert) w.
Proof.
  simpl. unfold SharedBaseInsertCommandHandler_Handle. simpl. destruct (r_LoadForSharedBaseInsert (h_Repo h)) as [loader|]; simpl;
    [|by apply logsAt_stop].
  apply logsAt_bind; [apply withEntity_carried, carried_bind; [auto with omnicore|by intros _ [w' e'] l]|]. intros fresh w1 _.
  apply logsAt_bind; [auto with omnicore|]. intros [e existed] w2 _. apply withEntity_logs.
  apply logsAt_bind; [destruct existed; auto with omnicore|]. intros action [w3 e3] _.
  apply logsAt_bind; [auto with omnicore|]. intros x s Hs. good_call Hs insert_sealed.
  destruct Hs as [Hv Hid]. by eapply (goodCall_intro HSharedBaseInsert).
Qed.

Lemma handler_logs k w : logsAt joinW (goodCall k w) (run k) (logged k) w.
Proof.
  destruct k; [apply insert_logs|apply sharedBaseInsert_logs|apply update_logs|apply partialUpdate_logs|apply delete_logs
    |apply archive_logs|apply unarchive_logs].
Qed.

(** C25: what reaches the repository is a valid, sealed entity, once.  For each of the
    seven command handlers and every repository, command and world: run on the
    logging repository, the handler does exactly what it does on the plain one, the
    log holds at most one write call, and exactly one when the handler returns a
    value; the call is the handler's own write, on an entity that satisfies
    everything its verb seals (no notification, a declared mode, the id rule, the
    required service), and the sealed id is that entity's. *)
Theorem handlers_write_only_valid_entities k w :
  exists log, logged k (w, []) = (((run k w).1, log), (run k w).2) /\
    (length log <= 1)%nat /\ ((exists v, (run k w).2 = Ret v) -> length log = 1%nat) /\
    Forall (fun c => writesAs k (wc_sealed c) /\ validFor d (service scopedService h ctx) (verbOf k) (wc_entity c) /\
                     sealedID (wc_sealed c) = en_GetID (wc_entity c)) log.
Proof.
  destruct (handler_logs k w []) as (log & Hr & Hl). exists log. split; [exact Hr|].
  destruct Hl as [[-> Hn]|(c & -> & Hw & Hv & Hid & _)]; simpl.
  - split_and!; [lia| |done]. intros [v Hv]. by apply Hn in Hv.
  - split_and!; [lia|done|]. by apply Forall_singleton.
Qed.

(** Rules and repository see the persisted state as the old one.  When a handler
    on a loaded entity writes, the load it is named after returned an entity, and
    the old state of the entity at the write is the snapshot of that entity:
    whatever the command's apply function, the rules or an earlier snapshot did in
    between. *)
Theorem handlers_keep_the_persisted_state k w load log s r :
  loadOf k = Some load -> logged k (w, []) = (s, r) -> s.2 = log ->
  Forall (fun c => exists w1 e0, load w = (w1, Ret e0) /\
            forall o, be_old (en_base (CaptureOld d e0)) = Some o -> be_old (en_base (wc_entity c)) = Some o) log.
Proof.
  intros Hload Hr <-. destruct (handler_logs k w []) as (log & Hr' & Hl). change (joinW w []) with (w, @nil (WriteCall V S D)) in Hr'.
  rewrite Hr in Hr'. simplify_eq. simpl.
  destruct Hl as [[-> _]|(c & -> & _ & _ & _ & Ho)]; [constructor|]. constructor; [|constructor]. by apply Ho.
Qed.

(** What a handler cannot serve: an id route without an id, an insert of the wrong
    kind for the repository, an unarchive without an archived load. *)
Definition misrouted (k : HandlerKind) : bool :=
  match k with
  | HInsert => bool_decide (is_Some (r_LoadForSharedBaseInsert (h_Repo h)))
  | HSharedBaseInsert => negb (bool_decide (is_Some (r_LoadForSharedBaseInsert (h_Repo h))))
  | HUnarchive => String.eqb (c_PathID cmd) "" || negb (bool_decide (is_Some (loadOf HUnarchive)))
  | _ => String.eqb (c_PathID cmd) ""
  end.

Lemma misrouted_refused k w : misrouted k = true ->
  exists r, run k w = (w, r) /\ ((exists m, r = Panic m) \/ exists m, r = Fail (ELeaf m)).
Proof.
  destruct k; simpl; unfold InsertCommandHandler_Handle, SharedBaseInsertCommandHandler_Handle, UpdateCommandHandler_Handle,
    PartialUpdateCommandHandler_Handle, DeleteCommandHandler_Handle, ArchiveCommandHandler_Handle, UnarchiveCommandHandler_Handle,
    RequirePathID, LoadArchivedForWrite; intros Hm.
  1,2: destruct (r_LoadForSharedBaseInsert (h_Repo h)); simpl in Hm; try done; eexists; split; [reflexivity|eauto].
  1-4: rewrite Hm; eexists; split; [reflexivity|eauto].
  destruct (String.eqb (c_PathID cmd) ""); [eexists; split; [reflexivity|eauto]|]. simpl in Hm.
  destruct (r_ScopedArchivedReader (h_Repo h)); [done|]. destruct (r_FindArchivedByID (h_Repo h)); [done|].
  eexists. split; [reflexivity|eauto].
Qed.

(** A misrouted command touches nothing.  A command without an id on an id
    route, an insert on a repository of the other kind, or an unarchive on a
    repository that cannot load archived records leaves the world as it was and is
    answered with a 500. *)
Theorem misrouted_commands_touch_nothing varsOf StatusText tr lang t l ok k w :
  misrouted k = true ->
  (run k w).1 = w /\
  r_Status (RespondFromResult StatusText tr lang (Run varsOf t (Some l) (fun _ => (run k w).2)) ok) = 500%Z.
Proof. intros Hm. destruct (misrouted_refused k w Hm) as (r & -> & [[m ->]|[m ->]]); done. Qed.

(** The hooks the persister resolves from a handler's options are the
    command's: each slot holds the command's hook, or nothing when the command has
    none. *)
Theorem hooks_reach_the_persister :
  ResolveWriteOptions (collectWriteOptions cmd) = (c_AfterBegin cmd, c_BeforeCommit cmd).
Proof. unfold collectWriteOptions. by destruct (c_AfterBegin cmd), (c_BeforeCommit cmd). Qed.

End Theorems.

(** ** Queries *)

Section QueryTheorems.
Context {Ctx W Doc TResult : Type} (ResultFromDoc : Doc -> TResult).
Context (h : @QueryHandler Ctx W Doc) (ctx : Ctx) (q : @Query Ctx W TResult).

(** A query by id answers 404 for an absent document.  When the criteria are
    built and the reader answers, the handler's outcome is the query's own projection
    of the document, or, for no document, an error that is answered with a 404 under
    the query's context name (the view's when it has none). *)
Theorem find_by_id_outcome varsOf StatusText tr lang t l ok w w1 w2 crit found :
  id_value (q_PathID q) <> "" ->
  q_ToCriteria q ctx w = (w1, Ret crit) ->
  vr_ReadByID (qh_Reader h) ctx (qh_View h) (id_value (q_PathID q)) crit w1 = (w2, Ret found) ->
  match found with
  | Some doc => FindByIDQueryHandler_Handle ResultFromDoc h ctx q w = q_FromQueryResult q ctx (ResultFromDoc doc) w2
  | None =>
      exists c, FindByIDQueryHandler_Handle ResultFromDoc h ctx q w = (w2, Fail (ECarrier [Some c])) /\
        nc_context c = (if String.eqb (q_ContextName q) "" then qh_View h else q_ContextName q) /\
        r_Status (RespondFromResult StatusText tr lang
          (Run varsOf t (Some l) (fun _ => (FindByIDQueryHandler_Handle ResultFromDoc h ctx q w).2)) ok) = 404%Z
  end.
Proof.
  intros Hid Hc Hr. assert (E : String.eqb (id_value (q_PathID q)) "" = false) by by apply String.eqb_neq.
  unfold FindByIDQueryHandler_Handle, RequirePathID. rewrite E. unfold gbind, gret. rewrite Hc, Hr.
  destruct found as [doc|]; [done|]. unfold gfail, NotFoundError, NewDomainErrorWith, NewDomainError. eexists. done.
Qed.

(** A page keeps its envelope and the order of its items: when every item is
    filled, the typed page has the fills of the documents in order and the reader's
    envelope; an only-total page has no items. *)
Lemma page_conversion page (fill : TResult -> GoM W GoErr TResult) (f : TResult -> TResult) w :
  (forall r w, fill r w = (w, Ret (f r))) ->
  PageOfFrom ResultFromDoc page fill w =
  (w, Ret (mkPage _ (if pe_OnlyTotal (pg_Envelope _ page) then [] else (f ∘ ResultFromDoc) <$> pg_Items _ page) (pg_Envelope _ page))).
Proof.
  intros Hf. unfold PageOfFrom. destruct (pe_OnlyTotal (pg_Envelope _ page)); [done|].
  assert (Hi : forall docs w, fillItems ResultFromDoc fill docs w = (w, Ret ((f ∘ ResultFromDoc) <$> docs))).
  { induction docs as [|doc docs IH]; intros w'; [done|]. simpl. unfold gbind at 1. rewrite Hf. unfold gbind. by rewrite IH. }
  unfold gbind. by rewrite Hi.
Qed.

End QueryTheorems.

(** ** Instances *)

Module HandlerSample.
Import Sample OrderSample.

(** A repository that holds one order of quantity three and counts its writes in
    the world. *)
Definition written {A} (a : A) : GoM (Z * EntityState Child unit Z) GoErr A :=
  fun '(w, e) => ((w + 1, e)%Z, Ret a).

Definition repo : ScopedRepository Child unit Z unit unit unit Z := {|
  r_type := "*OrderRepository";
  r_FindByID _ := gret (loadedOrder 3);
  r_New := newOrder 0;
  r_Scope _ _ := mkWriter (fun _ => written (NewID "o2")) (fun _ => written tt) (fun _ => written tt) (fun _ => written tt)
                   (fun _ => written tt);
  r_ScopedReader := None;
  r_ScopedArchivedReader := None;
  r_FindArchivedByID := None;
  r_LoadForSharedBaseInsert := None
|}.

Definition handler : CommandHandler Child unit Z unit unit unit Z := mkHandler repo None.

Definition command (id : string) : Command Child unit Z unit unit unit Z Z := {|
  c_PathID := id;
  c_ToEntity _ := gret (newOrder 5);
  c_ApplyTo _ := CDo (CSetData (fun _ => 7%Z)) (CReturn None);
  c_ApplyPartiallyTo _ := CReturn None;
  c_FromEntity _ := fun s => (s, Ret (en_data s.2));
  c_AfterBegin := Some tt;
  c_BeforeCommit := None
|}.

Definition query : @Query unit Z Z := {|
  q_PathID := NewID "o1";
  q_ToCriteria _ := gret (mkCriteria ∅ [] (mkProjection ProjectAll ∅) 0 "" "" false "" false false false);
  q_FromQueryResult _ r := gret r;
  q_ContextName := ""
|}.

Definition emptyView : @QueryHandler unit Z Z := mkQueryHandler
  (mkViewReader (fun _ _ _ _ => gret None)
     (fun _ _ _ => gret (mkPage _ [] (mkPageEnvelope false false "" "" 0 false [] (mkProjection ProjectAll ∅))))) "orders".

End HandlerSample.

Section HandlerInstances.
Import Sample OrderSample HandlerSample.

Abbreviation loggedUpdate := (Handle order (fun _ => None) (fun s => s.1) HUpdate (loggedHandler handler) tt (loggedCmd (command "o1")) (0%Z, [])).

Lemma handlers_write_only_valid_entities_witness :
  exists log, loggedUpdate = ((1%Z, log), Ret 7%Z) /\ length log = 1%nat /\
    Forall (fun c => enNotifs (wc_entity c) = []) log.
Proof.
  destruct (handlers_write_only_valid_entities order (fun _ => None) (fun w => w) handler tt (command "o1") HUpdate 0%Z)
    as (log & Hr & _ & Hl & Hv).
  exists log. split; [|split].
  - rewrite Hr. vm_compute. reflexivity.
  - apply Hl. exists 7%Z. vm_compute. reflexivity.
  - eapply Forall_impl; [exact Hv|]. intros c (_ & [Hn _] & _). exact Hn.
Defined.

Lemma handlers_keep_the_persisted_state_witness :
  Forall (fun c => be_old (en_base (wc_entity c)) = Some (mkOld 3%Z None)) loggedUpdate.1.2.
Proof.
  eapply Forall_impl; [eapply (handlers_keep_the_persisted_state order (fun _ => None) (fun w => w) handler tt (command "o1") HUpdate 0%Z)|].
  - reflexivity.
  - apply surjective_pairing.
  - reflexivity.
  - intros c (w1 & e0 & He & Ho). apply Ho. simpl in He. injection He as _ <-. vm_compute. reflexivity.
Defined.

Lemma misrouted_commands_touch_nothing_witness :
  (Handle order (fun _ => None) (fun w => w) HUpdate handler tt (command "") 5%Z).1 = 5%Z.
Proof.
  destruct (misrouted_commands_touch_nothing order (fun _ => None) (fun w => w) handler tt (command "") (fun _ => ∅) (fun _ => "")
              None LangENG newTranslator LangENG 200%Z HUpdate 5%Z) as [Hw _]; [reflexivity|exact Hw].
Defined.

Lemma find_by_id_outcome_witness :
  exists c, FindByIDQueryHandler_Handle (fun x : Z => x) emptyView tt query 0%Z = (0%Z, Fail (ECarrier [Some c])) /\
    nc_context c = "orders".
Proof.
  destruct (find_by_id_outcome (fun x : Z => x) emptyView tt query (fun _ => ∅) (fun _ => "") None LangENG
              newTranslator LangENG 200%Z 0%Z 0%Z 0%Z
              (mkCriteria ∅ [] (mkProjection ProjectAll ∅) 0 "" "" false "" false false false) None)
    as (c & Hc & Hn & _); [discriminate|reflexivity|reflexivity|]. exists c. split; [exact Hc|exact Hn].
Defined.

End HandlerInstances.
