(* ===== verification/WriteSchema.v ===== *)
(** * The write side of a table schema

    What the write path asks of [infra/db/core/table_schema.go],
    [infra/db/core/shared_base.go], [infra/db/core/shared_base_children.go] and
    [infra/db/core/redaction.go], with the stamp plans of
    [infra/db/command/write/write_sql.go].

    In Go every table is a [*TableSchema]; boot validation keeps siblings and
    children flat, so here a table is a [Part] and a child, a shared base and a root
    schema are records around one.  [X] is the Go struct a part reads: the entity's
    data for a root, its siblings and its base, the child value for a child.  Error
    texts are abbreviated. *)

From S2P Require Import Prelude Naming Errors BaseEntity Aggregate Criteria Queries.
From stdpp Require Import base gmap strings list fin_maps.
From Stdlib Require Import Ascii ZArith Lia.

Open Scope string_scope.
Open Scope list_scope.
Open Scope go_scope.

(** ** Values and instants *)

(** [domain.Fields]: column to value. *)
Abbreviation Fields := (gmap string Value).

(** An instant is a [Z], the zero [time.Time] is 0; its text here is its decimal. *)
Definition zeroTime : Z := 0.
Definition isZeroTime (t : Z) : bool := Z.eqb t zeroTime.
Definition timeValue (t : Z) : Value := VTime (isZeroTime t) (itoa t).
Definition timePtrValue (t : option Z) : Value := VTimePtr ((fun t => (isZeroTime t, itoa t)) <$> t).
Definition intValue (n : Z) : Value := VOther (itoa n).

(** [isNilValue]: nil, or a nil pointer in the interface. *)
Definition isNilValue (v : Value) : bool :=
  match v with
  | VNil | VStringPtr None | VID None | VTimePtr None => true
  | _ => false
  end.

Definition allNilFields (fields : Fields) : bool := bool_decide (map_Forall (fun _ v => isNilValue v = true) fields).

(** ** Parts *)

(** What a field's path finds in a struct: a value, a nil pointer on the way, or no
    such position. *)
Inductive FieldRead := FieldFound (v : Value) | FieldAbsent | FieldUnresolved.

(** The Go types a stamped field may have: [*time.Time], [int64], [*int64]. *)
Inductive StampKind := StampTime | StampCounter | StampNullableCounter.

#[export] Instance StampKind_eq_dec : EqDecision StampKind.
Proof. solve_decision. Defined.
#[export] Instance StampOp_eq_dec : EqDecision StampOp.
Proof. solve_decision. Defined.

Definition isCounter (k : StampKind) : bool := negb (bool_decide (k = StampTime)).

(** A mapped field in declaration order; [fd_stamped] is [None] for a plain field,
    [fd_set] writes the field's struct position when it can be set, [fd_inSync] is the
    active sync redactor. *)
Record fieldDecl (X : Type) := mkField {
  fd_goName : string;
  fd_column : string;
  fd_stamped : option StampKind;
  fd_read : X -> FieldRead;
  fd_set : Value -> X -> X;
  fd_inSync : option (Value -> Value)
}.

Arguments mkField {X}.
Arguments fd_goName {X}.
Arguments fd_column {X}.
Arguments fd_stamped {X}.
Arguments fd_read {X}.
Arguments fd_set {X}.
Arguments fd_inSync {X}.

(** One table: its resolution surface, its fields, its revision column ("" for
    none). *)
Record Part (X : Type) := mkPart {
  pt_ts : TableSchema;
  pt_fields : list (fieldDecl X);
  pt_revision : string
}.

Arguments mkPart {X}.
Arguments pt_ts {X}.
Arguments pt_fields {X}.
Arguments pt_revision {X}.

Record ClaimedStamp := mkClaim { cs_Column : string; cs_Op : StampOp; cs_Counter : bool }.

Section Part.
Context {X : Type} (s : Part X).

Definition Table : string := ts_table (pt_ts s).
Definition IDColumn : string := ts_idColumn (pt_ts s).
Definition ParentIDColumn : string := ts_parentIDColumn (pt_ts s).
Definition CreatedAtColumn : string := ts_createdAt (pt_ts s).
Definition UpdatedAtColumn : string := ts_updatedAt (pt_ts s).

Definition insertNowColumns : list string :=
  option_list (nonEmpty (ts_createdAt (pt_ts s))) ++ option_list (nonEmpty (ts_updatedAt (pt_ts s))).

Definition updateNowColumns : list string := option_list (nonEmpty (ts_updatedAt (pt_ts s))).

Definition GoOf (column : string) : option string :=
  if String.eqb column IDColumn then Some (ts_idGo (pt_ts s))
  else fd_goName <$> List.find (fun f => String.eqb (fd_column f) column) (pt_fields s).

Definition WireFieldOf (column : string) : string :=
  match GoOf column with
  | Some g => if String.eqb g "" then column else WireFieldPath g
  | None => column
  end.

(** [writeFields]: the bound columns of a value; stamped ones are the framework's. *)
Definition writeFields (x : X) : Fields :=
  foldl (fun out f =>
    match fd_stamped f, fd_read f x with
    | Some _, _ => out
    | None, FieldFound v => <[fd_column f := v]> out
    | None, FieldAbsent => <[fd_column f := VNil]> out
    | None, FieldUnresolved => out
    end) ∅ (pt_fields s).

Definition HasStampedFields : bool := existsb (fun f => bool_decide (is_Some (fd_stamped f))) (pt_fields s).

(** A type-less schema has no struct to disprove it. *)
Definition StampedFieldAcceptsNull (k : StampKind) : bool :=
  match k with
  | StampTime => true
  | StampCounter => negb (ts_typed (pt_ts s))
  | StampNullableCounter => true
  end.

(** [want]: the requests by field, the last one of a field standing. *)
Definition wanted (reqs : list StampRequest) : gmap string StampOp :=
  foldl (fun m r => <[sr_Field r := sr_Op r]> m) ∅ reqs.

(** The loop over the declared fields. *)
Fixpoint claimFields (fields : list (fieldDecl X)) (want : gmap string StampOp) :
  Outcome GoErr (list ClaimedStamp * gmap string StampOp) :=
  match fields with
  | [] => Ret ([], want)
  | f :: rest =>
      match fd_stamped f, want !! fd_goName f with
      | Some k, Some op =>
          if bool_decide (op = StampToNull) && negb (StampedFieldAcceptsNull k)
          then Fail (ELeaf ("db: StampNull on " +:+ fd_goName f))
          else
            let* r := claimFields rest (delete (fd_goName f) want) in
            Ret (mkClaim (fd_column f) op (isCounter k) :: r.1, r.2)
      | _, _ => claimFields rest want
      end
  end.

(** What is left of the requests, each name once. *)
Fixpoint unclaimedOf {A} (names : list string) (want : gmap string A) : list string :=
  match names with
  | [] => []
  | g :: rest =>
      match want !! g with
      | Some _ => g :: unclaimedOf rest (delete g want)
      | None => unclaimedOf rest want
      end
  end.

Definition ClaimStampRequests (reqs : list StampRequest) : Outcome GoErr (list ClaimedStamp * list string) :=
  match reqs with
  | [] => Ret ([], [])
  | _ =>
      let* r := claimFields (pt_fields s) (wanted reqs) in
      Ret (r.1, unclaimedOf (StampFields reqs) r.2)
  end.

(** [ClaimStampColumns], as far as its callers read it: what it does not claim. *)
Definition stampColumnsLeft (goFields : list string) : list string :=
  unclaimedOf goFields
    (foldl (fun want f =>
       match fd_stamped f with Some _ => delete (fd_goName f) want | None => want end)
     (list_to_map ((fun g => (g, tt)) <$> goFields)) (pt_fields s)).

Definition RefuseUnclaimedStamps (goFields : list string) : Outcome GoErr unit :=
  match goFields with
  | [] => Ret tt
  | g :: _ =>
      if existsb (fun f => String.eqb (fd_goName f) g) (pt_fields s)
      then Fail (ELeaf ("db: " +:+ Table +:+ ".Stamp: plain field " +:+ g))
      else Fail (ELeaf ("db: " +:+ Table +:+ ".Stamp: no stamped field " +:+ g))
  end.

Definition StampRequestColumns (reqs : list StampRequest) : Outcome GoErr (list ClaimedStamp) :=
  let* r := ClaimStampRequests reqs in
  let* _ := RefuseUnclaimedStamps r.2 in
  Ret r.1.

(** The value a stamp leaves on the struct; [None] when it leaves it alone. *)
Definition applyStampTo (k : StampKind) (op : StampOp) (now : Z) : option Value :=
  match k, op with
  | StampTime, StampToNull => Some (timePtrValue None)
  | StampTime, StampToEmpty => Some (timePtrValue (Some zeroTime))
  | StampTime, StampFill => Some (timePtrValue (Some now))
  | StampCounter, StampToEmpty => Some (intValue 0)
  | StampCounter, _ => None
  | StampNullableCounter, StampToNull => Some VNil
  | StampNullableCounter, StampToEmpty => Some (intValue 0)
  | StampNullableCounter, StampFill => None
  end.

Definition applyStamp (now : Z) (x : X) (r : StampRequest) : X :=
  match List.find (fun f => String.eqb (fd_goName f) (sr_Field r)) (pt_fields s) with
  | Some f =>
      match fd_stamped f with
      | Some k => match applyStampTo k (sr_Op r) now with Some v => fd_set f v x | None => x end
      | None => x
      end
  | None => x
  end.

Definition ApplyStamps (reqs : list StampRequest) (now : Z) (x : X) : X := foldl (applyStamp now) x reqs.

(** The active redactors over the columns the map holds. *)
Definition RedactSyncColumns (m : Fields) : Fields :=
  foldl (fun m f =>
    match fd_inSync f, m !! fd_column f with
    | Some redact, Some v => <[fd_column f := redact v]> m
    | _, _ => m
    end) m (pt_fields s).

Definition archivedAtColumn : option string := ArchivedAtColumn (pt_ts s).

Definition requireArchivedAt (entityName : string) : Outcome GoErr string :=
  match archivedAtColumn with
  | Some col => Ret col
  | None => Fail (ELeaf ("db: " +:+ entityName +:+ " did not declare ArchivedAt"))
  end.

End Part.

(** ** Stamp plans *)

Record stampPlan := mkPlan {
  sp_nowCols : list string;
  sp_counters : list string;
  sp_nullCols : list string;
  sp_zeroTimes : list string;
  sp_zeroCounters : list string;
  sp_requestedTimes : list string;
  sp_payload : list string
}.

Definition planOf (nowCols : list string) : stampPlan := mkPlan nowCols [] [] [] [] [] [].

(** The loop of [splitStamps]: one claim into its bucket. *)
Definition splitStamp (p : stampPlan) (c : ClaimedStamp) : stampPlan :=
  let 'mkPlan nowCols counters nullCols zeroTimes zeroCounters requested payload := p in
  match cs_Op c, cs_Counter c with
  | StampToNull, _ => mkPlan nowCols counters (nullCols ++ [cs_Column c]) zeroTimes zeroCounters requested payload
  | StampToEmpty, true => mkPlan nowCols counters nullCols zeroTimes (zeroCounters ++ [cs_Column c]) requested payload
  | StampToEmpty, false => mkPlan nowCols counters nullCols (zeroTimes ++ [cs_Column c]) zeroCounters requested payload
  | StampFill, true => mkPlan nowCols (counters ++ [cs_Column c]) nullCols zeroTimes zeroCounters requested payload
  | StampFill, false => mkPlan nowCols counters nullCols zeroTimes zeroCounters (requested ++ [cs_Column c]) payload
  end.

Definition splitStamps (claims : list ClaimedStamp) (p : stampPlan) : stampPlan :=
  let p := foldl splitStamp p claims in
  mkPlan (sp_nowCols p ++ sp_requestedTimes p) (sp_counters p) (sp_nullCols p) (sp_zeroTimes p) (sp_zeroCounters p)
    (sp_requestedTimes p) (sp_requestedTimes p ++ sp_nullCols p ++ sp_zeroTimes p ++ sp_zeroCounters p).

Definition writesBack (p : stampPlan) : bool := negb (bool_decide (sp_payload p = [])).

(** [claimStampedCols] and [stampedChildCols] up to their write-back: the plan, what
    is left, and the requests to write back onto the struct. *)
Definition claimPlan {X} (s : Part X) (asked : list StampRequest) (nowCols : list string) :
  Outcome GoErr (stampPlan * list string * list StampRequest) :=
  if negb (HasStampedFields s) then Ret (planOf nowCols, StampFields asked, [])
  else
    let* r := ClaimStampRequests s asked in
    match r.1 with
    | [] => Ret (planOf nowCols, r.2, [])
    | claimed => Ret (splitStamps claimed (planOf nowCols), r.2, asked)
    end.

(** The payload's view of the written columns. *)
Definition withStamps (fields : Fields) (plan : stampPlan) (now : Z) : Fields :=
  let put v := foldl (fun out c => <[c := v]> out) in
  put (intValue 0)
    (put (timeValue zeroTime)
      (put VNil
        (put (timeValue now) fields (sp_requestedTimes plan))
        (sp_nullCols plan))
      (sp_zeroTimes plan))
    (sp_zeroCounters plan).

(** ** Child, base and root schemas *)

Inductive OrphanPolicy := KeepOrphan | DeleteWhenUnreferenced.

#[export] Instance OrphanPolicy_eq_dec : EqDecision OrphanPolicy.
Proof. solve_decision. Defined.

(** A role table that references a shared base; [rr_ArchivedAtCol] is "" for none. *)
Record RoleRef := mkRoleRef { rr_Table : string; rr_ParentIDColumn : string; rr_ArchivedAtCol : string }.

Section Schemas.
Context {V D : Type}.

Record ChildSchema := mkChildSchema { ch_part : Part V; ch_siblings : list (Part V) }.

Record BaseSchema := mkBaseSchema {
  bs_part : Part D;
  bs_naturalIDCol : string;
  bs_orphanPolicy : OrphanPolicy;
  bs_children : gmap string ChildSchema;
  bs_referencingRoles : list RoleRef
}.

(** [rs_sharedBase] is [SharedBaseRef]: the base and the column that refers to it. *)
Record RootSchema := mkRootSchema {
  rs_part : Part D;
  rs_siblings : list (Part D);
  rs_children : gmap string ChildSchema;
  rs_sharedBase : option (BaseSchema * string)
}.

(** [ChildSchemas]: in the order of their tables. *)
Definition ChildSchemas (children : gmap string ChildSchema) : list ChildSchema :=
  snd <$> sortByKey ((fun c => (Table (ch_part c.2), c.2)) <$> map_to_list children).

(** The child and whether it is the base's. *)
Definition ResolveAggregateChild (s : RootSchema) (typeName : string) : option (ChildSchema * bool) :=
  match rs_children s !! typeName with
  | Some c => Some (c, false)
  | None =>
      link ← rs_sharedBase s;
      c ← bs_children link.1 !! typeName;
      Some (c, true)
  end.

End Schemas.

Arguments ChildSchema : clear implicits.
Arguments BaseSchema : clear implicits.
Arguments RootSchema : clear implicits.
