(* ===== verification/WriteSql.v ===== *)
(** * The statements of the write path

    The builders of [infra/db/command/write/write_sql.go] and the fixed statements of
    [flat_write.go], [outbox.go], [outbox_payload.go] and [shared_base_write.go], over
    the dialect.  Statements are token lists as in [CriteriaSql]; a [Panic] is the
    quoter's. *)

From S2P Require Import Prelude Naming Notification Errors BaseEntity Aggregate Criteria CriteriaSql Dialects Queries WriteSchema.
From stdpp Require Import base gmap strings list fin_maps.
From Stdlib Require Import Ascii ZArith Lia.

Open Scope string_scope.
Open Scope list_scope.
Open Scope go_scope.

(** ** The dialect of the write path *)

(** The rest of the [Dialect] interface.  [wd_raw] is a value handed to the driver
    without the codec; the two classifiers of driver errors answer the constraint's
    name. *)
Record WriteDialect (Arg : Type) := mkWriteDialect {
  wd_d : Dialect Arg;
  wd_raw : Value -> Arg;
  wd_BuildUpsert : string -> list string -> list string -> list UpsertSet -> option (list Tok);
  wd_Savepoint : string -> list Tok;
  wd_RollbackToSavepoint : string -> list Tok;
  wd_ReleaseSavepoint : string -> list Tok;
  wd_IsUniqueViolation : GoErr -> option string;
  wd_IsForeignKeyViolation : GoErr -> option string
}.

Arguments mkWriteDialect {Arg}.
Arguments wd_d {Arg}.
Arguments wd_raw {Arg}.
Arguments wd_BuildUpsert {Arg}.
Arguments wd_Savepoint {Arg}.
Arguments wd_RollbackToSavepoint {Arg}.
Arguments wd_ReleaseSavepoint {Arg}.
Arguments wd_IsUniqueViolation {Arg}.
Arguments wd_IsForeignKeyViolation {Arg}.

(** ** Errors *)

(** [NewInfrastructureErrorWith], a carrier like a domain error. *)
Definition InvalidFilterValueError (goField value : string) : GoErr :=
  NewDomainErrorWith "Schema"
    (setFieldValue value (setOverride (WireFieldPath goField) (message [] InvalidFilterValueNotification))).

Definition fromCrit (e : CritErr) : GoErr :=
  match e with
  | EInvalidFilterValue f v => InvalidFilterValueError f v
  | _ => ELeaf "criteria"
  end.

Definition liftCrit {A} (r : Outcome CritErr A) : Outcome GoErr A :=
  match r with
  | Ret a => Ret a
  | Fail e => Fail (fromCrit e)
  | Panic m => Panic m
  end.

(** ** Text *)

(** The pieces of a formatted statement; an identifier is still to be quoted. *)
Inductive Piece :=
| PWord (w : string)
| PIdent (name : string)
| PPlace (n : nat)
| POpen
| PClose
| PAnd.

(** Where a bound column takes its value from: an argument, a literal, itself plus
    one. *)
Inductive Slot (Arg : Type) := SBind (a : Arg) | SLit (text : string) | SBump.

Arguments SBind {Arg}.
Arguments SLit {Arg}.
Arguments SBump {Arg}.

Definition idGoField : string := "ID".

(** [writeTarget]: the table and how criteria fields resolve on it. *)
Record writeTarget := mkTarget {
  wt_table : string;
  wt_resolve : FieldResolver;
  wt_idKind : string -> IDKind
}.

Definition schemaTarget {X} (s : Part X) : writeTarget :=
  mkTarget (Table s) (Resolve (pt_ts s)) (IDKindOf (pt_ts s)).

Definition idOnlyTarget (table idColumn : string) : writeTarget :=
  mkTarget table
    (fun f => if String.eqb f idGoField then Some (mkResolved idColumn None OwnerAnchor "") else None)
    (fun f => if String.eqb f idGoField then IDValue else IDNone).

(** [SortedKeys] with the values. *)
Definition SortedFields (fields : Fields) : list (string * Value) := sortByKey (map_to_list fields).

Section Builders.
Context {Arg : Type} (w : WriteDialect Arg).
Context (isUUID : string -> bool).

Abbreviation d := (wd_d w).
Abbreviation enc := (d_EncodeArg (wd_d w)).
Abbreviation Stmt := (list Tok * list Arg)%type.

Definition quoteIdent (name : string) : Outcome GoErr (list Tok) := liftCrit (quote d name).

Fixpoint render (ps : list Piece) : Outcome GoErr (list Tok) :=
  match ps with
  | [] => Ret []
  | p :: rest =>
      let* t := match p with
                | PWord s => Ret [TKw s]
                | PIdent name => quoteIdent name
                | PPlace n => Ret [TPlace n]
                | POpen => Ret [TOpen]
                | PClose => Ret [TClose]
                | PAnd => Ret [TAnd]
                end in
      let* r := render rest in
      Ret (t ++ r)
  end.

(** [strings.Join(parts, ", ")] *)
Fixpoint commaSep (parts : list (list Tok)) : list Tok :=
  match parts with
  | [] => []
  | p :: rest => p ++ (match rest with [] => [] | _ => [TKw ", "] end) ++ commaSep rest
  end.

Fixpoint quoteAll (names : list string) : Outcome GoErr (list (list Tok)) :=
  match names with
  | [] => Ret []
  | n :: rest => let* q := quoteIdent n in let* r := quoteAll rest in Ret (q :: r)
  end.

(** The arguments the slots bind. *)
Definition slotArgs (slots : list (string * Slot Arg)) : list Arg :=
  omap (fun s => match s.2 with SBind a => Some a | _ => None end) slots.

(** The values of an INSERT, the next placeholder being [n]. *)
Fixpoint slotValues (n : nat) (slots : list (string * Slot Arg)) : list (list Tok) :=
  match slots with
  | [] => []
  | (_, SBind _) :: rest => [TPlace n] :: slotValues (S n) rest
  | (_, SLit text) :: rest => [TKw text] :: slotValues n rest
  | (_, SBump) :: rest => slotValues n rest
  end.

(** The assignments of a SET list. *)
Fixpoint slotSets (n : nat) (slots : list (string * Slot Arg)) : Outcome GoErr (list (list Tok)) :=
  match slots with
  | [] => Ret []
  | (c, s) :: rest =>
      let* q := quoteIdent c in
      let '(rhs, n') := match s with
                        | SBind _ => ([TPlace n], S n)
                        | SLit text => ([TKw text], n)
                        | SBump => (q ++ [TKw " + 1"], n)
                        end in
      let* r := slotSets n' rest in
      Ret ((q ++ TKw " = " :: rhs) :: r)
  end.

(** ** Predicates *)

(** [criteria.Eq(idGoField, id)] *)
Definition byID (id : string) : Expr := Build.Eq idGoField (VID (Some (NewID id))).

Definition compilePredicate (t : writeTarget) (pred : option Expr) (bound : nat) : Outcome GoErr Stmt :=
  match pred with
  | None => Fail (ELeaf ("db: a write statement on " +:+ wt_table t +:+ " was built with no predicate"))
  | Some _ => liftCrit (CompileWhereForWrite d isUUID pred (wt_resolve t) (Some (wt_idKind t)) bound (wt_table t))
  end.

(** ** INSERT *)

Definition bindAll (v : Value) (cols : list string) : list (string * Slot Arg) := (fun c => (c, SBind (enc v))) <$> cols.
Definition litAll (text : string) (cols : list string) : list (string * Slot Arg) := (fun c => (c, SLit text)) <$> cols.

Definition insertSlots (pk id : string) (fields : Fields) (plan : stampPlan) (now : Z) (revCol : string) :
  list (string * Slot Arg) :=
  (pk, SBind (enc (VID (Some (NewID id))))) ::
  ((fun kv => (kv.1, SBind (enc kv.2))) <$> SortedFields fields) ++
  bindAll (timeValue now) (sp_nowCols plan) ++
  ((fun c => (c, SBind (wd_raw w (intValue 1)))) <$> sp_counters plan) ++
  litAll "NULL" (sp_nullCols plan) ++
  litAll "0" (sp_zeroCounters plan) ++
  bindAll (timeValue zeroTime) (sp_zeroTimes plan) ++
  (if String.eqb revCol "" then [] else [(revCol, SBind (wd_raw w (intValue 1)))]).

Definition buildInsertWithCounters (table pk id : string) (fields : Fields) (plan : stampPlan) (now : Z)
  (revCol : string) : Outcome GoErr Stmt :=
  let slots := insertSlots pk id fields plan now revCol in
  let* t := quoteIdent table in
  let* cols := quoteAll (slots.*1) in
  Ret (TKw "INSERT INTO " :: t ++ TKw " " :: TOpen :: commaSep cols ++ TClose :: TKw " VALUES " :: TOpen ::
       commaSep (slotValues 1 slots) ++ [TClose], slotArgs slots).

Definition buildInsert (table pk id : string) (fields : Fields) (nowCols : list string) (now : Z) (revCol : string) :
  Outcome GoErr Stmt :=
  buildInsertWithCounters table pk id fields (planOf nowCols) now revCol.

(** ** UPDATE *)

Definition setSlots (fields : Fields) (plan : stampPlan) (now : Z) (revCol : string) : list (string * Slot Arg) :=
  ((fun kv => (kv.1, SBind (enc kv.2))) <$> SortedFields fields) ++
  bindAll (timeValue now) (sp_nowCols plan) ++
  ((fun c => (c, SBump)) <$> sp_counters plan) ++
  litAll "NULL" (sp_nullCols plan) ++
  litAll "0" (sp_zeroCounters plan) ++
  bindAll (timeValue zeroTime) (sp_zeroTimes plan) ++
  (if String.eqb revCol "" then [] else [(revCol, SBump)]).

Definition buildSetWithCounters (fields : Fields) (plan : stampPlan) (now : Z) (revCol : string) : Outcome GoErr Stmt :=
  let slots := setSlots fields plan now revCol in
  let* sets := slotSets 1 slots in
  Ret (commaSep sets, slotArgs slots).

Definition updateText (t : writeTarget) (sets where_ : list Tok) : Outcome GoErr (list Tok) :=
  let* table := quoteIdent (wt_table t) in
  Ret (TKw "UPDATE " :: table ++ TKw " SET " :: sets ++ TKw " WHERE " :: where_).

Definition buildUpdatePlan (t : writeTarget) (pred : option Expr) (fields : Fields) (plan : stampPlan) (now : Z)
  (revCol : string) (expectedRevision : Z) : Outcome GoErr Stmt :=
  let* sets := buildSetWithCounters fields plan now revCol in
  let* where_ := compilePredicate t pred (length sets.2) in
  let args := sets.2 ++ where_.2 in
  let* guarded :=
    (if negb (String.eqb revCol "") && (0 <? expectedRevision)%Z
     then let* rc := quoteIdent revCol in
          Ret (where_.1 ++ TAnd :: rc ++ [TKw " = "; TPlace (length args + 1)], args ++ [enc (intValue expectedRevision)])
     else Ret (where_.1, args)) in
  let* sql := updateText t sets.1 guarded.1 in
  Ret (sql, guarded.2).

Definition archiveSQL (t : writeTarget) (archivedCol : string) (pred : option Expr) (now : Z) (revCol : string) :
  Outcome GoErr Stmt :=
  let* sets := buildSetWithCounters {[ archivedCol := timeValue now ]} (planOf []) now revCol in
  let* where_ := compilePredicate t pred (length sets.2) in
  let* sql := updateText t sets.1 where_.1 in
  Ret (sql, sets.2 ++ where_.2).

(** ** DELETE *)

Definition deleteSQL (t : writeTarget) (pred : option Expr) : Outcome GoErr Stmt :=
  let* where_ := compilePredicate t pred 0 in
  let* table := quoteIdent (wt_table t) in
  Ret (TKw "DELETE FROM " :: table ++ TKw " WHERE " :: where_.1, where_.2).

Definition childDeleteSQL (childTable fkCol : string) : Outcome GoErr (list Tok) :=
  render [PWord "DELETE FROM "; PIdent childTable; PWord " WHERE "; PIdent fkCol; PWord " = "; PPlace 1].

Definition childSiblingDeleteSQL (sibTable childPKCol childTable childFKCol : string) : Outcome GoErr (list Tok) :=
  render [PWord "DELETE FROM "; PIdent sibTable; PWord " WHERE "; PIdent childPKCol; PWord " IN "; POpen;
          PWord "SELECT "; PIdent childPKCol; PWord " FROM "; PIdent childTable; PWord " WHERE "; PIdent childFKCol;
          PWord " = "; PPlace 1; PClose].

(** ** Cascades *)

Definition archiveCascadeSQL (childTable childArchivedCol fkCol : string) : Outcome GoErr (list Tok) :=
  render [PWord "UPDATE "; PIdent childTable; PWord " SET "; PIdent childArchivedCol; PWord " = "; PPlace 1;
          PWord " WHERE "; PIdent fkCol; PWord " = "; PPlace 2; PAnd; PIdent childArchivedCol; PWord " IS NULL"].

Definition unarchiveCascadeSQL (childTable childArchivedCol fkCol ownerTable ownerSd ownerPK : string) :
  Outcome GoErr (list Tok) :=
  render [PWord "UPDATE "; PIdent childTable; PWord " SET "; PIdent childArchivedCol; PWord " = "; PWord "NULL";
          PWord " WHERE "; PIdent fkCol; PWord " = "; PPlace 1; PAnd; PIdent childArchivedCol; PWord " = "; POpen;
          PWord "SELECT "; PIdent ownerSd; PWord " FROM "; PIdent ownerTable; PWord " WHERE "; PIdent ownerPK;
          PWord " = "; PPlace 2; PClose].

(** ** Siblings *)

Definition buildSiblingUpsert {X} (sib : Part X) (pkCol id : string) (fields : Fields) : Outcome GoErr Stmt :=
  let keys := SortedFields fields in
  match wd_BuildUpsert w (Table sib) (pkCol :: keys.*1) [pkCol]
          ((fun kv => mkUpsertSet kv.1 UpsertSetNew "") <$> keys) with
  | Some ts => Ret (ts, enc (VID (Some (NewID id))) :: (enc <$> keys.*2))
  | None => Panic "infra: invalid SQL identifier"
  end.

(** ** Probes *)

(** [SELECT cols FROM table WHERE pk = $1], limited to one row. *)
Definition selectByID (head : list Piece) (table pkCol : string) : Outcome GoErr (list Tok) :=
  let* ts := render (head ++ [PIdent table; PWord " WHERE "; PIdent pkCol; PWord " = "; PPlace 1]) in
  limited d ts 1.

Definition rowExistsSQL (table pk : string) : Outcome GoErr (list Tok) := selectByID [PWord "SELECT 1 FROM "] table pk.

Definition archiveStampSQL (table archivedCol pkCol : string) : Outcome GoErr (list Tok) :=
  selectByID [PWord "SELECT "; PIdent archivedCol; PWord " FROM "] table pkCol.

Definition revisionSQL (table revCol createdCol pkCol : string) : Outcome GoErr (list Tok) :=
  selectByID ([PWord "SELECT "; PIdent revCol] ++
              (if String.eqb createdCol "" then [] else [PWord ", "; PIdent createdCol]) ++ [PWord " FROM "]) table pkCol.

(** The probe of the role rows of a base; [archivedCol] "" counts archived rows
    too. *)
Definition roleProbeSQL (table fkCol archivedCol : string) : Outcome GoErr (list Tok) :=
  let* ts := render ([PWord "SELECT 1 FROM "; PIdent table; PWord " WHERE "; PIdent fkCol; PWord " = "; PPlace 1] ++
                     (if String.eqb archivedCol "" then [] else [PAnd; PIdent archivedCol; PWord " IS NULL"])) in
  limited d ts 1.

Definition activeSiblingSQL (table fkCol idCol archivedCol : string) : Outcome GoErr (list Tok) :=
  let* ts := render [PWord "SELECT 1 FROM "; PIdent table; PWord " WHERE "; PIdent fkCol; PWord " = "; PPlace 1; PAnd;
                     PIdent idCol; PWord " <> "; PPlace 2; PAnd; PIdent archivedCol; PWord " IS NULL"] in
  limited d ts 1.

Definition naturalKeySQL (table fkCol idCol : string) : Outcome GoErr (list Tok) :=
  render [PWord "SELECT CASE WHEN "; PIdent fkCol; PWord " = "; PPlace 1; PWord " THEN 1 ELSE 0 END FROM "; PIdent table;
          PWord " WHERE "; PIdent idCol; PWord " = "; PPlace 2].

(** ** The base row *)

Definition baseRevisionBump (revCol : string) : list Piece :=
  [PWord ", "; PIdent revCol; PWord " = "; PIdent revCol; PWord " + 1"].

Definition archiveBaseSQL (table archivedCol idCol revCol : string) : Outcome GoErr (list Tok) :=
  render ([PWord "UPDATE "; PIdent table; PWord " SET "; PIdent archivedCol; PWord " = "; PPlace 1] ++
          baseRevisionBump revCol ++
          [PWord " WHERE "; PIdent idCol; PWord " = "; PPlace 2; PAnd; PIdent archivedCol; PWord " IS NULL"]).

Definition unarchiveBaseSQL (table archivedCol idCol revCol : string) : Outcome GoErr (list Tok) :=
  render ([PWord "UPDATE "; PIdent table; PWord " SET "; PIdent archivedCol; PWord " = "; PWord "NULL"] ++
          baseRevisionBump revCol ++
          [PWord " WHERE "; PIdent idCol; PWord " = "; PPlace 1; PAnd; PIdent archivedCol; PWord " IS NOT NULL"]).

Definition bumpRevisionSQL (table idCol revCol : string) : Outcome GoErr (list Tok) :=
  render [PWord "UPDATE "; PIdent table; PWord " SET "; PIdent revCol; PWord " = "; PIdent revCol; PWord " + 1";
          PWord " WHERE "; PIdent idCol; PWord " = "; PPlace 1].

(** ** Outbox and audit *)

Definition placesUpTo (n : nat) : list (list Tok) := (fun k => [TPlace k]) <$> seq 1 n.

Definition outboxSQL : list Tok :=
  TKw "INSERT INTO outbox " :: TOpen ::
  TKw "id, aggregate_type, event_type, aggregate_id, payload, traceparent, created_at" :: TClose ::
  TKw " VALUES " :: TOpen :: commaSep (placesUpTo 6 ++ [[TKw (d_NowExpr d)]]) ++ [TClose].

Definition auditSQL : list Tok :=
  TKw "INSERT INTO audit_events " :: TOpen ::
  TKw "id, aggregate_id, entity_type, verb, action_name, kind, actor, actor_issuer, tenant_id, thread_id, occurred_at, payload, trace_id" ::
  TClose :: TKw " VALUES " :: TOpen :: commaSep (placesUpTo 13) ++ [TClose].

Definition clockSQL : list Tok := [TKw "SELECT "; TKw (d_UTCNowExpr d)].

End Builders.

(** ** The two engines *)

(** [uniqueViolation] and [fkViolation] classify the driver's errors.  The values
    handed over without the codec are texts, integers and nil, which the Postgres
    codec passes through. *)
Definition pgWriteDialect (uniqueViolation fkViolation : GoErr -> option string) : WriteDialect SqlArg :=
  mkWriteDialect pgDialect pgEncodeArg pgBuildUpsert
    (fun name => [TKw ("SAVEPOINT " +:+ name)]) (fun name => [TKw ("ROLLBACK TO SAVEPOINT " +:+ name)])
    (fun name => [TKw ("RELEASE SAVEPOINT " +:+ name)]) uniqueViolation fkViolation.

Definition mysqlWriteDialect (isUUID : string -> bool) (uuidText : string -> string)
  (uniqueViolation fkViolation : GoErr -> option string) : WriteDialect SqlArg :=
  mkWriteDialect (mysqlDialect isUUID uuidText) pgEncodeArg mysqlBuildUpsert
    (fun name => [TKw ("SAVEPOINT " +:+ name)]) (fun name => [TKw ("ROLLBACK TO SAVEPOINT " +:+ name)])
    (fun name => [TKw ("RELEASE SAVEPOINT " +:+ name)]) uniqueViolation fkViolation.
