(* ===== verification/Engines.v ===== *)
(** * The Oracle, SQL Server and SQLite engines, and driver errors

    [infra/db/engine/oracle], [infra/db/engine/sqlserver] and
    [infra/db/engine/sqlite]: their dialects, and the classifiers of constraint
    violations of all five engines. *)

From S2P Require Import Prelude Naming GoStrings BaseEntity Errors Criteria CriteriaSql Dialects WriteSql.
From stdpp Require Import base gmap strings list fin_maps.
From Stdlib Require Import Ascii ZArith Lia.

Open Scope string_scope.
Open Scope list_scope.

(** The double quote and the apostrophe. *)
Definition dquote : nat := 34.
Definition apostrophe : nat := 39.
Definition byteText (code : nat) : string := String (ascii_of_nat code) EmptyString.

(** [strings.ToLower] and [ToUpper] on ASCII. *)
Definition toUpperRune (c : ascii) : ascii :=
  if ((97 <=? nat_of_ascii c) && (nat_of_ascii c <=? 122))%nat then ascii_of_nat (nat_of_ascii c - 32) else c.

(** ** Driver errors *)

(** What [errors.As] finds in an error: the driver's number and its message. *)
Record DriverErr := mkDriverErr { de_number : Z; de_message : string }.

(** [pgErr.Code] and [pgErr.ConstraintName]. *)
Record PgErr := mkPgErr { pg_code : string; pg_constraint : string }.

Section Classifiers.
Context (asPg : GoErr -> option PgErr) (asDriver : GoErr -> option DriverErr).

Definition pgIsUniqueViolation (err : GoErr) : option string :=
  match asPg err with
  | Some e => if String.eqb (pg_code e) "23505" then Some (pg_constraint e) else None
  | None => None
  end.

Definition pgIsForeignKeyViolation (err : GoErr) : option string :=
  match asPg err with
  | Some e => if String.eqb (pg_code e) "23503" then Some (pg_constraint e) else None
  | None => None
  end.

(** The name after a marker up to a closing byte, "" without the marker. *)
Definition nameAfter (marked : option string) (close : nat) : string :=
  match marked with Some t => before close t | None => "" end.

Definition violation (numbers : list Z) (name : DriverErr -> string) (err : GoErr) : option string :=
  match asDriver err with
  | Some e => if existsb (Z.eqb (de_number e)) numbers then Some (name e) else None
  | None => None
  end.

(** The bare name after the last dot. *)
Definition bareName (key : string) : string := default key (afterLast "." key).

Definition mysqlUniqueName (e : DriverErr) : string :=
  bareName (nameAfter (afterLast "for key '" (de_message e)) apostrophe).

Definition mysqlIsUniqueViolation : GoErr -> option string := violation [1062%Z] mysqlUniqueName.

Definition mysqlIsForeignKeyViolation : GoErr -> option string :=
  violation [1451%Z; 1452%Z] (fun e => nameAfter (afterFirst "CONSTRAINT `" (de_message e)) 96).

Definition sqlserverUniqueName (e : DriverErr) : string :=
  let marker := if Z.eqb (de_number e) 2601 then "unique index '" else "constraint '" in
  nameAfter (afterFirst marker (de_message e)) apostrophe.

Definition sqlserverIsUniqueViolation : GoErr -> option string := violation [2627%Z; 2601%Z] sqlserverUniqueName.

Definition sqlserverIsForeignKeyViolation : GoErr -> option string :=
  violation [547%Z] (fun e => nameAfter (afterFirst ("constraint " +:+ byteText dquote) (de_message e)) dquote).

Definition extractConstraintName (msg : string) : string :=
  match afterFirst "constraint (" msg with
  | None => ""
  | Some rest =>
      match beforeByte 41 rest with
      | None => ""
      | Some name =>
          let name := default name (afterFirst "." name) in
          mapBytes toLowerRune (trim (isByte dquote) name)
      end
  end.

Definition oracleIsUniqueViolation : GoErr -> option string :=
  violation [1%Z] (fun e => extractConstraintName (de_message e)).

Definition oracleIsForeignKeyViolation : GoErr -> option string :=
  violation [2291%Z; 2292%Z] (fun e => extractConstraintName (de_message e)).

Definition uniqueColumnList (msg : string) : string :=
  match afterFirst "UNIQUE constraint failed: " msg with
  | None => ""
  | Some rest => trimSpace (default rest (beforeLast " (" rest))
  end.

Definition sqliteIsUniqueViolation : GoErr -> option string :=
  violation [2067%Z; 1555%Z] (fun e => uniqueColumnList (de_message e)).

Definition sqliteIsForeignKeyViolation : GoErr -> option string := violation [787%Z] (fun _ => "").

End Classifiers.

(** ** Dialects *)

Definition likeEscapeClause : Tok := TKw " ESCAPE '\'".

Definition lowerLike (col ph : list Tok) : list Tok :=
  TKw "LOWER" :: TOpen :: col ++ TClose :: TKw " LIKE LOWER" :: TOpen :: ph ++ [TClose; likeEscapeClause].

(** [OFFSET m ROWS FETCH NEXT n ROWS ONLY]. *)
Definition offsetFetch (sql : list Tok) (limit offset : Z) : list Tok :=
  sql ++ [TKw " OFFSET "; TNum offset; TKw " ROWS FETCH NEXT "; TNum limit; TKw " ROWS ONLY"].

Definition oracleQuoteIdent (name : string) : option string :=
  if SafeIdentifier name then Some (byteText dquote +:+ mapBytes toUpperRune name +:+ byteText dquote) else None.

(** [wallClock] is [bindWallClock], a relabelling by the process's location.  A
    [json.RawMessage] binds as text like any other value here. *)
Definition oracleEncodeArg (isUUID : string -> bool) (wallClock : string -> string) (v : Value) : SqlArg :=
  match v with
  | VNil => ANull
  | VString s => AText s
  | VStringPtr None => ANull
  | VStringPtr (Some s) => AText s
  | VID None => ANullBytes
  | VID (Some i) => if isUUID (id_value i) then AUuidBytes (id_value i) else AText (id_value i)
  | VUUID u => AUuidBytes u
  | VTime _ t => ATime (wallClock t)
  | VTimePtr None => ANull
  | VTimePtr (Some (_, t)) => ATime (wallClock t)
  | VOuter f => AOther f
  | VOther r => AOther r
  end.

Definition oracleDialect (isUUID : string -> bool) (uuidText wallClock : string -> string) : Dialect SqlArg := {|
  d_Placeholder n := ":" +:+ itoa (Z.of_nat n);
  d_QuoteIdent := oracleQuoteIdent;
  d_EncodeArg := oracleEncodeArg isUUID wallClock;
  d_DecodeID raw := if (String.length raw =? 16)%nat then uuidText raw else raw;
  d_ILikeClause := lowerLike;
  d_LikeClause col ph := col ++ TKw " LIKE " :: ph ++ [likeEscapeClause];
  d_NowExpr := "SYSTIMESTAMP";
  d_UTCNowExpr := "SYS_EXTRACT_UTC(SYSTIMESTAMP)";
  d_ApplyLimit sql n := Some (sql ++ [TKw " FETCH FIRST "; TNum n; TKw " ROWS ONLY"]);
  d_ApplyLimitOffset := offsetFetch;
  d_AllowsSubqueryOnWriteTarget := true
|}.

Definition sqlserverQuoteIdent (name : string) : option string :=
  if SafeIdentifier name then Some ("[" +:+ name +:+ "]") else None.

Definition sqlserverEncodeArg (isUUID : string -> bool) (v : Value) : SqlArg :=
  match v with
  | VNil => ANull
  | VString s => AText s
  | VStringPtr None => ANull
  | VStringPtr (Some s) => AText s
  | VID None => ANullBytes
  | VID (Some i) => if isUUID (id_value i) then AUuidBytes (id_value i) else AText (id_value i)
  | VUUID u => AUuidBytes u
  | VTime _ t => ATime t
  | VTimePtr None => ANull
  | VTimePtr (Some (_, t)) => ATime t
  | VOuter f => AOther f
  | VOther r => AOther r
  end.

(** The head is rewritten: a statement that does not start with [SELECT ] panics. *)
Definition applyTop (sql : list Tok) (n : Z) : option (list Tok) :=
  match sql with
  | TKw w :: rest =>
      if String.prefix "SELECT " w
      then Some (TKw "SELECT TOP " :: TNum n :: TKw " " ::
                 (match dropN 7 w with EmptyString => rest | tail => TKw tail :: rest end))
      else None
  | _ => None
  end.

Definition sqlserverDialect (isUUID : string -> bool) (uuidText : string -> string) : Dialect SqlArg := {|
  d_Placeholder n := "@p" +:+ itoa (Z.of_nat n);
  d_QuoteIdent := sqlserverQuoteIdent;
  d_EncodeArg := sqlserverEncodeArg isUUID;
  d_DecodeID raw := if (String.length raw =? 16)%nat then uuidText raw else raw;
  d_ILikeClause := lowerLike;
  d_LikeClause col ph := col ++ TKw " LIKE " :: ph ++ [TKw " COLLATE Latin1_General_BIN ESCAPE '\'"];
  d_NowExpr := "CURRENT_TIMESTAMP";
  d_UTCNowExpr := "SYSUTCDATETIME()";
  d_ApplyLimit := applyTop;
  d_ApplyLimitOffset := offsetFetch;
  d_AllowsSubqueryOnWriteTarget := true
|}.

Definition sqliteQuoteIdent (name : string) : option string :=
  if SafeIdentifier name then Some (byteText dquote +:+ name +:+ byteText dquote) else None.

(** [utcText] renders an instant in UTC as RFC 3339. *)
Definition sqliteEncodeArg (utcText : string -> string) (v : Value) : SqlArg :=
  match v with
  | VNil => ANull
  | VString s => AText s
  | VStringPtr None => ANull
  | VStringPtr (Some s) => AText s
  | VID None => ANull
  | VID (Some i) => AText (id_value i)
  | VUUID u => AUuid u
  | VTime _ t => AText (utcText t)
  | VTimePtr None => ANull
  | VTimePtr (Some (_, t)) => AText (utcText t)
  | VOuter f => AOther f
  | VOther r => AOther r
  end.

Definition sqliteNow : string := "strftime('%Y-%m-%d %H:%M:%f','now')".

Definition sqliteDialect (utcText : string -> string) : Dialect SqlArg := {|
  d_Placeholder _ := "?";
  d_QuoteIdent := sqliteQuoteIdent;
  d_EncodeArg := sqliteEncodeArg utcText;
  d_DecodeID raw := raw;
  d_ILikeClause := lowerLike;
  d_LikeClause col ph := col ++ TKw " LIKE " :: ph ++ [likeEscapeClause];
  d_NowExpr := sqliteNow;
  d_UTCNowExpr := sqliteNow;
  d_ApplyLimit := applyLimitTail;
  d_ApplyLimitOffset := applyLimitOffsetTail;
  d_AllowsSubqueryOnWriteTarget := true
|}.

(** ** Upserts *)

Definition sqliteBuildUpsert (table : string) (cols conflictCols : list string) (sets : list UpsertSet) : option (list Tok) :=
  head ← insertHead sqliteQuoteIdent table cols;
  keys ← identList sqliteQuoteIdent conflictCols;
  let b := head ++ TKw " ON CONFLICT " :: TOpen :: keys ++ [TClose] in
  match sets with
  | [] => Some (b ++ [TKw " DO NOTHING"])
  | _ => ss ← setList sqliteQuoteIdent "excluded" table (length cols) sets; Some (b ++ TKw " DO UPDATE SET " :: ss)
  end.

(** The source of a MERGE: [@p1 AS col, ...]. *)
Fixpoint sourceList (quote : string -> option string) (n : nat) (cols : list string) : option (list Tok) :=
  match cols with
  | [] => Some []
  | c :: rest =>
      q ← quote c;
      r ← sourceList quote (S n) rest;
      Some (TPlace n :: TKw " AS " :: TIdent q :: (match rest with [] => [] | _ => [TKw ", "] end) ++ r)
  end.

(** A row's columns: [source.a, source.b]. *)
Fixpoint rowList (quote : string -> option string) (row : string) (cols : list string) : option (list Tok) :=
  match cols with
  | [] => Some []
  | c :: rest =>
      q ← quote c;
      r ← rowList quote row rest;
      Some (TKw row :: TDot :: TIdent q :: (match rest with [] => [] | _ => [TKw ", "] end) ++ r)
  end.

(** The ON condition, one test per conflict column. *)
Fixpoint onList (quote : string -> option string) (test : string -> list Tok) (keys : list string) : option (list Tok) :=
  match keys with
  | [] => Some []
  | k :: rest =>
      q ← quote k;
      r ← onList quote test rest;
      Some (test q ++ (match rest with [] => [] | _ => [TAnd] end) ++ r)
  end.

Definition equalTest (q : string) : list Tok :=
  [TKw "target"; TDot; TIdent q; TKw " = "; TKw "source"; TDot; TIdent q].

(** [(target.k = source.k OR (target.k IS NULL AND source.k IS NULL))]. *)
Definition nullSafeTest (q : string) : list Tok :=
  TOpen :: equalTest q ++
  [TOr; TOpen; TKw "target"; TDot; TIdent q; TKw " IS NULL"; TAnd; TKw "source"; TDot; TIdent q; TKw " IS NULL"; TClose; TClose].

(** The assignments of a MERGE, the existing row named [target]. *)
Fixpoint mergeSets (quote : string -> option string) (arg : nat) (sets : list UpsertSet) : option (list Tok) :=
  match sets with
  | [] => Some []
  | s :: rest =>
      c ← quote (us_Col s);
      let arg' := if bool_decide (us_Mode s = UpsertSetArg) then S arg else arg in
      let rhs :=
        match us_Mode s with
        | UpsertSetNew => [TKw "source"; TDot; TIdent c]
        | UpsertSetBump => [TKw "target"; TDot; TIdent c; TKw " + 1"]
        | UpsertSetArg => [TPlace arg']
        | UpsertSetExpr => [TKw (us_Expr s)]
        end in
      r ← mergeSets quote arg' rest;
      Some (TIdent c :: TKw " = " :: rhs ++ (match rest with [] => [] | _ => [TKw ", "] end) ++ r)
  end.

(** [WHEN MATCHED], left out without assignments, then [WHEN NOT MATCHED]. *)
Definition mergeArms (quote : string -> option string) (cols : list string) (sets : list UpsertSet) : option (list Tok) :=
  matched ← match sets with
            | [] => Some []
            | _ => ss ← mergeSets quote (length cols) sets; Some (TKw " WHEN MATCHED THEN UPDATE SET " :: ss)
            end;
  cs ← identList quote cols;
  vs ← rowList quote "source" cols;
  Some (matched ++ TKw " WHEN NOT MATCHED THEN INSERT " :: TOpen :: cs ++ TClose :: TKw " VALUES " :: TOpen :: vs ++ [TClose]).

Definition oracleBuildUpsert (table : string) (cols conflictCols : list string) (sets : list UpsertSet) : option (list Tok) :=
  t ← oracleQuoteIdent table;
  source ← sourceList oracleQuoteIdent 1 cols;
  on ← onList oracleQuoteIdent nullSafeTest conflictCols;
  arms ← mergeArms oracleQuoteIdent cols sets;
  Some (TKw "MERGE INTO " :: TIdent t :: TKw " target USING " :: TOpen :: TKw "SELECT " :: source ++
        TKw " FROM dual" :: TClose :: TKw " source ON " :: TOpen :: on ++ TClose :: arms).

Definition sqlserverBuildUpsert (table : string) (cols conflictCols : list string) (sets : list UpsertSet) : option (list Tok) :=
  t ← sqlserverQuoteIdent table;
  source ← sourceList sqlserverQuoteIdent 1 cols;
  on ← onList sqlserverQuoteIdent equalTest conflictCols;
  arms ← mergeArms sqlserverQuoteIdent cols sets;
  Some (TKw "MERGE " :: TIdent t :: TKw " WITH (HOLDLOCK) AS target USING " :: TOpen :: TKw "SELECT " :: source ++
        TClose :: TKw " AS source ON " :: on ++ arms ++ [TKw ";"]).

(** ** The engines of the write path *)

Section WriteDialects.
Context (asDriver : GoErr -> option DriverErr) (isUUID : string -> bool) (uuidText : string -> string).

Definition oracleWriteDialect (wallClock : string -> string) : WriteDialect SqlArg :=
  mkWriteDialect (oracleDialect isUUID uuidText wallClock) pgEncodeArg oracleBuildUpsert
    (fun name => [TKw ("SAVEPOINT " +:+ name)]) (fun name => [TKw ("ROLLBACK TO SAVEPOINT " +:+ name)]) (fun _ => [])
    (oracleIsUniqueViolation asDriver) (oracleIsForeignKeyViolation asDriver).

Definition sqlserverWriteDialect : WriteDialect SqlArg :=
  mkWriteDialect (sqlserverDialect isUUID uuidText) pgEncodeArg sqlserverBuildUpsert
    (fun name => [TKw ("SAVE TRANSACTION " +:+ name)]) (fun name => [TKw ("ROLLBACK TRANSACTION " +:+ name)]) (fun _ => [])
    (sqlserverIsUniqueViolation asDriver) (sqlserverIsForeignKeyViolation asDriver).

Definition sqliteWriteDialect (utcText : string -> string) : WriteDialect SqlArg :=
  mkWriteDialect (sqliteDialect utcText) pgEncodeArg sqliteBuildUpsert
    (fun name => [TKw ("SAVEPOINT " +:+ name)]) (fun name => [TKw ("ROLLBACK TO SAVEPOINT " +:+ name)])
    (fun name => [TKw ("RELEASE SAVEPOINT " +:+ name)]) (sqliteIsUniqueViolation asDriver) (sqliteIsForeignKeyViolation asDriver).

End WriteDialects.
