(* ===== verification/WriteSqlProps.v ===== *)
(** * The statements of the write path are well formed

    Every builder of [WriteSql] yields a [good] statement: one argument per
    placeholder, numbered [1 .. n] in order, balanced, and made of fixed words and
    allowlisted identifiers. *)

From S2P Require Import Prelude Naming Notification Errors BaseEntity Aggregate Criteria CriteriaSql Dialects CriteriaProps Queries WriteSchema WriteSql.
From stdpp Require Import base gmap strings list fin_maps.
From Stdlib Require Import Ascii ZArith Lia.

Open Scope string_scope.
Open Scope list_scope.
Open Scope go_scope.

(** ** What the builders rely on in a dialect *)

Definition sharedBasePurgeSavepoint : string := "omnicore_sb_purge".

Class WriteDialectLaws {Arg} (w : WriteDialect Arg) := {
  wl_laws :: DialectLaws (wd_d w);
  wl_now : d_NowExpr (wd_d w) ∈ sqlWords;
  wl_utcnow : d_UTCNowExpr (wd_d w) ∈ sqlWords;
  wl_savepoint : inert (wd_d w) (wd_Savepoint w sharedBasePurgeSavepoint);
  wl_rollback : inert (wd_d w) (wd_RollbackToSavepoint w sharedBasePurgeSavepoint);
  wl_release : inert (wd_d w) (wd_ReleaseSavepoint w sharedBasePurgeSavepoint);
  wl_upsert table cols keys sets ts args :
    wd_BuildUpsert w table cols keys sets = Some ts -> Forall (fun s => us_Mode s = UpsertSetNew) sets ->
    length args = length cols -> good (wd_d w) 0 [] ts args
}.

Lemma liftCrit_Ret {A} (r : Outcome CritErr A) a : liftCrit r = Ret a -> r = Ret a.
Proof. by destruct r; intros [=->]. Qed.

Section Props.
Context {Arg : Type} (w : WriteDialect Arg) `{!WriteDialectLaws w} (isUUID : string -> bool).

Abbreviation d := (wd_d w).
Abbreviation gd := (good (wd_d w)).

(** ** Rendered pieces *)

(** A piece with its identifier left out. *)
Definition pieceTok (p : Piece) : Tok :=
  match p with
  | PWord s => TKw s
  | PIdent _ => TDot
  | PPlace n => TPlace n
  | POpen => TOpen
  | PClose => TClose
  | PAnd => TAnd
  end.

Definition pieceOk (p : Piece) : Prop := match p with PWord s => s ∈ sqlWords | _ => True end.

Lemma quoteIdent_inert n ts : quoteIdent w n = Ret ts -> inert d ts.
Proof. intros H%liftCrit_Ret. by apply (quote_inert d) in H. Qed.

Lemma quoteIdent_single n ts : quoteIdent w n = Ret ts -> exists q, ts = [TIdent q] /\ okIdent d q.
Proof.
  intros H%liftCrit_Ret. pose proof (quote_inert d _ _ H) as (_ & _ & Hok). revert H Hok. unfold quote.
  destruct (d_QuoteIdent d n) as [q|]; [|done]. intros [= <-] [Hq _]%Forall_cons. by exists q.
Qed.

Lemma render_shape ps ts :
  render w ps = Ret ts -> Forall pieceOk ps ->
  places ts = places (pieceTok <$> ps) /\ (forall k, scan k ts = scan k (pieceTok <$> ps)) /\ Forall (okTok d) ts.
Proof.
  intros H Hok. revert ts H. induction Hok as [|p ps Hp _ IH]; intros ts; simpl.
  { intros [= <-]. by repeat split. }
  intros (t & Ht & (r & Hr & [= <-])%obind_Ret)%obind_Ret. destruct (IH r Hr) as (Hpl & Hsc & Ho).
  destruct p; try (injection Ht as <-; simpl; rewrite Hpl; split_and!; [done| |by constructor];
    intros k; simpl; by destruct k; rewrite ?Hsc).
  apply quoteIdent_single in Ht as (q & -> & Hq). simpl. rewrite Hpl. split_and!; [done|done|by constructor].
Qed.

Lemma render_good ps ts (args : list Arg) :
  render w ps = Ret ts -> Forall pieceOk ps -> places (pieceTok <$> ps) = seq 1 (length args) ->
  balanced (pieceTok <$> ps) -> gd 0 [] ts args.
Proof.
  intros H Hok Hp Hb. destruct (render_shape _ _ H Hok) as (Hpl & Hsc & Ho). split; [|intros k; by rewrite Hsc|done].
  exists args. by rewrite Hpl.
Qed.

(** A fixed statement: everything but the quoting computes. *)
Ltac fixed_good :=
  match goal with
  | H : render _ _ = Ret _ |- _ =>
      apply (render_good _ _ _ H); [repeat constructor; sql_word|reflexivity|intros ?k; reflexivity]
  end.

Ltac probe_good :=
  intros (?ts & ?H & ?L)%obind_Ret; eapply limit_good; [apply _|eassumption|]; fixed_good.

Lemma childDeleteSQL_good t c ts a : childDeleteSQL w t c = Ret ts -> gd 0 [] ts [a].
Proof. intros H. unfold childDeleteSQL in H. fixed_good. Qed.

Lemma childSiblingDeleteSQL_good t p c f ts a : childSiblingDeleteSQL w t p c f = Ret ts -> gd 0 [] ts [a].
Proof. intros H. unfold childSiblingDeleteSQL in H. fixed_good. Qed.

Lemma archiveCascadeSQL_good t c f ts a b : archiveCascadeSQL w t c f = Ret ts -> gd 0 [] ts [a; b].
Proof. intros H. unfold archiveCascadeSQL in H. fixed_good. Qed.

Lemma unarchiveCascadeSQL_good t c f o s p ts a b : unarchiveCascadeSQL w t c f o s p = Ret ts -> gd 0 [] ts [a; b].
Proof. intros H. unfold unarchiveCascadeSQL in H. fixed_good. Qed.

Lemma rowExistsSQL_good t p ts a : rowExistsSQL w t p = Ret ts -> gd 0 [] ts [a].
Proof. unfold rowExistsSQL, selectByID. probe_good. Qed.

Lemma archiveStampSQL_good t c p ts a : archiveStampSQL w t c p = Ret ts -> gd 0 [] ts [a].
Proof. unfold archiveStampSQL, selectByID. probe_good. Qed.

Lemma revisionSQL_good t r c p ts a : revisionSQL w t r c p = Ret ts -> gd 0 [] ts [a].
Proof. unfold revisionSQL, selectByID. destruct (String.eqb c ""); probe_good. Qed.

Lemma roleProbeSQL_good t f c ts a : roleProbeSQL w t f c = Ret ts -> gd 0 [] ts [a].
Proof. unfold roleProbeSQL. destruct (String.eqb c ""); probe_good. Qed.

Lemma activeSiblingSQL_good t f i c ts a b : activeSiblingSQL w t f i c = Ret ts -> gd 0 [] ts [a; b].
Proof. unfold activeSiblingSQL. probe_good. Qed.

Lemma naturalKeySQL_good t f i ts a b : naturalKeySQL w t f i = Ret ts -> gd 0 [] ts [a; b].
Proof. intros H. unfold naturalKeySQL in H. fixed_good. Qed.

Lemma archiveBaseSQL_good t c i r ts a b : archiveBaseSQL w t c i r = Ret ts -> gd 0 [] ts [a; b].
Proof. intros H. unfold archiveBaseSQL, baseRevisionBump in H. fixed_good. Qed.

Lemma unarchiveBaseSQL_good t c i r ts a : unarchiveBaseSQL w t c i r = Ret ts -> gd 0 [] ts [a].
Proof. intros H. unfold unarchiveBaseSQL, baseRevisionBump in H. fixed_good. Qed.

Lemma bumpRevisionSQL_good t i r ts a : bumpRevisionSQL w t i r = Ret ts -> gd 0 [] ts [a].
Proof. intros H. unfold bumpRevisionSQL in H. fixed_good. Qed.

(** A closed statement: its text computes but for the clock expression. *)
Ltac closed_good l :=
  split; [exists l; split; [reflexivity|reflexivity]|intros ?k; reflexivity|
          repeat (constructor; [first [exact wl_now|exact wl_utcnow|sql_word|exact I]|]); constructor].

Lemma outboxSQL_good (a b c e f g : Arg) : gd 0 [] (outboxSQL w) [a; b; c; e; f; g].
Proof. closed_good [a; b; c; e; f; g]. Qed.

Lemma auditSQL_good (args : list Arg) : length args = 13%nat -> gd 0 [] auditSQL args.
Proof.
  intros H. split; [|intros k; reflexivity|repeat (constructor; [first [sql_word|exact I]|]); constructor].
  exists args. split; [done|]. by rewrite H.
Qed.

Lemma clockSQL_good : gd 0 [] (clockSQL w) [].
Proof. closed_good (@nil Arg). Qed.

(** ** Comma-separated parts *)

Lemma commaSep_cons p ps base a b c :
  gd base a p b -> gd base b (commaSep ps) c -> gd base a (commaSep (p :: ps)) c.
Proof.
  intros Hp Hr. simpl. eapply good_app; [exact Hp|]. apply good_inert_l; [|done].
  destruct ps; [apply inert_nil|apply inert_word; sql_word].
Qed.

Lemma quoteAll_inert names parts : quoteAll w names = Ret parts -> inert d (commaSep parts).
Proof.
  revert parts. induction names as [|n names IH]; intros parts; simpl; [intros [= <-]; apply inert_nil|].
  intros (q & Hq%quoteIdent_inert & (r & Hr%IH & [= <-])%obind_Ret)%obind_Ret. simpl.
  apply inert_app; [done|]. apply inert_app; [|done]. destruct r; [apply inert_nil|apply inert_word; sql_word].
Qed.

(** Slots whose literals are words. *)
Definition slotOk (s : string * Slot Arg) : Prop := match s.2 with SLit t => t ∈ sqlWords | _ => True end.

Lemma good_place base args (a : Arg) : gd base args [TPlace (S (base + length args))] (args ++ [a]).
Proof. split; [|done|by repeat constructor]. exists [a]. done. Qed.

Lemma slotValues_good slots base args :
  Forall slotOk slots ->
  gd base args (commaSep (slotValues (S (base + length args)) slots)) (args ++ slotArgs slots).
Proof.
  intros H. revert args. induction H as [|[c s] slots Hs _ IH]; intros args.
  { rewrite app_nil_r. apply inert_good, inert_nil. }
  destruct s as [a|t|]; cbn in Hs; cbn [slotValues].
  - change (slotArgs ((c, SBind a) :: slots)) with ([a] ++ slotArgs slots).
    eapply commaSep_cons; [apply good_place|]. specialize (IH (args ++ [a])).
    rewrite length_app, <- app_assoc in IH. simpl in IH. by replace (S (base + (length args + 1))) with (S (S (base + length args))) in IH by lia.
  - eapply commaSep_cons; [apply inert_good, inert_word, Hs|apply IH].
  - apply IH.
Qed.

Lemma slotSets_good slots base args parts :
  Forall slotOk slots -> slotSets w (S (base + length args)) slots = Ret parts ->
  gd base args (commaSep parts) (args ++ slotArgs slots).
Proof.
  intros H. revert args parts. induction H as [|[c s] slots Hs _ IH]; intros args parts; cbn [slotSets].
  { intros [= <-]. rewrite app_nil_r. apply inert_good, inert_nil. }
  intros (q & Hq%quoteIdent_inert & H)%obind_Ret. destruct s as [a|t|]; cbn in Hs;
    apply obind_Ret in H as (r & Hr & [= <-]).
  - change (slotArgs ((c, SBind a) :: slots)) with ([a] ++ slotArgs slots).
    eapply commaSep_cons.
    + apply good_inert_l; [done|]. apply good_word; [sql_word|]. apply good_place.
    + specialize (IH (args ++ [a]) r). rewrite length_app, <- app_assoc in IH. apply IH. simpl.
      by replace (S (base + (length args + 1))) with (S (S (base + length args))) by lia.
  - eapply commaSep_cons; [|by apply IH]. apply inert_good, inert_app; [done|].
    apply inert_cons_word; [sql_word|by apply inert_word].
  - eapply commaSep_cons; [|by apply IH]. apply inert_good, inert_app; [done|].
    apply inert_cons_word; [sql_word|]. apply inert_app; [done|]. apply inert_word; sql_word.
Qed.

Lemma slotOk_map {A} (f : A -> string * Slot Arg) l : (forall x, slotOk (f x)) -> Forall slotOk (f <$> l).
Proof. intros H. by apply Forall_fmap, Forall_true. Qed.

Ltac slots_ok :=
  repeat first
    [ apply Forall_app; split | apply slotOk_map; intros ?; (exact I || (unfold slotOk; simpl; sql_word))
    | constructor; [exact I|] | destruct (String.eqb _ _); constructor; try exact I | constructor ].

Lemma insertSlots_ok pk id fields plan now rev : Forall slotOk (insertSlots w pk id fields plan now rev).
Proof. unfold insertSlots, bindAll, litAll. slots_ok. Qed.

Lemma setSlots_ok fields plan now rev : Forall slotOk (setSlots w fields plan now rev).
Proof. unfold setSlots, bindAll, litAll. slots_ok. Qed.

(** ** The builders *)

(** An INSERT over any slots. *)
Lemma insert_good t cols slots :
  inert d t -> inert d (commaSep cols) -> Forall slotOk slots ->
  gd 0 [] (TKw "INSERT INTO " :: t ++ TKw " " :: TOpen :: commaSep cols ++ TClose :: TKw " VALUES " :: TOpen ::
           commaSep (slotValues 1 slots) ++ [TClose]) (slotArgs slots).
Proof.
  intros Ht Hc Hs. apply good_word; [sql_word|]. apply good_inert_l; [done|]. apply good_word; [sql_word|].
  replace (TOpen :: commaSep cols ++ TClose :: TKw " VALUES " :: TOpen :: commaSep (slotValues 1 slots) ++ [TClose])
    with ((TOpen :: commaSep cols ++ [TClose]) ++ TKw " VALUES " :: TOpen :: commaSep (slotValues 1 slots) ++ [TClose])
    by (simpl; by rewrite <- app_assoc).
  apply good_inert_l; [by apply inert_group|]. apply good_word; [sql_word|].
  apply good_group, good_goodIn. by apply (slotValues_good _ 0 []).
Qed.

Lemma buildInsert_good table pk id fields plan now rev ts args :
  buildInsertWithCounters w table pk id fields plan now rev = Ret (ts, args) -> gd 0 [] ts args.
Proof.
  intros (t & Ht%quoteIdent_inert & (cols & Hc%quoteAll_inert & H)%obind_Ret)%obind_Ret.
  pose proof (insert_good t cols _ Ht Hc (insertSlots_ok pk id fields plan now rev)) as Hg. by injection H as <- <-.
Qed.

Lemma buildSet_good fields plan now rev ts args :
  buildSetWithCounters w fields plan now rev = Ret (ts, args) -> gd 0 [] ts args.
Proof. intros (sets & Hs & [= <- <-])%obind_Ret. apply (slotSets_good _ 0 []); [apply setSlots_ok|done]. Qed.

Lemma compilePredicate_good t pred bound ts args :
  compilePredicate w isUUID t pred bound = Ret (ts, args) -> gd bound [] ts args.
Proof.
  unfold compilePredicate. destruct pred as [e|]; [|done]. intros H%liftCrit_Ret.
  by apply (visit_good d isUUID e (mkScope (wt_resolve t) (Some (wt_idKind t)) noQual bound None "" 0 (wt_table t) None));
    [apply rootScope_ok; left|].
Qed.

Lemma updateText_good t sets where_ ts a b :
  gd 0 [] sets a -> gd 0 a where_ b -> updateText w t sets where_ = Ret ts -> gd 0 [] ts b.
Proof.
  intros Hs Hw (table & Ht%quoteIdent_inert & [= <-])%obind_Ret.
  apply good_word; [sql_word|]. apply good_inert_l; [done|]. apply good_word; [sql_word|].
  eapply good_app; [exact Hs|]. apply good_word; [sql_word|done].
Qed.

Lemma good_shift args ts new : gd (length args) [] ts new -> gd 0 args ts (args ++ new).
Proof. apply (good_continue d 0 args). Qed.

Lemma buildUpdatePlan_good t pred fields plan now rev expected ts args :
  buildUpdatePlan w isUUID t pred fields plan now rev expected = Ret (ts, args) -> gd 0 [] ts args.
Proof.
  intros ([sets a] & Hs%buildSet_good & ([wh b] & Hw%compilePredicate_good%good_shift & H)%obind_Ret)%obind_Ret.
  cbn [fst snd] in *. apply obind_Ret in H as ([g c] & Hg & (sql & Hu & [= <- <-])%obind_Ret). cbn [fst snd] in *.
  eapply updateText_good; [exact Hs| |exact Hu].
  destruct (negb (String.eqb rev "") && (0 <? expected)%Z); [|by injection Hg as <- <-].
  apply obind_Ret in Hg as (rc & Hrc%quoteIdent_inert & [= <- <-]).
  eapply good_app; [exact Hw|]. apply good_cons; [apply inert_and|]. apply good_inert_l; [done|].
  apply good_word; [sql_word|]. rewrite Nat.add_1_r. apply good_place.
Qed.

Lemma archiveSQL_good t c pred now rev ts args :
  archiveSQL w isUUID t c pred now rev = Ret (ts, args) -> gd 0 [] ts args.
Proof.
  intros ([sets a] & Hs%buildSet_good & ([wh b] & Hw%compilePredicate_good%good_shift &
          (sql & Hu & [= <- <-])%obind_Ret)%obind_Ret)%obind_Ret.
  by eapply updateText_good.
Qed.

Lemma deleteSQL_good t pred ts args : deleteSQL w isUUID t pred = Ret (ts, args) -> gd 0 [] ts args.
Proof.
  intros ([wh a] & Hw%compilePredicate_good & (table & Ht%quoteIdent_inert & [= <- <-])%obind_Ret)%obind_Ret.
  apply good_word; [sql_word|]. apply good_inert_l; [done|]. apply good_word; [sql_word|done].
Qed.

Lemma buildSiblingUpsert_good {X} (sib : Part X) pk id fields ts args :
  buildSiblingUpsert w sib pk id fields = Ret (ts, args) -> gd 0 [] ts args.
Proof.
  unfold buildSiblingUpsert. destruct (wd_BuildUpsert w _ _ _ _) as [t|] eqn:E; [|done]. intros [= <- <-].
  eapply wl_upsert; [exact E|by apply Forall_fmap, Forall_true|]. simpl. by rewrite !length_fmap.
Qed.

End Props.

(** ** The two engines *)

Section Upserts.
Context (d : Dialect SqlArg) `{!DialectLaws d} (qt : string -> option string).
Context (Hqt : forall n q, qt n = Some q -> okIdent d q).

Lemma identList_inert cols ts : identList qt cols = Some ts -> inert d ts.
Proof.
  revert ts. induction cols as [|c cols IH]; intros ts; simpl; [intros [= <-]; apply inert_nil|].
  intros (q & Hq%Hqt & (r & Hr%IH & [= <-])%bind_Some)%bind_Some.
  apply inert_cons; [by apply inert_ident|]. apply inert_app; [|done].
  destruct cols; [apply inert_nil|apply inert_word; sql_word].
Qed.

Lemma placeList_good cols (new args : list SqlArg) :
  length new = length cols -> good d 0 args (placeList (S (length args)) cols) (args ++ new).
Proof.
  revert new args. induction cols as [|c cols IH]; intros [|a new] args H; try done.
  { rewrite app_nil_r. apply inert_good, inert_nil. }
  simpl. apply (good_app d 0 args [TPlace (S (length args))] (args ++ [a])).
  - split; [by exists [a]|done|by repeat constructor].
  - apply good_inert_l; [destruct cols; [apply inert_nil|apply inert_word; sql_word]|].
    specialize (IH new (args ++ [a])). rewrite length_app, Nat.add_1_r, <- app_assoc in IH. apply IH. by injection H.
Qed.

Lemma insertHead_good table cols ts (args : list SqlArg) :
  insertHead qt table cols = Some ts -> length args = length cols -> good d 0 [] ts args.
Proof.
  intros (t & Ht%Hqt & (cs & Hc%identList_inert & [= <-])%bind_Some)%bind_Some Hl.
  apply good_word; [sql_word|]. apply good_cons; [by apply inert_ident|]. apply good_word; [sql_word|].
  replace (TOpen :: cs ++ TClose :: TKw " VALUES " :: TOpen :: placeList 1 cols ++ [TClose])
    with ((TOpen :: cs ++ [TClose]) ++ TKw " VALUES " :: TOpen :: placeList 1 cols ++ [TClose])
    by (simpl; by rewrite <- app_assoc).
  apply good_inert_l; [by apply inert_group|]. apply good_word; [sql_word|].
  apply good_group, good_goodIn. by apply (placeList_good cols args []).
Qed.

Lemma setList_inert proposed table n sets ts :
  proposed ∈ sqlWords -> Forall (fun s => us_Mode s = UpsertSetNew) sets -> setList qt proposed table n sets = Some ts ->
  inert d ts.
Proof.
  intros Hw H. revert n ts. induction H as [|s sets Hs _ IH]; intros n ts; simpl; [intros [= <-]; apply inert_nil|].
  rewrite Hs. simpl. intros (c & Hc%Hqt & (r & Hr%IH & [= <-])%bind_Some)%bind_Some.
  apply inert_cons; [by apply inert_ident|]. apply inert_cons_word; [sql_word|]. apply inert_cons_word; [done|].
  apply inert_cons; [apply inert_dot|]. apply inert_cons; [by apply inert_ident|].
  apply inert_app; [destruct sets; [apply inert_nil|apply inert_word; sql_word]|done].
Qed.

End Upserts.

Lemma pgBuildUpsert_good table cols keys sets ts (args : list SqlArg) :
  pgBuildUpsert table cols keys sets = Some ts -> Forall (fun s => us_Mode s = UpsertSetNew) sets ->
  length args = length cols -> good pgDialect 0 [] ts args.
Proof.
  intros (h & Hh & (k & Hk & H)%bind_Some)%bind_Some Hs Hl.
  assert (Hq : forall n q, d_QuoteIdent pgDialect n = Some q -> okIdent pgDialect q).
  { intros n q E. exists n. split; [by eapply (dl_quote (d := pgDialect))|done]. }
  eapply (insertHead_good pgDialect _ Hq) in Hh; [|exact Hl]. eapply (identList_inert pgDialect _ Hq) in Hk.
  assert (Hb : good pgDialect 0 [] (h ++ TKw " ON CONFLICT " :: TOpen :: k ++ [TClose]) args).
  { apply good_inert_r; [done|]. apply inert_cons_word; [sql_word|]. by apply inert_group. }
  destruct sets as [|s sets]; [injection H as <-; apply good_inert_r; [done|apply inert_word; sql_word]|].
  apply bind_Some in H as (ss & Es & [= <-]). apply good_inert_r; [done|]. apply inert_cons_word; [sql_word|].
  eapply (setList_inert _ _ Hq); [|exact Hs|exact Es]. sql_word.
Qed.

Lemma mysqlBuildUpsert_good isUUID uuidText table cols keys sets ts (args : list SqlArg) :
  mysqlBuildUpsert table cols keys sets = Some ts -> Forall (fun s => us_Mode s = UpsertSetNew) sets ->
  length args = length cols -> good (mysqlDialect isUUID uuidText) 0 [] ts args.
Proof.
  intros (h & Hh & H)%bind_Some Hs Hl.
  assert (Hq : forall n q, d_QuoteIdent (mysqlDialect (fun _ => false) (fun raw => raw)) n = Some q ->
               okIdent (mysqlDialect isUUID uuidText) q).
  { intros n q E. exists n. split; [by eapply (dl_quote (d := mysqlDialect _ _))|done]. }
  eapply (insertHead_good (mysqlDialect isUUID uuidText) _ Hq) in Hh; [|exact Hl].
  assert (Hb : good (mysqlDialect isUUID uuidText) 0 [] (h ++ [TKw " AS new ON DUPLICATE KEY UPDATE "]) args).
  { apply good_inert_r; [done|]. apply inert_word; sql_word. }
  destruct sets as [|s sets].
  - apply bind_Some in H as (c & _ & (q & Eq%Hq & [= <-])%bind_Some). apply good_inert_r; [done|].
    apply inert_cons; [by apply inert_ident|]. apply inert_cons_word; [sql_word|]. by apply inert_ident.
  - apply bind_Some in H as (ss & Es & [= <-]). apply good_inert_r; [done|].
    eapply (setList_inert _ _ Hq); [|exact Hs|exact Es]. sql_word.
Qed.

Ltac engine_laws up :=
  split; [apply _|sql_word|sql_word|apply inert_word; sql_word|apply inert_word; sql_word|apply inert_word; sql_word|];
  intros; by eapply up.

#[export] Instance pgWriteDialect_laws u f : WriteDialectLaws (pgWriteDialect u f).
Proof. engine_laws pgBuildUpsert_good. Qed.

#[export] Instance mysqlWriteDialect_laws isUUID uuidText u f : WriteDialectLaws (mysqlWriteDialect isUUID uuidText u f).
Proof. engine_laws mysqlBuildUpsert_good. Qed.
