(* ===== verification/EngineProps.v ===== *)
(** * The Oracle, SQL Server and SQLite dialects are lawful

    The laws the translator and the statement builders rely on
    ([CriteriaProps.DialectLaws], [WriteSqlProps.WriteDialectLaws]), for the engines
    of [Engines]: every theorem about compiled predicates, write statements and
    commands holds on all five engines. *)

From S2P Require Import Prelude Naming GoStrings BaseEntity Errors Criteria CriteriaSql Dialects CriteriaProps WriteSchema WriteSql WriteSqlProps Engines.
From stdpp Require Import base gmap strings list fin_maps.
From Stdlib Require Import Ascii ZArith Lia.

Open Scope string_scope.
Open Scope list_scope.

(** ** Clauses the engines share *)

Lemma places_cons_kw w ts : places (TKw w :: ts) = places ts.
Proof. done. Qed.

Lemma lowerLike_places c p : places (lowerLike c p) = places c ++ places p.
Proof.
  change (places (c ++ TClose :: TKw " LIKE LOWER" :: TOpen :: p ++ [TClose; likeEscapeClause]) = places c ++ places p).
  rewrite places_app. f_equal. change (places (p ++ [TClose; likeEscapeClause]) = places p).
  by rewrite places_app, app_nil_r.
Qed.

Lemma lowerLike_balanced c p : balanced c -> balanced p -> balanced (lowerLike c p).
Proof. intros Hc Hp k. simpl. rewrite scan_app, Hc. simpl. by rewrite scan_app, Hp. Qed.

Lemma lowerLike_ok (d : Dialect SqlArg) c p : Forall (okTok d) c -> Forall (okTok d) p -> Forall (okTok d) (lowerLike c p).
Proof.
  intros Hc Hp. constructor; [sql_word|]. constructor; [done|]. apply Forall_app. split; [done|].
  constructor; [done|]. constructor; [sql_word|]. constructor; [done|]. apply Forall_app. split; [done|].
  constructor; [done|]. constructor; [unfold likeEscapeClause; sql_word|done].
Qed.

(** A LIKE followed by a fixed clause. *)
Lemma likeThen_places c p w : places (c ++ TKw " LIKE " :: p ++ [TKw w]) = places c ++ places p.
Proof. rewrite places_app, places_cons_kw, places_app. by rewrite app_nil_r. Qed.

Lemma likeThen_balanced c p w : balanced c -> balanced p -> balanced (c ++ TKw " LIKE " :: p ++ [TKw w]).
Proof. intros Hc Hp. apply balanced_app; [done|]. intros k. simpl. by rewrite scan_app, Hp. Qed.

Lemma likeThen_ok (d : Dialect SqlArg) c p w : w ∈ sqlWords ->
  Forall (okTok d) c -> Forall (okTok d) p -> Forall (okTok d) (c ++ TKw " LIKE " :: p ++ [TKw w]).
Proof.
  intros Hw Hc Hp. apply Forall_app. split; [done|]. constructor; [sql_word|]. apply Forall_app. split; [done|]. by apply Forall_singleton.
Qed.

(** ** SELECT TOP *)

Definition selectWords : list string := List.filter (String.prefix "SELECT ") sqlWords.

Lemma selectWords_tails : Forall (fun w => dropN 7 w = "" \/ dropN 7 w ∈ sqlWords) selectWords.
Proof. apply (bool_decide_unpack _). vm_compute. exact I. Qed.

Lemma select_tail w : w ∈ sqlWords -> String.prefix "SELECT " w = true -> dropN 7 w = "" \/ dropN 7 w ∈ sqlWords.
Proof.
  intros Hw Hp. assert (Hs : w ∈ selectWords).
  { apply list_elem_of_In, filter_In. split; [by apply list_elem_of_In|done]. }
  by eapply Forall_forall in Hs; [|apply selectWords_tails].
Qed.

Inductive topped : list Tok -> Z -> list Tok -> Prop :=
| topped_bare w rest n : dropN 7 w = "" -> topped (TKw w :: rest) n (TKw "SELECT TOP " :: TNum n :: TKw " " :: rest)
| topped_tail w rest n : String.prefix "SELECT " w = true -> dropN 7 w <> "" ->
    topped (TKw w :: rest) n (TKw "SELECT TOP " :: TNum n :: TKw " " :: TKw (dropN 7 w) :: rest).

Lemma applyTop_topped s n t : applyTop s n = Some t -> topped s n t.
Proof.
  unfold applyTop. destruct s as [|[w| | | | | | | |] rest]; try done. destruct (String.prefix "SELECT " w) eqn:Hp; [|done].
  destruct (dropN 7 w) as [|c tail] eqn:Ht; intros [= <-]; [by constructor|]. rewrite <- Ht. constructor; [done|by rewrite Ht].
Qed.

#[export] Instance oracleDialect_laws isUUID uuidText wallClock : DialectLaws (oracleDialect isUUID uuidText wallClock).
Proof.
  split; simpl.
  - intros n q. unfold oracleQuoteIdent. by destruct (SafeIdentifier n).
  - apply lowerLike_places.
  - intros. apply likeThen_places.
  - intros s n t [= <-]. by rewrite places_app, app_nil_r.
  - apply lowerLike_balanced.
  - intros. by apply likeThen_balanced.
  - intros s n t [= <-] Hs. by apply balanced_app.
  - intros. by apply lowerLike_ok.
  - intros. apply likeThen_ok; [sql_word|done|done].
  - intros s n t [= <-] Hs. apply Forall_app. split; [done|]. constructor; [sql_word|]. constructor; [done|]. constructor; [sql_word|done].
Qed.

#[export] Instance sqlserverDialect_laws isUUID uuidText : DialectLaws (sqlserverDialect isUUID uuidText).
Proof.
  split; simpl.
  - intros n q. unfold sqlserverQuoteIdent. by destruct (SafeIdentifier n).
  - apply lowerLike_places.
  - intros. apply likeThen_places.
  - intros s n t [| ]%applyTop_topped; done.
  - apply lowerLike_balanced.
  - intros. by apply likeThen_balanced.
  - intros s n t [| ]%applyTop_topped Hs k; exact (Hs k).
  - intros. by apply lowerLike_ok.
  - intros. apply likeThen_ok; [sql_word|done|done].
  - intros s n t [w rest m Hw|w rest m Hp Ht]%applyTop_topped Hs; apply Forall_cons in Hs as [Hk Hs];
      (constructor; [sql_word|]; constructor; [done|]; constructor; [sql_word|]); [done|].
    constructor; [|done]. by destruct (select_tail w Hk Hp).
Qed.

#[export] Instance sqliteDialect_laws utcText : DialectLaws (sqliteDialect utcText).
Proof.
  split; simpl.
  - intros n q. unfold sqliteQuoteIdent. by destruct (SafeIdentifier n).
  - apply lowerLike_places.
  - intros. apply likeThen_places.
  - intros s n t [= <-]. by rewrite places_app, app_nil_r.
  - apply lowerLike_balanced.
  - intros. by apply likeThen_balanced.
  - intros s n t [= <-] Hs. by apply balanced_app.
  - intros. by apply lowerLike_ok.
  - intros. apply likeThen_ok; [sql_word|done|done].
  - intros s n t [= <-] Hs. apply Forall_app. split; [done|]. constructor; [sql_word|by repeat constructor].
Qed.

(** ** Upserts *)

Section Merge.
Context (d : Dialect SqlArg) `{!DialectLaws d} (qt : string -> option string).
Context (Hqt : forall n q, qt n = Some q -> okIdent d q).

Lemma separator_inert {A} (l : list A) : inert d (match l with [] => [] | _ => [TKw ", "] end).
Proof using. destruct l; [apply inert_nil|apply inert_word; sql_word]. Qed.

Lemma sourceList_good cols (new args : list SqlArg) ts :
  sourceList qt (S (length args)) cols = Some ts -> length new = length cols -> good d 0 args ts (args ++ new).
Proof using Hqt.
  revert new args ts. induction cols as [|c cols IH]; intros [|a new] args ts; try done; simpl.
  { intros [= <-] _. rewrite app_nil_r. apply inert_good, inert_nil. }
  intros (q & Hq%Hqt & (r & Hr & [= <-])%bind_Some)%bind_Some [= Hl].
  apply (good_app d 0 args [TPlace (S (length args))] (args ++ [a])).
  - split; [by exists [a]|done|by repeat constructor].
  - apply good_word; [sql_word|]. apply good_cons; [by apply inert_ident|].
    apply good_inert_l; [apply separator_inert|].
    specialize (IH new (args ++ [a]) r). rewrite length_app, Nat.add_1_r, <- app_assoc in IH. by apply IH.
Qed.

Lemma qualified_inert row q ts : row ∈ sqlWords -> okIdent d q -> inert d ts -> inert d (TKw row :: TDot :: TIdent q :: ts).
Proof using.
  intros Hr Hq Ht. apply inert_cons_word; [done|]. apply inert_cons; [apply inert_dot|].
  by apply inert_cons; [apply inert_ident|].
Qed.

Lemma rowList_inert row cols ts : row ∈ sqlWords -> rowList qt row cols = Some ts -> inert d ts.
Proof using Hqt.
  intros Hw. revert ts. induction cols as [|c cols IH]; intros ts; simpl; [intros [= <-]; apply inert_nil|].
  intros (q & Hq%Hqt & (r & Hr%IH & [= <-])%bind_Some)%bind_Some.
  apply qualified_inert; [done|done|]. by apply inert_app; [apply separator_inert|].
Qed.

Lemma equalTest_inert q : okIdent d q -> inert d (equalTest q).
Proof using.
  intros Hq. apply qualified_inert; [sql_word|done|]. apply inert_cons_word; [sql_word|].
  apply qualified_inert; [sql_word|done|apply inert_nil].
Qed.

Lemma nullSafeTest_inert q : okIdent d q -> inert d (nullSafeTest q).
Proof using.
  intros Hq. split; [done|]. split; [by intros k|]. unfold nullSafeTest, equalTest.
  repeat (constructor; [first [exact I|exact Hq|sql_word]|]). constructor.
Qed.

Lemma onList_inert test keys ts :
  (forall q, okIdent d q -> inert d (test q)) -> onList qt test keys = Some ts -> inert d ts.
Proof using Hqt.
  intros Ht. revert ts. induction keys as [|k keys IH]; intros ts; simpl; [intros [= <-]; apply inert_nil|].
  intros (q & Hq%Hqt & (r & Hr%IH & [= <-])%bind_Some)%bind_Some.
  apply inert_app; [by apply Ht|]. apply inert_app; [|done]. destruct keys; [apply inert_nil|apply inert_and].
Qed.

Lemma mergeSets_inert n sets ts :
  Forall (fun s => us_Mode s = UpsertSetNew) sets -> mergeSets qt n sets = Some ts -> inert d ts.
Proof using Hqt.
  intros H. revert n ts. induction H as [|s sets Hs _ IH]; intros n ts; simpl; [intros [= <-]; apply inert_nil|].
  rewrite Hs. intros (c & Hc%Hqt & (r & Hr%IH & [= <-])%bind_Some)%bind_Some.
  apply inert_cons; [by apply inert_ident|]. apply inert_cons_word; [sql_word|].
  apply qualified_inert; [sql_word|done|]. by apply inert_app; [apply separator_inert|].
Qed.

Lemma mergeArms_inert cols sets ts :
  Forall (fun s => us_Mode s = UpsertSetNew) sets -> mergeArms qt cols sets = Some ts -> inert d ts.
Proof using Hqt.
  intros Hs (m & Hm & (cs & Hcs & (vs & Hvs & [= <-])%bind_Some)%bind_Some)%bind_Some.
  apply inert_app.
  - destruct sets as [|s sets]; [injection Hm as <-; apply inert_nil|].
    apply bind_Some in Hm as (ss & Hss & [= <-]). apply inert_cons_word; [sql_word|]. by eapply mergeSets_inert.
  - apply inert_cons_word; [sql_word|].
    replace (TOpen :: cs ++ TClose :: TKw " VALUES " :: TOpen :: vs ++ [TClose])
      with ((TOpen :: cs ++ [TClose]) ++ TKw " VALUES " :: (TOpen :: vs ++ [TClose])) by (simpl; by rewrite <- app_assoc).
    apply inert_app; [apply inert_group; by eapply identList_inert|].
    apply inert_cons_word; [sql_word|]. apply inert_group. eapply rowList_inert; [|done]. sql_word.
Qed.

End Merge.

Lemma quoted (d : Dialect SqlArg) `{!DialectLaws d} n q : d_QuoteIdent d n = Some q -> okIdent d q.
Proof. intros E. exists n. split; [by eapply dl_quote|done]. Qed.

Lemma sqliteBuildUpsert_good utcText table cols keys sets ts (args : list SqlArg) :
  sqliteBuildUpsert table cols keys sets = Some ts -> Forall (fun s => us_Mode s = UpsertSetNew) sets ->
  length args = length cols -> good (sqliteDialect utcText) 0 [] ts args.
Proof.
  intros (h & Hh & (k & Hk & H)%bind_Some)%bind_Some Hs Hl. pose proof (quoted (sqliteDialect utcText)) as Hq.
  eapply (insertHead_good _ _ Hq) in Hh; [|exact Hl]. eapply (identList_inert _ _ Hq) in Hk.
  assert (Hb : good (sqliteDialect utcText) 0 [] (h ++ TKw " ON CONFLICT " :: TOpen :: k ++ [TClose]) args).
  { apply good_inert_r; [done|]. apply inert_cons_word; [sql_word|]. by apply inert_group. }
  destruct sets as [|s sets]; [injection H as <-; apply good_inert_r; [done|apply inert_word; sql_word]|].
  apply bind_Some in H as (ss & Es & [= <-]). apply good_inert_r; [done|]. apply inert_cons_word; [sql_word|].
  eapply (setList_inert _ _ Hq); [|exact Hs|exact Es]. sql_word.
Qed.

Lemma oracleBuildUpsert_good isUUID uuidText wallClock table cols keys sets ts (args : list SqlArg) :
  oracleBuildUpsert table cols keys sets = Some ts -> Forall (fun s => us_Mode s = UpsertSetNew) sets ->
  length args = length cols -> good (oracleDialect isUUID uuidText wallClock) 0 [] ts args.
Proof.
  intros (t & Ht & (src & Hsrc & (on & Hon & (arms & Harms & [= <-])%bind_Some)%bind_Some)%bind_Some)%bind_Some Hs Hl.
  set (d := oracleDialect isUUID uuidText wallClock). pose proof (quoted d) as Hq.
  apply good_word; [sql_word|]. apply good_cons; [by apply inert_ident, (Hq table)|]. apply good_word; [sql_word|].
  replace (TOpen :: TKw "SELECT " :: src ++ TKw " FROM dual" :: TClose :: TKw " source ON " :: TOpen :: on ++ TClose :: arms)
    with ((TOpen :: (TKw "SELECT " :: src ++ [TKw " FROM dual"]) ++ [TClose]) ++ TKw " source ON " :: (TOpen :: on ++ [TClose]) ++ arms)
    by (simpl; by rewrite <- !app_assoc).
  apply good_inert_r.
  - apply good_group, good_goodIn, good_word; [sql_word|]. apply good_inert_r; [|apply inert_word; sql_word].
    by apply (sourceList_good d _ Hq cols args []).
  - apply inert_cons_word; [sql_word|]. apply inert_app; [|by eapply (mergeArms_inert d _ Hq)].
    apply inert_group. eapply (onList_inert d _ Hq); [|exact Hon]. intros q Hqq. by apply nullSafeTest_inert.
Qed.

Lemma sqlserverBuildUpsert_good isUUID uuidText table cols keys sets ts (args : list SqlArg) :
  sqlserverBuildUpsert table cols keys sets = Some ts -> Forall (fun s => us_Mode s = UpsertSetNew) sets ->
  length args = length cols -> good (sqlserverDialect isUUID uuidText) 0 [] ts args.
Proof.
  intros (t & Ht & (src & Hsrc & (on & Hon & (arms & Harms & [= <-])%bind_Some)%bind_Some)%bind_Some)%bind_Some Hs Hl.
  set (d := sqlserverDialect isUUID uuidText). pose proof (quoted d) as Hq.
  apply good_word; [sql_word|]. apply good_cons; [by apply inert_ident, (Hq table)|]. apply good_word; [sql_word|].
  replace (TOpen :: TKw "SELECT " :: src ++ TClose :: TKw " AS source ON " :: on ++ arms ++ [TKw ";"])
    with ((TOpen :: (TKw "SELECT " :: src) ++ [TClose]) ++ TKw " AS source ON " :: on ++ arms ++ [TKw ";"])
    by (simpl; by rewrite <- !app_assoc).
  apply good_inert_r.
  - apply good_group, good_goodIn, good_word; [sql_word|]. by apply (sourceList_good d _ Hq cols args []).
  - apply inert_cons_word; [sql_word|]. apply inert_app.
    { eapply (onList_inert d _ Hq); [|exact Hon]. intros q Hqq. by apply equalTest_inert. }
    apply inert_app; [by eapply (mergeArms_inert d _ Hq)|apply inert_word; sql_word].
Qed.

#[export] Instance sqliteWriteDialect_laws asDriver utcText : WriteDialectLaws (sqliteWriteDialect asDriver utcText).
Proof. engine_laws sqliteBuildUpsert_good. Qed.

(** An engine with no release statement. *)
Ltac engine_laws_no_release up :=
  split; [apply _|sql_word|sql_word|apply inert_word; sql_word|apply inert_word; sql_word|apply inert_nil|];
  intros; by eapply up.

#[export] Instance oracleWriteDialect_laws asDriver isUUID uuidText wallClock :
  WriteDialectLaws (oracleWriteDialect asDriver isUUID uuidText wallClock).
Proof. engine_laws_no_release oracleBuildUpsert_good. Qed.

#[export] Instance sqlserverWriteDialect_laws asDriver isUUID uuidText :
  WriteDialectLaws (sqlserverWriteDialect asDriver isUUID uuidText).
Proof. engine_laws_no_release sqlserverBuildUpsert_good. Qed.
