(* ===== verification/Persister.v ===== *)
(** * The persister: transactions, hooks, outbox and audit

    [infra/db/command/write/base_engine.go], [flat_write.go], [sibling_write.go],
    [outbox.go], [outbox_payload.go] and [lifecycle_payload.go], up to the verbs, which
    are in [PersisterVerbs].

    The database is an arbitrary [Backend]; every call of it is recorded in a trace,
    together with what the engine does after a commit.  [Site] says which part of the
    code a statement comes from.  A hook is a tree of calls on its transaction handle,
    which offers no commit and no rollback. *)

From S2P Require Import Prelude Naming Notification Errors BaseEntity Aggregate Entity Criteria CriteriaSql Dialects Queries WriteSchema WriteSql.
From stdpp Require Import base gmap strings list fin_maps.
From Stdlib Require Import Ascii ZArith Lia.

Open Scope string_scope.
Open Scope list_scope.
Open Scope go_scope.

(** ** The backend *)

(** A scanned column. *)
Inductive Cell := CNull | CInt (n : Z) | CTime (t : Z) | CText (s : string) | CBytes (s : string) | COther.

(** What a query gives: an error, nil rows, or rows: what the first [Next] finds (the
    columns, or the error of scanning them) and what [Err] says afterwards. *)
Inductive QueryRes :=
| QErr (e : GoErr)
| QNil
| QRows (first : option (GoErr + list Cell)) (err : option GoErr).

Inductive Site := SHook | SData | SOutbox | SAudit.

#[export] Instance Site_eq_dec : EqDecision Site.
Proof. solve_decision. Defined.

Inductive Event (Arg AE : Type) :=
| EvBegin (err : option GoErr)
| EvExec (site : Site) (sql : list Tok) (args : list Arg) (err : option GoErr)
| EvCount (sql : list Tok) (args : list Arg) (res : GoErr + Z)
| EvQuery (site : Site) (sql : list Tok) (args : list Arg) (res : QueryRes)
| EvCommit (err : option GoErr)
| EvRollback
| EvEcho (ev : AE)
| EvPublish (evs : list DomainEvent).

Arguments EvBegin {Arg AE}.
Arguments EvExec {Arg AE}.
Arguments EvCount {Arg AE}.
Arguments EvQuery {Arg AE}.
Arguments EvCommit {Arg AE}.
Arguments EvRollback {Arg AE}.
Arguments EvEcho {Arg AE}.
Arguments EvPublish {Arg AE}.

(** The driver, the id source and the clock, over their state [W]. *)
Record Backend (W Arg : Type) := mkBackend {
  bk_Begin : W -> W * option GoErr;
  bk_Exec : list Tok -> list Arg -> W -> W * option GoErr;
  bk_ExecCount : list Tok -> list Arg -> W -> W * (GoErr + Z);
  bk_Query : list Tok -> list Arg -> W -> W * QueryRes;
  bk_Commit : W -> W * option GoErr;
  bk_Rollback : W -> W;
  bk_newID : W -> W * (GoErr + string);
  bk_clock : W -> W * Z;
  bk_publish : list DomainEvent -> W -> W
}.

Arguments mkBackend {W Arg}.
Arguments bk_Begin {W Arg}.
Arguments bk_Exec {W Arg}.
Arguments bk_ExecCount {W Arg}.
Arguments bk_Query {W Arg}.
Arguments bk_Commit {W Arg}.
Arguments bk_Rollback {W Arg}.
Arguments bk_newID {W Arg}.
Arguments bk_clock {W Arg}.
Arguments bk_publish {W Arg}.

(** ** Payloads ([outbox_payload.go]) *)

Record outboxMeta := mkMeta {
  om_ID : string;
  om_Revision : Z;
  om_BaseID : string;
  om_BaseRevision : Z;
  om_BasePurged : bool;
  om_CreatedAt : Z
}.

Definition metaOf (id : string) : outboxMeta := mkMeta id 0 "" 0 false zeroTime.

(** The [_ids] block; an absent key is [None]. *)
Record IdsBlock := mkIds {
  ib_id : string;
  ib_revision : option Z;
  ib_base : option (string * Z);
  ib_basePurged : bool;
  ib_createdAt : option Z
}.

Definition idsBlock (m : outboxMeta) : IdsBlock :=
  mkIds (om_ID m)
    (if (0 <? om_Revision m)%Z then Some (om_Revision m) else None)
    (if String.eqb (om_BaseID m) "" then None else Some (om_BaseID m, om_BaseRevision m))
    (om_BasePurged m)
    (if isZeroTime (om_CreatedAt m) then None else Some (om_CreatedAt m)).

(** One child of a [_children] block: its [_op] and its columns. *)
Record ChildItem := mkChildItem { ci_op : string; ci_cols : Fields }.

(** The keys with a leading underscore apart from the columns, which boot validation
    keeps free of them. *)
Record Payload := mkPayload {
  pl_cols : Fields;
  pl_ids : IdsBlock;
  pl_children : gmap string (list ChildItem);
  pl_baseChildren : gmap string (list ChildItem)
}.

Record CascadeStamps := mkStamps { cs_Own : Z; cs_Base : Z }.

Definition noStamps : CascadeStamps := mkStamps zeroTime zeroTime.

Definition forChild (c : CascadeStamps) (fromBase : bool) : Z := if fromBase then cs_Base c else cs_Own c.

(** Whether the cascade of an archive or unarchive reaches a child with that loaded
    stamp. *)
Definition cascadeTouches (archive : bool) (item : option Z) (cascade : Z) : bool :=
  if isZeroTime cascade then false
  else if archive then bool_decide (item = None)
  else match item with Some t => Z.eqb t cascade | None => false end.

Definition childOpName (op : AggregateItemOp) (archiveVerb : bool) (eventType : string) (childHasArchivedAt inCascade : bool) :
  string :=
  if archiveVerb then
    if negb inCascade then "noop" else if String.eqb eventType "ARCHIVED" then "archive" else "unarchive"
  else
    match op with
    | OpInsert => "insert"
    | OpUpdate => "update"
    | OpDelete => if negb childHasArchivedAt then "delete" else "archive"
    | OpNoop => "noop"
    end.

(** ** Engine configuration and audit *)

Record AuditCfg := mkAuditCfg { ac_slog : bool; ac_database : bool }.

(** [ec_roles]: per base table, the roles registered with the engine. *)
Record EngineCfg := mkEngineCfg {
  ec_audit : option AuditCfg;
  ec_clockDB : bool;
  ec_publisher : bool;
  ec_roles : gmap string (gmap string RoleRef)
}.

(** What the audit event of a write is built from. *)
Inductive AuditKind :=
| AuditInsert (id : ID)
| AuditUpdate
| AuditArchive (stamps : CascadeStamps)
| AuditUnarchive (stamps : CascadeStamps)
| AuditDelete
| AuditPurge (baseID : string).

(** The bound columns of an audit row after its id. *)
Record AuditRow (Arg : Type) := mkAuditRow {
  aw_entityID : Arg; aw_entityType : Arg; aw_verb : Arg; aw_actionName : Arg; aw_kind : Arg; aw_actor : Arg;
  aw_actorIssuer : Arg; aw_tenant : Arg; aw_thread : Arg; aw_dateTime : Arg; aw_payload : Arg; aw_trace : Arg
}.

Arguments mkAuditRow {Arg}.

Definition auditArgs {Arg} (r : AuditRow Arg) : list Arg :=
  let 'mkAuditRow a b c e f g h i j k l m := r in [a; b; c; e; f; g; h; i; j; k; l; m].

(** [AuditBundle] *)
Record AuditBundle (AE : Type) := mkBundle { ab_Ev : option AE; ab_Evs : list DomainEvent }.

Arguments mkBundle {AE}.
Arguments ab_Ev {AE}.
Arguments ab_Evs {AE}.
Definition noBundle {AE} : AuditBundle AE := mkBundle None [].

(** [domain.WriteResult] *)
Record WriteResult := mkWriteResult { wr_ID : ID; wr_Fields : Fields }.

Section Persister.
Context {V S D W Arg AE : Type} `{AVOOps V}.

Abbreviation Ent := (EntityState V S D).
Abbreviation Ev := (Event Arg AE).

(** A hook's body on the entity and the transaction handle. *)
Inductive HookBody :=
| HReturn (err : option GoErr)
| HPanic (msg : string)
| HRead (k : Ent -> HookBody)
| HWrite (f : Ent -> Ent) (next : HookBody)
| HExec (sql : list Tok) (args : list Arg) (k : option GoErr -> HookBody)
| HQuery (sql : list Tok) (args : list Arg) (k : QueryRes -> HookBody).

(** [core.WriteHook] *)
Record WriteHook := mkWriteHook { wh_AfterBegin : option HookBody; wh_BeforeCommit : option (ID -> HookBody) }.

(** What the persister calls outside its own files: the driver, the dialect,
    [uuid.Parse], [json.Marshal], the request's traceparent, the audit events and the
    columns of their rows, [fmt.Sprintf] of a scalar, the name-based uuid of a natural
    key, [time.Parse] over the accepted layouts, the [Managed] carrier of a child, the
    order a [range] over a map takes. *)
Record Env := mkEnv {
  env_backend : Backend W Arg;
  env_dialect : WriteDialect Arg;
  env_isUUID : string -> bool;
  env_marshal : Payload -> GoErr + string;
  env_traceparent : string;
  env_auditEvent : AuditKind -> Ent -> AE;
  env_auditRow : AE -> GoErr + AuditRow Arg;
  env_sprint : Value -> string;
  env_baseID : string -> string;
  env_parseTime : string -> option Z;
  env_managed : V -> Managed;
  env_iter : gmap string (list (aggregateItemEntry V)) -> list (string * list (aggregateItemEntry V));
  env_cfg : EngineCfg
}.

Record PWorld := mkPWorld { pw_world : W; pw_trace : list Ev }.

Abbreviation PM A := (GoM (PWorld * Ent) GoErr A).

Context (env : Env).

Abbreviation bk := (env_backend env).
Abbreviation w := (env_dialect env).
Abbreviation enc := (d_EncodeArg (wd_d (env_dialect env))).

(** *** Calls *)

Definition call {R} (op : W -> W * R) (event : R -> Ev) : PM R :=
  fun s => let '(x, r) := op (pw_world s.1) in ((mkPWorld x (pw_trace s.1 ++ [event r]), s.2), Ret r).

(** A call that leaves no event. *)
Definition silent {R} (op : W -> W * R) : PM R :=
  fun s => let '(x, r) := op (pw_world s.1) in ((mkPWorld x (pw_trace s.1), s.2), Ret r).

Definition traced (e : Ev) : PM unit := fun s => ((mkPWorld (pw_world s.1) (pw_trace s.1 ++ [e]), s.2), Ret tt).

Definition liftO {A} (r : Outcome GoErr A) : PM A := fun s => (s, r).

Definition orFail (err : option GoErr) : PM unit := match err with None => gret tt | Some e => gfail e end.

Definition orFailSum {A} (r : GoErr + A) : PM A := match r with inr a => gret a | inl e => gfail e end.

Definition source : PM Ent := s <- gget;; gret s.2.

Definition onSource (f : Ent -> Ent) : PM unit := gmodify (fun s => (s.1, f s.2)).

Definition onData (f : D -> D) : PM unit := onSource (fun e => mkEntity (en_ar e) (f (en_data e))).

Definition exec (site : Site) (sql : list Tok) (args : list Arg) : PM unit :=
  err <- call (bk_Exec bk sql args) (EvExec site sql args);; orFail err.

Definition execStmt (site : Site) (st : Outcome GoErr (list Tok * list Arg)) : PM unit :=
  x <- liftO st;; exec site x.1 x.2.

(** A statement with its arguments given apart. *)
Definition execWith (st : Outcome GoErr (list Tok)) (args : list Arg) : PM unit :=
  sql <- liftO st;; exec SData sql args.

Definition query (st : Outcome GoErr (list Tok)) (args : list Arg) : PM QueryRes :=
  sql <- liftO st;; call (bk_Query bk sql args) (EvQuery SData sql args).

Fixpoint forEach {A} (f : A -> PM unit) (l : list A) : PM unit :=
  match l with
  | [] => gret tt
  | x :: rest => f x;;; forEach f rest
  end.

Definition newWriteID : PM string :=
  r <- silent (bk_newID bk);;
  match r with inr id => gret id | inl e => gfail (EWrap "db: uuid v7" e) end.

Definition idArg (id : string) : Arg := enc (VID (Some (NewID id))).

(** *** Clock *)

Definition normalizeStamp (c : Cell) : Z :=
  match c with
  | CTime t => t
  | CText s | CBytes s => default zeroTime (env_parseTime env s)
  | _ => zeroTime
  end.

Definition truncateMicro (t : Z) : Z := (t / 1000 * 1000)%Z.

(** [NowFrom] *)
Definition now_ : PM Z :=
  if negb (ec_clockDB (env_cfg env)) then t <- silent (bk_clock bk);; gret (truncateMicro t)
  else
    r <- query (Ret (clockSQL w)) [];;
    match r with
    | QErr e => gfail (EWrap "db: reading the database clock" e)
    | QRows (Some (inl e)) _ => gfail (EWrap "db: reading the database clock" e)
    | QRows (Some (inr (CTime t :: _))) _ => gret (truncateMicro t)
    | QRows (Some (inr (CText s :: _))) _ | QRows (Some (inr (CBytes s :: _))) _ =>
        match env_parseTime env s with
        | Some t => gret (truncateMicro t)
        | None => gfail (ELeaf "db: the database clock is not a timestamp")
        end
    | QRows (Some (inr _)) _ => gfail (ELeaf "db: the database clock is not a timestamp")
    | QRows None (Some e) => gfail (EWrap "db: reading the database clock" e)
    | QRows None None | QNil => gfail (EWrap "db: reading the database clock" (ELeaf "no rows in result set"))
    end.

(** *** Transactions *)

Definition rollback (s : PWorld * Ent) : PWorld * Ent :=
  (mkPWorld (bk_Rollback bk (pw_world s.1)) (pw_trace s.1 ++ [EvRollback]), s.2).

(** [Begin] with the deferred [Rollback]. *)
Definition inTx {A} (body : PM A) : PM A :=
  err <- call (bk_Begin bk) EvBegin;;
  orFail err;;;
  gdefer rollback body.

Definition commit : PM unit := err <- call (bk_Commit bk) EvCommit;; orFail err.

(** *** Hooks *)

Fixpoint runHook (b : HookBody) : PM unit :=
  match b with
  | HReturn err => orFail err
  | HPanic m => gpanic m
  | HRead k => e <- source;; runHook (k e)
  | HWrite f next => onSource f;;; runHook next
  | HExec sql args k => err <- call (bk_Exec bk sql args) (EvExec SHook sql args);; runHook (k err)
  | HQuery sql args k => r <- call (bk_Query bk sql args) (EvQuery SHook sql args);; runHook (k r)
  end.

Definition FireAfterBegin (hook : WriteHook) : PM unit :=
  match wh_AfterBegin hook with None => gret tt | Some b => runHook b end.

Definition FireBeforeCommit (id : ID) (hook : WriteHook) : PM unit :=
  match wh_BeforeCommit hook with None => gret tt | Some b => runHook (b id) end.

(** *** Audit *)

Definition AuditEnabled : bool :=
  match ec_audit (env_cfg env) with Some c => ac_slog c || ac_database c | None => false end.

(** The event is built from the entity as it is by then. *)
Definition BuildAudit (kind : AuditKind) (evs : list DomainEvent) : PM (AuditBundle AE) :=
  e <- source;;
  gret (mkBundle (if AuditEnabled then Some (env_auditEvent env kind e) else None) evs).

Definition InsertAuditEvent (ev : AE) : PM unit :=
  match env_auditRow env ev with
  | inl e => gfail (EWrap "audit: marshal payload" e)
  | inr row =>
      r <- silent (bk_newID bk);;
      match r with
      | inl e => gfail (EWrap "audit: uuid v7" e)
      | inr id =>
          err <- call (bk_Exec bk auditSQL (idArg id :: auditArgs row))
                   (EvExec SAudit auditSQL (idArg id :: auditArgs row));;
          match err with None => gret tt | Some e => gfail (EWrap "audit: insert into audit_events" e) end
      end
  end.

Definition WriteAuditRow (ev : option AE) : PM unit :=
  match ev, ec_audit (env_cfg env) with
  | Some ev, Some c => if ac_database c then InsertAuditEvent ev else gret tt
  | _, _ => gret tt
  end.

Definition EchoAuditSlog (ev : option AE) : PM unit :=
  match ev, ec_audit (env_cfg env) with
  | Some ev, Some c => if ac_slog c then traced (EvEcho ev) else gret tt
  | _, _ => gret tt
  end.

(** An error of the publisher is logged. *)
Definition PublishEvents (evs : list DomainEvent) : PM unit :=
  if negb (ec_publisher (env_cfg env)) || bool_decide (evs = []) then gret tt
  else call (fun x => (bk_publish bk evs x, tt)) (fun _ => EvPublish evs).

Definition AfterCommit (ab : AuditBundle AE) : PM unit :=
  EchoAuditSlog (ab_Ev ab);;; PublishEvents (ab_Evs ab).

(** *** Outbox *)

Definition WriteOutbox (table eventType id : string) (payload : Payload) : PM unit :=
  data <- orFailSum (env_marshal env payload);;
  rowID <- newWriteID;;
  exec SOutbox (outboxSQL w)
    [idArg rowID; wd_raw w (VString table); wd_raw w (VString eventType); wd_raw w (VString id);
     wd_raw w (VString data);
     wd_raw w (if String.eqb (env_traceparent env) "" then VNil else VString (env_traceparent env))].

(** What every verb does once its rows are written: outbox, audit row, the second hook,
    commit, and what follows a commit. *)
Definition finish (table eventType id : string) (payload : Ent -> Payload) (kind : AuditKind) (evs : list DomainEvent)
  (hook : WriteHook) : PM unit :=
  e <- source;;
  WriteOutbox table eventType id (payload e);;;
  ab <- BuildAudit kind evs;;
  WriteAuditRow (ab_Ev ab);;;
  FireBeforeCommit (NewID id) hook;;;
  commit;;;
  AfterCommit ab.

(** *** Siblings ([sibling_write.go]) *)

Definition insertSiblings {X} (siblings : list (Part X)) (ownerID : string) (x : X) (id : string) (now : Z) : PM unit :=
  forEach (fun sib =>
    let fields := writeFields sib x in
    if allNilFields fields then gret tt
    else execStmt SData (buildInsert w (Table sib) ownerID id fields (insertNowColumns sib) now "")) siblings.

Definition deleteSibling {X} (sib : Part X) (ownerID id : string) : PM unit :=
  execStmt SData (deleteSQL w (env_isUUID env) (idOnlyTarget (Table sib) ownerID) (Some (byID id))).

Definition applySiblingUpdates {X} (siblings : list (Part X)) (ownerID : string) (x : X) (id : string) (partial : bool) :
  PM unit :=
  forEach (fun sib =>
    let fields := writeFields sib x in
    if allNilFields fields then (if partial then gret tt else deleteSibling sib ownerID id)
    else execStmt SData (buildSiblingUpsert w sib ownerID id fields)) siblings.

Definition deleteSiblings {X} (siblings : list (Part X)) (ownerID id : string) : PM unit :=
  forEach (fun sib => deleteSibling sib ownerID id) siblings.

(** *** Expected rows *)

Record expectedRow := mkExpected {
  xr_table : string; xr_contextName : string; xr_pkCol : string; xr_wireField : string; xr_value : string;
  xr_guardedRevision : Z
}.

Definition rowExists (table pkCol id : string) : PM bool :=
  r <- query (rowExistsSQL w table pkCol) [idArg id];;
  match r with
  | QErr e => gfail e
  | QNil => gret false
  | QRows (Some _) _ => gret true
  | QRows None err => orFail err;;; gret false
  end.

Definition execExpectingRow (st : list Tok * list Arg) (row : expectedRow) : PM unit :=
  r <- call (bk_ExecCount bk st.1 st.2) (EvCount st.1 st.2);;
  n <- orFailSum r;;
  if (0 <? n)%Z then gret tt
  else
    gone <- (if (0 <? xr_guardedRevision row)%Z
             then exists_ <- rowExists (xr_table row) (xr_pkCol row) (xr_value row);; gret (negb exists_)
             else gret true);;
    if gone then gfail (NotFoundError (xr_contextName row) (xr_wireField row) (xr_value row))
    else gfail (SingleNotificationError (xr_contextName row) (xr_wireField row) ConcurrentModificationNotification).

(** *** Reads inside the transaction *)

Definition readRevisionCreatedAt (table revCol createdCol pkCol id : string) : PM (Z * Z) :=
  r <- query (revisionSQL w table revCol createdCol pkCol) [idArg id];;
  match r with
  | QErr e => gfail e
  | QNil => gret (0, zeroTime)%Z
  | QRows None err => orFail err;;; gret (0, zeroTime)%Z
  | QRows (Some (inl e)) _ => gfail e
  | QRows (Some (inr cells)) err =>
      match cells with
      | CInt rev :: rest =>
          orFail err;;;
          gret (rev, if String.eqb createdCol "" then zeroTime else normalizeStamp (default CNull (rest !! 0)))
      | _ => gfail (ELeaf "sql: Scan error")
      end
  end.

Definition readArchiveStamp (table archivedCol pkCol id : string) : PM Z :=
  r <- query (archiveStampSQL w table archivedCol pkCol) [idArg id];;
  match r with
  | QErr e => gfail e
  | QNil => gret zeroTime
  | QRows None err => orFail err;;; gret zeroTime
  | QRows (Some (inl e)) _ => gfail e
  | QRows (Some (inr cells)) err => orFail err;;; gret (normalizeStamp (default CNull (cells !! 0)))
  end.

Definition loadedRevision : PM Z := e <- source;; gret (mg_revision (be_managed (en_base e))).

(** *** Stamps *)

Definition claimStampedCols (s : Part D) (nowCols : list string) (now : Z) : PM (stampPlan * list string) :=
  e <- source;;
  r <- liftO (claimPlan s (mg_stamps (be_managed (en_base e))) nowCols);;
  let '(plan, unclaimed, back) := r in
  onData (ApplyStamps s back now);;;
  gret (plan, unclaimed).

Definition stampedCols (s : Part D) (nowCols : list string) (now : Z) : PM stampPlan :=
  r <- claimStampedCols s nowCols now;;
  liftO (RefuseUnclaimedStamps s r.2);;;
  gret r.1.

(** [root] is whether the child is written under an aggregate root. *)
Definition stampedChildCols (child : Part V) (root : bool) (item : V) (nowCols : list string) (now : Z) : PM stampPlan :=
  if negb (HasStampedFields child) then gret (planOf nowCols)
  else
    let asked := mg_stamps (env_managed env item) in
    claimed <- liftO (StampRequestColumns child asked);;
    match claimed with
    | [] => gret (planOf nowCols)
    | _ =>
        let plan := splitStamps claimed (planOf nowCols) in
        (if root && writesBack plan
         then onSource (en_onAr (fun ar => (ApplyToAggregateItem (Some item) (fun v => Some (ApplyStamps child asked now v)) ar).2))
         else gret tt);;;
        gret plan
    end.

(** *** Children ([aggregate_write.go]) *)

Definition insertChild (child : ChildSchema V) (item : V) (rootID : string) (now : Z) : PM string :=
  let part := ch_part child in
  let fields := <[ParentIDColumn part := VID (Some (NewID rootID))]> (writeFields part item) in
  childID <- newWriteID;;
  plan <- stampedChildCols part true item (insertNowColumns part) now;;
  execStmt SData (buildInsertWithCounters w (Table part) (IDColumn part) childID fields plan now "");;;
  insertSiblings (ch_siblings child) (IDColumn part) item childID now;;;
  gret childID.

Definition updateChild (child : ChildSchema V) (item : V) (now : Z) : PM unit :=
  let part := ch_part child in
  let id := id_value (avo_GetID item) in
  if String.eqb id "" then gfail (ELeaf ("db: cannot update child " +:+ Table part +:+ " without id"))
  else
    let fields := writeFields part item in
    plan <- stampedChildCols part true item (updateNowColumns part) now;;
    st <- liftO (buildUpdatePlan w (env_isUUID env) (schemaTarget part) (Some (byID id)) fields plan now "" 0);;
    execExpectingRow st
      (mkExpected (Table part) (Table part) (IDColumn part) (WireFieldOf part (IDColumn part)) id 0);;;
    applySiblingUpdates (ch_siblings child) (IDColumn part) item id false.

Definition archiveChild (child : ChildSchema V) (archivedCol : string) (item : V) (now : Z) : PM unit :=
  let part := ch_part child in
  let id := id_value (avo_GetID item) in
  if String.eqb id "" then gfail (ELeaf ("db: cannot archive child " +:+ Table part +:+ " without id"))
  else execStmt SData (archiveSQL w (env_isUUID env) (schemaTarget part) archivedCol (Some (byID id)) now "").

Definition removeChild (child : ChildSchema V) (item : V) (now : Z) : PM unit :=
  let part := ch_part child in
  match archivedAtColumn part with
  | Some archivedCol => archiveChild child archivedCol item now
  | None =>
      let id := id_value (avo_GetID item) in
      if String.eqb id "" then gfail (ELeaf ("db: cannot delete child " +:+ Table part +:+ " without id"))
      else
        deleteSiblings (ch_siblings child) (IDColumn part) id;;;
        execStmt SData (deleteSQL w (env_isUUID env) (schemaTarget part) (Some (byID id)))
  end.

(** One entry of the write plan. *)
Definition writeChild (child : ChildSchema V) (fkID : string) (now : Z) (it : aggregateItemEntry V) : PM unit :=
  match OperationOf (e_originalStatus it) (e_currentStatus it) with
  | OpInsert =>
      childID <- insertChild child (e_item it) fkID now;;
      onSource (en_onAr (fun ar => (AssignAggregateItemID (Some (e_item it)) (NewID childID) ar).2))
  | OpUpdate => updateChild child (e_item it) now
  | OpDelete => removeChild child (e_item it) now
  | OpNoop => gret tt
  end.

(** Over the collections as they are when the loop starts. *)
Definition writeChildren (root : bool) (schema : RootSchema V D) (rootID baseID : string) (now : Z) : PM unit :=
  if negb root then gret tt
  else
    e <- source;;
    forEach (fun '(typeName, items) =>
      match ResolveAggregateChild schema typeName with
      | None => gfail (ELeaf ("db: aggregate child " +:+ typeName +:+ " has no TableSchema declared"))
      | Some (child, fromBase) =>
          forEach (writeChild child (if fromBase : bool then baseID else rootID) now) items
      end) (env_iter env (AllAggregateItems (en_ar e))).

(** *** Payloads *)

Definition overlay (m1 m2 : Fields) : Fields := m1 ∪ m2.

(** The columns of a child in a payload. *)
Definition childColumns (child : ChildSchema V) (item : V) : Fields :=
  foldl (fun cols sib =>
    let sf := writeFields sib item in
    if allNilFields sf then cols else overlay (RedactSyncColumns sib sf) cols)
    (RedactSyncColumns (ch_part child) (writeFields (ch_part child) item)) (ch_siblings child).

Definition childItem (child : ChildSchema V) (eventType : string) (cascade : Z) (it : aggregateItemEntry V) : ChildItem :=
  let part := ch_part child in
  let item := e_item it in
  let hasArchivedAt := bool_decide (is_Some (archivedAtColumn part)) in
  let archiving := String.eqb eventType "ARCHIVED" || String.eqb eventType "UNARCHIVED" in
  let inCascade := hasArchivedAt &&
                   cascadeTouches (String.eqb eventType "ARCHIVED") (mg_archivedAt (env_managed env item)) cascade in
  let op := childOpName (OperationOf (e_originalStatus it) (e_currentStatus it)) archiving eventType hasArchivedAt inCascade in
  let cols := if String.eqb op "archive" || String.eqb op "unarchive" || String.eqb op "delete" then ∅
              else childColumns child item in
  let cols := match archivedAtColumn part with
              | Some c => if String.eqb op "archive" then <[c := timeValue cascade]> cols
                          else if String.eqb op "unarchive" then <[c := VNil]> cols else cols
              | None => cols
              end in
  let id := id_value (avo_GetID item) in
  mkChildItem op (if String.eqb id "" then cols else <[IDColumn part := VID (Some (NewID id))]> cols).

(** The block of the role's own children, or of the base's. *)
Definition childrenBlock (schema : RootSchema V D) (ofBase : bool) (eventType : string) (stamps : CascadeStamps) (e : Ent) :
  gmap string (list ChildItem) :=
  map_imap (fun typeName items =>
    match ResolveAggregateChild schema typeName with
    | Some (child, fromBase) =>
        if bool_decide (fromBase = ofBase) && negb (bool_decide (items = []))
        then Some (childItem child eventType (forChild stamps fromBase) <$> items)
        else None
    | None => None
    end) (AllAggregateItems (en_ar e)).

(** The managed columns of the event. *)
Definition managedColumns (part : Part D) (eventType : string) (now : Z) (out : Fields) : Fields :=
  let put c v out := match c with Some c => <[c := v]> out | None => out end in
  let created := nonEmpty (CreatedAtColumn part) in
  let updated := nonEmpty (UpdatedAtColumn part) in
  let archived := archivedAtColumn part in
  if String.eqb eventType "INSERTED" then put archived VNil (put updated (timeValue now) (put created (timeValue now) out))
  else if String.eqb eventType "UPDATED" then put updated (timeValue now) out
  else if String.eqb eventType "ARCHIVED" then put archived (timeValue now) out
  else if String.eqb eventType "UNARCHIVED" then put archived VNil out
  else out.

Definition scalarString (v : Value) : string := if isNilValue v then "" else env_sprint env v.

(** [sharedBaseValues]: the base's columns on the entity, and its natural key; a role
    struct without one of its fields panics. *)
Definition sharedBaseValues (base : BaseSchema V D) (x : D) : Outcome GoErr (Fields * string) :=
  let nkGo := default "" (GoOf (bs_part base) (bs_naturalIDCol base)) in
  foldl (fun acc f =>
    let* out := acc in
    match fd_stamped f, fd_read f x with
    | Some _, _ => Ret out
    | None, FieldFound v =>
        Ret (<[fd_column f := v]> out.1, if String.eqb (fd_goName f) nkGo then scalarString v else out.2)
    | None, _ => Panic "reflect: call of reflect.Value.Interface on zero Value"
    end) (Ret (∅, "")) (pt_fields (bs_part base)).

(** The base's natural key in a place where the code drops the columns. *)
Definition naturalKey (base : BaseSchema V D) (x : D) : Outcome GoErr string :=
  let* r := sharedBaseValues base x in Ret r.2.

(** A panic in [sharedBaseValues] would have ended the write before its payload is
    built; [baseColumns] then adds nothing. *)
Definition baseColumns (schema : RootSchema V D) (meta : outboxMeta) (x : D) (out : Fields) : Fields :=
  match rs_sharedBase schema with
  | Some (base, fkCol) =>
      if String.eqb (om_BaseID meta) "" then out
      else
        let out := match sharedBaseValues base x with
                   | Ret r => overlay (RedactSyncColumns (bs_part base) r.1) out
                   | _ => out
                   end in
        if String.eqb fkCol (IDColumn (rs_part schema)) then out else <[fkCol := VID (Some (NewID (om_BaseID meta)))]> out
  | None => out
  end.

Definition buildWritePayload (schema : RootSchema V D) (root : bool) (eventType : string) (now : Z) (stamps : CascadeStamps)
  (rootFields : Fields) (meta : outboxMeta) (e : Ent) : Payload :=
  let x := en_data e in
  let out := RedactSyncColumns (rs_part schema) rootFields in
  let out := foldl (fun out sib => overlay (RedactSyncColumns sib (writeFields sib x)) out) out (rs_siblings schema) in
  let out := baseColumns schema meta x out in
  let out := managedColumns (rs_part schema) eventType now out in
  mkPayload out (idsBlock meta)
    (if root then childrenBlock schema false eventType stamps e else ∅)
    (if root then childrenBlock schema true eventType stamps e else ∅).

Definition insertCreatedAt (part : Part D) (now : Z) : Z := if String.eqb (CreatedAtColumn part) "" then zeroTime else now.

End Persister.

Arguments HookBody : clear implicits.
Arguments WriteHook : clear implicits.
Arguments Env : clear implicits.
Arguments PWorld : clear implicits.
