(* ===== verification/PersisterVerbs.v ===== *)
(** * The persister: the write verbs

    [infra/db/command/write/flat_write.go], [aggregate_write.go],
    [shared_base_write.go] and [base_repository.go]: the five verbs of the engine on
    their three routes (flat, aggregate, shared base), and the repository's writer. *)

From S2P Require Import Prelude Naming Notification Errors BaseEntity Aggregate Entity Criteria CriteriaSql Dialects Queries WriteSchema WriteSql WriteSqlProps Persister Handlers.
From stdpp Require Import base gmap strings list fin_maps.
From Stdlib Require Import Ascii ZArith Lia.

Open Scope string_scope.
Open Scope list_scope.
Open Scope go_scope.

Definition requireNaturalKey (nk : string) : Outcome GoErr unit :=
  if String.eqb nk "" then Fail (ELeaf "db: shared base natural key resolved empty") else Ret tt.

Section Verbs.
Context {V S D W Arg AE : Type} `{AVOOps V} (env : Env V S D W Arg AE).

Abbreviation Ent := (EntityState V S D).
Abbreviation PM A := (GoM (PWorld W Arg AE * EntityState V S D) GoErr A).
Abbreviation Schema := (RootSchema V D).
Abbreviation Hook := (WriteHook V S D Arg).
Abbreviation w := (env_dialect env).
Abbreviation enc := (d_EncodeArg (wd_d (env_dialect env))).

(** ** Probes of the shared base *)

Definition nilRows {A} : PM A := gpanic "runtime error: invalid memory address or nil pointer dereference".

(** [if rows.Next() { return true, nil }; return false, rows.Err()] *)
Definition anyRow (r : QueryRes) : PM bool :=
  match r with
  | QErr e => gfail e
  | QNil => nilRows
  | QRows (Some _) _ => gret true
  | QRows None err => orFail err;;; gret false
  end.

(** [Next] and then [Err], whatever [Next] said. *)
Definition anyRowChecked (r : QueryRes) : PM bool :=
  match r with
  | QErr e => gfail e
  | QNil => nilRows
  | QRows first err => orFail err;;; gret (bool_decide (is_Some first))
  end.

Definition baseID (base : BaseSchema V D) (x : D) : PM string :=
  nk <- liftO (naturalKey env base x);;
  liftO (requireNaturalKey nk);;;
  gret (env_baseID env nk).

(** [effectiveReferencingRoles]: the declared roles and the registered ones that are
    not among them, by table. *)
Definition effectiveReferencingRoles (base : BaseSchema V D) : list RoleRef :=
  let declared := bs_referencingRoles base in
  let registered := default ∅ (ec_roles (env_cfg env) !! Table (bs_part base)) in
  declared ++
  (snd <$> sortByKey (List.filter (fun r => negb (existsb (fun rr => String.eqb (rr_Table rr) r.1) declared))
                        (map_to_list registered))).

(** Whether one of the roles has a row. *)
Fixpoint anyRole (roles : list RoleRef) (archivedCol : RoleRef -> string) (id : string) : PM bool :=
  match roles with
  | [] => gret false
  | rr :: rest =>
      r <- query env (roleProbeSQL w (rr_Table rr) (rr_ParentIDColumn rr) (archivedCol rr)) [idArg env id];;
      found <- anyRowChecked r;;
      if found then gret true else anyRole rest archivedCol id
  end.

Definition anyRoleRowReferences (base : BaseSchema V D) (id : string) : PM bool :=
  anyRole (effectiveReferencingRoles base) (fun _ => "") id.

Definition anyActiveRole (base : BaseSchema V D) (id : string) : PM bool :=
  anyRole (effectiveReferencingRoles base) rr_ArchivedAtCol id.

Definition findActiveRoleByFK (schema : Schema) (fkCol id : string) : PM bool :=
  r <- query env (roleProbeSQL w (Table (rs_part schema)) fkCol (default "" (archivedAtColumn (rs_part schema)))) [idArg env id];;
  anyRow r.

Definition baseExists (base : BaseSchema V D) (id : string) : PM bool :=
  r <- query env (rowExistsSQL w (Table (bs_part base)) (IDColumn (bs_part base))) [idArg env id];;
  anyRowChecked r.

Definition readBaseRevision (base : BaseSchema V D) (id : string) : PM Z :=
  r <- readRevisionCreatedAt env (Table (bs_part base)) (pt_revision (bs_part base)) "" (IDColumn (bs_part base)) id;;
  gret r.1.

Definition bumpBaseRevision (base : BaseSchema V D) (id : string) : PM unit :=
  if String.eqb (pt_revision (bs_part base)) "" then gret tt
  else execWith env (bumpRevisionSQL w (Table (bs_part base)) (IDColumn (bs_part base)) (pt_revision (bs_part base)))
         [idArg env id].

(** ** Lifecycle of the shared base *)

Definition archiveBaseCascade (base : BaseSchema V D) (archivedCol id : string) (stamp : Z) : PM unit :=
  let part := bs_part base in
  execWith env (archiveBaseSQL w (Table part) archivedCol (IDColumn part) (pt_revision part))
    [enc (timeValue stamp); idArg env id];;;
  forEach (fun bc =>
    match archivedAtColumn (ch_part bc) with
    | None => gret tt
    | Some c => execWith env (archiveCascadeSQL w (Table (ch_part bc)) c (ParentIDColumn (ch_part bc)))
                  [enc (timeValue stamp); idArg env id]
    end) (ChildSchemas (bs_children base)).

Definition unarchiveBaseCascade (base : BaseSchema V D) (archivedCol id : string) : PM unit :=
  let part := bs_part base in
  forEach (fun bc =>
    match archivedAtColumn (ch_part bc) with
    | None => gret tt
    | Some c =>
        execWith env (unarchiveCascadeSQL w (Table (ch_part bc)) c (ParentIDColumn (ch_part bc)) (Table part) archivedCol
                        (IDColumn part)) [idArg env id; idArg env id]
    end) (ChildSchemas (bs_children base));;;
  execWith env (unarchiveBaseSQL w (Table part) archivedCol (IDColumn part) (pt_revision part)) [idArg env id].

(** [baseLifecycleTarget]: the archivable base, its column and its id. *)
Definition baseLifecycleTarget (schema : Schema) : PM (option (BaseSchema V D * string * string)) :=
  match rs_sharedBase schema with
  | None => gret None
  | Some (base, _) =>
      match archivedAtColumn (bs_part base) with
      | None => gret None
      | Some col => e <- source;; id <- baseID base (en_data e);; gret (Some (base, col, id))
      end
  end.

Definition reactivateBaseIfArchived (schema : Schema) : PM Z :=
  target <- baseLifecycleTarget schema;;
  match target with
  | None => gret zeroTime
  | Some (base, col, id) =>
      stamp <- readArchiveStamp env (Table (bs_part base)) col (IDColumn (bs_part base)) id;;
      if isZeroTime stamp then gret zeroTime
      else unarchiveBaseCascade base col id;;; gret stamp
  end.

Definition archiveBaseIfNoActiveRole (schema : Schema) (now : Z) : PM Z :=
  target <- baseLifecycleTarget schema;;
  match target with
  | None => gret zeroTime
  | Some (base, col, id) =>
      active <- anyActiveRole base id;;
      if active then gret zeroTime
      else archiveBaseCascade base col id now;;; gret now
  end.

Definition convergeBaseAfterArchiveWrite (schema : Schema) (eventType : string) (now : Z) : PM Z :=
  if String.eqb eventType "ARCHIVED" then archiveBaseIfNoActiveRole schema now
  else if String.eqb eventType "UNARCHIVED" then reactivateBaseIfArchived schema
  else gret zeroTime.

(** An error of [c] as a value. *)
Definition attempt {A} (c : PM A) : PM (option GoErr) :=
  fun s => match c s with
           | (s', Ret _) => (s', Ret None)
           | (s', Fail e) => (s', Ret (Some e))
           | (s', Panic m) => (s', Panic m)
           end.

(** Delete the base under a savepoint; a foreign key of another table vetoes it. *)
Definition purgeOrphanBase (base : BaseSchema V D) (id : string) : PM bool :=
  exec env SData (wd_Savepoint w sharedBasePurgeSavepoint) [];;;
  err <- attempt
    (forEach (fun bc => execWith env (childDeleteSQL w (Table (ch_part bc)) (ParentIDColumn (ch_part bc))) [idArg env id])
       (ChildSchemas (bs_children base));;;
     execStmt env SData (deleteSQL w (env_isUUID env) (schemaTarget (bs_part base)) (Some (byID id))));;
  match err with
  | Some e =>
      match wd_IsForeignKeyViolation w e with
      | Some _ => exec env SData (wd_RollbackToSavepoint w sharedBasePurgeSavepoint) [];;; gret false
      | None => gfail e
      end
  | None =>
      (match wd_ReleaseSavepoint w sharedBasePurgeSavepoint with
       | [] => gret tt
       | rel => exec env SData rel []
       end);;;
      gret true
  end.

Definition purgePayload (base : BaseSchema V D) (id : string) : Payload :=
  mkPayload {[ IDColumn (bs_part base) := VID (Some (NewID id)) ]} (idsBlock (mkMeta id 0 "" 0 true zeroTime)) ∅ ∅.

Definition convergeBaseAfterHardDelete (schema : Schema) (now : Z) : PM (AuditBundle AE * bool) :=
  match rs_sharedBase schema with
  | None => gret (noBundle, false)
  | Some (base, _) =>
      let wantsPurge := bool_decide (bs_orphanPolicy base = DeleteWhenUnreferenced) in
      if negb wantsPurge && bool_decide (archivedAtColumn (bs_part base) = None) then gret (noBundle, false)
      else
        e <- source;;
        id <- baseID base (en_data e);;
        purged <- (if wantsPurge
                   then referenced <- anyRoleRowReferences base id;;
                        if referenced then gret false else purgeOrphanBase base id
                   else gret false);;
        if purged then
          WriteOutbox env (Table (bs_part base)) "DELETED" id (purgePayload base id);;;
          ab <- BuildAudit env (AuditPurge id) [];;
          WriteAuditRow env (ab_Ev ab);;;
          gret (ab, true)
        else
          archiveBaseIfNoActiveRole schema now;;;
          gret (noBundle, false)
  end.

Definition vetoUnarchiveWithActiveSibling (schema : Schema) (id entityName : string) : PM unit :=
  let part := rs_part schema in
  match rs_sharedBase schema with
  | None => gret tt
  | Some (base, fkCol) =>
      if String.eqb fkCol (IDColumn part) then gret tt
      else
        match archivedAtColumn part with
        | None => gret tt
        | Some archivedCol =>
            e <- source;;
            bid <- baseID base (en_data e);;
            r <- query env (activeSiblingSQL w (Table part) fkCol (IDColumn part) archivedCol) [idArg env bid; idArg env id];;
            found <- anyRow r;;
            if found then gfail (SingleNotificationError entityName (WireFieldOf part (IDColumn part)) EntityAlreadyAddedNotification)
            else gret tt
        end
  end.

Definition guardNaturalKeyImmutable (schema : Schema) (base : BaseSchema V D) (entityName id fkCol bid : string) : PM unit :=
  let part := rs_part schema in
  let immutable := SingleNotificationError entityName (WireFieldOf (bs_part base) (bs_naturalIDCol base)) NaturalIDImmutableNotification in
  if String.eqb fkCol (IDColumn part) then (if String.eqb id bid then gret tt else gfail immutable)
  else
    r <- query env (naturalKeySQL w (Table part) fkCol (IDColumn part)) [idArg env bid; idArg env id];;
    match r with
    | QErr e => gfail e
    | QNil => nilRows
    | QRows None err => orFail err
    | QRows (Some (inl e)) _ => gfail e
    | QRows (Some (inr cells)) err =>
        match cells with
        | CInt matches :: _ => if Z.eqb matches 1 then orFail err else gfail immutable
        | _ => gfail (ELeaf "sql: Scan error")
        end
    end.

Definition upsertSharedBase (base : BaseSchema V D) (id : string) (baseFields : Fields) (exists_ : bool) (now : Z) : PM Z :=
  let part := bs_part base in
  ip <- claimStampedCols part (insertNowColumns part) now;;
  up <- claimStampedCols part (updateNowColumns part) now;;
  if exists_ then
    execStmt env SData (buildUpdatePlan w (env_isUUID env) (schemaTarget part) (Some (byID id)) baseFields up.1 now
                          (pt_revision part) 0);;;
    readBaseRevision base id
  else
    execStmt env SData (buildInsertWithCounters w (Table part) (IDColumn part) id baseFields ip.1 now (pt_revision part));;;
    gret 1%Z.

(** ** Outbox metadata *)

Definition fillBaseMeta (schema : Schema) (meta : outboxMeta) : PM outboxMeta :=
  match rs_sharedBase schema with
  | None => gret meta
  | Some (base, _) =>
      e <- source;;
      nk <- liftO (naturalKey env base (en_data e));;
      if String.eqb nk "" then gret meta
      else
        let id := env_baseID env nk in
        bumpBaseRevision base id;;;
        rev <- readBaseRevision base id;;
        gret (mkMeta (om_ID meta) (om_Revision meta) id rev (om_BasePurged meta) (om_CreatedAt meta))
  end.

(** The row's own revision and creation instant; zero without a revision column. *)
Definition ownRevision (part : Part D) (id : string) : PM (Z * Z) :=
  if String.eqb (pt_revision part) "" then gret (0, zeroTime)%Z
  else readRevisionCreatedAt env (Table part) (pt_revision part) (CreatedAtColumn part) (IDColumn part) id.

Definition outboxMetaFor (schema : Schema) (id : string) : PM outboxMeta :=
  r <- ownRevision (rs_part schema) id;;
  fillBaseMeta schema (mkMeta id r.1 "" 0 false r.2).

(** ** Insert *)

Definition insertMeta (part : Part D) (id : string) (now : Z) : outboxMeta :=
  mkMeta id 1 "" 0 false (insertCreatedAt part now).

Definition insertAggregate (entity : Insertable) (schema : Schema) (hook : Hook) : PM WriteResult :=
  let part := rs_part schema in
  let root := md_aggregate (ins_meta entity) in
  e0 <- source;;
  let rootFields := writeFields part (en_data e0) in
  id <- newWriteID env;;
  inTx env (
    now <- now_ env;;
    FireAfterBegin env hook;;;
    plan <- stampedCols part (insertNowColumns part) now;;
    execStmt env SData (buildInsertWithCounters w (Table part) (IDColumn part) id rootFields plan now (pt_revision part));;;
    writeChildren env root schema id "" now;;;
    e <- source;;
    insertSiblings env (rs_siblings schema) (IDColumn part) (en_data e) id now;;;
    finish env (Table part) "INSERTED" id
      (buildWritePayload env schema root "INSERTED" now noStamps (withStamps rootFields plan now) (insertMeta part id now))
      (AuditInsert (NewID id)) (md_events (ins_meta entity)) hook;;;
    gret (mkWriteResult (NewID id) rootFields)).

Definition insertWithBase (entity : Insertable) (schema : Schema) (hook : Hook) (base : BaseSchema V D) (fkCol : string) :
  PM WriteResult :=
  let part := rs_part schema in
  let root := md_aggregate (ins_meta entity) in
  let entityName := md_entityName (ins_meta entity) in
  e0 <- source;;
  bv <- liftO (sharedBaseValues env base (en_data e0));;
  liftO (requireNaturalKey bv.2);;;
  let bid := env_baseID env bv.2 in
  let sharedPK := String.eqb fkCol (IDColumn part) in
  let roleFields := writeFields part (en_data e0) in
  let roleFields := if sharedPK then roleFields else <[fkCol := VID (Some (NewID bid))]> roleFields in
  inTx env (
    now <- now_ env;;
    FireAfterBegin env hook;;;
    basePreExisted <- baseExists base bid;;
    (if basePreExisted && negb (String.eqb (md_actionName (ins_meta entity)) "GetUpsertable")
     then gfail (ELeaf ("db: " +:+ entityName +:+ " has a SharedBase and the identity already exists"))
     else gret tt);;;
    baseRev <- upsertSharedBase base bid bv.1 basePreExisted now;;
    active <- findActiveRoleByFK schema fkCol bid;;
    (if active : bool
     then gfail (SingleNotificationError entityName (WireFieldOf part (IDColumn part)) EntityAlreadyAddedNotification)
     else gret tt);;;
    id <- (if sharedPK then gret bid else newWriteID env);;
    rp <- claimStampedCols part (insertNowColumns part) now;;
    liftO (RefuseUnclaimedStamps part (stampColumnsLeft (bs_part base) rp.2));;;
    execStmt env SData (buildInsertWithCounters w (Table part) (IDColumn part) id roleFields rp.1 now (pt_revision part));;;
    writeChildren env root schema id bid now;;;
    e <- source;;
    insertSiblings env (rs_siblings schema) (IDColumn part) (en_data e) id now;;;
    reactivateBaseIfArchived schema;;;
    finish env (Table part) "INSERTED" id
      (buildWritePayload env schema root "INSERTED" now noStamps (withStamps roleFields rp.1 now)
         (mkMeta id 1 bid baseRev false (insertCreatedAt part now)))
      (AuditInsert (NewID id)) (md_events (ins_meta entity)) hook;;;
    gret (mkWriteResult (NewID id) roleFields)).

Definition BaseEngine_Insert (entity : Insertable) (schema : Schema) (hook : Hook) : PM WriteResult :=
  match rs_sharedBase schema with
  | Some (base, fkCol) => insertWithBase entity schema hook base fkCol
  | None =>
      if md_aggregate (ins_meta entity) then insertAggregate entity schema hook
      else
        let part := rs_part schema in
        e0 <- source;;
        let fields := writeFields part (en_data e0) in
        id <- newWriteID env;;
        inTx env (
          now <- now_ env;;
          FireAfterBegin env hook;;;
          plan <- stampedCols part (insertNowColumns part) now;;
          execStmt env SData (buildInsertWithCounters w (Table part) (IDColumn part) id fields plan now (pt_revision part));;;
          e <- source;;
          insertSiblings env (rs_siblings schema) (IDColumn part) (en_data e) id now;;;
          finish env (Table part) "INSERTED" id
            (buildWritePayload env schema false "INSERTED" now noStamps (withStamps fields plan now) (insertMeta part id now))
            (AuditInsert (NewID id)) (md_events (ins_meta entity)) hook;;;
          gret (mkWriteResult (NewID id) fields))
  end.

(** ** Archive and unarchive *)

(** One cascade statement per declared child type the root tracks. *)
Definition cascadeChildren (root : bool) (schema : Schema) (id : string) (archive : bool) (cascade : Z) : PM unit :=
  if negb root || (negb archive && isZeroTime cascade) then gret tt
  else
    e <- source;;
    forEach (fun c =>
      match rs_children schema !! c.1 with
      | None => gret tt
      | Some child =>
          let part := ch_part child in
          match archivedAtColumn part, archivedAtColumn (rs_part schema) with
          | None, _ => gret tt
          | Some childCol, rootCol =>
              if archive then
                execWith env (archiveCascadeSQL w (Table part) childCol (ParentIDColumn part))
                  [enc (timeValue cascade); idArg env id]
              else
                match rootCol with
                | None => gret tt
                | Some rootCol =>
                    execWith env (unarchiveCascadeSQL w (Table part) childCol (ParentIDColumn part) (Table (rs_part schema))
                                    rootCol (IDColumn (rs_part schema))) [idArg env id; idArg env id]
                end
          end
      end) (env_iter env (AllAggregateItems (en_ar e))).

Definition expectRoot (schema : Schema) (entityName id : string) (rev : Z) : expectedRow :=
  let part := rs_part schema in
  mkExpected (Table part) entityName (IDColumn part) (WireFieldOf part (IDColumn part)) id rev.

Definition archiveWrite (root : bool) (id : string) (schema : Schema) (hook : Hook) (entityType eventType : string)
  (kind : CascadeStamps -> AuditKind) (evs : list DomainEvent) : PM unit :=
  let part := rs_part schema in
  archivedCol <- liftO (requireArchivedAt part entityType);;
  let archive := String.eqb eventType "ARCHIVED" in
  inTx env (
    now <- now_ env;;
    FireAfterBegin env hook;;;
    (if archive then gret tt else vetoUnarchiveWithActiveSibling schema id entityType);;;
    cascade <- (if archive then gret now else readArchiveStamp env (Table part) archivedCol (IDColumn part) id);;
    e <- source;;
    let fields := <[archivedCol := if archive then timeValue now else VNil]> (writeFields part (en_data e)) in
    cascadeChildren root schema id archive cascade;;;
    rev <- loadedRevision;;
    plan <- stampedCols part (updateNowColumns part) now;;
    st <- liftO (buildUpdatePlan w (env_isUUID env) (schemaTarget part) (Some (byID id)) fields plan now (pt_revision part) rev);;
    execExpectingRow env st (expectRoot schema entityType id rev);;;
    e <- source;;
    applySiblingUpdates env (rs_siblings schema) (IDColumn part) (en_data e) id true;;;
    baseCascade <- convergeBaseAfterArchiveWrite schema eventType now;;
    let stamps := mkStamps cascade baseCascade in
    meta <- outboxMetaFor schema id;;
    finish env (Table part) eventType id (buildWritePayload env schema root eventType now stamps fields meta)
      (kind stamps) evs hook).

Definition BaseEngine_Archive (entity : Archivable) (schema : Schema) (hook : Hook) : PM unit :=
  archiveWrite (md_aggregate (arc_meta entity)) (id_value (arc_id entity)) schema hook (md_entityName (arc_meta entity))
    "ARCHIVED" AuditArchive (md_events (arc_meta entity)).

Definition BaseEngine_Unarchive (entity : Unarchivable) (schema : Schema) (hook : Hook) : PM unit :=
  archiveWrite (md_aggregate (una_meta entity)) (id_value (una_id entity)) schema hook (md_entityName (una_meta entity))
    "UNARCHIVED" AuditUnarchive (md_events (una_meta entity)).

(** ** Update *)

Definition updateAggregate (entity : Updatable) (schema : Schema) (hook : Hook) : PM WriteResult :=
  let part := rs_part schema in
  let root := md_aggregate (upd_meta entity) in
  let id := id_value (upd_id entity) in
  e0 <- source;;
  let rootFields := writeFields part (en_data e0) in
  inTx env (
    now <- now_ env;;
    FireAfterBegin env hook;;;
    rev <- loadedRevision;;
    plan <- stampedCols part (updateNowColumns part) now;;
    st <- liftO (buildUpdatePlan w (env_isUUID env) (schemaTarget part) (Some (byID id)) rootFields plan now (pt_revision part) rev);;
    execExpectingRow env st (expectRoot schema (md_entityName (upd_meta entity)) id rev);;;
    writeChildren env root schema id "" now;;;
    e <- source;;
    applySiblingUpdates env (rs_siblings schema) (IDColumn part) (en_data e) id (upd_partial entity);;;
    meta <- outboxMetaFor schema id;;
    finish env (Table part) "UPDATED" id
      (buildWritePayload env schema root "UPDATED" now noStamps (withStamps rootFields plan now) meta)
      AuditUpdate (md_events (upd_meta entity)) hook;;;
    gret (mkWriteResult (upd_id entity) rootFields)).

Definition updateWithBase (entity : Updatable) (schema : Schema) (hook : Hook) (base : BaseSchema V D) (fkCol : string) :
  PM WriteResult :=
  let part := rs_part schema in
  let root := md_aggregate (upd_meta entity) in
  let entityName := md_entityName (upd_meta entity) in
  let id := id_value (upd_id entity) in
  e0 <- source;;
  let roleFields := writeFields part (en_data e0) in
  bv <- liftO (sharedBaseValues env base (en_data e0));;
  liftO (requireNaturalKey bv.2);;;
  let bid := env_baseID env bv.2 in
  inTx env (
    now <- now_ env;;
    FireAfterBegin env hook;;;
    guardNaturalKeyImmutable schema base entityName id fkCol bid;;;
    rev <- loadedRevision;;
    rp <- claimStampedCols part (updateNowColumns part) now;;
    liftO (RefuseUnclaimedStamps part (stampColumnsLeft (bs_part base) rp.2));;;
    st <- liftO (buildUpdatePlan w (env_isUUID env) (schemaTarget part) (Some (byID id)) roleFields rp.1 now (pt_revision part) rev);;
    execExpectingRow env st (expectRoot schema entityName id rev);;;
    writeChildren env root schema id bid now;;;
    e <- source;;
    applySiblingUpdates env (rs_siblings schema) (IDColumn part) (en_data e) id (upd_partial entity);;;
    baseRev <- upsertSharedBase base bid bv.1 true now;;
    reactivateBaseIfArchived schema;;;
    own <- ownRevision part id;;
    finish env (Table part) "UPDATED" id
      (buildWritePayload env schema root "UPDATED" now noStamps (withStamps roleFields rp.1 now)
         (mkMeta id own.1 bid baseRev false own.2))
      AuditUpdate (md_events (upd_meta entity)) hook;;;
    gret (mkWriteResult (upd_id entity) roleFields)).

Definition BaseEngine_Update (entity : Updatable) (schema : Schema) (hook : Hook) : PM WriteResult :=
  let part := rs_part schema in
  let id := id_value (upd_id entity) in
  if bool_decide (upd_entityMode entity = ModeArchive) then
    archiveWrite (md_aggregate (upd_meta entity)) id schema hook (md_entityName (upd_meta entity)) "ARCHIVED" AuditArchive
      (md_events (upd_meta entity));;;
    gret (mkWriteResult (upd_id entity) ∅)
  else
    match rs_sharedBase schema with
    | Some (base, fkCol) => updateWithBase entity schema hook base fkCol
    | None =>
        if md_aggregate (upd_meta entity) then updateAggregate entity schema hook
        else
          e0 <- source;;
          let fields := writeFields part (en_data e0) in
          inTx env (
            now <- now_ env;;
            FireAfterBegin env hook;;;
            rev <- loadedRevision;;
            plan <- stampedCols part (updateNowColumns part) now;;
            st <- liftO (buildUpdatePlan w (env_isUUID env) (schemaTarget part) (Some (byID id)) fields plan now (pt_revision part) rev);;
            execExpectingRow env st (expectRoot schema (md_entityName (upd_meta entity)) id rev);;;
            e <- source;;
            applySiblingUpdates env (rs_siblings schema) (IDColumn part) (en_data e) id (upd_partial entity);;;
            meta <- outboxMetaFor schema id;;
            finish env (Table part) "UPDATED" id
              (buildWritePayload env schema false "UPDATED" now noStamps (withStamps fields plan now) meta)
              AuditUpdate (md_events (upd_meta entity)) hook;;;
            gret (mkWriteResult (upd_id entity) fields))
    end.

(** ** Delete *)

(** [buildDeletePayload] with its keys. *)
Definition buildDeletePayload (schema : Schema) (id : string) (meta : outboxMeta) (e : Ent) : Payload :=
  let part := rs_part schema in
  let keys := {[ IDColumn part := VID (Some (NewID id)) ]} in
  let keys := match rs_sharedBase schema with
              | Some (base, fkCol) =>
                  if String.eqb fkCol (IDColumn part) then keys
                  else match naturalKey env base (en_data e) with
                       | Ret nk => if String.eqb nk "" then keys else <[fkCol := VID (Some (NewID (env_baseID env nk)))]> keys
                       | _ => keys
                       end
              | None => keys
              end in
  mkPayload keys (idsBlock meta) ∅ ∅.

(** The base's part of a delete's metadata. *)
Definition deleteMeta (schema : Schema) (meta : outboxMeta) : PM outboxMeta :=
  match rs_sharedBase schema with
  | None => gret meta
  | Some (base, _) =>
      e <- source;;
      nk <- liftO (naturalKey env base (en_data e));;
      if String.eqb nk "" then gret meta
      else
        let id := env_baseID env nk in
        rev <- (if om_BasePurged meta then gret 0%Z
                else bumpBaseRevision base id;;; readBaseRevision base id);;
        gret (mkMeta (om_ID meta) (om_Revision meta) id rev (om_BasePurged meta) (om_CreatedAt meta))
  end.

Definition hardDelete (id : string) (schema : Schema) (hook : Hook) (evs : list DomainEvent) : PM unit :=
  let part := rs_part schema in
  inTx env (
    now <- now_ env;;
    FireAfterBegin env hook;;;
    forEach (fun child =>
      let cp := ch_part child in
      forEach (fun sib => execWith env (childSiblingDeleteSQL w (Table sib) (IDColumn cp) (Table cp) (ParentIDColumn cp)) [idArg env id])
        (ch_siblings child);;;
      execWith env (childDeleteSQL w (Table cp) (ParentIDColumn cp)) [idArg env id]) (ChildSchemas (rs_children schema));;;
    deleteSiblings env (rs_siblings schema) (IDColumn part) id;;;
    own <- ownRevision part id;;
    execStmt env SData (deleteSQL w (env_isUUID env) (schemaTarget part) (Some (byID id)));;;
    purge <- convergeBaseAfterHardDelete schema now;;
    meta <- deleteMeta schema (mkMeta id own.1 "" 0 purge.2 own.2);;
    finish env (Table part) "DELETED" id (buildDeletePayload schema id meta) AuditDelete evs hook;;;
    AfterCommit env purge.1).

Definition BaseEngine_Delete (entity : Deletable) (schema : Schema) (hook : Hook) : PM unit :=
  hardDelete (id_value (del_id entity)) schema hook (md_events (del_meta entity)).

End Verbs.

(** ** The repository ([base_repository.go]) *)

(** The text of an error. *)
Fixpoint errorText (e : GoErr) : string :=
  match e with
  | EDeadlineExceeded => "context deadline exceeded"
  | ECarrier _ => "domain validation error"
  | ELeaf t => t
  | EWrap t cause => t +:+ ": " +:+ errorText cause
  | EJoin causes => joinStr "; " (errorText <$> causes)
  end.

Record ConstraintBinding := mkBinding { cb_Notification : Notification; cb_Field : string }.

Definition TranslateUniqueViolation {Arg} (w : WriteDialect Arg) (err : GoErr) (contextName : string)
  (constraints : gmap string ConstraintBinding) : GoErr :=
  match wd_IsUniqueViolation w err ≫= (constraints !!.) with
  | Some b => FieldErrorWithCause contextName (cb_Field b) (errorText err) (cb_Notification b)
  | None => err
  end.

Section Repository.
Context {V S D W Arg AE Ctx : Type} `{AVOOps V}.

Abbreviation PM A := (GoM (PWorld W Arg AE * EntityState V S D) GoErr A).
Abbreviation AfterBeginHook := (Ctx -> HookBody V S D Arg).
Abbreviation BeforeCommitHook := (Ctx -> ID -> HookBody V S D Arg).

(** [AdaptWriteOptions]; the type assertions on context and entity hold by typing. *)
Definition AdaptWriteOptions (ctx : Ctx) (opts : list (option (WriteOption AfterBeginHook BeforeCommitHook))) :
  WriteHook V S D Arg :=
  let '(afterBegin, beforeCommit) := ResolveWriteOptions opts in
  mkWriteHook ((fun f => f ctx) <$> afterBegin) ((fun f => f ctx) <$> beforeCommit).

Record BaseRepository := mkBaseRepository {
  br_env : Ctx -> Env V S D W Arg AE;
  br_contextName : string;
  br_constraints : gmap string ConstraintBinding;
  br_schema : RootSchema V D
}.

Context (r : BaseRepository).

Definition mapErr {A} (ctx : Ctx) (c : PM A) : PM A :=
  fun s => match c s with
           | (s', Fail e) => (s', Fail (TranslateUniqueViolation (env_dialect (br_env r ctx)) e (br_contextName r) (br_constraints r)))
           | x => x
           end.

(** [Scope]: the writer bound to a request. *)
Definition boundWriter (ctx : Ctx) (opts : list (option (WriteOption AfterBeginHook BeforeCommitHook))) :
  Writer V S D (PWorld W Arg AE) :=
  let hook := AdaptWriteOptions ctx opts in
  let env := br_env r ctx in
  mkWriter
    (fun i => res <- mapErr ctx (BaseEngine_Insert env i (br_schema r) hook);; gret (wr_ID res))
    (fun u => mapErr ctx (BaseEngine_Update env u (br_schema r) hook);;; gret tt)
    (fun a => mapErr ctx (BaseEngine_Archive env a (br_schema r) hook))
    (fun u => mapErr ctx (BaseEngine_Unarchive env u (br_schema r) hook))
    (fun d => mapErr ctx (BaseEngine_Delete env d (br_schema r) hook)).

End Repository.
