(* ===== verification/EngineClaims.v ===== *)
(** * Theorems on the five engines

    Upserts bind their arguments in order whatever the engine, and the constraint a
    duplicate-key error names cannot be forged by the duplicated value. *)

From S2P Require Import Prelude Naming GoStrings Notification Errors BaseEntity Criteria CriteriaSql Dialects CriteriaProps CriteriaClaims WriteSchema WriteSql Engines Persister PersisterVerbs.
From stdpp Require Import base gmap strings list fin_maps.
From Stdlib Require Import Ascii ZArith Lia ZifyBool.

Open Scope string_scope.
Open Scope list_scope.

(** ** Upserts *)

Lemma places_separator {A} (l : list A) ts : places ((match l with [] => [] | _ => [TKw ", "] end) ++ ts) = places ts.
Proof. by destruct l. Qed.

Lemma places_sourceList quote n cols ts : sourceList quote n cols = Some ts -> places ts = seq n (length cols).
Proof.
  revert n ts. induction cols as [|c cols IH]; intros n ts; simpl; [by intros [= <-]|].
  intros (q & _ & (r & Hr%IH & [= <-])%bind_Some)%bind_Some.
  change (n :: places ((match cols with [] => [] | _ => [TKw ", "] end) ++ r) = n :: seq (S n) (length cols)).
  by rewrite places_separator, Hr.
Qed.

Lemma places_rowList quote row cols ts : rowList quote row cols = Some ts -> places ts = [].
Proof.
  revert ts. induction cols as [|c cols IH]; intros ts; simpl; [by intros [= <-]|].
  intros (q & _ & (r & Hr%IH & [= <-])%bind_Some)%bind_Some.
  change (places ((match cols with [] => [] | _ => [TKw ", "] end) ++ r) = []). by rewrite places_separator.
Qed.

Lemma places_onList quote test keys ts :
  (forall q, places (test q) = []) -> onList quote test keys = Some ts -> places ts = [].
Proof.
  intros Ht. revert ts. induction keys as [|k keys IH]; intros ts; simpl; [by intros [= <-]|].
  intros (q & _ & (r & Hr%IH & [= <-])%bind_Some)%bind_Some. rewrite !places_app, Ht, Hr. by destruct keys.
Qed.

Lemma places_mergeSets quote n sets ts : mergeSets quote n sets = Some ts -> places ts = seq (S n) (setArgs sets).
Proof.
  revert n ts. induction sets as [|s sets IH]; intros n ts; simpl; [by intros [= <-]|].
  intros (c & _ & (r & Hr%IH & [= <-])%bind_Some)%bind_Some.
  match goal with |- places (_ :: _ :: ?rhs ++ _) = _ =>
    change (places (rhs ++ (match sets with [] => [] | _ => [TKw ", "] end) ++ r) = seq (S n) (setArgs (s :: sets))) end.
  rewrite places_app, places_separator, Hr. unfold setArgs. rewrite filter_cons. by destruct (us_Mode s).
Qed.

Lemma places_mergeArms quote cols sets ts :
  mergeArms quote cols sets = Some ts -> places ts = seq (S (length cols)) (setArgs sets).
Proof.
  intros (m & Hm & (cs & Hcs%places_identList & (vs & Hvs%places_rowList & [= <-])%bind_Some)%bind_Some)%bind_Some.
  assert (places m = seq (S (length cols)) (setArgs sets)) as <-.
  { destruct sets as [|s sets]; [by injection Hm as <-|]. by apply bind_Some in Hm as (ss & Hss%places_mergeSets & [= <-]). }
  rewrite places_app. change (places m ++ places (cs ++ [TClose; TKw " VALUES "; TOpen] ++ vs ++ [TClose]) = places m).
  by rewrite !places_app, Hcs, Hvs, !app_nil_r.
Qed.

(** An upsert builder of some engine. *)
Inductive isUpsertBuilder : (string -> list string -> list string -> list UpsertSet -> option (list Tok)) -> Prop :=
| upsert_postgres : isUpsertBuilder pgBuildUpsert
| upsert_mysql : isUpsertBuilder mysqlBuildUpsert
| upsert_sqlite : isUpsertBuilder sqliteBuildUpsert
| upsert_oracle : isUpsertBuilder oracleBuildUpsert
| upsert_sqlserver : isUpsertBuilder sqlserverBuildUpsert.

Lemma places_onConflict quote proposed table cols keys sets ts :
  (head ← insertHead quote table cols;
   ks ← identList quote keys;
   let b := head ++ TKw " ON CONFLICT " :: TOpen :: ks ++ [TClose] in
   match sets with
   | [] => Some (b ++ [TKw " DO NOTHING"])
   | _ => ss ← setList quote proposed table (length cols) sets; Some (b ++ TKw " DO UPDATE SET " :: ss)
   end) = Some ts ->
  places ts = seq 1 (length cols) ++ seq (S (length cols)) (setArgs sets).
Proof.
  intros (h & Eh%places_insertHead & (k & Ek%places_identList & H)%bind_Some)%bind_Some.
  assert (Hb : places (h ++ TKw " ON CONFLICT " :: TOpen :: k ++ [TClose]) = seq 1 (length cols)).
  { rewrite places_app, Eh. change (seq 1 (length cols) ++ places (k ++ [TClose]) = seq 1 (length cols)).
    by rewrite places_app, Ek, app_nil_r. }
  destruct sets as [|s sets]; [injection H as <-; by rewrite places_app, Hb|].
  apply bind_Some in H as (ss & Es%places_setList & H). injection H as <-. by rewrite places_app, Hb, <- Es.
Qed.

(** The upsert of every engine binds one value per inserted column and then one per
    assignment that carries its own argument: its placeholders are, as they stand in
    the text, exactly [1 .. columns + own arguments]. *)
Theorem upserts_bind_in_order build table cols keys sets ts :
  isUpsertBuilder build -> build table cols keys sets = Some ts -> places ts = seq 1 (length cols + setArgs sets).
Proof.
  rewrite seq_app. change (1 + length cols)%nat with (S (length cols)).
  assert (Hm : forall src on arms quote test tail, sourceList quote 1 cols = Some src -> onList quote test keys = Some on ->
    (forall q, places (test q) = []) -> mergeArms quote cols sets = Some arms -> places tail = [] ->
    places (src ++ tail ++ on ++ arms) = seq 1 (length cols) ++ seq (S (length cols)) (setArgs sets)).
  { intros src on arms quote test tail Hs%places_sourceList Ho Ht Ha%places_mergeArms Htail.
    by rewrite !places_app, Hs, Htail, (places_onList _ _ _ _ Ht Ho), Ha. }
  intros [] H.
  - by apply places_onConflict in H.
  - apply bind_Some in H as (h & Eh%places_insertHead & H). rewrite <- Eh.
    destruct sets as [|s sets].
    + apply bind_Some in H as (c & _ & (q & _ & [= <-])%bind_Some). by rewrite !places_app, app_nil_r.
    + apply bind_Some in H as (ss & Es%places_setList & [= <-]). by rewrite !places_app, app_nil_r, Es.
  - by apply places_onConflict in H.
  - apply bind_Some in H as (t & _ & (src & Hsrc & (on & Hon & (arms & Ha & [= <-])%bind_Some)%bind_Some)%bind_Some).
    rewrite <- (Hm src on arms _ _ [TKw " FROM dual"; TClose; TKw " source ON "; TOpen] Hsrc Hon (fun q => eq_refl) Ha eq_refl).
    change (places (src ++ [TKw " FROM dual"; TClose; TKw " source ON "; TOpen] ++ on ++ [TClose] ++ arms) =
      places (src ++ [TKw " FROM dual"; TClose; TKw " source ON "; TOpen] ++ on ++ arms)). by rewrite !places_app.
  - apply bind_Some in H as (t & _ & (src & Hsrc & (on & Hon & (arms & Ha & [= <-])%bind_Some)%bind_Some)%bind_Some).
    rewrite <- (Hm src on arms _ _ [TClose; TKw " AS source ON "] Hsrc Hon (fun q => eq_refl) Ha eq_refl).
    change (places (src ++ [TClose; TKw " AS source ON "] ++ on ++ arms ++ [TKw ";"]) =
      places (src ++ [TClose; TKw " AS source ON "] ++ on ++ arms)). by rewrite !places_app, app_nil_r.
Qed.

(** ** Driver messages *)

Lemma identRune_not c code : identRune c = true -> identRune (ascii_of_nat code) = false -> isByte code c = false.
Proof.
  intros Hc Hn. unfold isByte. destruct (Nat.eqb_spec (nat_of_ascii c) code) as [<-|]; [|done].
  by rewrite ascii_nat_embedding, Hc in Hn.
Qed.

Lemma safe_all name p : SafeIdentifier name = true -> (forall c, identRune c = true -> p c = true) -> allRunes p name = true.
Proof.
  intros [_ Hn]%andb_true_iff Hp. induction name as [|c name IH]; [done|]. rewrite allRunes_cons in *.
  apply andb_true_iff in Hn as [Hc Hn]. by rewrite Hp, IH.
Qed.

(** An identifier has none of the bytes outside the allowlist. *)
Lemma safe_lacks name b : SafeIdentifier name = true -> identRune b = false -> lacks b name.
Proof. intros Hn Hb. apply safe_all; [done|]. intros c Hc. destruct (Ascii.eqb_spec c b) as [->|]; [congruence|done]. Qed.

Lemma nameAfter_lacks b code name rest :
  nat_of_ascii b = code -> lacks b name -> nameAfter (Some (name +:+ String b rest)) code = name.
Proof. intros <- Hn. cbn [nameAfter]. unfold before. by rewrite beforeByte_lacks. Qed.

(** ** The constraint of a duplicate *)

Section Violations.
Context (asDriver : GoErr -> option DriverErr) (isUUID : string -> bool) (uuidText clock : string -> string).

Definition mysqlEngine : WriteDialect SqlArg :=
  mysqlWriteDialect isUUID uuidText (mysqlIsUniqueViolation asDriver) (mysqlIsForeignKeyViolation asDriver).

(** The duplicate-key errors the servers document, with the constraint they name;
    [value], [detail] and [object] are texts of the request or of the catalog. *)
Inductive duplicateError : WriteDialect SqlArg -> DriverErr -> string -> Prop :=
| mysql_duplicate value table index :
    SafeIdentifier table = true -> SafeIdentifier index = true ->
    duplicateError mysqlEngine
      (mkDriverErr 1062 ("Duplicate entry '" +:+ value +:+ "' for key '" +:+ table +:+ "." +:+ index +:+ "'")) index
| mysql_duplicate_bare value index :
    SafeIdentifier index = true ->
    duplicateError mysqlEngine (mkDriverErr 1062 ("Duplicate entry '" +:+ value +:+ "' for key '" +:+ index +:+ "'")) index
| sqlserver_constraint name detail :
    SafeIdentifier name = true ->
    duplicateError (sqlserverWriteDialect asDriver isUUID uuidText)
      (mkDriverErr 2627 ("Violation of UNIQUE KEY constraint '" +:+ name +:+ "'" +:+ detail)) name
| sqlserver_index object name detail :
    lacks " " object -> SafeIdentifier name = true ->
    duplicateError (sqlserverWriteDialect asDriver isUUID uuidText)
      (mkDriverErr 2601 ("Cannot insert duplicate key row in object '" +:+ object +:+ "' with unique index '" +:+ name +:+ "'" +:+ detail))
      name
| oracle_constraint schema upper detail :
    SafeIdentifier schema = true -> SafeIdentifier upper = true ->
    duplicateError (oracleWriteDialect asDriver isUUID uuidText clock)
      (mkDriverErr 1 ("ORA-00001: unique constraint (" +:+ schema +:+ "." +:+ upper +:+ ") violated" +:+ detail))
      (mapBytes toLowerRune upper)
| sqlite_columns table column :
    SafeIdentifier table = true -> SafeIdentifier column = true ->
    duplicateError (sqliteWriteDialect asDriver clock)
      (mkDriverErr 2067 ("constraint failed: UNIQUE constraint failed: " +:+ table +:+ "." +:+ column +:+ " (2067)"))
      (table +:+ "." +:+ column).

Lemma key_after_value value key :
  lacks " " key -> afterLast "for key '" ("Duplicate entry '" +:+ value +:+ "' for key '" +:+ key +:+ "'") = Some (key +:+ "'").
Proof using.
  intros Hk. apply afterLast_app, afterLast_app. apply (afterLast_app _ "' "). cbn [afterLast].
  assert (Hn : afterLast "for key '" (key +:+ "'") = None).
  { by apply (afterLast_stuck "for" " " "key '" key "'" ""). }
  change ("for key '" +:+ key +:+ "'") with
    (String "f" (String "o" (String "r" (String " " (String "k" (String "e" (String "y" (String " " (String "'" (key +:+ "'")))))))))).
  cbn [afterLast]. rewrite Hn. cbn. destruct (key +:+ "'"); done.
Qed.

Lemma violated_name w e name err :
  duplicateError w e name -> asDriver err = Some e -> wd_IsUniqueViolation w err = Some name.
Proof using.
  intros Hd He. destruct Hd as [value table index Ht Hi|value index Hi|name detail Hn|object name detail Ho Hn
    |schema upper detail Hs Hu|table column Ht Hc]; cbn [wd_IsUniqueViolation mysqlEngine mysqlWriteDialect
      sqlserverWriteDialect oracleWriteDialect sqliteWriteDialect]; unfold mysqlIsUniqueViolation, sqlserverIsUniqueViolation,
      oracleIsUniqueViolation, sqliteIsUniqueViolation, violation; rewrite He; cbn [de_number de_message existsb Z.eqb Pos.eqb orb]; f_equal.
  - unfold mysqlUniqueName. cbn [de_message].
    assert (Hk : forall b, identRune b = false -> b <> "."%char -> lacks b (table +:+ "." +:+ index)).
    { intros b Hb Hdot. apply lacks_app; [by apply safe_lacks|]. apply lacks_cons. split; [done|]. by apply safe_lacks. }
    replace (table +:+ "." +:+ index +:+ "'") with ((table +:+ "." +:+ index) +:+ "'") by by rewrite !string_app_assoc.
    rewrite key_after_value, (nameAfter_lacks "'") by by try apply Hk.
    unfold bareName. change ("." +:+ index) with (String "." index).
    by rewrite (afterLast_byte "." table index) by by apply safe_lacks.
  - unfold mysqlUniqueName. cbn [de_message]. rewrite key_after_value, (nameAfter_lacks "'") by by try apply safe_lacks.
    unfold bareName. by rewrite afterLast_lacks by by apply safe_lacks.
  - unfold sqlserverUniqueName. cbn [de_number de_message Z.eqb Pos.eqb].
    assert (afterFirst "constraint '" ("Violation of UNIQUE KEY constraint '" +:+ name +:+ "'" +:+ detail) = Some (name +:+ "'" +:+ detail)) as ->.
    { cbn. by destruct (name +:+ "'" +:+ detail). }
    by apply (nameAfter_lacks "'"); [|apply safe_lacks].
  - unfold sqlserverUniqueName. cbn [de_number de_message Z.eqb Pos.eqb].
    assert (Hm : afterFirst "unique index '" ("Cannot insert duplicate key row in object '" +:+ object +:+
      "' with unique index '" +:+ name +:+ "'" +:+ detail) = Some (name +:+ "'" +:+ detail)).
    { transitivity (afterFirst "unique index '" (object +:+ "' with unique index '" +:+ name +:+ "'" +:+ detail)); [done|].
      etransitivity; [by apply (afterFirst_stuck "unique" " " "index '" object "'" (" with unique index '" +:+ name +:+ "'" +:+ detail))|].
      cbn. by destruct (name +:+ "'" +:+ detail). }
    rewrite Hm. by apply (nameAfter_lacks "'"); [|apply safe_lacks].
  - unfold extractConstraintName.
    assert (Hm : afterFirst "constraint (" ("ORA-00001: unique constraint (" +:+ schema +:+ "." +:+ upper +:+ ") violated" +:+ detail) =
      Some ((schema +:+ "." +:+ upper) +:+ ") violated" +:+ detail)).
    { rewrite !string_app_assoc. cbn. by destruct (schema +:+ "." +:+ upper +:+ ") violated" +:+ detail). }
    rewrite Hm. change 41%nat with (nat_of_ascii ")").
    change (") violated" +:+ detail) with (String ")" (" violated" +:+ detail)).
    rewrite beforeByte_lacks by (apply lacks_app; [by apply safe_lacks|]; apply lacks_cons; split; [done|by apply safe_lacks]).
    change ("." +:+ upper) with (String "." upper).
    rewrite (afterFirst_byte "." schema upper) by by apply safe_lacks. cbn [default].
    rewrite trim_clean; [done|]. apply (safe_all upper); [done|]. intros c Hrune. by rewrite (identRune_not c dquote).
  - unfold uniqueColumnList.
    assert (Hm : afterFirst "UNIQUE constraint failed: " ("constraint failed: UNIQUE constraint failed: " +:+ table +:+ "." +:+ column +:+ " (2067)") =
      Some ((table +:+ "." +:+ column) +:+ " (2067)")).
    { rewrite !string_app_assoc. cbn. by destruct (table +:+ "." +:+ column +:+ " (2067)"). }
    rewrite Hm, beforeLast_app by done. cbn [default]. unfold id. apply trimSpace_solid.
    assert (Hs : forall c, identRune c = true -> solid c = true).
    { intros c Hrune. unfold solid, isSpace, identRune in *. cbv zeta in *. lia. }
    apply allRunes_concat; [by apply safe_all|]. apply (allRunes_concat _ "."); [done|by apply safe_all].
Qed.

(** C31: A duplicate-key error is answered with the notification bound to the constraint the
    server names: no duplicated value, and no text the server adds after the name, can
    make it another one. *)
Theorem violated_constraint_cannot_be_forged w e name err contextName constraints b :
  duplicateError w e name -> asDriver err = Some e -> constraints !! name = Some b ->
  TranslateUniqueViolation w err contextName constraints =
    FieldErrorWithCause contextName (cb_Field b) (errorText err) (cb_Notification b).
Proof using.
  intros Hd He Hb. unfold TranslateUniqueViolation. rewrite (violated_name w e name err Hd He). cbn. by rewrite Hb.
Qed.

End Violations.

(** ** Witnesses *)

Lemma upserts_bind_in_order_witness :
  exists ts, sqlserverBuildUpsert "orders" ["id"; "status"; "version"] ["id"]
      [mkUpsertSet "status" UpsertSetNew ""; mkUpsertSet "version" UpsertSetBump ""; mkUpsertSet "seen" UpsertSetArg ""] = Some ts /\
    sqlText (sqlserverDialect (fun _ => true) (fun x => x)) ts =
      "MERGE [orders] WITH (HOLDLOCK) AS target USING (SELECT @p1 AS [id], @p2 AS [status], @p3 AS [version]) AS source ON target.[id] = source.[id] WHEN MATCHED THEN UPDATE SET [status] = source.[status], [version] = target.[version] + 1, [seen] = @p4 WHEN NOT MATCHED THEN INSERT ([id], [status], [version]) VALUES (source.[id], source.[status], source.[version]);" /\
    places ts = [1; 2; 3; 4].
Proof.
  eexists. split; [vm_compute; reflexivity|]. split; [vm_compute; reflexivity|].
  by apply (upserts_bind_in_order sqlserverBuildUpsert "orders" ["id"; "status"; "version"] ["id"]
    [mkUpsertSet "status" UpsertSetNew ""; mkUpsertSet "version" UpsertSetBump ""; mkUpsertSet "seen" UpsertSetArg ""]);
    [constructor|vm_compute].
Defined.

(** A duplicated value that spells out another key. *)
Definition crafted : DriverErr :=
  mkDriverErr 1062 ("Duplicate entry '" +:+ "x' for key 'uniq_admin" +:+ "' for key '" +:+ "people" +:+ "." +:+ "uniq_email" +:+ "'").

Lemma violated_constraint_cannot_be_forged_witness :
  let b := mkBinding SchemaViolationNotification "Email" in
  TranslateUniqueViolation (mysqlEngine (fun _ => Some crafted) (fun _ => true) (fun x => x)) (ELeaf "duplicate") "Person"
    {["uniq_email" := b]} = FieldErrorWithCause "Person" "Email" "duplicate" (cb_Notification b).
Proof.
  intros b. apply (violated_constraint_cannot_be_forged (fun _ => Some crafted) (fun _ => true) (fun x => x) (fun x => x)
    _ crafted "uniq_email" (ELeaf "duplicate") "Person" {["uniq_email" := b]} b).
  - by apply mysql_duplicate.
  - reflexivity.
  - reflexivity.
Defined.
