(* ===== verification/PersisterProps.v ===== *)
(** * Lemmas on the persister

    What each part of a write adds to the trace: [quiet] parts issue well-formed
    statements inside the transaction and no outbox row. *)

From S2P Require Import Prelude Naming Notification Errors BaseEntity Aggregate Entity Criteria CriteriaSql Dialects CriteriaProps Queries WriteSchema WriteSql WriteSqlProps Persister Handlers PersisterVerbs.
From stdpp Require Import base gmap strings list fin_maps.
From Stdlib Require Import Ascii ZArith Lia.

Open Scope string_scope.
Open Scope list_scope.
Open Scope go_scope.

Section Props.
Context {V S D W Arg AE : Type} `{AVOOps V} (env : Env V S D W Arg AE).
Context `{!WriteDialectLaws (env_dialect env)}.

Abbreviation Ev := (Event Arg AE).
Abbreviation St := (PWorld W Arg AE * EntityState V S D)%type.
Abbreviation PM A := (GoM (PWorld W Arg AE * EntityState V S D) GoErr A).
Abbreviation gd := (good (wd_d (env_dialect env))).

(** ** Events *)

(** A statement of an open transaction. *)
Definition inside (e : Ev) : Prop :=
  match e with EvExec _ _ _ _ | EvCount _ _ _ | EvQuery _ _ _ _ => True | _ => False end.

(** What the engine does once a transaction is durable. *)
Definition afterwards (e : Ev) : Prop := match e with EvEcho _ | EvPublish _ => True | _ => False end.

(** A statement the framework issues is well formed; a hook's is its own business. *)
Definition wellFormed (e : Ev) : Prop :=
  match e with
  | EvExec site sql args _ | EvQuery site sql args _ => site <> SHook -> gd 0 [] sql args
  | EvCount sql args _ => gd 0 [] sql args
  | _ => True
  end.

Definition noOutbox (e : Ev) : Prop := match e with EvExec SOutbox _ _ _ => False | _ => True end.

Definition quiet (e : Ev) : Prop := inside e /\ wellFormed e /\ noOutbox e.

(** ** Growth of the trace *)

Definition grows (P : Ev -> Prop) : relation St :=
  fun s s' => exists l, pw_trace s'.1 = pw_trace s.1 ++ l /\ Forall P l.

#[export] Instance grows_preorder P : PreOrder (grows P).
Proof.
  split.
  - intros s. exists []. split; [by rewrite app_nil_r|constructor].
  - intros s1 s2 s3 (l1 & E1 & H1) (l2 & E2 & H2). exists (l1 ++ l2). rewrite E2, E1, app_assoc. by split; [|apply Forall_app].
Qed.

Lemma grows_weaken (P Q : Ev -> Prop) s s' : (forall e, P e -> Q e) -> grows P s s' -> grows Q s s'.
Proof. intros HPQ (l & E & Hl). exists l. split; [done|]. by eapply Forall_impl. Qed.

Abbreviation quietly c := (gmono (grows quiet) c).

Section Generic.
Context (P : Ev -> Prop).

Lemma call_grows {R} (op : W -> W * R) ev : (forall r, P (ev r)) -> gmono (grows P) (call (V := V) (S := S) (D := D) op ev).
Proof.
  intros He [p e]. unfold call. simpl. destruct (op (pw_world p)) as [x r]. exists [ev r]. by split; [|apply Forall_singleton].
Qed.

Lemma silent_grows {R} (op : W -> W * R) : gmono (grows P) (silent (V := V) (S := S) (D := D) op).
Proof. intros [p e]. unfold silent. simpl. destruct (op (pw_world p)) as [x r]. exists []. by rewrite app_nil_r. Qed.

Lemma liftO_grows {A} (r : Outcome GoErr A) : gmono (grows P) (liftO r).
Proof. intros s. reflexivity. Qed.

Lemma orFail_grows err : gmono (grows P) (orFail err).
Proof. intros s. destruct err; reflexivity. Qed.

Lemma orFailSum_grows {A} (r : GoErr + A) : gmono (grows P) (orFailSum r).
Proof. intros s. destruct r; reflexivity. Qed.

Lemma source_grows : gmono (grows P) source.
Proof. intros s. reflexivity. Qed.

Lemma onSource_grows f : gmono (grows P) (onSource f).
Proof. intros s. exists []. by rewrite app_nil_r. Qed.

Lemma forEach_grows {A} (f : A -> PM unit) l : (forall x, gmono (grows P) (f x)) -> gmono (grows P) (forEach f l).
Proof.
  intros Hf. induction l as [|x l IH]; simpl; [apply gmono_ret, _|]. by apply gmono_bind; [apply _|apply Hf|].
Qed.

Lemma attempt_grows {A} (c : PM A) : gmono (grows P) c -> gmono (grows P) (attempt c).
Proof. intros Hc s. specialize (Hc s). unfold attempt. by destruct (c s) as [s' [a|e|m]]. Qed.

Lemma lifted_grows {A B} (r : Outcome GoErr A) (k : A -> PM B) :
  (forall a, r = Ret a -> gmono (grows P) (k a)) -> gmono (grows P) (gbind (liftO r) k).
Proof. intros Hk s. unfold gbind, liftO. destruct r as [a|e|m]; [by apply Hk|reflexivity|reflexivity]. Qed.

End Generic.

#[local] Hint Resolve silent_grows liftO_grows orFail_grows orFailSum_grows source_grows onSource_grows : omnicore.

(** Close a computation made of lemmas in the database, returns and branches. *)
Ltac quietly_step :=
  match goal with
  | |- gmono _ (gret _) => apply gmono_ret, _
  | |- gmono _ (gfail _) => apply gmono_fail, _
  | |- gmono _ (gpanic _) => apply gmono_panic, _
  | |- gmono _ (forEach _ _) => apply forEach_grows; intros
  | |- gmono _ (gbind (liftO _) _) => apply lifted_grows; intros
  | |- gmono _ (gbind _ _) => apply gmono_bind; [apply _| |intros]
  | |- gmono _ (let '(_, _) := ?x in _) => destruct x
  | |- gmono _ (match ?x with _ => _ end) => destruct x eqn:?
  | |- gmono _ (onData _) => apply onSource_grows
  | |- _ => solve [eauto with omnicore]
  end.
Ltac quietly_ := cbv zeta; repeat quietly_step.

(** ** Statements *)

Lemma exec_quiet sql args : gd 0 [] sql args -> quietly (exec env SData sql args).
Proof. intros Hg. unfold exec. quietly_. apply call_grows. intros r. split_and!; [exact I|intros _; exact Hg|exact I]. Qed.

Lemma execStmt_quiet st : (forall ts args, st = Ret (ts, args) -> gd 0 [] ts args) -> quietly (execStmt env SData st).
Proof. intros Hg. unfold execStmt. apply lifted_grows. intros [ts args] E. by apply exec_quiet, Hg. Qed.

Lemma execWith_quiet st args : (forall ts, st = Ret ts -> gd 0 [] ts args) -> quietly (execWith env st args).
Proof. intros Hg. unfold execWith. apply lifted_grows. intros ts E. by apply exec_quiet, Hg. Qed.

Lemma query_quiet st args : (forall ts, st = Ret ts -> gd 0 [] ts args) -> quietly (query env st args).
Proof. intros Hg. unfold query. apply lifted_grows. intros ts E. apply call_grows. intros r. split_and!; [done| |done]. intros _. by apply Hg. Qed.

Lemma expecting_quiet st row : gd 0 [] st.1 st.2 -> quietly (execExpectingRow env st row).
Proof.
  intros Hg. unfold execExpectingRow, rowExists. quietly_; [by apply call_grows|].
  apply query_quiet. intros ts. by apply rowExistsSQL_good.
Qed.

(** The builders, for [eauto]. *)
#[local] Hint Resolve childDeleteSQL_good childSiblingDeleteSQL_good archiveCascadeSQL_good unarchiveCascadeSQL_good rowExistsSQL_good
  archiveStampSQL_good revisionSQL_good roleProbeSQL_good activeSiblingSQL_good naturalKeySQL_good archiveBaseSQL_good
  unarchiveBaseSQL_good bumpRevisionSQL_good buildInsert_good buildUpdatePlan_good archiveSQL_good deleteSQL_good
  buildSiblingUpsert_good : omnicore.
#[local] Hint Resolve exec_quiet execStmt_quiet execWith_quiet query_quiet : omnicore.

(** ** The parts of a write *)

Lemma newWriteID_quiet : quietly (newWriteID env).
Proof. unfold newWriteID. quietly_. Qed.

Lemma now_quiet : quietly (now_ env).
Proof.
  unfold now_. quietly_. apply query_quiet. intros ts [= <-]. apply clockSQL_good, _.
Qed.

Lemma runHook_quiet b : quietly (runHook env b).
Proof.
  induction b as [err|m|k IH|f b IH|sql args k IH|sql args k IH]; simpl; quietly_; apply call_grows; intros r; by split_and!.
Qed.

#[local] Hint Resolve newWriteID_quiet now_quiet runHook_quiet : omnicore.

Lemma FireAfterBegin_quiet hook : quietly (FireAfterBegin env hook).
Proof. unfold FireAfterBegin. quietly_. Qed.

Lemma FireBeforeCommit_quiet id hook : quietly (FireBeforeCommit env id hook).
Proof. unfold FireBeforeCommit. quietly_. Qed.

Lemma BuildAudit_quiet kind evs : quietly (BuildAudit env kind evs).
Proof. unfold BuildAudit. quietly_. Qed.

Lemma auditArgs_length (r : AuditRow Arg) : length (auditArgs r) = 12%nat.
Proof. by destruct r. Qed.

Lemma WriteAuditRow_quiet ev : quietly (WriteAuditRow env ev).
Proof.
  unfold WriteAuditRow, InsertAuditEvent. quietly_. apply call_grows. intros r. split_and!; [done| |done]. intros _.
  apply auditSQL_good. simpl. f_equal. apply auditArgs_length.
Qed.

Lemma insertSiblings_quiet {X} (l : list (Part X)) o x id now : quietly (insertSiblings env l o x id now).
Proof. unfold insertSiblings, buildInsert. quietly_. Qed.

Lemma deleteSibling_quiet {X} (s : Part X) o id : quietly (deleteSibling env s o id).
Proof. unfold deleteSibling. quietly_. Qed.

#[local] Hint Resolve FireAfterBegin_quiet FireBeforeCommit_quiet BuildAudit_quiet WriteAuditRow_quiet insertSiblings_quiet
  deleteSibling_quiet : omnicore.

Lemma applySiblingUpdates_quiet {X} (l : list (Part X)) o x id p : quietly (applySiblingUpdates env l o x id p).
Proof. unfold applySiblingUpdates. quietly_. Qed.

Lemma deleteSiblings_quiet {X} (l : list (Part X)) o id : quietly (deleteSiblings env l o id).
Proof. unfold deleteSiblings. quietly_. Qed.

Lemma readRevisionCreatedAt_quiet t r c p id : quietly (readRevisionCreatedAt env t r c p id).
Proof. unfold readRevisionCreatedAt. quietly_. Qed.

Lemma readArchiveStamp_quiet t c p id : quietly (readArchiveStamp env t c p id).
Proof. unfold readArchiveStamp. quietly_. Qed.

Lemma claimStampedCols_quiet s cols now : quietly (claimStampedCols s cols now).
Proof. unfold claimStampedCols. quietly_. Qed.

#[local] Hint Resolve applySiblingUpdates_quiet deleteSiblings_quiet readRevisionCreatedAt_quiet readArchiveStamp_quiet
  claimStampedCols_quiet : omnicore.

Lemma stampedCols_quiet s cols now : quietly (stampedCols s cols now).
Proof. unfold stampedCols. quietly_. Qed.

Lemma stampedChildCols_quiet c root item cols now : quietly (stampedChildCols env c root item cols now).
Proof. unfold stampedChildCols. quietly_. Qed.

#[local] Hint Resolve stampedCols_quiet stampedChildCols_quiet : omnicore.

Lemma expecting_stmt_quiet st row : (forall ts args, st = (ts, args) -> gd 0 [] ts args) -> quietly (execExpectingRow env st row).
Proof. intros Hg. apply expecting_quiet. destruct st. by apply Hg. Qed.

(** An UPDATE of a plan, checked for its row. *)
Ltac expects :=
  match goal with
  | E : buildUpdatePlan _ _ _ _ _ _ _ _ _ = Ret ?st |- gmono _ (execExpectingRow _ ?st _) =>
      apply expecting_quiet; destruct st as [?ts ?args]; eapply buildUpdatePlan_good; [apply _|exact E]
  end.

Lemma insertChild_quiet c item id now : quietly (insertChild env c item id now).
Proof. unfold insertChild. quietly_. Qed.

Lemma updateChild_quiet c item now : quietly (updateChild env c item now).
Proof. unfold updateChild. quietly_. expects. Qed.

Lemma removeChild_quiet c item now : quietly (removeChild env c item now).
Proof. unfold removeChild, archiveChild. quietly_. Qed.

#[local] Hint Resolve insertChild_quiet updateChild_quiet removeChild_quiet : omnicore.

Lemma writeChild_quiet c fk now it : quietly (writeChild env c fk now it).
Proof. unfold writeChild. quietly_. Qed.

#[local] Hint Resolve writeChild_quiet : omnicore.

Lemma writeChildren_quiet root schema id bid now : quietly (writeChildren env root schema id bid now).
Proof. unfold writeChildren. quietly_. Qed.

#[local] Hint Resolve writeChildren_quiet : omnicore.

(** ** The shared base *)

Lemma anyRow_quiet r : quietly (anyRow r).
Proof. unfold anyRow, nilRows. quietly_. Qed.

Lemma anyRowChecked_quiet r : quietly (anyRowChecked r).
Proof. unfold anyRowChecked, nilRows. quietly_. Qed.

Lemma baseID_quiet base x : quietly (baseID env base x).
Proof. unfold baseID. quietly_. Qed.

#[local] Hint Resolve anyRow_quiet anyRowChecked_quiet baseID_quiet : omnicore.

Lemma anyRole_quiet roles c id : quietly (anyRole env roles c id).
Proof. induction roles as [|rr roles IH]; simpl; quietly_. Qed.

#[local] Hint Resolve anyRole_quiet : omnicore.

Lemma baseExists_quiet base id : quietly (baseExists env base id).
Proof. unfold baseExists. quietly_. Qed.

Lemma findActiveRoleByFK_quiet schema fk id : quietly (findActiveRoleByFK env schema fk id).
Proof. unfold findActiveRoleByFK. quietly_. Qed.

Lemma readBaseRevision_quiet base id : quietly (readBaseRevision env base id).
Proof. unfold readBaseRevision. quietly_. Qed.

Lemma bumpBaseRevision_quiet base id : quietly (bumpBaseRevision env base id).
Proof. unfold bumpBaseRevision. quietly_. Qed.

Lemma archiveBaseCascade_quiet base c id t : quietly (archiveBaseCascade env base c id t).
Proof. unfold archiveBaseCascade. quietly_. Qed.

Lemma unarchiveBaseCascade_quiet base c id : quietly (unarchiveBaseCascade env base c id).
Proof. unfold unarchiveBaseCascade. quietly_. Qed.

Lemma baseLifecycleTarget_quiet schema : quietly (baseLifecycleTarget env schema).
Proof. unfold baseLifecycleTarget. quietly_. Qed.

#[local] Hint Resolve baseExists_quiet findActiveRoleByFK_quiet readBaseRevision_quiet bumpBaseRevision_quiet
  archiveBaseCascade_quiet unarchiveBaseCascade_quiet baseLifecycleTarget_quiet : omnicore.

Lemma reactivateBaseIfArchived_quiet schema : quietly (reactivateBaseIfArchived env schema).
Proof. unfold reactivateBaseIfArchived. quietly_. Qed.

Lemma archiveBaseIfNoActiveRole_quiet schema now : quietly (archiveBaseIfNoActiveRole env schema now).
Proof. unfold archiveBaseIfNoActiveRole, anyActiveRole. quietly_. Qed.

#[local] Hint Resolve reactivateBaseIfArchived_quiet archiveBaseIfNoActiveRole_quiet : omnicore.

Lemma convergeArchive_quiet schema ev now : quietly (convergeBaseAfterArchiveWrite env schema ev now).
Proof. unfold convergeBaseAfterArchiveWrite. quietly_. Qed.

Lemma inert_quiet ts : inert (wd_d (env_dialect env)) ts -> quietly (exec env SData ts []).
Proof. intros Hi. by apply exec_quiet, inert_good. Qed.

Lemma purgeOrphanBase_quiet base id : quietly (purgeOrphanBase env base id).
Proof.
  unfold purgeOrphanBase. quietly_; try (apply attempt_grows; quietly_).
  - apply inert_quiet, wl_savepoint.
  - apply inert_quiet, wl_rollback.
  - apply inert_quiet. match goal with E : wd_ReleaseSavepoint _ _ = _ |- _ => rewrite <- E end. apply wl_release.
Qed.

Lemma veto_quiet schema id n : quietly (vetoUnarchiveWithActiveSibling env schema id n).
Proof. unfold vetoUnarchiveWithActiveSibling. quietly_. Qed.

Lemma guardNaturalKey_quiet schema base n id fk bid : quietly (guardNaturalKeyImmutable env schema base n id fk bid).
Proof. unfold guardNaturalKeyImmutable, nilRows. quietly_. Qed.

Lemma upsertSharedBase_quiet base id fields ex now : quietly (upsertSharedBase env base id fields ex now).
Proof. unfold upsertSharedBase. quietly_. Qed.

#[local] Hint Resolve convergeArchive_quiet purgeOrphanBase_quiet veto_quiet guardNaturalKey_quiet upsertSharedBase_quiet : omnicore.

Lemma fillBaseMeta_quiet schema meta : quietly (fillBaseMeta env schema meta).
Proof. unfold fillBaseMeta. quietly_. Qed.

Lemma ownRevision_quiet part id : quietly (ownRevision env part id).
Proof. unfold ownRevision. quietly_. Qed.

#[local] Hint Resolve fillBaseMeta_quiet ownRevision_quiet : omnicore.

Lemma outboxMetaFor_quiet schema id : quietly (outboxMetaFor env schema id).
Proof. unfold outboxMetaFor. quietly_. Qed.

Lemma cascadeChildren_quiet root schema id archive t : quietly (cascadeChildren env root schema id archive t).
Proof. unfold cascadeChildren. quietly_. Qed.

Lemma deleteMeta_quiet schema meta : quietly (deleteMeta env schema meta).
Proof. unfold deleteMeta. quietly_. Qed.

Lemma loadedRevision_quiet : quietly loadedRevision.
Proof. unfold loadedRevision. quietly_. Qed.

#[local] Hint Resolve loadedRevision_quiet outboxMetaFor_quiet cascadeChildren_quiet deleteMeta_quiet : omnicore.

(** ** Runs of a transaction *)

Definition stmt (e : Ev) : Prop := inside e /\ wellFormed e.

(** The argument lists of the outbox rows that were written. *)
Definition outboxRows (l : list Ev) : list (list Arg) :=
  omap (fun e => match e with EvExec SOutbox _ args None => Some args | _ => None end) l.

Lemma outboxRows_app l1 l2 : outboxRows (l1 ++ l2) = outboxRows l1 ++ outboxRows l2.
Proof. apply omap_app. Qed.

Lemma quiet_stmts l : Forall quiet l -> Forall stmt l /\ outboxRows l = [].
Proof.
  induction 1 as [|e l (Hi & Hw & Hn) _ [IH1 IH2]]; [done|]. split; [by constructor|].
  change (e :: l) with ([e] ++ l). rewrite outboxRows_app, IH2, app_nil_r. by destruct e as [|[] ? ? []| | | | | |].
Qed.

Definition notRet {A} (r : Outcome GoErr A) : Prop := forall a, r <> Ret a.

(** The computation adds to the trace a list that its outcome accounts for. *)
Definition runs {A} (c : PM A) (Q : list Ev -> Outcome GoErr A -> Prop) : Prop :=
  forall s, exists l, pw_trace (c s).1.1 = pw_trace s.1 ++ l /\ Q l (c s).2.

(** The body of a transaction: it fails inside, its commit fails, or it commits after
    its last statement with the given outbox rows and does nothing but the
    after-commit work. *)
Inductive TxBody {A} (rows : list (list Arg) -> Prop) (l : list Ev) (r : Outcome GoErr A) : Prop :=
| body_failed : Forall stmt l -> notRet r -> TxBody rows l r
| body_commit_failed l0 err : l = l0 ++ [EvCommit (Some err)] -> Forall stmt l0 -> r = Fail err -> TxBody rows l r
| body_committed l1 l2 a : l = l1 ++ EvCommit None :: l2 -> Forall stmt l1 -> Forall afterwards l2 -> r = Ret a ->
    rows (outboxRows l1) -> TxBody rows l r.

(** A verb: it fails before its transaction, cannot begin it, or runs it to the
    deferred rollback. *)
Inductive VerbRun {A} (rows : list (list Arg) -> Prop) (l : list Ev) (r : Outcome GoErr A) : Prop :=
| run_before : l = [] -> notRet r -> VerbRun rows l r
| run_not_begun err : l = [EvBegin (Some err)] -> r = Fail err -> VerbRun rows l r
| run_tx body : l = EvBegin None :: body ++ [EvRollback] -> TxBody rows body r -> VerbRun rows l r.

(** *** Composition *)

Lemma runs_bind {A B} (c : PM A) (k : A -> PM B) Q1 Q2 (Q : list Ev -> Outcome GoErr B -> Prop) :
  runs c Q1 -> (forall a, runs (k a) (Q2 a)) ->
  (forall l1 l2 a r, Q1 l1 (Ret a) -> Q2 a l2 r -> Q (l1 ++ l2) r) ->
  (forall l e, Q1 l (Fail e) -> Q l (Fail e)) -> (forall l m, Q1 l (Panic m) -> Q l (Panic m)) ->
  runs (gbind c k) Q.
Proof.
  intros Hc Hk Hr Hf Hp s. destruct (Hc s) as (l1 & E1 & H1). unfold gbind. destruct (c s) as [s1 [a|e|m]]; simpl in *.
  - destruct (Hk a s1) as (l2 & E2 & H2). exists (l1 ++ l2). rewrite E2, E1, app_assoc. split; [done|]. by eapply Hr.
  - exists l1. by split; [|apply Hf].
  - exists l1. by split; [|apply Hp].
Qed.

(** A part that issues statements, with the outbox rows [R] of its value. *)
Definition prefix {A} (c : PM A) (R : A -> list (list Arg) -> Prop) : Prop :=
  runs c (fun l r => Forall stmt l /\ forall a, r = Ret a -> R a (outboxRows l)).

Lemma quiet_prefix {A} (c : PM A) : quietly c -> prefix c (fun _ rows => rows = []).
Proof. intros Hc s. destruct (Hc s) as (l & E & [Hs Ho]%quiet_stmts). by exists l. Qed.

Lemma prefix_bind {A B} (c : PM A) (k : A -> PM B) R1 R2 (R : B -> list (list Arg) -> Prop) :
  prefix c R1 -> (forall a, prefix (k a) (R2 a)) -> (forall a b x y, R1 a x -> R2 a b y -> R b (x ++ y)) ->
  prefix (gbind c k) R.
Proof.
  intros Hc Hk HR.
  apply (runs_bind c k _ (fun a l r => Forall stmt l /\ forall b, r = Ret b -> R2 a b (outboxRows l)) _ Hc Hk); cbv beta.
  - intros l1 l2 a r [H1 R1'] [H2 R2']. split; [by apply Forall_app|]. intros b ->. rewrite outboxRows_app.
    eapply HR; [by apply R1'|by apply R2'].
  - intros l e [H1 _]. by split.
  - intros l m [H1 _]. by split.
Qed.

(** A quiet part before or after one with rows. *)
Lemma prefix_quiet {A B} (c : PM A) (k : A -> PM B) R : quietly c -> (forall a, prefix (k a) R) -> prefix (gbind c k) R.
Proof. intros Hc Hk. eapply prefix_bind; [by apply quiet_prefix|exact Hk|]. by intros a b x y -> Hy. Qed.

Lemma body_prefix {A B} (c : PM A) (k : A -> PM B) R Q (Q' : list (list Arg) -> Prop) :
  prefix c R -> (forall a, runs (k a) (TxBody (Q a))) -> (forall a x y, R a x -> Q a y -> Q' (x ++ y)) ->
  runs (gbind c k) (TxBody Q').
Proof.
  intros Hc Hk HR. apply (runs_bind c k _ (fun a => TxBody (Q a)) _ Hc Hk); cbv beta.
  - intros l1 l2 a r [H1 R1] [H2 Hn|l0 err -> H2 ->|l3 l4 b -> H3 H4 -> Hq].
    + apply body_failed; [by apply Forall_app|done].
    + eapply body_commit_failed; [by rewrite app_assoc|by apply Forall_app|done].
    + eapply body_committed; [by rewrite app_assoc|by apply Forall_app|done|done|].
      rewrite outboxRows_app. eapply HR; [by apply R1|done].
  - intros l e [H1 _]. by apply body_failed.
  - intros l m [H1 _]. by apply body_failed.
Qed.

Lemma body_quiet {A B} (c : PM A) (k : A -> PM B) Q : quietly c -> (forall a, runs (k a) (TxBody Q)) -> runs (gbind c k) (TxBody Q).
Proof. intros Hc Hk. eapply body_prefix; [by apply quiet_prefix|exact Hk|]. by intros a x y -> Hy. Qed.

(** The quiet part when the continuation needs what a lifted result was. *)
Lemma body_lifted {A B} (r : Outcome GoErr A) (k : A -> PM B) Q :
  (forall a, r = Ret a -> runs (k a) (TxBody Q)) -> runs (gbind (liftO r) k) (TxBody Q).
Proof.
  intros Hk s. unfold gbind, liftO. destruct r as [a|e|m]; [by apply Hk|..]; exists []; rewrite app_nil_r; split; try done;
    by apply body_failed.
Qed.

(** After-commit work. *)
Definition posts {A} (c : PM A) : Prop := runs c (fun l r => Forall afterwards l /\ exists a, r = Ret a).

Lemma body_posts {A B} (c : PM A) (k : A -> PM B) Q : runs c (TxBody Q) -> (forall a, posts (k a)) -> runs (gbind c k) (TxBody Q).
Proof.
  intros Hc Hk. apply (runs_bind c k _ (fun _ l r => Forall afterwards l /\ exists a, r = Ret a) _ Hc Hk); cbv beta.
  - intros l1 l2 a r [H1 Hn|l0 err -> H2 [=]|l3 l4 b -> H3 H4 [= <-] Hq] [Hp (b' & ->)]; [by destruct (Hn a)|].
    eapply body_committed; [by rewrite <- app_assoc|done|by apply Forall_app|done|done].
  - intros l e [H1 Hn|l0 err -> H2 [= ->]|l3 l4 b -> H3 H4 [=] Hq]; [by apply body_failed|]. by eapply body_commit_failed.
  - intros l m [H1 Hn|l0 err -> H2 [=]|l3 l4 b -> H3 H4 [=] Hq]. by apply body_failed.
Qed.

Lemma posts_ret {A} (a : A) : posts (gret a).
Proof. intros s. exists []. rewrite app_nil_r. split; [done|]. split; [done|by exists a]. Qed.

Lemma posts_bind {A B} (c : PM A) (k : A -> PM B) : posts c -> (forall a, posts (k a)) -> posts (gbind c k).
Proof.
  intros Hc Hk. apply (runs_bind c k _ (fun _ l r => Forall afterwards l /\ exists a, r = Ret a) _ Hc Hk); cbv beta.
  - intros l1 l2 a r [H1 _] [H2 Hr]. by split; [apply Forall_app|].
  - by intros l e [_ [? [=]]].
  - by intros l m [_ [? [=]]].
Qed.

Lemma AfterCommit_posts ab : posts (AfterCommit env ab).
Proof.
  apply posts_bind; [|intros _].
  - unfold EchoAuditSlog. repeat case_match; try apply posts_ret. intros [p e]. eexists. split; [reflexivity|].
    split; [by apply Forall_singleton|by exists tt].
  - unfold PublishEvents. case_match; [apply posts_ret|]. intros [p e]. eexists. split; [reflexivity|].
    split; [by apply Forall_singleton|by exists tt].
Qed.

(** *** The end of a write *)

Lemma commit_body : runs (commit env) (TxBody (fun rows => rows = [])).
Proof.
  intros [p e]. unfold commit, call, gbind. simpl. destruct (bk_Commit (env_backend env) (pw_world p)) as [x [err|]]; simpl.
  - eexists. split; [reflexivity|]. by apply (body_commit_failed _ _ _ [] err).
  - eexists. split; [reflexivity|]. by apply (body_committed _ _ _ [] [] tt).
Qed.

(** The row of an event: table, event type and aggregate id, with a payload about that
    id. *)
Definition rowFor (table eventType id : string) (args : list Arg) : Prop :=
  exists rid payload data tp, env_marshal env payload = inr data /\ ib_id (pl_ids payload) = id /\
    args = [idArg env rid; wd_raw (env_dialect env) (VString table); wd_raw (env_dialect env) (VString eventType);
            wd_raw (env_dialect env) (VString id); wd_raw (env_dialect env) (VString data); tp].

Lemma WriteOutbox_prefix table ev id payload :
  ib_id (pl_ids payload) = id ->
  prefix (WriteOutbox env table ev id payload) (fun _ rows => exists args, rows = [args] /\ rowFor table ev id args).
Proof.
  intros Hid s. unfold WriteOutbox. destruct (env_marshal env payload) as [e|data] eqn:Em; simpl.
  { exists []. rewrite app_nil_r. split; [done|]. split; [constructor|by intros a [=]]. }
  unfold newWriteID, silent, exec, call, gbind. simpl. destruct (bk_newID _ _) as [x [e|rid]]; simpl.
  { exists []. rewrite app_nil_r. split; [done|]. split; [constructor|by intros a [=]]. }
  destruct (bk_Exec _ _ _ _) as [y [e|]]; simpl; eexists; (split; [reflexivity|]); split.
  - apply Forall_singleton. split; [done|]. intros _. apply outboxSQL_good, _.
  - by intros a [=].
  - apply Forall_singleton. split; [done|]. intros _. apply outboxSQL_good, _.
  - intros a _. eexists. split; [reflexivity|]. by do 4 eexists.
Qed.

Definition oneRow (table eventType id : string) (rows : list (list Arg)) : Prop :=
  exists args, rows = [args] /\ rowFor table eventType id args.

Lemma finish_body table ev id payload kind evs hook :
  (forall e, ib_id (pl_ids (payload e)) = id) ->
  runs (finish env table ev id payload kind evs hook) (TxBody (oneRow table ev id)).
Proof.
  intros Hid. unfold finish. apply body_quiet; [quietly_|]. intros e.
  eapply (body_prefix _ _ _ (fun _ rows => rows = [])); [by apply WriteOutbox_prefix| |intros a x y Hx ->; rewrite app_nil_r; exact Hx].
  intros _. cbv beta.
  apply body_quiet; [quietly_|]. intros ab. apply body_quiet; [quietly_|]. intros _. apply body_quiet; [quietly_|]. intros _.
  apply body_posts; [apply commit_body|]. intros _. apply AfterCommit_posts.
Qed.

(** *** Verbs *)

Lemma inTx_run {A} (body : PM A) Q : runs body (TxBody Q) -> runs (inTx env body) (VerbRun Q).
Proof.
  intros Hb [p e]. unfold inTx, call, gbind. simpl. destruct (bk_Begin (env_backend env) (pw_world p)) as [x [err|]]; simpl.
  { eexists. split; [reflexivity|]. by eapply run_not_begun. }
  unfold gdefer. destruct (Hb (mkPWorld x (pw_trace p ++ [EvBegin None]), e)) as (l & E & Hl).
  destruct (body _) as [s r]. simpl in *. exists (EvBegin None :: l ++ [EvRollback]).
  split; [rewrite E, <- !app_assoc; reflexivity|]. by eapply run_tx.
Qed.

(** Steps before the transaction leave no event. *)
Lemma verb_source {A} (k : EntityState V S D -> PM A) Q : (forall e, runs (k e) (VerbRun Q)) -> runs (gbind source k) (VerbRun Q).
Proof. intros Hk [p e]. apply Hk. Qed.

Lemma verb_lifted {A B} (r : Outcome GoErr A) (k : A -> PM B) Q :
  (forall a, runs (k a) (VerbRun Q)) -> runs (gbind (liftO r) k) (VerbRun Q).
Proof.
  intros Hk s. unfold gbind, liftO. destruct r as [a|e|m]; [by apply Hk|..]; exists []; rewrite app_nil_r; split; try done; by apply run_before.
Qed.

Lemma verb_newID {B} (k : string -> PM B) Q : (forall a, runs (k a) (VerbRun Q)) -> runs (gbind (newWriteID env) k) (VerbRun Q).
Proof.
  intros Hk [p e]. unfold newWriteID, silent, gbind. simpl. destruct (bk_newID _ _) as [x [err|id]]; simpl.
  - exists []. rewrite app_nil_r. split; [done|]. by apply run_before.
  - apply (Hk id (mkPWorld x (pw_trace p), e)).
Qed.

Lemma verb_then_ret {A B} (c : PM A) (f : A -> B) Q : runs c (VerbRun Q) -> runs (a <- c;; gret (f a)) (VerbRun Q).
Proof.
  intros Hc s. destruct (Hc s) as (l & E & Hl). exists l. unfold gbind, gret. destruct (c s) as [s' [a|e|m]]; simpl in *; (split; [exact E|]);
    destruct Hl as [-> Hn|err -> Hr|body -> Hb]; try done; try (by destruct (Hn a)); try (by apply run_before);
    try (by eapply run_not_begun; [done|]; congruence).
  - eapply run_tx; [done|]. destruct Hb as [H1 Hn|l0 err -> H2 [=]|l3 l4 b -> H3 H4 [= <-] Hq]; [by destruct (Hn a)|].
    by eapply body_committed.
  - eapply run_tx; [done|]. destruct Hb as [H1 Hn|l0 err -> H2 [= <-]|l3 l4 b -> H3 H4 [=] Hq]; [by apply body_failed|].
    by eapply body_commit_failed.
  - eapply run_tx; [done|]. destruct Hb as [H1 Hn|l0 err -> H2 [=]|l3 l4 b -> H3 H4 [=] Hq]. by apply body_failed.
Qed.

Lemma body_weaken {A} (c : PM A) (Q Q' : list (list Arg) -> Prop) :
  runs c (TxBody Q) -> (forall x, Q x -> Q' x) -> runs c (TxBody Q').
Proof.
  intros Hc HQ s. destruct (Hc s) as (l & E & Hl). exists l. split; [done|].
  destruct Hl as [H1 Hn|l0 err -> H2 Hr|l1 l2 a -> H3 H4 Hr Hq]; [by apply body_failed|by eapply body_commit_failed|].
  eapply body_committed; eauto.
Qed.

(** What the value of a computation satisfies. *)
Definition returns {A} (c : PM A) (P : A -> Prop) : Prop := forall s a, (c s).2 = Ret a -> P a.

Lemma returns_ret {A} (a : A) (P : A -> Prop) : P a -> returns (gret a) P.
Proof. by intros Ha s b [= <-]. Qed.

Lemma returns_bind {A B} (c : PM A) (k : A -> PM B) P : (forall a, returns (k a) P) -> returns (gbind c k) P.
Proof. intros Hk s b. unfold gbind. destruct (c s) as [s' [a|e|m]]; [apply Hk|done|done]. Qed.

Lemma body_returns {A B} (c : PM A) (k : A -> PM B) P Q :
  quietly c -> returns c P -> (forall a, P a -> runs (k a) (TxBody Q)) -> runs (gbind c k) (TxBody Q).
Proof.
  intros Hq Hr Hk s. destruct (Hq s) as (l & E & Hl). specialize (Hr s). unfold gbind.
  destruct (c s) as [s1 [a|e|m]]; simpl in *.
  2, 3: exists l; split; [done|]; apply body_failed; [by apply quiet_stmts|done].
  destruct (Hk a (Hr a eq_refl) s1) as (l2 & E2 & H2). exists (l ++ l2). rewrite E2, E, app_assoc. split; [done|].
  apply quiet_stmts in Hl as [Hs Ho]. destruct H2 as [H2 Hn|l0 err -> H2 H3|l3 l4 b -> H3 H4 H5 Hq'].
  - apply body_failed; [by apply Forall_app|done].
  - eapply body_commit_failed; [by rewrite app_assoc|by apply Forall_app|done].
  - eapply body_committed; [by rewrite app_assoc|by apply Forall_app|done|done|]. by rewrite outboxRows_app, Ho.
Qed.

Lemma fillBaseMeta_id schema meta : returns (fillBaseMeta env schema meta) (fun m => om_ID m = om_ID meta).
Proof.
  unfold fillBaseMeta. destruct (rs_sharedBase schema) as [[base fk]|]; [|by apply returns_ret].
  apply returns_bind. intros e. apply returns_bind. intros nk. case_match; [by apply returns_ret|].
  apply returns_bind. intros _. apply returns_bind. intros rev. by apply returns_ret.
Qed.

Lemma outboxMetaFor_id schema id : returns (outboxMetaFor env schema id) (fun m => om_ID m = id).
Proof. apply returns_bind. intros r. apply fillBaseMeta_id. Qed.

Lemma deleteMeta_id schema meta : returns (deleteMeta env schema meta) (fun m => om_ID m = om_ID meta).
Proof.
  unfold deleteMeta. destruct (rs_sharedBase schema) as [[base fk]|]; [|by apply returns_ret].
  apply returns_bind. intros e. apply returns_bind. intros nk. case_match; [by apply returns_ret|].
  apply returns_bind. intros rev. by apply returns_ret.
Qed.

(** Walk a body: quiet parts up to [finish], and what comes after it. *)
Ltac body_step :=
  lazymatch goal with
  | |- runs (gbind (finish _ _ _ _ _ _ _ _) _) _ =>
      apply body_posts; [apply finish_body; intros ?e; done|intros ?u; first [apply posts_ret|apply AfterCommit_posts]]
  | |- runs (finish _ _ _ _ _ _ _ _) _ => apply finish_body; intros ?e; done
  | |- runs (gbind (outboxMetaFor _ _ _) _) _ => eapply body_returns; [quietly_|apply outboxMetaFor_id|intros ?meta ?Hmeta]
  | |- runs (gbind (deleteMeta _ _ _) _) _ => eapply body_returns; [quietly_|apply deleteMeta_id|intros ?meta ?Hmeta]
  | |- runs (gbind (liftO _) _) _ => apply body_lifted; intros
  | |- runs (gbind _ _) _ => apply body_quiet; [solve [quietly_|expects]|intros]
  end.
Ltac body_ := cbv zeta; repeat body_step.

(** An insert, as far as the shape of its run goes; its rows are below. *)
Ltac insert_body :=
  cbv zeta;
  repeat lazymatch goal with
  | |- runs (gbind (finish _ _ _ _ _ _ _ _) _) _ =>
      apply body_posts; [eapply body_weaken; [apply finish_body; intros ?e; reflexivity|done]|intros ?u; apply posts_ret]
  | |- _ => body_step
  end.

Abbreviation anyRows := (fun _ : list (list Arg) => True).

Lemma insertAggregate_run i schema hook : runs (insertAggregate env i schema hook) (VerbRun anyRows).
Proof.
  unfold insertAggregate. apply verb_source. intros e. cbv zeta. apply verb_newID. intros id. apply inTx_run. insert_body.
Qed.

Lemma insertWithBase_run i schema hook base fk : runs (insertWithBase env i schema hook base fk) (VerbRun anyRows).
Proof.
  unfold insertWithBase. apply verb_source. intros e. apply verb_lifted. intros bv. apply verb_lifted. intros []. cbv zeta.
  apply inTx_run. insert_body.
Qed.

Lemma Insert_run i schema hook : runs (BaseEngine_Insert env i schema hook) (VerbRun anyRows).
Proof.
  unfold BaseEngine_Insert. destruct (rs_sharedBase schema) as [[base fk]|]; [apply insertWithBase_run|].
  destruct (md_aggregate (ins_meta i)); [apply insertAggregate_run|].
  apply verb_source. intros e. cbv zeta. apply verb_newID. intros id. apply inTx_run. insert_body.
Qed.

(** *** The rows of an insert *)

(** What the events of a computation are when it returns. *)
Definition rets {A} (c : PM A) (Q : A -> list Ev -> Prop) : Prop := runs c (fun l r => forall a, r = Ret a -> Q a l).

Lemma rets_bind {A B} (c : PM A) (k : A -> PM B) Q1 Q2 (Q : B -> list Ev -> Prop) :
  rets c Q1 -> (forall a, rets (k a) (Q2 a)) -> (forall a b l1 l2, Q1 a l1 -> Q2 a b l2 -> Q b (l1 ++ l2)) -> rets (gbind c k) Q.
Proof.
  intros Hc Hk HQ. apply (runs_bind c k _ (fun a l r => forall b, r = Ret b -> Q2 a b l) _ Hc Hk); [|done|done].
  intros l1 l2 a r H1 H2 b ->. eapply HQ; [by apply H1|by apply H2].
Qed.

Lemma rets_ret {A} (a : A) (Q : A -> list Ev -> Prop) : Q a [] -> rets (gret a) Q.
Proof. intros Ha s. exists []. rewrite app_nil_r. split; [done|]. by intros b [= <-]. Qed.

Lemma rets_lifted {A B} (r : Outcome GoErr A) (k : A -> PM B) Q :
  (forall a, r = Ret a -> rets (k a) Q) -> rets (gbind (liftO r) k) Q.
Proof.
  intros Hk s. unfold gbind, liftO. destruct r as [a|e|m]; [by apply Hk|..]; exists []; rewrite app_nil_r; split; done.
Qed.

Lemma rets_finish table ev id payload kind evs hook :
  (forall e, ib_id (pl_ids (payload e)) = id) ->
  rets (finish env table ev id payload kind evs hook) (fun _ l => oneRow table ev id (outboxRows l)).
Proof.
  intros Hid s. destruct (finish_body table ev id payload kind evs hook Hid s) as (l & E & Hl). exists l. split; [exact E|].
  intros u Hu. destruct Hl as [_ Hn|l0 err _ _ Hr|l1 l2 a -> _ H2 _ Hq]; [by destruct (Hn u)|congruence|].
  change (l1 ++ EvCommit None :: l2) with (l1 ++ [EvCommit None] ++ l2). rewrite !outboxRows_app. simpl.
  assert (Hn : outboxRows l2 = []) by (clear -H2; induction H2 as [|e l He _ IH]; [done|]; by destruct e).
  by rewrite Hn, !app_nil_r.
Qed.

Lemma rets_execStmt site st : rets (execStmt env site st) (fun _ l => exists x, st = Ret x /\ l = [EvExec site x.1 x.2 None]).
Proof.
  intros [p e]. unfold execStmt, exec, call, liftO, gbind. destruct st as [[ts args]|err|m]; simpl.
  2, 3: exists []; rewrite app_nil_r; split; done.
  destruct (bk_Exec (env_backend env) ts args (pw_world p)) as [x [err|]]; simpl; eexists; (split; [reflexivity|]); [done|].
  intros _ _. by exists (ts, args).
Qed.

(** The INSERT of the root's row under the id, in the events: the statement is the one
    built for that id, which is the first value it binds, for the id column. *)
Definition rootInserted (schema : RootSchema V D) (id : string) (l : list Ev) : Prop :=
  exists fields plan now ts args,
    buildInsertWithCounters (env_dialect env) (Table (rs_part schema)) (IDColumn (rs_part schema)) id fields plan now
      (pt_revision (rs_part schema)) = Ret (ts, args) /\
    args !! 0%nat = Some (idArg env id) /\ EvExec SData ts args None ∈ l.

(** The row is announced under the id that is returned. *)
Definition announced (schema : RootSchema V D) (id : string) (a : WriteResult) (l : list Ev) : Prop :=
  wr_ID a = NewID id /\ oneRow (Table (rs_part schema)) "INSERTED" id (outboxRows l).

(** A row was inserted and announced, under one id of which [P] holds. *)
Definition insertedRow (schema : RootSchema V D) (P : string -> Prop) (a : WriteResult) (l : list Ev) : Prop :=
  exists id, P id /\ rootInserted schema id l /\ announced schema id a l.

Lemma insert_binds_id (schema : RootSchema V D) id fields plan now x :
  buildInsertWithCounters (env_dialect env) (Table (rs_part schema)) (IDColumn (rs_part schema)) id fields plan now
    (pt_revision (rs_part schema)) = Ret x -> x.2 !! 0%nat = Some (idArg env id).
Proof.
  unfold buildInsertWithCounters. cbv zeta. destruct (quoteIdent _ _) as [t|er|er]; [|by intros [=]..].
  destruct (quoteAll _ _) as [cols|er|er]; [|by intros [=]..]. by intros [= <-].
Qed.

Section Inserts.
Context (schema : RootSchema V D).

Lemma rets_quiet {A B} (c : PM A) (k : A -> PM B) (Q : B -> list Ev -> Prop) :
  quietly c -> (forall b l1 l2, Forall quiet l1 -> Q b l2 -> Q b (l1 ++ l2)) -> (forall a, rets (k a) Q) -> rets (gbind c k) Q.
Proof.
  intros Hc HQ Hk. eapply (rets_bind c k (fun _ => Forall quiet) (fun _ => Q)); [|done|intros a; apply HQ].
  intros s. destruct (Hc s) as (l & E & Hl). by exists l.
Qed.

Lemma announced_quiet id b l1 l2 : Forall quiet l1 -> announced schema id b l2 -> announced schema id b (l1 ++ l2).
Proof. intros [_ Hq]%quiet_stmts [Hb Hr]. split; [done|]. by rewrite outboxRows_app, Hq. Qed.

Lemma insertedRow_quiet P b l1 l2 : Forall quiet l1 -> insertedRow schema P b l2 -> insertedRow schema P b (l1 ++ l2).
Proof.
  intros Hq (id & HP & (fields & plan & now & ts & args & Hst & Harg & Hin) & Ha). exists id. split; [done|]. split; [|by apply announced_quiet].
  exists fields, plan, now, ts, args. split_and!; [done..|]. apply elem_of_app. by right.
Qed.

(** The INSERT, and the rest of the transaction. *)
Lemma rets_rootInsert (P : string -> Prop) id fields plan now (k : unit -> PM WriteResult) :
  P id -> (forall u, rets (k u) (announced schema id)) ->
  rets (gbind (execStmt env SData (buildInsertWithCounters (env_dialect env) (Table (rs_part schema)) (IDColumn (rs_part schema)) id
                                     fields plan now (pt_revision (rs_part schema)))) k) (insertedRow schema P).
Proof.
  intros HP Hk. eapply (rets_bind _ k _ (fun _ => announced schema id)); [apply rets_execStmt|exact Hk|].
  intros u b l1 l2 ([ts args] & Hst & ->) [Hb Hr]. exists id. split; [done|]. split; [|by split].
  exists fields, plan, now, ts, args. split; [done|]. split; [by apply insert_binds_id in Hst|]. apply elem_of_app. left. apply list_elem_of_singleton. done.
Qed.

Lemma rets_announced id payload kind evs hook fields :
  (forall e, ib_id (pl_ids (payload e)) = id) ->
  rets (finish env (Table (rs_part schema)) "INSERTED" id payload kind evs hook;;; gret (mkWriteResult (NewID id) fields))
    (announced schema id).
Proof.
  intros Hid. eapply (rets_bind _ _ _ (fun _ b l => b = mkWriteResult (NewID id) fields /\ l = [])); [by apply rets_finish|by intros u; apply rets_ret|].
  intros u b l1 l2 Hr [-> ->]. rewrite app_nil_r. by split.
Qed.

Lemma rets_inTx {A} (body : PM A) (Q : A -> list Ev -> Prop) :
  rets body Q -> (forall a l, Q a l -> Q a (EvBegin None :: l ++ [EvRollback])) -> rets (inTx env body) Q.
Proof.
  intros Hb HQ [p e]. unfold inTx, call, gbind. simpl. destruct (bk_Begin (env_backend env) (pw_world p)) as [x [err|]]; simpl.
  { eexists. split; [reflexivity|done]. }
  unfold gdefer. destruct (Hb (mkPWorld x (pw_trace p ++ [EvBegin None]), e)) as (l & E & Hl).
  destruct (body _) as [s r]. simpl in *. exists (EvBegin None :: l ++ [EvRollback]).
  split; [rewrite E, <- !app_assoc; reflexivity|]. intros a Ha. by apply HQ, Hl.
Qed.

Lemma insertedRow_tx P a l : insertedRow schema P a l -> insertedRow schema P a (EvBegin None :: l ++ [EvRollback]).
Proof.
  intros (id & HP & (fields & plan & now & ts & args & Hst & Harg & Hin) & Hb & Hr). exists id. split; [done|]. split; [|split; [done|]].
  - exists fields, plan, now, ts, args. split_and!; [done..|]. right. apply elem_of_app. by left.
  - change (EvBegin None :: l ++ [EvRollback]) with ([EvBegin None] ++ l ++ [EvRollback]). rewrite !outboxRows_app. simpl. by rewrite app_nil_r.
Qed.

End Inserts.

(** Walk the body of an insert to its INSERT, and from there to its announcement. *)
Ltac inserts_step :=
  lazymatch goal with
  | |- rets (gbind (finish _ _ _ _ _ _ _ _) _) _ => apply rets_announced; intros ?e; reflexivity
  | |- rets (gbind (execStmt _ SData (buildInsertWithCounters _ _ _ _ _ _ _ _)) _) (insertedRow _ _) =>
      apply rets_rootInsert; [|intros ?u]
  | |- rets (gbind (liftO _) _) _ => apply rets_lifted; intros
  | |- rets (gbind _ _) (insertedRow _ _) => apply rets_quiet; [solve [quietly_]|apply insertedRow_quiet|intros]
  | |- rets (gbind _ _) (announced _ _) => apply rets_quiet; [solve [quietly_]|apply announced_quiet|intros]
  end.
Ltac inserts_ := cbv zeta; repeat inserts_step.

(** A role that shares its key with its base takes the base's id, derived from the
    natural key; every other root takes a fresh one. *)
Definition insertID (schema : RootSchema V D) (x : D) (id : string) : Prop :=
  match rs_sharedBase schema with
  | Some (base, fkCol) =>
      fkCol = IDColumn (rs_part schema) -> exists bv, sharedBaseValues env base x = Ret bv /\ id = env_baseID env bv.2
  | None => True
  end.

Lemma insertAggregate_inserts i schema hook (P : string -> Prop) :
  (forall id, P id) -> rets (insertAggregate env i schema hook) (insertedRow schema P).
Proof.
  intros HP. unfold insertAggregate. cbv zeta. do 2 (apply rets_quiet; [quietly_|apply insertedRow_quiet|intros]).
  apply rets_inTx; [|apply insertedRow_tx]. inserts_. apply HP.
Qed.

Lemma insertWithBase_inserts i schema hook base fk e :
  rs_sharedBase schema = Some (base, fk) ->
  forall p, exists l, pw_trace (insertWithBase env i schema hook base fk (p, e)).1.1 = pw_trace p ++ l /\
    forall a, (insertWithBase env i schema hook base fk (p, e)).2 = Ret a -> insertedRow schema (insertID schema (en_data e)) a l.
Proof.
  intros Hb p. unfold insertWithBase. cbv zeta. 
  match goal with |- context [gbind source ?k (p, e)] => change (gbind source k (p, e)) with (k e (p, e)) end.
  cbv beta. match goal with |- context [gbind _ ?k (p, e)] => set (kk := k) end.
  assert (Hr : rets (gbind (liftO (sharedBaseValues env base (en_data e))) kk) (insertedRow schema (insertID schema (en_data e)))); [|apply Hr].
  apply rets_lifted. intros bv Ebv. subst kk. cbv beta. apply rets_lifted. intros _ _.
  apply rets_inTx; [|apply insertedRow_tx]. unfold insertID. rewrite Hb.
  do 7 (apply rets_quiet; [quietly_|apply insertedRow_quiet|intros]). destruct (String.eqb_spec fk (IDColumn (rs_part schema))) as [->|Hne].
  - match goal with |- rets (gbind (gret ?b) ?k) ?Q => change (rets (k b) Q) end. cbv beta. inserts_. intros _. by exists bv.
  - apply rets_quiet; [quietly_|apply insertedRow_quiet|intros id]. inserts_. done.
Qed.

Lemma Insert_inserts i schema hook s : exists l, pw_trace (BaseEngine_Insert env i schema hook s).1.1 = pw_trace s.1 ++ l /\
  forall a, (BaseEngine_Insert env i schema hook s).2 = Ret a -> insertedRow schema (insertID schema (en_data s.2)) a l.
Proof.
  destruct s as [p e]. unfold BaseEngine_Insert. destruct (rs_sharedBase schema) as [[base fk]|] eqn:Eb.
  { by apply insertWithBase_inserts. }
  assert (HP : forall id, insertID schema (en_data e) id) by (intros id; unfold insertID; by rewrite Eb).
  destruct (md_aggregate (ins_meta i)); [by apply (insertAggregate_inserts i schema hook _ HP)|].
  match goal with |- exists l, pw_trace (?c (p, e)).1.1 = _ /\ _ => assert (Hr : rets c (insertedRow schema (insertID schema (en_data e)))) end; [|apply Hr].
  cbv zeta. do 2 (apply rets_quiet; [quietly_|apply insertedRow_quiet|intros]).
  apply rets_inTx; [|apply insertedRow_tx]. inserts_. apply HP.
Qed.

Lemma archiveWrite_run root id schema hook n ev kind evs :
  runs (archiveWrite env root id schema hook n ev kind evs) (VerbRun (oneRow (Table (rs_part schema)) ev id)).
Proof. 
  unfold archiveWrite. apply verb_lifted. intros col. cbv zeta. apply inTx_run. body_.
Qed.

Lemma updateAggregate_run u schema hook :
  runs (updateAggregate env u schema hook) (VerbRun (oneRow (Table (rs_part schema)) "UPDATED" (id_value (upd_id u)))).
Proof. unfold updateAggregate. apply verb_source. intros e. cbv zeta. apply inTx_run. body_. Qed.

Lemma updateWithBase_run u schema hook base fk :
  runs (updateWithBase env u schema hook base fk) (VerbRun (oneRow (Table (rs_part schema)) "UPDATED" (id_value (upd_id u)))).
Proof.
  unfold updateWithBase. apply verb_source. intros e. apply verb_lifted. intros bv. apply verb_lifted. intros []. cbv zeta.
  apply inTx_run. body_.
Qed.

Definition updateEvent (u : Updatable) : string :=
  if bool_decide (upd_entityMode u = ModeArchive) then "ARCHIVED" else "UPDATED".

Lemma Update_run u schema hook :
  runs (BaseEngine_Update env u schema hook) (VerbRun (oneRow (Table (rs_part schema)) (updateEvent u) (id_value (upd_id u)))).
Proof.
  unfold BaseEngine_Update, updateEvent. cbv zeta. destruct (bool_decide _).
  { apply (verb_then_ret (archiveWrite _ _ _ _ _ _ _ _ _) (fun _ => mkWriteResult (upd_id u) ∅)), archiveWrite_run. }
  destruct (rs_sharedBase schema) as [[base fk]|]; [apply updateWithBase_run|].
  destruct (md_aggregate (upd_meta u)); [apply updateAggregate_run|].
  apply verb_source. intros e. apply inTx_run. body_.
Qed.

(** *** Delete *)

(** The rows of the base's own purge. *)
Definition purged (schema : RootSchema V D) (rows : list (list Arg)) : Prop :=
  rows = [] \/ exists base fk bid, rs_sharedBase schema = Some (base, fk) /\ oneRow (Table (bs_part base)) "DELETED" bid rows.

Lemma prefix_then_quiet {A B} (c : PM A) (k : A -> PM B) R :
  prefix c (fun _ => R) -> (forall a, quietly (k a)) -> prefix (gbind c k) (fun _ => R).
Proof.
  intros Hc Hk. apply (prefix_bind c k (fun _ => R) (fun _ _ rows => rows = []) _ Hc); [intros a; by apply quiet_prefix|].
  intros a b x y Hx ->. by rewrite app_nil_r.
Qed.

Lemma prefix_weaken {A} (c : PM A) (R R' : A -> list (list Arg) -> Prop) :
  prefix c R -> (forall a x, R a x -> R' a x) -> prefix c R'.
Proof. intros Hc HR s. destruct (Hc s) as (l & E & Hs & Hr). exists l. split; [done|]. split; [done|]. intros a Ea. by apply HR, Hr. Qed.

Lemma quiet_purged {A} schema (c : PM A) : quietly c -> prefix c (fun _ => purged schema).
Proof. intros Hc. eapply prefix_weaken; [by apply quiet_prefix|]. intros a x ->. by left. Qed.

Lemma converge_prefix schema now : prefix (convergeBaseAfterHardDelete env schema now) (fun _ => purged schema).
Proof.
  unfold convergeBaseAfterHardDelete. destruct (rs_sharedBase schema) as [[base fk]|] eqn:Eb; [|apply quiet_purged; quietly_].
  cbv zeta. case_match; [apply quiet_purged; quietly_|].
  apply prefix_quiet; [quietly_|]. intros e. apply prefix_quiet; [quietly_|]. intros id.
  apply prefix_quiet; [unfold anyRoleRowReferences; quietly_|]. intros [].
  - eapply prefix_weaken; [apply (prefix_then_quiet _ _ (oneRow (Table (bs_part base)) "DELETED" id))|].
    + by apply WriteOutbox_prefix.
    + intros u. quietly_.
    + intros a x Hx. right. by exists base, fk, id.
  - apply quiet_purged. quietly_.
Qed.

Definition deleted (schema : RootSchema V D) (id : string) (rows : list (list Arg)) : Prop :=
  exists before row, rows = before ++ row /\ purged schema before /\ oneRow (Table (rs_part schema)) "DELETED" id row.

Lemma Delete_run del schema hook :
  runs (BaseEngine_Delete env del schema hook) (VerbRun (deleted schema (id_value (del_id del)))).
Proof.
  unfold BaseEngine_Delete, hardDelete. cbv zeta. apply inTx_run.
  do 6 (apply body_quiet; [quietly_|intros]).
  eapply (body_prefix _ _ _ (fun _ => oneRow (Table (rs_part schema)) "DELETED" (id_value (del_id del)))); [apply converge_prefix| |].
  - intros p. body_.
  - intros p x y Hx Hy. by exists x, y.
Qed.

End Props.
