(* ===== verification/PersisterClaims.v ===== *)
(** * Properties of the persister

    Atomicity, the outbox row of a write, well-formed statements, the optimistic
    guard and the agreement of payload and statements on the children. *)

From S2P Require Import Prelude Naming Notification Errors BaseEntity Aggregate Entity Criteria CriteriaSql Dialects CriteriaProps Queries Translation Pipeline WriteSchema WriteSql WriteSqlProps Persister Handlers PersisterVerbs PersisterProps.
From stdpp Require Import base gmap strings list fin_maps.
From Stdlib Require Import Ascii ZArith Lia.

Open Scope string_scope.
Open Scope list_scope.
Open Scope go_scope.

(** ** The abstract view of a trace *)

Section Abstract.
Context {Arg AE : Type}.
Abbreviation Ev := (Event Arg AE).

(** The statement an event carried out; a failed one and a query change nothing. *)
Definition effect (e : Ev) : option (list Tok * list Arg) :=
  match e with
  | EvExec _ sql args None => Some (sql, args)
  | EvCount sql args (inr _) => Some (sql, args)
  | _ => None
  end.

(** Every statement carried out. *)
Definition executed (l : list Ev) : list (list Tok * list Arg) := omap effect l.
#[local] Arguments executed : simpl never.

Lemma executed_cons e l : executed (e :: l) = option_list (effect e) ++ executed l.
Proof. unfold executed. simpl. by destruct (effect e). Qed.

(** The statements a database keeps: those of transactions that committed, [pending]
    being the ones of the open transaction. *)
Fixpoint durableFrom (pending : list (list Tok * list Arg)) (l : list Ev) : list (list Tok * list Arg) :=
  match l with
  | [] => []
  | e :: rest =>
      match e with
      | EvBegin _ | EvRollback | EvCommit (Some _) => durableFrom [] rest
      | EvCommit None => pending ++ durableFrom [] rest
      | _ => durableFrom (pending ++ option_list (effect e)) rest
      end
  end.

Definition durable (l : list Ev) : list (list Tok * list Arg) := durableFrom [] l.

Lemma durable_inside pending l rest :
  Forall inside l -> durableFrom pending (l ++ rest) = durableFrom (pending ++ executed l) rest.
Proof.
  intros H. revert pending. induction H as [|e l He _ IH]; intros pending; [by rewrite app_nil_r|].
  rewrite executed_cons, app_assoc, <- IH. by destruct e.
Qed.

Lemma executed_app l1 l2 : executed (l1 ++ l2) = executed l1 ++ executed l2.
Proof. apply omap_app. Qed.

Lemma durable_afterwards pending l : Forall afterwards l -> durableFrom pending (l ++ [EvRollback]) = [] /\ executed l = [].
Proof.
  intros H. revert pending. induction H as [|e l He _ IH]; intros pending; [done|]. destruct (IH pending) as [_ IH2].
  rewrite executed_cons, IH2. destruct e; try done; (split; [apply IH|done]).
Qed.

End Abstract.

(** ** Writes *)

(** A sealed value and what is done with it. *)
Inductive WriteVerb :=
| WInsert (i : Insertable)
| WUpdate (u : Updatable)
| WArchive (a : Archivable)
| WUnarchive (u : Unarchivable)
| WDelete (d : Deletable).

Section Writes.
Context {V S D W Arg AE : Type} `{AVOOps V} (env : Env V S D W Arg AE).
Context `{!WriteDialectLaws (env_dialect env)} (schema : RootSchema V D) (hook : WriteHook V S D Arg).

Abbreviation PM A := (GoM (PWorld W Arg AE * EntityState V S D) GoErr A).

Definition persist (v : WriteVerb) : PM unit :=
  match v with
  | WInsert i => BaseEngine_Insert env i schema hook;;; gret tt
  | WUpdate u => BaseEngine_Update env u schema hook;;; gret tt
  | WArchive a => BaseEngine_Archive env a schema hook
  | WUnarchive u => BaseEngine_Unarchive env u schema hook
  | WDelete d => BaseEngine_Delete env d schema hook
  end.

(** The outbox rows of a write: one about the root, after the one of the shared base
    when a delete purges it.  Those of an insert depend on the id it takes. *)
Definition writtenRows (v : WriteVerb) (rows : list (list Arg)) : Prop :=
  let table := Table (rs_part schema) in
  match v with
  | WInsert _ => True
  | WUpdate u => oneRow env table (updateEvent u) (id_value (upd_id u)) rows
  | WArchive a => oneRow env table "ARCHIVED" (id_value (arc_id a)) rows
  | WUnarchive u => oneRow env table "UNARCHIVED" (id_value (una_id u)) rows
  | WDelete d => deleted env schema (id_value (del_id d)) rows
  end.

(** An insert from [s] that returned [res]: it inserted the root's row under the id it
    returned, which is the base's for a role that shares its key, and the one outbox row
    is about that id. *)
Definition insertAnnounced (i : Insertable) (s : PWorld W Arg AE * EntityState V S D) (l : list (Event Arg AE)) : Prop :=
  exists res id, (BaseEngine_Insert env i schema hook s).2 = Ret res /\ wr_ID res = NewID id /\
    insertID env schema (en_data s.2) id /\
    (exists fields plan now ts args,
       buildInsertWithCounters (env_dialect env) (Table (rs_part schema)) (IDColumn (rs_part schema)) id fields plan now
         (pt_revision (rs_part schema)) = Ret (ts, args) /\
       args !! 0%nat = Some (idArg env id) /\ (ts, args) ∈ durable l) /\
    oneRow env (Table (rs_part schema)) "INSERTED" id (outboxRows l).

Definition announces (v : WriteVerb) (s : PWorld W Arg AE * EntityState V S D) (l : list (Event Arg AE)) : Prop :=
  match v with
  | WInsert i => insertAnnounced i s l
  | _ => writtenRows v (outboxRows l)
  end.

Lemma persist_run v : runs (persist v) (VerbRun env (writtenRows v)).
Proof.
  destruct v; simpl.
  - apply (verb_then_ret env (BaseEngine_Insert _ _ _ _) (fun _ => tt)), Insert_run, _.
  - apply (verb_then_ret env (BaseEngine_Update _ _ _ _) (fun _ => tt)), Update_run, _.
  - apply archiveWrite_run, _.
  - apply archiveWrite_run, _.
  - apply Delete_run, _.
Qed.

(** The shape of a run, as its outcome tells it. *)
Definition committedRun (l : list (Event Arg AE)) : Prop :=
  exists l1 l2, l = EvBegin None :: l1 ++ EvCommit None :: l2 ++ [EvRollback] /\ Forall inside l1 /\ Forall afterwards l2.

Lemma stmt_inside l : Forall (stmt env) l -> Forall inside l.
Proof. intros Hl. eapply Forall_impl; [exact Hl|]. by intros e []. Qed.

Lemma inside_not_after (l : list (Event Arg AE)) : Forall inside l -> Forall (fun e => ~ afterwards e) l.
Proof. intros Hl. eapply Forall_impl; [exact Hl|]. intros []; simpl; tauto. Qed.

Lemma run_committed {A} rows l (a : A) : VerbRun env rows l (Ret a) -> committedRun l /\ durable l = executed l.
Proof.
  intros [-> Hn|err -> [=]|body -> Hb]; [by destruct (Hn a)|].
  destruct Hb as [H1 Hn|l0 err -> H2 [=]|l1 l2 b -> H3%stmt_inside H4 _ _]; [by destruct (Hn a)|]. split.
  - exists l1, l2. by rewrite <- app_assoc.
  - unfold durable. rewrite executed_cons, executed_app, <- !app_assoc. simpl. rewrite durable_inside by done. simpl.
    destruct (durable_afterwards [] l2 H4) as [-> He]. rewrite executed_app, executed_cons, He. simpl.
    by rewrite !app_nil_r.
Qed.

Lemma run_failed {A} rows l (r : Outcome GoErr A) :
  VerbRun env rows l r -> notRet r -> durable l = [] /\ Forall (fun e => ~ afterwards e) l.
Proof.
  intros [-> Hn|err -> ->|body -> Hb] Hr; [done|by split; [|repeat constructor; simpl; tauto]|].
  destruct Hb as [H1%stmt_inside Hn|l0 err -> H2%stmt_inside ->|l1 l2 b -> H3 H4 -> _]; [| |by destruct (Hr b)].
  - split; [unfold durable; simpl; by rewrite durable_inside|].
    constructor; [simpl; tauto|]. apply Forall_app. split; [by apply inside_not_after|by repeat constructor; simpl; tauto].
  - split; [unfold durable; rewrite <- app_assoc; simpl; by rewrite durable_inside|].
    constructor; [simpl; tauto|]. rewrite <- app_assoc. apply Forall_app. split; [by apply inside_not_after|].
    by repeat (constructor; [simpl; tauto|]).
Qed.

Lemma run_wellFormed {A} rows l (r : Outcome GoErr A) : VerbRun env rows l r -> Forall (wellFormed env) l.
Proof.
  assert (Hs : forall l, Forall (stmt env) l -> Forall (wellFormed env) l) by (intros ? Hl; eapply Forall_impl; [exact Hl|]; by intros e []).
  intros [-> Hn|err -> ->|body -> Hb]; [done|by repeat constructor|].
  constructor; [done|]. apply Forall_app. split; [|by repeat constructor].
  destruct Hb as [H1 Hn|l0 err -> H2 ->|l1 l2 b -> H3 H4 -> _]; [by apply Hs|..].
  - apply Forall_app. split; [by apply Hs|by repeat constructor].
  - apply Forall_app. split; [by apply Hs|]. constructor; [done|]. eapply Forall_impl; [exact H4|]. by intros [].
Qed.

Lemma run_rows {A} rows l (a : A) : VerbRun env rows l (Ret a) -> rows (outboxRows l).
Proof.
  intros [-> Hn|err -> [=]|body -> Hb]; [by destruct (Hn a)|].
  destruct Hb as [H1 Hn|l0 err -> H2 [=]|l1 l2 b -> H3 H4 _ Hq]; [by destruct (Hn a)|].
  change (EvBegin None :: (l1 ++ EvCommit None :: l2) ++ [EvRollback])
    with ([EvBegin None] ++ (l1 ++ [EvCommit None] ++ l2) ++ [EvRollback]).
  rewrite !outboxRows_app. simpl.
  assert (Hn : outboxRows l2 = []) by (clear -H4; induction H4 as [|e l He _ IH]; [done|]; by destruct e).
  by rewrite Hn, !app_nil_r.
Qed.

(** C3: a write is atomic, and a failed one leaves nothing behind.  For every verb,
    route, schema, hook and database: the calls a write makes are one transaction, from
    its begin to the deferred rollback.  When it returns a value, the transaction
    committed after its last statement, the database keeps exactly the statements the
    write carried out, in order, and the audit echo and the events follow the commit.
    When it fails or panics anywhere, the commit included, the database keeps none of
    its statements and nothing was echoed or published. *)
Theorem writes_are_atomic v s :
  exists l, pw_trace (persist v s).1.1 = pw_trace s.1 ++ l /\
    ((persist v s).2 = Ret tt -> committedRun l /\ durable l = executed l) /\
    ((persist v s).2 <> Ret tt -> durable l = [] /\ Forall (fun e => ~ afterwards e) l).
Proof.
  destruct (persist_run v s) as (l & E & Hl). exists l. split; [exact E|]. split.
  - intros Er. rewrite Er in Hl. by eapply run_committed.
  - intros Hr. eapply run_failed; [exact Hl|]. by intros [].
Qed.

Lemma executed_in sql args (l : list (Event Arg AE)) : EvExec SData sql args None ∈ l -> (sql, args) ∈ executed l.
Proof. intros Hin. unfold executed. apply list_elem_of_omap. by exists (EvExec SData sql args None). Qed.

Lemma insert_announced i s l :
  (persist (WInsert i) s).2 = Ret tt -> pw_trace (persist (WInsert i) s).1.1 = pw_trace s.1 ++ l -> durable l = executed l ->
  insertAnnounced i s l.
Proof.
  intros Hr E Hd. destruct (Insert_inserts env i schema hook s) as (l' & E' & Hins). unfold insertAnnounced.
  simpl in Hr, E. unfold gbind in Hr, E. destruct (BaseEngine_Insert env i schema hook s) as [s1 [res|e|m]]; try done. simpl in *.
  assert (l' = l) as -> by (rewrite E in E'; by apply app_inv_head in E').
  destruct (Hins res eq_refl) as (id & Hid & (fields & plan & now & ts & args & Hst & Ha & Hin) & Hres & Hrow).
  exists res, id. split_and!; [done..| |done]. exists fields, plan, now, ts, args. split_and!; [done..|]. rewrite Hd. by apply executed_in.
Qed.

(** C13: a successful write announces itself once, in its own transaction.  The outbox
    rows among its statements are exactly one about the aggregate root, with its table,
    the verb's event type, the root's id and a payload whose ids block is about that id;
    a delete that purges a shared base announces the base's deletion before it.  The id is
    the written one: that of the sealed value for an update, an archive, an unarchive and a
    delete; for an insert, flat, aggregate or with a shared base, the id the engine returns
    and binds to the id column of the INSERT of the root's row that the transaction keeps,
    which for a role that shares its key with its base is the base's id, derived from the
    natural key.  An update that a rule turned into an archive announces an archive. *)
Theorem one_outbox_row_per_write v s :
  (persist v s).2 = Ret tt ->
  exists l, pw_trace (persist v s).1.1 = pw_trace s.1 ++ l /\ announces v s l.
Proof.
  intros Hr. destruct (persist_run v s) as (l & E & Hl). exists l. split; [exact E|]. rewrite Hr in Hl.
  destruct (run_committed _ _ _ Hl) as [_ Hd]. apply run_rows in Hl. destruct v; [by apply insert_announced|exact Hl..].
Qed.

(** C16: every statement the persister issues is well formed.  Whatever the schema, the
    values, the database and the outcome, each statement of a write that is not a hook's
    own carries the placeholders [1 .. n] in order for its [n] arguments, is balanced,
    and is made of fixed words, allowlisted quoted identifiers and placeholders only: no
    value reaches the text. *)
Theorem issued_statements_are_well_formed v s :
  exists l, pw_trace (persist v s).1.1 = pw_trace s.1 ++ l /\ Forall (wellFormed env) l.
Proof. destruct (persist_run v s) as (l & E & Hl). exists l. split; [exact E|]. by eapply run_wellFormed. Qed.

End Writes.

(** ** A sample engine *)

Module ShopWrites.

Record Line := mkLine { ln_id : string; ln_sku : string; ln_packedAt : Value; ln_managed : Managed }.

#[export] Instance Line_ops : AVOOps Line := {
  avo_className _ := "OrderLine";
  avo_collection _ := "Lines";
  avo_GetID l := NewID (ln_id l);
  avo_withID i l := Some (mkLine (id_value i) (ln_sku l) (ln_packedAt l) (ln_managed l));
  avo_same a b := String.eqb (ln_sku a) (ln_sku b)
}.

Record Order := mkOrder { or_status : string; or_approvedAt : Value }.

Definition plain (c : string) : schemaField := mkSchemaField c IDNone (Some false).

Definition orders : Part Order :=
  mkPart (mkTableSchema "orders" true false "ID" "id" "" {[ "Status" := plain "status"; "ApprovedAt" := plain "approved_at" ]}
            "archived_at" "created_at" "updated_at" [] None)
    [mkField "Status" "status" None (fun o => FieldFound (VString (or_status o))) (fun _ o => o) None;
     mkField "ApprovedAt" "approved_at" (Some StampTime) (fun o => FieldFound (or_approvedAt o))
       (fun v o => mkOrder (or_status o) v) None]
    "revision".

Definition lines : ChildSchema Line :=
  mkChildSchema
    (mkPart (mkTableSchema "order_lines" true false "ID" "id" "order_id" {[ "Sku" := plain "sku"; "PackedAt" := plain "packed_at" ]}
               "archived_at" "" "" [] None)
       [mkField "Sku" "sku" None (fun l => FieldFound (VString (ln_sku l))) (fun _ l => l) None;
        mkField "PackedAt" "packed_at" (Some StampTime) (fun l => FieldFound (ln_packedAt l))
          (fun v l => mkLine (ln_id l) (ln_sku l) v (ln_managed l)) None]
       "")
    [].

Definition schema : RootSchema Line Order := mkRootSchema orders [] {[ "OrderLine" := lines ]} None.

(** Statements succeed, a counted one on [rows] rows; a read finds revision 3 and the
    instant 7000; ids are counted. *)
Definition backend (rows : Z) : Backend nat SqlArg :=
  mkBackend (fun x => (x, None)) (fun _ _ x => (x, None)) (fun _ _ x => (x, inr rows))
    (fun _ _ x => (x, QRows (Some (inr [CInt 3; CTime 7000])) None)) (fun x => (x, None)) (fun x => x)
    (fun x => (Datatypes.S x, inr ("id" +:+ itoa (Z.of_nat x)))) (fun x => (x, 5000%Z)) (fun _ x => x).

Definition envOn (rows : Z) : Env Line unit Order nat SqlArg string :=
  mkEnv (backend rows) (pgWriteDialect (fun _ => None) (fun _ => None)) (fun _ => true) (fun _ => inr "{}") ""
    (fun _ _ => "audit") (fun _ => inl (ELeaf "no audit rows")) (fun _ => "") (fun nk => nk) (fun _ => None)
    ln_managed map_to_list (mkEngineCfg (Some (mkAuditCfg true false)) false true ∅).

Definition env : Env Line unit Order nat SqlArg string := envOn 1.

Definition order (lines : list (aggregateItemEntry Line)) (stamps : list StampRequest) : EntityState Line unit Order :=
  mkEntity (mkAggregateRoot (be_setManaged (mkManaged (Some (NewID "o1")) 2 None None None stamps) newBase)
              (Some {[ "OrderLine" := lines ]})) (mkOrder "open" (timePtrValue None)).

Definition line (id sku : string) (stamps : list StampRequest) : Line :=
  mkLine id sku (timePtrValue None) (mkManaged None 0 None None None stamps).

Definition meta : Metadata := mkMetadata "Order" "GetUpdatable" 0 [mkEvent EventLog "Order" "changed"] true.

Definition edited : EntityState Line unit Order :=
  order [mkEntry (line "l1" "A" []) StatusConstructor StatusRemoved; mkEntry (line "" "B" []) StatusAdded StatusAdded] [].

Definition update : WriteVerb := WUpdate (mkUpdatable meta (NewID "o1") false ModeUpdate).

(** A new order with one line. *)
Definition fresh : EntityState Line unit Order := order [mkEntry (line "" "B" []) StatusAdded StatusAdded] [].

Definition insert : WriteVerb := WInsert (mkInsertable meta None).

Definition noHook : WriteHook Line unit Order SqlArg := mkWriteHook None None.

Definition start (e : EntityState Line unit Order) : PWorld nat SqlArg string * EntityState Line unit Order := (mkPWorld 0%nat [], e).

(** What a trace reads like. *)
Definition texts (l : list (Event SqlArg string)) : list string :=
  omap (fun e => match e with
                 | EvExec _ sql _ _ | EvCount sql _ _ | EvQuery _ sql _ _ => Some (sqlText pgDialect sql)
                 | EvBegin _ => Some "BEGIN" | EvCommit _ => Some "COMMIT" | EvRollback => Some "ROLLBACK"
                 | EvEcho _ => Some "echo" | EvPublish _ => Some "publish" end) l.

Definition traceOf (v : WriteVerb) (e : EntityState Line unit Order) : list (Event SqlArg string) :=
  pw_trace (persist env schema noHook v (start e)).1.1.

Example update_texts :
  texts (traceOf update edited) =
    ["BEGIN";
     "UPDATE orders SET status = $1, updated_at = $2, revision = revision + 1 WHERE id = $3 AND revision = $4";
     "UPDATE order_lines SET archived_at = $1 WHERE id = $2";
     "INSERT INTO order_lines (id, order_id, sku) VALUES ($1, $2, $3)";
     "SELECT revision, created_at FROM orders WHERE id = $1 LIMIT 1";
     "INSERT INTO outbox (id, aggregate_type, event_type, aggregate_id, payload, traceparent, created_at) VALUES ($1, $2, $3, $4, $5, $6, NOW())";
     "COMMIT"; "echo"; "publish"; "ROLLBACK"].
Proof. vm_compute. reflexivity. Qed.

End ShopWrites.

#[local] Existing Instance ShopWrites.Line_ops.

Lemma writes_are_atomic_witness :
  exists l, ShopWrites.traceOf ShopWrites.update ShopWrites.edited = [] ++ l /\ committedRun l /\ durable l = executed l.
Proof.
  destruct (writes_are_atomic ShopWrites.env ShopWrites.schema ShopWrites.noHook ShopWrites.update
              (ShopWrites.start ShopWrites.edited)) as (l & E & Hr & _).
  exists l. split; [exact E|]. apply Hr. vm_compute. reflexivity.
Defined.

Lemma one_outbox_row_per_write_witness :
  exists l, ShopWrites.traceOf ShopWrites.insert ShopWrites.fresh = [] ++ l /\
    announces ShopWrites.env ShopWrites.schema ShopWrites.noHook ShopWrites.insert (ShopWrites.start ShopWrites.fresh) l.
Proof.
  destruct (one_outbox_row_per_write ShopWrites.env ShopWrites.schema ShopWrites.noHook ShopWrites.insert
              (ShopWrites.start ShopWrites.fresh)) as (l & E & Hl); [vm_compute; reflexivity|].
  exists l. split; [exact E|exact Hl].
Defined.

Lemma issued_statements_are_well_formed_witness :
  exists l, ShopWrites.traceOf ShopWrites.update ShopWrites.edited = [] ++ l /\ Forall (wellFormed ShopWrites.env) l.
Proof.
  destruct (issued_statements_are_well_formed ShopWrites.env ShopWrites.schema ShopWrites.noHook ShopWrites.update
              (ShopWrites.start ShopWrites.edited)) as (l & E & Hl).
  exists l. split; [exact E|exact Hl].
Defined.
