(* ===== verification/WriteClaims.v ===== *)
(** * Properties of the parts of a write

    The optimistic guard, the answer to a stale write, and the agreement of the outbox
    payload with the statements on the children. *)

From S2P Require Import Prelude Naming Notification Errors BaseEntity Aggregate Entity Criteria CriteriaSql Dialects CriteriaProps Queries Translation Pipeline WriteSchema WriteSql WriteSqlProps Persister Handlers PersisterVerbs PersisterProps PersisterClaims.
From stdpp Require Import base gmap strings list fin_maps.
From Stdlib Require Import Ascii ZArith Lia.

Open Scope string_scope.
Open Scope list_scope.
Open Scope go_scope.

#[local] Existing Instance ShopWrites.Line_ops.

(** ** The optimistic guard *)

Section Guard.
Context {Arg : Type} (w : WriteDialect Arg) (isUUID : string -> bool).

Lemma slotSets_app n slots c parts :
  slotSets w n (slots ++ [(c, SBump)]) = Ret parts ->
  exists q before, quoteIdent w c = Ret q /\ parts = before ++ [q ++ TKw " = " :: q ++ [TKw " + 1"]].
Proof.
  revert n parts. induction slots as [|[c' s] slots IH]; intros n parts; simpl.
  - intros (q & Hq & [= <-])%obind_Ret. exists q, []. done.
  - intros (q & Hq & H)%obind_Ret.
    destruct s as [a|t|]; apply obind_Ret in H as (r & (q' & b & Hq' & ->)%IH & [= <-]); 
      exists q'; eexists (_ :: b); done.
Qed.

Lemma commaSep_snoc before last : exists pre, commaSep (before ++ [last]) = pre ++ last.
Proof.
  induction before as [|p before [pre IH]]; simpl; [exists []; by rewrite app_nil_r|].
  exists (p ++ (match before ++ [last] with [] => [] | _ => [TKw ", "] end) ++ pre). by rewrite IH, <- !app_assoc.
Qed.

(** C19: the update of a row with a revision column is a compare-and-swap on it.
    Whatever the predicate, the fields and the stamps, the statement ends its SET list by
    bumping the revision, and for a loaded entity (a positive revision) its WHERE is the
    caller's predicate and the equality of the revision column with the last argument,
    which is the revision that was loaded. *)
Theorem update_is_guarded t pred fields plan now rev expected sql args :
  rev <> "" -> (0 < expected)%Z ->
  buildUpdatePlan w isUUID t pred fields plan now rev expected = Ret (sql, args) ->
  exists q head wh before wargs,
    quoteIdent w rev = Ret q /\
    compilePredicate w isUUID t pred (length before) = Ret (wh, wargs) /\
    sql = head ++ (q ++ TKw " = " :: q ++ [TKw " + 1"]) ++ TKw " WHERE " :: wh ++ TAnd :: q ++
          [TKw " = "; TPlace (length args)] /\
    args = before ++ wargs ++ [d_EncodeArg (wd_d w) (intValue expected)].
Proof.
  intros Hrev Hexp (sets & Hs & (wh & Hw & H)%obind_Ret)%obind_Ret.
  destruct sets as [sets a], wh as [wh wargs]. cbn [fst snd] in *.
  destruct (String.eqb_spec rev "") as [?|_]; [done|]. destruct (Z.ltb_spec 0 expected); [|lia]. simpl in H.
  apply obind_Ret in H as ([g b] & (q & Hq & [= <- <-])%obind_Ret & (u & (table & Ht & [= <-])%obind_Ret & [= <- <-])%obind_Ret).
  cbn [fst snd] in *. apply obind_Ret in Hs as (parts & Hp & [= <- <-]). unfold setSlots in Hp.
  destruct (String.eqb_spec rev "") as [?|_]; [done|].
  rewrite !app_assoc in Hp. apply slotSets_app in Hp as (q' & bf & Hq' & ->).
  assert (q' = q) as -> by congruence. destruct (commaSep_snoc bf (q ++ TKw " = " :: q ++ [TKw " + 1"])) as [pre Epre].
  rewrite Epre. exists q, (TKw "UPDATE " :: table ++ TKw " SET " :: pre), wh, (slotArgs (setSlots w fields plan now rev)), wargs.
  split_and!; [done|exact Hw| |by rewrite <- app_assoc].
  rewrite !length_app. simpl. rewrite <- !app_assoc. simpl. rewrite <- !app_assoc. done.
Qed.

End Guard.

Lemma update_is_guarded_witness :
  exists sql args q head wh before wargs,
    buildUpdatePlan (env_dialect ShopWrites.env) (fun _ => true) (schemaTarget ShopWrites.orders) (Some (byID "o1")) ∅ (planOf []) 5
      "revision" 2 = Ret (sql, args) /\
    quoteIdent (env_dialect ShopWrites.env) "revision" = Ret q /\
    compilePredicate (env_dialect ShopWrites.env) (fun _ => true) (schemaTarget ShopWrites.orders) (Some (byID "o1")) (length before) =
      Ret (wh, wargs) /\
    sql = head ++ (q ++ TKw " = " :: q ++ [TKw " + 1"]) ++ TKw " WHERE " :: wh ++ TAnd :: q ++
          [TKw " = "; TPlace (length args)] /\
    args = before ++ wargs ++ [AOther "2"].
Proof.
  destruct (buildUpdatePlan (env_dialect ShopWrites.env) (fun _ => true) (schemaTarget ShopWrites.orders) (Some (byID "o1")) ∅
              (planOf []) 5 "revision" 2) as [[sql args]| |] eqn:E; [|by vm_compute in E..].
  destruct (update_is_guarded (env_dialect ShopWrites.env) (fun _ => true) (schemaTarget ShopWrites.orders) (Some (byID "o1")) ∅
              (planOf []) 5 "revision" 2 sql args) as (q & head & wh & before & wargs & H); [done|done|exact E|].
  exists sql, args, q, head, wh, before, wargs. exact (conj eq_refl H).
Defined.

(** ** Stale writes *)

Section Stale.
Context {V S D W Arg AE : Type} `{AVOOps V} (env : Env V S D W Arg AE).

(** What a write that matched no row answers.  Without a guard the row is gone and
    the answer is 404; with one, the row is looked up again in the same transaction: the
    answer is 409 when it is still there, so somebody else moved its revision, and 404
    when it is not. *)
Theorem stale_write_answer varsOf StatusText tr lang t l ok st row p e x n first :
  bk_ExecCount (env_backend env) st.1 st.2 (pw_world p) = (x, inr n) -> (n <= 0)%Z ->
  ((0 < xr_guardedRevision row)%Z -> exists sql y,
     rowExistsSQL (env_dialect env) (xr_table row) (xr_pkCol row) = Ret sql /\
     bk_Query (env_backend env) sql [idArg env (xr_value row)] x = (y, QRows first None)) ->
  let r := (execExpectingRow env st row (p, e)).2 in
  exists c, r = Fail (ECarrier [Some c]) /\ nc_context c = xr_contextName row /\
    r_Status (RespondFromResult StatusText tr lang (Run varsOf t (Some l) (fun _ => r)) ok) =
      (if (0 <? xr_guardedRevision row)%Z && bool_decide (is_Some first) then 409 else 404)%Z.
Proof.
  intros Hc Hn Hq. cbv zeta. unfold execExpectingRow, call, gbind. simpl. rewrite Hc. simpl.
  destruct (Z.ltb_spec 0 n); [lia|]. destruct (Z.ltb_spec 0 (xr_guardedRevision row)) as [Hg|_]; simpl.
  - destruct (Hq Hg) as (sql & y & Hsql & Hy). unfold rowExists, query, liftO, call, gbind. rewrite Hsql. simpl. rewrite Hy.
    destruct first as [f|]; eexists; done.
  - eexists; done.
Qed.

End Stale.

Lemma stale_write_answer_witness :
  exists c, (execExpectingRow (ShopWrites.envOn 0) ([], []) (mkExpected "orders" "Order" "id" "id" "o1" 2)
               (ShopWrites.start ShopWrites.edited)).2 = Fail (ECarrier [Some c]) /\ nc_context c = "Order".
Proof.
  destruct (stale_write_answer (ShopWrites.envOn 0) (fun _ => ∅) (fun _ => "") None LangENG newTranslator LangENG 200%Z ([], [])
    (mkExpected "orders" "Order" "id" "id" "o1" 2) (mkPWorld 0%nat []) ShopWrites.edited 0%nat 0%Z (Some (inr [CInt 3; CTime 7000])))
    as (c & Hc & Hn & _); [reflexivity|discriminate| |].
  - intros _. do 2 eexists. split; reflexivity.
  - exists c. split; [exact Hc|exact Hn].
Defined.

(** ** Payload and statements *)

Section Children.
Context {V S D W Arg AE : Type} `{AVOOps V} (env : Env V S D W Arg AE).

Abbreviation St := (PWorld W Arg AE * EntityState V S D)%type.
Abbreviation PM A := (GoM (PWorld W Arg AE * EntityState V S D) GoErr A).
Abbreviation w := (env_dialect env).

(** What the events of one child's write must be for an [_op] to be true of them. *)
Definition describes (op : string) (part : Part V) (l : list (Event Arg AE)) : Prop :=
  if String.eqb op "insert" then
    exists t sql args rest, quoteIdent w (Table part) = Ret t /\
      l = EvExec SData (TKw "INSERT INTO " :: t ++ sql) args None :: rest
  else if String.eqb op "update" then
    exists t sql args n rest, quoteIdent w (Table part) = Ret t /\ (0 < n)%Z /\
      l = EvCount (TKw "UPDATE " :: t ++ TKw " SET " :: sql) args (inr n) :: rest
  else if String.eqb op "archive" then
    exists t c q sql args, quoteIdent w (Table part) = Ret t /\ archivedAtColumn part = Some c /\ quoteIdent w c = Ret q /\
      l = [EvExec SData (TKw "UPDATE " :: t ++ TKw " SET " :: q ++ TKw " = " :: sql) args None]
  else if String.eqb op "delete" then
    exists t sql args before, quoteIdent w (Table part) = Ret t /\
      l = before ++ [EvExec SData (TKw "DELETE FROM " :: t ++ TKw " WHERE " :: sql) args None]
  else l = [].

(** What a run that returns adds to the trace. *)
Definition leaves {A} (c : PM A) (P : list (Event Arg AE) -> Prop) : Prop :=
  forall s s' a, c s = (s', Ret a) -> exists l, pw_trace s'.1 = pw_trace s.1 ++ l /\ P l.

Lemma leaves_bind {A B} (c : PM A) (k : A -> PM B) P Q R :
  leaves c P -> (forall a, leaves (k a) Q) -> (forall l1 l2, P l1 -> Q l2 -> R (l1 ++ l2)) -> leaves (gbind c k) R.
Proof.
  intros Hc Hk HR s s' b Hb. apply gbind_Ret in Hb as (a & s1 & H1 & H2).
  apply Hc in H1 as (l1 & E1 & HP). apply Hk in H2 as (l2 & E2 & HQ). exists (l1 ++ l2). rewrite E2, E1, app_assoc. auto.
Qed.

Lemma leaves_weaken {A} (c : PM A) (P Q : list (Event Arg AE) -> Prop) : leaves c P -> (forall l, P l -> Q l) -> leaves c Q.
Proof. intros Hc HQ s s' a Ha. apply Hc in Ha as (l & E & HP). eauto. Qed.

Lemma grows_leaves {A} (c : PM A) (P : Event Arg AE -> Prop) : gmono (grows P) c -> leaves c (Forall P).
Proof. intros Hc s s' a Ha. specialize (Hc s). rewrite Ha in Hc. exact Hc. Qed.

(** Steps without an event. *)
Lemma leaves_silent {A B} (c : PM A) (k : A -> PM B) P :
  gmono (grows (fun _ => False)) c -> (forall a, leaves (k a) P) -> leaves (gbind c k) P.
Proof.
  intros Hc Hk. eapply leaves_bind; [by apply grows_leaves|apply Hk|]. intros [|e l1] l2 Hf; [done|]. by apply Forall_inv in Hf.
Qed.

Lemma leaves_lifted {A B} (r : Outcome GoErr A) (k : A -> PM B) P :
  (forall a, r = Ret a -> leaves (k a) P) -> leaves (gbind (liftO r) k) P.
Proof. intros Hk s s' b. unfold gbind, liftO. destruct r as [a|e|m]; [|done|done]. by apply Hk. Qed.

Lemma execStmt_leaves st :
  leaves (execStmt env SData st) (fun l => exists sql args, st = Ret (sql, args) /\ l = [EvExec SData sql args None]).
Proof.
  apply leaves_lifted. intros [sql args] E s s' a. unfold exec, call, gbind. simpl.
  destruct (bk_Exec _ _ _ _) as [x [e|]]; [done|]. intros [= <- _]. eexists. split; [reflexivity|eauto].
Qed.

Lemma expecting_leaves st row :
  leaves (execExpectingRow env st row) (fun l => exists n, (0 < n)%Z /\ l = [EvCount st.1 st.2 (inr n)]).
Proof.
  intros s s' a. unfold execExpectingRow, call, gbind. simpl. destruct (bk_ExecCount _ _ _ _) as [x [e|n]]; [done|]. simpl.
  destruct (Z.ltb_spec 0 n); [intros [= <- _]; eexists; split; [reflexivity|eauto]|]. destruct (0 <? xr_guardedRevision row)%Z; [|done].
  destruct (rowExists _ _ _ _ _) as [s2 [[]|e|m]]; done.
Qed.

Context `{!WriteDialectLaws (env_dialect env)}.

Lemma quiet_leaves {A} (c : PM A) : gmono (grows (quiet env)) c -> leaves c (fun _ => True).
Proof. intros Hc. by eapply leaves_weaken; [apply grows_leaves|]. Qed.

Lemma newWriteID_silent : gmono (grows (fun _ => False)) (newWriteID env : PM string).
Proof.
  apply gmono_bind; [apply _|apply silent_grows|]. intros [e|id]; [apply gmono_fail, _|apply gmono_ret, _].
Qed.

Lemma stampedChildCols_silent part root item cols now :
  gmono (grows (fun _ => False)) (stampedChildCols env part root item cols now : PM stampPlan).
Proof.
  unfold stampedChildCols. case_match; [apply gmono_ret, _|]. apply gmono_bind; [apply _|apply liftO_grows|]. intros [|c l];
    [apply gmono_ret, _|]. apply gmono_bind; [apply _| |intros; apply gmono_ret, _]. case_match; [apply onSource_grows|apply gmono_ret, _].
Qed.

(** The head of each statement. *)
Lemma insert_head table pk id fields plan now rev sql args :
  buildInsertWithCounters w table pk id fields plan now rev = Ret (sql, args) ->
  exists t rest, quoteIdent w table = Ret t /\ sql = TKw "INSERT INTO " :: t ++ rest.
Proof. intros (t & Ht & (cols & _ & [= <- _])%obind_Ret)%obind_Ret. eauto. Qed.

Lemma updateText_head t sets wh sql :
  updateText w t sets wh = Ret sql -> exists q, quoteIdent w (wt_table t) = Ret q /\ sql = TKw "UPDATE " :: q ++ TKw " SET " :: sets ++ TKw " WHERE " :: wh.
Proof. intros (q & Hq & [= <-])%obind_Ret. eauto. Qed.

Lemma insertChild_leaves child item id now : leaves (insertChild env child item id now) (describes "insert" (ch_part child)).
Proof.
  apply leaves_silent; [apply newWriteID_silent|]. intros cid. apply leaves_silent; [apply stampedChildCols_silent|]. intros plan.
  eapply leaves_bind; [apply execStmt_leaves| |].
  - intros _. apply quiet_leaves. apply gmono_bind; [apply _|apply insertSiblings_quiet, _|]. intros; apply gmono_ret, _.
  - intros l1 l2 (sql & args & (t & rest & Ht & ->)%insert_head & ->) _. unfold describes. simpl. eauto 10.
Qed.

Lemma buildUpdatePlan_head t pred fields plan now rev expected st :
  buildUpdatePlan w (env_isUUID env) t pred fields plan now rev expected = Ret st ->
  exists q rest, quoteIdent w (wt_table t) = Ret q /\ st.1 = TKw "UPDATE " :: q ++ TKw " SET " :: rest.
Proof.
  intros (sets & _ & (wh & _ & (g & _ & (sql & (q & Hq & ->)%updateText_head & [= <-])%obind_Ret)%obind_Ret)%obind_Ret)%obind_Ret. eauto.
Qed.

Lemma updateChild_leaves child item now : leaves (updateChild env child item now) (describes "update" (ch_part child)).
Proof.
  unfold updateChild. cbv zeta. case_match; [by intros s s' a|]. apply leaves_silent; [apply stampedChildCols_silent|]. intros plan.
  apply leaves_lifted. intros st (q & rest & Hq & Est)%buildUpdatePlan_head. eapply leaves_bind; [apply expecting_leaves| |].
  - intros _. apply quiet_leaves, applySiblingUpdates_quiet, _.
  - intros l1 l2 (n & Hn & ->) _. unfold describes. simpl. rewrite Est. eauto 10.
Qed.

Lemma archiveSQL_head t c pred now sql args :
  archiveSQL w (env_isUUID env) t c pred now "" = Ret (sql, args) ->
  exists tb q rest, quoteIdent w (wt_table t) = Ret tb /\ quoteIdent w c = Ret q /\
    sql = TKw "UPDATE " :: tb ++ TKw " SET " :: q ++ TKw " = " :: rest.
Proof.
  intros (sets & Hs & (wh & _ & (u & (tb & Htb & ->)%updateText_head & [= <- _])%obind_Ret)%obind_Ret)%obind_Ret.
  apply obind_Ret in Hs as (parts & Hp & [= <-]).
  assert (Ef : SortedFields {[ c := timeValue now ]} = [(c, timeValue now)]) by (unfold SortedFields; by rewrite map_to_list_singleton).
  unfold setSlots in Hp. rewrite Ef in Hp. simpl in Hp. apply obind_Ret in Hp as (q & Hq & [= <-]).
  exists tb, q. eexists. split; [done|]. split; [done|]. simpl. by rewrite app_nil_r, <- app_assoc.
Qed.

Lemma removeChild_leaves child item now :
  leaves (removeChild env child item now)
    (describes (if bool_decide (is_Some (archivedAtColumn (ch_part child))) then "archive" else "delete") (ch_part child)).
Proof.
  unfold removeChild, archiveChild. destruct (archivedAtColumn (ch_part child)) as [c|] eqn:Ec; cbv zeta; (case_match; [by intros s s' a|]).
  - rewrite bool_decide_eq_true_2 by eauto. eapply leaves_weaken; [apply execStmt_leaves|].
    intros l (sql & args & (tb & q & rest & Ht & Hq & ->)%archiveSQL_head & ->). unfold describes. simpl. eauto 10.
  - rewrite bool_decide_eq_false_2 by (intros [? [=]]). eapply leaves_bind; [apply quiet_leaves, deleteSiblings_quiet, _|intros _; apply execStmt_leaves|].
    intros l1 l2 _ (sql & args & (wh & _ & (tb & Ht & [= <- <-])%obind_Ret)%obind_Ret & ->). unfold describes. simpl. eauto 10.
Qed.

(** C22: the outbox payload tells the consumers what was done to each child.  In a
    successful insert or update, the [_op] of a child in the payload and the statements
    the write issued for that child agree: "insert" heads an INSERT into the child's
    table, "update" an UPDATE of it that matched a row, "archive" is one UPDATE of its
    archive column, "delete" ends with a DELETE from it, and "noop" is no statement. *)
Theorem payload_ops_match_statements child eventType cascade fkID now it s s' u :
  eventType = "INSERTED" \/ eventType = "UPDATED" ->
  writeChild env child fkID now it s = (s', Ret u) ->
  exists l, pw_trace s'.1 = pw_trace s.1 ++ l /\ describes (ci_op (childItem env child eventType cascade it)) (ch_part child) l.
Proof.
  intros Hev. revert s s' u.
  assert (Eop : ci_op (childItem env child eventType cascade it) =
    match OperationOf (e_originalStatus it) (e_currentStatus it) with
    | OpInsert => "insert" | OpUpdate => "update" | OpNoop => "noop"
    | OpDelete => if bool_decide (is_Some (archivedAtColumn (ch_part child))) then "archive" else "delete" end).
  { unfold childItem. simpl. destruct Hev as [-> | ->]; simpl; unfold childOpName;
      destruct (OperationOf _ _); try done; by destruct (bool_decide _). }
  rewrite Eop. change (leaves (writeChild env child fkID now it)
    (describes match OperationOf (e_originalStatus it) (e_currentStatus it) with
     | OpInsert => "insert" | OpUpdate => "update" | OpNoop => "noop"
     | OpDelete => if bool_decide (is_Some (archivedAtColumn (ch_part child))) then "archive" else "delete" end (ch_part child))).
  unfold writeChild. destruct (OperationOf _ _).
  - intros s s' a [= <- _]. exists []. by rewrite app_nil_r.
  - eapply leaves_bind; [apply insertChild_leaves|intros cid; apply grows_leaves, (onSource_grows (fun _ => False))|].
    intros l1 [|e l2] Hd Hf; [by rewrite app_nil_r|by apply Forall_inv in Hf].
  - apply updateChild_leaves.
  - apply removeChild_leaves.
Qed.

End Children.

Lemma payload_ops_match_statements_witness :
  exists s l, writeChild ShopWrites.env ShopWrites.lines "o1" 5 (mkEntry (ShopWrites.line "l1" "A" []) StatusConstructor StatusRemoved)
                (ShopWrites.start ShopWrites.edited) = (s, Ret tt) /\ pw_trace s.1 = [] ++ l /\
    describes ShopWrites.env "archive" (ch_part ShopWrites.lines) l.
Proof.
  destruct (writeChild ShopWrites.env ShopWrites.lines "o1" 5 (mkEntry (ShopWrites.line "l1" "A" []) StatusConstructor StatusRemoved)
              (ShopWrites.start ShopWrites.edited)) as [s r] eqn:E.
  assert (Hr : r = Ret tt) by (vm_compute in E; congruence). rewrite Hr in E.
  destruct (payload_ops_match_statements ShopWrites.env ShopWrites.lines "UPDATED" zeroTime "o1" 5
              (mkEntry (ShopWrites.line "l1" "A" []) StatusConstructor StatusRemoved) _ _ _ (or_intror eq_refl) E) as (l & El & Hl).
  exists s, l. split; [by rewrite Hr|]. split; [exact El|exact Hl].
Defined.

(** ** Findings *)

Module Stamps.
Import ShopWrites.

Definition packed : StampRequest := mkStamp "PackedAt" StampFill.

(** The stamp of the first line once the order is written. *)
Definition packedAfter (it : aggregateItemEntry Line) : option (list Value) :=
  let e := (persist env schema noHook update (start (order [it] []))).1.2 in
  match AllAggregateItems (en_ar e) !! "OrderLine" with
  | Some entries => Some ((fun entry => ln_packedAt (e_item entry)) <$> entries)
  | None => None
  end.

#[local] Instance SqlArg_eq_dec : EqDecision SqlArg.
Proof. solve_decision. Defined.

Definition boundBy (rows : list (list SqlArg)) (a : SqlArg) : bool := existsb (fun args => existsb (fun x => bool_decide (x = a)) args) rows.

(** The stamp of an inserted line reaches its row and not the aggregate: the id is
    written back on a copy of the line as it was before the stamp.  The stamp of an
    updated line reaches both. *)
Theorem inserted_child_loses_its_stamp :
  let added := mkEntry (line "" "B" [packed]) StatusAdded StatusAdded in
  let changed := mkEntry (line "l1" "A" [packed]) StatusConstructor StatusChanged in
  texts (traceOf update (order [added] [])) !! 2%nat =
    Some "INSERT INTO order_lines (id, order_id, sku, packed_at) VALUES ($1, $2, $3, $4)" /\
  packedAfter added = Some [VTimePtr None] /\
  packedAfter changed = Some [VTimePtr (Some (false, "5000"))].
Proof. vm_compute. done. Qed.

(** A serialiser that tells whether the payload has the stamped column. *)
Definition telling : Env Line unit Order nat SqlArg string :=
  mkEnv (backend 1) (env_dialect env) (env_isUUID env)
    (fun p => inr (if bool_decide (is_Some (pl_cols p !! "approved_at")) then "stamped" else "unstamped")) "" (env_auditEvent env)
    (env_auditRow env) (env_sprint env) (env_baseID env) (env_parseTime env) ln_managed map_to_list (env_cfg env).

Definition told (v : WriteVerb) : list (Event SqlArg string) :=
  pw_trace (persist telling schema noHook v (start (order [] [mkStamp "ApprovedAt" StampFill]))).1.1.

(** A line that an update removes is archived with the write's instant, and announced
    with the zero instant: the payload takes the stamp of a cascade that did not run. *)
Theorem removed_child_is_announced_with_a_zero_stamp :
  let removed := mkEntry (line "l1" "A" []) StatusConstructor StatusRemoved in
  let l := traceOf update (order [removed] []) in
  texts l !! 2%nat = Some "UPDATE order_lines SET archived_at = $1 WHERE id = $2" /\
  (exists e, l !! 2%nat = Some (EvExec SData e [ATime "5000"; AText "l1"] None)) /\
  exists items item, childrenBlock env schema false "UPDATED" noStamps (order [removed] []) !! "OrderLine" = Some items /\
    items = [item] /\ ci_op item = "archive" /\ ci_cols item !! "archived_at" = Some (timeValue zeroTime).
Proof. vm_compute. split; [done|]. split; [by eexists|]. by do 2 eexists. Qed.

Definition archive : WriteVerb := WArchive (mkArchivable meta (NewID "o1")).

(** An archive writes the stamps a rule asked for, as an update does, but its payload
    does not carry them: the projections keep the old value. *)
Theorem archive_payload_omits_stamps :
  texts (told archive) !! 2%nat = Some
    "UPDATE orders SET archived_at = $1, status = $2, updated_at = $3, approved_at = $4, revision = revision + 1 WHERE id = $5 AND revision = $6" /\
  boundBy (outboxRows (told update)) (AText "stamped") = true /\
  boundBy (outboxRows (told archive)) (AText "unstamped") = true.
Proof. vm_compute. done. Qed.

End Stamps.
