(* ===== verification/CommandClaims.v ===== *)
(** * Commands on the relational persister

    The handlers composed with the engine: what a command does to the database when its
    repository writes through [BaseRepository]. *)

From S2P Require Import Prelude Naming FieldMeta Notification Errors BaseEntity Aggregate AggregateProps Rules Entity EntityProps EntityClaims Criteria CriteriaSql Dialects CriteriaProps Queries Translation Pipeline WriteSchema WriteSql WriteSqlProps Persister Handlers PersisterVerbs PersisterProps HandlerClaims PersisterClaims.
From stdpp Require Import base gmap strings list fin_maps.
From Stdlib Require Import Ascii ZArith Lia.

Open Scope string_scope.
Open Scope list_scope.
Open Scope go_scope.

(** ** Traces of a command *)

Section Traces.
Context {Arg AE : Type}.
Abbreviation Ev := (Event Arg AE).

Definition isQuery (e : Ev) : Prop := match e with EvQuery _ _ _ _ => True | _ => False end.

Definition commits (l : list Ev) : nat := length (List.filter (fun e => match e with EvCommit None => true | _ => false end) l).

(** One committed transaction with everything that was carried out; nothing durable. *)
Definition Tx (l : list Ev) : Prop := commits l = 1%nat /\ durable l = executed l.
Definition NoTx (l : list Ev) : Prop := commits l = 0%nat /\ durable l = [].

Lemma commits_app l1 l2 : commits (l1 ++ l2) = (commits l1 + commits l2)%nat.
Proof. unfold commits. by rewrite List.filter_app, length_app. Qed.

Lemma queries_nothing l : Forall isQuery l -> commits l = 0%nat /\ executed l = [] /\ forall pending, durableFrom pending l = [].
Proof.
  induction 1 as [|e l He _ (IH1 & IH2 & IH3)]; [done|]. destruct e; try done. split_and!; [done|by rewrite executed_cons|].
  intros pending. apply IH3.
Qed.

Lemma queries_before l1 l2 : Forall isQuery l1 ->
  commits (l1 ++ l2) = commits l2 /\ executed (l1 ++ l2) = executed l2 /\ durable (l1 ++ l2) = durable l2.
Proof.
  intros Hq. destruct (queries_nothing l1 Hq) as (Hc & He & _). rewrite commits_app, Hc, executed_app, He. split_and!; [done..|].
  unfold durable. clear He Hc. induction Hq as [|e l1 Hq' _ IH]; [done|]. by destruct e.
Qed.

Lemma queries_after l1 l2 : Forall isQuery l2 ->
  commits (l1 ++ l2) = commits l1 /\ executed (l1 ++ l2) = executed l1 /\ durable (l1 ++ l2) = durable l1.
Proof.
  intros Hq. destruct (queries_nothing l2 Hq) as (Hc & He & Hd). rewrite commits_app, Hc, executed_app, He, app_nil_r.
  split_and!; [lia|done|]. unfold durable. generalize (@nil (list Tok * list Arg)) as pending.
  induction l1 as [|e l1 IH]; intros pending; [apply Hd|]. simpl. destruct e as [| | | |[]| | |]; rewrite ?IH; done.
Qed.

Lemma inside_no_commit (l : list Ev) : Forall inside l -> commits l = 0%nat.
Proof. induction 1 as [|e l He _ IH]; [done|]. by destruct e. Qed.

Lemma afterwards_no_commit (l : list Ev) : Forall afterwards l -> commits l = 0%nat.
Proof. induction 1 as [|e l He _ IH]; [done|]. by destruct e. Qed.

End Traces.

Lemma failed_commits {V S D W Arg AE A} (env : Env V S D W Arg AE) Q (l : list (Event Arg AE)) (x : Outcome GoErr A) :
  VerbRun env Q l x -> notRet x -> commits l = 0%nat.
Proof.
  intros [-> _|err -> _|body -> Hb] Hn; [done|done|].
  change (EvBegin None :: body ++ [EvRollback]) with ([EvBegin None] ++ body ++ [EvRollback]). rewrite !commits_app. simpl.
  destruct Hb as [H1%stmt_inside _|l0 err -> H2%stmt_inside _|l1 l2 a -> _ _ -> _]; [| |by destruct (Hn a)].
  - by rewrite inside_no_commit.
  - by rewrite commits_app, inside_no_commit.
Qed.

Section Commands.
Context {V S D W Arg AE Ctx T : Type} `{AVOLaws V} (d : EntityDef V S D).
Context (scopedService : S -> option (Ctx -> option S)) (clock : PWorld W Arg AE -> Z).

Abbreviation Ent := (EntityState V S D).
Abbreviation PWd := (PWorld W Arg AE).
Abbreviation AB := (Ctx -> HookBody V S D Arg).
Abbreviation BC := (Ctx -> ID -> HookBody V S D Arg).

Context (r : @BaseRepository V S D W Arg AE Ctx) (h : CommandHandler V S D AB BC Ctx PWd) (ctx : Ctx).
Context (cmd : Command V S D AB BC Ctx PWd T).
Context `{!WriteDialectLaws (env_dialect (br_env r ctx))}.

(** What the command and the loads of its repository may do to the database: query
    it. *)
Definition readsW {A} (c : GoM PWd GoErr A) : Prop :=
  forall p, exists l, pw_trace (c p).1 = pw_trace p ++ l /\ Forall isQuery l.

Definition readsE {A} (c : GoM (PWd * Ent) GoErr A) : Prop :=
  forall s, exists l, pw_trace (c s).1.1 = pw_trace s.1 ++ l /\ Forall isQuery l.

(** The repository writes through the engine and only reads otherwise. *)
Record OnEngine : Prop := {
  oe_scope opts : r_Scope (h_Repo h) ctx opts = boundWriter r ctx opts;
  oe_find i : readsW (r_FindByID (h_Repo h) i);
  oe_reader f i : r_ScopedReader (h_Repo h) = Some f -> readsW (f ctx i);
  oe_archivedReader f i : r_ScopedArchivedReader (h_Repo h) = Some f -> readsW (f ctx i);
  oe_findArchived f i : r_FindArchivedByID (h_Repo h) = Some f -> readsW (f i);
  oe_sharedBase f e : r_LoadForSharedBaseInsert (h_Repo h) = Some f -> readsW (f ctx e);
  oe_toEntity : readsW (c_ToEntity cmd ctx);
  oe_fromEntity : readsE (c_FromEntity cmd ctx)
}.

(** The handler's verb on the entity, and the value it seals it as. *)
Definition sealerOf (k : HandlerKind) (action : string) (now : Z) : GoM Ent GetError Sealed :=
  let svc := service scopedService h ctx in
  match k with
  | HInsert | HSharedBaseInsert => x <- getInsertable d svc action now;; gret (SInsert x)
  | HUpdate => x <- getUpdatable d svc action now (Some (c_ApplyTo cmd ctx)) false;; gret (SUpdate x)
  | HPartialUpdate => x <- getUpdatable d svc action now (Some (c_ApplyPartiallyTo cmd ctx)) true;; gret (SUpdate x)
  | HDelete => x <- getDeletable d svc action now;; gret (SDelete x)
  | HArchive => x <- getArchivable d svc action now;; gret (SArchive x)
  | HUnarchive => x <- getUnarchivable d svc action now;; gret (SUnarchive x)
  end.

(** The engine's write of a sealed value, with the command's hooks. *)
Definition engineWrite (x : Sealed) : GoM (PWd * Ent) GoErr unit :=
  let w := boundWriter r ctx (collectWriteOptions cmd) in
  match x with
  | SInsert v => w_Insert w v;;; gret tt
  | SUpdate v => w_Update w v
  | SArchive v => w_Archive w v
  | SUnarchive v => w_Unarchive w v
  | SDelete v => w_Delete w v
  end.

(** From the world [p], the events [l] are queries, the engine's write of a value that the
    handler's verb sealed, and queries: the verb ran at the world [p1] reached by the first
    queries, found the entity valid and left it as [e], and the write was made right there,
    on that entity. *)
Definition wroteSealed (k : HandlerKind) (p : PWd) (l : list (Event Arg AE)) : Prop :=
  exists l0 lw l2 p1 action e0 e x,
    l = l0 ++ lw ++ l2 /\ Forall isQuery l0 /\ Forall isQuery l2 /\
    pw_trace p1 = pw_trace p ++ l0 /\
    sealerOf k action (clock p1) e0 = (e, Ret x) /\
    validFor d (service scopedService h ctx) (verbOf ctx cmd k) e /\ sealedID x = en_GetID e /\ writesAs k x /\
    pw_trace (engineWrite x (p1, e)).1.1 = pw_trace p1 ++ lw.

(** A command's trace: nothing durable, or one transaction, and it is that write. *)
Definition accounted (k : HandlerKind) (p : PWd) (l : list (Event Arg AE)) : Prop :=
  NoTx l \/ (Tx l /\ wroteSealed k p l).

Definition onceW {A} (k : HandlerKind) (c : GoM PWd GoErr A) : Prop :=
  forall p, exists l, pw_trace (c p).1 = pw_trace p ++ l /\ accounted k p l /\ ((exists a, (c p).2 = Ret a) -> commits l = 1%nat).

Definition onceE {A} (k : HandlerKind) (c : GoM (PWd * Ent) GoErr A) (s : PWd * Ent) : Prop :=
  exists l, pw_trace (c s).1.1 = pw_trace s.1 ++ l /\ accounted k s.1 l /\ ((exists a, (c s).2 = Ret a) -> commits l = 1%nat).

Lemma accounted_before k p p1 l1 l2 :
  pw_trace p1 = pw_trace p ++ l1 -> Forall isQuery l1 -> accounted k p1 l2 -> accounted k p (l1 ++ l2).
Proof.
  intros E Hq. pose proof (queries_before l1 l2 Hq) as (Hc & He & Hd). unfold accounted, NoTx, Tx. rewrite Hc, He, Hd.
  intros [?|[? (l0 & lw & l3 & p2 & act & e0 & e & x & -> & Hq0 & Hq2 & Ep & Hr)]]; [by left|right]. split; [done|].
  exists (l1 ++ l0), lw, l3, p2, act, e0, e, x. split_and!; try apply Hr; [by rewrite app_assoc|by apply Forall_app|done|by rewrite Ep, E, app_assoc].
Qed.

Lemma accounted_after k p l1 l2 : Forall isQuery l2 -> accounted k p l1 -> accounted k p (l1 ++ l2).
Proof.
  intros Hq. pose proof (queries_after l1 l2 Hq) as (Hc & He & Hd). unfold accounted, NoTx, Tx. rewrite Hc, He, Hd.
  intros [?|[? (l0 & lw & l3 & p2 & act & e0 & e & x & -> & Hq0 & Hq2 & Hr)]]; [by left|right]. split; [done|].
  exists l0, lw, (l3 ++ l2), p2, act, e0, e, x. split_and!; try apply Hr; [by rewrite <- !app_assoc|done|by apply Forall_app].
Qed.

Lemma accounted_queries k p l : Forall isQuery l -> accounted k p l.
Proof. intros (Hc & _ & Hd)%queries_nothing. left. split; [done|apply Hd]. Qed.

(** *** Composition *)

Lemma onceW_bind {A B} k (c : GoM PWd GoErr A) (f : A -> GoM PWd GoErr B) :
  readsW c -> (forall a, onceW k (f a)) -> onceW k (gbind c f).
Proof.
  intros Hc Hf p. destruct (Hc p) as (l & E & Hq). unfold gbind. destruct (c p) as [p1 [a|e|m]]; simpl in *.
  2, 3: exists l; split_and!; [done|by apply accounted_queries|by intros [? [=]]].
  destruct (Hf a p1) as (l2 & E2 & Ha & Hr). exists (l ++ l2). rewrite E2, E, app_assoc. split_and!; [done|by eapply accounted_before|].
  intros Hret. rewrite commits_app. destruct (queries_nothing l Hq) as [-> _]. by apply Hr.
Qed.

Lemma onceE_bind {A B} k (c : GoM (PWd * Ent) GoErr A) (f : A -> GoM (PWd * Ent) GoErr B) s :
  (exists l, pw_trace (c s).1.1 = pw_trace s.1 ++ l /\ Forall isQuery l) ->
  (forall a s1, c s = (s1, Ret a) -> onceE k (f a) s1) -> onceE k (gbind c f) s.
Proof.
  intros (l & E & Hq) Hf. unfold onceE, gbind. destruct (c s) as [s1 [a|e|m]]; simpl in *.
  2, 3: exists l; split_and!; [done|by apply accounted_queries|by intros [? [=]]].
  destruct (Hf a s1 eq_refl) as (l2 & E2 & Ha & Hr). exists (l ++ l2). rewrite E2, E, app_assoc. split_and!; [done|by eapply accounted_before|].
  intros Hret. rewrite commits_app. destruct (queries_nothing l Hq) as [-> _]. by apply Hr.
Qed.

Lemma onceE_then {A B} k (c : GoM (PWd * Ent) GoErr A) (f : A -> GoM (PWd * Ent) GoErr B) s :
  onceE k c s -> (forall a, readsE (f a)) -> onceE k (gbind c f) s.
Proof.
  intros (l & E & Ha & Hr) Hf. unfold onceE, gbind. destruct (c s) as [s1 [a|e|m]]; simpl in *.
  2, 3: exists l; split_and!; [done|done|by intros [? [=]]].
  destruct (Hf a s1) as (l2 & E2 & Hq). exists (l ++ l2). rewrite E2, E, app_assoc. split_and!; [done|by apply accounted_after|].
  intros _. rewrite commits_app. destruct (queries_nothing l2 Hq) as [-> _]. rewrite Nat.add_0_r. apply Hr. by exists a.
Qed.

Lemma withEntity_once {A} k e (c : GoM (PWd * Ent) GoErr A) : (forall p, onceE k c (p, e)) -> onceW k (withEntity e c).
Proof. intros Hc p. destruct (Hc p) as (l & E & Ha & Hr). exists l. unfold withEntity. by destruct (c (p, e)) as [[p' e'] x]. Qed.

Lemma readsE_bind {A B} (c : GoM (PWd * Ent) GoErr A) (f : A -> GoM (PWd * Ent) GoErr B) :
  readsE c -> (forall a, readsE (f a)) -> readsE (gbind c f).
Proof.
  intros Hc Hf s. destruct (Hc s) as (l & E & Hq). unfold gbind. destruct (c s) as [s1 [a|e|m]]; simpl in *; [|by exists l..].
  destruct (Hf a s1) as (l2 & E2 & H2). exists (l ++ l2). rewrite E2, E, app_assoc. split; [done|by apply Forall_app].
Qed.

Lemma onEntity_reads {A} (c : GoM Ent GetError A) : readsE (onEntity c).
Proof. intros [p e]. exists []. simpl. destruct (c e) as [e' [a|err|m]]; by rewrite app_nil_r. Qed.

Lemma sealing_reads {A} (verb : Z -> GoM Ent GetError A) : readsE (sealing clock verb).
Proof. intros s. apply onEntity_reads. Qed.

(** *** The write *)

Abbreviation env := (br_env r ctx).
Abbreviation hook := (AdaptWriteOptions ctx (collectWriteOptions cmd)).

Lemma verbRun_tx {A} Q l (x : Outcome GoErr A) : VerbRun env Q l x -> (exists a, x = Ret a) /\ Tx l \/ notRet x /\ NoTx l.
Proof.
  intros Hv. destruct x as [a|e|m].
  - left. split; [by exists a|]. apply run_committed in Hv as [(l1 & l2 & -> & H1 & H2) Hd]. split; [|exact Hd].
    change (EvBegin None :: l1 ++ EvCommit None :: l2 ++ [EvRollback]) with ([EvBegin None] ++ l1 ++ [EvCommit None] ++ l2 ++ [EvRollback]).
    by rewrite !commits_app, (inside_no_commit l1), (afterwards_no_commit l2).
  - right. split; [done|]. split; [|by eapply run_failed]. by apply failed_commits in Hv.
  - right. split; [done|]. split; [|by eapply run_failed]. by apply failed_commits in Hv.
Qed.

Lemma mapErr_then {A B} (c : GoM (PWd * Ent) GoErr A) (f : A -> B) s :
  gbind (mapErr r ctx c) (fun a => gret (f a)) s = mapErr r ctx (gbind c (fun a => gret (f a))) s.
Proof. unfold gbind, mapErr. by destruct (c s) as [s1 [a|e|m]]. Qed.

(** The engine's write is a run of one of its verbs, with its errors mapped. *)
Lemma engineWrite_runs x : exists c Q, (forall s, engineWrite x s = mapErr r ctx c s) /\ runs (A := unit) c (VerbRun env Q).
Proof.
  destruct x as [x|x|x|x|x]; simpl; do 2 eexists.
  - split; [intros s|].
    + rewrite <- (mapErr_then (BaseEngine_Insert env x (br_schema r) hook) (fun _ => tt)).
      unfold gbind, mapErr. by destruct (BaseEngine_Insert _ _ _ _ s) as [s1 [a|e|m]].
    + apply (verb_then_ret env (BaseEngine_Insert _ _ _ _) (fun _ => tt)), Insert_run, _.
  - split; [intros s; apply (mapErr_then _ (fun _ => tt))|].
    apply (verb_then_ret env (BaseEngine_Update _ _ _ _) (fun _ => tt)), Update_run, _.
  - split; [done|]. apply archiveWrite_run, _.
  - split; [done|]. apply archiveWrite_run, _.
  - split; [done|]. apply Delete_run, _.
Qed.

Lemma engineWrite_tx x s : exists l, pw_trace (engineWrite x s).1.1 = pw_trace s.1 ++ l /\
  ((exists a, (engineWrite x s).2 = Ret a) /\ Tx l \/ notRet (engineWrite x s).2 /\ NoTx l).
Proof.
  destruct (engineWrite_runs x) as (c & Q & Ec & Hc). destruct (Hc s) as (l & E & Hl). exists l. rewrite Ec. unfold mapErr.
  apply verbRun_tx in Hl. destruct (c s) as [s1 [a|err|m]]; simpl in *; (split; [exact E|]).
  - exact Hl.
  - right. split; [done|]. destruct Hl as [[[b [=]] _]|[_ Ht]]. exact Ht.
  - right. split; [done|]. destruct Hl as [[[b [=]] _]|[_ Ht]]. exact Ht.
Qed.

Lemma sealerOf_good k action now e0 e x :
  sealerOf k action now e0 = (e, Ret x) ->
  validFor d (service scopedService h ctx) (verbOf ctx cmd k) e /\ sealedID x = en_GetID e /\ writesAs k x.
Proof.
  unfold sealerOf. destruct k; intros (v & e1 & Hv & [= -> <-])%gbind_Ret;
    first [apply insert_sealed in Hv as [Hv Hid]|apply update_sealed in Hv as (Hv & Hid & Hp)|apply delete_sealed in Hv as [Hv Hid]
          |apply archive_sealed in Hv as [Hv Hid]|apply unarchive_sealed in Hv as [Hv Hid]];
    apply sealed_valid in Hv as [_ Hv]; done.
Qed.

(** The write of what the verb sealed, made where it was sealed. *)
Lemma write_once k action e0 x p e : sealerOf k action (clock p) e0 = (e, Ret x) -> onceE k (engineWrite x) (p, e).
Proof.
  intros Hs. destruct (engineWrite_tx x (p, e)) as (l & E & Hl). exists l. split; [exact E|].
  destruct Hl as [[_ Ht]|[Hn Ht]]; [|split; [by left|intros [a Ea]; by destruct (Hn a)]].
  split; [right; split; [exact Ht|]|by destruct Ht]. destruct (sealerOf_good _ _ _ _ _ _ Hs) as (Hv & Hid & Hw).
  exists [], l, [], p, action, e0, e, x. rewrite !app_nil_r. by split_and!.
Qed.

(** *** The handlers *)

Context (Hon : OnEngine).

Lemma scoped_eq : scoped h ctx cmd = boundWriter r ctx (collectWriteOptions cmd).
Proof. apply (oe_scope Hon). Qed.

Lemma setEntityID_reads i : readsE (setEntityID i).
Proof. intros [p e]. exists []. by rewrite app_nil_r. Qed.

Lemma captureLoaded_reads (load : GoM PWd GoErr Ent) : readsW load -> readsW (captureLoaded d load).
Proof.
  intros Hl p. destruct (Hl p) as (l & E & Hq). exists l. unfold captureLoaded, gbind. by destruct (load p) as [p1 [e|err|m]].
Qed.

Lemma LoadForWrite_reads i : readsW (LoadForWrite d (h_Repo h) ctx i).
Proof.
  unfold LoadForWrite. destruct (r_ScopedReader (h_Repo h)) as [f|] eqn:Ef; apply captureLoaded_reads; [by apply (oe_reader Hon)|apply (oe_find Hon)].
Qed.

Lemma RequirePathID_reads pathID n : readsW (RequirePathID pathID n).
Proof. intros p. exists []. rewrite app_nil_r. unfold RequirePathID. by case_match. Qed.

Lemma wrong_kind_once {A} k text : onceW k (gfail (ELeaf text) : GoM PWd GoErr A).
Proof. intros p. exists []. rewrite app_nil_r. split_and!; [done|by apply accounted_queries|by intros [? [=]]]. Qed.

(** Seal, write, project. *)
Lemma seal_once {X A} k action (verb : Z -> GoM Ent GetError X) (mk : X -> Sealed) (wr : X -> GoM (PWd * Ent) GoErr A)
  (fin : A -> GoM (PWd * Ent) GoErr T) s :
  (forall now, sealerOf k action now = (x <- verb now;; gret (mk x))) ->
  (forall x s, gbind (wr x) (fun _ => gret tt) s = engineWrite (mk x) s) ->
  (forall a, readsE (fin a)) ->
  onceE k (x <- sealing clock verb;; a <- wr x;; fin a) s.
Proof.
  intros Hverb Hwr Hfin. apply onceE_bind; [apply sealing_reads|]. intros x s1 Hs. destruct s as [p e].
  apply sealing_Ret in Hs as (e' & -> & Hs). apply onceE_then; [|done].
  destruct (write_once k action e (mk x) p e') as (l & E & Ha & Hr).
  { rewrite Hverb. unfold gbind. by rewrite Hs. }
  exists l. rewrite <- Hwr in E, Hr. unfold gbind in E, Hr. destruct (wr x (p, e')) as [s1 [a|err|m]]; simpl in *; (split_and!; [done..|]).
  - intros _. apply Hr. by exists tt.
  - by intros [? [=]].
  - by intros [? [=]].
Qed.

Lemma unit_write (c : GoM (PWd * Ent) GoErr unit) s : gbind c (fun _ => gret tt) s = c s.
Proof. unfold gbind. by destruct (c s) as [s1 [[]|e|m]]. Qed.

Lemma from_reads (A : Type) : forall _ : A, readsE (c_FromEntity cmd ctx).
Proof. intros _. apply (oe_fromEntity Hon). Qed.

Lemma insert_fin_reads i : readsE (setEntityID i;;; c_FromEntity cmd ctx).
Proof. apply readsE_bind; [apply setEntityID_reads|apply from_reads]. Qed.

(** The three bodyless verbs after their load. *)
Lemma bodyless_once {X} k action (verb : Z -> GoM Ent GetError X) (mk : X -> Sealed) (wr : X -> GoM (PWd * Ent) GoErr unit) e :
  (forall now, sealerOf k action now = (x <- verb now;; gret (mk x))) ->
  (forall x, wr x = engineWrite (mk x)) ->
  onceW k (withEntity e (onEntity (runCmds d (c_ApplyTo cmd ctx));;; x <- sealing clock verb;; wr x;;; c_FromEntity cmd ctx)).
Proof.
  intros Hverb Hwr. apply withEntity_once. intros p. apply onceE_bind; [apply onEntity_reads|]. intros u s1 _.
  eapply seal_once; [exact Hverb| |apply from_reads]. intros x s. rewrite Hwr. apply unit_write.
Qed.

Lemma insert_once : onceW HInsert (InsertCommandHandler_Handle d scopedService clock h ctx cmd).
Proof.
  unfold InsertCommandHandler_Handle. rewrite scoped_eq.
  destruct (r_LoadForSharedBaseInsert (h_Repo h)); [apply wrong_kind_once|]. apply onceW_bind; [apply (oe_toEntity Hon)|].
  intros e. apply withEntity_once. intros p. by eapply (seal_once HInsert _ _ SInsert); [| |apply insert_fin_reads].
Qed.

Lemma sharedBaseInsert_once : onceW HSharedBaseInsert (SharedBaseInsertCommandHandler_Handle d scopedService clock h ctx cmd).
Proof.
  unfold SharedBaseInsertCommandHandler_Handle. rewrite scoped_eq.
  destruct (r_LoadForSharedBaseInsert (h_Repo h)) as [f|] eqn:Ef; [|apply wrong_kind_once]. cbv zeta.
  apply onceW_bind; [|intros fresh; apply onceW_bind; [by apply (oe_sharedBase Hon)|]].
  { intros p. exists []. unfold withEntity, gbind. simpl. rewrite app_nil_r.
    by destruct (runCmds d (c_ApplyTo cmd ctx) (r_New (h_Repo h))) as [e' [a|err|m]]. }
  intros [e existed]. apply withEntity_once. intros p. apply onceE_bind.
  { destruct existed; [apply (readsE_bind (onEntity _) (fun _ => gret _)); [apply onEntity_reads|]; intros _ s|];
      exists []; by rewrite app_nil_r. }
  intros action s1 _. by eapply (seal_once HSharedBaseInsert _ _ SInsert); [| |apply insert_fin_reads].
Qed.

Lemma unarchive_once : onceW HUnarchive (UnarchiveCommandHandler_Handle d scopedService clock h ctx cmd).
Proof.
  unfold UnarchiveCommandHandler_Handle. rewrite scoped_eq. apply onceW_bind; [apply RequirePathID_reads|]. intros _.
  unfold LoadArchivedForWrite.
  assert (Hun : forall e, onceW HUnarchive (withEntity e (onEntity (runCmds d (c_ApplyTo cmd ctx));;;
    x <- sealing clock (getUnarchivable d (service scopedService h ctx) "GetUnarchivable");;
    w_Unarchive (boundWriter r ctx (collectWriteOptions cmd)) x;;; c_FromEntity cmd ctx))).
  { intros e. by eapply (bodyless_once HUnarchive _ _ SUnarchive). }
  destruct (r_ScopedArchivedReader (h_Repo h)) as [f|] eqn:Ef;
    [|destruct (r_FindArchivedByID (h_Repo h)) as [f|] eqn:Eg; [|apply wrong_kind_once]];
    (apply onceW_bind; [apply captureLoaded_reads|exact Hun]); [by apply (oe_archivedReader Hon)|by apply (oe_findArchived Hon)].
Qed.

(** The route by id up to the load. *)
Lemma loaded_once {A} k pathID n i (f : Ent -> GoM PWd GoErr A) :
  (forall e, onceW k (f e)) -> onceW k (RequirePathID pathID n;;; e <- LoadForWrite d (h_Repo h) ctx i;; f e).
Proof.
  intros Hf. apply onceW_bind; [apply RequirePathID_reads|]. intros _. apply onceW_bind; [apply LoadForWrite_reads|]. exact Hf.
Qed.

Lemma handler_once k : onceW k (Handle d scopedService clock k h ctx cmd).
Proof.
  destruct k; simpl; unfold UpdateCommandHandler_Handle, PartialUpdateCommandHandler_Handle, DeleteCommandHandler_Handle,
    ArchiveCommandHandler_Handle; rewrite ?scoped_eq.
  - apply insert_once.
  - apply sharedBaseInsert_once.
  - apply loaded_once. intros e. apply withEntity_once. intros p.
    by eapply (seal_once HUpdate _ _ SUpdate); [|intros x s; apply unit_write|apply from_reads].
  - apply onceW_bind; [apply RequirePathID_reads|]. intros _. apply onceW_bind; [apply (oe_find Hon)|]. intros e.
    apply withEntity_once. intros p.
    by eapply (seal_once HPartialUpdate _ _ SUpdate); [|intros x s; apply unit_write|apply from_reads].
  - apply loaded_once. intros e. by eapply (bodyless_once HDelete _ _ SDelete).
  - apply loaded_once. intros e. by eapply (bodyless_once HArchive _ _ SArchive).
  - apply unarchive_once.
Qed.

(** C2: a command is one transaction, the engine's write of the value its verb sealed, or
    nothing.  For each of the seven handlers, on a repository that writes through the
    relational engine and whose loads, like the command's own ToEntity and FromEntity, only
    query the database ([OnEngine]): whatever the rules, the hooks and the database do, the
    database either keeps none of the statements of the command, or keeps exactly those it
    carried out, under a single commit.  In the second case the events of the command are
    queries, then the events of the engine's write of one value, then queries; that value is
    what the handler's own verb returned when it sealed the entity, in the world the write
    started from, and it bears the entity's id; the entity passed everything the verb
    checks.  A command that returns a value committed. *)
Theorem command_is_one_valid_transaction k p :
  let run := Handle d scopedService clock k h ctx cmd p in
  exists l, pw_trace run.1 = pw_trace p ++ l /\ ((exists v, run.2 = Ret v) -> commits l = 1%nat) /\
    ((commits l = 0%nat /\ durable l = []) \/
     (commits l = 1%nat /\ durable l = executed l /\
      exists l0 lw l2 p1 action e0 e x,
        l = l0 ++ lw ++ l2 /\ Forall isQuery l0 /\ Forall isQuery l2 /\
        pw_trace p1 = pw_trace p ++ l0 /\
        sealerOf k action (clock p1) e0 = (e, Ret x) /\
        validFor d (service scopedService h ctx) (verbOf ctx cmd k) e /\ sealedID x = en_GetID e /\ writesAs k x /\
        pw_trace (engineWrite x (p1, e)).1.1 = pw_trace p1 ++ lw)).
Proof.
  destruct (handler_once k p) as (l & E & Ha & Hr). exists l. split; [exact E|]. split; [exact Hr|].
  destruct Ha as [Hn|[[Hc Hd] Hx]]; [by left|by right].
Qed.

End Commands.

(** ** A sample command *)

Module ShopCommands.
Import ShopWrites.

#[export] Instance Line_laws : AVOLaws Line.
Proof.
  split; simpl.
  - intros v. apply String.eqb_refl.
  - intros v w. rewrite !String.eqb_eq. congruence.
  - intros u v w. rewrite !String.eqb_eq. congruence.
  - done.
  - intros i v v' [= <-]. apply String.eqb_refl.
  - intros [] v v' [= <-]. done.
Qed.

Definition orderDef : EntityDef Line unit Order := {|
  ed_className := "Order";
  ed_type := TPointer (TStruct "Order" 8 false false []);
  ed_addr := 4096;
  ed_Modes := fun _ => [ModeUpdate; ModeArchive];
  ed_RequiresService := false;
  ed_BuildRules := fun _ _ => RDone;
  ed_fields := fun _ => [];
  ed_children := Some [line "" "" []];
  ed_childType := fun _ => TStruct "OrderLine" 8 false false [];
  ed_childAddr := 8192;
  ed_childRules := fun _ _ _ => Some RDone;
  ed_childFields := fun _ => [];
  ed_iter := map_to_list;
  ed_parse := fun s => if String.eqb s "" then Some "invalid UUID length: 0" else None;
  ed_clone := Some
|}.

Definition repository : @BaseRepository Line unit Order nat SqlArg string unit :=
  mkBaseRepository (fun _ => env) "Order" ∅ schema.

Abbreviation AB := (unit -> HookBody Line unit Order SqlArg).
Abbreviation BC := (unit -> ID -> HookBody Line unit Order SqlArg).

(** The repository of the sample: one stored order without lines. *)
Definition handler : CommandHandler Line unit Order AB BC unit (PWorld nat SqlArg string) :=
  mkHandler (mkRepository "*OrderRepository" (fun _ => gret (order [] [])) (order [] []) (boundWriter repository) None None None None) None.

Definition command : Command Line unit Order AB BC unit (PWorld nat SqlArg string) string := {|
  c_PathID := "o1";
  c_ToEntity _ := gret (order [] []);
  c_ApplyTo _ := CDo (CSetData (fun o => mkOrder "closed" (or_approvedAt o))) (CReturn None);
  c_ApplyPartiallyTo _ := CReturn None;
  c_FromEntity _ := fun s => (s, Ret (or_status (en_data s.2)));
  c_AfterBegin := None;
  c_BeforeCommit := None
|}.

Lemma on_engine : OnEngine repository handler tt command.
Proof. split; try done; intros; intros ?; exists []; by rewrite app_nil_r. Qed.

End ShopCommands.

#[local] Existing Instance ShopWrites.Line_ops.
#[local] Existing Instance ShopCommands.Line_laws.

Lemma command_is_one_valid_transaction_witness :
  exists l, pw_trace (Handle ShopCommands.orderDef (fun _ => None) (fun _ => 0%Z) HUpdate ShopCommands.handler tt ShopCommands.command
                        (mkPWorld 0%nat [])).1 = [] ++ l /\ commits l = 1%nat.
Proof.
  destruct (command_is_one_valid_transaction ShopCommands.orderDef (fun _ => None) (fun _ => 0%Z) ShopCommands.repository ShopCommands.handler tt
              ShopCommands.command ShopCommands.on_engine HUpdate (mkPWorld 0%nat [])) as (l & E & Hr & _).
  exists l. split; [exact E|]. apply Hr. eexists. vm_compute. reflexivity.
Defined.
