(* ===== verification/Mongo.v ===== *)
(** * The document store

    Documents, the aggregation expressions and filters the projection writes, and
    the MongoDB adapter of [infra/db/query/store.go] that
    [infra/db/query/engine/mongo/mongo.go] implements.

    The server is a parameter: the class [Mongo] is what the adapter calls, the
    class [MongoLaws] what the MongoDB manual says of the operators used, as
    equations on the shapes of values the projection stores.  [Reference] gives an
    evaluator for which they hold.

    A field path has one step here ("$" followed by a column or segment name).  A
    datetime is its milliseconds, the grain of BSON. *)

From S2P Require Import Prelude.
From stdpp Require Import base gmap strings list fin_maps.
From Stdlib Require Import ZArith Lia.

Open Scope string_scope.
Open Scope list_scope.
Open Scope Z_scope.

(** ** Values, expressions and filters *)

(** A stored value; [MDouble] and [MBin] hold a number's text and raw bytes. *)
Inductive MVal :=
| MNull
| MBool (b : bool)
| MInt (z : Z)
| MDouble (text : string)
| MStr (s : string)
| MDate (ms : Z)
| MBin (bytes : string)
| MArr (l : list MVal)
| MDoc (d : gmap string MVal).

(** [Document]. *)
Abbreviation Document := (gmap string MVal).

(** An expression of an update pipeline.  [MVarField x f] is ["$$x.f"], [MRemove]
    is ["$$REMOVE"]. *)
Inductive MExpr :=
| MLit (v : MVal)
| MNum (z : Z)
| MPath (field : string)
| MVar (x : string)
| MVarField (x field : string)
| MRemove
| MCond (test yes no : MExpr)
| MIfNull (e otherwise : MExpr)
| MLt (a b : MExpr)
| MGt (a b : MExpr)
| MGte (a b : MExpr)
| MEq (a b : MExpr)
| MNe (a b : MExpr)
| MOr (a b : MExpr)
| MNot (a : MExpr)
| MType (e : MExpr)
| MFilter (input : MExpr) (var : string) (test : MExpr)
| MMap (input : MExpr) (var : string) (body : MExpr)
| MElemAt (e : MExpr) (i : Z)
| MSize (e : MExpr)
| MConcat (a b : MExpr)
| MList (items : list MExpr)
| MObject (fields : list (string * MExpr))
| MMerge (a b : MExpr)
| MSortArray (input : MExpr) (keys : list (string * Z)).

(** A stage is [{"$set": ...}]. *)
Abbreviation MStage := (gmap string MExpr).

Inductive MQuery :=
| QId (id : string)
| QLte (field : string) (n : Z)
| QExists (field : string) (wanted : bool)
| QDateIn (field : string) (from upto : Z)
| QOr (qs : list MQuery)
| QAnd (qs : list MQuery).

(** A collection by [_id]. *)
Abbreviation Collection := (gmap string Document).

(** ** The server *)

(** [mg_eval d env e]: the value of [e] on the document [d] under the variables
    [env]; [None] is "missing". *)
Class Mongo := {
  mg_eval : Document -> gmap string MVal -> MExpr -> option MVal;
  mg_set : Document -> MStage -> Document;
  mg_match : Document -> MQuery -> bool;
  mg_updateOne : Collection -> string -> list MStage -> bool -> Collection;
  mg_deleteOne : Collection -> MQuery -> Collection;
  mg_find : Collection -> string -> MVal -> list Document;
  mg_findIDs : Collection -> string -> MVal -> list string
}.

Definition isNullish (v : option MVal) : bool :=
  match v with None | Some MNull => true | _ => false end.

(** The BSON type name of an evaluated expression. *)
Definition typeName (v : option MVal) : string :=
  match v with
  | None => "missing"
  | Some MNull => "null"
  | Some (MBool _) => "bool"
  | Some (MInt _) => "long"
  | Some (MDouble _) => "double"
  | Some (MStr _) => "string"
  | Some (MDate _) => "date"
  | Some (MBin _) => "binData"
  | Some (MArr _) => "array"
  | Some (MDoc _) => "object"
  end.

(** A value that is an integer, or missing. *)
Definition intOrMissing (v : option MVal) : option (option Z) :=
  match v with None => Some None | Some (MInt z) => Some (Some z) | _ => None end.

Class MongoLaws `{Mongo} := {
  ml_lit d env v : mg_eval d env (MLit v) = Some v;
  ml_num d env z : mg_eval d env (MNum z) = Some (MInt z);
  ml_path d env f : mg_eval d env (MPath f) = d !! f;
  ml_var d env x : mg_eval d env (MVar x) = env !! x;
  ml_varField d env x f m : env !! x = Some (MDoc m) -> mg_eval d env (MVarField x f) = m !! f;
  ml_remove d env : mg_eval d env MRemove = None;
  ml_cond d env t y n b : mg_eval d env t = Some (MBool b) ->
    mg_eval d env (MCond t y n) = mg_eval d env (if b then y else n);
  ml_ifNull d env e o :
    mg_eval d env (MIfNull e o) = if isNullish (mg_eval d env e) then mg_eval d env o else mg_eval d env e;
  ml_lt d env a b m n : mg_eval d env a = Some (MInt m) -> mg_eval d env b = Some (MInt n) ->
    mg_eval d env (MLt a b) = Some (MBool (Z.ltb m n));
  ml_gt d env a b m n : mg_eval d env a = Some (MInt m) -> mg_eval d env b = Some (MInt n) ->
    mg_eval d env (MGt a b) = Some (MBool (Z.ltb n m));
  ml_gte d env a b v n : intOrMissing (mg_eval d env a) = Some v -> mg_eval d env b = Some (MInt n) ->
    mg_eval d env (MGte a b) = Some (MBool (match v with Some z => Z.leb n z | None => false end));
  ml_eqInt d env a b v n : intOrMissing (mg_eval d env a) = Some v -> mg_eval d env b = Some (MInt n) ->
    mg_eval d env (MEq a b) = Some (MBool (match v with Some z => Z.eqb z n | None => false end));
  ml_eqStr d env a b s : mg_eval d env b = Some (MStr s) ->
    mg_eval d env (MEq a b) =
      Some (MBool (match mg_eval d env a with Some (MStr t) => String.eqb t s | _ => false end));
  ml_neStr d env a b s : mg_eval d env b = Some (MStr s) ->
    mg_eval d env (MNe a b) =
      Some (MBool (match mg_eval d env a with Some (MStr t) => negb (String.eqb t s) | _ => true end));
  ml_or d env a b p q : mg_eval d env a = Some (MBool p) -> mg_eval d env b = Some (MBool q) ->
    mg_eval d env (MOr a b) = Some (MBool (p || q));
  ml_not d env a p : mg_eval d env a = Some (MBool p) -> mg_eval d env (MNot a) = Some (MBool (negb p));
  ml_type d env e : mg_eval d env (MType e) = Some (MStr (typeName (mg_eval d env e)));
  (** [test] decides the elements of the array as [keep] does. *)
  ml_filter d env i x t l (keep : MVal -> bool) : mg_eval d env i = Some (MArr l) ->
    (forall v, v ∈ l -> mg_eval d (<[x := v]> env) t = Some (MBool (keep v))) ->
    mg_eval d env (MFilter i x t) = Some (MArr (List.filter keep l));
  ml_map d env i x t l (f : MVal -> MVal) : mg_eval d env i = Some (MArr l) ->
    (forall v, v ∈ l -> mg_eval d (<[x := v]> env) t = Some (f v)) ->
    mg_eval d env (MMap i x t) = Some (MArr (f <$> l));
  ml_size d env e l : mg_eval d env e = Some (MArr l) ->
    mg_eval d env (MSize e) = Some (MInt (Z.of_nat (length l)));
  ml_concat d env a b k l : mg_eval d env a = Some (MArr k) -> mg_eval d env b = Some (MArr l) ->
    mg_eval d env (MConcat a b) = Some (MArr (k ++ l));
  ml_nil d env : mg_eval d env (MList []) = Some (MArr []);
  ml_singleton d env e v : mg_eval d env e = Some v -> mg_eval d env (MList [e]) = Some (MArr [v]);
  (** An object expression of literals and numbers, by its evaluated fields. *)
  ml_object d env (fs : list (string * MExpr)) (m : gmap string MVal) :
    (forall f e, (f, e) ∈ fs -> exists v, mg_eval d env e = Some v /\ m !! f = Some v) ->
    (forall f, f ∉ fs.*1 -> m !! f = None) ->
    mg_eval d env (MObject fs) = Some (MDoc m);
  ml_merge d env a b m n : mg_eval d env a = Some (MDoc m) -> mg_eval d env b = Some (MDoc n) ->
    mg_eval d env (MMerge a b) = Some (MDoc (n ∪ m));
  (** [$set]: every field is evaluated on the incoming document; a missing result
      leaves the field out. *)
  ml_set d s f : mg_set d s !! f = match s !! f with Some e => mg_eval d ∅ e | None => d !! f end;
  ml_lte d f n v : intOrMissing (d !! f) = Some v ->
    mg_match d (QLte f n) = match v with Some z => Z.leb z n | None => false end;
  ml_exists d f b : mg_match d (QExists f b) = Bool.eqb (bool_decide (is_Some (d !! f))) b;
  ml_dateIn d f lo hi t : d !! f = Some (MDate t) -> mg_match d (QDateIn f lo hi) = Z.leb lo t && Z.ltb t hi;
  ml_dateMissing d f lo hi : d !! f = None -> mg_match d (QDateIn f lo hi) = false;
  ml_qor d qs : mg_match d (QOr qs) = existsb (mg_match d) qs;
  ml_qand d qs : mg_match d (QAnd qs) = forallb (mg_match d) qs;
  (** An update pipeline on the document keyed by [id]; an upsert starts from the
      key alone. *)
  ml_updateOne c id stages upsert : mg_updateOne c id stages upsert =
    match c !! id with
    | Some d => <[id := foldl mg_set d stages]> c
    | None => if upsert then <[id := foldl mg_set {["_id" := MStr id]} stages]> c else c
    end;
  ml_deleteOne c id qs : mg_deleteOne c (QAnd (QId id :: qs)) =
    match c !! id with
    | Some d => if forallb (mg_match d) qs then delete id c else c
    | None => c
    end;
  ml_findId c id : mg_find c "_id" (MStr id) = option_list (c !! id);
  ml_findIDs c f s id d : c !! id = Some d -> d !! f = Some (MStr s) -> id ∈ mg_findIDs c f (MStr s);
  ml_findIDs_in c f v id : id ∈ mg_findIDs c f v -> is_Some (c !! id)
}.

(** ** The adapter *)

(** [DocRevisionField]. *)
Definition DocRevisionField : string := "_revision".

Section Adapter.
Context `{Mongo}.

Definition ApplyProjection (c : Collection) (id : string) (stages : list MStage) (upsert : bool) : Collection :=
  mg_updateOne c id stages upsert.

Definition Delete (c : Collection) (id : string) : Collection := mg_deleteOne c (QAnd [QId id]).

(** [time.UnixMilli(ms).UTC().Truncate(time.Second)], in milliseconds. *)
Definition truncateSecond (ms : Z) : Z := ms - ms `mod` 1000.

(** The filter of [DeleteGuarded] beside the key. *)
Definition guardedFilter (rev createdAtUnixMs : Z) : list MQuery :=
  QOr [QLte DocRevisionField rev; QExists DocRevisionField false] ::
  (if Z.ltb 0 createdAtUnixMs then
     let floor := truncateSecond createdAtUnixMs in
     [QAnd [QOr [QDateIn "created_at" (floor - 1000) (floor + 1000); QExists "created_at" false]]]
   else []).

Definition DeleteGuarded (c : Collection) (id : string) (rev createdAtUnixMs : Z) : Collection :=
  mg_deleteOne c (QAnd (QId id :: guardedFilter rev createdAtUnixMs)).

Definition FindManyByField (c : Collection) (field : string) (value : MVal) : list Document := mg_find c field value.
Definition FindIDsByField (c : Collection) (field : string) (value : MVal) : list string := mg_findIDs c field value.

End Adapter.

(** ** A reference server *)

Module Reference.

Definition truth (v : option MVal) : bool :=
  match v with Some (MBool b) => b | _ => false end.

Definition cmpInts (f : Z -> Z -> bool) (a b : option MVal) : option MVal :=
  match a, b with Some (MInt m), Some (MInt n) => Some (MBool (f m n)) | _, _ => None end.

Definition sameScalar (a b : option MVal) : bool :=
  match a, b with
  | Some (MInt m), Some (MInt n) => Z.eqb m n
  | Some (MStr s), Some (MStr t) => String.eqb s t
  | None, None => true
  | _, _ => false
  end.

Fixpoint eval (d : Document) (e : MExpr) (env : gmap string MVal) {struct e} : option MVal :=
  match e with
  | MLit v => Some v
  | MNum z => Some (MInt z)
  | MPath f => d !! f
  | MVar x => env !! x
  | MVarField x f => match env !! x with Some (MDoc m) => m !! f | _ => None end
  | MRemove => None
  | MCond t y n => if truth (eval d t env) then eval d y env else eval d n env
  | MIfNull a o => if isNullish (eval d a env) then eval d o env else eval d a env
  | MLt a b => cmpInts Z.ltb (eval d a env) (eval d b env)
  | MGt a b => cmpInts (fun m n => Z.ltb n m) (eval d a env) (eval d b env)
  | MGte a b =>
      match eval d a env with
      | None => Some (MBool false)
      | v => cmpInts (fun m n => Z.leb n m) v (eval d b env)
      end
  | MEq a b => Some (MBool (sameScalar (eval d a env) (eval d b env)))
  | MNe a b => Some (MBool (negb (sameScalar (eval d a env) (eval d b env))))
  | MOr a b => Some (MBool (truth (eval d a env) || truth (eval d b env)))
  | MNot a => Some (MBool (negb (truth (eval d a env))))
  | MType a => Some (MStr (typeName (eval d a env)))
  | MFilter i x t =>
      match eval d i env with
      | Some (MArr l) => Some (MArr (List.filter (fun v => truth (eval d t (<[x := v]> env))) l))
      | _ => None
      end
  | MMap i x t =>
      match eval d i env with
      | Some (MArr l) => Some (MArr (omap (fun v => eval d t (<[x := v]> env)) l))
      | _ => None
      end
  | MElemAt a i =>
      match eval d a env with Some (MArr l) => l !! Z.to_nat i | _ => None end
  | MSize a => match eval d a env with Some (MArr l) => Some (MInt (Z.of_nat (length l))) | _ => None end
  | MConcat a b =>
      match eval d a env, eval d b env with Some (MArr k), Some (MArr l) => Some (MArr (k ++ l)) | _, _ => None end
  | MList items =>
      Some (MArr ((fix go items := match items with
                   | [] => []
                   | a :: rest => option_list (eval d a env) ++ go rest
                   end) items))
  | MObject fields =>
      Some (MDoc ((fix go fields := match fields with
                   | [] => ∅
                   | (f, a) :: rest =>
                       match eval d a env with Some v => <[f := v]> (go rest) | None => go rest end
                   end) fields))
  | MMerge a b =>
      match eval d a env, eval d b env with Some (MDoc m), Some (MDoc n) => Some (MDoc (n ∪ m)) | _, _ => None end
  | MSortArray a _ => eval d a env
  end.

Definition setFields (d : Document) (s : MStage) : Document :=
  map_fold (fun f e out => match eval d e ∅ with Some v => <[f := v]> out | None => delete f out end) d s.

Fixpoint matches (d : Document) (q : MQuery) {struct q} : bool :=
  match q with
  | QId id => sameScalar (d !! "_id") (Some (MStr id))
  | QLte f n => match d !! f with Some (MInt z) => Z.leb z n | _ => false end
  | QExists f b => Bool.eqb (bool_decide (is_Some (d !! f))) b
  | QDateIn f lo hi => match d !! f with Some (MDate t) => Z.leb lo t && Z.ltb t hi | _ => false end
  | QOr qs => (fix go qs := match qs with [] => false | q :: rest => matches d q || go rest end) qs
  | QAnd qs => (fix go qs := match qs with [] => true | q :: rest => matches d q && go rest end) qs
  end.

Definition scalarIs (v : MVal) (w : option MVal) : bool := sameScalar w (Some v).

#[export] Instance reference : Mongo := {
  mg_eval d env e := eval d e env;
  mg_set := setFields;
  mg_match := matches;
  mg_updateOne c id stages upsert :=
    match c !! id with
    | Some d => <[id := foldl setFields d stages]> c
    | None => if upsert then <[id := foldl setFields {["_id" := MStr id]} stages]> c else c
    end;
  mg_deleteOne c q :=
    match q with
    | QAnd (QId id :: qs) =>
        match c !! id with
        | Some d => if forallb (matches d) qs then delete id c else c
        | None => c
        end
    | _ => c
    end;
  mg_find c f v :=
    if String.eqb f "_id" then match v with MStr id => option_list (c !! id) | _ => [] end
    else snd <$> List.filter (fun p => scalarIs v (p.2 !! f)) (map_to_list c);
  mg_findIDs c f v := fst <$> List.filter (fun p => scalarIs v (p.2 !! f)) (map_to_list c)
}.

Lemma setFields_lookup d s f :
  setFields d s !! f = match s !! f with Some e => eval d e ∅ | None => d !! f end.
Proof.
  unfold setFields. revert f.
  apply (map_fold_weak_ind (fun out s => forall f, out !! f = match s !! f with Some e => eval d e ∅ | None => d !! f end)).
  - intros f. by rewrite lookup_empty.
  - intros g e s' out Hg IH f. destruct (decide (f = g)) as [->|Hne].
    + rewrite lookup_insert_eq. case_match eqn:He; [by rewrite lookup_insert_eq | by rewrite lookup_delete_eq].
    + rewrite (lookup_insert_ne s') by done.
      case_match; [rewrite lookup_insert_ne by done | rewrite lookup_delete_ne by done]; apply IH.
Qed.

Lemma list_filter_ext {A} (f g : A -> bool) (l : list A) : (forall v, v ∈ l -> f v = g v) -> List.filter f l = List.filter g l.
Proof. induction l as [|a l IH]; intros H; [done|]. cbn. rewrite (H a) by set_solver. rewrite IH; [done|]. set_solver. Qed.

Lemma omap_total {A B} (f : A -> option B) (g : A -> B) (l : list A) : (forall v, v ∈ l -> f v = Some (g v)) -> omap f l = g <$> l.
Proof. induction l as [|a l IH]; intros H; [done|]. csimpl. rewrite (H a) by set_solver. f_equal. apply IH. set_solver. Qed.

Lemma eval_object d env fs m :
  (forall f e, (f, e) ∈ fs -> exists v, eval d e env = Some v /\ m !! f = Some v) ->
  (forall f, f ∉ fs.*1 -> m !! f = None) -> eval d (MObject fs) env = Some (MDoc m).
Proof.
  intros H1 H2. cbn. do 2 f_equal. revert m H1 H2. induction fs as [|[f e] fs IH]; intros m H1 H2.
  - symmetry. apply map_empty. intros f. apply H2. set_solver.
  - destruct (H1 f e) as (v & -> & Hm); [set_solver|]. destruct (decide (f ∈ fs.*1)) as [Hin|Hout].
    + rewrite (IH m); [by rewrite insert_id| |]; set_solver.
    + rewrite (IH (delete f m)); [by rewrite insert_delete_eq, insert_id | |].
      * intros g a Hg. destruct (H1 g a) as (w & Hw & Hmw); [set_solver|]. exists w. split; [done|].
        rewrite lookup_delete_ne; [done|]. intros ->. apply Hout. apply list_elem_of_fmap. by exists (g, a).
      * intros g Hg. destruct (decide (g = f)) as [->|]; [by rewrite lookup_delete_eq|].
        rewrite lookup_delete_ne by done. apply H2. set_solver.
Qed.

Ltac rewrite_evals := repeat match goal with H : eval _ _ _ = _ |- _ => rewrite H; clear H end.

#[export] Instance reference_laws : MongoLaws.
Proof.
  split; cbn [mg_eval mg_set mg_match mg_updateOne mg_deleteOne mg_find mg_findIDs reference]; intros;
    try (cbn; rewrite_evals; done).
  - cbn. by rewrite H.
  - cbn. rewrite_evals. by destruct b.
  - cbn. destruct (eval d a env) as [[]|]; simplify_eq/=; rewrite_evals; done.
  - cbn. destruct (eval d a env) as [[]|]; simplify_eq/=; rewrite_evals; done.
  - cbn. rewrite_evals. by destruct (eval d a env) as [[]|].
  - cbn. rewrite_evals. do 2 f_equal. apply list_filter_ext. intros v Hv. by rewrite H0.
  - cbn. rewrite_evals. do 2 f_equal. by apply omap_total.
  - by apply eval_object.
  - apply setFields_lookup.
  - cbn. destruct (d !! f) as [[]|]; by simplify_eq/=.
  - cbn. by rewrite H.
  - cbn. by rewrite H.
  - apply list_elem_of_fmap. exists (id, d). split; [done|]. apply list_elem_of_In, filter_In. split.
    + by apply list_elem_of_In, elem_of_map_to_list.
    + cbn. rewrite H0. cbn. apply String.eqb_refl.
  - apply list_elem_of_fmap in H as ([i d] & -> & Hin%list_elem_of_In%filter_In). destruct Hin as [Hin _].
    apply list_elem_of_In, elem_of_map_to_list in Hin. by eexists.
Qed.

End Reference.
