(* ===== verification/Projection.v ===== *)
(** * From an outbox event to an update pipeline

    [infra/db/query/payload_decode.go] (the typed reading of a payload) and
    [infra/db/query/payload_project.go] (the pipeline of one event).

    A schema is what the projection reads of it ([ViewSchema]).  The iteration
    order of a Go map that can show in the result, that of the child groups, is the
    argument [order].  [time.Parse], [base64], the float parser and [json.Marshal]
    are the fields of [GoStd]. *)

From S2P Require Import Prelude GoStrings Mongo.
From stdpp Require Import base gmap strings list fin_maps.
From Stdlib Require Import Ascii ZArith Lia.

Open Scope string_scope.
Open Scope list_scope.
Open Scope Z_scope.

(** ** Decoded JSON *)

(** What [json.Decoder] with [UseNumber] gives; a number is its text. *)
Inductive JVal :=
| JNull
| JBool (b : bool)
| JNum (text : string)
| JStr (s : string)
| JArr (l : list JVal)
| JObj (m : gmap string JVal).

Record GoStd := mkGoStd {
  std_parseTime : string -> option Z;
  std_parseFloat : string -> option string;
  std_base64 : string -> option string;
  std_marshal : JVal -> option string
}.

(** A value as it is, handed to the store: the driver writes a [json.Number] as an
    int64 when it is one and as a double otherwise. *)
Fixpoint asIs (v : JVal) : MVal :=
  match v with
  | JNull => MNull
  | JBool b => MBool b
  | JNum t => match atoi t with Some i => MInt i | None => MDouble t end
  | JStr s => MStr s
  | JArr l => MArr (asIs <$> l)
  | JObj m => MDoc (asIs <$> m)
  end.

(** ** The schema as the projection reads it *)

(** The declared Go type of a column. *)
Inductive ColType :=
| CTPtr (t : ColType)
| CTTime
| CTString
| CTID
| CTBool
| CTInt
| CTFloat
| CTRaw
| CTBytes
| CTOther.

(** A child table: [childDocSegment], [IDColumn], [ArchivedAtColumn],
    [PayloadColumnTypes]. *)
Record ChildView := mkChildView {
  cv_segment : string;
  cv_idColumn : string;
  cv_archivedAt : option string;
  cv_types : gmap string ColType
}.

(** [SharedBaseRef]: the base's table and children, the link column, and the
    columns of its business fields. *)
Record BaseLink := mkBaseLink {
  bl_table : string;
  bl_parentIDColumn : string;
  bl_scanCols : list string;
  bl_children : gmap string ChildView
}.

(** [vs_siblings] are the [MappedColumns] of each sibling. *)
Record ViewSchema := mkViewSchema {
  vs_table : string;
  vs_idColumn : string;
  vs_revision : string;
  vs_siblings : list (list string);
  vs_children : gmap string ChildView;
  vs_base : option BaseLink;
  vs_types : gmap string ColType
}.

Definition SharedBaseBusinessColumns (s : ViewSchema) : list string :=
  match vs_base s with Some l => bl_scanCols l | None => [] end.

Definition baseChildren (s : ViewSchema) : gmap string ChildView :=
  match vs_base s with Some l => bl_children l | None => ∅ end.

(** [ResolveAggregateChild]: the schema's own child first, then its base's. *)
Definition resolveChild (s : ViewSchema) (typeName : string) : option (ChildView * bool) :=
  match vs_children s !! typeName with
  | Some c => Some (c, false)
  | None => (fun c => (c, true)) <$> baseChildren s !! typeName
  end.

Definition archivedAtOf (child : ChildView) : string := default "archived_at" (cv_archivedAt child).

(** ** Decoding *)

Record payloadIDs := mkPayloadIDs {
  pi_ID : string;
  pi_Revision : Z;
  pi_BaseID : string;
  pi_BaseRevision : Z;
  pi_BasePurged : bool;
  pi_CreatedAt : string
}.

Record childOp := mkChildOp { co_Op : string; co_Fields : Document }.

Record decodedEvent := mkDecoded {
  de_IDs : payloadIDs;
  de_Scalars : Document;
  de_Children : gmap string (list childOp);
  de_BaseChildren : gmap string (list childOp)
}.

Definition jsonStr (v : option JVal) : string := match v with Some (JStr s) => s | _ => "" end.
Definition jsonBool (v : option JVal) : bool := match v with Some (JBool b) => b | _ => false end.

(** [json.Number.Int64], 0 when it is not one. *)
Definition jsonInt (v : option JVal) : Z :=
  match v with Some (JNum t) => default 0 (atoi t) | _ => 0 end.

Definition decodeIDsBlock (m : gmap string JVal) : payloadIDs :=
  mkPayloadIDs (jsonStr (m !! "id")) (jsonInt (m !! "revision")) (jsonStr (m !! "base_id"))
    (jsonInt (m !! "base_revision")) (jsonBool (m !! "base_purged")) (jsonStr (m !! "created_at")).

Definition rawPayloadIDs (raw : gmap string JVal) : payloadIDs :=
  decodeIDsBlock (match raw !! "_ids" with Some (JObj m) => m | _ => ∅ end).

Definition reserved (name : string) : bool := String.prefix "_" name.

(** [strings.ContainsAny(s, ".eE")]. *)
Fixpoint fractional (s : string) : bool :=
  match s with
  | EmptyString => false
  | String c rest => Ascii.eqb c "." || Ascii.eqb c "e" || Ascii.eqb c "E" || fractional rest
  end.

Section Decode.
Context (std : GoStd).

Definition createdAtMillis (p : payloadIDs) : Z :=
  if String.eqb (pi_CreatedAt p) "" then 0 else default 0 (std_parseTime std (pi_CreatedAt p)).

Definition normalizeNumber (t : string) : MVal :=
  match (if fractional t then None else atoi t) with
  | Some i => MInt i
  | None => match std_parseFloat std t with Some f => MDouble f | None => MStr t end
  end.

Definition coercePayloadValue (v : JVal) (t : option ColType) : MVal :=
  let t := match t with Some (CTPtr t) => Some t | _ => t end in
  match v, t with
  | JNull, _ => MNull
  | JNum n, None => normalizeNumber n
  | JStr s, Some CTTime => match std_parseTime std s with Some ms => MDate ms | None => MStr s end
  | JNum n, Some CTInt => match atoi n with Some i => MInt i | None => asIs v end
  | JNum n, Some CTFloat => match std_parseFloat std n with Some f => MDouble f | None => asIs v end
  | _, Some CTRaw => match std_marshal std v with Some b => MBin b | None => asIs v end
  | JStr s, Some CTBytes => match std_base64 std s with Some b => MBin b | None => MStr s end
  | _, _ => asIs v
  end.

(** The columns of a JSON object, the reserved keys left out. *)
Definition coerceColumns (types : gmap string ColType) (m : gmap string JVal) : Document :=
  map_imap (fun k v => if reserved k then None else Some (coercePayloadValue v (types !! k))) m.

Definition decodeChildOp (types : gmap string ColType) (m : gmap string JVal) : childOp :=
  let op := jsonStr (m !! "_op") in
  mkChildOp (if String.eqb op "" then "noop" else op) (coerceColumns types m).

Definition decodeChildGroup (schema : ViewSchema) (typeName : string) (itemsRaw : JVal) : option (list childOp) :=
  match resolveChild schema typeName, itemsRaw with
  | Some (child, _), JArr items =>
      let ops := omap (fun it => match it with JObj m => Some (decodeChildOp (cv_types child) m) | _ => None end) items in
      if bool_decide (ops = []) then None else Some ops
  | _, _ => None
  end.

Definition decodeChildGroups (schema : ViewSchema) (raw : option JVal) : gmap string (list childOp) :=
  match raw with
  | Some (JObj groups) => map_imap (decodeChildGroup schema) groups
  | _ => ∅
  end.

Definition coercePayloadEvent (schema : ViewSchema) (raw : gmap string JVal) : decodedEvent :=
  mkDecoded (rawPayloadIDs raw) (coerceColumns (vs_types schema) raw)
    (decodeChildGroups schema (raw !! "_children")) (decodeChildGroups schema (raw !! "_base_children")).

End Decode.

(** ** The pipeline of an event *)

Definition docRevisionField : string := DocRevisionField.
Definition docBaseRevisionField : string := "_base_revision".
Definition elemRevisionField : string := "_rev".

Definition lit (v : MVal) : MExpr := MLit v.

(** The stored watermark is older than [revision]. *)
Definition newerThan (watermarkField : string) (revision : Z) : MExpr :=
  MLt (MIfNull (MPath watermarkField) (MNum (-1))) (MNum revision).

Definition sameRevision (watermarkField : string) (revision : Z) : MExpr :=
  MEq (MPath watermarkField) (MNum revision).

Definition notOlderThan (watermarkField : string) (revision : Z) : MExpr :=
  MOr (newerThan watermarkField revision) (sameRevision watermarkField revision).

Definition advance (watermarkField : string) (revision : Z) : MExpr :=
  MCond (newerThan watermarkField revision) (MNum revision) (MIfNull (MPath watermarkField) (MNum revision)).

Definition guardedSetStage (watermarkField : string) (set : MStage) (revision : Z) : MStage :=
  <[watermarkField := advance watermarkField revision]>
    (map_imap (fun col v => Some (MCond (notOlderThan watermarkField revision) v (MPath col))) set).

Definition baseGuardedSetStage (base : MStage) (revision : Z) : MStage :=
  guardedSetStage docBaseRevisionField base revision.

(** [arr]: the stored array of a segment, missing as empty. *)
Definition segmentArray (seg : string) : MExpr := MIfNull (MPath seg) (MList []).

Definition childArrayExpr (seg pk id : string) (op : childOp) (revision : Z) (guarded : bool) (child : ChildView) : MExpr :=
  let arr := segmentArray seg in
  let matches := MEq (MVarField "this" pk) (lit (MStr id)) in
  let others := MFilter arr "this" (MNot matches) in
  if (String.eqb (co_Op op) "insert" || String.eqb (co_Op op) "update")%bool then
    if guarded then
      let elem := <[elemRevisionField := MInt revision]> (co_Fields op) in
      let existing := MFilter arr "this" matches in
      let newerExists :=
        MGt (MSize (MFilter existing "this" (MGte (MVarField "this" elemRevisionField) (MNum revision)))) (MNum 0) in
      MCond newerExists arr (MConcat others (MList [lit (MDoc elem)]))
    else MConcat others (MList [lit (MDoc (co_Fields op))])
  else if (String.eqb (co_Op op) "archive" || String.eqb (co_Op op) "unarchive")%bool then
    let archivedCol := archivedAtOf child in
    let mutate :=
      (archivedCol, lit (default MNull (co_Fields op !! archivedCol))) ::
      (if guarded then [(elemRevisionField, MNum revision)] else []) in
    MMap arr "this" (MCond matches (MMerge (MVar "this") (MObject mutate)) (MVar "this"))
  else if String.eqb (co_Op op) "delete" then others
  else arr.

(** The stage of one op, none for an op without an element key. *)
Definition childOpStage (child : ChildView) (revision : Z) (guarded : bool) (op : childOp) : option MStage :=
  if String.eqb (co_Op op) "noop" then None
  else
    match co_Fields op !! cv_idColumn child with
    | Some (MStr id) =>
        if String.eqb id "" then None
        else Some {[cv_segment child :=
          childArrayExpr (cv_segment child) (cv_idColumn child) id op revision guarded child]}
    | _ => None
    end.

(** [order]: the groups in the order the map is iterated. *)
Abbreviation GroupOrder := (gmap string (list childOp) -> list (string * list childOp)).

Definition childStages (order : GroupOrder) (schema : ViewSchema) (groups : gmap string (list childOp)) (revision : Z)
    (guarded : bool) : list MStage :=
  flat_map (fun g =>
    match resolveChild schema g.1 with
    | Some (child, _) => omap (childOpStage child revision guarded) g.2
    | None => []
    end) (order groups).

Definition ownGuardedChildStages (order : GroupOrder) (schema : ViewSchema) (ev : decodedEvent) : list MStage :=
  let apply := notOlderThan docRevisionField (pi_Revision (de_IDs ev)) in
  (fun set : MStage => map_imap (fun seg expr => Some (MCond apply expr (MPath seg))) set) <$>
    childStages order schema (de_Children ev) 0 false.

Definition isNilVal (v : MVal) : bool := match v with MNull => true | _ => false end.

(** A sibling whose columns are all null in the payload: its row was removed. *)
Definition siblingRemoved (scalars : Document) (cols : list string) : bool :=
  let present := omap (fun c => scalars !! c) cols in
  negb (bool_decide (length present = 0%nat)) && forallb isNilVal present.

Definition removeColumns (scalars : Document) (cols : list string) (own : MStage) : MStage :=
  foldl (fun own c => match scalars !! c with Some _ => <[c := MRemove]> own | None => own end) own cols.

Definition ownScalars (schema : ViewSchema) (ev : decodedEvent) : MStage :=
  let revCol := vs_revision schema in
  let plain := map_imap (fun col v =>
    if String.eqb col revCol && negb (String.eqb revCol "") then None
    else if bool_decide (col ∈ SharedBaseBusinessColumns schema) then None
    else Some (lit v)) (de_Scalars ev) in
  let own := foldl (fun own cols =>
    if siblingRemoved (de_Scalars ev) cols then removeColumns (de_Scalars ev) cols own else own) plain (vs_siblings schema) in
  if negb (String.eqb (vs_idColumn schema) "") && negb (String.eqb (pi_ID (de_IDs ev)) "")
  then <[vs_idColumn schema := lit (MStr (pi_ID (de_IDs ev)))]> own
  else own.

Definition baseScalars (schema : ViewSchema) (ev : decodedEvent) : MStage :=
  let revCol := vs_revision schema in
  map_imap (fun col v =>
    if String.eqb col revCol && negb (String.eqb revCol "") then None
    else if bool_decide (col ∈ SharedBaseBusinessColumns schema) then Some (lit v)
    else None) (de_Scalars ev).

Definition segmentNormalizeStage (schema : ViewSchema) : option MStage :=
  let segs := cv_segment <$> ((map_to_list (vs_children schema)).*2 ++ (map_to_list (baseChildren schema)).*2) in
  let set := list_to_map ((fun seg => (seg, segmentArray seg)) <$> segs) : MStage in
  if bool_decide (set = ∅) then None else Some set.

(** The base part of a pipeline applies with a base id and a positive revision. *)
Definition baseSetStages (base : MStage) (ids : payloadIDs) : list MStage :=
  if negb (bool_decide (base = ∅)) && negb (String.eqb (pi_BaseID ids) "") && Z.ltb 0 (pi_BaseRevision ids)
  then [baseGuardedSetStage base (pi_BaseRevision ids)]
  else [].

Definition buildProjectionStages (order : GroupOrder) (schema : ViewSchema) (ev : decodedEvent) : list MStage :=
  let own := ownScalars schema ev in
  ownGuardedChildStages order schema ev ++
  childStages order schema (de_BaseChildren ev) (pi_BaseRevision (de_IDs ev)) true ++
  baseSetStages (baseScalars schema ev) (de_IDs ev) ++
  (if bool_decide (own = ∅) then [] else [guardedSetStage docRevisionField own (pi_Revision (de_IDs ev))]) ++
  option_list (segmentNormalizeStage schema).

(** The base columns the payload carries, in a foreign role's document. *)
Definition fanOutScalars (schema : ViewSchema) (ev : decodedEvent) : MStage :=
  foldl (fun base col =>
    match de_Scalars ev !! col with Some v => <[col := lit v]> base | None => base end)
    ∅ (SharedBaseBusinessColumns schema).

Definition buildFanOutStages (order : GroupOrder) (schema : ViewSchema) (ev : decodedEvent) : list MStage :=
  baseSetStages (fanOutScalars schema ev) (de_IDs ev) ++
  childStages order schema (de_BaseChildren ev) (pi_BaseRevision (de_IDs ev)) true.
