(* ===== verification/ProjectionProps.v ===== *)
(** * What a projection pipeline does to a document

    The effect of the stages of [Projection] on a document, field by field, under
    the documented behaviour of the server ([MongoLaws]): guards, watermarks, the
    surgical edits of a child array, and the closed form of a whole pipeline on the
    fields an event owns. *)

From S2P Require Import Prelude Mongo Projection.
From stdpp Require Import base gmap strings list fin_maps.
From Stdlib Require Import ZArith Lia.

Open Scope string_scope.
Open Scope list_scope.
Open Scope Z_scope.

(** ** Watermarks *)

(** The guard as a comparison: an absent watermark is -1. *)
Definition admits (stored : option Z) (revision : Z) : bool :=
  match stored with Some w => Z.leb w revision | None => Z.ltb (-1) revision end.

Definition advanced (stored : option Z) (revision : Z) : Z :=
  match stored with Some w => Z.max w revision | None => revision end.

(** The watermark a document holds in a field, when it is one. *)
Definition watermark (d : Document) (field : string) : option (option Z) := intOrMissing (d !! field).

(** ** Elements of a segment *)

Definition elemsOf (v : option MVal) : list Document :=
  match v with
  | Some (MArr l) => omap (fun e => match e with MDoc m => Some m | _ => None end) l
  | _ => []
  end.

(** A segment is absent, null or an array of documents. *)
Definition segmentOk (v : option MVal) : Prop :=
  isNullish v = true \/ v = Some (MArr (MDoc <$> elemsOf v)).

Definition keyed (pk id : string) (e : Document) : bool :=
  match e !! pk with Some (MStr t) => String.eqb t id | _ => false end.

(** The element key an op lands on. *)
Definition opKey (child : ChildView) (op : childOp) : option string :=
  if String.eqb (co_Op op) "noop" then None
  else
    match co_Fields op !! cv_idColumn child with
    | Some (MStr id) => if String.eqb id "" then None else Some id
    | _ => None
    end.

Definition isUpsertOp (op : childOp) : bool := String.eqb (co_Op op) "insert" || String.eqb (co_Op op) "update".
Definition isArchiveOp (op : childOp) : bool := String.eqb (co_Op op) "archive" || String.eqb (co_Op op) "unarchive".
Definition isDeleteOp (op : childOp) : bool := String.eqb (co_Op op) "delete".

Definition archiveStamp (child : ChildView) (op : childOp) : MVal :=
  default MNull (co_Fields op !! archivedAtOf child).

(** One op on the elements, as a table of rows by key would take it. *)
Definition editElems (child : ChildView) (l : list Document) (op : childOp) : list Document :=
  match opKey child op with
  | None => l
  | Some id =>
      let others := List.filter (fun e => negb (keyed (cv_idColumn child) id e)) l in
      if isUpsertOp op then others ++ [co_Fields op]
      else if isArchiveOp op then
        (fun e => if keyed (cv_idColumn child) id e then <[archivedAtOf child := archiveStamp child op]> e else e) <$> l
      else if isDeleteOp op then others
      else l
  end.

(** ** Generic facts *)

Lemma filter_fmap_doc (f : MVal -> bool) (g : Document -> bool) l :
  (forall e, f (MDoc e) = g e) -> List.filter f (MDoc <$> l) = MDoc <$> List.filter g l.
Proof. intros Hfg. induction l as [|e l IH]; [done|]. csimpl. rewrite Hfg, IH. by destruct (g e). Qed.

Lemma list_filter_app {A} (f : A -> bool) k l : List.filter f (k ++ l) = List.filter f k ++ List.filter f l.
Proof. induction k as [|a k IH]; [done|]. cbn. rewrite IH. by destruct (f a). Qed.

Lemma list_filter_comm {A} (f g : A -> bool) l : List.filter f (List.filter g l) = List.filter g (List.filter f l).
Proof.
  induction l as [|a l IH]; [done|]. cbn.
  destruct (f a) eqn:Hf, (g a) eqn:Hg; cbn; rewrite ?Hf, ?Hg, IH; done.
Qed.

Lemma elemsOf_docs l : elemsOf (Some (MArr (MDoc <$> l))) = l.
Proof. induction l as [|e l IH]; [done|]. cbn in *. by rewrite IH. Qed.

Lemma segmentOk_docs l : segmentOk (Some (MArr (MDoc <$> l))).
Proof. right. by rewrite elemsOf_docs. Qed.

#[export] Hint Resolve segmentOk_docs : omnicore.
#[export] Hint Rewrite elemsOf_docs : omnicore.

(** ** Stages of child ops *)

Lemma childOpStage_key child r g op :
  childOpStage child r g op =
    (fun id => {[cv_segment child := childArrayExpr (cv_segment child) (cv_idColumn child) id op r g child]}) <$> opKey child op.
Proof.
  unfold childOpStage, opKey. destruct (String.eqb _ _); [done|].
  destruct (co_Fields op !! cv_idColumn child) as [[]|]; try done. by destruct (String.eqb s "").
Qed.

(** The ops of the groups, each with the child it resolves to. *)
Definition resolvedOps (schema : ViewSchema) (gs : list (string * list childOp)) : list (ChildView * childOp) :=
  flat_map (fun g => match resolveChild schema g.1 with Some (child, _) => (fun op => (child, op)) <$> g.2 | None => [] end) gs.

Lemma childStages_ops order schema groups r g :
  childStages order schema groups r g = omap (fun p => childOpStage p.1 r g p.2) (resolvedOps schema (order groups)).
Proof.
  unfold childStages, resolvedOps. induction (order groups) as [|[t ops] gs IH]; [done|]. cbn. rewrite IH.
  destruct (resolveChild schema t) as [[child b]|]; [|done].
  rewrite omap_app. f_equal. by induction ops as [|op ops IHo]; [|cbn; rewrite IHo].
Qed.

(** A stage of a child op writes the child's segment only. *)
Lemma childStages_untouched order schema groups r g f :
  (forall t ops child b, (t, ops) ∈ order groups -> resolveChild schema t = Some (child, b) -> cv_segment child <> f) ->
  Forall (fun st : MStage => st !! f = None) (childStages order schema groups r g).
Proof.
  intros Hf. rewrite childStages_ops. apply Forall_forall. intros st Hst.
  apply list_elem_of_omap in Hst as ([child op] & Hin & Hst). cbn in Hst.
  rewrite childOpStage_key in Hst. destruct (opKey child op) as [id|]; [|done]. simplify_eq/=.
  apply list_elem_of_In, in_flat_map in Hin as ([t ops] & Hg & Hin%list_elem_of_In). cbn in Hin.
  destruct (resolveChild schema t) as [[c b]|] eqn:Hr; [|set_solver].
  apply list_elem_of_fmap in Hin as (op' & [= -> ->] & _).
  apply lookup_singleton_ne. eapply Hf; [by apply list_elem_of_In | done].
Qed.

(** The elements of the segment [f] after ops on several children. *)
Definition editSegment (f : string) (l : list Document) (p : ChildView * childOp) : list Document :=
  if String.eqb (cv_segment p.1) f then editElems p.1 l p.2 else l.

Definition guardExpr (test : MExpr) (st : MStage) : MStage :=
  map_imap (fun seg expr => Some (MCond test expr (MPath seg))) st.

Section Server.
Context `{MongoLaws}.

(** ** Guards *)

Lemma eval_newerThan d f r v :
  watermark d f = Some v ->
  mg_eval d ∅ (newerThan f r) = Some (MBool (match v with Some w => Z.ltb w r | None => Z.ltb (-1) r end)).
Proof.
  intros Hw. unfold newerThan, watermark in *.
  assert (Hif : mg_eval d ∅ (MIfNull (MPath f) (MNum (-1))) = Some (MInt (default (-1) v))).
  { rewrite ml_ifNull, ml_path, ml_num. destruct (d !! f) as [[]|]; by simplify_eq/=. }
  rewrite (ml_lt _ _ _ _ _ r Hif) by apply ml_num. by destruct v.
Qed.

Lemma eval_sameRevision d f r v :
  watermark d f = Some v ->
  mg_eval d ∅ (sameRevision f r) = Some (MBool (match v with Some w => Z.eqb w r | None => false end)).
Proof. intros Hw. apply ml_eqInt; [by rewrite ml_path | apply ml_num]. Qed.

Lemma eval_notOlderThan d f r v :
  watermark d f = Some v -> mg_eval d ∅ (notOlderThan f r) = Some (MBool (admits v r)).
Proof.
  intros Hw. unfold notOlderThan.
  rewrite (ml_or _ _ _ _ _ _ (eval_newerThan _ _ r _ Hw) (eval_sameRevision _ _ r _ Hw)).
  do 2 f_equal. destruct v as [w|]; cbn; [|by rewrite orb_false_r].
  destruct (Z.ltb_spec w r), (Z.eqb_spec w r), (Z.leb_spec w r); done || lia.
Qed.

Lemma eval_advance d f r v :
  watermark d f = Some v -> mg_eval d ∅ (advance f r) = Some (MInt (advanced v r)).
Proof.
  intros Hw. unfold advance. rewrite (ml_cond _ _ _ _ _ _ (eval_newerThan _ _ r _ Hw)).
  assert (Hif : mg_eval d ∅ (MIfNull (MPath f) (MNum r)) = Some (MInt (default r v))).
  { rewrite ml_ifNull, ml_path, ml_num. unfold watermark in Hw. destruct (d !! f) as [[]|]; by simplify_eq/=. }
  destruct v as [w|]; cbn [advanced].
  - destruct (Z.ltb_spec w r); [rewrite ml_num | rewrite Hif]; cbn; do 2 f_equal; lia.
  - destruct (-1 <? r); [rewrite ml_num | rewrite Hif]; done.
Qed.

Lemma guardedSet_lookup d wf set r f v :
  watermark d wf = Some v ->
  mg_set d (guardedSetStage wf set r) !! f =
    if String.eqb f wf then Some (MInt (advanced v r))
    else match set !! f with
         | Some e => if admits v r then mg_eval d ∅ e else d !! f
         | None => d !! f
         end.
Proof.
  intros Hw. rewrite ml_set. unfold guardedSetStage. destruct (String.eqb_spec f wf) as [->|Hne].
  - rewrite lookup_insert_eq. by apply eval_advance.
  - rewrite lookup_insert_ne, map_lookup_imap by done. destruct (set !! f) as [e|]; [|done]. cbn.
    rewrite (ml_cond _ _ _ _ _ _ (eval_notOlderThan _ _ r _ Hw)).
    destruct (admits v r); [done|]. apply ml_path.
Qed.

(** ** Child arrays *)

Lemma eval_segmentArray d seg :
  segmentOk (d !! seg) -> mg_eval d ∅ (segmentArray seg) = Some (MArr (MDoc <$> elemsOf (d !! seg))).
Proof.
  intros Hs. unfold segmentArray. rewrite ml_ifNull, ml_path. destruct Hs as [Hnull|Harr].
  - rewrite Hnull, ml_nil. by destruct (d !! seg) as [[]|].
  - destruct (isNullish (d !! seg)) eqn:Hnull; [|done]. rewrite ml_nil. by destruct (d !! seg) as [[]|].
Qed.

Lemma eval_matches d e pk id :
  mg_eval d (<["this" := MDoc e]> ∅) (MEq (MVarField "this" pk) (lit (MStr id))) = Some (MBool (keyed pk id e)).
Proof.
  rewrite (ml_eqStr _ _ _ _ id) by apply ml_lit.
  rewrite (ml_varField _ _ "this" pk e) by apply lookup_insert_eq. done.
Qed.

Lemma eval_filter_docs d i t l (keep : Document -> bool) :
  mg_eval d ∅ i = Some (MArr (MDoc <$> l)) ->
  (forall e, e ∈ l -> mg_eval d (<["this" := MDoc e]> ∅) t = Some (MBool (keep e))) ->
  mg_eval d ∅ (MFilter i "this" t) = Some (MArr (MDoc <$> List.filter keep l)).
Proof.
  intros Hi Ht.
  rewrite (ml_filter _ _ _ _ _ _ (fun v => match v with MDoc e => keep e | _ => false end) Hi).
  - do 2 f_equal. by apply filter_fmap_doc.
  - intros v (e & -> & He)%list_elem_of_fmap. by apply Ht.
Qed.

Lemma eval_others d seg pk id :
  segmentOk (d !! seg) ->
  mg_eval d ∅ (MFilter (segmentArray seg) "this" (MNot (MEq (MVarField "this" pk) (lit (MStr id))))) =
    Some (MArr (MDoc <$> List.filter (fun e => negb (keyed pk id e)) (elemsOf (d !! seg)))).
Proof.
  intros Hs. apply eval_filter_docs; [by apply eval_segmentArray|].
  intros e _. apply ml_not, eval_matches.
Qed.

Lemma eval_append d a e l : mg_eval d ∅ a = Some (MArr (MDoc <$> l)) ->
  mg_eval d ∅ (MConcat a (MList [lit (MDoc e)])) = Some (MArr (MDoc <$> (l ++ [e]))).
Proof.
  intros Ha. rewrite (ml_concat _ _ _ _ _ [MDoc e] Ha).
  - by rewrite fmap_app.
  - apply ml_singleton, ml_lit.
Qed.

Lemma eval_mark d seg pk id (mutate : list (string * MExpr)) (changes : Document) :
  segmentOk (d !! seg) ->
  (forall env, mg_eval d env (MObject mutate) = Some (MDoc changes)) ->
  mg_eval d ∅ (MMap (segmentArray seg) "this"
    (MCond (MEq (MVarField "this" pk) (lit (MStr id))) (MMerge (MVar "this") (MObject mutate)) (MVar "this"))) =
  Some (MArr (MDoc <$> ((fun e => if keyed pk id e then changes ∪ e else e) <$> elemsOf (d !! seg)))).
Proof.
  intros Hs Hm.
  rewrite (ml_map _ _ _ _ _ _
    (fun v => match v with MDoc e => MDoc (if keyed pk id e then changes ∪ e else e) | _ => v end)
    (eval_segmentArray _ _ Hs)).
  - do 2 f_equal. rewrite <- !list_fmap_compose. by apply list_fmap_ext.
  - intros v (e & -> & _)%list_elem_of_fmap.
    rewrite (ml_cond _ _ _ _ _ _ (eval_matches d e pk id)).
    destruct (keyed pk id e); [|rewrite ml_var; apply lookup_insert_eq].
    apply ml_merge; [rewrite ml_var; apply lookup_insert_eq | apply Hm].
Qed.

(** An unguarded op edits the elements as [editElems] says. *)
Lemma eval_childArrayExpr d child op id r :
  segmentOk (d !! cv_segment child) -> opKey child op = Some id ->
  mg_eval d ∅ (childArrayExpr (cv_segment child) (cv_idColumn child) id op r false child) =
    Some (MArr (MDoc <$> editElems child (elemsOf (d !! cv_segment child)) op)).
Proof.
  intros Hs Hk. unfold childArrayExpr, editElems. rewrite Hk.
  fold (isUpsertOp op) (isArchiveOp op) (isDeleteOp op).
  destruct (isUpsertOp op); [by apply eval_append, eval_others|].
  destruct (isArchiveOp op).
  - rewrite (eval_mark _ _ _ _ _ {[archivedAtOf child := archiveStamp child op]} Hs).
    + do 3 f_equal. apply list_fmap_ext. intros _ e _. by rewrite <- insert_union_singleton_l.
    + intros env. apply ml_object.
      * intros f e [= -> ->]%list_elem_of_singleton. eexists. split; [apply ml_lit|]. by rewrite lookup_singleton_eq.
      * intros f Hf. apply lookup_singleton_ne. set_solver.
  - destruct (isDeleteOp op); [by apply eval_others | by apply eval_segmentArray].
Qed.

(** ** Runs of stages *)

Lemma run_untouched stages : forall d f, Forall (fun st : MStage => st !! f = None) stages -> foldl mg_set d stages !! f = d !! f.
Proof.
  induction stages as [|st stages IH]; intros d f Hf; [done|]. inversion Hf; subst. cbn.
  rewrite IH by done. rewrite ml_set. by case_match.
Qed.

(** One guarded op on the documents [d]. *)
Lemma guarded_op_lookup d wf r v child op id f :
  watermark d wf = Some v -> segmentOk (d !! cv_segment child) -> opKey child op = Some id ->
  mg_set d (guardExpr (notOlderThan wf r)
    {[cv_segment child := childArrayExpr (cv_segment child) (cv_idColumn child) id op 0 false child]}) !! f =
  if (String.eqb (cv_segment child) f && admits v r)%bool
  then Some (MArr (MDoc <$> editElems child (elemsOf (d !! f)) op)) else d !! f.
Proof.
  intros Hw Hs Hk. unfold guardExpr. rewrite ml_set, map_lookup_imap.
  destruct (String.eqb_spec (cv_segment child) f) as [<-|Hne]; [|by rewrite lookup_singleton_ne].
  rewrite lookup_singleton_eq. cbn [mbind option_bind].
  rewrite (ml_cond _ _ _ _ _ _ (eval_notOlderThan _ _ r _ Hw)).
  destruct (admits v r); [by apply eval_childArrayExpr | apply ml_path].
Qed.

(** A segment holds the elements [l], and an array unless it was absent from [d]. *)
Definition holds (v : option MVal) (d : Document) (f : string) (l : list Document) : Prop :=
  segmentOk v /\ elemsOf v = l /\ (isNullish (d !! f) = false -> isNullish v = false).

(** Guarded edits leave the watermark alone, so each of them sees the same guard. *)
Lemma run_ownChildStages ops wf r v f : forall d,
  watermark d wf = Some v -> (forall p, p ∈ ops -> cv_segment p.1 <> wf /\ segmentOk (d !! cv_segment p.1)) ->
  segmentOk (d !! f) ->
  holds (foldl mg_set d (guardExpr (notOlderThan wf r) <$> omap (fun p => childOpStage p.1 0 false p.2) ops) !! f) d f
    (if admits v r then foldl (editSegment f) (elemsOf (d !! f)) ops else elemsOf (d !! f)).
Proof.
  induction ops as [|[child op] ops IH]; intros d Hw Hops Hs; cbn -[notOlderThan].
  { split; [done|]. split; [by destruct (admits v r) | done]. }
  rewrite childOpStage_key. unfold editSegment at 2. cbn [fst snd].
  destruct (opKey child op) as [id|] eqn:Hk; cbn -[notOlderThan].
  2:{ replace (if String.eqb (cv_segment child) f then _ else _) with (elemsOf (d !! f)).
      - apply IH; [done| |done]. intros p Hp. apply Hops. set_solver.
      - destruct (String.eqb _ _); [|done]. unfold editElems. by rewrite Hk. }
  destruct (Hops (child, op)) as [Hseg Hsc]; [set_solver|]. cbn in Hseg, Hsc.
  pose proof (fun g => guarded_op_lookup d wf r v child op id g Hw Hsc Hk) as Hd1.
  set (d1 := mg_set d _) in *.
  assert (Hok : forall g, segmentOk (d !! g) -> segmentOk (d1 !! g)).
  { intros g Hg. rewrite Hd1. by destruct (_ && _)%bool; [apply segmentOk_docs|]. }
  destruct (IH d1) as (A & B & C).
  - unfold watermark. rewrite Hd1. by apply String.eqb_neq in Hseg as ->.
  - intros p Hp. destruct (Hops p) as [H1 H2]; [set_solver|]. auto.
  - auto.
  - rewrite Hd1 in B, C. split; [done|].
    destruct (String.eqb (cv_segment child) f), (admits v r); cbn [andb] in B, C;
      rewrite ?elemsOf_docs in B; eauto.
Qed.

End Server.

(** ** Idempotence of the edits *)

Section Edits.
Context (child : ChildView).

Definition removes (op : childOp) (e : Document) : bool :=
  match opKey child op with
  | Some id => (isUpsertOp op || (negb (isArchiveOp op) && isDeleteOp op)) && keyed (cv_idColumn child) id e
  | None => false
  end.

(** What an op leaves of an element it does not remove. *)
Definition mark (e : Document) (op : childOp) : Document :=
  match opKey child op with
  | Some id =>
      if negb (isUpsertOp op) && isArchiveOp op && keyed (cv_idColumn child) id e
      then <[archivedAtOf child := archiveStamp child op]> e else e
  | None => e
  end.

Definition inserted (op : childOp) : list Document :=
  match opKey child op with Some _ => if isUpsertOp op then [co_Fields op] else [] | None => [] end.

Definition survivors (op : childOp) (l : list Document) : list Document :=
  (fun e => mark e op) <$> List.filter (fun e => negb (removes op e)) l.

Lemma filter_all {A} (f : A -> bool) l : (forall a, f a = true) -> List.filter f l = l.
Proof. intros Hf. induction l as [|a l IH]; [done|]. cbn. by rewrite Hf, IH. Qed.

Lemma fmap_same {A} (f : A -> A) (l : list A) : (forall a, f a = a) -> f <$> l = l.
Proof. intros Hf. induction l as [|a l IH]; [done|]. cbn. by rewrite Hf, IH. Qed.

Lemma editElems_split l op : editElems child l op = survivors op l ++ inserted op.
Proof.
  unfold editElems, survivors, inserted, removes, mark. destruct (opKey child op) as [id|].
  2:{ rewrite app_nil_r, filter_all, fmap_same; done. }
  destruct (isUpsertOp op), (isArchiveOp op); cbn [orb andb negb];
    rewrite ?app_nil_r, ?(fmap_same (fun e : Document => e)) by done; try done.
  - by rewrite filter_all.
  - destruct (isDeleteOp op); [done|]. by rewrite filter_all.
Qed.

Hypothesis archive_not_key : archivedAtOf child <> cv_idColumn child.

Lemma keyed_mark id e op : keyed (cv_idColumn child) id (mark e op) = keyed (cv_idColumn child) id e.
Proof.
  unfold mark. destruct (opKey child op); [|done]. destruct (_ && _ && _)%bool; [|done].
  unfold keyed. by rewrite lookup_insert_ne.
Qed.

Lemma removes_mark op e op' : removes op (mark e op') = removes op e.
Proof. unfold removes. destruct (opKey child op); [|done]. by rewrite keyed_mark. Qed.

(** Over a list of ops: which elements go, and what the others become. *)
Definition removesAny (ops : list childOp) (e : Document) : bool := existsb (fun op => removes op e) ops.
Definition markAll (ops : list childOp) (e : Document) : Document := foldl mark e ops.
Definition keep (ops : list childOp) (l : list Document) : list Document :=
  markAll ops <$> List.filter (fun e => negb (removesAny ops e)) l.

Lemma removesAny_mark ops e op : removesAny ops (mark e op) = removesAny ops e.
Proof. unfold removesAny. induction ops as [|o ops IH]; [done|]. cbn. by rewrite removes_mark, IH. Qed.

Lemma removesAny_markAll ops os e : removesAny ops (markAll os e) = removesAny ops e.
Proof.
  unfold markAll. revert e. induction os as [|o os IH]; intros e; [done|]. cbn. by rewrite IH, removesAny_mark.
Qed.

Lemma keep_cons op ops l : keep ops (survivors op l) = keep (op :: ops) l.
Proof.
  unfold keep, survivors. induction l as [|e l IH]; [done|]. cbn.
  destruct (removes op e); cbn; [exact IH|]. rewrite removesAny_mark.
  fold (removesAny ops e). destruct (removesAny ops e); cbn; [exact IH|]. by f_equal.
Qed.

Lemma keep_app ops k l : keep ops (k ++ l) = keep ops k ++ keep ops l.
Proof. unfold keep. by rewrite list_filter_app, fmap_app. Qed.

(** The run of ops on an array: what it keeps of it, then what the run makes of an
    empty one. *)
Lemma edits_split ops : forall l, foldl (editElems child) l ops = keep ops l ++ foldl (editElems child) [] ops.
Proof.
  induction ops as [|op ops IH]; intros l; cbn [foldl].
  - unfold keep. cbn. by rewrite app_nil_r, filter_all, fmap_same.
  - rewrite IH, (IH (editElems child [] op)), !editElems_split. cbn.
    by rewrite keep_app, keep_cons, <- app_assoc.
Qed.

Lemma inserted_keyed op e : e ∈ inserted op -> removes op e = true.
Proof.
  unfold inserted, removes, opKey. destruct (String.eqb (co_Op op) "noop"); [set_solver|].
  destruct (co_Fields op !! cv_idColumn child) as [[]|] eqn:Hf; try set_solver.
  destruct (String.eqb s ""); [set_solver|]. destruct (isUpsertOp op); [|set_solver].
  intros ->%list_elem_of_singleton. unfold keyed. by rewrite Hf, String.eqb_refl.
Qed.

Lemma removesAny_cons op ops e : removesAny (op :: ops) e = (removes op e || removesAny ops e)%bool.
Proof. done. Qed.

(** What a run puts into an empty array, the run removes again. *)
Lemma made_is_removed ops e : e ∈ foldl (editElems child) [] ops -> removesAny ops e = true.
Proof.
  revert e. induction ops as [|op ops IH]; intros e; cbn [foldl]; [set_solver|].
  rewrite edits_split, editElems_split, removesAny_cons. cbn. intros [Hin|Hin]%elem_of_app.
  - unfold keep in Hin. apply list_elem_of_fmap in Hin as (e' & -> & Hin%list_elem_of_In%filter_In).
    destruct Hin as [Hin%list_elem_of_In%inserted_keyed Hk].
    apply orb_true_iff. left. clear IH Hk. unfold markAll. revert e' Hin.
    induction ops as [|o ops IH]; intros e' Hin; [done|]. cbn. apply IH. by rewrite removes_mark.
  - rewrite (IH _ Hin). apply orb_true_r.
Qed.

(** Marks write one column, so the last one on an element stands. *)
Definition stampOf (e : Document) (op : childOp) : option MVal :=
  match opKey child op with
  | Some id =>
      if negb (isUpsertOp op) && isArchiveOp op && keyed (cv_idColumn child) id e then Some (archiveStamp child op) else None
  | None => None
  end.

Definition stamped (v : option MVal) (e : Document) : Document :=
  match v with Some v => <[archivedAtOf child := v]> e | None => e end.

Definition lastStamp (ops : list childOp) (e : Document) (v : option MVal) : option MVal :=
  foldl (fun v op => match stampOf e op with Some w => Some w | None => v end) v ops.

Lemma mark_stamped e op : mark e op = stamped (stampOf e op) e.
Proof. unfold mark, stampOf. destruct (opKey child op); [|done]. by destruct (_ && _ && _)%bool. Qed.

Lemma stampOf_stamped v e op : stampOf (stamped v e) op = stampOf e op.
Proof.
  unfold stampOf, stamped. destruct (opKey child op); [|done]. destruct v; [|done].
  unfold keyed. by rewrite lookup_insert_ne.
Qed.

Lemma lastStamp_stamped ops v e w : lastStamp ops (stamped v e) w = lastStamp ops e w.
Proof.
  unfold lastStamp. revert w. induction ops as [|o ops IH]; intros w; [done|]. cbn. by rewrite stampOf_stamped.
Qed.

Lemma stamped_twice v w e : stamped w (stamped v e) = stamped (match w with Some x => Some x | None => v end) e.
Proof. destruct v, w; [|done..]. cbn. by rewrite insert_insert_eq. Qed.

Lemma markAll_stamped ops e v : markAll ops (stamped v e) = stamped (lastStamp ops e v) e.
Proof.
  unfold markAll, lastStamp. revert v. induction ops as [|o ops IH]; intros v; [done|]. cbn.
  by rewrite mark_stamped, stampOf_stamped, stamped_twice.
Qed.

Lemma lastStamp_default ops e v : lastStamp ops e v = match lastStamp ops e None with Some x => Some x | None => v end.
Proof.
  unfold lastStamp. induction ops as [|o ops IH] using rev_ind; [done|]. rewrite !foldl_app. cbn. by destruct (stampOf e o).
Qed.

Lemma markAll_twice ops e : markAll ops (markAll ops e) = markAll ops e.
Proof.
  rewrite (markAll_stamped ops e None : markAll ops e = stamped (lastStamp ops e None) e).
  rewrite markAll_stamped. f_equal. rewrite lastStamp_default. by case_match.
Qed.

Lemma keep_twice ops l : keep ops (keep ops l) = keep ops l.
Proof.
  unfold keep. induction l as [|e l IH]; [done|]. cbn. destruct (removesAny ops e) eqn:Hr; cbn; [exact IH|].
  rewrite removesAny_markAll, Hr. cbn. by rewrite markAll_twice, IH.
Qed.

Lemma keep_none ops l : (forall e, e ∈ l -> removesAny ops e = true) -> keep ops l = [].
Proof.
  unfold keep. induction l as [|e l IH]; intros Hl; [done|]. cbn. rewrite Hl by set_solver. apply IH. set_solver.
Qed.

(** Applying the ops of an event again changes nothing. *)
Lemma edits_idempotent ops l :
  foldl (editElems child) (foldl (editElems child) l ops) ops = foldl (editElems child) l ops.
Proof.
  rewrite (edits_split ops l) at 1. rewrite edits_split, keep_app, keep_twice.
  rewrite (keep_none ops (foldl _ [] ops)) by apply made_is_removed. by rewrite app_nil_r, <- edits_split.
Qed.

End Edits.
