(* ===== verification/ProjectionOwn.v ===== *)
(** * What an event does to the fields it owns

    The closed form of [buildProjectionStages] and [buildFanOutStages] on each kind
    of field of a document: the watermarks, own columns and child segments, and the
    columns of the shared base. *)

From S2P Require Import Prelude Mongo Projection ProjectionProps.
From stdpp Require Import base gmap strings list fin_maps.
From Stdlib Require Import ZArith Lia.

Open Scope string_scope.
Open Scope list_scope.
Open Scope Z_scope.

(** ** Conditions on a schema and an event *)

Definition isSegment (s : ViewSchema) (f : string) : Prop :=
  exists t c b, resolveChild s t = Some (c, b) /\ cv_segment c = f.

(** What boot validation gives: names outside the reserved name space, segments
    apart from columns and from each other, base columns apart from the others. *)
Record SchemaOk (s : ViewSchema) : Prop := {
  so_segments t1 t2 c1 c2 b1 b2 :
    resolveChild s t1 = Some (c1, b1) -> resolveChild s t2 = Some (c2, b2) -> cv_segment c1 = cv_segment c2 -> t1 = t2;
  so_segmentName t c b : resolveChild s t = Some (c, b) -> reserved (cv_segment c) = false;
  so_archive t c b : resolveChild s t = Some (c, b) -> archivedAtOf c <> cv_idColumn c;
  so_baseChildren t : is_Some (baseChildren s !! t) -> vs_children s !! t = None;
  so_id : reserved (vs_idColumn s) = false /\ ~ isSegment s (vs_idColumn s) /\ vs_idColumn s ∉ SharedBaseBusinessColumns s;
  so_baseCol c : c ∈ SharedBaseBusinessColumns s -> reserved c = false /\ ~ isSegment s c /\ c <> vs_revision s;
  so_sibling cols c : cols ∈ vs_siblings s -> c ∈ cols -> c ∉ SharedBaseBusinessColumns s
}.

(** An event of that schema: columns named as columns, children under the block of
    their owner, and the aggregate's id. *)
Record EventOk (s : ViewSchema) (ev : decodedEvent) : Prop := {
  eo_scalars c v : de_Scalars ev !! c = Some v -> reserved c = false /\ ~ isSegment s c;
  eo_children t : is_Some (de_Children ev !! t) -> forall c b, resolveChild s t = Some (c, b) -> b = false;
  eo_baseChildren t : is_Some (de_BaseChildren ev !! t) -> forall c b, resolveChild s t = Some (c, b) -> b = true;
  eo_id : vs_idColumn s <> "" /\ pi_ID (de_IDs ev) <> ""
}.

(** Iterating a Go map visits its entries once each. *)
Definition orderOk (order : GroupOrder) : Prop := forall m, order m ≡ₚ map_to_list m.

(** An own column: not reserved, not a segment, not the base's. *)
Definition ownColumn (s : ViewSchema) (f : string) : Prop :=
  reserved f = false /\ ~ isSegment s f /\ f ∉ SharedBaseBusinessColumns s.

Definition ownSegment (s : ViewSchema) (t : string) (c : ChildView) : Prop := vs_children s !! t = Some c.

(** ** Shapes of the scalar stages *)

(** A literal or a removal. *)
Definition constantExpr (e : MExpr) : option (option MVal) :=
  match e with MLit v => Some (Some v) | MRemove => Some None | _ => None end.

Lemma removeColumns_keys scalars cols : forall own f,
  removeColumns scalars cols own !! f = own !! f \/ (removeColumns scalars cols own !! f = Some MRemove /\ f ∈ cols /\ is_Some (scalars !! f)).
Proof.
  unfold removeColumns. induction cols as [|c cols IH]; intros own f; [by left|]. cbn.
  destruct (IH (match scalars !! c with Some _ => <[c := MRemove]> own | None => own end) f) as [->|(A & B & C)].
  - destruct (scalars !! c) eqn:Hc; [|by left]. destruct (decide (c = f)) as [->|Hne].
    + right. rewrite lookup_insert_eq. split; [done|]. split; [set_solver|by eexists].
    + left. by rewrite lookup_insert_ne.
  - right. split; [done|]. split; [set_solver|done].
Qed.

Definition ownEntry (s : ViewSchema) (f : string) (e : MExpr) : Prop := is_Some (constantExpr e) /\ ownColumn s f.

Lemma scalar_own s ev c v : EventOk s ev -> de_Scalars ev !! c = Some v -> c ∉ SharedBaseBusinessColumns s -> ownColumn s c.
Proof. intros He Hv Hc. destruct (eo_scalars _ _ He _ _ Hv). by split_and!. Qed.

Lemma siblings_entry s ev sibs :
  EventOk s ev -> (forall cols c, cols ∈ sibs -> c ∈ cols -> c ∉ SharedBaseBusinessColumns s) ->
  forall own : MStage, (forall f e, own !! f = Some e -> ownEntry s f e) ->
  forall f e, foldl (fun own cols =>
    if siblingRemoved (de_Scalars ev) cols then removeColumns (de_Scalars ev) cols own else own) own sibs !! f = Some e ->
  ownEntry s f e.
Proof.
  intros He. induction sibs as [|cols sibs IH]; intros Hsib own Hown f e; [apply Hown|]. cbn.
  apply IH; [set_solver|]. intros g x. destruct (siblingRemoved _ _); [|apply Hown].
  destruct (removeColumns_keys (de_Scalars ev) cols own g) as [->|(-> & Hin & [v Hv])]; [apply Hown|].
  intros [= <-]. split; [by eexists|]. eapply scalar_own; [done..|]. apply (Hsib cols); [set_solver|done].
Qed.

(** Every entry of the own set is a constant on an own column. *)
Lemma ownScalars_entry s ev f e :
  SchemaOk s -> EventOk s ev -> ownScalars s ev !! f = Some e -> ownEntry s f e.
Proof.
  intros Hs He. unfold ownScalars. set (own := foldl _ _ _).
  assert (Hown : forall g x, own !! g = Some x -> ownEntry s g x).
  { apply siblings_entry; [done|apply (so_sibling _ Hs)|]. intros g x.
    rewrite map_lookup_imap. destruct (de_Scalars ev !! g) as [v|] eqn:Hv; cbn; [|done].
    destruct (_ && _)%bool; [done|]. destruct (bool_decide_reflect (g ∈ SharedBaseBusinessColumns s)); [done|].
    intros [= <-]. split; [by eexists|]. by eapply scalar_own. }
  destruct (_ && _)%bool; [|apply Hown]. destruct (decide (f = vs_idColumn s)) as [->|Hne].
  - rewrite lookup_insert_eq. intros [= <-]. split; [by eexists|]. apply (so_id _ Hs).
  - rewrite lookup_insert_ne by done. apply Hown.
Qed.

(** A literal of the own set is the payload's value, the id column aside. *)
Lemma ownScalars_value s ev f x :
  ownScalars s ev !! f = Some (MLit x) -> f <> vs_idColumn s -> de_Scalars ev !! f = Some x.
Proof.
  unfold ownScalars. set (plain := map_imap _ _). set (own := foldl _ _ _). intros Hf Hid.
  assert (Hown : own !! f = Some (MLit x)).
  { revert Hf. destruct (_ && _)%bool; [by rewrite lookup_insert_ne|done]. }
  assert (Hplain : plain !! f = Some (MLit x)).
  { unfold own in Hown. clear Hf own. clearbody plain. revert plain Hown.
    induction (vs_siblings s) as [|cols sibs IH]; intros plain Hown; [done|]. cbn in Hown. apply IH in Hown.
    destruct (siblingRemoved _ _); [|done].
    destruct (removeColumns_keys (de_Scalars ev) cols plain f) as [E|(E & _)]; rewrite E in Hown; done. }
  unfold plain in Hplain. rewrite map_lookup_imap in Hplain.
  destruct (de_Scalars ev !! f) as [v|]; cbn in Hplain; [|done]. revert Hplain.
  destruct (String.eqb f _ && _)%bool; [done|]. destruct (bool_decide _); [done|]. unfold lit. intros. by simplify_eq.
Qed.

Lemma ownScalars_nonempty s ev : EventOk s ev -> ownScalars s ev <> ∅.
Proof.
  intros He. destruct (eo_id _ _ He) as [H1 H2]. unfold ownScalars.
  rewrite (proj2 (String.eqb_neq _ _) H1), (proj2 (String.eqb_neq _ _) H2). apply insert_non_empty.
Qed.

(** ** Groups in any order *)

Lemma edit_same c b (ops : list childOp) f l : cv_segment c = f -> b = Some c ->
  foldl (editSegment f) l (match b with Some c => (fun op => (c, op)) <$> ops | None => [] end) = foldl (editElems c) l ops.
Proof.
  intros <- ->. revert l. induction ops as [|op ops IH]; intros l; [done|]. cbn. rewrite IH.
  unfold editSegment. cbn. by rewrite String.eqb_refl.
Qed.

Lemma edit_other s t (ops : list childOp) f l :
  (forall c b, resolveChild s t = Some (c, b) -> cv_segment c <> f) ->
  foldl (editSegment f) l (resolvedOps s [(t, ops)]) = l.
Proof.
  intros Hne. unfold resolvedOps. cbn. rewrite app_nil_r. destruct (resolveChild s t) as [[c b]|]; [|done].
  specialize (Hne c b eq_refl). apply String.eqb_neq in Hne.
  induction ops as [|op ops IH]; [done|]. cbn. unfold editSegment at 2. cbn. by rewrite Hne.
Qed.

Lemma resolvedOps_cons s g gs : resolvedOps s (g :: gs) = resolvedOps s [g] ++ resolvedOps s gs.
Proof. unfold resolvedOps. cbn. by rewrite app_nil_r. Qed.

Lemma edit_others s gs f l :
  (forall t c b, t ∈ gs.*1 -> resolveChild s t = Some (c, b) -> cv_segment c <> f) ->
  foldl (editSegment f) l (resolvedOps s gs) = l.
Proof.
  induction gs as [|[t ops] gs IH]; intros Hf; [done|]. rewrite resolvedOps_cons, foldl_app, edit_other.
  - apply IH. set_solver.
  - intros c b. apply Hf. set_solver.
Qed.

(** Only the group of the segment's own child reaches it, wherever it comes. *)
Lemma resolvedOps_one s gs t c b l :
  resolveChild s t = Some (c, b) ->
  (forall t' c' b', resolveChild s t' = Some (c', b') -> cv_segment c' = cv_segment c -> t' = t) ->
  NoDup gs.*1 ->
  foldl (editSegment (cv_segment c)) l (resolvedOps s gs) =
    foldl (editElems c) l (default [] ((list_to_map gs : gmap string (list childOp)) !! t)).
Proof.
  intros Ht Hinj. revert l. induction gs as [|[t' ops] gs IH]; intros l Hnd; [done|].
  inversion Hnd as [|?? Hnin Hnd']; subst. rewrite resolvedOps_cons, foldl_app, list_to_map_cons.
  destruct (decide (t' = t)) as [->|Hne].
  - rewrite lookup_insert_eq, edit_others.
    + unfold resolvedOps. cbn. rewrite Ht, app_nil_r. by apply (edit_same c (Some c)).
    + intros t' c' b' Hin Hr Heq. by rewrite (Hinj _ _ _ Hr Heq) in Hin.
  - rewrite lookup_insert_ne, edit_other by (done || intros c' b' Hr Heq; apply Hne; eauto). by apply IH.
Qed.

Lemma order_entries (order : GroupOrder) m : orderOk order ->
  NoDup (order m).*1 /\ list_to_map (order m) = m /\ (forall t ops, (t, ops) ∈ order m -> m !! t = Some ops).
Proof.
  intros Ho. assert (Hnd : NoDup (order m).*1) by (rewrite (Ho m); apply NoDup_fst_map_to_list).
  split; [done|]. split.
  - rewrite (list_to_map_proper _ _ Hnd (Ho m)). apply list_to_map_to_list.
  - intros t ops Hin. rewrite (Ho m) in Hin. by apply elem_of_map_to_list.
Qed.

(** ** Where the stages write *)

Lemma resolve_own s t c : resolveChild s t = Some (c, false) <-> vs_children s !! t = Some c.
Proof.
  unfold resolveChild. destruct (vs_children s !! t); [naive_solver|]. destruct (baseChildren s !! t); naive_solver.
Qed.

Lemma resolve_base s t c : resolveChild s t = Some (c, true) -> baseChildren s !! t = Some c.
Proof. unfold resolveChild. destruct (vs_children s !! t); [done|]. destruct (baseChildren s !! t); naive_solver. Qed.

Lemma segment_unreserved s f : SchemaOk s -> isSegment s f -> reserved f = false.
Proof. intros Hs (t & c & b & Hr & <-). by eapply so_segmentName. Qed.

Lemma guardExpr_untouched test (stages : list MStage) f :
  Forall (fun st : MStage => st !! f = None) stages ->
  Forall (fun st : MStage => st !! f = None) (guardExpr test <$> stages).
Proof.
  intros Hf. apply Forall_fmap. eapply Forall_impl; [exact Hf|]. intros st Hst. cbn. unfold guardExpr.
  by rewrite map_lookup_imap, Hst.
Qed.

Section Stages.
Context (s : ViewSchema) (order : GroupOrder) (ev : decodedEvent).
Context (Hs : SchemaOk s) (Ho : orderOk order) (He : EventOk s ev).

Lemma ownChildren_untouched f :
  (forall t c, ownSegment s t c -> cv_segment c <> f) ->
  Forall (fun st : MStage => st !! f = None) (ownGuardedChildStages order s ev).
Proof using Ho He.
  intros Hf. apply guardExpr_untouched, childStages_untouched. intros t ops c b Hin Hr.
  destruct (order_entries order (de_Children ev) Ho) as (_ & _ & Hm). apply (Hf t).
  apply resolve_own. rewrite Hr. do 2 f_equal. eapply eo_children; [done|by eexists; eapply Hm|done].
Qed.

Lemma baseChildren_untouched f r :
  (forall t c, baseChildren s !! t = Some c -> cv_segment c <> f) ->
  Forall (fun st : MStage => st !! f = None) (childStages order s (de_BaseChildren ev) r true).
Proof using Ho He.
  intros Hf. apply childStages_untouched. intros t ops c b Hin Hr.
  destruct (order_entries order (de_BaseChildren ev) Ho) as (_ & _ & Hm). apply (Hf t).
  apply resolve_base. rewrite Hr. do 2 f_equal. eapply eo_baseChildren; [done|by eexists; eapply Hm|done].
Qed.

Lemma baseSet_untouched (base : MStage) ids f :
  base !! f = None -> f <> docBaseRevisionField -> Forall (fun st : MStage => st !! f = None) (baseSetStages base ids).
Proof using.
  intros Hf Hne. unfold baseSetStages. destruct (_ && _ && _)%bool; [|done]. constructor; [|done].
  unfold baseGuardedSetStage, guardedSetStage. by rewrite lookup_insert_ne, map_lookup_imap, Hf by done.
Qed.

Lemma baseScalars_entry f e : baseScalars s ev !! f = Some e ->
  f ∈ SharedBaseBusinessColumns s /\ exists v, de_Scalars ev !! f = Some v /\ e = MLit v.
Proof using.
  unfold baseScalars. rewrite map_lookup_imap. destruct (de_Scalars ev !! f) as [v|]; cbn; [|done].
  destruct (_ && _)%bool; [done|]. destruct (bool_decide_reflect (f ∈ SharedBaseBusinessColumns s)); [|done].
  intros [= <-]. eauto.
Qed.

Lemma normalize_untouched f : ~ isSegment s f ->
  Forall (fun st : MStage => st !! f = None) (option_list (segmentNormalizeStage s)).
Proof using Hs.
  intros Hf. unfold segmentNormalizeStage. destruct (bool_decide _); [done|]. constructor; [|done].
  apply not_elem_of_list_to_map. rewrite <- list_fmap_compose. intros (seg & -> & Hin)%list_elem_of_fmap.
  apply list_elem_of_fmap in Hin as (c & -> & [Hin|Hin]%elem_of_app); apply list_elem_of_fmap in Hin as ([t c'] & -> & Hin%elem_of_map_to_list);
    apply Hf; exists t, c'.
  - exists false. split; [by apply resolve_own|done].
  - exists true. split; [|done]. unfold resolveChild. rewrite (so_baseChildren _ Hs) by by eexists. by rewrite Hin.
Qed.

Lemma normalize_lookup t c : ownSegment s t c ->
  exists st, segmentNormalizeStage s = Some st /\ st !! cv_segment c = Some (segmentArray (cv_segment c)).
Proof using.
  intros Hc. unfold segmentNormalizeStage. set (segs := cv_segment <$> _).
  assert (Hl : (list_to_map ((fun seg => (seg, segmentArray seg)) <$> segs) : MStage) !! cv_segment c = Some (segmentArray (cv_segment c))).
  { assert (Hin : cv_segment c ∈ segs).
    { apply list_elem_of_fmap. exists c. split; [done|]. apply elem_of_app. left. apply list_elem_of_fmap.
      exists (t, c). split; [done|]. by apply elem_of_map_to_list. }
    clear -Hin. induction segs as [|g segs IH]; [set_solver|]. cbn. destruct (decide (g = cv_segment c)) as [->|Hne].
    - by rewrite lookup_insert_eq.
    - rewrite lookup_insert_ne by done. apply IH. set_solver. }
  rewrite bool_decide_false; [by eexists|]. intros Hnil. by rewrite Hnil in Hl.
Qed.

End Stages.

(** ** The closed form of a delivery *)

Section Deliver.
Context `{MongoLaws} (s : ViewSchema) (Hs : SchemaOk s).

(** One delivery of an event onto its document. *)
Definition deliver (order : GroupOrder) (ev : decodedEvent) (d : Document) : Document :=
  foldl mg_set d (buildProjectionStages order s ev).

(** A document whose own fields the projection can read. *)
Definition DocOk (d : Document) : Prop :=
  is_Some (watermark d docRevisionField) /\ (forall t c, ownSegment s t c -> segmentOk (d !! cv_segment c)).

Definition revisionOf (ev : decodedEvent) : Z := pi_Revision (de_IDs ev).

Context (order : GroupOrder) (ev : decodedEvent) (Ho : orderOk order) (He : EventOk s ev).

(** The document as the own-scalars stage finds it. *)
Definition beforeOwn (d : Document) : Document :=
  foldl mg_set d (ownGuardedChildStages order s ev ++
    childStages order s (de_BaseChildren ev) (pi_BaseRevision (de_IDs ev)) true ++
    baseSetStages (baseScalars s ev) (de_IDs ev)).

Lemma deliver_beforeOwn d :
  deliver order ev d =
    foldl mg_set (mg_set (beforeOwn d) (guardedSetStage docRevisionField (ownScalars s ev) (revisionOf ev)))
      (option_list (segmentNormalizeStage s)).
Proof using He.
  unfold deliver, beforeOwn, buildProjectionStages. rewrite bool_decide_false by by eapply ownScalars_nonempty.
  by rewrite !foldl_app.
Qed.

Lemma baseScalars_own f : f ∉ SharedBaseBusinessColumns s -> baseScalars s ev !! f = None.
Proof using. intros Hf. destruct (_ !! f) eqn:E; [|done]. by apply baseScalars_entry in E as [? _]. Qed.

(** Neither the children nor the base write the watermark or an own column. *)
Lemma beforeOwn_same d f :
  ~ isSegment s f -> f ∉ SharedBaseBusinessColumns s -> f <> docBaseRevisionField -> beforeOwn d !! f = d !! f.
Proof using Hs Ho He H0.
  intros Hseg Hcol Hne. apply run_untouched. rewrite !Forall_app. split_and!.
  - apply ownChildren_untouched; try done. intros t c Hc Heq. apply Hseg. exists t, c, false. by rewrite resolve_own.
  - apply baseChildren_untouched; try done. intros t c Hc Heq. apply Hseg. exists t, c, true. split; [|done].
    unfold resolveChild. by rewrite (so_baseChildren _ Hs), Hc by by eexists.
  - apply baseSet_untouched; [by apply baseScalars_own|done].
Qed.

Lemma reserved_outside f : reserved f = true -> ~ isSegment s f /\ f ∉ SharedBaseBusinessColumns s.
Proof using Hs.
  intros Hf. split.
  - intros Hseg. by rewrite (segment_unreserved s f Hs Hseg) in Hf.
  - intros Hc. destruct (so_baseCol _ Hs _ Hc) as (Hr & _). congruence.
Qed.

Lemma beforeOwn_watermark d : watermark (beforeOwn d) docRevisionField = watermark d docRevisionField.
Proof using Hs Ho He H0.
  unfold watermark. rewrite beforeOwn_same; [done| | |done]; by apply reserved_outside.
Qed.

(** The watermark only advances. *)
Lemma deliver_watermark d v : watermark d docRevisionField = Some v ->
  deliver order ev d !! docRevisionField = Some (MInt (advanced v (revisionOf ev))).
Proof using Hs Ho He H0.
  intros Hv. rewrite deliver_beforeOwn, run_untouched.
  - rewrite (guardedSet_lookup _ _ _ _ _ v) by by rewrite beforeOwn_watermark. by rewrite String.eqb_refl.
  - apply normalize_untouched; [done|]. by apply reserved_outside.
Qed.

(** An own column takes the event's value exactly when the event is not older. *)
Lemma deliver_column d v f : watermark d docRevisionField = Some v -> ownColumn s f ->
  deliver order ev d !! f =
    match ownScalars s ev !! f with
    | Some e => if admits v (revisionOf ev) then default None (constantExpr e) else d !! f
    | None => d !! f
    end.
Proof using Hs Ho He H0.
  intros Hv (Hr & Hseg & Hcol). rewrite deliver_beforeOwn, run_untouched by by apply normalize_untouched.
  rewrite (guardedSet_lookup _ _ _ _ _ v) by by rewrite beforeOwn_watermark.
  destruct (String.eqb_spec f docRevisionField) as [->|_]; [done|].
  assert (Hsame : beforeOwn d !! f = d !! f) by (apply beforeOwn_same; [done..|]; intros ->; done).
  destruct (ownScalars s ev !! f) as [e|] eqn:Ee; [|done].
  destruct (admits v (revisionOf ev)); [|done].
  destruct (ownScalars_entry s ev f e Hs He Ee) as [[x Hx] _].
  destruct e; simplify_eq/=; [apply ml_lit | apply ml_remove].
Qed.

(** The ops an event carries for a child. *)
Definition opsFor (t : string) : list childOp := default [] (de_Children ev !! t).

Lemma ownChild_elements d v t c : DocOk d -> watermark d docRevisionField = Some v -> ownSegment s t c ->
  holds (foldl mg_set d (ownGuardedChildStages order s ev) !! cv_segment c) d (cv_segment c)
    (if admits v (revisionOf ev) then foldl (editElems c) (elemsOf (d !! cv_segment c)) (opsFor t)
     else elemsOf (d !! cv_segment c)).
Proof using Hs Ho He H0.
  intros [_ Hsegs] Hv Hc. unfold ownGuardedChildStages. cbv zeta. rewrite childStages_ops.
  destruct (order_entries order (de_Children ev) Ho) as (Hnd & Hmap & Hin).
  assert (Hr : resolveChild s t = Some (c, false)) by by apply resolve_own.
  pose proof (run_ownChildStages (resolvedOps s (order (de_Children ev))) docRevisionField (revisionOf ev) v
    (cv_segment c) d Hv) as Hrun.
  rewrite (resolvedOps_one s _ t c false _ Hr), Hmap in Hrun; [|eauto using so_segments|done].
  apply Hrun; [|by eapply Hsegs]. intros [c' op] Hp. cbn.
  apply list_elem_of_In, in_flat_map in Hp as ([t' ops] & Hg%list_elem_of_In & Hp%list_elem_of_In). cbn in Hp.
  destruct (resolveChild s t') as [[c1 b]|] eqn:Hr'; [|set_solver].
  apply list_elem_of_fmap in Hp as (? & [= -> ->] & _). split.
  - intros Heq. pose proof (so_segmentName _ Hs _ _ _ Hr') as Hres. by rewrite Heq in Hres.
  - assert (b = false) as -> by (eapply eo_children; [done|by eexists; eapply Hin|done]).
    apply (Hsegs t'). by apply resolve_own.
Qed.

(** An own segment is edited exactly when the event is not older, and is always an
    array afterwards. *)
Lemma deliver_segment d v t c : DocOk d -> watermark d docRevisionField = Some v -> ownSegment s t c ->
  deliver order ev d !! cv_segment c =
    Some (MArr (MDoc <$> (if admits v (revisionOf ev) then foldl (editElems c) (elemsOf (d !! cv_segment c)) (opsFor t)
                          else elemsOf (d !! cv_segment c)))).
Proof using Hs Ho He H0.
  intros Hd Hv Hc. assert (Hr : resolveChild s t = Some (c, false)) by by apply resolve_own.
  rewrite deliver_beforeOwn. destruct (normalize_lookup s t c Hc) as (st & -> & Hst). change (option_list (Some st)) with [st]. cbn [foldl].
  rewrite ml_set, Hst. set (d2 := mg_set _ _).
  destruct (ownChild_elements d v t c Hd Hv Hc) as (A & B & _).
  assert (Hd2 : d2 !! cv_segment c = foldl mg_set d (ownGuardedChildStages order s ev) !! cv_segment c).
  { unfold d2. rewrite (guardedSet_lookup _ _ _ _ _ v) by by rewrite beforeOwn_watermark.
    destruct (String.eqb_spec (cv_segment c) docRevisionField) as [Heq|_].
    { pose proof (so_segmentName _ Hs _ _ _ Hr) as Hres. by rewrite Heq in Hres. }
    replace (ownScalars s ev !! cv_segment c) with (@None MExpr).
    2:{ destruct (ownScalars s ev !! cv_segment c) as [e|] eqn:Ee; [|done].
        destruct (ownScalars_entry s ev _ e Hs He Ee) as (_ & _ & Hn & _). exfalso. apply Hn. by exists t, c, false. }
    unfold beforeOwn. rewrite foldl_app. apply run_untouched. apply Forall_app. split.
    - apply baseChildren_untouched; try done. intros t' c' Hb Heq.
      assert (Hr' : resolveChild s t' = Some (c', true)).
      { unfold resolveChild. by rewrite (so_baseChildren _ Hs), Hb by by eexists. }
      assert (t' = t) as -> by eauto using so_segments. congruence.
    - apply baseSet_untouched.
      + apply baseScalars_own. intros Hb. destruct (so_baseCol _ Hs _ Hb) as (_ & Hn & _). apply Hn. by exists t, c, false.
      + intros Heq. pose proof (so_segmentName _ Hs _ _ _ Hr) as Hres. by rewrite Heq in Hres. }
  rewrite eval_segmentArray by by rewrite Hd2. by rewrite Hd2, B.
Qed.

End Deliver.

(** ** Documents that agree on the fields an event owns *)

Section Agreement.
Context `{MongoLaws} (s : ViewSchema) (Hs : SchemaOk s).

Definition ownField (f : string) : Prop :=
  f = docRevisionField \/ (exists t c, ownSegment s t c /\ cv_segment c = f) \/ ownColumn s f.

Definition agree (d1 d2 : Document) : Prop := forall f, ownField f -> d1 !! f = d2 !! f.

#[global] Instance agree_equivalence : Equivalence agree.
Proof using.
  split.
  - by intros d f.
  - intros d1 d2 Hd f Hf. by rewrite Hd.
  - intros d1 d2 d3 H1 H2 f Hf. by rewrite H1, H2.
Qed.

(** Every own segment is an array. *)
Definition normalized (d : Document) : Prop :=
  forall t c, ownSegment s t c -> d !! cv_segment c = Some (MArr (MDoc <$> elemsOf (d !! cv_segment c))).

Lemma agree_DocOk d1 d2 : agree d1 d2 -> DocOk s d1 -> DocOk s d2.
Proof using.
  intros Ha [Hw Hsegs]. split.
  - unfold watermark in *. rewrite <- Ha; [done|by left].
  - intros t c Hc. rewrite <- Ha; [by eapply Hsegs|]. right. left. eauto.
Qed.

Lemma deliver_normalized o ev d : orderOk o -> EventOk s ev -> DocOk s d -> normalized (deliver s o ev d).
Proof using Hs H0.
  intros Ho He Hd t c Hc. destruct (Hd) as [[v Hv] _].
  rewrite (deliver_segment s Hs o ev Ho He d v t c Hd Hv Hc). by rewrite elemsOf_docs.
Qed.

Lemma deliver_DocOk o ev d : orderOk o -> EventOk s ev -> DocOk s d -> DocOk s (deliver s o ev d).
Proof using Hs H0.
  intros Ho He Hd. split.
  - destruct (Hd) as [[v Hv] _]. unfold watermark. rewrite (deliver_watermark s Hs o ev Ho He d v Hv). by eexists.
  - intros t c Hc. right. by eapply deliver_normalized.
Qed.

Ltac own_cases f Hf :=
  destruct Hf as [->|[(t & c & Hc & <-)|Hcol]].

Lemma deliver_cong o1 o2 ev d1 d2 : orderOk o1 -> orderOk o2 -> EventOk s ev -> DocOk s d1 -> agree d1 d2 ->
  agree (deliver s o1 ev d1) (deliver s o2 ev d2).
Proof using Hs H0.
  intros Ho1 Ho2 He Hd1 Ha. pose proof (agree_DocOk _ _ Ha Hd1) as Hd2. destruct (Hd1) as [[v Hv] _].
  assert (Hv2 : watermark d2 docRevisionField = Some v) by (unfold watermark in *; rewrite <- Ha; [done|by left]).
  intros f Hf. own_cases f Hf.
  - by rewrite (deliver_watermark s Hs o1 ev Ho1 He _ v), (deliver_watermark s Hs o2 ev Ho2 He _ v).
  - rewrite (deliver_segment s Hs o1 ev Ho1 He d1 v t c), (deliver_segment s Hs o2 ev Ho2 He d2 v t c) by done.
    rewrite (Ha (cv_segment c)); [done|]. right. left. eauto.
  - rewrite (deliver_column s Hs o1 ev Ho1 He _ v), (deliver_column s Hs o2 ev Ho2 He _ v) by done.
    rewrite (Ha f); [done|]. by right; right.
Qed.

(** An older event changes no own field. *)
Lemma deliver_stale o ev d w : orderOk o -> EventOk s ev -> DocOk s d -> normalized d ->
  watermark d docRevisionField = Some (Some w) -> revisionOf ev < w -> agree (deliver s o ev d) d.
Proof using Hs H0.
  intros Ho He Hd Hn Hw Hlt. assert (Ha : admits (Some w) (revisionOf ev) = false) by (apply Z.leb_gt; lia).
  intros f Hf. own_cases f Hf.
  - rewrite (deliver_watermark s Hs o ev Ho He _ _ Hw). cbn. rewrite Z.max_l by lia.
    unfold watermark in Hw. destruct (d !! _) as [[]|]; by simplify_eq/=.
  - rewrite (deliver_segment s Hs o ev Ho He d _ t c Hd Hw Hc), Ha. symmetry. by eapply Hn.
  - rewrite (deliver_column s Hs o ev Ho He _ _ _ Hw Hcol), Ha. by case_match.
Qed.

(** Delivering an event twice is delivering it once. *)
Lemma deliver_again o1 o2 ev d v : orderOk o1 -> orderOk o2 -> EventOk s ev -> DocOk s d ->
  watermark d docRevisionField = Some v -> admits v (revisionOf ev) = true ->
  agree (deliver s o2 ev (deliver s o1 ev d)) (deliver s o1 ev d).
Proof using Hs H0.
  intros Ho1 Ho2 He Hd Hv Ha. pose proof (deliver_DocOk o1 ev d Ho1 He Hd) as Hd'.
  assert (Hadv : advanced v (revisionOf ev) = revisionOf ev).
  { destruct v as [w|]; [|done]. cbn in *. apply Z.leb_le in Ha. lia. }
  assert (Hv' : watermark (deliver s o1 ev d) docRevisionField = Some (Some (revisionOf ev))).
  { unfold watermark. rewrite (deliver_watermark s Hs o1 ev Ho1 He d v Hv), Hadv. done. }
  assert (Ha' : admits (Some (revisionOf ev)) (revisionOf ev) = true) by apply Z.leb_refl.
  intros f Hf. own_cases f Hf.
  - rewrite (deliver_watermark s Hs o2 ev Ho2 He _ _ Hv'), (deliver_watermark s Hs o1 ev Ho1 He d v Hv), Hadv. cbn.
    by rewrite Z.max_id.
  - rewrite (deliver_segment s Hs o2 ev Ho2 He _ _ t c Hd' Hv' Hc), Ha'.
    rewrite (deliver_segment s Hs o1 ev Ho1 He d v t c Hd Hv Hc), Ha, elemsOf_docs.
    rewrite edits_idempotent; [done|]. eapply (so_archive _ Hs t c false). by apply resolve_own.
  - rewrite (deliver_column s Hs o2 ev Ho2 He _ _ _ Hv' Hcol), Ha'.
    rewrite (deliver_column s Hs o1 ev Ho1 He d v f Hv Hcol), Ha. by case_match.
Qed.

(** *** Deliveries *)

(** At-least-once delivery in the order of the history: each next delivery is the
    next event or one delivered before; the result is how many arrived. *)
Fixpoint arrived (m : nat) (ks : list nat) : option nat :=
  match ks with
  | [] => Some m
  | k :: rest => if (k <? m)%nat then arrived m rest else if (k =? m)%nat then arrived (S m) rest else None
  end.

Lemma arrived_le ks : forall m n, arrived m ks = Some n -> (m <= n)%nat.
Proof using.
  induction ks as [|k ks IH]; intros m n Hk; cbn [arrived] in Hk; [simplify_eq; lia|].
  destruct (k <? m)%nat; [eauto|]. destruct (k =? m)%nat; [|done]. apply IH in Hk. lia.
Qed.

Definition inOrder (o : GroupOrder) (evs : list decodedEvent) (d : Document) : Document :=
  foldl (fun d ev => deliver s o ev d) d evs.

(** The deliveries [ks] of the history [evs], each with its own map order. *)
Definition deliverAll (evs : list decodedEvent) (ks : list (GroupOrder * nat)) (d : Document) : Document :=
  foldl (fun d k => match evs !! k.2 with Some ev => deliver s k.1 ev d | None => d end) d ks.

(** A history: revisions increase, from above what the document has seen. *)
Definition history (evs : list decodedEvent) (d : Document) : Prop :=
  DocOk s d /\ (forall ev, ev ∈ evs -> EventOk s ev) /\
  (forall v ev, watermark d docRevisionField = Some v -> ev ∈ evs -> match v with Some w => w < revisionOf ev | None => 0 < revisionOf ev end) /\
  (forall i j x y, evs !! i = Some x -> evs !! j = Some y -> (i < j)%nat -> revisionOf x < revisionOf y).

Lemma take_snoc {A} (l : list A) m x : l !! m = Some x -> take (S m) l = take m l ++ [x].
Proof using. apply take_S_r. Qed.

Section History.
Context (o : GroupOrder) (Ho : orderOk o) (evs : list decodedEvent) (d0 : Document) (Hh : history evs d0).

Definition seen (m : nat) : Document := inOrder o (take m evs) d0.

Lemma seen_S m ev : evs !! m = Some ev -> seen (S m) = deliver s o ev (seen m).
Proof using. intros Hm. unfold seen, inOrder. by rewrite (take_snoc _ _ _ Hm), foldl_app. Qed.

Lemma history_ok m ev : evs !! m = Some ev -> EventOk s ev.
Proof using Hh. intros Hm. destruct Hh as (_ & Hok & _). apply Hok. by eapply list_elem_of_lookup_2. Qed.

(** After [m] events in order the watermark is the last one's revision. *)
Lemma seen_state m : (m <= length evs)%nat ->
  DocOk s (seen m) /\
  match m with
  | O => seen m = d0
  | S k => normalized (seen m) /\ exists ev, evs !! k = Some ev /\ watermark (seen m) docRevisionField = Some (Some (revisionOf ev))
  end /\
  (forall v ev, watermark (seen m) docRevisionField = Some v -> evs !! m = Some ev -> admits v (revisionOf ev) = true).
Proof using Hs H0 Ho Hh.
  intros Hm. induction m as [|m IH].
  - split_and!; [apply Hh|done|]. intros v ev Hv Hev. destruct Hh as (_ & _ & Hgt & _).
    specialize (Hgt v ev Hv ltac:(by eapply list_elem_of_lookup_2)). destruct v; cbn; [apply Z.leb_le | apply Z.ltb_lt]; lia.
  - destruct IH as (Hd & _ & Hadm); [lia|]. destruct (lookup_lt_is_Some_2 evs m) as [ev Hev]; [lia|].
    rewrite (seen_S _ _ Hev). pose proof (history_ok _ _ Hev) as He. destruct (Hd) as [[v Hv] _].
    assert (Hw : watermark (deliver s o ev (seen m)) docRevisionField = Some (Some (revisionOf ev))).
    { unfold watermark. rewrite (deliver_watermark s Hs o ev Ho He _ v Hv). cbn. do 2 f_equal.
      specialize (Hadm v ev Hv Hev). destruct v as [w|]; [|done]. cbn in *. apply Z.leb_le in Hadm. lia. }
    split_and!; [by apply deliver_DocOk|by apply deliver_normalized|by exists ev|].
    intros v' ev' Hv' Hev'. rewrite Hw in Hv'. simplify_eq. destruct Hh as (_ & _ & _ & Hinc).
    cbn. apply Z.leb_le. pose proof (Hinc m (S m) ev ev' Hev Hev' ltac:(lia)). lia.
Qed.

(** A redelivery changes nothing of what was delivered in order. *)
Lemma seen_redelivered m k o' ev : orderOk o' -> (k < m <= length evs)%nat -> evs !! k = Some ev ->
  agree (deliver s o' ev (seen m)) (seen m).
Proof using Hs H0 Ho Hh.
  intros Ho' [Hk Hm] Hev. pose proof (history_ok _ _ Hev) as He.
  destruct m as [|m]; [lia|]. destruct (seen_state (S m) Hm) as (Hd & (Hn & last & Hlast & Hw) & _).
  destruct (decide (k = m)) as [->|Hne].
  - rewrite Hev in Hlast. simplify_eq. rewrite (seen_S _ _ Hev).
    destruct (seen_state m ltac:(lia)) as (Hdm & _ & Hadm). destruct (Hdm) as [[v Hv] _].
    apply (deliver_again o o' last (seen m) v); auto.
  - apply (deliver_stale o' ev (seen (S m)) (revisionOf last)); try done.
    destruct Hh as (_ & _ & _ & Hinc). apply (Hinc k m); [done..|lia].
Qed.

Lemma deliveries_agree ks : forall m n d,
  Forall (fun k => orderOk k.1) ks -> arrived m (snd <$> ks) = Some n -> (n <= length evs)%nat -> (m <= length evs)%nat ->
  agree d (seen m) -> agree (deliverAll evs ks d) (seen n).
Proof using Hs H0 Ho Hh.
  induction ks as [|[o' k] ks IH]; intros m n d Hos Harr Hn Hm Ha; [by simplify_eq/=|].
  inversion Hos as [|?? Ho' Hos']; subst. cbn [fst] in Ho'. cbn [fmap list_fmap arrived snd] in Harr.
  change (deliverAll evs ((o', k) :: ks) d)
    with (deliverAll evs ks (match evs !! k with Some ev => deliver s o' ev d | None => d end)).
  assert (Hdok : DocOk s d) by (eapply agree_DocOk; [symmetry; exact Ha|]; by apply seen_state).
  destruct (Nat.ltb_spec k m) as [Hlt|Hge].
  - destruct (lookup_lt_is_Some_2 evs k) as [ev Hev]; [lia|]. rewrite Hev. apply (IH m n); try done.
    transitivity (deliver s o' ev (seen m)); [apply deliver_cong; try done; by eapply history_ok|].
    eapply seen_redelivered; [done|split; [done|lia]|done].
  - destruct (Nat.eqb_spec k m) as [->|]; [|done]. pose proof (arrived_le _ _ _ Harr).
    destruct (lookup_lt_is_Some_2 evs m) as [ev Hev]; [lia|]. rewrite Hev. apply (IH (S m) n); try done; [lia|].
    rewrite (seen_S _ _ Hev). apply deliver_cong; try done. by eapply history_ok.
Qed.

End History.
End Agreement.

(** ** Columns of the shared base *)

Section Base.
Context `{MongoLaws} (s : ViewSchema) (Hs : SchemaOk s).

(** An event written onto a role's document: as its own event, or fanned out from
    another role. *)
Record BaseWrite := mkBaseWrite { bw_own : bool; bw_order : GroupOrder; bw_event : decodedEvent }.

Definition writeBase (w : BaseWrite) (d : Document) : Document :=
  foldl mg_set d
    (if bw_own w then buildProjectionStages (bw_order w) s (bw_event w) else buildFanOutStages (bw_order w) s (bw_event w)).

Definition baseRevisionOf (w : BaseWrite) : Z := pi_BaseRevision (de_IDs (bw_event w)).

(** A write that carries the base column [c] with the value [x]. *)
Definition carries (c : string) (w : BaseWrite) (x : MVal) : Prop :=
  orderOk (bw_order w) /\ EventOk s (bw_event w) /\ de_Scalars (bw_event w) !! c = Some x /\
  pi_BaseID (de_IDs (bw_event w)) <> "" /\ 0 < baseRevisionOf w.

Lemma fanOutScalars_lookup ev c :
  fanOutScalars s ev !! c = if bool_decide (c ∈ SharedBaseBusinessColumns s) then lit <$> de_Scalars ev !! c else None.
Proof using Hs H0.
  unfold fanOutScalars. generalize (SharedBaseBusinessColumns s). intros cols.
  induction cols as [|g cols IH] using rev_ind; [done|]. rewrite foldl_app. cbn.
  destruct (decide (g = c)) as [->|Hne].
  - rewrite bool_decide_true by set_solver. destruct (de_Scalars ev !! c) eqn:Ec; [by rewrite lookup_insert_eq|].
    rewrite IH. by case_bool_decide.
  - assert (Hin : c ∈ cols ++ [g] <-> c ∈ cols) by set_solver. rewrite (bool_decide_ext _ _ Hin), <- IH.
    destruct (de_Scalars ev !! g); [by rewrite lookup_insert_ne|done].
Qed.

Lemma baseScalars_lookup ev c x : c ∈ SharedBaseBusinessColumns s -> de_Scalars ev !! c = Some x ->
  baseScalars s ev !! c = Some (lit x).
Proof using Hs.
  intros Hc Hx. unfold baseScalars. rewrite map_lookup_imap, Hx. cbn.
  destruct (so_baseCol _ Hs c Hc) as (_ & _ & Hne). apply String.eqb_neq in Hne as ->. cbn. by rewrite bool_decide_true.
Qed.

(** The guarded set of a base column. *)
Lemma baseSet_run (base : MStage) ids d v c x :
  watermark d docBaseRevisionField = Some v -> base !! c = Some (lit x) -> c <> docBaseRevisionField ->
  pi_BaseID ids <> "" -> 0 < pi_BaseRevision ids ->
  foldl mg_set d (baseSetStages base ids) !! c = (if admits v (pi_BaseRevision ids) then Some x else d !! c) /\
  foldl mg_set d (baseSetStages base ids) !! docBaseRevisionField = Some (MInt (advanced v (pi_BaseRevision ids))).
Proof using H0.
  intros Hv Hc Hne Hid Hr. unfold baseSetStages. rewrite bool_decide_false by (intros ->; done).
  apply String.eqb_neq in Hid as ->. apply Z.ltb_lt in Hr as ->. cbn [negb andb foldl].
  unfold baseGuardedSetStage. rewrite !(guardedSet_lookup _ _ _ _ _ v) by done.
  rewrite (proj2 (String.eqb_neq _ _) Hne), String.eqb_refl, Hc. split; [|done].
  destruct (admits _ _); [apply ml_lit|done].
Qed.

(** The other stages leave base columns and their watermark alone. *)
Lemma base_untouched order ev f r :
  orderOk order -> EventOk s ev -> (f ∈ SharedBaseBusinessColumns s \/ f = docBaseRevisionField) ->
  Forall (fun st : MStage => st !! f = None) (ownGuardedChildStages order s ev) /\
  Forall (fun st : MStage => st !! f = None) (childStages order s (de_BaseChildren ev) r true) /\
  Forall (fun st : MStage => st !! f = None) (option_list (segmentNormalizeStage s)) /\ ownScalars s ev !! f = None.
Proof using Hs.
  intros Ho He Hf.
  assert (Hseg : ~ isSegment s f).
  { destruct Hf as [Hc| ->]; [by apply (so_baseCol _ Hs)|]. by apply reserved_outside. }
  split_and!.
  - apply ownChildren_untouched; try done. intros t c Hc Heq. apply Hseg. exists t, c, false. by rewrite resolve_own.
  - apply baseChildren_untouched; try done. intros t c Hc Heq. apply Hseg. exists t, c, true. split; [|done].
    unfold resolveChild. by rewrite (so_baseChildren _ Hs), Hc by by eexists.
  - by apply normalize_untouched.
  - destruct (ownScalars s ev !! f) as [e|] eqn:Ee; [|done].
    destruct (ownScalars_entry s ev f e Hs He Ee) as (_ & Hr & _ & Hn). destruct Hf as [| ->]; done.
Qed.

Lemma own_stage_untouched (own : MStage) r f : own !! f = None -> f <> docRevisionField ->
  Forall (fun st : MStage => st !! f = None) (if bool_decide (own = ∅) then [] else [guardedSetStage docRevisionField own r]).
Proof using.
  intros Hf Hne. destruct (bool_decide _); [done|]. constructor; [|done].
  unfold guardedSetStage. by rewrite lookup_insert_ne, map_lookup_imap, Hf.
Qed.

(** One write: the column follows the guard, the watermark advances. *)
Lemma writeBase_lookup w d v c x :
  watermark d docBaseRevisionField = Some v -> c ∈ SharedBaseBusinessColumns s -> carries c w x ->
  writeBase w d !! c = (if admits v (baseRevisionOf w) then Some x else d !! c) /\
  watermark (writeBase w d) docBaseRevisionField = Some (Some (advanced v (baseRevisionOf w))).
Proof using Hs H0.
  intros Hv Hc (Ho & He & Hx & Hid & Hr). destruct (so_baseCol _ Hs c Hc) as (Hres & _ & _).
  assert (Hne : c <> docBaseRevisionField) by (intros ->; done).
  assert (Hne' : c <> docRevisionField) by (intros ->; done).
  destruct (base_untouched (bw_order w) (bw_event w) c (baseRevisionOf w) Ho He (or_introl Hc)) as (A1 & A2 & A3 & A4).
  destruct (base_untouched (bw_order w) (bw_event w) _ (baseRevisionOf w) Ho He (or_intror eq_refl)) as (B1 & B2 & B3 & B4).
  unfold watermark, writeBase in *. destruct (bw_own w).
  - unfold buildProjectionStages. cbv zeta. rewrite app_assoc, !foldl_app.
    rewrite !(run_untouched (option_list _)), !(run_untouched (if bool_decide _ then _ else _))
      by (done || by apply own_stage_untouched).
    set (d1 := foldl mg_set (foldl mg_set d _) _).
    assert (Hd1 : d1 !! c = d !! c /\ d1 !! docBaseRevisionField = d !! docBaseRevisionField).
    { unfold d1. by rewrite !run_untouched. }
    destruct Hd1 as [Hd1 Hd1']. rewrite <- Hd1, <- Hd1' in *.
    destruct (baseSet_run (baseScalars s (bw_event w)) (de_IDs (bw_event w)) d1 v c x) as [-> ->]; try done.
    by apply baseScalars_lookup.
  - unfold buildFanOutStages. rewrite foldl_app, !(run_untouched (childStages _ _ _ _ _)) by done.
    destruct (baseSet_run (fanOutScalars s (bw_event w)) (de_IDs (bw_event w)) d v c x) as [-> ->]; try done.
    rewrite fanOutScalars_lookup, bool_decide_true, Hx by done. done.
Qed.

(** Over writes in any order: the value of the highest revision stands. *)
Lemma writes_settle c R X ws : c ∈ SharedBaseBusinessColumns s -> forall d v,
  watermark d docBaseRevisionField = Some v -> match v with Some w => w <= R | None => True end ->
  (forall w, w ∈ ws -> exists x, carries c w x /\ baseRevisionOf w <= R /\ (baseRevisionOf w = R -> x = X)) ->
  ((v = Some R /\ d !! c = Some X) \/ exists w, w ∈ ws /\ baseRevisionOf w = R) ->
  foldl (fun d w => writeBase w d) d ws !! c = Some X /\
  watermark (foldl (fun d w => writeBase w d) d ws) docBaseRevisionField = Some (Some R).
Proof using Hs H0.
  intros Hc. induction ws as [|w ws IH]; intros d v Hv Hle Hws Hwin; cbn [foldl].
  { destruct Hwin as [[-> Hd]|(w & Hw & _)]; [by split|set_solver]. }
  destruct (Hws w) as (x & Hx & Hr & Heq); [set_solver|].
  destruct (writeBase_lookup w d v c x Hv Hc Hx) as [Hc' Hv'].
  apply (IH _ _ Hv').
  - destruct v; cbn in *; lia.
  - intros w' Hw'. apply Hws. set_solver.
  - destruct (decide (baseRevisionOf w = R)) as [HR|HR].
    + left. rewrite Hc', <- (Heq HR). destruct Hx as (_ & _ & _ & _ & Hpos). split.
      * f_equal. destruct v; cbn in *; lia.
      * destruct v as [u|]; cbn in *; [rewrite (proj2 (Z.leb_le u _)) by lia | rewrite (proj2 (Z.ltb_lt _ _)) by lia]; done.
    + destruct Hwin as [[-> Hd]|(w' & Hw' & HR')].
      * left. rewrite Hc'. cbn in *. rewrite (proj2 (Z.leb_gt R _)) by lia. split; [f_equal; lia|done].
      * right. exists w'. split; [|done]. apply elem_of_cons in Hw' as [->|]; [done|done].
Qed.

End Base.
