(* ===== verification/Consult.v ===== *)
(** * The pipeline of a composed document

    [infra/db/query/consult_guard.go] and [sortedSegment]/[embedOrders] of
    [infra/db/query/embed_surgical.go]: a document composed from the relational
    source, written behind its watermarks.  [ViewDefinition] is what the sync engine
    reads of a view. *)

From S2P Require Import Prelude Mongo Projection.
From stdpp Require Import base gmap strings list fin_maps.
From Stdlib Require Import ZArith Lia.

Open Scope string_scope.
Open Scope list_scope.
Open Scope Z_scope.

(** A leg: the view it joins, by its name, or none for an external collection; the table
    of its schema; the document field it lands under; its field allowlist. *)
Record Leg := mkLeg { lg_view : option string; lg_table : string; lg_externalName : string; lg_fields : list string }.

#[export] Instance Leg_eq_dec : EqDecision Leg.
Proof. solve_decision. Defined.

(** A declared embed; a missing leg is [None]. *)
Record embedDef := mkEmbed {
  em_leg : option Leg;
  em_many : bool;
  em_joinCol : string;
  em_orderBy : string;
  em_orderDesc : bool;
  em_orderDescOnly : bool
}.

#[export] Instance embedDef_eq_dec : EqDecision embedDef.
Proof. solve_decision. Defined.

(** [Field]; the code reads it of embeds with a leg only. *)
Definition em_field (e : embedDef) : string := match em_leg e with Some l => lg_externalName l | None => "" end.

(** An embed inside the elements of a native child, whose table is [ce_childTable]. *)
Record childEmbedDef := mkChildEmbed { ce_childTable : string; ce_leg : option Leg; ce_joinCol : string }.

#[export] Instance childEmbedDef_eq_dec : EqDecision childEmbedDef.
Proof. solve_decision. Defined.

Record embedOrder := mkEmbedOrder { eo_column : string; eo_desc : bool }.

(** [vd_roles]: the segment and the schema of each role of a SharedBaseView. *)
Record ViewDefinition := mkView {
  vd_name : string;
  vd_schema : ViewSchema;
  vd_isSharedBaseView : bool;
  vd_deleteOnArchive : bool;
  vd_embeds : list embedDef;
  vd_childEmbeds : list childEmbedDef;
  vd_roles : list (string * ViewSchema)
}.

(** [scopeShape]. *)
Record scopeShape := mkShape { ss_arraySegs : gmap string string; ss_objectSegs : list string }.

Definition embedOrders (embeds : list embedDef) : gmap string embedOrder :=
  foldl (fun out e =>
    if em_many e && negb (String.eqb (em_orderBy e) "")
    then <[em_field e := mkEmbedOrder (em_orderBy e) (em_orderDesc e)]> out else out) ∅ embeds.

Definition sortedSegment (expr : MExpr) (ord : option embedOrder) : MExpr :=
  match ord with
  | Some o =>
      if String.eqb (eo_column o) "" then expr
      else MSortArray expr [(eo_column o, if eo_desc o then -1 else 1); ("_id", 1)]
  | None => expr
  end.

Definition watermarkOf (floatToInt : string -> Z) (v : option MVal) : Z :=
  match v with
  | Some (MInt n) => n
  | Some (MDouble t) => floatToInt t
  | _ => 0
  end.

Definition typeIs (col name : string) : MExpr := MEq (MType (MPath col)) (lit (MStr name)).

Definition equalRevisionExpr (col : string) (v : MVal) (shape : scopeShape) : MExpr :=
  let fillIfMissing := MCond (typeIs col "missing") (lit v) (MPath col) in
  match ss_arraySegs shape !! col with
  | Some pkCol =>
      let matched :=
        MIfNull
          (MElemAt (MFilter (lit v) "fresh" (MEq (MVarField "fresh" pkCol) (MVarField "stored" pkCol))) 0)
          (MObject []) in
      MCond (typeIs col "array") (MMap (MPath col) "stored" (MMerge matched (MVar "stored"))) fillIfMissing
  | None =>
      if bool_decide (col ∈ ss_objectSegs shape)
      then MCond (typeIs col "object") (MMerge (lit v) (MPath col)) fillIfMissing
      else fillIfMissing
  end.

Definition scopeStage (watermarkField : string) (set : Document) (rev : Z) (shape : scopeShape) : MStage :=
  if Z.leb rev 0 then lit <$> set
  else
    <[watermarkField := advance watermarkField rev]>
      (map_imap (fun col v =>
         Some (MCond (newerThan watermarkField rev) (lit v)
           (MCond (sameRevision watermarkField rev) (equalRevisionExpr col v shape) (MPath col)))) set).

Definition embedCreateStage (embeds : Document) (pkCol : string) (orders : gmap string embedOrder) : MStage :=
  let exists_ := MNe (MType (MPath pkCol)) (lit (MStr "missing")) in
  map_imap (fun k v => Some (MCond exists_ (MPath k) (sortedSegment (lit v) (orders !! k)))) embeds.

Definition segmentKeys (children : gmap string ChildView) : gmap string string :=
  list_to_map ((fun c => (cv_segment c, cv_idColumn c)) <$> (map_to_list children).*2).

(** The columns and segments guarded by the base watermark. *)
Definition consultBaseCols (view : ViewDefinition) : list string :=
  if vd_isSharedBaseView view then []
  else SharedBaseBusinessColumns (vd_schema view) ++ (cv_segment <$> (map_to_list (baseChildren (vd_schema view))).*2).

Definition consultOwnShape (view : ViewDefinition) : scopeShape :=
  mkShape (segmentKeys (vs_children (vd_schema view)))
    (if vd_isSharedBaseView view then (vd_roles view).*1 else []).

Definition consultBaseShape (view : ViewDefinition) : scopeShape :=
  mkShape (if vd_isSharedBaseView view then ∅ else segmentKeys (baseChildren (vd_schema view))) [].

Inductive FieldScope := ScopeNone | ScopeEmbed | ScopeBase | ScopeOwn.

Definition scopeOf (view : ViewDefinition) (k : string) : FieldScope :=
  if String.eqb k "_id" || String.eqb k docRevisionField || String.eqb k docBaseRevisionField then ScopeNone
  else if bool_decide (k ∈ em_field <$> vd_embeds view) then ScopeEmbed
  else if bool_decide (k ∈ consultBaseCols view) then ScopeBase
  else ScopeOwn.

Definition inScope (view : ViewDefinition) (wanted : FieldScope -> bool) (doc : Document) : Document :=
  map_imap (fun k v => if wanted (scopeOf view k) then Some v else None) doc.

Definition isEmbedScope (x : FieldScope) : bool := match x with ScopeEmbed => true | _ => false end.
Definition isBaseScope (x : FieldScope) : bool := match x with ScopeBase => true | _ => false end.
Definition isOwnScope (x : FieldScope) : bool := match x with ScopeOwn => true | _ => false end.

Definition consultGuardedStages (floatToInt : string -> Z) (view : ViewDefinition) (doc : Document) : list MStage :=
  let ownRev := watermarkOf floatToInt (doc !! docRevisionField) in
  let baseRev := watermarkOf floatToInt (doc !! docBaseRevisionField) in
  let embeds := inScope view isEmbedScope doc in
  let own := inScope view isOwnScope doc in
  let base := inScope view isBaseScope doc in
  (if bool_decide (embeds = ∅) then []
   else [embedCreateStage embeds (vs_idColumn (vd_schema view)) (embedOrders (vd_embeds view))]) ++
  (if bool_decide (own = ∅) then [] else [scopeStage docRevisionField own ownRev (consultOwnShape view)]) ++
  (if bool_decide (base = ∅) then [] else [scopeStage docBaseRevisionField base baseRev (consultBaseShape view)]).
