(* ===== verification/ProjectionClaims.v ===== *)
(** * Theorems on the projection

    What the read side's pipelines guarantee of a document: redeliveries converge,
    the shared base follows its last writer, a fan-out stays within the base, the
    child arrays follow their rows.  [ShopViews] is a sample schema. *)

From S2P Require Import Prelude GoStrings Mongo Projection ProjectionProps ProjectionOwn Consult.
From stdpp Require Import base gmap strings list fin_maps.
From Stdlib Require Import ZArith Lia.

Open Scope string_scope.
Open Scope list_scope.
Open Scope Z_scope.

(** ** A sample schema *)

Module ShopViews.

Definition items : ChildView := mkChildView "items" "id" (Some "archived_at") ∅.
Definition phones : ChildView := mkChildView "phones" "id" (Some "archived_at") ∅.

(** A customer: a role of a person, with items of its own. *)
Definition customer : ViewSchema :=
  mkViewSchema "customers" "id" "revision" [["note"]] {["Item" := items]}
    (Some (mkBaseLink "people" "id" ["name"] {["Phone" := phones]})) ∅.

Definition sorted : GroupOrder := map_to_list.

Lemma sorted_ok : orderOk sorted.
Proof. by intros m. Qed.

Lemma resolve_cases t c b : resolveChild customer t = Some (c, b) ->
  (t = "Item" /\ c = items /\ b = false) \/ (t = "Phone" /\ c = phones /\ b = true).
Proof.
  unfold resolveChild, baseChildren. cbn [vs_children vs_base bl_children customer].
  destruct (decide (t = "Item")) as [->|Hi]; [rewrite lookup_singleton_eq; left; by simplify_eq|].
  rewrite (lookup_singleton_ne "Item") by done.
  destruct (decide (t = "Phone")) as [->|Hp]; [rewrite lookup_singleton_eq; right; by simplify_eq/=|].
  by rewrite lookup_singleton_ne by done.
Qed.

Lemma segment_cases f : isSegment customer f -> f = "items" \/ f = "phones".
Proof. intros (t & c & b & [(_ & -> & _)|(_ & -> & _)]%resolve_cases & <-); auto. Qed.

Ltac no_segment := let E := fresh in intros E; apply segment_cases in E; destruct E as [E|E]; discriminate E.

Lemma customer_ok : SchemaOk customer.
Proof.
  split.
  - intros t1 t2 c1 c2 b1 b2 H1%resolve_cases H2%resolve_cases Heq. naive_solver.
  - intros t c b H%resolve_cases. naive_solver.
  - intros t c b H%resolve_cases. naive_solver.
  - intros t [c Hc]. cbn in *. apply lookup_singleton_Some in Hc as [<- _]. done.
  - split_and!; [done|no_segment|]. by intros E%list_elem_of_singleton.
  - intros c Hc. cbn in Hc. apply list_elem_of_singleton in Hc as ->. split_and!; [done|no_segment|done].
  - intros cols c Hcols%list_elem_of_singleton Hc. subst cols. apply list_elem_of_singleton in Hc as ->.
    by intros E%list_elem_of_singleton.
Qed.

Definition ids (rev : Z) (baseRev : Z) : payloadIDs := mkPayloadIDs "c1" rev "p1" baseRev false "".

Definition item (id name : string) : Document := {["id" := MStr id; "name" := MStr name]}.

(** An event with a note, a name of the base and ops on the items. *)
Definition event (rev baseRev : Z) (note name : string) (ops : list childOp) : decodedEvent :=
  mkDecoded (ids rev baseRev) {["note" := MStr note; "name" := MStr name]} {["Item" := ops]} ∅.

Lemma event_ok rev baseRev note name ops : EventOk customer (event rev baseRev note name ops).
Proof.
  split.
  - intros c v Hc. cbn in Hc.
    assert (c = "note" \/ c = "name") as [-> | ->].
    { destruct (decide (c = "note")); [by left|]. destruct (decide (c = "name")); [by right|].
      by rewrite lookup_insert_ne, lookup_singleton_ne in Hc by done. }
    all: split; [done|no_segment].
  - intros t [o Ho] c b Hr. cbn in Ho. apply lookup_singleton_Some in Ho as [<- _].
    apply resolve_cases in Hr. naive_solver.
  - intros t [o Ho]. cbn in Ho. by rewrite lookup_empty in Ho.
  - done.
Qed.

Definition fresh : Document := {["_id" := MStr "c1"]}.

Lemma fresh_ok : DocOk customer fresh.
Proof.
  split; [by eexists|]. intros t c Hc. left. unfold ownSegment in Hc. cbn in Hc.
  by apply lookup_singleton_Some in Hc as [_ <-].
Qed.

(** Inserted, then updated with a second item, then the first item removed. *)
Definition e1 := event 1 3 "a" "Ann" [mkChildOp "insert" (item "i1" "pen")].
Definition e2 := event 2 3 "b" "Ann" [mkChildOp "insert" (item "i2" "ink")].
Definition e3 := event 3 4 "c" "Anna" [mkChildOp "delete" (item "i1" "pen")].

End ShopViews.

(** ** At-least-once delivery *)

Section Claims.
Context `{MongoLaws}.

(** C5: Deliveries of an aggregate's events, in order but each any number of times and
    redelivered at any later point, leave the same own data as each event once. *)
Theorem redelivery_converges (s : ViewSchema) (o : GroupOrder) (evs : list decodedEvent) (d : Document)
    (ks : list (GroupOrder * nat)) (n : nat) :
  SchemaOk s -> orderOk o -> history s evs d -> Forall (fun k => orderOk k.1) ks ->
  arrived 0 (snd <$> ks) = Some n -> (n <= length evs)%nat ->
  agree s (deliverAll s evs ks d) (inOrder s o (take n evs) d).
Proof.
  intros Hs Ho Hh Hks Harr Hn. apply (deliveries_agree s Hs o Ho evs d Hh ks 0 n d); try done; lia.
Qed.

(** C14: A column of the shared base ends with the value of the highest base revision
    written, whatever the order of the writes and whichever roles made them. *)
Theorem base_last_writer_wins (s : ViewSchema) (c : string) (x : MVal) (w : BaseWrite) (ws : list BaseWrite) (d : Document)
    (v : option Z) :
  SchemaOk s -> c ∈ SharedBaseBusinessColumns s ->
  watermark d docBaseRevisionField = Some v -> match v with Some r => r <= baseRevisionOf w | None => True end ->
  w ∈ ws ->
  (forall w', w' ∈ ws -> exists x', carries s c w' x' /\ baseRevisionOf w' <= baseRevisionOf w /\
     (baseRevisionOf w' = baseRevisionOf w -> x' = x)) ->
  foldl (fun d w => writeBase s w d) d ws !! c = Some x /\
  watermark (foldl (fun d w => writeBase s w d) d ws) docBaseRevisionField = Some (Some (baseRevisionOf w)).
Proof. intros Hs Hc Hv Hle Hw Hws. eapply writes_settle; eauto. Qed.

(** A fan-out to another role's document leaves every field alone but the base
    columns, the segments of the base's children and the base watermark. *)
Theorem fan_out_touches_only_the_base (s : ViewSchema) (order : GroupOrder) (ev : decodedEvent) (d : Document) (f : string) :
  SchemaOk s -> orderOk order -> EventOk s ev ->
  f ∉ SharedBaseBusinessColumns s -> f <> docBaseRevisionField ->
  (forall t c, baseChildren s !! t = Some c -> cv_segment c <> f) ->
  foldl mg_set d (buildFanOutStages order s ev) !! f = d !! f.
Proof.
  intros Hs Ho He Hc Hr Hseg. apply run_untouched, Forall_app. split.
  - apply baseSet_untouched; [|done]. rewrite (fanOutScalars_lookup s Hs). by rewrite bool_decide_false.
  - by apply baseChildren_untouched.
Qed.

End Claims.

(** The row of a key among the elements. *)
Definition rowAt (pk id : string) (l : list Document) : option Document := List.find (keyed pk id) l.

(** One op on a table of rows by key. *)
Definition rowOp (child : ChildView) (op : childOp) (id : string) (row : option Document) : option Document :=
  if negb (bool_decide (opKey child op = Some id)) then row
  else if isUpsertOp op then Some (co_Fields op)
  else if isArchiveOp op then <[archivedAtOf child := archiveStamp child op]> <$> row
  else if isDeleteOp op then None
  else row.

Lemma find_filter_other pk id id' l : id' <> id ->
  List.find (keyed pk id') (List.filter (fun e => negb (keyed pk id e)) l) = List.find (keyed pk id') l.
Proof.
  intros Hne. induction l as [|e l IH]; [done|]. cbn. destruct (keyed pk id e) eqn:Hk; cbn.
  - assert (keyed pk id' e = false) as ->; [|done]. unfold keyed in *. destruct (e !! pk) as [[]|]; try done.
    apply String.eqb_eq in Hk as ->. by apply String.eqb_neq.
  - by rewrite IH.
Qed.

Lemma find_filter_same pk id l : List.find (keyed pk id) (List.filter (fun e => negb (keyed pk id e)) l) = None.
Proof. induction l as [|e l IH]; [done|]. cbn. destruct (keyed pk id e) eqn:Hk; cbn; [done|]. by rewrite Hk. Qed.

Lemma find_app {A} (f : A -> bool) k l :
  List.find f (k ++ l) = match List.find f k with Some a => Some a | None => List.find f l end.
Proof. induction k as [|a k IH]; [done|]. cbn. by destruct (f a). Qed.

Lemma opKey_fields child op id : opKey child op = Some id -> keyed (cv_idColumn child) id (co_Fields op) = true.
Proof.
  unfold opKey, keyed. destruct (String.eqb _ _); [done|]. destruct (co_Fields op !! _) as [[]|]; try done.
  destruct (String.eqb s ""); [done|]. intros [= ->]. apply String.eqb_refl.
Qed.

Lemma keyed_unique pk id id' e : keyed pk id e = true -> id' <> id -> keyed pk id' e = false.
Proof.
  unfold keyed. destruct (e !! pk) as [[]|]; try done. intros ->%String.eqb_eq Hne. apply String.eqb_neq. congruence.
Qed.

Lemma find_mark pk acol id id' v l : acol <> pk ->
  List.find (keyed pk id') ((fun e => if keyed pk id e then <[acol := v]> e else e) <$> l) =
    (if decide (id' = id) then <[acol := v]> <$> List.find (keyed pk id') l else List.find (keyed pk id') l).
Proof.
  intros Hne. assert (Hins : forall i (e : Document), keyed pk i (<[acol := v]> e) = keyed pk i e).
  { intros i e. unfold keyed. by rewrite lookup_insert_ne. }
  induction l as [|e l IH]; [by case_decide|]. cbn. destruct (keyed pk id e) eqn:Hk; rewrite ?Hins.
  - case_decide as Hd; [subst; by rewrite Hk|]. by rewrite (keyed_unique _ _ _ _ Hk Hd), IH.
  - destruct (keyed pk id' e) eqn:Hk'; [|exact IH]. case_decide; [congruence|done].
Qed.

Lemma editElems_row child op l id : archivedAtOf child <> cv_idColumn child ->
  rowAt (cv_idColumn child) id (editElems child l op) = rowOp child op id (rowAt (cv_idColumn child) id l).
Proof.
  intros Ha. unfold rowAt, editElems, rowOp. destruct (opKey child op) as [key|] eqn:Hk; [|done].
  destruct (decide (id = key)) as [->|Hne].
  - rewrite bool_decide_true by done. cbn [negb].
    destruct (isUpsertOp op).
    { rewrite find_app, find_filter_same. cbn. by rewrite (opKey_fields _ _ _ Hk). }
    destruct (isArchiveOp op); [rewrite find_mark by done; by rewrite decide_True|].
    destruct (isDeleteOp op); [apply find_filter_same|done].
  - rewrite bool_decide_false by congruence. cbn [negb].
    destruct (isUpsertOp op).
    { rewrite find_app, find_filter_other by done. cbn.
      rewrite (keyed_unique _ _ _ _ (opKey_fields _ _ _ Hk) Hne). by destruct (List.find _ l). }
    destruct (isArchiveOp op); [rewrite find_mark by done; by rewrite decide_False|].
    destruct (isDeleteOp op); [by apply find_filter_other|done].
Qed.

(** C17: A child array refines its table: the element of each key after an event that
    is not older is the row after the event's operations on that key, and every
    other element stays. *)
Theorem child_array_refines_its_rows `{MongoLaws} (s : ViewSchema) (order : GroupOrder) (ev : decodedEvent) (d : Document)
    (v : option Z) (t : string) (c : ChildView) (id : string) :
  SchemaOk s -> orderOk order -> EventOk s ev -> DocOk s d -> watermark d docRevisionField = Some v ->
  vs_children s !! t = Some c -> admits v (revisionOf ev) = true ->
  rowAt (cv_idColumn c) id (elemsOf (deliver s order ev d !! cv_segment c)) =
    foldl (fun row op => rowOp c op id row) (rowAt (cv_idColumn c) id (elemsOf (d !! cv_segment c)))
      (default [] (de_Children ev !! t)).
Proof.
  intros Hs Ho He Hd Hv Hc Ha. rewrite (deliver_segment s Hs order ev Ho He d v t c Hd Hv Hc), Ha, elemsOf_docs.
  assert (Harch : archivedAtOf c <> cv_idColumn c) by (eapply (so_archive _ Hs t c false); by apply resolve_own).
  unfold opsFor. generalize (elemsOf (d !! cv_segment c)). induction (default [] _) as [|op ops IH]; intros l; [done|].
  cbn [foldl]. by rewrite IH, editElems_row.
Qed.

(** ** Composed documents *)

Section Consult.
Context `{MongoLaws} (floatToInt : string -> Z) (view : ViewDefinition) (doc : Document).

Lemma inScope_lookup wanted f :
  inScope view wanted doc !! f = if wanted (scopeOf view f) then doc !! f else None.
Proof using.
  unfold inScope. rewrite map_lookup_imap. destruct (doc !! f); cbn; by destruct (wanted (scopeOf view f)).
Qed.

Lemma embed_untouched f (orders : gmap string embedOrder) pk :
  isEmbedScope (scopeOf view f) = false ->
  Forall (fun st : MStage => st !! f = None)
    (if bool_decide (inScope view isEmbedScope doc = ∅) then [] else [embedCreateStage (inScope view isEmbedScope doc) pk orders]).
Proof using.
  intros Hf. destruct (bool_decide _); [done|]. constructor; [|done]. unfold embedCreateStage.
  by rewrite map_lookup_imap, inScope_lookup, Hf.
Qed.

Lemma scopeStage_other wf set rev shape f : f <> wf -> set !! f = None -> scopeStage wf set rev shape !! f = None.
Proof using.
  intros Hne Hf. unfold scopeStage. destruct (Z.leb rev 0); [by rewrite lookup_fmap, Hf|].
  by rewrite lookup_insert_ne, map_lookup_imap, Hf by done.
Qed.

Lemma eval_missing d f : mg_eval d ∅ (typeIs f "missing") = Some (MBool (bool_decide (d !! f = None))).
Proof using H0.
  unfold typeIs. rewrite (ml_eqStr _ _ _ _ "missing") by apply ml_lit. rewrite ml_type, ml_path.
  destruct (d !! f) as [[]|]; reflexivity.
Qed.

(** A scalar of a composed document is written over an older revision, only fills a
    missing field at the same one, and changes nothing over a newer one. *)
Theorem consult_scalars_follow_the_guard (d : Document) (f : string) (v : MVal) (r : Z) (w : option Z) :
  scopeOf view f = ScopeOwn -> segmentKeys (vs_children (vd_schema view)) !! f = None -> f ∉ (vd_roles view).*1 ->
  doc !! f = Some v -> doc !! docRevisionField = Some (MInt r) -> 0 < r ->
  watermark d docRevisionField = Some w ->
  foldl mg_set d (consultGuardedStages floatToInt view doc) !! f =
    match w with
    | Some stored => if Z.ltb stored r then Some v
                     else if Z.eqb stored r then Some (default v (d !! f))
                     else d !! f
    | None => Some v
    end.
Proof using H0.
  intros Hscope Hseg Hroles Hv Hr Hpos Hw.
  assert (Hne : f <> docRevisionField /\ f <> docBaseRevisionField) by (split; intros ->; done).
  unfold consultGuardedStages. rewrite Hr. cbn [watermarkOf]. rewrite !foldl_app.
  rewrite (run_untouched (if bool_decide (inScope view isBaseScope doc = ∅) then _ else _)).
  2:{ destruct (bool_decide _); [done|]. constructor; [|done]. apply scopeStage_other; [apply Hne|].
      by rewrite inScope_lookup, Hscope. }
  set (d1 := foldl mg_set d _).
  assert (Hd1 : d1 !! f = d !! f /\ watermark d1 docRevisionField = Some w).
  { unfold d1, watermark. rewrite !run_untouched; [done|apply embed_untouched; done|apply embed_untouched; by rewrite Hscope]. }
  destruct Hd1 as [Hd1 Hw1].
  assert (Hown : inScope view isOwnScope doc !! f = Some v) by by rewrite inScope_lookup, Hscope.
  rewrite bool_decide_false by (intros E; by rewrite E in Hown). cbn [foldl].
  rewrite ml_set. unfold scopeStage. rewrite (proj2 (Z.leb_gt r 0) Hpos).
  rewrite lookup_insert_ne, map_lookup_imap, Hown by (symmetry; apply Hne). cbn [mbind option_bind].
  rewrite (ml_cond _ _ _ _ _ _ (eval_newerThan _ _ r _ Hw1)).
  destruct w as [stored|]; [|rewrite (proj2 (Z.ltb_lt (-1) r)) by lia; apply ml_lit].
  destruct (Z.ltb stored r); [apply ml_lit|].
  rewrite (ml_cond _ _ _ _ _ _ (eval_sameRevision _ _ r _ Hw1)). destruct (Z.eqb stored r); [|by rewrite ml_path].
  unfold equalRevisionExpr, consultOwnShape. cbn [ss_arraySegs ss_objectSegs]. rewrite Hseg.
  rewrite bool_decide_false by (destruct (vd_isSharedBaseView view); [done|apply not_elem_of_nil]).
  rewrite (ml_cond _ _ _ _ _ _ (eval_missing d1 f)), Hd1. case_bool_decide as Hm; [rewrite Hm; apply ml_lit|].
  rewrite ml_path, Hd1. by destruct (d !! f).
Qed.

End Consult.

(** ** Witnesses *)

Module Witnesses.
Import ShopViews Reference.

Definition evs : list decodedEvent := [e1; e2; e3].

Lemma evs_cases ev : ev ∈ evs -> ev = e1 \/ ev = e2 \/ ev = e3.
Proof. unfold evs. set_solver. Qed.

Lemma evs_increase i j x y : evs !! i = Some x -> evs !! j = Some y -> (i < j)%nat -> revisionOf x < revisionOf y.
Proof.
  intros Hi Hj Hlt. destruct i as [|[|[|i]]], j as [|[|[|j]]]; cbn in *; simplify_eq; try lia; vm_compute; done.
Qed.

Lemma evs_history : history customer evs fresh.
Proof.
  split_and!.
  - apply fresh_ok.
  - intros ev [->|[->| ->]]%evs_cases; apply event_ok.
  - intros v ev Hv Hev. assert (v = None) as -> by (vm_compute in Hv; by simplify_eq).
    apply evs_cases in Hev as [->|[->| ->]]; vm_compute; done.
  - apply evs_increase.
Qed.

(** The first event comes back after the second, the second after the third. *)
Lemma redelivery_converges_witness :
  deliverAll customer evs ((fun k => (sorted, k)) <$> [0; 1; 0; 2; 1; 2]%nat) fresh !! "items" =
    Some (MArr [MDoc (item "i2" "ink")]).
Proof.
  rewrite (redelivery_converges customer sorted evs fresh ((fun k => (sorted, k)) <$> [0; 1; 0; 2; 1; 2]%nat) 3).
  - vm_compute. done.
  - apply customer_ok.
  - apply sorted_ok.
  - apply evs_history.
  - repeat constructor; apply sorted_ok.
  - reflexivity.
  - cbn. lia.
  - right. left. exists "Item", items. split; reflexivity.
Defined.

Definition writes : list BaseWrite := [mkBaseWrite false sorted e3; mkBaseWrite true sorted e1; mkBaseWrite false sorted e2].

(** The newest name arrives first, by a fan-out. *)
Lemma base_last_writer_wins_witness :
  foldl (fun d w => writeBase customer w d) fresh writes !! "name" = Some (MStr "Anna").
Proof.
  destruct (base_last_writer_wins customer "name" (MStr "Anna") (mkBaseWrite false sorted e3) writes fresh None) as [Hn _].
  - apply customer_ok.
  - apply list_elem_of_singleton. reflexivity.
  - reflexivity.
  - exact I.
  - unfold writes. set_solver.
  - intros w' Hw'.
    assert (w' = mkBaseWrite false sorted e3 \/ w' = mkBaseWrite true sorted e1 \/ w' = mkBaseWrite false sorted e2)
      as [->|[->| ->]] by (unfold writes in Hw'; set_solver);
      eexists; (split; [split_and!; [apply sorted_ok|apply event_ok|reflexivity|discriminate|reflexivity]|]); vm_compute; done.
  - exact Hn.
Defined.

Lemma fan_out_touches_only_the_base_witness :
  foldl mg_set fresh (buildFanOutStages sorted customer e3) !! "note" = None.
Proof.
  rewrite (fan_out_touches_only_the_base customer sorted e3 fresh "note").
  - reflexivity.
  - apply customer_ok.
  - apply sorted_ok.
  - apply event_ok.
  - by intros E%list_elem_of_singleton.
  - discriminate.
  - intros t c Hc. cbn in Hc. apply lookup_singleton_Some in Hc as [_ <-]. discriminate.
Defined.

Lemma child_array_refines_its_rows_witness :
  rowAt "id" "i2" (elemsOf (deliver customer sorted e2 (deliver customer sorted e1 fresh) !! "items")) = Some (item "i2" "ink").
Proof.
  rewrite (child_array_refines_its_rows customer sorted e2 (deliver customer sorted e1 fresh) (Some 1) "Item" items "i2").
  - vm_compute. done.
  - apply customer_ok.
  - apply sorted_ok.
  - apply event_ok.
  - apply deliver_DocOk; [apply customer_ok|apply sorted_ok|apply event_ok|apply fresh_ok].
  - vm_compute. done.
  - reflexivity.
  - reflexivity.
Defined.

(** A composition at revision 2 fills the note a document at revision 2 lacks. *)
Lemma consult_scalars_follow_the_guard_witness :
  foldl mg_set (<["_revision" := MInt 2]> fresh)
    (consultGuardedStages (fun _ => 0) (mkView "customers" customer false false [] [] [])
       {["_revision" := MInt 2; "note" := MStr "x"]}) !! "note" = Some (MStr "x").
Proof.
  rewrite (consult_scalars_follow_the_guard (fun _ => 0) (mkView "customers" customer false false [] [] [])
    {["_revision" := MInt 2; "note" := MStr "x"]} (<["_revision" := MInt 2]> fresh) "note" (MStr "x") 2 (Some 2)).
  - reflexivity.
  - vm_compute. reflexivity.
  - vm_compute. reflexivity.
  - apply not_elem_of_nil.
  - reflexivity.
  - reflexivity.
  - reflexivity.
  - reflexivity.
Defined.

(** ** An element of the base can go back *)

(** Two roles on one phone: archived at the base revision 5, changed and active again
    at 6. *)
Definition phoneArchived : decodedEvent :=
  mkDecoded (ids 1 5) ∅ ∅ {["Phone" := [mkChildOp "archive" {["id" := MStr "p1"; "archived_at" := MDate 7000]}]]}.

Definition phoneChanged : decodedEvent :=
  mkDecoded (ids 1 6) ∅ ∅
    {["Phone" := [mkChildOp "update" {["id" := MStr "p1"; "number" := MStr "222"; "archived_at" := MNull]}]]}.

Definition withPhone : Document :=
  {["_id" := MStr "c1"; "id" := MStr "c1"; "phones" := MArr [MDoc {["id" := MStr "p1"; "number" := MStr "111"; "_rev" := MInt 4]}]]}.

Definition fanOuts (evs : list decodedEvent) : list Document :=
  elemsOf (foldl (fun d ev => foldl mg_set d (buildFanOutStages sorted customer ev)) withPhone evs !! "phones").

(** The watermark of a base child's element does not guard an archive: fanned out
    in the order of the revisions the phone ends active at revision 6, in the other
    order it ends archived at revision 5, although the older operation should not
    apply over the newer element. *)
Theorem base_child_archive_goes_back :
  fanOuts [phoneArchived; phoneChanged] =
    [{["id" := MStr "p1"; "number" := MStr "222"; "archived_at" := MNull; "_rev" := MInt 6]}] /\
  fanOuts [phoneChanged; phoneArchived] =
    [{["id" := MStr "p1"; "number" := MStr "222"; "archived_at" := MDate 7000; "_rev" := MInt 5]}].
Proof. split; vm_compute; reflexivity. Qed.

End Witnesses.
