(* ===== verification/Sync.v ===== *)
(** * The sync engine

    [infra/db/query/sync.go] and [infra/db/query/projection_state.go]: from one
    event to its writes on the document store.

    The engine's code is a program [SyncM]: a finite tree of the calls it makes to
    the store, the composer, the resolver and the ledger, with a continuation for
    every answer.  A run answers the calls one by one; several workers are several
    programs whose calls interleave.  Spans, log lines and metrics are left out.
    The fan-out to views that embed a view is a call of its own ([CSignal...]). *)

From S2P Require Import Prelude GoStrings Errors Mongo Projection Consult.
From stdpp Require Import base gmap strings list fin_maps.
From Stdlib Require Import Ascii ZArith Lia.

Open Scope string_scope.
Open Scope list_scope.
Open Scope Z_scope.

(** ** Events and calls *)

(** A message of the outbox topics; [ke_Payload] is what the decoder gives of its
    value, [None] for bytes that are not a JSON object. *)
Record kafkaEvent := mkEvent {
  ke_AggregateType : string;
  ke_EventType : string;
  ke_AggregateID : string;
  ke_Payload : option (gmap string JVal)
}.

(** Outcomes a message is reported with. *)
Inductive Completion := CompletionDone | CompletionFailed.

#[export] Instance Completion_eq_dec : EqDecision Completion.
Proof. solve_decision. Defined.

Inductive Call : Type -> Type :=
| CActive (view : string) : Call string
| CShadowActive (view : string) : Call (option string)
| CRefresh : Call (option GoErr)
| CApply (coll id : string) (stages : list MStage) (upsert : bool) : Call (option GoErr)
| CDeleteGuarded (coll id : string) (rev createdAtMs : Z) : Call (option GoErr)
| CDelete (coll id : string) : Call (option GoErr)
| CFindMany (coll field : string) (value : MVal) : Call (GoErr + list Document)
| CFindIDs (coll field : string) (value : MVal) : Call (GoErr + list string)
| CCompose (view id : string) : Call (GoErr + option Document)
| CComposeBatch (view : string) (ids : list string) : Call (GoErr + list Document)
| CNow : Call Z
| CSignalBefore (view id : string) : Call (option Document)
| CSignalWritten (view id : string) (before : option Document) : Call unit
| CSignalDeleted (view id : string) (before : option Document) (rev : Z) : Call unit
| CRepairDangling (view id : string) (written : Document) : Call unit
| CShadowPause : Call bool
| CStreakSucceeded (view : string) : Call unit
| CStreakFailed (view : string) : Call Z
| CAbortRebuild (view : string) : Call (option GoErr)
| CPark (event : kafkaEvent) (cause : option GoErr) : Call (option GoErr)
| CSleepBackoff (attempt : nat) : Call bool
| CCtxEnded : Call bool
| CComplete (how : Completion) : Call unit.

Inductive SyncM (A : Type) : Type :=
| SRet (a : A)
| SCall {R : Type} (c : Call R) (k : R -> SyncM A).

Arguments SRet {A} a.
Arguments SCall {A R} c k.

Fixpoint sbind {A B} (p : SyncM A) (f : A -> SyncM B) : SyncM B :=
  match p with
  | SRet a => f a
  | SCall c k => SCall c (fun r => sbind (k r) f)
  end.

Definition call {R} (c : Call R) : SyncM R := SCall c SRet.

Declare Scope sync_scope.
Delimit Scope sync_scope with sync.
Notation "x <- p ;; q" := (sbind p (fun x => q)) (at level 90, p at next level, right associativity) : sync_scope.
Notation "p ;;; q" := (sbind p (fun _ => q)) (at level 90, right associativity) : sync_scope.
Open Scope sync_scope.

(** [if err := p; err != nil { return err }; q]. *)
Definition orErr (p q : SyncM (option GoErr)) : SyncM (option GoErr) :=
  err <- p;; match err with Some e => SRet (Some e) | None => q end.

(** [errors.Join]. *)
Definition joinErrs (errs : list GoErr) : option GoErr :=
  match errs with [] => None | _ => Some (EJoin errs) end.

(** [fmt.Errorf("what: %w", err)] of a result that may be nil. *)
Definition wrapped (what : string) (err : option GoErr) : list GoErr :=
  match err with Some e => [EWrap what e] | None => [] end.

(** A loop that returns at the first error. *)
Fixpoint eachOrErr {A} (l : list A) (f : A -> SyncM (option GoErr)) : SyncM (option GoErr) :=
  match l with
  | [] => SRet None
  | a :: rest => orErr (f a) (eachOrErr rest f)
  end.

(** A loop that collects its errors. *)
Fixpoint eachCollect {A} (l : list A) (f : A -> SyncM (list GoErr)) : SyncM (list GoErr) :=
  match l with
  | [] => SRet []
  | a :: rest => errs <- f a;; more <- eachCollect rest f;; SRet (errs ++ more)
  end.

(** ** The view index *)

(** [viewIndex], as far as events are routed by it. *)
Record viewIndex := mkIndex {
  ix_byPGTable : gmap string (list ViewDefinition);
  ix_bySharedBase : gmap string (list ViewDefinition);
  ix_byRoleTable : gmap string (list ViewDefinition);
  ix_baseOfRole : gmap string string
}.

Definition emptyIndex : viewIndex := mkIndex ∅ ∅ ∅ ∅.

Definition appendView (m : gmap string (list ViewDefinition)) (k : string) (v : ViewDefinition) :
  gmap string (list ViewDefinition) := <[k := default [] (m !! k) ++ [v]]> m.

Definition indexRole (v : ViewDefinition) (idx : viewIndex) (r : string * ViewSchema) : viewIndex :=
  mkIndex (ix_byPGTable idx) (ix_bySharedBase idx) (appendView (ix_byRoleTable idx) (vs_table r.2) v)
    (match vs_base r.2 with
     | Some l => <[vs_table r.2 := bl_table l]> (ix_baseOfRole idx)
     | None => ix_baseOfRole idx
     end).

(** One view of [buildViewIndex], its embeds aside. *)
Definition indexView (idx : viewIndex) (v : ViewDefinition) : viewIndex :=
  let table := vs_table (vd_schema v) in
  let idx := mkIndex (appendView (ix_byPGTable idx) table v) (ix_bySharedBase idx) (ix_byRoleTable idx) (ix_baseOfRole idx) in
  let idx :=
    match vs_base (vd_schema v) with
    | Some l =>
        mkIndex (ix_byPGTable idx) (appendView (ix_bySharedBase idx) (bl_table l) v) (ix_byRoleTable idx)
          (<[table := bl_table l]> (ix_baseOfRole idx))
    | None => idx
    end in
  foldl (indexRole v) idx (vd_roles v).

Definition buildViewIndex (views : list ViewDefinition) : viewIndex := foldl indexView emptyIndex views.

(** ** Routing helpers *)

Definition shouldDeleteFromView (eventType : string) (deleteOnArchive : bool) : bool :=
  if String.eqb eventType "DELETED" then true
  else if String.eqb eventType "ARCHIVED" then deleteOnArchive
  else false.

Definition topicFromTable (table : string) : string := table +:+ ".events".

(** FNV-1a over 32 bits. *)
Fixpoint fnv32a (s : string) (h : Z) : Z :=
  match s with
  | EmptyString => h
  | String c rest => fnv32a rest ((Z.lxor h (Z.of_nat (nat_of_ascii c)) * 16777619) mod 2 ^ 32)
  end.

Definition bucketOf (aggregateID : string) (workers : Z) : Z :=
  if Z.leb workers 1 then 0 else fnv32a aggregateID 2166136261 mod (workers mod 2 ^ 32).

(** [decodeRawPayload] after the JSON parse: a framework event has an [_ids]
    object. *)
Definition decodeRawPayload (payload : option (gmap string JVal)) : option (gmap string JVal) :=
  match payload with
  | Some raw => match raw !! "_ids" with Some (JObj _) => Some raw | _ => None end
  | None => None
  end.

(** [json.Unmarshal] of a struct field: absent and null keep the zero value, a value
    of another type is an error.  Keys are the exact names the write side emits. *)
Definition strictStr (v : option JVal) : option string :=
  match v with None | Some JNull => Some "" | Some (JStr s) => Some s | _ => None end.

Definition strictInt (v : option JVal) : option Z :=
  match v with None | Some JNull => Some 0 | Some (JNum t) => atoi t | _ => None end.

Definition strictBool (v : option JVal) : option bool :=
  match v with None | Some JNull => Some false | Some (JBool b) => Some b | _ => None end.

Definition parsePayloadIDs (payload : option (gmap string JVal)) : option payloadIDs :=
  match payload ≫= (fun raw => raw !! "_ids") with
  | Some (JObj m) =>
      id ← strictStr (m !! "id");
      revision ← strictInt (m !! "revision");
      baseID ← strictStr (m !! "base_id");
      baseRevision ← strictInt (m !! "base_revision");
      basePurged ← strictBool (m !! "base_purged");
      createdAt ← strictStr (m !! "created_at");
      Some (mkPayloadIDs id revision baseID baseRevision basePurged createdAt)
  | _ => None
  end.

Definition resolveBaseID (event : kafkaEvent) : string :=
  match parsePayloadIDs (ke_Payload event) with Some ids => pi_BaseID ids | None => "" end.

(** ** Constants of the retry policy *)

Definition processRetries : nat := 5.
Definition shadowWriteRetries : nat := 3.
Definition shadowAbortThreshold : Z := 20.
Definition ProjectionStateCollectionName : string := "omnicore_projection_state".
Definition baseRevisionID (baseTable baseID : string) : string := "base:" +:+ baseTable +:+ ":" +:+ baseID.
Definition tombstoneID (view id : string) : string := "doc:" +:+ view +:+ ":" +:+ id.

(** ** The shadow-failure tracker *)

Definition streakFailed (streaks : gmap string Z) (view : string) : gmap string Z * Z :=
  let n := default 0 (streaks !! view) + 1 in (<[view := n]> streaks, n).

Definition streakSucceeded (streaks : gmap string Z) (view : string) : gmap string Z := delete view streaks.

(** ** The engine *)

Section Engine.
Context (std : GoStd) (floatToInt : string -> Z) (order : GroupOrder) (index : viewIndex).

Abbreviation wmOf := (watermarkOf floatToInt).

(** *** The projection-state registry *)

Definition stampBaseRevision (baseTable baseID : string) (revision : Z) : SyncM (option GoErr) :=
  if Z.leb revision 0 then SRet None
  else call (CApply ProjectionStateCollectionName (baseRevisionID baseTable baseID)
               [guardedSetStage "base_revision" ∅ revision] true).

Definition stampedBaseRevision (baseTable baseID : string) : SyncM (GoErr + Z) :=
  docs <- call (CFindMany ProjectionStateCollectionName "_id" (MStr (baseRevisionID baseTable baseID)));;
  SRet (match docs with
        | inl e => inl e
        | inr [] => inr 0
        | inr (d :: _) => inr (wmOf (d !! "base_revision"))
        end).

Definition dropBaseRevision (baseTable baseID : string) : SyncM (option GoErr) :=
  call (CDelete ProjectionStateCollectionName (baseRevisionID baseTable baseID)).

(** The fields of a tombstone beside its revision. *)
Definition tombstoneFields (now createdAtMs : Z) : MStage :=
  let fields := {["at" := lit (MDate now)]} in
  if Z.ltb 0 createdAtMs then <["created_at" := lit (MInt createdAtMs)]> fields else fields.

Definition stampTombstone (view id : string) (rev createdAtMs : Z) : SyncM (option GoErr) :=
  if Z.leb rev 0 then SRet None
  else
    now <- call CNow;;
    call (CApply ProjectionStateCollectionName (tombstoneID view id)
            [guardedSetStage "revision" (tombstoneFields now createdAtMs) rev] true).

Definition tombstoneRevision (view id : string) : SyncM (GoErr + Z * Z) :=
  docs <- call (CFindMany ProjectionStateCollectionName "_id" (MStr (tombstoneID view id)));;
  SRet (match docs with
        | inl e => inl e
        | inr [] => inr (0, 0)
        | inr (d :: _) => inr (wmOf (d !! "revision"), wmOf (d !! "created_at"))
        end).

(** *** Shadow writes *)

(** The attempts of [dualApplyShadow]: [None] once one succeeds, else its last
    error, and whether the context ended between attempts. *)
Fixpoint shadowAttempts (n : nat) (write : SyncM (option GoErr)) : SyncM (option (GoErr * bool)) :=
  match n with
  | O => SRet None
  | S n' =>
      err <- write;;
      match err with
      | None => SRet None
      | Some e =>
          match n' with
          | O => SRet (Some (e, false))
          | _ => ticked <- call CShadowPause;; if ticked : bool then shadowAttempts n' write else SRet (Some (e, true))
          end
      end
  end.

Definition dualApply (viewName : string) (write : SyncM (option GoErr)) : SyncM (option GoErr) :=
  r <- shadowAttempts shadowWriteRetries write;;
  match r with
  | None => call (CStreakSucceeded viewName);;; SRet None
  | Some (e, true) => SRet (Some e)
  | Some (e, false) =>
      streak <- call (CStreakFailed viewName);;
      if Z.ltb streak shadowAbortThreshold then SRet (Some e)
      else
        call (CStreakSucceeded viewName);;;
        aerr <- call (CAbortRebuild viewName);;
        match aerr with
        | Some _ => SRet (Some e)
        | None => call CRefresh;;; SRet (Some e)
        end
  end.

(** A write on the active slot, then on the shadow slot of a rebuild. *)
Definition onSlots (viewName : string) (write : string -> Call (option GoErr)) (k : SyncM (option GoErr)) : SyncM (option GoErr) :=
  active <- call (CActive viewName);;
  orErr (call (write active))
    (shadow <- call (CShadowActive viewName);;
     match shadow with
     | Some sh => orErr (dualApply viewName (call (write sh))) k
     | None => k
     end).

(** *** Writes *)

Definition checkTombstone (viewName id : string) (myRev : Z) : SyncM (option GoErr) :=
  r <- tombstoneRevision viewName id;;
  match r with
  | inl e => SRet (Some (EWrap "tombstone check" e))
  | inr (rev, born) =>
      if Z.eqb rev 0 || Z.ltb rev myRev then SRet None
      else
        before <- call (CSignalBefore viewName id);;
        onSlots viewName (fun coll => CDeleteGuarded coll id rev born)
          (call (CSignalDeleted viewName id before rev);;; SRet None)
  end.

Definition applyProjection (viewName id : string) (stages : list MStage) (upsert : bool) : SyncM (option GoErr) :=
  before <- call (CSignalBefore viewName id);;
  onSlots viewName (fun coll => CApply coll id stages upsert)
    (call (CSignalWritten viewName id before);;; SRet None).

Definition applyDelete (viewName id : string) (rev createdAtMs : Z) : SyncM (option GoErr) :=
  before <- call (CSignalBefore viewName id);;
  if Z.ltb 0 rev then
    orErr (stampTombstone viewName id rev createdAtMs)
      (onSlots viewName (fun coll => CDeleteGuarded coll id rev createdAtMs)
        (call (CSignalDeleted viewName id before rev);;; SRet None))
  else
    onSlots viewName (fun coll => CDelete coll id)
      (call (CSignalDeleted viewName id before 0);;; SRet None).

Definition applyConsultUpsert (view : ViewDefinition) (id : string) (doc : Document) : SyncM (option GoErr) :=
  let stages := consultGuardedStages floatToInt view doc in
  match stages with
  | [] => SRet None
  | _ =>
      orErr (applyProjection (vd_name view) id stages true)
        ((match vd_embeds view with
          | [] => SRet tt
          | _ => call (CRepairDangling (vd_name view) id doc)
          end);;;
         if vd_isSharedBaseView view then SRet None
         else checkTombstone (vd_name view) id (wmOf (doc !! docRevisionField)))
  end.

(** *** One event *)

(** Whether a view takes the payload as it is. *)
Definition payloadDirect (view : ViewDefinition) : bool :=
  negb (vd_isSharedBaseView view) && bool_decide (vd_embeds view = []) && bool_decide (vd_childEmbeds view = []).

(** The composer's document of one view, written. *)
Definition consultView (id : string) (view : ViewDefinition) : SyncM (list GoErr) :=
  r <- call (CCompose (vd_name view) id);;
  match r with
  | inl e => SRet [EWrap "compose" e]
  | inr None => SRet []
  | inr (Some doc) => err <- applyConsultUpsert view id doc;; SRet (wrapped "consult upsert" err)
  end.

Definition projectOwnView (event : kafkaEvent) (raw : gmap string JVal) (ids : payloadIDs) (view : ViewDefinition) :
  SyncM (list GoErr) :=
  let id := ke_AggregateID event in
  if shouldDeleteFromView (ke_EventType event) (vd_deleteOnArchive view) then
    err <- applyDelete (vd_name view) id (pi_Revision ids) (createdAtMillis std ids);;
    SRet (wrapped "delete" err)
  else if payloadDirect view then
    match buildProjectionStages order (vd_schema view) (coercePayloadEvent std (vd_schema view) raw) with
    | [] => SRet []
    | stages =>
        err <- applyProjection (vd_name view) id stages true;;
        match err with
        | Some e => SRet [EWrap "project" e]
        | None => err <- checkTombstone (vd_name view) id (pi_Revision ids);; SRet (wrapped "tombstone check" err)
        end
    end
  else consultView id view.

Definition projectOwnViews (event : kafkaEvent) (raw : gmap string JVal) (ids : payloadIDs) (views : list ViewDefinition) :
  SyncM (option GoErr) :=
  errs <- eachCollect views (projectOwnView event raw ids);; SRet (joinErrs errs).

Definition pullSideRepair (event : kafkaEvent) (ids : payloadIDs) (roleBaseTable : string) (views : list ViewDefinition) :
  SyncM (option GoErr) :=
  r <- stampedBaseRevision roleBaseTable (pi_BaseID ids);;
  match r with
  | inl e => SRet (Some e)
  | inr stamped =>
      if Z.leb stamped (pi_BaseRevision ids) then SRet None
      else errs <- eachCollect views (consultView (ke_AggregateID event));; SRet (joinErrs errs)
  end.

(** [fmt.Sprintf("%v", doc[pkCol])] of a key column. *)
Definition keyText (v : option MVal) : string := match v with Some (MStr t) => t | _ => "<nil>" end.

Definition fanOutSharedBase (baseID : string) (baseViews : list ViewDefinition) : SyncM (option GoErr) :=
  eachOrErr baseViews (fun view =>
    match vs_base (vd_schema view) with
    | None => SRet None
    | Some link =>
        active <- call (CActive (vd_name view));;
        found <- call (CFindIDs active (bl_parentIDColumn link) (MStr baseID));;
        match found with
        | inl e => SRet (Some e)
        | inr [] => SRet None
        | inr roleIDs =>
            r <- call (CComposeBatch (vd_name view) roleIDs);;
            match r with
            | inl e => SRet (Some e)
            | inr composed =>
                let idOf doc := keyText (doc !! vs_idColumn (vd_schema view)) in
                orErr (eachOrErr composed (fun doc => applyConsultUpsert view (idOf doc) doc))
                  (eachOrErr roleIDs (fun roleID =>
                     if bool_decide (roleID ∈ idOf <$> composed) then SRet None
                     else applyDelete (vd_name view) roleID 0 0))
            end
        end
    end).

Definition fanOutSharedBasePayload (raw : gmap string JVal) (baseID : string) (baseViews : list ViewDefinition) :
  SyncM (option GoErr) :=
  eachOrErr baseViews (fun view =>
    match vs_base (vd_schema view) with
    | None => SRet None
    | Some link =>
        match buildFanOutStages order (vd_schema view) (coercePayloadEvent std (vd_schema view) raw) with
        | [] => SRet None
        | stages =>
            active <- call (CActive (vd_name view));;
            found <- call (CFindIDs active (bl_parentIDColumn link) (MStr baseID));;
            match found with
            | inl e => SRet (Some e)
            | inr roleIDs => eachOrErr roleIDs (fun rid => applyProjection (vd_name view) rid stages false)
            end
        end
    end).

Definition recomposeBaseRooted (event : kafkaEvent) (routes : list ViewDefinition) : SyncM (option GoErr) :=
  let baseID := resolveBaseID event in
  if String.eqb baseID "" then SRet None
  else
    eachOrErr routes (fun view =>
      r <- call (CCompose (vd_name view) baseID);;
      match r with
      | inl e => SRet (Some e)
      | inr None => applyDelete (vd_name view) baseID 0 0
      | inr (Some doc) => applyConsultUpsert view baseID doc
      end).

Definition process (event : kafkaEvent) : SyncM (option GoErr) :=
  match decodeRawPayload (ke_Payload event) with
  | None => call (CPark event (Some (ELeaf "undecodable payload")));;; SRet None
  | Some raw =>
      let ids := rawPayloadIDs raw in
      let table := ke_AggregateType event in
      let views := default [] (ix_byPGTable index !! table) in
      own <- projectOwnViews event raw ids views;;
      base <- (match ix_bySharedBase index !! table with
               | Some baseViews =>
                   err <- fanOutSharedBase (ke_AggregateID event) baseViews;;
                   drop <- (if String.eqb (ke_EventType event) "DELETED" && pi_BasePurged ids
                            then dropBaseRevision table (ke_AggregateID event) else SRet None);;
                   SRet (wrapped "shared-base fan-out" err ++ wrapped "drop base revision" drop)
               | None => SRet []
               end);;
      role <- (match ix_baseOfRole index !! table with
               | Some roleBaseTable =>
                   if String.eqb (pi_BaseID ids) "" then SRet []
                   else
                     stamp <- stampBaseRevision roleBaseTable (pi_BaseID ids) (pi_BaseRevision ids);;
                     match stamp, ix_bySharedBase index !! roleBaseTable with
                     | Some e, _ => SRet [EWrap "stamp base revision (shared-base fan-out blocked)" e]
                     | None, Some baseViews =>
                         err <- fanOutSharedBasePayload raw (pi_BaseID ids) baseViews;;
                         SRet (wrapped "shared-base payload fan-out" err)
                     | None, None => SRet []
                     end
               | None => SRet []
               end);;
      rooted <- (match ix_byRoleTable index !! table with
                 | Some routes => err <- recomposeBaseRooted event routes;; SRet (wrapped "base-rooted recompose" err)
                 | None => SRet []
                 end);;
      pull <- (match ix_baseOfRole index !! table with
               | Some roleBaseTable =>
                   if negb (String.eqb (pi_BaseID ids) "") && Z.ltb 0 (pi_BaseRevision ids) &&
                      (String.eqb (ke_EventType event) "INSERTED" || String.eqb (ke_EventType event) "UNARCHIVED")
                   then err <- pullSideRepair event ids roleBaseTable views;; SRet (wrapped "base-revision pull repair" err)
                   else SRet []
               | None => SRet []
               end);;
      SRet (joinErrs (wrapped "own views" own ++ base ++ role ++ rooted ++ pull))
  end.

(** *** To an outcome *)

(** The loop of [processToOutcome] from the attempt [attempt] on; [n] attempts are
    left.  [None] when an attempt succeeded or the backoff was cut short (the
    completion is then reported), else the last error. *)
Fixpoint attempts (event : kafkaEvent) (n attempt : nat) (lastErr : option GoErr) : SyncM (option (option GoErr)) :=
  match n with
  | O => SRet (Some lastErr)
  | S n' =>
      let try_ :=
        err <- process event;;
        match err with
        | Some e => attempts event n' (S attempt) (Some e)
        | None => call (CComplete CompletionDone);;; SRet None
        end in
      match attempt with
      | O => try_
      | _ =>
          slept <- call (CSleepBackoff attempt);;
          if slept : bool then
            stale <- call CRefresh;;
            match stale with
            | Some e => attempts event n' (S attempt) (Some e)
            | None => try_
            end
          else call (CComplete CompletionFailed);;; SRet None
      end
  end.

Definition processToOutcome (event : kafkaEvent) : SyncM unit :=
  r <- attempts event processRetries 0 None;;
  match r with
  | None => SRet tt
  | Some lastErr =>
      ended <- call CCtxEnded;;
      if ended : bool then call (CComplete CompletionFailed)
      else call (CPark event lastErr);;; call (CComplete CompletionDone)
  end.

End Engine.
