(* ===== verification/SyncProps.v ===== *)
(** * Workers interleaving on the store

    A world of collections, what a call may answer in it (with lost requests and
    lost replies), pools of programs whose calls interleave, and the invariant of the
    delete handshake. *)

From S2P Require Import Prelude Errors Mongo Projection ProjectionProps ProjectionOwn Consult Sync.
From stdpp Require Import base gmap strings list fin_maps relations.
From Stdlib Require Import ZArith Lia.

Open Scope string_scope.
Open Scope list_scope.
Open Scope Z_scope.
Open Scope sync_scope.

(** ** Worlds and answers *)

(** The physical collections of the store. *)
Abbreviation World := (gmap string Collection).

Definition collOf (w : World) (name : string) : Collection := default ∅ (w !! name).
Definition docAt (w : World) (name id : string) : option Document := collOf w name !! id.

Section Worlds.
Context `{Mongo} (slot : string -> string).

(** What a store call does when it reaches the store. *)
Definition effect {R} (c : Call R) (w : World) : World :=
  match c with
  | CApply coll id stages upsert => <[coll := ApplyProjection (collOf w coll) id stages upsert]> w
  | CDeleteGuarded coll id rev born => <[coll := DeleteGuarded (collOf w coll) id rev born]> w
  | CDelete coll id => <[coll := Mongo.Delete (collOf w coll) id]> w
  | _ => w
  end.

(** The active slot is fixed; the shadow slot is another collection, and neither is
    the registry. *)
Definition shadowOk (view : string) (r : option string) : Prop :=
  match r with
  | Some sh => sh <> slot view /\ sh <> ProjectionStateCollectionName
  | None => True
  end.

(** The answers the environment may give: a store call may fail before or after its
    effect; the other calls answer anything. *)
Definition allowed {R} (c : Call R) : World -> R -> World -> Prop :=
  match c in Call R return World -> R -> World -> Prop with
  | CActive view => fun w r w' => r = slot view /\ w' = w
  | CShadowActive view => fun w r w' => shadowOk view r /\ w' = w
  | CApply coll id stages upsert => fun w r w' =>
      (r = None /\ w' = effect (CApply coll id stages upsert) w) \/
      (is_Some r /\ (w' = w \/ w' = effect (CApply coll id stages upsert) w))
  | CDeleteGuarded coll id rev born => fun w r w' =>
      (r = None /\ w' = effect (CDeleteGuarded coll id rev born) w) \/
      (is_Some r /\ (w' = w \/ w' = effect (CDeleteGuarded coll id rev born) w))
  | CDelete coll id => fun w r w' =>
      (r = None /\ w' = effect (CDelete coll id) w) \/
      (is_Some r /\ (w' = w \/ w' = effect (CDelete coll id) w))
  | CFindMany coll field value => fun w r w' =>
      w' = w /\ (r = inr (FindManyByField (collOf w coll) field value) \/ exists e, r = inl e)
  | CFindIDs coll field value => fun w r w' =>
      w' = w /\ (r = inr (FindIDsByField (collOf w coll) field value) \/ exists e, r = inl e)
  | _ => fun w _ w' => w' = w
  end.

(** ** Pools *)

Context {A : Type}.

Inductive pstep : World * list (SyncM A) -> World * list (SyncM A) -> Prop :=
| PStep w pool i R (c : Call R) k r w' :
    pool !! i = Some (SCall c k) -> allowed c w r w' -> pstep (w, pool) (w', <[i := k r]> pool).

Definition finished (pool : list (SyncM A)) (a : A) : Prop := Forall (fun p => p = SRet a) pool.

End Worlds.

(** ** A scheduler without faults *)

Section Run.
Context `{Mongo} (slot : string -> string) (now : Z).

(** The faultless answer of each call; nothing is rebuilt, composed or embedded. *)
Definition answer {R} (c : Call R) : World -> R :=
  match c in Call R return World -> R with
  | CActive view => fun _ => slot view
  | CShadowActive _ => fun _ => None
  | CRefresh => fun _ => None
  | CApply _ _ _ _ => fun _ => None
  | CDeleteGuarded _ _ _ _ => fun _ => None
  | CDelete _ _ => fun _ => None
  | CFindMany coll field value => fun w => inr (FindManyByField (collOf w coll) field value)
  | CFindIDs coll field value => fun w => inr (FindIDsByField (collOf w coll) field value)
  | CCompose _ _ => fun _ => inr None
  | CComposeBatch _ _ => fun _ => inr []
  | CNow => fun _ => now
  | CSignalBefore _ _ => fun _ => None
  | CSignalWritten _ _ _ => fun _ => tt
  | CSignalDeleted _ _ _ _ => fun _ => tt
  | CRepairDangling _ _ _ => fun _ => tt
  | CShadowPause => fun _ => true
  | CStreakSucceeded _ => fun _ => tt
  | CStreakFailed _ => fun _ => 0
  | CAbortRebuild _ => fun _ => None
  | CPark _ _ => fun _ => None
  | CSleepBackoff _ => fun _ => true
  | CCtxEnded => fun _ => false
  | CComplete _ => fun _ => tt
  end.

Context {A : Type}.

(** One worker runs to its end. *)
Fixpoint runProg (p : SyncM A) (w : World) : World * A :=
  match p with
  | SRet a => (w, a)
  | SCall c k => runProg (k (answer c w)) (effect c w)
  end.

(** [schedule] names the worker of each step. *)
Fixpoint runPool (schedule : list nat) (w : World) (pool : list (SyncM A)) : World * list (SyncM A) :=
  match schedule with
  | [] => (w, pool)
  | i :: rest =>
      match pool !! i with
      | Some (SCall c k) => runPool rest (effect c w) (<[i := k (answer c w)]> pool)
      | _ => runPool rest w pool
      end
  end.

Lemma answer_allowed {R} (c : Call R) w : allowed slot c w (answer c w) (effect c w).
Proof. destruct c; cbn; eauto. Qed.

Lemma runPool_steps schedule : forall w pool, rtc (pstep slot) (w, pool) (runPool schedule w pool).
Proof.
  induction schedule as [|i schedule IH]; intros w pool; [apply rtc_refl|]. cbn.
  destruct (pool !! i) as [[a|R c k]|] eqn:Hi; [apply IH| |apply IH].
  eapply rtc_l; [|apply IH]. econstructor; [done|]. apply answer_allowed.
Qed.

End Run.

(** ** Programs up to a call *)

(** A hit is a call with its continuation that meets a condition. *)
Abbreviation Hit A := (forall R, Call R -> (R -> SyncM A) -> Prop).

Section Until.
Context (slot : string -> string) (harmless : forall R, Call R -> Prop).

(** The answers the slots allow. *)
Definition replyOk {R} (c : Call R) : R -> Prop :=
  match c in Call R return R -> Prop with
  | CActive view => fun r => r = slot view
  | CShadowActive view => fun r => shadowOk slot view r
  | _ => fun _ => True
  end.

Context {A : Type}.

(** Every call is harmless until one that hits; without a hit the result meets
    [fin]. *)
Fixpoint until (hit : Hit A) (fin : A -> Prop) (p : SyncM A) : Prop :=
  match p with
  | SRet a => fin a
  | SCall c k => hit _ c k \/ (harmless _ c /\ forall r, replyOk c r -> until hit fin (k r))
  end.

Definition noHit : Hit A := fun _ _ _ => False.

End Until.

Arguments until {_} _ {_} _ _ _.
Arguments noHit {_} _ _ _ /.

Section UntilBind.
Context {slot : string -> string} {harmless : forall R, Call R -> Prop}.

(** A harmless prefix, then the rest. *)
Lemma until_bind {A B} (p : SyncM A) (f : A -> SyncM B) (hit : Hit B) (fin : B -> Prop) (mid : A -> Prop) :
  @until slot harmless _ noHit mid p -> (forall a, mid a -> @until slot harmless _ hit fin (f a)) ->
  @until slot harmless _ hit fin (sbind p f).
Proof.
  intros Hp Hf. induction p as [a|R c k IH]; [by apply Hf|]. cbn in *. destruct Hp as [[]|[Hc Hk]].
  right. split; [done|]. intros r Hr. by apply IH, Hk.
Qed.

Lemma until_weaken {A} (p : SyncM A) (hit : Hit A) (fin fin' : A -> Prop) :
  @until slot harmless _ noHit fin p -> (forall a, fin a -> fin' a) -> @until slot harmless _ hit fin' p.
Proof.
  intros Hp Hf. induction p as [a|R c k IH]; [by apply Hf|]. cbn in *. destruct Hp as [[]|[Hc Hk]].
  right. split; [done|]. intros r Hr. by apply IH, Hk.
Qed.

Lemma until_call {R} (c : Call R) (fin : R -> Prop) :
  harmless _ c -> (forall r, replyOk slot c r -> fin r) -> @until slot harmless _ noHit fin (call c).
Proof. intros Hc Hf. cbn. right. split; [done|]. apply Hf. Qed.

Lemma until_orErr (p q : SyncM (option GoErr)) (fin : option GoErr -> Prop) :
  @until slot harmless _ noHit (fun _ => True) p -> (forall e, fin (Some e)) -> @until slot harmless _ noHit fin q ->
  @until slot harmless _ noHit fin (orErr p q).
Proof.
  intros Hp He Hq. eapply until_bind; [exact Hp|]. intros [e|] _; [apply He|exact Hq].
Qed.

End UntilBind.

Lemma allowed_replyOk `{Mongo} slot {X} (c : Call X) w r w' : allowed slot c w r w' -> replyOk slot c r.
Proof. destruct c; cbn; intros Ha; try done; by destruct Ha. Qed.

Lemma allowed_world `{Mongo} slot {X} (c : Call X) w r w' : allowed slot c w r w' -> w' = w \/ w' = effect c w.
Proof. destruct c; cbn; intros Ha; try (by left); naive_solver. Qed.

(** ** The delete handshake *)

Section Handshake.
Context `{MongoLaws} (slot : string -> string) (floatToInt : string -> Z).
Context (s : ViewSchema) (viewName id : string) (R B : Z).

Abbreviation coll := (slot viewName).
Abbreviation reg := ProjectionStateCollectionName.
Abbreviation T := (tombstoneID viewName id).

Context (Hslot : coll <> reg).

(** Neither the document is written nor the tombstone touched. *)
Definition calm (X : Type) (c : Call X) : Prop :=
  match c with
  | CApply coll' id' _ _ => ~ (coll' = coll /\ id' = id) /\ ~ (coll' = reg /\ id' = T)
  | CDelete coll' id' => ~ (coll' = reg /\ id' = T)
  | CDeleteGuarded coll' id' _ _ => ~ (coll' = reg /\ id' = T)
  | _ => True
  end.

(** The document's birth is the tombstone's, or unknown. *)
Definition sameLife (d : Document) : Prop :=
  0 < B ->
  d !! "created_at" = None \/
  exists t, d !! "created_at" = Some (MDate t) /\ truncateSecond B - 1000 <= t < truncateSecond B + 1000.

(** A document of the deleted life, at a revision the deletion covers. *)
Definition killable (d : Document) : Prop :=
  DocOk s d /\ sameLife d /\
  exists v, watermark d docRevisionField = Some v /\ match v with Some w => w <= R | None => True end.

Definition tombDoc (d : Document) : Prop :=
  d !! "revision" = Some (MInt R) /\ watermarkOf floatToInt (d !! "created_at") = B.

(** *** What the store calls do *)

Lemma docAt_insert w name c name' id' :
  docAt (<[name := c]> w) name' id' = if decide (name' = name) then c !! id' else docAt w name' id'.
Proof using.
  unfold docAt, collOf. case_decide as Hn; [subst; by rewrite lookup_insert_eq | by rewrite lookup_insert_ne].
Qed.

Lemma deleteGuarded_lookup c id1 id2 r b :
  DeleteGuarded c id1 r b !! id2 = c !! id2 \/ (id1 = id2 /\ DeleteGuarded c id1 r b !! id2 = None).
Proof using H0 Hslot.
  unfold DeleteGuarded. rewrite ml_deleteOne. destruct (c !! id1) as [d|]; [|by left].
  destruct (forallb _ _); [|by left]. destruct (decide (id1 = id2)) as [->|]; [right; by rewrite lookup_delete_eq|].
  left. by rewrite lookup_delete_ne.
Qed.

Lemma delete_lookup c id1 id2 :
  Mongo.Delete c id1 !! id2 = c !! id2 \/ (id1 = id2 /\ Mongo.Delete c id1 !! id2 = None).
Proof using H0 Hslot.
  unfold Mongo.Delete. rewrite ml_deleteOne. destruct (c !! id1) as [d|]; [|by left]. cbn.
  destruct (decide (id1 = id2)) as [->|]; [right; by rewrite lookup_delete_eq|]. left. by rewrite lookup_delete_ne.
Qed.

Lemma apply_lookup c id1 id2 stages upsert :
  id1 <> id2 -> ApplyProjection c id1 stages upsert !! id2 = c !! id2.
Proof using H0 Hslot.
  intros Hne. unfold ApplyProjection. rewrite ml_updateOne.
  destruct (c !! id1); [by rewrite lookup_insert_ne|]. destruct upsert; [by rewrite lookup_insert_ne|done].
Qed.

(** A harmless call keeps the document or removes it, and keeps the tombstone. *)
Lemma calm_effect {X} (c : Call X) w : calm X c ->
  (docAt (effect c w) coll id = docAt w coll id \/ docAt (effect c w) coll id = None) /\
  docAt (effect c w) reg T = docAt w reg T.
Proof using H0 Hslot.
  intros Hc. destruct c; cbn [effect]; try (by split; [left|]); rewrite !docAt_insert; cbn in Hc.
  - destruct Hc as [H1 H2]. split; case_decide; subst; try (by left); try done.
    + left. apply apply_lookup. intros ->. by apply H1.
    + apply apply_lookup. intros ->. by apply H2.
  - split; case_decide as Heq; try (by left); try done; subst.
    + destruct (deleteGuarded_lookup (collOf w coll) id0 id rev createdAtMs) as [E|[_ E]]; rewrite E; auto.
    + destruct (deleteGuarded_lookup (collOf w reg) id0 T rev createdAtMs) as [E|[-> E]]; [done|].
      exfalso. by apply Hc.
  - split; case_decide as Heq; try (by left); try done; subst.
    + destruct (delete_lookup (collOf w coll) id0 id) as [E|[_ E]]; rewrite E; auto.
    + destruct (delete_lookup (collOf w reg) id0 T) as [E|[-> E]]; [done|]. exfalso. by apply Hc.
Qed.

(** The guarded delete removes a document of the deleted life. *)
Lemma killable_deleted w d :
  docAt w coll id = Some d -> killable d -> docAt (effect (CDeleteGuarded coll id R B) w) coll id = None.
Proof using H0 Hslot.
  intros Hd (_ & Hlife & v & Hv & Hle). cbn [effect]. rewrite docAt_insert, decide_True by done.
  unfold DeleteGuarded. rewrite ml_deleteOne. unfold docAt in Hd. rewrite Hd.
  assert (Hm : forallb (mg_match d) (guardedFilter R B) = true).
  { unfold guardedFilter. cbn [forallb]. apply andb_true_iff. split.
    - rewrite ml_qor. cbn. rewrite (ml_lte _ _ _ v Hv), ml_exists. destruct v as [w0|]; cbn.
      + by rewrite (proj2 (Z.leb_le _ _) Hle).
      + unfold watermark in Hv. fold docRevisionField. destruct (d !! docRevisionField) as [[]|]; simplify_eq/=. done.
    - destruct (Z.ltb_spec 0 B) as [HB|]; [|done]. cbn [forallb]. rewrite andb_true_r, ml_qand. cbn [forallb].
      rewrite andb_true_r, ml_qor. cbn [existsb]. rewrite orb_false_r, ml_exists.
      destruct (Hlife HB) as [Hn|(t & Ht & Hlo & Hhi)].
      + rewrite Hn. cbn. by rewrite orb_true_r.
      + rewrite (ml_dateIn _ _ _ _ _ Ht). by rewrite (proj2 (Z.leb_le _ _) Hlo), (proj2 (Z.ltb_lt _ _) Hhi). }
  rewrite Hm. apply lookup_delete_eq.
Qed.

Lemma deleteGuarded_keeps_tomb w r b : docAt (effect (CDeleteGuarded coll id r b) w) reg T = docAt w reg T.
Proof using Hslot. cbn [effect]. rewrite docAt_insert. by rewrite decide_False by congruence. Qed.

(** The registry after a tombstone is stamped. *)
Lemma stamp_tomb w now : 0 < R -> 0 <= B ->
  (docAt w reg T = None \/ exists d, docAt w reg T = Some d /\ tombDoc d) ->
  exists d, docAt (effect (CApply reg T [guardedSetStage "revision" (tombstoneFields now B) R] true) w) reg T = Some d /\ tombDoc d.
Proof using H0 Hslot.
  intros HR HB Htomb. cbn [effect]. rewrite docAt_insert, decide_True by done.
  unfold ApplyProjection. rewrite ml_updateOne.
  set (d0 := default {["_id" := MStr T]} (docAt w reg T)).
  assert (Hpre : exists v, watermark d0 "revision" = Some v /\ advanced v R = R /\ admits v R = true /\
                 (B = 0 -> watermarkOf floatToInt (d0 !! "created_at") = B)).
  { unfold d0. destruct Htomb as [->|(d & -> & Hrev & Hborn)]; cbn.
    - exists None. split_and!; [done|done|by apply Z.ltb_lt; lia|]. intros ->. done.
    - exists (Some R). unfold watermark. rewrite Hrev. split_and!; [done|apply Z.max_id|apply Z.leb_refl|]. by intros _. }
  destruct Hpre as (v & Hv & Hadv & Hadm & HB0).
  exists (mg_set d0 (guardedSetStage "revision" (tombstoneFields now B) R)). split.
  - unfold d0, docAt. destruct (collOf w reg !! T); cbn; by rewrite lookup_insert_eq.
  - split; rewrite (guardedSet_lookup _ _ _ _ _ v Hv); cbn; [by rewrite Hadv|].
    unfold tombstoneFields. destruct (Z.ltb_spec 0 B).
    + rewrite lookup_insert_eq, Hadm. unfold lit. by rewrite ml_lit.
    + rewrite lookup_singleton_ne by done. apply HB0. lia.
Qed.

Lemma stamp_keeps_doc w stages upsert : docAt (effect (CApply reg T stages upsert) w) coll id = docAt w coll id.
Proof using Hslot. cbn [effect]. rewrite docAt_insert. by rewrite decide_False. Qed.

(** *** Phases *)

Abbreviation Prog := (SyncM (list GoErr)).
Abbreviation untilC := (@until slot calm (list GoErr)).

Definition quiet (p : Prog) : Prop := untilC noHit (fun _ => True) p.
Definition failing (p : Prog) : Prop := untilC noHit (fun errs => errs <> []) p.

(** The guarded delete is next. *)
Definition doomHit : Hit (list GoErr) := fun X c =>
  match c in Call X return (X -> Prog) -> Prop with
  | CDeleteGuarded coll' id' rev born => fun k =>
      coll' = coll /\ id' = id /\ rev = R /\ born = B /\ quiet (k None) /\ forall e, failing (k (Some e))
  | _ => fun _ => False
  end.

Definition doomed (p : Prog) : Prop := untilC doomHit (fun errs => errs <> []) p.

(** The tombstone is read next, and obeyed. *)
Definition checkHit : Hit (list GoErr) := fun X c =>
  match c in Call X return (X -> Prog) -> Prop with
  | CFindMany coll' f v => fun k =>
      coll' = reg /\ f = "_id" /\ v = MStr T /\ (forall d, tombDoc d -> doomed (k (inr [d]))) /\
      quiet (k (inr [])) /\ forall e, failing (k (inl e))
  | _ => fun _ => False
  end.

Definition checking (p : Prog) : Prop := untilC checkHit (fun errs => errs <> []) p.

(** Stages that keep a document within the deleted life. *)
Definition staleStages (stages : list MStage) : Prop :=
  (forall d, killable d -> killable (foldl mg_set d stages)) /\ killable (foldl mg_set {["_id" := MStr id]} stages).

(** The document is written next, then the tombstone is checked. *)
Definition createHit : Hit (list GoErr) := fun X c =>
  match c in Call X return (X -> Prog) -> Prop with
  | CApply coll' id' stages upsert => fun k =>
      coll' = coll /\ id' = id /\ upsert = true /\ staleStages stages /\ forall r, checking (k r)
  | _ => fun _ => False
  end.

Definition creating (p : Prog) : Prop := untilC createHit (fun _ => True) p.

(** The tombstone is stamped next, then the document deleted. *)
Definition stampHit : Hit (list GoErr) := fun X c =>
  match c in Call X return (X -> Prog) -> Prop with
  | CApply coll' id' stages upsert => fun k =>
      coll' = reg /\ id' = T /\ upsert = true /\ (exists now, stages = [guardedSetStage "revision" (tombstoneFields now B) R]) /\
      doomed (k None) /\ forall e, failing (k (Some e))
  | _ => fun _ => False
  end.

Definition deleting (p : Prog) : Prop := untilC stampHit (fun errs => errs <> []) p.

Inductive Phase := PCreating | PChecking | PDoomed | PDeleting | PFailing | PQuiet.

Definition inPhase (ph : Phase) : Prog -> Prop :=
  match ph with
  | PCreating => creating
  | PChecking => checking
  | PDoomed => doomed
  | PDeleting => deleting
  | PFailing => failing
  | PQuiet => quiet
  end.

(** A worker that will still remove the document, or fail. *)
Definition alert (ph : Phase) : Prop := match ph with PCreating | PQuiet => False | _ => True end.

Record HandshakeInv (w : World) (pool : list Prog) (phs : list Phase) : Prop := {
  hi_phases : Forall2 inPhase phs pool;
  hi_doc d : docAt w coll id = Some d -> killable d /\ exists i ph, phs !! i = Some ph /\ alert ph;
  hi_tomb : (docAt w reg T = None /\ exists i ph, phs !! i = Some ph /\ (ph = PDeleting \/ ph = PFailing)) \/
            exists d, docAt w reg T = Some d /\ tombDoc d
}.

(** A worker moves to a phase [ph'] and the world to [w']. *)
Lemma inv_move w pool phs i ph p' ph' w' :
  HandshakeInv w pool phs -> phs !! i = Some ph -> inPhase ph' p' ->
  (forall d, docAt w' coll id = Some d -> killable d /\
     (alert ph' \/ (exists d0, docAt w coll id = Some d0) /\ ~ alert ph \/
      docAt w reg T = None /\ ph <> PDeleting /\ ph <> PFailing)) ->
  ((docAt w' reg T = docAt w reg T /\ ph <> PDeleting /\ ph <> PFailing) \/
   (docAt w' reg T = docAt w reg T /\ (ph' = PDeleting \/ ph' = PFailing)) \/
   exists d, docAt w' reg T = Some d /\ tombDoc d) ->
  HandshakeInv w' (<[i := p']> pool) (<[i := ph']> phs).
Proof using.
  intros [Hph Hdoc Htomb] Hi Hp' Hd' Ht'.
  assert (Hi' : <[i := ph']> phs !! i = Some ph') by (apply list_lookup_insert_eq; by eapply lookup_lt_Some).
  assert (Hother : forall j x, phs !! j = Some x -> x <> ph -> <[i := ph']> phs !! j = Some x).
  { intros j x Hj Hx. rewrite list_lookup_insert_ne; [done|]. intros ->. congruence. }
  assert (Hwatch : docAt w reg T = None -> ph <> PDeleting -> ph <> PFailing ->
    exists j x, <[i := ph']> phs !! j = Some x /\ (x = PDeleting \/ x = PFailing)).
  { intros Hn Hp1 Hp2. destruct Htomb as [(_ & j & x & Hj & Hx)|(d & Hd & _)]; [|congruence].
    exists j, x. split; [|done]. apply Hother; [done|]. destruct Hx; congruence. }
  split.
  - by apply Forall2_insert.
  - intros d Hd. destruct (Hd' d Hd) as [Hk Halert]. split; [done|].
    destruct Halert as [Ha|[((d0 & Hd0) & Hna)|(Hn & Hp1 & Hp2)]].
    + eauto.
    + destruct (Hdoc d0 Hd0) as (_ & j & x & Hj & Hx). exists j, x. split; [|done]. apply Hother; [done|]. congruence.
    + destruct (Hwatch Hn Hp1 Hp2) as (j & x & Hj & Hx). exists j, x. split; [done|]. by destruct Hx as [-> | ->].
  - destruct Ht' as [(Ht & Hp1 & Hp2)|[(Ht & Hq)|Hd]]; [| |by right]; rewrite Ht;
      (destruct (docAt w reg T) as [d|] eqn:E; [right; destruct Htomb as [[? _]|]; [done|by simplify_eq]|left; split; [done|]]).
    + by apply Hwatch.
    + eauto.
Qed.

(** A harmless call keeps the phase. *)
Lemma inv_calm w pool phs i ph X (c : Call X) k r w' :
  HandshakeInv w pool phs -> phs !! i = Some ph -> calm X c -> inPhase ph (k r) -> allowed slot c w r w' ->
  HandshakeInv w' (<[i := k r]> pool) phs.
Proof using H0 Hslot.
  intros Hinv Hi Hc Hk Ha.
  assert (Hw : (docAt w' coll id = docAt w coll id \/ docAt w' coll id = None) /\ docAt w' reg T = docAt w reg T).
  { destruct (allowed_world _ _ _ _ _ Ha) as [-> | ->]; [by split; [left|]|by apply calm_effect]. }
  destruct Hw as [Hd Ht]. destruct Hinv as [Hph Hdoc Htomb]. split.
  - rewrite <- (list_insert_id phs i ph Hi). by apply Forall2_insert.
  - intros d Hd'. apply Hdoc. destruct Hd as [<-|Hn]; [done|congruence].
  - by rewrite Ht.
Qed.

(** *** The steps of the handshake *)

Lemma step_create w pool phs i X (c : Call X) k r w' :
  HandshakeInv w pool phs -> phs !! i = Some PCreating -> createHit X c k -> allowed slot c w r w' ->
  exists phs', HandshakeInv w' (<[i := k r]> pool) phs'.
Proof using H0 Hslot.
  intros Hinv Hi Hhit Ha. destruct c as [| | |c' i' stages upsert| | | | | | | | | | | | | | | | | | |]; try done.
  destruct Hhit as (-> & -> & -> & [Hkeep Hborn] & Hk). exists (<[i := PChecking]> phs).
  assert (Htomb : docAt w' reg T = docAt w reg T).
  { destruct (allowed_world _ _ _ _ _ Ha) as [-> | ->]; [done|]. cbn [effect]. rewrite docAt_insert.
    by rewrite decide_False by congruence. }
  eapply inv_move; [done..|apply Hk| |by left]. intros d Hd. split; [|by left].
  destruct (allowed_world _ _ _ _ _ Ha) as [-> | ->]; [by eapply hi_doc|].
  cbn [effect] in Hd. rewrite docAt_insert, decide_True in Hd by done.
  unfold ApplyProjection in Hd. rewrite ml_updateOne in Hd.
  destruct (collOf w coll !! id) as [d0|] eqn:E; rewrite lookup_insert_eq in Hd; simplify_eq; [|done].
  apply Hkeep. eapply hi_doc; [done|exact E].
Qed.

Lemma step_check w pool phs i X (c : Call X) k r w' :
  HandshakeInv w pool phs -> phs !! i = Some PChecking -> checkHit X c k -> allowed slot c w r w' ->
  exists phs', HandshakeInv w' (<[i := k r]> pool) phs'.
Proof using H0 Hslot.
  intros Hinv Hi Hhit Ha. destruct c; try done. destruct Hhit as (-> & -> & -> & Hdoom & Hq & Hfail).
  destruct Ha as [-> [->|[e ->]]].
  - unfold FindManyByField. rewrite ml_findId. fold (docAt w reg T).
    destruct (docAt w reg T) as [d|] eqn:E; cbn [option_list].
    + assert (Hd : tombDoc d) by (destruct (hi_tomb _ _ _ Hinv) as [[? _]|(d' & ? & ?)]; [congruence|by simplify_eq]).
      exists (<[i := PDoomed]> phs). eapply inv_move; [done..|by apply Hdoom| |by left].
      intros d' Hd'. split; [by eapply hi_doc|by left].
    + exists (<[i := PQuiet]> phs). eapply inv_move; [done..|exact Hq| |by left].
      intros d' Hd'. split; [by eapply hi_doc|]. right. right. done.
  - exists (<[i := PFailing]> phs). eapply inv_move; [done..|by apply Hfail| |by left].
    intros d' Hd'. split; [by eapply hi_doc|by left].
Qed.

Lemma step_doom w pool phs i X (c : Call X) k r w' :
  HandshakeInv w pool phs -> phs !! i = Some PDoomed -> doomHit X c k -> allowed slot c w r w' ->
  exists phs', HandshakeInv w' (<[i := k r]> pool) phs'.
Proof using H0 Hslot.
  intros Hinv Hi Hhit Ha. destruct c; try done. destruct Hhit as (-> & -> & -> & -> & Hq & Hfail).
  assert (Hgone : docAt (effect (CDeleteGuarded coll id R B) w) coll id = None).
  { destruct (docAt w coll id) as [d|] eqn:E; [by eapply killable_deleted, hi_doc|].
    cbn [effect]. rewrite docAt_insert, decide_True by done.
    destruct (deleteGuarded_lookup (collOf w coll) id id R B) as [->|[_ ->]]; done. }
  pose proof (deleteGuarded_keeps_tomb w R B) as Htomb.
  cbn in Ha. destruct Ha as [[-> ->]|[[e ->] Hw]].
  - exists (<[i := PQuiet]> phs). eapply inv_move; [done..|exact Hq| |by left]. intros d Hd. cbn [effect] in Hgone. congruence.
  - exists (<[i := PFailing]> phs). eapply inv_move; [done..|by apply Hfail| |].
    + intros d Hd. split; [|by left]. destruct Hw as [-> | ->]; [by eapply hi_doc|]. cbn [effect] in Hgone. congruence.
    + left. destruct Hw as [-> | ->]; done.
Qed.

Lemma step_stamp w pool phs i X (c : Call X) k r w' : 0 < R -> 0 <= B ->
  HandshakeInv w pool phs -> phs !! i = Some PDeleting -> stampHit X c k -> allowed slot c w r w' ->
  exists phs', HandshakeInv w' (<[i := k r]> pool) phs'.
Proof using H0 Hslot.
  intros HR HB Hinv Hi Hhit Ha. destruct c; try done. destruct Hhit as (-> & -> & -> & (now & ->) & Hdoom & Hfail).
  destruct (stamp_tomb w now HR HB) as (d & Hd & Htd); [destruct (hi_tomb _ _ _ Hinv) as [[? _]|]; auto|].
  assert (Hdoc : docAt w' coll id = docAt w coll id).
  { destruct (allowed_world _ _ _ _ _ Ha) as [-> | ->]; [done|apply stamp_keeps_doc]. }
  cbn in Ha. destruct Ha as [[-> ->]|[[e ->] Hw]].
  - exists (<[i := PDoomed]> phs). eapply inv_move; [done..|exact Hdoom| |right; right; by exists d].
    intros d' Hd'. rewrite Hdoc in Hd'. split; [by eapply hi_doc|by left].
  - exists (<[i := PFailing]> phs). eapply inv_move; [done..|apply Hfail| |].
    + intros d' Hd'. rewrite Hdoc in Hd'. split; [by eapply hi_doc|by left].
    + right. destruct Hw as [-> | ->]; [left; auto|]. right. by exists d.
Qed.

Lemma inv_step w pool phs w' pool' : 0 < R -> 0 <= B ->
  HandshakeInv w pool phs -> pstep slot (w, pool) (w', pool') -> exists phs', HandshakeInv w' pool' phs'.
Proof using H0 Hslot.
  intros HR HB Hinv Hstep. inversion Hstep as [? ? i X c k r ? Hi Ha]; subst.
  destruct (Forall2_lookup_r _ _ _ _ _ (hi_phases _ _ _ Hinv) Hi) as (ph & Hph & Hp).
  pose proof (allowed_replyOk _ _ _ _ _ Ha) as Hr.
  assert (Hcalm : calm X c /\ (forall r, replyOk slot c r -> inPhase ph (k r)) -> exists phs', HandshakeInv w' (<[i := k r]> pool) phs').
  { intros [Hc Hk]. exists phs. eapply inv_calm; [done..|by apply Hk|done]. }
  destruct ph; destruct Hp as [Hhit|Hp]; try (by apply Hcalm); try done;
    eauto using step_create, step_check, step_doom, step_stamp.
Qed.

(** Once every worker ended without an error, the document is gone. *)
Lemma inv_finished w pool phs : HandshakeInv w pool phs -> finished pool [] -> docAt w coll id = None.
Proof using.
  intros Hinv Hfin. destruct (docAt w coll id) as [d|] eqn:E; [|done]. exfalso.
  destruct (hi_doc _ _ _ Hinv d E) as (_ & i & ph & Hi & Halert).
  destruct (Forall2_lookup_l _ _ _ _ _ (hi_phases _ _ _ Hinv) Hi) as (p & Hpi & Hp).
  rewrite (Forall_lookup_1 _ _ _ _ Hfin Hpi) in Hp. destruct ph; by cbn in *.
Qed.

Lemma inv_runs w pool phs w' pool' : 0 < R -> 0 <= B ->
  HandshakeInv w pool phs -> rtc (pstep slot) (w, pool) (w', pool') -> exists phs', HandshakeInv w' pool' phs'.
Proof using H0 Hslot.
  intros HR HB Hinv Hrun. remember (w, pool) as st eqn:E. remember (w', pool') as st' eqn:E'.
  revert w pool phs E Hinv. induction Hrun as [|? [w1 pool1] ? Hstep _ IH]; intros w pool phs -> Hinv.
  - simplify_eq. eauto.
  - destruct (inv_step _ _ _ _ _ HR HB Hinv Hstep) as [phs1 Hinv1]. by eapply IH.
Qed.

(** *** The engine's programs in their phases *)

Abbreviation calmly p := (@until slot calm (option GoErr) noHit (fun _ => True) p).

Ltac calm_call := right; split; [exact I|intros].

Lemma shadowAttempts_calm n write : calmly write -> @until slot calm _ noHit (fun _ => True) (shadowAttempts n write).
Proof using.
  intros Hw. induction n as [|n IH]; [done|]. cbn [shadowAttempts]. eapply until_bind; [exact Hw|].
  intros [e|] _; [|done]. destruct n as [|n']; [done|].
  apply (until_bind _ _ _ _ (fun _ => True)); [by apply until_call|]. intros [|] _; [exact IH|done].
Qed.

Lemma dualApply_calm write : calmly write -> calmly (dualApply viewName write).
Proof using.
  intros Hw. unfold dualApply. eapply until_bind; [by apply shadowAttempts_calm|].
  intros [[e [|]]|] _; [done| |by calm_call].
  calm_call. cbn. destruct (Z.ltb r shadowAbortThreshold); [done|]. calm_call. calm_call.
  destruct r1 as [e'|]; [done|]. by calm_call.
Qed.

(** What follows the write on the active slot. *)
Definition afterWrite (write : string -> Call (option GoErr)) (k : SyncM (option GoErr)) (r : option GoErr) : SyncM (option GoErr) :=
  match r with
  | Some e => SRet (Some e)
  | None =>
      shadow <- call (CShadowActive viewName);;
      match shadow with Some sh => orErr (dualApply viewName (call (write sh))) k | None => k end
  end.

(** The write on the active slot hits. *)
Lemma onSlots_hit (hit : Hit (list GoErr)) fin write k f :
  hit _ (write coll) (fun r => sbind (afterWrite write k r) f) ->
  untilC hit fin (sbind (onSlots viewName write k) f).
Proof using. intros Hhit. calm_call. cbn in H1. subst. left. exact Hhit. Qed.

Lemma afterWrite_calm write k r :
  (forall sh, sh <> coll -> sh <> reg -> calm _ (write sh)) -> calmly k -> calmly (afterWrite write k r).
Proof using.
  intros Hw Hk. destruct r as [e|]; [done|]. calm_call. destruct r as [sh|]; [|exact Hk].
  apply until_orErr; [|done|exact Hk]. apply dualApply_calm. apply until_call; [|done]. destruct H1. by apply Hw.
Qed.

Lemma calm_shadow_apply stages upsert sh : sh <> coll -> sh <> reg -> calm _ (CApply sh id stages upsert).
Proof using. intros H1 H2. split; intros [? _]; done. Qed.

Lemma calm_shadow_delete rev born sh : sh <> reg -> calm _ (CDeleteGuarded sh id rev born).
Proof using. intros H2 [? _]. done. Qed.

(** The guarded delete of either side. *)
Lemma delete_doomed before (f : option GoErr -> Prog) :
  quiet (f None) -> (forall e, failing (f (Some e))) ->
  doomed (sbind (onSlots viewName (fun coll => CDeleteGuarded coll id R B)
    (call (CSignalDeleted viewName id before R);;; SRet None)) f).
Proof using Hslot.
  intros Hq Hfail. apply onSlots_hit. cbn [doomHit]. split_and!; try done.
  - eapply until_bind; [apply afterWrite_calm|].
    + intros sh _ Hsh. by apply calm_shadow_delete.
    + by calm_call.
    + intros [e|] _; [|exact Hq]. eapply until_weaken; [apply Hfail|done].
Qed.

Lemma check_checking myRev (f : option GoErr -> Prog) : 0 < R -> myRev <= R ->
  quiet (f None) -> (forall e, failing (f (Some e))) ->
  checking (sbind (checkTombstone floatToInt viewName id myRev) f).
Proof using Hslot.
  intros HR Hle Hq Hfail. left. cbn [checkHit]. split_and!; try done.
  - intros d [Hrev Hborn]. cbn -[onSlots]. rewrite Hrev, Hborn. cbn -[onSlots].
    rewrite (proj2 (Z.eqb_neq R 0)), (proj2 (Z.ltb_ge R myRev)) by lia. cbn -[onSlots].
    calm_call. by apply delete_doomed.
  - intros e. apply Hfail.
Qed.

(** *** Stale upserts *)

Context (Hs : SchemaOk s) (Hcol : ownColumn s "created_at") (Hid : vs_idColumn s <> "created_at").

(** An event of the deleted life. *)
Definition staleEvent (ev : decodedEvent) : Prop :=
  EventOk s ev /\ revisionOf ev <= R /\
  (forall x, de_Scalars ev !! "created_at" = Some x ->
     exists t, x = MDate t /\ truncateSecond B - 1000 <= t < truncateSecond B + 1000).

Lemma killable_deliver order ev d : orderOk order -> staleEvent ev -> killable d -> killable (deliver s order ev d).
Proof using Hs Hcol Hid H0.
  intros Ho (He & Hr & Hc) (Hd & Hlife & v & Hv & Hle). split_and!.
  - by apply deliver_DocOk.
  - intros HB. rewrite (deliver_column s Hs order ev Ho He d v _ Hv Hcol).
    destruct (ownScalars s ev !! "created_at") as [e|] eqn:Ee; [|by apply Hlife].
    destruct (admits v (revisionOf ev)); [|by apply Hlife].
    destruct (ownScalars_entry s ev _ e Hs He Ee) as [[y Hy] _]. destruct e; simplify_eq/=; [|by left].
    right. apply ownScalars_value in Ee; [|done]. destruct (Hc _ Ee) as (t & -> & Ht). eauto.
  - unfold watermark. rewrite (deliver_watermark s Hs order ev Ho He d v Hv). eexists. split; [done|].
    destruct v; cbn; lia.
Qed.

Lemma killable_new : killable {["_id" := MStr id]}.
Proof using Hs.
  split_and!.
  - split; [by eexists|]. intros t c Hc. left.
    assert (Hseg : reserved (cv_segment c) = false) by (eapply (so_segmentName _ Hs t c false); by apply resolve_own).
    rewrite lookup_singleton_ne; [done|]. intros E. by rewrite <- E in Hseg.
  - intros _. left. done.
  - by exists None.
Qed.

Lemma stale_stages order ev : orderOk order -> staleEvent ev -> staleStages (buildProjectionStages order s ev).
Proof using Hs Hcol Hid H0.
  intros Ho Hev. split.
  - intros d Hd. by apply (killable_deliver order ev d).
  - apply (killable_deliver order ev); [done..|apply killable_new].
Qed.

(** *** Workers *)

Context (std : GoStd) (view : ViewDefinition) (Hview : vd_name view = viewName /\ vd_schema view = s).

(** A worker on one event of the aggregate, with the map order of its run. *)
Record Worker := mkWorker { wk_order : GroupOrder; wk_event : kafkaEvent; wk_raw : gmap string JVal }.

Definition workerProg (k : Worker) : Prog :=
  projectOwnView std floatToInt (wk_order k) (wk_event k) (wk_raw k) (rawPayloadIDs (wk_raw k)) view.

(** A worker that writes the document from an event of the deleted life. *)
Definition staleWorker (k : Worker) : Prop :=
  orderOk (wk_order k) /\ ke_AggregateID (wk_event k) = id /\ payloadDirect view = true /\
  shouldDeleteFromView (ke_EventType (wk_event k)) (vd_deleteOnArchive view) = false /\
  staleEvent (coercePayloadEvent std s (wk_raw k)).

(** A worker that deletes it. *)
Definition deleteWorker (k : Worker) : Prop :=
  ke_AggregateID (wk_event k) = id /\
  shouldDeleteFromView (ke_EventType (wk_event k)) (vd_deleteOnArchive view) = true /\
  pi_Revision (rawPayloadIDs (wk_raw k)) = R /\ createdAtMillis std (rawPayloadIDs (wk_raw k)) = B.

Lemma wrapped_failing what e : failing (SRet (wrapped what (Some e))).
Proof using. done. Qed.

Lemma stale_creating k : 0 < R -> staleWorker k -> creating (workerProg k).
Proof using Hslot Hs Hcol Hid H0 Hview.
  intros HR (Ho & Haid & Hdirect & Hnodel & Hev). destruct Hview as [Hname Hschema].
  unfold workerProg, projectOwnView. rewrite Hnodel, Hdirect, Haid, Hname, Hschema.
  pose proof (stale_stages (wk_order k) _ Ho Hev) as Hst.
  destruct (buildProjectionStages (wk_order k) s (coercePayloadEvent std s (wk_raw k))) as [|st sts]; [done|].
  unfold applyProjection. calm_call. apply onSlots_hit. cbn [createHit]. split_and!; try done.
  intros r0. eapply until_bind; [apply afterWrite_calm|].
  - intros sh H1' H2'. by apply calm_shadow_apply.
  - by calm_call.
  - intros [e|] _; [done|]. apply check_checking; try done. apply Hev.
Qed.

Lemma delete_deleting k : 0 < R -> deleteWorker k -> deleting (workerProg k).
Proof using Hslot Hview.
  intros HR (Haid & Hdel & Hrev & Hborn). destruct Hview as [Hname Hschema].
  unfold workerProg, projectOwnView. rewrite Hdel, Haid, Hname, Hrev, Hborn.
  unfold applyDelete, stampTombstone. rewrite (proj2 (Z.ltb_lt 0 R)), (proj2 (Z.leb_gt R 0)) by lia.
  calm_call. calm_call. left. cbn [stampHit]. split_and!; try done.
  - eexists. done.
  - by apply delete_doomed.
Qed.

(** A world before the workers start: the document, if any, of the deleted life, and
    no other tombstone. *)
Definition oneLife (w : World) : Prop :=
  (forall d, docAt w coll id = Some d -> killable d) /\
  (docAt w reg T = None \/ exists d, docAt w reg T = Some d /\ tombDoc d).

Lemma start_inv w ks : 0 < R -> oneLife w -> Forall (fun k => staleWorker k \/ deleteWorker k) ks ->
  Exists deleteWorker ks -> exists phs, HandshakeInv w (workerProg <$> ks) phs.
Proof using Hslot Hs Hcol Hid H0 Hview.
  intros HR [Hdoc Htomb] Hks Hex.
  assert (Hphs : exists phs, Forall2 inPhase phs (workerProg <$> ks) /\
    forall i k, ks !! i = Some k -> deleteWorker k -> phs !! i = Some PDeleting).
  { clear Hex. induction Hks as [|k ks Hk _ (phs & Hphs & Hdel)]; [by exists []|].
    destruct (decide (shouldDeleteFromView (ke_EventType (wk_event k)) (vd_deleteOnArchive view) = true)) as [Ht|Hf].
    - exists (PDeleting :: phs). split.
      + constructor; [|done]. apply delete_deleting; [done|]. destruct Hk as [(_ & _ & _ & Hn & _)|]; [congruence|done].
      + intros [|i] k' Hi Hk'; [done|]. cbn in *. eauto.
    - exists (PCreating :: phs). split.
      + constructor; [|done]. apply stale_creating; [done|]. destruct Hk as [|(_ & Hn & _)]; [done|congruence].
      + intros [|i] k' Hi Hk'; cbn in *; [simplify_eq; destruct Hk' as (_ & ? & _); congruence|eauto]. }
  destruct Hphs as (phs & Hphs & Hdel). exists phs.
  apply Exists_exists in Hex as (k & Hin & Hk). apply list_elem_of_lookup in Hin as [i Hi].
  specialize (Hdel i k Hi Hk). split; [done| |].
  - intros d Hd. split; [by apply Hdoc|]. by exists i, PDeleting.
  - destruct Htomb; [left|by right]. split; [done|]. exists i, PDeleting. auto.
Qed.

End Handshake.
