(* ===== verification/SyncRuns.v ===== *)
(** * Runs of the sync engine as traces

    A run answers the calls of a program in turn; its trace is the calls with their
    answers.  Which calls a program can make, and how a run of a sequence splits. *)

From S2P Require Import Prelude Errors Mongo Projection Consult Sync.
From stdpp Require Import base gmap strings list fin_maps.
From Stdlib Require Import ZArith Lia.

Open Scope string_scope.
Open Scope list_scope.
Open Scope Z_scope.
Open Scope sync_scope.

(** ** Traces *)

Inductive CallEv :=
| Ev {R : Type} (c : Call R) (r : R).

(** [runs p tr a]: the calls of [p] answered as [tr] says lead to [a]. *)
Fixpoint runs {A} (p : SyncM A) (tr : list CallEv) (a : A) : Prop :=
  match p with
  | SRet b => tr = [] /\ a = b
  | SCall c k => exists r tr', tr = Ev c r :: tr' /\ runs (k r) tr' a
  end.

Lemma runs_sbind {A B} (p : SyncM A) (f : A -> SyncM B) tr b :
  runs (sbind p f) tr b <-> exists a t1 t2, tr = t1 ++ t2 /\ runs p t1 a /\ runs (f a) t2 b.
Proof.
  revert tr. induction p as [a|R c k IH]; intros tr; cbn; split.
  - intros Hr. by exists a, [], tr.
  - by intros (a' & t1 & t2 & -> & [-> ->] & Hr).
  - intros (r & tr' & -> & Hr). apply IH in Hr as (x & t1 & t2 & -> & H1 & H2).
    exists x, (Ev c r :: t1), t2. split_and!; [done| |done]. by exists r, t1.
  - intros (x & ? & t2 & -> & (r & t1 & -> & H1) & H2). exists r, (t1 ++ t2). split; [done|]. apply IH. by exists x, t1, t2.
Qed.

Lemma runs_call {R} (c : Call R) tr r : runs (call c) tr r -> tr = [Ev c r].
Proof. intros (r' & tr' & -> & -> & ->). done. Qed.

(** ** Which calls a program makes *)

Fixpoint allCalls (P : forall R, Call R -> bool) {A} (p : SyncM A) : Prop :=
  match p with
  | SRet _ => True
  | SCall c k => P _ c = true /\ forall r, allCalls P (k r)
  end.

Definition evOk (P : forall R, Call R -> bool) (e : CallEv) : bool := match e with Ev c _ => P _ c end.

Lemma allCalls_runs P {A} (p : SyncM A) tr a : allCalls P p -> runs p tr a -> Forall (fun e => evOk P e = true) tr.
Proof.
  revert tr. induction p as [b|R c k IH]; intros tr Hp Hr; [by destruct Hr as [-> _]|].
  destruct Hp as [Hc Hk], Hr as (r & tr' & -> & Hr). constructor; [done|]. by eapply IH.
Qed.

Section Calls.
Context (P : forall R, Call R -> bool).

Lemma allCalls_bind {A B} (p : SyncM A) (f : A -> SyncM B) :
  allCalls P p -> (forall a, allCalls P (f a)) -> allCalls P (sbind p f).
Proof. intros Hp Hf. induction p as [a|R c k IH]; [apply Hf|]. destruct Hp as [Hc Hk]. split; [done|]. intros r. by apply IH. Qed.

Lemma allCalls_orErr p q : allCalls P p -> allCalls P q -> allCalls P (orErr p q).
Proof. intros Hp Hq. apply allCalls_bind; [done|]. by intros [e|]. Qed.

Lemma allCalls_eachOrErr {A} (l : list A) f : (forall a, allCalls P (f a)) -> allCalls P (eachOrErr l f).
Proof. intros Hf. induction l as [|a l IH]; [done|]. by apply allCalls_orErr. Qed.

Lemma allCalls_eachCollect {A} (l : list A) f : (forall a, allCalls P (f a)) -> allCalls P (eachCollect l f).
Proof.
  intros Hf. induction l as [|a l IH]; [done|]. apply allCalls_bind; [done|]. intros errs. by apply allCalls_bind.
Qed.

Lemma allCalls_shadowAttempts n write : P _ CShadowPause = true -> allCalls P write -> allCalls P (shadowAttempts n write).
Proof.
  intros Hp Hw. induction n as [|n IH]; [done|]. cbn. apply allCalls_bind; [done|]. intros [e|]; [|done].
  destruct n; [done|]. split; [done|]. by intros [|].
Qed.

(** The calls of the projection path beside the probe [CFindIDs] and the calls of the
    consumer loop. *)
Definition projecting : Prop :=
  (forall v, P _ (CActive v) = true) /\ (forall v, P _ (CShadowActive v) = true) /\ P _ CRefresh = true /\
  (forall c i st u, P _ (CApply c i st u) = true) /\ (forall c i r b, P _ (CDeleteGuarded c i r b) = true) /\
  (forall c i, P _ (CDelete c i) = true) /\ (forall c f v, P _ (CFindMany c f v) = true) /\
  (forall v i, P _ (CCompose v i) = true) /\ (forall v l, P _ (CComposeBatch v l) = true) /\ P _ CNow = true /\
  (forall v i, P _ (CSignalBefore v i) = true) /\ (forall v i b, P _ (CSignalWritten v i b) = true) /\
  (forall v i b r, P _ (CSignalDeleted v i b r) = true) /\ (forall v i d, P _ (CRepairDangling v i d) = true) /\
  P _ CShadowPause = true /\ (forall v, P _ (CStreakSucceeded v) = true) /\ (forall v, P _ (CStreakFailed v) = true) /\
  (forall v, P _ (CAbortRebuild v) = true).

Context (Hproj : projecting).

Ltac one_call := split; [apply Hproj|intros].

Lemma allCalls_dualApply v write : allCalls P write -> allCalls P (dualApply v write).
Proof using Hproj.
  intros Hw. unfold dualApply. apply allCalls_bind; [apply allCalls_shadowAttempts; [apply Hproj|exact Hw]|].
  intros [[e [|]]|]; [done| |by one_call]. one_call. cbn [sbind]. destruct (Z.ltb r shadowAbortThreshold); [exact I|].
  one_call. one_call. cbn [sbind]. destruct r1; [exact I|]. by one_call.
Qed.

Lemma allCalls_onSlots v write k : (forall c, P _ (write c) = true) -> allCalls P k -> allCalls P (onSlots v write k).
Proof using Hproj.
  intros Hw Hk. one_call. apply allCalls_orErr; [by split|]. one_call. destruct r0; [|done].
  apply allCalls_orErr; [|done]. apply allCalls_dualApply. by split.
Qed.

Context (std : GoStd) (floatToInt : string -> Z) (order : GroupOrder).

Lemma allCalls_checkTombstone v i r : allCalls P (checkTombstone floatToInt v i r).
Proof using Hproj.
  one_call. destruct r0 as [e|[|d ds]]; cbn -[onSlots]; [done..|].
  destruct (_ || _)%bool; [done|]. one_call. apply allCalls_onSlots; [intros; apply Hproj|by one_call].
Qed.

Lemma allCalls_applyProjection v i st u : allCalls P (applyProjection v i st u).
Proof using Hproj. one_call. apply allCalls_onSlots; [intros; apply Hproj|by one_call]. Qed.

Lemma allCalls_applyDelete v i r b : allCalls P (applyDelete v i r b).
Proof using Hproj.
  one_call. cbn -[onSlots stampTombstone orErr]. destruct (Z.ltb 0 r) eqn:E.
  - apply allCalls_orErr.
    + unfold stampTombstone. destruct (Z.leb r 0); [done|]. one_call. by one_call.
    + apply allCalls_onSlots; [intros; apply Hproj|by one_call].
  - apply allCalls_onSlots; [intros; apply Hproj|by one_call].
Qed.

Lemma allCalls_applyConsultUpsert view i d : allCalls P (applyConsultUpsert floatToInt view i d).
Proof using Hproj.
  unfold applyConsultUpsert. destruct (consultGuardedStages _ _ _); [done|].
  apply allCalls_orErr; [apply allCalls_applyProjection|]. apply allCalls_bind.
  - destruct (vd_embeds view); [done|]. by one_call.
  - intros _. destruct (vd_isSharedBaseView view); [done|apply allCalls_checkTombstone].
Qed.

Lemma allCalls_consultView i view : allCalls P (consultView floatToInt i view).
Proof using Hproj.
  one_call. destruct r as [e|[d|]]; [done| |done].
  apply (allCalls_bind (applyConsultUpsert floatToInt view i d)); [apply allCalls_applyConsultUpsert|done].
Qed.

Lemma allCalls_projectOwnView event raw ids view : allCalls P (projectOwnView std floatToInt order event raw ids view).
Proof using Hproj.
  unfold projectOwnView. destruct (shouldDeleteFromView _ _).
  - apply allCalls_bind; [apply allCalls_applyDelete|done].
  - destruct (payloadDirect view); [|apply allCalls_consultView].
    destruct (buildProjectionStages _ _ _); [done|]. apply allCalls_bind; [apply allCalls_applyProjection|].
    intros [e|]; [done|]. apply allCalls_bind; [apply allCalls_checkTombstone|done].
Qed.

Lemma allCalls_recompose event routes : allCalls P (recomposeBaseRooted floatToInt event routes).
Proof using Hproj.
  unfold recomposeBaseRooted. destruct (String.eqb _ _); [done|]. apply allCalls_eachOrErr. intros view. one_call.
  destruct r as [e|[d|]]; [done|apply allCalls_applyConsultUpsert|apply allCalls_applyDelete].
Qed.

Lemma allCalls_pull event ids table views : allCalls P (pullSideRepair floatToInt event ids table views).
Proof using Hproj.
  assert (Hviews : allCalls P (errs <- eachCollect views (consultView floatToInt (ke_AggregateID event));; SRet (joinErrs errs))).
  { apply allCalls_bind; [|done]. apply allCalls_eachCollect. intros. apply allCalls_consultView. }
  one_call. destruct r as [e|[|d ds]]; cbn -[eachCollect consultView]; [done|..]; by destruct (Z.leb _ _).
Qed.

End Calls.

(** ** The parts of a run *)

Lemma runs_eachCollect {A} (f : A -> SyncM (list GoErr)) l : forall tr errs,
  runs (eachCollect l f) tr errs ->
  forall a, a ∈ l -> exists t1 t2 t3 e, tr = t1 ++ t2 ++ t3 /\ runs (f a) t2 e /\ (errs = [] -> e = []).
Proof.
  induction l as [|x l IH]; intros tr errs Hr a Ha; [set_solver|]. cbn [eachCollect] in Hr.
  apply runs_sbind in Hr as (e1 & t1 & t2 & -> & H1 & Hr). apply runs_sbind in Hr as (e2 & t3 & t4 & -> & H2 & Hr).
  destruct Hr as [-> ->]. apply elem_of_cons in Ha as [->|Ha].
  - exists [], t1, (t3 ++ []), e1. split_and!; [done|done|]. by intros [-> _]%app_eq_nil.
  - destruct (IH _ _ H2 a Ha) as (u1 & u2 & u3 & e & -> & Hu & He). exists (t1 ++ u1), u2, (u3 ++ []), e.
    split_and!; [by rewrite <- !app_assoc|done|]. intros [_ Hn]%app_eq_nil. by apply He.
Qed.

Lemma joinErrs_none errs : joinErrs errs = None -> errs = [].
Proof. by destruct errs. Qed.

Lemma wrapped_none what err : wrapped what err = [] -> err = None.
Proof. by destruct err. Qed.

Section Process.
Context (std : GoStd) (floatToInt : string -> Z) (order : GroupOrder) (index : viewIndex).

Abbreviation processE := (process std floatToInt order index).
Abbreviation ownViewE := (projectOwnView std floatToInt order).

(** The shared-base trigger of a base event. *)
Definition baseTrigger (event : kafkaEvent) (ids : payloadIDs) : SyncM (list GoErr) :=
  match ix_bySharedBase index !! ke_AggregateType event with
  | Some baseViews =>
      err <- fanOutSharedBase floatToInt (ke_AggregateID event) baseViews;;
      drop <- (if String.eqb (ke_EventType event) "DELETED" && pi_BasePurged ids
               then dropBaseRevision (ke_AggregateType event) (ke_AggregateID event) else SRet None);;
      SRet (wrapped "shared-base fan-out" err ++ wrapped "drop base revision" drop)
  | None => SRet []
  end.

(** The role trigger. *)
Definition roleTrigger (event : kafkaEvent) (raw : gmap string JVal) (ids : payloadIDs) : SyncM (list GoErr) :=
  match ix_baseOfRole index !! ke_AggregateType event with
  | Some roleBaseTable =>
      if String.eqb (pi_BaseID ids) "" then SRet []
      else
        stamp <- stampBaseRevision roleBaseTable (pi_BaseID ids) (pi_BaseRevision ids);;
        match stamp, ix_bySharedBase index !! roleBaseTable with
        | Some e, _ => SRet [EWrap "stamp base revision (shared-base fan-out blocked)" e]
        | None, Some baseViews =>
            err <- fanOutSharedBasePayload std order raw (pi_BaseID ids) baseViews;;
            SRet (wrapped "shared-base payload fan-out" err)
        | None, None => SRet []
        end
  | None => SRet []
  end.

Definition rootedTrigger (event : kafkaEvent) : SyncM (list GoErr) :=
  match ix_byRoleTable index !! ke_AggregateType event with
  | Some routes => err <- recomposeBaseRooted floatToInt event routes;; SRet (wrapped "base-rooted recompose" err)
  | None => SRet []
  end.

Definition pullTrigger (event : kafkaEvent) (ids : payloadIDs) (views : list ViewDefinition) : SyncM (list GoErr) :=
  match ix_baseOfRole index !! ke_AggregateType event with
  | Some roleBaseTable =>
      if negb (String.eqb (pi_BaseID ids) "") && Z.ltb 0 (pi_BaseRevision ids) &&
         (String.eqb (ke_EventType event) "INSERTED" || String.eqb (ke_EventType event) "UNARCHIVED")
      then err <- pullSideRepair floatToInt event ids roleBaseTable views;; SRet (wrapped "base-revision pull repair" err)
      else SRet []
  | None => SRet []
  end.

Definition ownViews (event : kafkaEvent) : list ViewDefinition := default [] (ix_byPGTable index !! ke_AggregateType event).

(** A run of an event with a payload, obligation by obligation. *)
Lemma process_runs event raw tr res :
  decodeRawPayload (ke_Payload event) = Some raw -> runs (processE event) tr res ->
  exists own base role rooted pull t1 t2 t3 t4 t5,
    tr = t1 ++ t2 ++ t3 ++ t4 ++ t5 /\
    runs (projectOwnViews std floatToInt order event raw (rawPayloadIDs raw) (ownViews event)) t1 own /\
    runs (baseTrigger event (rawPayloadIDs raw)) t2 base /\ runs (roleTrigger event raw (rawPayloadIDs raw)) t3 role /\
    runs (rootedTrigger event) t4 rooted /\ runs (pullTrigger event (rawPayloadIDs raw) (ownViews event)) t5 pull /\
    res = joinErrs (wrapped "own views" own ++ base ++ role ++ rooted ++ pull).
Proof.
  intros Hraw Hr. unfold process in Hr. rewrite Hraw in Hr.
  apply runs_sbind in Hr as (own & t1 & r1 & -> & H1 & Hr). apply runs_sbind in Hr as (base & t2 & r2 & -> & H2 & Hr).
  apply runs_sbind in Hr as (role & t3 & r3 & -> & H3 & Hr). apply runs_sbind in Hr as (rooted & t4 & r4 & -> & H4 & Hr).
  apply runs_sbind in Hr as (pull & t5 & r5 & -> & H5 & [-> ->]).
  exists own, base, role, rooted, pull, t1, t2, t3, t4, t5. by rewrite app_nil_r.
Qed.

(** *** What the obligations may call *)

Section All.
Context (P : forall R, Call R -> bool) (Hproj : projecting P).

Lemma allCalls_ownViews event raw ids views : allCalls P (projectOwnViews std floatToInt order event raw ids views).
Proof using Hproj.
  apply allCalls_bind; [|done]. apply allCalls_eachCollect. intros view. by apply allCalls_projectOwnView.
Qed.

Lemma allCalls_rooted event : allCalls P (rootedTrigger event).
Proof using Hproj.
  unfold rootedTrigger. destruct (_ !! _); [|done]. apply allCalls_bind; [by apply allCalls_recompose|done].
Qed.

Lemma allCalls_pullTrigger event ids views : allCalls P (pullTrigger event ids views).
Proof using Hproj.
  unfold pullTrigger. destruct (_ !! _); [|done]. destruct (_ && _ && _)%bool; [|done].
  apply allCalls_bind; [by apply allCalls_pull|done].
Qed.

Lemma allCalls_stamp table id rev : allCalls P (stampBaseRevision table id rev).
Proof using Hproj. unfold stampBaseRevision. destruct (Z.leb _ _); [done|]. split; [apply Hproj|done]. Qed.

Context (Hfind : forall c f v, P _ (CFindIDs c f v) = true).

Lemma allCalls_fanOutPayload raw id views : allCalls P (fanOutSharedBasePayload std order raw id views).
Proof using Hproj Hfind.
  apply allCalls_eachOrErr. intros view. destruct (vs_base _); [|done]. destruct (buildFanOutStages _ _ _) as [|st sts]; [done|].
  split; [apply Hproj|]. intros r. split; [apply Hfind|]. intros [e|ids]; [done|].
  apply allCalls_eachOrErr. intros i. by apply allCalls_applyProjection.
Qed.

Lemma allCalls_fanOut id views : allCalls P (fanOutSharedBase floatToInt id views).
Proof using Hproj Hfind.
  apply allCalls_eachOrErr. intros view. destruct (vs_base _); [|done].
  split; [apply Hproj|]. intros r. split; [apply Hfind|]. intros [e|[|i ids]]; [done..|].
  split; [apply Hproj|]. intros [e|docs]; [done|]. apply allCalls_orErr; apply allCalls_eachOrErr; intros x.
  - by apply allCalls_applyConsultUpsert.
  - case_bool_decide; [done|by apply allCalls_applyDelete].
Qed.

Lemma allCalls_roleTrigger event raw ids : allCalls P (roleTrigger event raw ids).
Proof using Hproj Hfind.
  unfold roleTrigger. destruct (_ !! _); [|done]. destruct (String.eqb _ _); [done|].
  apply allCalls_bind; [apply allCalls_stamp|]. intros [e|]; [done|]. destruct (_ !! _); [|done].
  apply allCalls_bind; [apply allCalls_fanOutPayload|done].
Qed.

Lemma allCalls_baseTrigger event ids : allCalls P (baseTrigger event ids).
Proof using Hproj Hfind.
  unfold baseTrigger. destruct (_ !! _); [|done]. apply allCalls_bind; [apply allCalls_fanOut|]. intros err.
  apply allCalls_bind; [|done]. destruct (_ && _)%bool; [|done]. split; [apply Hproj|done].
Qed.

Context (Hpark : forall e c, P _ (CPark e c) = true).

Lemma allCalls_process event : allCalls P (processE event).
Proof using Hproj Hfind Hpark.
  unfold process. destruct (decodeRawPayload _); [|by split].
  apply allCalls_bind; [apply allCalls_ownViews|]. intros own. apply allCalls_bind; [apply allCalls_baseTrigger|].
  intros base. apply allCalls_bind; [apply allCalls_roleTrigger|]. intros role.
  apply allCalls_bind; [apply allCalls_rooted|]. intros rooted. apply allCalls_bind; [apply allCalls_pullTrigger|done].
Qed.

End All.
End Process.

(** ** Completions *)

Definition notCompleting (R : Type) (c : Call R) : bool :=
  match c with CComplete _ | CSleepBackoff _ | CCtxEnded => false | _ => true end.

Definition completionOf (e : CallEv) : option Completion :=
  match e with Ev c _ => match c with CComplete how => Some how | _ => None end end.

Definition sleepOf (e : CallEv) : option nat :=
  match e with Ev c _ => match c with CSleepBackoff n => Some n | _ => None end end.

Definition completions (tr : list CallEv) : list Completion := omap completionOf tr.
Definition sleeps (tr : list CallEv) : list nat := omap sleepOf tr.

Lemma silent_trace tr : Forall (fun e => evOk notCompleting e = true) tr -> completions tr = [] /\ sleeps tr = [].
Proof.
  induction 1 as [|[R c r] tr He _ [IH1 IH2]]; [done|]. unfold completions, sleeps in *.
  destruct c; cbn in *; done.
Qed.

Section Outcome.
Context (std : GoStd) (floatToInt : string -> Z) (order : GroupOrder) (index : viewIndex).

Lemma process_silent event tr res : runs (process std floatToInt order index event) tr res -> completions tr = [] /\ sleeps tr = [].
Proof.
  intros Hr. eapply silent_trace, allCalls_runs; [|exact Hr]. apply allCalls_process; [|done..]. repeat split.
Qed.

(** A run of the attempts: how it ended, and its waits. *)
Inductive attempted (event : kafkaEvent) : list CallEv -> option (option GoErr) -> Prop :=
| Succeeded pre mid : completions pre = [] -> runs (process std floatToInt order index event) mid None ->
    attempted event (pre ++ mid ++ [Ev (CComplete CompletionDone) tt]) None
| CutShort pre n : completions pre = [] ->
    attempted event (pre ++ [Ev (CSleepBackoff n) false; Ev (CComplete CompletionFailed) tt]) None
| Exhausted tr e : completions tr = [] -> attempted event tr (Some e).

Lemma completions_app k l : completions (k ++ l) = completions k ++ completions l.
Proof. apply omap_app. Qed.

Lemma sleeps_app k l : sleeps (k ++ l) = sleeps k ++ sleeps l.
Proof. apply omap_app. Qed.

Lemma attempted_prefix event pre tr r : completions pre = [] -> attempted event tr r -> attempted event (pre ++ tr) r.
Proof.
  intros Hpre [p m Hp Hm|p n Hp|t e Ht].
  - rewrite app_assoc. constructor; [by rewrite completions_app, Hpre, Hp|done].
  - rewrite app_assoc. constructor. by rewrite completions_app, Hpre, Hp.
  - constructor. by rewrite completions_app, Hpre, Ht.
Qed.

(** One try, then the remaining attempts. *)
Lemma try_runs event n attempt tr r (rest : GoErr -> SyncM (option (option GoErr))) :
  runs (err <- process std floatToInt order index event;;
        match err with Some e => rest e | None => call (CComplete CompletionDone);;; SRet None end) tr r ->
  (forall e t, runs (rest e) t r -> attempted event t r /\ (length (sleeps t) <= n)%nat) ->
  attempted event tr r /\ (length (sleeps tr) <= n + attempt)%nat.
Proof.
  intros Hr Hrest. apply runs_sbind in Hr as (err & t1 & t2 & -> & H1 & Hr). destruct (process_silent _ _ _ H1) as [Hc Hs].
  destruct err as [e|].
  - destruct (Hrest e t2 Hr) as [Ha Hl]. split; [by apply attempted_prefix|]. rewrite sleeps_app, Hs. cbn. lia.
  - destruct Hr as (u & t3 & -> & -> & ->). destruct u. split.
    + by apply (Succeeded event [] t1).
    + rewrite sleeps_app, Hs. cbn. lia.
Qed.

Lemma attempts_runs event n : forall attempt lastErr tr r,
  runs (attempts std floatToInt order index event n attempt lastErr) tr r ->
  attempted event tr r /\ (length (sleeps tr) <= (if attempt then pred n else n))%nat.
Proof.
  induction n as [|n IH]; intros attempt lastErr tr r Hr.
  { destruct Hr as [-> ->]. split; [by constructor|]. cbn. lia. }
  assert (Hrest : forall e t, runs (attempts std floatToInt order index event n (S attempt) (Some e)) t r ->
    attempted event t r /\ (length (sleeps t) <= n)%nat) by (intros e t Ht; by apply (IH (S attempt) (Some e))).
  cbn [attempts] in Hr. destruct attempt as [|a].
  - destruct (try_runs event n 0 tr r _ Hr Hrest) as [Ha Hl]. split; [done|]. unfold sleeps in *. cbn in *. lia.
  - destruct Hr as (slept & t1 & -> & Hr). destruct slept.
    + destruct Hr as (stale & t2 & -> & Hr).
      assert (Hpre : completions [Ev (CSleepBackoff (S a)) true; Ev CRefresh stale] = []) by done.
      destruct stale as [e|].
      * destruct (Hrest e t2 Hr) as [Ha Hl]. split; [by apply (attempted_prefix event _ _ _ Hpre)|]. unfold sleeps in *. cbn in *. lia.
      * destruct (try_runs event n 0 t2 r _ Hr Hrest) as [Ha Hl].
        split; [by apply (attempted_prefix event _ _ _ Hpre)|]. unfold sleeps in *. cbn in *. lia.
    + destruct Hr as (u & t2 & -> & -> & ->). destruct u. split; [by apply (CutShort event [])|]. cbn. lia.
Qed.

End Outcome.

(** ** The stamp before the probe *)

Definition notProbing (R : Type) (c : Call R) : bool := match c with CFindIDs _ _ _ => false | _ => true end.

Definition isProbe (e : CallEv) : bool := negb (evOk notProbing e).

(** Every probe of the trace comes after [x]. *)
Definition probesAfter (x : CallEv) (tr : list CallEv) : Prop :=
  forall i e, tr !! i = Some e -> isProbe e = true -> x ∈ take i tr.

Lemma probesAfter_none x tr : Forall (fun e => evOk notProbing e = true) tr -> probesAfter x tr.
Proof. intros Hf i e Hi Hp. eapply Forall_lookup_1 in Hf; [|exact Hi]. unfold isProbe in Hp. by rewrite Hf in Hp. Qed.

Lemma probesAfter_app x k l : probesAfter x k -> probesAfter x l -> probesAfter x (k ++ l).
Proof.
  intros Hk Hl i e Hi Hp. apply lookup_app_Some in Hi as [Hi|[Hlen Hi]].
  - rewrite take_app_le by (apply lookup_lt_Some in Hi; lia). by eapply Hk.
  - rewrite take_app_ge by lia. apply elem_of_app. right. by eapply Hl.
Qed.

Lemma probesAfter_first x tr : isProbe x = false -> probesAfter x (x :: tr).
Proof. intros Hx [|i] e Hi Hp; cbn in *; [simplify_eq; congruence|]. set_solver. Qed.

Lemma noProbes_runs {A} (p : SyncM A) tr a x : allCalls notProbing p -> runs p tr a -> probesAfter x tr.
Proof. intros Hp Hr. by eapply probesAfter_none, allCalls_runs. Qed.

Lemma projecting_notProbing : projecting notProbing.
Proof. repeat split. Qed.
