(* ===== verification/SyncClaims.v ===== *)
(** * Theorems on the sync engine

    The delete handshake over every interleaving, and the runs where it fails; what
    an event's processing reports and in which order it reaches the store. *)

From S2P Require Import Prelude GoStrings Errors Mongo Projection ProjectionProps ProjectionOwn Consult Sync SyncProps SyncRuns ProjectionClaims.
From stdpp Require Import base gmap strings list fin_maps relations.
From Stdlib Require Import ZArith Lia.

Open Scope string_scope.
Open Scope list_scope.
Open Scope Z_scope.
Open Scope sync_scope.


(** ** Bounds of the routing *)

Lemma fnv32a_bounds s h : 0 <= h < 2 ^ 32 -> 0 <= fnv32a s h < 2 ^ 32.
Proof. revert h. induction s as [|c s IH]; intros h Hh; [done|]. cbn. apply IH, Z.mod_pos_bound. lia. Qed.

(** The worker of an aggregate exists: its bucket is within the pool. *)
Theorem bucket_is_a_worker (aggregateID : string) (workers : Z) :
  1 <= workers < 2 ^ 32 -> 0 <= bucketOf aggregateID workers < workers.
Proof.
  intros Hw. unfold bucketOf. destruct (Z.leb_spec workers 1); [lia|].
  rewrite (Z.mod_small workers) by lia. apply Z.mod_pos_bound. lia.
Qed.

(** ** Outcomes *)

Section Runs.
Context (std : GoStd) (floatToInt : string -> Z) (order : GroupOrder) (index : viewIndex).

(** An event whose payload does not decode is parked, and the attempt counts as done. *)
Lemma undecodable_is_parked (event : kafkaEvent) (tr : list CallEv) res :
  decodeRawPayload (ke_Payload event) = None -> runs (process std floatToInt order index event) tr res ->
  exists cause r, tr = [Ev (CPark event cause) r].
Proof. intros Hd Hr. unfold process in Hr. rewrite Hd in Hr. destruct Hr as (r & t & -> & -> & _). eauto. Qed.

(** C15: Whatever the calls answer, an event is reported exactly once, at the end, and
    waits between at most five attempts.  Reported as done, it was decoded and an attempt
    met every obligation; or the last call was its park and the ledger took it; or the last
    call was its park and the ledger refused it, which the engine does not report: that is
    the one way an event is done and neither projected nor kept for replay (see
    [refused_park_is_reported_done]).  Handed back, the context had ended. *)
Theorem event_is_projected_parked_or_refused (event : kafkaEvent) (tr : list CallEv) :
  runs (processToOutcome std floatToInt order index event) tr tt ->
  (length (sleeps tr) <= 4)%nat /\
  exists body how, tr = body ++ [Ev (CComplete how) tt] /\ completions body = [] /\
  match how with
  | CompletionDone =>
      (exists pre mid raw, body = pre ++ mid /\ decodeRawPayload (ke_Payload event) = Some raw /\
         runs (process std floatToInt order index event) mid None) \/
      (exists pre cause, body = pre ++ [Ev (CPark event cause) None]) \/
      (exists pre cause refusal, body = pre ++ [Ev (CPark event cause) (Some refusal)])
  | CompletionFailed => exists pre, (exists n, body = pre ++ [Ev (CSleepBackoff n) false]) \/ body = pre ++ [Ev CCtxEnded true]
  end.
Proof.
  intros Hr. apply runs_sbind in Hr as (r & t1 & t2 & -> & H1 & Hr).
  destruct (attempts_runs std floatToInt order index event _ _ _ _ _ H1) as [Ha Hl]. cbn in Hl.
  destruct Ha as [pre mid Hp Hm|pre n Hp|t e Ht].
  - destruct Hr as [-> _]. rewrite app_nil_r. split; [done|]. exists (pre ++ mid), CompletionDone.
    destruct (process_silent _ _ _ _ _ _ _ Hm) as [Hc _].
    split_and!; [by rewrite <- app_assoc|by rewrite completions_app, Hp, Hc|].
    destruct (decodeRawPayload (ke_Payload event)) as [raw|] eqn:Hd; [left; eauto 6|right].
    destruct (undecodable_is_parked event mid None Hd Hm) as (cause & [refusal|] & ->); [right|left]; eauto.
  - destruct Hr as [-> _]. rewrite app_nil_r. split; [done|]. exists (pre ++ [Ev (CSleepBackoff n) false]), CompletionFailed.
    split_and!; [by rewrite <- app_assoc|by rewrite completions_app, Hp|]. eauto.
  - destruct Hr as (ended & t3 & -> & Hr). destruct ended.
    + destruct Hr as (u & t4 & -> & -> & _). destruct u. split; [by rewrite sleeps_app, length_app, Nat.add_0_r|].
      exists (t ++ [Ev CCtxEnded true]), CompletionFailed.
      split_and!; [by rewrite <- app_assoc|by rewrite completions_app, Ht|]. eauto.
    + destruct Hr as (p & t4 & -> & u & t5 & -> & -> & _). destruct u. split; [by rewrite sleeps_app, length_app, Nat.add_0_r|].
      exists ((t ++ [Ev CCtxEnded false]) ++ [Ev (CPark event e) p]), CompletionDone.
      split_and!; [by rewrite <- !app_assoc|by rewrite !completions_app, Ht|]. right. destruct p; [right|left]; eauto.
Qed.

(** In every run of an event the document of each view rooted at its table is attempted,
    whatever the other obligations did, and without an error only if it succeeded. *)
Theorem own_documents_are_always_attempted (event : kafkaEvent) (raw : gmap string JVal) (tr : list CallEv)
    (res : option GoErr) (view : ViewDefinition) :
  decodeRawPayload (ke_Payload event) = Some raw -> runs (process std floatToInt order index event) tr res ->
  view ∈ default [] (ix_byPGTable index !! ke_AggregateType event) ->
  exists t1 t2 t3 errs, tr = t1 ++ t2 ++ t3 /\
    runs (projectOwnView std floatToInt order event raw (rawPayloadIDs raw) view) t2 errs /\ (res = None -> errs = []).
Proof.
  intros Hraw Hr Hview.
  destruct (process_runs std floatToInt order index event raw tr res Hraw Hr)
    as (own & base & role & rooted & pull & t1 & t2 & t3 & t4 & t5 & -> & H1 & _ & _ & _ & _ & ->).
  apply runs_sbind in H1 as (errs & u1 & u2 & -> & H1 & [-> ->]).
  destruct (runs_eachCollect _ _ _ _ H1 view Hview) as (v1 & v2 & v3 & e & -> & Hv & He).
  exists v1, v2, (v3 ++ [] ++ t2 ++ t3 ++ t4 ++ t5), e. split_and!; [by rewrite <- !app_assoc|done|].
  intros Hnone. apply He. apply joinErrs_none in Hnone. apply app_eq_nil in Hnone as [Hw _].
  by apply wrapped_none, joinErrs_none in Hw.
Qed.

(** C18: For an event of a role, the base revision is in the registry before any search for
    the documents to fan out to. *)
Theorem stamp_precedes_the_probe (event : kafkaEvent) (raw : gmap string JVal) (tr : list CallEv) (res : option GoErr)
    (baseTable : string) :
  decodeRawPayload (ke_Payload event) = Some raw -> runs (process std floatToInt order index event) tr res ->
  ix_baseOfRole index !! ke_AggregateType event = Some baseTable -> ix_bySharedBase index !! ke_AggregateType event = None ->
  0 < pi_BaseRevision (rawPayloadIDs raw) ->
  probesAfter (Ev (CApply ProjectionStateCollectionName (baseRevisionID baseTable (pi_BaseID (rawPayloadIDs raw)))
    [guardedSetStage "base_revision" ∅ (pi_BaseRevision (rawPayloadIDs raw))] true) None) tr.
Proof.
  intros Hraw Hr Hrole Hbase Hrev.
  destruct (process_runs std floatToInt order index event raw tr res Hraw Hr)
    as (own & base & role & rooted & pull & t1 & t2 & t3 & t4 & t5 & -> & H1 & H2 & H3 & H4 & H5 & _).
  apply probesAfter_app; [eapply noProbes_runs, H1; apply allCalls_ownViews, projecting_notProbing|].
  apply probesAfter_app.
  { unfold baseTrigger in H2. rewrite Hbase in H2. destruct H2 as [-> _]. by intros i e Hi. }
  apply probesAfter_app; [|apply probesAfter_app;
    [eapply noProbes_runs, H4; apply allCalls_rooted, projecting_notProbing
    |eapply noProbes_runs, H5; apply allCalls_pullTrigger, projecting_notProbing]].
  unfold roleTrigger in H3. rewrite Hrole in H3. destruct (String.eqb _ _); [destruct H3 as [-> _]; by intros i e Hi|].
  unfold stampBaseRevision in H3. rewrite (proj2 (Z.leb_gt _ _) Hrev) in H3.
  destruct H3 as ([e|] & t & -> & Hr3); [|by apply probesAfter_first].
  destruct Hr3 as [-> _]. by apply probesAfter_none; repeat constructor.
Qed.

End Runs.

(** ** Sample runs *)

Module ShopSync.
Import ShopViews Reference.

(** The text of an instant is its decimal here. *)
Definition std : GoStd := mkGoStd atoi (fun t => Some t) (fun _ => None) (fun _ => None).
Definition floatToInt : string -> Z := fun _ => 0.
Definition slot (view : string) : string := view.

(** An order whose creation column is [born]. *)
Definition orders (born : string) : ViewSchema := mkViewSchema "orders" "id" "revision" [] ∅ None {[born := CTTime]}.
Definition ordersView (born : string) : ViewDefinition := mkView "orders" (orders born) false false [] [] [].

Definition rawEvent (born rev created : string) : gmap string JVal :=
  {["_ids" := JObj {["id" := JStr "o1"; "revision" := JNum rev; "created_at" := JStr created]}; born := JStr created]}.

Definition worker (born eventType rev created : string) : Worker :=
  mkWorker sorted (mkEvent "orders" eventType "o1" (Some (rawEvent born rev created))) (rawEvent born rev created).

Definition prog (born : string) (k : Worker) : SyncM (list GoErr) := workerProg floatToInt std (ordersView born) k.

(** The events of a list, one after the other. *)
Definition runAll (born : string) (ks : list Worker) (w : World) : World :=
  foldl (fun w k => (runProg slot 1 (prog born k) w).1) w ks.




Definition inserted := worker "created_at" "INSERTED" "1" "5000".





(** *** A second life *)

(** A deterministic id that is deleted, born again and deleted again: the tombstone of
    the first life, at a higher revision, stays, so a redelivered insert of the second
    life is checked against the wrong birth and its document stays in the view. *)
Theorem second_life_zombie_survives :
  let first := runAll "created_at" [worker "created_at" "INSERTED" "1" "5000"; worker "created_at" "DELETED" "5" "5000"] ∅ in
  let second := runAll "created_at" [worker "created_at" "INSERTED" "1" "90000"; worker "created_at" "DELETED" "2" "90000"] first in
  docAt first "orders" "o1" = None /\ docAt second "orders" "o1" = None /\
  is_Some (docAt (runAll "created_at" [worker "created_at" "INSERTED" "1" "90000"] second) "orders" "o1").
Proof. split_and!; [vm_compute; reflexivity..|]. apply (bool_decide_unpack _). vm_compute. exact I. Qed.

(** The guarded delete reads the column [created_at], whatever column the schema declares
    for it: born again under the same id within the tombstone's life, the document
    stays when the column has that name and is removed when it has another. *)
Theorem rebirth_depends_on_the_column_name :
  let lives born := [worker born "INSERTED" "1" "5000"; worker born "DELETED" "5" "5000"; worker born "INSERTED" "1" "90000"] in
  is_Some (docAt (runAll "created_at" (lives "created_at") ∅) "orders" "o1") /\
  docAt (runAll "born_on" (lives "born_on") ∅) "orders" "o1" = None.
Proof. split; [apply (bool_decide_unpack _); vm_compute; exact I|vm_compute; reflexivity]. Qed.

(** *** Traces *)

(** The trace of a faultless run. *)
Fixpoint traceProg {A} (p : SyncM A) (w : World) : list CallEv * A :=
  match p with
  | SRet a => ([], a)
  | SCall c k =>
      let r := answer slot 1 c w in
      let t := traceProg (k r) (effect c w) in (Ev c r :: t.1, t.2)
  end.

Lemma traceProg_runs {A} (p : SyncM A) : forall w, runs p (traceProg p w).1 (traceProg p w).2.
Proof. induction p as [a|R c k IH]; intros w; [done|]. cbn. eauto. Qed.

Definition customersView : ViewDefinition := mkView "customers" customer false false [] [] [].
Definition shopIndex : viewIndex := buildViewIndex [ordersView "created_at"; customersView].

Definition orderEvent : kafkaEvent := wk_event inserted.

Definition customerRaw : gmap string JVal :=
  {["_ids" := JObj {["id" := JStr "c1"; "revision" := JNum "1"; "base_id" := JStr "p1"; "base_revision" := JNum "3"]};
    "note" := JStr "a"; "name" := JStr "Ann"]}.

Definition customerEvent : kafkaEvent := mkEvent "customers" "INSERTED" "c1" (Some customerRaw).

Definition outcomeTrace : list CallEv := (traceProg (processToOutcome std floatToInt sorted shopIndex orderEvent) ∅).1.
Definition customerRun : list CallEv * option GoErr := traceProg (process std floatToInt sorted shopIndex customerEvent) ∅.

Lemma event_is_projected_parked_or_refused_witness : (length (sleeps outcomeTrace) <= 4)%nat /\ completions outcomeTrace = [CompletionDone].
Proof.
  split; [|vm_compute; reflexivity]. apply (event_is_projected_parked_or_refused std floatToInt sorted shopIndex orderEvent outcomeTrace).
  exact (traceProg_runs (processToOutcome std floatToInt sorted shopIndex orderEvent) ∅).
Defined.

(** An event whose payload does not decode, parked while the ledger is out: it is
    reported as done, and neither the views nor the ledger have it. *)
Theorem refused_park_is_reported_done :
  let event := mkEvent "orders" "INSERTED" "o1" None in
  let cause := Some (ELeaf "undecodable payload") in
  runs (processToOutcome std floatToInt sorted shopIndex event)
    [Ev (CPark event cause) (Some (ELeaf "ledger unavailable")); Ev (CComplete CompletionDone) tt] tt.
Proof. repeat eexists. Qed.

Lemma own_documents_are_always_attempted_witness :
  exists t1 t2 t3 errs, customerRun.1 = t1 ++ t2 ++ t3 /\
    runs (projectOwnView std floatToInt sorted customerEvent customerRaw (rawPayloadIDs customerRaw) customersView) t2 errs /\
    (customerRun.2 = None -> errs = []).
Proof.
  apply (own_documents_are_always_attempted std floatToInt sorted shopIndex customerEvent customerRaw).
  - reflexivity.
  - apply traceProg_runs.
  - apply list_elem_of_singleton. reflexivity.
Defined.

Lemma stamp_precedes_the_probe_witness :
  probesAfter (Ev (CApply ProjectionStateCollectionName (baseRevisionID "people" "p1")
    [guardedSetStage "base_revision" ∅ 3] true) None) customerRun.1 /\
  existsb isProbe customerRun.1 = true.
Proof.
  split; [|vm_compute; reflexivity].
  apply (stamp_precedes_the_probe std floatToInt sorted shopIndex customerEvent customerRaw customerRun.1 customerRun.2 "people").
  - reflexivity.
  - apply traceProg_runs.
  - vm_compute. reflexivity.
  - vm_compute. reflexivity.
  - vm_compute. reflexivity.
Defined.

Lemma bucket_is_a_worker_witness : 0 <= bucketOf "o1" 8 < 8.
Proof. apply (bucket_is_a_worker "o1" 8). lia. Defined.

End ShopSync.
