(* ===== verification/Rebuild.v ===== *)
(** * Blue-green rebuilds of a view

    [infra/db/query/resolver.go] (which physical collection a view resolves to),
    [slots.go] and [view_registry.go] (the registry row of a view), [drift.go] (what a
    boot decides for a view), [verify.go] and [rebuild.go] (the rebuild itself).

    [ExecuteRebuild] is a program of type [RebM]: a tree of the calls it makes to the
    lock, the registry, the resolver, the composer and the store, with a continuation
    for every answer.  The workers of a backfill take their batches in an order that is
    a parameter, and each first looks at the context ([RCtxDone]), whose answer is
    arbitrary.  Log lines are left out. *)

From S2P Require Import Prelude GoStrings Errors Mongo Projection Consult.
From stdpp Require Import base gmap strings list fin_maps.
From Stdlib Require Import Ascii ZArith Lia.

Open Scope string_scope.
Open Scope list_scope.

(** ** Slots ([resolver.go]) *)

Definition slotSuffix0 := "__0".
Definition slotSuffix1 := "__1".

Definition PhysicalCollectionNames (viewName : string) : list string :=
  [viewName; viewName +:+ slotSuffix0; viewName +:+ slotSuffix1].

(** [strings.TrimSuffix] when [strings.HasSuffix]. *)
Fixpoint cutSuffix (suffix s : string) : option string :=
  if String.eqb s suffix then Some ""
  else match s with
       | EmptyString => None
       | String c rest => String c <$> cutSuffix suffix rest
       end.

(** Whether the name is refused; its text is the diagnostic's. *)
Definition ReservedNameSuffixProblem (name : string) : bool :=
  bool_decide (is_Some (cutSuffix slotSuffix0 name)) || bool_decide (is_Some (cutSuffix slotSuffix1 name)).

Definition ViewNameOf (collection : string) : string :=
  match cutSuffix slotSuffix0 collection with
  | Some name => name
  | None => default collection (cutSuffix slotSuffix1 collection)
  end.

(** The cached slots of a view; empty is NULL. *)
Record viewPointer := mkPointer { vp_active : string; vp_shadow : string }.

Record ViewResolver := mkResolver {
  vr_lease : Z;
  vr_cache : gmap string viewPointer;
  vr_lastRefresh : Z
}.

Definition activeOf (cache : gmap string viewPointer) (name : string) : string :=
  match cache !! name with
  | Some p => if String.eqb (vp_active p) "" then name else vp_active p
  | None => name
  end.

Definition Active (r : ViewResolver) (name : string) : string := activeOf (vr_cache r) name.

Definition inactiveSlot (viewName active : string) : string :=
  if String.eqb active (viewName +:+ slotSuffix0) then viewName +:+ slotSuffix1
  else if String.eqb active (viewName +:+ slotSuffix1) then viewName +:+ slotSuffix0
  else viewName +:+ slotSuffix0.

Definition Shadow (r : ViewResolver) (name : string) : string := inactiveSlot name (Active r name).

Definition ShadowActive (r : ViewResolver) (name : string) : option string :=
  match vr_cache r !! name with
  | Some p => if String.eqb (vp_shadow p) "" then None else Some (vp_shadow p)
  | None => None
  end.

(** ** The registry ([view_registry.go], [slots.go]) *)

Inductive ViewRegistryStatus := ViewRegistryStatusDone | ViewRegistryStatusProcessing.

#[export] Instance ViewRegistryStatus_eq_dec : EqDecision ViewRegistryStatus.
Proof. solve_decision. Defined.

(** A row of [omnicore_mongo_views]; [None] is NULL. *)
Record ViewRegistryRow := mkRow {
  rr_Version : Z;
  rr_RebuildHash : string;
  rr_ArtifactHash : string;
  rr_CombinedHash : string;
  rr_PreviousVersion : option Z;
  rr_PreviousCombinedHash : option string;
  rr_PreviousAppliedAt : option Z;
  rr_Status : ViewRegistryStatus;
  rr_StartedAt : option Z;
  rr_PID : option string;
  rr_Host : option string;
  rr_AppliedAt : Z;
  rr_AppliedBy : string;
  rr_CodeVersion : option string;
  rr_ActiveCollection : option string;
  rr_ShadowCollection : option string
}.

(** The rows by [view_name]. *)
Abbreviation Registry := (gmap string ViewRegistryRow).

(** [InitViewRegistryInput] and [EndRebuildInput]. *)
Record RegistryInput := mkInput {
  ri_ViewName : string;
  ri_Version : Z;
  ri_RebuildHash : string;
  ri_ArtifactHash : string;
  ri_CombinedHash : string;
  ri_AppliedBy : string;
  ri_CodeVersion : string;
  ri_Now : Z
}.

(** [NULLIF(x, '')] *)
Definition nullIf (x : string) : option string := if String.eqb x "" then None else Some x.

(** The INSERT; it conflicts with a row of the same view. *)
Definition InitViewRegistry (i : RegistryInput) (reg : Registry) : option Registry :=
  match reg !! ri_ViewName i with
  | Some _ => None
  | None =>
      Some (<[ri_ViewName i := mkRow (ri_Version i) (ri_RebuildHash i) (ri_ArtifactHash i) (ri_CombinedHash i) None None None
        ViewRegistryStatusDone None None None (ri_Now i) (ri_AppliedBy i) (nullIf (ri_CodeVersion i)) None None]> reg)
  end.

(** The UPDATEs, which match no row when there is none. *)
Definition BeginRebuild (view : string) (now : Z) (pid host : string) (reg : Registry) : Registry :=
  alter (fun r => mkRow (rr_Version r) (rr_RebuildHash r) (rr_ArtifactHash r) (rr_CombinedHash r) (rr_PreviousVersion r)
    (rr_PreviousCombinedHash r) (rr_PreviousAppliedAt r) ViewRegistryStatusProcessing (Some now) (Some pid) (Some host)
    (rr_AppliedAt r) (rr_AppliedBy r) (rr_CodeVersion r) (rr_ActiveCollection r) (rr_ShadowCollection r)) view reg.

Definition EndRebuild (i : RegistryInput) (reg : Registry) : Registry :=
  alter (fun r => mkRow (ri_Version i) (ri_RebuildHash i) (ri_ArtifactHash i) (ri_CombinedHash i) (Some (rr_Version r))
    (Some (rr_CombinedHash r)) (Some (rr_AppliedAt r)) ViewRegistryStatusDone None None None (ri_Now i) (ri_AppliedBy i)
    (nullIf (ri_CodeVersion i)) (rr_ActiveCollection r) (rr_ShadowCollection r)) (ri_ViewName i) reg.

Definition withSlots (active shadow : option string) (r : ViewRegistryRow) : ViewRegistryRow :=
  mkRow (rr_Version r) (rr_RebuildHash r) (rr_ArtifactHash r) (rr_CombinedHash r) (rr_PreviousVersion r)
    (rr_PreviousCombinedHash r) (rr_PreviousAppliedAt r) (rr_Status r) (rr_StartedAt r) (rr_PID r) (rr_Host r)
    (rr_AppliedAt r) (rr_AppliedBy r) (rr_CodeVersion r) active shadow.

Definition beginSlotRebuild (view shadowName : string) (reg : Registry) : Registry :=
  alter (fun r => withSlots (rr_ActiveCollection r) (Some shadowName) r) view reg.

(** Only a row with a shadow is matched. *)
Definition flipSlot (view : string) (reg : Registry) : Registry :=
  alter (fun r => match rr_ShadowCollection r with
                  | Some s => withSlots (Some s) None r
                  | None => r
                  end) view reg.

Definition abortSlotRebuild (view : string) (reg : Registry) : Registry :=
  alter (fun r => withSlots (rr_ActiveCollection r) None r) view reg.

(** ** Refreshing a resolver *)

Definition pointerOf (r : ViewRegistryRow) : viewPointer :=
  mkPointer (default "" (rr_ActiveCollection r)) (default "" (rr_ShadowCollection r)).

(** [rows] is what the query read, [None] when it failed; [stamp] is the clock when
    the cache is swapped. *)
Definition Refresh (rows : option Registry) (stamp : Z) (r : ViewResolver) : option ViewResolver :=
  match rows with
  | None => None
  | Some reg => Some (mkResolver (vr_lease r) (pointerOf <$> reg) stamp)
  end.

(** [now] is the clock when it is asked. *)
Definition EnsureFresh (now : Z) (rows : option Registry) (stamp : Z) (r : ViewResolver) : option ViewResolver :=
  if Z.ltb (vr_lease r) (now - vr_lastRefresh r) then Refresh rows stamp r else Some r.

(** ** Drift ([drift.go]) *)

Inductive DriftDecision :=
| DriftNone | DriftFreshInit | DriftAlienData | DriftMongoWiped | DriftArtifactOnly | DriftForgotToBump
| DriftRebuildRequired | DriftDowngrade | DriftFreshBackfill.

#[export] Instance DriftDecision_eq_dec : EqDecision DriftDecision.
Proof. solve_decision. Defined.

Definition decideDrift (registry : option ViewRegistryRow) (populated sorPopulated : bool) (specVersion : Z)
  (specRebuildHash specCombinedHash : string) : DriftDecision :=
  match registry with
  | None => if populated then DriftAlienData else if sorPopulated then DriftFreshBackfill else DriftFreshInit
  | Some r =>
      if String.eqb (rr_CombinedHash r) specCombinedHash then
        if negb populated && sorPopulated then DriftMongoWiped else DriftNone
      else if Z.ltb (rr_Version r) specVersion then DriftRebuildRequired
      else if Z.ltb specVersion (rr_Version r) then DriftDowngrade
      else if String.eqb (rr_RebuildHash r) specRebuildHash then DriftArtifactOnly
      else DriftForgotToBump
  end.

Record DriftPlan := mkPlan {
  dp_View : ViewDefinition;
  dp_Decision : DriftDecision;
  dp_Registry : option ViewRegistryRow;
  dp_CurrentVersion : Z;
  dp_CurrentRebuildHash : string;
  dp_CurrentArtifactHash : string;
  dp_CurrentCombinedHash : string
}.

(** A report is the list of its plans. *)
Definition PlansBy (d : DriftDecision) (plans : list DriftPlan) : list DriftPlan :=
  List.filter (fun p => bool_decide (dp_Decision p = d)) plans.

Definition HasAny (decisions : list DriftDecision) (plans : list DriftPlan) : bool :=
  existsb (fun p => existsb (fun d => bool_decide (dp_Decision p = d)) decisions) plans.

Definition NeedsAction (plans : list DriftPlan) : bool :=
  existsb (fun p => negb (bool_decide (dp_Decision p = DriftNone))) plans.

Record RebuildConfig := mkRebuildConfig {
  rb_Orphan : string;
  rb_AppliedBy : string;
  rb_CodeVersion : string;
  rb_Workers : Z;
  rb_BatchSize : Z
}.

(** ** The store ([engine/mongo/mongo.go]) *)

Abbreviation IdentifiedStages := (string * list MStage)%type.

(** A float watermark is read as the composer reads it. *)
Definition toInt64 (floatToInt : string -> Z) (v : option MVal) : Z := watermarkOf floatToInt v.

(** The documents with one of the ids, by their watermark. *)
Definition RevisionsByIDs (floatToInt : string -> Z) (c : Collection) (ids : list string) : gmap string Z :=
  (fun d => toInt64 floatToInt (d !! DocRevisionField)) <$> filter (fun p => p.1 ∈ ids) c.

Definition SnapshotDocumentIDs (c : Collection) : gset string := dom c.

(** The updates of a bulk write in the order the server takes them; it is unordered. *)
Definition BulkApplyProjection `{Mongo} (c : Collection) (items : list IdentifiedStages) : Collection :=
  foldl (fun c it => ApplyProjection c it.1 it.2 true) c items.

Definition DeleteByIDs (c : Collection) (ids : list string) : Collection := filter (fun p => p.1 ∉ ids) c.

(** ** Programs *)

Inductive RCall : Type -> Type :=
| RActive (view : string) : RCall string
| RShadow (view : string) : RCall string
| RNow : RCall Z
| RAcquire (view : string) : RCall (GoErr + bool)
| RRelease (view : string) : RCall (option GoErr)
| RHasDocuments (coll : string) : RCall (GoErr + bool)
| RSorHasRows (view : string) : RCall (GoErr + bool)
| RReadRow (view : string) : RCall (GoErr + option ViewRegistryRow)
| RInit (i : RegistryInput) : RCall (option GoErr)
| RAbortSlot (view : string) : RCall (option GoErr)
| RBegin (view : string) (now : Z) : RCall (option GoErr)
| RBeginSlot (view shadow : string) : RCall (option GoErr)
| RFlip (view : string) : RCall (option GoErr)
| REnd (i : RegistryInput) : RCall (option GoErr)
| RRefresh : RCall (option GoErr)
| RWait : RCall (option GoErr)
| RDrop (coll : string) : RCall (option GoErr)
| RProvision (view coll : string) : RCall (option GoErr)
| RScanIDs (view since : string) : RCall (GoErr + list string * option GoErr)
| RCtxDone : RCall bool
| RCompose (view : string) (ids : list string) : RCall (GoErr + list Document)
| RBulkApply (coll : string) (items : list IdentifiedStages) : RCall (option GoErr)
| RSnapshot (coll : string) : RCall (GoErr + gset string)
| RStream (view : string) : RCall (GoErr + list (string * Z) * option GoErr)
| RRevisions (coll : string) (ids : list string) : RCall (GoErr + gmap string Z)
| RDeleteIDs (coll : string) (ids : list string) : RCall (option GoErr)
| RPage (view cursor : string) (limit : nat) : RCall (GoErr + list (string * Z))
| RCtxErr : RCall (option GoErr)
| RGrace : RCall (option GoErr)
| RThrottle (rows : nat) : RCall unit
| RShadowActive (view : string) : RCall (option string).

Inductive RebM (A : Type) : Type :=
| RRet (a : A)
| RDo {R : Type} (c : RCall R) (k : R -> RebM A).

Arguments RRet {A} a.
Arguments RDo {A R} c k.

Fixpoint rbind {A B} (p : RebM A) (f : A -> RebM B) : RebM B :=
  match p with
  | RRet a => f a
  | RDo c k => RDo c (fun r => rbind (k r) f)
  end.

Definition rcall {R} (c : RCall R) : RebM R := RDo c RRet.

Declare Scope rebuild_scope.
Delimit Scope rebuild_scope with rebuild.
Notation "x <- p ;; q" := (rbind p (fun x => q)) (at level 90, p at next level, right associativity) : rebuild_scope.
Notation "p ;;; q" := (rbind p (fun _ => q)) (at level 90, right associativity) : rebuild_scope.
Open Scope rebuild_scope.

(** [if err := p; err != nil { return err }; q], with the error wrapped. *)
Definition orWrap (what : string) (p q : RebM (option GoErr)) : RebM (option GoErr) :=
  err <- p;; match err with Some e => RRet (Some (EWrap what e)) | None => q end.

(** The same with the error as it is. *)
Definition orReturn (p q : RebM (option GoErr)) : RebM (option GoErr) :=
  err <- p;; match err with Some e => RRet (Some e) | None => q end.

(** The same on a call that returns a value. *)
Definition orFail {A} (what : string) (p : RebM (GoErr + A)) (q : A -> RebM (option GoErr)) : RebM (option GoErr) :=
  r <- p;; match r with inl e => RRet (Some (EWrap what e)) | inr a => q a end.

(** Consecutive pieces of at most [n] entries. *)
Fixpoint chunks {A} (fuel n : nat) (l : list A) : list (list A) :=
  match fuel, l with
  | _, [] => []
  | O, _ => []
  | S fuel, _ => take n l :: chunks fuel n (drop n l)
  end.

Section Programs.
(** The float reader of the composed document's watermark, and the order in which
    the workers take the batches. *)
Context (floatToInt : string -> Z) (order : list (list string) -> list (list string)).

Definition guardedItems (view : ViewDefinition) (composed : list Document) : list IdentifiedStages :=
  (fun doc => (match doc !! vs_idColumn (vd_schema view) with Some (MStr t) => t | _ => "<nil>" end,
               consultGuardedStages floatToInt view doc)) <$> composed.

(** [composeAndWrite] of the backfill, [recomposeInto] of the verification. *)
Definition recomposeInto (view : ViewDefinition) (target : string) (ids : list string) : RebM (option GoErr) :=
  r <- rcall (RCompose (vd_name view) ids);;
  match r with
  | inl e => RRet (Some e)
  | inr [] => RRet None
  | inr composed => rcall (RBulkApply target (guardedItems view composed))
  end.

(** The workers: the first error stays. *)
Fixpoint backfillBatches (view : ViewDefinition) (target : string) (batches : list (list string)) (firstErr : option GoErr) :
  RebM (option GoErr) :=
  match batches with
  | [] => RRet firstErr
  | batch :: rest =>
      done <- rcall RCtxDone;;
      if done : bool then backfillBatches view target rest firstErr
      else
        err <- recomposeInto view target batch;;
        backfillBatches view target rest (match firstErr with Some e => Some e | None => err end)
  end.

Definition rebuildBatchSize : nat := 1000.

Definition batchSizeOf (n : Z) : nat := if Z.leb n 0 then rebuildBatchSize else Z.to_nat n.

(** The scan may fail after it gave some ids; the last batch, which is not full, is
    only sent by a scan that ended well. *)
Definition backfillInto (view : ViewDefinition) (target since : string) (batchSize : Z) : RebM (option GoErr) :=
  scan <- rcall (RScanIDs (vd_name view) since);;
  match scan with
  | inl e => RRet (Some e)
  | inr (ids, scanErr) =>
      let all := chunks (S (length ids)) (batchSizeOf batchSize) ids in
      let full := List.filter (fun b => Nat.eqb (length b) (batchSizeOf batchSize)) all in
      backfillBatches view target (order (match scanErr with Some _ => full | None => all end)) scanErr
  end.

(** ** Verification ([verify.go]) *)

Definition verifyReconcileChunk : nat := 1000.

(** One batch of streamed rows: the ids whose document is absent or behind.  The
    revisions are a map by id. *)
Definition divergedOf (rows : list (string * Z)) (stored : gmap string Z) : list string :=
  let revs := foldl (fun m r => <[r.1 := r.2]> m) ∅ rows : gmap string Z in
  List.filter (fun id => match stored !! id with Some got => Z.ltb got (default 0%Z (revs !! id)) | None => true end) (fst <$> rows).

(** The batches of the stream, in order; [diverged] collects. *)
Fixpoint parityBatches (shadow : string) (batches : list (list (string * Z))) (diverged : list string) : RebM (GoErr + list string) :=
  match batches with
  | [] => RRet (inr diverged)
  | rows :: rest =>
      r <- rcall (RRevisions shadow (fst <$> rows));;
      match r with
      | inl e => RRet (inl (EWrap "read shadow revisions" e))
      | inr stored => parityBatches shadow rest (diverged ++ divergedOf rows stored)
      end
  end.

Fixpoint eachChunk (what : string) (l : list (list string)) (f : list string -> RebM (option GoErr)) : RebM (option GoErr) :=
  match l with
  | [] => RRet None
  | c :: rest => orWrap what (f c) (eachChunk what rest f)
  end.

Definition chunked {A} (l : list A) : list (list A) := chunks (S (length l)) verifyReconcileChunk l.

(** A stream that fails midway has compared its full batches before it ends with
    the error. *)
Definition verifyShadow (view : ViewDefinition) (shadow : string) : RebM (option GoErr) :=
  orFail "snapshot shadow ids" (rcall (RSnapshot shadow)) (fun shadowIDs =>
  orFail "scan source revisions" (rcall (RStream (vd_name view))) (fun stream =>
  let '(rows, streamErr) := stream in
  let all := chunked rows in
  let full := List.filter (fun b => Nat.eqb (length b) verifyReconcileChunk) all in
  parity <- parityBatches shadow (match streamErr with Some _ => full | None => all end) [];;
  match parity with
  | inl e => RRet (Some e)
  | inr diverged =>
      match streamErr with
      | Some e => RRet (Some e)
      | None =>
          orReturn (eachChunk "repair diverged ids" (chunked diverged) (recomposeInto view shadow))
          (eachChunk "delete shadow orphans" (chunked (elements (shadowIDs ∖ list_to_set (fst <$> rows))))
             (fun ids => rcall (RDeleteIDs shadow ids)))
      end
  end)).

(** ** The rebuild ([rebuild.go]) *)

Definition ErrRebuildLockHeld : GoErr := ELeaf "view rebuild lock held by another instance".

(** Best effort: its errors are logged. *)
Definition discardShadow (view shadow : string) : RebM unit :=
  rcall (RAbortSlot view);;; rcall (RDrop shadow);;; rcall RRefresh;;; RRet tt.

Definition inputOf (plan : DriftPlan) (cfg : RebuildConfig) (now : Z) : RegistryInput :=
  mkInput (vd_name (dp_View plan)) (dp_CurrentVersion plan) (dp_CurrentRebuildHash plan) (dp_CurrentArtifactHash plan)
    (dp_CurrentCombinedHash plan) (rb_AppliedBy cfg) (rb_CodeVersion cfg) now.

(** The registry row of the plan, re-read and created under the lock when the boot
    saw none. *)
Definition freshRow (plan : DriftPlan) (cfg : RebuildConfig) (now : Z) : RebM (GoErr + option ViewRegistryRow) :=
  let view := vd_name (dp_View plan) in
  match dp_Registry plan with
  | Some row => RRet (inr (Some row))
  | None =>
      r <- rcall (RReadRow view);;
      match r with
      | inl e => RRet (inl (EWrap "re-read registry under lock" e))
      | inr (Some row) => RRet (inr (Some row))
      | inr None =>
          err <- rcall (RInit (inputOf plan cfg now));;
          match err with
          | Some e => RRet (inl (EWrap "create registry row for fresh view" e))
          | None =>
              r <- rcall (RReadRow view);;
              RRet (match r with inl e => inl (EWrap "re-read registry after create" e) | inr row => inr row end)
          end
      end
  end.

(** The flag and the slot a crashed driver left. *)
Definition resetShadow (view : string) (row : option ViewRegistryRow) (q : RebM (option GoErr)) : RebM (option GoErr) :=
  match row ≫= rr_ShadowCollection with
  | None => q
  | Some stale =>
      orWrap "clear stale shadow flag" (rcall (RAbortSlot view))
      (rcall (RDrop stale);;;
       orWrap "refresh after shadow reset" (rcall RRefresh) q)
  end.

(** From the verified shadow to the end. *)
Definition promote (plan : DriftPlan) (cfg : RebuildConfig) : RebM (option GoErr) :=
  let view := vd_name (dp_View plan) in
  orWrap "flip slot" (rcall (RFlip view))
  (orWrap "refresh after flip" (rcall RRefresh)
  (now <- rcall RNow;;
   orWrap "end rebuild" (rcall (REnd (inputOf plan cfg now)))
   (rcall RWait))).

(** Steps 5 to 11, on the slot [shadow]. *)
Definition buildAndFlip (plan : DriftPlan) (cfg : RebuildConfig) (shadow : string) : RebM (option GoErr) :=
  let view := vd_name (dp_View plan) in
  orWrap "drop stale shadow" (rcall (RDrop shadow))
  (orWrap "provision shadow" (rcall (RProvision view shadow))
  (orWrap "begin slot rebuild" (rcall (RBeginSlot view shadow))
  (orWrap "refresh after begin" (rcall RRefresh)
  (orReturn (rcall RWait)
  (err <- backfillInto (dp_View plan) shadow "" (rb_BatchSize cfg);;
   match err with
   | Some e => discardShadow view shadow;;; RRet (Some (EWrap "backfill shadow" e))
   | None =>
       err <- verifyShadow (dp_View plan) shadow;;
       match err with
       | Some e => discardShadow view shadow;;; RRet (Some (EWrap "verify shadow" e))
       | None => promote plan cfg
       end
   end))))).

(** What runs under the lock. *)
Definition underLock (plan : DriftPlan) (cfg : RebuildConfig) (now : Z) (shadow : string) : RebM (option GoErr) :=
  let view := vd_name (dp_View plan) in
  r <- freshRow plan cfg now;;
  match r with
  | inl e => RRet (Some e)
  | inr row =>
      resetShadow view row
        (orWrap "begin rebuild" (rcall (RBegin view now)) (buildAndFlip plan cfg shadow))
  end.

(** The slots are read before the lock is taken; the lock is released on every way
    out. *)
Definition ExecuteRebuild (plan : DriftPlan) (cfg : RebuildConfig) : RebM (option GoErr) :=
  let view := vd_name (dp_View plan) in
  rcall (RActive view);;;
  shadow <- rcall (RShadow view);;
  now <- rcall RNow;;
  if negb (String.eqb (rb_Orphan cfg) "delete" || String.eqb (rb_Orphan cfg) "warn") then RRet (Some (ELeaf "cfg.Orphan invalid"))
  else
    lock <- rcall (RAcquire view);;
    match lock with
    | inl e => RRet (Some (EWrap "acquire rebuild lock" e))
    | inr acquired =>
        result <- (if acquired : bool then underLock plan cfg now shadow else RRet (Some (EWrap "held" ErrRebuildLockHeld)));;
        rcall (RRelease view);;;
        RRet result
    end.

(** What a boot writes for a view that has nothing to rebuild. *)
Definition InitRegistryOnly (plan : DriftPlan) (cfg : RebuildConfig) : RebM (option GoErr) :=
  now <- rcall RNow;; rcall (RInit (inputOf plan cfg now)).

Definition RefreshRegistryArtifactOnly (plan : DriftPlan) (cfg : RebuildConfig) : RebM (option GoErr) :=
  now <- rcall RNow;; rcall (REnd (inputOf plan cfg now)).

(** The operator's path: the active slot in place, without the lock. *)
Definition rebuildFromTable (view : ViewDefinition) (since : string) : RebM (option GoErr) :=
  active <- rcall (RActive (vd_name view));;
  backfillInto view active since 0.

(** [since] is the formatted instant; the full rebuild has none. *)
Definition RebuildView (view : ViewDefinition) : RebM (option GoErr) := rebuildFromTable view "".
Definition RebuildViewSince (view : ViewDefinition) (since : string) : RebM (option GoErr) := rebuildFromTable view since.

End Programs.

(** ** Detection ([drift.go]) *)

(** The version and the hashes a declared view has now ([view_hash.go]). *)
Record ViewSpec := mkSpec { sp_Version : Z; sp_RebuildHash : string; sp_ArtifactHash : string; sp_CombinedHash : string }.

Fixpoint DetectViewDrift (specOf : ViewDefinition -> ViewSpec) (views : list ViewDefinition) : RebM (GoErr + list DriftPlan) :=
  match views with
  | [] => RRet (inr [])
  | v :: rest =>
      row <- rcall (RReadRow (vd_name v));;
      match row with
      | inl e => RRet (inl e)
      | inr registry =>
          active <- rcall (RActive (vd_name v));;
          has <- rcall (RHasDocuments active);;
          match has with
          | inl e => RRet (inl e)
          | inr populated =>
              sor <- rcall (RSorHasRows (vd_name v));;
              match sor with
              | inl e => RRet (inl e)
              | inr sorPopulated =>
                  let sp := specOf v in
                  let plan := mkPlan v
                    (decideDrift registry populated sorPopulated (sp_Version sp) (sp_RebuildHash sp) (sp_CombinedHash sp))
                    registry (sp_Version sp) (sp_RebuildHash sp) (sp_ArtifactHash sp) (sp_CombinedHash sp) in
                  more <- DetectViewDrift specOf rest;;
                  RRet (match more with inl e => inl e | inr plans => inr (plan :: plans) end)
              end
          end
      end
  end.
