(* ===== verification/RebuildRuns.v ===== *)
(** * Runs of a rebuild

    The runs of a program of [Rebuild] in a world that other processes change between
    its calls, the worlds of the registry and of a pod's pointer cache, and the programs
    that keep off a slot. *)

From S2P Require Import Prelude GoStrings Errors Mongo Projection Consult Rebuild.
From stdpp Require Import base gmap strings list fin_maps.
From Stdlib Require Import Ascii ZArith Lia.

Open Scope string_scope.
Open Scope list_scope.
Open Scope rebuild_scope.

(** ** Runs *)

Inductive REvent :=
| REv {R : Type} (c : RCall R) (r : R).

Section Runs.
(** What others may do between two calls, and what a call may answer and do. *)
Context {W : Type} (rely : W -> W -> Prop) (allowed : forall R, RCall R -> W -> R -> W -> Prop).

(** The calls a run has made so far, each with the world it was made in; a run may
    stop anywhere. *)
Inductive partialRun {A} : W -> RebM A -> list (W * REvent) -> W -> Prop :=
| PStop w p : partialRun w p [] w
| PCall w w1 w2 w3 R (c : RCall R) k r tr :
    rely w w1 -> allowed R c w1 r w2 -> partialRun w2 (k r) tr w3 -> partialRun w (RDo c k) ((w1, REv c r) :: tr) w3.

(** A run to the end, with its result. *)
Inductive fullRun {A} : W -> RebM A -> list (W * REvent) -> A -> W -> Prop :=
| FRet w a : fullRun w (RRet a) [] a w
| FCall w w1 w2 w3 R (c : RCall R) k r tr a :
    rely w w1 -> allowed R c w1 r w2 -> fullRun w2 (k r) tr a w3 -> fullRun w (RDo c k) ((w1, REv c r) :: tr) a w3.

Lemma partialRun_inv {A} w (p : RebM A) tr w' :
  partialRun w p tr w' ->
  match p with
  | RRet _ => tr = []
  | RDo c k => tr = [] \/ exists w1 w2 r tr', tr = (w1, REv c r) :: tr' /\ rely w w1 /\ allowed _ c w1 r w2 /\ partialRun w2 (k r) tr' w'
  end.
Proof using. intros Hrun. destruct Hrun as [w p|w w1 w2 w3 R c k r tr Hrely Hall Hrun]; [destruct p; [done|by left]|]. right. by exists w1, w2, r, tr. Qed.

Lemma fullRun_inv {A} w (p : RebM A) tr a w' :
  fullRun w p tr a w' ->
  match p with
  | RRet b => tr = [] /\ a = b /\ w' = w
  | RDo c k => exists w1 w2 r tr', tr = (w1, REv c r) :: tr' /\ rely w w1 /\ allowed _ c w1 r w2 /\ fullRun w2 (k r) tr' a w'
  end.
Proof using. intros Hrun. destruct Hrun as [w b|w w1 w2 w3 R c k r tr a Hrely Hall Hrun]; [done|]. by exists w1, w2, r, tr. Qed.

(** A run of [p] and then [f] has stopped in [p], or has ended it. *)
Lemma partialRun_bind {A B} (p : RebM A) (f : A -> RebM B) : forall w tr w',
  partialRun w (rbind p f) tr w' ->
  partialRun w p tr w' \/ exists tr1 tr2 a w1, tr = tr1 ++ tr2 /\ fullRun w p tr1 a w1 /\ partialRun w1 (f a) tr2 w'.
Proof using.
  induction p as [a|R c k IH]; intros w tr w' Hrun; cbn in Hrun.
  - right. exists [], tr, a, w. split_and!; [done|constructor|done].
  - destruct (partialRun_inv _ _ _ _ Hrun) as [->|(w1&w2&r&tr'&->&Hrely&Hall&Hrun')].
    + left. inversion Hrun; subst. constructor.
    + destruct (IH _ _ _ _ Hrun') as [Hp|(tr1&tr2&a&w3&->&Hf&Hp)]; [left; by econstructor|].
      right. exists ((w1, REv c r) :: tr1), tr2, a, w3. split_and!; [done|by econstructor|done].
Qed.

Lemma fullRun_bind {A B} (p : RebM A) (f : A -> RebM B) : forall w tr b w',
  fullRun w (rbind p f) tr b w' -> exists tr1 tr2 a w1, tr = tr1 ++ tr2 /\ fullRun w p tr1 a w1 /\ fullRun w1 (f a) tr2 b w'.
Proof using.
  induction p as [a|R c k IH]; intros w tr b w' Hrun; cbn in Hrun.
  - exists [], tr, a, w. split_and!; [done|constructor|done].
  - destruct (fullRun_inv _ _ _ _ _ Hrun) as (w1&w2&r&tr'&->&Hrely&Hall&Hrun').
    destruct (IH _ _ _ _ _ Hrun') as (tr1&tr2&a&w3&->&Hf&Hp).
    exists ((w1, REv c r) :: tr1), tr2, a, w3. split_and!; [done|by econstructor|done].
Qed.

Lemma fullRun_call {R} (c : RCall R) w tr r w' : fullRun w (rcall c) tr r w' -> exists w1, tr = [(w1, REv c r)] /\ rely w w1 /\ allowed _ c w1 r w'.
Proof using.
  intros Hrun. destruct (fullRun_inv _ _ _ _ _ Hrun) as (w1&w2&r'&tr'&->&Hrely&Hall&Hrun').
  apply fullRun_inv in Hrun' as (->&->&->). by exists w1.
Qed.

End Runs.

(** ** The registry and a pod's pointers *)

(** The registry, and the pointer cache of the pod that rebuilds. *)
Record RWorld := mkRWorld { w_registry : Registry; w_cache : gmap string viewPointer }.

(** The collection the registry says serves the view. *)
Definition servingSlot (reg : Registry) (view : string) : string := activeOf (pointerOf <$> reg) view.

(** No view is being rebuilt into the slot that serves it. *)
Definition ShadowApart (reg : Registry) (view : string) : Prop :=
  forall row s, reg !! view = Some row -> rr_ShadowCollection row = Some s -> s <> servingSlot reg view.

(** What a registry write does when it reaches the database. *)
Definition effect {R} (pid host : string) (c : RCall R) (reg : Registry) : Registry :=
  match c with
  | RInit i => default reg (InitViewRegistry i reg)
  | RAbortSlot view => abortSlotRebuild view reg
  | RBegin view now => BeginRebuild view now pid host reg
  | RBeginSlot view shadow => beginSlotRebuild view shadow reg
  | RFlip view => flipSlot view reg
  | REnd i => EndRebuild i reg
  | _ => reg
  end.

(** What a call may answer: a write may fail before or after its effect; the lock, the
    composer, the store and the clock answer anything. *)
Definition allowed (pid host : string) R (c : RCall R) : RWorld -> R -> RWorld -> Prop :=
  let write := fun (w : RWorld) (r : option GoErr) (w' : RWorld) =>
    w_cache w' = w_cache w /\
    (w_registry w' = effect pid host c (w_registry w) \/ (is_Some r /\ w_registry w' = w_registry w)) in
  match c in RCall R return RWorld -> R -> RWorld -> Prop with
  | RActive view => fun w r w' => r = activeOf (w_cache w) view /\ w' = w
  | RShadow view => fun w r w' => r = inactiveSlot view (activeOf (w_cache w) view) /\ w' = w
  | RShadowActive view => fun w r w' =>
      w' = w /\ r = (p ← w_cache w !! view; if String.eqb (vp_shadow p) "" then None else Some (vp_shadow p))
  | RReadRow view => fun w r w' => w' = w /\ (r = inr (w_registry w !! view) \/ exists e, r = inl e)
  | RInit _ | RAbortSlot _ | RBegin _ _ | RBeginSlot _ _ | RFlip _ | REnd _ => write
  | RRefresh => fun w r w' =>
      w_registry w' = w_registry w /\ (w_cache w' = pointerOf <$> w_registry w \/ (is_Some r /\ w_cache w' = w_cache w))
  | _ => fun w _ w' => w' = w
  end.

(** What others may do between two calls: anything that leaves the serving slot of the
    view where it is and its shadow, if any, apart from it; the pod's cached pointer may
    be refreshed. *)
Definition rely (view : string) (w w' : RWorld) : Prop :=
  servingSlot (w_registry w') view = servingSlot (w_registry w) view /\ ShadowApart (w_registry w') view /\
  (activeOf (w_cache w') view = activeOf (w_cache w) view \/ activeOf (w_cache w') view = servingSlot (w_registry w') view).

(** The collection a call writes or drops. *)
Definition touches {R} (c : RCall R) : option string :=
  match c with
  | RDrop coll | RProvision _ coll | RBulkApply coll _ | RDeleteIDs coll _ => Some coll
  | _ => None
  end.

Definition isFlip {R} (c : RCall R) : bool := match c with RFlip _ => true | _ => false end.

(** ** Programs that keep off a slot *)

Fixpoint noTouch {A} (p : RebM A) : Prop :=
  match p with
  | RRet _ => True
  | RDo c k => touches c = None /\ forall r, noTouch (k r)
  end.

(** The slot a call names as a shadow. *)
Definition namesShadow {R} (c : RCall R) : option string := match c with RBeginSlot _ s => Some s | _ => None end.

(** A row of the view that is read has its shadow apart from the serving slot [a]. *)
Definition answerOk (view a : string) {R} (c : RCall R) : R -> Prop :=
  match c in RCall R return R -> Prop with
  | RReadRow v => fun r => forall row s, v = view -> r = inr (Some row) -> rr_ShadowCollection row = Some s -> s <> a
  | _ => fun _ => True
  end.

(** Up to its flip the program keeps off [a]; after it, it touches nothing. *)
Fixpoint keepsOff (view a : string) {A} (p : RebM A) : Prop :=
  match p with
  | RRet _ => True
  | RDo c k =>
      if isFlip c then forall r, noTouch (k r)
      else touches c <> Some a /\ namesShadow c <> Some a /\ forall r, answerOk view a c r -> keepsOff view a (k r)
  end.

(** The same without a flip. *)
Fixpoint tame (view a : string) {A} (p : RebM A) : Prop :=
  match p with
  | RRet _ => True
  | RDo c k => isFlip c = false /\ touches c <> Some a /\ namesShadow c <> Some a /\ forall r, answerOk view a c r -> tame view a (k r)
  end.

Lemma noTouch_bind {A B} (p : RebM A) (f : A -> RebM B) : noTouch p -> (forall x, noTouch (f x)) -> noTouch (rbind p f).
Proof. intros Hp Hf. induction p as [x|R c k IH]; cbn; [apply Hf|]. destruct Hp as [Hc Hk]. split; [done|]. intros r. by apply IH. Qed.

Lemma tame_keepsOff view a {A} (p : RebM A) : tame view a p -> keepsOff view a p.
Proof. induction p as [x|R c k IH]; cbn; [done|]. intros (->&?&?&Hk). split_and!; [done..|]. intros r Hr. by apply IH, Hk. Qed.

Lemma tame_bind view a {A B} (p : RebM A) (f : A -> RebM B) : tame view a p -> (forall x, tame view a (f x)) -> tame view a (rbind p f).
Proof. intros Hp Hf. induction p as [x|R c k IH]; cbn; [apply Hf|]. destruct Hp as (?&?&?&Hk). split_and!; [done..|]. intros r Hr. by apply IH, Hk. Qed.

Lemma keepsOff_bind view a {A B} (p : RebM A) (f : A -> RebM B) : tame view a p -> (forall x, keepsOff view a (f x)) -> keepsOff view a (rbind p f).
Proof.
  intros Hp Hf. induction p as [x|R c k IH]; cbn; [apply Hf|]. destruct Hp as (->&?&?&Hk). split_and!; [done..|]. intros r Hr. by apply IH, Hk.
Qed.

Lemma keepsOff_then view a {A B} (p : RebM A) (f : A -> RebM B) :
  keepsOff view a p -> (forall x, noTouch (f x)) -> (forall x, keepsOff view a (f x)) -> keepsOff view a (rbind p f).
Proof.
  intros Hp Hn Hf. induction p as [x|R c k IH]; cbn in *; [apply Hf|]. destruct (isFlip c).
  - intros r. by apply noTouch_bind.
  - destruct Hp as (?&?&Hk). split_and!; [done..|]. intros r Hr. by apply IH, Hk.
Qed.

Create HintDb rebuild.
#[export] Hint Resolve tame_keepsOff : rebuild.

Lemma tame_call view a {R} (c : RCall R) : isFlip c = false -> touches c <> Some a -> namesShadow c <> Some a -> tame view a (rcall c).
Proof. by intros. Qed.

Lemma keepsOff_orWrap view a what p q : tame view a p -> keepsOff view a q -> keepsOff view a (orWrap what p q).
Proof. intros Hp Hq. apply keepsOff_bind; [done|]. by intros [e|]. Qed.

Lemma keepsOff_orReturn view a p q : tame view a p -> keepsOff view a q -> keepsOff view a (orReturn p q).
Proof. intros Hp Hq. apply keepsOff_bind; [done|]. by intros [e|]. Qed.

Lemma tame_orWrap view a what p q : tame view a p -> tame view a q -> tame view a (orWrap what p q).
Proof. intros Hp Hq. apply tame_bind; [done|]. by intros [e|]. Qed.

Lemma tame_orFail view a {A} what (p : RebM (GoErr + A)) q : tame view a p -> (forall x, tame view a (q x)) -> tame view a (orFail what p q).
Proof. intros Hp Hq. apply tame_bind; [done|]. intros [e|x]; [done|apply Hq]. Qed.

(** ** The rebuild keeps off the serving slot *)

Section KeepsOff.
Context (floatToInt : string -> Z) (order : list (list string) -> list (list string)) (view a shadow : string).
Context (Hshadow : shadow <> a).

Lemma touch_shadow : Some shadow <> Some a.
Proof using Hshadow. by intros [= ?]. Qed.

Hint Resolve touch_shadow : rebuild.

Lemma recomposeInto_tame v ids : tame view a (recomposeInto floatToInt v shadow ids).
Proof using Hshadow. cbn. split_and!; [done..|]. intros [e|[|d ds]] _; cbn; [done..|]. split_and!; auto with rebuild. Qed.

Lemma backfillBatches_tame v batches : forall err, tame view a (backfillBatches floatToInt v shadow batches err).
Proof using Hshadow.
  induction batches as [|b batches IH]; intros err; [done|]. cbn [backfillBatches]. apply tame_bind; [by apply tame_call|].
  intros [|]; [apply IH|]. apply tame_bind; [apply recomposeInto_tame|]. intros x. apply IH.
Qed.

Lemma backfillInto_tame v since n : tame view a (backfillInto floatToInt order v shadow since n).
Proof using Hshadow.
  apply tame_bind; [by apply tame_call|]. intros [e|[ids err]]; [done|]. apply backfillBatches_tame.
Qed.

Lemma eachChunk_tame what l f : (forall c, tame view a (f c)) -> tame view a (eachChunk what l f).
Proof using. intros Hf. induction l as [|c l IH]; [done|]. by apply tame_orWrap. Qed.

Lemma parityBatches_tame batches : forall d, tame view a (parityBatches shadow batches d).
Proof using. induction batches as [|b batches IH]; intros d; [done|]. cbn [parityBatches]. apply tame_bind; [by apply tame_call|]. intros [e|m]; [done|apply IH]. Qed.

Lemma verifyShadow_tame v : tame view a (verifyShadow floatToInt v shadow).
Proof using Hshadow.
  apply tame_orFail; [by apply tame_call|]. intros ids. apply tame_orFail; [by apply tame_call|]. intros [rows err].
  apply tame_bind; [apply parityBatches_tame|]. intros [e|d]; [done|]. destruct err; [done|].
  apply tame_bind; [apply eachChunk_tame, recomposeInto_tame|]. intros [e|]; [done|].
  apply eachChunk_tame. intros c. apply tame_call; [done| |done]. apply touch_shadow.
Qed.

Lemma discardShadow_tame v : tame view a (discardShadow v shadow).
Proof using Hshadow. cbn. split_and!; [done..|]. intros _ _. split_and!; [done| |done|]; [apply touch_shadow|]. done. Qed.

Lemma promote_keepsOff plan cfg : keepsOff view a (promote plan cfg).
Proof using. cbn. intros [e|]; [done|]. cbn. split; [done|]. intros [e|]; [done|]. cbn. split; [done|]. intros now. split; [done|]. by intros [e|]. Qed.

Lemma buildAndFlip_keepsOff plan cfg : keepsOff view a (buildAndFlip floatToInt order plan cfg shadow).
Proof using Hshadow.
  apply keepsOff_orWrap; [apply tame_call; [done|apply touch_shadow|done]|].
  apply keepsOff_orWrap; [apply tame_call; [done|apply touch_shadow|done]|].
  apply keepsOff_orWrap; [apply tame_call; [done|done|apply touch_shadow]|].
  apply keepsOff_orWrap; [by apply tame_call|]. apply keepsOff_orReturn; [by apply tame_call|].
  assert (Hdiscard : forall e, keepsOff view a (discardShadow (vd_name (dp_View plan)) shadow;;; RRet (Some e : option GoErr))).
  { intros e. apply keepsOff_bind; [apply discardShadow_tame|done]. }
  apply keepsOff_bind; [apply backfillInto_tame|]. intros [e|]; [apply Hdiscard|].
  apply keepsOff_bind; [apply verifyShadow_tame|]. intros [e|]; [apply Hdiscard|]. apply promote_keepsOff.
Qed.

Lemma resetShadow_keepsOff v row q :
  (forall s, row ≫= rr_ShadowCollection = Some s -> s <> a) -> keepsOff view a q -> keepsOff view a (resetShadow v row q).
Proof using.
  intros Hrow Hq. unfold resetShadow. destruct (row ≫= rr_ShadowCollection) as [stale|]; [|done].
  apply keepsOff_orWrap; [by apply tame_call|]. apply keepsOff_bind.
  - apply tame_call; [done| |done]. cbn. intros [= ->]. by apply (Hrow a).
  - intros _. apply keepsOff_orWrap; [by apply tame_call|done].
Qed.

Lemma underLock_keepsOff plan cfg now :
  vd_name (dp_View plan) = view -> (forall row s, dp_Registry plan = Some row -> rr_ShadowCollection row = Some s -> s <> a) ->
  keepsOff view a (underLock floatToInt order plan cfg now shadow).
Proof using Hshadow.
  intros Hview Hplan. unfold underLock, freshRow. set (q := orWrap "begin rebuild" _ _).
  assert (Hq : keepsOff view a q) by (apply keepsOff_orWrap; [by apply tame_call|apply buildAndFlip_keepsOff]).
  destruct (dp_Registry plan) as [row|].
  { cbn. apply resetShadow_keepsOff; [|done]. intros s Hs. by apply (Hplan row). }
  cbn. split_and!; [done..|]. intros [e|[row|]] Hr; cbn; [done| |].
  { apply resetShadow_keepsOff; [|done]. intros s Hs. by apply (Hr row). }
  split_and!; [done..|]. intros [e|] _; cbn; [done|]. split_and!; [done..|]. intros [e|[row|]] Hr2; cbn; [done| |].
  - apply resetShadow_keepsOff; [|done]. intros s Hs. by apply (Hr2 row).
  - exact Hq.
Qed.

End KeepsOff.

(** ** Runs keep off the serving slot *)

Lemma inactiveSlot_other view active : inactiveSlot view active <> active.
Proof.
  unfold inactiveSlot. destruct (String.eqb_spec active (view +:+ slotSuffix0)) as [->|Hne].
  - intros H. by apply (inj (String.append view)) in H.
  - destruct (String.eqb_spec active (view +:+ slotSuffix1)) as [->|]; [|by intros <-]. intros H. by apply (inj (String.append view)) in H.
Qed.

Lemma servingSlot_alter f reg view' view :
  (forall row, default "" (rr_ActiveCollection (f row)) = default "" (rr_ActiveCollection row)) ->
  servingSlot (alter f view' reg) view = servingSlot reg view.
Proof.
  intros Hf. unfold servingSlot, activeOf. rewrite !lookup_fmap. destruct (decide (view' = view)) as [->|].
  - rewrite lookup_alter_eq. destruct (reg !! view) as [row|]; [|done]. cbn. by rewrite Hf.
  - by rewrite lookup_alter_ne.
Qed.

(** Every call but a flip leaves the serving slot where it is and its shadow apart. *)
Lemma allowed_keeps pid host view a {R} (c : RCall R) w r w' :
  isFlip c = false -> namesShadow c <> Some a -> servingSlot (w_registry w) view = a -> ShadowApart (w_registry w) view ->
  allowed pid host R c w r w' -> servingSlot (w_registry w') view = a /\ ShadowApart (w_registry w') view.
Proof.
  intros Hflip Hname Hslot Hapart Hall.
  assert (Hsame : w_registry w' = w_registry w -> servingSlot (w_registry w') view = a /\ ShadowApart (w_registry w') view) by by intros ->.
  assert (Halter : forall f v, w_registry w' = alter f v (w_registry w) ->
    (forall row, rr_ActiveCollection (f row) = rr_ActiveCollection row) ->
    (forall row s, rr_ShadowCollection (f row) = Some s -> s <> a \/ rr_ShadowCollection row = Some s) ->
    servingSlot (w_registry w') view = a /\ ShadowApart (w_registry w') view).
  { intros f v -> Hact Hsh. assert (Hs : servingSlot (alter f v (w_registry w)) view = a)
      by (rewrite servingSlot_alter; [done|intros row; by rewrite Hact]).
    split; [done|]. intros row s Hrow Hrs. rewrite Hs. destruct (decide (v = view)) as [->|].
    - rewrite lookup_alter_eq in Hrow. destruct (w_registry w !! view) as [row0|] eqn:E; [|done]. injection Hrow as <-.
      destruct (Hsh _ _ Hrs) as [|H]; [done|]. rewrite <- Hslot. by eapply Hapart.
    - rewrite lookup_alter_ne in Hrow by done. rewrite <- Hslot. by eapply Hapart. }
  destruct c; cbn in Hall, Hflip, Hname; try (destruct Hall as [_ ->]; by apply Hsame); try (subst w'; by apply Hsame); try done.
  - destruct Hall as [-> _]. by apply Hsame.
  - destruct Hall as [_ [Hw|[_ Hw]]]; [|by apply Hsame]. unfold InitViewRegistry in Hw.
    destruct (w_registry w !! ri_ViewName i) as [row0|] eqn:E; cbn in Hw; [by apply Hsame|].
    rewrite Hw. assert (Hs : forall row', rr_ActiveCollection row' = None -> servingSlot (<[ri_ViewName i := row']> (w_registry w)) view = a).
    { intros row' Hr. rewrite <- Hslot. unfold servingSlot, activeOf. rewrite !lookup_fmap. destruct (decide (ri_ViewName i = view)) as [<-|].
      - rewrite lookup_insert_eq, E. cbn. by rewrite Hr.
      - by rewrite lookup_insert_ne. }
    split; [by apply Hs|]. intros row s Hrow Hrs. rewrite Hs by done. destruct (decide (ri_ViewName i = view)) as [<-|].
    + rewrite lookup_insert_eq in Hrow. by injection Hrow as <-.
    + rewrite lookup_insert_ne in Hrow by done. rewrite <- Hslot. by eapply Hapart.
  - destruct Hall as [_ [Hw|[_ Hw]]]; [|by apply Hsame]. eapply Halter; [exact Hw|done|done].
  - destruct Hall as [_ [Hw|[_ Hw]]]; [|by apply Hsame]. eapply Halter; [exact Hw|done|]. intros row s Hs. by right.
  - destruct Hall as [_ [Hw|[_ Hw]]]; [|by apply Hsame]. eapply Halter; [exact Hw|done|]. intros row s [= <-]. left. by intros ->.
  - destruct Hall as [_ [Hw|[_ Hw]]]; [|by apply Hsame]. eapply Halter; [exact Hw|done|]. intros row s Hs. by right.
  - destruct Hall as [Hw _]. by apply Hsame.
  - destruct Hall as [-> _]. by apply Hsame.
Qed.

Definition sparesServing (view : string) (e : RWorld * REvent) : Prop :=
  match e.2 with REv c _ => touches c <> Some (servingSlot (w_registry e.1) view) end.

Lemma noTouch_run pid host view {A} w (p : RebM A) tr w' : partialRun (rely view) (allowed pid host) w p tr w' -> noTouch p -> Forall (sparesServing view) tr.
Proof.
  induction 1 as [|w w1 w2 w3 R c k r tr Hrely Hall Hrun IH]; [done|]. intros [Hc Hk]. constructor; [|by apply IH].
  unfold sparesServing. cbn. by rewrite Hc.
Qed.

Lemma keepsOff_run pid host view a {A} w (p : RebM A) tr w' :
  partialRun (rely view) (allowed pid host) w p tr w' -> keepsOff view a p -> servingSlot (w_registry w) view = a -> ShadowApart (w_registry w) view ->
  Forall (sparesServing view) tr.
Proof.
  induction 1 as [|w w1 w2 w3 R c k r tr (Hslot&Hap&_) Hall Hrun IH]; [done|]. intros Hk Hw _. rewrite Hw in Hslot. cbn in Hk.
  destruct (isFlip c) eqn:Hf.
  - constructor; [|by eapply noTouch_run]. unfold sparesServing. cbn. by destruct c.
  - destruct Hk as (Ht&Hn&Hk). constructor; [unfold sparesServing; cbn; by rewrite Hslot|].
    destruct (allowed_keeps pid host view a c w1 r w2 Hf Hn Hslot Hap Hall) as [Hs2 Ha2]. apply IH; [|done|done].
    apply Hk. destruct c; cbn; try done. intros row s -> -> Hrs. destruct Hall as [_ [[= Hrow]|[e He]]]; [|done].
    rewrite <- Hslot. by eapply Hap.
Qed.

Lemma executeRebuild_keepsOff floatToInt order plan cfg a shadow now :
  shadow <> a -> (forall row s, dp_Registry plan = Some row -> rr_ShadowCollection row = Some s -> s <> a) ->
  keepsOff (vd_name (dp_View plan)) a
    (if negb (String.eqb (rb_Orphan cfg) "delete" || String.eqb (rb_Orphan cfg) "warn") then RRet (Some (ELeaf "cfg.Orphan invalid"))
     else
       lock <- rcall (RAcquire (vd_name (dp_View plan)));;
       match lock with
       | inl e => RRet (Some (EWrap "acquire rebuild lock" e))
       | inr acquired =>
           result <- (if acquired : bool then underLock floatToInt order plan cfg now shadow else RRet (Some (EWrap "held" ErrRebuildLockHeld)));;
           rcall (RRelease (vd_name (dp_View plan)));;;
           RRet result
       end).
Proof.
  intros Hne Hplan. destruct (negb _); [done|]. apply keepsOff_bind; [by apply tame_call|]. intros [e|acquired]; [done|].
  apply keepsOff_then; [|done|done]. destruct acquired; [|done]. by apply underLock_keepsOff.
Qed.

(** The pod's pointer of the view is the registry's, and the shadow is apart. *)
Definition current (view a : string) (w : RWorld) : Prop :=
  servingSlot (w_registry w) view = a /\ ShadowApart (w_registry w) view /\ activeOf (w_cache w) view = a.

Lemma rely_current view a w w' : rely view w w' -> current view a w -> current view a w'.
Proof. intros (Hs&Hap&Hc) (Hw&_&Hcw). split_and!; [congruence|done|]. destruct Hc; congruence. Qed.

