(* ===== verification/RebuildParity.v ===== *)
(** * What a verification has done

    What an acknowledged write of composed documents leaves in a slot, and the calls a
    verification that ends well has made, in runs where the calls may answer anything
    and other processes may do anything; the programs without a flip. *)

From S2P Require Import Prelude GoStrings Errors Mongo Projection ProjectionProps ProjectionOwn Consult ProjectionClaims Rebuild RebuildRuns.
From stdpp Require Import base gmap strings list fin_maps.
From Stdlib Require Import Ascii ZArith Lia.

Open Scope string_scope.
Open Scope list_scope.
Open Scope rebuild_scope.

(** ** Pieces of a list *)

Lemma chunks_concat {A} fuel n (l : list A) : (0 < n)%nat -> (length l <= fuel)%nat -> concat (chunks fuel n l) = l.
Proof.
  intros Hn. revert l. induction fuel as [|fuel IH]; intros [|x l] Hl; cbn [chunks concat]; [done|cbn in Hl; lia|done|].
  rewrite IH; [apply take_drop|]. rewrite length_drop. cbn in *. lia.
Qed.

Lemma chunked_concat {A} (l : list A) : concat (chunked l) = l.
Proof. apply chunks_concat; [unfold verifyReconcileChunk|]; lia. Qed.

Lemma elem_of_concat {A} (x : A) ls : x ∈ concat ls <-> exists c, c ∈ ls /\ x ∈ c.
Proof.
  rewrite list_elem_of_In, in_concat. split; intros (c&H1&H2); exists c; split; by apply list_elem_of_In.
Qed.

Lemma chunked_cover {A} (x : A) l : x ∈ l <-> exists c, c ∈ chunked l /\ x ∈ c.
Proof. rewrite <- elem_of_concat. by rewrite chunked_concat. Qed.

Lemma chunked_NoDup {A B} (f : A -> B) (l : list A) c : NoDup (f <$> l) -> c ∈ chunked l -> NoDup (f <$> c).
Proof.
  rewrite <- (chunked_concat l) at 1. generalize (chunked l). intros ls Hl Hc. apply list_elem_of_split in Hc as (a&b&->).
  rewrite concat_app, fmap_app in Hl. cbn in Hl. rewrite fmap_app in Hl. apply NoDup_app in Hl as (_&_&Hl). by apply NoDup_app in Hl as [Hl _].
Qed.

(** The revisions of rows with distinct ids, by id. *)
Lemma revisions_lookup (l : list (string * Z)) (m : gmap string Z) id rev :
  NoDup l.*1 -> (id, rev) ∈ l -> foldl (fun m r => <[r.1 := r.2]> m) m l !! id = Some rev.
Proof.
  revert m. induction l as [|[i x] l IH]; intros m Hnd Hin; [by apply not_elem_of_nil in Hin|].
  apply NoDup_cons in Hnd as [Hi Hnd]. apply elem_of_cons in Hin as [[= <- <-]|Hin]; [|by apply IH]. cbn.
  assert (Hout : forall m' : gmap string Z, foldl (fun m r => <[r.1 := r.2]> m) m' l !! id = m' !! id).
  { clear -Hi. induction l as [|[j y] l IH]; intros m'; [done|]. cbn in *. apply not_elem_of_cons in Hi as [Hj Hi].
    rewrite IH by done. by rewrite lookup_insert_ne. }
  rewrite Hout. by rewrite lookup_insert_eq.
Qed.

(** ** Watermarks of a slot *)

Section Watermarks.
Context `{MongoLaws} (floatToInt : string -> Z) (view : ViewDefinition).

Definition marked (c : Collection) : Prop := map_Forall (fun _ d => is_Some (watermark d docRevisionField)) c.

(** The slot holds the document at the revision, or a later one. *)
Definition atLeast (c : Collection) (id : string) (rev : Z) : Prop :=
  exists d, c !! id = Some d /\ (rev <= toInt64 floatToInt (d !! docRevisionField))%Z.

(** The documents the composer makes carry their key and a revision. *)
Definition composedOk (doc : Document) : Prop :=
  exists id rev, doc !! vs_idColumn (vd_schema view) = Some (MStr id) /\ doc !! docRevisionField = Some (MInt rev) /\ (0 < rev)%Z.

Context (Hid : scopeOf view (vs_idColumn (vd_schema view)) = ScopeOwn).

Lemma consult_watermark d doc w rev :
  is_Some (doc !! vs_idColumn (vd_schema view)) -> doc !! docRevisionField = Some (MInt rev) -> (0 < rev)%Z ->
  watermark d docRevisionField = Some w ->
  foldl mg_set d (consultGuardedStages floatToInt view doc) !! docRevisionField = Some (MInt (advanced w rev)).
Proof using Hid H0.
  intros [v Hv] Hr Hpos Hw. unfold consultGuardedStages. rewrite Hr. cbn [watermarkOf]. rewrite !foldl_app.
  rewrite (run_untouched (if bool_decide (inScope view isBaseScope doc = ∅) then _ else _)).
  2:{ destruct (bool_decide _); [done|]. constructor; [|done]. apply scopeStage_other; [done|]. by rewrite inScope_lookup. }
  set (d1 := foldl mg_set d _).
  assert (Hw1 : watermark d1 docRevisionField = Some w).
  { unfold d1, watermark. rewrite run_untouched; [done|]. by apply embed_untouched. }
  assert (Hown : inScope view isOwnScope doc !! vs_idColumn (vd_schema view) = Some v) by by rewrite inScope_lookup, Hid.
  rewrite bool_decide_false by (intros E; by rewrite E in Hown). cbn [foldl].
  rewrite ml_set. unfold scopeStage. rewrite (proj2 (Z.leb_gt rev 0) Hpos). rewrite lookup_insert_eq. by apply eval_advance.
Qed.

(** One item of a bulk write: nothing goes back, and its own document is at its revision. *)
Lemma applyItem c doc id rev :
  doc !! vs_idColumn (vd_schema view) = Some (MStr id) -> doc !! docRevisionField = Some (MInt rev) -> (0 < rev)%Z -> marked c ->
  let c' := ApplyProjection c id (consultGuardedStages floatToInt view doc) true in
  marked c' /\ atLeast c' id rev /\ (forall i x, atLeast c i x -> atLeast c' i x) /\ (forall i, i <> id -> c' !! i = c !! i).
Proof using Hid H0.
  intros Hdoc Hr Hpos Hm c'. set (d := default {["_id" := MStr id]} (c !! id)).
  assert (Hc : c' = <[id := foldl mg_set d (consultGuardedStages floatToInt view doc)]> c).
  { unfold c', ApplyProjection, d. rewrite ml_updateOne. by destruct (c !! id). }
  assert (exists w, watermark d docRevisionField = Some w) as [w Hw].
  { unfold d. destruct (c !! id) as [d0|] eqn:E; [|by eexists]. apply (Hm _ _ E). }
  pose proof (consult_watermark d doc w rev ltac:(by eexists) Hr Hpos Hw) as Hf. rewrite Hc.
  assert (Hge : (rev <= advanced w rev)%Z) by (destruct w; cbn; lia). split_and!.
  - apply map_Forall_insert_2; [|done]. unfold watermark. rewrite Hf. by eexists.
  - eexists. rewrite lookup_insert_eq. split; [done|]. by rewrite Hf.
  - intros i x (d0&Hd0&Hx). destruct (decide (i = id)) as [->|Hne].
    + eexists. rewrite lookup_insert_eq. split; [done|]. rewrite Hf. cbn. unfold d, watermark in Hw. rewrite Hd0 in Hw. cbn in Hw.
      destruct (d0 !! docRevisionField) as [[]|]; simplify_eq/=; lia.
    + exists d0. by rewrite lookup_insert_ne.
  - intros i Hne. by rewrite lookup_insert_ne.
Qed.

(** What a write of composed documents leaves in a slot whose documents have watermarks,
    whatever part of it the store took: no document goes back, each one taken is at its
    revision or a later one, and no document but theirs changes. *)
Theorem taken_documents_reach_their_revision docs items c :
  Forall composedOk docs -> items ⊆ guardedItems floatToInt view docs -> marked c ->
  let c' := BulkApplyProjection c items in
  marked c' /\ (forall i x, atLeast c i x -> atLeast c' i x) /\
  (forall doc id rev, (id, consultGuardedStages floatToInt view doc) ∈ items -> doc ∈ docs ->
     doc !! vs_idColumn (vd_schema view) = Some (MStr id) -> doc !! docRevisionField = Some (MInt rev) -> atLeast c' id rev) /\
  (forall i, Forall (fun doc => doc !! vs_idColumn (vd_schema view) <> Some (MStr i)) docs -> c' !! i = c !! i).
Proof using Hid H0.
  intros Hdocs. revert c. induction items as [|it items IH]; intros c Hin Hm; cbn [BulkApplyProjection foldl].
  { split_and!; [done|done|by intros ??? []%not_elem_of_nil|done]. }
  assert (Hit : it ∈ guardedItems floatToInt view docs) by (apply Hin; by left).
  unfold guardedItems in Hit. apply list_elem_of_fmap in Hit as (doc&->&Hdoc).
  destruct (proj1 (Forall_forall _ _) Hdocs doc Hdoc) as (id&rev&Hk&Hr&Hpos). rewrite Hk. cbn [fst snd].
  destruct (applyItem c doc id rev Hk Hr Hpos Hm) as (Hm1&Hat&Hkeep&Hother).
  destruct (IH _ ltac:(intros x Hx; apply Hin; by right) Hm1) as (Hm2&Hkeep2&Hat2&Hother2). split_and!.
  - done.
  - intros i x Hi. by apply Hkeep2, Hkeep.
  - intros doc2 id2 rev2 [Heq|Hin2]%elem_of_cons Hd2 Hk2 Hr2; [|by eapply Hat2]. injection Heq as -> Hst. apply Hkeep2.
    destruct (applyItem c doc2 id rev2 Hk2 Hr2) as (_&Hat3&_); [|done|by rewrite Hst in Hat3].
    destruct (proj1 (Forall_forall _ _) Hdocs doc2 Hd2) as (id3&rev3&_&Hr3&Hp3). congruence.
  - intros i Hi. rewrite Hother2 by done. apply Hother. intros ->. by eapply (proj1 (Forall_forall _ _) Hi doc Hdoc).
Qed.

End Watermarks.

(** ** The verification, by its calls *)

Section Verify.
(** Other processes may do anything, and the calls may answer anything. *)
Context {W : Type} (rely : W -> W -> Prop) (allowed : forall R, RCall R -> W -> R -> W -> Prop).
Context (floatToInt : string -> Z) (view : ViewDefinition) (s : string).

Notation run := (fullRun rely allowed).

(** The slot was read and held the document at the revision or a later one. *)
Definition seenAt (id : string) (rev : Z) (l : list REvent) : Prop :=
  exists keys m n, REv (RRevisions s keys) (inr m) ∈ l /\ m !! id = Some n /\ (rev <= n)%Z.

(** The composer was asked for the id, and the guarded write of all the documents it
    answered was acknowledged at once; no document, nothing to write. *)
Definition recomposed (id : string) (l : list REvent) : Prop :=
  exists a b keys docs, l = a ++ REv (RCompose (vd_name view) keys) (inr docs) :: b /\ id ∈ keys /\
    (docs = [] \/ exists b', b = REv (RBulkApply s (guardedItems floatToInt view docs)) None :: b').

(** The deletion of the document was acknowledged. *)
Definition removedFrom (id : string) (l : list REvent) : Prop :=
  exists keys, REv (RDeleteIDs s keys) None ∈ l /\ id ∈ keys.

(** A call that writes or drops no other slot, and deletes only keys of which [P] holds. *)
Definition worksOn (P : string -> Prop) {R} (c : RCall R) : Prop :=
  (forall coll, touches c = Some coll -> coll = s) /\
  match c with RDeleteIDs _ keys => Forall P keys | RDrop _ => False | _ => True end.

Definition within (P : string -> Prop) (e : REvent) : Prop := match e with REv c _ => worksOn P c end.

Lemma seenAt_app id rev l1 l2 : seenAt id rev l1 \/ seenAt id rev l2 -> seenAt id rev (l1 ++ l2).
Proof using. intros [(k&m&n&Hin&?)|(k&m&n&Hin&?)]; exists k, m, n; (split; [apply elem_of_app|done]); [by left|by right]. Qed.

Lemma recomposed_app id l1 l2 : recomposed id l1 \/ recomposed id l2 -> recomposed id (l1 ++ l2).
Proof using.
  intros [(a&b&k&docs&->&Hk&Hd)|(a&b&k&docs&->&Hk&Hd)].
  - exists a, (b ++ l2), k, docs. split; [by rewrite <- app_assoc|]. split; [done|]. destruct Hd as [|[b' ->]]; [by left|right; by eexists].
  - exists (l1 ++ a), b, k, docs. by rewrite app_assoc.
Qed.

Lemma removedFrom_app id l1 l2 : removedFrom id l1 \/ removedFrom id l2 -> removedFrom id (l1 ++ l2).
Proof using. intros [(k&Hin&?)|(k&Hin&?)]; exists k; (split; [apply elem_of_app|done]); [by left|by right]. Qed.

Lemma call_events {R} (c : RCall R) w tr r w' : run w (rcall c) tr r w' -> tr.*2 = [REv c r].
Proof using. intros Hrun. by apply fullRun_call in Hrun as (w1&->&_). Qed.

(** A recomposition that ends well. *)
Lemma recompose_events P w ids tr r w' :
  run w (recomposeInto floatToInt view s ids) tr r w' ->
  Forall (within P) tr.*2 /\ (r = None -> forall id, id ∈ ids -> recomposed id tr.*2).
Proof using.
  intros Hrun. unfold recomposeInto in Hrun. apply fullRun_bind in Hrun as (tr1&tr2&ans&w2&->&Hcall%call_events&Hrest).
  rewrite fmap_app, Hcall. destruct ans as [e|[|doc docs]].
  - apply fullRun_inv in Hrest as (->&->&->). split; [by repeat constructor|done].
  - apply fullRun_inv in Hrest as (->&->&->). split; [by repeat constructor|]. intros _ id Hin. exists [], [], ids, []. split_and!; [done|done|by left].
  - apply call_events in Hrest as ->. split.
    + repeat constructor; try done. by intros coll [= <-].
    + intros -> id Hin. exists [], [REv (RBulkApply s (guardedItems floatToInt view (doc :: docs))) None], ids, (doc :: docs).
      split_and!; [done|done|]. right. by exists [].
Qed.

(** One batch of the scan: a row is at parity in what was read, or it diverged. *)
Lemma divergedOf_elem rows stored id rev : NoDup rows.*1 -> (id, rev) ∈ rows ->
  id ∈ divergedOf rows stored \/ exists n, stored !! id = Some n /\ (rev <= n)%Z.
Proof using.
  intros Hnd Hin.
  destruct (stored !! id) as [n|] eqn:E; [destruct (Z.ltb n rev) eqn:Hlt; [left|right; exists n; split; [done|by apply Z.ltb_ge]]|left].
  all: unfold divergedOf; apply list_elem_of_In, filter_In; rewrite E; split; [apply list_elem_of_In, list_elem_of_fmap; by exists (id, rev)|].
  - by rewrite (revisions_lookup rows ∅ id rev Hnd Hin).
  - done.
Qed.

(** The scan: every row was seen at its revision, or is to be repaired. *)
Lemma parity_events P batches : forall d w tr d' w',
  run w (parityBatches s batches d) tr (inr d') w' ->
  Forall (within P) tr.*2 /\ d ⊆ d' /\
  (forall id rev rows, rows ∈ batches -> NoDup rows.*1 -> (id, rev) ∈ rows -> seenAt id rev tr.*2 \/ id ∈ d').
Proof using.
  induction batches as [|rows batches IH]; intros d w tr d' w' Hrun.
  { apply fullRun_inv in Hrun as (->&[= ->]&->). split_and!; [constructor|done|]. by intros ??? []%not_elem_of_nil. }
  cbn [parityBatches] in Hrun. apply fullRun_bind in Hrun as (tr1&tr2&ans&w2&->&Hcall%call_events&Hrest).
  destruct ans as [e|m]; [by apply fullRun_inv in Hrest as (_&[=]&_)|]. destruct (IH _ _ _ _ _ Hrest) as (Hin&Hsub&Hall).
  rewrite fmap_app, Hcall. split_and!.
  - by constructor.
  - intros x Hx. apply Hsub, elem_of_app. by left.
  - intros id rev rows' [->|Hr']%elem_of_cons Hnd Hr.
    + destruct (divergedOf_elem rows m id rev Hnd Hr) as [Hd|(n&Hn&Hle)]; [right; apply Hsub, elem_of_app; by right|left].
      exists rows.*1, m, n. split; [by left|done].
    + destruct (Hall id rev rows' Hr' Hnd Hr); [left; apply (seenAt_app _ _ [_]); by right|by right].
Qed.

(** The repairs, piece by piece. *)
Lemma repair_events P what pieces : forall w tr r w',
  run w (eachChunk what pieces (recomposeInto floatToInt view s)) tr r w' ->
  Forall (within P) tr.*2 /\ (r = None -> forall id piece, piece ∈ pieces -> id ∈ piece -> recomposed id tr.*2).
Proof using.
  induction pieces as [|c pieces IH]; intros w tr r w' Hrun.
  { apply fullRun_inv in Hrun as (->&_&->). split; [constructor|]. by intros _ ?? []%not_elem_of_nil. }
  apply fullRun_bind in Hrun as (tr1&tr2&x&w1&->&Hp&Hrest). destruct (recompose_events P _ _ _ _ _ Hp) as [Hin1 Hat]. rewrite fmap_app.
  destruct x as [e|]; [apply fullRun_inv in Hrest as (->&->&_); rewrite app_nil_r; by split|].
  destruct (IH _ _ _ _ Hrest) as [Hin2 Hat2]. split; [by apply Forall_app|].
  intros Hr id piece [->|Hin]%elem_of_cons Hid; apply recomposed_app; [left; by apply Hat|right; by eapply Hat2].
Qed.

(** The deletions, piece by piece. *)
Lemma delete_events (P : string -> Prop) what pieces : forall w tr r w',
  run w (eachChunk what pieces (fun ids => rcall (RDeleteIDs s ids))) tr r w' -> Forall (Forall P) pieces ->
  Forall (within P) tr.*2 /\ (r = None -> forall id piece, piece ∈ pieces -> id ∈ piece -> removedFrom id tr.*2).
Proof using.
  induction pieces as [|c pieces IH]; intros w tr r w' Hrun HP.
  { apply fullRun_inv in Hrun as (->&_&->). split; [constructor|]. by intros _ ?? []%not_elem_of_nil. }
  apply Forall_cons in HP as [Hc HP]. apply fullRun_bind in Hrun as (tr1&tr2&x&w1&->&Hp%call_events&Hrest). rewrite fmap_app, Hp.
  assert (Hone : within P (REv (RDeleteIDs s c) x)) by (split; [by intros coll [= <-]|done]).
  destruct x as [e|]; [apply fullRun_inv in Hrest as (->&->&_); split; [by constructor|done]|].
  destruct (IH _ _ _ _ Hrest HP) as [Hin2 Hat2]. split; [by constructor|].
  intros Hr id piece [->|Hin]%elem_of_cons Hid; apply (removedFrom_app _ [_]); [left|right; by eapply Hat2].
  exists c. split; [by left|done].
Qed.

(** What a verification that ends well has done: a snapshot of the slot and a complete
    scan of the source, and then, for every row scanned, it has seen the document at the
    scanned revision or recomposed it, and it has deleted the documents of the snapshot
    without a row, and no other. *)
Definition verification (l : list REvent) : Prop :=
  exists ids rows l2,
    l = REv (RSnapshot s) (inr ids) :: REv (RStream (vd_name view)) (inr (rows, None)) :: l2 /\
    (NoDup rows.*1 -> forall id rev, (id, rev) ∈ rows -> seenAt id rev l2 \/ recomposed id l2) /\
    (forall id, id ∈ ids -> id ∉ rows.*1 -> removedFrom id l2) /\
    Forall (within (fun id => id ∈ ids /\ id ∉ rows.*1)) l2.

Lemma verify_events w tr w' : run w (verifyShadow floatToInt view s) tr None w' -> verification tr.*2.
Proof using.
  intros Hrun. unfold verifyShadow in Hrun. apply fullRun_bind in Hrun as (tr1&tr2&r&w1&->&Hc1%call_events&Hrun).
  destruct r as [e|ids]; [by apply fullRun_inv in Hrun as (_&[=]&_)|]. apply fullRun_bind in Hrun as (tr3&tr4&r&w2&->&Hc2%call_events&Hrun).
  destruct r as [e|[rows err]]; [by apply fullRun_inv in Hrun as (_&[=]&_)|].
  destruct err as [e|].
  { apply fullRun_bind in Hrun as (?&?&p&?&->&_&Hrun). destruct p; by apply fullRun_inv in Hrun as (_&[=]&_). }
  exists ids, rows, tr4.*2. rewrite !fmap_app, Hc1, Hc2. split; [done|]. set (P := fun id => id ∈ ids /\ id ∉ rows.*1).
  apply fullRun_bind in Hrun as (tr5&tr6&p&w3&->&Hpar&Hrest). destruct p as [e|diverged]; [by apply fullRun_inv in Hrest as (_&[=]&_)|].
  destruct (parity_events P _ _ _ _ _ _ Hpar) as (Hin1&_&Hor).
  apply fullRun_bind in Hrest as (tr7&tr8&r&w4&->&Hrep&Hdel). destruct r as [e|]; [by apply fullRun_inv in Hdel as (_&[=]&_)|].
  destruct (repair_events P _ _ _ _ _ _ Hrep) as [Hin2 Hfix].
  destruct (delete_events P _ _ _ _ _ _ Hdel) as [Hin3 Hgone].
  { apply Forall_forall. intros c Hc. apply Forall_forall. intros id Hid.
    assert (Hel : id ∈ elements (ids ∖ list_to_set rows.*1 : gset string)) by (apply chunked_cover; by exists c).
    apply elem_of_elements, elem_of_difference in Hel as [Hel Hout]. split; [done|]. by rewrite elem_of_list_to_set in Hout. }
  rewrite !fmap_app. split_and!.
  - intros Hnd id rev Hin. destruct (proj1 (chunked_cover _ _) Hin) as (piece&Hp&Hi).
    destruct (Hor id rev piece Hp (chunked_NoDup _ _ _ Hnd Hp) Hi) as [Hs|Hd]; [left; apply seenAt_app; by left|right].
    destruct (proj1 (chunked_cover _ _) Hd) as (piece2&Hp2&Hi2). apply recomposed_app. right. apply recomposed_app. left. by eapply Hfix.
  - intros id Hid Hout. assert (Hel : id ∈ elements (ids ∖ list_to_set rows.*1 : gset string)).
    { apply elem_of_elements, elem_of_difference. split; [done|]. by rewrite elem_of_list_to_set. }
    destruct (proj1 (chunked_cover _ _) Hel) as (piece&Hp&Hi). apply removedFrom_app. right. apply removedFrom_app. right. by eapply Hgone.
  - apply Forall_app. split; [done|]. by apply Forall_app.
Qed.

End Verify.

(** ** What precedes a flip *)

Fixpoint flipless {A} (p : RebM A) : Prop :=
  match p with RRet _ => True | RDo c k => isFlip c = false /\ forall r, flipless (k r) end.

Lemma flipless_bind {A B} (p : RebM A) (f : A -> RebM B) : flipless p -> (forall a, flipless (f a)) -> flipless (rbind p f).
Proof. intros Hp Hf. induction p as [a|R c k IH]; cbn; [apply Hf|]. destruct Hp as [Hc Hk]. split; [done|]. intros r. by apply IH. Qed.

Lemma flipless_call {R} (c : RCall R) : isFlip c = false -> flipless (rcall c).
Proof. by intros. Qed.

Create HintDb flipless.
#[export] Hint Resolve flipless_call : flipless.
#[export] Hint Extern 2 (isFlip _ = false) => reflexivity : flipless.
#[export] Hint Extern 1 (flipless (RRet _)) => exact I : flipless.

(** One step of a program, the match on its answer included. *)
Ltac flipless_step :=
  intros; match goal with
  | |- flipless (rbind _ _) => apply flipless_bind
  | |- flipless (match ?x with _ => _ end) => destruct x
  | |- flipless (if ?b then _ else _) => destruct b
  end.

Section Flipless.
Context (floatToInt : string -> Z) (order : list (list string) -> list (list string)).

Lemma flipless_eachChunk what l f : (forall c, flipless (f c)) -> flipless (eachChunk what l f).
Proof using. intros Hf. induction l as [|c l IH]; [done|]. cbn [eachChunk]. unfold orWrap. repeat flipless_step; auto with flipless. Qed.

Lemma flipless_recompose view target ids : flipless (recomposeInto floatToInt view target ids).
Proof using. unfold recomposeInto. repeat flipless_step; auto with flipless. Qed.

Hint Resolve flipless_eachChunk flipless_recompose : flipless.

Lemma flipless_backfill view target since n : flipless (backfillInto floatToInt order view target since n).
Proof using.
  assert (Hb : forall batches err, flipless (backfillBatches floatToInt view target batches err)).
  { intros batches. induction batches as [|b batches IH]; intros err; [done|]. cbn [backfillBatches]. repeat flipless_step; auto with flipless. }
  unfold backfillInto. repeat flipless_step; auto with flipless.
Qed.

Lemma flipless_verify view shadow : flipless (verifyShadow floatToInt view shadow).
Proof using.
  assert (Hp : forall batches d, flipless (parityBatches shadow batches d)).
  { intros batches. induction batches as [|b batches IH]; intros d; [done|]. cbn [parityBatches]. repeat flipless_step; auto with flipless. }
  unfold verifyShadow, orFail, orReturn. repeat flipless_step; auto with flipless.
Qed.

Lemma flipless_fresh plan cfg now : flipless (freshRow plan cfg now).
Proof using. unfold freshRow. repeat flipless_step; auto with flipless. Qed.

Lemma flipless_discard view shadow : flipless (discardShadow view shadow).
Proof using. unfold discardShadow. repeat flipless_step; auto with flipless. Qed.

End Flipless.
#[export] Hint Resolve flipless_backfill flipless_verify flipless_fresh flipless_discard : flipless.

Section Flips.
Context {W : Type} (rely : W -> W -> Prop) (allowed : forall R, RCall R -> W -> R -> W -> Prop).

Definition isFlipEvent (e : W * REvent) : bool := match e.2 with REv c _ => isFlip c end.

Lemma flipless_partial {A} w (p : RebM A) tr w' : partialRun rely allowed w p tr w' -> flipless p -> Forall (fun e => isFlipEvent e = false) tr.
Proof using. induction 1 as [|w w1 w2 w3 R c k r tr Hrely Hall Hrun IH]; [done|]. intros [Hc Hk]. constructor; [done|]. by apply IH. Qed.

Lemma flipless_full {A} w (p : RebM A) tr a w' : fullRun rely allowed w p tr a w' -> flipless p -> Forall (fun e => isFlipEvent e = false) tr.
Proof using. induction 1 as [|w w1 w2 w3 R c k r tr b Hrely Hall Hrun IH]; [done|]. intros [Hc Hk]. constructor; [done|]. by apply IH. Qed.

(** A flip of [p] and then [f] is made by [f], when [p] makes none. *)
Lemma bind_flip {A B} (p : RebM A) (f : A -> RebM B) w pre e post w' :
  partialRun rely allowed w (rbind p f) (pre ++ e :: post) w' -> isFlipEvent e = true -> flipless p ->
  exists pre1 pre2 a w1, pre = pre1 ++ pre2 /\ fullRun rely allowed w p pre1 a w1 /\ partialRun rely allowed w1 (f a) (pre2 ++ e :: post) w'.
Proof using.
  intros Hrun He Hp. apply partialRun_bind in Hrun as [Hrun|(tr1&tr2&a&w1&Heq&Hfull&Hrun)].
  - apply flipless_partial in Hrun; [|done]. apply Forall_app in Hrun as [_ [Hf _]%Forall_cons]. congruence.
  - pose proof (flipless_full _ _ _ _ _ Hfull Hp) as Hno. apply app_eq_app in Heq as [l [[-> Hl]|[-> Hl]]].
    + exists tr1, l, a, w1. by subst.
    + destruct l as [|x l]; [exists pre, [], a, w1; cbn in Hl; subst tr2; rewrite app_nil_r in *; done|].
      cbn in Hl. injection Hl as <- ->. apply Forall_app in Hno as [_ [Hf _]%Forall_cons]. congruence.
Qed.

Lemma fullRun_partial {A} w (p : RebM A) tr a w' : fullRun rely allowed w p tr a w' -> partialRun rely allowed w p tr w'.
Proof using. induction 1; by econstructor. Qed.

(** The other way round. *)
Lemma flip_bind {A B} (p : RebM A) (f : A -> RebM B) w pre e post w' :
  partialRun rely allowed w (rbind p f) (pre ++ e :: post) w' -> isFlipEvent e = true -> (forall a, flipless (f a)) ->
  exists post1 w1, partialRun rely allowed w p (pre ++ e :: post1) w1.
Proof using.
  intros Hrun He Hf. apply partialRun_bind in Hrun as [Hrun|(tr1&tr2&a&w1&Heq&Hfull&Hrun)]; [by eexists _, _|].
  apply flipless_partial in Hrun; [|done]. apply fullRun_partial in Hfull. apply app_eq_app in Heq as [l [[-> ->]|[-> Hl]]].
  - apply Forall_app in Hrun as [_ [Hno _]%Forall_cons]. congruence.
  - destruct l as [|x l]; cbn in Hl; [subst tr2; inversion Hrun; congruence|]. injection Hl as <- ->. by eexists _, _.
Qed.

Lemma ret_no_event {A} (a : A) w pre e post w' : ~ partialRun rely allowed w (RRet a) (pre ++ e :: post) w'.
Proof using. intros Hrun%partialRun_inv. by destruct pre. Qed.

(** The step of a sequence that returns early on an error. *)
Lemma orWrap_flip what p q w pre e post w' :
  partialRun rely allowed w (orWrap what p q) (pre ++ e :: post) w' -> isFlipEvent e = true -> flipless p ->
  exists pre1 pre2 w1, pre = pre1 ++ pre2 /\ fullRun rely allowed w p pre1 None w1 /\ partialRun rely allowed w1 q (pre2 ++ e :: post) w'.
Proof using.
  intros Hrun He Hp. destruct (bind_flip _ _ _ _ _ _ _ Hrun He Hp) as (pre1&pre2&a&w1&->&Hfull&Hrest).
  destruct a as [x|]; [by apply ret_no_event in Hrest|]. by exists pre1, pre2, w1.
Qed.

Lemma orReturn_flip p q w pre e post w' :
  partialRun rely allowed w (orReturn p q) (pre ++ e :: post) w' -> isFlipEvent e = true -> flipless p ->
  exists pre1 pre2 w1, pre = pre1 ++ pre2 /\ fullRun rely allowed w p pre1 None w1 /\ partialRun rely allowed w1 q (pre2 ++ e :: post) w'.
Proof using.
  intros Hrun He Hp. destruct (bind_flip _ _ _ _ _ _ _ Hrun He Hp) as (pre1&pre2&a&w1&->&Hfull&Hrest).
  destruct a as [x|]; [by apply ret_no_event in Hrest|]. by exists pre1, pre2, w1.
Qed.

End Flips.
