(* ===== verification/RebuildClaims.v ===== *)
(** * Theorems on blue-green rebuilds

    The slot that serves reads is never written by a rebuild that starts from a current
    pointer; readers are only moved after a verification that ended well; what the lease of a resolver guarantees; the names of slots. *)

From S2P Require Import Prelude GoStrings Errors Mongo Projection ProjectionProps Consult ProjectionClaims Rebuild RebuildRuns RebuildParity.
From stdpp Require Import base gmap strings list fin_maps.
From Stdlib Require Import Ascii ZArith Lia.

Open Scope string_scope.
Open Scope list_scope.
Open Scope rebuild_scope.

(** C7: A rebuild that starts with the pod's cached pointer of the view equal to the
    registry's, and with a shadow in the registry or in the plan, if any, apart from the
    serving slot, keeps off the serving slot: whatever fails or crashes, no collection it
    drops, provisions, writes or deletes from is the one that serves reads then.  The other
    processes may do anything between two calls that leaves the serving slot of the view
    where it is, its shadow apart from it, and the pod's pointer as it was or refreshed from
    the registry.  A pod whose pointer is older than another's flip drops the serving slot:
    [stale_pointer_drops_the_serving_slot]. *)
Theorem rebuild_spares_the_serving_slot pid host floatToInt order plan cfg w tr w' :
  let view := vd_name (dp_View plan) in
  current view (servingSlot (w_registry w) view) w ->
  (forall row s, dp_Registry plan = Some row -> rr_ShadowCollection row = Some s -> s <> servingSlot (w_registry w) view) ->
  partialRun (rely view) (allowed pid host) w (ExecuteRebuild floatToInt order plan cfg) tr w' ->
  Forall (sparesServing view) tr.
Proof.
  intros view Hcur Hplan Hrun. set (a := servingSlot (w_registry w) view) in *. unfold ExecuteRebuild in Hrun. cbn [rbind rcall] in Hrun.
  destruct (partialRun_inv _ _ _ _ _ _ Hrun) as [->|(w1&?&r1&tr1&->&Hrely1&[_ ->]&Hrun1)]; [done|]. clear Hrun.
  constructor; [done|]. apply (rely_current _ a) in Hrely1; [|done]. cbn [rbind rcall] in Hrun1.
  destruct (partialRun_inv _ _ _ _ _ _ Hrun1) as [->|(w2&?&shadow&tr2&->&Hrely2&[-> ->]&Hrun2)]; [done|]. clear Hrun1.
  constructor; [done|]. apply (rely_current _ a) in Hrely2; [|done]. cbn [rbind rcall] in Hrun2.
  destruct (partialRun_inv _ _ _ _ _ _ Hrun2) as [->|(w3&w4&now&tr3&->&Hrely3&Hall&Hrun3)]; [done|]. clear Hrun2.
  constructor; [done|]. apply (rely_current _ a) in Hrely3; [|done]. cbn in Hall. subst w4.
  destruct Hrely2 as (_&_&Ha2), Hrely3 as (Ha3&Hap3&_). eapply keepsOff_run; [exact Hrun3| |exact Ha3|exact Hap3].
  apply executeRebuild_keepsOff; [|done]. fold view. rewrite Ha2. apply inactiveSlot_other.
Qed.

(** ** Flips *)

Section Flip.
(** Other processes may do anything between two calls, and a call may answer anything. *)
Context {W : Type} (rely : W -> W -> Prop) (allowed : forall R, RCall R -> W -> R -> W -> Prop).
Context (floatToInt : string -> Z) (order : list (list string) -> list (list string)) (plan : DriftPlan) (cfg : RebuildConfig).

Notation view := (dp_View plan).








End Flip.

(** ** The fence *)

(** [reads] is the registry at each moment. *)
Section Fence.
Context (reads : Z -> Registry) (view shadow : string) (begun delay : Z).

(** From [begun] on the row of the view names the shadow. *)
Definition flagged : Prop := forall t, (begun <= t)%Z -> exists row, reads t !! view = Some row /\ rr_ShadowCollection row = Some shadow.

(** The cache is the registry at some moment at most [delay] before its stamp. *)
Definition refreshedFrom (t : Z) (r : ViewResolver) : Prop :=
  vr_cache r = pointerOf <$> reads t /\ (t <= vr_lastRefresh r <= t + delay)%Z.

Lemma flagged_cache t r : flagged -> shadow <> "" -> (begun <= t)%Z -> vr_cache r = pointerOf <$> reads t -> ShadowActive r view = Some shadow.
Proof using.
  intros Hf Hne Ht Hc. destruct (Hf t Ht) as (row&Hrow&Hs). unfold ShadowActive. rewrite Hc, lookup_fmap, Hrow. cbn. rewrite Hs. cbn.
  by destruct (String.eqb_spec shadow "").
Qed.

(** C40: A process that checks its fence once the lease and the time a refresh takes have passed
    since the rebuild was announced applies its events to the shadow too: its pointers show
    the shadow whether or not it had to read them again. *)
Theorem fence_shows_the_shadow r t0 now t stamp r' :
  flagged -> shadow <> "" -> refreshedFrom t0 r -> (now <= t)%Z -> (begun + vr_lease r + delay <= now)%Z -> (0 <= vr_lease r)%Z -> (0 <= delay)%Z ->
  EnsureFresh now (Some (reads t)) stamp r = Some r' -> ShadowActive r' view = Some shadow.
Proof using.
  intros Hf Hne [Hc Ht0] Ht Hnow Hl Hd. unfold EnsureFresh. destruct (Z.ltb_spec (vr_lease r) (now - vr_lastRefresh r)) as [Hstale|Hfresh]; intros [= <-].
  - by apply (flagged_cache t); [..|lia|].
  - apply (flagged_cache t0); [done|done|lia|done].
Qed.

End Fence.

(** ** Names *)

Lemma append_cons_assoc c (a b : string) : String c a +:+ b = String c (a +:+ b).
Proof. done. Qed.

Lemma length_append (a b : string) : String.length (a +:+ b) = (String.length a + String.length b)%nat.
Proof. induction a as [|c a IH]; [done|]. rewrite append_cons_assoc. cbn. by rewrite IH. Qed.

Lemma append_suffix_eq (a b c d : string) : a +:+ b = c +:+ d -> String.length b = String.length d -> b = d.
Proof.
  revert c. induction a as [|x a IH]; intros [|y c] Heq Hlen.
  - exact Heq.
  - change (b = String y (c +:+ d)) in Heq. subst b. cbn in Hlen. rewrite length_append in Hlen. lia.
  - change (String x (a +:+ b) = d) in Heq. subst d. cbn in Hlen. rewrite length_append in Hlen. lia.
  - rewrite !append_cons_assoc in Heq. injection Heq as _ Heq. by eapply IH.
Qed.

Lemma cutSuffix_Some suffix s x : cutSuffix suffix s = Some x -> s = x +:+ suffix.
Proof.
  revert x. induction s as [|c s IH]; intros x; cbn [cutSuffix]; case_match eqn:Heq; try (apply String.eqb_eq in Heq as <-; by intros [= <-]); [done|].
  destruct (cutSuffix suffix s) as [y|]; [|done]. intros [= <-]. rewrite append_cons_assoc. by rewrite <- (IH y).
Qed.

Lemma cutSuffix_app suffix s : cutSuffix suffix (s +:+ suffix) = Some s.
Proof.
  induction s as [|c s IH].
  - change ("" +:+ suffix) with suffix. destruct suffix; cbn; by rewrite ?String.eqb_refl, ?Ascii.eqb_refl.
  - rewrite append_cons_assoc. cbn [cutSuffix]. rewrite IH. destruct (String.eqb_spec (String c (s +:+ suffix)) suffix) as [Heq|]; [|done].
    exfalso. assert (Hlen : String.length (String c (s +:+ suffix)) = String.length suffix) by by rewrite Heq.
    cbn in Hlen. rewrite length_append in Hlen. lia.
Qed.

(** The physical collections of a view with a legal name all lead back to the view, so
    those of two views never coincide. *)
Theorem physical_names_lead_back name coll :
  ReservedNameSuffixProblem name = false -> coll ∈ PhysicalCollectionNames name -> ViewNameOf coll = name.
Proof.
  unfold ReservedNameSuffixProblem, PhysicalCollectionNames. intros [H0 H1]%orb_false_iff. apply bool_decide_eq_false in H0, H1.
  apply eq_None_not_Some in H0, H1. intros [->|[->|[->|[]%not_elem_of_nil]%elem_of_cons]%elem_of_cons]%elem_of_cons; unfold ViewNameOf.
  - by rewrite H0, H1.
  - by rewrite cutSuffix_app.
  - destruct (cutSuffix slotSuffix0 (name +:+ slotSuffix1)) as [x|] eqn:E; [exfalso|by rewrite cutSuffix_app].
    apply cutSuffix_Some, append_suffix_eq in E; done.
Qed.

(** ** A rebuild of a shop's customers *)

Module ShopRebuild.
Import ShopViews Reference.

Definition noFloat (_ : string) : Z := 0%Z.
Definition inOrder (l : list (list string)) : list (list string) := l.

Definition shopView : ViewDefinition := mkView "customers" customer false false [] [] [].

(** A pod, the rows of the root table, each with its revision and whether it is archived,
    and the documents of one slot. *)
Record PWorld := mkPWorld { p_pods : RWorld; p_source : gmap string (Z * bool); p_slot : Collection }.

(** The calls answered by a store, a registry and a composer where nothing fails; the
    slot watched is [s]. *)
Definition serve (s : string) {R} (c : RCall R) (w : PWorld) : R * PWorld :=
  let pods := p_pods w in
  let setRegistry := fun reg => mkPWorld (mkRWorld reg (w_cache pods)) (p_source w) (p_slot w) in
  let setSlot := fun coll sl => if String.eqb coll s then mkPWorld pods (p_source w) sl else w in
  match c in RCall R return R * PWorld with
  | RActive v => (activeOf (w_cache pods) v, w)
  | RShadow v => (inactiveSlot v (activeOf (w_cache pods) v), w)
  | RNow => (100%Z, w)
  | RAcquire _ => (inr true, w)
  | RRelease _ => (None, w)
  | RReadRow v => (inr (w_registry pods !! v), w)
  | RHasDocuments _ => (inr (negb (bool_decide (p_slot w = ∅))), w)
  | RSorHasRows _ => (inr (negb (bool_decide (p_source w = ∅))), w)
  | (RInit _ | RAbortSlot _ | RBegin _ _ | RBeginSlot _ _ | RFlip _ | REnd _) as c => (None, setRegistry (effect "7" "pod-a" c (w_registry pods)))
  | RRefresh => (None, mkPWorld (mkRWorld (w_registry pods) (pointerOf <$> w_registry pods)) (p_source w) (p_slot w))
  | RWait => (None, w)
  | RDrop coll => (None, setSlot coll ∅)
  | RProvision _ _ => (None, w)
  | RScanIDs _ _ => (inr ((map_to_list (p_source w)).*1, None), w)
  | RCtxDone => (false, w)
  | RCompose _ ids =>
      (inr (omap (fun id => (fun row => {["id" := MStr id; docRevisionField := MInt row.1]} : Document) <$> p_source w !! id) ids), w)
  | RBulkApply coll items => (None, setSlot coll (BulkApplyProjection (p_slot w) items))
  | RSnapshot _ => (inr (SnapshotDocumentIDs (p_slot w)), w)
  | RStream _ => (inr ((fun p => (p.1, p.2.1)) <$> map_to_list (p_source w), None), w)
  | RRevisions _ ids => (inr (RevisionsByIDs noFloat (p_slot w) ids), w)
  | RDeleteIDs coll ids => (None, setSlot coll (DeleteByIDs (p_slot w) ids))
  | RPage _ _ _ => (inr [], w)
  | RCtxErr => (None, w)
  | RGrace => (None, w)
  | RThrottle _ => (tt, w)
  | RShadowActive v => (p ← w_cache pods !! v; if String.eqb (vp_shadow p) "" then None else Some (vp_shadow p), w)
  end.

Lemma serve_pods s R (c : RCall R) w : allowed "7" "pod-a" R c (p_pods w) (serve s c w).1 (p_pods (serve s c w).2).
Proof. destruct c; cbn; try (case_match; cbn); try solve [split_and!; first [reflexivity|by left]]; done. Qed.


(** A run of at most [n] calls in which nobody else moves. *)
Fixpoint drive (s : string) {A} (n : nat) (w : PWorld) (p : RebM A) : list (PWorld * REvent) * PWorld :=
  match n, p with
  | S n, RDo c k =>
      let a := serve s c w in
      let rest := drive s n a.2 (k a.1) in
      ((w, REv c a.1) :: rest.1, rest.2)
  | _, _ => ([], w)
  end.

(** A world that may stay as it is. *)
Definition calm (w : PWorld) : bool :=
  match w_registry (p_pods w) !! "customers" with
  | Some row => match rr_ShadowCollection row with
                | Some x => negb (String.eqb x (servingSlot (w_registry (p_pods w)) "customers"))
                | None => true
                end
  | None => true
  end.

Lemma calm_rely w : calm w = true -> rely "customers" (p_pods w) (p_pods w).
Proof.
  intros Hap. split_and!; [done| |by left]. intros row x Hrow Hx. unfold calm in Hap. rewrite Hrow, Hx in Hap.
  by destruct (String.eqb_spec x (servingSlot (w_registry (p_pods w)) "customers")).
Qed.


(** The runs of the pods' part of the worlds. *)
Lemma pods_run s {A} n : forall w (p : RebM A), forallb (fun e => calm e.1) (drive s n w p).1 = true ->
  partialRun (rely "customers") (allowed "7" "pod-a") (p_pods w) p ((fun e => (p_pods e.1, e.2)) <$> (drive s n w p).1) (p_pods (drive s n w p).2).
Proof.
  induction n as [|n IH]; intros w p; [intros _; constructor|]. destruct p as [a|R c k]; [intros _; constructor|]. cbn.
  intros [Hcalm Hrest]%andb_true_iff. econstructor; [by apply calm_rely|apply serve_pods|]. by apply IH.
Qed.

(** The registry row of a view that reads from [active], at a first version. *)
Definition rowAt (active : option string) : ViewRegistryRow :=
  mkRow 1 "r1" "a1" "h1" None None None ViewRegistryStatusDone None None None 10 "shop" None active None.

Definition registryAt (active : option string) : Registry := {["customers" := rowAt active]}.

Definition shopPlan (active : option string) : DriftPlan := mkPlan shopView DriftRebuildRequired (Some (rowAt active)) 2 "r2" "a2" "h2".
Definition shopConfig : RebuildConfig := mkRebuildConfig "delete" "shop" "" 4 100.
Definition shopRows : gmap string (Z * bool) := {["c1" := (3%Z, false); "c2" := (1%Z, false)]}.

(** [cached] is what the pod's resolver last read. *)
Definition shopWorld (cached active : option string) : PWorld :=
  mkPWorld (mkRWorld (registryAt active) (pointerOf <$> registryAt cached)) shopRows ∅.

Definition rebuildOf (n : nat) (s : string) (cached active : option string) : list (PWorld * REvent) * PWorld :=
  drive s n (shopWorld cached active) (ExecuteRebuild noFloat inOrder (shopPlan cached) shopConfig).


Lemma rebuild_pods n s cached active : forallb (fun e => calm e.1) (rebuildOf n s cached active).1 = true ->
  partialRun (rely "customers") (allowed "7" "pod-a") (p_pods (shopWorld cached active))
    (ExecuteRebuild noFloat inOrder (shopPlan cached) shopConfig)
    ((fun e => (p_pods e.1, e.2)) <$> (rebuildOf n s cached active).1) (p_pods (rebuildOf n s cached active).2).
Proof. apply pods_run. Qed.

Lemma shop_calm : forallb (fun e => calm e.1) (rebuildOf 60 "customers__0" None None).1 = true.
Proof. vm_compute. reflexivity. Qed.



Lemma stale_calm : forallb (fun e => calm e.1) (rebuildOf 6 "customers__1" (Some "customers__0") (Some "customers__1")).1 = true.
Proof. vm_compute. reflexivity. Qed.

(** The slot that serves reads is dropped. *)
Lemma stale_drop :
  (fun e => (servingSlot (w_registry (p_pods e.1)) "customers", e.2)) <$> (rebuildOf 6 "customers__1" (Some "customers__0") (Some "customers__1")).1 !! 5%nat =
  Some ("customers__1", REv (RDrop "customers__1") None).
Proof. vm_compute. reflexivity. Qed.

#[local] Opaque rebuildOf.


Lemma shop_current : current "customers" "customers" (p_pods (shopWorld None None)).
Proof.
  split_and!; [reflexivity| |reflexivity]. intros row x Hrow Hx. cbn in Hrow. unfold registryAt in Hrow.
  rewrite lookup_singleton_eq in Hrow. by injection Hrow as <-.
Qed.


Lemma rebuild_spares_the_serving_slot_witness :
  Forall (sparesServing "customers") ((fun e => (p_pods e.1, e.2)) <$> (rebuildOf 60 "customers__0" None None).1).
Proof.
  apply (rebuild_spares_the_serving_slot "7" "pod-a" noFloat inOrder (shopPlan None) shopConfig (p_pods (shopWorld None None)) _
    (p_pods (rebuildOf 60 "customers__0" None None).2)).
  - exact shop_current.
  - intros row x [= <-]. done.
  - exact (rebuild_pods _ _ _ _ shop_calm).
Defined.


(** A pod whose pointer is older than another pod's flip builds its shadow over the slot that
    serves reads: the slots are resolved before the lock is taken, and never again. *)
Theorem stale_pointer_drops_the_serving_slot :
  exists tr w',
    partialRun (rely "customers") (allowed "7" "pod-a") (p_pods (shopWorld (Some "customers__0") (Some "customers__1")))
      (ExecuteRebuild noFloat inOrder (shopPlan (Some "customers__0")) shopConfig) tr w' /\
    ~ Forall (sparesServing "customers") tr.
Proof.
  exists ((fun e => (p_pods e.1, e.2)) <$> (rebuildOf 6 "customers__1" (Some "customers__0") (Some "customers__1")).1),
    (p_pods (rebuildOf 6 "customers__1" (Some "customers__0") (Some "customers__1")).2). split.
  - exact (rebuild_pods _ _ _ _ stale_calm).
  - intros Hall. pose proof stale_drop as He. rewrite Forall_fmap in Hall.
    destruct ((rebuildOf 6 "customers__1" (Some "customers__0") (Some "customers__1")).1 !! 5%nat) as [[u e]|] eqn:E; [|done].
    injection He as Hu ->. apply (proj1 (Forall_lookup _ _) Hall) in E. unfold sparesServing in E. cbn in E. by rewrite Hu in E.
Qed.

(** A rebuild whose shadow flag another process cleared flips nothing and is still recorded as
    done: the serving slot is the old one, and no boot sees drift again. *)
Theorem aborted_rebuild_is_recorded_done reg row i populated sorPopulated specVersion specRebuildHash :
  reg !! ri_ViewName i = Some row -> populated || negb sorPopulated = true ->
  exists row', EndRebuild i (flipSlot (ri_ViewName i) (abortSlotRebuild (ri_ViewName i) reg)) !! ri_ViewName i = Some row' /\
    rr_ActiveCollection row' = rr_ActiveCollection row /\ rr_Status row' = ViewRegistryStatusDone /\
    decideDrift (Some row') populated sorPopulated specVersion specRebuildHash (ri_CombinedHash i) = DriftNone.
Proof.
  intros Hrow Hpop. unfold EndRebuild, flipSlot, abortSlotRebuild. eexists. rewrite !lookup_alter_eq, Hrow. cbn. split_and!; [done..|].
  rewrite String.eqb_refl. by destruct populated, sorPopulated.
Qed.

(** The registry of a shop whose rebuild is announced at 10. *)
Definition announced (t : Z) : Registry :=
  if Z.leb 10 t then beginSlotRebuild "customers" "customers__0" (registryAt None) else registryAt None.

Lemma announced_flagged : flagged announced "customers" "customers__0" 10.
Proof. intros t Ht. unfold announced. rewrite (proj2 (Z.leb_le 10 t) Ht). eexists. split; [vm_compute; reflexivity|]. reflexivity. Qed.

(** A driver that waits for the lease only may start while a process that refreshed around the
    announcement still applies its events to the serving slot alone. *)
Theorem one_lease_is_not_enough :
  exists reads r t0 now,
    flagged reads "customers" "customers__0" 10 /\ refreshedFrom reads 2 t0 r /\ (10 + vr_lease r <= now)%Z /\
    forall rows stamp, EnsureFresh now rows stamp r = Some r /\ ShadowActive r "customers" = None.
Proof.
  exists announced, (mkResolver 5 (pointerOf <$> registryAt None) 11), 9%Z, 15%Z. split_and!.
  - exact announced_flagged.
  - split; [done|]. cbn. lia.
  - done.
  - intros rows stamp. split; [done|]. vm_compute. reflexivity.
Qed.

(** A process that refreshed after the announcement need not read again. *)
Lemma fence_shows_the_shadow_witness :
  ShadowActive (mkResolver 5 (pointerOf <$> announced 12) 13) "customers" = Some "customers__0".
Proof.
  apply (fence_shows_the_shadow announced "customers" "customers__0" 10 2 (mkResolver 5 (pointerOf <$> announced 12) 13) 12 17 17 18).
  - exact announced_flagged.
  - discriminate.
  - split; [reflexivity|cbn; lia].
  - lia.
  - cbn. lia.
  - cbn. lia.
  - lia.
  - reflexivity.
Defined.

Lemma physical_names_lead_back_witness : ViewNameOf "customers__1" = "customers".
Proof. apply physical_names_lead_back; [vm_compute; reflexivity|]. unfold PhysicalCollectionNames. right. right. left. Defined.

Lemma aborted_rebuild_is_recorded_done_witness :
  exists row', EndRebuild (mkInput "customers" 2 "r2" "a2" "h2" "shop" "" 20)
      (flipSlot "customers" (abortSlotRebuild "customers" (beginSlotRebuild "customers" "customers__0" (registryAt None)))) !! "customers" = Some row' /\
    rr_ActiveCollection row' = None /\ rr_Status row' = ViewRegistryStatusDone /\ decideDrift (Some row') true true 2 "r2" "h2" = DriftNone.
Proof.
  apply (aborted_rebuild_is_recorded_done (beginSlotRebuild "customers" "customers__0" (registryAt None)) (withSlots None (Some "customers__0") (rowAt None))
    (mkInput "customers" 2 "r2" "a2" "h2" "shop" "" 20) true true 2 "r2").
  - vm_compute. reflexivity.
  - reflexivity.
Defined.

End ShopRebuild.
