(* ===== verification/ViewGraph.v ===== *)
(** * The graph of views that embed views

    The walks of [infra/db/query/view.go] over the views a [JoinView] leg materializes:
    the boot guard against cycles, the order a rebuild follows, and the views a write
    ripples to; [RebuildAllViews] of [infra/db/query/rebuild.go].

    A walk recurses on the views it has not reached yet, so it runs on fuel; [None] is
    a walk that ran out of it. *)

From S2P Require Import Prelude Errors Consult Rebuild.
From stdpp Require Import base gmap strings list fin_maps.
From Stdlib Require Import ZArith Lia.

Open Scope string_scope.
Open Scope list_scope.

Inductive Color := White | Grey | Black.

#[export] Instance Color_eq_dec : EqDecision Color.
Proof. solve_decision. Defined.

(** ** Edges *)

Definition legView (l : option Leg) : option string := l ≫= lg_view.

(** The legs of a view, those of its children's embeds last. *)
Definition viewLegs (v : ViewDefinition) : list (option Leg) := (em_leg <$> vd_embeds v) ++ (ce_leg <$> vd_childEmbeds v).

(** The views the legs materialize. *)
Definition legViews (v : ViewDefinition) : list string := omap legView (viewLegs v).

(** The names once each, in the order they are first met. *)
Definition EmbedSourceViews (v : ViewDefinition) : list string :=
  foldl (fun out name => if bool_decide (name ∈ out) then out else out ++ [name]) [] (legViews v).

Definition viewEmbedsView (embeds : list embedDef) (viewName : string) : bool :=
  existsb (fun e => bool_decide (legView (em_leg e) = Some viewName)) embeds.

Definition viewChildEmbedsView (childEmbeds : list childEmbedDef) (viewName : string) : bool :=
  existsb (fun ce => bool_decide (legView (ce_leg ce) = Some viewName)) childEmbeds.

Definition DependentViewViews (views : list ViewDefinition) (viewName : string) : list ViewDefinition :=
  List.filter (fun v => viewEmbedsView (vd_embeds v) viewName || viewChildEmbedsView (vd_childEmbeds v) viewName) views.

(** ** Cycles *)

(** The edges by the name of a view; a view without any has no entry. *)
Definition addEdges (edges : gmap string (list string)) (v : ViewDefinition) : gmap string (list string) :=
  match legViews v with [] => edges | out => <[vd_name v := out]> edges end.

Definition embedEdges (views : list ViewDefinition) : gmap string (list string) := foldl addEdges ∅ views.

Definition successors (edges : gmap string (list string)) (name : string) : list string := default [] (edges !! name).

(** A cycle is reported as the names it is walked by; its text is a diagnostic. *)
Record cycleState := mkCycleState {
  cs_color : gmap string Color;
  cs_path : list string;
  cs_reported : list (list string);
  cs_acc : list (list string)
}.

Definition colorOf (color : gmap string Color) (name : string) : Color := default White (color !! name).

(** The path from the first place the name is at; all of it when it is nowhere. *)
Fixpoint fromName (name : string) (path : list string) : option (list string) :=
  match path with
  | [] => None
  | p :: rest => if String.eqb p name then Some path else fromName name rest
  end.

Definition reportCycle (next : string) (st : cycleState) : cycleState :=
  let cycle := default (cs_path st) (fromName next (cs_path st)) ++ [next] in
  if bool_decide (cycle ∈ cs_reported st) then st
  else mkCycleState (cs_color st) (cs_path st) (cs_reported st ++ [cycle]) (cs_acc st ++ [cycle]).

Fixpoint walk (fuel : nat) (edges : gmap string (list string)) (name : string) (st : cycleState) : option cycleState :=
  match fuel with
  | O => None
  | S fuel =>
      let each := fix each (nexts : list string) (st : cycleState) : option cycleState :=
        match nexts with
        | [] => Some st
        | next :: rest =>
            match colorOf (cs_color st) next with
            | Grey => each rest (reportCycle next st)
            | White => walk fuel edges next st ≫= each rest
            | Black => each rest st
            end
        end in
      st ← each (successors edges name)
        (mkCycleState (<[name := Grey]> (cs_color st)) (cs_path st ++ [name]) (cs_reported st) (cs_acc st));
      Some (mkCycleState (<[name := Black]> (cs_color st)) (removelast (cs_path st)) (cs_reported st) (cs_acc st))
  end.

Fixpoint walkAll (fuel : nat) (edges : gmap string (list string)) (views : list ViewDefinition) (st : cycleState) : option cycleState :=
  match views with
  | [] => Some st
  | v :: rest =>
      match colorOf (cs_color st) (vd_name v) with
      | White => walk fuel edges (vd_name v) st ≫= walkAll fuel edges rest
      | _ => walkAll fuel edges rest st
      end
  end.

(** The names a walk can meet. *)
Definition graphNames (views : list ViewDefinition) : list string :=
  (vd_name <$> views) ++ (views ≫= legViews).

Definition appendEmbedCycles (acc : list (list string)) (views : list ViewDefinition) : option (list (list string)) :=
  let edges := embedEdges views in
  if bool_decide (edges = ∅) then Some acc
  else cs_acc <$> walkAll (S (length (graphNames views))) edges views (mkCycleState ∅ [] [] acc).

(** ** The order of a rebuild *)

(** The last view of a name. *)
Definition byName (views : list ViewDefinition) : gmap string ViewDefinition := foldl (fun m v => <[vd_name v := v]> m) ∅ views.

Record orderState := mkOrderState { os_color : gmap string Color; os_out : list ViewDefinition }.

Fixpoint visit (fuel : nat) (names : gmap string ViewDefinition) (v : ViewDefinition) (st : orderState) : option orderState :=
  match fuel with
  | O => None
  | S fuel =>
      match colorOf (os_color st) (vd_name v) with
      | Black | Grey => Some st
      | White =>
          let each := fix each (sources : list string) (st : orderState) : option orderState :=
            match sources with
            | [] => Some st
            | srcName :: rest =>
                match names !! srcName with
                | Some src => visit fuel names src st ≫= each rest
                | None => each rest st
                end
            end in
          st ← each (EmbedSourceViews v) (mkOrderState (<[vd_name v := Grey]> (os_color st)) (os_out st));
          Some (mkOrderState (<[vd_name v := Black]> (os_color st)) (os_out st ++ [v]))
      end
  end.

Fixpoint visitAll (fuel : nat) (names : gmap string ViewDefinition) (views : list ViewDefinition) (st : orderState) : option orderState :=
  match views with
  | [] => Some st
  | v :: rest => visit fuel names v st ≫= visitAll fuel names rest
  end.

Definition OrderViewsByEmbedDependency (views : list ViewDefinition) : option (list ViewDefinition) :=
  os_out <$> visitAll (S (S (length views))) (byName views) views (mkOrderState ∅ []).

(** ** Rebuilding every view *)

(** [collect]: each view once, by its name; [views] is what the maps of the index give, in
    the order they are walked. *)
Definition collectViews (views : list ViewDefinition) : list ViewDefinition :=
  foldl (fun all v => if bool_decide (vd_name v ∈ vd_name <$> all) then all else all ++ [v]) [] views.

Fixpoint rebuildEach (floatToInt : string -> Z) (order : list (list string) -> list (list string)) (views : list ViewDefinition) :
  RebM (option GoErr) :=
  match views with
  | [] => RRet None
  | v :: rest => orReturn (RebuildView floatToInt order v) (rebuildEach floatToInt order rest)
  end.

Definition RebuildAllViews (floatToInt : string -> Z) (order : list (list string) -> list (list string)) (views : list ViewDefinition) :
  option (RebM (option GoErr)) :=
  rebuildEach floatToInt order <$> OrderViewsByEmbedDependency (collectViews views).
