(* ===== verification/ViewGraphClaims.v ===== *)
(** * The walks over the views that embed views

    A reference depth-first walk with what it guarantees, the walks of [ViewGraph] as
    instances of it, and the theorems on the cycle guard and on the order of a rebuild. *)

From S2P Require Import Prelude Errors Projection Consult ProjectionClaims Rebuild ViewGraph.
From stdpp Require Import base gmap strings list fin_maps relations.
From Stdlib Require Import ZArith Lia.

Open Scope string_scope.
Open Scope list_scope.

(** * Depth-first walks

    A reference walk that carries its path and the names it has finished, what it
    guarantees on any graph, and the walks of [ViewGraph] as instances of it. *)

(** ** The reference walk *)

(** A meeting with a name on the path: the path and the name. *)
Abbreviation Hit := (list string * string)%type.

Section Walk.
Context (succ : string -> list string).

Fixpoint dfs (fuel : nat) (path : list string) (name : string) (s : list string * list Hit) : option (list string * list Hit) :=
  match fuel with
  | O => None
  | S fuel =>
      let each := fix each (nexts : list string) (s : list string * list Hit) : option (list string * list Hit) :=
        match nexts with
        | [] => Some s
        | next :: rest =>
            if bool_decide (next ∈ s.1) then each rest s
            else if bool_decide (next ∈ path ++ [name]) then each rest (s.1, s.2 ++ [(path ++ [name], next)])
            else dfs fuel (path ++ [name]) next s ≫= each rest
        end in
      s ← each (succ name) s;
      Some (s.1 ++ [name], s.2)
  end.

(** The loop over the successors, by itself. *)
Fixpoint dfsEach (fuel : nat) (path : list string) (nexts : list string) (s : list string * list Hit) : option (list string * list Hit) :=
  match nexts with
  | [] => Some s
  | next :: rest =>
      if bool_decide (next ∈ s.1) then dfsEach fuel path rest s
      else if bool_decide (next ∈ path) then dfsEach fuel path rest (s.1, s.2 ++ [(path, next)])
      else dfs fuel path next s ≫= dfsEach fuel path rest
  end.

Lemma dfs_unfold fuel path name s :
  dfs (S fuel) path name s = (s ← dfsEach fuel (path ++ [name]) (succ name) s; Some (s.1 ++ [name], s.2)).
Proof using.
  cbn [dfs]. generalize (succ name). intros nexts.
  assert (Heq : forall s, (fix each (nexts : list string) (s : list string * list Hit) : option (list string * list Hit) :=
        match nexts with
        | [] => Some s
        | next :: rest =>
            if bool_decide (next ∈ s.1) then each rest s
            else if bool_decide (next ∈ path ++ [name]) then each rest (s.1, s.2 ++ [(path ++ [name], next)])
            else dfs fuel (path ++ [name]) next s ≫= each rest
        end) nexts s = dfsEach fuel (path ++ [name]) nexts s).
  { induction nexts as [|next nexts IH]; intros s0; [done|]. cbn. do 2 (case_bool_decide; [by rewrite IH|]).
    destruct (dfs fuel (path ++ [name]) next s0); [apply IH|done]. }
  by rewrite Heq.
Qed.

Definition edge (a b : string) : Prop := b ∈ succ a.
Definition acyclic : Prop := forall a, ~ tc edge a a.

(** Every name comes after its successors. *)
Inductive topo : list string -> Prop :=
| topo_nil : topo []
| topo_snoc l x : topo l -> (forall s, edge x s -> s ∈ l) -> topo (l ++ [x]).

(** The names of a path, each a successor of the one before. *)
Inductive chain : list string -> Prop :=
| chain_one x : chain [x]
| chain_snoc l x y : chain (l ++ [x]) -> edge x y -> chain ((l ++ [x]) ++ [y]).

(** The name closes a cycle with the path. *)
Definition closes (h : Hit) : Prop := exists l x, h.1 = l ++ [x] /\ chain (l ++ [x]) /\ h.2 ∈ h.1 /\ edge x h.2.

(** What a walk has done from [s] to [s']. *)
Record extends (U path : list string) (s s' : list string * list Hit) : Prop := {
  ext_fin : exists l, s'.1 = s.1 ++ l;
  ext_hits : exists hs, s'.2 = s.2 ++ hs /\ Forall closes hs;
  ext_nodup : NoDup (path ++ s'.1);
  ext_in : s'.1 ⊆ U;
  ext_topo : s'.2 = [] -> topo s.1 -> topo s'.1
}.

Lemma extends_refl U path s : NoDup (path ++ s.1) -> s.1 ⊆ U -> extends U path s s.
Proof using. intros Hnd Hin. split; [exists []; by rewrite app_nil_r|exists []; by rewrite app_nil_r|done|done|done]. Qed.

Lemma extends_trans U path s s1 s2 : extends U path s s1 -> extends U path s1 s2 -> extends U path s s2.
Proof using.
  intros [[l Hl] [hs [Hhs Hc]] _ _ Ht] [[l2 Hl2] [hs2 [Hhs2 Hc2]] Hnd Hin Ht2]. split.
  - exists (l ++ l2). by rewrite Hl2, Hl, app_assoc.
  - exists (hs ++ hs2). rewrite Hhs2, Hhs, app_assoc. split; [done|]. by apply Forall_app.
  - done.
  - done.
  - intros Hnil Htopo. apply Ht2; [done|]. apply Ht; [|done]. rewrite Hhs2 in Hnil. by apply app_nil in Hnil as [-> _].
Qed.

(** ** What the walk guarantees *)

(** [U] holds every name; the fuel covers the names not met yet. *)
Section Correct.
Context (U : list string) (HU : NoDup U) (Hclosed : forall a b, a ∈ U -> edge a b -> b ∈ U).

Definition enough (fuel : nat) (path fin : list string) : Prop := (length U <= fuel + length (path ++ fin))%nat.

Definition walkOk (fuel : nat) : Prop := forall path name s,
  NoDup ((path ++ [name]) ++ s.1) -> chain (path ++ [name]) -> path ++ [name] ⊆ U -> s.1 ⊆ U ->
  enough fuel path s.1 ->
  exists s', dfs fuel path name s = Some s' /\ extends U path s s' /\ name ∈ s'.1.

Lemma dfsEach_ok fuel path x : walkOk fuel -> chain (path ++ [x]) -> path ++ [x] ⊆ U -> forall nexts s,
  (forall n, n ∈ nexts -> edge x n) -> NoDup ((path ++ [x]) ++ s.1) -> s.1 ⊆ U -> enough fuel (path ++ [x]) s.1 ->
  exists s', dfsEach fuel (path ++ [x]) nexts s = Some s' /\ extends U (path ++ [x]) s s' /\ (s'.2 = [] -> forall n, n ∈ nexts -> n ∈ s'.1).
Proof using HU Hclosed.
  intros Hok Hchain Hpath nexts. induction nexts as [|n nexts IH]; intros s Hsucc Hnd Hin Hfuel.
  { exists s. split_and!; [done|by apply extends_refl|]. by intros _ n []%not_elem_of_nil. }
  assert (Hx : x ∈ U) by (apply Hpath; set_solver). cbn [dfsEach].
  assert (Hrest : forall s1, extends U (path ++ [x]) s s1 -> (s1.2 = [] -> n ∈ s1.1) ->
    exists s', dfsEach fuel (path ++ [x]) nexts s1 = Some s' /\ extends U (path ++ [x]) s s' /\ (s'.2 = [] -> forall m, m ∈ n :: nexts -> m ∈ s'.1)).
  { intros s1 Hext Hn. destruct (IH s1) as (s'&Hs'&Hext'&Hall); [intros m Hm; apply Hsucc; by right|apply Hext|apply Hext| |].
    { unfold enough in *. destruct Hext as [[l Hl] _ _ _ _]. rewrite Hl. rewrite !length_app in *. lia. }
    exists s'. split_and!; [done|by eapply extends_trans|]. intros Hnil m [->|Hm]%elem_of_cons; [|by apply Hall].
    destruct Hext' as [[l ->] [hs [Hhs _]] _ _ _]. apply elem_of_app. left. apply Hn. rewrite Hhs in Hnil. by apply app_nil in Hnil as [-> _]. }
  case_bool_decide as Hfin; [apply Hrest; [by apply extends_refl|done]|]. case_bool_decide as Hon.
  - apply Hrest.
    + split; cbn; [exists []; by rewrite app_nil_r| |done|done|by intros []%app_nil].
      exists [(path ++ [x], n)]. split; [done|]. constructor; [|done]. exists path, x. split_and!; [done..|]. apply Hsucc. by left.
    + cbn. by intros []%app_nil.
  - destruct (Hok (path ++ [x]) n s) as (s1&Hs1&Hext&Hn).
    + assert (n ∉ (path ++ [x]) ++ s.1) by set_solver. apply (NoDup_app). apply NoDup_app in Hnd as (H1&H2&H3). split_and!.
      * apply NoDup_app. split_and!; [done|set_solver|apply NoDup_singleton].
      * set_solver.
      * done.
    + constructor; [done|]. apply Hsucc. by left.
    + intros m [Hm|Hm%list_elem_of_singleton]%elem_of_app; [by apply Hpath|]. subst m. apply (Hclosed x); [done|]. apply Hsucc. by left.
    + done.
    + done.
    + rewrite Hs1. cbn. apply Hrest; [done|]. done.
Qed.

Lemma dfs_ok fuel : walkOk fuel.
Proof using HU Hclosed.
  induction fuel as [|fuel IH]; intros path name s Hnd Hchain Hpath Hin Hfuel.
  { exfalso. assert (Hsub : (path ++ [name]) ++ s.1 ⊆ U) by set_solver. apply (NoDup_submseteq _ _ Hnd) in Hsub.
    apply submseteq_length in Hsub. unfold enough in Hfuel. rewrite !length_app in *. cbn in *. lia. }
  rewrite dfs_unfold. destruct (dfsEach_ok fuel path name IH Hchain Hpath (succ name) s) as (s'&Hs'&Hext&Hall); [done..| |].
  { unfold enough in *. rewrite !length_app in *. cbn. lia. }
  rewrite Hs'. cbn. exists (s'.1 ++ [name], s'.2). destruct Hext as [[l Hl] Hhits Hnd' Hin' Htopo]. split_and!; [done| |cbn; set_solver].
  split; cbn.
  - exists (l ++ [name]). by rewrite Hl, app_assoc.
  - done.
  - assert (Hp : path ++ s'.1 ++ [name] ≡ₚ (path ++ [name]) ++ s'.1) by (rewrite <- app_assoc; apply Permutation_app_head, Permutation_app_comm).
    by rewrite Hp.
  - set_solver.
  - intros Hnil Ht. constructor; [by apply Htopo|]. intros n Hn. by apply Hall.
Qed.

(** The walks from several names, none of them on a path. *)
Fixpoint dfsAll (fuel : nat) (names : list string) (s : list string * list Hit) : option (list string * list Hit) :=
  match names with
  | [] => Some s
  | name :: rest => if bool_decide (name ∈ s.1) then dfsAll fuel rest s else dfs fuel [] name s ≫= dfsAll fuel rest
  end.

Lemma dfsAll_ok fuel names : (length U <= fuel)%nat -> names ⊆ U -> forall s, NoDup s.1 -> s.1 ⊆ U ->
  exists s', dfsAll fuel names s = Some s' /\ extends U [] s s' /\ names ⊆ s'.1.
Proof using HU Hclosed.
  intros Hfuel. induction names as [|name names IH]; intros Hnames s Hnd Hin; [exists s; split_and!; [done|by apply extends_refl|set_solver]|].
  assert (Hrest : forall s1, extends U [] s s1 -> name ∈ s1.1 ->
    exists s', dfsAll fuel names s1 = Some s' /\ extends U [] s s' /\ name :: names ⊆ s'.1).
  { intros s1 Hext Hn. destruct (IH ltac:(set_solver) s1) as (s'&Hs'&Hext'&Hall); [apply Hext..|]. exists s'.
    split_and!; [done|by eapply extends_trans|]. destruct Hext' as [[l Hl] _ _ _ _].
    intros m [->|Hm]%elem_of_cons; [rewrite Hl; apply elem_of_app; by left|by apply Hall]. }
  cbn [dfsAll]. case_bool_decide as Hfin; [apply Hrest; [by apply extends_refl|done]|].
  destruct (dfs_ok fuel [] name s) as (s1&Hs1&Hext&Hn); [|constructor|set_solver|done| |].
  - cbn. constructor; done.
  - unfold enough. lia.
  - rewrite Hs1. cbn. by apply Hrest.
Qed.

End Correct.

(** ** Cycles *)

Lemma topo_closed l x y : topo l -> x ∈ l -> tc edge x y -> y ∈ l.
Proof using.
  intros Ht Hx Htc. induction Htc as [x y Hxy|x y z Hxy Htc IH].
  - revert Hx. induction Ht as [|l z Ht IHt Hz]; [by intros []%not_elem_of_nil|].
    intros [Hx|Hx%list_elem_of_singleton]%elem_of_app; apply elem_of_app; left; [by apply IHt|subst z; by apply Hz].
  - apply IH. clear IH Htc. revert Hx. induction Ht as [|l u Ht IHt Hu]; [by intros []%not_elem_of_nil|].
    intros [Hx|Hx%list_elem_of_singleton]%elem_of_app; apply elem_of_app; left; [by apply IHt|subst u; by apply Hu].
Qed.

Lemma tc_first a b : tc edge a b -> exists s, edge a s /\ (s = b \/ tc edge s b).
Proof using. intros [x y Hxy|x y z Hxy Hyz]; [exists y|exists y]; auto. Qed.

(** Names that come after their successors are on no cycle. *)
Lemma topo_acyclic l x : topo l -> NoDup l -> x ∈ l -> ~ tc edge x x.
Proof using.
  intros Ht. induction Ht as [|l z Ht IH Hz]; [by intros _ []%not_elem_of_nil|].
  intros [Hnd [Hout _]]%NoDup_app [Hx|Hx%list_elem_of_singleton]%elem_of_app Htc; [by apply IH|]. subst z.
  destruct (tc_first x x Htc) as (s&Hs%Hz&[->|Hsx]); apply (Hout x); [done|by apply list_elem_of_singleton| |by apply list_elem_of_singleton].
  by eapply topo_closed.
Qed.

(** A name on a path leads to its end. *)
Lemma chain_reaches p : chain p -> forall l x n, p = l ++ [x] -> n ∈ p -> rtc edge n x.
Proof using.
  induction 1 as [y|k y z Hc IH Hyz]; intros l x n Heq Hn.
  - destruct l as [|? [|??]]; simplify_eq/=; apply list_elem_of_singleton in Hn as ->; constructor.
  - apply app_inj_tail in Heq as [<- <-]. apply elem_of_app in Hn as [Hn|Hn%list_elem_of_singleton]; [|subst n; constructor].
    eapply rtc_r; [by eapply IH|done].
Qed.

Lemma closes_cycle h : closes h -> tc edge h.2 h.2.
Proof using.
  intros (l&x&Hp&Hc&Hin&Hedge). rewrite Hp in Hin. eapply tc_rtc_l; [by eapply chain_reaches|]. by constructor.
Qed.

(** A walk of a whole graph ends, has finished every name, and has met its own path exactly
    when the graph has a cycle; when it has not, the names come after their successors. *)
Lemma dfsAll_graph U fuel names :
  NoDup U -> (forall a b, a ∈ U -> edge a b -> b ∈ U) -> (length U <= fuel)%nat -> names ⊆ U -> (forall a b, edge a b -> a ∈ names) ->
  exists s', dfsAll fuel names ([], []) = Some s' /\ (s'.2 = [] <-> acyclic) /\ Forall closes s'.2 /\
    NoDup s'.1 /\ s'.1 ⊆ U /\ names ⊆ s'.1 /\ (acyclic -> topo s'.1).
Proof using.
  intros HU Hcl Hfuel Hnames Hedges.
  destruct (dfsAll_ok U HU Hcl fuel names Hfuel Hnames ([], []) (NoDup_nil_2) ltac:(set_solver)) as (s'&Hs'&[_ [hs [Hh Hc]] Hnd Hin Ht]&Hall).
  cbn in Hh. rewrite <- Hh in Hc. assert (Hiff : s'.2 = [] <-> acyclic).
  { split.
    - intros Hnil a Ha. apply (topo_acyclic s'.1 a); [apply Ht; [done|constructor]|done| |done]. apply Hall.
      apply tc_first in Ha as (b&Hab&_). by eapply Hedges.
    - intros Hac. destruct s'.2 as [|h hs']; [done|]. exfalso. apply (Hac h.2), closes_cycle. by inversion Hc. }
  exists s'. split_and!; [done|done|done|done|done|done|]. intros Hac. apply Ht; [by apply Hiff|constructor].
Qed.

End Walk.

(** ** The walk of the boot guard *)

Definition cycleOf (h : Hit) : list string := default h.1 (fromName h.2 h.1) ++ [h.2].

(** The colors of a walk that has finished [fin] and is on [path]. *)
Definition colored (color : gmap string Color) (path fin : list string) : Prop :=
  forall n, colorOf color n = if bool_decide (n ∈ fin) then Black else if bool_decide (n ∈ path) then Grey else White.

Lemma colored_enter color path fin name : colored color path fin -> name ∉ fin -> colored (<[name := Grey]> color) (path ++ [name]) fin.
Proof.
  intros Hc Hn m. unfold colorOf. destruct (decide (m = name)) as [->|Hne].
  - rewrite lookup_insert_eq. rewrite bool_decide_false by done. by rewrite bool_decide_true by set_solver.
  - rewrite lookup_insert_ne by done. specialize (Hc m). unfold colorOf in Hc. rewrite Hc. case_bool_decide; [done|].
    by rewrite (bool_decide_ext (m ∈ path ++ [name]) (m ∈ path)) by set_solver.
Qed.

Lemma colored_leave color path fin name : colored color (path ++ [name]) fin -> colored (<[name := Black]> color) path (fin ++ [name]).
Proof.
  intros Hc m. unfold colorOf. destruct (decide (m = name)) as [->|Hne].
  - rewrite lookup_insert_eq. by rewrite bool_decide_true by set_solver.
  - rewrite lookup_insert_ne by done. specialize (Hc m). unfold colorOf in Hc. rewrite Hc.
    rewrite (bool_decide_ext (m ∈ fin ++ [name]) (m ∈ fin)) by set_solver. case_bool_decide; [done|].
    by rewrite (bool_decide_ext (m ∈ path ++ [name]) (m ∈ path)) by set_solver.
Qed.

Section Cycles.
Context (edges : gmap string (list string)).

(** The cycles reported are those of the names met. *)
Record tracks (st : cycleState) (path : list string) (s : list string * list Hit) : Prop := {
  tr_color : colored (cs_color st) path s.1;
  tr_path : cs_path st = path;
  tr_same : cs_reported st = cs_acc st;
  tr_real : forall c, c ∈ cs_acc st -> exists h, h ∈ s.2 /\ c = cycleOf h;
  tr_all : forall h, h ∈ s.2 -> cycleOf h ∈ cs_acc st
}.

Fixpoint walkEach (fuel : nat) (nexts : list string) (st : cycleState) : option cycleState :=
  match nexts with
  | [] => Some st
  | next :: rest =>
      match colorOf (cs_color st) next with
      | Grey => walkEach fuel rest (reportCycle next st)
      | White => walk fuel edges next st ≫= walkEach fuel rest
      | Black => walkEach fuel rest st
      end
  end.

Lemma walk_unfold fuel name st :
  walk (S fuel) edges name st =
  (st ← walkEach fuel (successors edges name)
     (mkCycleState (<[name := Grey]> (cs_color st)) (cs_path st ++ [name]) (cs_reported st) (cs_acc st));
   Some (mkCycleState (<[name := Black]> (cs_color st)) (removelast (cs_path st)) (cs_reported st) (cs_acc st))).
Proof using.
  cbn [walk]. generalize (successors edges name), (mkCycleState (<[name := Grey]> (cs_color st)) (cs_path st ++ [name]) (cs_reported st) (cs_acc st)).
  intros nexts. induction nexts as [|next nexts IH]; intros st0; [done|]. cbn [walkEach].
  destruct (colorOf (cs_color st0) next); [|by rewrite IH|by rewrite IH]. destruct (walk fuel edges next st0); [apply IH|done].
Qed.

Lemma reportCycle_tracks st path s next : tracks st path s -> tracks (reportCycle next st) path (s.1, s.2 ++ [(path, next)]).
Proof using.
  intros [Hc Hp Hs Hr Ha]. unfold reportCycle. rewrite Hp, Hs. change (default path (fromName next path) ++ [next]) with (cycleOf (path, next)).
  case_bool_decide as Hin; split; cbn; try done.
  - intros c (h&Hh&->)%Hr. exists h. split; [|done]. apply elem_of_app. by left.
  - intros h [Hh|Hh%list_elem_of_singleton]%elem_of_app; [by apply Ha|]. by subst h.
  - intros c [(h&Hh&->)%Hr|Hh%list_elem_of_singleton]%elem_of_app; [exists h; split; [|done]; apply elem_of_app; by left|].
    exists (path, next). split; [|done]. apply elem_of_app. right. by apply list_elem_of_singleton.
  - intros h [Hh%Ha|Hh%list_elem_of_singleton]%elem_of_app; apply elem_of_app; [by left|]. subst h. right. by apply list_elem_of_singleton.
Qed.

Lemma walk_tracks fuel : forall path name st s s',
  dfs (successors edges) fuel path name s = Some s' -> name ∉ s.1 -> tracks st path s ->
  exists st', walk fuel edges name st = Some st' /\ tracks st' path s'.
Proof using.
  induction fuel as [|fuel IH]; intros path name st s s' Hrun Hn Htr; [done|]. rewrite dfs_unfold in Hrun. rewrite walk_unfold.
  assert (Heach : forall nexts st s s1, dfsEach (successors edges) fuel (path ++ [name]) nexts s = Some s1 -> tracks st (path ++ [name]) s ->
    exists st1, walkEach fuel nexts st = Some st1 /\ tracks st1 (path ++ [name]) s1).
  { clear Hrun Htr Hn. intros nexts. induction nexts as [|next nexts IHn]; intros st0 s0 s1 Hrun Htr; [injection Hrun as <-; by exists st0|].
    cbn [dfsEach walkEach] in *. rewrite (tr_color _ _ _ Htr next). case_bool_decide as Hfin; [by apply IHn with s0|].
    case_bool_decide as Hon; [eapply IHn; [exact Hrun|]; by apply reportCycle_tracks|].
    destruct (dfs (successors edges) fuel (path ++ [name]) next s0) as [s2|] eqn:E; [|done]. cbn in Hrun.
    destruct (IH _ _ st0 _ _ E Hfin Htr) as (st2&->&Htr2). cbn. by eapply IHn. }
  destruct (dfsEach (successors edges) fuel (path ++ [name]) (successors edges name) s) as [s1|] eqn:E; [|done]. injection Hrun as <-.
  destruct Htr as [Hc Hp Hs Hr Ha]. edestruct Heach as (st1&->&[Hc1 Hp1 Hs1 Hr1 Ha1]); [exact E| |].
  { split; cbn; [by apply colored_enter|by rewrite Hp|done|done|done]. }
  cbn. eexists. split; [done|]. split; cbn; [by apply colored_leave| |done|done|done]. rewrite Hp1. apply removelast_last.
Qed.

Lemma walkAll_tracks fuel views : forall st s s',
  dfsAll (successors edges) fuel (vd_name <$> views) s = Some s' -> tracks st [] s ->
  exists st', walkAll fuel edges views st = Some st' /\ tracks st' [] s'.
Proof using.
  induction views as [|v views IH]; intros st s s' Hrun Htr; [injection Hrun as <-; by exists st|]. cbn [walkAll dfsAll fmap list_fmap] in *.
  rewrite (tr_color _ _ _ Htr (vd_name v)). case_bool_decide as Hfin; [by eapply IH|].
  rewrite bool_decide_false by apply not_elem_of_nil. destruct (dfs (successors edges) fuel [] (vd_name v) s) as [s1|] eqn:E; [|done].
  cbn in Hrun. destruct (walk_tracks _ _ _ _ _ _ E Hfin Htr) as (st1&->&Htr1). cbn. by eapply IH.
Qed.

End Cycles.

(** ** The walk of a rebuild's order *)

Section Order.
Context (names : gmap string ViewDefinition).

(** The sources of a view that are in the set. *)
Definition sourcesOf (v : ViewDefinition) : list string := List.filter (fun n => bool_decide (is_Some (names !! n))) (EmbedSourceViews v).
Definition orderEdges (n : string) : list string := match names !! n with Some v => sourcesOf v | None => [] end.

Record follows (st : orderState) (path : list string) (s : list string * list Hit) : Prop := {
  fo_color : colored (os_color st) path s.1;
  fo_out : vd_name <$> os_out st = s.1;
  fo_known : forall v, v ∈ os_out st -> names !! vd_name v = Some v
}.

Fixpoint visitEach (fuel : nat) (sources : list string) (st : orderState) : option orderState :=
  match sources with
  | [] => Some st
  | srcName :: rest =>
      match names !! srcName with
      | Some src => visit fuel names src st ≫= visitEach fuel rest
      | None => visitEach fuel rest st
      end
  end.

Lemma visit_unfold fuel v st :
  visit (S fuel) names v st =
  match colorOf (os_color st) (vd_name v) with
  | Black | Grey => Some st
  | White =>
      st ← visitEach fuel (EmbedSourceViews v) (mkOrderState (<[vd_name v := Grey]> (os_color st)) (os_out st));
      Some (mkOrderState (<[vd_name v := Black]> (os_color st)) (os_out st ++ [v]))
  end.
Proof using.
  cbn [visit]. destruct (colorOf (os_color st) (vd_name v)); [|done..].
  generalize (EmbedSourceViews v), (mkOrderState (<[vd_name v := Grey]> (os_color st)) (os_out st)).
  intros sources. induction sources as [|n sources IH]; intros st0; [done|]. cbn [visitEach].
  destruct (names !! n) as [src|]; [|by rewrite IH]. destruct (visit fuel names src st0); [apply IH|done].
Qed.

(** The keys of the map are the names of its views. *)
Context (Hnames : forall n v, names !! n = Some v -> vd_name v = n).

Lemma follows_hits st path fin hits hits' : follows st path (fin, hits) -> follows st path (fin, hits').
Proof using. by intros [Hc Ho Hk]. Qed.

Lemma visit_follows fuel : forall path v st s s',
  dfs orderEdges fuel path (vd_name v) s = Some s' -> names !! vd_name v = Some v -> vd_name v ∉ s.1 -> vd_name v ∉ path ->
  follows st path s -> exists st', visit (S fuel) names v st = Some st' /\ follows st' path s'.
Proof using Hnames.
  induction fuel as [|fuel IH]; intros path v st s s' Hrun Hv Hn Hp Hfo; [done|]. rewrite dfs_unfold in Hrun. rewrite visit_unfold.
  rewrite (fo_color _ _ _ Hfo). rewrite !bool_decide_false by done. unfold orderEdges in Hrun at 2. rewrite Hv in Hrun.
  assert (Heach : forall sources st s s1,
    dfsEach orderEdges fuel (path ++ [vd_name v]) (List.filter (fun n => bool_decide (is_Some (names !! n))) sources) s = Some s1 ->
    follows st (path ++ [vd_name v]) s -> exists st1, visitEach (S fuel) sources st = Some st1 /\ follows st1 (path ++ [vd_name v]) s1).
  { clear Hrun Hfo Hn. intros sources. induction sources as [|n sources IHn]; intros st0 s0 s1 Hrun Hfo; [injection Hrun as <-; by exists st0|].
    cbn [visitEach List.filter] in *. destruct (names !! n) as [src|] eqn:Hsrc; [|by eapply IHn].
    rewrite bool_decide_true in Hrun by done. cbn [dfsEach] in Hrun. pose proof (Hnames _ _ Hsrc) as <-.
    case_bool_decide as Hfin; [|case_bool_decide as Hon].
    - rewrite visit_unfold, (fo_color _ _ _ Hfo), bool_decide_true by done. cbn. by eapply IHn.
    - rewrite visit_unfold, (fo_color _ _ _ Hfo), bool_decide_false, bool_decide_true by done. cbn. eapply IHn; [exact Hrun|].
      destruct s0. by eapply follows_hits.
    - destruct (dfs orderEdges fuel (path ++ [vd_name v]) (vd_name src) s0) as [s2|] eqn:E; [|done]. cbn in Hrun.
      destruct (IH _ _ _ _ _ E Hsrc Hfin Hon Hfo) as (st2&->&Hfo2). cbn. by eapply IHn. }
  destruct (dfsEach orderEdges fuel (path ++ [vd_name v]) (sourcesOf v) s) as [s1|] eqn:E; [|done]. injection Hrun as <-.
  destruct Hfo as [Hc Ho Hk]. edestruct Heach as (st1&->&[Hc1 Ho1 Hk1]); [exact E| |].
  { split; cbn; [by apply colored_enter|done|done]. }
  cbn. eexists. split; [done|]. split; cbn; [by apply colored_leave| |].
  - by rewrite fmap_app, Ho1.
  - intros u [Hu|Hu%list_elem_of_singleton]%elem_of_app; [by apply Hk1|]. by subst u.
Qed.

Lemma visitAll_follows fuel views : (forall v, v ∈ views -> names !! vd_name v = Some v) -> forall st s s',
  dfsAll orderEdges fuel (vd_name <$> views) s = Some s' -> follows st [] s ->
  exists st', visitAll (S fuel) names views st = Some st' /\ follows st' [] s'.
Proof using Hnames.
  induction views as [|v views IH]; intros Hviews st s s' Hrun Hfo; [injection Hrun as <-; by exists st|].
  cbn [visitAll dfsAll fmap list_fmap] in *. case_bool_decide as Hfin.
  - rewrite visit_unfold, (fo_color _ _ _ Hfo), bool_decide_true by done. cbn. eapply IH; [|exact Hrun|done]. intros u Hu. apply Hviews. by right.
  - destruct (dfs orderEdges fuel [] (vd_name v) s) as [s1|] eqn:E; [|done]. cbn in Hrun.
    destruct (visit_follows fuel [] v st s s1 E) as (st1&->&Hfo1); [apply Hviews; by left|done|apply not_elem_of_nil|done|].
    cbn. eapply IH; [|exact Hrun|done]. intros u Hu. apply Hviews. by right.
Qed.

End Order.

(** ** Theorems on the graph of views

    The boot guard refuses exactly the graphs with a cycle, and the order of a rebuild puts
    every source before the views that embed it. *)

(** A view of the list named [a] has a leg over the view [b]. *)
Definition embeds (views : list ViewDefinition) (a b : string) : Prop :=
  exists v, v ∈ views /\ vd_name v = a /\ b ∈ legViews v.

(** ** Edges of the walks *)

Lemma embedEdges_lookup views : NoDup (vd_name <$> views) -> forall v, v ∈ views -> successors (embedEdges views) (vd_name v) = legViews v.
Proof.
  unfold embedEdges, successors. intros Hnd v Hv.
  assert (Hout : forall l (m : gmap string (list string)) n, n ∉ vd_name <$> l ->
    foldl addEdges m l !! n = m !! n).
  { intros l. induction l as [|u l IH]; intros m n Hn; [done|]. cbn in *. apply not_elem_of_cons in Hn as [Hne Hn]. rewrite IH by done. unfold addEdges.
    destruct (legViews u); [done|]. by rewrite lookup_insert_ne. }
  assert (Hgen : forall (m : gmap string (list string)), m !! vd_name v = None ->
    default [] (foldl addEdges m views !! vd_name v) =
    legViews v).
  2:{ by apply Hgen. }
  induction views as [|u views IH]; [by apply not_elem_of_nil in Hv|]. apply NoDup_cons in Hnd as [Hu Hnd].
  intros m Hm. cbn [foldl]. apply elem_of_cons in Hv as [<-|Hv].
  - rewrite Hout by done. unfold addEdges. destruct (legViews v); [by rewrite Hm|]. by rewrite lookup_insert_eq.
  - apply IH; [done|done|]. unfold addEdges. destruct (legViews u); [done|]. rewrite lookup_insert_ne; [done|]. intros Heq. apply Hu. rewrite Heq.
    by apply list_elem_of_fmap_2.
Qed.

Lemma embedEdges_keys views a : is_Some (embedEdges views !! a) -> a ∈ vd_name <$> views.
Proof.
  unfold embedEdges. assert (Hgen : forall (m : gmap string (list string)),
    is_Some (foldl addEdges m views !! a) ->
    is_Some (m !! a) \/ a ∈ vd_name <$> views).
  { induction views as [|v views IH]; intros m Hm; [by left|]. cbn [foldl] in Hm. apply IH in Hm as [Hm|Hm]; [|right; by right]. unfold addEdges in Hm.
    destruct (legViews v); [by left|]. destruct (decide (vd_name v = a)) as [<-|Hne]; [right; by left|].
    rewrite lookup_insert_ne in Hm by done. by left. }
  intros [[? []%lookup_empty_Some]|]%Hgen; done.
Qed.

(** The walk's edges are the embeds. *)
Lemma edge_embeds views a b : NoDup (vd_name <$> views) -> edge (successors (embedEdges views)) a b <-> embeds views a b.
Proof.
  intros Hnd. unfold edge. split.
  - intros Hb. assert (Ha : a ∈ vd_name <$> views).
    { apply embedEdges_keys. unfold successors in Hb. destruct (embedEdges views !! a); [done|by apply not_elem_of_nil in Hb]. }
    apply list_elem_of_fmap in Ha as (v&->&Hv). exists v. rewrite embedEdges_lookup in Hb; done.
  - intros (v&Hv&<-&Hb). by rewrite embedEdges_lookup.
Qed.

Lemma tc_mono {A} (R S : A -> A -> Prop) a b : (forall x y, R x y -> S x y) -> tc R a b -> tc S a b.
Proof. intros Hsub. induction 1 as [x y Hxy|x y z Hxy Hyz IH]; [apply tc_once; by apply Hsub|apply (tc_l _ x y z); [by apply Hsub|done]]. Qed.

(** ** Reported cycles *)

(** Consecutive names are related. *)
Definition linked (R : string -> string -> Prop) (l : list string) : Prop := forall i x y, l !! i = Some x -> l !! S i = Some y -> R x y.

Lemma linked_snoc R l x y : linked R (l ++ [x]) -> R x y -> linked R ((l ++ [x]) ++ [y]).
Proof.
  intros Hl Hxy i u v Hu Hv. apply lookup_app_Some in Hv as [Hv|[Hge Hv]].
  - eapply Hl; [|exact Hv]. apply lookup_lt_Some in Hv. rewrite lookup_app_l in Hu by lia. done.
  - apply list_lookup_singleton_Some in Hv as [Hi <-]. rewrite length_app in *. cbn in *. rewrite lookup_app_l in Hu by (rewrite length_app; cbn; lia).
    rewrite lookup_app_r in Hu by lia. replace (i - length l)%nat with 0%nat in Hu by lia. by injection Hu as <-.
Qed.

Lemma chain_linked succ p : chain succ p -> linked (edge succ) p.
Proof. induction 1 as [x|l x y Hc IH Hxy]; [intros [|i] u v Hu Hv; done|]. by apply linked_snoc. Qed.

Lemma fromName_elem n p : n ∈ p -> exists k q, fromName n p = Some (n :: q) /\ drop k p = n :: q.
Proof.
  induction p as [|x p IH]; intros Hn; [by apply not_elem_of_nil in Hn|]. cbn. destruct (String.eqb_spec x n) as [->|Hne]; [by exists 0%nat, p|].
  apply elem_of_cons in Hn as [->|Hn]; [done|]. destruct (IH Hn) as (k&q&->&Hk). by exists (S k), q.
Qed.

(** The names of a reported cycle go round. *)
Lemma cycleOf_closed succ h : closes succ h -> exists q, cycleOf h = (h.2 :: q) ++ [h.2] /\ linked (edge succ) (cycleOf h).
Proof.
  intros (l&x&Hp&Hc&Hin&Hx). unfold cycleOf. destruct (fromName_elem _ _ Hin) as (k&q&Hfrom&Hdrop). rewrite Hfrom. cbn [default].
  exists q. split; [done|]. destruct (exists_last (l := h.2 :: q) ltac:(done)) as (l'&z&Hz). change (h.2 :: q ++ [h.2]) with ((h.2 :: q) ++ [h.2]).
  rewrite Hz. assert (Hzx : z = x).
  { rewrite Hp in Hdrop. rewrite Hz in Hdrop. assert (Hlen : (k <= length l)%nat).
    { destruct (decide (k <= length l)%nat); [done|]. rewrite drop_ge in Hdrop by (rewrite length_app; cbn; lia). by destruct l'. }
    rewrite drop_app_le in Hdrop by done. by apply app_inj_tail in Hdrop as [_ ->]. }
  subst z. apply linked_snoc; [|done]. rewrite <- Hz, <- Hdrop. intros i u v Hu Hv. rewrite lookup_drop in Hu, Hv.
  rewrite Hp in Hu, Hv. eapply (chain_linked _ _ Hc); [exact Hu|]. by rewrite Nat.add_succ_r in Hv.
Qed.

(** The graph of the guard, walked from every view. *)
Lemma guard_walk views : NoDup (vd_name <$> views) ->
  let succ := successors (embedEdges views) in
  exists s', dfsAll succ (S (length (graphNames views))) (vd_name <$> views) ([], []) = Some s' /\ (s'.2 = [] <-> acyclic succ) /\ Forall (closes succ) s'.2.
Proof.
  intros Hnd succ. set (U := remove_dups (graphNames views)).
  assert (HU : forall n, n ∈ U <-> n ∈ graphNames views) by (intros n; apply elem_of_remove_dups).
  destruct (dfsAll_graph succ U (S (length (graphNames views))) (vd_name <$> views)) as (s'&Hs'&Hiff&Hc&_); [| | | | |by exists s'].
  - apply NoDup_remove_dups.
  - intros a b _ (v&Hv&_&Hb)%edge_embeds; [|done]. apply HU. unfold graphNames. apply elem_of_app. right. apply list_elem_of_bind. by exists v.
  - assert (Hsub : U ⊆+ graphNames views) by (apply NoDup_submseteq; [apply NoDup_remove_dups|intros n Hn; by apply HU]).
    apply submseteq_length in Hsub. lia.
  - intros n Hn. apply HU. unfold graphNames. apply elem_of_app. by left.
  - intros a b (v&Hv&<-&_)%edge_embeds; [|done]. by apply list_elem_of_fmap_2.
Qed.

Lemma white_start : colored ∅ [] [].
Proof. intros n. unfold colorOf. rewrite lookup_empty. by rewrite !bool_decide_false by apply not_elem_of_nil. Qed.

(** C9: The guard against embed cycles ends on every set of views with distinct names; it reports
    nothing exactly when no view is embedded in itself, through however many others, and
    each cycle it reports goes round along embeds. *)
Theorem boot_refuses_exactly_the_cycles views :
  NoDup (vd_name <$> views) ->
  exists cycles, appendEmbedCycles [] views = Some cycles /\ (cycles = [] <-> forall a, ~ tc (embeds views) a a) /\
    forall c, c ∈ cycles -> exists n q, c = (n :: q) ++ [n] /\ linked (embeds views) c.
Proof.
  intros Hnd. unfold appendEmbedCycles. set (succ := successors (embedEdges views)).
  assert (Hedge : forall a b, edge succ a b <-> embeds views a b) by (intros; by apply edge_embeds).
  assert (Hac : acyclic succ <-> forall a, ~ tc (embeds views) a a).
  { split; intros H a Ha; apply (H a); eapply tc_mono; [|exact Ha| |exact Ha]; intros x y; by rewrite Hedge. }
  destruct (guard_walk views Hnd) as (s'&Hs'&Hiff&Hcloses). fold succ in Hs', Hiff, Hcloses. case_bool_decide as Hempty.
  { exists []. split_and!; [done| |by intros c []%not_elem_of_nil]. split; [|done]. intros _. apply Hac. intros a (s&Hs&_)%tc_first.
    unfold edge, succ, successors in Hs. rewrite Hempty, lookup_empty in Hs. by apply not_elem_of_nil in Hs. }
  destruct (walkAll_tracks (embedEdges views) (S (length (graphNames views))) views (mkCycleState ∅ [] [] []) ([], []) s' Hs') as (st'&->&[_ _ _ Hreal Hall]).
  { split; cbn; [apply white_start|done|done|by intros c []%not_elem_of_nil|by intros h []%not_elem_of_nil]. }
  exists (cs_acc st'). split_and!; [done| |].
  - rewrite <- Hac, <- Hiff. split.
    + intros Hnil. destruct s'.2 as [|h hs]; [done|]. specialize (Hall h ltac:(by left)). rewrite Hnil in Hall. by apply not_elem_of_nil in Hall.
    + intros Hnil. destruct (cs_acc st') as [|c cs]; [done|]. destruct (Hreal c ltac:(by left)) as (h&Hh&_). rewrite Hnil in Hh. by apply not_elem_of_nil in Hh.
  - intros c (h&Hh&->)%Hreal. destruct (cycleOf_closed succ h) as (q&Hq&Hlinked); [by eapply Forall_forall in Hcloses|].
    exists h.2, q. split; [done|]. intros i x y Hx Hy. apply Hedge. by eapply Hlinked.
Qed.

(** ** The order of a rebuild *)

Lemma byName_lookup views v : NoDup (vd_name <$> views) -> v ∈ views -> byName views !! vd_name v = Some v.
Proof.
  unfold byName. intros Hnd Hv.
  assert (Hout : forall l (m : gmap string ViewDefinition) n, n ∉ vd_name <$> l -> foldl (fun m v => <[vd_name v := v]> m) m l !! n = m !! n).
  { intros l. induction l as [|u l IH]; intros m n Hn; [done|]. cbn in *. apply not_elem_of_cons in Hn as [Hne Hn]. rewrite IH by done. by rewrite lookup_insert_ne. }
  generalize (∅ : gmap string ViewDefinition). induction views as [|u views IH]; intros m; [by apply not_elem_of_nil in Hv|].
  apply NoDup_cons in Hnd as [Hu Hnd]. cbn [foldl]. apply elem_of_cons in Hv as [<-|Hv]; [|by apply IH]. rewrite Hout by done. apply lookup_insert_eq.
Qed.

Lemma byName_Some views n v : byName views !! n = Some v -> vd_name v = n /\ v ∈ views.
Proof.
  unfold byName. assert (Hgen : forall (m : gmap string ViewDefinition), foldl (fun m v => <[vd_name v := v]> m) m views !! n = Some v ->
    m !! n = Some v \/ (vd_name v = n /\ v ∈ views)).
  { induction views as [|u views IH]; intros m Hm; [by left|]. cbn [foldl] in Hm. apply IH in Hm as [Hm|[? ?]]; [|right; split; [done|by right]].
    destruct (decide (vd_name u = n)) as [<-|Hne]; [|rewrite lookup_insert_ne in Hm by done; by left].
    rewrite lookup_insert_eq in Hm. injection Hm as <-. right. split; [done|by left]. }
  intros [[]%lookup_empty_Some|]%Hgen; done.
Qed.

Lemma EmbedSourceViews_elem v n : n ∈ EmbedSourceViews v <-> n ∈ legViews v.
Proof.
  unfold EmbedSourceViews. assert (Hgen : forall l out, n ∈ foldl (fun out name => if bool_decide (name ∈ out) then out else out ++ [name]) out l <-> n ∈ out \/ n ∈ l).
  { intros l. induction l as [|x l IH]; intros out; cbn [foldl]; [set_solver|]. rewrite IH. case_bool_decide; set_solver. }
  rewrite Hgen. set_solver.
Qed.

Lemma orderEdges_elem views v s : NoDup (vd_name <$> views) -> v ∈ views ->
  edge (orderEdges (byName views)) (vd_name v) s <-> s ∈ vd_name <$> views /\ embeds views (vd_name v) s.
Proof.
  intros Hnd Hv. unfold edge, orderEdges, sourcesOf. rewrite byName_lookup by done. rewrite list_elem_of_In, filter_In, <- list_elem_of_In.
  rewrite EmbedSourceViews_elem, bool_decide_eq_true. split.
  - intros [Hs [u Hu]]. apply byName_Some in Hu as [<- Hu]. split; [by apply list_elem_of_fmap_2|]. by exists v.
  - intros [Hs (u&Hu&Heq&Hin)]. assert (u = v) as -> by (apply (byName_lookup views) in Hu, Hv; [congruence|done..]). split; [done|].
    apply list_elem_of_fmap in Hs as (w&->&Hw). by rewrite byName_lookup.
Qed.

(** The views of a list by their names. *)
Lemma views_of_names (names : gmap string ViewDefinition) (l : list ViewDefinition) : (forall v, v ∈ l -> names !! vd_name v = Some v) -> omap (names !!.) (vd_name <$> l) = l.
Proof. induction l as [|v l IH]; intros Hl; [done|]. csimpl. rewrite (Hl v) by (by left). f_equal. apply IH. intros u Hu. apply Hl. by right. Qed.

Lemma topo_before succ l i x s : topo succ l -> l !! i = Some x -> edge succ x s -> exists j, (j < i)%nat /\ l !! j = Some s.
Proof.
  intros Ht. revert i x. induction Ht as [|l z Ht IH Hz]; intros i x Hi Hs; [done|]. apply lookup_app_Some in Hi as [Hi|[Hge Hi]].
  - destruct (IH i x Hi Hs) as (j&Hj&Hl). exists j. split; [done|]. by apply lookup_app_l_Some.
  - apply list_lookup_singleton_Some in Hi as [Hi <-]. apply Hz, list_elem_of_lookup in Hs as [j Hj]. exists j.
    split; [apply lookup_lt_Some in Hj; lia|by apply lookup_app_l_Some].
Qed.

Lemma topo_ordered succ (out : list ViewDefinition) (names : gmap string ViewDefinition) i v s :
  topo succ (vd_name <$> out) -> (forall u, u ∈ out -> names !! vd_name u = Some u) -> names !! vd_name s = Some s ->
  out !! i = Some v -> edge succ (vd_name v) (vd_name s) -> exists j, (j < i)%nat /\ out !! j = Some s.
Proof.
  intros Ht Hknown Hs Hi Hedge. destruct (topo_before succ _ i (vd_name v) (vd_name s) Ht) as (j&Hj&Hl); [by rewrite list_lookup_fmap, Hi|done|].
  rewrite list_lookup_fmap in Hl. destruct (out !! j) as [u|] eqn:E; [|done]. injection Hl as Hu. exists j. split; [done|]. rewrite E. f_equal.
  apply list_elem_of_lookup_2, Hknown in E. rewrite Hu in E. congruence.
Qed.

(** The walk of a rebuild's order, from every view. *)
Lemma order_walk views : NoDup (vd_name <$> views) ->
  let succ := orderEdges (byName views) in
  exists s', dfsAll succ (S (length views)) (vd_name <$> views) ([], []) = Some s' /\
    s'.1 ≡ₚ vd_name <$> views /\ (acyclic succ -> topo succ s'.1).
Proof.
  intros Hnd succ.
  destruct (dfsAll_graph succ (vd_name <$> views) (S (length views)) (vd_name <$> views)) as (s'&Hs'&_&_&Hnd'&Hin&Hall&Ht).
  - done.
  - intros a b Ha Hab. apply list_elem_of_fmap in Ha as (v&->&Hv). by apply (orderEdges_elem views) in Hab as [Hb _].
  - rewrite length_fmap. lia.
  - done.
  - intros a b Hab. unfold edge, succ, orderEdges in Hab. destruct (byName views !! a) as [v|] eqn:E; [|by apply not_elem_of_nil in Hab].
    apply byName_Some in E as [<- Hv]. by apply list_elem_of_fmap_2.
  - exists s'. split_and!; [done| |done]. apply NoDup_Permutation; [done|done|]. intros n. split; [apply Hin|apply Hall].
Qed.

(** C10: The order of a rebuild has every view exactly once, and when no view is embedded in itself
    every view comes after all the views it materializes. *)
Theorem sources_are_rebuilt_first views :
  NoDup (vd_name <$> views) ->
  exists out, OrderViewsByEmbedDependency views = Some out /\ out ≡ₚ views /\
    ((forall a, ~ tc (embeds views) a a) ->
     forall i v s, out !! i = Some v -> s ∈ views -> embeds views (vd_name v) (vd_name s) -> exists j, (j < i)%nat /\ out !! j = Some s).
Proof.
  intros Hnd. destruct (order_walk views Hnd) as (s'&Hs'&Hperm&Ht). set (names := byName views) in *. set (succ := orderEdges names) in *.
  assert (Hknown : forall v, v ∈ views -> names !! vd_name v = Some v) by (intros v Hv; by apply byName_lookup).
  destruct (visitAll_follows names (fun n v H => proj1 (byName_Some views n v H)) (S (length views)) views Hknown (mkOrderState ∅ []) ([], []) s' Hs')
    as (st'&Hst'&[_ Hout Hk]).
  { split; cbn; [apply white_start|done|by intros v []%not_elem_of_nil]. }
  exists (os_out st'). split_and!.
  - unfold OrderViewsByEmbedDependency. fold names. by rewrite Hst'.
  - rewrite <- (views_of_names names (os_out st') Hk), <- (views_of_names names views Hknown), Hout. by rewrite Hperm.
  - intros Hac i v s Hi Hs Hembeds. assert (Hvin : v ∈ views) by (eapply byName_Some, Hk, list_elem_of_lookup_2, Hi).
    apply (topo_ordered succ _ names _ v); [|done|by apply Hknown|done|].
    + rewrite Hout. apply Ht. intros a Ha. apply (Hac a).
      assert (Hsub : forall x y, edge succ x y -> embeds views x y).
      { intros x y Hxy. unfold edge, succ, orderEdges in Hxy. destruct (names !! x) as [u|] eqn:E; [|by apply not_elem_of_nil in Hxy].
        pose proof (byName_Some _ _ _ E) as [<- Hu]. apply (orderEdges_elem views u y Hnd Hu). unfold edge, orderEdges. fold names. by rewrite E. }
      by eapply tc_mono.
    + apply orderEdges_elem; [done|done|]. split; [by apply list_elem_of_fmap_2|done].
Qed.

(** ** Views of a shop *)

Module ShopGraph.
Import ShopViews.

(** A view that materializes others under the root. *)
Definition viewOver (name : string) (sources : list string) : ViewDefinition :=
  mkView name customer false false ((fun s => mkEmbed (Some (mkLeg (Some s) "" s [])) false (s +:+ "_id") "" false false) <$> sources) [] [].

Definition orders := viewOver "orders" ["customers"; "products"].
Definition customers := viewOver "customers" ["regions"].
Definition products := viewOver "products" [].
Definition regions := viewOver "regions" [].
Definition shop : list ViewDefinition := [orders; customers; products; regions].

(** Regions that materialize the orders of their customers close a loop. *)
Definition loop : list ViewDefinition := [orders; customers; products; viewOver "regions" ["orders"]].

Lemma shop_names : NoDup (vd_name <$> shop).
Proof. apply (bool_decide_unpack _). vm_compute. exact I. Qed.

Lemma loop_names : NoDup (vd_name <$> loop).
Proof. apply (bool_decide_unpack _). vm_compute. exact I. Qed.

Example loop_is_reported : appendEmbedCycles [] loop = Some [["orders"; "customers"; "regions"; "orders"]].
Proof. vm_compute. reflexivity. Qed.

Example shop_order : (fun out : list ViewDefinition => vd_name <$> out) <$> OrderViewsByEmbedDependency shop =
  Some ["regions"; "customers"; "products"; "orders"].
Proof. vm_compute. reflexivity. Qed.

Lemma boot_refuses_exactly_the_cycles_witness : ~ forall a, ~ tc (embeds loop) a a.
Proof.
  destruct (boot_refuses_exactly_the_cycles loop loop_names) as (cycles&Hrun&Hiff&_). intros Hac. apply Hiff in Hac. subst cycles.
  by rewrite loop_is_reported in Hrun.
Defined.

Lemma sources_are_rebuilt_first_witness : exists out, OrderViewsByEmbedDependency shop = Some out /\ vd_name <$> out = ["regions"; "customers"; "products"; "orders"] /\ out ≡ₚ shop.
Proof.
  destruct (sources_are_rebuilt_first shop shop_names) as (out&Hout&Hperm&_). exists out. split_and!; [done| |done].
  pose proof shop_order as Hr. rewrite Hout in Hr. by injection Hr.
Defined.

End ShopGraph.
