(* ===== verification/Reconcile.v ===== *)
(** * Reconciliation by revision parity

    [infra/db/query/reconcile.go]: the sweep that compares a view with its source page by
    page and repairs what stays behind, as programs of [Rebuild].

    A sweep reads pages until one is empty, so it runs on fuel; [None] is a sweep that ran
    out of it.  The pause of the rate limiter is one call, the clock's readings are left
    out of the report. *)

From S2P Require Import Prelude GoStrings Errors Mongo Projection Consult Rebuild ViewGraph.
From stdpp Require Import base gmap strings list fin_maps.
From Stdlib Require Import ZArith Lia.

Open Scope string_scope.
Open Scope list_scope.
Open Scope rebuild_scope.

Definition reconcileDefaultBatchSize : nat := 1000.
Definition reconcileDefaultRowsPerSecond : Z := 5000.

Record ReconcileConfig := mkReconcileConfig { rc_BatchSize : Z; rc_RowsPerSecond : Z }.

Record ReconcileReport := mkReport {
  rp_View : string;
  rp_Scanned : nat;
  rp_Missing : nat;
  rp_Stale : nat;
  rp_Repaired : nat;
  rp_Unrepaired : nat
}.

Definition Diverged (r : ReconcileReport) : nat := rp_Missing r + rp_Stale r.

Definition reconcileBatch (cfg : ReconcileConfig) : nat :=
  if Z.leb (rc_BatchSize cfg) 0 then reconcileDefaultBatchSize else Z.to_nat (rc_BatchSize cfg).

(** [newRateLimiter] *)
Definition rateOf (perSecond : Z) : Z := if Z.eqb perSecond 0 then reconcileDefaultRowsPerSecond else perSecond.

(** [rateLimiter.wait]: whether it may pause; how long is the call's. *)
Definition pauses (perSecond : Z) (rows : nat) : bool := negb (Z.ltb perSecond 0) && negb (Nat.eqb rows 0).

(** [sourcePage]: the rows in their order; the revisions are a map by id. *)
Abbreviation sourcePage := (list (string * Z)).

Definition revisionsOf (page : sourcePage) : gmap string Z := foldl (fun m r => <[r.1 := r.2]> m) ∅ page.

(** The rows of a page whose document is absent or behind. *)
Definition suspectsOf (page : sourcePage) (stored : gmap string Z) : list string := divergedOf page stored.

(** The second look: absent and behind apart. *)
Definition missingOf (suspects : list string) (recheck : gmap string Z) : list string :=
  List.filter (fun id => bool_decide (recheck !! id = None)) suspects.

Definition staleOf (page : sourcePage) (suspects : list string) (recheck : gmap string Z) : list string :=
  List.filter (fun id => match recheck !! id with Some got => Z.ltb got (default 0%Z (revisionsOf page !! id)) | None => false end) suspects.

Definition parityCandidates (view : ViewDefinition) (page : sourcePage) : RebM (GoErr + list string * list string) :=
  active <- rcall (RActive (vd_name view));;
  r <- rcall (RRevisions active (fst <$> page));;
  match r with
  | inl e => RRet (inl (EWrap "read stored revisions" e))
  | inr stored =>
      match suspectsOf page stored with
      | [] => RRet (inr ([], []))
      | suspects =>
          err <- rcall RGrace;;
          match err with
          | Some e => RRet (inl e)
          | None =>
              r <- rcall (RRevisions active suspects);;
              match r with
              | inl e => RRet (inl (EWrap "re-read stored revisions" e))
              | inr recheck => RRet (inr (missingOf suspects recheck, staleOf page suspects recheck))
              end
          end
      end
  end.

(** The repair of a page; its error is counted, not returned. *)
Definition repairPage (floatToInt : string -> Z) (view : ViewDefinition) (missing stale : list string) (report : ReconcileReport) :
  RebM ReconcileReport :=
  let n := length missing + length stale in
  if Nat.eqb n 0 then RRet report
  else
    active <- rcall (RActive (vd_name view));;
    err <- recomposeInto floatToInt view active (missing ++ stale);;
    RRet (mkReport (rp_View report) (rp_Scanned report) (rp_Missing report + length missing) (rp_Stale report + length stale)
      (match err with None => rp_Repaired report + n | Some _ => rp_Repaired report end)
      (match err with None => rp_Unrepaired report | Some _ => rp_Unrepaired report + n end)).

Definition throttle (perSecond : Z) (rows : nat) : RebM unit :=
  if pauses (rateOf perSecond) rows then rcall (RThrottle rows) else RRet tt.

(** The loop over the pages. *)
Fixpoint sweep (fuel : nat) (floatToInt : string -> Z) (view : ViewDefinition) (cfg : ReconcileConfig) (cursor : string)
  (report : ReconcileReport) : RebM (option (ReconcileReport * option GoErr)) :=
  match fuel with
  | O => RRet None
  | S fuel =>
      done <- rcall RCtxErr;;
      match done with
      | Some e => RRet (Some (report, Some e))
      | None =>
          r <- rcall (RPage (vd_name view) cursor (reconcileBatch cfg));;
          match r with
          | inl e => RRet (Some (report, Some (EWrap "scan page" e)))
          | inr [] => RRet (Some (report, None))
          | inr page =>
              let report := mkReport (rp_View report) (rp_Scanned report + length page) (rp_Missing report) (rp_Stale report)
                (rp_Repaired report) (rp_Unrepaired report) in
              c <- parityCandidates view page;;
              match c with
              | inl e => RRet (Some (report, Some e))
              | inr (missing, stale) =>
                  report <- repairPage floatToInt view missing stale report;;
                  throttle (rc_RowsPerSecond cfg) (length page);;;
                  sweep fuel floatToInt view cfg (List.last (fst <$> page) cursor) report
              end
          end
      end
  end.

Definition ReconcileView (fuel : nat) (floatToInt : string -> Z) (view : ViewDefinition) (cfg : ReconcileConfig) :
  RebM (option (ReconcileReport * option GoErr)) :=
  sweep fuel floatToInt view cfg "" (mkReport (vd_name view) 0 0 0 0 0).

(** One view under its lock; a lock held elsewhere gives no report and no error. *)
Definition reconcileLocked (fuel : nat) (floatToInt : string -> Z) (view : ViewDefinition) (cfg : ReconcileConfig) :
  RebM (option (option ReconcileReport * option GoErr)) :=
  lock <- rcall (RAcquire ("reconcile:" +:+ vd_name view));;
  match lock with
  | inl e => RRet (Some (None, Some (EWrap "acquire lock" e)))
  | inr acquired =>
      result <- (if acquired : bool then
                   r <- ReconcileView fuel floatToInt view cfg;;
                   RRet (match r with
                         | None => None
                         | Some (_, Some e) => Some (None, Some e)
                         | Some (report, None) => Some (Some report, None)
                         end)
                 else RRet (Some (None, None)));;
      rcall (RRelease ("reconcile:" +:+ vd_name view));;;
      RRet result
  end.

(** The views in the order the index gives them; one being rebuilt is skipped. *)
Fixpoint reconcileEach (fuel : nat) (floatToInt : string -> Z) (views : list ViewDefinition) (cfg : ReconcileConfig)
  (reports : list ReconcileReport) : RebM (option (list ReconcileReport * option GoErr)) :=
  match views with
  | [] => RRet (Some (reports, None))
  | view :: rest =>
      rebuilding <- rcall (RShadowActive (vd_name view));;
      match rebuilding with
      | Some _ => reconcileEach fuel floatToInt rest cfg reports
      | None =>
          r <- reconcileLocked fuel floatToInt view cfg;;
          match r with
          | None => RRet None
          | Some (_, Some e) => RRet (Some (reports, Some e))
          | Some (rep, None) => reconcileEach fuel floatToInt rest cfg (reports ++ option_list rep)
          end
      end
  end.

Definition ReconcileAllViews (fuel : nat) (floatToInt : string -> Z) (views : list ViewDefinition) (cfg : ReconcileConfig) :
  RebM (option (list ReconcileReport * option GoErr)) :=
  reconcileEach fuel floatToInt (collectViews views) cfg [].
