(* ===== verification/ReconcileClaims.v ===== *)
(** * Theorems on reconciliation

    A sweep ends, and one that repaired all it found has attended to every row that was in
    the source throughout. *)

From S2P Require Import Prelude GoStrings Errors Mongo Projection ProjectionProps Consult ProjectionClaims Rebuild RebuildRuns RebuildParity RebuildClaims ViewGraph Reconcile.
From stdpp Require Import base gmap strings list fin_maps.
From Stdlib Require Import ZArith Lia.

Open Scope string_scope.
Open Scope list_scope.
Open Scope rebuild_scope.

Lemma elem_of_filterb {A} (f : A -> bool) (l : list A) x : x ∈ List.filter f l <-> x ∈ l /\ f x = true.
Proof. by rewrite !list_elem_of_In, filter_In. Qed.

(** The key is after the cursor, which is empty at the start. *)
Definition after (lt : string -> string -> Prop) (cursor id : string) : Prop := cursor = "" \/ lt cursor id.

(** A page of the source: existing rows after the cursor in the order of the keys, such that
    every other row after the cursor comes after the page, which is then not empty. *)
Definition pageOf (lt : string -> string -> Prop) (source : gmap string (Z * bool)) (cursor : string) (rows : list (string * Z)) : Prop :=
  NoDup rows.*1 /\
  (forall id rev, (id, rev) ∈ rows -> after lt cursor id /\ exists b, source !! id = Some (rev, b)) /\
  (forall id, is_Some (source !! id) -> after lt cursor id -> id ∈ rows.*1 \/ exists x, last rows.*1 = Some x /\ lt x id).

Lemma last_of_Some {A} (l : list A) x d : last l = Some x -> List.last l d = x.
Proof. intros Hl. apply last_Some in Hl as [k ->]. apply List.last_last. Qed.

(** ** Sweeps

    The world of a sweep is the root table, of which other processes may make anything
    between two calls; a call may answer anything, a page that is answered is a page of
    the table as it is then. *)

Abbreviation Source := (gmap string (Z * bool)).

Definition anything (w w' : Source) : Prop := True.

Definition pageAnswers (view : ViewDefinition) (lt : string -> string -> Prop) R (c : RCall R) (source : Source) : R -> Source -> Prop :=
  match c in RCall R return R -> Source -> Prop with
  | RPage v cursor _ => fun r _ => forall rows, r = inr rows -> v = vd_name view -> pageOf lt source cursor rows
  | _ => fun _ _ => True
  end.

Section Sweep.
Context (floatToInt : string -> Z) (view : ViewDefinition) (lt : string -> string -> Prop).

Notation run := (fullRun anything (pageAnswers view lt)).
Notation fate P tr := (Forall (fun e : Source * REvent => P e.1) tr).

(** The row was read in the slot that the resolver named as the serving one, at the
    revision or a later one, or it was recomposed into the slot it named. *)
Definition reconciled (id : string) (rev : Z) (l : list REvent) : Prop :=
  exists s a b, l = a ++ REv (RActive (vd_name view)) s :: b /\ (seenAt s id rev b \/ recomposed floatToInt view s id b).

Lemma reconciled_app id rev l1 l2 : reconciled id rev l1 \/ reconciled id rev l2 -> reconciled id rev (l1 ++ l2).
Proof using.
  intros [(s&a&b&->&Hor)|(s&a&b&->&Hor)].
  - exists s, a, (b ++ l2). rewrite <- app_assoc. split; [done|]. destruct Hor; [left; apply seenAt_app|right; apply recomposed_app]; by left.
  - exists s, (l1 ++ a), b. by rewrite app_assoc.
Qed.

(** A row of a page is at parity, or among the divergences. *)
Lemma candidates_events w page tr missing stale w' id rev :
  run w (parityCandidates view page) tr (inr (missing, stale)) w' -> NoDup page.*1 -> (id, rev) ∈ page ->
  reconciled id rev tr.*2 \/ id ∈ missing ++ stale.
Proof using.
  intros Hrun Hnd Hin. unfold parityCandidates in Hrun. apply fullRun_bind in Hrun as (t1&t2&act&w1&->&Hc1%call_events&Hrun).
  apply fullRun_bind in Hrun as (t3&t4&r&w2&->&Hc2%call_events&Hrun). rewrite !fmap_app, Hc1, Hc2.
  destruct r as [e|stored]; [by apply fullRun_inv in Hrun as (_&[=]&_)|].
  destruct (divergedOf_elem page stored id rev Hnd Hin) as [Hd|(n&Hn&Hle)].
  2:{ left. exists act, [], (REv (RRevisions act page.*1) (inr stored) :: t4.*2). split; [done|]. left. exists page.*1, stored, n. split; [by left|done]. }
  change (divergedOf page stored) with (suspectsOf page stored) in Hd.
  destruct (suspectsOf page stored) as [|x suspects] eqn:Hsus; [by apply not_elem_of_nil in Hd|].
  rewrite <- Hsus in *. clear Hsus. apply fullRun_bind in Hrun as (t5&t6&err&w3&->&Hc3%call_events&Hrun).
  destruct err as [e|]; [by apply fullRun_inv in Hrun as (_&[=]&_)|].
  apply fullRun_bind in Hrun as (t7&t8&r&w4&->&Hc4%call_events&Hrun). destruct r as [e|recheck]; [by apply fullRun_inv in Hrun as (_&[=]&_)|].
  apply fullRun_inv in Hrun as (->&[= -> ->]&->). rewrite !fmap_app, Hc3, Hc4. destruct (recheck !! id) as [got|] eqn:Hgot.
  - destruct (Z.ltb_spec got rev) as [Hlt|Hge].
    + right. apply elem_of_app. right. unfold staleOf. apply elem_of_filterb. split; [done|].
      rewrite Hgot. unfold revisionsOf. rewrite (revisions_lookup page ∅ id rev Hnd Hin). by apply Z.ltb_lt.
    + left. eexists act, [], _. split; [reflexivity|]. left. exists (suspectsOf page stored), recheck, got. split; [|done].
      right. right. by left.
  - right. apply elem_of_app. left. unfold missingOf. apply elem_of_filterb. split; [done|]. by rewrite bool_decide_true.
Qed.

(** The repair of a page: its ids are recomposed, or counted as not repaired. *)
Lemma repair_page_events w missing stale report tr report' w' :
  run w (repairPage floatToInt view missing stale report) tr report' w' ->
  (rp_Unrepaired report <= rp_Unrepaired report')%nat /\
  (forall id rev, id ∈ missing ++ stale -> reconciled id rev tr.*2 \/ (0 < rp_Unrepaired report')%nat).
Proof using.
  intros Hrun. unfold repairPage in Hrun. destruct (Nat.eqb_spec (length missing + length stale) 0) as [Hz|Hz].
  { apply fullRun_inv in Hrun as (->&->&->). split; [done|]. intros id rev Hin. exfalso. destruct missing, stale; cbn in Hz; [|lia..].
    by apply not_elem_of_nil in Hin. }
  apply fullRun_bind in Hrun as (t1&t2&act&w1&->&Hc1%call_events&Hrun). apply fullRun_bind in Hrun as (t3&t4&err&w2&->&Hc2&Hrun).
  apply fullRun_inv in Hrun as (->&->&->). destruct (recompose_events _ _ _ _ _ (fun _ => True) _ _ _ _ _ Hc2) as [_ Hat]. cbn. split; [destruct err; lia|].
  intros id rev Hin. destruct err as [e|]; [right; lia|left]. exists act, [], (t3.*2). rewrite app_nil_r, fmap_app, Hc1. split; [done|]. right. by apply Hat.
Qed.

(** What a row that is on a page comes to. *)
Definition attended (id : string) (l : list REvent) : Prop :=
  exists a b cursor limit rows rev, l = a ++ REv (RPage (vd_name view) cursor limit) (inr rows) :: b /\ (id, rev) ∈ rows /\ reconciled id rev b.

Lemma attended_app id l1 l2 : attended id l2 -> attended id (l1 ++ l2).
Proof using. intros (a&b&c&n&rows&rev&->&Hr). exists (l1 ++ a), b, c, n, rows, rev. by rewrite app_assoc. Qed.

(** The count of what was not repaired only grows. *)
Lemma sweep_mono fuel cfg : forall cursor report w tr report' w' e,
  run w (sweep fuel floatToInt view cfg cursor report) tr (Some (report', e)) w' -> (rp_Unrepaired report <= rp_Unrepaired report')%nat.
Proof using.
  induction fuel as [|fuel IH]; intros cursor report w tr report' w' e Hrun; [by apply fullRun_inv in Hrun as (_&[=]&_)|].
  cbn [sweep] in Hrun. apply fullRun_bind in Hrun as (?&?&err&?&->&_&Hrun). destruct err; [by apply fullRun_inv in Hrun as (_&[= -> _]&_)|].
  apply fullRun_bind in Hrun as (?&?&r&?&->&_&Hrun). destruct r as [?|[|row page]]; [by apply fullRun_inv in Hrun as (_&[= -> _]&_)..|].
  apply fullRun_bind in Hrun as (?&?&c&?&->&_&Hrun). destruct c as [?|[missing stale]]; [by apply fullRun_inv in Hrun as (_&[= -> _]&_)|].
  apply fullRun_bind in Hrun as (?&?&report2&?&->&Hrep&Hrun). apply fullRun_bind in Hrun as (?&?&?&?&->&_&Hrun). apply IH in Hrun.
  destruct (repair_page_events _ _ _ _ _ _ _ Hrep) as [Hle _]. cbn in *. lia.
Qed.

(** A sweep from a cursor the row is after. *)
Lemma sweep_events fuel cfg id : forall cursor report w tr report' w',
  run w (sweep fuel floatToInt view cfg cursor report) tr (Some (report', None)) w' ->
  fate (fun source : Source => is_Some (source !! id)) tr -> after lt cursor id -> rp_Unrepaired report' = 0%nat -> attended id tr.*2.
Proof using.
  induction fuel as [|fuel IH]; intros cursor report w tr report' w' Hrun Hl Hafter Hzero; [by apply fullRun_inv in Hrun as (_&[=]&_)|].
  cbn [sweep] in Hrun. apply fullRun_bind in Hrun as (t1&t2&err&w1&->&_&Hrun). apply Forall_app in Hl as [_ Hl].
  destruct err as [e|]; [by apply fullRun_inv in Hrun as (_&[=]&_)|]. rewrite fmap_app. apply attended_app.
  apply fullRun_bind in Hrun as (t3&t4&r&w2&->&Hc2&Hrun). apply Forall_app in Hl as [Hl2 Hl].
  apply fullRun_call in Hc2 as (u&->&_&Hpage). inversion Hl2 as [|?? Hu _]; subst. cbn in Hu.
  destruct r as [e|page]; [by apply fullRun_inv in Hrun as (_&[=]&_)|]. specialize (Hpage page eq_refl eq_refl). destruct Hpage as (Hnd&Hrows&Hall).
  destruct page as [|row page'] eqn:Hpg; [exfalso|].
  { destruct (Hall id Hu Hafter) as [Hin|(x&Hx&_)]; [by apply not_elem_of_nil in Hin|done]. }
  rewrite <- Hpg in *. apply fullRun_bind in Hrun as (t5&t6&c&w3&->&Hc3&Hrun). apply Forall_app in Hl as [Hl3 Hl].
  destruct c as [e|[missing stale]]; [by apply fullRun_inv in Hrun as (_&[=]&_)|].
  apply fullRun_bind in Hrun as (t7&t8&report2&w4&->&Hc4&Hrun). apply Forall_app in Hl as [Hl4 Hl].
  apply fullRun_bind in Hrun as (t9&t10&x&w5&->&Hc5&Hrun). apply Forall_app in Hl as [Hl5 Hl].
  destruct (repair_page_events _ _ _ _ _ _ _ Hc4) as [_ Hrep]. pose proof (sweep_mono fuel cfg _ _ _ _ _ _ _ Hrun) as Hm.
  destruct (Hall id Hu Hafter) as [Hin|(z&Hz&Hlt)].
  - apply list_elem_of_fmap in Hin as ([i rev]&Hi&Hin). cbn in Hi. subst i.
    exists [], (t5 ++ t7 ++ t9 ++ t10).*2, cursor, (reconcileBatch cfg), page, rev. split_and!; [by rewrite !fmap_app|done|].
    rewrite !fmap_app. destruct (candidates_events _ _ _ _ _ _ _ _ Hc3 Hnd Hin) as [Hc|Hd]; [apply reconciled_app; by left|].
    destruct (Hrep id rev Hd) as [Hc|Hun]; [|cbn in *; lia]. apply reconciled_app. right. apply reconciled_app. by left.
  - rewrite !fmap_app. do 4 apply attended_app. eapply IH; [exact Hrun|done| |done]. right. by rewrite (last_of_Some _ _ cursor Hz).
Qed.

(** C8: A sweep of a view that ended without an error and reports nothing as not repaired
    has attended to every row that was in the source throughout: whatever its calls answer,
    whatever other processes do to the source and to the store meanwhile and however the
    pages fall, the row is on a page it read, and after that, in the slot that the resolver
    named as the serving one, it was read at the revision on the page or a later one, or it
    was recomposed with its documents' write acknowledged.  A page is read as the query asks:
    distinct rows of the table after the cursor, in the order of the keys, with none of the
    table between them.  Which slot the resolver names, and what others make of the document
    afterwards, is not covered. *)
Theorem reconciliation_attends_to_every_row fuel cfg w tr report w' id :
  run w (ReconcileView fuel floatToInt view cfg) tr (Some (report, None)) w' -> rp_Unrepaired report = 0%nat ->
  fate (fun source : Source => is_Some (source !! id)) tr -> attended id tr.*2.
Proof using. intros Hrun Hzero Hl. eapply sweep_events; [exact Hrun|done|by left|done]. Qed.

(** The rows the sweep may still meet are among [R]. *)
Definition among (cursor : string) (R : list string) (source : Source) : Prop :=
  forall y, is_Some (source !! y) -> y <> "" /\ (after lt cursor y -> y ∈ R).

Lemma sweep_ends (Hirr : forall x, ~ lt x x) (Htrans : forall x y z, lt x y -> lt y z -> lt x z) fuel cfg : forall cursor report R w tr res w',
  run w (sweep fuel floatToInt view cfg cursor report) tr res w' -> fate (among cursor R) tr -> (length R < fuel)%nat -> is_Some res.
Proof using.
  induction fuel as [|fuel IH]; intros cursor report R w tr res w' Hrun Hin Hlen; [lia|]. cbn [sweep] in Hrun.
  apply fullRun_bind in Hrun as (t1&t2&err&w1&->&_&Hrun). apply Forall_app in Hin as [_ Hin].
  destruct err; [by apply fullRun_inv in Hrun as (_&->&_)|]. apply fullRun_bind in Hrun as (t3&t4&r&w2&->&Hc2&Hrun). apply Forall_app in Hin as [Hin2 Hin].
  apply fullRun_call in Hc2 as (u&->&_&Hpage). inversion Hin2 as [|?? Hu _]; subst. cbn in Hu.
  destruct r as [?|page]; [by apply fullRun_inv in Hrun as (_&->&_)|]. specialize (Hpage page eq_refl eq_refl) as (_&Hrows&_).
  destruct page as [|row page'] eqn:Hpg; [by apply fullRun_inv in Hrun as (_&->&_)|]. rewrite <- Hpg in *.
  apply fullRun_bind in Hrun as (t5&t6&c&w3&->&_&Hrun). apply Forall_app in Hin as [_ Hin].
  destruct c as [?|[missing stale]]; [by apply fullRun_inv in Hrun as (_&->&_)|].
  apply fullRun_bind in Hrun as (t7&t8&report2&w4&->&_&Hrun). apply Forall_app in Hin as [_ Hin].
  apply fullRun_bind in Hrun as (t9&t10&paused&w5&->&_&Hrun). apply Forall_app in Hin as [_ Hin].
  assert (exists x, last page.*1 = Some x) as [x Hx] by (apply last_is_Some; by rewrite Hpg).
  assert (Hxin : exists r, (x, r) ∈ page).
  { apply last_Some in Hx as [k Hk]. assert (Hxp : x ∈ page.*1) by (rewrite Hk; apply elem_of_app; right; by apply list_elem_of_singleton).
    apply list_elem_of_fmap in Hxp as ([? r]&->&Hr). by exists r. }
  destruct Hxin as [r Hxr]. destruct (Hrows _ _ Hxr) as (Hafter&b&Hsrc). destruct (Hu x ltac:(by rewrite Hsrc)) as [Hne HxR]. specialize (HxR Hafter).
  rewrite (last_of_Some _ _ cursor Hx) in Hrun. eapply (IH x _ (List.filter (fun y => negb (String.eqb y x)) R)); [exact Hrun| |].
  - eapply Forall_impl; [exact Hin|]. intros e He y Hy. destruct (He y Hy) as [Hyne HyR]. split; [done|]. intros [->|Hxy]; [done|].
    apply elem_of_filterb. split; [|destruct (String.eqb_spec y x) as [->|]; [by apply Hirr in Hxy|done]]. apply HyR.
    destruct Hafter as [->|Hcx]; [by left|right; by eapply Htrans].
  - assert (length (List.filter (fun y => negb (String.eqb y x)) R) < length R)%nat; [|lia]. clear -HxR.
    assert (Hle : forall l : list string, (length (List.filter (fun y => negb (String.eqb y x)) l) <= length l)%nat) by (intros; apply filter_length_le).
    apply list_elem_of_split in HxR as (l1&l2&->). rewrite List.filter_app, !length_app. cbn. rewrite String.eqb_refl. cbn.
    pose proof (Hle l1). pose proof (Hle l2). lia.
Qed.

End Sweep.

(** C39: A sweep ends: when the keys that ever are in the source during it are among a finite set,
    as many pages as that set has keys, and one more, are enough, whatever the batch size, the
    faults and the writes meanwhile. *)
Theorem reconciliation_ends floatToInt view (lt : string -> string -> Prop) keys cfg w tr res w' :
  (forall x, ~ lt x x) -> (forall x y z, lt x y -> lt y z -> lt x z) ->
  fullRun anything (pageAnswers view lt) w (ReconcileView (S (length keys)) floatToInt view cfg) tr res w' ->
  Forall (fun e : Source * REvent => forall y, is_Some (e.1 !! y) -> y <> "" /\ y ∈ keys) tr ->
  is_Some res.
Proof.
  intros Hirr Htrans Hrun Hin. eapply sweep_ends; [exact Hirr|exact Htrans|exact Hrun| |].
  - eapply Forall_impl; [exact Hin|]. intros e He y Hy. destruct (He y Hy) as [Hne HyR]. split; [done|]. intros _. exact HyR.
  - lia.
Qed.

(** ** A sweep of a shop's customers *)

Module ShopSweep.
Import ShopViews Reference ShopRebuild.

(** The order of the keys of the shop. *)
Definition rank (x : string) : nat := if String.eqb x "c1" then 1 else if String.eqb x "c2" then 2 else 0.
Definition before (x y : string) : Prop := rank x < rank y.

(** All the rows after the cursor. *)
Definition rowsAfter (source : gmap string (Z * bool)) (cursor : string) : list (string * Z) :=
  (fun p => (p.1, p.2.1)) <$> List.filter (fun p => String.eqb cursor "" || Nat.ltb (rank cursor) (rank p.1)) (map_to_list source).

Definition serveSweep (s : string) {R} (c : RCall R) (w : PWorld) : R * PWorld :=
  match c in RCall R return R * PWorld with
  | RPage _ cursor _ => (inr (rowsAfter (p_source w) cursor), w)
  | c => serve s c w
  end.

Lemma rowsAfter_page source cursor : pageOf before source cursor (rowsAfter source cursor).
Proof.
  assert (Hafter : forall x, after before cursor x <-> String.eqb cursor "" || Nat.ltb (rank cursor) (rank x) = true).
  { intros x. unfold after, before. by rewrite orb_true_iff, String.eqb_eq, Nat.ltb_lt. }
  unfold rowsAfter. split_and!.
  - rewrite <- list_fmap_compose. change (fst ∘ (fun p : string * (Z * bool) => (p.1, p.2.1))) with (fst : string * (Z * bool) -> string).
    pose proof (NoDup_fst_map_to_list source) as Hnd. revert Hnd. generalize (map_to_list source). intros l.
    induction l as [|p l IH]; [done|]. cbn. intros [Hp Hnd]%NoDup_cons. destruct (String.eqb cursor "" || _); [|by apply IH]. cbn. constructor; [|by apply IH].
    intros (q&Hq&Hin%list_elem_of_In%filter_In)%list_elem_of_fmap. destruct Hin as [Hin _]. apply Hp. rewrite Hq. apply list_elem_of_fmap_2. by apply list_elem_of_In.
  - intros x r ([y [m b]]&[= -> ->]&[Hin%elem_of_map_to_list Hf]%elem_of_filterb)%list_elem_of_fmap. split; [by apply Hafter|]. by exists b.
  - intros x [[m b] Hx] Hx2%Hafter. left. rewrite <- list_fmap_compose. apply list_elem_of_fmap. exists (x, (m, b)). split; [done|].
    apply elem_of_filterb. split; [by apply elem_of_map_to_list|done].
Qed.

Lemma serveSweep_may R (c : RCall R) w :
  pageAnswers shopView before R c (p_source w) (serveSweep "customers" c w).1 (p_source (serveSweep "customers" c w).2).
Proof. destruct c; cbn; try done. intros rows [= <-] _. apply rowsAfter_page. Qed.

(** A run to the end in which nobody else moves. *)
Fixpoint driveSweep {A} (n : nat) (w : PWorld) (p : RebM A) : option (list (PWorld * REvent) * A * PWorld) :=
  match n, p with
  | _, RRet a => Some ([], a, w)
  | S n, RDo c k =>
      let r := serveSweep "customers" c w in
      '(tr, a, w') ← driveSweep n r.2 (k r.1); Some ((w, REv c r.1) :: tr, a, w')
  | O, _ => None
  end.

(** The root tables of a trace. *)
Definition sources (tr : list (PWorld * REvent)) : list (Source * REvent) := (fun e => (p_source e.1, e.2)) <$> tr.

Lemma driveSweep_run {A} n : forall w (p : RebM A) tr a w', driveSweep n w p = Some (tr, a, w') ->
  fullRun anything (pageAnswers shopView before) (p_source w) p (sources tr) a (p_source w').
Proof.
  induction n as [|n IH]; intros w p tr a w' Hrun; destruct p as [b|R c k]; cbn in Hrun; try (injection Hrun as <- <- <-; constructor); [done|].
  destruct (driveSweep n (serveSweep "customers" c w).2 (k (serveSweep "customers" c w).1)) as [[[tr1 b] w1]|] eqn:E; [|done]. injection Hrun as <- <- <-.
  cbn. econstructor; [done|apply serveSweep_may|by apply IH].
Qed.

Definition sweepConfig : ReconcileConfig := mkReconcileConfig 0 (-1).
Definition sweepOf : option (list (PWorld * REvent) * option (ReconcileReport * option GoErr) * PWorld) :=
  driveSweep 60 (shopWorld None None) (ReconcileView 3 noFloat shopView sweepConfig).
Definition sweepTrace : list (PWorld * REvent) := match sweepOf with Some (tr, _, _) => tr | None => [] end.
Definition sweepEnd : PWorld := match sweepOf with Some (_, _, w) => w | None => shopWorld None None end.
Definition sweepReport : ReconcileReport := mkReport "customers" 2 2 0 2 0.

Lemma sweepOf_result : (fun r => r.1.2) <$> sweepOf = Some (Some (sweepReport, None)).
Proof. vm_compute. reflexivity. Qed.

(** The rows of the world stay those of the shop. *)
Definition shopRowsHere (w : PWorld) : bool := bool_decide (p_source w = shopRows).

Lemma sweep_rows : forallb (fun e => shopRowsHere e.1) sweepTrace = true.
Proof. vm_compute. reflexivity. Qed.

#[local] Opaque sweepOf.

Lemma shop_sweep : fullRun anything (pageAnswers shopView before) shopRows (ReconcileView 3 noFloat shopView sweepConfig)
  (sources sweepTrace) (Some (sweepReport, None)) (p_source sweepEnd).
Proof.
  pose proof sweepOf_result as Hr. unfold sweepTrace, sweepEnd in *. destruct sweepOf as [[[tr r] w']|] eqn:E; [|done].
  injection Hr as ->. by apply (driveSweep_run 60 (shopWorld None None)).
Qed.

Lemma sweep_event e : e ∈ sources sweepTrace -> e.1 = shopRows.
Proof.
  intros (e0&->&He)%list_elem_of_fmap. pose proof sweep_rows as Hr. rewrite forallb_forall in Hr. apply list_elem_of_In, Hr in He.
  by apply bool_decide_eq_true in He.
Qed.

Lemma reconciliation_attends_to_every_row_witness : attended noFloat shopView "c1" (sources sweepTrace).*2.
Proof.
  apply (reconciliation_attends_to_every_row noFloat shopView before 3 sweepConfig shopRows (sources sweepTrace) sweepReport (p_source sweepEnd)).
  - exact shop_sweep.
  - reflexivity.
  - apply Forall_forall. intros e He. rewrite (sweep_event e He). by exists (3%Z, false).
Defined.

Lemma reconciliation_ends_witness : is_Some (Some (sweepReport, None : option GoErr)).
Proof.
  apply (reconciliation_ends noFloat shopView before ["c1"; "c2"] sweepConfig shopRows (sources sweepTrace) _ (p_source sweepEnd)).
  - intros x. unfold before. lia.
  - intros x y z. unfold before. lia.
  - exact shop_sweep.
  - apply Forall_forall. intros e He y [[m b] Hy]. rewrite (sweep_event e He) in Hy. unfold shopRows in Hy.
    apply lookup_insert_Some in Hy as [[<- _]|[_ Hy]]; [split; [done|by left]|]. apply lookup_singleton_Some in Hy as [<- _]. split; [done|right; by left].
Defined.

End ShopSweep.
