(* ===== verification/Cache.v ===== *)
(** * The in-process cache

    [infra/cache/memory.go]: a bounded store of byte values by key, with an expiry and the
    least recently used entry evicted first; the typed helpers of [infra/cache/cache.go].

    The list of [container/list] is the list of its elements, front first, each with an
    identity; [mc_entries] holds identities, as the map holds pointers.  Operations hold
    the mutex, so each is one step; the clock's reading is an argument. *)

From S2P Require Import Prelude Errors.
From stdpp Require Import base gmap strings list fin_maps.
From Stdlib Require Import ZArith Lia.

Open Scope string_scope.
Open Scope list_scope.
Open Scope Z_scope.

Definition frameworkMemoryMaxEntries : Z := 10000.

(** [mi_expiresAt]: [None] is the zero time, no expiration. *)
Record memoryItem := mkItem { mi_key : string; mi_value : string; mi_expiresAt : option Z }.

Record memoryCache := mkMemory {
  mc_maxLen : Z;
  mc_order : list (nat * memoryItem);
  mc_entries : gmap string nat;
  mc_next : nat
}.

Definition NewMemory (maxEntries : Z) : memoryCache :=
  let maxEntries := if Z.eqb maxEntries 0 then frameworkMemoryMaxEntries else maxEntries in
  let maxEntries := if Z.ltb maxEntries 0 then 0 else maxEntries in
  mkMemory maxEntries [] ∅ 0.

(** ** Lists of elements *)

Definition elementItem (el : nat) (order : list (nat * memoryItem)) : option memoryItem :=
  snd <$> List.find (fun p => Nat.eqb p.1 el) order.

(** [order.Remove]. *)
Definition removeElement (el : nat) (order : list (nat * memoryItem)) : list (nat * memoryItem) :=
  List.filter (fun p => negb (Nat.eqb p.1 el)) order.

(** [order.MoveToFront]. *)
Definition moveToFront (el : nat) (item : memoryItem) (order : list (nat * memoryItem)) : list (nat * memoryItem) :=
  (el, item) :: removeElement el order.

(** [time.Now().After(item.expiresAt)] *)
Definition expired (now : Z) (item : memoryItem) : bool :=
  match mi_expiresAt item with Some t => Z.ltb t now | None => false end.

(** ** Operations *)

Definition memoryGet (now : Z) (key : string) (c : memoryCache) : option string * memoryCache :=
  match mc_entries c !! key with
  | None => (None, c)
  | Some el =>
      match elementItem el (mc_order c) with
      | None => (None, c)
      | Some item =>
          if expired now item
          then (None, mkMemory (mc_maxLen c) (removeElement el (mc_order c)) (delete key (mc_entries c)) (mc_next c))
          else (Some (mi_value item), mkMemory (mc_maxLen c) (moveToFront el item (mc_order c)) (mc_entries c) (mc_next c))
      end
  end.

Definition ErrInvalidTTL : GoErr := ELeaf "cache: ttl must be non-negative".

(** [ttl == 0] is no expiration. *)
Definition expiresAt (now ttl : Z) : option Z := if Z.ltb 0 ttl then Some (now + ttl) else None.

(** The entry at the back goes when the store is full. *)
Definition evict (c : memoryCache) : memoryCache :=
  if Z.ltb 0 (mc_maxLen c) && Z.leb (mc_maxLen c) (Z.of_nat (length (mc_order c))) then
    match last (mc_order c) with
    | Some (el, item) =>
        mkMemory (mc_maxLen c) (removeElement el (mc_order c)) (delete (mi_key item) (mc_entries c)) (mc_next c)
    | None => c
    end
  else c.

Definition memorySet (now : Z) (key value : string) (ttl : Z) (c : memoryCache) : option GoErr * memoryCache :=
  if Z.ltb ttl 0 then (Some ErrInvalidTTL, c)
  else
    let expires := expiresAt now ttl in
    match mc_entries c !! key with
    | Some el =>
        match elementItem el (mc_order c) with
        | Some item =>
            (None, mkMemory (mc_maxLen c) (moveToFront el (mkItem (mi_key item) value expires) (mc_order c)) (mc_entries c) (mc_next c))
        | None => (None, c)
        end
    | None =>
        let c := evict c in
        (None, mkMemory (mc_maxLen c) ((mc_next c, mkItem key value expires) :: mc_order c) (<[key := mc_next c]> (mc_entries c)) (S (mc_next c)))
    end.

Definition memoryDelete (key : string) (c : memoryCache) : memoryCache :=
  match mc_entries c !! key with
  | Some el => mkMemory (mc_maxLen c) (removeElement el (mc_order c)) (delete key (mc_entries c)) (mc_next c)
  | None => c
  end.

(** ** The port *)

(** The interface [Cache]: a call reads the clock, answers or fails, and may change the store. *)
Class Cache (S : Type) := {
  cacheGet : Z -> string -> S -> (GoErr + option string) * S;
  cacheSet : Z -> string -> string -> Z -> S -> option GoErr * S;
  cacheDelete : string -> S -> option GoErr * S
}.

#[export] Instance memoryCache_Cache : Cache memoryCache := {
  cacheGet now key c := let '(v, c) := memoryGet now key c in (inr v, c);
  cacheSet := memorySet;
  cacheDelete key c := (None, memoryDelete key c)
}.

Definition unexpired (now : Z) (exp : option Z) : Prop := match exp with Some t => now <= t | None => True end.

(** What a client may rely on: [mayAnswer s k v exp] bounds what the store can say of [k];
    a write replaces what it held of the key, a read and a removal add nothing. *)
Class CacheLaws (S : Type) `{Cache S} := {
  cacheOk : S -> Prop;
  mayAnswer : S -> string -> string -> option Z -> Prop;
  get_answers now k s r s' : cacheOk s -> cacheGet now k s = (r, s') ->
    cacheOk s' /\ (forall k' v exp, mayAnswer s' k' v exp -> mayAnswer s k' v exp) /\
    (forall v, r = inr (Some v) -> exists exp, mayAnswer s k v exp /\ unexpired now exp);
  set_replaces now k v ttl s s' : cacheOk s -> cacheSet now k v ttl s = (None, s') ->
    cacheOk s' /\ 0 <= ttl /\
    forall k' v' exp, mayAnswer s' k' v' exp -> (k' = k /\ v' = v /\ exp = expiresAt now ttl) \/ (k' <> k /\ mayAnswer s k' v' exp);
  set_fails now k v ttl s e s' : cacheOk s -> cacheSet now k v ttl s = (Some e, s') ->
    cacheOk s' /\ forall k' v' exp, mayAnswer s' k' v' exp -> mayAnswer s k' v' exp;
  delete_forgets k s r s' : cacheOk s -> cacheDelete k s = (r, s') ->
    cacheOk s' /\ forall k' v exp, mayAnswer s' k' v exp -> mayAnswer s k' v exp /\ (r = None -> k' <> k)
}.

(** ** Typed values *)

(** The JSON codec of a type: [None] is an error. *)
Class JsonCodec (T : Type) := { marshal : T -> option string; unmarshal : string -> option T }.

Section Typed.
Context {S T : Type} `{Cache S} `{JsonCodec T} (quote : string -> string).

(** The store is [None] when no cache is configured; [quote] is [%q]. *)
Definition GetJSON (now : Z) (key : string) (c : option S) : (GoErr + option T) * option S :=
  match c with
  | None => (inr None, None)
  | Some c =>
      match cacheGet now key c with
      | (inl err, c) => (inl err, Some c)
      | (inr None, c) => (inr None, Some c)
      | (inr (Some raw), c) =>
          match unmarshal raw with
          | Some v => (inr (Some v), Some c)
          | None => (inl (EWrap ("cache: decode " +:+ quote key) (ELeaf "json")), Some c)
          end
      end
  end.

Definition SetJSON (now : Z) (key : string) (value : T) (ttl : Z) (c : option S) : option GoErr * option S :=
  match c with
  | None => (None, None)
  | Some c =>
      match marshal value with
      | None => (Some (EWrap ("cache: encode " +:+ quote key) (ELeaf "json")), Some c)
      | Some raw => let '(err, c) := cacheSet now key raw ttl c in (err, Some c)
      end
  end.

End Typed.
