(* ===== verification/CacheClaims.v ===== *)
(** * What the in-process cache promises

    The pointer structure against a list kept most recent first, its laws as a store of
    the port, and the theorems on its answers. *)

From S2P Require Import Prelude Errors Cache.
From stdpp Require Import base gmap strings list fin_maps fin_sets.
From Stdlib Require Import ZArith Lia.

Open Scope string_scope.
Open Scope list_scope.
Open Scope Z_scope.

(** * The cache as a bounded map

    The consistency of the list and the map of a [memoryCache], the map it stands for, and
    what each operation does to it. *)

Definition keysOf (order : list (nat * memoryItem)) : list string := (fun p => mi_key p.2) <$> order.

(** The list and the map agree, and the bound holds. *)
Record consistent (c : memoryCache) : Prop := {
  co_ids : NoDup (mc_order c).*1;
  co_keys : NoDup (keysOf (mc_order c));
  co_map : forall k e, mc_entries c !! k = Some e <-> exists item, (e, item) ∈ mc_order c /\ mi_key item = k;
  co_next : forall e, e ∈ (mc_order c).*1 -> (e < mc_next c)%nat;
  co_len : 0 < mc_maxLen c -> Z.of_nat (length (mc_order c)) <= mc_maxLen c
}.

(** ** Elements *)

Lemma elementItem_elem el item order : NoDup order.*1 -> (el, item) ∈ order -> elementItem el order = Some item.
Proof.
  unfold elementItem. induction order as [|[e i] order IH]; intros Hnd Hin; [by apply not_elem_of_nil in Hin|]. apply NoDup_cons in Hnd as [He Hnd].
  cbn. apply elem_of_cons in Hin as [[= <- <-]|Hin]; [by rewrite Nat.eqb_refl|]. destruct (Nat.eqb_spec e el) as [->|Hne]; [|by apply IH].
  exfalso. apply He. apply list_elem_of_fmap. by exists (el, item).
Qed.

Lemma elementItem_Some el item order : elementItem el order = Some item -> (el, item) ∈ order.
Proof.
  unfold elementItem. induction order as [|[e i] order IH]; [done|]. cbn. destruct (Nat.eqb_spec e el) as [->|Hne]; [intros [= ->]; by left|].
  intros H. right. by apply IH.
Qed.

Lemma removeElement_elem el order p : p ∈ removeElement el order <-> p ∈ order /\ p.1 <> el.
Proof.
  unfold removeElement. rewrite !list_elem_of_In, filter_In, negb_true_iff, Nat.eqb_neq. done.
Qed.

Lemma removeElement_sublist el order : removeElement el order `sublist_of` order.
Proof. unfold removeElement. induction order as [|p order IH]; [constructor|]. cbn. destruct (Nat.eqb p.1 el); cbn; by constructor. Qed.

Lemma removeElement_ids el order : NoDup order.*1 -> NoDup (removeElement el order).*1.
Proof. intros Hnd. eapply sublist_NoDup; [exact Hnd|]. apply fmap_sublist, removeElement_sublist. Qed.

Lemma removeElement_keys el order : NoDup (keysOf order) -> NoDup (keysOf (removeElement el order)).
Proof. intros Hnd. eapply sublist_NoDup; [exact Hnd|]. apply fmap_sublist, removeElement_sublist. Qed.

Lemma removeElement_length el item order : (el, item) ∈ order -> NoDup order.*1 -> S (length (removeElement el order)) = length order.
Proof.
  intros Hin Hnd. apply list_elem_of_split in Hin as (l1&l2&->). unfold removeElement. rewrite List.filter_app. cbn. rewrite Nat.eqb_refl. cbn.
  rewrite fmap_app, NoDup_app in Hnd. destruct Hnd as (_&H1&[H2 _]%NoDup_cons).
  assert (Hid : forall l, el ∉ l.*1 -> List.filter (fun p : nat * memoryItem => negb (Nat.eqb p.1 el)) l = l).
  { intros l. induction l as [|p l IH]; intros Hl; [done|]. cbn in *. apply not_elem_of_cons in Hl as [Hp Hl].
    destruct (Nat.eqb_spec p.1 el) as [Heq|]; [congruence|]. cbn. by rewrite IH. }
  rewrite !Hid; [rewrite !length_app; cbn; lia|done|]. intros Hl. apply (H1 el Hl). by left.
Qed.

Lemma key_unique order e1 i1 e2 i2 : NoDup (keysOf order) -> (e1, i1) ∈ order -> (e2, i2) ∈ order -> mi_key i1 = mi_key i2 -> e1 = e2 /\ i1 = i2.
Proof.
  intros Hnd [n Hn]%list_elem_of_lookup [m Hm]%list_elem_of_lookup Hk.
  assert (Heq : n = m). { eapply (NoDup_lookup _ _ _ (mi_key i1) Hnd); unfold keysOf; rewrite list_lookup_fmap; [by rewrite Hn|rewrite Hm; by rewrite Hk]. }
  subst m. rewrite Hn in Hm. by injection Hm as -> ->.
Qed.

(** ** The specification: a list of items, the most recently used first *)

Definition store := list memoryItem.

Definition abs (c : memoryCache) : store := (mc_order c).*2.

Definition lookupKey (k : string) (l : store) : option memoryItem := List.find (fun i => String.eqb (mi_key i) k) l.

Definition dropKey (k : string) (l : store) : store := List.filter (fun i => negb (String.eqb (mi_key i) k)) l.

Definition specGet (now : Z) (k : string) (l : store) : option string * store :=
  match lookupKey k l with
  | None => (None, l)
  | Some i => if expired now i then (None, dropKey k l) else (Some (mi_value i), i :: dropKey k l)
  end.

(** The least recently used item leaves a full store. *)
Definition makeRoom (maxLen : Z) (l : store) : store :=
  if Z.ltb 0 maxLen && Z.leb maxLen (Z.of_nat (length l)) then removelast l else l.

Definition specSet (maxLen now : Z) (k v : string) (ttl : Z) (l : store) : option GoErr * store :=
  if Z.ltb ttl 0 then (Some ErrInvalidTTL, l)
  else
    let i := mkItem k v (expiresAt now ttl) in
    match lookupKey k l with
    | Some _ => (None, i :: dropKey k l)
    | None => (None, i :: makeRoom maxLen l)
    end.

(** ** Lists of items *)

Lemma lookupKey_Some k l i : lookupKey k l = Some i -> i ∈ l /\ mi_key i = k.
Proof. unfold lookupKey. intros [Hin Hk]%List.find_some. split; [by apply list_elem_of_In|by apply String.eqb_eq]. Qed.

Lemma lookupKey_None k l : lookupKey k l = None -> k ∉ mi_key <$> l.
Proof.
  intros H [i [-> Hin]]%list_elem_of_fmap. apply list_elem_of_In in Hin. pose proof (List.find_none _ _ H _ Hin) as Hf. cbn in Hf.
  by rewrite String.eqb_refl in Hf.
Qed.

Lemma lookupKey_elem i l : NoDup (mi_key <$> l) -> i ∈ l -> lookupKey (mi_key i) l = Some i.
Proof.
  unfold lookupKey. induction l as [|j l IH]; intros Hnd Hin; [by apply not_elem_of_nil in Hin|]. apply NoDup_cons in Hnd as [Hj Hnd]. cbn.
  apply elem_of_cons in Hin as [<-|Hin]; [by rewrite String.eqb_refl|]. destruct (String.eqb_spec (mi_key j) (mi_key i)) as [Heq|_]; [|by apply IH].
  exfalso. apply Hj. rewrite Heq. apply list_elem_of_fmap. by exists i.
Qed.

Lemma keysOf_abs order : keysOf order = mi_key <$> order.*2.
Proof. unfold keysOf. by rewrite <- list_fmap_compose. Qed.

(** Removing an element is dropping its key. *)
Lemma removeElement_abs e item order :
  NoDup order.*1 -> NoDup (keysOf order) -> (e, item) ∈ order -> (removeElement e order).*2 = dropKey (mi_key item) order.*2.
Proof.
  intros Hids Hkeys Hin. assert (Hiff : forall p, In p order -> Nat.eqb p.1 e = String.eqb (mi_key p.2) (mi_key item)).
  { intros [e' i'] Hp. cbn. apply list_elem_of_In in Hp. destruct (String.eqb_spec (mi_key i') (mi_key item)) as [Hk|Hk].
    - destruct (key_unique _ _ _ _ _ Hkeys Hp Hin Hk) as [-> _]. apply Nat.eqb_refl.
    - apply Nat.eqb_neq. intros ->. apply (elementItem_elem _ _ _ Hids) in Hp, Hin. congruence. }
  clear Hin Hids Hkeys. unfold removeElement, dropKey. induction order as [|p order IH]; [done|]. cbn. rewrite (Hiff p) by (by left).
  destruct (String.eqb (mi_key p.2) (mi_key item)); cbn; rewrite IH; try done; intros q Hq; apply Hiff; by right.
Qed.

(** ** The three moves keep the list and the map together *)

Lemma entry_element c k e : consistent c -> mc_entries c !! k = Some e ->
  exists item, (e, item) ∈ mc_order c /\ mi_key item = k /\ elementItem e (mc_order c) = Some item /\ lookupKey k (abs c) = Some item.
Proof.
  intros Hc He. destruct (proj1 (co_map c Hc k e) He) as (item&Hin&Hk). exists item. repeat split; try done.
  - by apply elementItem_elem; [apply Hc|].
  - rewrite <- Hk. apply lookupKey_elem; [unfold abs; rewrite <- keysOf_abs; apply Hc|]. apply list_elem_of_fmap. by exists (e, item).
Qed.

Lemma no_entry c k : consistent c -> mc_entries c !! k = None -> lookupKey k (abs c) = None.
Proof.
  intros Hc He. destruct (lookupKey k (abs c)) as [i|] eqn:Hl; [exfalso|done]. apply lookupKey_Some in Hl as [[[e i'] [-> Hin]]%list_elem_of_fmap Hk].
  assert (mc_entries c !! k = Some e) by (apply (co_map c Hc); by exists i'). congruence.
Qed.

Lemma consistent_remove c e item : consistent c -> (e, item) ∈ mc_order c ->
  consistent (mkMemory (mc_maxLen c) (removeElement e (mc_order c)) (delete (mi_key item) (mc_entries c)) (mc_next c)).
Proof.
  intros Hc Hin. pose proof (removeElement_length _ _ _ Hin (co_ids c Hc)) as Hlen. split; cbn.
  - apply removeElement_ids, Hc.
  - apply removeElement_keys, Hc.
  - intros k e'. rewrite lookup_delete_Some, (co_map c Hc). split.
    + intros (Hk&i&Hi&<-). exists i. split; [|done]. apply removeElement_elem. split; [done|]. cbn. intros ->.
      pose proof (elementItem_elem _ _ _ (co_ids c Hc) Hi). pose proof (elementItem_elem _ _ _ (co_ids c Hc) Hin). congruence.
    + intros (i&[Hi Hne]%removeElement_elem&<-). split; [|by exists i]. intros Hk.
      by destruct (key_unique _ _ _ _ _ (co_keys c Hc) Hin Hi Hk) as [-> _].
  - intros e' [[e'' i] [-> Hp]]%list_elem_of_fmap. apply removeElement_elem in Hp as [Hp _]. apply (co_next c Hc), list_elem_of_fmap. by exists (e'', i).
  - intros Hm. pose proof (co_len c Hc Hm). lia.
Qed.

Lemma consistent_front c e item item' : consistent c -> (e, item) ∈ mc_order c -> mi_key item' = mi_key item ->
  consistent (mkMemory (mc_maxLen c) (moveToFront e item' (mc_order c)) (mc_entries c) (mc_next c)).
Proof.
  intros Hc Hin Hk. pose proof (consistent_remove c e item Hc Hin) as Hr. pose proof (removeElement_length _ _ _ Hin (co_ids c Hc)) as Hlen. split; cbn.
  - apply NoDup_cons. split; [|apply Hr]. intros [[e'' i] [-> Hp]]%list_elem_of_fmap. by apply removeElement_elem in Hp as [_ ?].
  - apply NoDup_cons. split; [|apply Hr]. intros [[e'' i] [Heq Hp]]%list_elem_of_fmap. cbn in Heq. apply removeElement_elem in Hp as [Hp Hne]. cbn in Hne.
    apply Hne. refine (proj1 (key_unique _ _ _ _ _ (co_keys c Hc) Hp Hin _)). congruence.
  - intros k e'. rewrite (co_map c Hc). split.
    + intros (i&Hi&<-). destruct (decide (e' = e)) as [->|Hne].
      * exists item'. split; [by left|]. pose proof (elementItem_elem _ _ _ (co_ids c Hc) Hi). pose proof (elementItem_elem _ _ _ (co_ids c Hc) Hin). congruence.
      * exists i. split; [|done]. right. by apply removeElement_elem.
    + intros (i&[[= -> ->]|[Hi _]%removeElement_elem]%elem_of_cons&<-); [exists item; by split|by exists i].
  - intros e' [->|He']%elem_of_cons; [|by apply (co_next _ Hr)]. apply (co_next c Hc), list_elem_of_fmap. by exists (e, item).
  - intros Hm. pose proof (co_len c Hc Hm). lia.
Qed.

Lemma consistent_push c k v exp : consistent c -> mc_entries c !! k = None -> (0 < mc_maxLen c -> Z.of_nat (length (mc_order c)) < mc_maxLen c) ->
  consistent (mkMemory (mc_maxLen c) ((mc_next c, mkItem k v exp) :: mc_order c) (<[k := mc_next c]> (mc_entries c)) (S (mc_next c))).
Proof.
  intros Hc Hk Hroom. pose proof (lookupKey_None _ _ (no_entry c k Hc Hk)) as Hnk. assert (Hnext : mc_next c ∉ (mc_order c).*1).
  { intros Hin%(co_next c Hc). lia. }
  split; cbn.
  - apply NoDup_cons. split; [done|apply Hc].
  - apply NoDup_cons. split; [|apply Hc]. cbn. by rewrite keysOf_abs.
  - intros k' e'. destruct (decide (k' = k)) as [->|Hne].
    + rewrite lookup_insert_eq. split.
      * intros [= <-]. eexists. split; [by left|done].
      * intros (i&[[= -> ->]|Hi]%elem_of_cons&Hki); [done|]. exfalso. apply Hnk, list_elem_of_fmap. exists i. split; [done|]. apply list_elem_of_fmap. by exists (e', i).
    + rewrite lookup_insert_ne by done. rewrite (co_map c Hc). split; intros (i&Hi&Hki).
      * exists i. split; [by right|done].
      * apply elem_of_cons in Hi as [[= -> ->]|Hi]; [by cbn in Hki|by exists i].
  - intros e' [->|He'%(co_next c Hc)]%elem_of_cons; lia.
  - intros Hm. specialize (Hroom Hm). lia.
Qed.

Lemma consistent_NewMemory n : consistent (NewMemory n).
Proof.
  split; cbn; [constructor|constructor| | |].
  - intros k e. rewrite lookup_empty. split; [done|]. by intros (i&Hi%not_elem_of_nil&_).
  - by intros e Hi%not_elem_of_nil.
  - lia.
Qed.

(** ** Each operation is the specification's *)

Lemma memoryGet_spec now k c : consistent c ->
  consistent (memoryGet now k c).2 /\ mc_maxLen (memoryGet now k c).2 = mc_maxLen c /\ ((memoryGet now k c).1, abs (memoryGet now k c).2) = specGet now k (abs c).
Proof.
  intros Hc. unfold memoryGet, specGet. destruct (mc_entries c !! k) as [e|] eqn:He; [|by rewrite (no_entry c k Hc He)].
  destruct (entry_element c k e Hc He) as (item&Hin&<-&->&->). destruct (expired now item); cbn.
  - split; [by apply consistent_remove|]. split; [done|]. f_equal. by apply removeElement_abs; try apply Hc.
  - split; [by eapply consistent_front|]. split; [done|]. do 2 f_equal. by apply removeElement_abs; try apply Hc.
Qed.

Lemma memoryDelete_spec k c : consistent c ->
  consistent (memoryDelete k c) /\ mc_maxLen (memoryDelete k c) = mc_maxLen c /\ abs (memoryDelete k c) = dropKey k (abs c).
Proof.
  intros Hc. unfold memoryDelete. destruct (mc_entries c !! k) as [e|] eqn:He.
  - destruct (entry_element c k e Hc He) as (item&Hin&<-&_). split; [by apply consistent_remove|]. split; [done|]. by apply removeElement_abs; try apply Hc.
  - split; [done|]. split; [done|]. pose proof (lookupKey_None _ _ (no_entry c k Hc He)) as Hn. unfold dropKey. symmetry. apply forallb_filter_id, forallb_forall.
    intros i Hi. apply negb_true_iff, String.eqb_neq. intros <-. apply Hn, list_elem_of_fmap. exists i. split; [done|]. by apply list_elem_of_In.
Qed.

Lemma removelast_last {A} (l : list A) x : last l = Some x -> l = removelast l ++ [x].
Proof. intros H. apply last_Some in H as [l' ->]. by rewrite removelast_last. Qed.

Lemma removeElement_last e item order : NoDup order.*1 -> last order = Some (e, item) -> removeElement e order = removelast order.
Proof.
  intros Hnd Hl. pose proof (removelast_last _ _ Hl) as Heq. rewrite Heq in Hnd |- * at 1. rewrite fmap_app, NoDup_app in Hnd. destruct Hnd as (_&Hnin&_).
  unfold removeElement. rewrite List.filter_app. cbn. rewrite Nat.eqb_refl. cbn. rewrite app_nil_r.
  rewrite Heq, List.removelast_last. apply forallb_filter_id, forallb_forall.
  intros p Hp. apply negb_true_iff, Nat.eqb_neq. intros Hpe. apply (Hnin e); [|by left].
  apply list_elem_of_fmap. exists p. split; [done|]. by apply list_elem_of_In.
Qed.

Lemma fmap_removelast {A B} (f : A -> B) (l : list A) : f <$> removelast l = removelast (f <$> l).
Proof. induction l as [|x l IH]; [done|]. cbn. destruct l; [done|]. cbn in *. by rewrite IH. Qed.

Lemma evict_spec k c : consistent c -> mc_entries c !! k = None ->
  consistent (evict c) /\ mc_maxLen (evict c) = mc_maxLen c /\ mc_next (evict c) = mc_next c /\ mc_entries (evict c) !! k = None /\
  abs (evict c) = makeRoom (mc_maxLen c) (abs c) /\ (0 < mc_maxLen c -> Z.of_nat (length (mc_order (evict c))) < mc_maxLen c).
Proof.
  intros Hc Hk. unfold evict, makeRoom. assert (Hlen : length (abs c) = length (mc_order c)) by apply length_fmap. rewrite Hlen.
  destruct (Z.ltb 0 (mc_maxLen c) && Z.leb (mc_maxLen c) (Z.of_nat (length (mc_order c)))) eqn:Hfull.
  - apply andb_true_iff in Hfull as [H0%Z.ltb_lt H1%Z.leb_le]. destruct (last (mc_order c)) as [[e item]|] eqn:Hl.
    + assert (Hin : (e, item) ∈ mc_order c) by (by apply last_Some_elem_of). pose proof (removeElement_length _ _ _ Hin (co_ids c Hc)). pose proof (co_len c Hc H0).
      split; [by apply consistent_remove|]. cbn. do 2 (split; [done|]). split; [apply lookup_delete_None; by right|]. split; [|lia].
      unfold abs at 1. cbn. rewrite (removeElement_last _ _ _ (co_ids c Hc) Hl). apply fmap_removelast.
    + apply last_None in Hl. rewrite Hl in H1. cbn in H1. lia.
  - apply andb_false_iff in Hfull as [H0%Z.ltb_ge|H0%Z.leb_gt]; repeat split; try done; try apply Hc; lia.
Qed.

Lemma memorySet_spec now k v ttl c : consistent c ->
  consistent (memorySet now k v ttl c).2 /\ mc_maxLen (memorySet now k v ttl c).2 = mc_maxLen c /\
  ((memorySet now k v ttl c).1, abs (memorySet now k v ttl c).2) = specSet (mc_maxLen c) now k v ttl (abs c).
Proof.
  intros Hc. unfold memorySet, specSet. destruct (Z.ltb ttl 0); [done|]. destruct (mc_entries c !! k) as [e|] eqn:He.
  - destruct (entry_element c k e Hc He) as (item&Hin&<-&->&->). cbn. split; [by eapply consistent_front|]. split; [done|].
    do 2 f_equal. by apply removeElement_abs; try apply Hc.
  - rewrite (no_entry c k Hc He). destruct (evict_spec k c Hc He) as (Hce&Hm&Hn&Hk&Habs&Hroom). rewrite <- Habs. cbn. split; [|by split].
    apply consistent_push; [done|done|]. by rewrite Hm.
Qed.

(** ** Runs *)

Inductive cacheOp :=
| OpGet (k : string)
| OpSet (k v : string) (ttl : Z)
| OpDelete (k : string).

Inductive cacheAnswer :=
| AnsGet (v : option string)
| AnsSet (err : option GoErr)
| AnsDelete.

(** An operation with the clock's reading. *)
Abbreviation timedOp := (Z * cacheOp)%type.

Definition opKey (o : timedOp) : string := match o.2 with OpGet k | OpSet k _ _ | OpDelete k => k end.

Definition cacheStep (o : timedOp) (c : memoryCache) : cacheAnswer * memoryCache :=
  match o.2 with
  | OpGet k => let '(v, c) := memoryGet o.1 k c in (AnsGet v, c)
  | OpSet k v ttl => let '(e, c) := memorySet o.1 k v ttl c in (AnsSet e, c)
  | OpDelete k => (AnsDelete, memoryDelete k c)
  end.

Definition specStep (maxLen : Z) (o : timedOp) (l : store) : cacheAnswer * store :=
  match o.2 with
  | OpGet k => let '(v, l) := specGet o.1 k l in (AnsGet v, l)
  | OpSet k v ttl => let '(e, l) := specSet maxLen o.1 k v ttl l in (AnsSet e, l)
  | OpDelete k => (AnsDelete, dropKey k l)
  end.

Fixpoint runOps {S} (step : timedOp -> S -> cacheAnswer * S) (os : list timedOp) (s : S) : list cacheAnswer * S :=
  match os with
  | [] => ([], s)
  | o :: os => let '(a, s) := step o s in let '(r, s) := runOps step os s in (a :: r, s)
  end.

Lemma runOps_app {S} (step : timedOp -> S -> cacheAnswer * S) os1 os2 s :
  (runOps step (os1 ++ os2) s).2 = (runOps step os2 (runOps step os1 s).2).2.
Proof.
  revert s. induction os1 as [|o os1 IH]; intros s; [done|]. cbn. destruct (step o s) as [a s']. specialize (IH s').
  destruct (runOps step (os1 ++ os2) s'), (runOps step os1 s'). exact IH.
Qed.

Lemma cacheStep_spec o c : consistent c ->
  consistent (cacheStep o c).2 /\ mc_maxLen (cacheStep o c).2 = mc_maxLen c /\
  ((cacheStep o c).1, abs (cacheStep o c).2) = specStep (mc_maxLen c) o (abs c).
Proof.
  intros Hc. destruct o as [now [k|k v ttl|k]]; unfold cacheStep, specStep; cbn [fst snd].
  - destruct (memoryGet_spec now k c Hc) as (H1&H2&H3). rewrite <- H3. by destruct (memoryGet now k c).
  - destruct (memorySet_spec now k v ttl c Hc) as (H1&H2&H3). rewrite <- H3. by destruct (memorySet now k v ttl c).
  - destruct (memoryDelete_spec k c Hc) as (H1&H2&H3). by rewrite <- H3.
Qed.

Lemma runOps_spec os c : consistent c ->
  consistent (runOps cacheStep os c).2 /\ mc_maxLen (runOps cacheStep os c).2 = mc_maxLen c /\
  ((runOps cacheStep os c).1, abs (runOps cacheStep os c).2) = runOps (specStep (mc_maxLen c)) os (abs c).
Proof.
  revert c. induction os as [|o os IH]; intros c Hc; [done|]. cbn. destruct (cacheStep_spec o c Hc) as (H1&H2&H3).
  destruct (cacheStep o c) as [a c']. cbn in *. rewrite <- H3. destruct (IH c' H1) as (H4&H5&H6). rewrite H2 in H6. rewrite <- H6.
  destruct (runOps cacheStep os c') as [r c'']. cbn in *. split; [done|]. split; [congruence|done].
Qed.

(** ** What the specification keeps *)

Lemma dropKey_elem k l i : i ∈ dropKey k l <-> i ∈ l /\ mi_key i <> k.
Proof. unfold dropKey. by rewrite !list_elem_of_In, filter_In, negb_true_iff, String.eqb_neq. Qed.

Lemma removelast_sub {A} (l : list A) x : x ∈ removelast l -> x ∈ l.
Proof.
  destruct (last l) as [y|] eqn:Hl; [|by apply last_None in Hl as ->]. intros Hx. rewrite (removelast_last l y Hl). apply elem_of_app. by left.
Qed.

Lemma makeRoom_elem maxLen l i : i ∈ makeRoom maxLen l -> i ∈ l.
Proof. unfold makeRoom. destruct (_ && _); [apply removelast_sub|done]. Qed.

Lemma specGet_elem now k l : (forall i, i ∈ (specGet now k l).2 -> i ∈ l) /\
  (forall v, (specGet now k l).1 = Some v -> exists i, i ∈ l /\ mi_key i = k /\ mi_value i = v /\ unexpired now (mi_expiresAt i)).
Proof.
  unfold specGet. destruct (lookupKey k l) as [i|] eqn:Hl; [|done]. apply lookupKey_Some in Hl as [Hin Hk]. destruct (expired now i) eqn:Hx; cbn.
  - split; [|done]. by intros j [? _]%dropKey_elem.
  - split; [by intros j [->|[? _]%dropKey_elem]%elem_of_cons|]. intros v [= <-]. exists i. repeat split; try done.
    unfold expired in Hx. destruct (mi_expiresAt i); [|done]. by apply Z.ltb_ge in Hx.
Qed.

Lemma specSet_elem maxLen now k v ttl l : 0 <= ttl -> (specSet maxLen now k v ttl l).1 = None /\
  forall i, i ∈ (specSet maxLen now k v ttl l).2 -> i = mkItem k v (expiresAt now ttl) \/ (mi_key i <> k /\ i ∈ l).
Proof.
  intros Httl. unfold specSet. destruct (Z.ltb_spec ttl 0); [lia|]. destruct (lookupKey k l) as [j|] eqn:Hl; cbn; (split; [done|]);
    intros i [->|Hi]%elem_of_cons; [by left| |by left|]; right.
  - by apply dropKey_elem in Hi as [??].
  - apply makeRoom_elem in Hi. split; [|done]. intros <-. apply lookupKey_None in Hl. apply Hl, list_elem_of_fmap. by exists i.
Qed.

#[export] Instance memoryCache_laws : CacheLaws memoryCache.
Proof.
  refine {| cacheOk := consistent; mayAnswer c k v exp := mkItem k v exp ∈ abs c |}.
  - intros now k c r c' Hc. cbn. destruct (memoryGet_spec now k c Hc) as (H1&_&H2). destruct (memoryGet now k c) as [o c0]. cbn in H2. intros [= <- <-].
    destruct (specGet_elem now k (abs c)) as [He Hv]. rewrite <- H2 in He, Hv. split; [done|]. split; [by intros k' v exp; apply He|].
    intros v [= ->]. destruct (Hv v eq_refl) as (i&Hi&<-&<-&Hf). exists (mi_expiresAt i). split; [|done]. by destruct i.
  - intros now k v ttl c c' Hc. cbn. destruct (memorySet_spec now k v ttl c Hc) as (H1&_&H2). destruct (memorySet now k v ttl c) as [o c0]. cbn in H2. intros [= -> <-].
    assert (Httl : 0 <= ttl) by (unfold specSet in H2; destruct (Z.ltb_spec ttl 0); [done|lia]). destruct (specSet_elem (mc_maxLen c) now k v ttl (abs c) Httl) as [_ He].
    rewrite <- H2 in He. split; [done|]. split; [done|]. intros k' v' exp [[= -> -> ->]|Hi]%He; [by left|by right].
  - intros now k v ttl c e c' Hc. cbn. unfold memorySet. destruct (Z.ltb ttl 0); [by intros [= <- <-]|]. destruct (mc_entries c !! k) as [el|]; [|done].
    by destruct (elementItem el (mc_order c)).
  - intros k c r c' Hc. cbn. intros [= <- <-]. destruct (memoryDelete_spec k c Hc) as (H1&_&->). split; [done|]. intros k' v exp [Hi Hk]%dropKey_elem. done.
Defined.

(** * What the cache answers

    The in-process cache is the bounded list of the specification, a hit is the last value
    set, and a key stays while fewer other keys than the bound were used since. *)

(** ** The last write of a key *)

(** The instant, value and lifetime of the last accepted [Set] of [k] that no [Delete] follows. *)
Definition noteWrite (k : string) (acc : option (Z * string * Z)) (o : timedOp) : option (Z * string * Z) :=
  match o.2 with
  | OpSet k' v ttl => if String.eqb k' k && Z.leb 0 ttl then Some (o.1, v, ttl) else acc
  | OpDelete k' => if String.eqb k' k then None else acc
  | OpGet _ => acc
  end.

Definition lastWrite (k : string) (os : list timedOp) : option (Z * string * Z) := foldl (noteWrite k) None os.

Lemma lastWrite_snoc k os o : lastWrite k (os ++ [o]) = noteWrite k (lastWrite k os) o.
Proof. unfold lastWrite. by rewrite foldl_app. Qed.

(** An item is the trace of the last write of its key. *)
Definition isLast (os : list timedOp) (i : memoryItem) : Prop :=
  exists t ttl, lastWrite (mi_key i) os = Some (t, mi_value i, ttl) /\ mi_expiresAt i = expiresAt t ttl.

Lemma isLast_other os o i : isLast os i -> opKey o <> mi_key i -> isLast (os ++ [o]) i.
Proof.
  intros (t&ttl&Hl&He) Hk. exists t, ttl. split; [|done]. rewrite lastWrite_snoc, Hl. unfold noteWrite, opKey in *.
  destruct o as [now [k|k v ttl'|k]]; cbn in *; [done| |]; (destruct (String.eqb_spec k (mi_key i)); [done|done]).
Qed.

Lemma specStep_isLast maxLen os o l : (forall i, i ∈ l -> isLast os i) -> forall i, i ∈ (specStep maxLen o l).2 -> isLast (os ++ [o]) i.
Proof.
  intros Hl i. destruct o as [now [k|k v ttl|k]]; unfold specStep; cbn [fst snd].
  - destruct (specGet_elem now k l) as [Hsub _]. destruct (specGet now k l) as [a l']. cbn in *. intros Hi%Hsub%Hl.
    destruct Hi as (t&ttl&H1&H2). exists t, ttl. by rewrite lastWrite_snoc.
  - destruct (Z.ltb_spec ttl 0) as [Hneg|Hpos].
    + unfold specSet. destruct (Z.ltb_spec ttl 0); [cbn|lia]. intros (t&ttl'&H1&H2)%Hl. exists t, ttl'. rewrite lastWrite_snoc, H1. unfold noteWrite. cbn.
      destruct (Z.leb_spec 0 ttl); [lia|]. by rewrite andb_false_r.
    + destruct (specSet_elem maxLen now k v ttl l Hpos) as [_ Hin]. destruct (specSet maxLen now k v ttl l) as [a l']. cbn in *.
      intros [->|[Hk Hi]]%Hin; [|apply isLast_other; [by apply Hl|done]].
      exists now, ttl. split; [|done]. rewrite lastWrite_snoc. unfold noteWrite. cbn. rewrite String.eqb_refl. by destruct (Z.leb_spec 0 ttl); [|lia].
  - intros [Hi Hk]%dropKey_elem. apply isLast_other; [by apply Hl|done].
Qed.

Lemma run_isLast maxLen os i : i ∈ (runOps (specStep maxLen) os []).2 -> isLast os i.
Proof.
  revert i. induction os as [|o os IH] using rev_ind; [by intros i Hi%not_elem_of_nil|]. intros i. rewrite runOps_app. cbn.
  pose proof (specStep_isLast maxLen os o _ IH i) as Hs. destruct (specStep maxLen o _) as [a l']. exact Hs.
Qed.

(** ** Keys in use stay *)

(** The item is in the list and what precedes it has its key in [D]. *)
Definition ahead (D : gset string) (i : memoryItem) (l : store) : Prop :=
  exists l1 l2, l = l1 ++ i :: l2 /\ forall j, j ∈ l1 -> mi_key j ∈ D.

Lemma ahead_cons D i j l : mi_key j ∈ D -> ahead D i l -> ahead D i (j :: l).
Proof. intros Hj (l1&l2&->&H). exists (j :: l1), l2. split; [done|]. by intros x [->|Hx]%elem_of_cons; [|apply H]. Qed.

Lemma ahead_drop D i k l : k <> mi_key i -> ahead D i l -> ahead D i (dropKey k l).
Proof.
  intros Hk (l1&l2&->&H). exists (dropKey k l1), (dropKey k l2). unfold dropKey. rewrite List.filter_app. cbn.
  destruct (String.eqb_spec (mi_key i) k) as [Heq|_]; [by symmetry in Heq|]. split; [done|]. intros j [Hj _]%(dropKey_elem k). by apply H.
Qed.

Lemma ahead_room D i k l maxLen :
  NoDup (mi_key <$> l) -> k ∈ D -> k ∉ mi_key <$> l -> (0 < maxLen -> Z.of_nat (size D) < maxLen) -> ahead D i l -> ahead D i (makeRoom maxLen l).
Proof.
  intros Hnd HkD Hkl Hsize (l1&l2&->&H). unfold makeRoom. destruct (Z.ltb 0 maxLen && _) eqn:Hfull; [|by exists l1, l2].
  apply andb_true_iff in Hfull as [H0%Z.ltb_lt H1%Z.leb_le]. specialize (Hsize H0). destruct l2 as [|j l2].
  - exfalso. assert (Hle : (length (k :: (mi_key <$> l1)) <= size D)%nat).
    { rewrite <- (size_list_to_set (C := gset string)).
      - apply subseteq_size. intros x [->|Hx]%elem_of_list_to_set%elem_of_cons; [done|]. apply list_elem_of_fmap in Hx as (y&->&Hy). by apply H.
      - rewrite fmap_app in Hnd, Hkl. apply NoDup_cons. split; [set_solver|]. by apply NoDup_app in Hnd as [? _]. }
    rewrite length_app in H1. cbn in *. rewrite length_fmap in Hle. lia.
  - exists l1, (removelast (j :: l2)). split; [|done]. rewrite removelast_app by done. done.
Qed.

(** The operation leaves the item alone: no accepted [Set], no [Delete], and no [Get] past its expiry. *)
Definition spares (i : memoryItem) (o : timedOp) : Prop :=
  match o.2 with
  | OpGet k => k = mi_key i -> unexpired o.1 (mi_expiresAt i)
  | OpSet k _ ttl => k = mi_key i -> ttl < 0
  | OpDelete k => k <> mi_key i
  end.

Lemma ahead_step D i o c :
  consistent c -> (0 < mc_maxLen c -> Z.of_nat (size D) < mc_maxLen c) -> (opKey o <> mi_key i -> opKey o ∈ D) -> spares i o ->
  ahead D i (abs c) -> ahead D i (abs (cacheStep o c).2).
Proof.
  intros Hc Hsize HD Hs Ha. destruct (cacheStep_spec o c Hc) as (_&_&Heq). assert (Hnd : NoDup (mi_key <$> abs c)) by (unfold abs; rewrite <- keysOf_abs; apply Hc).
  apply (f_equal snd) in Heq. cbn in Heq. rewrite Heq. clear Heq. destruct o as [now [k|k v ttl|k]]; unfold specStep, spares, opKey in *; cbn [fst snd] in *.
  - unfold specGet. destruct (lookupKey k (abs c)) as [j|] eqn:Hl; [|done]. destruct (decide (k = mi_key i)) as [->|Hk].
    + assert (Hin : i ∈ abs c) by (destruct Ha as (l1&l2&->&_); set_solver). rewrite (lookupKey_elem i _ Hnd Hin) in Hl. injection Hl as <-.
      specialize (Hs eq_refl). unfold expired. assert (Hx : (match mi_expiresAt i with Some t => Z.ltb t now | None => false end) = false)
        by (unfold unexpired in Hs; destruct (mi_expiresAt i); [by apply Z.ltb_ge|done]). rewrite Hx. cbn. exists [], (dropKey (mi_key i) (abs c)).
      split; [done|]. by intros ? ?%not_elem_of_nil.
    + pose proof (ahead_drop D i k _ Hk Ha) as Hdrop. apply lookupKey_Some in Hl as [_ Hj]. destruct (expired now j); [done|]. cbn. apply ahead_cons; [|done].
      rewrite Hj. by apply HD.
  - unfold specSet. destruct (Z.ltb_spec ttl 0); [done|]. assert (Hk : k <> mi_key i) by (intros Hk; specialize (Hs Hk); lia).
    destruct (lookupKey k (abs c)) eqn:Hl; cbn; (apply ahead_cons; [by apply HD|]); [by apply ahead_drop|].
    apply lookupKey_None in Hl. by apply (ahead_room D i k); [| apply HD | | |].
  - by apply ahead_drop.
Qed.

Lemma ahead_run D i os c :
  consistent c -> (0 < mc_maxLen c -> Z.of_nat (size D) < mc_maxLen c) -> Forall (fun o => (opKey o <> mi_key i -> opKey o ∈ D) /\ spares i o) os ->
  ahead D i (abs c) -> ahead D i (abs (runOps cacheStep os c).2).
Proof.
  revert c. induction os as [|o os IH]; intros c Hc Hsize Hos Ha; [done|]. apply Forall_cons in Hos as [[HD Hs] Hos]. cbn.
  pose proof (ahead_step D i o c Hc Hsize HD Hs Ha) as Ha'. destruct (cacheStep_spec o c Hc) as (Hc'&Hm&_). destruct (cacheStep o c) as [a c']. cbn in *.
  rewrite <- Hm in Hsize. specialize (IH c' Hc' Hsize Hos Ha'). by destruct (runOps cacheStep os c').
Qed.

(** The keys used by operations, less [k]. *)
Definition otherKeys (k : string) (os : list timedOp) : gset string := list_to_set (opKey <$> os) ∖ {[ k ]}.

Definition runCache (n : Z) (os : list timedOp) : memoryCache := (runOps cacheStep os (NewMemory n)).2.

Lemma runCache_ok n os : consistent (runCache n os) /\ mc_maxLen (runCache n os) = mc_maxLen (NewMemory n).
Proof. destruct (runOps_spec os _ (consistent_NewMemory n)) as (H1&H2&_). done. Qed.

Lemma ahead_hit D i now c : consistent c -> ahead D i (abs c) -> unexpired now (mi_expiresAt i) -> (memoryGet now (mi_key i) c).1 = Some (mi_value i).
Proof.
  intros Hc (l1&l2&Heq&_) Hu. destruct (memoryGet_spec now (mi_key i) c Hc) as (_&_&Hg). apply (f_equal fst) in Hg. cbn in Hg. rewrite Hg. unfold specGet.
  rewrite (lookupKey_elem i); [|unfold abs; rewrite <- keysOf_abs; apply Hc|rewrite Heq; set_solver].
  unfold expired. unfold unexpired in Hu. destruct (mi_expiresAt i) as [t|]; [|done]. by destruct (Z.ltb_spec t now); [lia|].
Qed.

Lemma NewMemory_bound n : 0 < n -> mc_maxLen (NewMemory n) = n.
Proof. intros Hn. unfold NewMemory. destruct (Z.eqb_spec n 0); [lia|]. by destruct (Z.ltb_spec n 0); [lia|]. Qed.

(** After an accepted [Set] the item is at the front. *)
Lemma set_ahead D now k v ttl c : consistent c -> 0 <= ttl -> ahead D (mkItem k v (expiresAt now ttl)) (abs (cacheStep (now, OpSet k v ttl) c).2).
Proof.
  intros Hc Httl. destruct (cacheStep_spec (now, OpSet k v ttl) c Hc) as (_&_&Heq). apply (f_equal snd) in Heq. cbn [snd] in Heq. rewrite Heq.
  unfold specStep, specSet. cbn [fst snd]. destruct (Z.ltb_spec ttl 0); [lia|].
  destruct (lookupKey k (abs c)); cbn; eexists [], _; (split; [done|]); by intros ? ?%not_elem_of_nil.
Qed.

(** C34: from a new store, whatever the operations and the instants, the answers of the
    in-process cache ([memory.go]: a map of pointers into a linked list) are those of a
    plain list kept most recent first, its list and map agree, and it never holds more
    than its bound. *)
Theorem cache_refines_the_lru_list n os :
  let c := runCache n os in
  (runOps cacheStep os (NewMemory n)).1 = (runOps (specStep (mc_maxLen (NewMemory n))) os []).1 /\
  abs c = (runOps (specStep (mc_maxLen (NewMemory n))) os []).2 /\
  (forall k e, mc_entries c !! k = Some e <-> exists item, (e, item) ∈ mc_order c /\ mi_key item = k) /\
  NoDup (keysOf (mc_order c)) /\
  (0 < n -> Z.of_nat (length (mc_order c)) <= n) /\
  (n = 0 -> Z.of_nat (length (mc_order c)) <= frameworkMemoryMaxEntries).
Proof.
  destruct (runOps_spec os _ (consistent_NewMemory n)) as (H1&H2&H3). unfold runCache. change (abs (NewMemory n)) with (@nil memoryItem) in H3. rewrite <- H3. cbn [fst snd].
  split; [done|]. split; [done|]. split; [apply H1|]. split; [apply H1|].
  pose proof (co_len _ H1) as Hlen. rewrite H2 in Hlen. split.
  - intros Hp. by rewrite (NewMemory_bound n Hp) in Hlen; apply Hlen.
  - intros ->. by apply Hlen.
Qed.

(** C35: a hit is the value of the last [Set] of the key, within its lifetime and with no
    [Delete] since; and a key set with a non-negative lifetime is answered with its value
    until it expires, is set or deleted, as long as the operations since then used fewer
    other keys than the store's bound. *)
Theorem cache_answers_the_last_set n os1 t k v ttl os2 now :
  (forall os w, (memoryGet now k (runCache n os)).1 = Some w ->
     exists t' ttl', lastWrite k os = Some (t', w, ttl') /\ unexpired now (expiresAt t' ttl')) /\
  (0 <= ttl -> unexpired now (expiresAt t ttl) -> Forall (spares (mkItem k v (expiresAt t ttl))) os2 ->
   (0 < mc_maxLen (NewMemory n) -> Z.of_nat (size (otherKeys k os2)) < mc_maxLen (NewMemory n)) ->
   (memoryGet now k (runCache n (os1 ++ (t, OpSet k v ttl) :: os2))).1 = Some v).
Proof.
  split.
  - intros os w Hw. destruct (runCache_ok n os) as [Hc _]. destruct (memoryGet_spec now k _ Hc) as (_&_&Hg). apply (f_equal fst) in Hg. cbn in Hg. rewrite Hw in Hg.
    destruct (specGet_elem now k (abs (runCache n os))) as [_ Hv]. destruct (Hv w (eq_sym Hg)) as (i&Hi&<-&<-&Hu).
    destruct (runOps_spec os _ (consistent_NewMemory n)) as (_&_&H3). apply (f_equal snd) in H3. cbn [snd] in H3. unfold runCache in Hi. rewrite H3 in Hi.
    apply run_isLast in Hi as (t'&ttl'&Hl&He). exists t', ttl'. by rewrite <- He.
  - intros Httl Hu Hs Hsize. set (i := mkItem k v (expiresAt t ttl)) in *.
    destruct (runCache_ok n (os1 ++ (t, OpSet k v ttl) :: os2)) as [Hc _]. destruct (runCache_ok n os1) as [Hc1 Hm1].
    refine (ahead_hit (otherKeys k os2) i now _ Hc _ Hu). unfold runCache. rewrite runOps_app. fold (runCache n os1). cbn [runOps].
    pose proof (set_ahead (otherKeys k os2) t k v ttl _ Hc1 Httl) as Ha. destruct (cacheStep_spec (t, OpSet k v ttl) _ Hc1) as (Hc2&Hm2&_).
    destruct (cacheStep (t, OpSet k v ttl) (runCache n os1)) as [a c2]. cbn [snd] in *. assert (Hr : ahead (otherKeys k os2) i (abs (runOps cacheStep os2 c2).2)).
    { apply ahead_run; [done|by rewrite Hm2, Hm1| |done]. apply Forall_forall. intros o Ho. split; [|by eapply Forall_forall in Hs].
      intros Hne. unfold otherKeys. apply elem_of_difference. split; [|by rewrite elem_of_singleton]. apply elem_of_list_to_set, list_elem_of_fmap. by exists o. }
    destruct (runOps cacheStep os2 c2) as [r c3]. exact Hr.
Qed.

(** A store of two: "a" is used again, so "b" makes room for "c". *)
Definition shopOps : list timedOp := [(2, OpSet "b" "2" 0); (3, OpGet "a"); (4, OpSet "b" "3" (-1))].

Lemma cache_answers_the_last_set_witness :
  (memoryGet 9 "a" (runCache 2 ([] ++ (1, OpSet "a" "1" 10) :: shopOps))).1 = Some "1".
Proof.
  apply cache_answers_the_last_set; [lia|cbn; lia| |intros _; vm_compute; reflexivity]. repeat constructor; cbn; try discriminate; lia.
Defined.

Lemma shop_evicts_the_unused : abs (runCache 2 ((1, OpSet "a" "1" 10) :: shopOps ++ [(5, OpSet "c" "4" 0)])) = [mkItem "c" "4" None; mkItem "a" "1" (Some 11)].
Proof. reflexivity. Qed.
