(* ===== verification/HttpCache.v ===== *)
(** * The response cache of the HTTP client

    [infra/httpclient/cache_config.go] and [infra/httpclient/cache_middleware.go] over a
    store that satisfies the port of [Cache.v], with what gives a request its URL
    ([resolveBaseURL] of [call.go], the path of [binding/request.go]).

    SHA-256 in hexadecimal and the JSON form of an entry are parameters.  The middleware
    is the composition of what it does before and after the rest of the chain, so that
    calls in flight at the same time interleave between the two. *)

From S2P Require Import Prelude Errors GoStrings Naming Engines HttpClient Cache.
From stdpp Require Import base gmap strings list fin_maps.
From Stdlib Require Import Ascii ZArith Lia.

Open Scope string_scope.
Open Scope list_scope.
Open Scope Z_scope.

Definition ToUpper (s : string) : string := mapBytes toUpperRune s.
Definition ToLower (s : string) : string := mapBytes toLowerRune s.

(** ** Requests and responses *)

Abbreviation Header := (gmap string (list string)).

(** A parsed URL: its host, its decoded path and its query values. *)
Record URL := mkURL { u_Host : string; u_Path : string; u_Query : gmap string (list string) }.

Record Request := mkRequest { rq_Method : string; rq_URL : option URL; rq_Header : Header }.

(** The body is what reading it to the end gives. *)
Record HttpResponse := mkHttpResponse { rs_StatusCode : Z; rs_Header : Header; rs_Body : GoErr + string; rs_ContentLength : Z }.

(** The pair [(resp, err)]. *)
Abbreviation Outcome := (option HttpResponse * option GoErr)%type.

Definition isTokenByte (c : ascii) : bool :=
  let n := nat_of_ascii c in
  ((65 <=? n) && (n <=? 90) || (97 <=? n) && (n <=? 122) || (48 <=? n) && (n <=? 57) ||
   existsb (Nat.eqb n) [33; 35; 36; 37; 38; 39; 42; 43; 45; 46; 94; 95; 96; 124; 126])%nat.

(** [textproto.CanonicalMIMEHeaderKey]. *)
Fixpoint canonicalWords (upper : bool) (s : string) : string :=
  match s with
  | EmptyString => EmptyString
  | String c rest => String (if upper then toUpperRune c else toLowerRune c) (canonicalWords (Ascii.eqb c "-") rest)
  end.

Definition CanonicalHeaderKey (s : string) : string := if allRunes isTokenByte s then canonicalWords true s else s.

(** The first value of a key, the empty text without one: [http.Header.Get], [url.Values.Get]. *)
Definition firstValue (k : string) (h : gmap string (list string)) : string := default "" (h !! k ≫= head).

Definition headerGet (h : Header) (name : string) : string := firstValue (CanonicalHeaderKey name) h.

(** ** Policy *)

Record CacheDefaults := mkCacheDefaults { cd_Enabled : option bool; cd_DefaultTTL : Z; cd_HonorCacheControl : option bool }.
Record EndpointCacheConfig := mkEndpointCache { ec_TTL : Z; ec_VaryOn : list string }.

Record cachePolicy := mkCachePolicy {
  cp_enabled : bool;
  cp_ttl : Z;
  cp_varyHeaders : list string;
  cp_varyQueries : list string;
  cp_honorCacheControl : bool
}.

Definition noCachePolicy : cachePolicy := mkCachePolicy false 0 [] [] false.

Definition frameworkCacheDefaultTTL : Z := 300 * Second.
Definition frameworkCacheHonorCacheControl : bool := true.

Definition isAlphaByte (c : ascii) : bool :=
  let n := nat_of_ascii c in ((65 <=? n) && (n <=? 90) || (97 <=? n) && (n <=? 122))%nat.

Definition isNameByte (c : ascii) : bool :=
  let n := nat_of_ascii c in (isAlphaByte c || (48 <=? n) && (n <=? 57) || (n =? 95) || (n =? 45))%nat.

Definition isVaryName (s : string) : bool :=
  match s with String c rest => isAlphaByte c && allRunes isNameByte rest | EmptyString => false end.

Inductive VaryOn := VaryHeader (name : string) | VaryQuery (name : string).

(** The submatches of [varyOnEntryRE]. *)
Definition varyOnEntryRE (s : string) : option VaryOn :=
  match afterFirst ":" s with
  | None => None
  | Some name =>
      if negb (isVaryName name) then None
      else if String.eqb s ("header:" +:+ name) then Some (VaryHeader name)
      else if String.eqb s ("query:" +:+ name) then Some (VaryQuery name)
      else None
  end.

Definition addVary (p : cachePolicy) (raw : string) : cachePolicy :=
  match varyOnEntryRE (trimSpace raw) with
  | None => p
  | Some (VaryHeader n) => mkCachePolicy (cp_enabled p) (cp_ttl p) (cp_varyHeaders p ++ [n]) (cp_varyQueries p) (cp_honorCacheControl p)
  | Some (VaryQuery n) => mkCachePolicy (cp_enabled p) (cp_ttl p) (cp_varyHeaders p) (cp_varyQueries p ++ [n]) (cp_honorCacheControl p)
  end.

Definition resolveCachePolicy (defaults : option CacheDefaults) (endpoint : option EndpointCacheConfig) : cachePolicy :=
  match endpoint with
  | None => noCachePolicy
  | Some endpoint =>
      let defaultsEnabled := default true (defaults ≫= cd_Enabled) in
      if negb defaultsEnabled then noCachePolicy
      else
        let ttl := ec_TTL endpoint in
        let ttl := match defaults with Some d => if Z.eqb ttl 0 then cd_DefaultTTL d else ttl | None => ttl end in
        let ttl := if Z.eqb ttl 0 then frameworkCacheDefaultTTL else ttl in
        let honor := default frameworkCacheHonorCacheControl (defaults ≫= cd_HonorCacheControl) in
        foldl addVary (mkCachePolicy true ttl [] [] honor) (ec_VaryOn endpoint)
  end.

Definition validateCacheDefaults (pfx : string) (cfg : option CacheDefaults) : list string :=
  match cfg with
  | None => []
  | Some cfg => if Z.ltb (cd_DefaultTTL cfg) 0 then [pfx +:+ ".defaultTTL: must be non-negative"] else []
  end.

Definition validateEndpointCache (quote : string -> string) (pfx method : string) (cfg : option EndpointCacheConfig) : list string :=
  match cfg with
  | None => []
  | Some cfg =>
      (if Z.ltb (ec_TTL cfg) 0 then [pfx +:+ ".ttl: must be non-negative"] else []) ++
      (let up := ToUpper method in
       if negb (String.eqb up "GET") && negb (String.eqb up "HEAD")
       then [pfx +:+ ": cache is only supported on GET and HEAD endpoints (current method: " +:+ up +:+ ")"] else []) ++
      concat (imap (fun i raw =>
        match varyOnEntryRE (trimSpace raw) with
        | None => [pfx +:+ ".varyOn[" +:+ itoa (Z.of_nat i) +:+ "]: " +:+ quote raw +:+ " does not match header:Name or query:Name"]
        | Some _ => []
        end) (ec_VaryOn cfg))
  end.

(** ** What is stored, and for how long *)

Definition isCacheableMethod (m : string) : bool :=
  let up := ToUpper m in String.eqb up "GET" || String.eqb up "HEAD".

(** The directives of a [Cache-Control] value. *)
Definition directives (v : string) : list string := (fun p => trimSpace (ToLower p)) <$> splitByte "," v.

Definition hasNoStore (resp : HttpResponse) : bool :=
  let v := headerGet (rs_Header resp) "Cache-Control" in
  if String.eqb v "" then false
  else existsb (fun p => String.eqb p "no-store" || String.eqb p "no-cache") (directives v).

Fixpoint firstMaxAge (ps : list string) : option Z :=
  match ps with
  | [] => None
  | p :: ps =>
      if negb (String.prefix "max-age=" p) then firstMaxAge ps
      else match atoi (dropN (String.length "max-age=") p) with
           | Some n => if Z.ltb n 0 then None else Some (wrap64 (n * Second))
           | None => None
           end
  end.

Definition maxAgeFromCacheControl (v : string) : option Z := if String.eqb v "" then None else firstMaxAge (directives v).

Definition shouldStore (resp : HttpResponse) (policy : cachePolicy) (cacheAcceptable : bool) (acceptable : gset Z) : bool :=
  if cp_honorCacheControl policy && hasNoStore resp then false
  else if Z.leb 200 (rs_StatusCode resp) && Z.ltb (rs_StatusCode resp) 300 then true
  else if negb cacheAcceptable then false
  else bool_decide (rs_StatusCode resp ∈ acceptable).

Definition effectiveTTL (resp : HttpResponse) (policy : cachePolicy) : Z :=
  match (if cp_honorCacheControl policy then maxAgeFromCacheControl (headerGet (rs_Header resp) "Cache-Control") else None) with
  | Some d => d
  | None => cp_ttl policy
  end.

(** ** The key *)

Definition upperHex (n : nat) : ascii := ascii_of_nat (if (n <? 10)%nat then 48 + n else 55 + n).

Definition percent (c : ascii) : string :=
  let n := nat_of_ascii c in String "%" (String (upperHex (n / 16)) (String (upperHex (n mod 16)) "")).

Definition isUnreserved (c : ascii) : bool :=
  let n := nat_of_ascii c in
  (isAlphaByte c || (48 <=? n) && (n <=? 57) || existsb (Nat.eqb n) [45; 46; 95; 126])%nat.

(** [url.QueryEscape] and [url.PathEscape]. *)
Definition queryEscapeByte (c : ascii) : string :=
  if isUnreserved c then String c "" else if Ascii.eqb c " " then "+" else percent c.

Definition pathEscapeByte (c : ascii) : string :=
  if isUnreserved c || existsb (Ascii.eqb c) ["$"; "&"; "+"; "="; ":"; "@"]%char then String c "" else percent c.

Fixpoint escapeBytes (f : ascii -> string) (s : string) : string :=
  match s with EmptyString => EmptyString | String c rest => f c +:+ escapeBytes f rest end.

Definition QueryEscape : string -> string := escapeBytes queryEscapeByte.
Definition PathEscape : string -> string := escapeBytes pathEscapeByte.

(** The pairs of the query, the keys and each key's values in order. *)
Definition sortedPairs (q : gmap string (list string)) : list (string * string) :=
  k ← sortStrings (map_to_list q).*1; (fun v => (k, v)) <$> sortStrings (default [] (q !! k)).

Definition sortedQuery (u : option URL) : string :=
  match u with
  | None => ""
  | Some u => joinStr "&" ((fun p => QueryEscape p.1 +:+ "=" +:+ QueryEscape p.2) <$> sortedPairs (u_Query u))
  end.

(** ** Entries *)

Record cacheEntry := mkCacheEntry {
  en_Body : string;
  en_Headers : Header;
  en_Status : Z;
  en_ContentType : string;
  en_ContentLength : Z;
  en_ExpiresAt : Z
}.

Definition entryOf (now ttl : Z) (resp : HttpResponse) (body : string) : cacheEntry :=
  mkCacheEntry body (rs_Header resp) (rs_StatusCode resp) (headerGet (rs_Header resp) "Content-Type") (Z.of_nat (String.length body)) (now + ttl).

Definition materializeResponse (entry : cacheEntry) : HttpResponse :=
  mkHttpResponse (en_Status entry) (en_Headers entry) (inr (en_Body entry)) (en_ContentLength entry).

(** The fields of the observation the middleware reads and writes. *)
Record CallObs := mkCallObs { ca_CacheStatus : string; ca_noCache : bool; ca_cacheKey : string }.

Definition setCacheStatus (s : string) (o : CallObs) : CallObs := mkCallObs s (ca_noCache o) (ca_cacheKey o).

(** What the layer does before the rest of the chain. *)
Inductive Looked :=
| Bypass
| Failed (err : GoErr)
| Hit (resp : HttpResponse)
| Miss (key : string).

Section Middleware.
Context {St : Type} `{Cache St} `{JsonCodec cacheEntry} (hashString : string -> string).

Definition varyText (p : cachePolicy) (req : Request) : string :=
  foldr (fun h acc => "|h:" +:+ hashString (headerGet (rq_Header req) h) +:+ acc)
    (foldr (fun q acc => "|q:" +:+ hashString (match rq_URL req with Some u => firstValue q (u_Query u) | None => "" end) +:+ acc) "" (cp_varyQueries p))
    (cp_varyHeaders p).

Definition buildCacheKey (service endpoint : string) (req : Request) (policy : cachePolicy) : string :=
  service +:+ "|" +:+ endpoint +:+ "|" +:+ ToUpper (rq_Method req) +:+ "|" +:+
  (match rq_URL req with Some u => u_Path u | None => "" end) +:+ "|" +:+ sortedQuery (rq_URL req) +:+ varyText policy req.

Definition callKey (service endpoint : string) (policy : cachePolicy) (obs : CallObs) (req : Request) : string :=
  if String.eqb (ca_cacheKey obs) "" then buildCacheKey service endpoint req policy else ca_cacheKey obs.

(** Up to the call of [next]. *)
Definition lookupStored (service endpoint : string) (policy : cachePolicy) (now : Z) (obs : CallObs) (req : Request) (store : option St)
  : Looked * (CallObs * option St) :=
  match store with
  | None => (Bypass, (setCacheStatus "bypass" obs, None))
  | Some s =>
      if negb (cp_enabled policy) || negb (isCacheableMethod (rq_Method req)) then (Bypass, (setCacheStatus "bypass" obs, Some s))
      else if ca_noCache obs then (Bypass, (setCacheStatus "bypass" obs, Some s))
      else
        let key := callKey service endpoint policy obs req in
        match cacheGet now key s with
        | (inl err, s) => (Failed err, (obs, Some s))
        | (inr None, s) => (Miss key, (setCacheStatus "miss" obs, Some s))
        | (inr (Some raw), s) =>
            match unmarshal raw with
            | Some entry => (Hit (materializeResponse entry), (setCacheStatus "hit" obs, Some s))
            | None => (Miss key, (setCacheStatus "miss" obs, Some s))
            end
        end
  end.

(** After a miss, with what [next] answered. *)
Definition storeAnswer (policy : cachePolicy) (cacheAcceptable : bool) (acceptable : gset Z) (now : Z) (key : string) (o : Outcome) (s : St) : Outcome * St :=
  match o with
  | (Some resp, None) =>
      if negb (shouldStore resp policy cacheAcceptable acceptable) then (o, s)
      else
        let ttl := effectiveTTL resp policy in
        if Z.leb ttl 0 then (o, s)
        else
          match rs_Body resp with
          | inl readErr => ((None, Some readErr), s)
          | inr body =>
              match marshal (entryOf now ttl resp body) with
              | None => ((None, Some (ELeaf "json")), s)
              | Some encoded =>
                  match cacheSet now key encoded ttl s with
                  | (Some setErr, s) => ((None, Some setErr), s)
                  | (None, s) => ((Some (mkHttpResponse (rs_StatusCode resp) (rs_Header resp) (inr body) (Z.of_nat (String.length body))), None), s)
                  end
              end
          end
  | _ => (o, s)
  end.

(** [next] and the clock act on the world [W]. *)
Definition cacheMiddleware {W} (service endpoint : string) (policy : cachePolicy) (cacheAcceptable : bool) (acceptable : gset Z)
  (clock : W -> Z) (next : Request -> W -> Outcome * W) (obs : CallObs) (req : Request) (store : option St) (w : W)
  : Outcome * (CallObs * option St * W) :=
  match lookupStored service endpoint policy (clock w) obs req store with
  | (Bypass, (obs, store)) => let '(o, w) := next req w in (o, (obs, store, w))
  | (Failed err, (obs, store)) => ((None, Some err), (obs, store, w))
  | (Hit resp, (obs, store)) => ((Some resp, None), (obs, store, w))
  | (Miss key, (obs, store)) =>
      let '(o, w) := next req w in
      match store with
      | None => (o, (obs, None, w))
      | Some s => let '(o, s) := storeAnswer policy cacheAcceptable acceptable (clock w) key o s in (o, (obs, Some s, w))
      end
  end.

End Middleware.

(** ** Where a call goes *)

(** The registered resolver answers a URL or an error; [quote] is [%q]. *)
Definition resolveBaseURL (quote : string -> string) (resolver : option (string -> GoErr + string)) (service yamlBaseURL perCallOverride : string) : GoErr + string :=
  if negb (String.eqb perCallOverride "") then inr perCallOverride
  else
    match resolver with
    | None =>
        if String.eqb yamlBaseURL ""
        then inl (ELeaf ("httpclient: service " +:+ quote service +:+ " has no baseURL (YAML empty, no resolver, no CallConfig.BaseURL override)"))
        else inr yamlBaseURL
    | Some Resolve =>
        match Resolve service with
        | inl err => inl (EWrap ("httpclient: resolve baseURL for service " +:+ quote service) err)
        | inr resolved =>
            if negb (String.eqb resolved "") then inr resolved
            else if String.eqb yamlBaseURL ""
            then inl (ELeaf ("httpclient: service " +:+ quote service +:+ " has no baseURL (resolver returned empty, YAML empty, no CallConfig.BaseURL override)"))
            else inr yamlBaseURL
        end
    end.

(** [strings.ReplaceAll] for a non-empty [old]: [skip] bytes of a match are left. *)
Fixpoint replaceFrom (old new : string) (skip : nat) (s : string) : string :=
  match s with
  | EmptyString => EmptyString
  | String c rest =>
      match skip with
      | S skip => replaceFrom old new skip rest
      | O => if String.prefix old s then new +:+ replaceFrom old new (String.length old - 1) rest else String c (replaceFrom old new O rest)
      end
  end.

Definition ReplaceAll (s old new : string) : string := replaceFrom old new O s.

(** The path of the endpoint with the values of the path fields, in order. *)
Definition bindPath (path : string) (values : list (string * string)) : string :=
  foldl (fun path p => ReplaceAll path ("{" +:+ p.1 +:+ "}") (PathEscape p.2)) path values.

(** The percent-decoding [url.Parse] applies to a path, [None] on a bad escape. *)
Definition hexValue (c : ascii) : option nat :=
  let n := nat_of_ascii c in
  if ((48 <=? n) && (n <=? 57))%nat then Some (n - 48)%nat
  else if ((65 <=? n) && (n <=? 70))%nat then Some (n - 55)%nat
  else if ((97 <=? n) && (n <=? 102))%nat then Some (n - 87)%nat
  else None.

Fixpoint pathUnescape (s : string) : option string :=
  match s with
  | EmptyString => Some EmptyString
  | String "%"%char (String a (String b rest)) =>
      x ← hexValue a; y ← hexValue b; t ← pathUnescape rest; Some (String (ascii_of_nat (16 * x + y)) t)
  | String "%"%char _ => None
  | String c rest => String c <$> pathUnescape rest
  end.
