(* ===== verification/HttpCacheClaims.v ===== *)
(** * What the response cache promises

    The key: what two requests with the same key have in common.  The entries: an answer
    served from the store is an upstream answer to a request with the same key, within its
    lifetime, whatever calls ran meanwhile. *)

From S2P Require Import Prelude Errors GoStrings Naming Engines HttpClient Cache CacheClaims HttpCache.
From stdpp Require Import base gmap strings list fin_maps.
From Stdlib Require Import Ascii ZArith Lia.

Open Scope string_scope.
Open Scope list_scope.

(** * The key of a cached response

    What two requests with the same key have in common. *)

(** ** Escapes *)

Definition unescapeByte (s : string) : option (ascii * string) :=
  match s with
  | String "%"%char (String a (String b rest)) => x ← hexValue a; y ← hexValue b; Some (ascii_of_nat (16 * x + y), rest)
  | String "+"%char rest => Some (" "%char, rest)
  | String c rest => Some (c, rest)
  | EmptyString => None
  end.

Lemma queryEscapeByte_read c t : unescapeByte (queryEscapeByte c +:+ t) = Some (c, t).
Proof. destruct c as [[] [] [] [] [] [] [] []]; reflexivity. Qed.

Lemma QueryEscape_inj s t : QueryEscape s = QueryEscape t -> s = t.
Proof.
  unfold QueryEscape. revert t. induction s as [|c s IH]; intros [|d t]; cbn [escapeBytes]; intros E; [done| | |].
  - pose proof (queryEscapeByte_read d (escapeBytes queryEscapeByte t)) as H. by rewrite <- E in H.
  - pose proof (queryEscapeByte_read c (escapeBytes queryEscapeByte s)) as H. by rewrite E in H.
  - pose proof (queryEscapeByte_read c (escapeBytes queryEscapeByte s)) as H. rewrite E, queryEscapeByte_read in H. injection H as <- H. f_equal. by apply IH.
Qed.

(** The separators of a key do not occur in an escape. *)
Definition separators : list ascii := ["&"; "="; "|"]%char.

Lemma QueryEscape_lacks b s : b ∈ separators -> lacks b (QueryEscape s).
Proof.
  intros Hb. assert (Hc : forall c, lacks b (queryEscapeByte c)).
  { intros c. unfold separators in Hb. apply list_elem_of_In in Hb. cbn in Hb. destruct Hb as [<-|[<-|[<-|[]]]]; destruct c as [[] [] [] [] [] [] [] []]; reflexivity. }
  unfold QueryEscape. induction s as [|c s IH]; [done|]. cbn [escapeBytes]. by apply lacks_app.
Qed.

(** ** Pairs *)

Definition pairText (p : string * string) : string := QueryEscape p.1 +:+ "=" +:+ QueryEscape p.2.

Lemma pairText_inj p q : pairText p = pairText q -> p = q.
Proof.
  unfold pairText. change ("=" +:+ ?x) with (String "=" x). intros [H1 H2]%lacks_first; [|apply QueryEscape_lacks; set_solver..].
  destruct p, q. cbn in *. by apply QueryEscape_inj in H1 as ->, H2 as ->.
Qed.

Lemma pairText_lacks b p : b ∈ ["&"; "|"]%char -> lacks b (pairText p).
Proof.
  intros Hb. unfold pairText. apply lacks_app; [|apply lacks_app]; [apply QueryEscape_lacks; set_solver| |apply QueryEscape_lacks; set_solver].
  apply list_elem_of_In in Hb. cbn in Hb. by destruct Hb as [<-|[<-|[]]].
Qed.

Lemma pairText_nonempty p : pairText p <> "".
Proof. unfold pairText. by destruct (QueryEscape p.1). Qed.

Lemma pairs_inj l1 l2 : joinStr "&" (pairText <$> l1) = joinStr "&" (pairText <$> l2) -> l1 = l2.
Proof.
  intros E. assert (Hl : forall l, Forall (lacks "&") (pairText <$> l)).
  { intros l. apply Forall_fmap, Forall_true. intros p. apply pairText_lacks. set_solver. }
  assert (Hs : forall p l, splitByte "&" (joinStr "&" (pairText <$> p :: l)) = pairText <$> p :: l) by (intros p l; by apply splitByte_join).
  destruct l1 as [|p l1], l2 as [|q l2]; [done| | |].
  - pose proof (Hs q l2) as H. rewrite <- E in H. cbn in H. injection H as H _. by destruct (pairText_nonempty q).
  - pose proof (Hs p l1) as H. rewrite E in H. cbn in H. injection H as H _. by destruct (pairText_nonempty p).
  - apply (f_equal (splitByte "&")) in E. rewrite !Hs in E. assert (Hi : Inj eq eq pairText) by exact pairText_inj. by apply (inj (fmap pairText)) in E.
Qed.

(** ** The values of a query *)

Definition valuesOf (q : gmap string (list string)) (k : string) : list string := default [] (q !! k).

(** [url.ParseQuery] gives no key an empty list. *)
Definition parsed (q : gmap string (list string)) : Prop := map_Forall (fun _ vs => vs <> []) q.

Definition keyValues (k : string) (ps : list (string * string)) : list string := (filter (fun p => p.1 = k) ps).*2.

Lemma keyValues_pairs k keys (f : string -> list string) :
  NoDup keys -> keyValues k (x ← keys; (fun v => (x, v)) <$> f x) = if bool_decide (k ∈ keys) then f k else [].
Proof.
  assert (Hsame : forall l, keyValues k ((fun v => (k, v)) <$> l) = l).
  { intros l. unfold keyValues. induction l as [|v l IH]; [done|]. rewrite fmap_cons, filter_cons_True by done. rewrite fmap_cons, IH. done. }
  assert (Hother : forall x l, x <> k -> keyValues k ((fun v => (x, v)) <$> l) = []).
  { intros x l Hx. unfold keyValues. induction l as [|v l IH]; [done|]. rewrite fmap_cons, filter_cons_False by done. exact IH. }
  induction keys as [|x keys IH]; intros Hnd; [done|]. apply NoDup_cons in Hnd as [Hx Hnd]. cbn [mbind list_bind].
  unfold keyValues in *. rewrite filter_app, fmap_app, (IH Hnd). destruct (decide (x = k)) as [->|Hne].
  - rewrite Hsame. rewrite (bool_decide_eq_false_2 (k ∈ keys)), app_nil_r by done. by rewrite bool_decide_eq_true_2 by (by left).
  - rewrite Hother by done. cbn. apply (f_equal (fun b : bool => if b then f k else [])), bool_decide_ext. set_solver.
Qed.

Lemma queryKeys_NoDup (q : gmap string (list string)) : NoDup (sortStrings (map_to_list q).*1).
Proof. rewrite sortStrings_perm. apply NoDup_fst_map_to_list. Qed.

Lemma queryKeys_elem (q : gmap string (list string)) k : k ∈ (map_to_list q).*1 <-> is_Some (q !! k).
Proof.
  rewrite list_elem_of_fmap. split.
  - intros ([k' vs]&->&H%elem_of_map_to_list). by exists vs.
  - intros [vs H]. exists (k, vs). split; [done|]. by apply elem_of_map_to_list.
Qed.

Lemma keyValues_sorted q k : keyValues k (sortedPairs q) = sortStrings (valuesOf q k).
Proof.
  unfold sortedPairs. rewrite (keyValues_pairs k _ (fun x => sortStrings (valuesOf q x))) by apply queryKeys_NoDup.
  case_bool_decide as Hk; [done|]. rewrite sortStrings_perm, queryKeys_elem in Hk. unfold valuesOf. destruct (q !! k); [|done]. by destruct Hk.
Qed.

Lemma sortedPairs_eq q1 q2 : parsed q1 -> parsed q2 -> sortedPairs q1 = sortedPairs q2 <-> forall k, valuesOf q1 k ≡ₚ valuesOf q2 k.
Proof.
  intros Hp1 Hp2. split.
  - intros E k. apply sortStrings_eq. by rewrite <- !keyValues_sorted, E.
  - intros Hv. assert (Hdom : forall k, is_Some (q1 !! k) <-> is_Some (q2 !! k)).
    { intros k. specialize (Hv k). unfold valuesOf in Hv. destruct (q1 !! k) as [v1|] eqn:E1, (q2 !! k) as [v2|] eqn:E2; cbn in Hv; [done| | |done].
      - apply Permutation_nil_r in Hv. by destruct (Hp1 k v1 E1).
      - apply Permutation_nil_l in Hv. by destruct (Hp2 k v2 E2). }
    unfold sortedPairs. assert (Hk : sortStrings (map_to_list q1).*1 = sortStrings (map_to_list q2).*1).
    { apply sortStrings_eq, NoDup_Permutation; [apply NoDup_fst_map_to_list..|]. intros k. by rewrite !queryKeys_elem. }
    rewrite Hk. apply list_bind_ext; [|done]. intros k. f_equal. apply sortStrings_eq, Hv.
Qed.

Lemma sortedQuery_text u : sortedQuery (Some u) = joinStr "&" (pairText <$> sortedPairs (u_Query u)).
Proof. done. Qed.

Lemma joinStr_lacks b sep l : lacks b sep -> Forall (lacks b) l -> lacks b (joinStr sep l).
Proof.
  intros Hs Hl. induction Hl as [|t l Ht Hl IH]; [done|]. cbn [joinStr]. destruct l; [done|]. apply lacks_app; [done|]. by apply lacks_app.
Qed.

Lemma sortedQuery_lacks u : lacks "|" (sortedQuery u).
Proof.
  destruct u as [u|]; [|done]. rewrite sortedQuery_text. apply joinStr_lacks; [done|]. apply Forall_fmap, Forall_true. intros p. apply pairText_lacks. set_solver.
Qed.

(** ** The varied values *)

Section Vary.
Context (hashString : string -> string).

(** The hexadecimal SHA-256 has 64 digits. *)
Context (hash_length : forall s, String.length (hashString s) = 64%nat).

Definition queryValue (req : Request) (q : string) : string := match rq_URL req with Some u => firstValue q (u_Query u) | None => "" end.

Definition segments (tag : string) (values : list string) (tail : string) : string := foldr (fun v acc => tag +:+ hashString v +:+ acc) tail values.

Lemma varyText_segments p req :
  varyText hashString p req = segments "|h:" (headerGet (rq_Header req) <$> cp_varyHeaders p) (segments "|q:" (queryValue req <$> cp_varyQueries p) "").
Proof. unfold varyText, segments. by rewrite !foldr_fmap. Qed.

Lemma segments_cons tag v vs t : segments tag (v :: vs) t = tag +:+ hashString v +:+ segments tag vs t.
Proof. done. Qed.

Lemma segments_length tag vs ws t u :
  length vs = length ws -> String.length t = String.length u -> String.length (segments tag vs t) = String.length (segments tag ws u).
Proof using hash_length.
  revert ws. induction vs as [|v vs IH]; intros [|w ws] Hl Ht; try done. rewrite !segments_cons, !string_app_length, !hash_length. injection Hl as Hl. by rewrite (IH ws Hl Ht).
Qed.

Lemma segments_eq tag vs ws t u : length vs = length ws ->
  segments tag vs t = segments tag ws u <-> hashString <$> vs = hashString <$> ws /\ t = u.
Proof using hash_length.
  revert ws. induction vs as [|v vs IH]; intros [|w ws] Hl; try done; [cbn; naive_solver|].
  - rewrite !segments_cons, !fmap_cons. injection Hl as Hl. split.
    + intros [_ E]%app_code; [|done]. apply app_code in E as [Hh E]; [|by rewrite !hash_length]. apply (IH ws Hl) in E as [E ->]. by rewrite Hh, E.
    + intros [[= Hh E] ->]. rewrite Hh. do 2 f_equal. by apply (IH ws Hl).
Qed.

(** The same hash of each varied header and query value. *)
Definition sameVary (p : cachePolicy) (r1 r2 : Request) : Prop :=
  (fun h => hashString (headerGet (rq_Header r1) h)) <$> cp_varyHeaders p = (fun h => hashString (headerGet (rq_Header r2) h)) <$> cp_varyHeaders p /\
  (fun q => hashString (queryValue r1 q)) <$> cp_varyQueries p = (fun q => hashString (queryValue r2 q)) <$> cp_varyQueries p.

Lemma varyText_length p r1 r2 : String.length (varyText hashString p r1) = String.length (varyText hashString p r2).
Proof using hash_length. rewrite !varyText_segments. apply segments_length; [by rewrite !length_fmap|]. apply segments_length; [by rewrite !length_fmap|done]. Qed.

Lemma varyText_eq p r1 r2 : varyText hashString p r1 = varyText hashString p r2 <-> sameVary p r1 r2.
Proof using hash_length.
  rewrite !varyText_segments, !segments_eq by (by rewrite !length_fmap). unfold sameVary. rewrite <- !list_fmap_compose. unfold compose. naive_solver.
Qed.

End Vary.

Open Scope Z_scope.

(** * What the cache answers

    Two requests share an entry exactly when they agree on what the key holds, and an
    answer served from the store is an upstream answer to a request with the same key,
    within its lifetime, whatever calls ran meanwhile. *)

Lemma cacheable_upper m : isCacheableMethod m = true -> lacks "|" (ToUpper m).
Proof. unfold isCacheableMethod. intros [->%String.eqb_eq| ->%String.eqb_eq]%orb_true_iff; done. Qed.

(** C33: two calls of a cacheable method that give no key of their own
    ([CallConfig.CacheKey]) and whose service and endpoint names do not hold the separator
    "|" have the same key exactly when service, endpoint, method, decoded path, the values
    of each query parameter in any order and the hash of each varied header and query
    parameter are the same.  With a key of its own a call has that key whatever it
    requests; with the separator in a name keys collide ([separator_in_a_name_collides]). *)
Theorem cache_key_identifies_the_request hashString (policy : string -> string -> cachePolicy) s1 e1 s2 e2 o1 o2 r1 r2 u1 u2 :
  (forall s, String.length (hashString s) = 64%nat) ->
  ca_cacheKey o1 = "" -> ca_cacheKey o2 = "" ->
  lacks "|" s1 -> lacks "|" e1 -> lacks "|" s2 -> lacks "|" e2 ->
  isCacheableMethod (rq_Method r1) = true -> isCacheableMethod (rq_Method r2) = true ->
  rq_URL r1 = Some u1 -> rq_URL r2 = Some u2 -> parsed (u_Query u1) -> parsed (u_Query u2) ->
  callKey hashString s1 e1 (policy s1 e1) o1 r1 = callKey hashString s2 e2 (policy s2 e2) o2 r2 <->
  s1 = s2 /\ e1 = e2 /\ ToUpper (rq_Method r1) = ToUpper (rq_Method r2) /\ u_Path u1 = u_Path u2 /\
  (forall k, valuesOf (u_Query u1) k ≡ₚ valuesOf (u_Query u2) k) /\ sameVary hashString (policy s1 e1) r1 r2.
Proof.
  intros Hhash Ho1 Ho2. unfold callKey. rewrite Ho1, Ho2. cbn [String.eqb]. revert Hhash.
  intros Hhash Hs1 He1 Hs2 He2 Hm1 Hm2 Hu1 Hu2 Hp1 Hp2. unfold buildCacheKey. rewrite Hu1, Hu2.
  pose proof (sortedQuery_lacks (Some u1)) as Hq1. pose proof (sortedQuery_lacks (Some u2)) as Hq2.
  rewrite <- (sortedPairs_eq _ _ Hp1 Hp2), <- (varyText_eq _ Hhash). split.
  - change ("|" +:+ ?x) with (String "|" x). intros [<- [<- [Hm E]%lacks_first]%lacks_first]%lacks_first; try done; try by apply cacheable_upper.
    rewrite <- !string_app_assoc in E. apply app_length_r in E as [E Hv]; [|by apply varyText_length]. rewrite !string_app_assoc in E.
    apply lacks_last in E as [Hpath E]; [|done..]. rewrite !sortedQuery_text in E. apply pairs_inj in E. done.
  - intros (<-&<-&->&->&Hq&->). unfold sortedQuery. by rewrite Hq.
Qed.

(** ** Calls in flight *)

(** What the middleware of an endpoint is built with. *)
Record CachedEndpoint := mkCachedEndpoint {
  ce_service : string;
  ce_endpoint : string;
  ce_policy : cachePolicy;
  ce_cacheAcceptable : bool;
  ce_acceptable : gset Z
}.

(** A call looks into the store; a call that missed has its answer from upstream; another
    client of the same store acts. *)
Inductive cacheEvent :=
| Looks (now : Z) (ep : CachedEndpoint) (obs : CallObs) (req : Request)
| Answers (now : Z) (ep : CachedEndpoint) (obs : CallObs) (req : Request) (o : Outcome)
| Other (o : timedOp).

Definition isAscii (s : string) : bool := allRunes (fun c => (nat_of_ascii c <? 128)%nat) s.

Definition asciiHeaders (h : Header) : Prop := map_Forall (fun k vs => isAscii k = true /\ Forall (fun v => isAscii v = true) vs) h.

Section Served.
Context {St : Type} `{CacheLaws St} `{JsonCodec cacheEntry} (hashString : string -> string).

(** Text that is ASCII is read back from its JSON form. *)
Context (json_reads_back : forall e raw, asciiHeaders (en_Headers e) -> isAscii (en_ContentType e) = true -> marshal e = Some raw -> unmarshal raw = Some e).

Definition keyOf (ep : CachedEndpoint) (obs : CallObs) (req : Request) : string := callKey hashString (ce_service ep) (ce_endpoint ep) (ce_policy ep) obs req.

Definition look (now : Z) (ep : CachedEndpoint) (obs : CallObs) (req : Request) (s : St) : Looked * (CallObs * option St) :=
  lookupStored hashString (ce_service ep) (ce_endpoint ep) (ce_policy ep) now obs req (Some s).

Definition eventStep (s : St) (ev : cacheEvent) : St :=
  match ev with
  | Looks now ep obs req => default s (look now ep obs req s).2.2
  | Answers now ep obs req o => (storeAnswer (ce_policy ep) (ce_cacheAcceptable ep) (ce_acceptable ep) now (keyOf ep obs req) o s).2
  | Other (now, OpGet k) => (cacheGet now k s).2
  | Other (now, OpSet k v ttl) => (cacheSet now k v ttl s).2
  | Other (now, OpDelete k) => (cacheDelete k s).2
  end.

Definition runEvents (s : St) (h : list cacheEvent) : St := foldl eventStep s h.

(** [v] is the stored form of an upstream answer of [h] under [k], good until [exp]. *)
Definition stored (h : list cacheEvent) (k v : string) (exp : option Z) : Prop :=
  exists now ep obs req resp body,
    Answers now ep obs req (Some resp, None) ∈ h /\ keyOf ep obs req = k /\
    shouldStore resp (ce_policy ep) (ce_cacheAcceptable ep) (ce_acceptable ep) = true /\ rs_Body resp = inr body /\
    0 < effectiveTTL resp (ce_policy ep) /\
    marshal (entryOf now (effectiveTTL resp (ce_policy ep)) resp body) = Some v /\ exp = Some (now + effectiveTTL resp (ce_policy ep)).

Definition setByOther (h : list cacheEvent) (k : string) : Prop := exists now v ttl, Other (now, OpSet k v ttl) ∈ h.

Definition accounted (h : list cacheEvent) (s : St) : Prop :=
  cacheOk s /\ forall k v exp, mayAnswer s k v exp -> stored h k v exp \/ setByOther h k.

Lemma stored_snoc h ev k v exp : stored h k v exp -> stored (h ++ [ev]) k v exp.
Proof. intros (now&ep&obs&req&resp&body&Hin&Hrest). exists now, ep, obs, req, resp, body. split; [|done]. apply elem_of_app. by left. Qed.

Lemma setByOther_snoc h ev k : setByOther h k -> setByOther (h ++ [ev]) k.
Proof. intros (now&v&ttl&Hin). exists now, v, ttl. apply elem_of_app. by left. Qed.

#[local] Hint Resolve stored_snoc setByOther_snoc : core.

Lemma accounted_less h ev s s' : accounted h s -> cacheOk s' -> (forall k v exp, mayAnswer s' k v exp -> mayAnswer s k v exp) -> accounted (h ++ [ev]) s'.
Proof. intros [_ Hm] Hok Hsub. split; [done|]. intros k v exp Ha%Hsub%Hm. naive_solver. Qed.

Lemma accounted_get h ev now k s : accounted h s -> accounted (h ++ [ev]) (cacheGet now k s).2.
Proof.
  intros Ha. destruct (cacheGet now k s) as [r s'] eqn:Hg. destruct (get_answers _ _ _ _ _ (proj1 Ha) Hg) as (Hok&Hsub&_). by eapply accounted_less.
Qed.

Lemma accounted_look h now ep obs req s : accounted h s -> accounted (h ++ [Looks now ep obs req]) (default s (look now ep obs req s).2.2).
Proof.
  intros Ha. unfold look, lookupStored. destruct (_ || _); [by eapply accounted_less; [|apply Ha|]|]. destruct (ca_noCache obs); [by eapply accounted_less; [|apply Ha|]|].
  pose proof (accounted_get h (Looks now ep obs req) now (keyOf ep obs req) s Ha) as Hg. unfold keyOf in Hg.
  destruct (cacheGet now _ s) as [[err|[raw|]] s']; cbn in *; try done. by destruct (unmarshal raw).
Qed.

Lemma accounted_answer h now ep obs req o s : accounted h s -> accounted (h ++ [Answers now ep obs req o]) (eventStep s (Answers now ep obs req o)).
Proof.
  intros Ha. cbn. unfold storeAnswer. assert (Hid : accounted (h ++ [Answers now ep obs req o]) s) by (by eapply accounted_less; [|apply Ha|]).
  destruct o as [[resp|] [err|]]; [done| |done|done]. destruct (shouldStore _ _ _ _) eqn:Hs; [|done]. cbn. destruct (Z.leb_spec (effectiveTTL resp (ce_policy ep)) 0); [done|].
  destruct (rs_Body resp) as [err|body] eqn:Hb; [done|]. destruct (marshal _) as [raw|] eqn:Hraw; [|done].
  destruct (cacheSet now (keyOf ep obs req) raw _ s) as [[err|] s'] eqn:Hset; cbn.
  - destruct (set_fails _ _ _ _ _ _ _ (proj1 Ha) Hset) as [Hok Hsub]. by eapply accounted_less.
  - destruct (set_replaces _ _ _ _ _ _ (proj1 Ha) Hset) as (Hok&_&Hnew). split; [done|]. intros k v exp [(->&->&->)|[_ Hm]]%Hnew; [left|apply (proj2 Ha) in Hm; naive_solver].
    exists now, ep, obs, req, resp, body. rewrite elem_of_app, list_elem_of_singleton. repeat split; try done; [by right|].
    unfold expiresAt. by destruct (Z.ltb_spec 0 (effectiveTTL resp (ce_policy ep))); [|lia].
Qed.

Lemma accounted_step h ev s : accounted h s -> accounted (h ++ [ev]) (eventStep s ev).
Proof.
  intros Ha. destruct ev as [now ep obs req|now ep obs req o|[now [k|k v ttl|k]]]; [by apply accounted_look|by apply accounted_answer|by apply accounted_get| |]; cbn.
  - destruct (cacheSet now k v ttl s) as [[err|] s'] eqn:Hset; cbn.
    + destruct (set_fails _ _ _ _ _ _ _ (proj1 Ha) Hset) as [Hok Hsub]. by eapply accounted_less.
    + destruct (set_replaces _ _ _ _ _ _ (proj1 Ha) Hset) as (Hok&_&Hnew). split; [done|]. intros k' v' exp [(->&->&->)|[_ Hm]]%Hnew; [right|apply (proj2 Ha) in Hm; naive_solver].
      exists now, v, ttl. apply elem_of_app. right. by left.
  - destruct (cacheDelete k s) as [r s'] eqn:Hd. destruct (delete_forgets _ _ _ _ (proj1 Ha) Hd) as [Hok Hsub]. eapply accounted_less; [done|done|]. intros k' v exp Hm. by apply Hsub.
Qed.

Lemma accounted_run s0 h : cacheOk s0 -> (forall k v exp, ~ mayAnswer s0 k v exp) -> accounted h (runEvents s0 h).
Proof.
  intros Hok Hempty. induction h as [|ev h IH] using rev_ind; [split; [done|]; intros k v exp Hm; by apply Hempty in Hm|].
  unfold runEvents in *. rewrite foldl_app. by apply accounted_step.
Qed.

Lemma asciiHeaders_value h name : asciiHeaders h -> isAscii (headerGet h name) = true.
Proof.
  intros Hh. unfold headerGet, firstValue. destruct (h !! _) as [[|v vs]|] eqn:Hl; try done. cbn. destruct (Hh _ _ Hl) as [_ Hv]. by apply Forall_cons in Hv as [? _].
Qed.

(** C32: from a store that holds nothing, and with upstream answers whose headers are ASCII
    (an entry is kept as JSON, which rewrites bytes that are not UTF-8), after any interleaving of lookups,
    upstream answers and uses of the same store by others, a hit serves the status, headers
    and body of an upstream answer to a call with the same key, one that was to be stored,
    no later than its lifetime; unless something else wrote that key. *)
Theorem hits_are_fresh_upstream_answers s0 h now ep obs req r obs' s' :
  cacheOk s0 -> (forall k v exp, ~ mayAnswer s0 k v exp) ->
  (forall now ep obs req resp, Answers now ep obs req (Some resp, None) ∈ h -> asciiHeaders (rs_Header resp)) ->
  ~ setByOther h (keyOf ep obs req) ->
  look now ep obs req (runEvents s0 h) = (Hit r, (obs', s')) ->
  exists t ep' obs'' req' resp body,
    Answers t ep' obs'' req' (Some resp, None) ∈ h /\ keyOf ep' obs'' req' = keyOf ep obs req /\
    shouldStore resp (ce_policy ep') (ce_cacheAcceptable ep') (ce_acceptable ep') = true /\
    t < t + effectiveTTL resp (ce_policy ep') /\ now <= t + effectiveTTL resp (ce_policy ep') /\
    rs_Body resp = inr body /\ r = mkHttpResponse (rs_StatusCode resp) (rs_Header resp) (inr body) (Z.of_nat (String.length body)).
Proof using json_reads_back.
  intros Hok Hempty Hascii Hother Hl. pose proof (accounted_run s0 h Hok Hempty) as [Hok' Hacc]. unfold look, lookupStored in Hl.
  destruct (_ || _); [done|]. destruct (ca_noCache obs); [done|]. fold (keyOf ep obs req) in Hl.
  destruct (cacheGet now (keyOf ep obs req) (runEvents s0 h)) as [[err|[raw|]] s1] eqn:Hg; try done. destruct (unmarshal raw) as [e|] eqn:He; [|done]. injection Hl as <- _ _.
  destruct (get_answers _ _ _ _ _ Hok' Hg) as (_&_&Hv). destruct (Hv raw eq_refl) as (exp&Hm&Hfresh).
  destruct (Hacc _ _ _ Hm) as [(t&ep'&obs''&req'&resp&body&Hin&Hk&Hs&Hb&Httl&Hraw&->)|?]; [|done]. cbn in Hfresh.
  rewrite (json_reads_back (entryOf t (effectiveTTL resp (ce_policy ep')) resp body) raw (Hascii _ _ _ _ _ Hin) (asciiHeaders_value _ _ (Hascii _ _ _ _ _ Hin)) Hraw) in He. injection He as <-.
  exists t, ep', obs'', req', resp, body. repeat split; try done. lia.
Qed.

End Served.

(** ** A shop's cached endpoint *)

Module ShopCache.

Definition policy : cachePolicy := resolveCachePolicy None (Some (mkEndpointCache 0 ["header:X-Tenant"])).
Definition endpoint : CachedEndpoint := mkCachedEndpoint "stock" "find" policy false ∅.
Definition obs : CallObs := mkCallObs "bypass" false "".

(** Two orders of the same parameters, and the host is a tenant's. *)
Definition request (host : string) (tags : list string) : Request :=
  mkRequest "GET" (Some (mkURL host "/items/7" {[ "tag" := tags ]})) ∅.

Definition answer : HttpResponse := mkHttpResponse 200 {[ "Cache-Control" := ["max-age=60"] ]} (inr "[7]") (-1).

Definition entry : cacheEntry := entryOf 5 (60 * Second) answer "[7]".

#[global] Instance cacheEntry_eq : EqDecision cacheEntry.
Proof. solve_decision. Defined.

(** A codec that knows this entry, and a hash of 64 digits. *)
#[global] Instance codec : JsonCodec cacheEntry := {
  marshal e := if decide (e = entry) then Some "{}" else None;
  unmarshal raw := if String.eqb raw "{}" then Some entry else None
}.

Definition hash (s : string) : string := "0123456789abcdef0123456789abcdef0123456789abcdef0123456789abcdef".

Lemma codec_reads_back e raw : asciiHeaders (en_Headers e) -> isAscii (en_ContentType e) = true -> marshal e = Some raw -> unmarshal raw = Some e.
Proof. intros _ _. cbn. destruct (decide (e = entry)) as [->|]; [|done]. by intros [= <-]. Qed.

Definition history : list cacheEvent :=
  [Looks 1 endpoint obs (request "a" ["x"; "y"]); Answers 5 endpoint obs (request "a" ["x"; "y"]) (Some answer, None); Other (6, OpDelete "other")].

Definition served : Looked := (look hash 9 endpoint obs (request "a" ["y"; "x"]) (runEvents hash (NewMemory 10) history)).1.

Lemma served_hit : served = Hit (mkHttpResponse 200 {[ "Cache-Control" := ["max-age=60"] ]} (inr "[7]") 3).
Proof. vm_compute. reflexivity. Qed.

Lemma new_store_is_empty : forall k v exp, ~ mayAnswer (NewMemory 10) k v exp.
Proof. intros k v exp Hm. by apply not_elem_of_nil in Hm. Qed.

Lemma history_ascii : forall now ep obs req resp, Answers now ep obs req (Some resp, None) ∈ history -> asciiHeaders (rs_Header resp).
Proof.
  intros now ep o req resp Hin. unfold history in Hin. rewrite !elem_of_cons in Hin. destruct Hin as [?|[[= _ _ _ _ ->]|[?|?%not_elem_of_nil]]]; try done.
  apply map_Forall_singleton. split; [done|]. by repeat constructor.
Qed.

Lemma history_foreign k : ~ setByOther history k.
Proof. intros (now&v&ttl&Hin). unfold history in Hin. rewrite !elem_of_cons in Hin. destruct Hin as [?|[?|[?|?%not_elem_of_nil]]]; done. Qed.

Lemma hits_are_fresh_upstream_answers_witness :
  exists t ep' obs'' req' resp body,
    Answers t ep' obs'' req' (Some resp, None) ∈ history /\ keyOf hash ep' obs'' req' = keyOf hash endpoint obs (request "a" ["y"; "x"]) /\
    shouldStore resp (ce_policy ep') (ce_cacheAcceptable ep') (ce_acceptable ep') = true /\
    t < t + effectiveTTL resp (ce_policy ep') /\ 9 <= t + effectiveTTL resp (ce_policy ep') /\
    rs_Body resp = inr body /\
    mkHttpResponse 200 {[ "Cache-Control" := ["max-age=60"] ]} (inr "[7]") 3 = mkHttpResponse (rs_StatusCode resp) (rs_Header resp) (inr body) (Z.of_nat (String.length body)).
Proof.
  refine (hits_are_fresh_upstream_answers hash codec_reads_back (NewMemory 10) history 9 endpoint obs (request "a" ["y"; "x"])
    (mkHttpResponse 200 {[ "Cache-Control" := ["max-age=60"] ]} (inr "[7]") 3)
    (look hash 9 endpoint obs (request "a" ["y"; "x"]) (runEvents hash (NewMemory 10) history)).2.1
    (look hash 9 endpoint obs (request "a" ["y"; "x"]) (runEvents hash (NewMemory 10) history)).2.2
    (consistent_NewMemory 10) new_store_is_empty history_ascii (history_foreign _) _).
  vm_compute. reflexivity.
Defined.

(** The same parameters in another order, for the same values of the varied header. *)
Lemma cache_key_identifies_the_request_witness :
  callKey hash "stock" "find" policy obs (request "a" ["x"; "y"]) = callKey hash "stock" "find" policy obs (request "a" ["y"; "x"]).
Proof.
  apply (cache_key_identifies_the_request hash (fun _ _ => policy) "stock" "find" "stock" "find" obs obs (request "a" ["x"; "y"]) (request "a" ["y"; "x"])
    (mkURL "a" "/items/7" {[ "tag" := ["x"; "y"] ]}) (mkURL "a" "/items/7" {[ "tag" := ["y"; "x"] ]})); try reflexivity.
  - by apply map_Forall_singleton.
  - by apply map_Forall_singleton.
  - repeat split. intros k. unfold valuesOf. cbn. destruct (decide (k = "tag")) as [->|Hk]; [rewrite !lookup_singleton_eq; apply Permutation_swap|by rewrite !lookup_singleton_ne].
Defined.

(** ** Names with the separator *)

(** Nothing keeps the separator out of the configured names: service "a|b" with endpoint
    "c" and service "a" with endpoint "b|c" have one key for the same request. *)
Theorem separator_in_a_name_collides h m u hd p :
  buildCacheKey h "a|b" "c" (mkRequest m u hd) p = buildCacheKey h "a" "b|c" (mkRequest m u hd) p.
Proof. reflexivity. Qed.

(** ** What the key leaves out *)

(** The host of the URL is not in the key, so calls that a resolver or an override sends
    to different base URLs share an entry: here tenant "b" is answered with what tenant
    "a"'s server said. *)
Theorem base_urls_share_an_entry :
  (forall h sv ep m host1 host2 path q hd p,
     buildCacheKey h sv ep (mkRequest m (Some (mkURL host1 path q)) hd) p = buildCacheKey h sv ep (mkRequest m (Some (mkURL host2 path q)) hd) p) /\
  resolveBaseURL id (Some (fun _ => inr "https://b")) "stock" "https://a" "" = inr "https://b" /\
  (look hash 9 endpoint obs (request "b" ["x"; "y"]) (runEvents hash (NewMemory 10) history)).1 =
    Hit (mkHttpResponse 200 {[ "Cache-Control" := ["max-age=60"] ]} (inr "[7]") 3).
Proof. split; [done|]. split; [done|]. vm_compute. reflexivity. Qed.

(** The path in the key is the decoded one: two bindings of a path with two parameters,
    sent as two paths, have the same key. *)
Theorem escaped_paths_share_an_entry :
  let bound v w := bindPath "/shelves/{shelf}/items/{item}" [("shelf", v); ("item", w)] in
  let left := bound "1/items/2" "3" in
  let right := bound "1" "2/items/3" in
  left <> right /\ pathUnescape left = Some "/shelves/1/items/2/items/3" /\ pathUnescape right = pathUnescape left.
Proof. split; [discriminate|]. split; reflexivity. Qed.

(** An answer with [no-store] goes through, nothing is kept, and the call is reported as a miss. *)
Theorem no_store_is_a_miss :
  let refused := mkHttpResponse 200 {[ "Cache-Control" := ["no-store"] ]} (inr "[7]") (-1) in
  let '(o, (ob, store, _)) :=
    cacheMiddleware hash "stock" "find" policy false ∅ (fun w : Z => w) (fun _ w => ((Some refused, None), w + 1)) obs (request "a" []) (Some (NewMemory 10)) 1 in
  o = (Some refused, None) /\ ca_CacheStatus ob = "miss" /\ store = Some (NewMemory 10).
Proof. vm_compute. repeat split. Qed.

End ShopCache.
