(* ===== verification/DirectWrite.v ===== *)
(** * Direct writes

    [infra/db/command/write/direct_write.go]: INSERT, UPDATE, DELETE, the archive
    transitions and the upsert over one table with no aggregate behind it, on the
    builders of [WriteSql.v] and the backend of [Persister.v].

    A Go map is given by the order a [range] takes over it.  The writer is bound to its
    own transaction or, with [InTx], to the caller's. *)

From S2P Require Import Prelude Naming Notification Errors BaseEntity Aggregate Entity Criteria CriteriaSql Dialects Queries WriteSchema WriteSql Persister Handlers PersisterVerbs.
From stdpp Require Import base gmap strings list fin_maps.
From Stdlib Require Import Ascii ZArith Lia.

Open Scope string_scope.
Open Scope list_scope.
Open Scope go_scope.

(** ** Values *)

Inductive writeScope := scopeBoth | scopeInsert | scopeUpdate.

#[export] Instance writeScope_eq_dec : EqDecision writeScope.
Proof. solve_decision. Defined.

(** A slot of [Values]: a value to bind, a stamp marker, a scoped slot. *)
Inductive DirectValue :=
| DBind (v : Value)
| DStamp (op : StampOp)
| DScoped (scope : writeScope) (v : DirectValue).

Definition StampMarker : DirectValue := DStamp StampFill.
Definition StampNullMarker : DirectValue := DStamp StampToNull.
Definition StampEmptyMarker : DirectValue := DStamp StampToEmpty.
Definition OnInsert (v : DirectValue) : DirectValue := DScoped scopeInsert v.
Definition OnUpdate (v : DirectValue) : DirectValue := DScoped scopeUpdate v.

Abbreviation DirectValues := (list (string * DirectValue)).

Definition unwrapScoped (table goField : string) (val : DirectValue) : Outcome GoErr (writeScope * DirectValue) :=
  match val with
  | DScoped _ (DScoped _ _) => Fail (ELeaf ("db: nested scopes: " +:+ goField +:+ " on " +:+ table))
  | DScoped scope v => Ret (scope, v)
  | _ => Ret (scopeBoth, val)
  end.

Inductive archivePolicy := archiveKeep | archiveUnarchive.

Record upsertConfig := mkUpsertConfig { uc_conflictGo : list string; uc_archive : archivePolicy; uc_archiveGiven : bool }.

Definition noUpsertConfig : upsertConfig := mkUpsertConfig [] archiveKeep false.

Definition UpsertOption := upsertConfig -> upsertConfig.

Definition OnConflict (goFields : list string) : UpsertOption := fun c => mkUpsertConfig goFields (uc_archive c) (uc_archiveGiven c).
Definition UnarchiveOnConflict : UpsertOption := fun c => mkUpsertConfig (uc_conflictGo c) archiveUnarchive true.
Definition KeepArchiveStateOnConflict : UpsertOption := fun c => mkUpsertConfig (uc_conflictGo c) archiveKeep true.

(** The slots a Direct write may not bind. *)
Definition managedByVerb : list string := [idGoField; "CreatedAt"; "UpdatedAt"; "ArchivedAt"].

Definition isManaged (goField : string) : bool := bool_decide (goField ∈ managedByVerb).

Section Resolve.
Context {X : Type} (s : Part X).

Definition IsStampedField (goField : string) : bool :=
  existsb (fun f => String.eqb (fd_goName f) goField && bool_decide (is_Some (fd_stamped f))) (pt_fields s).

Definition refused (goField why : string) : GoErr := ELeaf ("db: " +:+ goField +:+ " on " +:+ Table s +:+ ": " +:+ why).

(** The loop of [resolveValues]: the bound columns and the stamps asked for. *)
Fixpoint resolveSlots (v : DirectValues) (out : Fields) (asked : list StampRequest) : Outcome GoErr (Fields * list StampRequest) :=
  match v with
  | [] => Ret (out, asked)
  | (goField, val) :: rest =>
      if isManaged goField then Fail (refused goField "cannot be written directly")
      else
        match val with
        | DScoped _ _ => Fail (refused goField "scoped outside an upsert")
        | DStamp op => resolveSlots rest out (asked ++ [mkStamp goField op])
        | DBind x =>
            match Resolve (pt_ts s) goField with
            | None => Fail (refused goField "unknown field")
            | Some rf =>
                if IsStampedField goField then Fail (refused goField "stamped field")
                else resolveSlots rest (<[rf_Column rf := x]> out) asked
            end
        end
  end.

Definition resolveValues (v : DirectValues) : Outcome GoErr (Fields * stampPlan) :=
  match v with
  | [] => Fail (ELeaf "db: a Direct write needs at least one value")
  | _ =>
      let* r := resolveSlots v ∅ [] in
      let* claimed := StampRequestColumns s r.2 in
      Ret (r.1, splitStamps claimed (planOf []))
  end.

(** [plan.nowCols = append(cols, plan.nowCols...)] *)
Definition withNowCols (cols : list string) (p : stampPlan) : stampPlan :=
  mkPlan (cols ++ sp_nowCols p) (sp_counters p) (sp_nullCols p) (sp_zeroTimes p) (sp_zeroCounters p) (sp_requestedTimes p) (sp_payload p).

(** ** Predicates *)

(** [criteria.Query]: the condition and the archived scope. *)
Record CriteriaQuery := mkCriteriaQuery { q_Condition : option Expr; q_Scope : Scope }.

Definition gated (pred : Expr) (scope : Scope) : Expr :=
  match ArchivedAtColumn (pt_ts s) with
  | None => pred
  | Some _ =>
      match scope with
      | ScopeIncludeArchived => pred
      | ScopeOnlyArchived => Build.And [pred; Build.NotNull "ArchivedAt"]
      | ScopeActive => Build.And [pred; Build.IsNull "ArchivedAt"]
      end
  end.

Definition directPredicate (q : option CriteriaQuery) : Outcome GoErr Expr :=
  match q ≫= q_Condition with
  | None => Fail (ELeaf ("db: a write on " +:+ Table s +:+ " needs a predicate"))
  | Some cond => Ret (gated cond (match q with Some q => q_Scope q | None => ScopeActive end))
  end.

(** ** The plan of an upsert *)

Record upsertPlan := mkUpsertPlan {
  up_bound : Fields;
  up_insertOnly : Fields;
  up_updateOnly : Fields;
  up_stamps : stampPlan;
  up_insertStamps : stampPlan;
  up_updateStamps : stampPlan;
  up_keyCols : list string;
  up_keyed : gset string;
  up_unarchive : bool;
  up_archivedCol : string
}.

(** The loop over the conflict fields. *)
Fixpoint conflictKeys (v : DirectValues) (conflictGo : list string) : Outcome GoErr (list string) :=
  match conflictGo with
  | [] => Ret []
  | g :: rest =>
      match Resolve (pt_ts s) g with
      | None => Fail (refused g "unknown conflict field")
      | Some rf =>
          if negb (existsb (fun p => String.eqb p.1 g) v) then Fail (refused g "the conflict field carries no value")
          else let* cols := conflictKeys v rest in Ret (rf_Column rf :: cols)
      end
  end.

(** The columns and the stamps of the three halves, as the loop over the values fills them. *)
Record upsertSlots := mkUpsertSlots {
  us_bound : Fields;
  us_insertOnly : Fields;
  us_updateOnly : Fields;
  us_asked : list StampRequest;
  us_askedOnInsert : list StampRequest;
  us_askedOnUpdate : list StampRequest
}.

Definition addValue (scope : writeScope) (col : string) (x : Value) (u : upsertSlots) : upsertSlots :=
  let 'mkUpsertSlots b i c a ai ac := u in
  match scope with
  | scopeInsert => mkUpsertSlots b (<[col := x]> i) c a ai ac
  | scopeUpdate => mkUpsertSlots b i (<[col := x]> c) a ai ac
  | scopeBoth => mkUpsertSlots (<[col := x]> b) i c a ai ac
  end.

Definition addAsked (scope : writeScope) (r : StampRequest) (u : upsertSlots) : upsertSlots :=
  let 'mkUpsertSlots b i c a ai ac := u in
  match scope with
  | scopeInsert => mkUpsertSlots b i c a (ai ++ [r]) ac
  | scopeUpdate => mkUpsertSlots b i c a ai (ac ++ [r])
  | scopeBoth => mkUpsertSlots b i c (a ++ [r]) ai ac
  end.

(** One pass of the loop over the values. *)
Definition upsertSlot (keyGo : list string) (goField : string) (raw : DirectValue) (u : upsertSlots) : Outcome GoErr upsertSlots :=
  if isManaged goField then Fail (refused goField "cannot be written directly")
  else
    let* sv := unwrapScoped (Table s) goField raw in
    if negb (bool_decide (sv.1 = scopeBoth)) && bool_decide (goField ∈ keyGo) then Fail (refused goField "the conflict field cannot be scoped")
    else
      match sv.2 with
      | DStamp op => Ret (addAsked sv.1 (mkStamp goField op) u)
      | DScoped _ _ => Fail (refused goField "nested scopes")
      | DBind x =>
          match Resolve (pt_ts s) goField with
          | None => Fail (refused goField "unknown field")
          | Some rf => if IsStampedField goField then Fail (refused goField "stamped field") else Ret (addValue sv.1 (rf_Column rf) x u)
          end
      end.

Fixpoint upsertSlotsOf (keyGo : list string) (v : DirectValues) (u : upsertSlots) : Outcome GoErr upsertSlots :=
  match v with
  | [] => Ret u
  | (goField, raw) :: rest => let* u := upsertSlot keyGo goField raw u in upsertSlotsOf keyGo rest u
  end.

Definition stampsOf (reqs : list StampRequest) : Outcome GoErr stampPlan :=
  let* claimed := StampRequestColumns s reqs in Ret (splitStamps claimed (planOf [])).

Definition upsertPlanOf (v : DirectValues) (cfg : upsertConfig) : Outcome GoErr upsertPlan :=
  match uc_conflictGo cfg with
  | [] => Fail (ELeaf ("db: an Upsert on " +:+ Table s +:+ " needs write.OnConflict"))
  | _ =>
      if bool_decide (is_Some (ArchivedAtColumn (pt_ts s))) && negb (uc_archiveGiven cfg)
      then Fail (ELeaf ("db: an Upsert on " +:+ Table s +:+ " must declare what it does to an archived row"))
      else
        match v with
        | [] => Fail (ELeaf ("db: an Upsert on " +:+ Table s +:+ " needs at least one value"))
        | _ =>
            let* keys := conflictKeys v (uc_conflictGo cfg) in
            let* u := upsertSlotsOf (uc_conflictGo cfg) v (mkUpsertSlots ∅ ∅ ∅ [] [] []) in
            let* stamps := stampsOf (us_asked u) in
            let* insertStamps := stampsOf (us_askedOnInsert u) in
            let* updateStamps := stampsOf (us_askedOnUpdate u) in
            Ret (mkUpsertPlan (us_bound u) (us_insertOnly u) (us_updateOnly u) stamps insertStamps updateStamps keys (list_to_set keys)
                   (match uc_archive cfg with archiveUnarchive => true | archiveKeep => false end) (default "" (ArchivedAtColumn (pt_ts s))))
        end
  end.

End Resolve.

(** ** The statement of an upsert *)

Section Render.
Context {X Arg : Type} (s : Part X) (w : WriteDialect Arg).

Abbreviation enc := (d_EncodeArg (wd_d w)).
Abbreviation Stmt := (list Tok * list Arg)%type.

(** A column of the proposed row with its argument. *)
Definition proposedStamps (sp : stampPlan) (now : Z) : list (string * Arg) :=
  ((fun c => (c, enc (timeValue now))) <$> sp_requestedTimes sp) ++
  ((fun c => (c, wd_raw w (intValue 1))) <$> sp_counters sp) ++
  ((fun c => (c, enc (timeValue zeroTime))) <$> sp_zeroTimes sp) ++
  ((fun c => (c, wd_raw w VNil)) <$> sp_nullCols sp) ++
  ((fun c => (c, wd_raw w (intValue 0))) <$> sp_zeroCounters sp).

(** An assignment of the conflict clause with the argument it binds of its own. *)
Definition setNew (c : string) : UpsertSet * option Arg := (mkUpsertSet c UpsertSetNew "", None).
Definition setBump (c : string) : UpsertSet * option Arg := (mkUpsertSet c UpsertSetBump "", None).
Definition setLit (text c : string) : UpsertSet * option Arg := (mkUpsertSet c UpsertSetExpr text, None).
Definition setArg (a : Arg) (c : string) : UpsertSet * option Arg := (mkUpsertSet c UpsertSetArg "", Some a).

Definition proposedStampSets (sp : stampPlan) : list (UpsertSet * option Arg) :=
  (setNew <$> sp_requestedTimes sp) ++ (setBump <$> sp_counters sp) ++ (setNew <$> sp_zeroTimes sp) ++
  (setLit "NULL" <$> sp_nullCols sp) ++ (setLit "0" <$> sp_zeroCounters sp).

Definition conflictStampSets (sp : stampPlan) (now : Z) : list (UpsertSet * option Arg) :=
  (setArg (enc (timeValue now)) <$> sp_requestedTimes sp) ++ (setBump <$> sp_counters sp) ++
  (setArg (enc (timeValue zeroTime)) <$> sp_zeroTimes sp) ++ (setLit "NULL" <$> sp_nullCols sp) ++ (setLit "0" <$> sp_zeroCounters sp).

Definition proposedRow (plan : upsertPlan) (id : string) (now : Z) : list (string * Arg) :=
  (IDColumn s, enc (VID (Some (NewID id)))) ::
  ((fun kv => (kv.1, enc kv.2)) <$> SortedFields (up_bound plan)) ++
  ((fun kv => (kv.1, enc kv.2)) <$> SortedFields (up_insertOnly plan)) ++
  proposedStamps (up_stamps plan) now ++ proposedStamps (up_insertStamps plan) now ++
  ((fun c => (c, enc (timeValue now))) <$> insertNowColumns s).

Definition conflictSets (plan : upsertPlan) (now : Z) : list (UpsertSet * option Arg) :=
  (setNew <$> List.filter (fun c => negb (bool_decide (c ∈ up_keyed plan))) (SortedFields (up_bound plan)).*1) ++
  proposedStampSets (up_stamps plan) ++
  ((fun kv => setArg (enc kv.2) kv.1) <$> SortedFields (up_updateOnly plan)) ++
  conflictStampSets (up_updateStamps plan) now ++
  (setNew <$> updateNowColumns s) ++
  (if up_unarchive plan then [setLit "NULL" (up_archivedCol plan)] else []).

Definition renderUpsert (plan : upsertPlan) (id : string) (now : Z) : Outcome GoErr Stmt :=
  let row := proposedRow plan id now in
  let sets := conflictSets plan now in
  match wd_BuildUpsert w (Table s) row.*1 (up_keyCols plan) sets.*1 with
  | Some sql => Ret (sql, row.*2 ++ omap snd sets)
  | None => Panic "infra: invalid SQL identifier"
  end.

End Render.

(** ** The writer *)

Section Writer.
Context {V S D W Arg AE X : Type} `{AVOOps V}.

Abbreviation PM A := (GoM (PWorld W Arg AE * EntityState V S D) GoErr A).
Abbreviation Stmt := (list Tok * list Arg)%type.

Record DirectWriter := mkDirectWriter {
  dw_env : Env V S D W Arg AE;
  dw_schema : Part X;
  dw_name : string;
  dw_constraints : gmap string ConstraintBinding;
  dw_inTx : bool
}.

Definition BindTx (w : DirectWriter) : DirectWriter := mkDirectWriter (dw_env w) (dw_schema w) (dw_name w) (dw_constraints w) true.

Definition SetConstraints (m : gmap string ConstraintBinding) (w : DirectWriter) : DirectWriter :=
  mkDirectWriter (dw_env w) (dw_schema w) (dw_name w) m (dw_inTx w).

Definition SetContextName (name : string) (w : DirectWriter) : DirectWriter :=
  mkDirectWriter (dw_env w) (dw_schema w) name (dw_constraints w) (dw_inTx w).

Context (w : DirectWriter).

Abbreviation env := (dw_env w).
Abbreviation bk := (env_backend (dw_env w)).
Abbreviation dia := (env_dialect (dw_env w)).
Abbreviation isUUID := (env_isUUID (dw_env w)).
Abbreviation schema := (dw_schema w).

Definition directErr (e : GoErr) : GoErr := TranslateUniqueViolation dia e (dw_name w) (dw_constraints w).

(** [mapErr] on the error of a call. *)
Definition mapped {A} (r : GoErr + A) : PM A := match r with inr a => gret a | inl e => gfail (directErr e) end.
Definition mappedErr (err : option GoErr) : PM unit := match err with None => gret tt | Some e => gfail (directErr e) end.

Definition execCount (st : Stmt) : PM Z := r <- call (bk_ExecCount bk st.1 st.2) (EvCount st.1 st.2);; mapped r.

Definition commitMapped : PM unit := err <- call (bk_Commit bk) EvCommit;; mappedErr err.

(** [run]: one statement and its count. *)
Definition directRun (build : PM Stmt) : PM Z :=
  if dw_inTx w then st <- build;; n <- execCount st;; gret n
  else inTx env (st <- build;; n <- execCount st;; commitMapped;;; gret n).

(** What [runExpectingOne] makes of a count. *)
Definition outcome (verb : string) (n : Z) : PM unit :=
  if Z.eqb n 0 then gfail (NotFoundError (dw_name w) (WireFieldOf schema (IDColumn schema)) "")
  else if Z.ltb 1 n then gfail (ELeaf ("db: " +:+ verb +:+ " on " +:+ Table schema +:+ " matched more than one row"))
  else gret tt.

Definition runExpectingOne (build : PM Stmt) (verb : string) : PM unit :=
  if dw_inTx w then st <- build;; n <- execCount st;; outcome verb n
  else inTx env (st <- build;; n <- execCount st;; outcome verb n;;; commitMapped).

(** ** Verbs *)

Definition DirectInsert (v : DirectValues) : PM ID :=
  r <- liftO (resolveValues schema v);;
  id <- newWriteID env;;
  directRun (now <- now_ env;;
       liftO (buildInsertWithCounters dia (Table schema) (IDColumn schema) id r.1 (withNowCols (insertNowColumns schema) r.2) now ""));;;
  gret (NewID id).

Definition updateStmt (v : DirectValues) (q : option CriteriaQuery) : PM Stmt :=
  r <- liftO (resolveValues schema v);;
  pred <- liftO (directPredicate schema q);;
  now <- now_ env;;
  liftO (buildUpdatePlan dia isUUID (schemaTarget schema) (Some pred) r.1 (withNowCols (updateNowColumns schema) r.2) now "" 0).

Definition DirectUpdate (v : DirectValues) (q : option CriteriaQuery) : PM Z := directRun (updateStmt v q).
Definition DirectUpdateOne (v : DirectValues) (q : option CriteriaQuery) : PM unit := runExpectingOne (updateStmt v q) "UpdateOne".

Definition deleteStmt (q : option CriteriaQuery) : PM Stmt :=
  pred <- liftO (directPredicate schema q);;
  liftO (deleteSQL dia isUUID (schemaTarget schema) (Some pred)).

Definition DirectDelete (q : option CriteriaQuery) : PM Z := directRun (deleteStmt q).
Definition DirectDeleteOne (q : option CriteriaQuery) : PM unit := runExpectingOne (deleteStmt q) "DeleteOne".

Definition transition (q : option CriteriaQuery) (archive : bool) : PM Z :=
  let scope := if archive then ScopeActive else ScopeOnlyArchived in
  archivedCol <- liftO (requireArchivedAt schema (dw_name w));;
  match q ≫= q_Condition with
  | None => gfail (ELeaf ("db: a transition on " +:+ Table schema +:+ " needs a predicate"))
  | Some cond =>
      match (match q with Some q => q_Scope q | None => ScopeActive end) with
      | ScopeActive =>
          directRun (now <- now_ env;;
               liftO (buildUpdatePlan dia isUUID (schemaTarget schema) (Some (gated schema cond scope))
                        {[ archivedCol := if archive then timeValue now else VNil ]} (planOf (updateNowColumns schema)) now "" 0))
      | _ => gfail (ELeaf ("db: a transition on " +:+ Table schema +:+ " sets the archived scope itself"))
      end
  end.

Definition DirectArchive (q : option CriteriaQuery) : PM Z := transition q true.
Definition DirectUnarchive (q : option CriteriaQuery) : PM Z := transition q false.

Definition DirectUpsert (v : DirectValues) (opts : list (option UpsertOption)) : PM unit :=
  let cfg := foldl (fun c o => match o with Some f => f c | None => c end) noUpsertConfig opts in
  plan <- liftO (upsertPlanOf schema v cfg);;
  id <- newWriteID env;;
  directRun (now <- now_ env;; liftO (renderUpsert schema dia plan id now));;;
  gret tt.

Definition DirectUpdateAll (v : DirectValues) : PM Z :=
  r <- liftO (resolveValues schema v);;
  directRun (now <- now_ env;;
       liftO (let* sets := buildSetWithCounters dia r.1 (withNowCols (updateNowColumns schema) r.2) now "" in
              let* t := quoteIdent dia (Table schema) in
              Ret (TKw "UPDATE " :: t ++ TKw " SET " :: sets.1, sets.2))).

Definition DirectDeleteAll : PM Z :=
  directRun (liftO (let* t := quoteIdent dia (Table schema) in Ret (TKw "DELETE FROM " :: t, []))).

End Writer.
