(* ===== verification/DirectUpsert.v ===== *)
(** * What an upsert means

    The columns of the row an upsert proposes and the assignments of its conflict clause,
    traced back to the slots of the caller's values. *)

From S2P Require Import Prelude Naming Notification Errors BaseEntity Criteria CriteriaSql Dialects CriteriaProps Queries QueriesClaims WriteSchema WriteSql DirectWrite.
From stdpp Require Import base gmap strings list fin_maps.
From Stdlib Require Import Ascii ZArith Lia.

Open Scope string_scope.
Open Scope list_scope.
Open Scope go_scope.

(** ** Lists and maps *)

Lemma foldl_insert_lookup {A} (l : list (string * A)) c x :
  NoDup l.*1 -> foldl (fun m p => <[p.1 := p.2]> m) (∅ : gmap string A) l !! c = Some x <-> (c, x) ∈ l.
Proof.
  revert c x. induction l as [|[k y] l IH] using rev_ind; intros c x Hnd; [cbn; rewrite lookup_empty; set_solver|].
  rewrite fmap_app, NoDup_app in Hnd. destruct Hnd as (Hnd&Hk&_). rewrite foldl_app. cbn. rewrite elem_of_app, list_elem_of_singleton.
  destruct (decide (k = c)) as [->|Hne].
  - rewrite lookup_insert_eq. split; [intros [= ->]; by right|]. intros [Hin|[= ->]]; [|done]. exfalso. apply (Hk c); [|by left]. apply list_elem_of_fmap. by exists (c, x).
  - rewrite lookup_insert_ne, IH by done. split; [by left|]. intros [?|[= -> ->]]; done.
Qed.

Lemma SortedFields_elem (m : Fields) c x : (c, x) ∈ SortedFields m <-> m !! c = Some x.
Proof. unfold SortedFields. rewrite sortByKey_perm. apply elem_of_map_to_list. Qed.

(** The first entry of a key is the only value the key has. *)
Definition valueAt {A} (c : string) (l : list (string * A)) : option A := snd <$> List.find (fun p => String.eqb p.1 c) l.

Lemma find_unique {A B} (p : A -> bool) (f : A -> B) (l : list A) b :
  (exists x, x ∈ l /\ p x = true) -> (forall x, x ∈ l -> p x = true -> f x = b) -> f <$> List.find p l = Some b.
Proof.
  intros (x&Hx&Hp) Hall. destruct (List.find p l) as [y|] eqn:Hf.
  - apply List.find_some in Hf as [Hin Hy]. cbn. f_equal. apply Hall; [by apply list_elem_of_In|done].
  - apply list_elem_of_In in Hx. by rewrite (List.find_none _ _ Hf x Hx) in Hp.
Qed.

Lemma valueAt_unique {A} c (l : list (string * A)) a : (c, a) ∈ l -> (forall a', (c, a') ∈ l -> a' = a) -> valueAt c l = Some a.
Proof.
  intros Hin Hall. unfold valueAt. apply find_unique; [exists (c, a); split; [done|apply String.eqb_refl]|]. intros [k a'] Hk Hc%String.eqb_eq. cbn in *. subst k. by apply Hall.
Qed.

Lemma valueAt_none {A} c (l : list (string * A)) : (forall a, (c, a) ∉ l) -> valueAt c l = None.
Proof.
  intros Hall. unfold valueAt. destruct (List.find _ l) as [[k a]|] eqn:Hf; [|done]. apply List.find_some in Hf as [Hin Hc%String.eqb_eq]. cbn in Hc. subst k.
  apply list_elem_of_In in Hin. by apply Hall in Hin.
Qed.

(** ** Stamps *)

Section Stamps.
Context {X : Type} (s : Part X).

(** The Go type of a stamped field. *)
Definition kindOf (g : string) : option StampKind := List.find (fun f => String.eqb (fd_goName f) g) (pt_fields s) ≫= fd_stamped.

Lemma wanted_lookup reqs g op : NoDup (sr_Field <$> reqs) -> wanted reqs !! g = Some op <-> mkStamp g op ∈ reqs.
Proof.
  intros Hnd. unfold wanted. pose proof (foldl_insert_lookup ((fun r => (sr_Field r, sr_Op r)) <$> reqs) g op) as Hf. rewrite <- list_fmap_compose in Hf. specialize (Hf Hnd).
  rewrite foldl_fmap in Hf. rewrite Hf, list_elem_of_fmap. split; [by intros ([]&[= -> ->]&?)|]. intros Hin. by exists (mkStamp g op).
Qed.

Lemma claimFields_sound fields want claims left_ : claimFields s fields want = Ret (claims, left_) ->
  forall cl, cl ∈ claims -> exists f k op, f ∈ fields /\ fd_stamped f = Some k /\ want !! fd_goName f = Some op /\ cl = mkClaim (fd_column f) op (isCounter k).
Proof.
  revert want claims left_. induction fields as [|f fields IH]; intros want claims left_ Hc cl Hin; cbn in Hc; [injection Hc as <- <-; by apply not_elem_of_nil in Hin|].
  assert (Hskip : claimFields s fields want = Ret (claims, left_) -> exists f0 k op, f0 ∈ f :: fields /\ fd_stamped f0 = Some k /\ want !! fd_goName f0 = Some op /\ cl = mkClaim (fd_column f0) op (isCounter k)).
  { intros H0. destruct (IH _ _ _ H0 cl Hin) as (f0&k&op&Hf&Hrest). exists f0, k, op. split; [by right|done]. }
  destruct (fd_stamped f) as [k|] eqn:Hk; [|by apply Hskip]. destruct (want !! fd_goName f) as [op|] eqn:Hw; [|by apply Hskip].
  destruct (_ && _); [done|]. apply obind_Ret in Hc as ([cls lf]&Hr&[= <- <-]). cbn in *. apply elem_of_cons in Hin as [->|Hin].
  - exists f, k, op. split; [by left|done].
  - destruct (IH _ _ _ Hr cl Hin) as (f0&k0&op0&Hf&Hs&Hl&->). exists f0, k0, op0. apply lookup_delete_Some in Hl as [_ Hl]. split; [by right|done].
Qed.

Lemma claimFields_complete fields want claims left_ g op : claimFields s fields want = Ret (claims, left_) -> want !! g = Some op ->
  left_ !! g = Some op \/ exists f k, f ∈ fields /\ fd_goName f = g /\ fd_stamped f = Some k /\ mkClaim (fd_column f) op (isCounter k) ∈ claims.
Proof.
  revert want claims left_. induction fields as [|f fields IH]; intros want claims left_ Hc Hg; cbn in Hc; [injection Hc as <- <-; by left|].
  assert (Hskip : claimFields s fields want = Ret (claims, left_) -> left_ !! g = Some op \/ exists f0 k, f0 ∈ f :: fields /\ fd_goName f0 = g /\ fd_stamped f0 = Some k /\ mkClaim (fd_column f0) op (isCounter k) ∈ claims).
  { intros H0. destruct (IH _ _ _ H0 Hg) as [?|(f0&k&Hf&Hrest)]; [by left|right]. exists f0, k. split; [by right|done]. }
  destruct (fd_stamped f) as [k|] eqn:Hk; [|by apply Hskip]. destruct (want !! fd_goName f) as [op'|] eqn:Hw; [|by apply Hskip].
  destruct (_ && _); [done|]. apply obind_Ret in Hc as ([cls lf]&Hr&[= <- <-]). cbn in *. destruct (decide (fd_goName f = g)) as [<-|Hne].
  - right. exists f, k. rewrite Hg in Hw. injection Hw as ->. split; [by left|]. split; [done|]. split; [done|by left].
  - assert (Hd : delete (fd_goName f) want !! g = Some op) by (by rewrite lookup_delete_ne). destruct (IH _ _ _ Hr Hd) as [?|(f0&k0&Hf&Hn&Hs&Hc)]; [by left|right]. exists f0, k0. split; [by right|]. split; [done|]. split; [done|by right].
Qed.

Lemma unclaimed_none {A} names (want : gmap string A) : unclaimedOf names want = [] -> forall g, g ∈ names -> want !! g = None.
Proof.
  induction names as [|n names IH]; cbn; [set_solver|]. destruct (want !! n) eqn:Hn; [done|]. intros H0 g [->|Hg]%elem_of_cons; [done|by apply IH].
Qed.

Lemma refused_none names : RefuseUnclaimedStamps s names = Ret tt -> names = [].
Proof. destruct names as [|g names]; [done|]. cbn. by destruct (existsb _ (pt_fields s)). Qed.

(** The claims of requests by distinct fields, each request having its claim. *)
Lemma StampRequestColumns_claims reqs claims : NoDup (fd_goName <$> pt_fields s) -> NoDup (sr_Field <$> reqs) -> StampRequestColumns s reqs = Ret claims ->
  forall cl, cl ∈ claims <-> exists f k op, f ∈ pt_fields s /\ fd_stamped f = Some k /\ mkStamp (fd_goName f) op ∈ reqs /\ cl = mkClaim (fd_column f) op (isCounter k).
Proof.
  intros Hnames Hreqs Hc cl. unfold StampRequestColumns in Hc. apply obind_Ret in Hc as ([cls un]&Hcl&Hc). apply obind_Ret in Hc as ([]&Hun&[= <-]). cbn [fst snd] in *.
  unfold ClaimStampRequests in Hcl. destruct reqs as [|r reqs]; [injection Hcl as <- <-; split; [set_solver|]; intros (?&?&?&_&_&?&_); set_solver|].
  apply obind_Ret in Hcl as ([cs lf]&Hf&[= -> <-]). apply refused_none in Hun as Hnone.
  split.
  - intros Hin. destruct (claimFields_sound _ _ _ _ Hf cl Hin) as (f&k&op&Hff&Hk&Hw&->). exists f, k, op. apply wanted_lookup in Hw; [done|done].
  - intros (f&k&op&Hff&Hk&Hr&->). destruct (claimFields_complete _ _ _ _ (fd_goName f) op Hf) as [Hl|(f'&k'&Hf'&Hn&Hk'&Hin)]; [by apply wanted_lookup| |].
    + exfalso. assert (Hg : fd_goName f ∈ StampFields (r :: reqs)) by (unfold StampFields; apply list_elem_of_fmap; by exists (mkStamp (fd_goName f) op)).
      rewrite (unclaimed_none (StampFields (r :: reqs)) lf Hnone _ Hg) in Hl. done.
    + assert (f' = f) as ->; [|congruence]. apply list_elem_of_lookup in Hff as [i Hi], Hf' as [j Hj]. assert (i = j) as ->; [|congruence].
      eapply (NoDup_lookup _ _ _ (fd_goName f) Hnames); rewrite list_lookup_fmap; [by rewrite Hi|rewrite Hj; cbn; by rewrite Hn].
Qed.

End Stamps.

(** ** Buckets *)

Definition isFillTime (cl : ClaimedStamp) : bool := match cs_Op cl with StampFill => negb (cs_Counter cl) | _ => false end.
Definition isFillCounter (cl : ClaimedStamp) : bool := match cs_Op cl with StampFill => cs_Counter cl | _ => false end.
Definition isEmptyTime (cl : ClaimedStamp) : bool := match cs_Op cl with StampToEmpty => negb (cs_Counter cl) | _ => false end.
Definition isEmptyCounter (cl : ClaimedStamp) : bool := match cs_Op cl with StampToEmpty => cs_Counter cl | _ => false end.
Definition isToNull (cl : ClaimedStamp) : bool := match cs_Op cl with StampToNull => true | _ => false end.

Definition columnsWhere (p : ClaimedStamp -> bool) (claims : list ClaimedStamp) : list string := cs_Column <$> List.filter p claims.

Lemma splitStamp_buckets claims p : let q := foldl splitStamp p claims in
  sp_requestedTimes q = sp_requestedTimes p ++ columnsWhere isFillTime claims /\ sp_counters q = sp_counters p ++ columnsWhere isFillCounter claims /\
  sp_zeroTimes q = sp_zeroTimes p ++ columnsWhere isEmptyTime claims /\ sp_zeroCounters q = sp_zeroCounters p ++ columnsWhere isEmptyCounter claims /\
  sp_nullCols q = sp_nullCols p ++ columnsWhere isToNull claims.
Proof.
  revert p. induction claims as [|[c op cnt] claims IH]; intros p; cbn; [by rewrite !app_nil_r|]. destruct (IH (splitStamp p (mkClaim c op cnt))) as (->&->&->&->&->).
  destruct p, op, cnt; cbn; by rewrite <- ?app_assoc.
Qed.

Lemma columnsWhere_elem p claims c : c ∈ columnsWhere p claims <-> exists cl, cl ∈ claims /\ p cl = true /\ cs_Column cl = c.
Proof.
  unfold columnsWhere. rewrite list_elem_of_fmap. setoid_rewrite list_elem_of_In. setoid_rewrite filter_In. naive_solver.
Qed.

Section Meaning.
Context {X Arg : Type} (s : Part X) (w : WriteDialect Arg) (now : Z).

Abbreviation enc := (d_EncodeArg (wd_d w)).

(** What a column becomes on the row that was there. *)
Inductive Effect := Keeps | Takes (a : Arg) | Literal (text : string) | Bumps.

Definition createdStamp (op : StampOp) (counter : bool) : Arg :=
  match op, counter with
  | StampFill, true => wd_raw w (intValue 1)
  | StampFill, false => enc (timeValue now)
  | StampToEmpty, true => wd_raw w (intValue 0)
  | StampToEmpty, false => enc (timeValue zeroTime)
  | StampToNull, _ => wd_raw w VNil
  end.

Definition conflictStamp (op : StampOp) (counter : bool) : Effect :=
  match op, counter with
  | StampFill, true => Bumps
  | StampFill, false => Takes (enc (timeValue now))
  | StampToEmpty, true => Literal "0"
  | StampToEmpty, false => Takes (enc (timeValue zeroTime))
  | StampToNull, _ => Literal "NULL"
  end.

Ltac buckets := rewrite ?elem_of_app, ?list_elem_of_fmap; repeat setoid_rewrite columnsWhere_elem.

Lemma proposedStamps_elem claims c a : (c, a) ∈ proposedStamps w (splitStamps claims (planOf [])) now <->
  exists cl, cl ∈ claims /\ cs_Column cl = c /\ a = createdStamp (cs_Op cl) (cs_Counter cl).
Proof.
  destruct (splitStamp_buckets claims (planOf [])) as (H1&H2&H3&H4&H5). unfold proposedStamps, splitStamps. cbn -[foldl]. rewrite H1, H2, H3, H4, H5. cbn. buckets. split.
  - intros [(x&[= -> ->]&cl&Hin&Hp&<-)|[(x&[= -> ->]&cl&Hin&Hp&<-)|[(x&[= -> ->]&cl&Hin&Hp&<-)|[(x&[= -> ->]&cl&Hin&Hp&<-)|(x&[= -> ->]&cl&Hin&Hp&<-)]]]];
      exists cl; (split; [done|]); (split; [done|]); destruct cl as [? [] []]; by try discriminate Hp.
  - intros (cl&Hin&<-&->). destruct cl as [c0 op cnt]. cbn.
    assert (Hex : forall p, p (mkClaim c0 op cnt) = true -> exists cl, cl ∈ claims /\ p cl = true /\ cs_Column cl = c0) by (intros p Hp; by exists (mkClaim c0 op cnt)).
    destruct op, cnt; eauto 12.
Qed.

(** The assignment of a claim asked on both halves, and of one asked on the conflict only. *)
Definition proposedSet (cl : ClaimedStamp) : UpsertSet * option Arg :=
  match cs_Op cl, cs_Counter cl with
  | StampFill, true => setBump (cs_Column cl)
  | StampFill, false | StampToEmpty, false => setNew (cs_Column cl)
  | StampToEmpty, true => setLit "0" (cs_Column cl)
  | StampToNull, _ => setLit "NULL" (cs_Column cl)
  end.

Definition conflictSet (cl : ClaimedStamp) : UpsertSet * option Arg :=
  match cs_Op cl, cs_Counter cl with
  | StampFill, true => setBump (cs_Column cl)
  | StampFill, false => setArg (enc (timeValue now)) (cs_Column cl)
  | StampToEmpty, false => setArg (enc (timeValue zeroTime)) (cs_Column cl)
  | StampToEmpty, true => setLit "0" (cs_Column cl)
  | StampToNull, _ => setLit "NULL" (cs_Column cl)
  end.

Lemma five_buckets {B} (f1 f2 f3 f4 f5 : string -> B) (g : ClaimedStamp -> B) claims p :
  (forall cl, g cl = match cs_Op cl, cs_Counter cl with
                     | StampFill, false => f1 (cs_Column cl) | StampFill, true => f2 (cs_Column cl) | StampToEmpty, false => f3 (cs_Column cl)
                     | StampToEmpty, true => f5 (cs_Column cl) | StampToNull, _ => f4 (cs_Column cl) end) ->
  p ∈ (f1 <$> columnsWhere isFillTime claims) ++ (f2 <$> columnsWhere isFillCounter claims) ++ (f3 <$> columnsWhere isEmptyTime claims) ++
      (f4 <$> columnsWhere isToNull claims) ++ (f5 <$> columnsWhere isEmptyCounter claims) <-> exists cl, cl ∈ claims /\ p = g cl.
Proof.
  intros Hg. buckets. split.
  - intros [(x&->&cl&Hin&Hp&<-)|[(x&->&cl&Hin&Hp&<-)|[(x&->&cl&Hin&Hp&<-)|[(x&->&cl&Hin&Hp&<-)|(x&->&cl&Hin&Hp&<-)]]]];
      exists cl; (split; [done|]); rewrite Hg; destruct cl as [? [] []]; by try discriminate Hp.
  - intros (cl&Hin&->). rewrite Hg. destruct cl as [c0 op cnt]. cbn.
    assert (Hex : forall p, p (mkClaim c0 op cnt) = true -> exists cl, cl ∈ claims /\ p cl = true /\ cs_Column cl = c0) by (intros p0 Hp; by exists (mkClaim c0 op cnt)).
    destruct op, cnt; eauto 12.
Qed.

Lemma proposedSets_elem claims p : p ∈ proposedStampSets (splitStamps claims (planOf [])) <-> exists cl, cl ∈ claims /\ p = proposedSet cl.
Proof.
  destruct (splitStamp_buckets claims (planOf [])) as (H1&H2&H3&H4&H5). unfold proposedStampSets, splitStamps. cbn -[foldl]. rewrite H1, H2, H3, H4, H5. cbn.
  apply five_buckets. by intros [? [] []].
Qed.

Lemma conflictSets_elem claims p : p ∈ conflictStampSets w (splitStamps claims (planOf [])) now <-> exists cl, cl ∈ claims /\ p = conflictSet cl.
Proof.
  destruct (splitStamp_buckets claims (planOf [])) as (H1&H2&H3&H4&H5). unfold conflictStampSets, splitStamps. cbn -[foldl]. rewrite H1, H2, H3, H4, H5. cbn.
  apply five_buckets. by intros [? [] []].
Qed.

(** ** Slots *)

Definition slotOf (raw : DirectValue) : writeScope * DirectValue := match raw with DScoped sc x => (sc, x) | _ => (scopeBoth, raw) end.

Definition columnOfGo (g : string) : option string := rf_Column <$> Resolve (pt_ts s) g.

Definition boundSlot (h : writeScope) (p : string * DirectValue) : option (string * Value) :=
  match slotOf p.2 with
  | (h', DBind x) => if decide (h' = h) then (fun c => (c, x)) <$> columnOfGo p.1 else None
  | _ => None
  end.

Definition askedSlot (h : writeScope) (p : string * DirectValue) : option StampRequest :=
  match slotOf p.2 with
  | (h', DStamp op) => if decide (h' = h) then Some (mkStamp p.1 op) else None
  | _ => None
  end.

Definition putAll (m : Fields) (l : list (string * Value)) : Fields := foldl (fun m p => <[p.1 := p.2]> m) m l.

Lemma upsertSlotsOf_eq keyGo v u u' : upsertSlotsOf s keyGo v u = Ret u' ->
  us_bound u' = putAll (us_bound u) (omap (boundSlot scopeBoth) v) /\ us_insertOnly u' = putAll (us_insertOnly u) (omap (boundSlot scopeInsert) v) /\
  us_updateOnly u' = putAll (us_updateOnly u) (omap (boundSlot scopeUpdate) v) /\ us_asked u' = us_asked u ++ omap (askedSlot scopeBoth) v /\
  us_askedOnInsert u' = us_askedOnInsert u ++ omap (askedSlot scopeInsert) v /\ us_askedOnUpdate u' = us_askedOnUpdate u ++ omap (askedSlot scopeUpdate) v /\
  forall g raw, (g, raw) ∈ v -> isManaged g = false /\ (slotOf raw).1 = scopeBoth \/ isManaged g = false /\ g ∉ keyGo.
Proof.
  revert u. induction v as [|[g raw] v IH]; intros u Hv; cbn in Hv.
  { injection Hv as <-. cbn. rewrite !app_nil_r. repeat split; try done. set_solver. }
  apply obind_Ret in Hv as (u1&Hu&Hv). destruct (IH _ Hv) as (E1&E2&E3&E4&E5&E6&Hmem). rewrite E1, E2, E3, E4, E5, E6. clear E1 E2 E3 E4 E5 E6 IH Hv.
  unfold upsertSlot in Hu. destruct (isManaged g) eqn:Hm; [done|]. apply obind_Ret in Hu as ([sc x]&Hw&Hu).
  assert (Hs : slotOf raw = (sc, x)). { unfold unwrapScoped in Hw. destruct raw as [y|op|sc' [y|op|]]; by simplify_eq. }
  cbn [fst snd] in Hu. destruct (_ && _) eqn:Hk; [done|]. assert (Hkey : sc = scopeBoth \/ g ∉ keyGo).
  { apply andb_false_iff in Hk as [Hk|Hk]; [left|right]; [by apply negb_false_iff, bool_decide_eq_true in Hk|by apply bool_decide_eq_false in Hk]. }
  assert (Hall : forall g0 raw0, (g0, raw0) ∈ (g, raw) :: v -> isManaged g0 = false /\ (slotOf raw0).1 = scopeBoth \/ isManaged g0 = false /\ g0 ∉ keyGo).
  { intros g0 raw0 [[= -> ->]|Hin]%elem_of_cons; [|by apply Hmem]. rewrite Hs. naive_solver. }
  cbn. unfold boundSlot, askedSlot, columnOfGo. cbn. rewrite Hs. destruct x as [y|op|sc' y]; [| |done].
  - destruct (Resolve (pt_ts s) g) as [rf|]; [|done]. destruct (IsStampedField s g); [done|]. injection Hu as <-. destruct u, sc; cbn; by rewrite ?app_nil_r.
  - injection Hu as <-. destruct u, sc; cbn; by rewrite <- ?app_assoc.
Qed.

(** ** Schemas *)

(** Distinct names and columns: a stamped field resolves to its column, two fields have
    two columns, and none of them is a managed one. *)
Record directSchema : Prop := mkDirectSchema {
  ds_names : NoDup (fd_goName <$> pt_fields s);
  ds_fields : forall f, f ∈ pt_fields s -> columnOfGo (fd_goName f) = Some (fd_column f);
  ds_columns : forall g g' c, isManaged g = false -> isManaged g' = false -> columnOfGo g = Some c -> columnOfGo g' = Some c -> g = g';
  ds_managed : forall g c, isManaged g = false -> columnOfGo g = Some c -> c <> IDColumn s /\ c ∉ insertNowColumns s /\ ArchivedAtColumn (pt_ts s) <> Some c;
  ds_own : IDColumn s ∉ insertNowColumns s /\ ArchivedAtColumn (pt_ts s) <> Some (IDColumn s) /\
           forall c, c ∈ insertNowColumns s -> ArchivedAtColumn (pt_ts s) <> Some c;
  ds_times : ts_createdAt (pt_ts s) <> "" -> ts_createdAt (pt_ts s) <> ts_updatedAt (pt_ts s)
}.

Context (ok : directSchema) (v : DirectValues) (v_keys : NoDup v.*1) (v_managed : forall g raw, (g, raw) ∈ v -> isManaged g = false).

Lemma slot_unique g raw raw' : (g, raw) ∈ v -> (g, raw') ∈ v -> raw = raw'.
Proof using v_keys.
  intros [i Hi]%list_elem_of_lookup [j Hj]%list_elem_of_lookup. assert (i = j) as ->; [|congruence].
  eapply (NoDup_lookup _ _ _ g v_keys); rewrite list_lookup_fmap; [by rewrite Hi|by rewrite Hj].
Qed.

Lemma column_unique g g' raw raw' c : (g, raw) ∈ v -> (g', raw') ∈ v -> columnOfGo g = Some c -> columnOfGo g' = Some c -> g = g' /\ raw = raw'.
Proof using ok v_keys v_managed.
  intros H1 H2 E1 E2. assert (g = g') as <-; [by eapply (ds_columns ok); [eapply v_managed, H1|eapply v_managed, H2| |]|]. split; [done|]. by eapply slot_unique.
Qed.

(** Keeping some entries of the values keeps their keys apart. *)
Lemma omap_NoDup {B} (f : string * DirectValue -> option B) (key : B -> string) (col : string -> option string) l :
  (forall p b, f p = Some b -> col p.1 = Some (key b)) -> (forall g g' c, g ∈ l.*1 -> g' ∈ l.*1 -> col g = Some c -> col g' = Some c -> g = g') ->
  NoDup l.*1 -> NoDup (key <$> omap f l).
Proof.
  intros Hf. induction l as [|p l IH]; intros Hinj Hnd; [constructor|]. apply NoDup_cons in Hnd as [Hp Hnd].
  assert (IH' : NoDup (key <$> omap f l)). { apply IH; [|done]. intros g g' c Hg Hg'. apply Hinj; by right. }
  cbn. destruct (f p) as [b|] eqn:Eb; [|done]. cbn. apply NoDup_cons. split; [|done].
  intros (b'&Hkey&(p'&Hp'&Eb')%list_elem_of_omap)%list_elem_of_fmap. apply Hp. rewrite (Hinj p.1 p'.1 (key b)); [by apply list_elem_of_fmap_2|by left| |by apply Hf|].
  - right. by apply list_elem_of_fmap_2.
  - rewrite Hkey. by apply Hf.
Qed.

Lemma values_inj g g' c : g ∈ v.*1 -> g' ∈ v.*1 -> columnOfGo g = Some c -> columnOfGo g' = Some c -> g = g'.
Proof using ok v_keys v_managed.
  intros ([g0 r0]&->&H1)%list_elem_of_fmap ([g1 r1]&->&H2)%list_elem_of_fmap E1 E2. by destruct (column_unique _ _ _ _ _ H1 H2 E1 E2).
Qed.

Lemma bound_elem h c x : (c, x) ∈ SortedFields (putAll ∅ (omap (boundSlot h) v)) <-> exists g raw, (g, raw) ∈ v /\ slotOf raw = (h, DBind x) /\ columnOfGo g = Some c.
Proof using ok v_keys v_managed.
  rewrite SortedFields_elem. unfold putAll. rewrite foldl_insert_lookup.
  - rewrite list_elem_of_omap. unfold boundSlot. split.
    + intros ([g raw]&Hin&Hb). exists g, raw. cbn [fst snd] in Hb. destruct (slotOf raw) as [h' [y|op|]]; [|done|done]. destruct (decide (h' = h)) as [->|]; [|done].
      apply fmap_Some in Hb as (c0&Hcol&[= -> ->]). done.
    + intros (g&raw&Hin&Hs&Hc). exists (g, raw). cbn. rewrite Hs, decide_True, Hc by done. done.
  - apply (omap_NoDup _ fst columnOfGo); [|apply values_inj|done]. intros [g raw] [c' y] Hb. unfold boundSlot in Hb. cbn [fst snd] in Hb.
    destruct (slotOf raw) as [h' [z|op|]]; [|done|done]. destruct (decide (h' = h)); [|done]. apply fmap_Some in Hb as (c0&Hcol&[= -> ->]). done.
Qed.

Lemma kindOf_field f k : f ∈ pt_fields s -> fd_stamped f = Some k -> kindOf s (fd_goName f) = Some k.
Proof using ok.
  intros Hf Hk. unfold kindOf. assert (Hu : forall f', f' ∈ pt_fields s -> fd_goName f' = fd_goName f -> f' = f).
  { intros f' Hf' Hn. apply list_elem_of_lookup in Hf as [i Hi], Hf' as [j Hj]. assert (i = j) as ->; [|congruence].
    eapply (NoDup_lookup _ _ _ (fd_goName f) (ds_names ok)); rewrite list_lookup_fmap; [by rewrite Hi|rewrite Hj; cbn; by rewrite Hn]. }
  assert (Hfind : id <$> List.find (fun f0 => String.eqb (fd_goName f0) (fd_goName f)) (pt_fields s) = Some f).
  { apply find_unique; [exists f; split; [done|apply String.eqb_refl]|]. intros f' Hf' Hn%String.eqb_eq. by apply Hu. }
  destruct (List.find _ (pt_fields s)) as [f'|]; cbn in Hfind; [|done]. by simplify_eq.
Qed.

Lemma kindOf_Some g k : kindOf s g = Some k -> exists f, f ∈ pt_fields s /\ fd_goName f = g /\ fd_stamped f = Some k.
Proof.
  unfold kindOf. destruct (List.find _ (pt_fields s)) as [f|] eqn:Hf; [|done]. apply List.find_some in Hf as [Hin Hn%String.eqb_eq]. intros Hk. exists f. by rewrite list_elem_of_In.
Qed.

Lemma asked_NoDup h : NoDup (sr_Field <$> omap (askedSlot h) v).
Proof using v_keys.
  apply (omap_NoDup _ sr_Field Some); [|by intros g g' c _ _ [= <-] [= <-]|done]. intros [g raw] [fld op] Ha. unfold askedSlot in Ha. cbn in Ha.
  destruct (slotOf raw) as [h' [z|op'|]]; [done| |done]. destruct (decide (h' = h)); [|done]. by simplify_eq.
Qed.

Lemma claims_elem h claims cl : StampRequestColumns s (omap (askedSlot h) v) = Ret claims ->
  cl ∈ claims <-> exists g raw op k c, (g, raw) ∈ v /\ slotOf raw = (h, DStamp op) /\ kindOf s g = Some k /\ columnOfGo g = Some c /\ cl = mkClaim c op (isCounter k).
Proof using ok v_keys v_managed.
  intros Hc. rewrite (StampRequestColumns_claims s _ _ (ds_names ok) (asked_NoDup h) Hc cl). split.
  - intros (f&k&op&Hf&Hk&([g raw]&Hin&Ha)%list_elem_of_omap&->). unfold askedSlot in Ha. cbn in Ha. destruct (slotOf raw) as [h' [y|op'|]] eqn:Hs; [done| |done].
    destruct (decide (h' = h)) as [->|]; [|done]. injection Ha as -> ->. exists (fd_goName f), raw, op, k, (fd_column f). repeat split; try done; [by apply kindOf_field|by apply (ds_fields ok)].
  - intros (g&raw&op&k&c&Hin&Hs&(f&Hf&<-&Hk)%kindOf_Some&Hcol&->). exists f, k, op. rewrite (ds_fields ok f Hf) in Hcol. injection Hcol as <-. repeat split; try done.
    apply list_elem_of_omap. exists (fd_goName f, raw). split; [done|]. unfold askedSlot. cbn. by rewrite Hs, decide_True.
Qed.

(** ** The two halves *)

(** The value of a column on the row created. *)
Definition created (g : string) (raw : DirectValue) : option Arg :=
  match slotOf raw with
  | (scopeUpdate, _) => None
  | (_, DBind x) => Some (enc x)
  | (_, DStamp op) => (fun k => createdStamp op (isCounter k)) <$> kindOf s g
  | (_, DScoped _ _) => None
  end.

(** What happens to it on the row that was there. *)
Definition revised (keyGo : list string) (g : string) (raw : DirectValue) : Effect :=
  match slotOf raw with
  | (scopeInsert, _) => Keeps
  | (scopeBoth, DBind x) => if bool_decide (g ∈ keyGo) then Keeps else Takes (enc x)
  | (scopeUpdate, DBind x) => Takes (enc x)
  | (_, DStamp op) => match kindOf s g with Some k => conflictStamp op (isCounter k) | None => Keeps end
  | (_, DScoped _ _) => Keeps
  end.

(** What a conflict clause does to a column, given the proposed row. *)
Definition effectOf (row : list (string * Arg)) (p : UpsertSet * option Arg) : Effect :=
  match us_Mode p.1 with
  | UpsertSetNew => match valueAt (us_Col p.1) row with Some a => Takes a | None => Keeps end
  | UpsertSetBump => Bumps
  | UpsertSetExpr => Literal (us_Expr p.1)
  | UpsertSetArg => match p.2 with Some a => Takes a | None => Keeps end
  end.

Lemma effectOf_new row c : effectOf row (setNew c) = match valueAt c row with Some a => Takes a | None => Keeps end.
Proof. done. Qed.

Definition onConflict (row : list (string * Arg)) (sets : list (UpsertSet * option Arg)) (c : string) : Effect :=
  default Keeps (effectOf row <$> List.find (fun p => String.eqb (us_Col p.1) c) sets).

Lemma onConflict_unique row sets c e :
  (exists p, p ∈ sets /\ us_Col p.1 = c) -> (forall p, p ∈ sets -> us_Col p.1 = c -> effectOf row p = e) -> onConflict row sets c = e.
Proof.
  intros (p&Hp&Hc) Hall. unfold onConflict. rewrite (find_unique _ (effectOf row) sets e); [done|exists p; split; [done|by apply String.eqb_eq]|].
  intros q Hq Hqc%String.eqb_eq. by apply Hall.
Qed.

Lemma onConflict_keeps row sets c : (forall p, p ∈ sets -> us_Col p.1 <> c) -> onConflict row sets c = Keeps.
Proof.
  intros Hall. unfold onConflict. destruct (List.find _ sets) as [p|] eqn:Hf; [|done]. apply List.find_some in Hf as [Hin Hc%String.eqb_eq].
  apply list_elem_of_In in Hin. by destruct (Hall p Hin).
Qed.

(** What a plan holds of the values. *)
Record planned (keyGo : list string) (plan : upsertPlan) (c1 c2 c3 : list ClaimedStamp) : Prop := mkPlanned {
  pd_bound : up_bound plan = putAll ∅ (omap (boundSlot scopeBoth) v);
  pd_insertOnly : up_insertOnly plan = putAll ∅ (omap (boundSlot scopeInsert) v);
  pd_updateOnly : up_updateOnly plan = putAll ∅ (omap (boundSlot scopeUpdate) v);
  pd_c1 : StampRequestColumns s (omap (askedSlot scopeBoth) v) = Ret c1;
  pd_c2 : StampRequestColumns s (omap (askedSlot scopeInsert) v) = Ret c2;
  pd_c3 : StampRequestColumns s (omap (askedSlot scopeUpdate) v) = Ret c3;
  pd_stamps : up_stamps plan = splitStamps c1 (planOf []) /\ up_insertStamps plan = splitStamps c2 (planOf []) /\ up_updateStamps plan = splitStamps c3 (planOf []);
  pd_keyed : forall c, c ∈ up_keyed plan <-> exists g, g ∈ keyGo /\ columnOfGo g = Some c;
  pd_archived : ArchivedAtColumn (pt_ts s) = Some (up_archivedCol plan) \/ ArchivedAtColumn (pt_ts s) = None /\ up_unarchive plan = false
}.

Context (keyGo : list string) (plan : upsertPlan) (c1 c2 c3 : list ClaimedStamp) (Hplan : planned keyGo plan c1 c2 c3) (id : string).

(** Where a pair of the proposed row comes from. *)
Lemma row_elem c a : (c, a) ∈ proposedRow s w plan id now <->
  c = IDColumn s /\ a = enc (VID (Some (NewID id))) \/ (exists g raw, (g, raw) ∈ v /\ columnOfGo g = Some c /\ created g raw = Some a) \/
  c ∈ insertNowColumns s /\ a = enc (timeValue now).
Proof using ok v_keys v_managed Hplan.
  destruct (pd_stamps _ _ _ _ _ Hplan) as (Es1&Es2&_). unfold proposedRow. rewrite (pd_bound _ _ _ _ _ Hplan), (pd_insertOnly _ _ _ _ _ Hplan), Es1, Es2.
  rewrite elem_of_cons, !elem_of_app, !proposedStamps_elem, !list_elem_of_fmap. split.
  - intros [[= -> ->]|[([c' x]&[= -> ->]&(g&raw&Hin&Hs&Hcol)%bound_elem)|[([c' x]&[= -> ->]&(g&raw&Hin&Hs&Hcol)%bound_elem)|
      [(cl&(g&raw&op&k&c'&Hin&Hs&Hk&Hcol&->)%(claims_elem _ _ _ (pd_c1 _ _ _ _ _ Hplan))&<-&->)|
       [(cl&(g&raw&op&k&c'&Hin&Hs&Hk&Hcol&->)%(claims_elem _ _ _ (pd_c2 _ _ _ _ _ Hplan))&<-&->)|(c'&[= -> ->]&Hin)]]]]]; [by left| | | | |by right; right];
      right; left; exists g, raw; unfold created; rewrite Hs, ?Hk; done.
  - intros [[-> ->]|[(g&raw&Hin&Hcol&Hcr)|[Hin ->]]]; [by left| |right; right; right; right; right; by exists c]. right. unfold created in Hcr.
    destruct (slotOf raw) as [h [x|op|]] eqn:Hs; [|destruct (kindOf s g) as [k|] eqn:Hk; [|by destruct h]|by destruct h].
    + destruct h; [left|right; left|done]; injection Hcr as <-; exists (c, x); (split; [done|]); apply bound_elem; by exists g, raw.
    + destruct h; [do 2 right; left|do 3 right; left|done]; injection Hcr as <-; exists (mkClaim c op (isCounter k)); (split; [|done]);
        [apply (claims_elem _ _ _ (pd_c1 _ _ _ _ _ Hplan))|apply (claims_elem _ _ _ (pd_c2 _ _ _ _ _ Hplan))]; by exists g, raw, op, k, c.
Qed.

(** Where an assignment of the conflict clause comes from. *)
Lemma sets_elem p : p ∈ conflictSets s w plan now <->
  (exists g raw x c, (g, raw) ∈ v /\ columnOfGo g = Some c /\ slotOf raw = (scopeBoth, DBind x) /\ c ∉ up_keyed plan /\ p = setNew c) \/
  (exists g raw op k c, (g, raw) ∈ v /\ columnOfGo g = Some c /\ slotOf raw = (scopeBoth, DStamp op) /\ kindOf s g = Some k /\ p = proposedSet (mkClaim c op (isCounter k))) \/
  (exists g raw x c, (g, raw) ∈ v /\ columnOfGo g = Some c /\ slotOf raw = (scopeUpdate, DBind x) /\ p = setArg (enc x) c) \/
  (exists g raw op k c, (g, raw) ∈ v /\ columnOfGo g = Some c /\ slotOf raw = (scopeUpdate, DStamp op) /\ kindOf s g = Some k /\ p = conflictSet (mkClaim c op (isCounter k))) \/
  (exists c, c ∈ updateNowColumns s /\ p = setNew c) \/ up_unarchive plan = true /\ p = setLit "NULL" (up_archivedCol plan).
Proof using ok v_keys v_managed Hplan.
  destruct (pd_stamps _ _ _ _ _ Hplan) as (Es1&_&Es3). unfold conflictSets. rewrite (pd_bound _ _ _ _ _ Hplan), (pd_updateOnly _ _ _ _ _ Hplan), Es1, Es3.
  rewrite !elem_of_app, proposedSets_elem, conflictSets_elem, !list_elem_of_fmap. repeat apply Morphisms_Prop.or_iff_morphism.
  - split.
    + intros (c&->&Hc). apply list_elem_of_In, filter_In in Hc as [Hc Hk]. apply list_elem_of_In, list_elem_of_fmap in Hc as ([c' x]&->&(g&raw&Hin&Hs&Hcol)%bound_elem).
      exists g, raw, x, c'. repeat split; try done. by apply negb_true_iff, bool_decide_eq_false in Hk.
    + intros (g&raw&x&c&Hin&Hcol&Hs&Hk&->). exists c. split; [done|]. apply list_elem_of_In, filter_In. split; [|by apply negb_true_iff, bool_decide_eq_false].
      apply list_elem_of_In, list_elem_of_fmap. exists (c, x). split; [done|]. apply bound_elem. by exists g, raw.
  - setoid_rewrite (claims_elem _ _ _ (pd_c1 _ _ _ _ _ Hplan)). naive_solver.
  - split; [intros ([c x]&->&(g&raw&Hin&Hs&Hcol)%bound_elem); by exists g, raw, x, c|]. intros (g&raw&x&c&Hin&Hcol&Hs&->). exists (c, x). split; [done|]. apply bound_elem. by exists g, raw.
  - setoid_rewrite (claims_elem _ _ _ (pd_c3 _ _ _ _ _ Hplan)). naive_solver.
  - naive_solver.
  - destruct (up_unarchive plan); [rewrite list_elem_of_singleton; naive_solver|]. split; [by intros ?%not_elem_of_nil|by intros [? _]].
Qed.

(** No stamp is asked of a key. *)
Context (keys_bound : forall g raw, g ∈ keyGo -> (g, raw) ∈ v -> exists x, slotOf raw = (scopeBoth, DBind x)) (keys_given : forall g, g ∈ keyGo -> g ∈ v.*1).

Abbreviation row := (proposedRow s w plan id now).
Abbreviation sets := (conflictSets s w plan now).

Lemma created_slot g raw c : (g, raw) ∈ v -> columnOfGo g = Some c -> valueAt c row = created g raw.
Proof using ok v_keys v_managed Hplan.
  intros Hin Hcol. destruct (ds_managed ok g c (v_managed _ _ Hin) Hcol) as (Hid&Hnow&_).
  assert (Hall : forall a, (c, a) ∈ row -> created g raw = Some a).
  { intros a [[? _]|[(g'&raw'&Hin'&Hcol'&Hc)|[? _]]]%row_elem; [done| |done]. by destruct (column_unique _ _ _ _ _ Hin Hin' Hcol Hcol') as [-> ->]. }
  destruct (created g raw) as [a|] eqn:Hc.
  - apply valueAt_unique; [apply row_elem; right; left; by exists g, raw|]. intros a' Ha%Hall. congruence.
  - apply valueAt_none. intros a Ha%Hall. done.
Qed.

Lemma keyed_slot g raw c : (g, raw) ∈ v -> columnOfGo g = Some c -> c ∈ up_keyed plan <-> g ∈ keyGo.
Proof using ok v_keys v_managed Hplan keys_given.
  intros Hin Hcol. rewrite (pd_keyed _ _ _ _ _ Hplan). split; [|intros Hg; by exists g]. intros (g'&Hg'&Hcol').
  pose proof (keys_given g' Hg') as ([g0 raw']&->&Hin')%list_elem_of_fmap. cbn in *. by destruct (column_unique _ _ _ _ _ Hin Hin' Hcol Hcol') as [-> _].
Qed.

(** The assignments of a column. *)
Lemma set_cases p : p ∈ sets ->
  (exists g raw, (g, raw) ∈ v /\ columnOfGo g = Some (us_Col p.1) /\ effectOf row p = revised keyGo g raw) \/
  us_Col p.1 ∈ updateNowColumns s /\ p = setNew (us_Col p.1) \/ up_unarchive plan = true /\ p = setLit "NULL" (up_archivedCol plan).
Proof using ok v_keys v_managed Hplan keys_given.
  intros [(g&raw&x&c&Hin&Hcol&Hs&Hk&->)|[(g&raw&op&k&c&Hin&Hcol&Hs&Hk&->)|[(g&raw&x&c&Hin&Hcol&Hs&->)|[(g&raw&op&k&c&Hin&Hcol&Hs&Hk&->)|[(c&Hc&->)|[Hu ->]]]]]]%sets_elem;
    [left; exists g, raw..|by right; left|by right; right]; pose proof (created_slot g raw c Hin Hcol) as Hcr; unfold created in Hcr; unfold revised; rewrite Hs in *.
  - rewrite (keyed_slot g raw c Hin Hcol) in Hk. rewrite bool_decide_eq_false_2 by done. by rewrite effectOf_new, Hcr.
  - rewrite Hk in *. change (valueAt c row = Some (createdStamp op (isCounter k))) in Hcr. destruct op; destruct (isCounter k); try done; cbn [proposedSet cs_Op cs_Counter cs_Column]; by rewrite effectOf_new, Hcr.
  - done.
  - rewrite Hk. destruct op; destruct (isCounter k); done.
Qed.

Lemma updateNow_insertNow c : c ∈ updateNowColumns s -> c ∈ insertNowColumns s.
Proof. unfold updateNowColumns, insertNowColumns. rewrite elem_of_app. by right. Qed.

Lemma unarchived_column : up_unarchive plan = true -> ArchivedAtColumn (pt_ts s) = Some (up_archivedCol plan).
Proof using Hplan. intros Hu. destruct (pd_archived _ _ _ _ _ Hplan) as [?|[_ ?]]; [done|congruence]. Qed.

Lemma revised_slot g raw c : (g, raw) ∈ v -> columnOfGo g = Some c -> onConflict row sets c = revised keyGo g raw.
Proof using ok v_keys v_managed Hplan keys_bound keys_given.
  intros Hin Hcol. destruct (ds_managed ok g c (v_managed _ _ Hin) Hcol) as (_&Hnow&Harch).
  assert (Hall : forall p, p ∈ sets -> us_Col p.1 = c -> effectOf row p = revised keyGo g raw).
  { intros p Hp Hpc. destruct (set_cases p Hp) as [(g'&raw'&Hin'&Hcol'&->)|[[Hu _]|[Hu ->]]].
    - rewrite Hpc in Hcol'. by destruct (column_unique _ _ _ _ _ Hin Hin' Hcol Hcol') as [-> ->].
    - rewrite Hpc in Hu. by apply updateNow_insertNow in Hu.
    - cbn in Hpc. rewrite (unarchived_column Hu) in Harch. congruence. }
  assert (Hex : revised keyGo g raw = Keeps \/ exists p, p ∈ sets /\ us_Col p.1 = c).
  { unfold revised. destruct (slotOf raw) as [h [x|op|h' y]] eqn:Hs; [| |left; by destruct h].
    - destruct h; [|by left|].
      + case_bool_decide as Hg; [by left|right]. exists (setNew c). split; [|done]. apply sets_elem. left. exists g, raw, x, c. by rewrite (keyed_slot g raw c Hin Hcol).
      + right. exists (setArg (enc x) c). split; [|done]. apply sets_elem. do 2 right. left. by exists g, raw, x, c.
    - destruct (kindOf s g) as [k|] eqn:Hk; [|left; by destruct h]. destruct h; [|by left|].
      + right. exists (proposedSet (mkClaim c op (isCounter k))). split; [|by destruct op, (isCounter k)]. apply sets_elem. right. left. by exists g, raw, op, k, c.
      + right. exists (conflictSet (mkClaim c op (isCounter k))). split; [|by destruct op, (isCounter k)]. apply sets_elem. do 3 right. left. by exists g, raw, op, k, c. }
  destruct Hex as [Hk|Hex]; [|by apply onConflict_unique]. destruct (List.find (fun p => String.eqb (us_Col p.1) c) sets) as [p|] eqn:Hf.
  - apply List.find_some in Hf as [Hp Hc%String.eqb_eq]. apply onConflict_unique; [exists p; split; [by apply list_elem_of_In|done]|done].
  - rewrite Hk. apply onConflict_keeps. intros p Hp Hpc. apply list_elem_of_In in Hp. pose proof (List.find_none _ _ Hf p Hp) as Hn. cbn in Hn. by apply String.eqb_neq in Hn.
Qed.

(** ** The columns of the framework *)

Lemma no_slot_column c : c = IDColumn s \/ c ∈ insertNowColumns s \/ ArchivedAtColumn (pt_ts s) = Some c -> forall g raw, (g, raw) ∈ v -> columnOfGo g <> Some c.
Proof using ok v_managed. intros Hc g raw Hin Hcol. destruct (ds_managed ok g c (v_managed _ _ Hin) Hcol) as (?&?&?). naive_solver. Qed.

Lemma created_id : valueAt (IDColumn s) row = Some (enc (VID (Some (NewID id)))).
Proof using ok v_keys v_managed Hplan.
  apply valueAt_unique; [apply row_elem; by left|]. intros a [[_ ->]|[(g&raw&Hin&Hcol&_)|[Hn _]]]%row_elem; [done| |].
  - by destruct (no_slot_column (IDColumn s) (or_introl eq_refl) g raw Hin Hcol).
  - by destruct (ds_own ok) as [? _].
Qed.

Lemma created_now c : c ∈ insertNowColumns s -> valueAt c row = Some (enc (timeValue now)).
Proof using ok v_keys v_managed Hplan.
  intros Hc. apply valueAt_unique; [apply row_elem; by right; right|]. intros a [[-> _]|[(g&raw&Hin&Hcol&_)|[_ ->]]]%row_elem; [by destruct (ds_own ok) as [? _]| |done].
  by destruct (no_slot_column c (or_intror (or_introl Hc)) g raw Hin Hcol).
Qed.

Lemma created_archived c : ArchivedAtColumn (pt_ts s) = Some c -> valueAt c row = None.
Proof using ok v_keys v_managed Hplan.
  intros Hc. apply valueAt_none. intros a [[-> _]|[(g&raw&Hin&Hcol&_)|[Hn _]]]%row_elem; [by destruct (ds_own ok) as (_&?&_)| |by destruct (ds_own ok) as (_&_&Ha); destruct (Ha c Hn)].
  by destruct (no_slot_column c (or_intror (or_intror Hc)) g raw Hin Hcol).
Qed.

(** Assignments of a managed column. *)
Lemma managed_sets c p : c = IDColumn s \/ c ∈ insertNowColumns s \/ ArchivedAtColumn (pt_ts s) = Some c -> p ∈ sets -> us_Col p.1 = c ->
  c ∈ updateNowColumns s /\ p = setNew c \/ up_unarchive plan = true /\ c = up_archivedCol plan /\ p = setLit "NULL" c.
Proof using ok v_keys v_managed Hplan keys_given id.
  intros Hc Hp Hpc. destruct (set_cases p Hp) as [(g&raw&Hin&Hcol&_)|[[Hu He]|[Hu ->]]].
  - rewrite Hpc in Hcol. by destruct (no_slot_column c Hc g raw Hin Hcol).
  - left. by rewrite Hpc in Hu, He.
  - right. by rewrite <- Hpc.
Qed.

Lemma revised_id : onConflict row sets (IDColumn s) = Keeps.
Proof using ok v_keys v_managed Hplan keys_given.
  apply onConflict_keeps. intros p Hp Hpc. destruct (ds_own ok) as (H1&H2&_). destruct (managed_sets (IDColumn s) p (or_introl eq_refl) Hp Hpc) as [[Hu _]|(Hu&Hc&_)].
  - by apply updateNow_insertNow in Hu.
  - apply unarchived_column in Hu. by rewrite <- Hc in Hu.
Qed.

Lemma revised_created : ts_createdAt (pt_ts s) <> "" -> onConflict row sets (ts_createdAt (pt_ts s)) = Keeps.
Proof using ok v_keys v_managed Hplan keys_given.
  intros Hne. assert (Hi : ts_createdAt (pt_ts s) ∈ insertNowColumns s).
  { unfold insertNowColumns, nonEmpty. apply String.eqb_neq in Hne. rewrite Hne. by left. }
  apply onConflict_keeps. intros p Hp Hpc. destruct (managed_sets _ p (or_intror (or_introl Hi)) Hp Hpc) as [[Hu _]|(Hu&Hc&_)].
  - unfold updateNowColumns, nonEmpty in Hu. destruct (String.eqb (ts_updatedAt (pt_ts s)) ""); [by apply not_elem_of_nil in Hu|]. apply list_elem_of_singleton in Hu. by apply (ds_times ok).
  - apply unarchived_column in Hu. rewrite <- Hc in Hu. by destruct (ds_own ok) as (_&_&Ha); destruct (Ha _ Hi).
Qed.

Lemma revised_updated c : c ∈ updateNowColumns s -> onConflict row sets c = Takes (enc (timeValue now)).
Proof using ok v_keys v_managed Hplan keys_given.
  intros Hc. pose proof (updateNow_insertNow c Hc) as Hi. apply onConflict_unique.
  - exists (setNew c). split; [|done]. apply sets_elem. do 4 right. left. by exists c.
  - intros p Hp Hpc. destruct (managed_sets c p (or_intror (or_introl Hi)) Hp Hpc) as [[_ ->]|(Hu&Hcc&_)].
    + by rewrite effectOf_new, (created_now c Hi).
    + apply unarchived_column in Hu. rewrite <- Hcc in Hu. by destruct (ds_own ok) as (_&_&Ha); destruct (Ha _ Hi).
Qed.

Lemma revised_archived c : ArchivedAtColumn (pt_ts s) = Some c -> onConflict row sets c = if up_unarchive plan then Literal "NULL" else Keeps.
Proof using ok v_keys v_managed Hplan keys_given.
  intros Hc. assert (Hno : c ∉ updateNowColumns s) by (intros Hu%updateNow_insertNow; by destruct (ds_own ok) as (_&_&Ha); destruct (Ha _ Hu)).
  destruct (up_unarchive plan) eqn:Hu.
  - apply onConflict_unique.
    + exists (setLit "NULL" c). split; [|done]. apply sets_elem. do 5 right. split; [done|]. rewrite (unarchived_column Hu) in Hc. by injection Hc as ->.
    + intros p Hp Hpc. by destruct (managed_sets c p (or_intror (or_intror Hc)) Hp Hpc) as [[? _]|(_&_&->)].
  - apply onConflict_keeps. intros p Hp Hpc. destruct (managed_sets c p (or_intror (or_intror Hc)) Hp Hpc) as [[? _]|(?&_)]; [done|congruence].
Qed.

End Meaning.

(** ** Plans *)

Section Plans.
Context {X : Type} (s : Part X).

Lemma conflictKeys_spec v conflictGo keys : conflictKeys s v conflictGo = Ret keys ->
  (forall c, c ∈ keys <-> exists g, g ∈ conflictGo /\ columnOfGo s g = Some c) /\ forall g, g ∈ conflictGo -> g ∈ v.*1.
Proof.
  revert keys. induction conflictGo as [|g gs IH]; intros keys Hk; cbn in Hk; [injection Hk as <-; split; [set_solver|set_solver]|].
  destruct (Resolve (pt_ts s) g) as [rf|] eqn:Hr; [|done]. destruct (existsb _ v) eqn:He; [|done]. cbn in Hk. apply obind_Ret in Hk as (cols&Hc&[= <-]).
  destruct (IH cols Hc) as [H1 H2]. assert (Hg : columnOfGo s g = Some (rf_Column rf)) by (unfold columnOfGo; by rewrite Hr).
  assert (Hin : g ∈ v.*1). { apply existsb_exists in He as ([g' raw]&Hin&Heq%String.eqb_eq). cbn in Heq. subst g'. apply list_elem_of_fmap. exists (g, raw). split; [done|by apply list_elem_of_In]. }
  split; [|intros g' [->|Hg']%elem_of_cons; [done|by apply H2]]. intros c. rewrite elem_of_cons, H1. split.
  - intros [->|(g'&Hg'&Hc')]; [exists g; by split; [left|]|exists g'; by split; [right|]].
  - intros (g'&[->|Hg']%elem_of_cons&Hc'); [left; congruence|right; by exists g'].
Qed.

Lemma upsertPlanOf_planned v cfg plan :
  upsertPlanOf s v cfg = Ret plan -> (uc_archive cfg = archiveUnarchive -> is_Some (ArchivedAtColumn (pt_ts s))) -> exists c1 c2 c3,
  planned s v (uc_conflictGo cfg) plan c1 c2 c3 /\ (forall g raw, (g, raw) ∈ v -> isManaged g = false /\ ((slotOf raw).1 = scopeBoth \/ g ∉ uc_conflictGo cfg)) /\
  (forall g, g ∈ uc_conflictGo cfg -> g ∈ v.*1) /\ (up_unarchive plan = true <-> uc_archive cfg = archiveUnarchive).
Proof.
  unfold upsertPlanOf. intros H0 Harch. destruct (uc_conflictGo cfg) as [|k0 ks] eqn:Ek; [done|]. destruct (_ && _) eqn:Ea; [done|]. destruct v as [|p0 v0] eqn:Ev; [done|]. rewrite <- Ev in *. rewrite <- Ek in *.
  apply obind_Ret in H0 as (keys&Hk&H0). apply obind_Ret in H0 as (u&Hu&H0).
  apply obind_Ret in H0 as (st1&Hs1&H0). apply obind_Ret in H0 as (st2&Hs2&H0). apply obind_Ret in H0 as (st3&Hs3&[= <-]).
  apply obind_Ret in Hs1 as (c1&Hc1&[= <-]). apply obind_Ret in Hs2 as (c2&Hc2&[= <-]). apply obind_Ret in Hs3 as (c3&Hc3&[= <-]).
  destruct (upsertSlotsOf_eq s _ _ _ _ Hu) as (E1&E2&E3&E4&E5&E6&Hall). destruct (conflictKeys_spec _ _ _ Hk) as [Hkeys Hgiven]. cbn in *.
  exists c1, c2, c3. split; [split; cbn; try done|].
  - by rewrite <- E4.
  - by rewrite <- E5.
  - by rewrite <- E6.
  - intros c. by rewrite elem_of_list_to_set.
  - destruct (ArchivedAtColumn (pt_ts s)) as [col|]; [by left|]. right. split; [done|]. destruct (uc_archive cfg); [done|]. by destruct (Harch eq_refl).
  - split; [|split; [done|by destruct (uc_archive cfg)]]. intros g raw Hin. destruct (Hall g raw Hin) as [[??]|[??]]; (split; [done|]); [by left|by right].
Qed.

End Plans.
