(* ===== verification/DirectClaims.v ===== *)
(** * What a direct write does

    Every verb is one counted statement of one transaction, keyed on the caller's
    condition behind the archive gate; a verb for one row commits one row or nothing; an
    upsert does to each column what its slot says, on both halves. *)

From S2P Require Import Prelude Naming Notification Errors BaseEntity Aggregate Entity Criteria CriteriaSql Dialects CriteriaProps Queries QueriesClaims WriteSchema WriteSql WriteSqlProps Persister Handlers PersisterVerbs PersisterClaims DirectWrite DirectUpsert.
From stdpp Require Import base gmap strings list fin_maps.
From Stdlib Require Import Ascii ZArith Lia.

Open Scope string_scope.
Open Scope list_scope.
Open Scope go_scope.

(** ** Traces of a direct write *)

Section Traces.
Context {V S D W Arg AE X : Type} `{AVOOps V} (w : DirectWriter (V := V) (S := S) (D := D) (W := W) (Arg := Arg) (AE := AE) (X := X)).

Abbreviation Ev := (Event Arg AE).
Abbreviation St := (PWorld W Arg AE * EntityState V S D)%type.
Abbreviation PM A := (GoM St GoErr A).
Abbreviation Stmt := (list Tok * list Arg)%type.

(** The events a computation adds and how it ends. *)
Definition gives {A} (c : PM A) (Q : list Ev -> Outcome GoErr A -> Prop) : Prop :=
  forall s, exists l, pw_trace (c s).1.1 = pw_trace s.1 ++ l /\ Q l (c s).2.

Definition isRead (e : Ev) : Prop := match e with EvQuery _ _ _ _ => True | _ => False end.

Definition failed {A} (r : Outcome GoErr A) : Prop := match r with Ret _ => False | _ => True end.

(** Reads only, and a statement that satisfies [R] when it returns one. *)
Definition builds (c : PM Stmt) (R : Stmt -> Prop) : Prop := gives c (fun l r => Forall isRead l /\ forall st, r = Ret st -> R st).

(** One statement that satisfies [R] in a transaction of its own; its commit follows a
    count that is [ok]. *)
Inductive owned {A} (R : Stmt -> Prop) (ok : Z -> Prop) (val : Z -> A) : list Ev -> Outcome GoErr A -> Prop :=
| owned_begin e r : failed r -> owned R ok val [EvBegin (Some e)] r
| owned_build reads r : Forall isRead reads -> failed r -> owned R ok val (EvBegin None :: reads ++ [EvRollback]) r
| owned_exec reads st e : Forall isRead reads -> R st ->
    owned R ok val (EvBegin None :: reads ++ [EvCount st.1 st.2 (inl e); EvRollback]) (Fail (directErr w e))
| owned_refused reads st n r : Forall isRead reads -> R st -> ~ ok n -> failed r ->
    owned R ok val (EvBegin None :: reads ++ [EvCount st.1 st.2 (inr n); EvRollback]) r
| owned_commit reads st n err : Forall isRead reads -> R st -> ok n ->
    owned R ok val (EvBegin None :: reads ++ [EvCount st.1 st.2 (inr n); EvCommit err; EvRollback])
      (match err with None => Ret (val n) | Some e => Fail (directErr w e) end).

(** The same in the caller's transaction, which stays open. *)
Inductive borrowed {A} (R : Stmt -> Prop) (ok : Z -> Prop) (val : Z -> A) : list Ev -> Outcome GoErr A -> Prop :=
| borrowed_build reads r : Forall isRead reads -> failed r -> borrowed R ok val reads r
| borrowed_exec reads st e : Forall isRead reads -> R st -> borrowed R ok val (reads ++ [EvCount st.1 st.2 (inl e)]) (Fail (directErr w e))
| borrowed_refused reads st n r : Forall isRead reads -> R st -> ~ ok n -> failed r -> borrowed R ok val (reads ++ [EvCount st.1 st.2 (inr n)]) r
| borrowed_done reads st n : Forall isRead reads -> R st -> ok n -> borrowed R ok val (reads ++ [EvCount st.1 st.2 (inr n)]) (Ret (val n)).

Definition wrote {A} (R : Stmt -> Prop) (ok : Z -> Prop) (val : Z -> A) (l : list Ev) (r : Outcome GoErr A) : Prop :=
  if dw_inTx w then borrowed R ok val l r else owned R ok val l r.

(** ** Parts *)

Lemma gives_lift {A} (o : Outcome GoErr A) : gives (liftO o) (fun l r => l = [] /\ r = o).
Proof. intros s. exists []. by rewrite app_nil_r. Qed.

Lemma gives_bind {A B} (c : PM A) (k : A -> PM B) Q1 (Q : list Ev -> Outcome GoErr B -> Prop) :
  gives c Q1 ->
  (forall l e, Q1 l (Fail e) -> Q l (Fail e)) -> (forall l m, Q1 l (Panic m) -> Q l (Panic m)) ->
  (forall l1 a, Q1 l1 (Ret a) -> gives (k a) (fun l2 r => Q (l1 ++ l2) r)) -> gives (gbind c k) Q.
Proof.
  intros Hc Hf Hp Hk s. destruct (Hc s) as (l1&E1&H1). unfold gbind. destruct (c s) as [s1 [a|e|m]]; cbn [fst snd] in *.
  - destruct (Hk l1 a H1 s1) as (l2&E2&H2). exists (l1 ++ l2). by rewrite E2, E1, app_assoc.
  - exists l1. split; [done|]. by apply Hf.
  - exists l1. split; [done|]. by apply Hp.
Qed.

Lemma gives_weaken {A} (c : PM A) (Q1 Q2 : list Ev -> Outcome GoErr A -> Prop) : gives c Q1 -> (forall l r, Q1 l r -> Q2 l r) -> gives c Q2.
Proof. intros Hc HQ s. destruct (Hc s) as (l&E&H1). exists l. split; [done|]. by apply HQ. Qed.

(** A refusal before anything is called. *)
Lemma gives_lifted {A B} (o : Outcome GoErr A) (k : A -> PM B) (Q : list Ev -> Outcome GoErr B -> Prop) :
  (forall r, failed r -> Q [] r) -> (forall a, o = Ret a -> gives (k a) Q) -> gives (gbind (liftO o) k) Q.
Proof.
  intros Hf Hk. eapply gives_bind; [apply gives_lift|by intros l e [-> _]; apply Hf|by intros l m [-> _]; apply Hf|]. intros l a [-> E]. by apply (Hk a (eq_sym E)).
Qed.

Lemma now_reads : gives (now_ (dw_env w)) (fun l _ => Forall isRead l).
Proof.
  unfold now_. destruct (negb _).
  - intros s. unfold gbind, silent. destruct (bk_clock _ _) as [x t]. exists []. cbn. by rewrite app_nil_r.
  - intros s. unfold query, liftO, call, gbind. cbn. destruct (bk_Query _ _ _ _) as [x res].
    eexists [_]. cbn. destruct res as [e| |[[e|[|[|n|t|c|c|] cells]]|] [e'|]]; cbn; repeat case_match; cbn; (split; [done|by repeat constructor]).
Qed.

Lemma builds_now (k : Z -> Outcome GoErr Stmt) (R : Stmt -> Prop) :
  (forall now st, k now = Ret st -> R st) -> builds (now <- now_ (dw_env w);; liftO (k now)) R.
Proof.
  intros Hk. eapply gives_bind; [apply now_reads|done|done|]. intros l now Hl s. exists []. rewrite app_nil_r. split; [done|].
  split; [by rewrite app_nil_r|]. intros st Hst. exact (Hk now st Hst).
Qed.

Lemma builds_lifted {A} (o : Outcome GoErr A) (k : A -> PM Stmt) R : (forall a, o = Ret a -> builds (k a) R) -> builds (gbind (liftO o) k) R.
Proof. intros Hk. apply gives_lifted; [|exact Hk]. intros r Hr. split; [done|]. intros st ->. destruct Hr. Qed.

Lemma builds_pure (o : Outcome GoErr Stmt) (R : Stmt -> Prop) : (forall st, o = Ret st -> R st) -> builds (liftO o) R.
Proof. intros Ho s. exists []. rewrite app_nil_r. split; [done|]. split; [done|]. intros st E. by apply Ho. Qed.

(** The statement and what follows its count, inside a transaction that is open. *)
Lemma counted {A} (build : PM Stmt) (k : Z -> PM A) R (Q : list Ev -> Outcome GoErr A -> Prop) :
  builds build R ->
  (forall reads r, Forall isRead reads -> failed r -> Q reads r) ->
  (forall reads st e, Forall isRead reads -> R st -> Q (reads ++ [EvCount st.1 st.2 (inl e)]) (Fail (directErr w e))) ->
  (forall reads st n, Forall isRead reads -> R st -> gives (k n) (fun l r => Q (reads ++ EvCount st.1 st.2 (inr n) :: l) r)) ->
  gives (st <- build;; n <- execCount w st;; k n) Q.
Proof.
  intros Hb Hf He Hk. eapply gives_bind; [exact Hb|by intros l e [? _]; apply Hf|by intros l m [? _]; apply Hf|]. intros reads st [Hr HR].
  specialize (HR st eq_refl). intros s. unfold execCount, gbind, call. cbn. destruct (bk_ExecCount _ _ _ _) as [x [e|n]]; cbn.
  - eexists [_]. split; [done|]. by apply He.
  - destruct (Hk reads st n Hr HR (mkPWorld x (pw_trace s.1 ++ [EvCount st.1 st.2 (inr n)]), s.2)) as (l&E&HQ). cbn in E. unfold gret.
    exists (EvCount st.1 st.2 (inr n) :: l). split; [by rewrite E, <- app_assoc|done].
Qed.

Lemma commit_gives (Q : list Ev -> Outcome GoErr unit -> Prop) :
  (forall err, Q [EvCommit err] (match err with None => Ret tt | Some e => Fail (directErr w e) end)) -> gives (commitMapped w) Q.
Proof. intros HQ s. unfold commitMapped, gbind, call. cbn. destruct (bk_Commit _ _) as [x err]. specialize (HQ err). destruct err; eexists [_]; by split. Qed.

(** The transaction around a body: its deferred rollback comes last. *)
Lemma inTx_gives {A} (body : PM A) (Q : list Ev -> Outcome GoErr A -> Prop) :
  (forall e r, failed r -> Q [EvBegin (Some e)] r) -> gives body (fun l r => Q (EvBegin None :: l ++ [EvRollback]) r) -> gives (inTx (dw_env w) body) Q.
Proof.
  intros Hb Hbody s. unfold inTx, gbind, call. cbn. destruct (bk_Begin _ _) as [x [e|]]; cbn; [by eexists [_]; split; [|apply Hb]|]. unfold gdefer, gret.
  destruct (Hbody (mkPWorld x (pw_trace s.1 ++ [EvBegin None]), s.2)) as (l&E&HQ). destruct (body _) as [s' r]. cbn in *.
  exists (EvBegin None :: l ++ [EvRollback]). split; [|done]. by rewrite E, <- !app_assoc.
Qed.

Lemma run_wrote build R : builds build R -> gives (directRun w build) (wrote R (fun _ => True) id).
Proof.
  intros Hb. unfold directRun, wrote. destruct (dw_inTx w).
  - apply counted with R; [done| | |].
    + intros. by apply borrowed_build.
    + intros. by apply borrowed_exec.
    + intros reads st n Hr HR s. exists []. rewrite app_nil_r. split; [done|]. by apply (borrowed_done R (fun _ => True) id).
  - apply inTx_gives; [by intros; apply owned_begin|]. apply counted with R; [done| | |].
    + intros. by apply owned_build.
    + intros. rewrite <- app_assoc. by apply owned_exec.
    + intros reads st n Hr HR. eapply gives_bind; [apply (commit_gives (fun l r => exists err, l = [EvCommit err] /\ r = match err with None => Ret tt | Some e => Fail (directErr w e) end)); by eexists| | |].
      * intros l e ([e'|]&->&[= ->]). rewrite <- app_assoc. by apply (owned_commit R (fun _ => True) id reads st n (Some e')).
      * by intros l m ([e'|]&->&?).
      * intros l [] ([e'|]&->&?); [done|]. intros s. exists []. rewrite !app_nil_r. split; [done|]. rewrite <- app_assoc. by apply (owned_commit R (fun _ => True) id reads st n None).
Qed.

Definition oneRow (n : Z) : Prop := n <> 0%Z /\ (n <= 1)%Z.

Lemma outcome_gives verb n (Q : list Ev -> Outcome GoErr unit -> Prop) :
  (oneRow n -> Q [] (Ret tt)) -> (forall r, ~ oneRow n -> failed r -> Q [] r) -> gives (outcome w verb n) Q.
Proof.
  intros H1 H2 s. exists []. rewrite app_nil_r. unfold outcome, oneRow in *. destruct (Z.eqb_spec n 0); [|destruct (Z.ltb_spec 1 n)]; cbn; (split; [done|]);
    [apply H2; [lia|done]..|apply H1; lia].
Qed.

Lemma one_wrote build R verb : builds build R -> gives (runExpectingOne w build verb) (wrote R oneRow (fun _ => tt)).
Proof.
  intros Hb. unfold runExpectingOne, wrote. destruct (dw_inTx w).
  - apply counted with R; [done|by intros; apply borrowed_build|by intros; apply borrowed_exec|].
    intros reads st n Hr HR. apply outcome_gives; [intros Hn; by apply (borrowed_done R oneRow (fun _ => tt))|intros r Hn Hf; by apply borrowed_refused].
  - apply inTx_gives; [by intros; apply owned_begin|]. apply counted with R; [done|by intros; apply owned_build|intros; rewrite <- app_assoc; by apply owned_exec|].
    intros reads st n Hr HR.
    eapply gives_bind; [apply (outcome_gives verb n (fun l r => l = [] /\ (oneRow n /\ r = Ret tt \/ ~ oneRow n /\ failed r))); naive_solver| | |].
    + intros l e [-> [[_ ?]|[Hn _]]]; [done|]. rewrite <- app_assoc. by apply owned_refused.
    + intros l m [-> [[_ ?]|[Hn _]]]; [done|]. rewrite <- app_assoc. by apply owned_refused.
    + intros l [] [-> [[Hn _]|[_ []]]]. apply commit_gives. intros err. rewrite <- app_assoc. by apply (owned_commit R oneRow (fun _ => tt) reads st n err).
Qed.

(** ** What a run leaves *)

Definition counts (l : list Ev) : list Stmt := omap (fun e => match e with EvCount sql args _ => Some (sql, args) | _ => None end) l.

(** Nothing but reads, counted statements and the ends of a transaction. *)
Definition plain (e : Ev) : Prop := match e with EvExec _ _ _ _ | EvEcho _ | EvPublish _ => False | _ => True end.

Lemma counts_reads l : Forall isRead l -> counts l = [] /\ Forall plain l.
Proof. induction 1 as [|e l He _ [IH1 IH2]]; [done|]. destruct e; try done. split; [done|]. by constructor. Qed.

Lemma counts_app l1 l2 : counts (l1 ++ l2) = counts l1 ++ counts l2.
Proof. apply omap_app. Qed.

Definition simple {A} (R : Stmt -> Prop) (l : list Ev) (r : Outcome GoErr A) : Prop :=
  Forall plain l /\ (length (counts l) <= 1)%nat /\ Forall R (counts l) /\ (failed r \/ length (counts l) = 1%nat).

Lemma simple_none {A} R l (r : Outcome GoErr A) : Forall plain l -> counts l = [] -> failed r -> simple R l r.
Proof. intros Hp Hc Hf. unfold simple. rewrite Hc. cbn. auto. Qed.

Lemma simple_one {A} (R : Stmt -> Prop) pre reads st res tail (r : Outcome GoErr A) :
  Forall plain pre /\ counts pre = [] -> Forall isRead reads -> Forall plain tail /\ counts tail = [] -> R st ->
  simple R (pre ++ reads ++ EvCount st.1 st.2 res :: tail) r.
Proof.
  intros [Hp Hpc] [Hrc Hr]%counts_reads [Ht Htc] HR. unfold simple. rewrite !counts_app, Hpc, Hrc. cbn. fold (counts tail). rewrite Htc. cbn.
  rewrite !Forall_app, Forall_cons, Forall_singleton. destruct st as [sql args]. split; [done|]. split; [done|]. split; [done|]. by right.
Qed.

Lemma wrote_simple {A} R ok (val : Z -> A) l r : wrote R ok val l r -> simple R l r.
Proof.
  unfold wrote. destruct (dw_inTx w); intros Hw; destruct Hw.
  - destruct (counts_reads reads) as [??]; [done|]. by apply simple_none.
  - by apply (simple_one R [] reads st (inl e) []).
  - by apply (simple_one R [] reads st (inr n) []).
  - by apply (simple_one R [] reads st (inr n) []).
  - apply simple_none; [by constructor|done|done].
  - destruct (counts_reads reads) as [Hc ?]; [done|]. apply simple_none; [constructor; [done|by apply Forall_app; repeat constructor]| |done].
    change (counts (EvBegin None :: reads ++ [EvRollback])) with (counts (reads ++ [EvRollback])). by rewrite counts_app, Hc.
  - apply (simple_one R [EvBegin None] reads st (inl e) [EvRollback]); try done; by repeat constructor.
  - apply (simple_one R [EvBegin None] reads st (inr n) [EvRollback]); try done; by repeat constructor.
  - apply (simple_one R [EvBegin None] reads st (inr n) [EvCommit err; EvRollback]); try done; by repeat constructor.
Qed.

(** ** Keyed statements *)

Definition scopeOf (q : option CriteriaQuery) : Scope := match q with Some q => q_Scope q | None => ScopeActive end.

(** The statement ends with the condition of [q] compiled behind the gate of [scope]. *)
Definition keyedOn (q : option CriteriaQuery) (scope : Scope) (st : Stmt) : Prop :=
  exists cond head where_ base args,
    q ≫= q_Condition = Some cond /\ st.1 = head ++ TKw " WHERE " :: where_ /\
    CompileWhereForWrite (wd_d (env_dialect (dw_env w))) (env_isUUID (dw_env w)) (Some (gated (dw_schema w) cond scope))
      (Resolve (pt_ts (dw_schema w))) (Some (IDKindOf (pt_ts (dw_schema w)))) base (Table (dw_schema w)) = Ret (where_, args).

Lemma predicate_Ret q pred : directPredicate (dw_schema w) q = Ret pred -> exists cond, q ≫= q_Condition = Some cond /\ pred = gated (dw_schema w) cond (scopeOf q).
Proof. unfold directPredicate. destruct (q ≫= q_Condition) as [cond|]; [|done]. intros [= <-]. by exists cond. Qed.

Lemma compiled_where cond scope base wh :
  compilePredicate (env_dialect (dw_env w)) (env_isUUID (dw_env w)) (schemaTarget (dw_schema w)) (Some (gated (dw_schema w) cond scope)) base = Ret wh ->
  CompileWhereForWrite (wd_d (env_dialect (dw_env w))) (env_isUUID (dw_env w)) (Some (gated (dw_schema w) cond scope))
      (Resolve (pt_ts (dw_schema w))) (Some (IDKindOf (pt_ts (dw_schema w)))) base (Table (dw_schema w)) = Ret wh.
Proof. apply liftCrit_Ret. Qed.

Lemma update_keyed q cond scope fields plan now st :
  q ≫= q_Condition = Some cond ->
  buildUpdatePlan (env_dialect (dw_env w)) (env_isUUID (dw_env w)) (schemaTarget (dw_schema w)) (Some (gated (dw_schema w) cond scope)) fields plan now "" 0 = Ret st ->
  keyedOn q scope st.
Proof.
  intros Hq H0. unfold buildUpdatePlan in H0. apply obind_Ret in H0 as (sets&_&H0). apply obind_Ret in H0 as ([wh wargs]&Hw&H0). apply compiled_where in Hw.
  cbn in H0. apply obind_Ret in H0 as (sql&Hs&[= <-]). unfold updateText in Hs. apply obind_Ret in Hs as (t&_&[= <-]).
  exists cond, (TKw "UPDATE " :: t ++ TKw " SET " :: sets.1), wh, (length sets.2), wargs. split; [done|]. split; [|done]. cbn. by rewrite <- app_assoc.
Qed.

Lemma delete_keyed q cond scope st :
  q ≫= q_Condition = Some cond ->
  deleteSQL (env_dialect (dw_env w)) (env_isUUID (dw_env w)) (schemaTarget (dw_schema w)) (Some (gated (dw_schema w) cond scope)) = Ret st -> keyedOn q scope st.
Proof.
  intros Hq H0. unfold deleteSQL in H0. apply obind_Ret in H0 as ([wh wargs]&Hw&H0). apply compiled_where in Hw. apply obind_Ret in H0 as (t&_&[= <-]).
  by exists cond, (TKw "DELETE FROM " :: t), wh, 0%nat, wargs.
Qed.

Lemma updateStmt_builds v q : builds (updateStmt w v q) (keyedOn q (scopeOf q)).
Proof.
  unfold updateStmt. apply builds_lifted. intros r _. apply builds_lifted. intros pred Hp. apply builds_now. intros now st Hst.
  apply predicate_Ret in Hp as (cond&Hq&->). by eapply update_keyed.
Qed.

Lemma deleteStmt_builds q : builds (deleteStmt w q) (keyedOn q (scopeOf q)).
Proof.
  unfold deleteStmt. apply builds_lifted. intros pred Hp. apply builds_pure. intros st Hst. apply predicate_Ret in Hp as (cond&Hq&->). by eapply delete_keyed.
Qed.

Lemma transition_gives q archive : gives (transition w q archive) (simple (keyedOn q (if archive then ScopeActive else ScopeOnlyArchived))).
Proof.
  unfold transition. apply gives_lifted; [by intros r Hr; apply simple_none|]. intros col _. destruct (q ≫= q_Condition) as [cond|] eqn:Hq.
  2: { intros s. exists []. rewrite app_nil_r. split; [done|]. by apply simple_none. }
  destruct (match q with Some q => q_Scope q | None => ScopeActive end); [|intros s; exists []; rewrite app_nil_r; (split; [done|]); by apply simple_none..].
  eapply gives_weaken; [apply run_wrote|intros l r; apply wrote_simple]. apply builds_now. intros now st Hst. by eapply update_keyed.
Qed.

Lemma resolve_archived (ts : TableSchema) col : ArchivedAtColumn ts = Some col -> ColumnOf ts "ArchivedAt" = None ->
  Resolve ts "ArchivedAt" = Some (mkResolved col (Some (ts_table ts)) OwnerAnchor "").
Proof. unfold ArchivedAtColumn, Resolve. intros Hc ->. cbn. by rewrite Hc. Qed.

(** The gate is the last conjunct of the whole condition. *)
Lemma keyed_gate `{!WriteDialectLaws (env_dialect (dw_env w))} q st col :
  keyedOn q ScopeActive st -> ArchivedAtColumn (pt_ts (dw_schema w)) = Some col -> ColumnOf (pt_ts (dw_schema w)) "ArchivedAt" = None ->
  exists head p c, st.1 = head ++ TKw " WHERE " :: TOpen :: p ++ [TAnd; TIdent c; TKw " IS NULL"; TClose] /\
    d_QuoteIdent (wd_d (env_dialect (dw_env w))) col = Some c /\ scan 0 p = Some 0%nat.
Proof.
  intros (cond&head&wh&base&args&Hq&Hst&Hw) Hcol Hno. unfold gated in Hw. rewrite Hcol in Hw. cbn in Hw.
  apply obind_Ret in Hw as ([ts a]&Hj&[= <- <-]). apply obind_Ret in Hj as ([p a1]&Hp&Hj). apply obind_Ret in Hj as ([g a2]&Hg&[= <- <-]).
  apply visit_good in Hp; [|apply _|by apply rootScope_ok; left]. destruct Hp as [_ Hb _]. apply obind_Ret in Hg as (x&Hv&[= <- <-]).
  unfold VisitComparison in Hv. apply obind_Ret in Hv as (c&Hc&[= <-]). unfold column in Hc. cbn in Hc. rewrite (resolve_archived _ _ Hcol Hno) in Hc. cbn in Hc.
  unfold QualifyCol, quote in Hc. cbn in Hc. destruct (d_QuoteIdent _ col) as [qc|] eqn:Eq; [|done]. injection Hc as <-.
  exists head, p, qc. split; [|done]. rewrite Hst. cbn. by rewrite <- app_assoc.
Qed.

(** ** One row or nothing *)

Definition countedOne (l : list Ev) : Prop := exists sql args n, EvCount sql args (inr n) ∈ l /\ oneRow n.

Definition onlyOne (l : list Ev) (r : Outcome GoErr unit) : Prop :=
  (forall err, EvCommit err ∈ l -> countedOne l) /\ (r = Ret tt -> countedOne l /\ (dw_inTx w = false -> EvCommit None ∈ l)).

Lemma reads_no_commit reads err : Forall isRead reads -> EvCommit err ∉ reads.
Proof. intros Hr Hin. by apply (proj1 (Forall_forall _ _) Hr) in Hin. Qed.

Lemma counted_here pre sql args n tail : oneRow n -> countedOne (pre ++ EvCount sql args (inr n) :: tail).
Proof. intros Hn. exists sql, args, n. split; [|done]. apply elem_of_app. right. by left. Qed.

Lemma wrote_one R l r : wrote R oneRow (fun _ => tt) l r -> onlyOne l r.
Proof.
  unfold wrote, onlyOne. destruct (dw_inTx w); intros Hw.
  - destruct Hw as [reads r Hr Hf|reads st e Hr HR|reads st n r Hr HR Hn Hf|reads st n Hr HR Hn]; (split; [intros err; pose proof (reads_no_commit reads err Hr); set_solver|]);
      [by intros ->|done|by intros ->|]. intros _. split; [by apply counted_here|done].
  - destruct Hw as [e r Hf|reads r Hr Hf|reads st e Hr HR|reads st n r Hr HR Hn Hf|reads st n err Hr HR Hn].
    + split; [intros err; set_solver|by intros ->].
    + split; [intros err; pose proof (reads_no_commit reads err Hr); set_solver|by intros ->].
    + split; [intros err; pose proof (reads_no_commit reads err Hr); set_solver|done].
    + split; [intros err; pose proof (reads_no_commit reads err Hr); set_solver|by intros ->].
    + split; [intros; by apply (counted_here (EvBegin None :: reads))|]. destruct err; [done|]. intros _.
      split; [by apply (counted_here (EvBegin None :: reads))|]. intros _. set_solver.
Qed.

(** C20: a direct write over a condition is one counted statement and nothing else: no
    outbox row, no audit, no event; the statement is keyed on the caller's condition
    behind the archive gate of its scope, so that without a condition nothing is issued,
    and the gate is a conjunct of the whole clause; and a verb for one row commits, or
    returns in the caller's transaction, only when exactly one row was counted. *)
Theorem direct_write_is_one_gated_statement `{!WriteDialectLaws (env_dialect (dw_env w))} v q :
  let keyed := keyedOn q (scopeOf q) in
  gives (DirectUpdate w v q) (simple keyed) /\ gives (DirectDelete w q) (simple keyed) /\
  gives (DirectUpdateOne w v q) (fun l r => simple keyed l r /\ onlyOne l r) /\ gives (DirectDeleteOne w q) (fun l r => simple keyed l r /\ onlyOne l r) /\
  gives (DirectArchive w q) (simple (keyedOn q ScopeActive)) /\ gives (DirectUnarchive w q) (simple (keyedOn q ScopeOnlyArchived)) /\
  (forall st col, keyedOn q ScopeActive st -> ArchivedAtColumn (pt_ts (dw_schema w)) = Some col -> ColumnOf (pt_ts (dw_schema w)) "ArchivedAt" = None ->
   exists head p c, st.1 = head ++ TKw " WHERE " :: TOpen :: p ++ [TAnd; TIdent c; TKw " IS NULL"; TClose] /\
     d_QuoteIdent (wd_d (env_dialect (dw_env w))) col = Some c /\ scan 0 p = Some 0%nat).
Proof.
  intros keyed. assert (Hrun : forall b, builds b keyed -> gives (directRun w b) (simple keyed)).
  { intros b Hb. eapply gives_weaken; [by apply run_wrote|]. intros l r. apply wrote_simple. }
  assert (Hone : forall b verb, builds b keyed -> gives (runExpectingOne w b verb) (fun l r => simple keyed l r /\ onlyOne l r)).
  { intros b verb Hb. eapply gives_weaken; [by apply one_wrote|]. intros l r Hw. split; [by eapply wrote_simple|by eapply wrote_one]. }
  split; [apply Hrun, updateStmt_builds|]. split; [apply Hrun, deleteStmt_builds|]. split; [apply Hone, updateStmt_builds|]. split; [apply Hone, deleteStmt_builds|].
  split; [apply (transition_gives q true)|]. split; [apply (transition_gives q false)|]. intros st col. by apply keyed_gate.
Qed.

End Traces.

(** C21: an upsert does to each column what its slot says.  With the schema's columns
    apart and keys bound to plain values, the row it creates and the row it finds get,
    for a plain value, that value (the key: only on creation); for [OnInsert], the value
    or stamp on creation and nothing afterwards; for [OnUpdate], the reverse; for a
    stamp, the instant, the count, the absence or the zero, a counter of the row found
    being incremented.  The identity and the creation instant are never revised, the
    update instant always is, and the archive column only when unarchiving is asked. *)
Theorem upsert_means_its_slots {X Arg} (s : Part X) (w : WriteDialect Arg) v cfg plan id now :
  directSchema s -> NoDup v.*1 -> (uc_archive cfg = archiveUnarchive -> is_Some (ArchivedAtColumn (pt_ts s))) ->
  (forall g raw, g ∈ uc_conflictGo cfg -> (g, raw) ∈ v -> exists x, raw = DBind x) -> upsertPlanOf s v cfg = Ret plan ->
  let row := proposedRow s w plan id now in
  let sets := conflictSets s w plan now in
  (forall g raw c, (g, raw) ∈ v -> columnOfGo s g = Some c ->
     valueAt c row = created s w now g raw /\ onConflict row sets c = revised s w now (uc_conflictGo cfg) g raw) /\
  valueAt (IDColumn s) row = Some (d_EncodeArg (wd_d w) (VID (Some (NewID id)))) /\ onConflict row sets (IDColumn s) = Keeps /\
  (forall c, c ∈ insertNowColumns s -> valueAt c row = Some (d_EncodeArg (wd_d w) (timeValue now))) /\
  (ts_createdAt (pt_ts s) <> "" -> onConflict row sets (ts_createdAt (pt_ts s)) = Keeps) /\
  (forall c, c ∈ updateNowColumns s -> onConflict row sets c = Takes (d_EncodeArg (wd_d w) (timeValue now))) /\
  (forall c, ArchivedAtColumn (pt_ts s) = Some c ->
     valueAt c row = None /\ onConflict row sets c = match uc_archive cfg with archiveUnarchive => Literal "NULL" | archiveKeep => Keeps end).
Proof.
  intros Hok Hnd Harch Hkeys Hplan row sets. destruct (upsertPlanOf_planned s v cfg plan Hplan Harch) as (c1&c2&c3&Hp&Hall&Hgiven&Hun).
  assert (Hm : forall g raw, (g, raw) ∈ v -> isManaged g = false) by (intros g raw Hin; by apply (Hall g raw)).
  assert (Hb : forall g raw, g ∈ uc_conflictGo cfg -> (g, raw) ∈ v -> exists x, slotOf raw = (scopeBoth, DBind x)) by (intros g raw Hg Hin; destruct (Hkeys g raw Hg Hin) as [x ->]; by exists x).
  split; [intros g raw c Hin Hc; split; [by eapply created_slot|by eapply revised_slot]|]. split; [by eapply created_id|]. split; [by eapply revised_id|].
  split; [intros c Hc; by eapply created_now|]. split; [intros Hc; by eapply revised_created|]. split; [intros c Hc; by eapply revised_updated|].
  intros c Hc. split; [by eapply created_archived|]. unfold row, sets. erewrite revised_archived by done. destruct (uc_archive cfg), (up_unarchive plan); try done; naive_solver.
Qed.

(** ** A shop *)

Module ShopDirect.

Import ShopWrites.

Definition writer (rows : Z) : DirectWriter := mkDirectWriter (envOn rows) orders "Order" ∅ false.

Definition open : option CriteriaQuery := Some (mkCriteriaQuery (Some (Build.Eq "Status" (VString "open"))) ScopeActive).

Definition state : PWorld nat SqlArg string * EntityState Line unit Order := start (order [] []).

Definition closing : DirectValues := [("Status", DBind (VString "closed"))].

(** One row is closed; two rows are left as they were. *)
Lemma shop_one_row : texts (pw_trace (DirectUpdateOne (writer 1) closing open state).1.1) =
  ["BEGIN"; "UPDATE orders SET status = $1, updated_at = $2 WHERE (status = $3 AND archived_at IS NULL)"; "COMMIT"; "ROLLBACK"].
Proof. vm_compute. reflexivity. Qed.

Lemma shop_two_rows : texts (pw_trace (DirectUpdateOne (writer 2) closing open state).1.1) =
  ["BEGIN"; "UPDATE orders SET status = $1, updated_at = $2 WHERE (status = $3 AND archived_at IS NULL)"; "ROLLBACK"].
Proof. vm_compute. reflexivity. Qed.

Lemma direct_write_is_one_gated_statement_witness : gives (DirectUpdateOne (writer 1) closing open)
  (fun l r => simple (keyedOn (writer 1) open ScopeActive) l r /\ onlyOne (writer 1) l r).
Proof. apply (direct_write_is_one_gated_statement (writer 1) closing open). Defined.

(** The columns of the shop's orders. *)
Lemma orders_columns g c : isManaged g = false -> columnOfGo orders g = Some c -> g = "Status" /\ c = "status" \/ g = "ApprovedAt" /\ c = "approved_at".
Proof.
  unfold isManaged, columnOfGo. intros Hm%bool_decide_eq_false Hc. unfold Resolve in Hc. unfold ColumnOf, columnIn in Hc. cbn [orders pt_ts ts_idGo ts_byGo ts_idColumn] in Hc.
  destruct (String.eqb_spec g "ID") as [->|H1]; [destruct Hm; by left|]. destruct ((({["Status" := plain "status"; "ApprovedAt" := plain "approved_at"]} : gmap string schemaField)) !! g) as [f|] eqn:Hl.
  - cbn in Hc. injection Hc as <-. apply lookup_insert_Some in Hl as [[<- <-]|[_ Hl]]; [by left|]. apply lookup_singleton_Some in Hl as [<- <-]. by right.
  - exfalso. cbn in Hc. destruct (String.eqb_spec g "CreatedAt") as [->|H2]; [destruct Hm; set_solver|]. destruct (String.eqb_spec g "UpdatedAt") as [->|H3]; [destruct Hm; set_solver|].
    destruct (String.eqb_spec g "ArchivedAt") as [->|H4]; [destruct Hm; set_solver|]. by destruct (String.eqb g "ParentID").
Qed.

Lemma orders_direct : directSchema orders.
Proof.
  assert (Hno : forall c, c ∉ ["created_at"; "updated_at"] -> c ∉ insertNowColumns orders) by done. split.
  - cbn. repeat constructor; set_solver.
  - intros f Hf. apply list_elem_of_In in Hf. destruct Hf as [<-|[<-|[]]]; reflexivity.
  - intros g g' c Hg Hg' [[-> ->]|[-> ->]]%orders_columns [[-> ?]|[-> ?]]%orders_columns; done.
  - intros g c Hg Hc. destruct (orders_columns g c Hg Hc) as [[-> ->]|[-> ->]]; (split; [done|]); (split; [|done]); apply Hno; set_solver.
  - split; [apply Hno; cbn; set_solver|]. split; [done|]. intros c Hc. apply list_elem_of_In in Hc. by destruct Hc as [<-|[<-|[]]].
  - done.
Qed.

(** An order found is approved now; one created is not. *)
Definition arrival : DirectValues := [("Status", DBind (VString "open")); ("ApprovedAt", OnUpdate StampMarker)].

Definition byStatus : upsertConfig := KeepArchiveStateOnConflict (OnConflict ["Status"] noUpsertConfig).

Definition arrivalPlan : upsertPlan := match upsertPlanOf orders arrival byStatus with Ret p => p | _ => mkUpsertPlan ∅ ∅ ∅ (planOf []) (planOf []) (planOf []) [] ∅ false "" end.

Lemma upsert_means_its_slots_witness :
  let row := proposedRow orders (env_dialect env) arrivalPlan "o9" 5000 in
  let sets := conflictSets orders (env_dialect env) arrivalPlan 5000 in
  valueAt "approved_at" row = None /\ onConflict row sets "approved_at" = Takes (d_EncodeArg (wd_d (env_dialect env)) (timeValue 5000)) /\
  valueAt "status" row = Some (d_EncodeArg (wd_d (env_dialect env)) (VString "open")) /\ onConflict row sets "status" = Keeps.
Proof.
  intros row sets. destruct (upsert_means_its_slots orders (env_dialect env) arrival byStatus arrivalPlan "o9" 5000 orders_direct) as [Hslots _].
  - cbn. repeat constructor; set_solver.
  - done.
  - intros g raw Hg Hin. apply list_elem_of_singleton in Hg as ->. apply list_elem_of_In in Hin. destruct Hin as [[= <-]|[[=]|[]]]. by eexists.
  - vm_compute. reflexivity.
  - destruct (Hslots "ApprovedAt" (OnUpdate StampMarker) "approved_at") as [H1 H2]; [right; by left|reflexivity|].
    destruct (Hslots "Status" (DBind (VString "open")) "status") as [H3 H4]; [by left|reflexivity|].
    split; [exact H1|]. split; [exact H2|]. split; [exact H3|exact H4].
Defined.

(** ** What the plan lets through *)

(** A stamp asked of a key passes the checks, and the conflict clause then assigns the
    column the row was matched on. *)
Theorem stamped_key_is_reassigned :
  match upsertPlanOf orders [("ApprovedAt", StampMarker)] (KeepArchiveStateOnConflict (OnConflict ["ApprovedAt"] noUpsertConfig)) with
  | Ret plan => up_keyCols plan = ["approved_at"] /\ us_Col <$> (conflictSets orders (env_dialect env) plan 5000).*1 = ["approved_at"; "updated_at"]
  | _ => False
  end.
Proof. vm_compute. split; reflexivity. Qed.

(** Unarchiving on a table without an archive column is accepted, and the statement then
    names an empty column: the write panics inside its transaction. *)
Theorem unarchive_without_a_column_panics :
  let flags := mkPart (X := Order) (mkTableSchema "flags" true false "ID" "id" "" {[ "Status" := plain "status" ]} "" "" "" [] None)
                 [mkField "Status" "status" None (fun o => FieldFound (VString (or_status o))) (fun _ o => o) None] "" in
  let w := mkDirectWriter (envOn 1) flags "Flag" ∅ false in
  let '(s', r) := DirectUpsert w closing [Some (OnConflict ["Status"]); Some UnarchiveOnConflict] state in
  r = Panic "infra: invalid SQL identifier" /\ texts (pw_trace s'.1) = ["BEGIN"; "ROLLBACK"].
Proof. vm_compute. split; reflexivity. Qed.

End ShopDirect.
