(* ===== verification/Hydrate.v ===== *)
(** * Hydration

    [infra/db/hydrate]: an aggregate read out of the relational store as a document,
    one query per related table for one root ([merge.go]) and one query per related
    table for a batch of roots ([batch.go]).

    A schema is what hydration reads of it ([Source], [Owner], [RootSource]).  The
    database is the query function of [Engine]: the reads of one composition see one
    state of it.  A [[]Document] is a reference: [Heap] holds, for each fetch that made
    arrays, its groups, and an array is a fetch and the key of its group.  The rows in an
    array are reachable through it alone. *)

From S2P Require Import Prelude Naming Errors BaseEntity Criteria CriteriaSql Mongo.
From stdpp Require Import base gmap strings list fin_maps.
From Stdlib Require Import ZArith Lia.

Open Scope string_scope.
Open Scope list_scope.
Open Scope go_scope.

(** ** Schemas *)

(** The columns of a table: [so_fields] are those of the declared fields, [so_bools] the
    ones whose Go type is a bool, [so_redact] the active InSync redactors in the order
    of the fields.  An undeclared column is "". *)
Record Source := mkSource {
  so_table : string;
  so_idColumn : string;
  so_fields : list string;
  so_baseLink : string;
  so_parentID : string;
  so_createdAt : string;
  so_updatedAt : string;
  so_archivedAt : string;
  so_revision : string;
  so_bools : list string;
  so_redact : list (string * (MVal -> MVal));
  so_segment : string
}.

(** A table with its siblings: a root, a role or a child. *)
Record Owner := mkOwner { ow_source : Source; ow_siblings : list Source }.

(** [bs_children] are the base's [ChildSchemas]. *)
Record BaseSource := mkBaseSource { bs_source : Source; bs_children : list Source }.

(** [rt_children] are the [ChildSchemas]; the link of [rt_base] is [so_baseLink]. *)
Record RootSource := mkRootSource { rt_owner : Owner; rt_children : list Owner; rt_base : option BaseSource }.

Definition rt_source (s : RootSource) : Source := ow_source (rt_owner s).

Definition SchemaPK : Source -> string := so_idColumn.

(** [SchemaArchivedAt]: "" when not declared. *)
Definition SchemaArchivedAt (s : Source) : string := so_archivedAt s.

(** Appended unless there. *)
Definition addNew (l : list string) (c : string) : list string := if bool_decide (c ∈ l) then l else l ++ [c].

Definition ReadColumns (s : Source) : list string :=
  foldl (fun cols c => if String.eqb c "" then cols else addNew cols c) []
    (so_idColumn s :: so_fields s ++ [so_baseLink s; so_parentID s; so_createdAt s; so_updatedAt s; so_archivedAt s; so_revision s]).

Definition readColsWithKey (s : Source) (keyCol : string) : list string :=
  if String.eqb keyCol "" then ReadColumns s else addNew (ReadColumns s) keyCol.

(** ** Rows *)

(** [CoerceTypes]: a scanned 0 or 1 of a bool column. *)
Definition CoerceTypes (row : Document) (s : Source) : Document :=
  foldl (fun row col =>
    match row !! col with
    | Some (MInt v) => <[col := MBool (negb (Z.eqb v 0))]> row
    | _ => row
    end) row (so_bools s).

Definition redactSync (row : Document) (s : Source) : Document :=
  foldl (fun row r => match row !! r.1 with Some v => <[r.1 := r.2 v]> row | None => row end) row (so_redact s).

Definition finishRow (row : Document) (s : Source) : Document := redactSync (CoerceTypes row s) s.

Definition ToDocuments (ms : list Document) (s : Source) : list Document := (fun m => finishRow m s) <$> ms.

Definition RemapRevision {X} (row : gmap string X) (s : Source) (watermarkField : string) : gmap string X :=
  if String.eqb (so_revision s) "" then row
  else match row !! so_revision s with
       | Some v => delete (so_revision s) (<[watermarkField := v]> row)
       | None => row
       end.

Definition BaseRevisionField : string := "_base_revision".
Definition MaxInClauseSize : nat := 900.

(** ** Values of a document under construction *)

(** A slice of documents: nil, empty, or the group of a key in a fetch. *)
Inductive ArrRef := RNil | REmpty | RAt (fetch : nat) (key : string).

#[export] Instance ArrRef_eq_dec : EqDecision ArrRef.
Proof. solve_decision. Defined.

(** A value of a row's document, and of a root's, which may hold a role's document. *)
Inductive SVal := SRaw (v : MVal) | SArr (r : ArrRef).
Inductive GVal := GPlain (v : SVal) | GSub (d : gmap string SVal).

Abbreviation Heap := (list (gmap string (list Document))).
Abbreviation HM := (GoM Heap GoErr).

(** What a merge does with the values of the document it fills: [gv_scalar] is the scanned
    value, [None] an array or a document. *)
Class GoVal (X : Type) := { gv_raw : MVal -> X; gv_scalar : X -> option MVal }.
Class GoArr (X : Type) := { gv_arr : ArrRef -> X }.

#[export] Instance goVal_row : GoVal MVal := {| gv_raw v := v; gv_scalar := Some |}.
#[export] Instance goVal_SVal : GoVal SVal :=
  {| gv_raw := SRaw; gv_scalar x := match x with SRaw v => Some v | SArr _ => None end |}.
#[export] Instance goVal_GVal : GoVal GVal :=
  {| gv_raw v := GPlain (SRaw v); gv_scalar x := match x with GPlain (SRaw v) => Some v | _ => None end |}.
#[export] Instance goArr_SVal : GoArr SVal := {| gv_arr := SArr |}.
#[export] Instance goArr_GVal : GoArr GVal := {| gv_arr r := GPlain (SArr r) |}.

(** [for col, val := range row { doc[col] = val }] but for the columns of [skip]. *)
Definition overlayRow {X} `{GoVal X} (skip : list string) (row : Document) (doc : gmap string X) : gmap string X :=
  (gv_raw <$> filter (fun c => c.1 ∉ skip) row) ∪ doc.

Definition liftO {A} (o : Outcome GoErr A) : HM A := fun h => (h, o).

(** The groups of a fetch as arrays; [fetch] is its number. *)
Definition publish (groups : gmap string (list Document)) : HM nat := fun h => (h ++ [groups], Ret (length h)).

(** ** The engine *)

(** [en_fmt] is [%v] of a time, raw bytes, an array or a document, [en_nested] of an array or
    a document under construction; [en_range] is the order of a [range] over groups. *)
Record Engine (Arg : Type) := mkEngine {
  en_dialect : Dialect Arg;
  en_QueryMaps : string -> list Arg -> GoErr + list Document;
  en_fmt : MVal -> string;
  en_nested : string;
  en_range : gmap string (list Document) -> list (string * list Document)
}.

Arguments en_dialect {Arg}.
Arguments en_QueryMaps {Arg}.
Arguments en_fmt {Arg}.
Arguments en_nested {Arg}.
Arguments en_range {Arg}.

Section Hydrator.
Context {Arg : Type} (eng : Engine Arg).

Abbreviation d := (en_dialect eng).
Abbreviation Res A := (Outcome GoErr A).

(** [fmt.Sprintf("%v", v)] of a scanned value. *)
Definition fmtV (v : MVal) : string :=
  match v with
  | MNull => "<nil>"
  | MBool b => if b then "true" else "false"
  | MInt z => itoa z
  | MDouble text => text
  | MStr s => s
  | _ => en_fmt eng v
  end.

Definition fmtAny {X} `{GoVal X} (x : X) : string :=
  match gv_scalar x with Some v => fmtV v | None => en_nested eng end.

(** The key value of a column that is there and not nil. *)
Definition keyValue {X} `{GoVal X} (doc : gmap string X) (col : string) : option X :=
  match doc !! col with
  | Some x => match gv_scalar x with Some MNull => None | _ => Some x end
  | None => None
  end.

Definition KeyOf {X} `{GoVal X} (doc : gmap string X) (col : string) : string :=
  match keyValue doc col with Some x => fmtAny x | None => "" end.

Definition CollectKeys {X} `{GoVal X} (docs : list (gmap string X)) (col : string) : list string :=
  List.filter (fun k => negb (String.eqb k "")) ((fun doc => KeyOf doc col) <$> docs).

(** ** Statements *)

Definition EncodeKey (keyVal : string) : Arg := d_EncodeArg d (VID (Some (NewID keyVal))).

Definition quoteIdent (name : string) : Res (list Tok) :=
  match d_QuoteIdent d name with
  | Some q => Ret [TIdent q]
  | None => Panic "infra: invalid SQL identifier"
  end.

Fixpoint quoteAll (cols : list string) : Res (list Tok) :=
  match cols with
  | [] => Ret []
  | [c] => quoteIdent c
  | c :: rest => let* q := quoteIdent c in let* qs := quoteAll rest in Ret (q ++ TKw ", " :: qs)
  end.

Definition selectList (cols : list string) : Res (list Tok) :=
  match cols with [] => Ret [TKw "*"] | _ => quoteAll cols end.

(** [SELECT cols FROM table]. *)
Definition selectFrom (cols : list string) (table : string) : Res (list Tok) :=
  let* sel := selectList cols in
  let* t := quoteIdent table in
  Ret (TKw "SELECT " :: sel ++ TKw " FROM " :: t).

(** The ArchivedAt condition, after [AND]. *)
Definition archivedCond (archivedCol : string) (includeArchived : bool) : Res (list Tok) :=
  if negb includeArchived && negb (String.eqb archivedCol "")
  then let* a := quoteIdent archivedCol in Ret (TAnd :: a ++ [TKw " IS NULL"])
  else Ret [].

Definition BuildFetchSQL (verb table : string) (cols : list string) (keyCol archivedCol : string) (includeArchived : bool) : Res (list Tok) :=
  let* sel := selectFrom cols table in
  let* cond := archivedCond archivedCol includeArchived in
  if String.eqb keyCol "" then
    match cond with
    | [] => Ret sel
    | _ => let* a := quoteIdent archivedCol in Ret (sel ++ TKw " WHERE " :: a ++ [TKw " IS NULL"])
    end
  else
    let* k := quoteIdent keyCol in
    let sql := sel ++ TKw " WHERE " :: k ++ TKw " = " :: TPlace 1 :: cond in
    if String.eqb verb "row" then limited d sql 1 else Ret sql.

(** [$1, $2, ...] *)
Fixpoint placeList (from n : nat) : list Tok :=
  match n with
  | O => []
  | S O => [TPlace from]
  | S n => TPlace from :: TKw ", " :: placeList (S from) n
  end.

(** The lookup of a chunk of keys. *)
Definition inSQL (cols : list string) (table keyCol : string) (n : nat) (archivedCol : string) (includeArchived : bool) : Res (list Tok) :=
  let* cond := archivedCond archivedCol includeArchived in
  let* sel := selectFrom cols table in
  let* k := quoteIdent keyCol in
  Ret (sel ++ TKw " WHERE " :: k ++ TKw " IN " :: TOpen :: placeList 1 n ++ TClose :: cond).

Definition latestArchivedSQL (s : Source) (keyCol archivedCol : string) : Res (list Tok) :=
  let* sel := selectFrom (readColsWithKey s keyCol) (so_table s) in
  let* k := quoteIdent keyCol in
  let* a := quoteIdent archivedCol in
  limited d (sel ++ TKw " WHERE " :: k ++ TKw " = " :: TPlace 1 :: TAnd :: a ++ TKw " IS NOT NULL ORDER BY " :: a ++ [TKw " DESC"]) 1.

Definition QueryMaps (sql : Res (list Tok)) (args : list Arg) : Res (list Document) :=
  let* ts := sql in
  match en_QueryMaps eng (sqlText d ts) args with inr rows => Ret rows | inl e => Fail e end.

(** ** Fetches *)

Definition firstRow (rows : list Document) (s : Source) : option Document := (fun r => finishRow r s) <$> head rows.

Definition FetchRow (s : Source) (table keyCol keyVal archivedCol : string) (includeArchived : bool) : Res (option Document) :=
  let* rows := QueryMaps (BuildFetchSQL "row" table (readColsWithKey s keyCol) keyCol archivedCol includeArchived) [EncodeKey keyVal] in
  Ret (firstRow rows s).

Definition FetchWhere (s : Source) (table keyCol keyVal archivedCol : string) (includeArchived : bool) : Res (list Document) :=
  let* rows := QueryMaps (BuildFetchSQL "where" table (readColsWithKey s keyCol) keyCol archivedCol includeArchived) [EncodeKey keyVal] in
  Ret (ToDocuments rows s).

Definition FetchAll (s : Source) (table archivedCol : string) (includeArchived : bool) : Res (list Document) :=
  let* rows := QueryMaps (BuildFetchSQL "all" table (readColsWithKey s "") "" archivedCol includeArchived) [] in
  Ret (ToDocuments rows s).

Definition FetchLatestArchived (s : Source) (keyCol keyVal archivedCol : string) : Res (option Document) :=
  let* rows := QueryMaps (latestArchivedSQL s keyCol archivedCol) [EncodeKey keyVal] in
  Ret (firstRow rows s).

(** [for start := 0; start < len(l); start += MaxInClauseSize]. *)
Fixpoint inChunks {A} (fuel : nat) (l : list A) : list (list A) :=
  match fuel, l with
  | _, [] => []
  | O, _ => []
  | S fuel, _ => take MaxInClauseSize l :: inChunks fuel (drop MaxInClauseSize l)
  end.

(** The rows of every chunk of keys, in the order of the chunks. *)
Fixpoint fetchChunks (s : Source) (table keyCol archivedCol : string) (includeArchived : bool) (l : list (list string)) : Res (list Document) :=
  match l with
  | [] => Ret []
  | chunk :: rest =>
      let* rows := QueryMaps (inSQL (readColsWithKey s keyCol) table keyCol (length chunk) archivedCol includeArchived) (EncodeKey <$> chunk) in
      let* more := fetchChunks s table keyCol archivedCol includeArchived rest in
      Ret (ToDocuments rows s ++ more)
  end.

Definition FetchByIDs (s : Source) (table keyCol : string) (ids : list string) (archivedCol : string) (includeArchived : bool) : Res (list Document) :=
  fetchChunks s table keyCol archivedCol includeArchived (inChunks (length ids) ids).

(** The rows by the text of their key column. *)
Definition groupRow (keyCol : string) (out : gmap string (list Document)) (row : Document) : gmap string (list Document) :=
  let k := match row !! keyCol with Some v => fmtV v | None => "<nil>" end in
  <[k := default [] (out !! k) ++ [row]]> out.

Definition FetchInGrouped (s : Source) (table keyCol : string) (keys : list string) (archivedCol : string) (includeArchived : bool) :
  Res (gmap string (list Document)) :=
  let uniq := foldl addNew [] keys in
  let* rows := fetchChunks s table keyCol archivedCol includeArchived (inChunks (length uniq) uniq) in
  Ret (foldl (groupRow keyCol) ∅ rows).

(** ** Merges for one root ([merge.go]) *)

Definition MergeOwnerSiblings {X} `{GoVal X} (doc : gmap string X) (owner : Owner) (pkVal : string) (includeArchived : bool) : Res (gmap string X) :=
  let pkCol := SchemaPK (ow_source owner) in
  foldl (fun acc sib =>
    let* doc := acc in
    let* row := FetchRow sib (so_table sib) pkCol pkVal "" includeArchived in
    Ret (match row with Some r => overlayRow [pkCol] r doc | None => doc end)) (Ret doc) (ow_siblings owner).

Definition sharedBaseSkipSet (base role : Source) : list string :=
  let both f := if negb (String.eqb (f base) "") && negb (String.eqb (f role) "") then [f base] else [] in
  so_idColumn base :: both so_archivedAt ++ both so_createdAt ++ both so_updatedAt.

Definition overlayBase {X} `{GoVal X} (base role : Source) (row : Document) (doc : gmap string X) : gmap string X :=
  overlayRow (sharedBaseSkipSet base role) (RemapRevision row base BaseRevisionField) doc.

Definition MergeSharedBase {X} `{GoVal X} (doc : gmap string X) (s : RootSource) (includeArchived : bool) : Res (gmap string X) :=
  match rt_base s with
  | None => Ret doc
  | Some base =>
      match keyValue doc (so_baseLink (rt_source s)) with
      | None => Ret doc
      | Some fk =>
          let b := bs_source base in
          let* row := FetchRow b (so_table b) (so_idColumn b) (fmtAny fk) "" includeArchived in
          Ret (match row with Some r => overlayBase b (rt_source s) r doc | None => doc end)
      end
  end.

(** The rows of one fetch as an array; [ToDocuments] makes a slice even of no rows. *)
Definition arrayOf (rows : list Document) : HM ArrRef :=
  fetch <- publish {[ "" := rows ]};; gret (RAt fetch "").

Definition MergeSharedBaseChildren {X} `{GoVal X} `{GoArr X} (doc : gmap string X) (s : RootSource) (includeArchived : bool) : HM (gmap string X) :=
  match rt_base s with
  | None => gret doc
  | Some base =>
      match keyValue doc (so_baseLink (rt_source s)) with
      | None => gret doc
      | Some baseID =>
          foldl (fun acc bc =>
            doc <- acc;;
            rows <- liftO (FetchWhere bc (so_table bc) (so_parentID bc) (fmtAny baseID) (SchemaArchivedAt bc) includeArchived);;
            r <- arrayOf rows;;
            gret (<[so_segment bc := gv_arr r]> doc)) (gret doc) (bs_children base)
      end
  end.

(** ** Merges for a batch ([batch.go]) *)

(** One sibling for the whole batch. *)
Definition siblingBatch {X} `{GoVal X} (pkCol : string) (keys : list string) (includeArchived : bool) (docs : list (gmap string X)) (sib : Source) : Res (list (gmap string X)) :=
  let* grouped := FetchInGrouped sib (so_table sib) pkCol keys "" includeArchived in
  Ret ((fun doc =>
    match grouped !! KeyOf doc pkCol with
    | Some (r :: _) => overlayRow [pkCol] r doc
    | _ => doc
    end) <$> docs).

Definition MergeOwnerSiblingsBatch {X} `{GoVal X} (docs : list (gmap string X)) (owner : Owner) (includeArchived : bool) : Res (list (gmap string X)) :=
  let pkCol := SchemaPK (ow_source owner) in
  match ow_siblings owner, docs with
  | [], _ | _, [] => Ret docs
  | sibs, _ =>
      let keys := CollectKeys docs pkCol in
      foldl (fun acc sib => let* docs := acc in siblingBatch pkCol keys includeArchived docs sib) (Ret docs) sibs
  end.

(** Own children; a child's siblings are merged as a batch here too. *)
Definition MergeOwnChildren {X} `{GoVal X} `{GoArr X} (doc : gmap string X) (s : RootSource) (includeArchived : bool) : HM (gmap string X) :=
  match keyValue doc (SchemaPK (rt_source s)) with
  | None => gret doc
  | Some pkVal =>
      foldl (fun acc child =>
        let c := ow_source child in
        doc <- acc;;
        rows <- liftO (FetchWhere c (so_table c) (so_parentID c) (fmtAny pkVal) (SchemaArchivedAt c) includeArchived);;
        rows <- liftO (MergeOwnerSiblingsBatch rows child includeArchived);;
        r <- arrayOf rows;;
        gret (<[so_segment c := gv_arr r]> doc)) (gret doc) (rt_children s)
  end.

(** The grouped row is one map for all the documents of its key; its revision is moved
    once, at the first of them. *)
Definition MergeSharedBaseBatch {X} `{GoVal X} (docs : list (gmap string X)) (s : RootSource) (includeArchived : bool) : Res (list (gmap string X)) :=
  match rt_base s with
  | None => Ret docs
  | Some base =>
      let b := bs_source base in
      let fkCol := so_baseLink (rt_source s) in
      let* grouped := FetchInGrouped b (so_table b) (so_idColumn b) (CollectKeys docs fkCol) "" includeArchived in
      Ret ((fun doc =>
        match grouped !! KeyOf doc fkCol with
        | Some (r :: _) => overlayBase b (rt_source s) r doc
        | _ => doc
        end) <$> docs)
  end.

(** [EmptyIfNil(grouped[key])]. *)
Definition groupRef (fetch : nat) (grouped : gmap string (list Document)) (key : string) : ArrRef :=
  match grouped !! key with Some _ => RAt fetch key | None => REmpty end.

(** The groups of a fetch nested under a segment, by the key of each document. *)
Definition nestGroups {X} `{GoVal X} `{GoArr X} (grouped : gmap string (list Document)) (seg keyCol : string) (docs : list (gmap string X)) : HM (list (gmap string X)) :=
  fetch <- publish grouped;;
  gret ((fun doc =>
    let key := KeyOf doc keyCol in
    if String.eqb key "" then doc else <[seg := gv_arr (groupRef fetch grouped key)]> doc) <$> docs).

Definition MergeSharedBaseChildrenBatch {X} `{GoVal X} `{GoArr X} (docs : list (gmap string X)) (s : RootSource) (includeArchived : bool) : HM (list (gmap string X)) :=
  match rt_base s with
  | None => gret docs
  | Some base =>
      let fkCol := so_baseLink (rt_source s) in
      let keys := CollectKeys docs fkCol in
      foldl (fun acc bc =>
        docs <- acc;;
        grouped <- liftO (FetchInGrouped bc (so_table bc) (so_parentID bc) keys (SchemaArchivedAt bc) includeArchived);;
        nestGroups grouped (so_segment bc) fkCol docs) (gret docs) (bs_children base)
  end.

(** The rows of a flattened set back into their groups. *)
Fixpoint regroup (groups : list (string * list Document)) (rows : list Document) : gmap string (list Document) :=
  match groups with
  | [] => ∅
  | (k, g) :: rest => <[k := take (length g) rows]> (regroup rest (drop (length g) rows))
  end.

Definition MergeOwnChildrenBatch {X} `{GoVal X} `{GoArr X} (docs : list (gmap string X)) (s : RootSource) (includeArchived : bool) : HM (list (gmap string X)) :=
  match docs with
  | [] => gret docs
  | _ =>
      let pkCol := SchemaPK (rt_source s) in
      let keys := CollectKeys docs pkCol in
      foldl (fun acc child =>
        let c := ow_source child in
        docs <- acc;;
        grouped <- liftO (FetchInGrouped c (so_table c) (so_parentID c) keys (SchemaArchivedAt c) includeArchived);;
        rows <- liftO (MergeOwnerSiblingsBatch (concat (snd <$> en_range eng grouped)) child includeArchived);;
        nestGroups (regroup (en_range eng grouped) rows) (so_segment c) pkCol docs) (gret docs) (rt_children s)
  end.

End Hydrator.
