(* ===== verification/HydrateProps.v ===== *)
(** * What the fetches of hydration answer

    The database of [Hydrate.v] as the rows of its tables, what the statements of a fetch
    select of them, and the merges of one root and of a batch as the same functions of the
    selected rows. *)

From S2P Require Import Prelude Naming Errors BaseEntity Criteria CriteriaSql Mongo Hydrate.
From stdpp Require Import base gmap strings list fin_maps.
From Stdlib Require Import ZArith Lia.

Open Scope string_scope.
Open Scope list_scope.
Open Scope go_scope.

(** ** Lists *)

Lemma addNew_elem l c x : x ∈ addNew l c <-> x ∈ l \/ x = c.
Proof. unfold addNew. case_bool_decide; set_solver. Qed.

Lemma addNew_NoDup l c : NoDup l -> NoDup (addNew l c).
Proof.
  unfold addNew. case_bool_decide; [done|]. intros Hl. apply NoDup_app. split; [done|]. split; [|by apply NoDup_singleton]. set_solver.
Qed.

Lemma uniq_spec l acc : NoDup acc -> NoDup (foldl addNew acc l) /\ forall x, x ∈ foldl addNew acc l <-> x ∈ acc \/ x ∈ l.
Proof.
  revert acc. induction l as [|c l IH]; intros acc Hacc; cbn; [set_solver|].
  destruct (IH (addNew acc c)) as [H1 H2]; [by apply addNew_NoDup|]. split; [done|]. intros x. rewrite H2, addNew_elem. set_solver.
Qed.

Lemma inChunks_concat {A} fuel (l : list A) : (length l <= fuel)%nat -> concat (inChunks fuel l) = l.
Proof.
  revert l. induction fuel as [|fuel IH]; intros [|x l] Hl; try done; [cbn in Hl; lia|].
  cbn [inChunks concat]. rewrite IH; [apply take_drop|]. rewrite length_drop. unfold MaxInClauseSize. cbn in *. lia.
Qed.

Lemma inChunks_piece {A} fuel (l : list A) ch : ch ∈ inChunks fuel l -> ch <> [] /\ (length ch <= MaxInClauseSize)%nat.
Proof.
  revert l. induction fuel as [|fuel IH]; intros [|x l] Hl; try (by apply not_elem_of_nil in Hl).
  cbn [inChunks] in Hl. apply elem_of_cons in Hl as [->|Hl]; [|by eapply IH]. split; [done|]. rewrite length_take. lia.
Qed.

(** At most one element: any of them is the head. *)
Lemma head_unique {A} (l : list A) x : (length l <= 1)%nat -> x ∈ l -> head l = Some x.
Proof. destruct l as [|y [|z l]]; cbn; [set_solver| |lia]. intros _ Hx. apply list_elem_of_singleton in Hx. by subst. Qed.

Lemma head_perm {A} (l l' : list A) : (length l' <= 1)%nat -> l ≡ₚ l' -> head l = head l'.
Proof.
  intros Hl Hp. pose proof (Permutation_length Hp). destruct l' as [|y [|z l']]; cbn in *; [| |lia].
  - destruct l; [done|discriminate].
  - destruct l as [|x [|? ?]]; cbn in *; [lia| |lia]. apply Permutation_singleton_inj in Hp. by subst.
Qed.

Lemma filter_swap {A} (p q : A -> bool) l : List.filter p (List.filter q l) = List.filter (fun x => q x && p x) l.
Proof. induction l as [|x l IH]; [done|]. cbn. destruct (q x); cbn; [destruct (p x)|]; by rewrite ?IH. Qed.

Lemma filter_ext' {A} (p q : A -> bool) l : (forall x, x ∈ l -> p x = q x) -> List.filter p l = List.filter q l.
Proof. intros Hpq. apply filter_ext_in. intros x Hx. apply Hpq. by apply list_elem_of_In. Qed.

#[export] Instance filter_perm {A} (p : A -> bool) : Proper ((≡ₚ) ==> (≡ₚ)) (List.filter p).
Proof.
  intros l l'. induction 1 as [|x l l' _ IH|x y l|l1 l2 l3 _ IH1 _ IH2]; cbn; [done| | |by etrans].
  - destruct (p x); [by constructor|done].
  - destruct (p x), (p y); [constructor|done|done|done].
Qed.

Lemma filter_fmap_bool {A B} (f : A -> B) (p : B -> bool) l : List.filter p (f <$> l) = f <$> List.filter (fun x => p (f x)) l.
Proof. induction l as [|x l IH]; [done|]. cbn. destruct (p (f x)); cbn; by rewrite <- IH. Qed.

(** A disjunction of exclusive tests splits a list in two. *)
Lemma filter_split {A} (p q r : A -> bool) l : (forall x, x ∈ l -> r x = p x || q x) -> (forall x, x ∈ l -> p x && q x = false) ->
  List.filter r l ≡ₚ List.filter p l ++ List.filter q l.
Proof.
  induction l as [|x l IH]; intros Hr Hex; [done|]. cbn.
  rewrite (Hr x) by set_solver. specialize (Hex x ltac:(set_solver)) as Hx.
  assert (IH' := IH ltac:(set_solver) ltac:(intros y Hy; apply Hex; set_solver)).
  destruct (p x), (q x); cbn in *; try done; rewrite IH'; [done|apply Permutation_middle].
Qed.

(** ** Selected rows *)

Abbreviation ownerPK owner := (SchemaPK (ow_source owner)).

Section Selected.
Context {Arg : Type} (eng : Engine Arg) (tables : string -> list Document).

Abbreviation fmtV := (fmtV eng).

(** A NULL key matches nothing. *)
Definition hasKey (keyCol : string) (ks : list string) (row : Document) : bool :=
  match keyValue row keyCol with Some v => bool_decide (fmtV v ∈ ks) | None => false end.

Definition isOpen (archivedCol : string) (includeArchived : bool) (row : Document) : bool :=
  includeArchived || String.eqb archivedCol "" || match keyValue row archivedCol with Some _ => false | None => true end.

(** The columns read of a row. *)
Definition readOf (s : Source) (keyCol : string) (row : Document) : Document := filter (fun c => c.1 ∈ readColsWithKey s keyCol) row.

(** A fetch: whose columns, of which table, by which column, under which gate. *)
Record Fetch := mkFetch { fe_source : Source; fe_table : string; fe_key : string; fe_archived : string; fe_all : bool }.

Definition selected (f : Fetch) (ks : list string) : list Document :=
  readOf (fe_source f) (fe_key f) <$> List.filter (fun r => hasKey (fe_key f) ks r && isOpen (fe_archived f) (fe_all f) r) (tables (fe_table f)).

(** ... as the fetch hands them out. *)
Definition rowsOf (f : Fetch) (k : string) : list Document := (fun r => finishRow r (fe_source f)) <$> selected f [k].

(** What a SELECT answers: one of the rows under a limit of one, all of them in some order otherwise. *)
Definition answersRow (f : Fetch) : Prop := forall k, exists rs,
  QueryMaps eng (BuildFetchSQL eng "row" (fe_table f) (readColsWithKey (fe_source f) (fe_key f)) (fe_key f) (fe_archived f) (fe_all f)) [EncodeKey eng k] = Ret rs /\
  match rs with [] => selected f [k] = [] | r :: _ => r ∈ selected f [k] end.

Definition answersWhere (f : Fetch) : Prop := forall k, exists rs,
  QueryMaps eng (BuildFetchSQL eng "where" (fe_table f) (readColsWithKey (fe_source f) (fe_key f)) (fe_key f) (fe_archived f) (fe_all f)) [EncodeKey eng k] = Ret rs /\
  rs ≡ₚ selected f [k].

Definition answersIn (f : Fetch) : Prop := forall ks, NoDup ks -> ks <> [] -> (length ks <= MaxInClauseSize)%nat -> exists rs,
  QueryMaps eng (inSQL eng (readColsWithKey (fe_source f) (fe_key f)) (fe_table f) (fe_key f) (length ks) (fe_archived f) (fe_all f)) (EncodeKey eng <$> ks) = Ret rs /\
  rs ≡ₚ selected f ks.

(** The key column is read, and finishing a row leaves it alone. *)
Definition keyKept (f : Fetch) : Prop :=
  fe_key f <> "" /\ fe_key f ∉ so_bools (fe_source f) /\ fe_key f ∉ fst <$> so_redact (fe_source f).

(** A key has at most one row. *)
Definition oneRow (f : Fetch) : Prop := forall k, (length (selected f [k]) <= 1)%nat.

Lemma filter_distinct {A B} (g : A -> B) (p : A -> bool) k l : NoDup (g <$> l) -> (forall x, p x = true -> g x = k) -> (length (List.filter p l) <= 1)%nat.
Proof.
  intros Hnd Hp. induction l as [|x l IH]; cbn in *; [lia|]. apply NoDup_cons in Hnd as [Hx Hnd]. destruct (p x) eqn:E; [|by apply IH].
  cbn. destruct (List.filter p l) as [|y l'] eqn:Ef; [cbn; lia|]. destruct Hx.
  assert (Hy : y ∈ List.filter p l) by (rewrite Ef; by left). apply list_elem_of_In, filter_In in Hy as [Hy Hpy].
  apply list_elem_of_fmap. exists y. split; [by rewrite (Hp x E), (Hp y Hpy)|by apply list_elem_of_In].
Qed.

(** A table whose keys are distinct. *)
Lemma oneRow_distinct f : NoDup ((fun r => KeyOf eng r (fe_key f)) <$> tables (fe_table f)) -> oneRow f.
Proof.
  intros Hnd k. unfold selected. rewrite length_fmap. eapply (filter_distinct (fun r => KeyOf eng r (fe_key f)) _ k); [done|].
  intros r [Hr _]%andb_true_iff. unfold hasKey in Hr. unfold KeyOf. destruct (keyValue r (fe_key f)); [|done].
  by apply bool_decide_eq_true, list_elem_of_singleton in Hr.
Qed.

(** A fetched row is one of the table's. *)
Lemma rowsOf_table f k r : r ∈ rowsOf f k -> r ∈ (fun r => finishRow (readOf (fe_source f) (fe_key f) r) (fe_source f)) <$> tables (fe_table f).
Proof.
  intros (r0&->&Hr0)%list_elem_of_fmap. apply list_elem_of_fmap in Hr0 as (r1&->&Hr1). apply list_elem_of_In, filter_In in Hr1 as [Hr1 _].
  apply list_elem_of_fmap. exists r1. split; [done|by apply list_elem_of_In].
Qed.

Lemma coerce_other row s col : col ∉ so_bools s -> CoerceTypes row s !! col = row !! col.
Proof.
  unfold CoerceTypes. generalize (so_bools s). intros l. revert row. induction l as [|b l IH]; intros row Hc; [done|].
  cbn. rewrite IH by set_solver. destruct (row !! b) as [[]|]; try done. rewrite lookup_insert_ne by set_solver. done.
Qed.

Lemma redact_other row s col : col ∉ fst <$> so_redact s -> redactSync row s !! col = row !! col.
Proof.
  unfold redactSync. generalize (so_redact s). intros l. revert row. induction l as [|[b g] l IH]; intros row Hc; [done|].
  cbn in *. rewrite IH by set_solver. destruct (row !! b); [|done]. by rewrite lookup_insert_ne by set_solver.
Qed.

Lemma readOf_key s k row : k <> "" -> readOf s k row !! k = row !! k.
Proof.
  intros Hk. unfold readOf. destruct (row !! k) as [v|] eqn:E.
  - apply map_lookup_filter_Some. split; [done|]. cbn. unfold readColsWithKey.
    apply String.eqb_neq in Hk. rewrite Hk. apply addNew_elem. by right.
  - apply map_lookup_filter_None. by left.
Qed.

Lemma keyValue_ext {X} `{GoVal X} (a b : gmap string X) col : a !! col = b !! col -> keyValue a col = keyValue b col.
Proof. unfold keyValue. by intros ->. Qed.

Lemma finished_key f row : keyKept f -> finishRow (readOf (fe_source f) (fe_key f) row) (fe_source f) !! fe_key f = row !! fe_key f.
Proof. intros (H1&H2&H3). unfold finishRow. by rewrite redact_other, coerce_other, readOf_key. Qed.

Lemma selected_app f ks ks' : (forall k, k ∈ ks -> k ∉ ks') -> selected f (ks ++ ks') ≡ₚ selected f ks ++ selected f ks'.
Proof.
  intros Hd. unfold selected. rewrite <- fmap_app. apply fmap_Permutation. apply filter_split; intros r _.
  - unfold hasKey. destruct (keyValue r (fe_key f)); [|done]. rewrite <- andb_orb_distrib_l. f_equal.
    rewrite (bool_decide_ext _ _ (elem_of_app _ _ _)). by rewrite bool_decide_or.
  - unfold hasKey. destruct (keyValue r (fe_key f)) as [v|]; [|done].
    destruct (bool_decide_reflect (fmtV v ∈ ks)); [|done]. rewrite (bool_decide_eq_false_2 (fmtV v ∈ ks')) by auto.
    by rewrite !andb_false_r.
Qed.

Lemma selected_nil f : selected f [] = [].
Proof.
  unfold selected. replace (List.filter _ _) with ([] : list Document); [done|]. symmetry.
  induction (tables (fe_table f)) as [|r l IH]; [done|]. cbn. unfold hasKey. destruct (keyValue r (fe_key f)); cbn; exact IH.
Qed.

(** The rows of all the chunks. *)
Lemma fetchChunks_rows f ls : answersIn f -> NoDup (concat ls) -> (forall ch, ch ∈ ls -> ch <> [] /\ (length ch <= MaxInClauseSize)%nat) ->
  exists rows, fetchChunks eng (fe_source f) (fe_table f) (fe_key f) (fe_archived f) (fe_all f) ls = Ret rows /\
    rows ≡ₚ (fun r => finishRow r (fe_source f)) <$> selected f (concat ls).
Proof.
  intros Hin. induction ls as [|ch ls IH]; intros Hnd Hch.
  - exists []. split; [done|]. cbn. by rewrite selected_nil.
  - cbn [concat] in Hnd. apply NoDup_app in Hnd as (H1&H2&H3). destruct (Hch ch) as [Hne Hlen]; [set_solver|].
    destruct (Hin ch H1 Hne Hlen) as (rs&Hq&Hp). destruct IH as (rows&Hr&Hpr); [done|set_solver|].
    exists (ToDocuments rs (fe_source f) ++ rows). split; [cbn; rewrite Hq; cbn; by rewrite Hr|].
    cbn [concat]. rewrite (selected_app f ch (concat ls)) by done. rewrite fmap_app, Hpr. unfold ToDocuments. by rewrite Hp.
Qed.

(** ** Groups *)

Definition rowKey (keyCol : string) (row : Document) : string := match row !! keyCol with Some v => fmtV v | None => "<nil>" end.

Lemma grouped_lookup keyCol rows out k :
  default [] (foldl (groupRow eng keyCol) out rows !! k) = default [] (out !! k) ++ List.filter (fun r => String.eqb (rowKey keyCol r) k) rows.
Proof.
  revert out. induction rows as [|r rows IH]; intros out; cbn; [by rewrite app_nil_r|]. rewrite IH. unfold groupRow. fold (rowKey keyCol r).
  destruct (String.eqb_spec (rowKey keyCol r) k) as [<-|Hk].
  - rewrite lookup_insert_eq. cbn. by rewrite <- app_assoc.
  - by rewrite lookup_insert_ne.
Qed.

Lemma grouped_some keyCol rows out k g : (forall k g, out !! k = Some g -> g <> []) ->
  foldl (groupRow eng keyCol) out rows !! k = Some g -> g <> [].
Proof.
  revert out. induction rows as [|r rows IH]; intros out Ho; cbn; [apply Ho|]. apply IH. intros k' g'. unfold groupRow.
  rewrite lookup_insert. case_decide; [intros [= <-]; by destruct (default [] _)|apply Ho].
Qed.

Lemma finished_rowKey f row v : keyKept f -> keyValue row (fe_key f) = Some v ->
  rowKey (fe_key f) (finishRow (readOf (fe_source f) (fe_key f) row) (fe_source f)) = fmtV v.
Proof.
  intros Hk Hv. unfold rowKey. rewrite finished_key by done. unfold keyValue in Hv.
  destruct (row !! fe_key f) as [x|]; [|done]. destruct x; by simplify_eq/=.
Qed.

(** Of the rows of several keys, those of one. *)
Lemma selected_group f ks k : keyKept f ->
  List.filter (fun r => String.eqb (rowKey (fe_key f) r) k) ((fun r => finishRow r (fe_source f)) <$> selected f ks) =
  if bool_decide (k ∈ ks) then rowsOf f k else [].
Proof.
  intros Hkept. unfold rowsOf, selected. rewrite <- !list_fmap_compose, filter_fmap_bool, filter_swap.
  rewrite (filter_ext' _ (fun r => bool_decide (k ∈ ks) && (hasKey (fe_key f) [k] r && isOpen (fe_archived f) (fe_all f) r))).
  - case_bool_decide; [done|]. cbn. induction (tables (fe_table f)); done.
  - intros r _. unfold hasKey. destruct (keyValue r (fe_key f)) as [v|] eqn:Ev; [|by rewrite andb_false_r].
    cbn. rewrite (finished_rowKey _ _ v) by done. destruct (String.eqb_spec (fmtV v) k) as [<-|Hne].
    + rewrite (bool_decide_eq_true_2 (fmtV v ∈ [fmtV v])) by set_solver. by rewrite andb_true_r.
    + rewrite (bool_decide_eq_false_2 (fmtV v ∈ [k])) by set_solver. by rewrite !andb_false_r.
Qed.

(** The groups of a batch fetch: for each key asked, its rows. *)
Lemma grouped_rows f keys : answersIn f -> keyKept f -> exists g,
  FetchInGrouped eng (fe_source f) (fe_table f) (fe_key f) keys (fe_archived f) (fe_all f) = Ret g /\
  (forall k, k ∈ keys -> default [] (g !! k) ≡ₚ rowsOf f k) /\ (forall k, k ∉ keys -> g !! k = None) /\ (forall k l, g !! k = Some l -> l <> []).
Proof.
  intros Hin Hkept. unfold FetchInGrouped. destruct (uniq_spec keys []) as [Hnd Huniq]; [constructor|]. set (uniq := foldl addNew [] keys) in *.
  destruct (fetchChunks_rows f (inChunks (length uniq) uniq)) as (rows&Hr&Hp); [done|by rewrite inChunks_concat|apply inChunks_piece|].
  rewrite inChunks_concat in Hp by done. rewrite Hr. cbn. eexists. split; [done|].
  assert (Hsome : forall k g, foldl (groupRow eng (fe_key f)) ∅ rows !! k = Some g -> g <> []).
  { intros k g. apply grouped_some. intros ? ?. by rewrite lookup_empty. }
  assert (Hgrp : forall k, default [] (foldl (groupRow eng (fe_key f)) ∅ rows !! k) ≡ₚ if bool_decide (k ∈ uniq) then rowsOf f k else []).
  { intros k. rewrite grouped_lookup, lookup_empty. cbn. by rewrite Hp, selected_group. }
  split; [|split; [|done]]; intros k Hk; specialize (Hgrp k).
  - rewrite bool_decide_eq_true_2 in Hgrp; [done|]. apply Huniq. by right.
  - rewrite bool_decide_eq_false_2 in Hgrp by (rewrite Huniq; set_solver).
    destruct (foldl (groupRow eng (fe_key f)) ∅ rows !! k) as [g|] eqn:E; [|done]. cbn in Hgrp. apply Permutation_nil_r in Hgrp. by destruct (Hsome k g E).
Qed.

Lemma fetchWhere_rows f k : answersWhere f -> exists rows,
  FetchWhere eng (fe_source f) (fe_table f) (fe_key f) k (fe_archived f) (fe_all f) = Ret rows /\ rows ≡ₚ rowsOf f k.
Proof.
  intros Hw. destruct (Hw k) as (rs&Hq&Hp). exists (ToDocuments rs (fe_source f)). unfold FetchWhere. rewrite Hq. split; [done|].
  unfold ToDocuments, rowsOf. by rewrite Hp.
Qed.

Lemma fetchRow_row f k : answersRow f -> oneRow f ->
  FetchRow eng (fe_source f) (fe_table f) (fe_key f) k (fe_archived f) (fe_all f) = Ret (head (rowsOf f k)).
Proof.
  intros Hr Hone. destruct (Hr k) as (rs&Hq&Hrs). unfold FetchRow. rewrite Hq. cbn. f_equal. unfold firstRow, rowsOf.
  destruct rs as [|r rs]; [by rewrite Hrs|]. cbn. specialize (Hone k).
  destruct (selected f [k]) as [|r' [|]] eqn:E; cbn in *; [set_solver| |lia]. apply list_elem_of_singleton in Hrs. by subst.
Qed.

(** The first of a group of a key with at most one row. *)
Lemma grouped_head f (g : gmap string (list Document)) k : oneRow f -> default [] (g !! k) ≡ₚ rowsOf f k ->
  match g !! k with Some (r :: _) => Some r | _ => None end = head (rowsOf f k).
Proof.
  intros Hone Hp. assert (Hl : (length (rowsOf f k) <= 1)%nat) by (unfold rowsOf; rewrite length_fmap; apply Hone).
  rewrite <- (head_perm _ _ Hl Hp). by destruct (g !! k) as [[]|].
Qed.

(** ** Keys *)

(** A key that is there has a text. *)
Definition keyed {X} `{GoVal X} (doc : gmap string X) (col : string) : Prop :=
  forall x, keyValue doc col = Some x -> fmtAny eng x <> "".

Lemma keyOf_ext {X} `{GoVal X} (a b : gmap string X) col : a !! col = b !! col -> KeyOf eng a col = KeyOf eng b col.
Proof. intros E. unfold KeyOf. by rewrite (keyValue_ext _ _ _ E). Qed.

Lemma keyOf_keyed {X} `{GoVal X} (doc : gmap string X) col : keyed doc col ->
  match keyValue doc col with Some x => KeyOf eng doc col = fmtAny eng x /\ KeyOf eng doc col <> "" | None => KeyOf eng doc col = "" end.
Proof. intros Hk. unfold KeyOf. specialize (Hk). destruct (keyValue doc col) as [x|] eqn:E; [|done]. split; [done|]. by apply Hk. Qed.

Lemma collectKeys_elem {X} `{GoVal X} (docs : list (gmap string X)) col doc : doc ∈ docs -> KeyOf eng doc col <> "" -> KeyOf eng doc col ∈ CollectKeys eng docs col.
Proof.
  intros Hd Hk. unfold CollectKeys. apply list_elem_of_In, filter_In. split.
  - apply list_elem_of_In, list_elem_of_fmap. by exists doc.
  - apply negb_true_iff. by apply String.eqb_neq.
Qed.

Lemma collectKeys_empty {X} `{GoVal X} (docs : list (gmap string X)) col : "" ∉ CollectKeys eng docs col.
Proof. unfold CollectKeys. by intros [_ Hf]%list_elem_of_In%filter_In. Qed.

Lemma overlay_other {X} `{GoVal X} skip row (doc : gmap string X) col : col ∈ skip -> overlayRow skip row doc !! col = doc !! col.
Proof.
  intros Hc. unfold overlayRow. apply lookup_union_r. rewrite lookup_fmap, (proj2 (map_lookup_filter_None _ _ _)); [done|]. right. intros v _ Hn. by apply Hn.
Qed.

(** ** Siblings *)

Definition sibFetch (owner : Owner) (all : bool) (sib : Source) : Fetch := mkFetch sib (so_table sib) (ownerPK owner) "" all.

Definition withSibling {X} `{GoVal X} (owner : Owner) (all : bool) (key : string) (doc : gmap string X) (sib : Source) : gmap string X :=
  match head (rowsOf (sibFetch owner all sib) key) with Some r => overlayRow [ownerPK owner] r doc | None => doc end.

(** A document with the columns of its siblings. *)
Definition withSiblings {X} `{GoVal X} (owner : Owner) (all : bool) (key : string) (doc : gmap string X) : gmap string X :=
  if String.eqb key "" then doc else foldl (withSibling owner all key) doc (ow_siblings owner).

Lemma withSibling_pk {X} `{GoVal X} owner all key (doc : gmap string X) sib :
  withSibling owner all key doc sib !! ownerPK owner = doc !! ownerPK owner.
Proof. unfold withSibling. destruct (head _); [|done]. apply overlay_other. set_solver. Qed.

Lemma withSiblings_pk {X} `{GoVal X} owner all key (doc : gmap string X) :
  withSiblings owner all key doc !! ownerPK owner = doc !! ownerPK owner.
Proof.
  unfold withSiblings. destruct (String.eqb key ""); [done|]. revert doc. induction (ow_siblings owner) as [|sib l IH]; intros doc; [done|].
  cbn. by rewrite IH, withSibling_pk.
Qed.

Lemma siblings_one {X} `{GoVal X} owner all key (doc : gmap string X) : key <> "" ->
  (forall sib, sib ∈ ow_siblings owner -> answersRow (sibFetch owner all sib) /\ oneRow (sibFetch owner all sib)) ->
  MergeOwnerSiblings eng doc owner key all = Ret (withSiblings owner all key doc).
Proof.
  intros Hk Hs. unfold MergeOwnerSiblings, withSiblings. apply String.eqb_neq in Hk. rewrite Hk. revert doc Hs.
  induction (ow_siblings owner) as [|sib l IH]; intros doc Hs; [done|]. cbn.
  destruct (Hs sib) as [H1 H2]; [by apply list_elem_of_here|]. pose proof (fetchRow_row _ key H1 H2) as Hf. cbn in Hf. rewrite Hf. cbn.
  rewrite <- IH by (intros s' Hs'; apply Hs; by apply list_elem_of_further). unfold withSibling. by destruct (head _).
Qed.

(** One step of the batch: the group of each document's key. *)
Lemma nest_first {X} (f : Fetch) (g : gmap string (list Document)) (keys : list string) (key : gmap string X -> string) (F : Document -> gmap string X -> gmap string X) (docs : list (gmap string X)) :
  oneRow f -> (forall k, k ∈ keys -> default [] (g !! k) ≡ₚ rowsOf f k) -> (forall k, k ∉ keys -> g !! k = None) ->
  "" ∉ keys -> (forall doc, doc ∈ docs -> key doc <> "" -> key doc ∈ keys) ->
  (fun doc => match g !! key doc with Some (r :: _) => F r doc | _ => doc end) <$> docs =
  (fun doc => if String.eqb (key doc) "" then doc else match head (rowsOf f (key doc)) with Some r => F r doc | None => doc end) <$> docs.
Proof.
  intros Hone Hg Hno He Hk. apply list_fmap_ext. intros i doc Hd%list_elem_of_lookup_2. destruct (String.eqb_spec (key doc) "") as [->|Hne]; [by rewrite Hno|].
  rewrite <- (grouped_head f g) by auto. by destruct (g !! key doc) as [[]|].
Qed.

Lemma siblingBatch_step {X} `{GoVal X} owner all keys (docs : list (gmap string X)) sib :
  answersIn (sibFetch owner all sib) -> oneRow (sibFetch owner all sib) -> keyKept (sibFetch owner all sib) -> "" ∉ keys ->
  (forall doc, doc ∈ docs -> KeyOf eng doc (ownerPK owner) <> "" -> KeyOf eng doc (ownerPK owner) ∈ keys) ->
  siblingBatch eng (ownerPK owner) keys all docs sib =
  Ret ((fun doc => if String.eqb (KeyOf eng doc (ownerPK owner)) "" then doc
                   else withSibling owner all (KeyOf eng doc (ownerPK owner)) doc sib) <$> docs).
Proof.
  intros H1 H2 H3 He Hd. destruct (grouped_rows _ keys H1 H3) as (g&Hg&Hin&Hout&_). cbn in Hg. unfold siblingBatch. rewrite Hg. cbn. f_equal.
  by apply (nest_first (sibFetch owner all sib) g keys (fun doc => KeyOf eng doc (ownerPK owner))).
Qed.

Lemma siblings_fold {X} `{GoVal X} owner all keys (sibs : list Source) (docs : list (gmap string X)) :
  (forall sib, sib ∈ sibs -> answersIn (sibFetch owner all sib) /\ oneRow (sibFetch owner all sib) /\ keyKept (sibFetch owner all sib)) -> "" ∉ keys ->
  (forall doc, doc ∈ docs -> KeyOf eng doc (ownerPK owner) <> "" -> KeyOf eng doc (ownerPK owner) ∈ keys) ->
  foldl (fun acc sib => let* docs := acc in siblingBatch eng (ownerPK owner) keys all docs sib) (Ret docs) sibs =
  Ret ((fun doc => if String.eqb (KeyOf eng doc (ownerPK owner)) "" then doc
                   else foldl (withSibling owner all (KeyOf eng doc (ownerPK owner))) doc sibs) <$> docs).
Proof.
  intros Hs He. revert docs. induction sibs as [|sib l IH]; intros docs Hd; cbn [foldl].
  - f_equal. rewrite <- (list_fmap_id docs) at 1. apply list_fmap_ext. intros i doc _. cbn. by destruct (String.eqb _ _).
  - destruct (Hs sib) as (H1&H2&H3); [by apply list_elem_of_here|]. cbn [obind]. rewrite siblingBatch_step by done.
    assert (Hpk : forall doc : gmap string X, KeyOf eng (if String.eqb (KeyOf eng doc (ownerPK owner)) "" then doc else withSibling owner all (KeyOf eng doc (ownerPK owner)) doc sib) (ownerPK owner) = KeyOf eng doc (ownerPK owner)).
    { intros doc. destruct (String.eqb _ _); [done|]. apply keyOf_ext, withSibling_pk. }
    rewrite IH; [|intros s' Hs'; apply Hs; by apply list_elem_of_further|].
    + f_equal. rewrite <- list_fmap_compose. apply list_fmap_ext. intros i doc _. cbn. rewrite Hpk. by destruct (String.eqb _ _).
    + intros doc (doc0&->&Hd0)%list_elem_of_fmap. rewrite Hpk. by apply Hd.
Qed.

Lemma siblings_batch {X} `{GoVal X} owner all (docs : list (gmap string X)) :
  (forall sib, sib ∈ ow_siblings owner -> answersIn (sibFetch owner all sib) /\ oneRow (sibFetch owner all sib) /\ keyKept (sibFetch owner all sib)) ->
  MergeOwnerSiblingsBatch eng docs owner all = Ret ((fun doc => withSiblings owner all (KeyOf eng doc (ownerPK owner)) doc) <$> docs).
Proof.
  intros Hs. unfold withSiblings. rewrite <- (siblings_fold owner all (CollectKeys eng docs (ownerPK owner)) (ow_siblings owner) docs);
    [|done|apply collectKeys_empty|intros doc; apply collectKeys_elem].
  unfold MergeOwnerSiblingsBatch. destruct (ow_siblings owner) as [|s l] eqn:E; [done|]. destruct docs; [|done].
  rewrite siblings_fold; [done|by intros sib Hsib; apply Hs|apply collectKeys_empty|]. intros doc Hdoc. by apply not_elem_of_nil in Hdoc.
Qed.

(** ** The shared base *)

Definition baseFetch (base : BaseSource) (all : bool) : Fetch :=
  mkFetch (bs_source base) (so_table (bs_source base)) (so_idColumn (bs_source base)) "" all.

(** A role's document with the columns of its base. *)
Definition withBase {X} `{GoVal X} (s : RootSource) (all : bool) (doc : gmap string X) : gmap string X :=
  match rt_base s with
  | None => doc
  | Some base =>
      let key := KeyOf eng doc (so_baseLink (rt_source s)) in
      if String.eqb key "" then doc
      else match head (rowsOf (baseFetch base all) key) with Some r => overlayBase (bs_source base) (rt_source s) r doc | None => doc end
  end.

Lemma base_one {X} `{GoVal X} s all (doc : gmap string X) :
  (forall base, rt_base s = Some base -> keyed doc (so_baseLink (rt_source s)) /\ answersRow (baseFetch base all) /\ oneRow (baseFetch base all)) ->
  MergeSharedBase eng doc s all = Ret (withBase s all doc).
Proof.
  intros Hb. unfold MergeSharedBase, withBase. destruct (rt_base s) as [base|]; [|done].
  destruct (Hb base) as (Hk&H1&H2); [done|]. apply keyOf_keyed in Hk. destruct (keyValue doc _) as [fk|]; [|by rewrite Hk].
  destruct Hk as [Hk Hne]. apply String.eqb_neq in Hne. rewrite Hne. pose proof (fetchRow_row _ (fmtAny eng fk) H1 H2) as Hf. cbn in Hf.
  rewrite Hf, Hk. cbn. by destruct (head _).
Qed.

Lemma base_batch {X} `{GoVal X} s all (docs : list (gmap string X)) :
  (forall base, rt_base s = Some base -> answersIn (baseFetch base all) /\ oneRow (baseFetch base all) /\ keyKept (baseFetch base all)) ->
  MergeSharedBaseBatch eng docs s all = Ret (withBase s all <$> docs).
Proof.
  intros Hb. unfold MergeSharedBaseBatch, withBase. destruct (rt_base s) as [base|]; [|by rewrite list_fmap_id].
  destruct (Hb base) as (H1&H2&H3); [done|]. set (fk := so_baseLink (rt_source s)).
  destruct (grouped_rows _ (CollectKeys eng docs fk) H1 H3) as (g&Hg&Hin&Hout&_). cbn in Hg. rewrite Hg. cbn. f_equal.
  apply (nest_first (baseFetch base all) g (CollectKeys eng docs fk) (fun doc => KeyOf eng doc fk)); [done..|apply collectKeys_empty|].
  intros doc. apply collectKeys_elem.
Qed.

End Selected.
