(* ===== verification/Composer.v ===== *)
(** * The composer

    [infra/db/query/composer.go] (one root), [infra/db/query/composer_batch.go] (a batch
    of roots) and the trimming of [infra/db/query/embed_fields.go]: the document of a
    view, hydrated from the relational store with its external embeds on top.

    A view is what the composer reads of it ([ViewSource]).  The read model is a pair of
    finders over physical collections, the resolver a function from a collection's name
    to the physical one. *)

From S2P Require Import Prelude Naming Errors BaseEntity Criteria CriteriaSql Mongo Hydrate.
From stdpp Require Import base gmap strings list fin_maps.
From Stdlib Require Import ZArith Lia.

Open Scope string_scope.
Open Scope list_scope.
Open Scope go_scope.

(** ** Views *)

(** What trimming reads of the view a leg joins: the columns of its Go fields, the document
    fields of its top-level segments, its id column. *)
Record LegView := mkLegView { lv_name : string; lv_columns : gmap string string; lv_segments : gmap string string; lv_idColumn : string }.

(** [sl_table] is the table of an external leg's schema. *)
Record SourceLeg := mkSourceLeg { sl_view : option LegView; sl_table : string; sl_externalName : string; sl_fields : list string }.

Definition legCollection (leg : SourceLeg) : string :=
  match sl_view leg with Some v => lv_name v | None => sl_table leg end.

Record Embed := mkEmbedSource { eb_leg : SourceLeg; eb_many : bool; eb_joinCol : string; eb_orderBy : string }.

(** [cb_segment] is the segment of the native child. *)
Record ChildEmbed := mkChildEmbedSource { cb_segment : string; cb_leg : SourceLeg; cb_joinCol : string }.

Definition eb_field (e : Embed) : string := sl_externalName (eb_leg e).
Definition cb_field (ce : ChildEmbed) : string := sl_externalName (cb_leg ce).

(** [vw_roles]: the segment and the schema of each role of a SharedBaseView. *)
Record ViewSource := mkViewSource {
  vw_schema : RootSource;
  vw_deleteOnArchive : bool;
  vw_isSharedBaseView : bool;
  vw_roles : list (string * RootSource);
  vw_embeds : list Embed;
  vw_childEmbeds : list ChildEmbed
}.

Definition docRevisionField : string := "_revision".

(** ** Trimming ([embed_fields.go]) *)

(** [None]: no trimming. *)
Definition legFieldsColumnSet (leg : SourceLeg) : option (list string) :=
  match sl_view leg, sl_fields leg with
  | Some v, (_ :: _) as fields =>
      let columns := omap (fun f => match lv_columns v !! f with Some c => Some c | None => lv_segments v !! f end) fields in
      Some (columns ++ if String.eqb (lv_idColumn v) "" then [] else [lv_idColumn v])
  | _, _ => None
  end.

Definition embedTrimSet (e : Embed) : option (list string) :=
  set ← legFieldsColumnSet (eb_leg e);
  Some (set ++ (if eb_many e && negb (String.eqb (eb_joinCol e) "") then [eb_joinCol e] else [])
            ++ (if String.eqb (eb_orderBy e) "" then [] else [eb_orderBy e])).

Definition childEmbedTrimSet (ce : ChildEmbed) : option (list string) := legFieldsColumnSet (cb_leg ce).

Definition trimToFields (doc : Document) (allow : option (list string)) : Document :=
  match allow with
  | None => doc
  | Some set => filter (fun c => String.prefix "_" c.1 = true \/ c.1 ∈ set) doc
  end.

Definition trimDocsToFields (docs : list Document) (allow : option (list string)) : list Document :=
  (fun doc => trimToFields doc allow) <$> docs.

(** ** The composer *)

(** A value a finder is asked for may be any value of the document. *)
Record Store := mkStore {
  st_FindManyByField : string -> string -> GVal -> GoErr + list Document;
  st_FindManyByFieldIn : string -> string -> list GVal -> GoErr + list Document
}.

Record Composer (Arg : Type) := mkComposer {
  cp_eng : Engine Arg;
  cp_mongo : option Store;
  cp_active : string -> string
}.

Arguments cp_eng {Arg}.
Arguments cp_mongo {Arg}.
Arguments cp_active {Arg}.

Definition liftE {A} (r : GoErr + A) : HM A :=
  fun h => (h, match r with inr a => Ret a | inl e => Fail e end).

Fixpoint mapHM {A B} (f : A -> HM B) (l : list A) : HM (list B) :=
  match l with
  | [] => gret []
  | x :: rest => y <- f x;; ys <- mapHM f rest;; gret (y :: ys)
  end.

Definition rowDoc (row : Document) : gmap string GVal := (fun v => GPlain (SRaw v)) <$> row.
Definition roleDoc (row : Document) : gmap string SVal := SRaw <$> row.
Definition docValue (doc : Document) : GVal := GPlain (SRaw (MDoc doc)).
Definition nilValue : GVal := GPlain (SRaw MNull).

Section Compose.
Context {Arg : Type} (c : Composer Arg).

Abbreviation eng := (cp_eng c).
Abbreviation Doc := (gmap string GVal).

Definition requireStore : HM Store :=
  match cp_mongo c with
  | Some store => gret store
  | None => gfail (ELeaf "composer: view embed requires a MongoDB handle")
  end.

(** ** Embeds of one root *)

Definition fetchMongoEmbed (doc : Doc) (parentPK : string) (e : Embed) : HM Doc :=
  store <- requireStore;;
  let coll := cp_active c (legCollection (eb_leg e)) in
  if eb_many e then
    match keyValue doc parentPK with
    | None => gret doc
    | Some id =>
        docs <- liftE (st_FindManyByField store coll (eb_joinCol e) id);;
        r <- arrayOf (trimDocsToFields docs (embedTrimSet e));;
        gret (<[eb_field e := gv_arr r]> doc)
    end
  else
    match keyValue doc (eb_joinCol e) with
    | None => gret (<[eb_field e := nilValue]> doc)
    | Some fk =>
        docs <- liftE (st_FindManyByField store coll "_id" fk);;
        gret (<[eb_field e := match docs with
                              | [] => nilValue
                              | found :: _ => docValue (trimToFields found (embedTrimSet e))
                              end]> doc)
    end.

Definition applyEmbeds (doc : Doc) (parentPK : string) (embeds : list Embed) : HM Doc :=
  foldl (fun acc e => doc <- acc;; fetchMongoEmbed doc parentPK e) (gret doc) embeds.

(** ** Enrichment of the elements of a native child *)

(** The values by their text, each text once. *)
Definition distinctBy {A} (text : A -> string) (l : list A) : list A :=
  snd (foldl (fun acc x => if bool_decide (text x ∈ acc.1) then acc else (text x :: acc.1, acc.2 ++ [x])) ([], []) l).

(** The found documents by the text of their id. *)
Definition byID (allow : option (list string)) (docs : list Document) : gmap string Document :=
  foldl (fun m d => <[match d !! "_id" with Some v => fmtV eng v | None => "<nil>" end := trimToFields d allow]> m) ∅ docs.

Definition enrichElement (field fkCol : string) (found : gmap string Document) (el : Document) : Document :=
  <[field := match keyValue el fkCol with
             | None => MNull
             | Some v => match found !! fmtV eng v with Some d => MDoc d | None => MNull end
             end]> el.

Definition enrichArray (store : Store) (ce : ChildEmbed) (arr : list Document) : HM (list Document) :=
  let values := distinctBy (fmtV eng) (omap (fun el => keyValue el (cb_joinCol ce)) arr) in
  found <- match values with
           | [] => gret ∅
           | _ =>
               docs <- liftE (st_FindManyByFieldIn store (cp_active c (legCollection (cb_leg ce))) "_id" (gv_raw <$> values));;
               gret (byID (childEmbedTrimSet ce) docs)
           end;;
  gret (enrichElement (cb_field ce) (cb_joinCol ce) found <$> arr).

Definition readArr (h : Heap) (r : ArrRef) : list Document :=
  match r with RAt fetch key => default [] (h !! fetch ≫= lookup key) | _ => [] end.

Definition writeArr (r : ArrRef) (arr : list Document) (h : Heap) : Heap :=
  match r with RAt fetch key => alter (insert key arr) fetch h | _ => h end.

(** The elements are rewritten where they are. *)
Definition applyChildEmbed (doc : Doc) (store : Store) (ce : ChildEmbed) : HM unit :=
  match doc !! cb_segment ce with
  | Some (GPlain (SArr r)) =>
      h <- gget;;
      match readArr h r with
      | [] => gret tt
      | arr => arr' <- enrichArray store ce arr;; gmodify (writeArr r arr')
      end
  | _ => gret tt
  end.

Fixpoint eachChildEmbed (doc : Doc) (store : Store) (l : list ChildEmbed) : HM unit :=
  match l with
  | [] => gret tt
  | ce :: rest => applyChildEmbed doc store ce;;; eachChildEmbed doc store rest
  end.

Definition applyChildEmbeds (doc : Doc) (childEmbeds : list ChildEmbed) : HM unit :=
  match childEmbeds with
  | [] => gret tt
  | _ => store <- requireStore;; eachChildEmbed doc store childEmbeds
  end.

(** ** One root *)

Definition fetchRoleRow (role : RootSource) (baseID : string) (includeArchived : bool) : Outcome GoErr (option Document) :=
  let s := rt_source role in
  let fkCol := so_baseLink s in
  let archivedCol := SchemaArchivedAt s in
  if String.eqb archivedCol "" then FetchRow eng s (so_table s) fkCol baseID "" true
  else
    let* active := FetchRow eng s (so_table s) fkCol baseID archivedCol false in
    match active with
    | Some _ => Ret active
    | None => if includeArchived then FetchLatestArchived eng s fkCol baseID archivedCol else Ret None
    end.

(** A role's document from its row. *)
Definition composeRole (role : RootSource) (row : Document) (includeArchived : bool) : HM (gmap string SVal) :=
  let s := rt_source role in
  let id := match row !! SchemaPK s with Some v => fmtV eng v | None => "<nil>" end in
  d <- liftO (MergeOwnerSiblings eng (roleDoc row) (rt_owner role) id includeArchived);;
  d <- MergeOwnChildren eng d role includeArchived;;
  gret (RemapRevision d s docRevisionField).

(** One role of a base; an absent one is an explicit null. *)
Definition applyRole (baseID : string) (includeArchived : bool) (row : Doc) (r : string * RootSource) : HM Doc :=
  found <- liftO (fetchRoleRow r.2 baseID includeArchived);;
  match found with
  | None => gret (<[r.1 := nilValue]> row)
  | Some roleRow => d <- composeRole r.2 roleRow includeArchived;; gret (<[r.1 := GSub d]> row)
  end.

Definition composeBaseRootedRow (view : ViewSource) (row : Doc) (baseID : string) (includeArchived : bool) : HM Doc :=
  row <- MergeOwnChildren eng row (vw_schema view) includeArchived;;
  row <- foldl (fun acc r => row <- acc;; applyRole baseID includeArchived row r) (gret row) (vw_roles view);;
  row <- applyEmbeds row (SchemaPK (rt_source (vw_schema view))) (vw_embeds view);;
  applyChildEmbeds row (vw_childEmbeds view);;;
  gret row.

Definition composeRow (view : ViewSource) (row : Doc) (rootID : string) (includeArchived : bool) : HM Doc :=
  let s := vw_schema view in
  row <- liftO (MergeOwnerSiblings eng row (rt_owner s) rootID includeArchived);;
  row <- liftO (MergeSharedBase eng row s includeArchived);;
  row <- MergeSharedBaseChildren eng row s includeArchived;;
  row <- MergeOwnChildren eng row s includeArchived;;
  row <- applyEmbeds row (SchemaPK (rt_source s)) (vw_embeds view);;
  applyChildEmbeds row (vw_childEmbeds view);;;
  gret row.

Definition Compose (view : ViewSource) (rootID : string) : HM (option Doc) :=
  let includeArchived := negb (vw_deleteOnArchive view) in
  let s := rt_source (vw_schema view) in
  found <- liftO (FetchRow eng s (so_table s) (SchemaPK s) rootID (SchemaArchivedAt s) includeArchived);;
  match found with
  | None => gret None
  | Some r =>
      let row := RemapRevision (rowDoc r) s docRevisionField in
      doc <- (if vw_isSharedBaseView view then composeBaseRootedRow view row rootID includeArchived
              else composeRow view row rootID includeArchived);;
      gret (Some doc)
  end.

(** ** A batch of roots *)

Definition findEmbedsGrouped (store : Store) (coll keyCol : string) (keys : list GVal) : HM (gmap string (list Document)) :=
  match keys with
  | [] => gret ∅
  | _ =>
      docs <- liftE (st_FindManyByFieldIn store coll keyCol (distinctBy (fmtAny eng) keys));;
      gret (foldl (fun out d =>
        match keyValue d keyCol with
        | Some v => let gk := fmtV eng v in <[gk := default [] (out !! gk) ++ [d]]> out
        | None => out
        end) ∅ docs)
  end.

(** The array of a 1:N embed: trimming copies it, an untrimmed group is shared. *)
Definition landMany (fetch : nat) (grouped : gmap string (list Document)) (e : Embed) (parentPK : string) (doc : Doc) : HM Doc :=
  match keyValue doc parentPK with
  | None => gret doc
  | Some v =>
      let key := fmtAny eng v in
      r <- match grouped !! key, embedTrimSet e with
           | None, _ => gret RNil
           | Some _, None => gret (RAt fetch key)
           | Some docs, allow => arrayOf (trimDocsToFields docs allow)
           end;;
      gret (<[eb_field e := gv_arr r]> doc)
  end.

Definition landOne (grouped : gmap string (list Document)) (e : Embed) (doc : Doc) : Doc :=
  <[eb_field e := match keyValue doc (eb_joinCol e) with
                  | None => nilValue
                  | Some v =>
                      match grouped !! fmtAny eng v with
                      | Some (found :: _) => docValue (trimToFields found (embedTrimSet e))
                      | _ => nilValue
                      end
                  end]> doc.

Definition applyEmbedBatch (docs : list Doc) (store : Store) (parentPK : string) (e : Embed) : HM (list Doc) :=
  let coll := cp_active c (legCollection (eb_leg e)) in
  if eb_many e then
    grouped <- findEmbedsGrouped store coll (eb_joinCol e) (omap (fun doc => keyValue doc parentPK) docs);;
    fetch <- publish grouped;;
    mapHM (landMany fetch grouped e parentPK) docs
  else
    grouped <- findEmbedsGrouped store coll "_id" (omap (fun doc => keyValue doc (eb_joinCol e)) docs);;
    gret (landOne grouped e <$> docs).

Definition applyEmbedsBatch (docs : list Doc) (parentPK : string) (embeds : list Embed) : HM (list Doc) :=
  match embeds, docs with
  | [], _ | _, [] => gret docs
  | _, _ =>
      store <- requireStore;;
      foldl (fun acc e => docs <- acc;; applyEmbedBatch docs store parentPK e) (gret docs) embeds
  end.

(** The active role row of each base of the batch, with its base's key. *)
Definition activeRoles (grouped : gmap string (list Document)) (basePK : string) (rows : list Doc) : list (string * Document) :=
  omap (fun row =>
    let bid := KeyOf eng row basePK in
    if String.eqb bid "" then None
    else match grouped !! bid with Some (r :: _) => Some (bid, r) | _ => None end) rows.

(** The remnant of each base that has no active row. *)
Definition archivedRoles (s : Source) (basePK : string) (rows : list Doc) (chosen : list (string * Document)) : Outcome GoErr (list (string * Document)) :=
  foldl (fun acc row =>
    let* chosen := acc in
    let bid := KeyOf eng row basePK in
    if String.eqb bid "" || bool_decide (bid ∈ fst <$> chosen) then Ret chosen
    else
      let* arch := FetchLatestArchived eng s (so_baseLink s) bid (SchemaArchivedAt s) in
      Ret (match arch with Some r => chosen ++ [(bid, r)] | None => chosen end)) (Ret chosen) rows.

Definition composeRoleBatch (rows : list Doc) (basePK : string) (r : string * RootSource) (includeArchived : bool) : HM (list Doc) :=
  let role := r.2 in
  let s := rt_source role in
  let archivedCol := SchemaArchivedAt s in
  let hasArchived := negb (String.eqb archivedCol "") in
  let baseIDs := CollectKeys eng rows basePK in
  grouped <- liftO (if hasArchived then FetchInGrouped eng s (so_table s) (so_baseLink s) baseIDs archivedCol false
                    else FetchInGrouped eng s (so_table s) (so_baseLink s) baseIDs "" true);;
  let active := activeRoles grouped basePK rows in
  chosen <- liftO (if hasArchived && includeArchived then archivedRoles s basePK rows active else Ret active);;
  docs <- liftO (MergeOwnerSiblingsBatch eng ((fun x => roleDoc x.2) <$> chosen) (rt_owner role) includeArchived);;
  docs <- MergeOwnChildrenBatch eng docs role includeArchived;;
  let roleByBase := list_to_map (zip (fst <$> chosen) docs) : gmap string (gmap string SVal) in
  gret ((fun row =>
    <[r.1 := match roleByBase !! KeyOf eng row basePK with
             | Some d => GSub (RemapRevision d s docRevisionField)
             | None => nilValue
             end]> row) <$> rows).

Definition composeBaseRootedRowsBatched (view : ViewSource) (rows : list Doc) (includeArchived : bool) : HM (list Doc) :=
  let basePK := SchemaPK (rt_source (vw_schema view)) in
  rows <- MergeOwnChildrenBatch eng rows (vw_schema view) includeArchived;;
  rows <- foldl (fun acc r => rows <- acc;; composeRoleBatch rows basePK r includeArchived) (gret rows) (vw_roles view);;
  applyEmbedsBatch rows basePK (vw_embeds view).

Definition composeRowsBatched (view : ViewSource) (rows : list Doc) (includeArchived : bool) : HM (list Doc) :=
  let s := vw_schema view in
  rows <- liftO (MergeOwnerSiblingsBatch eng rows (rt_owner s) includeArchived);;
  rows <- liftO (MergeSharedBaseBatch eng rows s includeArchived);;
  rows <- MergeSharedBaseChildrenBatch eng rows s includeArchived;;
  rows <- MergeOwnChildrenBatch eng rows s includeArchived;;
  applyEmbedsBatch rows (SchemaPK (rt_source s)) (vw_embeds view).

Fixpoint eachRowEmbeds (rows : list Doc) (childEmbeds : list ChildEmbed) : HM unit :=
  match rows with
  | [] => gret tt
  | row :: rest => applyChildEmbeds row childEmbeds;;; eachRowEmbeds rest childEmbeds
  end.

Definition composeRows (view : ViewSource) (rows : list Document) (includeArchived : bool) : HM (list Doc) :=
  match rows with
  | [] => gret []
  | _ =>
      let rows := (fun r => RemapRevision (rowDoc r) (rt_source (vw_schema view)) docRevisionField) <$> rows in
      rows <- (if vw_isSharedBaseView view then composeBaseRootedRowsBatched view rows includeArchived
               else composeRowsBatched view rows includeArchived);;
      eachRowEmbeds rows (vw_childEmbeds view);;;
      gret rows
  end.

Definition ComposeBatch (view : ViewSource) (ids : list string) : HM (list Doc) :=
  match ids with
  | [] => gret []
  | _ =>
      let includeArchived := negb (vw_deleteOnArchive view) in
      let s := rt_source (vw_schema view) in
      rows <- liftO (FetchByIDs eng s (so_table s) (SchemaPK s) ids (SchemaArchivedAt s) includeArchived);;
      composeRows view rows includeArchived
  end.

Definition ComposeAll (view : ViewSource) : HM (list Doc) :=
  let includeArchived := negb (vw_deleteOnArchive view) in
  let s := rt_source (vw_schema view) in
  rows <- liftO (FetchAll eng s (so_table s) (SchemaArchivedAt s) includeArchived);;
  composeRows view rows includeArchived.

End Compose.
