(* ===== verification/ComposerProps.v ===== *)
(** * The steps of a composition

    Documents under construction as they are read, and for each step of the composer, for
    one root and for a batch, that it leaves the documents holding the same. *)

From S2P Require Import Prelude Naming Errors BaseEntity Criteria CriteriaSql Mongo Hydrate HydrateProps Composer.
From stdpp Require Import base gmap strings list fin_maps.
From Stdlib Require Import ZArith Lia.

Open Scope string_scope.
Open Scope list_scope.
Open Scope go_scope.

(** * Documents as they are read

    A document under construction refers to arrays of the heap.  [observe] is what it
    holds, up to the order of its arrays; the lemmas follow the references from the
    fetches that make them to the embeds that rewrite their elements. *)

(** ** Observations *)

(** A nil slice reads as an empty one. *)
Inductive SObs := ORaw (v : MVal) | OArr (l : list Document).
Inductive GObs := OPlain (o : SObs) | OSub (d : gmap string SObs).

(** The order of an array is not looked at: the statements that fill it have none. *)
#[export] Instance SObs_equiv : Equiv SObs := fun a b =>
  match a, b with
  | ORaw v, ORaw w => v = w
  | OArr l, OArr m => l ≡ₚ m
  | _, _ => False
  end.

#[export] Instance SObs_equivalence : Equivalence (≡@{SObs}).
Proof.
  split.
  - intros [v|l]; unfold equiv, SObs_equiv; reflexivity.
  - intros [v|l] [w|m]; unfold equiv, SObs_equiv; [congruence|done|done|by intros ->].
  - intros [v|l] [w|m] [u|n]; unfold equiv, SObs_equiv; try done; [congruence|]. intros ->. done.
Qed.

#[export] Instance GObs_equiv : Equiv GObs := fun a b =>
  match a, b with
  | OPlain o, OPlain o' => o ≡ o'
  | OSub d, OSub d' => d ≡ d'
  | _, _ => False
  end.

#[export] Instance GObs_equivalence : Equivalence (≡@{GObs}).
Proof.
  split.
  - intros [o|d]; unfold equiv, GObs_equiv; reflexivity.
  - intros [o|d] [o'|d']; unfold equiv, GObs_equiv; try done; by symmetry.
  - intros [o|d] [o'|d'] [o''|d'']; unfold equiv, GObs_equiv; try done; by etrans.
Qed.

#[export] Instance OArr_proper : Proper ((≡ₚ) ==> (≡)) OArr.
Proof. by intros l m Hp. Qed.

#[export] Instance OPlain_proper : Proper ((≡) ==> (≡)) OPlain.
Proof. by intros a b Hab. Qed.

#[export] Instance OSub_proper : Proper ((≡) ==> (≡)) OSub.
Proof. by intros a b Hab. Qed.

Definition observeS (h : Heap) (x : SVal) : SObs :=
  match x with SRaw v => ORaw v | SArr r => OArr (readArr h r) end.

Definition observeG (h : Heap) (x : GVal) : GObs :=
  match x with GPlain s => OPlain (observeS h s) | GSub d => OSub (observeS h <$> d) end.

(** What a document holds. *)
Definition observe (h : Heap) (doc : gmap string GVal) : gmap string GObs := observeG h <$> doc.

(** ** References *)

Definition refersS (x : SVal) (f : nat) (k : string) : Prop := x = SArr (RAt f k).
Definition refersG (x : GVal) (f : nat) (k : string) : Prop :=
  match x with GPlain s => refersS s f k | GSub d => exists c s, d !! c = Some s /\ refersS s f k end.

(** Values of a document a merge fills, and what is read of them. *)
Class Observable (X O : Type) `{GoVal X} `{GoArr X} `{Equiv O} := {
  ob_read : Heap -> X -> O;
  ob_array : list Document -> O;
  ob_refers : X -> nat -> string -> Prop;
  ob_read_arr h r : ob_read h (gv_arr r) = ob_array (readArr h r);
  ob_refers_arr r f k : ob_refers (gv_arr r) f k <-> r = RAt f k;
  ob_refers_raw v f k : ~ ob_refers (gv_raw v) f k;
  ob_frame h h' x : (forall f k, ob_refers x f k -> readArr h (RAt f k) = readArr h' (RAt f k)) -> ob_read h x = ob_read h' x;
  ob_equivalence :: Equivalence (≡@{O});
  ob_array_proper :: Proper ((≡ₚ) ==> (≡)) ob_array
}.

Lemma observeS_frame h h' x : (forall f k, refersS x f k -> readArr h (RAt f k) = readArr h' (RAt f k)) -> observeS h x = observeS h' x.
Proof. destruct x as [v|r]; [done|]. cbn. intros Hf. destruct r as [| |f k]; [done|done|]. f_equal. by apply Hf. Qed.

#[export] Instance observable_SVal : Observable SVal SObs.
Proof.
  refine {| ob_read := observeS; ob_array := OArr; ob_refers := refersS |}; [done| | |apply observeS_frame].
  - intros r f k. split; [by intros [= ->]|by intros ->].
  - by intros v f k.
Defined.

#[export] Instance observable_GVal : Observable GVal GObs.
Proof.
  refine {| ob_read := observeG; ob_array l := OPlain (OArr l); ob_refers := refersG |}; [done| | | |].
  - intros r f k. split; [by intros [= ->]|by intros ->].
  - by intros v f k.
  - intros h h' [s|d] Hf; cbn; f_equal; [by apply observeS_frame|]. apply map_fmap_ext. intros c s Hs. apply observeS_frame.
    intros f k Hr. apply Hf. cbn. eauto.
  - intros l m Hp. cbn. by rewrite Hp.
Defined.

(** ** Loops over a list *)

(** The fold of a loop that rebinds its document takes one element at a time. *)
Lemma fold_rebind {A D} (F : D -> A -> HM D) (m : HM D) l h :
  foldl (fun acc x => d <- acc;; F d x) m l h = (d <- m;; foldl (fun acc x => d <- acc;; F d x) (gret d) l) h.
Proof.
  revert m h. induction l as [|x l IH]; intros m h; cbn [foldl].
  - unfold gbind. destruct (m h) as [h1 [d|e|s]]; done.
  - rewrite IH. unfold gbind. destruct (m h) as [h1 [d|e|s]] eqn:E; [|done|done]. symmetry. exact (IH (gbind (gret d) (fun d => F d x)) h1).
Qed.

Lemma fold_cons {A D} (F : D -> A -> HM D) d x l h :
  foldl (fun acc x => d <- acc;; F d x) (gret d) (x :: l) h = (d' <- F d x;; foldl (fun acc x => d <- acc;; F d x) (gret d') l) h.
Proof. cbn [foldl]. rewrite fold_rebind. unfold gbind, gret. done. Qed.

Lemma bind_ret {A B} (m : HM A) (k : A -> HM B) h h1 a : m h = (h1, Ret a) -> (x <- m;; k x) h = k a h1.
Proof. intros E. unfold gbind. by rewrite E. Qed.

Lemma readArr_app (h e : Heap) f k : (f < length h)%nat -> readArr (h ++ e) (RAt f k) = readArr h (RAt f k).
Proof. intros Hf. cbn. by rewrite lookup_app_l. Qed.

Lemma readArr_last (h : Heap) g k : readArr (h ++ [g]) (RAt (length h) k) = default [] (g !! k).
Proof. cbn. by rewrite lookup_app_r, Nat.sub_diag by lia. Qed.

(** ** A document and what it is to hold *)

Section Rep.
Context {X O : Type} `{HX : GoVal X} `{HA : GoArr X} `{HO : Equiv O} `{Hob : !Observable X O}.
Implicit Types (doc : gmap string X) (sp : gmap string O) (h : Heap).

Definition Rep h doc sp : Prop :=
  (forall c x f k, doc !! c = Some x -> ob_refers x f k -> (f < length h)%nat) /\ (ob_read h <$> doc : gmap string O) ≡ sp.

Lemma Rep_mono h e doc sp : Rep h doc sp -> Rep (h ++ e) doc sp.
Proof.
  intros [Hw Ho]. split; [intros c x f k H1 H2; rewrite length_app; specialize (Hw c x f k H1 H2); lia|].
  rewrite <- Ho. apply reflexive_eq, map_fmap_ext. intros c x Hx. apply ob_frame. intros f k Hr. apply readArr_app. eauto.
Qed.

Lemma Rep_prefix h h' doc sp : h `prefix_of` h' -> Rep h doc sp -> Rep h' doc sp.
Proof. intros [e ->]. apply Rep_mono. Qed.

Lemma Rep_insert h doc sp c x o : Rep h doc sp -> (forall f k, ob_refers x f k -> (f < length h)%nat) -> ob_read h x ≡ o ->
  Rep h (<[c := x]> doc) (<[c := o]> sp).
Proof.
  intros [Hw Ho] Hx Hr. split.
  - intros c' x' f k. rewrite lookup_insert. case_decide; [by intros [= <-]; apply Hx|apply Hw].
  - rewrite fmap_insert. apply insert_proper; [exact Hr|exact Ho].
Qed.

Lemma Rep_spec h doc sp sp' : sp ≡ sp' -> Rep h doc sp -> Rep h doc sp'.
Proof. intros Hs [Hw Ho]. split; [done|]. by rewrite Ho. Qed.

(** A column is as before, or one of [segs] whose array is the group [key] of the fetch
    [lo + n], [n] its place in [segs]. *)
Definition nested (lo : nat) (segs : list string) (key : string) doc doc' : Prop := forall c,
  doc' !! c = doc !! c \/
  (c ∈ segs /\ forall x f k, doc' !! c = Some x -> ob_refers x f k -> k = key /\ (lo <= f)%nat /\ segs !! (f - lo)%nat = Some c).

Lemma nested_refl lo segs key doc : nested lo segs key doc doc.
Proof. intros c. by left. Qed.

Lemma nested_cons lo s segs key doc doc1 doc2 :
  (forall c, c <> s -> doc1 !! c = doc !! c) ->
  (doc1 !! s = doc !! s \/ forall x f k, doc1 !! s = Some x -> ob_refers x f k -> f = lo /\ k = key) ->
  nested (S lo) segs key doc1 doc2 -> nested lo (s :: segs) key doc doc2.
Proof.
  intros Hne Hs Hn c. destruct (Hn c) as [Heq|[Hin Hc]].
  - destruct (decide (c = s)) as [->|Hcs]; [|left; by rewrite Heq, Hne]. destruct Hs as [Hs|Hs]; [left; congruence|].
    right. split; [set_solver|]. intros x f k Hx Hr. rewrite Heq in Hx. destruct (Hs x f k Hx Hr) as [-> ->]. by rewrite Nat.sub_diag.
  - right. split; [set_solver|]. intros x f k Hx Hr. destruct (Hc x f k Hx Hr) as (->&Hle&Hl). split; [done|]. split; [lia|].
    by replace (f - lo)%nat with (S (f - S lo)) by lia.
Qed.

(** ** Nesting the rows of child tables *)

Context {C : Type} (seg : C -> string) (rowsFor : C -> string -> list Document).

(** What the children of a key add. *)
Definition withArrays (l : list C) (key : string) sp : gmap string O :=
  if String.eqb key "" then sp else foldl (fun sp ch => <[seg ch := ob_array (rowsFor ch key)]> sp) sp l.

(** A loop body that fetches the rows of one child for one root. *)
Definition nestsRow (B : gmap string X -> C -> HM (gmap string X)) (key : string) (ch : C) : Prop := forall doc h, exists rows,
  B doc ch h = (h ++ [{[ "" := rows ]}], Ret (<[seg ch := gv_arr (RAt (length h) "")]> doc)) /\ rows ≡ₚ rowsFor ch key.

Lemma nest_rows B key l doc h sp : (forall ch, ch ∈ l -> nestsRow B key ch) -> key <> "" -> Rep h doc sp ->
  exists h' doc', foldl (fun acc ch => d <- acc;; B d ch) (gret doc) l h = (h', Ret doc') /\
    h `prefix_of` h' /\ length h' = (length h + length l)%nat /\ Rep h' doc' (withArrays l key sp) /\ nested (length h) (seg <$> l) "" doc doc'.
Proof.
  intros HB Hk. unfold withArrays. rewrite (proj2 (String.eqb_neq key "")) by done. revert doc h sp.
  induction l as [|ch l IH]; intros doc h sp HR.
  - exists h, doc. split; [done|]. split; [done|]. split; [cbn; lia|]. split; [done|apply nested_refl].
  - destruct (HB ch ltac:(by apply list_elem_of_here) doc h) as (rows&HBh&Hrows). rewrite fold_cons, (bind_ret _ _ _ _ _ HBh).
    destruct (IH ltac:(intros ch' Hch; apply HB; by apply list_elem_of_further) (<[seg ch := gv_arr (RAt (length h) "")]> doc) (h ++ [{[ "" := rows ]}])
      (<[seg ch := ob_array (rowsFor ch key)]> sp)) as (h'&doc'&Hf&Hp&Hl&HR'&Hn).
    { apply Rep_insert; [by apply Rep_mono| |].
      - intros f k [= <- <-]%ob_refers_arr. rewrite length_app. cbn. lia.
      - rewrite ob_read_arr, readArr_last, lookup_singleton_eq. cbn. by rewrite Hrows. }
    exists h', doc'. split; [done|]. split; [etrans; [by eexists|exact Hp]|]. rewrite length_app in Hl. cbn in Hl. split; [cbn; lia|]. split; [exact HR'|].
    cbn. eapply nested_cons; [| |rewrite length_app, Nat.add_1_r in Hn; exact Hn].
    + intros c Hc. by rewrite lookup_insert_ne.
    + right. intros x f k. rewrite lookup_insert_eq. intros [= <-] [= <- <-]%ob_refers_arr. done.
Qed.

(** ... for a batch: [key] is the key of a document. *)
Definition nestsBatch (B : list (gmap string X) -> C -> HM (list (gmap string X))) (key : gmap string X -> string) (keys : list string) (ch : C) : Prop :=
  forall docs h, exists g,
  B docs ch h = (h ++ [g], Ret ((fun doc => if String.eqb (key doc) "" then doc else <[seg ch := gv_arr (groupRef (length h) g (key doc))]> doc) <$> docs)) /\
  forall k, k ∈ keys -> default [] (g !! k) ≡ₚ rowsFor ch k.

Lemma groupRef_read (h : Heap) g k : readArr (h ++ [g]) (groupRef (length h) g k) = default [] (g !! k).
Proof. unfold groupRef. destruct (g !! k) eqn:E; [by rewrite readArr_last, E|done]. Qed.

Lemma groupRef_at f g k f' k' : groupRef f g k = RAt f' k' -> f' = f /\ k' = k.
Proof. unfold groupRef. destruct (g !! k); [by intros [= -> ->]|done]. Qed.

Lemma nest_batch B (key : gmap string X -> string) keys l docs h sps :
  (forall ch, ch ∈ l -> nestsBatch B key keys ch) -> (forall ch doc x, ch ∈ l -> key (<[seg ch := x]> doc) = key doc) ->
  Forall2 (fun doc sp => Rep h doc sp /\ (key doc <> "" -> key doc ∈ keys)) docs sps ->
  exists h' docs', foldl (fun acc ch => ds <- acc;; B ds ch) (gret docs) l h = (h', Ret docs') /\
    h `prefix_of` h' /\ length h' = (length h + length l)%nat /\
    Forall2 (fun doc' x => Rep h' doc' (withArrays l (key x.1) x.2) /\ nested (length h) (seg <$> l) (key x.1) x.1 doc') docs' (zip docs sps).
Proof.
  revert docs h sps. induction l as [|ch l IH]; intros docs h sps HB Hkey HR.
  - exists h, docs. split; [done|]. split; [done|]. split; [cbn; lia|]. unfold withArrays. cbn.
    induction HR as [|doc sp docs sps [Hd _] _ IHR]; constructor; [|done]. cbn. destruct (String.eqb _ _); (split; [done|apply nested_refl]).
  - destruct (HB ch ltac:(by apply list_elem_of_here) docs h) as (g&HBh&Hg). rewrite fold_cons, (bind_ret _ _ _ _ _ HBh).
    set (step := fun doc : gmap string X => if String.eqb (key doc) "" then doc else <[seg ch := gv_arr (groupRef (length h) g (key doc))]> doc).
    set (step' := fun doc sp => if String.eqb (key doc) "" then sp else <[seg ch := ob_array (rowsFor ch (key doc))]> sp : gmap string O).
    assert (Hks : forall doc, key (step doc) = key doc).
    { intros doc. unfold step. destruct (String.eqb _ _); [done|]. apply Hkey. by apply list_elem_of_here. }
    destruct (IH (step <$> docs) (h ++ [g]) (zip_with step' docs sps)) as (h'&docs'&Hf&Hp&Hl&HR').
    { intros ch' Hch. apply HB. by apply list_elem_of_further. }
    { intros ch' doc x Hch. apply Hkey. by apply list_elem_of_further. }
    { clear -HR Hg Hks. induction HR as [|doc sp docs sps [Hd Hin] _ IHR]; cbn; constructor; [|done]. split; [|by rewrite Hks].
      unfold step, step'. destruct (String.eqb_spec (key doc) "") as [|Hne]; [by apply Rep_mono|]. apply Rep_insert; [by apply Rep_mono| |].
      - intros f k [-> ->]%ob_refers_arr%groupRef_at. rewrite length_app. cbn. lia.
      - rewrite ob_read_arr, groupRef_read, Hg by auto. done. }
    exists h', docs'. split; [done|]. split; [etrans; [by eexists|exact Hp]|]. rewrite length_app in Hl. cbn in Hl. split; [cbn; lia|].
    clear -HR' HR Hks. rewrite length_app, Nat.add_1_r in HR'. revert docs' HR'. induction HR as [|doc sp docs sps _ _ IHR]; intros docs' HR'; cbn in *.
    + by apply Forall2_nil_inv_r in HR' as ->.
    + apply Forall2_cons_inv_r in HR' as (doc'&docs''&[Hd Hn]&Hrest&->). constructor; [|by apply IHR]. cbn [fst snd] in *. rewrite Hks in Hd, Hn. split.
      * revert Hd. unfold withArrays, step'. destruct (String.eqb_spec (key doc) ""); [done|]. cbn. done.
      * cbn. eapply nested_cons; [| |exact Hn]; unfold step.
        -- intros c Hc. destruct (String.eqb _ _); [done|]. by rewrite lookup_insert_ne.
        -- destruct (String.eqb _ _); [by left|]. right. intros x f k. rewrite lookup_insert_eq. intros [= <-] [-> ->]%ob_refers_arr%groupRef_at. done.
Qed.

End Rep.

(** ** Children *)

Section Children.
Context {Arg : Type} (eng : Engine Arg) (tables : string -> list Document).
Context {X O : Type} `{HX : GoVal X} `{HA : GoArr X} `{HO : Equiv O} `{Hob : !Observable X O}.

Abbreviation rowsOf := (rowsOf eng tables).
Abbreviation withSiblings := (withSiblings eng tables).

Definition childFetch (c : Source) (all : bool) : Fetch := mkFetch c (so_table c) (so_parentID c) (SchemaArchivedAt c) all.

(** The rows of a child of a key, with their siblings. *)
Definition ownRows (all : bool) (child : Owner) (key : string) : list Document :=
  (fun r => withSiblings child all (KeyOf eng r (ownerPK child)) r) <$> rowsOf (childFetch (ow_source child) all) key.

Definition baseRows (all : bool) (bc : Source) (key : string) : list Document := rowsOf (childFetch bc all) key.

Abbreviation ownSegment := (fun child => so_segment (ow_source child)).

(** What the source answers for a child and its siblings. *)
Definition childAnswers (all : bool) (child : Owner) : Prop :=
  let f := childFetch (ow_source child) all in
  answersWhere eng tables f /\ answersIn eng tables f /\ keyKept f /\
  forall sib, sib ∈ ow_siblings child ->
    answersIn eng tables (sibFetch child all sib) /\ oneRow eng tables (sibFetch child all sib) /\ keyKept (sibFetch child all sib).

Definition rangesAll : Prop := forall g, en_range eng g ≡ₚ map_to_list g.

Lemma regroup_lookup (groups : list (string * list Document)) (F : Document -> Document) k :
  NoDup (fst <$> groups) -> regroup groups (F <$> concat (snd <$> groups)) !! k = fmap F <$> (list_to_map groups : gmap string (list Document)) !! k.
Proof.
  induction groups as [|[k' g] groups IH]; intros Hnd; [done|]. cbn in *. apply NoDup_cons in Hnd as [_ Hnd]. rewrite fmap_app.
  rewrite take_app_length' by by rewrite length_fmap. rewrite drop_app_length' by by rewrite length_fmap.
  rewrite !lookup_insert. case_decide; [done|]. by apply IH.
Qed.

Lemma regroup_range g (F : Document -> Document) k : rangesAll ->
  regroup (en_range eng g) (F <$> concat (snd <$> en_range eng g)) !! k = fmap F <$> g !! k.
Proof.
  intros Hr. specialize (Hr g). assert (Hnd : NoDup (fst <$> en_range eng g)) by (rewrite Hr; apply NoDup_fst_map_to_list).
  rewrite regroup_lookup by done. rewrite (list_to_map_proper _ _ Hnd Hr). by rewrite list_to_map_to_list.
Qed.

Lemma nestGroups_run g seg col (docs : list (gmap string X)) h :
  nestGroups eng g seg col docs h =
  (h ++ [g], Ret ((fun doc => if String.eqb (KeyOf eng doc col) "" then doc else <[seg := gv_arr (groupRef (length h) g (KeyOf eng doc col))]> doc) <$> docs)).
Proof. done. Qed.

(** The loop bodies of [MergeOwnChildren] and its batch. *)
Lemma own_row all pkVal child : childAnswers all child ->
  nestsRow ownSegment (ownRows all) (fun (doc : gmap string X) child =>
    rows <- liftO (FetchWhere eng (ow_source child) (so_table (ow_source child)) (so_parentID (ow_source child)) pkVal (SchemaArchivedAt (ow_source child)) all);;
    rows <- liftO (MergeOwnerSiblingsBatch eng rows child all);;
    r <- arrayOf rows;;
    gret (<[so_segment (ow_source child) := gv_arr r]> doc)) pkVal child.
Proof.
  intros (Hw&_&_&Hs) doc h. destruct (fetchWhere_rows _ _ _ pkVal Hw) as (rows&Hf&Hp). cbn in Hf.
  eexists. unfold gbind at 1, liftO at 1. rewrite Hf. unfold gbind at 1, liftO. rewrite (siblings_batch eng tables child all rows Hs). split; [done|].
  unfold ownRows. by rewrite Hp.
Qed.

Lemma own_batch all pkCol keys child : childAnswers all child -> rangesAll ->
  nestsBatch ownSegment (ownRows all) (fun (docs : list (gmap string X)) child =>
    grouped <- liftO (FetchInGrouped eng (ow_source child) (so_table (ow_source child)) (so_parentID (ow_source child)) keys (SchemaArchivedAt (ow_source child)) all);;
    rows <- liftO (MergeOwnerSiblingsBatch eng (concat (snd <$> en_range eng grouped)) child all);;
    nestGroups eng (regroup (en_range eng grouped) rows) (so_segment (ow_source child)) pkCol docs) (fun doc => KeyOf eng doc pkCol) keys child.
Proof.
  intros (_&Hi&Hk&Hs) Hr docs h. destruct (grouped_rows _ _ _ keys Hi Hk) as (g&Hf&Hin&_&_). cbn in Hf.
  eexists. unfold gbind at 1, liftO at 1. rewrite Hf. unfold gbind at 1, liftO. rewrite (siblings_batch eng tables child all _ Hs), nestGroups_run. split; [done|].
  intros k Hkk. rewrite regroup_range by done. unfold ownRows. rewrite <- (Hin k Hkk). by destruct (g !! k).
Qed.

Lemma ownChildren_row all s (doc : gmap string X) h sp :
  (forall child, child ∈ rt_children s -> childAnswers all child) -> keyed eng doc (SchemaPK (rt_source s)) -> Rep h doc sp ->
  exists h' doc', MergeOwnChildren eng doc s all h = (h', Ret doc') /\ h `prefix_of` h' /\
    (KeyOf eng doc (SchemaPK (rt_source s)) <> "" -> length h' = (length h + length (rt_children s))%nat) /\
    Rep h' doc' (withArrays ownSegment (ownRows all) (rt_children s) (KeyOf eng doc (SchemaPK (rt_source s))) sp) /\
    nested (length h) (ownSegment <$> rt_children s) "" doc doc'.
Proof.
  intros Ha Hk HR. apply keyOf_keyed in Hk. unfold MergeOwnChildren. destruct (keyValue doc _) as [pkVal|].
  - destruct Hk as [Hk Hne]. rewrite Hk in *.
    destruct (nest_rows ownSegment (ownRows all) _ (fmtAny eng pkVal) (rt_children s) doc h sp (fun child Hc => own_row all (fmtAny eng pkVal) child (Ha child Hc)) Hne HR)
      as (h'&doc'&Hf&Hp&Hl&HR'&Hn). exists h', doc'. done.
  - rewrite Hk. exists h, doc. split; [done|]. split; [done|]. split; [done|]. split; [done|apply nested_refl].
Qed.

Lemma ownChildren_batch all s (docs : list (gmap string X)) h sps :
  (forall child, child ∈ rt_children s -> childAnswers all child /\ ownSegment child <> SchemaPK (rt_source s)) -> rangesAll ->
  docs <> [] -> Forall2 (Rep h) docs sps ->
  exists h' docs', MergeOwnChildrenBatch eng docs s all h = (h', Ret docs') /\ h `prefix_of` h' /\
    length h' = (length h + length (rt_children s))%nat /\
    Forall2 (fun doc' x => Rep h' doc' (withArrays ownSegment (ownRows all) (rt_children s) (KeyOf eng x.1 (SchemaPK (rt_source s))) x.2) /\
      nested (length h) (ownSegment <$> rt_children s) (KeyOf eng x.1 (SchemaPK (rt_source s))) x.1 doc') docs' (zip docs sps).
Proof.
  intros Ha Hr Hne HR. unfold MergeOwnChildrenBatch. destruct docs as [|d0 ds]; [done|]. set (docs := d0 :: ds) in *.
  set (pk := SchemaPK (rt_source s)) in *. set (keys := CollectKeys eng docs pk).
  apply (nest_batch ownSegment (ownRows all) (fun docs child =>
    grouped <- liftO (FetchInGrouped eng (ow_source child) (so_table (ow_source child)) (so_parentID (ow_source child)) keys (SchemaArchivedAt (ow_source child)) all);;
    rows <- liftO (MergeOwnerSiblingsBatch eng (concat (snd <$> en_range eng grouped)) child all);;
    nestGroups eng (regroup (en_range eng grouped) rows) (so_segment (ow_source child)) pk docs) (fun doc => KeyOf eng doc pk) keys).
  - intros ch Hch. apply own_batch; [|done]. by apply Ha.
  - intros ch doc x Hch. apply keyOf_ext. rewrite lookup_insert_ne; [done|]. by apply Ha.
  - apply Forall2_same_length_lookup in HR as [Hlen HR]. apply Forall2_same_length_lookup. split; [done|]. intros i doc sp Hd Hs.
    split; [by eapply HR|]. apply collectKeys_elem. by eapply list_elem_of_lookup_2.
Qed.

(** The children of a shared base. *)
Lemma baseChildren_row all s base (doc : gmap string X) h sp : rt_base s = Some base ->
  (forall bc, bc ∈ bs_children base -> answersWhere eng tables (childFetch bc all)) -> keyed eng doc (so_baseLink (rt_source s)) -> Rep h doc sp ->
  exists h' doc', MergeSharedBaseChildren eng doc s all h = (h', Ret doc') /\ h `prefix_of` h' /\
    Rep h' doc' (withArrays so_segment (baseRows all) (bs_children base) (KeyOf eng doc (so_baseLink (rt_source s))) sp) /\
    nested (length h) (so_segment <$> bs_children base) "" doc doc'.
Proof.
  intros Hb Ha Hk HR. apply keyOf_keyed in Hk. unfold MergeSharedBaseChildren. rewrite Hb. destruct (keyValue doc _) as [baseID|].
  - destruct Hk as [Hk Hne]. rewrite Hk in *. edestruct (nest_rows so_segment (baseRows all) (fun doc bc =>
        rows <- liftO (FetchWhere eng bc (so_table bc) (so_parentID bc) (fmtAny eng baseID) (SchemaArchivedAt bc) all);;
        r <- arrayOf rows;; gret (<[so_segment bc := gv_arr r]> doc)) (fmtAny eng baseID) (bs_children base) doc h sp)
      as (h'&doc'&Hf&Hp&Hl&HR'&Hn); [|done|done|by exists h', doc'].
    intros bc Hbc doc0 h0. destruct (fetchWhere_rows _ _ _ (fmtAny eng baseID) (Ha bc Hbc)) as (rows&Hf&Hp). cbn in Hf.
    exists rows. unfold gbind at 1, liftO. by rewrite Hf.
  - rewrite Hk. exists h, doc. split; [done|]. split; [done|]. split; [done|apply nested_refl].
Qed.

Lemma baseChildren_batch all s base (docs : list (gmap string X)) h sps : rt_base s = Some base ->
  (forall bc, bc ∈ bs_children base -> answersIn eng tables (childFetch bc all) /\ keyKept (childFetch bc all) /\ so_segment bc <> so_baseLink (rt_source s)) ->
  Forall2 (Rep h) docs sps ->
  exists h' docs', MergeSharedBaseChildrenBatch eng docs s all h = (h', Ret docs') /\ h `prefix_of` h' /\
    Forall2 (fun doc' x => Rep h' doc' (withArrays so_segment (baseRows all) (bs_children base) (KeyOf eng x.1 (so_baseLink (rt_source s))) x.2) /\
      nested (length h) (so_segment <$> bs_children base) (KeyOf eng x.1 (so_baseLink (rt_source s))) x.1 doc') docs' (zip docs sps).
Proof.
  intros Hb Ha HR. unfold MergeSharedBaseChildrenBatch. rewrite Hb. set (fk := so_baseLink (rt_source s)) in *. set (keys := CollectKeys eng docs fk).
  edestruct (nest_batch so_segment (baseRows all) (fun docs bc =>
    grouped <- liftO (FetchInGrouped eng bc (so_table bc) (so_parentID bc) keys (SchemaArchivedAt bc) all);;
    nestGroups eng grouped (so_segment bc) fk docs) (fun doc => KeyOf eng doc fk) keys (bs_children base) docs h sps) as (h'&docs'&Hf&Hp&Hl&HR'); cycle 3.
  - exists h', docs'. done.
  - intros bc Hbc docs0 h0. destruct (Ha bc Hbc) as (H1&H2&_). destruct (grouped_rows _ _ _ keys H1 H2) as (g&Hf&Hin&_&_). cbn in Hf.
    exists g. unfold gbind at 1, liftO. by rewrite Hf, nestGroups_run.
  - intros bc doc x Hbc. apply keyOf_ext. rewrite lookup_insert_ne; [done|]. by apply Ha.
  - apply Forall2_same_length_lookup in HR as [Hlen HR]. apply Forall2_same_length_lookup. split; [done|]. intros i doc sp Hd Hs.
    split; [by eapply HR|]. apply collectKeys_elem. by eapply list_elem_of_lookup_2.
Qed.

End Children.

(** * What each step leaves

    What the read model of [Composer.v] answers, and for each step of the composer, for
    one root and for a batch, that it leaves the documents holding the same. *)

Abbreviation Doc := (gmap string GVal).
Abbreviation Spec := (gmap string GObs).

(** ** Steps on root documents *)

(** A column is as before, or one of [fields] whose arrays are of the fetch [lo] or a later one. *)
Definition extends (lo : nat) (fields : list string) (doc doc' : Doc) : Prop := forall c,
  doc' !! c = doc !! c \/ (c ∈ fields /\ forall x f k, doc' !! c = Some x -> refersG x f k -> (lo <= f)%nat).

Lemma fields_refl lo fields doc : extends lo fields doc doc.
Proof. intros c. by left. Qed.

Lemma fields_trans lo lo' fields a b c : (lo <= lo')%nat -> extends lo fields a b -> extends lo' fields b c -> extends lo fields a c.
Proof.
  intros Hl H1 H2 col. destruct (H2 col) as [E2|[Hin H2']].
  - destruct (H1 col) as [E1|[Hin H1']]; [left; congruence|]. right. split; [done|]. intros x f k Hx. rewrite E2 in Hx. by eapply H1'.
  - right. split; [done|]. intros x f k Hx Hr. specialize (H2' x f k Hx Hr). lia.
Qed.

Lemma extends_sub lo fields fields' a b : fields ⊆ fields' -> extends lo fields a b -> extends lo fields' a b.
Proof. intros Hs H1 c. destruct (H1 c) as [E|[Hin H2]]; [by left|]. right. split; [by apply Hs|done]. Qed.

Lemma extends_insert lo fields doc c x : c ∈ fields -> (forall f k, refersG x f k -> (lo <= f)%nat) -> extends lo fields doc (<[c := x]> doc).
Proof.
  intros Hc Hx c'. destruct (decide (c = c')) as [<-|Hne]; [|left; by rewrite lookup_insert_ne].
  right. split; [done|]. intros y f k. rewrite lookup_insert_eq. intros [= <-]. apply Hx.
Qed.

Lemma nested_extends lo segs key (doc doc' : Doc) : nested (O := GObs) lo segs key doc doc' -> extends lo segs doc doc'.
Proof. intros Hn c. destruct (Hn c) as [E|[Hin Hc]]; [by left|]. right. split; [done|]. intros x f k Hx Hr. by destruct (Hc x f k Hx Hr) as (_&Hle&_). Qed.

(** A document that holds [sp] and still has the key columns [cols] of [flat]. *)
Definition holds (cols : list string) (h : Heap) (doc : Doc) (x : Doc * Spec) : Prop :=
  Rep h doc x.2 /\ forall col, col ∈ cols -> doc !! col = x.1 !! col.

Lemma holds_prefix cols h h' doc x : h `prefix_of` h' -> holds cols h doc x -> holds cols h' doc x.
Proof. intros Hp [HR Hk]. split; [by eapply Rep_prefix|done]. Qed.

Lemma extends_keys lo fields (cols : list string) doc doc' (flat : Doc) : (forall c, c ∈ cols -> c ∉ fields) -> extends lo fields doc doc' ->
  (forall c, c ∈ cols -> doc !! c = flat !! c) -> forall c, c ∈ cols -> doc' !! c = flat !! c.
Proof. intros Hd He Hk c Hc. destruct (He c) as [->|[Hin _]]; [by apply Hk|]. by destruct (Hd c Hc). Qed.

(** A step of the composer for one root, and for a batch: it turns what a document holds by [spec]. *)
Definition rowStep (cols fields : list string) (ok : Doc -> Prop) (spec : Doc -> Spec -> Spec) (m : Doc -> HM Doc) : Prop :=
  forall h doc x, holds cols h doc x -> ok x.1 -> exists h' doc',
    m doc h = (h', Ret doc') /\ h `prefix_of` h' /\ holds cols h' doc' (x.1, spec x.1 x.2) /\ extends (length h) fields doc doc'.

Definition batchStep (cols fields : list string) (ok : list Doc -> Prop) (spec : Doc -> Spec -> Spec) (m : list Doc -> HM (list Doc)) : Prop :=
  forall h docs xs, Forall2 (holds cols h) docs xs -> ok xs.*1 -> docs <> [] -> exists h' docs',
    m docs h = (h', Ret docs') /\ h `prefix_of` h' /\ Forall2 (holds cols h') docs' ((fun x => (x.1, spec x.1 x.2)) <$> xs) /\
    Forall2 (extends (length h) fields) docs docs'.

Lemma Forall2_compose {A} (R1 R2 R : A -> A -> Prop) a b c : (forall x y z, R1 x y -> R2 y z -> R x z) ->
  Forall2 R1 a b -> Forall2 R2 b c -> Forall2 R a c.
Proof. intros HR H1. revert c. induction H1 as [|x y a b Hxy _ IH]; intros c H2; inversion H2; subst; constructor; eauto. Qed.

(** Pairing the two sides of a relation, and taking it apart. *)
Lemma Forall2_pair {A B} (R : A -> B -> Prop) a b : Forall2 R a b -> Forall2 (fun x z => x = z.1 /\ x ∈ a /\ R x z.2) a (zip a b).
Proof.
  intros HR. assert (Hsub : forall x, x ∈ a -> x ∈ a) by done. revert Hsub. generalize a at 2 3. intros all Hsub.
  induction HR as [|x y a b Hxy _ IH]; [constructor|]. cbn. constructor; [split; [done|]; split; [apply Hsub; by left|done]|].
  apply IH. intros z Hz. apply Hsub. by right.
Qed.

Lemma Forall2_with {A B} (R : A -> B -> Prop) (P : B -> Prop) a b : Forall2 R a b -> Forall P b -> Forall2 (fun x y => R x y /\ P y) a b.
Proof. induction 1; intros HP; inversion HP; subst; constructor; auto. Qed.

Lemma Forall2_unpair {A B C} (P : C -> A * B -> Prop) a b d : length a = length b -> Forall2 P d (zip a b) ->
  Forall2 (fun y x => exists x', P y (x', x)) d b /\ Forall2 (fun x y => exists x', P y (x, x')) a d.
Proof.
  revert a b. induction d as [|y d IH]; intros [|x a] [|x' b] Hl Hd; cbn in *; try done; try by inversion Hd.
  apply Forall2_cons in Hd as [Hy Hd]. destruct (IH a b) as [I1 I2]; [lia|done|]. split; constructor; eauto.
Qed.

Lemma rowStep_impl cols fields (ok ok' : Doc -> Prop) spec m : (forall flat, ok' flat -> ok flat) -> rowStep cols fields ok spec m -> rowStep cols fields ok' spec m.
Proof. intros Hi Hs h doc x Hh Hok. by apply Hs; [|apply Hi]. Qed.

Lemma batchStep_impl cols fields (ok ok' : list Doc -> Prop) spec m : (forall flats, ok' flats -> ok flats) -> batchStep cols fields ok spec m -> batchStep cols fields ok' spec m.
Proof. intros Hi Hs h docs xs Hh Hok Hne. by apply Hs; [|apply Hi|]. Qed.

Lemma rowStep_fold {E} cols fields ok (spec : E -> Doc -> Spec -> Spec) (m : Doc -> E -> HM Doc) l :
  (forall e, e ∈ l -> rowStep cols fields ok (spec e) (fun doc => m doc e)) ->
  rowStep cols fields ok (fun flat sp => foldl (fun sp e => spec e flat sp) sp l) (fun doc => foldl (fun acc e => doc <- acc;; m doc e) (gret doc) l).
Proof.
  induction l as [|e l IH]; intros Hs h doc [flat sp] Hh Hok.
  - exists h, doc. split; [done|]. split; [done|]. split; [done|apply fields_refl].
  - destruct (Hs e ltac:(apply list_elem_of_here) h doc (flat, sp) Hh Hok) as (h1&doc1&Hm&Hp&Hh1&He).
    destruct (IH ltac:(intros e' He'; apply Hs; by apply list_elem_of_further) h1 doc1 _ Hh1 Hok) as (h2&doc2&Hm2&Hp2&Hh2&He2).
    exists h2, doc2. rewrite fold_cons, (bind_ret _ _ _ _ _ Hm). split; [done|]. split; [by etrans|]. split; [done|].
    eapply fields_trans; [|done|done]. by apply prefix_length.
Qed.

Lemma batchStep_fold {E} cols fields ok (spec : E -> Doc -> Spec -> Spec) (m : list Doc -> E -> HM (list Doc)) l :
  (forall e, e ∈ l -> batchStep cols fields ok (spec e) (fun docs => m docs e)) ->
  batchStep cols fields ok (fun flat sp => foldl (fun sp e => spec e flat sp) sp l) (fun docs => foldl (fun acc e => docs <- acc;; m docs e) (gret docs) l).
Proof.
  induction l as [|e l IH]; intros Hs h docs xs Hh Hok Hne.
  - exists h, docs. split; [done|]. split; [done|]. split.
    + rewrite (list_fmap_ext _ id); [by rewrite list_fmap_id|by intros i [] _].
    + clear. induction docs; constructor; [apply fields_refl|done].
  - destruct (Hs e ltac:(apply list_elem_of_here) h docs xs Hh Hok Hne) as (h1&docs1&Hm&Hp&Hh1&He).
    destruct (IH ltac:(intros e' He'; apply Hs; by apply list_elem_of_further) h1 docs1 _ Hh1) as (h2&docs2&Hm2&Hp2&Hh2&He2).
    + by rewrite <- list_fmap_compose.
    + intros ->. apply Forall2_length in He. by destruct docs.
    + exists h2, docs2. rewrite fold_cons, (bind_ret _ _ _ _ _ Hm). split; [done|]. split; [by etrans|]. split.
      * rewrite <- list_fmap_compose in Hh2. exact Hh2.
      * eapply Forall2_compose; [|exact He|exact He2]. intros x y z. apply fields_trans. by apply prefix_length.
Qed.

(** A loop that makes one document of each. *)
Lemma mapHM_steps {A B Z} (F : A -> HM B) (R : Heap -> A -> Z -> Prop) (S : Heap -> B -> Z -> Prop) xs zs h :
  (forall h h' a z, h `prefix_of` h' -> R h a z -> R h' a z) -> (forall h h' b z, h `prefix_of` h' -> S h b z -> S h' b z) ->
  (forall h a z, R h a z -> exists h' b, F a h = (h', Ret b) /\ h `prefix_of` h' /\ S h' b z) ->
  Forall2 (R h) xs zs -> exists h' ys, mapHM F xs h = (h', Ret ys) /\ h `prefix_of` h' /\ Forall2 (S h') ys zs.
Proof.
  intros HR HS HF Hx. revert h Hx. revert zs. induction xs as [|x xs IH]; intros zs h Hx.
  - apply Forall2_nil_inv_l in Hx as ->. by exists h, [].
  - apply Forall2_cons_inv_l in Hx as (z&zs'&Hxz&Hxs&->). destruct (HF h x z Hxz) as (h1&y&Hf&Hp&Hy).
    destruct (IH zs' h1) as (h2&ys&Hm&Hp2&Hys); [by eapply Forall2_impl; [|intros ? ? ?; by eapply HR]|].
    exists h2, (y :: ys). cbn. rewrite (bind_ret _ _ _ _ _ Hf), (bind_ret _ _ _ _ _ Hm). split; [done|]. split; [by etrans|].
    constructor; [by eapply HS|done].
Qed.

(** ** Distinct keys *)

Lemma distinctBy_spec {A} (text : A -> string) (l : list A) seen out :
  let r := snd (foldl (fun acc x => if bool_decide (text x ∈ acc.1) then acc else (text x :: acc.1, acc.2 ++ [x])) (seen, out) l) in
  (forall y, y ∈ r -> y ∈ out \/ y ∈ l) /\ (forall x, x ∈ l -> text x ∈ seen \/ exists y, y ∈ r /\ text y = text x) /\ (forall y, y ∈ out -> y ∈ r).
Proof.
  revert seen out. induction l as [|x l IH]; intros seen out; cbn; [set_solver|]. case_bool_decide as Hx; cbn.
  - destruct (IH seen out) as (I1&I2&I3). split; [|split]; [set_solver| |done]. intros x' [->|Hx']%elem_of_cons; [by left|by apply I2].
  - destruct (IH (text x :: seen) (out ++ [x])) as (I1&I2&I3). split; [|split].
    + intros y Hy. destruct (I1 y Hy) as [Ho|Hl]; [apply elem_of_app in Ho; set_solver|set_solver].
    + intros x' [->|Hx']%elem_of_cons.
      * right. exists x. split; [apply I3; set_solver|done].
      * destruct (I2 x' Hx') as [Hs|Hy]; [|by right]. apply elem_of_cons in Hs as [Hs|Hs]; [|by left]. right. exists x. split; [apply I3; set_solver|done].
    + intros y Hy. apply I3. set_solver.
Qed.

(** Text keys, each once. *)
Lemma distinct_texts {X} `{GoVal X} (text : X -> string) (l : list X) :
  (forall s, text (gv_raw (MStr s)) = s) -> (forall x, x ∈ l -> exists s, x = gv_raw (MStr s)) ->
  exists ss, distinctBy text l = (fun s => gv_raw (MStr s)) <$> ss /\ forall s, s ∈ ss <-> gv_raw (MStr s) ∈ l.
Proof.
  intros Ht Hl. unfold distinctBy. destruct (distinctBy_spec text l [] []) as (I1&I2&_). cbn in I1, I2.
  set (r := snd _) in *. assert (Hr : forall y, y ∈ r -> exists s, y = gv_raw (MStr s)) by (intros y Hy; apply Hl; destruct (I1 y Hy); [set_solver|done]).
  exists (text <$> r). split.
  - rewrite <- list_fmap_compose. rewrite <- (list_fmap_id r) at 1. apply list_fmap_ext. intros i y Hy%list_elem_of_lookup_2.
    destruct (Hr y Hy) as [s ->]. cbn. by rewrite Ht.
  - intros s. rewrite list_elem_of_fmap. split.
    + intros (y&->&Hy). destruct (Hr y Hy) as [t ->]. rewrite Ht. destruct (I1 _ Hy); [set_solver|done].
    + intros Hs. destruct (I2 _ Hs) as [?|(y&Hy&E)]; [set_solver|]. exists y. by rewrite E, Ht.
Qed.

(** ** The read model *)

Section Store.
Context {Arg : Type} (c : Composer Arg) (store : Store) (colls : string -> list Document).

Abbreviation eng := (cp_eng c).

Definition strAt (field s : string) (d : Document) : bool :=
  match d !! field with Some (MStr t) => String.eqb t s | _ => false end.

(** The documents of a collection that have a text at a field. *)
Definition found (coll field s : string) : list Document := List.filter (strAt field s) (colls coll).

(** What the finders answer for texts: the documents, in some order. *)
Definition finds (coll field : string) : Prop := forall s, exists ds,
  st_FindManyByField store coll field (gv_raw (MStr s)) = inr ds /\ ds ≡ₚ found coll field s.

Definition findsIn (coll field : string) : Prop := forall ss, exists ds,
  st_FindManyByFieldIn store coll field ((fun s => gv_raw (MStr s)) <$> ss) = inr ds /\
  ds ≡ₚ List.filter (fun d => existsb (fun s => strAt field s d) ss) (colls coll).

(** A key column that holds a non-empty text or nothing. *)
Definition textKey {X} `{GoVal X} (doc : gmap string X) (col : string) : Prop :=
  forall x, keyValue doc col = Some x -> exists s, x = gv_raw (MStr s) /\ s <> "".

(** ** Found documents by their key *)

Lemma strAt_key field s d : strAt field s d = true -> keyValue d field = Some (MStr s) /\ rowKey eng field d = s.
Proof. unfold strAt, keyValue, rowKey. destruct (d !! field) as [[]|]; try done. by intros ->%String.eqb_eq. Qed.

(** Of the documents found for several texts, those of one. *)
Lemma found_group coll field ss k ds : ds ≡ₚ List.filter (fun d => existsb (fun s => strAt field s d) ss) (colls coll) -> k ∈ ss ->
  List.filter (fun d => String.eqb (rowKey eng field d) k) ds ≡ₚ found coll field k.
Proof.
  intros Hd Hk. rewrite Hd, filter_swap. apply reflexive_eq, filter_ext'. intros d _. destruct (existsb _ ss) eqn:E; cbn.
  - apply existsb_exists in E as (s&_&Hs). destruct (strAt_key _ _ _ Hs) as [Hv ->]. unfold strAt in *. destruct (d !! field) as [[]|]; try done.
    apply String.eqb_eq in Hs. by subst.
  - destruct (strAt field k d) eqn:Ek; [|done]. exfalso. revert E. apply not_false_iff_true, existsb_exists. exists k. split; [by apply list_elem_of_In|done].
Qed.

(** All of them have a text there. *)
Lemma found_all coll field ss ds : ds ≡ₚ List.filter (fun d => existsb (fun s => strAt field s d) ss) (colls coll) ->
  forall d, d ∈ ds -> exists s, strAt field s d = true.
Proof. intros Hd d. rewrite Hd. intros [_ Hf]%list_elem_of_In%filter_In. apply existsb_exists in Hf as (s&_&Hs). by exists s. Qed.

Lemma findEmbedsGrouped_run coll field keys h : findsIn coll field -> (forall x, x ∈ keys -> exists s, x = gv_raw (MStr s)) ->
  exists g, findEmbedsGrouped c store coll field keys h = (h, Ret g) /\ forall s, gv_raw (MStr s) ∈ keys -> default [] (g !! s) ≡ₚ found coll field s.
Proof.
  intros Hf Hk. unfold findEmbedsGrouped. destruct keys as [|k0 keys']; [exists ∅; split; [done|set_solver]|]. set (keys := k0 :: keys') in *.
  destruct (distinct_texts (fmtAny eng) keys) as (ss&->&Hss); [done|done|]. destruct (Hf ss) as (ds&Hq&Hd).
  unfold gbind, liftE. rewrite Hq. eexists. split; [done|]. intros s Hs%Hss.
  assert (Hfold : forall l out, (forall d, d ∈ l -> exists s, strAt field s d = true) ->
    foldl (fun out d => match keyValue d field with Some v => <[fmtV eng v := default [] (out !! fmtV eng v) ++ [d]]> out | None => out end) out l =
    foldl (groupRow eng field) out l).
  { induction l as [|d l IH]; intros out Hl; [done|]. cbn [foldl]. rewrite IH by set_solver. f_equal.
    destruct (Hl d ltac:(set_solver)) as [t Ht]. unfold groupRow. destruct (strAt_key _ _ _ Ht) as [-> Hrk]. unfold rowKey in Hrk. by rewrite Hrk. }
  rewrite (Hfold ds ∅ (found_all _ _ _ _ Hd)), grouped_lookup, lookup_empty. cbn. by eapply found_group.
Qed.

(** ** Embeds *)

(** What an embed adds to the document of [flat]. *)
Definition embedSpec (parentPK : string) (e : Embed) (flat : Doc) (sp : Spec) : Spec :=
  let coll := cp_active c (legCollection (eb_leg e)) in
  if eb_many e then
    match keyValue flat parentPK with
    | Some x => <[eb_field e := OPlain (OArr (trimDocsToFields (found coll (eb_joinCol e) (fmtAny eng x)) (embedTrimSet e)))]> sp
    | None => sp
    end
  else
    <[eb_field e := OPlain (ORaw
      match keyValue flat (eb_joinCol e) with
      | Some x => match head (found coll "_id" (fmtAny eng x)) with Some d => MDoc (trimToFields d (embedTrimSet e)) | None => MNull end
      | None => MNull
      end)]> sp.

(** The store answers for the embed, by distinct ids when it is 1:1. *)
Definition embedAnswers (e : Embed) : Prop :=
  let coll := cp_active c (legCollection (eb_leg e)) in
  let field := if eb_many e then eb_joinCol e else "_id" in
  finds coll field /\ findsIn coll field /\ (eb_many e = false -> forall s, (length (found coll "_id" s) <= 1)%nat).

Definition embedKey (parentPK : string) (e : Embed) : string := if eb_many e then parentPK else eb_joinCol e.

Context (Hstore : cp_mongo c = Some store).

Lemma embed_row cols fields parentPK e : embedAnswers e -> embedKey parentPK e ∈ cols -> eb_field e ∈ fields -> (forall col, col ∈ cols -> col ∉ fields) ->
  rowStep cols fields (fun flat => textKey flat (embedKey parentPK e)) (embedSpec parentPK e) (fun doc => fetchMongoEmbed c doc parentPK e).
Proof.
  intros (Hf&_&Hone) Hcol Hfield Hdis h doc [flat sp] [HR Hk] Htk. cbn [fst snd] in *. unfold fetchMongoEmbed, requireStore. rewrite Hstore.
  unfold embedSpec. unfold embedKey in Htk, Hcol. destruct (eb_many e).
  - rewrite (keyValue_ext doc flat parentPK) by auto. destruct (keyValue flat parentPK) as [x|] eqn:Ex.
    + destruct (Htk x Ex) as (s&->&Hs). destruct (Hf s) as (ds&Hq&Hd). unfold gbind, liftE, gret. rewrite Hq. cbn.
      eexists _, _. split; [done|]. split; [by eexists|].
      assert (He : extends (length h) fields doc (<[eb_field e := GPlain (SArr (RAt (length h) ""))]> doc)).
      { apply extends_insert; [done|]. intros f k [= <- <-]. done. }
      split; [split|done].
      * apply Rep_insert; [by apply Rep_mono| |].
        -- intros f k [= <- <-]. rewrite length_app. cbn. lia.
        -- change (OPlain (OArr (readArr (h ++ [{[ "" := trimDocsToFields ds (embedTrimSet e) ]}]) (RAt (length h) ""))) ≡ OPlain (OArr (trimDocsToFields (found (cp_active c (legCollection (eb_leg e))) (eb_joinCol e) s) (embedTrimSet e)))).
           rewrite readArr_last, lookup_singleton_eq. cbn. unfold trimDocsToFields. by rewrite Hd.
      * by eapply extends_keys.
    + exists h, doc. split; [done|]. split; [done|]. split; [done|apply fields_refl].
  - rewrite (keyValue_ext doc flat (eb_joinCol e)) by auto.
    assert (Hgo : forall v, extends (length h) fields doc (<[eb_field e := GPlain (SRaw v)]> doc) /\
      holds cols h (<[eb_field e := GPlain (SRaw v)]> doc) (flat, <[eb_field e := OPlain (ORaw v)]> sp)).
    { intros v. assert (He : extends (length h) fields doc (<[eb_field e := GPlain (SRaw v)]> doc)) by (by apply extends_insert).
      split; [done|]. split; [by apply Rep_insert|by eapply extends_keys]. }
    destruct (keyValue flat (eb_joinCol e)) as [x|] eqn:Ex; cbn; [|eexists _, _; split; [done|]; split; [done|]; split; apply Hgo].
    destruct (Htk x Ex) as (s&->&Hs). destruct (Hf s) as (ds&Hq&Hd). unfold gbind, liftE, gret. rewrite Hq. cbn.
    eexists _, _. split; [done|]. split; [done|]. rewrite <- (head_perm _ _ (Hone eq_refl s) Hd). destruct ds as [|d ds]; cbn; split; apply Hgo.
Qed.

(** The document keys of a batch are texts. *)
Lemma batch_keys cols h docs xs col : Forall2 (holds cols h) docs xs -> Forall (fun x : Doc * Spec => textKey x.1 col) xs -> col ∈ cols ->
  forall y, y ∈ omap (fun doc => keyValue doc col) docs -> exists s, y = gv_raw (MStr s).
Proof.
  intros Hh Hok Hcol y (doc&Hdoc&Hy)%list_elem_of_omap. apply list_elem_of_lookup in Hdoc as [i Hi].
  apply Forall2_same_length_lookup in Hh as [Hlen Hh]. destruct (lookup_lt_is_Some_2 xs i) as [[flat sp] Hx]; [rewrite <- Hlen; by eapply lookup_lt_Some|].
  destruct (Hh i _ _ Hi Hx) as [_ Hk]. rewrite (keyValue_ext doc flat col) in Hy by auto.
  rewrite Forall_lookup in Hok. destruct (Hok i _ Hx y Hy) as (s&->&_). by exists s.
Qed.

Lemma landMany_run cols fields parentPK e fetch grouped h doc flat sp lo : eb_many e = true -> parentPK ∈ cols -> eb_field e ∈ fields ->
  (forall col, col ∈ cols -> col ∉ fields) -> textKey flat parentPK -> holds cols h doc (flat, sp) -> h !! fetch = Some grouped -> (lo <= fetch)%nat ->
  (forall s, keyValue doc parentPK = Some (gv_raw (MStr s)) -> default [] (grouped !! s) ≡ₚ found (cp_active c (legCollection (eb_leg e))) (eb_joinCol e) s) ->
  exists h' doc', landMany c fetch grouped e parentPK doc h = (h', Ret doc') /\ h `prefix_of` h' /\
    holds cols h' doc' (flat, embedSpec parentPK e flat sp) /\ extends lo fields doc doc'.
Proof.
  intros Hm Hcol Hfield Hdis Htk [HR Hk] Hh Hlo Hg. unfold landMany, embedSpec. rewrite Hm. cbn [fst snd] in *.
  rewrite (keyValue_ext doc flat parentPK) in * by auto. destruct (keyValue flat parentPK) as [x|] eqn:Ex; [|exists h, doc; split; [done|]; split; [done|]; split; [done|apply fields_refl]].
  destruct (Htk x Ex) as (s&->&Hs). specialize (Hg s eq_refl). change (fmtAny eng (gv_raw (MStr s))) with s.
  assert (Hgo : forall h' r, h `prefix_of` h' -> (forall f k, r = RAt f k -> (lo <= f < length h')%nat) ->
    readArr h' r ≡ₚ trimDocsToFields (found (cp_active c (legCollection (eb_leg e))) (eb_joinCol e) s) (embedTrimSet e) ->
    holds cols h' (<[eb_field e := GPlain (SArr r)]> doc) (flat, <[eb_field e := OPlain (OArr (trimDocsToFields (found (cp_active c (legCollection (eb_leg e))) (eb_joinCol e) s) (embedTrimSet e)))]> sp) /\
    extends lo fields doc (<[eb_field e := GPlain (SArr r)]> doc)).
  { intros h' r Hp Hr Hrd. assert (He : extends lo fields doc (<[eb_field e := GPlain (SArr r)]> doc)).
    { apply extends_insert; [done|]. intros f k [= ->]. by apply (Hr f k). }
    split; [|done]. split; [|by eapply extends_keys]. apply Rep_insert; [by eapply Rep_prefix| |].
    - intros f k [= ->]. by apply (Hr f k).
    - change (OPlain (OArr (readArr h' r)) ≡ OPlain (OArr (trimDocsToFields (found (cp_active c (legCollection (eb_leg e))) (eb_joinCol e) s) (embedTrimSet e)))). by rewrite Hrd. }
  pose proof (lookup_lt_Some _ _ _ Hh) as Hlt. destruct (grouped !! s) as [docs|] eqn:Eg; [destruct (embedTrimSet e) as [set|] eqn:Et|].
  - unfold gbind, arrayOf, publish, gret. cbn. eexists _, _. split; [done|]. split; [by eexists|]. apply Hgo; [by eexists| |].
    + intros f k [= <- <-]. rewrite length_app. cbn. lia.
    + rewrite readArr_last, lookup_singleton_eq. cbn. unfold trimDocsToFields. by rewrite Hg.
  - unfold gbind, gret. eexists _, _. split; [done|]. split; [done|]. apply Hgo; [done| |].
    + intros f k [= <- <-]. lia.
    + cbn. rewrite Hh. cbn. rewrite Eg. cbn. unfold trimDocsToFields. rewrite <- Hg. cbn. by rewrite list_fmap_id.
  - unfold gbind, gret. eexists _, _. split; [done|]. split; [done|]. apply Hgo; [done|done|]. cbn in *.
    apply Permutation_nil_l in Hg. by rewrite <- Hg.
Qed.

Lemma embed_batch cols fields parentPK e : embedAnswers e -> embedKey parentPK e ∈ cols -> eb_field e ∈ fields -> (forall col, col ∈ cols -> col ∉ fields) ->
  batchStep cols fields (Forall (fun flat => textKey flat (embedKey parentPK e))) (embedSpec parentPK e) (fun docs => applyEmbedBatch c docs store parentPK e).
Proof.
  intros (_&Hf&Hone) Hcol Hfield Hdis h docs xs Hh Hok _. rewrite Forall_fmap in Hok. pose proof (batch_keys _ _ _ _ _ Hh Hok Hcol) as Hkeys. unfold applyEmbedBatch.
  unfold embedKey in *. destruct (eb_many e) eqn:Em.
  - destruct (findEmbedsGrouped_run _ _ _ h Hf Hkeys) as (g&Hrun&Hg). rewrite (bind_ret _ _ _ _ _ Hrun).
    rewrite (bind_ret (publish g) _ h (h ++ [g]) (length h)) by done.
    destruct (mapHM_steps (landMany c (length h) g e parentPK)
      (fun h1 doc (z : Doc * (Doc * Spec)) => doc = z.1 /\ doc ∈ docs /\ h ++ [g] `prefix_of` h1 /\ textKey z.2.1 parentPK /\ holds cols h1 doc z.2)
      (fun h1 doc' z => holds cols h1 doc' (z.2.1, embedSpec parentPK e z.2.1 z.2.2) /\ extends (length h) fields z.1 doc')
      docs (zip docs xs) (h ++ [g])) as (h'&docs'&Hmap&Hp&Hd').
    + intros h1 h2 doc z Hp (->&H1&H2&H3&H4). split; [done|]. split; [done|]. split; [by etrans|]. split; [done|by eapply holds_prefix].
    + intros h1 h2 doc z Hp [H1 H2]. split; [by eapply holds_prefix|done].
    + intros h1 doc [doc0 [flat sp]] (->&Hin&Hp&Htk&Hd). cbn [fst snd] in *. destruct Hp as [ext ->].
      destruct (landMany_run cols fields parentPK e (length h) g ((h ++ [g]) ++ ext) doc0 flat sp (length h)) as (h2&doc2&Hl&Hp2&Hd2&He2);
        [done|done|done|done|done|done| |lia| |by exists h2, doc2].
      * rewrite <- app_assoc. by apply list_lookup_middle.
      * intros s Hs. apply Hg. apply list_elem_of_omap. by exists doc0.
    + eapply Forall2_impl; [exact (Forall2_pair _ _ _ (Forall2_with _ _ _ _ Hh Hok))|]. intros doc z (->&Hin&Hd&Htk). split; [done|]. split; [done|]. split; [done|]. split; [done|].
      eapply holds_prefix; [|done]. by eexists.
    + exists h', docs'. split; [done|]. split; [etrans; [|exact Hp]; by eexists|].
      destruct (Forall2_unpair _ _ _ _ (Forall2_length _ _ _ Hh) Hd') as [U1 U2]. split.
      * apply Forall2_fmap_r. eapply Forall2_impl; [exact U1|]. by intros doc x (x'&Hd&_).
      * eapply Forall2_impl; [exact U2|]. by intros doc x (x'&_&He).
  - destruct (findEmbedsGrouped_run _ _ _ h Hf Hkeys) as (g&Hrun&Hg). rewrite (bind_ret _ _ _ _ _ Hrun).
    exists h, (landOne c g e <$> docs). split; [done|]. split; [done|].
    assert (Hland : forall doc x, doc ∈ docs -> holds cols h doc x -> textKey x.1 (eb_joinCol e) ->
      holds cols h (landOne c g e doc) (x.1, embedSpec parentPK e x.1 x.2) /\ extends (length h) fields doc (landOne c g e doc)).
    { intros doc [flat sp] Hin [HR Hk] Htk. cbn [fst snd] in *. unfold landOne, embedSpec. rewrite Em.
      assert (Hgo : forall v, extends (length h) fields doc (<[eb_field e := GPlain (SRaw v)]> doc) /\
        holds cols h (<[eb_field e := GPlain (SRaw v)]> doc) (flat, <[eb_field e := OPlain (ORaw v)]> sp)).
      { intros v. assert (He : extends (length h) fields doc (<[eb_field e := GPlain (SRaw v)]> doc)) by (by apply extends_insert).
        split; [done|]. split; [by apply Rep_insert|by eapply extends_keys]. }
      rewrite (keyValue_ext doc flat (eb_joinCol e)) by auto. destruct (keyValue flat (eb_joinCol e)) as [x|] eqn:Ex; [|split; apply Hgo].
      destruct (Htk x Ex) as (s&->&_). change (fmtAny eng (gv_raw (MStr s))) with s.
      assert (Hgs : default [] (g !! s) ≡ₚ found (cp_active c (legCollection (eb_leg e))) "_id" s).
      { apply Hg, list_elem_of_omap. exists doc. split; [done|]. by rewrite (keyValue_ext doc flat (eb_joinCol e)) by auto. }
      rewrite <- (head_perm _ _ (Hone eq_refl s) Hgs). destruct (g !! s) as [[|d ds]|]; cbn; split; apply Hgo. }
    pose proof (Forall2_pair _ _ _ (Forall2_with _ _ _ _ Hh Hok)) as Hp. destruct (Forall2_unpair _ _ _ _ (Forall2_length _ _ _ Hh) Hp) as [U1 U2]. split.
    + apply Forall2_fmap_l, Forall2_fmap_r. eapply Forall2_impl; [exact U1|]. intros doc x (x'&_&Hin&Hd&Htk). by apply Hland.
    + apply Forall2_fmap_r. eapply Forall2_impl; [exact U2|]. intros doc x (x'&->&Hin&Hd&Htk). by eapply Hland.
Qed.

End Store.
