(* ===== verification/ComposerRoles.v ===== *)
(** * Roles and enrichments

    The sub-documents of the roles of a SharedBaseView and the embeds inside the elements
    of a child, for one root and for a batch. *)

From S2P Require Import Prelude Naming Errors BaseEntity Criteria CriteriaSql Mongo Hydrate HydrateProps Composer ComposerProps.
From stdpp Require Import base gmap strings list fin_maps.
From Stdlib Require Import ZArith Lia.

Open Scope string_scope.
Open Scope list_scope.
Open Scope go_scope.

(** * The roles of a shared base

    The sub-document of each role of a SharedBaseView: for one root and for a batch it is
    that of the same row, the active one first and then the latest archived. *)

(** ** Documents of scanned values *)

Section Raw.
Context {X O : Type} `{HX : GoVal X} `{HA : GoArr X} `{HO : Equiv O} `{Hob : !Observable X O}.
Implicit Types doc : gmap string X.

Definition rawDoc doc : Prop := forall c x, doc !! c = Some x -> exists v, x = gv_raw v.

Lemma rawDoc_overlay skip row doc : rawDoc doc -> rawDoc (overlayRow skip row doc).
Proof.
  intros Hr c x. unfold overlayRow. intros [Hl|[_ Hl]]%lookup_union_Some_raw; [|by eapply Hr].
  rewrite lookup_fmap in Hl. apply fmap_Some in Hl as (v&_&->). by exists v.
Qed.

Lemma rawDoc_remap doc s w : rawDoc doc -> rawDoc (RemapRevision doc s w).
Proof.
  intros Hr. unfold RemapRevision. destruct (String.eqb _ _); [done|]. destruct (doc !! so_revision s) as [v|] eqn:E; [|done].
  intros c x [_ Hl]%lookup_delete_Some. apply lookup_insert_Some in Hl as [[_ <-]|[_ Hl]]; eauto.
Qed.

Lemma Rep_raw h doc : rawDoc doc -> Rep h doc (ob_read [] <$> doc : gmap string O).
Proof.
  intros Hr. split.
  - intros c x f k Hx Href. destruct (Hr c x Hx) as [v ->]. by apply ob_refers_raw in Href.
  - apply reflexive_eq, map_fmap_ext. intros c x Hx. destruct (Hr c x Hx) as [v ->]. apply ob_frame. intros f k Href. by apply ob_refers_raw in Href.
Qed.

Lemma remap_fmap {Y} (f : X -> Y) doc s w : RemapRevision (f <$> doc) s w = f <$> RemapRevision doc s w.
Proof.
  unfold RemapRevision. destruct (String.eqb _ _); [done|]. rewrite lookup_fmap. destruct (doc !! so_revision s); [|done]. cbn.
  by rewrite fmap_delete, fmap_insert.
Qed.

Lemma remap_proper (a b : gmap string O) s w : a ≡ b -> RemapRevision a s w ≡ RemapRevision b s w.
Proof.
  intros Hab. unfold RemapRevision. destruct (String.eqb _ _); [done|]. pose proof (lookup_proper (so_revision s) _ _ Hab) as Hl.
  inversion Hl as [x y Hxy E1 E2|E1 E2]; [|done]. apply delete_proper. by apply insert_proper.
Qed.

Lemma remap_refers doc s w c x : RemapRevision doc s w !! c = Some x -> exists c', doc !! c' = Some x.
Proof.
  unfold RemapRevision. destruct (String.eqb _ _); [by exists c|]. destruct (doc !! so_revision s) as [v|] eqn:E; [|by exists c].
  intros [_ Hl]%lookup_delete_Some. apply lookup_insert_Some in Hl as [[_ <-]|[_ Hl]]; eauto.
Qed.

Lemma Rep_remap h doc (sp : gmap string O) s w : Rep h doc sp -> Rep h (RemapRevision doc s w) (RemapRevision sp s w).
Proof.
  intros [Hw Ho]. split.
  - intros c x f k (c'&Hx)%remap_refers Hr. by eapply Hw.
  - rewrite <- remap_fmap. by apply remap_proper.
Qed.

Context {Arg : Type} (eng : Engine Arg) (tables : string -> list Document).

Lemma rawDoc_siblings owner all key doc : rawDoc doc -> rawDoc (withSiblings eng tables owner all key doc).
Proof.
  unfold withSiblings. destruct (String.eqb _ _); [done|]. revert doc. induction (ow_siblings owner) as [|sib l IH]; intros doc Hr; [done|].
  cbn. apply IH. unfold withSibling. destruct (head _); [by apply rawDoc_overlay|done].
Qed.

Lemma rawDoc_base s all doc : rawDoc doc -> rawDoc (withBase eng tables s all doc).
Proof.
  unfold withBase. destruct (rt_base s); [|done]. destruct (String.eqb _ _); [done|]. destruct (head _); [|done]. intros Hr. by apply rawDoc_overlay.
Qed.

Lemma keyOf_some doc col : KeyOf eng doc col <> "" -> keyed eng doc col.
Proof. intros Hk x Hx. unfold KeyOf in Hk. by rewrite Hx in Hk. Qed.

Lemma keyed_ext (a b : gmap string X) col : a !! col = b !! col -> keyed eng a col -> keyed eng b col.
Proof. intros E Hk x Hx. apply Hk. by rewrite (keyValue_ext _ _ _ E). Qed.

End Raw.

(** ** The row of a role *)

Section Roles.
Context {Arg : Type} (c : Composer Arg) (tables : string -> list Document).

Abbreviation eng := (cp_eng c).
Abbreviation ownSegment := (fun child => so_segment (ow_source child)).
Abbreviation rolePK role := (SchemaPK (rt_source role)).

Definition activeFetch (role : RootSource) : Fetch :=
  let s := rt_source role in
  let none := String.eqb (SchemaArchivedAt s) "" in
  mkFetch s (so_table s) (so_baseLink s) (if none then "" else SchemaArchivedAt s) none.

Definition latest (role : RootSource) (k : string) : option Document :=
  let s := rt_source role in
  match FetchLatestArchived eng s (so_baseLink s) k (SchemaArchivedAt s) with Ret o => o | _ => None end.

(** The active row, else the latest archived one where archived rows are composed. *)
Definition roleRow (all : bool) (role : RootSource) (k : string) : option Document :=
  match head (rowsOf eng tables (activeFetch role) k) with
  | Some r => Some r
  | None => if String.eqb (SchemaArchivedAt (rt_source role)) "" || negb all then None else latest role k
  end.

Definition roleFlat (all : bool) (role : RootSource) (r : Document) : gmap string SVal :=
  withSiblings eng tables (rt_owner role) all (KeyOf eng (roleDoc r) (rolePK role)) (roleDoc r).

(** What the document of a role holds. *)
Definition roleHolds (all : bool) (role : RootSource) (r : Document) : gmap string SObs :=
  RemapRevision
    (withArrays (O := SObs) ownSegment (ownRows eng tables all) (rt_children role) (KeyOf eng (roleDoc r) (rolePK role)) (observeS [] <$> roleFlat all role r))
    (rt_source role) docRevisionField.

Definition roleSpec (all : bool) (basePK : string) (r : string * RootSource) (flat : Doc) (sp : Spec) : Spec :=
  <[r.1 := match roleRow all r.2 (KeyOf eng flat basePK) with Some row => OSub (roleHolds all r.2 row) | None => OPlain (ORaw MNull) end]> sp.

(** What the source answers for a role. *)
Record roleAnswers (all : bool) (role : RootSource) : Prop := {
  ra_row : answersRow eng tables (activeFetch role);
  ra_in : answersIn eng tables (activeFetch role);
  ra_one : oneRow eng tables (activeFetch role);
  ra_kept : keyKept (activeFetch role);
  ra_latest k : exists o, FetchLatestArchived eng (rt_source role) (so_baseLink (rt_source role)) k (SchemaArchivedAt (rt_source role)) = Ret o;
  ra_siblings sib : sib ∈ ow_siblings (rt_owner role) ->
    answersRow eng tables (sibFetch (rt_owner role) all sib) /\ answersIn eng tables (sibFetch (rt_owner role) all sib) /\
    oneRow eng tables (sibFetch (rt_owner role) all sib) /\ keyKept (sibFetch (rt_owner role) all sib);
  ra_children child : child ∈ rt_children role -> childAnswers eng tables all child /\ ownSegment child <> rolePK role;
  ra_keys k r : roleRow all role k = Some r -> KeyOf eng (roleDoc r) (rolePK role) <> ""
}.

Lemma fetchRoleRow_run all role k : roleAnswers all role -> fetchRoleRow c role k all = Ret (roleRow all role k).
Proof.
  intros Ha. unfold fetchRoleRow, roleRow. pose proof (fetchRow_row _ _ _ k (ra_row _ _ Ha) (ra_one _ _ Ha)) as Hf. cbn in Hf.
  destruct (String.eqb (SchemaArchivedAt (rt_source role)) ""); cbn in Hf; rewrite Hf; cbn.
  - by destruct (head _).
  - destruct (head _) as [r|]; [done|]. destruct all; [|done]. unfold latest. destruct (ra_latest _ _ Ha k) as [o Ho]. by rewrite Ho.
Qed.

Lemma roleDoc_raw r : rawDoc (roleDoc r).
Proof. intros col x. unfold roleDoc. rewrite lookup_fmap. intros (v&_&->)%fmap_Some. by exists v. Qed.

Lemma roleFlat_pk all role r : KeyOf eng (roleFlat all role r) (rolePK role) = KeyOf eng (roleDoc r) (rolePK role).
Proof. apply keyOf_ext. unfold roleFlat. apply (withSiblings_pk eng tables (rt_owner role)). Qed.

(** The role's document, from its row. *)
Definition roleRep (all : bool) (role : RootSource) (h0 h : Heap) (d : gmap string SVal) (r : Document) : Prop :=
  Rep h (RemapRevision d (rt_source role) docRevisionField) (roleHolds all role r) /\
  forall col x f k, d !! col = Some x -> refersS x f k -> (length h0 <= f)%nat.

Lemma roleRep_nested all role h0 h (d : gmap string SVal) r key :
  Rep h d (withArrays (O := SObs) ownSegment (ownRows eng tables all) (rt_children role) (KeyOf eng (roleFlat all role r) (rolePK role)) (observeS [] <$> roleFlat all role r)) ->
  nested (O := SObs) (length h0) (ownSegment <$> rt_children role) key (roleFlat all role r) d -> roleRep all role h0 h d r.
Proof.
  intros HR Hn. rewrite roleFlat_pk in HR. split; [by apply Rep_remap|]. intros col x f k Hx Hr. destruct (Hn col) as [E|[_ Hc]].
  - rewrite E in Hx. destruct (rawDoc_siblings eng tables (rt_owner role) all (KeyOf eng (roleDoc r) (rolePK role)) _ (roleDoc_raw r) col x Hx) as [v ->]. done.
  - by destruct (Hc x f k Hx Hr) as (_&Hle&_).
Qed.

Lemma composeRole_run all role r h : roleAnswers all role -> KeyOf eng (roleDoc r) (rolePK role) <> "" ->
  exists h' d, composeRole c role r all h = (h', Ret (RemapRevision d (rt_source role) docRevisionField)) /\ h `prefix_of` h' /\ roleRep all role h h' d r.
Proof.
  intros Ha Hk. unfold composeRole.
  assert (Hid : match r !! SchemaPK (rt_source role) with Some v => fmtV eng v | None => "<nil>" end = KeyOf eng (roleDoc r) (rolePK role)).
  { unfold KeyOf, keyValue, roleDoc in *. rewrite lookup_fmap in *. destruct (r !! rolePK role) as [v|]; [|done]. by destruct v. }
  rewrite Hid. unfold gbind at 1, liftO at 1. rewrite (siblings_one eng tables); [|done|intros sib Hs; by destruct (ra_siblings _ _ Ha sib Hs) as (?&?&?&?)].
  fold (roleFlat all role r). edestruct (ownChildren_row eng tables all role (roleFlat all role r) h) as (h'&d&Hm&Hp&_&HR&Hn).
  - intros child Hc. by apply (ra_children _ _ Ha).
  - apply keyOf_some. by rewrite roleFlat_pk.
  - apply (Rep_raw (O := SObs)). apply rawDoc_siblings, roleDoc_raw.
  - exists h', d. rewrite (bind_ret _ _ _ _ _ Hm). split; [done|]. split; [done|]. by eapply roleRep_nested.
Qed.

(** ** One root *)

Lemma roleRep_sub all role h0 h d r : roleRep all role h0 h d r ->
  let x := GSub (RemapRevision d (rt_source role) docRevisionField) in
  (forall f k, refersG x f k -> (length h0 <= f < length h)%nat) /\ observeG h x ≡ OSub (roleHolds all role r).
Proof.
  intros [[Hw Ho] Hr]. split; [|exact Ho]. intros f k (col&s&Hs&Href). split; [|by eapply Hw].
  destruct (remap_refers _ _ _ _ _ Hs) as [col' Hc]. by eapply Hr.
Qed.

Lemma role_row cols fields all basePK r : roleAnswers all r.2 -> basePK ∈ cols -> r.1 ∈ fields -> (forall col, col ∈ cols -> col ∉ fields) -> forall rootID,
  rowStep cols fields (fun flat => KeyOf eng flat basePK = rootID) (roleSpec all basePK r) (fun row => applyRole c rootID all row r).
Proof.
  intros Ha Hcol Hf Hdis rootID h doc [flat sp] [HR Hk] Hid. cbn [fst snd] in *. unfold applyRole, gbind at 1, liftO. rewrite fetchRoleRow_run by done.
  unfold roleSpec. rewrite Hid. destruct (roleRow all r.2 rootID) as [row|] eqn:Er.
  - destruct (composeRole_run all r.2 row h Ha (ra_keys _ _ Ha _ _ Er)) as (h'&d&Hrun&Hp&Hrep). apply roleRep_sub in Hrep as [Href Hob].
    rewrite (bind_ret _ _ _ _ _ Hrun). eexists _, _. split; [done|]. split; [done|].
    assert (He : extends (length h) fields doc (<[r.1 := GSub (RemapRevision d (rt_source r.2) docRevisionField)]> doc)).
    { apply extends_insert; [done|]. intros f k Hfk. apply Href in Hfk. lia. }
    split; [|done]. split; [|by eapply extends_keys]. apply Rep_insert; [by eapply Rep_prefix| |exact Hob]. intros f k Hfk. apply Href in Hfk. lia.
  - eexists _, _. split; [done|]. split; [done|].
    assert (He : extends (length h) fields doc (<[r.1 := nilValue]> doc)) by (apply extends_insert; [done|]; intros f k Hfk; discriminate Hfk).
    split; [|done]. split; [|by eapply extends_keys]. apply Rep_insert; [done| |done]. intros f k Hfk. discriminate Hfk.
Qed.

(** ** A batch *)

Definition keysOf (basePK : string) (rows : list Doc) : list string := (fun row => KeyOf eng row basePK) <$> rows.

Lemma archivedRoles_run all role basePK rows chosen : roleAnswers all role -> NoDup chosen.*1 ->
  exists chosen', archivedRoles c (rt_source role) basePK rows chosen = Ret chosen' /\ NoDup chosen'.*1 /\
    (forall k r, (k, r) ∈ chosen' <-> (k, r) ∈ chosen \/ (k ∉ chosen.*1 /\ k <> "" /\ k ∈ keysOf basePK rows /\ latest role k = Some r)).
Proof.
  intros Ha. unfold archivedRoles. revert chosen. induction rows as [|row rows IH]; intros chosen Hnd.
  - exists chosen. split; [done|]. split; [done|]. intros k r. unfold keysOf. cbn. set_solver.
  - cbn [foldl obind]. set (bid := KeyOf eng row basePK). destruct (String.eqb_spec bid "") as [Hb|Hb]; cbn.
    { destruct (IH chosen Hnd) as (ch'&Hr&Hnd'&Hch). exists ch'. split; [done|]. split; [done|]. intros k r. rewrite Hch. unfold keysOf. cbn. fold bid. rewrite Hb. set_solver. }
    case_bool_decide as Hin.
    { destruct (IH chosen Hnd) as (ch'&Hr&Hnd'&Hch). exists ch'. split; [done|]. split; [done|]. intros k r. rewrite Hch. unfold keysOf. cbn. fold bid. set_solver. }
    destruct (ra_latest _ _ Ha bid) as [o Ho]. assert (Hl : latest role bid = o) by (unfold latest; by rewrite Ho). rewrite Ho. cbn. destruct o as [r0|].
    + destruct (IH (chosen ++ [(bid, r0)])) as (ch'&Hr&Hnd'&Hch).
      { rewrite fmap_app. apply NoDup_app. split; [done|]. split; [|apply NoDup_singleton]. cbn. set_solver. }
      exists ch'. split; [done|]. split; [done|]. intros k r. rewrite Hch, fmap_app. unfold keysOf. cbn. fold bid. rewrite elem_of_app, list_elem_of_singleton, not_elem_of_app.
      split.
      * intros [[?|[= -> ->]]|([H1 H2]&H3&H4&H5)]; [by left|right|right]; [|set_solver]. split; [done|]. split; [done|]. split; [set_solver|done].
      * intros [?|(H1&H2&H3&H4)]; [by left; left|]. destruct (decide (k = bid)) as [->|Hne]; [left; right; congruence|]. right. set_solver.
    + destruct (IH chosen Hnd) as (ch'&Hr&Hnd'&Hch). exists ch'. split; [done|]. split; [done|]. intros k r. rewrite Hch. unfold keysOf. cbn. fold bid.
      split; [set_solver|]. intros [?|(H1&H2&H3&H4)]; [by left|]. right. split; [done|]. split; [done|]. split; [|done].
      apply elem_of_cons in H3 as [->|H3]; [congruence|done].
Qed.

Lemma activeRoles_spec (g : gmap string (list Document)) basePK rows : NoDup (keysOf basePK rows) ->
  NoDup (activeRoles c g basePK rows).*1 /\
  forall k r, (k, r) ∈ activeRoles c g basePK rows <-> k ∈ keysOf basePK rows /\ k <> "" /\ match g !! k with Some (r' :: _) => r' = r | _ => False end.
Proof.
  unfold activeRoles, keysOf. induction rows as [|row rows IH]; intros Hnd; cbn [omap list_omap fmap list_fmap]; [split; [constructor|set_solver]|].
  cbn in Hnd. apply NoDup_cons in Hnd as [Hni Hnd]. destruct (IH Hnd) as [I1 I2]. clear IH. set (bid := KeyOf eng row basePK) in *. set (rest := omap _ rows) in *.
  assert (Hnew : bid ∉ rest.*1). { intros ([k r]&->&Hkr)%list_elem_of_fmap. apply I2 in Hkr as [Hk _]. done. }
  destruct (String.eqb_spec bid "") as [Hb|Hb]; [|destruct (g !! bid) as [[|r0 g0]|] eqn:Eg].
  - split; [done|]. intros k r. rewrite I2. rewrite elem_of_cons. split; [tauto|]. intros ([->|?]&?&?); [done|tauto].
  - split; [done|]. intros k r. rewrite I2, elem_of_cons. split; [tauto|]. intros ([->|?]&?&Hm); [by rewrite Eg in Hm|tauto].
  - split; [cbn; by constructor|]. intros k r. rewrite !elem_of_cons, I2. split.
    + intros [[= -> ->]|(?&?&?)]; [by rewrite Eg; auto|tauto].
    + intros ([->|?]&?&Hm); [rewrite Eg in Hm; subst; by left|tauto].
  - split; [done|]. intros k r. rewrite I2, elem_of_cons. split; [tauto|]. intros ([->|?]&?&Hm); [by rewrite Eg in Hm|tauto].
Qed.

(** The chosen rows of a batch are those of each base alone. *)
Lemma chosen_run all role basePK rows : roleAnswers all role -> NoDup (keysOf basePK rows) -> (forall k, k ∈ keysOf basePK rows -> k <> "") ->
  let s := rt_source role in
  let has := negb (String.eqb (SchemaArchivedAt s) "") in
  exists g chosen,
    (if has then FetchInGrouped eng s (so_table s) (so_baseLink s) (CollectKeys eng rows basePK) (SchemaArchivedAt s) false
     else FetchInGrouped eng s (so_table s) (so_baseLink s) (CollectKeys eng rows basePK) "" true) = Ret g /\
    (if has && all then archivedRoles c s basePK rows (activeRoles c g basePK rows) else Ret (activeRoles c g basePK rows)) = Ret chosen /\
    NoDup chosen.*1 /\ forall k r, (k, r) ∈ chosen <-> k ∈ keysOf basePK rows /\ roleRow all role k = Some r.
Proof.
  intros Ha Hnd Hne. cbn zeta. destruct (grouped_rows _ _ _ (CollectKeys eng rows basePK) (ra_in _ _ Ha) (ra_kept _ _ Ha)) as (g&Hg&Hin&_&_). cbn in Hg.
  destruct (activeRoles_spec g basePK rows Hnd) as [Hnda Hact].
  assert (Hhead : forall k, k ∈ keysOf basePK rows -> match g !! k with Some (r :: _) => Some r | _ => None end = head (rowsOf eng tables (activeFetch role) k)).
  { intros k Hk. apply (grouped_head eng tables _ g k (ra_one _ _ Ha)), Hin. pose proof (Hne k Hk) as Hk'.
    apply list_elem_of_fmap in Hk as (row&->&Hrow). by apply collectKeys_elem. }
  assert (Hact' : forall k r, (k, r) ∈ activeRoles c g basePK rows <-> k ∈ keysOf basePK rows /\ head (rowsOf eng tables (activeFetch role) k) = Some r).
  { intros k r. rewrite Hact. split.
    - intros (Hk&_&Hm). split; [done|]. rewrite <- Hhead by done. destruct (g !! k) as [[]|]; by subst.
    - intros [Hk Hh]. split; [done|]. split; [by apply Hne|]. rewrite <- Hhead in Hh by done. destruct (g !! k) as [[]|]; by simplify_eq. }
  exists g. unfold roleRow. destruct (String.eqb (SchemaArchivedAt (rt_source role)) "") eqn:Ea; cbn in *.
  - exists (activeRoles c g basePK rows). split; [done|]. split; [done|]. split; [done|]. intros k r. rewrite Hact'. destruct (head _); naive_solver.
  - destruct all; cbn.
    + destruct (archivedRoles_run true role basePK rows (activeRoles c g basePK rows) Ha Hnda) as (ch&Hr&Hndc&Hch).
      exists ch. split; [done|]. split; [done|]. split; [done|]. intros k r. rewrite Hch, Hact'.
      assert (Hni : k ∈ keysOf basePK rows -> k ∉ (activeRoles c g basePK rows).*1 <-> head (rowsOf eng tables (activeFetch role) k) = None).
      { intros Hk. split.
        - intros Hno. destruct (head _) as [r'|] eqn:E; [|done]. destruct Hno. apply list_elem_of_fmap. exists (k, r'). split; [done|]. by apply Hact'.
        - intros Hno ([k' r']&->&Hkr)%list_elem_of_fmap. apply Hact' in Hkr as [_ Hkr]. cbn in Hno. congruence. }
      split.
      * intros [[Hk Hh]|(H1&H2&H3&H4)]; [by rewrite Hh|]. split; [done|]. by rewrite (proj1 (Hni H3) H1).
      * intros [Hk Hh]. destruct (head _) as [r'|] eqn:E; [by left|]. right. split; [by apply Hni|]. split; [by apply Hne|done].
    + exists (activeRoles c g basePK rows). split; [done|]. split; [done|]. split; [done|]. intros k r. rewrite Hact'. destruct (head _); naive_solver.
Qed.

Lemma roleDocs_batch all role rs h : roleAnswers all role -> rangesAll eng -> (forall r, r ∈ rs -> KeyOf eng (roleDoc r) (rolePK role) <> "") ->
  exists h' ds, MergeOwnChildrenBatch eng (roleFlat all role <$> rs) role all h = (h', Ret ds) /\ h `prefix_of` h' /\ Forall2 (roleRep all role h h') ds rs.
Proof.
  intros Ha Hr Hk. destruct (decide (rs = [])) as [->|Hne]; [by exists h, []|].
  edestruct (ownChildren_batch eng tables all role (roleFlat all role <$> rs) h ((fun r => observeS [] <$> roleFlat all role r) <$> rs)) as (h'&ds&Hm&Hp&_&HR).
  - apply (ra_children _ _ Ha).
  - done.
  - by destruct rs.
  - apply Forall2_fmap_l, Forall2_fmap_r. clear. induction rs as [|r rs IH]; constructor; [|done].
    exact (Rep_raw (O := SObs) h (roleFlat all role r) (rawDoc_siblings eng tables _ all _ _ (roleDoc_raw r))).
  - exists h', ds. split; [done|]. split; [done|]. clear -HR. revert ds HR. induction rs as [|r rs IH]; intros ds HR; cbn in HR.
    + by apply Forall2_nil_inv_r in HR as ->.
    + apply Forall2_cons_inv_r in HR as (d&ds'&[HRd Hn]&Hrest&->). constructor; [by eapply roleRep_nested|by apply IH].
Qed.

(** The document of each base's role. *)
Lemma roleByBase_lookup {A B} (R : A -> B -> Prop) (chosen : list (string * B)) (ds : list A) k : NoDup chosen.*1 -> Forall2 R ds chosen.*2 ->
  match (list_to_map (zip chosen.*1 ds) : gmap string A) !! k with
  | Some d => exists r, (k, r) ∈ chosen /\ R d r
  | None => k ∉ chosen.*1
  end.
Proof.
  intros Hnd HR. revert ds HR. induction chosen as [|[k' r] chosen IH]; intros ds HR; cbn in *.
  - by apply not_elem_of_nil.
  - apply Forall2_cons_inv_r in HR as (d&ds'&Hd&Hrest&->). apply NoDup_cons in Hnd as [_ Hnd]. cbn. rewrite lookup_insert.
    case_decide as E; [subst; exists r; split; [by left|done]|]. specialize (IH Hnd ds' Hrest). destruct (_ !! k).
    + destruct IH as (r'&Hin&Hr'). exists r'. split; [by right|done].
    + apply not_elem_of_cons. split; [congruence|done].
Qed.

Lemma role_batch cols fields all basePK r : roleAnswers all r.2 -> rangesAll eng -> basePK ∈ cols -> r.1 ∈ fields -> (forall col, col ∈ cols -> col ∉ fields) ->
  batchStep cols fields (fun flats => NoDup (keysOf basePK flats) /\ forall k, k ∈ keysOf basePK flats -> k <> "") (roleSpec all basePK r)
    (fun rows => composeRoleBatch c rows basePK r all).
Proof.
  intros Ha Hr Hcol Hf Hdis h docs xs Hh [Hnd Hkn] _.
  assert (Hkeys : keysOf basePK docs = keysOf basePK xs.*1).
  { unfold keysOf. clear -Hh Hcol. induction Hh as [|doc x docs xs [_ Hk] _ IH]; [done|]. cbn. rewrite IH. f_equal. apply keyOf_ext. by apply Hk. }
  rewrite <- Hkeys in *. destruct (chosen_run all r.2 basePK docs Ha Hnd Hkn) as (g&chosen&Hg&Hc&Hndc&Hch).
  unfold composeRoleBatch. unfold gbind at 1, liftO at 1. rewrite Hg. unfold gbind at 1, liftO at 1. rewrite Hc.
  unfold gbind at 1, liftO at 1. rewrite (siblings_batch eng tables); [|intros sib Hs; by destruct (ra_siblings _ _ Ha sib Hs) as (?&?&?&?)].
  assert (Hflat : (fun doc => withSiblings eng tables (rt_owner r.2) all (KeyOf eng doc (ownerPK (rt_owner r.2))) doc) <$> ((fun x : string * Document => roleDoc x.2) <$> chosen) =
    roleFlat all r.2 <$> chosen.*2) by by rewrite <- !list_fmap_compose.
  rewrite Hflat. destruct (roleDocs_batch all r.2 chosen.*2 h Ha Hr) as (h'&ds&Hm&Hp&Hds).
  { intros row ([k row']&->&Hin)%list_elem_of_fmap. apply Hch in Hin as [_ Hrr]. by eapply (ra_keys _ _ Ha). }
  rewrite (bind_ret _ _ _ _ _ Hm). eexists _, _. split; [done|]. split; [done|].
  assert (Hstep : forall doc x, doc ∈ docs -> holds cols h doc x ->
    let doc' := <[r.1 := match (list_to_map (zip chosen.*1 ds) : gmap string (gmap string SVal)) !! KeyOf eng doc basePK with
                         | Some d => GSub (RemapRevision d (rt_source r.2) docRevisionField) | None => nilValue end]> doc in
    holds cols h' doc' (x.1, roleSpec all basePK r x.1 x.2) /\ extends (length h) fields doc doc').
  { intros doc [flat sp] Hin [HR Hk]. cbn [fst snd] in *. unfold roleSpec. rewrite <- (keyOf_ext eng doc flat basePK) by auto.
    assert (Hkey : KeyOf eng doc basePK ∈ keysOf basePK docs) by (apply list_elem_of_fmap; by exists doc).
    pose proof (roleByBase_lookup _ chosen ds (KeyOf eng doc basePK) Hndc Hds) as Hl. destruct (_ !! KeyOf eng doc basePK) as [d|].
    - destruct Hl as (row&Hrow&Hrep). apply Hch in Hrow as [_ ->]. apply roleRep_sub in Hrep as [Href Hob].
      assert (He : extends (length h) fields doc (<[r.1 := GSub (RemapRevision d (rt_source r.2) docRevisionField)]> doc)).
      { apply extends_insert; [done|]. intros f k Hfk. apply Href in Hfk. lia. }
      split; [|done]. split; [|by eapply extends_keys]. apply Rep_insert; [by eapply Rep_prefix| |exact Hob]. intros f k Hfk. apply Href in Hfk. lia.
    - destruct (roleRow all r.2 (KeyOf eng doc basePK)) as [row|] eqn:Er.
      { destruct Hl. apply list_elem_of_fmap. exists (KeyOf eng doc basePK, row). split; [done|]. by apply Hch. }
      assert (He : extends (length h) fields doc (<[r.1 := nilValue]> doc)) by (apply extends_insert; [done|]; intros f k Hfk; discriminate Hfk).
      split; [|done]. split; [|by eapply extends_keys]. apply Rep_insert; [by eapply Rep_prefix| |done]. intros f k Hfk. discriminate Hfk. }
  destruct (Forall2_unpair _ _ _ _ (Forall2_length _ _ _ Hh) (Forall2_pair _ _ _ Hh)) as [U1 U2]. split.
  - apply Forall2_fmap_l, Forall2_fmap_r. eapply Forall2_impl; [exact U1|]. intros doc x (x'&_&Hin&Hd). by apply Hstep.
  - apply Forall2_fmap_r. eapply Forall2_impl; [exact U2|]. intros doc doc' (x'&->&Hin&Hd). by eapply (Hstep doc).
Qed.

End Roles.

(** * Embeds inside the elements of a child

    [applyChildEmbeds] rewrites the elements of a child's array where they are: what a
    document then holds, and that the arrays of other documents stay as they were. *)

Section Enrich.
Context {Arg : Type} (c : Composer Arg) (store : Store) (colls : string -> list Document).

Abbreviation eng := (cp_eng c).
Abbreviation source ce := (cp_active c (legCollection (cb_leg ce))).

(** ** Elements *)

(** An element with the document its key refers to, or an explicit null. *)
Definition enriched (ce : ChildEmbed) (el : Document) : Document :=
  <[cb_field ce := match keyValue el (cb_joinCol ce) with
                   | Some v => match head (found colls (source ce) "_id" (fmtV eng v)) with Some d => MDoc (trimToFields d (childEmbedTrimSet ce)) | None => MNull end
                   | None => MNull
                   end]> el.

(** Ids are texts, and distinct. *)
Definition childEmbedAnswers (ce : ChildEmbed) : Prop :=
  findsIn store colls (source ce) "_id" /\ forall s, (length (found colls (source ce) "_id" s) <= 1)%nat.

Lemma byID_lookup allow ds (m : gmap string Document) k :
  foldl (fun m d => <[match d !! "_id" with Some v => fmtV eng v | None => "<nil>" end := trimToFields d allow]> m) m ds !! k =
  match last (List.filter (fun d => String.eqb (rowKey eng "_id" d) k) ds) with Some d => Some (trimToFields d allow) | None => m !! k end.
Proof.
  revert m. induction ds as [|d ds IH]; intros m; [done|]. cbn [foldl List.filter]. rewrite IH. fold (rowKey eng "_id" d).
  destruct (String.eqb_spec (rowKey eng "_id" d) k) as [<-|Hne].
  - destruct (List.filter _ ds) as [|d' l]; [cbn; by rewrite lookup_insert_eq|]. cbn [last]. by destruct (last (d' :: l)) eqn:E; [|apply last_None in E].
  - destruct (last _); [done|]. by rewrite lookup_insert_ne.
Qed.

Lemma last_unique {A} (l l' : list A) : (length l' <= 1)%nat -> l ≡ₚ l' -> last l = head l'.
Proof.
  intros Hl Hp. rewrite <- (head_perm _ _ Hl Hp). rewrite <- (Permutation_length Hp) in Hl. destruct l as [|x [|y l]]; cbn in *; [done|done|lia].
Qed.

Lemma enrichArray_run ce arr h : childEmbedAnswers ce -> (forall el, el ∈ arr -> textKey el (cb_joinCol ce)) ->
  enrichArray c store ce arr h = (h, Ret (enriched ce <$> arr)).
Proof.
  intros [Hf Hone] Hk. unfold enrichArray. set (vals := omap (fun el => keyValue el (cb_joinCol ce)) arr).
  assert (Hvals : forall x, x ∈ vals -> exists s, x = gv_raw (MStr s)).
  { intros x (el&Hel&Hx)%list_elem_of_omap. destruct (Hk el Hel x Hx) as (s&->&_). by exists s. }
  destruct (distinct_texts (fmtV eng) vals) as (ss&Hss&Hmem); [done|done|]. rewrite Hss.
  assert (Hgo : forall fm : gmap string Document, (forall s, s ∈ ss -> fm !! s = (fun d => trimToFields d (childEmbedTrimSet ce)) <$> head (found colls (source ce) "_id" s)) ->
    enrichElement c (cb_field ce) (cb_joinCol ce) fm <$> arr = enriched ce <$> arr).
  { intros fm Hfm. apply list_fmap_ext. intros i el Hel%list_elem_of_lookup_2. unfold enrichElement, enriched. f_equal.
    destruct (keyValue el (cb_joinCol ce)) as [v|] eqn:Ev; [|done]. destruct (Hk el Hel v Ev) as (s&->&_). change (fmtV eng (gv_raw (MStr s))) with s.
    rewrite Hfm; [by destruct (head _)|]. apply Hmem, list_elem_of_omap. by exists el. }
  destruct ss as [|s0 ss']; [cbn; unfold gbind, gret; do 2 f_equal; apply Hgo; set_solver|]. set (ss := s0 :: ss') in *.
  destruct (Hf ss) as (ds&Hq&Hd). rewrite <- list_fmap_compose. cbn [fmap list_fmap]. change (gv_raw (MStr s0) :: list_fmap _ _ _ ss') with ((fun s => gv_raw (MStr s) : GVal) <$> ss).
  replace (((gv_raw : MVal -> GVal) ∘ (fun s : string => gv_raw (MStr s))) <$> ss) with ((fun s => gv_raw (MStr s) : GVal) <$> ss) by done.
  unfold gbind, liftE. rewrite Hq. unfold gret. do 2 f_equal. apply Hgo. intros s Hs. unfold byID. rewrite byID_lookup, lookup_empty.
  rewrite (last_unique _ _ (Hone s) (found_group c colls _ _ ss s ds Hd Hs)). by destruct (head _).
Qed.

(** ** One document *)

Definition enrichSpec (sp : Spec) (ce : ChildEmbed) : Spec :=
  match sp !! cb_segment ce with
  | Some (OPlain (OArr l)) => <[cb_segment ce := OPlain (OArr (enriched ce <$> l))]> sp
  | _ => sp
  end.

Definition arrayAt (doc : Doc) (seg : string) : option ArrRef :=
  match doc !! seg with Some (GPlain (SArr r)) => Some r | _ => None end.

Lemma arrayAt_Some doc seg r : arrayAt doc seg = Some r <-> doc !! seg = Some (GPlain (SArr r)).
Proof. unfold arrayAt. destruct (doc !! seg) as [[[]|]|]; split; congruence. Qed.

(** The array of a segment is referred to by nothing else in the document. *)
Definition alone (doc : Doc) (seg : string) : Prop := forall f k col x,
  doc !! seg = Some (GPlain (SArr (RAt f k))) -> doc !! col = Some x -> refersG x f k -> col = seg.

(** The elements of the segments [segs] have texts at the join columns [joins]. *)
Definition elementKeys (segs joins : list string) (h : Heap) (doc : Doc) : Prop := forall seg r el j,
  seg ∈ segs -> doc !! seg = Some (GPlain (SArr r)) -> el ∈ readArr h r -> j ∈ joins -> textKey el j.

Lemma readArr_write r arr (h : Heap) f k : (forall f' k', r = RAt f' k' -> (f' < length h)%nat) ->
  readArr (writeArr r arr h) (RAt f k) = if bool_decide (r = RAt f k) then arr else readArr h (RAt f k).
Proof.
  intros Hr. destruct r as [| |f' k']; cbn; [by rewrite bool_decide_eq_false_2..|]. specialize (Hr f' k' eq_refl).
  case_bool_decide as E.
  - injection E as -> ->. destruct (lookup_lt_is_Some_2 h f Hr) as [g Hg]. rewrite (list_lookup_alter_eq _ _ f), Hg. cbn. by rewrite lookup_insert_eq.
  - destruct (decide (f' = f)) as [->|Hne]; [|by rewrite list_lookup_alter_ne]. rewrite list_lookup_alter_eq. destruct (h !! f) as [g|]; [|done]. cbn.
    rewrite lookup_insert_ne; [done|]. intros ->. by apply E.
Qed.

Lemma writeArr_length r arr h : length (writeArr r arr h) = length h.
Proof. destruct r; [done|done|]. apply length_alter. Qed.

Lemma Rep_frame (h h' : Heap) (doc : Doc) (sp : Spec) : length h' = length h ->
  (forall col x f k, doc !! col = Some x -> refersG x f k -> readArr h (RAt f k) = readArr h' (RAt f k)) -> Rep h doc sp -> Rep h' doc sp.
Proof.
  intros Hl Hf [Hw Ho]. split; [rewrite Hl; exact Hw|]. rewrite <- Ho. apply reflexive_eq, map_fmap_ext. intros col x Hx. symmetry. apply ob_frame.
  intros f k Hr. by eapply Hf.
Qed.

(** The array a document has at a segment is the one it is to hold. *)
Lemma Rep_array (h : Heap) (doc : Doc) (sp : Spec) seg r : Rep h doc sp -> doc !! seg = Some (GPlain (SArr r)) ->
  exists l, sp !! seg = Some (OPlain (OArr l)) /\ readArr h r ≡ₚ l.
Proof.
  intros [_ Ho] Hd. specialize (Ho seg). rewrite lookup_fmap, Hd in Ho. cbn in Ho. inversion Ho as [a b Hab E1 E2|]; subst.
  destruct b as [[v|l]|]; try done. by exists l.
Qed.

Lemma Rep_noArray (h : Heap) (doc : Doc) (sp : Spec) seg : Rep h doc sp -> (forall r, doc !! seg <> Some (GPlain (SArr r))) ->
  match sp !! seg with Some (OPlain (OArr _)) => False | _ => True end.
Proof.
  intros [_ Ho] Hd. specialize (Ho seg). rewrite lookup_fmap in Ho. destruct (doc !! seg) as [[[v|r]|d]|]; cbn in Ho; [| by destruct (Hd r)| |].
  - inversion Ho as [a b Hab E1 E2|]; subst. by destruct b as [[]|].
  - inversion Ho as [a b Hab E1 E2|]; subst. by destruct b as [[]|].
  - by inversion Ho.
Qed.

(** An array rewritten in place. *)
Lemma Rep_write (h : Heap) (doc : Doc) (sp : Spec) seg r arr l : Rep h doc sp -> doc !! seg = Some (GPlain (SArr r)) -> alone doc seg -> r <> RNil -> r <> REmpty -> arr ≡ₚ l ->
  Rep (writeArr r arr h) doc (<[seg := OPlain (OArr l)]> sp).
Proof.
  intros [Hw Ho] Hd Hal H1 H2 Hp. destruct r as [| |f0 k0]; [done|done|].
  assert (Hlt : (f0 < length h)%nat) by (by eapply (Hw seg _ f0 k0)).
  split; [rewrite writeArr_length; exact Hw|]. rewrite <- Ho. intros col. destruct (decide (col = seg)) as [->|Hne].
  - rewrite lookup_insert_eq, lookup_fmap, Hd. cbn [fmap option_fmap option_map]. constructor.
    change (OPlain (OArr (readArr (writeArr (RAt f0 k0) arr h) (RAt f0 k0))) ≡ OPlain (OArr l)).
    rewrite readArr_write by (intros ? ? [= <- <-]; done). rewrite bool_decide_eq_true_2 by done. by rewrite Hp.
  - rewrite lookup_insert_ne by done. rewrite !lookup_fmap. destruct (doc !! col) as [x|] eqn:Ex; [|done]. cbn [fmap option_fmap option_map]. constructor. apply reflexive_eq, ob_frame.
    intros f k Hr. rewrite readArr_write by (intros ? ? [= <- <-]; done). rewrite bool_decide_eq_false_2; [done|].
    intros [= -> ->]. apply Hne. by eapply Hal.
Qed.

Lemma applyChildEmbed_run ce h doc sp : childEmbedAnswers ce -> Rep h doc sp -> alone doc (cb_segment ce) ->
  (forall r el, doc !! cb_segment ce = Some (GPlain (SArr r)) -> el ∈ readArr h r -> textKey el (cb_joinCol ce)) ->
  exists h', applyChildEmbed c doc store ce h = (h', Ret tt) /\ length h' = length h /\ Rep h' doc (enrichSpec sp ce) /\
    forall r, readArr h' r = if bool_decide (arrayAt doc (cb_segment ce) = Some r) then enriched ce <$> readArr h r else readArr h r.
Proof.
  intros Ha HR Hal Htk. unfold applyChildEmbed, enrichSpec.
  assert (Hskip : (forall r, doc !! cb_segment ce = Some (GPlain (SArr r)) -> readArr h r = []) ->
    Rep h doc match sp !! cb_segment ce with Some (OPlain (OArr l)) => <[cb_segment ce := OPlain (OArr (enriched ce <$> l))]> sp | _ => sp end /\
    forall r, readArr h r = if bool_decide (arrayAt doc (cb_segment ce) = Some r) then enriched ce <$> readArr h r else readArr h r).
  { intros Hnil. split; [|intros r; case_bool_decide as E; [apply arrayAt_Some in E; by rewrite Hnil|done]].
    destruct (doc !! cb_segment ce) as [[[v|r]|d]|] eqn:Ed.
    2: { destruct (Rep_array _ _ _ _ _ HR Ed) as (l&Hl&Hp). rewrite Hl. rewrite Hnil in Hp by done. apply Permutation_nil_l in Hp as <-. cbn. by rewrite insert_id. }
    all: assert (Hno : forall r, doc !! cb_segment ce <> Some (GPlain (SArr r))) by (intros r; by rewrite Ed); pose proof (Rep_noArray _ _ _ _ HR Hno) as Hn;
      destruct (sp !! cb_segment ce) as [[[]|]|]; done. }
  destruct (doc !! cb_segment ce) as [[[v|r]|d]|] eqn:Ed; try (exists h; split; [done|]; split; [done|]; apply Hskip; by intros ? ?).
  unfold gbind at 1, gget. destruct (readArr h r) as [|el0 els] eqn:Er; [exists h; split; [done|]; split; [done|]; apply Hskip; by intros ? [= <-]|].
  rewrite <- Er in *. assert (Hr : r <> RNil /\ r <> REmpty) by (destruct r; [done|done|done]).
  assert (Hlt : forall f k, r = RAt f k -> (f < length h)%nat) by (intros f k ->; destruct HR as [Hw _]; by eapply (Hw (cb_segment ce) _ f k)).
  assert (Harr : forall el, el ∈ readArr h r -> textKey el (cb_joinCol ce)) by (intros el; by apply Htk).
  destruct (readArr h r) as [|e l0] eqn:Er'; [done|]. rewrite (bind_ret _ _ _ _ _ (enrichArray_run ce (e :: l0) h Ha Harr)). rewrite <- Er' in *. unfold gmodify. eexists. split; [done|].
  split; [apply writeArr_length|]. destruct (Rep_array _ _ _ _ _ HR Ed) as (l&Hl&Hp). rewrite Hl. split.
  - apply Rep_write; [done|done|done|apply Hr|apply Hr|]. by rewrite Hp.
  - intros r'. assert (Hat : arrayAt doc (cb_segment ce) = Some r) by by apply arrayAt_Some. rewrite Hat.
    destruct r' as [| |f k]; [case_bool_decide as E; [injection E as ->; by destruct Hr|done]..|].
    rewrite readArr_write by done. destruct (decide (r = RAt f k)) as [->|Hne].
    + by rewrite !bool_decide_eq_true_2.
    + rewrite !bool_decide_eq_false_2; [done|congruence|done].
Qed.

Lemma enriched_textKey ce el j : cb_field ce <> j -> textKey el j -> textKey (enriched ce el) j.
Proof. intros Hne Hk x. rewrite (keyValue_ext _ el j); [apply Hk|]. unfold enriched. by rewrite lookup_insert_ne. Qed.

Lemma eachChildEmbed_run segs joins ces h doc sp :
  (forall ce, ce ∈ ces -> childEmbedAnswers ce /\ cb_segment ce ∈ segs /\ cb_joinCol ce ∈ joins /\ cb_field ce ∉ joins) ->
  Rep h doc sp -> (forall seg, seg ∈ segs -> alone doc seg) -> elementKeys segs joins h doc ->
  exists h', eachChildEmbed c doc store ces h = (h', Ret tt) /\ length h' = length h /\ Rep h' doc (foldl enrichSpec sp ces) /\
    forall r, (forall seg, seg ∈ segs -> arrayAt doc seg <> Some r) -> readArr h' r = readArr h r.
Proof.
  revert h sp. induction ces as [|ce ces IH]; intros h sp Hce HR Hal Hel; [by exists h|].
  destruct (Hce ce ltac:(by apply list_elem_of_here)) as (Ha&Hseg&Hjoin&Hfield).
  destruct (applyChildEmbed_run ce h doc sp Ha HR) as (h1&Hrun&Hl1&HR1&Hread); [by apply Hal|intros r el Hd He; by eapply Hel|].
  destruct (IH h1 (enrichSpec sp ce)) as (h2&Hrun2&Hl2&HR2&Hread2); [|done|done| |].
  - intros ce' Hc'. apply Hce. by apply list_elem_of_further.
  - intros seg r el j Hs Hd He Hj. rewrite Hread in He. case_bool_decide; [|by eapply Hel].
    apply list_elem_of_fmap in He as (el0&->&He0). apply enriched_textKey; [set_solver|]. by eapply Hel.
  - exists h2. cbn. rewrite (bind_ret _ _ _ _ _ Hrun). split; [done|]. split; [congruence|]. split; [done|].
    intros r Hr. rewrite Hread2, Hread by done. rewrite bool_decide_eq_false_2; [done|]. by apply Hr.
Qed.

(** ** A batch of documents *)

(** The arrays of a document's segments are not referred to by another. *)
Definition apart (segs : list string) (doc doc' : Doc) : Prop := forall seg f k col x,
  seg ∈ segs -> arrayAt doc seg = Some (RAt f k) -> doc' !! col = Some x -> ~ refersG x f k.

Context (Hstore : cp_mongo c = Some store).

Lemma applyChildEmbeds_run segs joins ces h doc sp :
  (forall ce, ce ∈ ces -> childEmbedAnswers ce /\ cb_segment ce ∈ segs /\ cb_joinCol ce ∈ joins /\ cb_field ce ∉ joins) ->
  Rep h doc sp -> (forall seg, seg ∈ segs -> alone doc seg) -> elementKeys segs joins h doc ->
  exists h', applyChildEmbeds c doc ces h = (h', Ret tt) /\ length h' = length h /\ Rep h' doc (foldl enrichSpec sp ces) /\
    forall r, (forall seg, seg ∈ segs -> arrayAt doc seg <> Some r) -> readArr h' r = readArr h r.
Proof.
  intros. unfold applyChildEmbeds, requireStore. rewrite Hstore. destruct ces; [by exists h|]. unfold gbind, gret. by eapply eachChildEmbed_run.
Qed.

Lemma eachRowEmbeds_run segs joins ces h docs sps :
  (forall ce, ce ∈ ces -> childEmbedAnswers ce /\ cb_segment ce ∈ segs /\ cb_joinCol ce ∈ joins /\ cb_field ce ∉ joins) ->
  Forall2 (fun doc sp => Rep h doc sp /\ (forall seg, seg ∈ segs -> alone doc seg) /\ elementKeys segs joins h doc) docs sps ->
  (forall i j d d', i <> j -> docs !! i = Some d -> docs !! j = Some d' -> apart segs d d') ->
  exists h', eachRowEmbeds c docs ces h = (h', Ret tt) /\ length h' = length h /\ Forall2 (fun doc sp => Rep h' doc (foldl enrichSpec sp ces)) docs sps /\
    forall r, (forall d seg, d ∈ docs -> seg ∈ segs -> arrayAt d seg <> Some r) -> readArr h' r = readArr h r.
Proof.
  intros Hce. revert h sps. induction docs as [|doc docs IH]; intros h sps HF Hap.
  - apply Forall2_nil_inv_l in HF as ->. exists h. repeat split; auto.
  - apply Forall2_cons_inv_l in HF as (sp&sps'&(HR&Hal&Hel)&HF&->).
    destruct (applyChildEmbeds_run segs joins ces h doc sp Hce HR Hal Hel) as (h1&Hrun&Hl1&HR1&Hread).
    assert (Hother : forall i d col x f k, docs !! i = Some d -> d !! col = Some x -> refersG x f k -> readArr h1 (RAt f k) = readArr h (RAt f k)).
    { intros i d col x f k Hd Hx Hr. apply Hread. intros seg Hs Hat. by apply (Hap 0%nat (S i) doc d ltac:(lia) eq_refl Hd seg f k col x Hs Hat Hx). }
    destruct (IH h1 sps') as (h2&Hrun2&Hl2&HF2&Hread2).
    + apply Forall2_same_length_lookup in HF as [Hlen HF]. apply Forall2_same_length_lookup. split; [done|]. intros i d sp' Hd Hs.
      destruct (HF i d sp' Hd Hs) as (HRd&Hald&Held). split; [|split; [done|]].
      * eapply Rep_frame; [done| |done]. intros col x f k Hx Hr. symmetry. by eapply Hother.
      * intros seg r el j Hs' Hr He Hj. destruct r as [| |f k]; [by apply not_elem_of_nil in He..|]. eapply Held; [done|done| |done].
        by rewrite <- (Hother i d seg (GPlain (SArr (RAt f k))) f k).
    + intros i j d d' Hne Hd Hd'. apply (Hap (S i) (S j) d d'); [lia|done|done].
    + exists h2. cbn. rewrite (bind_ret _ _ _ _ _ Hrun). split; [done|]. split; [congruence|]. split.
      * constructor; [|done]. eapply Rep_frame; [done| |done]. intros col x f k Hx Hr. symmetry. apply Hread2. intros d seg Hd Hs Hat.
        apply list_elem_of_lookup in Hd as [i Hd]. by apply (Hap (S i) 0%nat d doc ltac:(lia) Hd eq_refl seg f k col x Hs Hat Hx).
      * intros r Hr. rewrite Hread2, Hread; [done| |].
        -- intros seg Hs. apply Hr; [by apply list_elem_of_here|done].
        -- intros d seg Hd Hs. apply Hr; [by apply list_elem_of_further|done].
Qed.

End Enrich.
