(* ===== verification/ComposerWhole.v ===== *)
(** * What a view's document holds

    [composedOf] is the document of a root row, from the rows of the source and the
    documents of the read model alone.  The composer of one root and that of a batch both
    leave it, whatever order the statements answer in and however the arrays are shared. *)

From S2P Require Import Prelude Naming Errors BaseEntity Criteria CriteriaSql Mongo Hydrate HydrateProps Composer ComposerProps ComposerRoles.
From stdpp Require Import base gmap strings list fin_maps.
From Stdlib Require Import ZArith Lia.

Open Scope string_scope.
Open Scope list_scope.
Open Scope go_scope.

(** ** Arrays of a document's own children *)

(** References into the fetches [lo] to [lo + length segs] are the groups [key] of the segments in their
    order, and the arrays of the segments are nowhere else. *)
Definition placed (lo : nat) (segs : list string) (key : string) (doc : Doc) : Prop :=
  (forall col x f k, doc !! col = Some x -> refersG x f k -> (lo <= f < lo + length segs)%nat -> k = key /\ segs !! (f - lo)%nat = Some col) /\
  (forall seg f k, seg ∈ segs -> arrayAt doc seg = Some (RAt f k) -> (lo <= f < lo + length segs)%nat).

Lemma placed_alone lo segs key doc seg : placed lo segs key doc -> seg ∈ segs -> alone doc seg.
Proof.
  intros [H1 H2] Hs f k col x Hd Hx Hr. assert (Hat : arrayAt doc seg = Some (RAt f k)) by by apply arrayAt_Some. pose proof (H2 seg f k Hs Hat) as Hf.
  destruct (H1 col x f k Hx Hr Hf) as [_ E1]. destruct (H1 seg _ f k Hd eq_refl Hf) as [_ E2]. congruence.
Qed.

Lemma placed_apart lo segs key key' doc doc' : placed lo segs key doc -> placed lo segs key' doc' -> key <> key' -> apart segs doc doc'.
Proof.
  intros [H1 H2] [H1' _] Hne seg f k col x Hs Hat Hx Hr. pose proof (H2 seg f k Hs Hat) as Hf. apply arrayAt_Some in Hat.
  destruct (H1 seg _ f k Hat eq_refl Hf) as [-> _]. by destruct (H1' col x f key Hx Hr Hf) as [-> _].
Qed.

Lemma apart_sub segs segs' doc doc' : segs' ⊆ segs -> apart segs doc doc' -> apart segs' doc doc'.
Proof. intros Hs Ha seg f k col x Hin. apply Ha. by apply Hs. Qed.

(** From the flat document through the base's arrays, its own and the later fields. *)
Lemma placed_steps L0 lo (baseSegs segs later : list string) key h1 (flat doc1 doc2 doc3 : Doc) sp1 :
  rawDoc flat -> extends L0 baseSegs flat doc1 -> Rep h1 doc1 sp1 -> length h1 = lo -> nested (O := GObs) lo segs key doc1 doc2 ->
  extends (lo + length segs) later doc2 doc3 -> (forall seg, seg ∈ segs -> seg ∉ baseSegs /\ seg ∉ later) -> placed lo segs key doc3.
Proof.
  intros Hraw He1 [Hw1 _] Hl Hn He3 Hdis.
  assert (Hno : forall col x f k, doc1 !! col = Some x -> refersG x f k -> (f < lo)%nat /\ col ∈ baseSegs).
  { intros col x f k Hx Hr. split; [rewrite <- Hl; by eapply Hw1|]. destruct (He1 col) as [E|[Hin _]]; [|done]. rewrite E in Hx.
    destruct (Hraw col x Hx) as [v ->]. discriminate Hr. }
  split.
  - intros col x f k Hx Hr Hf. destruct (He3 col) as [E|[_ H3]]; [|specialize (H3 x f k Hx Hr); lia]. rewrite E in Hx.
    destruct (Hn col) as [E2|[Hin H2]]; [rewrite E2 in Hx; destruct (Hno col x f k Hx Hr); lia|]. by destruct (H2 x f k Hx Hr) as (->&_&Hs).
  - intros seg f k Hs Hat. apply arrayAt_Some in Hat. destruct (Hdis seg Hs) as [Hd1 Hd2]. destruct (He3 seg) as [E|[Hin _]]; [|done]. rewrite E in Hat.
    destruct (Hn seg) as [E2|[Hin H2]]; [rewrite E2 in Hat; by destruct (Hno seg _ f k Hat eq_refl)|].
    destruct (H2 _ f k Hat eq_refl) as (_&Hle&Hlk). apply lookup_lt_Some in Hlk. lia.
Qed.

(** ** The document of a row *)

Section View.
Context {Arg : Type} (c : Composer Arg) (store : Store) (tables colls : string -> list Document) (view : ViewSource).

Abbreviation eng := (cp_eng c).
Abbreviation schema := (vw_schema view).
Abbreviation root := (rt_source (vw_schema view)).
Abbreviation all := (negb (vw_deleteOnArchive view)).
Abbreviation pk := (SchemaPK (rt_source (vw_schema view))).
Abbreviation fk := (so_baseLink (rt_source (vw_schema view))).
Abbreviation ownSegment := (fun child => so_segment (ow_source child)).

Definition rootFetch : Fetch := mkFetch root (so_table root) pk (SchemaArchivedAt root) all.

Definition rootDoc (r : Document) : Doc := RemapRevision (rowDoc r) root docRevisionField.

Definition rootSiblings (r : Document) : Doc := withSiblings eng tables (rt_owner schema) all (KeyOf eng (rootDoc r) pk) (rootDoc r).

(** The root's row with the columns of its siblings and of its base. *)
Definition flatOf (r : Document) : Doc :=
  if vw_isSharedBaseView view then rootDoc r else withBase eng tables schema all (rootSiblings r).

Definition withBaseArrays (flat : Doc) (sp : Spec) : Spec :=
  match (if vw_isSharedBaseView view then None else rt_base schema) with
  | Some base => withArrays (O := GObs) so_segment (baseRows eng tables all) (bs_children base) (KeyOf eng flat fk) sp
  | None => sp
  end.

Definition withOwnArrays (flat : Doc) (sp : Spec) : Spec :=
  withArrays (O := GObs) ownSegment (ownRows eng tables all) (rt_children schema) (KeyOf eng flat pk) sp.

Definition viewRoles : list (string * RootSource) := if vw_isSharedBaseView view then vw_roles view else [].

Definition withRoles (flat : Doc) (sp : Spec) : Spec := foldl (fun sp r => roleSpec c tables all pk r flat sp) sp viewRoles.

Definition withEmbeds (flat : Doc) (sp : Spec) : Spec := foldl (fun sp e => embedSpec c colls pk e flat sp) sp (vw_embeds view).

(** What the document of a root row holds. *)
Definition composedOf (r : Document) : Spec :=
  let flat := flatOf r in
  foldl (enrichSpec c colls) (withEmbeds flat (withRoles flat (withOwnArrays flat (withBaseArrays flat (observe [] flat))))) (vw_childEmbeds view).

(** ** What the composer relies on *)

Definition baseSegments : list string := match rt_base schema with Some base => so_segment <$> bs_children base | None => [] end.
Definition ownSegments : list string := ownSegment <$> rt_children schema.
Definition laterFields : list string := (fst <$> vw_roles view) ++ (eb_field <$> vw_embeds view).
Definition joinColumns : list string := cb_joinCol <$> vw_childEmbeds view.

(** The columns whose values are keys. *)
Definition keyColumns : list string :=
  pk :: match rt_base schema with Some _ => [fk] | None => [] end ++ (embedKey pk <$> vw_embeds view).

(** The names of a view do not collide: its segments and fields are not key columns, the segments of its own
    children are theirs alone, an enrichment is of an own child and is no join column; its id is not
    its revision and no column of its base hides it. *)
Record namesApart : Prop := {
  na_keys col : col ∈ keyColumns -> col ∉ baseSegments /\ col ∉ ownSegments /\ col ∉ laterFields;
  na_own seg : seg ∈ ownSegments -> seg ∉ baseSegments /\ seg ∉ laterFields;
  na_enrich ce : ce ∈ vw_childEmbeds view -> cb_segment ce ∈ ownSegments /\ cb_field ce ∉ joinColumns;
  na_pk : pk <> so_revision root /\ pk <> docRevisionField;
  na_base base : rt_base schema = Some base -> pk ∈ sharedBaseSkipSet (bs_source base) root \/
    (pk ∉ readColsWithKey (bs_source base) (so_idColumn (bs_source base)) /\ pk <> BaseRevisionField)
}.

(** The source answers the statements of the view. *)
Record sourceAnswers : Prop := {
  sa_root : answersRow eng tables rootFetch /\ answersIn eng tables rootFetch /\ oneRow eng tables rootFetch /\ keyKept rootFetch;
  sa_siblings sib : sib ∈ ow_siblings (rt_owner schema) -> let f := sibFetch (rt_owner schema) all sib in
    answersRow eng tables f /\ answersIn eng tables f /\ oneRow eng tables f /\ keyKept f;
  sa_base base : rt_base schema = Some base -> let f := baseFetch base all in
    answersRow eng tables f /\ answersIn eng tables f /\ oneRow eng tables f /\ keyKept f;
  sa_baseChildren base bc : rt_base schema = Some base -> bc ∈ bs_children base -> let f := childFetch bc all in
    answersWhere eng tables f /\ answersIn eng tables f /\ keyKept f;
  sa_children child : child ∈ rt_children schema -> childAnswers eng tables all child;
  sa_roles r : r ∈ vw_roles view -> roleAnswers c tables all r.2;
  sa_range : rangesAll eng
}.

(** The read model answers the finds of the view. *)
Record storeAnswers : Prop := {
  st_store : cp_mongo c = Some store;
  st_embeds e : e ∈ vw_embeds view -> embedAnswers c store colls e;
  st_childEmbeds ce : ce ∈ vw_childEmbeds view -> childEmbedAnswers c store colls ce
}.

(** Key columns hold texts. *)
Record keysAreTexts : Prop := {
  kt_link k r : r ∈ rowsOf eng tables rootFetch k -> rt_base schema <> None -> textKey (rootSiblings r) fk;
  kt_root k r col : r ∈ rowsOf eng tables rootFetch k -> col ∈ keyColumns -> textKey (flatOf r) col;
  kt_elements child k el j : child ∈ rt_children schema -> el ∈ ownRows eng tables all child k -> j ∈ joinColumns -> textKey el j
}.

Context (Hnames : namesApart) (Hsource : sourceAnswers) (Hread : storeAnswers) (Htexts : keysAreTexts).

(** ** Root rows *)

Lemma rowDoc_raw r : rawDoc (rowDoc r).
Proof. intros col x. unfold rowDoc. rewrite lookup_fmap. intros (v&_&->)%fmap_Some. by exists v. Qed.

Lemma flatOf_raw r : rawDoc (flatOf r).
Proof.
  unfold flatOf, rootSiblings. assert (Hr : rawDoc (rootDoc r)) by apply rawDoc_remap, rowDoc_raw.
  destruct (vw_isSharedBaseView view); [done|]. by apply rawDoc_base, rawDoc_siblings.
Qed.

Lemma remap_other {X} (doc : gmap string X) s w col : col <> so_revision s -> col <> w -> RemapRevision doc s w !! col = doc !! col.
Proof.
  intros H1 H2. unfold RemapRevision. destruct (String.eqb _ _); [done|]. destruct (doc !! so_revision s); [|done].
  by rewrite lookup_delete_ne, lookup_insert_ne.
Qed.

Lemma finish_dom row s col : row !! col = None -> finishRow row s !! col = None.
Proof.
  intros Hc. unfold finishRow, redactSync, CoerceTypes. assert (Hcoerce : foldl (fun row col => match row !! col with
    | Some (MInt v) => <[col := MBool (negb (Z.eqb v 0))]> row | _ => row end) row (so_bools s) !! col = None).
  { revert row Hc. induction (so_bools s) as [|b l IH]; intros row Hc; [done|]. cbn. apply IH. destruct (row !! b) as [[]|] eqn:E; try done.
    rewrite lookup_insert_ne; [done|congruence]. }
  revert Hcoerce. generalize (foldl (fun (row : Document) col => match row !! col with
    | Some (MInt v) => <[col := MBool (negb (Z.eqb v 0))]> row | _ => row end) row (so_bools s)). clear Hc row. intros row Hc.
  revert row Hc. induction (so_redact s) as [|[b g] l IH]; intros row Hc; [done|]. cbn. apply IH. destruct (row !! b) eqn:E; [|done].
  rewrite lookup_insert_ne; [done|congruence].
Qed.

Lemma rowsOf_columns f k r col : r ∈ rowsOf eng tables f k -> col ∉ readColsWithKey (fe_source f) (fe_key f) -> r !! col = None.
Proof.
  intros (r0&->&Hr0)%list_elem_of_fmap Hc. apply list_elem_of_fmap in Hr0 as (r1&->&_). apply finish_dom. apply map_lookup_filter_None. right. by intros v _.
Qed.

Lemma rowsOf_key f k r : keyKept f -> r ∈ rowsOf eng tables f k -> exists v, keyValue r (fe_key f) = Some v /\ fmtV eng v = k.
Proof.
  intros Hk (r0&->&Hr0)%list_elem_of_fmap. apply list_elem_of_fmap in Hr0 as (r1&->&Hr1). apply list_elem_of_In, filter_In in Hr1 as [_ Hr1].
  apply andb_true_iff in Hr1 as [Hr1 _]. unfold hasKey in Hr1. destruct (keyValue r1 (fe_key f)) as [v|] eqn:Ev; [|done].
  apply bool_decide_eq_true, list_elem_of_singleton in Hr1. exists v. split; [|done]. by rewrite (keyValue_ext _ r1) by by apply finished_key.
Qed.

Lemma rootDoc_key r k : r ∈ rowsOf eng tables rootFetch k -> KeyOf eng (rootDoc r) pk = k.
Proof.
  intros Hr. destruct (sa_root Hsource) as (_&_&_&Hkept). destruct (rowsOf_key _ _ _ Hkept Hr) as (v&Hv&<-). cbn in Hv.
  destruct (na_pk Hnames) as [H1 H2]. unfold rootDoc. rewrite (keyOf_ext eng _ (rowDoc r)) by by apply remap_other.
  unfold KeyOf, keyValue, rowDoc in *. rewrite lookup_fmap. destruct (r !! pk) as [x|]; [|done]. destruct x; by simplify_eq/=.
Qed.

Lemma flatOf_key r k : r ∈ rowsOf eng tables rootFetch k -> KeyOf eng (flatOf r) pk = k.
Proof.
  intros Hr. rewrite <- (rootDoc_key r k Hr). apply keyOf_ext. unfold flatOf. destruct (vw_isSharedBaseView view); [done|].
  transitivity (rootSiblings r !! pk); [|apply (withSiblings_pk eng tables (rt_owner schema))].
  unfold withBase. destruct (rt_base schema) as [base|] eqn:Eb; [|done]. destruct (String.eqb _ _); [done|]. destruct (head _) as [b|] eqn:Eh; [|done].
  destruct (na_base Hnames base Eb) as [Hskip|[Hcol Hne]]; [by apply overlay_other|]. unfold overlayBase, overlayRow. apply lookup_union_r.
  rewrite lookup_fmap, (proj2 (map_lookup_filter_None _ _ _)); [done|]. left.
  assert (Hb : b !! pk = None) by (eapply (rowsOf_columns (baseFetch base all)); [by apply head_Some_elem_of|done]).
  unfold RemapRevision. destruct (String.eqb _ _); [done|]. destruct (b !! so_revision (bs_source base)); [|done].
  apply lookup_delete_None. right. rewrite lookup_insert_ne; [done|congruence].
Qed.

(** ** The arrays *)

Lemma withArrays_at {C} (segf : C -> string) rowsFor (l : list C) key (sp : Spec) seg : key <> "" -> seg ∈ segf <$> l ->
  exists ch, ch ∈ l /\ withArrays (O := GObs) segf rowsFor l key sp !! seg = Some (OPlain (OArr (rowsFor ch key))).
Proof.
  intros Hk. unfold withArrays. apply String.eqb_neq in Hk. rewrite Hk. revert sp. induction l as [|ch l IH]; intros sp Hs; [by apply not_elem_of_nil in Hs|].
  cbn in *. destruct (decide (seg ∈ segf <$> l)) as [Hin|Hout]; [destruct (IH (<[segf ch := OPlain (OArr (rowsFor ch key))]> sp) Hin) as (ch'&H1&H2); exists ch'; split; [by right|done]|].
  apply elem_of_cons in Hs as [->|Hs]; [|done]. exists ch. split; [by left|].
  assert (Hout' : forall sp : Spec, foldl (fun sp ch => <[segf ch := OPlain (OArr (rowsFor ch key))]> sp) sp l !! segf ch = sp !! segf ch).
  { clear -Hout. induction l as [|ch' l IH]; intros sp; [done|]. cbn in *. apply not_elem_of_cons in Hout as [Hne Hout]. rewrite IH by done. by rewrite lookup_insert_ne. }
  rewrite Hout'. by rewrite lookup_insert_eq.
Qed.

(** A document with its arrays: those of its own children are the fetches from [lo] on. *)
Definition laidOut (lo : nat) (key : string) (h : Heap) (doc : Doc) (r : Document) : Prop :=
  let flat := flatOf r in
  Rep h doc (withOwnArrays flat (withBaseArrays flat (observe [] flat))) /\
  (forall col, col ∈ keyColumns -> doc !! col = flat !! col) /\
  forall doc', extends (length h) laterFields doc doc' -> placed lo ownSegments key doc'.

Lemma laidOut_elements lo key h h' doc doc' r k : r ∈ rowsOf eng tables rootFetch k -> k <> "" -> laidOut lo key h doc r -> h `prefix_of` h' -> extends (length h) laterFields doc doc' ->
  elementKeys (cb_segment <$> vw_childEmbeds view) joinColumns h' doc'.
Proof.
  intros Hr Hk ([Hw Ho]&_&_) [e ->] He seg ref el j Hs Hd Hel Hj. apply list_elem_of_fmap in Hs as (ce&->&Hce). destruct (na_enrich Hnames ce Hce) as [Hown _].
  destruct (na_own Hnames _ Hown) as [_ Hnl]. destruct (He (cb_segment ce)) as [E|[Hin _]]; [|done]. rewrite E in Hd.
  destruct (withArrays_at ownSegment (ownRows eng tables all) (rt_children schema) (KeyOf eng (flatOf r) pk) (withBaseArrays (flatOf r) (observe [] (flatOf r))) (cb_segment ce))
    as (child&Hchild&Hat); [by rewrite (flatOf_key r k Hr)|done|].
  destruct (Rep_array h doc _ (cb_segment ce) ref (conj Hw Ho) Hd) as (l&Hl&Hp). unfold withOwnArrays in Hl. rewrite Hat in Hl. injection Hl as <-.
  apply (kt_elements Htexts child (KeyOf eng (flatOf r) pk) el j Hchild); [|done]. rewrite <- Hp.
  destruct ref as [| |f kk]; [done|done|]. rewrite readArr_app in Hel; [done|]. by eapply (Hw _ _ f kk Hd).
Qed.

(** The two steps together, for one document. *)
Lemma laidOut_intro lo key r (h0 h1 h2 : Heap) doc1 doc2 sp1 : sp1 = withBaseArrays (flatOf r) (observe [] (flatOf r)) ->
  extends (length h0) baseSegments (flatOf r) doc1 -> Rep h1 doc1 sp1 -> length h1 = lo -> length h2 = (lo + length ownSegments)%nat ->
  Rep h2 doc2 (withArrays (O := GObs) ownSegment (ownRows eng tables all) (rt_children schema) (KeyOf eng doc1 pk) sp1) ->
  nested (O := GObs) lo ownSegments key doc1 doc2 -> laidOut lo key h2 doc2 r.
Proof.
  intros -> He1 HR1 Hl1 Hl2 HR2 Hn.
  assert (Hk1 : forall col, col ∈ keyColumns -> doc1 !! col = flatOf r !! col).
  { intros col Hc. destruct (He1 col) as [E|[Hin _]]; [done|]. by destruct (na_keys Hnames col Hc). }
  split; [|split].
  - unfold withOwnArrays. rewrite <- (keyOf_ext eng doc1 (flatOf r) pk); [done|]. apply Hk1. by left.
  - intros col Hc. rewrite <- Hk1 by done. destruct (Hn col) as [E|[Hin _]]; [done|]. by destruct (na_keys Hnames col Hc) as (_&?&_).
  - intros doc3 He3. rewrite Hl2 in He3. eapply placed_steps; [apply flatOf_raw|exact He1|exact HR1|exact Hl1|exact Hn|exact He3|]. apply (na_own Hnames).
Qed.

Definition arraysRow (doc : Doc) : HM Doc :=
  doc <- (if vw_isSharedBaseView view then gret doc else MergeSharedBaseChildren eng doc schema all);;
  MergeOwnChildren eng doc schema all.

Definition arraysBatch (docs : list Doc) : HM (list Doc) :=
  docs <- (if vw_isSharedBaseView view then gret docs else MergeSharedBaseChildrenBatch eng docs schema all);;
  MergeOwnChildrenBatch eng docs schema all.

Lemma textKey_keyed {X} `{GoVal X} (doc : gmap string X) col : (forall v : MVal, gv_scalar (gv_raw v : X) = Some v) -> textKey doc col -> keyed eng doc col.
Proof. intros Hs Hk x Hx. destruct (Hk x Hx) as (s&->&Hne). unfold fmtAny. by rewrite Hs. Qed.

Lemma baseArrays_row r k h : r ∈ rowsOf eng tables rootFetch k ->
  exists h1 doc1, (if vw_isSharedBaseView view then gret (flatOf r) else MergeSharedBaseChildren eng (flatOf r) schema all) h = (h1, Ret doc1) /\
    h `prefix_of` h1 /\ Rep h1 doc1 (withBaseArrays (flatOf r) (observe [] (flatOf r))) /\ extends (length h) baseSegments (flatOf r) doc1.
Proof.
  intros Hr. assert (HR0 : Rep h (flatOf r) (observe [] (flatOf r))) by exact (Rep_raw (O := GObs) h _ (flatOf_raw r)).
  assert (Hstay : exists h1 doc1, gret (E := GoErr) (flatOf r) h = (h1, Ret doc1) /\ h `prefix_of` h1 /\ Rep h1 doc1 (observe [] (flatOf r)) /\ extends (length h) baseSegments (flatOf r) doc1).
  { exists h, (flatOf r). split; [done|]. split; [done|]. split; [done|apply fields_refl]. }
  unfold withBaseArrays. destruct (vw_isSharedBaseView view) eqn:Ev; [exact Hstay|]. destruct (rt_base schema) as [base|] eqn:Eb.
  - destruct (baseChildren_row eng tables (O := GObs) all schema base (flatOf r) h (observe [] (flatOf r)) Eb) as (h1&doc1&Hm&Hp&HR&Hn).
    + intros bc Hbc. by apply (sa_baseChildren Hsource base bc).
    + apply textKey_keyed; [done|]. apply (kt_root Htexts k r _ Hr). unfold keyColumns. rewrite Eb. cbn. set_solver.
    + done.
    + exists h1, doc1. split; [done|]. split; [done|]. split; [done|]. unfold baseSegments. rewrite Eb. by eapply nested_extends.
  - unfold MergeSharedBaseChildren. rewrite Eb. exact Hstay.
Qed.

Lemma arrays_row r k h : r ∈ rowsOf eng tables rootFetch k -> k <> "" ->
  exists h2 doc2 lo, arraysRow (flatOf r) h = (h2, Ret doc2) /\ h `prefix_of` h2 /\ laidOut lo "" h2 doc2 r.
Proof.
  intros Hr Hk. destruct (baseArrays_row r k h Hr) as (h1&doc1&Hm1&Hp1&HR1&He1). unfold arraysRow. rewrite (bind_ret _ _ _ _ _ Hm1).
  assert (Hpk : KeyOf eng doc1 pk = k).
  { rewrite <- (flatOf_key r k Hr). apply keyOf_ext. destruct (He1 pk) as [E|[Hin _]]; [done|]. by destruct (na_keys Hnames pk (list_elem_of_here _ _)). }
  destruct (ownChildren_row eng tables all schema doc1 h1 (withBaseArrays (flatOf r) (observe [] (flatOf r))) (sa_children Hsource)) as (h2&doc2&Hm2&Hp2&Hl2&HR2&Hn);
    [apply keyOf_some; by rewrite Hpk|exact HR1|].
  exists h2, doc2, (length h1). split; [done|]. split; [by etrans|]. eapply laidOut_intro; [done|done|exact HR1|done| |exact HR2|exact Hn].
  unfold ownSegments. rewrite length_fmap. apply Hl2. by rewrite Hpk.
Qed.

Lemma baseArrays_batch rows h : (forall r, r ∈ rows -> exists k, r ∈ rowsOf eng tables rootFetch k) ->
  exists h1 docs1, (if vw_isSharedBaseView view then gret (flatOf <$> rows) else MergeSharedBaseChildrenBatch eng (flatOf <$> rows) schema all) h = (h1, Ret docs1) /\
    h `prefix_of` h1 /\ Forall2 (fun doc1 r => Rep h1 doc1 (withBaseArrays (flatOf r) (observe [] (flatOf r))) /\ extends (length h) baseSegments (flatOf r) doc1) docs1 rows.
Proof.
  intros Hr.
  assert (HR0 : forall r, Rep h (flatOf r) (observe [] (flatOf r))) by (intros r; exact (Rep_raw (O := GObs) h _ (flatOf_raw r))).
  assert (Hstay : exists h1 docs1, gret (E := GoErr) (flatOf <$> rows) h = (h1, Ret docs1) /\ h `prefix_of` h1 /\
    Forall2 (fun doc1 r => Rep h1 doc1 (observe [] (flatOf r)) /\ extends (length h) baseSegments (flatOf r) doc1) docs1 rows).
  { exists h, (flatOf <$> rows). split; [done|]. split; [done|]. apply Forall2_fmap_l. clear Hr. induction rows; constructor; [split; [done|apply fields_refl]|done]. }
  unfold withBaseArrays. destruct (vw_isSharedBaseView view) eqn:Ev; [exact Hstay|]. destruct (rt_base schema) as [base|] eqn:Eb.
  - destruct (baseChildren_batch eng tables (O := GObs) all schema base (flatOf <$> rows) h ((fun r => observe [] (flatOf r)) <$> rows) Eb) as (h1&docs1&Hm&Hp&HR).
    + intros bc Hbc. destruct (sa_baseChildren Hsource base bc Eb Hbc) as (_&H1&H2). split; [done|]. split; [done|]. intros E.
      destruct (na_keys Hnames fk) as [Hno _]; [unfold keyColumns; rewrite Eb; cbn; set_solver|]. apply Hno. unfold baseSegments. rewrite Eb, <- E.
      apply list_elem_of_fmap. by exists bc.
    + apply Forall2_fmap_l, Forall2_fmap_r. clear -HR0. induction rows; constructor; [apply HR0|done].
    + exists h1, docs1. split; [done|]. split; [done|]. unfold baseSegments. rewrite Eb. clear -HR. revert docs1 HR. induction rows as [|r rows IH]; intros docs1 HR; cbn in HR.
      * by apply Forall2_nil_inv_r in HR as ->.
      * apply Forall2_cons_inv_r in HR as (d&ds&[HRd Hn]&Hrest&->). constructor; [split; [done|by eapply nested_extends]|by apply IH].
  - unfold MergeSharedBaseChildrenBatch. rewrite Eb. exact Hstay.
Qed.

Lemma arrays_batch rows h : (forall r, r ∈ rows -> exists k, r ∈ rowsOf eng tables rootFetch k) -> rows <> [] ->
  exists h2 docs2 lo, arraysBatch (flatOf <$> rows) h = (h2, Ret docs2) /\ h `prefix_of` h2 /\
    Forall2 (fun doc r => laidOut lo (KeyOf eng (flatOf r) pk) h2 doc r) docs2 rows.
Proof.
  intros Hr Hne. destruct (baseArrays_batch rows h Hr) as (h1&docs1&Hm1&Hp1&HR1). unfold arraysBatch. rewrite (bind_ret _ _ _ _ _ Hm1).
  destruct (ownChildren_batch eng tables all schema docs1 h1 ((fun r => withBaseArrays (flatOf r) (observe [] (flatOf r))) <$> rows)) as (h2&docs2&Hm2&Hp2&Hl2&HR2).
  - intros child Hc. split; [by apply (sa_children Hsource)|]. intros E. destruct (na_keys Hnames pk (list_elem_of_here _ _)) as (_&Hno&_).
    apply Hno. apply list_elem_of_fmap. by exists child.
  - apply (sa_range Hsource).
  - intros ->. apply Forall2_length in HR1. by destruct rows.
  - apply Forall2_fmap_r. eapply Forall2_impl; [exact HR1|]. by intros doc r [HR _].
  - exists h2, docs2, (length h1). split; [done|]. split; [by etrans|]. clear -HR1 HR2 Hl2 Hnames. revert docs2 HR2. induction HR1 as [|doc1 r docs1 rows [HRd He] _ IH]; intros docs2 HR2; cbn in HR2.
    + by apply Forall2_nil_inv_r in HR2 as ->.
    + apply Forall2_cons_inv_r in HR2 as (doc2&ds&[HRd2 Hn]&Hrest&->). constructor; [|by apply IH]. cbn [fst snd] in *.
      assert (Hpk : KeyOf eng doc1 pk = KeyOf eng (flatOf r) pk).
      { apply keyOf_ext. destruct (He pk) as [E|[Hin _]]; [done|]. by destruct (na_keys Hnames pk (list_elem_of_here _ _)). }
      rewrite Hpk in Hn. eapply laidOut_intro; [done|done|exact HRd|done| |exact HRd2|exact Hn]. unfold ownSegments. by rewrite length_fmap.
Qed.

(** ** Roles, embeds and enrichments *)

Definition laterRow (rootID : string) (doc : Doc) : HM Doc :=
  doc <- foldl (fun acc r => row <- acc;; applyRole c rootID all row r) (gret doc) viewRoles;;
  applyEmbeds c doc pk (vw_embeds view).

Definition laterBatch (docs : list Doc) : HM (list Doc) :=
  docs <- foldl (fun acc r => rows <- acc;; composeRoleBatch c rows pk r all) (gret docs) viewRoles;;
  applyEmbedsBatch c docs pk (vw_embeds view).

Lemma key_later col : col ∈ keyColumns -> col ∉ laterFields.
Proof. intros Hc. by destruct (na_keys Hnames col Hc) as (_&_&?). Qed.

Lemma viewRoles_sub r : r ∈ viewRoles -> r ∈ vw_roles view.
Proof. unfold viewRoles. destruct (vw_isSharedBaseView view); [done|]. by intros ?%not_elem_of_nil. Qed.

Lemma role_field r : r ∈ viewRoles -> r.1 ∈ laterFields.
Proof. intros Hr%viewRoles_sub. unfold laterFields. apply elem_of_app. left. apply list_elem_of_fmap. by exists r. Qed.

Lemma embed_field e : e ∈ vw_embeds view -> eb_field e ∈ laterFields.
Proof. intros He. unfold laterFields. apply elem_of_app. right. apply list_elem_of_fmap. by exists e. Qed.

Lemma embed_keyColumn e : e ∈ vw_embeds view -> embedKey pk e ∈ keyColumns.
Proof. intros He. unfold keyColumns. apply elem_of_cons. right. apply elem_of_app. right. apply list_elem_of_fmap. by exists e. Qed.

(** Flat documents whose keys are texts. *)
Definition goodFlat (rootID : string) (flat : Doc) : Prop := KeyOf eng flat pk = rootID /\ forall col, col ∈ keyColumns -> textKey flat col.

Lemma later_row rootID : rowStep keyColumns laterFields (goodFlat rootID) (fun flat sp => withEmbeds flat (withRoles flat sp)) (laterRow rootID).
Proof.
  intros h doc [flat sp] Hh [Hid Htk].
  edestruct (rowStep_fold keyColumns laterFields (fun flat => KeyOf eng flat pk = rootID) (fun r => roleSpec c tables all pk r) (fun row r => applyRole c rootID all row r) viewRoles) as (h1&doc1&Hm1&Hp1&Hh1&He1); [|exact Hh|exact Hid|].
  { intros r Hr. apply (role_row c tables); [apply (sa_roles Hsource), viewRoles_sub, Hr|by left|by apply role_field|apply key_later]. }
  edestruct (rowStep_fold keyColumns laterFields (fun flat => forall col, col ∈ keyColumns -> textKey flat col) (fun e => embedSpec c colls pk e) (fun doc e => fetchMongoEmbed c doc pk e) (vw_embeds view))
    as (h2&doc2&Hm2&Hp2&Hh2&He2); [|exact Hh1|exact Htk|].
  { intros e He. eapply rowStep_impl; [|apply (embed_row c store colls); [apply (st_store Hread)|by apply (st_embeds Hread)|by apply embed_keyColumn|by apply embed_field|apply key_later]].
    intros f Hf. by apply Hf, embed_keyColumn. }
  exists h2, doc2. unfold laterRow. rewrite (bind_ret _ _ _ _ _ Hm1). split; [done|]. split; [by etrans|]. split; [exact Hh2|].
  eapply fields_trans; [|exact He1|exact He2]. by apply prefix_length.
Qed.

Lemma later_batch : batchStep keyColumns laterFields
  (fun flats => NoDup (keysOf c pk flats) /\ (forall k, k ∈ keysOf c pk flats -> k <> "") /\ Forall (fun flat => forall col, col ∈ keyColumns -> textKey flat col) flats)
  (fun flat sp => withEmbeds flat (withRoles flat sp)) laterBatch.
Proof.
  intros h docs xs Hh (Hnd&Hkn&Htk) Hne.
  edestruct (batchStep_fold keyColumns laterFields (fun flats => NoDup (keysOf c pk flats) /\ forall k, k ∈ keysOf c pk flats -> k <> "") (fun r => roleSpec c tables all pk r)
    (fun rows r => composeRoleBatch c rows pk r all) viewRoles) as (h1&docs1&Hm1&Hp1&Hh1&He1); [|exact Hh|by split|exact Hne|].
  { intros r Hr. apply role_batch; [apply (sa_roles Hsource), viewRoles_sub, Hr|apply (sa_range Hsource)|by left|by apply role_field|apply key_later]. }
  assert (Hne1 : docs1 <> []) by (intros ->; apply Forall2_length in He1; by destruct docs).
  edestruct (batchStep_fold keyColumns laterFields (Forall (fun flat => forall col, col ∈ keyColumns -> textKey flat col)) (fun e => embedSpec c colls pk e)
    (fun docs e => applyEmbedBatch c docs store pk e) (vw_embeds view)) as (h2&docs2&Hm2&Hp2&Hh2&He2); [|exact Hh1|by rewrite <- list_fmap_compose|exact Hne1|].
  { intros e He. eapply batchStep_impl; [|apply embed_batch; [by apply (st_embeds Hread)|by apply embed_keyColumn|by apply embed_field|apply key_later]].
    intros flats Hf. eapply Forall_impl; [exact Hf|]. intros f Hff. by apply Hff, embed_keyColumn. }
  exists h2, docs2. unfold laterBatch. rewrite (bind_ret _ _ _ _ _ Hm1). split.
  { rewrite <- Hm2. unfold applyEmbedsBatch, requireStore. rewrite (st_store Hread). destruct (vw_embeds view); [done|]. by destruct docs1. }
  split; [by etrans|]. split.
  - rewrite <- list_fmap_compose in Hh2. exact Hh2.
  - eapply Forall2_compose; [|exact He1|exact He2]. intros x y z. apply fields_trans. by apply prefix_length.
Qed.

(** ** One root *)

Lemma enrich_conditions ce : ce ∈ vw_childEmbeds view ->
  childEmbedAnswers c store colls ce /\ cb_segment ce ∈ cb_segment <$> vw_childEmbeds view /\ cb_joinCol ce ∈ joinColumns /\ cb_field ce ∉ joinColumns.
Proof.
  intros Hce. split; [by apply (st_childEmbeds Hread)|]. split; [apply list_elem_of_fmap; by exists ce|]. split; [apply list_elem_of_fmap; by exists ce|].
  by apply (na_enrich Hnames).
Qed.

Lemma enrich_own : cb_segment <$> vw_childEmbeds view ⊆ ownSegments.
Proof. intros seg (ce&->&Hce)%list_elem_of_fmap. by apply (na_enrich Hnames). Qed.

(** The steps from the flat document on. *)
Definition composeFlat (rootID : string) (flat : Doc) : HM Doc :=
  doc <- arraysRow flat;;
  doc <- laterRow rootID doc;;
  applyChildEmbeds c doc (vw_childEmbeds view);;;
  gret doc.

Lemma composeFlat_run r k h : r ∈ rowsOf eng tables rootFetch k -> k <> "" ->
  exists h' doc, composeFlat k (flatOf r) h = (h', Ret doc) /\ observe h' doc ≡ composedOf r /\ KeyOf eng doc pk = k.
Proof.
  intros Hr Hk. destruct (arrays_row r k h Hr Hk) as (h2&doc2&lo&Hm2&Hp2&Hlaid). pose proof Hlaid as (HR2&Hkey2&Hplaced).
  destruct (later_row k h2 doc2 (flatOf r, withOwnArrays (flatOf r) (withBaseArrays (flatOf r) (observe [] (flatOf r))))) as (h3&doc3&Hm3&Hp3&[HR3 Hkey3]&He3).
  { by split. }
  { split; [by apply flatOf_key|]. intros col Hc. by eapply (kt_root Htexts). }
  destruct (applyChildEmbeds_run c store colls (st_store Hread) (cb_segment <$> vw_childEmbeds view) joinColumns (vw_childEmbeds view) h3 doc3 _ enrich_conditions HR3) as (h4&Hm4&_&[_ Ho]&_).
  { intros seg Hs. eapply placed_alone; [by apply Hplaced|by apply enrich_own]. }
  { by eapply laidOut_elements. }
  exists h4, doc3. unfold composeFlat. rewrite (bind_ret _ _ _ _ _ Hm2), (bind_ret _ _ _ _ _ Hm3), (bind_ret _ _ _ _ _ Hm4). split; [done|]. split; [exact Ho|].
  rewrite <- (flatOf_key r k Hr). apply keyOf_ext, Hkey3. by left.
Qed.

Lemma bind_assoc {A B D} (m : HM A) (f : A -> HM B) (g : B -> HM D) h : (y <- (x <- m;; f x);; g y) h = (x <- m;; y <- f x;; g y) h.
Proof. unfold gbind. by destruct (m h) as [h1 [a|e|p]]. Qed.

Lemma bind_ext {A B} (m : HM A) (f g : A -> HM B) h : (forall a h, f a h = g a h) -> (x <- m;; f x) h = (x <- m;; g x) h.
Proof. intros Hfg. unfold gbind. destruct (m h) as [h1 [a|e|p]]; [apply Hfg|done|done]. Qed.

Lemma composeRow_flat r k h : r ∈ rowsOf eng tables rootFetch k -> k <> "" ->
  (if vw_isSharedBaseView view then composeBaseRootedRow c view (rootDoc r) k all else composeRow c view (rootDoc r) k all) h = composeFlat k (flatOf r) h.
Proof.
  intros Hr Hk. unfold composeFlat, flatOf, arraysRow, laterRow, viewRoles. destruct (vw_isSharedBaseView view) eqn:Ev.
  - unfold composeBaseRootedRow. rewrite bind_assoc. rewrite (bind_ret (gret (rootDoc r)) _ h h (rootDoc r)) by done. apply bind_ext. intros d h1. by rewrite bind_assoc.
  - unfold composeRow. erewrite (bind_ret (liftO _)) by (unfold liftO; rewrite (siblings_one eng tables); [done|done|intros sib Hs; by destruct (sa_siblings Hsource sib Hs) as (?&?&?&?)]).
    assert (Hsib : withSiblings eng tables (rt_owner schema) all k (rootDoc r) = rootSiblings r) by (unfold rootSiblings; by rewrite (rootDoc_key r k Hr)). rewrite Hsib.
    rewrite (bind_ret (liftO (MergeSharedBase eng (rootSiblings r) schema all)) _ h h (withBase eng tables schema all (rootSiblings r))).
    + rewrite bind_assoc. apply bind_ext. intros d h1. apply bind_ext. intros d2 h2. rewrite bind_assoc. by rewrite (bind_ret (gret d2) _ h2 h2 d2).
    + unfold liftO. rewrite (base_one eng tables); [done|]. intros base Hb. destruct (sa_base Hsource base Hb) as (H1&_&H2&_). split; [|done].
      apply textKey_keyed; [done|]. apply (kt_link Htexts k r Hr). by rewrite Hb.
Qed.

Lemma Compose_run k h : k <> "" -> exists h' o, Compose c view k h = (h', Ret o) /\
  match head (rowsOf eng tables rootFetch k) with
  | Some r => exists doc, o = Some doc /\ observe h' doc ≡ composedOf r /\ KeyOf eng doc pk = k
  | None => o = None
  end.
Proof.
  intros Hk. unfold Compose. destruct (sa_root Hsource) as (H1&_&H2&_). pose proof (fetchRow_row _ _ rootFetch k H1 H2) as Hf. cbn in Hf.
  unfold gbind at 1, liftO. rewrite Hf. destruct (head (rowsOf eng tables rootFetch k)) as [r|] eqn:Eh; [|by exists h, None].
  assert (Hr : r ∈ rowsOf eng tables rootFetch k) by by apply head_Some_elem_of. fold (rootDoc r).
  destruct (composeFlat_run r k h Hr Hk) as (h'&doc&Hrun&Hob&Hkey). rewrite <- (composeRow_flat r k h Hr Hk) in Hrun.
  rewrite (bind_ret _ _ _ _ _ Hrun). exists h', (Some doc). split; [done|]. by exists doc.
Qed.

(** ** A batch *)

Lemma composeRows_flat rows h :
  (if vw_isSharedBaseView view then composeBaseRootedRowsBatched c view (rootDoc <$> rows) all else composeRowsBatched c view (rootDoc <$> rows) all) h =
  (docs <- arraysBatch (flatOf <$> rows);; laterBatch docs) h.
Proof.
  unfold arraysBatch, laterBatch, viewRoles. destruct (vw_isSharedBaseView view) eqn:Ev.
  - assert (Hflat : flatOf <$> rows = rootDoc <$> rows) by (apply list_fmap_ext; intros i r _; unfold flatOf; by rewrite Ev).
    unfold composeBaseRootedRowsBatched. rewrite Hflat, bind_assoc. by rewrite (bind_ret (gret (rootDoc <$> rows)) _ h h (rootDoc <$> rows)).
  - assert (Hflat : flatOf <$> rows = (fun r => withBase eng tables schema all (rootSiblings r)) <$> rows) by (apply list_fmap_ext; intros i r _; unfold flatOf; by rewrite Ev).
    unfold composeRowsBatched. rewrite (bind_ret (liftO _) _ h h (rootSiblings <$> rows)).
    2: { unfold liftO. rewrite (siblings_batch eng tables); [by rewrite <- list_fmap_compose|]. intros sib Hs. by destruct (sa_siblings Hsource sib Hs) as (?&?&?&?). }
    rewrite (bind_ret (liftO (MergeSharedBaseBatch eng (rootSiblings <$> rows) schema all)) _ h h (flatOf <$> rows)).
    2: { unfold liftO. rewrite (base_batch eng tables); [by rewrite <- list_fmap_compose, Hflat|]. intros base Hb. by destruct (sa_base Hsource base Hb) as (?&?&?&?). }
    rewrite bind_assoc. apply bind_ext. intros d h1. apply bind_ext. intros d2 h2. by rewrite (bind_ret (gret d2) _ h2 h2 d2).
Qed.

Lemma composeRows_run rows h : (forall r, r ∈ rows -> exists k, k <> "" /\ r ∈ rowsOf eng tables rootFetch k) -> NoDup (keysOf c pk (flatOf <$> rows)) ->
  exists h' docs, composeRows c view rows all h = (h', Ret docs) /\
    Forall2 (fun doc r => observe h' doc ≡ composedOf r /\ KeyOf eng doc pk = KeyOf eng (flatOf r) pk) docs rows.
Proof.
  intros Hr Hnd. unfold composeRows. destruct rows as [|r0 rs]; [by exists h, []|]. set (rows := r0 :: rs) in *.
  destruct (arrays_batch rows h) as (h2&docs2&lo&Hm2&Hp2&Hlaid); [intros r Hin; destruct (Hr r Hin) as (k&_&Hk); by exists k|done|].
  assert (Hne2 : docs2 <> []) by (intros ->; by apply Forall2_length in Hlaid).
  destruct (later_batch h2 docs2 ((fun r => (flatOf r, withOwnArrays (flatOf r) (withBaseArrays (flatOf r) (observe [] (flatOf r))))) <$> rows)) as (h3&docs3&Hm3&Hp3&Hh3&He3); [| |done|].
  { apply Forall2_fmap_r. eapply Forall2_impl; [exact Hlaid|]. intros doc r (HR&Hkey&_). by split. }
  { rewrite <- list_fmap_compose. change (list_fmap _ _ _ rows) with (flatOf <$> rows). split; [exact Hnd|]. split.
    - intros k (flat&->&Hflat)%list_elem_of_fmap. apply list_elem_of_fmap in Hflat as (r&->&Hin). destruct (Hr r Hin) as (k&Hk&Hrk). intros E. apply Hk. rewrite <- (flatOf_key r k Hrk). exact E.
    - apply Forall_fmap, Forall_forall. intros r Hin col Hc. destruct (Hr r Hin) as (k&Hk&Hrk). by eapply (kt_root Htexts). }
  rewrite <- list_fmap_compose in Hh3. rewrite Forall2_fmap_r in Hh3.
  assert (Hboth : Forall2 (fun doc r => holds keyColumns h3 doc (flatOf r, withEmbeds (flatOf r) (withRoles (flatOf r) (withOwnArrays (flatOf r) (withBaseArrays (flatOf r) (observe [] (flatOf r)))))) /\
    placed lo ownSegments (KeyOf eng (flatOf r) pk) doc /\ elementKeys (cb_segment <$> vw_childEmbeds view) joinColumns h3 doc) docs3 rows).
  { apply Forall2_same_length_lookup in Hlaid as [Hl1 Hlaid]. apply Forall2_same_length_lookup in He3 as [Hl3 He3]. apply Forall2_same_length_lookup in Hh3 as [Hl4 Hh3].
    apply Forall2_same_length_lookup. split; [lia|]. intros i doc r Hd Hri. destruct (lookup_lt_is_Some_2 docs2 i) as [d2 Hd2]; [rewrite Hl3; by eapply lookup_lt_Some|].
    destruct (Hr r ltac:(by eapply list_elem_of_lookup_2)) as (k&Hk&Hrk). pose proof (Hlaid i d2 r Hd2 Hri) as Hl. split; [exact (Hh3 i doc r Hd Hri)|]. split.
    - destruct Hl as (_&_&Hpl). apply Hpl. by eapply He3.
    - eapply laidOut_elements; [exact Hrk|done|exact Hl|done|]. by eapply He3. }
  destruct (eachRowEmbeds_run c store colls (st_store Hread) (cb_segment <$> vw_childEmbeds view) joinColumns (vw_childEmbeds view) h3 docs3
    ((fun r => withEmbeds (flatOf r) (withRoles (flatOf r) (withOwnArrays (flatOf r) (withBaseArrays (flatOf r) (observe [] (flatOf r)))))) <$> rows) enrich_conditions) as (h4&Hm4&_&HF&_).
  { apply Forall2_fmap_r. eapply Forall2_impl; [exact Hboth|]. intros doc r ([HR _]&Hpl&Hel). split; [exact HR|]. split; [|done].
    intros seg Hs. eapply placed_alone; [done|by apply enrich_own]. }
  { apply Forall2_same_length_lookup in Hboth as [Hlen Hb]. intros i j d d' Hij Hd Hd'.
    destruct (lookup_lt_is_Some_2 rows i) as [r Hri]; [rewrite <- Hlen; by eapply lookup_lt_Some|]. destruct (lookup_lt_is_Some_2 rows j) as [r' Hrj]; [rewrite <- Hlen; by eapply lookup_lt_Some|].
    destruct (Hb i d r Hd Hri) as (_&Hp&_). destruct (Hb j d' r' Hd' Hrj) as (_&Hp'&_). eapply apart_sub; [apply enrich_own|]. eapply placed_apart; [done|done|].
    intros E. apply Hij. eapply (NoDup_lookup _ _ _ (KeyOf eng (flatOf r) pk) Hnd); unfold keysOf; rewrite !list_lookup_fmap; [by rewrite Hri|rewrite Hrj; cbn; by rewrite E]. }
  exists h4, docs3. change ((fun r => RemapRevision (rowDoc r) root docRevisionField) <$> rows) with (rootDoc <$> rows). split.
  - rewrite (bind_ret _ _ _ h3 docs3); [by rewrite (bind_ret _ _ _ _ _ Hm4)|]. rewrite composeRows_flat. by rewrite (bind_ret _ _ _ _ _ Hm2).
  - rewrite Forall2_fmap_r in HF. apply Forall2_same_length_lookup in Hboth as [Hlen Hb]. apply Forall2_same_length_lookup in HF as [_ HF].
    apply Forall2_same_length_lookup. split; [done|]. intros i doc r Hd Hri. destruct (HF i doc r Hd Hri) as [_ Ho]. split; [exact Ho|].
    destruct (Hb i doc r Hd Hri) as ([_ Hk]&_). apply keyOf_ext, Hk. by left.
Qed.

(** Rows of distinct keys. *)
Lemma NoDup_by_key {A} (key : A -> string) (l : list A) : (forall k, (length (List.filter (fun x => String.eqb (key x) k) l) <= 1)%nat) -> NoDup (key <$> l).
Proof.
  induction l as [|x l IH]; intros Hl; [constructor|]. cbn. apply NoDup_cons. split.
  - intros (y&Hy&Hin)%list_elem_of_fmap. specialize (Hl (key x)). cbn in Hl. rewrite String.eqb_refl in Hl. cbn in Hl.
    destruct (List.filter (fun z => String.eqb (key z) (key x)) l) eqn:E; [|cbn in Hl; lia].
    assert (Hf : y ∈ List.filter (fun z => String.eqb (key z) (key x)) l) by (apply list_elem_of_In, filter_In; split; [by apply list_elem_of_In|by rewrite Hy, String.eqb_refl]).
    rewrite E in Hf. by apply not_elem_of_nil in Hf.
  - apply IH. intros k. specialize (Hl k). cbn in Hl. destruct (String.eqb _ _); cbn in Hl; lia.
Qed.

Lemma ComposeBatch_run ids h : NoDup ids -> "" ∉ ids ->
  exists h' docs rows, ComposeBatch c view ids h = (h', Ret docs) /\ NoDup (keysOf c pk docs) /\
    Forall2 (fun doc r => observe h' doc ≡ composedOf r /\ KeyOf eng doc pk = KeyOf eng (flatOf r) pk) docs rows /\
    (forall k r, k ∈ ids -> r ∈ rowsOf eng tables rootFetch k -> r ∈ rows) /\ (forall r, r ∈ rows -> exists k, k ∈ ids /\ r ∈ rowsOf eng tables rootFetch k).
Proof.
  intros Hnd Hne. destruct (decide (ids = [])) as [->|Hids]; [exists h, [], []; split; [done|]; split; [constructor|]; split; [constructor|]; set_solver|].
  destruct (sa_root Hsource) as (_&Hin&Hone&Hkept).
  destruct (fetchChunks_rows eng tables rootFetch (inChunks (length ids) ids) Hin) as (rows&Hrows&Hp); [by rewrite inChunks_concat|apply inChunks_piece|].
  rewrite inChunks_concat in Hp by done.
  assert (Hgrp : forall k, List.filter (fun r => String.eqb (rowKey eng pk r) k) rows ≡ₚ if bool_decide (k ∈ ids) then rowsOf eng tables rootFetch k else []).
  { intros k. rewrite Hp. by rewrite (selected_group eng tables rootFetch). }
  assert (Hof : forall r, r ∈ rows -> rowKey eng pk r ∈ ids /\ r ∈ rowsOf eng tables rootFetch (rowKey eng pk r)).
  { intros r Hr. assert (Hf : r ∈ List.filter (fun x => String.eqb (rowKey eng pk x) (rowKey eng pk r)) rows) by (apply list_elem_of_In, filter_In; split; [by apply list_elem_of_In|apply String.eqb_refl]).
    rewrite Hgrp in Hf. case_bool_decide; [done|by apply not_elem_of_nil in Hf]. }
  assert (Hkeys : keysOf c pk (flatOf <$> rows) = rowKey eng pk <$> rows).
  { unfold keysOf. rewrite <- list_fmap_compose. apply list_fmap_ext. intros i r Hr%list_elem_of_lookup_2. cbn. destruct (Hof r Hr) as [_ H1]. by apply flatOf_key. }
  assert (Hndk : NoDup (keysOf c pk (flatOf <$> rows))).
  { rewrite Hkeys. apply NoDup_by_key. intros k. rewrite (Permutation_length (Hgrp k)). case_bool_decide; [|cbn; lia]. unfold rowsOf. rewrite length_fmap. apply Hone. }
  destruct (composeRows_run rows h) as (h'&docs&Hrun&HF); [|done|].
  { intros r Hr. destruct (Hof r Hr) as [H1 H2]. exists (rowKey eng pk r). split; [|done]. intros E. by rewrite E in H1. }
  exists h', docs, rows. split; [|split; [|split; [done|split]]].
  - unfold ComposeBatch. destruct ids as [|i0 rest]; [done|]. unfold FetchByIDs. cbn in Hrows. erewrite (bind_ret (liftO _)); [exact Hrun|]. unfold liftO. cbn in *. by rewrite Hrows.
  - replace (keysOf c pk docs) with (keysOf c pk (flatOf <$> rows)); [done|]. unfold keysOf. clear -HF. induction HF as [|d r ds rs [_ Hk] _ IH]; [done|]. cbn in *. by rewrite IH, Hk.
  - intros k r Hk Hr. specialize (Hgrp k). rewrite bool_decide_eq_true_2 in Hgrp by done. rewrite <- Hgrp in Hr. apply list_elem_of_In, filter_In in Hr as [Hr _]. by apply list_elem_of_In.
  - intros r Hr. destruct (Hof r Hr) as [H1 H2]. eauto.
Qed.

End View.
