(* ===== verification/ComposerClaims.v ===== *)
(** * The composer composes what the view declares

    The document of one root and those of a batch, against the specification of
    [ComposerWhole.v]. *)

From S2P Require Import Prelude Naming Errors BaseEntity Criteria CriteriaSql Dialects Mongo Hydrate HydrateProps Composer ComposerProps ComposerRoles ComposerWhole.
From stdpp Require Import base gmap strings list fin_maps.
From Stdlib Require Import ZArith Lia.

Open Scope string_scope.
Open Scope list_scope.
Open Scope go_scope.


(** ** A shop *)

Module Shop.

Definition src (table id : string) (fields : list string) (link parent archived revision segment : string) : Source :=
  mkSource table id fields link parent "" "" archived revision [] [] segment.

Definition people : Source := src "people" "id" ["name"] "" "" "" "revision" "".
Definition addresses : Source := src "addresses" "id" ["street"] "" "person_id" "" "" "Addresses".
Definition customers : Source := src "customers" "id" ["region_id"] "person_id" "" "archived_at" "revision" "".
Definition vips : Source := src "vips" "id" ["tier"] "" "" "" "" "".
Definition orders : Source := src "orders" "id" ["product_id"] "" "customer_id" "" "" "Orders".
Definition notes : Source := src "notes" "id" ["note"] "" "" "" "" "".

Definition customer : RootSource := mkRootSource (mkOwner customers [vips]) [mkOwner orders [notes]] (Some (mkBaseSource people [addresses])).

Definition leg (table name : string) : SourceLeg := mkSourceLeg None table name [].

Definition customerView : ViewSource :=
  mkViewSource customer false false []
    [mkEmbedSource (leg "invoices" "invoices") true "customer_id" ""; mkEmbedSource (leg "regions" "region") false "region_id" ""]
    [mkChildEmbedSource "Orders" (leg "products" "product") "product_id"].


Definition row (l : list (string * string)) : Document := list_to_map ((fun c => (c.1, MStr c.2)) <$> l).

Definition tables (t : string) : list Document :=
  match t with
  | "people" => [row [("id", "p1"); ("name", "Ada")]; row [("id", "p2"); ("name", "Bob")]; row [("id", "p3"); ("name", "Eve")]]
  | "addresses" => [row [("id", "a1"); ("person_id", "p1"); ("street", "Elm")]; row [("id", "a2"); ("person_id", "p1"); ("street", "Oak")]]
  | "customers" => [row [("id", "c1"); ("person_id", "p1"); ("region_id", "r1")];
                    <["archived_at" := MDate 5]> (row [("id", "c0"); ("person_id", "p1")]);
                    row [("id", "c2"); ("person_id", "p2")];
                    <["archived_at" := MDate 7]> (row [("id", "c3"); ("person_id", "p3")])]
  | "vips" => [row [("id", "c1"); ("tier", "gold")]]
  | "orders" => [row [("id", "o1"); ("customer_id", "c1"); ("product_id", "x")]; row [("id", "o2"); ("customer_id", "c1")];
                 row [("id", "o3"); ("customer_id", "c2"); ("product_id", "y")]]
  | "notes" => [row [("id", "o2"); ("note", "gift")]]
  | _ => []
  end.

Definition colls (c : string) : list Document :=
  match c with
  | "invoices" => [row [("_id", "i1"); ("customer_id", "c1")]; row [("_id", "i2"); ("customer_id", "c2")]]
  | "regions" => [row [("_id", "r1"); ("label", "north")]]
  | "products" => [row [("_id", "x"); ("label", "tea")]]
  | _ => []
  end.

(** Its statements, by what they begin with. *)
Definition bare : Engine SqlArg := mkEngine _ pgDialect (fun _ _ => inr []) (fun _ => "?") "?" map_to_list.

Definition fetches : list Fetch :=
  [ mkFetch customers "customers" "id" "archived_at" true; sibFetch (rt_owner customer) true vips; baseFetch (mkBaseSource people []) true;
    childFetch addresses true; childFetch orders true; sibFetch (mkOwner orders [notes]) true notes;
    mkFetch customers "customers" "person_id" "archived_at" false ].

Definition beginning (f : Fetch) : string :=
  match selectFrom bare (readColsWithKey (fe_source f) (fe_key f)) (fe_table f), quoteIdent bare (fe_key f) with
  | Ret sel, Ret k => sqlText pgDialect (sel ++ TKw " WHERE " :: k)
  | _, _ => ""
  end.

Definition pick (sql : string) : option Fetch := List.find (fun f => String.prefix (beginning f +:+ " ") sql) fetches.

Definition texts (args : list SqlArg) : list string := omap (fun a => match a with AText k => Some k | _ => None end) args.

(** The archived roles of a person. *)
Definition archivedCustomers : Fetch := mkFetch customers "customers" "person_id" "" true.

Definition answer (sql : string) (args : list SqlArg) : GoErr + list Document :=
  if String.prefix (beginning archivedCustomers +:+ " = $1 AND archived_at IS NOT NULL") sql
  then inr (List.filter (fun r => match r !! "archived_at" with Some _ => true | None => false end) (selected bare tables archivedCustomers (texts args)))
  else match pick sql with
       | Some f => inr (selected bare tables f (texts args))
       | None => inl (ELeaf "no such statement")
       end.

Definition shop : Engine SqlArg := mkEngine _ pgDialect answer (fun _ => "?") "?" map_to_list.










(** ** Its read model *)

Definition textOf (x : GVal) : option string := match x with GPlain (SRaw (MStr s)) => Some s | _ => None end.

Definition readModel : Store :=
  mkStore (fun coll field x => inr (match textOf x with Some s => found colls coll field s | None => [] end))
    (fun coll field xs => inr (List.filter (fun d => existsb (fun s => strAt field s d) (omap textOf xs)) (colls coll))).



Definition composer : Composer SqlArg := mkComposer _ shop (Some readModel) id.






(** ** The two views *)


























End Shop.


(** The document of a customer: its orders with the note of one and the product of the other. *)
Example shop_customer_orders :
  let run := Compose Shop.composer Shop.customerView "c1" [] in
  match run.2 with
  | Ret (Some doc) => observe run.1 doc !! "Orders" = Some (OPlain (OArr
      [<["product" := MDoc (Shop.row [("_id", "x"); ("label", "tea")])]> (Shop.row [("id", "o1"); ("customer_id", "c1"); ("product_id", "x")]);
       <["product" := MNull]> (Shop.row [("id", "o2"); ("customer_id", "c1"); ("note", "gift")])]))
  | _ => False
  end.
Proof. vm_compute. reflexivity. Qed.
