(* ===== verification/PayloadClaims.v ===== *)
(** * The outbox contract between the write and the read side

    The identity block the write side renders ([outboxMeta.idsBlock] of
    [infra/db/command/write/outbox_payload.go]) as the read side decodes it
    ([decodeIDsBlock] and [parsePayloadIDs] of [infra/db/query]). *)

From S2P Require Import Prelude Naming GoStrings Errors WriteSchema Persister Mongo Projection Consult Sync.
From stdpp Require Import base gmap strings list fin_maps.
From Stdlib Require Import Ascii ZArith Lia.

Open Scope string_scope.
Open Scope list_scope.
Open Scope Z_scope.

(** The JSON object of an identity block; [render] is the text of an instant. *)
Definition idsJson (render : Z -> string) (b : IdsBlock) : gmap string JVal :=
  let m := {["id" := JStr (ib_id b)]} : gmap string JVal in
  let m := match ib_revision b with Some n => <["revision" := JNum (itoa n)]> m | None => m end in
  let m := match ib_base b with
           | Some (id, n) => <["base_id" := JStr id]> (<["base_revision" := JNum (itoa n)]> m)
           | None => m
           end in
  let m := if ib_basePurged b then <["base_purged" := JBool true]> m else m in
  match ib_createdAt b with Some t => <["created_at" := JStr (render t)]> m | None => m end.

(** What the read side knows of a write's identity. *)
Definition readIDs (render : Z -> string) (m : outboxMeta) : payloadIDs :=
  mkPayloadIDs (om_ID m) (om_Revision m) (om_BaseID m) (om_BaseRevision m) (om_BasePurged m)
    (if isZeroTime (om_CreatedAt m) then "" else render (om_CreatedAt m)).

(** C24: The identity block of an event survives the wire: the projector's reader and the
    router's reader both give back the ids, revisions and flags the write stamped. *)
Theorem ids_block_round_trips (render : Z -> string) (m : outboxMeta) :
  0 <= om_Revision m <= int64_max -> 0 <= om_BaseRevision m <= int64_max ->
  (om_BaseID m = "" -> om_BaseRevision m = 0) ->
  let payload := {["_ids" := JObj (idsJson render (idsBlock m))]} : gmap string JVal in
  rawPayloadIDs payload = readIDs render m /\ parsePayloadIDs (Some payload) = Some (readIDs render m).
Proof.
  intros Hr Hb Hnone payload. unfold payload, rawPayloadIDs, parsePayloadIDs. cbn [mbind option_bind].
  rewrite lookup_singleton_eq. unfold decodeIDsBlock, readIDs, idsJson, idsBlock.
  cbn [ib_id ib_revision ib_base ib_basePurged ib_createdAt].
  destruct (Z.ltb_spec 0 (om_Revision m)) as [Hrev|Hrev];
    [|replace (om_Revision m) with 0 by lia];
  (destruct (String.eqb_spec (om_BaseID m) "") as [Hid|Hid]; [rewrite Hid, (Hnone Hid)|]);
  destruct (om_BasePurged m), (isZeroTime (om_CreatedAt m)); simplify_map_eq;
  cbn; rewrite ?atoi_itoa by done; done.
Qed.

Lemma ids_block_round_trips_witness :
  rawPayloadIDs {["_ids" := JObj (idsJson itoa (idsBlock (mkMeta "c1" 7 "p1" 9 false 5000)))]} =
    mkPayloadIDs "c1" 7 "p1" 9 false "5000".
Proof.
  destruct (ids_block_round_trips itoa (mkMeta "c1" 7 "p1" 9 false 5000)) as [E _].
  - cbn. unfold int64_max. lia.
  - cbn. unfold int64_max. lia.
  - discriminate.
  - exact E.
Defined.
